(* ===== verification/_CoqProject ===== *)
-Q . S2P
Prelude.v
Str.v
PatchSyntax.v
PatchStream.v
PatchParser.v
PatchGrammar.v
SeekSequence.v
TextFile.v
FileUpdate.v
PatchApply.v
Float64.v
Json.v
Search.v
SearchTree.v
SearchBatch.v
SearchProps.v
StreamText.v
InlineTag.v
TaggedLine.v
ProposedPlan.v
Utf8Stream.v
AssistantText.v
AbsolutePath.v
ExecPolicy.v
ExecPolicyProps.v
Memory.v
Truncate.v
OutputTruncation.v
Template.v
IpAddr.v
DomainMatcher.v
DomainSet.v
NetworkPolicy.v
WindowsCommand.v
BashParse.v
DangerousCommand.v
PolicyFile.v
Readiness.v
ResponseItem.v
HistoryNormalize.v
JsonOps.v
ModelSchema.v
ModelContracts.v
KernelIo.v
HostSessions.v
HostProps.v
SearchStore.v
MemoryPrompt.v
KernelRoles.v
Controller.v
ControllerProps.v
KernelRun.v
Worker.v
FileUri.v
FileUriLaws.v
FileUriProps.v
FileUriOrder.v
FileUriJoin.v
NativePath.v
NativePathProps.v
UrlModel.v
MemFs.v
TurnDiff.v
Permissions.v
PermissionsTarget.v
PermissionsProps.v
TargetProps.v
PathWitness.v
Fmt.v
KernelAssets.v
Feedback.v
FeedbackProps.v
Analyzers.v
Analysis.v
AnalyzerProps.v
Profilers.v
ProfilersProps.v
Evaluation.v
EvaluationProps.v
DomainWitness.v
