(* ===== verification/Prelude.v ===== *)
(** * A verification of the pure core of Cubineer's Rust workspace

    Cubineer ([src/codex-rs/]) is an agent that edits files and searches for
    fast kernels.  This library models the parts of it whose correctness is a
    matter of data and control flow, and proves what they promise.  Code that
    is not part of the repository (libm, SHA-1, the diff, multimap, url and
    globset crates, [shlex]) and the operating system (file systems, the current directory)
    are parameters, with the documented facts a theorem needs as hypotheses;
    every theorem with hypotheses has a witness at concrete data.

    ** The parts and how they interact

    - apply-patch.  A patch text is parsed line by line ([PatchStream], the
      machine of [streaming_parser.rs]; [PatchParser], the entry point and the
      lenient heredoc mode of [parser.rs]; [PatchSyntax], the data) into hunks.
      An update finds its lines in the file ([SeekSequence] for
      [seek_sequence.rs]), computes replacements ([FileUpdate] for
      [file_update.rs]) and splices them into the file's lines ([TextFile] for
      [text_file.rs]).  [PatchApply] models [lib.rs]: every arm of
      [apply_hunks_to_files] over a file system given by its operations, the
      recorded delta and the messages; its laws (class [FileSystemLaws]) say
      when the metadata of a path can be trusted.  [MemFs] discharges the path
      operations by the model of path-uri and runs patches on a file system
      with symbolic links.  [PatchGrammar] prints patches of the documented
      grammar.
    - core: [TurnDiff] models [turn_diff_tracker.rs], which consumes the deltas
      of apply-patch; [HistoryNormalize] models [context_manager/normalize.rs]
      and the operations of [history.rs] that use it, on the items of
      [ResponseItem] (protocol, history and context-fragments).
    - kernel-search: [Float64] (binary64 arithmetic), [Json] (untyped outcome
      data), [Search] (the operations of [node.rs], [config.rs], [greedy.rs],
      [mcts.rs], [lib.rs] and the trace program), [SearchTree] and
      [SearchBatch] (lemmas on the tree and on a recorded batch), [SearchProps]
      (the theorems).
    - stream-parser: [StreamText] (the trait and its runs), [InlineTag]
      ([inline_hidden_tag.rs], [citation.rs]), [TaggedLine]
      ([tagged_line_parser.rs]), [ProposedPlan] ([proposed_plan.rs]),
      [Utf8Stream] ([utf8_stream.rs], over any parser that satisfies the
      interface [Transparent]) and [AssistantText] ([assistant_text.rs], which
      composes the citation and the plan parser).
    - absolute-path: [AbsolutePath] ([lib.rs] and [absolutize.rs], for Unix).
    - path-uri: [FileUri] ([lib.rs], [absolute_path_normalization.rs] and the
      device names of [absolute-path/src/lib.rs]) has the file URIs and their
      operations over the class [Url], the operations of the url, urlencoding and
      base64 crates that the source calls; [FileUriLaws] has the laws of these
      (class [UrlLaws]), [FileUriProps], [FileUriOrder] and [FileUriJoin] the
      theorems.  [NativePath] ([api_path_string.rs], [config_path.rs],
      [native_path_bytes.rs]) reads and renders native texts, [NativePathProps]
      has its theorems, and [UrlModel] is a URL library that satisfies the laws.
    - protocol: [Permissions] ([permissions.rs]) and [PermissionsTarget]
      ([permissions/target.rs], [deny_read_validator.rs], [windows_glob.rs]) are
      the file-system policies over path URIs, with the globset crate as the class
      [GlobCrate]; [PermissionsProps] and [TargetProps] have the theorems, and
      [PathWitness] runs them and the operations of path-uri on concrete data.
    - execpolicy: [ExecPolicy] ([decision.rs], [rule.rs], [policy.rs],
      [executable_name.rs], [error.rs]) and [ExecPolicyProps]; [PolicyFile]
      ([amend.rs], [sandbox_migration.rs]) edits policy files; a program's path
      is resolved by [AbsolutePath], the multimap of rules is the class
      [MultiMap] with its laws [MultiMapLaws].
    - kernel: a run of the kernel search.  [Controller] models [optimize] of
      [controller.rs] and [ControllerProps] its guarantees; it selects and
      records with [Search], uses the roles of [KernelRoles] ([roles.rs], and
      the arguments of [cli.rs]), keeps its memory with [Memory]
      ([Snapshot::merge]) and [MemoryPrompt] (the rest of [memory.rs] and the
      input of an extraction) and stores it in [SearchStore]
      ([state/src/runtime/memories/search.rs] and the deletions of
      [memories.rs]).  [KernelIo] has the monad of its
      effects with a logic of triples, and the interfaces to the disk, the
      worker and the sessions.  [HostSessions] models [Host::batch] of [host.rs]
      over an interface to the app-server, [HostProps] its guarantees, which
      [KernelRun] uses to discharge what the controller assumes of sessions.
      [Worker] models [worker.rs]; the answers of models are validated by
      [ModelSchema] ([domain/models.rs], on the JSON operations of [JsonOps])
      against the bundled contracts of [ModelContracts].  Of the domain,
      [Feedback] models [feedback.rs], [Analyzers] and [Analysis] the analyzers
      and [analysis.rs], [Profilers] the readers of [profilers.rs], [Evaluation]
      the evaluations of [simulated.rs] and [gpu.rs]; [KernelAssets] has the
      bundled texts, [Fmt] the formatting and total order of floats, and
      [FeedbackProps], [AnalyzerProps], [ProfilersProps] and [EvaluationProps]
      the theorems, run on data by [DomainWitness].
    - utils: [Truncate] ([string/src/truncate.rs] and the byte cut of
      [string/src/lib.rs]), used by [OutputTruncation]
      ([output-truncation/src/lib.rs], on the policies and content items of the
      protocol crate); [Template] ([template/src/lib.rs]); [Readiness]
      ([readiness/src/lib.rs] as a machine of steps over tokio's watch channel).
    - network-proxy: [IpAddr] (the addresses of the standard library),
      [DomainMatcher] and [DomainSet] ([domain_matcher.rs]: the wildcard matcher
      and the compiled sets), [NetworkPolicy] ([policy.rs]).
    - shell-command: [BashParse] ([bash.rs] over a syntax tree, and
      [detect_shell_type] of [shell_detect.rs]), [WindowsCommand]
      ([windows_dangerous_commands.rs]) and [DangerousCommand]
      ([is_dangerous_command.rs], which uses both).

    [Prelude] has the result type with panics as values, the shared tactics and
    list lemmas; [Str] has Rust strings as lists of Unicode scalar values with
    the operations of the standard library that the sources call.

    ** Modelling conventions

    A Rust function is a Gallina function; a [Result] is [res], whose third
    value [Panic] stands for an index out of range, an arithmetic overflow, a
    failed assertion or [expect]; [&mut self] is state passing; the effectful
    part of apply-patch is a state-and-error monad over an abstract file system,
    that of the kernel crate one over an abstract world; an asynchronous function
    runs its effects in order, and concurrent tasks are a step relation.
    [usize] is [nat] where the source's values are lengths and indices, with the
    subtractions that may underflow written as such; [i64] is [Z] with its
    bound.  A [HashMap] is a finite map; where the source iterates over one the
    order is a parameter constrained to be some enumeration.  A loop that is not
    structural has fuel: the length of the remaining text (inline tags, UTF-8
    decoding, templates), the number of entries (memory), the number of nodes
    (search), one pass over the pattern per position of the host (domain
    matching), the byte limit (previews of MCP results), the nodes of a syntax
    tree (shell scripts), the depth of wrappers (dangerous commands), the depth
    of a schema (model contracts), the length of a path (ancestors), the lines
    of a rule report, the budget of iterations (the controller),
    and the theorems prove that the fuel suffices.  The event loop of a batch of
    sessions runs over the finite list of events before its deadline.

    ** What is proved

    - Parsing a patch: which texts of the documented grammar are accepted, a
      round trip with the printer for those, the heredoc mode,
      independence from how the stream is cut, totality, completeness of hunks.
    - Updating a file: the search returns the first position of the strictest
      pass; replacements are ordered, disjoint and in range; the splice equals
      its reference; an update rewrites one block per chunk in order and puts
      pure additions behind the last line; reading and writing a file is the
      identity.
    - Applying a patch: without dangling links or files of two names, and
      without links to removed files, an exact delta replays and undoes the
      change, also after a failure, and success refines the reference semantics
      of hunks; no panic; the contract of the whole command.
    - Tracking: on exact deltas without a move onto itself the tracker follows
      the files; its cache is invisible, its diff is the net diff.
    - Searching: the tree invariant over all reachable states, statistics as
      sums over subtrees, validity of selections, acceptance of exactly the
      valid batches, the winner, the current best, greedy selection, the budget.
    - Streaming: each parser equals a reference on the whole text however the
      text, or its bytes, are cut; refusal of exactly the invalid bytes.
    - Policies: the strictest matching rule decides, overlays only add, the
      last network rule decides, hosts are plain; paths are normal forms;
      appending a rule adds one line and the migration removes it when banned.
    - Path URIs: every operation returns a valid URI or an error; equality and
      hashes agree; containment is the prefix order of the decoded names;
      ancestors end at the root; a join resolves names lexically and stays below
      drive and share; native texts make a round trip.
    - Permissions: the innermost entry that contains a path decides and denials
      win; the full-disk shortcut agrees with it unless an entry is unclear;
      metadata directories stay protected without full-disk access; making
      project roots concrete, replacing grants and approving a command keep the
      denials; matchers fail closed; accepted profiles reopen no managed denial.
    - Memory: acceptance of exactly the valid findings, no fact replaced by an
      inference, sections cut to their size; commits are a compare-and-swap
      scoped to a run; until a deletion snapshots are append-only and stale
      writers are refused under any interleaving.
    - Runs: no panic and termination within the budget (of at least one
      iteration), one piece of saved evidence per node with the node's outcome,
      the saved winner, a memory that is the newest stored snapshot; a batch of
      sessions answers each session and, if it is not dropped, asks to close
      what it started; an external answer belongs to its request.
    - Domain: an evaluation read its source with the submitted digest before and
      after and yields an outcome the search accepts; well-formed reports always
      have an analysis that leaves no finding out; the reported stall and limit
      are the extreme ones; rule reports and tables are read completely, ranked
      and finite; every feedback renders with code, error and hint.
    - Contracts: accepted answers conform and are stable, bundled contracts are
      decided, the schemas sent to models are strict.
    - Histories: normalization establishes the pairing of calls and outputs and
      replaces nothing but unsupported media; removing the first item keeps the
      pairing.
    - Readiness: every interleaving refines the sequential flag, with every
      answer accounted for, and a registered waiter is woken.
    - Truncation: both ends are kept within the budget around an exact marker,
      media and order are preserved, previews shrink until they fit.
    - Templates: printing and parsing are inverse; rendering succeeds exactly
      when the variables are the placeholders.
    - Network policy: the greedy matcher decides the pattern language, a set
      matches what its patterns mean, a constraint is inclusion of hosts, the
      refused addresses are exactly the reserved ranges.
    - Command safety: an accepted plain script has literal words only; a
      dangerous command is flagged through every wrapper up to the limit, and
      beyond it always.
    - Divergences shown by theorems: the parser refuses updates without a change
      and contexts without a line, which the grammar has; adding a file at a
      dangling link gives a wrong exact delta; an escaped separator in an entry
      denies everything although full-disk access is reported; a budget of zero
      makes one iteration; a move onto itself deletes the file and is
      tracked as present; a bare end marker is accepted; nested delimiters
      depend on the cuts; relative programs reach basename rules; a wake-up can
      be lost; a mismatched child session is left open; the protection of nested
      metadata directories depends on the order of the entries; the full-disk
      check overlooks other drives; a join can leave the POSIX convention; equal
      Windows URIs can contain different URIs; a parent can be the same place.

    ** Not modelled

    [invocation.rs] and the policy language rest on third-party parsers
    (tree-sitter, Starlark), and so does the reading of datasets (a Python parser).
    The start of a kernel run and its profiler processes, the proxies, the agent's sessions, tools, servers, most of the storage, sandboxes
    and user interface are input/output around third-party services.  Of path-uri
    and the permissions, the conversions from and to paths of the local host, the
    adapters for local paths and the legacy sandbox policies depend on the host's
    file system; the writable roots computed for it are left out with them.  The
    token estimates of histories, the fuzzy matcher, the summaries of shell
    commands, the kernel's prompts and scripts and the scaling of truncation
    policies by a float are pure and left out for their size. *)
From Stdlib Require Export Lia Sorted.
From stdpp Require Export base option numbers list list_numbers.

(** ** Results

    A Rust function that returns [Result<A, E>] has one of two values; one
    that may also panic (an index out of range, a subtraction below zero on
    an unsigned integer, an [assert!]) has a third outcome.  Keeping the panic
    as a value lets the theorems state that it is never reached. *)
Inductive res (E A : Type) : Type :=
  | Ok (a : A)
  | Err (e : E)
  | Panic.
Arguments Ok {E A} a.
Arguments Err {E A} e.
Arguments Panic {E A}.

#[export] Instance res_ret {E} : MRet (res E) := λ A a, Ok a.
#[export] Instance res_bind {E} : MBind (res E) := λ A B f x,
  match x with Ok a => f a | Err e => Err e | Panic => Panic end.
#[export] Instance res_fmap {E} : FMap (res E) := λ A B f x,
  match x with Ok a => Ok (f a) | Err e => Err e | Panic => Panic end.

Definition is_ok {E A} (r : res E A) : bool :=
  match r with Ok _ => true | _ => false end.
Definition is_panic {E A} (r : res E A) : bool :=
  match r with Panic => true | _ => false end.

(** [Option::ok_or], [Option::context]. *)
Definition ok_or {E A} (o : option A) (e : E) : res E A :=
  match o with Some a => Ok a | None => Err e end.

(** [ensure!(c, e)]. *)
Definition ensure {E} (c : bool) (e : E) : res E unit :=
  if c then Ok tt else Err e.

(** [a - b] on [usize] (a panic below zero) and [&l[a..b]]. *)
Definition usub {E} (a b : nat) : res E nat :=
  if decide (b ≤ a) then Ok (a - b) else Panic.
Definition slice {E A} (l : list A) (a b : nat) : res E (list A) :=
  if decide (a ≤ b ∧ b ≤ length l) then Ok (take (b - a) (drop a l)) else Panic.
(** [l[i]]. *)
Definition index {E A} (l : list A) (i : nat) : res E A :=
  match l !! i with Some a => Ok a | None => Panic end.

(** [iter().map(f).collect::<Result<Vec<_>, _>>()] *)
Fixpoint res_mapM {E A B} (f : A → res E B) (l : list A) : res E (list B) :=
  match l with
  | [] => Ok []
  | x :: l => y ← f x; ys ← res_mapM f l; Ok (y :: ys)
  end.

(** ** Option predicates used by the sources *)
Definition is_some_and {A} (f : A → bool) (o : option A) : bool :=
  match o with Some a => f a | None => false end.
Definition is_none_or {A} (f : A → bool) (o : option A) : bool :=
  match o with Some a => f a | None => true end.
Definition is_some {A} (o : option A) : bool :=
  match o with Some _ => true | None => false end.
Definition is_none {A} (o : option A) : bool :=
  match o with Some _ => false | None => true end.

(** [Vec::is_empty] *)
Definition is_empty {A} (l : list A) : bool :=
  match l with [] => true | _ => false end.

(** [if let Some(x) = v.last_mut() { f(x) }]. *)
Fixpoint update_last {A} (f : A → A) (l : list A) : list A :=
  match l with
  | [] => []
  | [x] => [f x]
  | x :: l => x :: update_last f l
  end.

(** [iter().find(f)]. *)
Fixpoint find_first {A} (f : A → bool) (l : list A) : option A :=
  match l with
  | [] => None
  | x :: l => if f x then Some x else find_first f l
  end.

(** [iter().position(f)]. *)
Fixpoint position {A} (f : A → bool) (l : list A) : option nat :=
  match l with
  | [] => None
  | x :: l => if f x then Some 0 else S <$> position f l
  end.

(** ** Tactics *)

(** Case analysis on every [match]/[if] of the goal, keeping the equations. *)
Ltac cases :=
  repeat (case_match; simplify_eq/=; try done).

(** Break a [res]-monadic hypothesis into the equations of its steps. *)
Ltac res_inv H :=
  repeat match type of H with
  | (match ?x with _ => _ end) = Ok _ =>
      let E := fresh "E" in destruct x eqn:E; simpl in H; simplify_eq
  | (mbind _ ?x) = Ok _ =>
      let E := fresh "E" in destruct x eqn:E; simpl in H; simplify_eq
  end.

(** ** Generic lemmas *)
Create HintDb cubineer.

Section results.
Context {E A B : Type}.

Lemma ok_or_Ok (o : option A) (e : E) a : ok_or o e = Ok a ↔ o = Some a.
Proof. destruct o; naive_solver. Qed.

Lemma ensure_Ok (c : bool) (e : E) : ensure c e = Ok tt ↔ c = true.
Proof. destruct c; naive_solver. Qed.

Lemma usub_Ok a b : b ≤ a → @usub E a b = Ok (a - b).
Proof. intros. unfold usub. by rewrite decide_True. Qed.

Lemma slice_Ok (l : list A) a b :
  a ≤ b → b ≤ length l → @slice E A l a b = Ok (take (b - a) (drop a l)).
Proof. intros. unfold slice. by rewrite decide_True. Qed.

Lemma index_Ok (l : list A) i a : l !! i = Some a → @index E A l i = Ok a.
Proof. unfold index. by intros ->. Qed.

Lemma res_mapM_Ok (f : A → res E B) l ys :
  res_mapM f l = Ok ys ↔ Forall2 (λ x y, f x = Ok y) l ys.
Proof.
  revert ys; induction l as [|x l IH]; intros ys; simpl.
  - split; [by intros [= <-]; constructor|]. by inversion 1.
  - split.
    + intros H. destruct (f x) eqn:Hx; simplify_eq/=.
      destruct (res_mapM f l) eqn:Hl; simplify_eq/=.
      constructor; [done|]. by apply IH.
    + inversion 1 as [|? y ? ys' Hx Hl]; subst. rewrite Hx. simpl.
      apply IH in Hl. by rewrite Hl.
Qed.
End results.

Section lists.
Context {A : Type}.
Implicit Types l : list A.

Lemma is_empty_true l : is_empty l = true ↔ l = [].
Proof. by destruct l. Qed.
Lemma is_empty_false l : is_empty l = false ↔ l ≠ [].
Proof. by destruct l. Qed.

Lemma update_last_snoc (f : A → A) l x : update_last f (l ++ [x]) = l ++ [f x].
Proof.
  induction l as [|y l IH]; [done|]. simpl. rewrite IH.
  by destruct l.
Qed.

Lemma update_last_length (f : A → A) l : length (update_last f l) = length l.
Proof.
  destruct l as [|x l _] using rev_ind; [done|].
  by rewrite update_last_snoc, !length_app.
Qed.

Lemma last_snoc_inv l x : last l = Some x → ∃ l', l = l' ++ [x].
Proof. apply last_Some. Qed.

Lemma find_first_Some (f : A → bool) l x :
  find_first f l = Some x → x ∈ l ∧ f x = true.
Proof.
  induction l as [|y l IH]; simpl; [done|].
  destruct (f y) eqn:E; [|rewrite elem_of_cons; naive_solver].
  intros [= ->]. split; [left|done].
Qed.

Lemma find_first_None (f : A → bool) l :
  find_first f l = None ↔ Forall (λ x, f x = false) l.
Proof.
  induction l as [|y l IH]; simpl; [by split|].
  rewrite Forall_cons. destruct (f y) eqn:E; naive_solver.
Qed.

Lemma position_Some (f : A → bool) l i :
  position f l = Some i ↔
  ∃ x, l !! i = Some x ∧ f x = true ∧
       ∀ j y, j < i → l !! j = Some y → f y = false.
Proof.
  revert i; induction l as [|y l IH]; intros i; simpl.
  { split; [done|]. by intros (x & ? & _). }
  destruct (f y) eqn:E.
  - split.
    + intros [= <-]. exists y. repeat split; try done. intros; lia.
    + intros (x & Hx & Hf & Hmin). destruct i; [done|].
      specialize (Hmin 0 y ltac:(lia) eq_refl). congruence.
  - rewrite fmap_Some. split.
    + intros (j & Hj & ->). apply IH in Hj as (x & Hx & Hf & Hmin).
      exists x. repeat split; try done.
      intros [|j'] z Hlt Hz; simplify_eq/=; [done|]. eapply Hmin; [|done]. lia.
    + intros (x & Hx & Hf & Hmin). destruct i as [|i]; simplify_eq/=; [congruence|].
      exists i. split; [|done]. apply IH. exists x. repeat split; try done.
      intros j z Hj Hz. apply (Hmin (S j) z); [lia|done].
Qed.

Lemma position_None (f : A → bool) l :
  position f l = None ↔ Forall (λ x, f x = false) l.
Proof.
  induction l as [|y l IH]; simpl; [by split|].
  rewrite Forall_cons. destruct (f y) eqn:E; [naive_solver|].
  rewrite fmap_None. naive_solver.
Qed.
End lists.

(** Filters that agree on the elements of the list. *)
Lemma list_filter_ext {A} (P Q : A → Prop) `{∀ x, Decision (P x), ∀ x, Decision (Q x)} (l : list A) :
  (∀ x, x ∈ l → P x ↔ Q x) → filter P l = filter Q l.
Proof.
  induction l as [|x l IH]; intros Hiff; [done|]. rewrite !filter_cons.
  pose proof (Hiff x (list_elem_of_here _ _)) as Hx.
  rewrite IH by (intros; apply Hiff; by right).
  repeat case_decide; tauto.
Qed.

Lemma list_filter_nil {A} (P : A → Prop) `{∀ x, Decision (P x)} (l : list A) :
  (∀ x, x ∈ l → ¬ P x) → filter P l = [].
Proof.
  induction l as [|x l IH]; intros Hn; [done|]. rewrite filter_cons, decide_False.
  - apply IH. intros. apply Hn. by right.
  - apply Hn. left.
Qed.

#[export] Hint Resolve update_last_length : cubineer.

(** ** The first maximum of a list

    The loops of the form [if best.is_none_or(|b| key(x) > key(b)) { best =
    Some(x) }]. *)
Section first_max.
Context {A : Type} (gt : A → A → bool).

Definition better (best : option A) (x : A) : option A :=
  if is_none_or (λ b, gt x b) best then Some x else best.
Definition first_max (l : list A) : option A := foldl better None l.

(** [gt] is a strict weak order on the elements that satisfy [ok]. *)
Context (ok : A → Prop).
Hypothesis gt_trans : ∀ x y z, ok x → ok y → ok z → gt x y = true → gt y z = true → gt x z = true.
Hypothesis gt_split : ∀ x y z, ok x → ok y → ok z → gt x z = true → gt x y = true ∨ gt y z = true.

Definition is_first_max (l : list A) (o : option A) : Prop :=
  match o with
  | None => l = []
  | Some b => ∃ l1 l2, l = l1 ++ b :: l2 ∧ Forall (λ x, gt b x = true) l1
               ∧ Forall (λ x, gt x b = false) l2
  end.

Lemma better_first_max l o x :
  Forall ok (l ++ [x]) → is_first_max l o → is_first_max (l ++ [x]) (better o x).
Proof.
  intros Hok. apply Forall_app in Hok as [Hl [Hx _]%Forall_cons]. unfold better.
  destruct o as [b|]; simpl.
  - intros (l1 & l2 & -> & H1 & H2). apply Forall_app in Hl as [Hl1 [Hb Hl2]%Forall_cons].
    destruct (gt x b) eqn:E.
    + exists (l1 ++ b :: l2), []. split; [done|]. split; [|done].
      rewrite Forall_forall in *. intros y Hy. apply elem_of_app in Hy as [Hy|[->|Hy]%elem_of_cons].
      * by eapply (gt_trans x b y); auto.
      * done.
      * destruct (gt_split x y b) as [?|Hyb]; auto. rewrite H2 in Hyb; done.
    + exists l1, (l2 ++ [x]). rewrite <-app_assoc. split; [done|]. split; [done|].
      apply Forall_app. split; [done|]. by apply Forall_singleton.
  - intros ->. exists [], []. done.
Qed.

Lemma first_max_spec l : Forall ok l → is_first_max l (first_max l).
Proof.
  induction l as [|x l IH] using rev_ind; intros Hok; [done|].
  unfold first_max. rewrite foldl_app. simpl. apply better_first_max; [done|].
  apply IH. by apply Forall_app in Hok as [? _].
Qed.

(** Taking the best of a batch first and comparing it with the best so far is
    the same as going through the batch from the best so far. *)
Lemma foldl_better o l :
  Forall ok l → (∀ a, o = Some a → ok a) →
  foldl better o l = match first_max l with Some b => better o b | None => o end.
Proof.
  intros Hl Ho. induction l as [|x l IH] using rev_ind; [done|].
  apply Forall_app in Hl as [Hl [Hx _]%Forall_cons]. specialize (IH Hl).
  pose proof (first_max_spec l Hl) as Hm. unfold first_max in *. rewrite !foldl_app. simpl.
  rewrite IH. destruct (foldl better None l) as [b|]; simpl in Hm; [|done].
  assert (ok b) as Hb.
  { destruct Hm as (l1 & l2 & -> & _). by apply Forall_app in Hl as [_ [? _]%Forall_cons]. }
  destruct o as [a|]; [|by unfold better; simpl; destruct (gt x b)]. specialize (Ho a eq_refl). unfold better. simpl.
  destruct (gt b a) eqn:E1, (gt x b) eqn:E2; simpl; rewrite ?E1, ?E2; try done.
  - by rewrite (gt_trans x b a).
  - destruct (gt x a) eqn:E3; [|done].
    destruct (gt_split x b a) as [?|?]; auto; congruence.
Qed.
End first_max.

Lemma foldl_better_ext {A} (gt gt' : A → A → bool) (Q : A → Prop) o l :
  (∀ x y, Q x → Q y → gt x y = gt' x y) → Forall Q l → (∀ a, o = Some a → Q a) →
  foldl (better gt) o l = foldl (better gt') o l.
Proof.
  intros Hgt Hl. revert o. induction Hl as [|x l Hx _ IH]; intros o Ho; [done|]. simpl.
  assert (better gt o x = better gt' o x) as ->.
  { unfold better. destruct o as [a|]; simpl; [|done]. rewrite Hgt by auto. done. }
  apply IH. intros a. unfold better. case_match; [by intros [= <-]|apply Ho].
Qed.

Lemma foldl_better_in {A} (gt : A → A → bool) (Q : A → Prop) o l :
  Forall Q l → (∀ a, o = Some a → Q a) → ∀ a, foldl (better gt) o l = Some a → Q a.
Proof.
  intros Hl. revert o. induction Hl as [|x l Hx _ IH]; intros o Ho; [done|]. simpl.
  apply IH. intros a. unfold better. case_match; [by intros [= <-]|apply Ho].
Qed.

(** ** Stable sorting

    [sort_by]: elements that compare as equal keep their order. *)
Section stable_sort.
Context {A : Type} (R : A → A → Prop) `{!∀ x y, Decision (R x y)}.
Fixpoint stable_insert (x : A) (l : list A) : list A :=
  match l with
  | [] => [x]
  | y :: l' => if decide (R x y) then x :: l else y :: stable_insert x l'
  end.
Definition stable_sort (l : list A) : list A := foldr stable_insert [] l.

Lemma stable_insert_perm x l : stable_insert x l ≡ₚ x :: l.
Proof. induction l as [|y l IH]; simpl; [done|]. case_decide; [done|]. rewrite IH. by constructor. Qed.
Lemma stable_sort_perm l : stable_sort l ≡ₚ l.
Proof. induction l as [|x l IH]; simpl; [done|]. by rewrite stable_insert_perm, IH. Qed.
Lemma stable_sort_filter (P : A → Prop) `{!∀ x, Decision (P x)} l :
  (∀ x y, P x → P y → R x y) → filter P (stable_sort l) = filter P l.
Proof.
  intros HP. induction l as [|x l IH]; [done|]. cbn [stable_sort foldr]. fold (stable_sort l). rewrite filter_cons.
  revert IH. generalize (filter P l) (stable_sort l). intros fl sl <-.
  induction sl as [|y sl IH]; cbn [stable_insert]; [by rewrite filter_cons|].
  destruct (decide (R x y)) as [|Hxy]; [by rewrite (filter_cons _ x)|]. rewrite !(filter_cons _ y), IH.
  destruct (decide (P x)) as [Hx|], (decide (P y)) as [Hy|]; try done. by destruct Hxy; apply HP.
Qed.
Lemma stable_sort_sorted l :
  (∀ x y z, R x y → R y z → R x z) → (∀ x y, R x y ∨ R y x) → StronglySorted R (stable_sort l).
Proof.
  intros Htrans Htotal. induction l as [|x l IH]; [constructor|]. cbn [stable_sort foldr]. fold (stable_sort l).
  induction IH as [|y sl Hs IH Hy]; cbn [stable_insert]; [by repeat constructor|].
  case_decide as Hxy.
  - constructor; [by constructor|]. constructor; [done|]. eapply Forall_impl; [exact Hy|]. intros z. by apply Htrans.
  - constructor; [done|]. rewrite stable_insert_perm. constructor; [|done]. by destruct (Htotal x y).
Qed.
End stable_sort.

(** [Vec::dedup]: adjacent duplicates dropped. *)
Fixpoint dedup {A} `{EqDecision A} (l : list A) : list A :=
  match l with
  | [] => []
  | x :: l =>
      match l with
      | [] => [x]
      | y :: _ => if decide (x = y) then dedup l else x :: dedup l
      end
  end.

Lemma elem_of_dedup {A} `{EqDecision A} (x : A) l : x ∈ dedup l ↔ x ∈ l.
Proof.
  induction l as [|y l IH]; [done|]. cbn [dedup]. destruct l as [|z l]; [done|].
  case_decide as E; [subst z|]; rewrite ?elem_of_cons, IH, ?elem_of_cons; tauto.
Qed.
