(* ===== verification/Str.v ===== *)
(** * Rust strings

    [str]/[String] as the sequence of its characters, a character as its
    Unicode scalar value.  The operations are those of Rust's standard library
    that the modelled sources call ([trim], [lines], [strip_prefix], ...).
    A byte offset that the sources compute always falls on a character
    boundary; here such an offset is counted in characters. *)
From Stdlib Require Import String Ascii NArith DecimalString DecimalNat.
From S2P Require Import Prelude.
Export String.StringSyntax.

Abbreviation char := N (only parsing).
Abbreviation str := (list N) (only parsing).

(** A string literal of the sources (ASCII). *)
Definition lit (s : string) : str := N_of_ascii <$> list_ascii_of_string s.
Arguments lit _%_string_scope : simpl never.

Definition LF : char := 10%N.
Definition CR : char := 13%N.
Definition SP : char := 32%N.

(** [char::is_whitespace]: the code points with the property [White_Space]. *)
Definition is_whitespace (c : char) : bool :=
  (((9 <=? c) && (c <=? 13)) || (c =? 32) || (c =? 133) || (c =? 160)
   || (c =? 5760) || ((8192 <=? c) && (c <=? 8202)) || (c =? 8232)
   || (c =? 8233) || (c =? 8239) || (c =? 8287) || (c =? 12288))%N.

Definition is_ascii_digit (c : char) : bool := ((48 <=? c) && (c <=? 57))%N.

Fixpoint drop_while {A} (f : A → bool) (l : list A) : list A :=
  match l with
  | [] => []
  | x :: l' => if f x then drop_while f l' else l
  end.

(** [str::trim_start], [str::trim_end], [str::trim]. *)
Definition trim_start (s : str) : str := drop_while is_whitespace s.
Definition trim_end (s : str) : str := reverse (drop_while is_whitespace (reverse s)).
Definition trim (s : str) : str := trim_start (trim_end s).
(** [str::trim_end_matches(c)]. *)
Definition trim_end_matches (c : char) (s : str) : str :=
  reverse (drop_while (N.eqb c) (reverse s)).

(** [s == t]. *)
Definition str_eqb (s t : str) : bool := bool_decide (s = t).

(** [str::strip_prefix], [str::starts_with] and their suffix versions. *)
Fixpoint strip_prefix (p s : str) : option str :=
  match p, s with
  | [], _ => Some s
  | _ :: _, [] => None
  | a :: p', b :: s' => if (a =? b)%N then strip_prefix p' s' else None
  end.
Definition strip_suffix (p s : str) : option str :=
  reverse <$> strip_prefix (reverse p) (reverse s).
Definition starts_with (s p : str) : bool := is_some (strip_prefix p s).
Definition ends_with (s p : str) : bool := is_some (strip_suffix p s).

(** [str::find(p)]: the first offset at which [p] occurs. *)
Fixpoint find (p s : str) : option nat :=
  if starts_with s p then Some 0
  else match s with [] => None | _ :: s' => S <$> find p s' end.
Definition contains (s p : str) : bool := is_some (find p s).
Definition contains_char (c : char) (s : str) : bool := bool_decide (c ∈ s).

(** [str::split_once(c)], [str::rsplit_once(c)], [str::matches(c).count()]. *)
Fixpoint split_once (c : char) (s : str) : option (str * str) :=
  match s with
  | [] => None
  | x :: s' => if (x =? c)%N then Some ([], s')
               else (λ '(a, b), (x :: a, b)) <$> split_once c s'
  end.
Definition rsplit_once (c : char) (s : str) : option (str * str) :=
  (λ '(a, b), (reverse b, reverse a)) <$> split_once c (reverse s).
Definition count_char (c : char) (s : str) : nat :=
  length (filter (λ x, x = c) s).

(** [str::split_inclusive('\n')] and [str::lines]. *)
Fixpoint split_inclusive (c : char) (s : str) : list str :=
  match s with
  | [] => []
  | x :: s' =>
      if (x =? c)%N then [x] :: split_inclusive c s'
      else match split_inclusive c s' with
           | [] => [[x]]
           | l :: ls => (x :: l) :: ls
           end
  end.
Definition line_of (l : str) : str :=
  match strip_suffix [LF] l with
  | None => l
  | Some l' => default l' (strip_suffix [CR] l')
  end.
Definition lines (s : str) : list str := line_of <$> split_inclusive LF s.

(** [lines.join(sep)]. *)
Fixpoint join (sep : str) (ls : list str) : str :=
  match ls with
  | [] => []
  | [l] => l
  | l :: ls' => l ++ sep ++ join sep ls'
  end.

(** [str::to_ascii_lowercase]. *)
Definition to_ascii_lowercase (s : str) : str :=
  (λ c, if ((65 <=? c) && (c <=? 90))%N then (c + 32)%N else c) <$> s.

(** [format!("{}", n)] for an unsigned integer. *)
Definition show_nat (n : nat) : str :=
  lit (NilZero.string_of_uint (Nat.to_uint n)).

(** ** Lemmas *)

Lemma lit_inj s t : lit s = lit t → s = t.
Proof.
  unfold lit. intros H.
  rewrite <-(string_of_list_ascii_of_string s), <-(string_of_list_ascii_of_string t).
  f_equal. eapply (list_fmap_eq_inj N_of_ascii); [|done].
  intros a b Hab. by rewrite <-(ascii_N_embedding a), <-(ascii_N_embedding b), Hab.
Qed.

Lemma to_uint_nonnil n : Nat.to_uint n ≠ Decimal.Nil.
Proof.
  intros H. pose proof (DecimalNat.Unsigned.of_to n) as Hn.
  rewrite H in Hn. simpl in Hn. by subst.
Qed.

Lemma show_nat_inj n m : show_nat n = show_nat m → n = m.
Proof.
  unfold show_nat. intros H%lit_inj.
  assert (Nat.to_uint n = Nat.to_uint m) as Hu.
  { assert (Some (Nat.to_uint n) = Some (Nat.to_uint m)) as [=]; [|done].
    rewrite <-!NilZero.usu by apply to_uint_nonnil.
    by rewrite H. }
  by rewrite <-(DecimalNat.Unsigned.of_to n), <-(DecimalNat.Unsigned.of_to m), Hu.
Qed.

Section drop_while.
Context {A : Type} (f : A → bool).
Implicit Types l : list A.

Lemma drop_while_suffix l : ∃ k, l = k ++ drop_while f l ∧ Forall (λ x, f x = true) k.
Proof.
  induction l as [|x l (k & Hl & Hk)]; simpl; [by exists []|].
  destruct (f x) eqn:E; [|by exists []].
  exists (x :: k). split; [by rewrite Hl at 1|]. by constructor.
Qed.

Lemma drop_while_head l : is_none_or (λ x, negb (f x)) (head (drop_while f l)) = true.
Proof.
  induction l as [|x l IH]; simpl; [done|].
  destruct (f x) eqn:E; [done|]. simpl. by rewrite E.
Qed.

Lemma drop_while_id l :
  is_none_or (λ x, negb (f x)) (head l) = true → drop_while f l = l.
Proof. destruct l as [|x l]; simpl; [done|]. by destruct (f x). Qed.

Lemma drop_while_idemp l : drop_while f (drop_while f l) = drop_while f l.
Proof. apply drop_while_id, drop_while_head. Qed.

Lemma drop_while_app_all k l :
  Forall (λ x, f x = true) k → drop_while f (k ++ l) = drop_while f l.
Proof. induction 1 as [|x k Hx _ IH]; simpl; [done|]. by rewrite Hx. Qed.

Lemma drop_while_all l : Forall (λ x, f x = true) l → drop_while f l = [].
Proof. induction 1 as [|x k Hx _ IH]; simpl; [done|]. by rewrite Hx. Qed.

Lemma drop_while_nil l : drop_while f l = [] ↔ Forall (λ x, f x = true) l.
Proof.
  split; [|apply drop_while_all]. intros H.
  destruct (drop_while_suffix l) as (k & Hl & Hk). rewrite H, app_nil_r in Hl.
  by subst.
Qed.
End drop_while.

Lemma strip_prefix_Some p s r : strip_prefix p s = Some r ↔ s = p ++ r.
Proof.
  revert s; induction p as [|a p IH]; intros s; simpl; [naive_solver|].
  destruct s as [|b s]; [by split|].
  destruct (N.eqb_spec a b) as [->|Hne]; [|naive_solver].
  rewrite IH. naive_solver.
Qed.

Lemma strip_prefix_app p r : strip_prefix p (p ++ r) = Some r.
Proof. by apply strip_prefix_Some. Qed.

Lemma strip_suffix_Some p s r : strip_suffix p s = Some r ↔ s = r ++ p.
Proof.
  unfold strip_suffix. rewrite fmap_Some. setoid_rewrite strip_prefix_Some. split.
  - intros (x & H & ->). apply (f_equal reverse) in H.
    by rewrite reverse_app, !reverse_involutive in H.
  - intros ->. exists (reverse r). by rewrite reverse_app, reverse_involutive.
Qed.

Lemma strip_suffix_app p r : strip_suffix p (r ++ p) = Some r.
Proof. by apply strip_suffix_Some. Qed.

Lemma starts_with_spec s p : starts_with s p = true ↔ ∃ r, s = p ++ r.
Proof.
  unfold starts_with. destruct (strip_prefix p s) as [r|] eqn:E; simpl.
  - apply strip_prefix_Some in E. naive_solver.
  - split; [done|]. intros (r & ->). by rewrite strip_prefix_app in E.
Qed.

Lemma ends_with_spec s p : ends_with s p = true ↔ ∃ r, s = r ++ p.
Proof.
  unfold ends_with. destruct (strip_suffix p s) as [r|] eqn:E; simpl.
  - apply strip_suffix_Some in E. naive_solver.
  - split; [done|]. intros (r & ->). by rewrite strip_suffix_app in E.
Qed.

Lemma str_eqb_eq s t : str_eqb s t = true ↔ s = t.
Proof. apply bool_decide_eq_true. Qed.
Lemma str_eqb_ne s t : str_eqb s t = false ↔ s ≠ t.
Proof. apply bool_decide_eq_false. Qed.
Lemma str_eqb_refl s : str_eqb s s = true.
Proof. by apply str_eqb_eq. Qed.

Lemma trim_start_nil s : trim_start s = [] ↔ Forall (λ c, is_whitespace c = true) s.
Proof. apply drop_while_nil. Qed.

Lemma trim_end_snoc_ws s c : is_whitespace c = true → trim_end (s ++ [c]) = trim_end s.
Proof. intros H. unfold trim_end. rewrite reverse_snoc. simpl. by rewrite H. Qed.

Lemma trim_end_snoc s c : is_whitespace c = false → trim_end (s ++ [c]) = s ++ [c].
Proof.
  intros H. unfold trim_end. rewrite reverse_snoc. simpl. rewrite H.
  by rewrite reverse_cons, reverse_involutive.
Qed.

Lemma trim_end_idemp s : trim_end (trim_end s) = trim_end s.
Proof. unfold trim_end. by rewrite reverse_involutive, drop_while_idemp. Qed.

Lemma trim_start_idemp s : trim_start (trim_start s) = trim_start s.
Proof. apply drop_while_idemp. Qed.

(** What [trim_end] removes is a block of whitespace. *)
Lemma trim_end_split s :
  ∃ w, s = trim_end s ++ w ∧ Forall (λ c, is_whitespace c = true) w.
Proof.
  destruct (drop_while_suffix is_whitespace (reverse s)) as (k & Hs & Hk).
  exists (reverse k). split.
  - unfold trim_end. rewrite <-reverse_app, <-Hs. by rewrite reverse_involutive.
  - by apply Forall_reverse.
Qed.

Lemma trim_start_split s :
  ∃ w, s = w ++ trim_start s ∧ Forall (λ c, is_whitespace c = true) w.
Proof. apply drop_while_suffix. Qed.

(** A string that starts and ends with a non-blank character is trimmed. *)
Lemma trim_start_cons c s : is_whitespace c = false → trim_start (c :: s) = c :: s.
Proof. intros H. unfold trim_start. simpl. by rewrite H. Qed.

Lemma split_once_Some c s a b :
  split_once c s = Some (a, b) ↔ s = a ++ c :: b ∧ c ∉ a.
Proof.
  revert a; induction s as [|x s IH]; intros a; simpl.
  { split; [done|]. intros [H _]. by destruct a. }
  destruct (N.eqb_spec x c) as [->|Hne].
  - split.
    + intros [= <- <-]. split; [done|]. apply not_elem_of_nil.
    + intros [H Hn]. destruct a as [|y a]; simplify_eq/=; [done|].
      exfalso. apply Hn. left.
  - rewrite fmap_Some. split.
    + intros ([a' b'] & H & [= -> ->]). apply IH in H as [-> Hn].
      split; [done|]. rewrite not_elem_of_cons. done.
    + intros [H Hn]. destruct a as [|y a]; simplify_eq/=.
      rewrite not_elem_of_cons in Hn. exists (a, b). split; [|done].
      apply IH. naive_solver.
Qed.

Lemma split_once_None c s : split_once c s = None ↔ c ∉ s.
Proof.
  induction s as [|x s IH]; simpl; [split; [intros _; apply not_elem_of_nil|done]|].
  rewrite not_elem_of_cons. destruct (N.eqb_spec x c) as [->|Hne]; [naive_solver|].
  rewrite fmap_None. naive_solver.
Qed.

(** ** Lines *)
Lemma split_inclusive_concat c s : concat (split_inclusive c s) = s.
Proof.
  induction s as [|x s IH]; simpl; [done|].
  destruct (N.eqb_spec x c); simpl; [by rewrite IH|].
  destruct (split_inclusive c s) as [|l ls] eqn:E; simpl in *; by rewrite <-IH.
Qed.

Lemma split_inclusive_line c l s :
  c ∉ l → split_inclusive c (l ++ c :: s) = (l ++ [c]) :: split_inclusive c s.
Proof.
  induction l as [|x l IH]; simpl; intros Hn.
  - by rewrite N.eqb_refl.
  - rewrite not_elem_of_cons in Hn. destruct (N.eqb_spec x c); [naive_solver|].
    rewrite IH by naive_solver. done.
Qed.

Lemma split_inclusive_last c l :
  c ∉ l → l ≠ [] → split_inclusive c l = [l].
Proof.
  induction l as [|x l IH]; [done|]. rewrite not_elem_of_cons. intros [Hx Hn] _. simpl.
  destruct (N.eqb_spec x c); [naive_solver|].
  destruct l as [|y l]; [done|]. by rewrite IH.
Qed.

Lemma line_of_LF l : last l ≠ Some CR → line_of (l ++ [LF]) = l.
Proof.
  intros Hl. unfold line_of. rewrite strip_suffix_app.
  destruct (strip_suffix [CR] l) as [l'|] eqn:E; [|done].
  apply strip_suffix_Some in E. subst. by rewrite last_snoc in Hl.
Qed.

Lemma line_of_noLF l : LF ∉ l → line_of l = l.
Proof.
  intros Hn. unfold line_of. destruct (strip_suffix [LF] l) as [l'|] eqn:E; [|done].
  apply strip_suffix_Some in E. subst. exfalso. apply Hn.
  apply elem_of_app. right. by constructor.
Qed.

Lemma lines_cons l s :
  LF ∉ l → last l ≠ Some CR → lines (l ++ LF :: s) = l :: lines s.
Proof.
  intros. unfold lines. rewrite split_inclusive_line by done. simpl.
  by rewrite line_of_LF.
Qed.

Lemma lines_last l : LF ∉ l → l ≠ [] → lines l = [l].
Proof.
  intros. unfold lines. rewrite split_inclusive_last by done. simpl.
  by rewrite line_of_noLF.
Qed.

(** Joining well-behaved lines with newlines and splitting again is the
    identity. *)
Lemma lines_join ls :
  Forall (λ l, LF ∉ l ∧ last l ≠ Some CR) ls →
  last ls ≠ Some [] → lines (join [LF] ls) = ls.
Proof.
  induction 1 as [|l ls [Hl Hc] Hls IH]; [done|]. intros Hlast.
  destruct ls as [|l' ls].
  - simpl in *. apply lines_last; naive_solver.
  - change (join [LF] (l :: l' :: ls)) with (l ++ LF :: join [LF] (l' :: ls)).
    rewrite lines_cons by done. by rewrite IH.
Qed.

Lemma join_cons sep l ls : ls ≠ [] → join sep (l :: ls) = l ++ sep ++ join sep ls.
Proof. by destruct ls. Qed.

#[export] Hint Rewrite strip_prefix_app strip_suffix_app str_eqb_refl
  trim_end_idemp trim_start_idemp : cubineer.

(** ** UTF-8 *)
Definition utf8_char (c : char) : list N :=
  (if c <? 128 then [c]
   else if c <? 2048 then [192 + c / 64; 128 + c mod 64]
   else if c <? 65536 then [224 + c / 4096; 128 + (c / 64) mod 64; 128 + c mod 64]
   else [240 + c / 262144; 128 + (c / 4096) mod 64; 128 + (c / 64) mod 64; 128 + c mod 64])%N.

(** [str::as_bytes]. *)
Definition as_bytes (s : str) : list N := concat (utf8_char <$> s).

Lemma as_bytes_app t t' : as_bytes (t ++ t') = as_bytes t ++ as_bytes t'.
Proof. unfold as_bytes. by rewrite fmap_app, concat_app. Qed.
Lemma as_bytes_cons c t : as_bytes (c :: t) = utf8_char c ++ as_bytes t.
Proof. done. Qed.
Lemma utf8_char_ne c : utf8_char c ≠ [].
Proof. unfold utf8_char. by repeat case_match. Qed.

(** [char::len_utf8], [str::len]. *)
Definition len_utf8 (c : char) : N := N.of_nat (length (utf8_char c)).
Definition blen (s : str) : N := N.of_nat (length (as_bytes s)).
Lemma blen_app s t : blen (s ++ t) = (blen s + blen t)%N.
Proof. unfold blen. rewrite as_bytes_app, length_app. lia. Qed.
Lemma blen_cons c s : blen (c :: s) = (len_utf8 c + blen s)%N.
Proof. unfold blen, len_utf8. rewrite as_bytes_cons, length_app. lia. Qed.
Lemma blen_nil : blen [] = 0%N.
Proof. done. Qed.
Lemma len_utf8_pos c : (0 < len_utf8 c)%N.
Proof. unfold len_utf8. pose proof (utf8_char_ne c). destruct (utf8_char c); [done|simpl; lia]. Qed.

(** The decimal form of a number given in binary. *)
Definition show_N (n : N) : str := lit (NilZero.string_of_uint (N.to_uint n)).

(** The order of [str], that of its bytes, which is that of its characters. *)
Fixpoint str_leb (s t : str) : bool :=
  match s, t with
  | [], _ => true
  | _ :: _, [] => false
  | x :: s, y :: t => (x <? y)%N || ((x =? y)%N && str_leb s t)
  end.

(** [replace(a, b)] on characters. *)
Definition replace_char (a b : char) (s : str) : str :=
  (λ c, if (c =? a)%N then b else c) <$> s.

(** ** Occurrences *)

(** [p] occurs in [s] at offset [i]. *)
Definition occurs (p s : str) (i : nat) : Prop := ∃ a b, s = a ++ p ++ b ∧ length a = i.

Lemma occurs_S p c s i : occurs p (c :: s) (S i) ↔ occurs p s i.
Proof.
  split.
  - intros ([|x a] & b & H & Hl); simplify_eq/=. by exists a, b.
  - intros (a & b & -> & <-). by exists (c :: a), b.
Qed.

Lemma occurs_0 p s : occurs p s 0 ↔ starts_with s p = true.
Proof.
  rewrite starts_with_spec. split.
  - intros (a & b & -> & Ha%nil_length_inv). subst. by exists b.
  - intros [r ->]. by exists [], r.
Qed.

Lemma find_Some p s i :
  find p s = Some i ↔ occurs p s i ∧ ∀ j, j < i → ¬ occurs p s j.
Proof.
  revert i. induction s as [|c s IH]; intros i; simpl.
  - destruct (starts_with [] p) eqn:E.
    + split.
      * intros [= <-]. split; [by apply occurs_0|]. intros; lia.
      * intros [_ H]. destruct i; [done|]. destruct (H 0); [lia|by apply occurs_0].
    + split; [done|]. intros [(a & b & Hab & Hl) _]. symmetry in Hab. apply app_nil in Hab as (-> & Hp).
      apply app_nil in Hp as [-> ->]. done.
  - destruct (starts_with (c :: s) p) eqn:E.
    + split.
      * intros [= <-]. split; [by apply occurs_0|]. intros; lia.
      * intros [_ H]. destruct i; [done|]. destruct (H 0); [lia|by apply occurs_0].
    + assert (¬ occurs p (c :: s) 0) as H0 by (rewrite occurs_0; congruence).
      rewrite fmap_Some. split.
      * intros (i' & Hi & ->). apply IH in Hi as [Hi Hmin]. split; [by apply occurs_S|].
        intros [|j] Hj; [done|]. rewrite occurs_S. apply Hmin. lia.
      * intros [Ho Hmin]. destruct i as [|i]; [done|]. exists i. split; [|done]. apply IH.
        split; [by apply occurs_S in Ho|]. intros j Hj Hoj. apply (Hmin (S j)); [lia|].
        by apply occurs_S.
Qed.

Lemma find_None p s : find p s = None ↔ ∀ i, ¬ occurs p s i.
Proof.
  split.
  - intros H i. revert i H. induction s as [|c s IH]; intros i; simpl.
    + destruct (starts_with [] p) eqn:E; [done|]. intros _ Ho. destruct i.
      * apply occurs_0 in Ho. congruence.
      * destruct Ho as (a & b & Hab & Hl). by destruct a.
    + destruct (starts_with (c :: s) p) eqn:E; [done|]. rewrite fmap_None. intros H.
      destruct i; [rewrite occurs_0; congruence|]. rewrite occurs_S. by apply IH.
  - intros H. destruct (find p s) as [i|] eqn:E; [|done]. apply find_Some in E as [Ho _].
    by apply H in Ho.
Qed.

Lemma occurs_app p s t i : occurs p s i → occurs p (s ++ t) i.
Proof. intros (a & b & -> & Hl). exists a, (b ++ t). by rewrite <-!app_assoc. Qed.

Lemma occurs_bound p s i : occurs p s i → i + length p ≤ length s.
Proof. intros (a & b & -> & <-). rewrite !length_app. lia. Qed.

(** An occurrence in [s ++ t] lies in [s], or reaches past its end. *)
Lemma occurs_app_inv p s t i :
  occurs p (s ++ t) i → occurs p s i ∨ length s < i + length p.
Proof.
  intros (a & b & H & Hl). destruct (decide (i + length p ≤ length s)); [left|right; lia].
  exists a, (drop (length (a ++ p)) s). split; [|done].
  rewrite (assoc_L (++)), <-(take_drop (length (a ++ p)) s) at 1. f_equal.
  rewrite <-(take_app_le s t (length (a ++ p))) by (rewrite length_app; lia). rewrite H.
  rewrite (assoc_L (++)). by rewrite take_app_length.
Qed.

(** An occurrence that reaches past the end of [s] leaves a suffix of [s] that is
    a prefix of [p]. *)
Lemma occurs_overlap p s t i :
  occurs p (s ++ t) i → i ≤ length s → length s < i + length p →
  ∃ q, p = drop i s ++ q ∧ q ≠ [].
Proof.
  intros (a & b & H & Hl) Hi Hlen. exists (drop (length s - i) p).
  assert (drop i (s ++ t) = p ++ b) as Hd.
  { rewrite H. by rewrite drop_app_length'. }
  rewrite drop_app_le in Hd by done.
  split.
  - rewrite <-(take_drop (length s - i) p) at 1. f_equal.
    rewrite <-(take_app_le p b) by lia. rewrite <-Hd.
    rewrite take_app_le by (rewrite length_drop; lia).
    apply take_ge. rewrite length_drop. lia.
  - intros Hn. apply (f_equal length) in Hn. rewrite length_drop in Hn. simpl in Hn. lia.
Qed.
