(* ===== verification/PatchSyntax.v ===== *)
(** * apply-patch: the patch language

    The markers, hunks, chunks and parse errors of
    [apply-patch/src/parser.rs].  A [PathBuf] is the string it was built
    from. *)
From S2P Require Import Prelude Str.

Definition BEGIN_PATCH_MARKER : str := lit "*** Begin Patch".
Definition END_PATCH_MARKER : str := lit "*** End Patch".
Definition ADD_FILE_MARKER : str := lit "*** Add File: ".
Definition DELETE_FILE_MARKER : str := lit "*** Delete File: ".
Definition UPDATE_FILE_MARKER : str := lit "*** Update File: ".
Definition MOVE_TO_MARKER : str := lit "*** Move to: ".
Definition EOF_MARKER : str := lit "*** End of File".
Definition CHANGE_CONTEXT_MARKER : str := lit "@@ ".
Definition EMPTY_CHANGE_CONTEXT_MARKER : str := lit "@@".
Definition ENVIRONMENT_ID_MARKER : str := lit "*** Environment ID:".

Inductive ParseError :=
  | InvalidPatchError (message : str)
  | InvalidHunkError (message : str) (line_number : nat).

Record UpdateFileChunk := {
  change_context : option str;
  old_lines : list str;
  new_lines : list str;
  context_line_indices : list (nat * nat);
  is_end_of_file : bool;
}.

Inductive Hunk :=
  | AddFile (path contents : str)
  | DeleteFile (path : str)
  | UpdateFile (path : str) (move_path : option str) (chunks : list UpdateFileChunk).

#[export] Instance UpdateFileChunk_eq_dec : EqDecision UpdateFileChunk.
Proof. solve_decision. Defined.
#[export] Instance Hunk_eq_dec : EqDecision Hunk.
Proof. solve_decision. Defined.
#[export] Instance ParseError_eq_dec : EqDecision ParseError.
Proof. solve_decision. Defined.

(** [Hunk::path]: the move destination for a rename. *)
Definition hunk_path (h : Hunk) : str :=
  match h with
  | AddFile path _ => path
  | DeleteFile path => path
  | UpdateFile _ (Some path) _ => path
  | UpdateFile path None _ => path
  end.

(** [UpdateFileChunk::default()]. *)
Definition default_chunk : UpdateFileChunk :=
  {| change_context := None; old_lines := []; new_lines := [];
     context_line_indices := []; is_end_of_file := false |}.

Definition context_chunk (ctx : str) : UpdateFileChunk :=
  {| change_context := Some ctx; old_lines := []; new_lines := [];
     context_line_indices := []; is_end_of_file := false |}.

(** [UpdateFileChunk::push_context_line]. *)
Definition push_context_line (line : str) (c : UpdateFileChunk) : UpdateFileChunk :=
  {| change_context := change_context c;
     old_lines := old_lines c ++ [line];
     new_lines := new_lines c ++ [line];
     context_line_indices := context_line_indices c
       ++ [(length (old_lines c), length (new_lines c))];
     is_end_of_file := is_end_of_file c |}.

(** [chunk.new_lines.push(line)], [chunk.old_lines.push(line)],
    [chunk.is_end_of_file = true]. *)
Definition push_new_line (line : str) (c : UpdateFileChunk) : UpdateFileChunk :=
  {| change_context := change_context c; old_lines := old_lines c;
     new_lines := new_lines c ++ [line];
     context_line_indices := context_line_indices c;
     is_end_of_file := is_end_of_file c |}.
Definition push_old_line (line : str) (c : UpdateFileChunk) : UpdateFileChunk :=
  {| change_context := change_context c; old_lines := old_lines c ++ [line];
     new_lines := new_lines c;
     context_line_indices := context_line_indices c;
     is_end_of_file := is_end_of_file c |}.
Definition mark_end_of_file (c : UpdateFileChunk) : UpdateFileChunk :=
  {| change_context := change_context c; old_lines := old_lines c;
     new_lines := new_lines c; context_line_indices := context_line_indices c;
     is_end_of_file := true |}.

(** [chunk.old_lines.is_empty() && chunk.new_lines.is_empty()]. *)
Definition chunk_has_no_lines (c : UpdateFileChunk) : bool :=
  is_empty (old_lines c) && is_empty (new_lines c).

(** ** Well-formed chunks

    [context_line_indices] lists pairs of positions, increasing on both
    sides and in range, at which the two sides hold the same line. *)
Fixpoint context_from (o n : nat) (old new : list str) (ix : list (nat * nat)) : Prop :=
  match ix with
  | [] => True
  | (i, j) :: ix =>
      o ≤ i ∧ n ≤ j ∧ (∃ l, old !! i = Some l ∧ new !! j = Some l)
      ∧ context_from (S i) (S j) old new ix
  end.

Definition chunk_wf (c : UpdateFileChunk) : Prop :=
  context_from 0 0 (old_lines c) (new_lines c) (context_line_indices c).

(** A chunk that has at least one line. *)
Definition chunk_complete (c : UpdateFileChunk) : Prop :=
  chunk_has_no_lines c = false.

(** What every hunk of an accepted patch satisfies. *)
Definition hunk_complete (h : Hunk) : Prop :=
  match h with
  | UpdateFile _ _ chunks =>
      chunks ≠ [] ∧ Forall (λ c, chunk_wf c ∧ chunk_complete c) chunks
  | _ => True
  end.

Lemma context_from_weaken o n old new old' new' ix :
  old `prefix_of` old' → new `prefix_of` new' →
  context_from o n old new ix → context_from o n old' new' ix.
Proof.
  intros Ho Hn. revert o n; induction ix as [|[i j] ix IH]; simpl; intros o n; [done|].
  intros (? & ? & (l & ? & ?) & ?). repeat split; try done; [|by apply IH].
  exists l. eauto using prefix_lookup_Some.
Qed.

Lemma context_from_snoc o n old new ix l :
  o ≤ length old → n ≤ length new →
  context_from o n old new ix →
  context_from o n (old ++ [l]) (new ++ [l]) (ix ++ [(length old, length new)]).
Proof.
  revert o n; induction ix as [|[i j] ix IH]; simpl; intros o n Ho Hn.
  - intros _. repeat split; try done. exists l.
    by rewrite !list_lookup_middle.
  - intros (? & ? & (l' & Hi & Hj) & ?). repeat split; try done.
    + exists l'. by rewrite !lookup_app_l by eauto using lookup_lt_Some.
    + apply IH; [| |done]; apply lookup_lt_Some in Hi, Hj; lia.
Qed.

Lemma default_chunk_wf : chunk_wf default_chunk.
Proof. done. Qed.
Lemma context_chunk_wf ctx : chunk_wf (context_chunk ctx).
Proof. done. Qed.
Lemma push_context_line_wf l c : chunk_wf c → chunk_wf (push_context_line l c).
Proof. intros. apply context_from_snoc; [lia..|done]. Qed.
Lemma push_new_line_wf l c : chunk_wf c → chunk_wf (push_new_line l c).
Proof. apply context_from_weaken; [done|]. by apply prefix_app_r. Qed.
Lemma push_old_line_wf l c : chunk_wf c → chunk_wf (push_old_line l c).
Proof. apply context_from_weaken; [|done]. by apply prefix_app_r. Qed.
Lemma mark_end_of_file_wf c : chunk_wf c → chunk_wf (mark_end_of_file c).
Proof. done. Qed.

Lemma push_context_line_complete l c : chunk_complete (push_context_line l c).
Proof. unfold chunk_complete, chunk_has_no_lines. simpl. by destruct (old_lines c). Qed.
Lemma push_new_line_complete l c : chunk_complete (push_new_line l c).
Proof.
  unfold chunk_complete, chunk_has_no_lines. simpl.
  destruct (old_lines c); [|done]. by destruct (new_lines c).
Qed.
Lemma push_old_line_complete l c : chunk_complete (push_old_line l c).
Proof. unfold chunk_complete, chunk_has_no_lines. simpl. by destruct (old_lines c). Qed.
Lemma mark_end_of_file_complete c : chunk_complete c → chunk_complete (mark_end_of_file c).
Proof. done. Qed.

#[export] Hint Resolve default_chunk_wf context_chunk_wf push_context_line_wf
  push_new_line_wf push_old_line_wf mark_end_of_file_wf
  push_context_line_complete push_new_line_complete push_old_line_complete
  mark_end_of_file_complete : cubineer.
