(* ===== verification/PatchStream.v ===== *)
(** * apply-patch: the streaming parser

    [StreamingPatchParser] of [apply-patch/src/streaming_parser.rs].  A method
    that takes [&mut self] and returns a [Result] is a function from the parser
    to the parser it leaves behind (also on an error) and the result. *)
From S2P Require Import Prelude Str PatchSyntax.

Inductive StreamingParserMode :=
  | NotStarted
  | StartedPatch
  | ModeAddFile
  | ModeDeleteFile
  | ModeUpdateFile (hunk_line_number : nat)
  | EndedPatch.

Record StreamingParserState := {
  mode : StreamingParserMode;
  hunks : list Hunk;
  environment_id : option str;
}.

Record StreamingPatchParser := {
  line_buffer : str;
  state : StreamingParserState;
  line_number : nat;
}.

(** [StreamingPatchParser::default()]. *)
Definition new_parser : StreamingPatchParser :=
  {| line_buffer := [];
     state := {| mode := NotStarted; hunks := []; environment_id := None |};
     line_number := 0 |}.

(** Field assignments. *)
Definition with_mode (m : StreamingParserMode) (p : StreamingPatchParser) :=
  {| line_buffer := line_buffer p;
     state := {| mode := m; hunks := hunks (state p);
                 environment_id := environment_id (state p) |};
     line_number := line_number p |}.
Definition with_hunks (hs : list Hunk) (p : StreamingPatchParser) :=
  {| line_buffer := line_buffer p;
     state := {| mode := mode (state p); hunks := hs;
                 environment_id := environment_id (state p) |};
     line_number := line_number p |}.
Definition with_environment_id (id : str) (p : StreamingPatchParser) :=
  {| line_buffer := line_buffer p;
     state := {| mode := mode (state p); hunks := hunks (state p);
                 environment_id := Some id |};
     line_number := line_number p |}.
Definition with_buffer (b : str) (p : StreamingPatchParser) :=
  {| line_buffer := b; state := state p; line_number := line_number p |}.
Definition next_line (p : StreamingPatchParser) :=
  {| line_buffer := []; state := state p; line_number := S (line_number p) |}.

Abbreviation run A := (StreamingPatchParser * res ParseError A)%type.

Definition unexpected_line (line : str) : str :=
  lit "Unexpected line found in update hunk: '" ++ line ++
  lit "'. Every line should start with ' ' (context line), '+' (added line), or '-' (removed line)".
Definition expected_context (line : str) : str :=
  lit "Expected update hunk to start with a @@ context marker, got: '" ++ line ++ lit "'".
Definition invalid_header (trimmed : str) : str :=
  lit "'" ++ trimmed ++
  lit "' is not a valid hunk header. Valid hunk headers: '*** Add File: {path}', '*** Delete File: {path}', '*** Update File: {path}'".
Definition no_lines_message : str := lit "Update hunk does not contain any lines".
Definition first_line_message : str :=
  lit "The first line of the patch must be '*** Begin Patch'".
Definition last_line_message : str :=
  lit "The last line of the patch must be '*** End Patch'".

Definition ensure_update_hunk_is_not_empty (p : StreamingPatchParser) (line : str)
    : res ParseError unit :=
  match last (hunks (state p)) with
  | Some (UpdateFile path _ chunks) =>
      match is_empty chunks, mode (state p) with
      | true, ModeUpdateFile hunk_line_number =>
          Err (InvalidHunkError
                 (lit "Update file hunk for path '" ++ path ++ lit "' is empty")
                 hunk_line_number)
      | _, _ =>
          if is_some_and chunk_has_no_lines (last chunks) then
            if str_eqb line END_PATCH_MARKER then
              Err (InvalidHunkError no_lines_message (line_number p))
            else
              Err (InvalidHunkError (unexpected_line line) (line_number p))
          else Ok tt
      end
  | _ => Ok tt
  end.

(** A header line closes the current hunk, then installs a new one. *)
Definition start_hunk (p : StreamingPatchParser) (trimmed : str)
    (f : StreamingPatchParser → StreamingPatchParser) : run bool :=
  match ensure_update_hunk_is_not_empty p trimmed with
  | Ok _ => (f p, Ok true)
  | Err e => (p, Err e)
  | Panic => (p, Panic)
  end.

Definition handle_environment_id (p : StreamingPatchParser) (raw : str) : run bool :=
  if is_some (environment_id (state p)) then
    (p, Err (InvalidPatchError
               (lit "apply_patch environment_id cannot be specified more than once")))
  else
    let id := trim raw in
    if is_empty id then
      (p, Err (InvalidPatchError (lit "apply_patch environment_id cannot be empty")))
    else (with_environment_id id p, Ok true).

Definition handle_headers (p : StreamingPatchParser) (trimmed : str) : run bool :=
  if str_eqb trimmed END_PATCH_MARKER then
    start_hunk p trimmed (with_mode EndedPatch)
  else match strip_prefix ADD_FILE_MARKER trimmed with
  | Some path =>
      start_hunk p trimmed (λ p,
        with_mode ModeAddFile (with_hunks (hunks (state p) ++ [AddFile path []]) p))
  | None =>
  match strip_prefix DELETE_FILE_MARKER trimmed with
  | Some path =>
      start_hunk p trimmed (λ p,
        with_mode ModeDeleteFile (with_hunks (hunks (state p) ++ [DeleteFile path]) p))
  | None =>
  match strip_prefix UPDATE_FILE_MARKER trimmed with
  | Some path =>
      start_hunk p trimmed (λ p,
        with_mode (ModeUpdateFile (line_number p))
          (with_hunks (hunks (state p) ++ [UpdateFile path None []]) p))
  | None => (p, Ok false)
  end end end.

Definition handle_hunk_headers_and_end_patch (p : StreamingPatchParser) (trimmed : str)
    : run bool :=
  match mode (state p), strip_prefix ENVIRONMENT_ID_MARKER trimmed with
  | StartedPatch, Some raw => handle_environment_id p raw
  | _, _ => handle_headers p trimmed
  end.

(** [if self.handle_hunk_headers_and_end_patch(t)? { return Ok(()); } k]. *)
Definition or_header (p : StreamingPatchParser) (t : str)
    (k : StreamingPatchParser → run unit) : run unit :=
  match handle_hunk_headers_and_end_patch p t with
  | (p, Ok true) => (p, Ok tt)
  | (p, Ok false) => k p
  | (p, Err e) => (p, Err e)
  | (p, Panic) => (p, Panic)
  end.

(** Replace the chunks (or the move path) of the last hunk. *)
Definition set_chunks (cs : list UpdateFileChunk) (h : Hunk) : Hunk :=
  match h with UpdateFile path mv _ => UpdateFile path mv cs | _ => h end.
Definition set_move_path (dest : str) (h : Hunk) : Hunk :=
  match h with UpdateFile path _ cs => UpdateFile path (Some dest) cs | _ => h end.
Definition push_contents (line : str) (h : Hunk) : Hunk :=
  match h with AddFile path contents => AddFile path (contents ++ line ++ [LF]) | _ => h end.

Definition store_chunks (n : nat) (cs : list UpdateFileChunk) (p : StreamingPatchParser) :=
  with_mode (ModeUpdateFile n)
    (with_hunks (update_last (set_chunks cs) (hunks (state p))) p).

(** [if chunks.is_empty() { chunks.push(default) }; f(chunks.last_mut())]. *)
Definition add_to_chunk (f : UpdateFileChunk → UpdateFileChunk)
    (chunks : list UpdateFileChunk) : list UpdateFileChunk :=
  update_last f (if is_empty chunks then [default_chunk] else chunks).

Definition is_context_marker (update_line : str) : bool :=
  str_eqb update_line EMPTY_CHANGE_CONTEXT_MARKER
  || starts_with update_line CHANGE_CONTEXT_MARKER.

(** The lines of an update hunk: what [process_line] does in mode
    [UpdateFile] once [last_mut] has found the hunk's [move_path] and
    [chunks]. *)
Definition process_update_line (p : StreamingPatchParser) (n : nat)
    (line update_line : str) (move_path : option str) (chunks : list UpdateFileChunk)
    : run unit :=
  let error msg := (p, Err (InvalidHunkError msg (line_number p))) in
  let ended := is_some_and is_end_of_file (last chunks) in
  if ended && is_empty update_line then (p, Ok tt)
  else if ended && negb (is_context_marker update_line) then
    error (expected_context line)
  else match (if is_empty chunks && is_none move_path
              then strip_prefix MOVE_TO_MARKER update_line else None) with
  | Some dest =>
      (with_mode (ModeUpdateFile n)
         (with_hunks (update_last (set_move_path dest) (hunks (state p))) p), Ok tt)
  | None =>
  if is_context_marker update_line && is_some_and chunk_has_no_lines (last chunks) then
    error (unexpected_line line)
  else if str_eqb update_line EMPTY_CHANGE_CONTEXT_MARKER then
    (store_chunks n (chunks ++ [default_chunk]) p, Ok tt)
  else match strip_prefix CHANGE_CONTEXT_MARKER update_line with
  | Some ctx => (store_chunks n (chunks ++ [context_chunk ctx]) p, Ok tt)
  | None =>
  if str_eqb update_line EOF_MARKER then
    if is_some_and chunk_has_no_lines (last chunks) then error no_lines_message
    else (store_chunks n (update_last mark_end_of_file chunks) p, Ok tt)
  else if is_empty line then
    (store_chunks n (add_to_chunk (push_context_line []) chunks) p, Ok tt)
  else match strip_prefix [SP] line with
  | Some l => (store_chunks n (add_to_chunk (push_context_line l) chunks) p, Ok tt)
  | None =>
  match strip_prefix (lit "+") line with
  | Some l => (store_chunks n (add_to_chunk (push_new_line l) chunks) p, Ok tt)
  | None =>
  match strip_prefix (lit "-") line with
  | Some l => (store_chunks n (add_to_chunk (push_old_line l) chunks) p, Ok tt)
  | None =>
  if is_some_and (λ c, negb (chunk_has_no_lines c)) (last chunks) then
    error (expected_context line)
  else error (unexpected_line line)
  end end end end end.

Definition process_line (p : StreamingPatchParser) (line : str) : run unit :=
  let trimmed := trim line in
  let bad_header p := (p, Err (InvalidHunkError (invalid_header trimmed) (line_number p))) in
  match mode (state p) with
  | NotStarted =>
      if str_eqb trimmed BEGIN_PATCH_MARKER then (with_mode StartedPatch p, Ok tt)
      else (p, Err (InvalidPatchError first_line_message))
  | StartedPatch => or_header p trimmed bad_header
  | ModeAddFile =>
      or_header p trimmed (λ p,
        match strip_prefix (lit "+") line, last (hunks (state p)) with
        | Some l, Some (AddFile _ _) =>
            (with_hunks (update_last (push_contents l) (hunks (state p))) p, Ok tt)
        | _, _ => bad_header p
        end)
  | ModeDeleteFile => or_header p trimmed bad_header
  | ModeUpdateFile n =>
      let update_line := trim_end line in
      or_header p update_line (λ p,
        match last (hunks (state p)) with
        | Some (UpdateFile _ move_path chunks) =>
            process_update_line p n line update_line move_path chunks
        | _ => (p, Err (InvalidHunkError (unexpected_line line) (line_number p)))
        end)
  | EndedPatch =>
      if is_empty trimmed then (p, Ok tt)
      else (p, Err (InvalidPatchError last_line_message))
  end.

(** The loop of [push_delta] over the characters of the delta. *)
Fixpoint push_chars (p : StreamingPatchParser) (delta : str) : run unit :=
  match delta with
  | [] => (p, Ok tt)
  | ch :: delta =>
      if (ch =? LF)%N then
        let line := line_buffer p in
        match process_line (next_line p) (default line (strip_suffix [CR] line)) with
        | (p, Ok _) => push_chars p delta
        | r => r
        end
      else push_chars (with_buffer (line_buffer p ++ [ch]) p) delta
  end.

Definition push_delta (p : StreamingPatchParser) (delta : str) : run (list Hunk) :=
  match push_chars p delta with
  | (p, Ok _) => (p, Ok (hunks (state p)))
  | (p, Err e) => (p, Err e)
  | (p, Panic) => (p, Panic)
  end.

(** The flush of a last line that has no newline. *)
Definition finish_line (p : StreamingPatchParser) : run unit :=
  if is_empty (line_buffer p) then (p, Ok tt)
  else
    let line := line_buffer p in
    let p := next_line p in
    if str_eqb (trim line) END_PATCH_MARKER then
      match ensure_update_hunk_is_not_empty p (trim line) with
      | Ok _ => (with_mode EndedPatch p, Ok tt)
      | Err e => (p, Err e)
      | Panic => (p, Panic)
      end
    else process_line p line.

Definition finish (p : StreamingPatchParser) : run (list Hunk) :=
  match finish_line p with
  | (p, Ok _) =>
      match mode (state p) with
      | EndedPatch => (p, Ok (hunks (state p)))
      | _ => (p, Err (InvalidPatchError last_line_message))
      end
  | (p, Err e) => (p, Err e)
  | (p, Panic) => (p, Panic)
  end.

(** ** The parser invariant

    The mode determines what the last hunk is; every hunk before it is
    complete, and inside an open update hunk every chunk but the last is. *)
Definition chunk_closed (c : UpdateFileChunk) : Prop := chunk_wf c ∧ chunk_complete c.

Definition chunks_open (cs : list UpdateFileChunk) : Prop :=
  cs = [] ∨ ∃ cs' c, cs = cs' ++ [c] ∧ Forall chunk_closed cs' ∧ chunk_wf c.

Definition last_hunk (P : Hunk → Prop) (hs : list Hunk) : Prop :=
  ∃ hs' h, hs = hs' ++ [h] ∧ Forall hunk_complete hs' ∧ P h.

Definition is_add (h : Hunk) : Prop := ∃ path contents, h = AddFile path contents.
Definition is_delete (h : Hunk) : Prop := ∃ path, h = DeleteFile path.
Definition is_open_update (h : Hunk) : Prop :=
  ∃ path mv cs, h = UpdateFile path mv cs ∧ chunks_open cs.

Definition hunks_ok (m : StreamingParserMode) (hs : list Hunk) : Prop :=
  match m with
  | NotStarted | StartedPatch => hs = []
  | ModeAddFile => last_hunk is_add hs
  | ModeDeleteFile => last_hunk is_delete hs
  | ModeUpdateFile _ => last_hunk is_open_update hs
  | EndedPatch => Forall hunk_complete hs
  end.

Definition parser_inv (p : StreamingPatchParser) : Prop :=
  hunks_ok (mode (state p)) (hunks (state p)).

Lemma new_parser_inv : parser_inv new_parser.
Proof. done. Qed.

Lemma next_line_inv p : parser_inv p → parser_inv (next_line p).
Proof. done. Qed.

Lemma with_buffer_inv b p : parser_inv p → parser_inv (with_buffer b p).
Proof. done. Qed.

(** When [ensure_update_hunk_is_not_empty] succeeds, the open hunk may be
    closed. *)
Lemma ensure_closes p line :
  parser_inv p → ensure_update_hunk_is_not_empty p line = Ok tt →
  Forall hunk_complete (hunks (state p)).
Proof.
  destruct p as [b [m hs env] n]. unfold parser_inv, ensure_update_hunk_is_not_empty. simpl.
  destruct m as [| | | |k|]; simpl; try (intros ->; done); try done.
  1,2: intros (hs' & h & -> & Hhs & Hh) _; apply Forall_app; split; [done|];
    apply Forall_singleton; destruct Hh; naive_solver.
  intros (hs' & h & -> & Hhs & path & mv & cs & -> & Hcs). rewrite last_snoc.
  destruct Hcs as [->|(cs' & c & -> & Hcs' & Hc)]; [done|].
  rewrite last_snoc. simpl.
  assert (is_empty (cs' ++ [c]) = false) as -> by (apply is_empty_false; by destruct cs').
  destruct (chunk_has_no_lines c) eqn:Hn; [by destruct (str_eqb _ _)|]. intros _.
  apply Forall_app; split; [done|]. apply Forall_singleton. split; [by destruct cs'|].
  apply Forall_app; split; [done|]. by apply Forall_singleton.
Qed.

Lemma start_hunk_inv p t f q r :
  parser_inv p →
  (Forall hunk_complete (hunks (state p)) → parser_inv (f p)) →
  start_hunk p t f = (q, r) → parser_inv q ∧ r ≠ Panic.
Proof.
  intros Hp Hf. unfold start_hunk.
  destruct (ensure_update_hunk_is_not_empty p t) as [[]|e|] eqn:E; intros [= <- <-].
  - split; [|done]. by eapply Hf, ensure_closes.
  - done.
  - exfalso. revert E. unfold ensure_update_hunk_is_not_empty. cases.
Qed.

Lemma last_hunk_snoc (P : Hunk → Prop) hs h :
  Forall hunk_complete hs → P h → last_hunk P (hs ++ [h]).
Proof. intros. by exists hs, h. Qed.

Lemma handle_headers_inv p t q r :
  parser_inv p → handle_headers p t = (q, r) → parser_inv q ∧ r ≠ Panic.
Proof.
  intros Hp. unfold handle_headers.
  destruct (str_eqb t END_PATCH_MARKER); [by apply start_hunk_inv|].
  destruct (strip_prefix ADD_FILE_MARKER t) as [path|].
  { apply start_hunk_inv; [done|]. intros. apply last_hunk_snoc; [done|].
    by exists path, []. }
  destruct (strip_prefix DELETE_FILE_MARKER t) as [path|].
  { apply start_hunk_inv; [done|]. intros. apply last_hunk_snoc; [done|].
    by exists path. }
  destruct (strip_prefix UPDATE_FILE_MARKER t) as [path|].
  { apply start_hunk_inv; [done|]. intros. apply last_hunk_snoc; [done|].
    exists path, None, []. split; [done|]. by left. }
  by intros [= <- <-].
Qed.

Lemma handle_inv p t q r :
  parser_inv p → handle_hunk_headers_and_end_patch p t = (q, r) →
  parser_inv q ∧ r ≠ Panic.
Proof.
  intros Hp. unfold handle_hunk_headers_and_end_patch.
  destruct (mode (state p)) eqn:Em; try by apply handle_headers_inv.
  destruct (strip_prefix ENVIRONMENT_ID_MARKER t) as [raw|]; [|by apply handle_headers_inv].
  unfold handle_environment_id, parser_inv in *. cases; intros; simplify_eq; simpl;
    by rewrite ?Em in *.
Qed.

(** A header handler that reports [false] changed nothing. *)
Lemma handle_false p t q :
  handle_hunk_headers_and_end_patch p t = (q, Ok false) → q = p.
Proof.
  unfold handle_hunk_headers_and_end_patch, handle_headers, handle_environment_id,
    start_hunk. repeat case_match; congruence.
Qed.

Lemma or_header_inv p t k q r :
  parser_inv p →
  (∀ q r, k p = (q, r) → parser_inv q ∧ r ≠ Panic) →
  or_header p t k = (q, r) → parser_inv q ∧ r ≠ Panic.
Proof.
  intros Hp Hk. unfold or_header.
  destruct (handle_hunk_headers_and_end_patch p t) as [p' r'] eqn:E.
  pose proof (handle_inv _ _ _ _ Hp E) as [Hp' Hr'].
  destruct r' as [[]| |]; [by intros [= <- <-]|..|done].
  - apply handle_false in E as ->. apply Hk.
  - by intros [= <- <-].
Qed.

Lemma chunks_open_snoc cs c :
  chunks_open cs → is_some_and chunk_has_no_lines (last cs) = false →
  chunk_wf c → chunks_open (cs ++ [c]).
Proof.
  intros [->|(cs' & c' & -> & Hcs & Hc')] Hlast Hc; right.
  - by exists [], c.
  - exists (cs' ++ [c']), c. split; [done|]. split; [|done].
    rewrite last_snoc in Hlast. apply Forall_app. split; [done|].
    by apply Forall_singleton.
Qed.

Lemma chunks_open_update_last f cs :
  (∀ c, chunk_wf c → chunk_wf (f c)) → chunks_open cs → chunks_open (update_last f cs).
Proof.
  intros Hf [->|(cs' & c & -> & Hcs & Hc)]; [by left|]. right.
  rewrite update_last_snoc. exists cs', (f c). auto.
Qed.

Lemma chunks_open_add f cs :
  (∀ c, chunk_wf c → chunk_wf (f c)) → chunks_open cs → chunks_open (add_to_chunk f cs).
Proof.
  intros Hf Hcs. apply chunks_open_update_last; [done|].
  destruct cs; [|done]. right. exists [], default_chunk. auto with cubineer.
Qed.

Lemma store_chunks_inv n cs cs' p :
  last_hunk is_open_update (hunks (state p)) → chunks_open cs' →
  cs = cs' → parser_inv (store_chunks n cs p).
Proof.
  intros (hs & h & E & Hhs & path & mv & cs0 & -> & _) Hcs ->.
  unfold parser_inv, store_chunks. simpl. rewrite E, update_last_snoc. simpl.
  apply last_hunk_snoc; [done|]. by exists path, mv, cs'.
Qed.

Lemma process_update_line_inv p n line ul mv cs hs path q r :
  hunks (state p) = hs ++ [UpdateFile path mv cs] →
  Forall hunk_complete hs → chunks_open cs → mode (state p) = ModeUpdateFile n →
  process_update_line p n line ul mv cs = (q, r) → parser_inv q ∧ r ≠ Panic.
Proof.
  intros E Hhs Hcs Hm.
  assert (last_hunk is_open_update (hunks (state p))) as Hlast.
  { rewrite E. apply last_hunk_snoc; [done|]. by exists path, mv, cs. }
  assert (parser_inv p) as Hp by (unfold parser_inv; by rewrite Hm).
  unfold process_update_line. cbv zeta.
  set (ended := is_some_and is_end_of_file (last cs)).
  destruct (ended && is_empty ul); [by intros [= <- <-]|].
  destruct (ended && negb (is_context_marker ul)); [by intros [= <- <-]|].
  destruct (if is_empty cs && is_none mv then strip_prefix MOVE_TO_MARKER ul else None) as [dest|].
  { intros [= <- <-]. split; [|done]. unfold parser_inv. simpl.
    rewrite E, update_last_snoc. apply last_hunk_snoc; [done|]. by exists path, (Some dest), cs. }
  destruct (is_context_marker ul && is_some_and chunk_has_no_lines (last cs)) eqn:Hmark; [by intros [= <- <-]|].
  destruct (str_eqb ul EMPTY_CHANGE_CONTEXT_MARKER) eqn:He.
  { intros [= <- <-]. split; [|done]. eapply store_chunks_inv; [done| |reflexivity].
    apply chunks_open_snoc; auto with cubineer.
    unfold is_context_marker in Hmark. by rewrite He in Hmark. }
  destruct (strip_prefix CHANGE_CONTEXT_MARKER ul) as [ctx|] eqn:Hctx.
  { intros [= <- <-]. split; [|done]. eapply store_chunks_inv; [done| |reflexivity].
    apply chunks_open_snoc; auto with cubineer.
    unfold is_context_marker, starts_with in Hmark. by rewrite Hctx, orb_true_r in Hmark. }
  destruct (str_eqb ul EOF_MARKER); [destruct (is_some_and chunk_has_no_lines (last cs))|destruct (is_empty line);
    [|destruct (strip_prefix [SP] line);
    [|destruct (strip_prefix (lit "+") line);
    [|destruct (strip_prefix (lit "-") line);
    [|destruct (is_some_and (λ c, negb (chunk_has_no_lines c)) (last cs))]]]]];
    intros [= <- <-]; (split; [|done]); try done;
    (eapply store_chunks_inv; [done| |reflexivity]);
    auto using chunks_open_update_last, chunks_open_add with cubineer.
Qed.

(** Every line, accepted or rejected, leaves the parser in a consistent state,
    and no line makes it panic. *)
Lemma process_line_inv p line q r :
  parser_inv p → process_line p line = (q, r) → parser_inv q ∧ r ≠ Panic.
Proof.
  intros Hp. unfold process_line. destruct (mode (state p)) eqn:Hm.
  - destruct (str_eqb _ _); intros [= <- <-]; [|done]. split; [|done].
    unfold parser_inv in *. by rewrite Hm in Hp.
  - apply or_header_inv; [done|]. by intros ? ? [= <- <-].
  - apply or_header_inv; [done|]. intros q' r'.
    destruct (strip_prefix (lit "+") line) as [l|]; [|by intros [= <- <-]].
    unfold parser_inv in Hp. rewrite Hm in Hp.
    destruct Hp as (hs & h & E & Hhs & path & contents & ->).
    rewrite E, last_snoc. intros [= <- <-]. split; [|done].
    unfold parser_inv. simpl. rewrite Hm, update_last_snoc.
    apply last_hunk_snoc; [done|]. eexists _, _; reflexivity.
  - apply or_header_inv; [done|]. by intros ? ? [= <- <-].
  - apply or_header_inv; [done|]. intros q' r'.
    unfold parser_inv in Hp. rewrite Hm in Hp.
    destruct Hp as (hs & h & E & Hhs & path & mv & cs & -> & Hcs).
    rewrite E, last_snoc. eapply process_update_line_inv; eauto.
  - destruct (is_empty _); by intros [= <- <-].
Qed.

Lemma push_chars_inv delta p q r :
  parser_inv p → push_chars p delta = (q, r) → parser_inv q ∧ r ≠ Panic.
Proof.
  revert p; induction delta as [|ch delta IH]; intros p Hp; simpl; [by intros [= <- <-]|].
  destruct (N.eqb ch LF); [|by apply IH].
  destruct (process_line _ _) as [p' [|e|]] eqn:E;
    apply process_line_inv in E as [? ?]; try done.
  - by apply IH.
  - by intros [= <- <-].
Qed.

Lemma finish_line_inv p q r :
  parser_inv p → finish_line p = (q, r) → parser_inv q ∧ r ≠ Panic.
Proof.
  intros Hp. unfold finish_line. destruct (is_empty _); [by intros [= <- <-]|].
  destruct (str_eqb _ _); [|by apply process_line_inv].
  destruct (ensure_update_hunk_is_not_empty _ _) as [[]|e|] eqn:E; intros [= <- <-].
  - split; [|done]. by apply ensure_closes in E.
  - done.
  - exfalso. revert E. unfold ensure_update_hunk_is_not_empty. cases.
Qed.

Lemma finish_inv p q r :
  parser_inv p → finish p = (q, r) →
  r ≠ Panic ∧ parser_inv q ∧ ∀ hs, r = Ok hs → Forall hunk_complete hs.
Proof.
  intros Hp. unfold finish.
  destruct (finish_line p) as [p' r'] eqn:E. apply finish_line_inv in E as [Hp' Hr']; [|done].
  destruct r' as [[]|e|]; [|by intros [= <- <-]|done].
  destruct (mode (state p')) eqn:Hm; intros [= <- <-]; split_and!; try done.
  intros hs [= <-]. unfold parser_inv in Hp'. by rewrite Hm in Hp'.
Qed.

(** ** Splitting the input into deltas *)
Lemma push_chars_app p a b :
  push_chars p (a ++ b) =
  match push_chars p a with
  | (q, Ok _) => push_chars q b
  | r => r
  end.
Proof.
  revert p; induction a as [|ch a IH]; intros p; simpl; [done|].
  destruct (N.eqb ch LF); [|by apply IH].
  destruct (process_line _ _) as [q [| |]]; [by apply IH|done..].
Qed.

(** Feeding deltas one after the other, stopping at the first error. *)
Fixpoint push_deltas (p : StreamingPatchParser) (ds : list str) : run (list Hunk) :=
  match ds with
  | [] => (p, Ok (hunks (state p)))
  | d :: ds =>
      match push_delta p d with
      | (p, Ok _) => push_deltas p ds
      | r => r
      end
  end.

(** Streaming is transparent: however a patch text is cut into deltas, feeding
    the deltas one by one (stopping at the first error) leaves the parser in the
    state, and with the hunks or the error, of feeding the whole text at once. *)
Theorem streaming_deltas_as_whole p ds : push_deltas p ds = push_delta p (concat ds).
Proof.
  revert p; induction ds as [|d ds IH]; intros p; simpl; [done|].
  unfold push_delta. rewrite push_chars_app.
  destruct (push_chars p d) as [q [| |]]; [by rewrite IH|done..].
Qed.

(** A stream that is only an end marker is refused with its newline and accepted
    without it: [finish] does not look at the mode the marker arrives in. *)
Theorem bare_end_marker_accepted :
  (finish (push_delta new_parser END_PATCH_MARKER).1).2 = Ok [] ∧
  is_ok (push_delta new_parser (END_PATCH_MARKER ++ [LF])).2 = false.
Proof. by vm_compute. Qed.
