(* ===== verification/PatchParser.v ===== *)
(** * apply-patch: the patch parser

    [parse_patch] of [apply-patch/src/parser.rs]: boundary checks in strict
    and lenient mode, then one run of the streaming parser. *)
From S2P Require Import Prelude Str PatchSyntax PatchStream.

(** [ApplyPatchArgs] of [apply-patch/src/lib.rs]. *)
Record ApplyPatchArgs := {
  patch : str;
  args_hunks : list Hunk;
  workdir : option str;
  args_environment_id : option str;
}.

Definition PARSE_IN_STRICT_MODE : bool := false.

Inductive ParseMode := Strict | Lenient.

Definition check_start_and_end_lines_strict (first_line last_line : option str)
    : res ParseError unit :=
  match trim <$> first_line, trim <$> last_line with
  | Some f, Some l =>
      if str_eqb f BEGIN_PATCH_MARKER && str_eqb l END_PATCH_MARKER then Ok tt
      else if negb (str_eqb f BEGIN_PATCH_MARKER) then
        Err (InvalidPatchError first_line_message)
      else Err (InvalidPatchError last_line_message)
  | Some f, None =>
      if negb (str_eqb f BEGIN_PATCH_MARKER) then
        Err (InvalidPatchError first_line_message)
      else Err (InvalidPatchError last_line_message)
  | None, _ => Err (InvalidPatchError last_line_message)
  end.

Definition check_patch_boundaries_strict (ls : list str) : res ParseError (list str) :=
  let '(first_line, last_line) :=
    match ls with
    | [] => (None, None)
    | [first] => (Some first, Some first)
    | first :: _ => (Some first, last ls)
    end in
  _ ← check_start_and_end_lines_strict first_line last_line;
  Ok ls.

Definition is_heredoc_open (first : str) : bool :=
  str_eqb first (lit "<<EOF") || str_eqb first (lit "<<'EOF'")
  || str_eqb first (lit "<<" ++ [34%N] ++ lit "EOF" ++ [34%N]).

Definition check_patch_boundaries_lenient (ls : list str) : res ParseError (list str) :=
  match check_patch_boundaries_strict ls with
  | Err e =>
      match ls, last ls with
      | first :: _ :: _, Some l =>
          if is_heredoc_open first && ends_with l (lit "EOF")
             && bool_decide (4 ≤ length ls)
          then
            inner ← slice ls 1 (length ls - 1);
            check_patch_boundaries_strict inner
          else Err e
      | _, _ => Err e
      end
  | r => r
  end.

Definition parse_patch_text (text : str) (mode : ParseMode) : res ParseError ApplyPatchArgs :=
  let ls := lines (trim text) in
  patch_lines ← match mode with
                | Strict => check_patch_boundaries_strict ls
                | Lenient => check_patch_boundaries_lenient ls
                end;
  let patch := join [LF] patch_lines in
  let '(parser, pushed) := push_delta new_parser patch in
  _ ← pushed;
  let '(parser, finished) := finish parser in
  hunks ← finished;
  Ok {| patch := patch; args_hunks := hunks; workdir := None;
        args_environment_id := environment_id (state parser) |}.

Definition parse_patch (text : str) : res ParseError ApplyPatchArgs :=
  parse_patch_text text (if PARSE_IN_STRICT_MODE then Strict else Lenient).

(** ** Lemmas *)

Lemma strict_boundaries_Ok ls ls' :
  check_patch_boundaries_strict ls = Ok ls' →
  ls' = ls ∧ ∃ f l, head ls = Some f ∧ last ls = Some l ∧
    trim f = BEGIN_PATCH_MARKER ∧ trim l = END_PATCH_MARKER.
Proof.
  unfold check_patch_boundaries_strict. intros H.
  assert (check_start_and_end_lines_strict (head ls) (last ls) = Ok tt ∧ ls' = ls) as [Hc ->].
  { destruct ls as [|x [|y ls]]; simpl in *;
      destruct (check_start_and_end_lines_strict _ _) as [[]| |] eqn:E; naive_solver. }
  split; [done|]. unfold check_start_and_end_lines_strict in Hc.
  destruct (head ls) as [f|], (last ls) as [l|]; simpl in *; try done; [|by case_match].
  exists f, l. destruct (str_eqb (trim f) BEGIN_PATCH_MARKER) eqn:E1,
    (str_eqb (trim l) END_PATCH_MARKER) eqn:E2; simplify_eq/=.
  rewrite str_eqb_eq in E1, E2. done.
Qed.

Lemma strict_boundaries_ok ls f l :
  head ls = Some f → last ls = Some l →
  trim f = BEGIN_PATCH_MARKER → trim l = END_PATCH_MARKER →
  check_patch_boundaries_strict ls = Ok ls.
Proof.
  intros Hh Hl Hf Hlast. unfold check_patch_boundaries_strict.
  assert (check_start_and_end_lines_strict (Some f) (Some l) = Ok tt) as Hok.
  { unfold check_start_and_end_lines_strict. simpl. by rewrite Hf, Hlast, !str_eqb_refl. }
  destruct ls as [|x [|y ls]]; simplify_eq/=; [by rewrite Hok|].
  rewrite Hl. by rewrite Hok.
Qed.

Lemma strict_boundaries_no_panic ls : check_patch_boundaries_strict ls ≠ Panic.
Proof.
  unfold check_patch_boundaries_strict, check_start_and_end_lines_strict.
  by repeat case_match; simplify_eq/=.
Qed.

(** The inner lines of a heredoc. *)
Lemma slice_inner {E} (x y : str) (ls : list str) :
  @slice E _ (x :: ls ++ [y]) 1 (length (x :: ls ++ [y]) - 1) = Ok ls.
Proof.
  rewrite slice_Ok by (simpl; rewrite ?length_app; simpl; lia).
  f_equal. change (drop 1 (x :: ls ++ [y])) with (ls ++ [y]).
  apply take_app_length'. simpl. rewrite length_app. simpl. lia.
Qed.

Lemma lenient_no_panic ls : check_patch_boundaries_lenient ls ≠ Panic.
Proof.
  unfold check_patch_boundaries_lenient.
  pose proof (strict_boundaries_no_panic ls).
  destruct (check_patch_boundaries_strict ls); [done| |done].
  destruct ls as [|x [|z ls]]; [done..|].
  destruct (last (x :: z :: ls)) as [y|]; [|done].
  destruct (is_heredoc_open x && ends_with y (lit "EOF") && _) eqn:E; [|done].
  rewrite slice_Ok by (simpl; lia). apply strict_boundaries_no_panic.
Qed.

(** Strictly valid lines are their own lenient reading. *)
Lemma lenient_strict ls ls' :
  check_patch_boundaries_strict ls = Ok ls' → check_patch_boundaries_lenient ls = Ok ls'.
Proof. unfold check_patch_boundaries_lenient. by intros ->. Qed.

Lemma parse_patch_text_inv text m :
  parse_patch_text text m ≠ Panic ∧
  ∀ args, parse_patch_text text m = Ok args → Forall hunk_complete (args_hunks args).
Proof.
  unfold parse_patch_text.
  assert (∀ ls, match m with Strict => check_patch_boundaries_strict ls
                | Lenient => check_patch_boundaries_lenient ls end ≠ Panic) as Hb.
  { intros ls. destruct m; [apply strict_boundaries_no_panic|apply lenient_no_panic]. }
  specialize (Hb (lines (trim text))).
  destruct (match m with Strict => _ | Lenient => _ end) as [pl| |]; [|done..]. simpl.
  unfold push_delta. destruct (push_chars _ _) as [p r] eqn:E.
  apply push_chars_inv in E as [Hp Hr]; [|apply new_parser_inv].
  destruct r as [| |]; [|done..]. simpl.
  destruct (finish p) as [q r] eqn:F. apply finish_inv in F as (Hr' & Hq & Hhs); [|done].
  destruct r as [hs| |]; simpl; [|done..]. split; [done|].
  intros args [= <-]. by apply Hhs.
Qed.

(** Parsing is total: whatever the text, [parse_patch] returns a patch or an
    error and never panics, and in a patch it returns every update has chunks,
    every chunk has lines, and the chunks' context indices point at equal lines
    of the two sides in order. *)
Theorem parse_patch_total_and_complete text :
  parse_patch text ≠ Panic ∧
  ∀ args, parse_patch text = Ok args → Forall hunk_complete (args_hunks args).
Proof. apply parse_patch_text_inv. Qed.
