(* ===== verification/PatchGrammar.v ===== *)
(** * apply-patch: the documented grammar

    The grammar in the module comment of [apply-patch/src/parser.rs], as
    abstract syntax with a printer ([render_patch]) and a meaning
    ([denote_hunk]) that uses nothing of the parser.  The theorem at the end
    says which texts of the grammar [parse_patch] accepts, and that it reads
    those as their meaning.

    The grammar makes the [change] of an update optional and lets change
    contexts follow each other; the parser refuses an update without a change
    and a change context without a line of its own. *)
From S2P Require Import Prelude Str PatchSyntax PatchStream PatchParser.

(** ** Abstract syntax *)

(** [change_line]: ("+" | "-" | " ") text. *)
Inductive edit := Ctx (l : str) | Add (l : str) | Del (l : str).

(** One element of [change: (change_context | change_line)+ eof_line?]. *)
Inductive change_item := Context (ctx : option str) | Line (e : edit).

(** A hunk; an update with no item is one without a [change]. *)
Inductive hunk_src :=
  | SAdd (path : str) (ls : list str)
  | SDelete (path : str)
  | SUpdate (path : str) (move : option str) (change : list change_item) (eof : bool).

Record patch_src := { src_env : option str; src_hunks : list hunk_src }.

(** ** Printing *)
Definition render_edit (e : edit) : str :=
  match e with
  | Ctx l => SP :: l
  | Add l => lit "+" ++ l
  | Del l => lit "-" ++ l
  end.
Definition render_context (ctx : option str) : str :=
  match ctx with None => lit "@@" | Some c => lit "@@ " ++ c end.
Definition render_item (i : change_item) : str :=
  match i with Context ctx => render_context ctx | Line e => render_edit e end.
Definition render_move (mv : option str) : list str :=
  match mv with None => [] | Some dest => [lit "*** Move to: " ++ dest] end.
Definition render_hunk (h : hunk_src) : list str :=
  match h with
  | SAdd path ls => (lit "*** Add File: " ++ path) :: ((λ l, lit "+" ++ l) <$> ls)
  | SDelete path => [lit "*** Delete File: " ++ path]
  | SUpdate path mv change eof =>
      (lit "*** Update File: " ++ path) :: render_move mv ++ (render_item <$> change)
      ++ (if eof then [lit "*** End of File"] else [])
  end.
Definition render_env (env : option str) : list str :=
  match env with None => [] | Some id => [lit "*** Environment ID: " ++ id] end.
Definition render_body (s : patch_src) : list str :=
  lit "*** Begin Patch" :: render_env (src_env s) ++ concat (render_hunk <$> src_hunks s).
Definition render_patch (s : patch_src) : str :=
  join [LF] (render_body s ++ [lit "*** End Patch"]).

(** ** Meaning

    The lines of a change fall into groups: those before the first context,
    if any, and those after each context. *)
Fixpoint split_change (change : list change_item) : list edit * list (option str * list edit) :=
  match change with
  | [] => ([], [])
  | Line e :: rest => let '(es, gs) := split_change rest in (e :: es, gs)
  | Context ctx :: rest => let '(es, gs) := split_change rest in ([], (ctx, es) :: gs)
  end.
Definition groups (change : list change_item) : list (option str * list edit) :=
  match split_change change with
  | ([], gs) => gs
  | (es, gs) => (None, es) :: gs
  end.

(** The lines of a group before and after the change, and where its context
    lines stand in both. *)
Fixpoint old_side (es : list edit) : list str :=
  match es with
  | [] => []
  | (Ctx l | Del l) :: es => l :: old_side es
  | Add _ :: es => old_side es
  end.
Fixpoint new_side (es : list edit) : list str :=
  match es with
  | [] => []
  | (Ctx l | Add l) :: es => l :: new_side es
  | Del _ :: es => new_side es
  end.
Fixpoint common_positions (o n : nat) (es : list edit) : list (nat * nat) :=
  match es with
  | [] => []
  | Ctx _ :: es => (o, n) :: common_positions (S o) (S n) es
  | Add _ :: es => common_positions o (S n) es
  | Del _ :: es => common_positions (S o) n es
  end.
Definition denote_group (g : option str * list edit) (eof : bool) : UpdateFileChunk :=
  {| change_context := g.1; old_lines := old_side g.2; new_lines := new_side g.2;
     context_line_indices := common_positions 0 0 g.2; is_end_of_file := eof |}.

(** The end-of-file line belongs to the last group. *)
Fixpoint denote_groups (gs : list (option str * list edit)) (eof : bool) : list UpdateFileChunk :=
  match gs with
  | [] => []
  | [g] => [denote_group g eof]
  | g :: gs => denote_group g false :: denote_groups gs eof
  end.
Definition denote_hunk (h : hunk_src) : Hunk :=
  match h with
  | SAdd path ls => AddFile path (concat ((λ l, l ++ [LF]) <$> ls))
  | SDelete path => DeleteFile path
  | SUpdate path mv change eof => UpdateFile path mv (denote_groups (groups change) eof)
  end.

(** What the parser asks beyond the grammar: an update has a change, and every
    change context is followed by a line. *)
Definition hunk_filled (h : hunk_src) : Prop :=
  match h with
  | SUpdate _ _ change _ => change ≠ [] ∧ Forall (λ g, g.2 ≠ []) (groups change)
  | _ => True
  end.
#[export] Instance hunk_filled_dec h : Decision (hunk_filled h).
Proof. destruct h; simpl; apply _. Defined.

(** ** Side conditions of the grammar

    A line has no newline and no final carriage return (the parser reads
    CRLF input); a file name or context line is not empty and does not end
    in whitespace (the parser trims the line it is on). *)
Definition plain (l : str) : Prop := (LF ∉ l) ∧ last l ≠ Some CR.
Definition name (s : str) : Prop :=
  (LF ∉ s) ∧ ∃ c, last s = Some c ∧ is_whitespace c = false.
Definition edit_text (e : edit) : str := match e with Ctx l | Add l | Del l => l end.
Definition item_ok (i : change_item) : Prop :=
  match i with
  | Context ctx => ∀ c, ctx = Some c → name c
  | Line e => plain (edit_text e)
  end.
Definition hunk_src_ok (h : hunk_src) : Prop :=
  match h with
  | SAdd path ls => name path ∧ Forall plain ls
  | SDelete path => name path
  | SUpdate path mv change eof =>
      name path ∧ (∀ dest, mv = Some dest → name dest)
      ∧ Forall item_ok change ∧ (eof = true → change ≠ [])
  end.
Definition env_ok (id : str) : Prop :=
  name id ∧ ∃ c s, id = c :: s ∧ is_whitespace c = false.
Definition patch_src_ok (s : patch_src) : Prop :=
  (∀ id, src_env s = Some id → env_ok id) ∧ Forall hunk_src_ok (src_hunks s).

(** ** Trimming marker lines *)
Lemma trim_end_id s c : last s = Some c → is_whitespace c = false → trim_end s = s.
Proof. intros [l ->]%last_Some Hc. by apply trim_end_snoc. Qed.

Lemma trim_end_cons c l : is_whitespace c = false → ∃ l', trim_end (c :: l) = c :: l'.
Proof.
  intros Hc. destruct (trim_end_split (c :: l)) as (w & Hs & Hw).
  destruct (trim_end (c :: l)) as [|c' l'] eqn:E; simpl in Hs; [|naive_solver].
  subst. apply Forall_cons in Hw as [Hw _]. congruence.
Qed.

Lemma trim_id c s d :
  is_whitespace c = false → last (c :: s) = Some d → is_whitespace d = false →
  trim (c :: s) = c :: s.
Proof. intros Hc Hl Hd. unfold trim. rewrite (trim_end_id _ d) by done. by apply trim_start_cons. Qed.

Lemma name_app m s : name s → ∃ c, last (m ++ s) = Some c ∧ is_whitespace c = false.
Proof.
  intros (_ & c & Hl & Hc). exists c. split; [|done].
  apply last_Some in Hl as [l ->]. by rewrite app_assoc, last_snoc.
Qed.

Lemma trim_end_name m s : name s → trim_end (m ++ s) = m ++ s.
Proof. intros (c & ? & ?)%(name_app m). by eapply trim_end_id. Qed.

Lemma trim_name c m s : is_whitespace c = false → name s → trim (c :: m ++ s) = c :: m ++ s.
Proof. intros Hc (d & ? & ?)%(name_app (c :: m)). by eapply trim_id. Qed.

(** ** One line at a time *)

(** A parser between two lines. *)
Definition at_line (m : StreamingParserMode) (hs : list Hunk) (env : option str) (n : nat) :=
  {| line_buffer := []; state := {| mode := m; hunks := hs; environment_id := env |};
     line_number := n |}.

Fixpoint run_lines (p : StreamingPatchParser) (ls : list str) : run unit :=
  match ls with
  | [] => (p, Ok tt)
  | l :: ls =>
      match process_line (next_line p) l with
      | (p, Ok _) => run_lines p ls
      | r => r
      end
  end.

Definition steps (p : StreamingPatchParser) (ls : list str) (q : StreamingPatchParser) :=
  run_lines p ls = (q, Ok tt).

Lemma steps_nil p : steps p [] p.
Proof. done. Qed.
Lemma steps_cons p l q ls r :
  process_line (next_line p) l = (q, Ok tt) → steps q ls r → steps p (l :: ls) r.
Proof. unfold steps. simpl. by intros ->. Qed.
Lemma steps_app p ls1 q ls2 r : steps p ls1 q → steps q ls2 r → steps p (ls1 ++ ls2) r.
Proof.
  unfold steps. revert p; induction ls1 as [|l ls1 IH]; simpl; intros p.
  - by intros [= ->].
  - destruct (process_line _ _) as [p' [| |]]; [|done..]. apply IH.
Qed.

(** The lines are refused with an error about a hunk. *)
Definition fails (p : StreamingPatchParser) (ls : list str) : Prop :=
  ∃ q msg k, run_lines p ls = (q, Err (InvalidHunkError msg k)).

Lemma fails_cons p l ls q msg k :
  process_line (next_line p) l = (q, Err (InvalidHunkError msg k)) → fails p (l :: ls).
Proof. intros E. exists q, msg, k. simpl. by rewrite E. Qed.
Lemma fails_app_l p ls1 ls2 : fails p ls1 → fails p (ls1 ++ ls2).
Proof.
  intros (q & msg & k & H). exists q, msg, k. revert p H.
  induction ls1 as [|l ls1 IH]; simpl; intros p; [done|].
  destruct (process_line _ _) as [p' [| |]]; [apply IH|done..].
Qed.
Lemma fails_app_r p ls1 q ls2 : steps p ls1 q → fails q ls2 → fails p (ls1 ++ ls2).
Proof.
  unfold steps. intros Hs (r & msg & k & H). exists r, msg, k. revert p Hs.
  induction ls1 as [|l ls1 IH]; simpl; intros p; [by intros [= ->]|].
  destruct (process_line _ _) as [p' [| |]]; [apply IH|done..].
Qed.

Lemma strip_suffix_CR_plain l : plain l → default l (strip_suffix [CR] l) = l.
Proof.
  intros [_ Hl]. destruct (strip_suffix [CR] l) as [l'|] eqn:E; [|done].
  apply strip_suffix_Some in E as ->. by rewrite last_snoc in Hl.
Qed.

Lemma push_line p l s :
  LF ∉ l → push_chars p (l ++ s) = push_chars (with_buffer (line_buffer p ++ l) p) s.
Proof.
  revert p; induction l as [|c l IH]; intros p; simpl.
  - rewrite app_nil_r. by destruct p.
  - rewrite not_elem_of_cons. intros [Hc Hl].
    destruct (N.eqb_spec c LF) as [|_]; [congruence|]. rewrite IH by done. simpl.
    by rewrite <-app_assoc.
Qed.

(** No line touches the line buffer. *)
Lemma handle_buffer p t q r :
  handle_hunk_headers_and_end_patch p t = (q, r) → line_buffer q = line_buffer p.
Proof.
  unfold handle_hunk_headers_and_end_patch, handle_headers, handle_environment_id,
    start_hunk. repeat case_match; by intros [= <- <-].
Qed.

Lemma process_update_line_buffer p n line ul mv cs q r :
  process_update_line p n line ul mv cs = (q, r) → line_buffer q = line_buffer p.
Proof. unfold process_update_line. cbv zeta. repeat case_match; by intros [= <- <-]. Qed.

Lemma process_line_buffer p l q r :
  process_line p l = (q, r) → line_buffer q = line_buffer p.
Proof.
  unfold process_line, or_header.
  destruct (mode (state p)); try (case_match; by intros [= <- <-]);
    destruct (handle_hunk_headers_and_end_patch _ _) as [p' r'] eqn:E;
    apply handle_buffer in E; rewrite <-E;
    destruct r' as [[]| |]; try (by intros [= <- <-]);
    repeat case_match; try (by intros [= <- <-]);
    apply process_update_line_buffer.
Qed.

(** Pushing whole lines runs them one after the other. *)
Lemma push_lines p ls s q :
  line_buffer p = [] → Forall plain ls → steps p ls q →
  push_chars p (concat ((λ l, l ++ [LF]) <$> ls) ++ s) = push_chars q s ∧ line_buffer q = [].
Proof.
  intros Hp Hls. revert p Hp; induction Hls as [|l ls Hl Hls IH]; intros p Hp.
  - by intros [= <-].
  - unfold steps. simpl. destruct (process_line (next_line p) l) as [p' r] eqn:E.
    destruct r as [[]| |]; [|done..]. intros Hs.
    pose proof (process_line_buffer _ _ _ _ E) as Hb.
    rewrite <-!app_assoc, push_line by apply Hl. simpl. rewrite Hp. simpl.
    rewrite strip_suffix_CR_plain by done.
    change (next_line (with_buffer l p)) with (next_line p). rewrite E.
    by apply IH.
Qed.

(** An error on a line is the answer of the whole push. *)
Lemma push_fails p ls s :
  line_buffer p = [] → Forall plain ls → fails p ls →
  ∃ q msg k, push_chars p (concat ((λ l, l ++ [LF]) <$> ls) ++ s)
    = (q, Err (InvalidHunkError msg k)).
Proof.
  intros Hp Hls (q & msg & k & H). exists q, msg, k. revert p Hp H.
  induction Hls as [|l ls Hl Hls IH]; intros p Hp; [done|]. simpl.
  rewrite <-!app_assoc, push_line by apply Hl. simpl. rewrite Hp. simpl.
  rewrite strip_suffix_CR_plain by done.
  change (next_line (with_buffer l p)) with (next_line p).
  destruct (process_line (next_line p) l) as [p' r] eqn:E.
  pose proof (process_line_buffer _ _ _ _ E) as Hb.
  destruct r as [[]| |]; [by apply IH|done..].
Qed.

Lemma join_snoc ls s :
  join [LF] (ls ++ [s]) = concat ((λ l, l ++ [LF]) <$> ls) ++ s.
Proof.
  induction ls as [|l ls IH]; [done|].
  change ((l :: ls) ++ [s]) with (l :: (ls ++ [s])).
  rewrite join_cons by (by destruct ls). rewrite IH. simpl. by rewrite <-!app_assoc.
Qed.

(** ** Step lemmas, one per kind of line *)

(** What the parser does to the chunks of an update, item by item. *)
Definition apply_edit (e : edit) (c : UpdateFileChunk) : UpdateFileChunk :=
  match e with
  | Ctx l => push_context_line l c
  | Add l => push_new_line l c
  | Del l => push_old_line l c
  end.
Definition open_chunk (ctx : option str) : UpdateFileChunk :=
  match ctx with None => default_chunk | Some c => context_chunk c end.
Definition apply_item (cs : list UpdateFileChunk) (i : change_item) : list UpdateFileChunk :=
  match i with
  | Context ctx => cs ++ [open_chunk ctx]
  | Line e => add_to_chunk (apply_edit e) cs
  end.

Lemma ensure_complete p t :
  Forall hunk_complete (hunks (state p)) → ensure_update_hunk_is_not_empty p t = Ok tt.
Proof.
  intros H. unfold ensure_update_hunk_is_not_empty.
  destruct (last (hunks (state p))) as [h|] eqn:E; [|done].
  destruct h as [| |path mv cs]; try done.
  apply last_Some in E as [hs' E]. rewrite E in H.
  apply Forall_app in H as [_ [[Hne Hcs] _]%Forall_cons].
  destruct cs as [|c cs _] using rev_ind; [done|]. rewrite last_snoc. simpl.
  apply Forall_app in Hcs as [_ [[_ Hc] _]%Forall_cons]. unfold chunk_complete in Hc.
  rewrite Hc. by destruct cs.
Qed.

Lemma strip_star_none m t : head t ≠ Some 42%N → strip_prefix (42%N :: m) t = None.
Proof.
  destruct t as [|c t]; [done|]. cbn [strip_prefix]. intros H.
  destruct (N.eqb_spec 42 c); [simpl in H; congruence|done].
Qed.

(** An update that has no chunk yet, or whose last chunk has no line, cannot
    be closed. *)
Definition unfinished (m : StreamingParserMode) (hs : list Hunk) : Prop :=
  ∃ k hs' path mv cs, m = ModeUpdateFile k ∧ hs = hs' ++ [UpdateFile path mv cs]
    ∧ (cs = [] ∨ is_some_and chunk_has_no_lines (last cs) = true).

Lemma ensure_unfinished p t :
  unfinished (mode (state p)) (hunks (state p)) →
  ∃ msg k, ensure_update_hunk_is_not_empty p t = Err (InvalidHunkError msg k).
Proof.
  intros (k & hs & path & mv & cs & Hm & Hhs & Hcs). unfold ensure_update_hunk_is_not_empty.
  rewrite Hhs, last_snoc, Hm. destruct cs as [|c cs]; simpl is_empty; [by eexists _, _|].
  destruct Hcs as [|Hc]; [done|]. rewrite Hc. destruct (str_eqb _ _); by eexists _, _.
Qed.

(** A line whose first visible character is not a star is no header. *)
Lemma no_header p t : head t ≠ Some 42%N → handle_hunk_headers_and_end_patch p t = (p, Ok false).
Proof.
  intros Ht. unfold handle_hunk_headers_and_end_patch, handle_headers.
  change ENVIRONMENT_ID_MARKER with (42%N :: lit "** Environment ID:").
  change ADD_FILE_MARKER with (42%N :: lit "** Add File: ").
  change DELETE_FILE_MARKER with (42%N :: lit "** Delete File: ").
  change UPDATE_FILE_MARKER with (42%N :: lit "** Update File: ").
  rewrite !strip_star_none by done.
  rewrite (proj2 (str_eqb_ne t END_PATCH_MARKER)) by (intros ->; by apply Ht).
  by destruct (mode _).
Qed.

(** The handler's answer on a concrete header. *)
Ltac solve_header :=
  try (by eexists _, _);
  intros p ? Hhs; unfold handle_hunk_headers_and_end_patch, handle_headers;
  rewrite strip_prefix_app; unfold start_hunk;
  rewrite ensure_complete by (by rewrite Hhs);
  by destruct (mode (state p)).

Section steps.
Context (env : option str).

(** Reading a header line in any mode, when every hunk so far is complete. *)
Lemma header_line m hs n marker path f :
  m ≠ NotStarted → m ≠ EndedPatch → name path →
  (∃ c mk, marker = c :: mk ∧ is_whitespace c = false) →
  (∀ p, mode (state p) = m → hunks (state p) = hs →
     handle_hunk_headers_and_end_patch p (marker ++ path) = (f p, Ok true)) →
  process_line (next_line (at_line m hs env n)) (marker ++ path)
  = (f (at_line m hs env (S n)), Ok tt).
Proof.
  intros Hm1 Hm2 Hp (c & mk & -> & Hc) Hh. unfold process_line, or_header.
  change (next_line (at_line m hs env n)) with (at_line m hs env (S n)).
  assert (trim ((c :: mk) ++ path) = (c :: mk) ++ path) as Ht by (by apply trim_name).
  assert (trim_end ((c :: mk) ++ path) = (c :: mk) ++ path) as Ht' by (by apply trim_end_name).
  specialize (Hh (at_line m hs env (S n)) eq_refl eq_refl).
  change (mode (state (at_line m hs env (S n)))) with m. rewrite Ht, Ht'.
  by destruct m; try done; rewrite Hh.
Qed.

Lemma step_add m hs n path :
  m ≠ NotStarted → m ≠ EndedPatch → name path → Forall hunk_complete hs →
  process_line (next_line (at_line m hs env n)) (ADD_FILE_MARKER ++ path)
  = (at_line ModeAddFile (hs ++ [AddFile path []]) env (S n), Ok tt).
Proof.
  intros. rewrite (header_line _ _ _ _ _ (λ p, with_mode ModeAddFile
    (with_hunks (hunks (state p) ++ [AddFile path []]) p))); try done.
  all: solve_header.
Qed.

Lemma step_delete m hs n path :
  m ≠ NotStarted → m ≠ EndedPatch → name path → Forall hunk_complete hs →
  process_line (next_line (at_line m hs env n)) (DELETE_FILE_MARKER ++ path)
  = (at_line ModeDeleteFile (hs ++ [DeleteFile path]) env (S n), Ok tt).
Proof.
  intros. rewrite (header_line _ _ _ _ _ (λ p, with_mode ModeDeleteFile
    (with_hunks (hunks (state p) ++ [DeleteFile path]) p))); try done.
  all: solve_header.
Qed.

Lemma step_update m hs n path :
  m ≠ NotStarted → m ≠ EndedPatch → name path → Forall hunk_complete hs →
  process_line (next_line (at_line m hs env n)) (UPDATE_FILE_MARKER ++ path)
  = (at_line (ModeUpdateFile (S n)) (hs ++ [UpdateFile path None []]) env (S n), Ok tt).
Proof.
  intros. rewrite (header_line _ _ _ _ _ (λ p, with_mode (ModeUpdateFile (line_number p))
    (with_hunks (hunks (state p) ++ [UpdateFile path None []]) p))); try done.
  all: solve_header.
Qed.
Lemma step_plus hs n path contents l :
  process_line (next_line (at_line ModeAddFile (hs ++ [AddFile path contents]) env n))
    (lit "+" ++ l)
  = (at_line ModeAddFile (hs ++ [AddFile path (contents ++ l ++ [LF])]) env (S n), Ok tt).
Proof.
  unfold process_line, or_header. rewrite no_header.
  - rewrite strip_prefix_app. cbn [next_line at_line state hunks].
    rewrite last_snoc. unfold with_hunks. simpl. by rewrite update_last_snoc.
  - change (lit "+" ++ l) with (43%N :: l). unfold trim.
    destruct (trim_end_cons 43%N l eq_refl) as [l' ->]. by rewrite trim_start_cons.
Qed.

(** Any line of an update hunk that is no header goes to
    [process_update_line]. *)
Lemma step_update_line hs n k path mv cs line ul :
  trim_end line = ul →
  handle_hunk_headers_and_end_patch
    (at_line (ModeUpdateFile k) (hs ++ [UpdateFile path mv cs]) env (S n)) ul
  = (at_line (ModeUpdateFile k) (hs ++ [UpdateFile path mv cs]) env (S n), Ok false) →
  process_line (next_line (at_line (ModeUpdateFile k) (hs ++ [UpdateFile path mv cs]) env n)) line
  = process_update_line (at_line (ModeUpdateFile k) (hs ++ [UpdateFile path mv cs]) env (S n))
      k line ul mv cs.
Proof.
  intros <- H. unfold process_line.
  change (next_line (at_line ?m ?hs env n)) with (at_line m hs env (S n)).
  cbn [at_line state mode]. unfold or_header. rewrite H.
  cbn [at_line state hunks]. by rewrite last_snoc.
Qed.

Lemma step_move hs n k path dest :
  name dest →
  process_line (next_line (at_line (ModeUpdateFile k) (hs ++ [UpdateFile path None []]) env n))
    (MOVE_TO_MARKER ++ dest)
  = (at_line (ModeUpdateFile k) (hs ++ [UpdateFile path (Some dest) []]) env (S n), Ok tt).
Proof.
  intros Hd. erewrite step_update_line.
  - unfold process_update_line. cbn [last is_some_and andb is_empty is_none].
    rewrite strip_prefix_app. unfold with_mode, with_hunks. simpl.
    by rewrite update_last_snoc.
  - by apply trim_end_name.
  - unfold handle_hunk_headers_and_end_patch, handle_headers.
    by rewrite (proj2 (str_eqb_ne (MOVE_TO_MARKER ++ dest) END_PATCH_MARKER)).
Qed.

Lemma store_at n k hs path mv cs cs' :
  store_chunks k cs' (at_line (ModeUpdateFile k) (hs ++ [UpdateFile path mv cs]) env n)
  = at_line (ModeUpdateFile k) (hs ++ [UpdateFile path mv cs']) env n.
Proof. unfold store_chunks, with_mode, with_hunks. simpl. by rewrite update_last_snoc. Qed.

(** A context line reaches the test on the last chunk. *)
Lemma context_line hs n k path mv cs ctx :
  (∀ c, ctx = Some c → name c) →
  process_line (next_line (at_line (ModeUpdateFile k) (hs ++ [UpdateFile path mv cs]) env n))
    (render_context ctx)
  = if is_some_and chunk_has_no_lines (last cs)
    then (at_line (ModeUpdateFile k) (hs ++ [UpdateFile path mv cs]) env (S n),
          Err (InvalidHunkError (unexpected_line (render_context ctx)) (S n)))
    else (at_line (ModeUpdateFile k)
            (hs ++ [UpdateFile path mv (cs ++ [open_chunk ctx])]) env (S n), Ok tt).
Proof.
  intros Hctx. rewrite (step_update_line _ _ _ _ _ _ _ (render_context ctx)).
  3: { by apply no_header; destruct ctx. }
  2: { destruct ctx as [c|]; [|done]. by apply trim_end_name, Hctx. }
  unfold process_update_line. cbv zeta.
  assert (is_context_marker (render_context ctx) = true) as Hm by (by destruct ctx).
  assert (strip_prefix MOVE_TO_MARKER (render_context ctx) = None) as Hmv by (by destruct ctx).
  rewrite Hm, Hmv, andb_false_r.
  assert (is_empty (render_context ctx) = false) as -> by (by destruct ctx).
  rewrite andb_false_r, andb_true_l.
  replace (if is_empty cs && is_none mv then None else None : option str) with (None : option str)
    by (by destruct (is_empty cs && is_none mv)).
  destruct (is_some_and chunk_has_no_lines (last cs)); [done|].
  destruct ctx as [c|].
  - change (render_context (Some c)) with (CHANGE_CONTEXT_MARKER ++ c).
    rewrite strip_prefix_app.
    rewrite (proj2 (str_eqb_ne (CHANGE_CONTEXT_MARKER ++ c) EMPTY_CHANGE_CONTEXT_MARKER)) by done.
    by rewrite store_at.
  - change (render_context None) with EMPTY_CHANGE_CONTEXT_MARKER.
    rewrite str_eqb_refl. by rewrite store_at.
Qed.

Lemma edit_line_head e :
  head (trim_end (render_edit e)) ≠ Some 42%N ∧ head (trim_end (render_edit e)) ≠ Some 64%N.
Proof.
  destruct e as [l|l|l].
  - change (render_edit (Ctx l)) with (SP :: l). destruct (trim_end_split (SP :: l)) as (w & Hs & Hw).
    destruct (trim_end (SP :: l)) as [|d l']; naive_solver.
  - destruct (trim_end_cons 43%N l eq_refl) as [l' E].
    change (render_edit (Add l)) with (43%N :: l). by rewrite E.
  - destruct (trim_end_cons 45%N l eq_refl) as [l' E].
    change (render_edit (Del l)) with (45%N :: l). by rewrite E.
Qed.

Lemma step_edit hs n k path mv cs e :
  is_some_and is_end_of_file (last cs) = false →
  process_line (next_line (at_line (ModeUpdateFile k) (hs ++ [UpdateFile path mv cs]) env n))
    (render_edit e)
  = (at_line (ModeUpdateFile k)
       (hs ++ [UpdateFile path mv (apply_item cs (Line e))]) env (S n), Ok tt).
Proof.
  intros Heof. destruct (edit_line_head e) as [H1 H2]. set (ul := trim_end (render_edit e)) in *.
  erewrite (step_update_line _ _ _ _ _ _ _ ul); [|done|by apply no_header].
  unfold process_update_line. cbv zeta. rewrite Heof. simpl andb. cbv iota.
  assert (strip_prefix MOVE_TO_MARKER ul = None) as ->
    by (by apply (strip_star_none (lit "** Move to: "))).
  replace (if is_empty cs && is_none mv then None else None : option str) with (None : option str)
    by (by destruct (is_empty cs && is_none mv)).
  assert (str_eqb ul EMPTY_CHANGE_CONTEXT_MARKER = false) as Hat
    by (apply str_eqb_ne; intros E; by rewrite E in H2).
  assert (strip_prefix CHANGE_CONTEXT_MARKER ul = None) as Hctx.
  { destruct (strip_prefix CHANGE_CONTEXT_MARKER ul) as [r|] eqn:E; [|done].
    apply strip_prefix_Some in E. rewrite E in H2. by destruct H2. }
  assert (str_eqb ul EOF_MARKER = false) as Hend
    by (apply str_eqb_ne; intros E; by rewrite E in H1).
  unfold is_context_marker, starts_with. rewrite Hat, Hctx, Hend. simpl andb. cbv iota.
  replace (is_empty (render_edit e)) with false by (by destruct e).
  destruct e as [l|l|l].
  - change (strip_prefix [SP] (render_edit (Ctx l))) with (Some l).
    cbv iota beta. by rewrite store_at.
  - change (strip_prefix [SP] (render_edit (Add l))) with (None : option str).
    change (strip_prefix (lit "+") (render_edit (Add l))) with (Some l).
    cbv iota beta. by rewrite store_at.
  - change (strip_prefix [SP] (render_edit (Del l))) with (None : option str).
    change (strip_prefix (lit "+") (render_edit (Del l))) with (None : option str).
    change (strip_prefix (lit "-") (render_edit (Del l))) with (Some l).
    cbv iota beta. by rewrite store_at.
Qed.

Lemma eof_line hs n k path mv cs c :
  is_end_of_file c = false →
  process_line (next_line (at_line (ModeUpdateFile k) (hs ++ [UpdateFile path mv (cs ++ [c])]) env n))
    EOF_MARKER
  = if chunk_has_no_lines c
    then (at_line (ModeUpdateFile k) (hs ++ [UpdateFile path mv (cs ++ [c])]) env (S n),
          Err (InvalidHunkError no_lines_message (S n)))
    else (at_line (ModeUpdateFile k)
            (hs ++ [UpdateFile path mv (cs ++ [mark_end_of_file c])]) env (S n), Ok tt).
Proof.
  intros Heof. erewrite step_update_line; [|done|done].
  unfold process_update_line. cbv zeta. rewrite last_snoc. simpl is_some_and.
  rewrite Heof. replace (is_empty (cs ++ [c])) with false by (by destruct cs).
  replace (is_context_marker (trim_end EOF_MARKER)) with false by (by vm_compute).
  replace (str_eqb (trim_end EOF_MARKER) EMPTY_CHANGE_CONTEXT_MARKER) with false by (by vm_compute).
  replace (str_eqb (trim_end EOF_MARKER) EOF_MARKER) with true by (by vm_compute).
  simpl andb. cbv iota.
  replace (strip_prefix CHANGE_CONTEXT_MARKER (trim_end EOF_MARKER)) with (None : option str)
    by (by vm_compute).
  destruct (chunk_has_no_lines c); [done|]. by rewrite update_last_snoc, store_at.
Qed.

(** A header line cannot follow an unfinished update. *)
Lemma header_fails m hs n marker path :
  unfinished m hs → name path →
  marker = ADD_FILE_MARKER ∨ marker = DELETE_FILE_MARKER ∨ marker = UPDATE_FILE_MARKER →
  ∃ msg k, process_line (next_line (at_line m hs env n)) (marker ++ path)
    = (at_line m hs env (S n), Err (InvalidHunkError msg k)).
Proof.
  intros Hu Hp Hm. destruct (ensure_unfinished (at_line m hs env (S n)) (marker ++ path) Hu)
    as (msg & k & E). exists msg, k.
  destruct Hu as (j & hs' & path' & mv & cs & -> & -> & _).
  set (q := at_line _ _ env (S n)) in *. unfold process_line, or_header.
  change (next_line (at_line _ _ env n)) with q. change (mode (state q)) with (ModeUpdateFile j).
  cbv iota zeta. rewrite trim_end_name by done.
  assert (str_eqb (marker ++ path) END_PATCH_MARKER = false) as Hne
    by (destruct Hm as [->|[->| ->]]; done).
  unfold handle_hunk_headers_and_end_patch, handle_headers.
  change (mode (state q)) with (ModeUpdateFile j). cbv iota. rewrite Hne.
  unfold start_hunk. destruct Hm as [->|[->| ->]]; rewrite strip_prefix_app, E; done.
Qed.
End steps.

(** ** The parser's chunks are those of the grammar *)
Lemma old_side_app es es' : old_side (es ++ es') = old_side es ++ old_side es'.
Proof. induction es as [|[] es IH]; simpl; by rewrite ?IH. Qed.
Lemma new_side_app es es' : new_side (es ++ es') = new_side es ++ new_side es'.
Proof. induction es as [|[] es IH]; simpl; by rewrite ?IH. Qed.
Lemma common_positions_app es es' o n :
  common_positions o n (es ++ es') = common_positions o n es
    ++ common_positions (o + length (old_side es)) (n + length (new_side es)) es'.
Proof.
  revert o n; induction es as [|[] es IH]; intros o n; simpl;
    by rewrite ?IH, ?Nat.add_succ_r, ?Nat.add_0_r.
Qed.

Lemma denote_group_nil ctx : denote_group (ctx, []) false = open_chunk ctx.
Proof. by destruct ctx. Qed.
Lemma denote_group_snoc ctx es e :
  denote_group (ctx, es ++ [e]) false = apply_edit e (denote_group (ctx, es) false).
Proof.
  unfold denote_group. simpl. rewrite old_side_app, new_side_app, common_positions_app.
  destruct e; unfold apply_edit, push_context_line, push_new_line, push_old_line; simpl;
    by rewrite ?app_nil_r.
Qed.
Lemma denote_group_wf g eof : chunk_wf (denote_group g eof).
Proof.
  destruct g as [ctx es].
  change (chunk_wf (denote_group (ctx, es) eof)) with (chunk_wf (denote_group (ctx, es) false)).
  induction es as [|e es IH] using rev_ind; [by rewrite denote_group_nil; destruct ctx|].
  rewrite denote_group_snoc. destruct e; simpl; auto with cubineer.
Qed.
Lemma denote_group_lines g eof : chunk_has_no_lines (denote_group g eof) = is_empty g.2.
Proof. destruct g as [ctx [|[] es]]; try done. apply andb_false_r. Qed.

(** From an open group on, the fold of the parser builds the groups. *)
Lemma fold_items_from change cs ctx es :
  foldl apply_item (cs ++ [denote_group (ctx, es) false]) change
  = cs ++ ((λ g, denote_group g false)
             <$> (ctx, es ++ (split_change change).1) :: (split_change change).2).
Proof.
  revert cs ctx es; induction change as [|i change IH]; intros cs ctx es; simpl.
  { by rewrite app_nil_r. }
  destruct i as [ctx'|e]; simpl.
  - rewrite <-denote_group_nil, IH. destruct (split_change change) as [es' gs]. simpl.
    by rewrite app_nil_r, <-app_assoc.
  - unfold add_to_chunk. replace (is_empty (cs ++ _)) with false by (by destruct cs).
    rewrite update_last_snoc, <-denote_group_snoc, IH. destruct (split_change change) as [es' gs].
    simpl. by rewrite <-app_assoc.
Qed.

Lemma fold_items change :
  foldl apply_item [] change = (λ g, denote_group g false) <$> groups change.
Proof.
  destruct change as [|[ctx|e] change]; [done| |]; simpl.
  - rewrite <-denote_group_nil. etrans; [apply (fold_items_from change [])|].
    unfold groups. simpl. by destruct (split_change change).
  - change (add_to_chunk (apply_edit e) []) with ([] ++ [apply_edit e (open_chunk None)]).
    rewrite <-denote_group_nil, <-denote_group_snoc. etrans; [apply (fold_items_from change [])|].
    unfold groups. simpl. by destruct (split_change change).
Qed.

Lemma fold_items_app cs c change :
  ∃ cs', foldl apply_item (cs ++ [c]) change = cs ++ cs' ∧ cs' ≠ [].
Proof.
  revert cs c; induction change as [|[ctx|e] change IH]; intros cs c; simpl; [by exists [c]| |].
  - destruct (IH (cs ++ [c]) (open_chunk ctx)) as (cs' & -> & ?).
    exists (c :: cs'). by rewrite <-app_assoc.
  - unfold add_to_chunk. replace (is_empty (cs ++ [c])) with false by (by destruct cs).
    rewrite update_last_snoc. apply IH.
Qed.

Lemma denote_groups_snoc gs g eof :
  denote_groups (gs ++ [g]) eof = ((λ g, denote_group g false) <$> gs) ++ [denote_group g eof].
Proof.
  induction gs as [|g' gs IH]; [done|]. rewrite fmap_cons. cbn [app]. rewrite <-IH.
  by destruct gs.
Qed.
Lemma denote_groups_false gs : denote_groups gs false = (λ g, denote_group g false) <$> gs.
Proof. destruct gs as [|g gs _] using rev_ind; [done|]. by rewrite denote_groups_snoc, fmap_app. Qed.

Lemma groups_nil change : groups change = [] → change = [].
Proof.
  destruct change as [|[ctx|e] change]; [done|..]; unfold groups; simpl;
    by destruct (split_change change) as [[|] ?].
Qed.

Lemma denote_hunk_complete h : hunk_filled h → hunk_complete (denote_hunk h).
Proof.
  destruct h as [path ls|path|path mv change eof]; simpl; try done. intros [Hne Hgs].
  destruct (groups change) as [|g gs _] eqn:E using rev_ind; [by apply groups_nil in E|].
  rewrite denote_groups_snoc. split; [by destruct gs|].
  assert (∀ g eof, g.2 ≠ [] → chunk_wf (denote_group g eof) ∧ chunk_complete (denote_group g eof)) as Hg.
  { intros g' b Hg'. split; [apply denote_group_wf|]. unfold chunk_complete.
    rewrite denote_group_lines. by destruct (g'.2). }
  apply Forall_app in Hgs as [Hgs [Hl _]%Forall_cons]. apply Forall_app. split.
  - apply Forall_fmap. eapply Forall_impl; [done|]. intros g' Hg'. by apply Hg.
  - apply Forall_singleton. by apply Hg.
Qed.

(** ** Changes, hunks, patches *)
Section patches.
Context (env : option str).

Abbreviation inside k hs path mv cs n :=
  (at_line (ModeUpdateFile k) (hs ++ [UpdateFile path mv cs]) env n).

(** While the items of a change are read, no chunk is at the end of the file
    and every chunk but the last has lines. *)
Definition reading (cs : list UpdateFileChunk) : Prop :=
  Forall (λ c, is_end_of_file c = false) cs
  ∧ ∀ cs' c, cs = cs' ++ [c] → Forall (λ c, chunk_has_no_lines c = false) cs'.

Lemma reading_context cs ctx :
  reading cs → is_some_and chunk_has_no_lines (last cs) = false → reading (cs ++ [open_chunk ctx]).
Proof.
  intros [Heof Hfull] Hlast. split.
  - apply Forall_app. split; [done|]. apply Forall_singleton. by destruct ctx.
  - intros cs' c [<- _]%app_inj_tail. destruct cs as [|d cs _] using rev_ind; [done|].
    rewrite last_snoc in Hlast. apply Forall_app. split; [by eapply Hfull|]. by apply Forall_singleton.
Qed.

Lemma reading_line cs e : reading cs → reading (add_to_chunk (apply_edit e) cs).
Proof.
  intros [Heof Hfull]. unfold add_to_chunk. destruct cs as [|c cs _] using rev_ind.
  - split; [apply Forall_singleton; by destruct e|].
    intros [|? cs'] c; [done|]. by destruct cs'.
  - replace (is_empty (cs ++ [c])) with false by (by destruct cs).
    rewrite update_last_snoc. apply Forall_app in Heof as [? [? _]%Forall_cons]. split.
    + apply Forall_app. split; [done|]. apply Forall_singleton. by destruct e.
    + intros cs' d [<- _]%app_inj_tail. by eapply Hfull.
Qed.

Lemma reading_open cs : reading cs → is_some_and is_end_of_file (last cs) = false.
Proof.
  intros [Heof _]. destruct cs as [|c cs _] using rev_ind; [done|]. rewrite last_snoc.
  by apply Forall_app in Heof as [_ [? _]%Forall_cons].
Qed.

(** The items of a change are read up to its end, unless one of its contexts
    comes after a chunk that has no lines. *)
Lemma run_items hs k path mv change cs n :
  Forall item_ok change → reading cs →
  (∃ n', steps (inside k hs path mv cs n) (render_item <$> change)
           (inside k hs path mv (foldl apply_item cs change) n')
         ∧ reading (foldl apply_item cs change))
  ∨ fails (inside k hs path mv cs n) (render_item <$> change)
    ∧ Exists (λ c, chunk_has_no_lines c = true) (foldl apply_item cs change).
Proof.
  intros Hch. revert cs n; induction Hch as [|i change Hi _ IH]; intros cs n Hcs; simpl.
  { left. exists n. split; [apply steps_nil|done]. }
  assert (∀ cs', reading cs' →
    process_line (next_line (inside k hs path mv cs n)) (render_item i)
      = (inside k hs path mv cs' (S n), Ok tt) → cs' = apply_item cs i →
    (∃ n', steps (inside k hs path mv cs n) (render_item i :: (render_item <$> change))
             (inside k hs path mv (foldl apply_item (apply_item cs i) change) n')
           ∧ reading (foldl apply_item (apply_item cs i) change))
    ∨ fails (inside k hs path mv cs n) (render_item i :: (render_item <$> change))
      ∧ Exists (λ c, chunk_has_no_lines c = true) (foldl apply_item (apply_item cs i) change)) as Hgo.
  { intros cs' Hcs' Hl ->. destruct (IH _ (S n) Hcs') as [(n' & Hs & Hr)|[Hf Hex]].
    - left. exists n'. split; [by eapply steps_cons|done].
    - right. split; [|done]. eapply (fails_app_r _ [_]); [|exact Hf].
      eapply steps_cons; [exact Hl|apply steps_nil]. }
  destruct i as [ctx|e].
  - pose proof (context_line env hs n k path mv cs ctx Hi) as Hl.
    destruct (is_some_and chunk_has_no_lines (last cs)) eqn:Hempty.
    + right. split; [by eapply fails_cons|].
      destruct cs as [|c cs _] using rev_ind; [done|]. rewrite last_snoc in Hempty.
      cbn [apply_item]. destruct (fold_items_app (cs ++ [c]) (open_chunk ctx) change) as (cs' & -> & _).
      rewrite !Exists_app, Exists_cons. tauto.
    + by apply (Hgo (cs ++ [open_chunk ctx])); [apply reading_context|..].
  - apply (Hgo (apply_item cs (Line e))); [by apply reading_line| |done].
    by apply step_edit, reading_open.
Qed.

Lemma filled_fold path mv change eof :
  hunk_filled (SUpdate path mv change eof) →
  ¬ Exists (λ c, chunk_has_no_lines c = true) (foldl apply_item [] change).
Proof.
  intros [_ Hgs]. rewrite fold_items, Exists_exists. intros (c & (g & -> & Hg)%list_elem_of_fmap & Hc).
  rewrite denote_group_lines in Hc. rewrite Forall_forall in Hgs. specialize (Hgs g Hg).
  by destruct (g.2).
Qed.

(** The lines of an update after its header. *)
Lemma run_change hs k path mv change eof n :
  Forall item_ok change → (eof = true → change ≠ []) →
  let ls := (render_item <$> change) ++ (if eof then [lit "*** End of File"] else []) in
  let p := inside k hs path mv [] n in
  (hunk_filled (SUpdate path mv change eof) →
   ∃ n', steps p ls (inside k hs path mv (denote_groups (groups change) eof) n'))
  ∧ (¬ hunk_filled (SUpdate path mv change eof) →
     fails p ls ∨ ∃ cs n', steps p ls (inside k hs path mv cs n')
       ∧ (cs = [] ∨ is_some_and chunk_has_no_lines (last cs) = true)).
Proof.
  intros Hch Heof ls p.
  destruct (run_items hs k path mv change [] n Hch) as [(n1 & Hs & Hr)|[Hf Hex]].
  { split; [done|]. by intros [|? []]. }
  2: { split; [|by left; apply fails_app_l]. intros Hfill. by apply filled_fold in Hfill. }
  rewrite fold_items in Hs, Hr. unfold ls, p.
  destruct (groups change) as [|g gs _] eqn:E using rev_ind.
  { apply groups_nil in E as ->. destruct eof; [by destruct Heof|]. split; [by intros [? _]|].
    intros _. right. exists [], n1. split; [|by left]. by rewrite app_nil_r. }
  rewrite fmap_app in Hs, Hr. destruct Hr as [_ Hr]. specialize (Hr _ _ eq_refl).
  assert (hunk_filled (SUpdate path mv change eof) ↔ is_empty g.2 = false) as Hfill.
  { simpl. rewrite E, Forall_app, Forall_singleton. rewrite Forall_fmap in Hr. split.
    - intros (_ & _ & ?). by destruct (g.2).
    - intros Hg. split_and!; [intros ->; by destruct gs| |by destruct (g.2)].
      eapply Forall_impl; [exact Hr|]. intros g' Hg'. simpl in Hg'.
      rewrite denote_group_lines in Hg'. by destruct (g'.2). }
  rewrite Hfill, denote_groups_snoc. simpl in Hs. destruct eof.
  - pose proof (eof_line env hs n1 k path mv ((λ g, denote_group g false) <$> gs)
      (denote_group g false) eq_refl) as Hl. rewrite denote_group_lines in Hl.
    destruct (is_empty g.2); split; try done.
    + intros _. left. eapply fails_app_r; [exact Hs|]. by eapply fails_cons.
    + intros _. exists (S n1). eapply steps_app; [exact Hs|]. eapply steps_cons; [exact Hl|].
      apply steps_nil.
  - rewrite app_nil_r. split; [by exists n1|]. intros Hg%not_false_is_true. right.
    eexists _, n1. split; [exact Hs|]. right. rewrite last_snoc. simpl. by rewrite denote_group_lines.
Qed.

Lemma steps_plus hs path ls contents n :
  ∃ n', steps (at_line ModeAddFile (hs ++ [AddFile path contents]) env n)
    ((λ l, lit "+" ++ l) <$> ls)
    (at_line ModeAddFile
       (hs ++ [AddFile path (contents ++ concat ((λ l, l ++ [LF]) <$> ls))]) env n').
Proof.
  revert contents n; induction ls as [|l ls IH]; intros contents n.
  { exists n. simpl. rewrite app_nil_r. apply steps_nil. }
  destruct (IH (contents ++ l ++ [LF]) (S n)) as [n' H]. exists n'.
  eapply steps_cons; [apply step_plus|]. simpl. by rewrite <-!app_assoc in *.
Qed.

Lemma steps_move hs n k path mv :
  (∀ dest, mv = Some dest → name dest) →
  ∃ n', steps (at_line (ModeUpdateFile k) (hs ++ [UpdateFile path None []]) env n)
    (render_move mv) (at_line (ModeUpdateFile k) (hs ++ [UpdateFile path mv []]) env n').
Proof.
  intros Hmv. destruct mv as [dest|]; [|eexists; apply steps_nil].
  exists (S n). eapply steps_cons; [apply step_move, Hmv; done|apply steps_nil].
Qed.

(** A hunk is read as its meaning when it is filled; otherwise it is refused,
    or left unfinished. *)
Lemma run_hunk m hs n h :
  m ≠ NotStarted → m ≠ EndedPatch → hunk_src_ok h → Forall hunk_complete hs →
  (hunk_filled h → ∃ m' n', m' ≠ NotStarted ∧ m' ≠ EndedPatch ∧
     steps (at_line m hs env n) (render_hunk h) (at_line m' (hs ++ [denote_hunk h]) env n'))
  ∧ (¬ hunk_filled h → fails (at_line m hs env n) (render_hunk h)
     ∨ ∃ m' hs' n', steps (at_line m hs env n) (render_hunk h) (at_line m' hs' env n')
         ∧ unfinished m' hs').
Proof.
  intros Hm1 Hm2 Hh Hhs. destruct h as [path ls|path|path mv change eof].
  - split; [|by intros []]. intros _. destruct Hh as [Hp _].
    destruct (steps_plus hs path ls [] (S n)) as [n' H].
    exists ModeAddFile, n'. split_and!; [done..|].
    eapply steps_cons; [by apply step_add|done].
  - split; [|by intros []]. intros _. exists ModeDeleteFile, (S n). split_and!; [done..|].
    eapply steps_cons; [by apply step_delete|apply steps_nil].
  - destruct Hh as (Hp & Hmv & Hch & Heof).
    destruct (steps_move hs (S n) (S n) path mv Hmv) as [n1 H1].
    destruct (run_change hs (S n) path mv change eof n1 Hch Heof) as [Hok Hbad].
    assert (steps (at_line m hs env n) ((UPDATE_FILE_MARKER ++ path) :: render_move mv)
      (inside (S n) hs path mv [] n1)) as Hstart.
    { eapply steps_cons; [by apply step_update|done]. }
    split.
    + intros [n2 H2]%Hok. exists (ModeUpdateFile (S n)), n2. split_and!; [done..|].
      exact (steps_app _ _ _ _ _ Hstart H2).
    + intros [Hf|(cs & n2 & H2 & Hcs)]%Hbad.
      * left. exact (fails_app_r _ _ _ _ Hstart Hf).
      * right. eexists _, _, n2. split; [exact (steps_app _ _ _ _ _ Hstart H2)|].
        by eexists _, _, _, _, _.
Qed.

Lemma run_hunks m hs n srcs :
  m ≠ NotStarted → m ≠ EndedPatch → Forall hunk_src_ok srcs → Forall hunk_complete hs →
  let ls := concat (render_hunk <$> srcs) in
  (Forall hunk_filled srcs → ∃ m' n', m' ≠ NotStarted ∧ m' ≠ EndedPatch ∧
     steps (at_line m hs env n) ls (at_line m' (hs ++ (denote_hunk <$> srcs)) env n'))
  ∧ (¬ Forall hunk_filled srcs → fails (at_line m hs env n) ls
     ∨ ∃ m' hs' n', steps (at_line m hs env n) ls (at_line m' hs' env n') ∧ unfinished m' hs').
Proof.
  intros Hm1 Hm2 Hsrcs. revert m hs n Hm1 Hm2.
  induction Hsrcs as [|h srcs Hh Hsrcs IH]; intros m hs n Hm1 Hm2 Hhs; cbv zeta.
  { split; [|by intros []]. intros _. exists m, n. split_and!; [done..|].
    rewrite app_nil_r. apply steps_nil. }
  rewrite !fmap_cons. cbn [concat].
  destruct (run_hunk m hs n h Hm1 Hm2 Hh Hhs) as [Hok Hbad]. rewrite Forall_cons.
  destruct (decide (hunk_filled h)) as [Hf|Hf].
  - destruct (Hok Hf) as (m1 & n1 & ? & ? & H1).
    destruct (IH m1 (hs ++ [denote_hunk h]) n1) as [IHok IHbad]; [done| done| |].
    { apply Forall_app. split; [done|]. apply Forall_singleton. by apply denote_hunk_complete. }
    split.
    + intros [_ (m2 & n2 & ? & ? & H2)%IHok]. exists m2, n2. split_and!; [done..|].
      eapply steps_app; [exact H1|]. by rewrite <-app_assoc in H2.
    + intros Hn. destruct IHbad as [Hfail|(m2 & hs2 & n2 & H2 & Hu)]; [tauto|..].
      * left. by eapply fails_app_r.
      * right. exists m2, hs2, n2. split; [by eapply steps_app|done].
  - split; [tauto|]. intros _. destruct (Hbad Hf) as [Hfail|(m1 & hs1 & n1 & H1 & Hu)].
    { left. by apply fails_app_l. }
    destruct srcs as [|h' srcs].
    { right. exists m1, hs1, n1. simpl. by rewrite app_nil_r. }
    left. eapply fails_app_r; [exact H1|]. simpl. apply fails_app_l.
    apply Forall_cons in Hsrcs as [Hh' _].
    assert (∃ marker path ls, render_hunk h' = (marker ++ path) :: ls ∧ name path
      ∧ (marker = ADD_FILE_MARKER ∨ marker = DELETE_FILE_MARKER ∨ marker = UPDATE_FILE_MARKER))
      as (marker & path & ls & -> & Hp & Hmarker).
    { destruct h' as [path ls|path|path mv change eof];
        [eexists ADD_FILE_MARKER, path, _|eexists DELETE_FILE_MARKER, path, _
        |eexists UPDATE_FILE_MARKER, path, _];
        (split; [reflexivity|]); (split; [first [exact Hh'|exact (proj1 Hh')]|]); auto. }
    destruct (header_fails env m1 hs1 n1 marker path Hu Hp Hmarker) as (msg & k & E).
    by eapply fails_cons.
Qed.
End patches.

Lemma steps_env n env :
  (∀ id, env = Some id → env_ok id) →
  ∃ n', steps (at_line StartedPatch [] None n) (render_env env) (at_line StartedPatch [] env n').
Proof.
  intros Henv. destruct env as [id|]; [|eexists; apply steps_nil].
  destruct (Henv id eq_refl) as (Hname & c & s & -> & Hc).
  exists (S n). eapply steps_cons; [|apply steps_nil].
  change (lit "*** Environment ID: " ++ c :: s) with (ENVIRONMENT_ID_MARKER ++ SP :: c :: s).
  set (line := ENVIRONMENT_ID_MARKER ++ SP :: c :: s).
  assert (trim line = line) as Ht.
  { unfold line. change (ENVIRONMENT_ID_MARKER ++ SP :: c :: s)
      with (42%N :: (lit "** Environment ID: ") ++ c :: s). by apply trim_name. }
  unfold process_line, or_header. cbn [next_line at_line state mode]. rewrite Ht.
  unfold handle_hunk_headers_and_end_patch. cbn [state mode].
  unfold line. rewrite strip_prefix_app. unfold handle_environment_id.
  assert (trim (SP :: c :: s) = c :: s) as ->.
  { unfold trim. change (SP :: c :: s) with ([SP] ++ c :: s).
    rewrite trim_end_name by done. unfold trim_start. simpl. by rewrite Hc. }
  done.
Qed.

Lemma plain_marker m s : plain m → name s → plain (m ++ s).
Proof.
  intros [Hm _] [Hs (c & Hl & Hc)]. split; [rewrite elem_of_app; naive_solver|].
  apply last_Some in Hl as [l ->]. rewrite app_assoc, last_snoc. intros [= ->]. done.
Qed.

Lemma plain_cons c l : c ≠ LF → c ≠ CR → plain l → plain (c :: l).
Proof.
  intros H1 H2 [Hl Hc]. split; [rewrite elem_of_cons; naive_solver|].
  destruct l; simpl in *; [congruence|done].
Qed.

Lemma plain_lit s : bool_decide (plain (lit s)) = true → plain (lit s).
Proof. apply bool_decide_eq_true. Qed.
Arguments plain_lit _%_string_scope.

Lemma render_item_plain i : item_ok i → plain (render_item i).
Proof.
  destruct i as [[ctx|]|e]; cbn [item_ok render_item render_context].
  - intros Hctx. apply plain_marker; [by apply plain_lit; vm_compute|by apply Hctx].
  - intros _. by apply plain_lit; vm_compute.
  - by destruct e; apply plain_cons.
Qed.

Lemma render_hunk_plain h : hunk_src_ok h → Forall plain (render_hunk h).
Proof.
  destruct h as [path ls|path|path mv change eof]; cbn [render_hunk hunk_src_ok].
  - intros [? ?]. constructor; [apply plain_marker; [by apply plain_lit; vm_compute|done]|].
    apply Forall_fmap. eapply Forall_impl; [done|]. intros l. by apply plain_cons.
  - intros ?. apply Forall_singleton, plain_marker; [by apply plain_lit; vm_compute|done].
  - intros (? & Hmv & Hch & _). constructor; [apply plain_marker; [by apply plain_lit; vm_compute|done]|].
    apply Forall_app. split; [|apply Forall_app; split].
    + destruct mv as [dest|]; [|done]. apply Forall_singleton, plain_marker; [|by apply Hmv].
      by apply plain_lit; vm_compute.
    + apply Forall_fmap. eapply Forall_impl; [done|]. apply render_item_plain.
    + destruct eof; [|done]. apply Forall_singleton. by apply plain_lit; vm_compute.
Qed.

Lemma render_body_plain s : patch_src_ok s → Forall plain (render_body s).
Proof.
  intros [Henv Hhs]. unfold render_body. constructor; [by apply plain_lit; vm_compute|].
  apply Forall_app. split.
  - destruct (src_env s) as [id|]; [|done]. apply Forall_singleton.
    apply (plain_marker (ENVIRONMENT_ID_MARKER ++ [SP])); [|by apply Henv].
    apply (plain_lit "*** Environment ID: "). by vm_compute.
  - apply Forall_concat, Forall_fmap. eapply Forall_impl; [done|]. apply render_hunk_plain.
Qed.

Lemma run_body s :
  patch_src_ok s →
  (Forall hunk_filled (src_hunks s) → ∃ m n, m ≠ NotStarted ∧ m ≠ EndedPatch ∧
     steps new_parser (render_body s) (at_line m (denote_hunk <$> src_hunks s) (src_env s) n))
  ∧ (¬ Forall hunk_filled (src_hunks s) → fails new_parser (render_body s)
     ∨ ∃ m hs n, steps new_parser (render_body s) (at_line m hs (src_env s) n) ∧ unfinished m hs).
Proof.
  intros [Henv Hhs].
  destruct (steps_env 1 (src_env s) Henv) as [n1 H1].
  assert (steps new_parser (BEGIN_PATCH_MARKER :: render_env (src_env s))
    (at_line StartedPatch [] (src_env s) n1)) as Hstart.
  { eapply steps_cons; [by vm_compute|done]. }
  destruct (run_hunks (src_env s) StartedPatch [] n1 (src_hunks s)) as [Hok Hbad]; [done..|].
  split.
  - intros (m & n & ? & ? & H2)%Hok. exists m, n. split_and!; [done..|].
    exact (steps_app _ _ _ _ _ Hstart H2).
  - intros [Hf|(m & hs & n & H2 & Hu)]%Hbad.
    + left. exact (fails_app_r _ _ _ _ Hstart Hf).
    + right. exists m, hs, n. split; [exact (steps_app _ _ _ _ _ Hstart H2)|done].
Qed.

(** Flushing the last line of a patch whose hunks are complete. *)
Lemma finish_end m hs env n :
  m ≠ NotStarted → m ≠ EndedPatch → Forall hunk_complete hs →
  finish (with_buffer END_PATCH_MARKER (at_line m hs env n))
  = (at_line EndedPatch hs env (S n), Ok hs).
Proof.
  intros _ _ Hhs. unfold finish, finish_line.
  change (is_empty (line_buffer (with_buffer END_PATCH_MARKER (at_line m hs env n)))) with false.
  cbn [line_buffer with_buffer].
  replace (str_eqb (trim END_PATCH_MARKER) END_PATCH_MARKER) with true by (by vm_compute).
  by rewrite ensure_complete.
Qed.

(** An unfinished update at the end of the patch. *)
Lemma finish_fails m hs env n :
  unfinished m hs →
  ∃ q msg k, finish (with_buffer END_PATCH_MARKER (at_line m hs env n))
    = (q, Err (InvalidHunkError msg k)).
Proof.
  intros Hu. destruct (ensure_unfinished (at_line m hs env (S n)) END_PATCH_MARKER Hu)
    as (msg & k & E). exists (at_line m hs env (S n)), msg, k. unfold finish, finish_line.
  change (is_empty (line_buffer (with_buffer END_PATCH_MARKER (at_line m hs env n)))) with false.
  cbn [line_buffer with_buffer].
  replace (trim END_PATCH_MARKER) with END_PATCH_MARKER by (by vm_compute).
  rewrite str_eqb_refl. change (next_line _) with (at_line m hs env (S n)). by rewrite E.
Qed.

(** Reading the text of a rendered patch up to its last line. *)
Lemma push_rendered s q :
  patch_src_ok s → steps new_parser (render_body s) q →
  push_delta new_parser (render_patch s)
  = (with_buffer END_PATCH_MARKER q, Ok (hunks (state q))).
Proof.
  intros Hs Hsteps. unfold push_delta, render_patch. rewrite join_snoc.
  destruct (push_lines new_parser (render_body s) END_PATCH_MARKER q eq_refl
    (render_body_plain s Hs) Hsteps) as [Hp Hq].
  change (lit "*** End Patch") with END_PATCH_MARKER. rewrite Hp.
  pose proof (push_line q END_PATCH_MARKER []) as Hl. rewrite app_nil_r, Hq in Hl.
  rewrite Hl; [done|]. by apply (plain_lit "*** End Patch"); vm_compute.
Qed.

(** Reading the lines of a rendered patch, once its boundaries are known. *)
Lemma parse_rendered_lines text s :
  patch_src_ok s →
  check_patch_boundaries_lenient (lines (trim text)) = Ok (render_body s ++ [END_PATCH_MARKER]) →
  (Forall hunk_filled (src_hunks s) → parse_patch text =
   Ok {| patch := render_patch s; args_hunks := denote_hunk <$> src_hunks s;
         workdir := None; args_environment_id := src_env s |})
  ∧ (¬ Forall hunk_filled (src_hunks s) →
     ∃ msg k, parse_patch text = Err (InvalidHunkError msg k)).
Proof.
  intros Hs Hb. destruct (run_body s Hs) as [Hok Hbad].
  unfold parse_patch, PARSE_IN_STRICT_MODE, parse_patch_text. rewrite Hb.
  cbn [mbind res_bind].
  change (join [LF] (render_body s ++ [END_PATCH_MARKER])) with (render_patch s). split.
  - intros Hf. destruct (Hok Hf) as (m & n & Hm1 & Hm2 & Hsteps).
    rewrite (push_rendered _ _ Hs Hsteps). cbn [mbind res_bind]. rewrite finish_end; [done..|].
    apply Forall_fmap. eapply Forall_impl; [exact Hf|]. apply denote_hunk_complete.
  - intros [Hf|(m & hs & n & Hsteps & Hu)]%Hbad.
    + destruct (push_fails new_parser (render_body s) END_PATCH_MARKER eq_refl
        (render_body_plain s Hs) Hf) as (q & msg & k & E). exists msg, k.
      unfold push_delta, render_patch. rewrite join_snoc.
      change (lit "*** End Patch") with END_PATCH_MARKER. by rewrite E.
    + destruct (finish_fails m hs (src_env s) n Hu) as (q & msg & k & E). exists msg, k.
      rewrite (push_rendered _ _ Hs Hsteps). cbn [mbind res_bind]. by rewrite E.
Qed.

Lemma rendered_lines_plain s :
  patch_src_ok s → Forall plain (render_body s ++ [END_PATCH_MARKER]).
Proof.
  intros Hs. apply Forall_app. split; [exact (render_body_plain s Hs)|]. apply Forall_singleton.
  apply (plain_lit "*** End Patch"). by vm_compute.
Qed.

(** A text that starts with a character of its first marker and ends in one of
    its last is not trimmed. *)
Lemma lines_of_joined c ls m t :
  is_whitespace c = false → name t → (∃ b, join [LF] ls = c :: b ++ m ++ t) →
  Forall plain ls → last ls ≠ Some [] →
  lines (trim (join [LF] ls)) = ls.
Proof.
  intros Hc Ht [b Hb] Hls Hlast. rewrite Hb, (assoc_L (++)), trim_name by done.
  rewrite <-(assoc_L (++)), <-Hb. by apply lines_join.
Qed.

Lemma rendered_shape s : ∃ b, render_patch s = 42%N :: b ++ lit "*** End Patch".
Proof.
  unfold render_patch. rewrite join_snoc. unfold render_body. rewrite fmap_cons. cbn [concat].
  exists (lit "** Begin Patch" ++ [LF]
          ++ concat ((λ l, l ++ [LF]) <$> render_env (src_env s)
                     ++ concat (render_hunk <$> src_hunks s))).
  by rewrite <-!app_assoc.
Qed.

Lemma strict_rendered s :
  check_patch_boundaries_strict (render_body s ++ [END_PATCH_MARKER])
  = Ok (render_body s ++ [END_PATCH_MARKER]).
Proof.
  eapply (strict_boundaries_ok _ BEGIN_PATCH_MARKER END_PATCH_MARKER);
    [done|by rewrite last_snoc|by vm_compute..].
Qed.

(** C1: a text of the documented grammar (one environment line at most, any
    hunks, an update with or without a change, lines before the first change
    context, contexts in any order) is accepted exactly when every update has
    a change and every change context has a line of its own; the answer is
    then the hunks, the environment id and the text that were printed, and
    otherwise an error about a hunk.  File names, the environment id and
    context texts are non-empty and do not end in whitespace (the id does not
    start with any either); lines have no newline and no final carriage
    return. *)
Theorem parse_patch_round_trip s :
  patch_src_ok s →
  (Forall hunk_filled (src_hunks s) → parse_patch (render_patch s) =
   Ok {| patch := render_patch s; args_hunks := denote_hunk <$> src_hunks s;
         workdir := None; args_environment_id := src_env s |})
  ∧ (¬ Forall hunk_filled (src_hunks s) →
     ∃ msg line, parse_patch (render_patch s) = Err (InvalidHunkError msg line)).
Proof.
  intros Hs. apply parse_rendered_lines; [done|]. unfold render_patch.
  rewrite (lines_of_joined 42%N _ [] (lit "*** End Patch")).
  - apply lenient_strict, strict_rendered.
  - by vm_compute.
  - split; [by apply (plain_lit "*** End Patch"); vm_compute|]. exists 104%N. by split; vm_compute.
  - apply rendered_shape.
  - by apply rendered_lines_plain.
  - by rewrite last_snoc.
Qed.

(** The heredoc wrapper that lenient mode removes. *)
Lemma lenient_heredoc first ls l :
  is_heredoc_open first = true → ends_with l (lit "EOF") = true →
  check_patch_boundaries_strict ls = Ok ls → 2 ≤ length ls →
  check_patch_boundaries_strict (first :: ls ++ [l]) ≠ Ok (first :: ls ++ [l]) →
  check_patch_boundaries_lenient (first :: ls ++ [l]) = Ok ls.
Proof.
  intros Hf Hl Hls Hlen Hno. unfold check_patch_boundaries_lenient.
  pose proof (strict_boundaries_no_panic (first :: ls ++ [l])).
  destruct (check_patch_boundaries_strict (first :: ls ++ [l])) as [ls'|e|] eqn:E; [|clear E|done].
  { apply strict_boundaries_Ok in E as [-> _]. done. }
  assert (last (first :: ls ++ [l]) = Some l) as Hlast.
  { by rewrite app_comm_cons, last_snoc. }
  destruct ls as [|x ls]; [simpl in Hlen; lia|]. cbn [app]. cbn [app] in Hlast. rewrite Hlast.
  rewrite Hf, Hl, bool_decide_eq_true_2 by (simpl; rewrite length_app; simpl in *; lia).
  cbn [andb]. pose proof (@slice_inner ParseError first l (x :: ls)) as Hsl. cbn [app] in Hsl.
  rewrite Hsl. done.
Qed.

(** In the lenient mode the program uses, a patch wrapped in a shell heredoc
    parses like the patch itself; the reported patch text has no wrapper. *)
Theorem parse_patch_heredoc first s :
  patch_src_ok s → Forall hunk_filled (src_hunks s) → is_heredoc_open first = true →
  parse_patch (first ++ [LF] ++ render_patch s ++ [LF] ++ lit "EOF") =
  Ok {| patch := render_patch s; args_hunks := denote_hunk <$> src_hunks s;
        workdir := None; args_environment_id := src_env s |}.
Proof.
  intros Hs Hfill Hf. apply parse_rendered_lines; [done| |done].
  set (ls := render_body s ++ [END_PATCH_MARKER]).
  assert (first = lit "<<EOF" ∨ first = lit "<<'EOF'"
    ∨ first = lit "<<" ++ [34%N] ++ lit "EOF" ++ [34%N]) as Hfirst.
  { unfold is_heredoc_open in Hf. rewrite !orb_true_iff, !str_eqb_eq in Hf. tauto. }
  assert (plain first ∧ (∃ f', first = 60%N :: f')
    ∧ str_eqb (trim first) BEGIN_PATCH_MARKER = false) as (Hpf & [f' Hf'] & Hnb).
  { destruct Hfirst as [->|[->| ->]]; (split; [|split; [eexists; vm_compute; reflexivity|by vm_compute]]);
      (split; [apply (bool_decide_eq_true_1 _); by vm_compute|by vm_compute]). }
  replace (first ++ [LF] ++ render_patch s ++ [LF] ++ lit "EOF")
    with (join [LF] (first :: ls ++ [lit "EOF"])).
  2: { unfold render_patch. fold ls. rewrite (app_comm_cons ls), join_snoc, fmap_cons. cbn [concat].
       rewrite <-!app_assoc. do 2 f_equal. rewrite (assoc_L (++) (join _ _)). f_equal.
       unfold ls. rewrite join_snoc, fmap_app, concat_app. cbn [fmap list_fmap concat app].
       by rewrite app_nil_r, <-app_assoc. }
  rewrite (lines_of_joined 60%N _ [] (lit "EOF")).
  - apply lenient_heredoc; [done|by vm_compute|apply strict_rendered| |].
    + unfold ls, render_body. simpl. rewrite !length_app. simpl. lia.
    + intros E. apply strict_boundaries_Ok in E as (_ & f & l & Hh & _ & Ht & _).
      simpl in Hh. injection Hh as <-. rewrite Ht in Hnb. by vm_compute in Hnb.
  - by vm_compute.
  - split; [apply (bool_decide_eq_true_1 _); by vm_compute|]. exists 70%N. by split; vm_compute.
  - rewrite (app_comm_cons ls), join_snoc, fmap_cons. cbn [concat]. rewrite Hf'.
    exists (f' ++ [LF] ++ concat ((λ l, l ++ [LF]) <$> ls)). cbn [app]. by rewrite <-!app_assoc.
  - rewrite (app_comm_cons ls). apply Forall_app. split; [constructor; [done|by apply rendered_lines_plain]|].
    apply Forall_singleton. split; [apply (bool_decide_eq_true_1 _); by vm_compute|by vm_compute].
  - by rewrite (app_comm_cons ls), last_snoc.
Qed.

(** ** Witnesses: a patch with every kind of hunk, an update that changes
    nothing, and a change context with no line *)
Definition sample_patch : patch_src :=
  {| src_env := Some (lit "remote");
     src_hunks :=
       [ SAdd (lit "new.txt") [lit "hello"; []];
         SDelete (lit "old.txt");
         SUpdate (lit "a b.py") (Some (lit "c.py"))
           [ Line (Del (lit "import x"));
             Context (Some (lit "def f():"));
             Line (Ctx (lit "  x = 1")); Line (Del (lit "  y = 2")); Line (Add (lit "  y = 3")) ]
           true ] |}.
Definition no_change_patch : patch_src :=
  {| src_env := None; src_hunks := [SUpdate (lit "a.py") None [] false; SDelete (lit "b.py")] |}.
Definition two_contexts_patch : patch_src :=
  {| src_env := None;
     src_hunks := [SUpdate (lit "a.py") None
       [Context (Some (lit "class A")); Context None; Line (Add (lit "x"))] false] |}.

Lemma name_by s c :
  bool_decide (LF ∉ s) = true → last s = Some c → is_whitespace c = false → name s.
Proof. intros H ? ?. split; [by apply (bool_decide_eq_true_1 _)|by exists c]. Qed.
Lemma plain_by l : bool_decide (LF ∉ l) = true → bool_decide (last l ≠ Some CR) = true → plain l.
Proof. intros ? ?. split; by apply (bool_decide_eq_true_1 _). Qed.
Ltac concrete_src :=
  repeat first
    [ done
    | progress cbn [hunk_src_ok item_ok edit_text]
    | match goal with
      | |- name _ => by eapply name_by; vm_compute
      | |- plain _ => by apply plain_by; vm_compute
      end
    | apply Forall_cons_2 | apply Forall_nil_2 | progress intros ? [= <-] | split ].

Lemma sample_patch_ok : patch_src_ok sample_patch.
Proof.
  split; [|by concrete_src]. intros id [= <-]. split; [by eapply name_by; vm_compute|].
  do 2 eexists. split; [done|by vm_compute].
Qed.
Lemma no_change_patch_ok : patch_src_ok no_change_patch.
Proof. by concrete_src. Qed.
Lemma two_contexts_patch_ok : patch_src_ok two_contexts_patch.
Proof. by concrete_src. Qed.

Lemma parse_patch_round_trip_witness :
  parse_patch (render_patch sample_patch) =
  Ok {| patch := render_patch sample_patch; args_hunks := denote_hunk <$> src_hunks sample_patch;
        workdir := None; args_environment_id := Some (lit "remote") |}
  ∧ (∃ msg line, parse_patch (render_patch no_change_patch) = Err (InvalidHunkError msg line))
  ∧ (∃ msg line, parse_patch (render_patch two_contexts_patch) = Err (InvalidHunkError msg line)).
Proof.
  split_and!.
  - apply (parse_patch_round_trip sample_patch sample_patch_ok).
    apply (bool_decide_eq_true_1 _). by vm_compute.
  - apply (parse_patch_round_trip no_change_patch no_change_patch_ok).
    apply (bool_decide_eq_true_1 _). by vm_compute.
  - apply (parse_patch_round_trip two_contexts_patch two_contexts_patch_ok).
    apply (bool_decide_eq_true_1 _). by vm_compute.
Defined.

Lemma parse_patch_heredoc_witness :
  parse_patch (lit "<<'EOF'" ++ [LF] ++ render_patch sample_patch ++ [LF] ++ lit "EOF") =
  Ok {| patch := render_patch sample_patch; args_hunks := denote_hunk <$> src_hunks sample_patch;
        workdir := None; args_environment_id := Some (lit "remote") |}.
Proof.
  apply (parse_patch_heredoc (lit "<<'EOF'") sample_patch sample_patch_ok); [|reflexivity].
  apply (bool_decide_eq_true_1 _). by vm_compute.
Defined.
