(* ===== verification/SeekSequence.v ===== *)
(** * apply-patch: locating a block of lines

    [seek_sequence] of [apply-patch/src/seek_sequence.rs]: four passes of
    decreasing strictness.  Indexing is by [index] and [slice], which panic out
    of range, so that the absence of panics is part of the specification. *)
From S2P Require Import Prelude Str.

(** The inner function [normalise]. *)
Definition normalise_char (c : char) : char :=
  if bool_decide (c ∈ [0x2010; 0x2011; 0x2012; 0x2013; 0x2014; 0x2015; 0x2212]%N) then 45%N
  else if bool_decide (c ∈ [0x2018; 0x2019; 0x201A; 0x201B]%N) then 39%N
  else if bool_decide (c ∈ [0x201C; 0x201D; 0x201E; 0x201F]%N) then 34%N
  else if bool_decide (c ∈ [0x00A0; 0x2002; 0x2003; 0x2004; 0x2005; 0x2006; 0x2007;
                            0x2008; 0x2009; 0x200A; 0x202F; 0x205F; 0x3000]%N) then 32%N
  else c.
Definition normalise (s : str) : str := normalise_char <$> trim s.

(** [for i in a..=b]. *)
Definition range_incl (a b : nat) : list nat := seq a (S b - a).

Section seek.
Context {E : Type}.

(** [lines[i..i + pattern.len()] == *pattern]. *)
Definition exact_at (lines pattern : list str) (i : nat) : res E bool :=
  window ← slice lines i (i + length pattern);
  Ok (bool_decide (window = pattern)).

(** The inner loop of the other passes: compare line by line through [f],
    stopping at the first difference. *)
Fixpoint lines_at (f : str → str) (lines pattern : list str) (i : nat) : res E bool :=
  match pattern with
  | [] => Ok true
  | pat :: pattern =>
      line ← index lines i;
      if str_eqb (f line) (f pat) then lines_at f lines pattern (S i) else Ok false
  end.

(** One pass: the first index at which the test succeeds. *)
Fixpoint seek_pass (test : nat → res E bool) (ixs : list nat) : res E (option nat) :=
  match ixs with
  | [] => Ok None
  | i :: ixs => b ← test i; if b : bool then Ok (Some i) else seek_pass test ixs
  end.

Definition search_start (lines pattern : list str) (start : nat) (eof : bool) : nat :=
  if eof && bool_decide (length pattern ≤ length lines)
  then (length lines - length pattern) `max` start
  else start.

(** [if let Some(i) = pass { return Some(i) }] followed by the next pass. *)
Definition or_pass (first : res E (option nat)) (next : res E (option nat))
    : res E (option nat) :=
  r ← first; match r with Some i => Ok (Some i) | None => next end.

Definition seek_sequence (lines pattern : list str) (start : nat) (eof : bool)
    : res E (option nat) :=
  if is_empty pattern then Ok (Some start)
  else if bool_decide (length lines < length pattern) then Ok None
  else
    let s := search_start lines pattern start eof in
    let ixs := range_incl s (length lines - length pattern) in
    or_pass (seek_pass (exact_at lines pattern) ixs)
      (or_pass (seek_pass (lines_at trim_end lines pattern) ixs)
        (or_pass (seek_pass (lines_at trim lines pattern) ixs)
          (seek_pass (lines_at normalise lines pattern) ixs))).
End seek.

(** ** Specification

    [matches_at f lines pattern i]: the block of [lines] at [i] equals
    [pattern] after mapping every line through [f]. *)
Definition matches_at (f : str → str) (lines pattern : list str) (i : nat) : Prop :=
  i + length pattern ≤ length lines
  ∧ f <$> take (length pattern) (drop i lines) = f <$> pattern.

(** The levels of strictness, the strictest first. *)
Definition levels : list (str → str) := [id; trim_end; trim; normalise].

(** [i] is the first match of level [k] and no stricter level matches. *)
Definition best_match (lines pattern : list str) (s k i : nat) : Prop :=
  ∃ f, levels !! k = Some f ∧ s ≤ i ∧ matches_at f lines pattern i
  ∧ (∀ j, s ≤ j < i → ¬ matches_at f lines pattern j)
  ∧ (∀ k' f' j, k' < k → levels !! k' = Some f' → s ≤ j → ¬ matches_at f' lines pattern j).

Definition no_match (lines pattern : list str) (s : nat) : Prop :=
  ∀ f j, f ∈ levels → s ≤ j → ¬ matches_at f lines pattern j.

Section seek_lemmas.
Context {E : Type}.
Implicit Types lines pattern : list str.

Lemma exact_at_spec lines pattern i :
  i + length pattern ≤ length lines →
  ∃ b, @exact_at E lines pattern i = Ok b ∧ (b = true ↔ matches_at id lines pattern i).
Proof.
  intros Hi. unfold exact_at. rewrite slice_Ok by lia. eexists. split; [done|].
  rewrite bool_decide_eq_true. unfold matches_at. rewrite !list_fmap_id.
  replace (i + length pattern - i) with (length pattern) by lia. naive_solver.
Qed.

Lemma lines_at_spec f lines pattern i :
  i + length pattern ≤ length lines →
  ∃ b, @lines_at E f lines pattern i = Ok b ∧ (b = true ↔ matches_at f lines pattern i).
Proof.
  unfold matches_at.
  revert i; induction pattern as [|pat pattern IH]; intros i Hi; simpl in *.
  { exists true. split; [done|]. split; [|done]. by split; [lia|]. }
  destruct (lookup_lt_is_Some_2 lines i) as [line Hline]; [lia|].
  rewrite (index_Ok _ _ _ Hline). simpl.
  rewrite (drop_S _ _ _ Hline). simpl.
  destruct (str_eqb (f line) (f pat)) eqn:Eq.
  - apply str_eqb_eq in Eq. destruct (IH (S i)) as (b & Hb & Hiff); [lia|].
    exists b. split; [done|]. rewrite Hiff, Eq. split; intros [? H]; (split; [lia|]).
    + by f_equal.
    + by simplify_eq.
  - apply str_eqb_ne in Eq. exists false. split; [done|]. split; [done|].
    intros [_ H]. by simplify_eq.
Qed.

Lemma seek_pass_spec (test : nat → res E bool) (P : nat → Prop) a b :
  (∀ i, a ≤ i ≤ b → ∃ r, test i = Ok r ∧ (r = true ↔ P i)) →
  ∃ o, seek_pass test (range_incl a b) = Ok o ∧
    match o with
    | Some i => a ≤ i ≤ b ∧ P i ∧ ∀ j, a ≤ j < i → ¬ P j
    | None => ∀ j, a ≤ j ≤ b → ¬ P j
    end.
Proof.
  unfold range_incl. remember (S b - a) as n eqn:Hn. revert a Hn.
  induction n as [|n IH]; intros a Hn Htest; simpl.
  { exists None. split; [done|]. intros; lia. }
  destruct (Htest a) as (r & -> & Hr); [lia|]. simpl. destruct r.
  - exists (Some a). split; [done|]. split_and!; try lia. by apply Hr.
  - destruct (IH (S a)) as (o & Ho & Hpost); [lia| |].
    { intros i Hi. apply Htest. lia. }
    assert (¬ P a) as Ha by (intros ?%Hr; done).
    exists o. split; [done|]. destruct o as [i|].
    + destruct Hpost as (? & ? & Hmin). split_and!; [lia..|done|].
      intros j Hj. destruct (decide (j = a)) as [->|]; [done|]. apply Hmin. lia.
    + intros j Hj. destruct (decide (j = a)) as [->|]; [done|]. apply Hpost. lia.
Qed.

(** The passes in order, as one lemma on a list of levels. *)
Lemma passes_spec (tests : list (nat → res E bool)) (fs : list (str → str)) lines pattern s :
  length pattern ≤ length lines →
  Forall2 (λ t f, ∀ i, i + length pattern ≤ length lines →
    ∃ r, t i = Ok r ∧ (r = true ↔ matches_at f lines pattern i)) tests fs →
  ∃ o, foldr (λ t k, or_pass (seek_pass t (range_incl s (length lines - length pattern))) k)
         (Ok None) tests = Ok o ∧
    match o with
    | Some i => ∃ k f, fs !! k = Some f ∧ s ≤ i ∧ matches_at f lines pattern i
        ∧ (∀ j, s ≤ j < i → ¬ matches_at f lines pattern j)
        ∧ (∀ k' f' j, k' < k → fs !! k' = Some f' → s ≤ j → ¬ matches_at f' lines pattern j)
    | None => ∀ f j, f ∈ fs → s ≤ j → ¬ matches_at f lines pattern j
    end.
Proof.
  intros Hlen. induction 1 as [|t f tests fs Ht _ IH]; simpl.
  { exists None. split; [done|]. by intros f j ?%not_elem_of_nil. }
  destruct (seek_pass_spec t (matches_at f lines pattern) s (length lines - length pattern))
    as (o & -> & Ho); [intros i Hi; apply Ht; lia|]. simpl.
  destruct o as [i|].
  - exists (Some i). split; [done|]. exists 0, f. destruct Ho as (? & ? & ?).
    split_and!; try done; [lia|]. intros; lia.
  - assert (∀ j, s ≤ j → ¬ matches_at f lines pattern j) as Hnone.
    { intros j Hj Hm. apply (Ho j); [|done]. destruct Hm. lia. }
    destruct IH as (o & -> & Ho'). exists o. split; [done|]. destruct o as [i|].
    + destruct Ho' as (k & f' & ? & ? & ? & ? & Hstrict). exists (S k), f'.
      split_and!; try done. intros [|k'] f'' j Hk Hf'' Hj; simplify_eq/=; [by apply Hnone|].
      eapply Hstrict; [|done..]. lia.
    + intros f' j [->|Hf']%elem_of_cons Hj; [by apply Hnone|by apply Ho'].
Qed.

Lemma or_pass_None (r : res E (option nat)) : or_pass r (Ok None) = r.
Proof. by destruct r as [[]| |]. Qed.

Lemma seek_sequence_spec lines pattern start eof :
  ∃ o, @seek_sequence E lines pattern start eof = Ok o ∧
    match o with
    | Some i => (pattern = [] ∧ i = start)
        ∨ (pattern ≠ [] ∧ ∃ k, best_match lines pattern (search_start lines pattern start eof) k i)
    | None => pattern ≠ [] ∧ no_match lines pattern (search_start lines pattern start eof)
    end.
Proof.
  unfold seek_sequence.
  destruct (decide (pattern = [])) as [->|Hne]; [exists (Some start); split; [done|by left]|].
  rewrite (proj2 (is_empty_false pattern)) by done.
  case_bool_decide as Hlen.
  { exists None. split; [done|]. split; [done|]. intros f j _ _ [? _]. lia. }
  destruct (passes_spec
    [exact_at lines pattern; lines_at trim_end lines pattern; lines_at trim lines pattern;
     lines_at normalise lines pattern] levels lines pattern
    (search_start lines pattern start eof)) as (o & Ho & Hpost).
  { lia. }
  { repeat constructor; intros; by auto using exact_at_spec, lines_at_spec. }
  simpl in Ho. rewrite or_pass_None in Ho. rewrite Ho. exists o. split; [done|].
  destruct o as [i|]; [|done]. right. split; [done|].
  destruct Hpost as (k & Hk). by exists k.
Qed.
End seek_lemmas.

(** [seek_sequence] always returns.  An empty pattern is found at the start
    position; otherwise the result is the first position at or after the start
    of the search where the pattern matches at the strictest of the four levels
    (exact, trailing whitespace ignored, surrounding whitespace ignored,
    typographic characters normalised) that matches anywhere, and [None] only
    when no level matches at any later position. *)
Theorem seek_sequence_finds_best_match (lines pattern : list str) (start : nat) (eof : bool) :
  ∃ o, @seek_sequence False lines pattern start eof = Ok o ∧
    match o with
    | Some i => (pattern = [] ∧ i = start)
        ∨ (pattern ≠ [] ∧ ∃ k, best_match lines pattern (search_start lines pattern start eof) k i)
    | None => pattern ≠ [] ∧ no_match lines pattern (search_start lines pattern start eof)
    end.
Proof. apply seek_sequence_spec. Qed.
