(* ===== verification/TextFile.v ===== *)
(** * apply-patch: files as lines with their endings

    [SourceFile] of [apply-patch/src/text_file.rs]. *)
From S2P Require Import Prelude Str.

Inductive LineEnding := EndLf | EndCrLf | EndCr.

#[export] Instance LineEnding_eq_dec : EqDecision LineEnding.
Proof. solve_decision. Defined.

(** [LineEnding::as_str]. *)
Definition ending_str (e : LineEnding) : str :=
  match e with EndLf => [LF] | EndCrLf => [CR; LF] | EndCr => [CR] end.

Record SourceLine := { text : str; ending : option LineEnding }.
Record SourceFile := { file_lines : list SourceLine; preferred_ending : LineEnding }.

Abbreviation Replacement := (nat * nat * list (list N))%type.
Definition rep_start (r : Replacement) : nat := r.1.1.
Definition rep_len (r : Replacement) : nat := r.1.2.
Definition rep_seg (r : Replacement) : list str := r.2.

(** The scanning loop of [SourceFile::parse]: [cur] is
    [contents[line_start..cursor]], [preferred] the first ending seen. *)
Fixpoint parse_from (cur : str) (preferred : option LineEnding) (rest : str)
    : list SourceLine * option LineEnding :=
  let line e rest' :=
    let '(ls, pref) :=
      parse_from [] (Some (default e preferred)) rest' in
    ({| text := cur; ending := Some e |} :: ls, pref) in
  match rest with
  | [] => (if is_empty cur then [] else [{| text := cur; ending := None |}], preferred)
  | c :: rest' =>
      if (c =? CR)%N then
        match rest' with
        | d :: rest'' => if (d =? LF)%N then line EndCrLf rest'' else line EndCr rest'
        | [] => line EndCr rest'
        end
      else if (c =? LF)%N then line EndLf rest'
      else parse_from (cur ++ [c]) preferred rest'
  end.

Definition parse (contents : str) : SourceFile :=
  let '(ls, preferred) := parse_from [] None contents in
  {| file_lines := ls; preferred_ending := default EndLf preferred |}.

Definition line_texts (f : SourceFile) : list str := text <$> file_lines f.

(** The loop of [apply_replacements]; [source] is what the iterator
    [source_lines] has left, [source_index] the position it has reached. *)
Fixpoint replace_loop {E} (pref : LineEnding) (source : list SourceLine) (source_index : nat)
    (new_lines : list SourceLine) (reps : list Replacement) : res E (list SourceLine) :=
  match reps with
  | [] => Ok (new_lines ++ source)
  | (start_idx, old_len, new_segment) :: reps =>
      k ← usub start_idx source_index;
      replace_loop pref (drop old_len (drop k source)) (start_idx + old_len)
        (new_lines ++ take k source
         ++ ((λ t, {| text := t; ending := Some pref |}) <$> new_segment)) reps
  end.

Definition apply_replacements {E} (f : SourceFile) (reps : list Replacement)
    : res E SourceFile :=
  ls ← replace_loop (preferred_ending f) (file_lines f) 0 [] reps;
  Ok {| file_lines :=
          (λ l, {| text := text l; ending := Some (default (preferred_ending f) (ending l)) |})
          <$> ls;
        preferred_ending := preferred_ending f |}.

Definition line_contents (l : SourceLine) : str :=
  text l ++ default [] (ending_str <$> ending l).
Definition into_contents (f : SourceFile) : str :=
  concat (line_contents <$> file_lines f).

(** ** Parsing *)
Lemma parse_from_contents rest cur pref :
  concat (line_contents <$> (parse_from cur pref rest).1) = cur ++ rest.
Proof.
  remember (length rest) as n eqn:Hn. assert (length rest ≤ n) as Hle by lia. clear Hn.
  revert rest cur pref Hle; induction n as [|n IH]; intros rest cur pref Hle.
  { destruct rest; simpl in *; [|lia]. destruct cur; [done|]. simpl. by rewrite !app_nil_r. }
  destruct rest as [|c rest]; [destruct cur; [done|]; simpl; by rewrite !app_nil_r|].
  simpl in Hle. simpl.
  assert (∀ e rest', length rest' ≤ n →
    concat (line_contents <$> (let '(ls, p) := parse_from [] (Some (default e pref)) rest' in
      ({| text := cur; ending := Some e |} :: ls, p)).1) = cur ++ ending_str e ++ rest') as Hline.
  { intros e rest' Hr. pose proof (IH rest' [] (Some (default e pref)) Hr) as H.
    destruct (parse_from _ _ rest') as [ls p]. cbn [fst] in *.
    rewrite fmap_cons. cbn [concat]. rewrite H.
    unfold line_contents. simpl. by rewrite <-app_assoc. }
  destruct (N.eqb_spec c CR) as [->|Hcr].
  - destruct rest as [|d rest]; [apply (Hline EndCr []); simpl; lia|].
    destruct (N.eqb_spec d LF) as [->|Hlf].
    + apply (Hline EndCrLf). simpl in Hle. lia.
    + apply (Hline EndCr). simpl in *. lia.
  - destruct (N.eqb_spec c LF) as [->|Hlf]; [apply (Hline EndLf); lia|].
    rewrite IH by lia. by rewrite <-app_assoc.
Qed.

(** A text file read into lines and written back is unchanged, whatever mix
    of line endings it has and whether or not its last line is terminated. *)
Theorem text_file_round_trip s : into_contents (parse s) = s.
Proof.
  pose proof (parse_from_contents s [] None) as H. unfold parse, into_contents.
  by destruct (parse_from [] None s).
Qed.

(** A line's text holds no line break, and only the last line may lack an
    ending. *)
Definition no_break (t : str) : Prop := (CR ∉ t) ∧ LF ∉ t.
Definition lines_ok (ls : list SourceLine) : Prop :=
  Forall (λ l, no_break (text l)) ls
  ∧ ∀ i l, ls !! i = Some l → ending l = None → S i = length ls ∧ text l ≠ [].

Lemma lines_ok_cons t e ls :
  no_break t → lines_ok ls → lines_ok ({| text := t; ending := Some e |} :: ls).
Proof.
  intros Ht [Hls Hlast]. split; [by constructor|].
  intros [|i] l Hl He; simplify_eq/=. destruct (Hlast i l Hl He). split; [lia|done].
Qed.

Lemma parse_from_lines_ok rest cur pref :
  no_break cur → lines_ok (parse_from cur pref rest).1.
Proof.
  remember (length rest) as n eqn:Hn. assert (length rest ≤ n) as Hle by lia. clear Hn.
  revert rest cur pref Hle; induction n as [|n IH]; intros rest cur pref Hle Hcur.
  all: assert (lines_ok (if is_empty cur then [] else [{| text := cur; ending := None |}]))
    as Hend by (destruct cur; [split; [done|by intros [] ?]|];
      split; [by apply Forall_singleton|intros [|[]] l Hl; by simplify_eq/=]).
  { destruct rest; simpl in *; [done|lia]. }
  destruct rest as [|c rest]; [done|]. simpl in Hle. simpl.
  assert (∀ e rest', length rest' ≤ n →
    lines_ok (let '(ls, p) := parse_from [] (Some (default e pref)) rest' in
      ({| text := cur; ending := Some e |} :: ls, p)).1) as Hline.
  { intros e rest' Hr. pose proof (IH rest' [] (Some (default e pref)) Hr) as H.
    destruct (parse_from _ _ rest') as [ls p]. simpl in *. apply lines_ok_cons; [done|].
    apply H. split; apply not_elem_of_nil. }
  destruct (N.eqb_spec c CR) as [->|Hcr].
  - destruct rest as [|d rest]; [apply (Hline EndCr []); simpl; lia|].
    destruct (N.eqb_spec d LF) as [->|Hlf]; [apply (Hline EndCrLf)|apply (Hline EndCr)];
      simpl in *; lia.
  - destruct (N.eqb_spec c LF) as [->|Hlf]; [apply (Hline EndLf); lia|].
    apply IH; [lia|]. destruct Hcur.
    split; rewrite elem_of_app, list_elem_of_singleton; naive_solver.
Qed.

Lemma parse_lines_ok s : lines_ok (file_lines (parse s)).
Proof.
  pose proof (parse_from_lines_ok s [] None) as H. unfold parse.
  destruct (parse_from [] None s). simpl in *. apply H. split; apply not_elem_of_nil.
Qed.

(** ** Replacements

    The reference: position by position, first the segments that replacements
    put there, then the line that was there unless a replacement covers it. *)
Definition fresh_line (pref : LineEnding) (t : str) : SourceLine :=
  {| text := t; ending := Some pref |}.
Definition inserts (pref : LineEnding) (reps : list Replacement) (i : nat) : list SourceLine :=
  concat ((λ r, fresh_line pref <$> rep_seg r) <$> filter (λ r, rep_start r = i) reps).
Definition covered (reps : list Replacement) (i : nat) : bool :=
  bool_decide (Exists (λ r, rep_start r ≤ i < rep_start r + rep_len r) reps).

Fixpoint splice (pref : LineEnding) (reps : list Replacement) (pos : nat)
    (ls : list SourceLine) : list SourceLine :=
  inserts pref reps pos
  ++ match ls with
     | [] => []
     | l :: ls =>
         (if covered reps pos then [] else [l]) ++ splice pref reps (S pos) ls
     end.

(** Ordered, disjoint and in range. *)
Fixpoint reps_ok (pos n : nat) (reps : list Replacement) : Prop :=
  match reps with
  | [] => pos ≤ n
  | r :: reps => pos ≤ rep_start r ∧ reps_ok (rep_start r + rep_len r) n reps
  end.

Section splice.
Context (pref : LineEnding).
Implicit Types reps : list Replacement.

Lemma inserts_cons r reps i :
  inserts pref (r :: reps) i =
  (if decide (rep_start r = i) then fresh_line pref <$> rep_seg r else [])
  ++ inserts pref reps i.
Proof. unfold inserts. rewrite filter_cons. by case_decide. Qed.

Lemma inserts_none reps i :
  Forall (λ r, rep_start r ≠ i) reps → inserts pref reps i = [].
Proof.
  induction 1 as [|r reps Hr _ IH]; [done|]. rewrite inserts_cons, IH.
  by rewrite decide_False.
Qed.

Lemma covered_cons r reps i :
  covered (r :: reps) i =
  bool_decide (rep_start r ≤ i < rep_start r + rep_len r) || covered reps i.
Proof. unfold covered. by rewrite <-bool_decide_or, (bool_decide_ext _ _ (Exists_cons _ _ _)). Qed.

Lemma covered_none reps i :
  Forall (λ r, i < rep_start r ∨ rep_start r + rep_len r ≤ i) reps → covered reps i = false.
Proof.
  intros H. apply bool_decide_eq_false. rewrite Exists_exists.
  intros (r & Hr & ?). rewrite Forall_forall in H. specialize (H r Hr). lia.
Qed.

Lemma splice_ext reps reps' pos ls :
  (∀ j, pos ≤ j → inserts pref reps j = inserts pref reps' j ∧ covered reps j = covered reps' j) →
  splice pref reps pos ls = splice pref reps' pos ls.
Proof.
  revert pos; induction ls as [|l ls IH]; intros pos H; simpl;
    destruct (H pos) as [-> Hc]; try lia; [done|].
  rewrite Hc, (IH (S pos)); [done|]. intros j ?. apply H. lia.
Qed.

Lemma splice_keep reps k pos ls :
  k ≤ length ls →
  (∀ j, pos ≤ j < pos + k → inserts pref reps j = [] ∧ covered reps j = false) →
  splice pref reps pos ls = take k ls ++ splice pref reps (pos + k) (drop k ls).
Proof.
  revert pos ls; induction k as [|k IH]; intros pos ls Hk H.
  { by rewrite Nat.add_0_r. }
  destruct ls as [|l ls]; simpl in Hk; [lia|]. simpl.
  destruct (H pos) as [-> ->]; [lia|]. simpl. f_equal.
  rewrite (IH (S pos)); [by rewrite Nat.add_succ_r| lia|]. intros j ?. apply H. lia.
Qed.

Lemma splice_skip reps k pos ls :
  k ≤ length ls →
  (∀ j, pos ≤ j < pos + k → inserts pref reps j = [] ∧ covered reps j = true) →
  splice pref reps pos ls = splice pref reps (pos + k) (drop k ls).
Proof.
  revert pos ls; induction k as [|k IH]; intros pos ls Hk H.
  { by rewrite Nat.add_0_r. }
  destruct ls as [|l ls]; simpl in Hk; [lia|]. simpl.
  destruct (H pos) as [-> ->]; [lia|]. simpl.
  rewrite (IH (S pos)); [by rewrite Nat.add_succ_r| lia|]. intros j ?. apply H. lia.
Qed.

Lemma reps_ok_starts pos n reps :
  reps_ok pos n reps → Forall (λ r, pos ≤ rep_start r) reps.
Proof.
  revert pos; induction reps as [|r reps IH]; intros pos; simpl; [done|].
  intros [? H]. constructor; [done|]. eapply Forall_impl; [by apply IH|].
  simpl. intros; lia.
Qed.

Lemma reps_ok_le pos n reps : reps_ok pos n reps → pos ≤ n.
Proof.
  revert pos; induction reps as [|r reps IH]; intros pos; simpl; [done|].
  intros [? H]. apply IH in H. lia.
Qed.

(** One replacement at the current position. *)
Lemma splice_replace r reps ls n :
  reps_ok (rep_start r + rep_len r) n reps → n = rep_start r + length ls →
  splice pref (r :: reps) (rep_start r) ls =
  (fresh_line pref <$> rep_seg r)
  ++ splice pref reps (rep_start r + rep_len r) (drop (rep_len r) ls).
Proof.
  intros Hok Hn. pose proof (reps_ok_le _ _ _ Hok). pose proof (reps_ok_starts _ _ _ Hok) as Hst.
  assert (∀ j, rep_start r < j → inserts pref (r :: reps) j = inserts pref reps j) as Hins.
  { intros j Hj. rewrite inserts_cons, decide_False; [done|lia]. }
  assert (∀ j, rep_start r + rep_len r ≤ j → covered (r :: reps) j = covered reps j) as Hcov.
  { intros j Hj. rewrite covered_cons, bool_decide_eq_false_2; [done|lia]. }
  destruct (rep_len r) as [|o] eqn:Ho.
  - rewrite Nat.add_0_r in *. rewrite drop_0. destruct ls as [|l ls]; simpl;
      rewrite inserts_cons, decide_True by done; rewrite <-app_assoc; [done|].
    f_equal. f_equal. rewrite Hcov by lia. f_equal. apply splice_ext.
    intros j ?. rewrite Hins, Hcov by lia. done.
  - assert (∀ j, j < rep_start r + S o → inserts pref reps j = []) as Hnone.
    { intros j Hj. apply inserts_none. eapply Forall_impl; [done|]. simpl. intros; lia. }
    destruct ls as [|l ls]; simpl in *; [lia|].
    rewrite inserts_cons, decide_True, Hnone, app_nil_r by (done || lia).
    rewrite covered_cons, bool_decide_eq_true_2 by lia. simpl. f_equal.
    rewrite (splice_skip _ o); [| lia|].
    + rewrite Nat.add_succ_r. apply splice_ext. intros j ?.
      rewrite Hins, Hcov by lia. done.
    + intros j ?. rewrite Hins, Hnone by lia.
      by rewrite covered_cons, bool_decide_eq_true_2 by lia.
Qed.

Lemma replace_loop_splice {E} reps src pos acc :
  reps_ok pos (pos + length src) reps →
  @replace_loop E pref src pos acc reps = Ok (acc ++ splice pref reps pos src).
Proof.
  revert src pos acc; induction reps as [|[[s o] seg] reps IH]; intros src pos acc Hok;
    cbn [replace_loop].
  { f_equal. f_equal. clear. revert pos; induction src as [|l ls IH]; intros pos; simpl; [done|].
    f_equal. apply IH. }
  destruct Hok as [Hs Hok]. unfold rep_start, rep_len in Hs, Hok; simpl in Hs, Hok.
  pose proof (reps_ok_le _ _ _ Hok). pose proof (reps_ok_starts _ _ _ Hok) as Hst.
  rewrite usub_Ok by lia. cbn [mbind res_bind]. rewrite IH.
  2: { rewrite !length_drop. by replace (s + o + (length src - (s - pos) - o)) with (pos + length src) by lia. }
  f_equal. rewrite (splice_keep ((s, o, seg) :: reps) (s - pos) pos src); [| lia|].
  - replace (pos + (s - pos)) with s by lia.
    rewrite (splice_replace (s, o, seg) reps _ (pos + length src)); [|done|].
    + by rewrite <-!app_assoc.
    + rewrite length_drop. unfold rep_start. simpl. lia.
  - intros j Hj. split.
    + apply inserts_none. constructor; [unfold rep_start; simpl; lia|].
      eapply Forall_impl; [done|]. simpl; intros; lia.
    + apply covered_none. constructor; [left; unfold rep_start; simpl; lia|].
      eapply Forall_impl; [done|]. simpl; intros; lia.
Qed.
End splice.

(** [ending.get_or_insert(preferred)]. *)
Definition terminate (pref : LineEnding) (l : SourceLine) : SourceLine :=
  {| text := text l; ending := Some (default pref (ending l)) |}.

Lemma apply_replacements_splice {E} f reps :
  reps_ok 0 (length (file_lines f)) reps →
  @apply_replacements E f reps =
  Ok {| file_lines := terminate (preferred_ending f)
          <$> splice (preferred_ending f) reps 0 (file_lines f);
        preferred_ending := preferred_ending f |}.
Proof. intros H. unfold apply_replacements. by rewrite replace_loop_splice. Qed.

(** C9: on replacements that are ordered, disjoint and in range, the in-place
    rewriting loop computes the reference splice: every uncovered line stays,
    covered lines go, new lines are inserted where their replacement starts and
    the lines the file lacks a terminator for get its preferred one; no index is
    out of range. *)
Theorem apply_replacements_is_splice f reps :
  reps_ok 0 (length (file_lines f)) reps →
  @apply_replacements False f reps =
  Ok {| file_lines := terminate (preferred_ending f)
          <$> splice (preferred_ending f) reps 0 (file_lines f);
        preferred_ending := preferred_ending f |}.
Proof. apply apply_replacements_splice. Qed.

Lemma apply_replacements_witness :
  @apply_replacements False (parse (lit "a" ++ [LF] ++ lit "b" ++ [LF] ++ lit "c")) [(1, 1, [lit "x"; lit "y"])] =
  Ok (parse (lit "a" ++ [LF] ++ lit "x" ++ [LF] ++ lit "y" ++ [LF] ++ lit "c" ++ [LF])).
Proof.
  rewrite (apply_replacements_is_splice (parse (lit "a" ++ [LF] ++ lit "b" ++ [LF] ++ lit "c"))
    [(1, 1, [lit "x"; lit "y"])]); [vm_compute; reflexivity|]. vm_compute. lia.
Defined.
