(* ===== verification/FileUpdate.v ===== *)
(** * apply-patch: updating a file

    [compute_replacements] and the pure part of
    [derive_new_contents_from_chunks] of [apply-patch/src/file_update.rs]. *)
From Stdlib Require Import Sorted.
From S2P Require Import Prelude Str PatchSyntax SeekSequence TextFile.

(** [std::io::Error]: its kind (the sources distinguish [NotFound] and create
    [InvalidInput]) and its text. *)
Inductive ErrorKind := NotFound | InvalidInput | OtherKind.
Record io_error := { kind : ErrorKind; io_message : str }.

(** [ApplyPatchError] of [apply-patch/src/lib.rs]; the payload of [PathUri] is
    the error's text. *)
Inductive ApplyPatchError :=
  | PatchParseError (e : ParseError)
  | IoError (context : str) (source : io_error)
  | ComputeReplacements (message : str)
  | PathUriError (message : str)
  | ImplicitInvocation.

Abbreviation fallible := (res ApplyPatchError).

(** [replacements.sort_by_key(|(index, _, _)| *index)], a stable sort. *)
Fixpoint insert_by_start (r : Replacement) (l : list Replacement) : list Replacement :=
  match l with
  | [] => [r]
  | x :: l' => if decide (rep_start r ≤ rep_start x) then r :: l else x :: insert_by_start r l'
  end.
Definition sort_by_start (l : list Replacement) : list Replacement :=
  foldr insert_by_start [] l.

(** The loop over [context_line_indices]: [pattern_len] is [pattern.len()]. *)
Fixpoint emit_loop (start_idx pattern_len : nat) (new_slice : list str)
    (old_start new_start : nat) (ix : list (nat * nat)) (reps : list Replacement)
    : fallible (list Replacement * nat * nat) :=
  match ix with
  | [] => Ok (reps, old_start, new_start)
  | (old_context, new_context) :: ix =>
      if bool_decide (pattern_len ≤ old_context)
         || bool_decide (length new_slice ≤ new_context)
      then Ok (reps, old_start, new_start)
      else
        reps ← (if negb (bool_decide (old_start = old_context))
                   || negb (bool_decide (new_start = new_context))
                then
                  len ← usub old_context old_start;
                  seg ← slice new_slice new_start new_context;
                  Ok (reps ++ [(start_idx + old_start, len, seg)])
                else Ok reps);
        emit_loop start_idx pattern_len new_slice (S old_context) (S new_context) ix reps
  end.

(** What follows the loop: the replacement after the last context line. *)
Definition emit_tail (start_idx pattern_len : nat) (new_slice : list str)
    (st : list Replacement * nat * nat) : fallible (list Replacement) :=
  let '(reps, old_start, new_start) := st in
  if negb (bool_decide (old_start = pattern_len))
     || negb (bool_decide (new_start = length new_slice))
  then
    len ← usub pattern_len old_start;
    seg ← slice new_slice new_start (length new_slice);
    Ok (reps ++ [(start_idx + old_start, len, seg)])
  else Ok reps.

(** The replacements of one chunk found at [start_idx]. *)
Definition emit (start_idx pattern_len : nat) (new_slice : list str)
    (ix : list (nat * nat)) (reps : list Replacement) : fallible (list Replacement) :=
  emit_loop start_idx pattern_len new_slice 0 0 ix reps
    ≫= emit_tail start_idx pattern_len new_slice.

(** [&l[..l.len() - 1]] on a list that ends in the empty string. *)
Definition drop_trailing_empty (l : list str) : list str :=
  if is_some_and is_empty (last l) then take (length l - 1) l else l.

(** The search for [old_lines], with its retry without the final empty line:
    where it was found, and the two sides that were used. *)
Definition locate (orig : list str) (line_index : nat) (chunk : UpdateFileChunk)
    : fallible (option nat * list str * list str) :=
  found ← seek_sequence orig (old_lines chunk) line_index (is_end_of_file chunk);
  match found with
  | Some i => Ok (Some i, old_lines chunk, new_lines chunk)
  | None =>
      if is_some_and is_empty (last (old_lines chunk)) then
        let pattern := drop_trailing_empty (old_lines chunk) in
        let new_slice := drop_trailing_empty (new_lines chunk) in
        found ← seek_sequence orig pattern line_index (is_end_of_file chunk);
        Ok (found, pattern, new_slice)
      else Ok (None, old_lines chunk, new_lines chunk)
  end.

(** [if let Some(ctx_line) = &chunk.change_context]: the new [line_index]. *)
Definition seek_context (orig : list str) (path : str) (line_index : nat)
    (ctx : option str) : fallible nat :=
  match ctx with
  | None => Ok line_index
  | Some ctx_line =>
      found ← seek_sequence orig [ctx_line] line_index false;
      match found with
      | Some idx => Ok (S idx)
      | None => Err (ComputeReplacements
          (lit "Failed to find context '" ++ ctx_line ++ lit "' in " ++ path))
      end
  end.

(** One iteration of the loop over the chunks. *)
Definition chunk_step (orig : list str) (path : str)
    (reps : list Replacement) (line_index : nat) (chunk : UpdateFileChunk)
    : fallible (list Replacement * nat) :=
  line_index ← seek_context orig path line_index (change_context chunk);
  if is_empty (old_lines chunk) then
    Ok (reps ++ [(length orig, 0, new_lines chunk)], line_index)
  else
    '(found, pattern, new_slice) ← locate orig line_index chunk;
    match found with
    | Some start_idx =>
        reps ← emit start_idx (length pattern) new_slice (context_line_indices chunk) reps;
        Ok (reps, start_idx + length pattern)
    | None => Err (ComputeReplacements
        (lit "Failed to find expected lines in " ++ path ++ lit ":" ++ [LF]
         ++ join [LF] (old_lines chunk)))
    end.

Fixpoint chunks_loop (orig : list str) (path : str) (reps : list Replacement)
    (line_index : nat) (chunks : list UpdateFileChunk) : fallible (list Replacement) :=
  match chunks with
  | [] => Ok reps
  | chunk :: chunks =>
      '(reps, line_index) ← chunk_step orig path reps line_index chunk;
      chunks_loop orig path reps line_index chunks
  end.

Definition compute_replacements (orig : list str) (path : str) (chunks : list UpdateFileChunk)
    : fallible (list Replacement) :=
  reps ← chunks_loop orig path [] 0 chunks;
  Ok (sort_by_start reps).

(** [derive_new_contents_from_chunks] after the file has been read. *)
Definition new_contents_from_chunks (original_contents path_text : str)
    (chunks : list UpdateFileChunk) : fallible str :=
  let source_file := parse original_contents in
  replacements ← compute_replacements (line_texts source_file) path_text chunks;
  source_file ← apply_replacements source_file replacements;
  Ok (into_contents source_file).

(** ** Sorting *)
Lemma insert_by_start_le r l :
  Forall (λ x, rep_start r ≤ rep_start x) l → insert_by_start r l = r :: l.
Proof. destruct 1 as [|x l Hx _]; [done|]. simpl. by rewrite decide_True. Qed.

Lemma insert_by_start_app r l l' :
  Forall (λ x, rep_start x < rep_start r) l →
  insert_by_start r (l ++ l') = l ++ insert_by_start r l'.
Proof.
  induction 1 as [|x l Hx _ IH]; [done|]. simpl. rewrite decide_False by lia. by rewrite IH.
Qed.

(** Before the end of the file in order, at the end in the order they came. *)
Lemma sort_by_start_split n l :
  Forall (λ r, rep_start r ≤ n) l →
  StronglySorted (λ a b, rep_start a ≤ rep_start b) (filter (λ r, rep_start r < n) l) →
  sort_by_start l = filter (λ r, rep_start r < n) l ++ filter (λ r, rep_start r = n) l.
Proof.
  induction l as [|r l IH]; intros Hle Hs; [done|].
  apply Forall_cons in Hle as [Hr Hle]. change (sort_by_start (r :: l))
    with (insert_by_start r (sort_by_start l)). rewrite !filter_cons in *.
  destruct (decide (rep_start r < n)) as [Hlt|Hge].
  - rewrite decide_False by lia. apply StronglySorted_inv in Hs as [Hs Hall].
    rewrite IH by done. rewrite insert_by_start_le; [done|].
    apply Forall_app. split; [done|]. apply Forall_forall.
    intros x [? _]%list_elem_of_filter. lia.
  - rewrite decide_True by lia. rewrite IH by done.
    rewrite insert_by_start_app.
    + f_equal. apply insert_by_start_le. apply Forall_forall.
      intros x [? _]%list_elem_of_filter. lia.
    + apply Forall_forall. intros x [? _]%list_elem_of_filter. lia.
Qed.

(** ** Replacement lists *)
Lemma reps_ok_weaken pos n n' reps : n ≤ n' → reps_ok pos n reps → reps_ok pos n' reps.
Proof.
  intros Hn. revert pos; induction reps as [|r reps IH]; simpl; intros pos; [lia|].
  intros [? ?]. split; [done|]. by apply IH.
Qed.

Lemma reps_ok_app pos m n l l' :
  reps_ok pos m l → reps_ok m n l' → reps_ok pos n (l ++ l').
Proof.
  revert pos; induction l as [|r l IH]; simpl; intros pos Hl Hl'.
  - destruct l' as [|r' l']; simpl in *; [lia|]. destruct Hl'. split; [lia|done].
  - destruct Hl. split; [done|]. by apply IH.
Qed.

Lemma reps_ok_lower pos pos' n l : pos' ≤ pos → reps_ok pos n l → reps_ok pos' n l.
Proof. destruct l; simpl; [lia|]. intros ? [? ?]. split; [lia|done]. Qed.

Lemma reps_ok_filter (P : Replacement → Prop) `{!∀ r, Decision (P r)} pos n l :
  reps_ok pos n l → reps_ok pos n (filter P l).
Proof.
  revert pos; induction l as [|r l IH]; simpl; intros pos Hok; [done|].
  destruct Hok as [Hr Hok]. rewrite filter_cons. case_decide; simpl; [by auto|].
  apply IH. eapply reps_ok_lower; [|done]. lia.
Qed.

Lemma reps_ok_sorted pos n l :
  reps_ok pos n l → StronglySorted (λ a b, rep_start a ≤ rep_start b) l.
Proof.
  revert pos; induction l as [|r l IH]; simpl; intros pos H; constructor.
  - by eapply IH, H.
  - destruct H as [_ H]. apply reps_ok_starts in H. eapply Forall_impl; [done|]. simpl. lia.
Qed.

(** The ends of a list's replacements stay below its bound. *)
Lemma reps_ok_ends pos n l :
  reps_ok pos n l → Forall (λ r, rep_start r + rep_len r ≤ n) l.
Proof.
  revert pos; induction l as [|r l IH]; simpl; intros pos H; [done|].
  destruct H as [_ H]. constructor; [by eapply reps_ok_le|by eapply IH].
Qed.

(** ** What the loop over the chunks maintains *)
Definition emitted (n : nat) (reps : list Replacement) (line_index : nat) : Prop :=
  line_index ≤ n
  ∧ reps_ok 0 line_index (filter (λ r, rep_start r < n) reps)
  ∧ Forall (λ r, rep_start r + rep_len r ≤ n) reps.

Lemma emitted_sorted n reps li : emitted n reps li → reps_ok 0 n (sort_by_start reps).
Proof.
  intros (Hli & Hok & Hends). rewrite (sort_by_start_split n).
  - eapply reps_ok_app; [eapply reps_ok_weaken; [|done]; done|].
    induction reps as [|r reps IH]; [simpl; lia|].
    apply Forall_cons in Hends as [Hr Hends]. rewrite !filter_cons in *.
    assert (reps_ok n n (filter (λ r, rep_start r = n) reps)) as Hrec.
    { apply IH; [|done]. destruct (decide (rep_start r < n)); [|done].
      destruct Hok as [_ Hok]. eapply reps_ok_lower; [|done]. lia. }
    destruct (decide (rep_start r = n)); simpl; [|done]. split; [lia|].
    replace (rep_start r + rep_len r) with n by lia. done.
  - eapply Forall_impl; [done|]. simpl. lia.
  - by eapply reps_ok_sorted.
Qed.

(** ** One chunk

    [rewrite_lines pos src reps]: the texts that remain of [src], the lines
    from [pos] on, after the replacements. *)
Fixpoint rewrite_lines (pos : nat) (src : list str) (reps : list Replacement) : list str :=
  match reps with
  | [] => src
  | r :: reps =>
      take (rep_start r - pos) src ++ rep_seg r
      ++ rewrite_lines (rep_start r + rep_len r) (drop (rep_start r + rep_len r - pos) src) reps
  end.

Lemma rewrite_lines_keep k pos src reps :
  k ≤ length src → Forall (λ r, pos + k ≤ rep_start r) reps →
  rewrite_lines pos src reps = take k src ++ rewrite_lines (pos + k) (drop k src) reps.
Proof.
  intros Hk [|r reps' Hr _]; simpl; [by rewrite take_drop|].
  rewrite drop_drop, (app_assoc (take k src)), take_take_drop.
  replace (k + (rep_start r - (pos + k))) with (rep_start r - pos) by lia.
  by replace (k + (rep_start r + rep_len r - (pos + k))) with (rep_start r + rep_len r - pos)
    by lia.
Qed.

(** The new side of a chunk, with the context lines taken from the block
    [blk] of the file instead of the patch. *)
Fixpoint merge_from (plen : nat) (new_slice blk : list str) (o n : nat)
    (ix : list (nat * nat)) : list str :=
  match ix with
  | [] => drop n new_slice
  | (i, j) :: ix =>
      if bool_decide (plen ≤ i) || bool_decide (length new_slice ≤ j)
      then drop n new_slice
      else take (j - n) (drop n new_slice) ++ take 1 (drop i blk)
           ++ merge_from plen new_slice blk (S i) (S j) ix
  end.

(** The same in two parts: the lines that follow the last old line of the chunk
    are inserted after it, the others take the place of old lines. *)
Fixpoint merge_body (plen : nat) (new_slice blk : list str) (o n : nat)
    (ix : list (nat * nat)) : list str :=
  match ix with
  | [] => if bool_decide (o = plen) then [] else drop n new_slice
  | (i, j) :: ix =>
      if bool_decide (plen ≤ i) || bool_decide (length new_slice ≤ j)
      then if bool_decide (o = plen) then [] else drop n new_slice
      else take (j - n) (drop n new_slice) ++ take 1 (drop i blk)
           ++ merge_body plen new_slice blk (S i) (S j) ix
  end.
Fixpoint inserted (plen : nat) (new_slice : list str) (o n : nat) (ix : list (nat * nat)) : list str :=
  match ix with
  | [] => if bool_decide (o = plen) then drop n new_slice else []
  | (i, j) :: ix =>
      if bool_decide (plen ≤ i) || bool_decide (length new_slice ≤ j)
      then if bool_decide (o = plen) then drop n new_slice else []
      else inserted plen new_slice (S i) (S j) ix
  end.
Lemma merge_split plen new_slice blk o n ix :
  merge_from plen new_slice blk o n ix
  = merge_body plen new_slice blk o n ix ++ inserted plen new_slice o n ix.
Proof.
  revert o n; induction ix as [|[i j] ix IH]; intros o n; simpl.
  { case_bool_decide; by rewrite ?app_nil_r. }
  destruct (_ || _); [case_bool_decide; by rewrite ?app_nil_r|]. by rewrite IH, <-!app_assoc.
Qed.

Section emit.
Context (start plen : nat) (new_slice : list str).

(** [C] rewrites the lines [start + o ..] to the merged rest of the chunk; its last
    replacement is the insertion after the block, if there is one. *)
Definition insertion (ins : list str) : list Replacement :=
  if is_empty ins then [] else [(start + plen, 0, ins)].
Definition emits (o : nat) (C : list Replacement) (ix : list (nat * nat)) (n : nat) : Prop :=
  ∃ D, C = D ++ insertion (inserted plen new_slice o n ix)
  ∧ reps_ok (start + o) (start + plen) D ∧ Forall (λ r, rep_start r < start + plen) D
  ∧ ∀ blk rest src, length blk = plen → Forall (λ r, start + plen ≤ rep_start r) rest →
    rewrite_lines (start + o) (drop o blk ++ src) (D ++ rest)
    = merge_body plen new_slice blk o n ix ++ rewrite_lines (start + plen) src rest.

Lemma emit_tail_ok o n reps ix :
  o ≤ plen → n ≤ length new_slice →
  (∀ blk, merge_body plen new_slice blk o n ix = if bool_decide (o = plen) then [] else drop n new_slice) →
  inserted plen new_slice o n ix = (if bool_decide (o = plen) then drop n new_slice else []) →
  ∃ C, emit_tail start plen new_slice (reps, o, n) = Ok (reps ++ C) ∧ emits o C ix n.
Proof.
  intros Ho Hn Hm Hi. unfold emit_tail, emits. rewrite Hi. setoid_rewrite Hm.
  destruct (decide (o = plen)) as [->|Hne].
  - rewrite !bool_decide_eq_true_2 by done. cbn [negb orb].
    exists (insertion (drop n new_slice)). split.
    + unfold insertion. destruct (decide (n = length new_slice)) as [En|En].
      * by rewrite bool_decide_eq_true_2, En, drop_all, app_nil_r by done.
      * rewrite (bool_decide_eq_false_2 _ En). cbn [negb]. rewrite usub_Ok, slice_Ok by lia. simpl. rewrite Nat.sub_diag.
        rewrite take_ge by (rewrite length_drop; lia). unfold is_empty.
        destruct (drop n new_slice) as [|x l] eqn:Ed; [|done].
        apply (f_equal length) in Ed. rewrite length_drop in Ed. simpl in Ed. lia.
    + exists []. split_and!; [done|simpl; lia|constructor|]. intros blk rest src Hblk Hrest.
      by rewrite drop_ge by lia.
  - rewrite !bool_decide_eq_false_2 by done. cbn [negb orb]. rewrite usub_Ok, slice_Ok by lia. simpl.
    eexists. split; [done|]. eexists. split; [by rewrite app_nil_r|]. split_and!.
    + simpl. unfold rep_start, rep_len. simpl. lia.
    + apply Forall_singleton. unfold rep_start. simpl. lia.
    + intros blk rest src Hblk Hrest. cbn [app rewrite_lines].
      unfold rep_start, rep_len, rep_seg. simpl.
      rewrite Nat.sub_diag. simpl.
      rewrite take_ge by (rewrite length_drop; lia). f_equal.
      replace (start + o + (plen - o)) with (start + plen) by lia. f_equal.
      rewrite drop_app_ge by (rewrite length_drop; lia).
      rewrite length_drop. replace (start + plen - (start + o) - (length blk - o)) with 0 by lia.
      done.
Qed.

Lemma emit_from_ok old new o n ix reps :
  context_from o n old new ix → new_slice `prefix_of` new → plen ≤ length old →
  o ≤ plen → n ≤ length new_slice →
  ∃ C, (emit_loop start plen new_slice o n ix reps ≫= emit_tail start plen new_slice)
       = Ok (reps ++ C) ∧ emits o C ix n.
Proof.
  intros Hctx Hnew Hold. revert o n reps Hctx.
  induction ix as [|[i j] ix IH]; intros o n reps Hctx Ho Hn.
  { by apply emit_tail_ok. }
  destruct Hctx as (Hoi & Hnj & (l & Hi & Hj) & Hctx). cbn [emit_loop].
  destruct (bool_decide (plen ≤ i) || bool_decide (length new_slice ≤ j)) eqn:Eb.
  { apply emit_tail_ok; [done..| |]; [intros blk|]; simpl; by rewrite Eb. }
  apply orb_false_iff in Eb as Eb'. destruct Eb' as [E1 E2].
  apply bool_decide_eq_false in E1, E2.
  (* the replacement before the context line, possibly empty *)
  set (R := if negb (bool_decide (o = i)) || negb (bool_decide (n = j))
            then [(start + o, i - o, take (j - n) (drop n new_slice))] else []).
  assert ((if negb (bool_decide (o = i)) || negb (bool_decide (n = j))
           then len ← usub i o; seg ← slice new_slice n j; Ok (reps ++ [(start + o, len, seg)])
           else Ok reps) = Ok (E:=ApplyPatchError) (reps ++ R)) as HR.
  { unfold R. destruct (negb (bool_decide (o = i)) || negb (bool_decide (n = j))); [|by rewrite app_nil_r]. by rewrite usub_Ok, slice_Ok by lia. }
  rewrite HR. cbn [mbind res_bind].
  destruct (IH (S i) (S j) (reps ++ R)) as (C & HC & D & -> & Hok & Hlt & Hrw); [done|lia..|].
  exists (R ++ D ++ insertion (inserted plen new_slice (S i) (S j) ix)). rewrite app_assoc. split; [exact HC|].
  assert (reps_ok (start + o) (start + i) R) as HRok.
  { unfold R. destruct (negb (bool_decide (o = i)) || negb (bool_decide (n = j))); simpl; unfold rep_start, rep_len; simpl; lia. }
  exists (R ++ D). split_and!.
  { cbn [inserted]. rewrite Eb. by rewrite app_assoc. }
  { eapply reps_ok_app; [done|]. eapply reps_ok_lower; [|done]. lia. }
  { apply Forall_app. split; [|done]. unfold R. case_match; [|constructor]. apply Forall_singleton.
    unfold rep_start. simpl. lia. }
  intros blk rest src Hblk Hrest. cbn [merge_body]. rewrite Eb, <-!app_assoc.
  specialize (Hrw blk rest src Hblk Hrest).
  (* the lines up to the context line *)
  assert (rewrite_lines (start + o) (drop o blk ++ src) (R ++ D ++ rest)
    = take (j - n) (drop n new_slice)
      ++ rewrite_lines (start + i) (drop i blk ++ src) (D ++ rest)) as ->.
  { unfold R. destruct (negb (bool_decide (o = i)) || negb (bool_decide (n = j))) eqn:Er.
    - cbn [app rewrite_lines]. unfold rep_start, rep_len, rep_seg. simpl.
      rewrite Nat.sub_diag. simpl. f_equal.
      replace (start + o + (i - o)) with (start + i) by lia. f_equal.
      replace (start + i - (start + o)) with (i - o) by lia.
      rewrite drop_app_le by (rewrite length_drop; lia).
      rewrite drop_drop. by replace (o + (i - o)) with i by lia.
    - apply orb_false_iff in Er as [Er1%negb_false_iff Er2%negb_false_iff].
      apply bool_decide_eq_true in Er1, Er2. subst. by rewrite Nat.sub_diag. }
  f_equal. rewrite (rewrite_lines_keep 1).
  - rewrite (take_app_le _ _ 1) by (rewrite length_drop; lia).
    rewrite drop_app_le by (rewrite length_drop; lia).
    rewrite drop_drop. rewrite !Nat.add_1_r, <-Nat.add_succ_r. by rewrite Hrw.
  - rewrite length_app, length_drop. lia.
  - apply Forall_app. split.
    + eapply Forall_impl; [by eapply reps_ok_starts|]. simpl. lia.
    + eapply Forall_impl; [done|]. simpl. lia.
Qed.

Lemma insertion_ok ins : reps_ok (start + plen) (start + plen) (insertion ins).
Proof. unfold insertion. case_match; simpl; unfold rep_start, rep_len; simpl; lia. Qed.
Lemma insertion_rewrite ins rest src :
  Forall (λ r, start + plen ≤ rep_start r) rest →
  rewrite_lines (start + plen) src (insertion ins ++ rest) = ins ++ rewrite_lines (start + plen) src rest.
Proof.
  intros Hrest. unfold insertion. destruct ins as [|l ins]; [done|]. cbn [is_empty app rewrite_lines].
  unfold rep_start, rep_len, rep_seg. simpl. by rewrite !Nat.add_0_r, Nat.sub_diag.
Qed.
Lemma emits_ok o C ix n : emits o C ix n → o ≤ plen → reps_ok (start + o) (start + plen) C.
Proof.
  intros (D & -> & Hok & _) Ho. eapply reps_ok_app; [exact Hok|apply insertion_ok].
Qed.
(** The replacements together, where the file goes on after the block. *)
Lemma emits_rewrite C ix blk rest src :
  emits 0 C ix 0 → length blk = plen → Forall (λ r, start + plen ≤ rep_start r) rest →
  rewrite_lines start (blk ++ src) (C ++ rest)
  = merge_from plen new_slice blk 0 0 ix ++ rewrite_lines (start + plen) src rest.
Proof.
  intros (D & -> & _ & _ & Hrw) Hblk Hrest. rewrite merge_split, <-!app_assoc, <-insertion_rewrite by done.
  rewrite <-Hrw; [by rewrite Nat.add_0_r, drop_0|done|]. apply Forall_app. split; [|done].
  eapply Forall_impl; [eapply reps_ok_starts, insertion_ok|]. simpl. lia.
Qed.
End emit.

(** ** Locating a chunk *)
Lemma level_normalise f a b : f ∈ levels → f a = f b → normalise a = normalise b.
Proof.
  unfold levels. rewrite !elem_of_cons, elem_of_nil. intros [->|[->|[->|[->|[]]]]] H; [|..|done].
  - by apply (f_equal normalise) in H.
  - unfold normalise, trim. by rewrite H.
  - unfold normalise. by rewrite H.
Qed.

Lemma matches_normalise f lines pattern i :
  f ∈ levels → matches_at f lines pattern i → matches_at normalise lines pattern i.
Proof.
  intros Hf [Hlen H]. split; [done|].
  rewrite list_eq_Forall2, Forall2_fmap in H |- *.
  eapply Forall2_impl; [exact H|]. intros a b. by apply level_normalise.
Qed.

Lemma search_start_ge lines pattern start eof : start ≤ search_start lines pattern start eof.
Proof. unfold search_start. case_match; lia. Qed.

(** What a successful search tells about the block it found. *)
Lemma seek_sequence_found {E} lines pattern start eof i :
  start ≤ length lines →
  @seek_sequence E lines pattern start eof = Ok (Some i) →
  start ≤ i ∧ i + length pattern ≤ length lines
  ∧ normalise <$> take (length pattern) (drop i lines) = normalise <$> pattern.
Proof.
  intros Hs Hseek. destruct (@seek_sequence_spec E lines pattern start eof) as (o & Ho & Hpost).
  rewrite Ho in Hseek. simplify_eq. destruct Hpost as [[-> ->]|(_ & k & f & Hf & Hge & Hm & _)].
  - simpl. split_and!; [lia..|done].
  - pose proof (search_start_ge lines pattern start eof).
    apply matches_normalise in Hm; [|by eapply list_elem_of_lookup_2].
    destruct Hm. split_and!; [lia|lia|done].
Qed.

Lemma seek_sequence_total {E} lines pattern start eof :
  ∃ o, @seek_sequence E lines pattern start eof = Ok o.
Proof. destruct (@seek_sequence_spec E lines pattern start eof) as (o & ? & _). eauto. Qed.

(** The sides of a chunk: as written, or without a final empty line. *)
Definition sides (c : UpdateFileChunk) (old new : list str) : Prop :=
  (old = old_lines c ∧ new = new_lines c)
  ∨ (last (old_lines c) = Some [] ∧ old = drop_trailing_empty (old_lines c)
     ∧ new = drop_trailing_empty (new_lines c)).

Lemma drop_trailing_prefix l : drop_trailing_empty l `prefix_of` l.
Proof. unfold drop_trailing_empty. case_match; [apply prefix_take|done]. Qed.

Lemma sides_prefix c old new :
  sides c old new → old `prefix_of` old_lines c ∧ new `prefix_of` new_lines c.
Proof. intros [[-> ->]|(_ & -> & ->)]; auto using drop_trailing_prefix. Qed.

Lemma locate_ok orig li c :
  li ≤ length orig →
  ∃ o old new, locate orig li c = Ok (o, old, new) ∧ sides c old new ∧
    ∀ i, o = Some i → li ≤ i ∧ i + length old ≤ length orig
      ∧ normalise <$> take (length old) (drop i orig) = normalise <$> old.
Proof.
  intros Hli. unfold locate.
  destruct (@seek_sequence_total ApplyPatchError orig (old_lines c) li (is_end_of_file c))
    as [o Ho]. rewrite Ho. simpl. destruct o as [i|].
  { eexists _, _, _. split; [done|]. split; [by left|]. intros ? [= <-].
    by eapply seek_sequence_found. }
  destruct (last (old_lines c)) as [[|]|] eqn:Hl; simpl;
    try (eexists _, _, _; split; [done|]; split; [by left|done]).
  destruct (@seek_sequence_total ApplyPatchError orig (drop_trailing_empty (old_lines c)) li
    (is_end_of_file c)) as [o' Ho']. rewrite Ho'. simpl.
  eexists _, _, _. split; [done|]. split; [by right|]. intros i ->.
  by eapply seek_sequence_found.
Qed.

Lemma seek_context_ok orig path li ctx :
  li ≤ length orig →
  seek_context orig path li ctx ≠ Panic ∧
  ∀ li', seek_context orig path li ctx = Ok li' →
    li ≤ li' ≤ length orig ∧
    (∀ c, ctx = Some c → ∃ k l, li ≤ k < li' ∧ orig !! k = Some l ∧ normalise l = normalise c).
Proof.
  intros Hli. unfold seek_context. destruct ctx as [c|]; [|split; [done|]; intros ? [= <-]; naive_solver].
  destruct (@seek_sequence_total ApplyPatchError orig [c] li false) as [o Ho].
  rewrite Ho. simpl. destruct o as [i|]; [|done]. split; [done|]. intros ? [= <-].
  apply seek_sequence_found in Ho as (? & Hlen & Heq); [|done]. simpl in Hlen.
  split; [lia|]. intros ? [= <-].
  destruct (lookup_lt_is_Some_2 orig i) as [l Hl]; [lia|].
  exists i, l. split; [lia|]. split; [done|].
  rewrite (drop_S _ _ _ Hl) in Heq. simpl in Heq. by simplify_eq.
Qed.

(** Every iteration keeps [emitted], and none panics. *)
Lemma emitted_chunk n reps li i plen C :
  emitted n reps li → li ≤ i → i + plen ≤ n → reps_ok i (i + plen) C →
  emitted n (reps ++ C) (i + plen).
Proof.
  intros (Hli & Hok & Hends) Hi Hn HC. split_and!; [lia| |].
  - rewrite filter_app. eapply reps_ok_app; [done|]. apply reps_ok_filter.
    by eapply reps_ok_lower.
  - apply Forall_app. split; [done|]. eapply Forall_impl; [by eapply reps_ok_ends|].
    simpl. lia.
Qed.

Lemma chunk_step_ok orig path reps li c :
  chunk_wf c → emitted (length orig) reps li →
  chunk_step orig path reps li c ≠ Panic ∧
  ∀ reps' li', chunk_step orig path reps li c = Ok (reps', li') →
    emitted (length orig) reps' li'.
Proof.
  intros Hwf Hem. pose proof Hem as (Hli & _). unfold chunk_step.
  destruct (seek_context_ok orig path li (change_context c) Hli) as [Hnp Hctx].
  destruct (seek_context _ _ _ _) as [li1|e|]; [|done..]. clear Hnp. simpl.
  destruct (Hctx li1 eq_refl) as [Hli1 _]. clear Hctx.
  destruct Hem as (_ & Hok & Hends).
  destruct (is_empty (old_lines c)).
  { split; [done|]. intros ? ? [= <- <-]. split_and!; [lia| |].
    - rewrite filter_app, filter_cons_False by (unfold rep_start; simpl; lia).
      rewrite filter_nil, app_nil_r. eapply reps_ok_weaken; [|done]. lia.
    - apply Forall_app. split; [done|]. apply Forall_singleton.
      unfold rep_start, rep_len. simpl. lia. }
  destruct (locate_ok orig li1 c) as (o & old & new & -> & Hsides & Hfound); [lia|].
  simpl. destruct o as [i|]; [|done].
  destruct (Hfound i eq_refl) as (Hi & Hlen & _).
  destruct (sides_prefix _ _ _ Hsides) as [Hpo Hpn].
  destruct (emit_from_ok i (length old) new (old_lines c) (new_lines c) 0 0
    (context_line_indices c) reps) as (C & HC & HCok);
    [done|done|by apply prefix_length|lia..|]. apply emits_ok in HCok; [|lia].
  unfold emit. rewrite HC. simpl. split; [done|]. intros ? ? [= <- <-].
  rewrite Nat.add_0_r in HCok. apply (emitted_chunk _ _ li); [|lia..|done].
  done.
Qed.

Lemma chunks_loop_ok orig path chunks reps li :
  Forall chunk_wf chunks → emitted (length orig) reps li →
  chunks_loop orig path reps li chunks ≠ Panic ∧
  ∀ reps', chunks_loop orig path reps li chunks = Ok reps' →
    ∃ li', emitted (length orig) reps' li'.
Proof.
  intros Hwf. revert reps li; induction Hwf as [|c chunks Hc _ IH]; intros reps li Hem; simpl.
  { split; [done|]. intros ? [= <-]. eauto. }
  destruct (chunk_step_ok orig path reps li c Hc Hem) as [Hnp Hstep].
  destruct (chunk_step _ _ _ _ _) as [[reps1 li1]|e|]; [|done..]. simpl.
  apply IH. by apply Hstep.
Qed.

Lemma compute_replacements_ok orig path chunks :
  Forall chunk_wf chunks →
  compute_replacements orig path chunks ≠ Panic ∧
  ∀ reps, compute_replacements orig path chunks = Ok reps → reps_ok 0 (length orig) reps.
Proof.
  intros Hwf. unfold compute_replacements.
  destruct (chunks_loop_ok orig path chunks [] 0 Hwf) as [Hnp Hok];
    [split_and!; simpl; [lia|lia|done]|].
  destruct (chunks_loop _ _ _ _ _) as [reps|e|]; [|done..]. simpl. split; [done|].
  intros ? [= <-]. destruct (Hok reps eq_refl) as [li ?]. by eapply emitted_sorted.
Qed.

Lemma new_contents_no_panic contents path chunks :
  Forall chunk_wf chunks → new_contents_from_chunks contents path chunks ≠ Panic.
Proof.
  intros Hwf. unfold new_contents_from_chunks.
  destruct (compute_replacements_ok (line_texts (parse contents)) path chunks Hwf) as [Hnp Hok].
  destruct (compute_replacements _ _ _) as [reps|e|]; [|done..]. simpl.
  rewrite apply_replacements_splice; [done|].
  specialize (Hok reps eq_refl). unfold line_texts in Hok. by rewrite length_fmap in Hok.
Qed.

(** ** What an update does to the lines

    [patched ls late chunks out]: going through [ls] once, each chunk with old
    lines finds a block that reads like its old side (after its context line, if
    it names one), and the block becomes the chunk's new side with the context
    lines as they are in the file.  A chunk without old lines adds its lines to
    [late], which follows the last line of the file; so do the lines that a chunk
    inserts after a block that ends the file. *)
Definition after_context (c : UpdateFileChunk) (pre : list str) : Prop :=
  ∀ ctx, change_context c = Some ctx → ∃ l, l ∈ pre ∧ normalise l = normalise ctx.
Inductive patched : list str → list str → list UpdateFileChunk → list str → Prop :=
  | patched_nil ls late : patched ls late [] (ls ++ late)
  | patched_chunk pre blk post late c cs old new out :
      old_lines c ≠ [] → sides c old new → normalise <$> blk = normalise <$> old →
      after_context c pre → post ≠ [] → patched post late cs out →
      patched (pre ++ blk ++ post) late (c :: cs)
        (pre ++ merge_from (length old) new blk 0 0 (context_line_indices c) ++ out)
  | patched_last pre blk late c cs old new out :
      old_lines c ≠ [] → sides c old new → normalise <$> blk = normalise <$> old → after_context c pre →
      patched [] (late ++ inserted (length old) new 0 0 (context_line_indices c)) cs out →
      patched (pre ++ blk) late (c :: cs)
        (pre ++ merge_body (length old) new blk 0 0 (context_line_indices c) ++ out)
  | patched_addition pre post late c cs out :
      old_lines c = [] → after_context c pre → patched post (late ++ new_lines c) cs out →
      patched (pre ++ post) late (c :: cs) (pre ++ out).

(** The replacements before the end of the file, and the lines put at its end. *)
Definition inner (n : nat) (C : list Replacement) : list Replacement := filter (λ r, rep_start r < n) C.
Definition final (n : nat) (C : list Replacement) : list str :=
  concat (rep_seg <$> filter (λ r, rep_start r = n) C).
Lemma inner_app n C D : inner n (C ++ D) = inner n C ++ inner n D.
Proof. apply filter_app. Qed.
Lemma final_app n C D : final n (C ++ D) = final n C ++ final n D.
Proof. unfold final. by rewrite filter_app, fmap_app, concat_app. Qed.
Lemma inner_below n C : Forall (λ r, rep_start r < n) C → inner n C = C ∧ final n C = [].
Proof.
  unfold inner, final. induction 1 as [|r C Hr _ [IH1 IH2]]; [done|].
  rewrite !filter_cons, decide_True, decide_False, IH1 by lia. done.
Qed.
Lemma inner_insertion n k ins :
  inner n (insertion n 0 ins) = [] ∧ final n (insertion n 0 ins) = ins ∧
  (k < n → inner n (insertion k 0 ins) = insertion k 0 ins ∧ final n (insertion k 0 ins) = []).
Proof.
  unfold insertion. destruct ins as [|l ins]; cbn [is_empty]; [done|]. split_and!.
  - unfold inner. rewrite filter_cons_False; [done|]. unfold rep_start. simpl. lia.
  - unfold final. rewrite filter_cons_True; [|unfold rep_start; simpl; lia]. simpl. by rewrite app_nil_r.
  - intros Hk. apply inner_below, Forall_singleton. unfold rep_start. simpl. lia.
Qed.

(** A stretch of unchanged lines before the next replacement. *)
Lemma rewrite_inner_keep orig n li li1 C :
  n = length orig → li ≤ li1 ≤ n → reps_ok li1 n (inner n C) →
  rewrite_lines li (drop li orig) (inner n C)
  = take (li1 - li) (drop li orig) ++ rewrite_lines li1 (drop li1 orig) (inner n C).
Proof.
  intros -> Hli Hok. rewrite (rewrite_lines_keep (li1 - li)).
  - rewrite drop_drop. by replace (li + (li1 - li)) with li1 by lia.
  - rewrite length_drop. lia.
  - eapply Forall_impl; [by eapply reps_ok_starts|]. simpl. lia.
Qed.

Definition loop_patches (orig : list str) (li : nat) (chunks : list UpdateFileChunk) (C : list Replacement) : Prop :=
  let n := length orig in
  reps_ok li n (inner n C) ∧ Forall (λ r, rep_start r = n → rep_len r = 0) C ∧ Forall (λ r, rep_start r ≤ n) C
  ∧ ∀ late, patched (drop li orig) late chunks
              (rewrite_lines li (drop li orig) (inner n C) ++ late ++ final n C).

(** A chunk without old lines. *)
Lemma addition_patches orig li li1 c chunks C :
  old_lines c = [] → li ≤ li1 ≤ length orig → after_context c (take (li1 - li) (drop li orig)) →
  loop_patches orig li1 chunks C → loop_patches orig li (c :: chunks) ((length orig, 0, new_lines c) :: C).
Proof.
  intros Hold Hli Hctx (Hok & Hlen & Hle & Hp). unfold loop_patches.
  change ((length orig, 0, new_lines c) :: C) with ([(length orig, 0, new_lines c)] ++ C).
  assert (inner (length orig) [(length orig, 0, new_lines c)] = []) as Hi.
  { unfold inner. rewrite filter_cons_False; [done|]. unfold rep_start. simpl. lia. }
  assert (final (length orig) [(length orig, 0, new_lines c)] = new_lines c) as Hf.
  { unfold final. rewrite filter_cons_True by done. simpl. by rewrite app_nil_r. }
  rewrite inner_app, final_app, Hi, Hf. cbn [app]. split_and!.
  - eapply reps_ok_lower; [|done]. lia.
  - constructor; [done|exact Hlen].
  - constructor; [done|exact Hle].
  - intros late. rewrite (rewrite_inner_keep orig _ li li1) by done. rewrite <-app_assoc.
    assert (drop li orig = take (li1 - li) (drop li orig) ++ drop li1 orig) as Hsplit.
    { rewrite <-(take_drop (li1 - li) (drop li orig)) at 1. rewrite drop_drop.
      by replace (li + (li1 - li)) with li1 by lia. }
    rewrite Hsplit at 1. apply patched_addition; [done|done|]. specialize (Hp (late ++ new_lines c)).
    by rewrite <-app_assoc in Hp.
Qed.

(** A chunk whose block is found at [i]. *)
Lemma block_patches orig li i c chunks old new C1 C2 :
  old_lines c ≠ [] → sides c old new → li ≤ i → i + length old ≤ length orig →
  normalise <$> take (length old) (drop i orig) = normalise <$> old →
  after_context c (take (i - li) (drop li orig)) →
  emits i (length old) new 0 C1 (context_line_indices c) 0 →
  loop_patches orig (i + length old) chunks C2 → loop_patches orig li (c :: chunks) (C1 ++ C2).
Proof.
  intros Hold Hsides Hi Hlen Hnorm Hctx Hem (Hok & Hlen2 & Hle2 & Hp). set (n := length orig) in *.
  pose proof (emits_ok _ _ _ _ _ _ _ Hem ltac:(lia)) as HC1. rewrite Nat.add_0_r in HC1.
  set (pre := take (i - li) (drop li orig)) in *. set (blk := take (length old) (drop i orig)) in *.
  set (post := drop (i + length old) orig) in *.
  assert (drop i orig = blk ++ post) as Hi_split by (unfold blk, post; by rewrite <-drop_drop, take_drop).
  assert (drop li orig = pre ++ drop i orig) as Hli_split.
  { unfold pre. replace i with (li + (i - li)) at 2 by lia. by rewrite <-drop_drop, take_drop. }
  assert (length blk = length old) as Hblk by (unfold blk; rewrite length_take, length_drop; lia).
  assert (Forall (λ r, rep_start r + rep_len r ≤ i + length old) C1) as Hends by by eapply reps_ok_ends.
  assert (reps_ok li n (inner n (C1 ++ C2))) as Hok12.
  { rewrite inner_app. eapply reps_ok_app; [|exact Hok]. apply reps_ok_filter. eapply reps_ok_lower; [|exact HC1]. lia. }
  unfold loop_patches. fold n. split_and!; [done|..].
  - apply Forall_app. split; [|done]. eapply Forall_impl; [exact Hends|]. simpl. lia.
  - apply Forall_app. split; [|done]. eapply Forall_impl; [exact Hends|]. simpl. lia.
  - intros late. rewrite (rewrite_inner_keep orig n li i); [|done|lia|].
    2:{ rewrite inner_app. eapply reps_ok_app; [|exact Hok]. by apply reps_ok_filter. }
    fold pre. rewrite Hli_split at 1. rewrite <-app_assoc, inner_app, final_app, Hi_split.
    destruct (decide (i + length old < n)) as [Hlt|Hge].
    + destruct (inner_below n C1) as [-> ->].
      { eapply Forall_impl; [exact Hends|]. simpl. lia. }
      rewrite (emits_rewrite i (length old) new C1 (context_line_indices c) blk); [|done|done|by eapply reps_ok_starts].
      rewrite <-app_assoc. cbn [app]. eapply patched_chunk; [done|exact Hsides|done|done| |apply Hp].
      unfold post. intros E%(f_equal length). rewrite length_drop in E. simpl in E. lia.
    + assert (i + length old = n) as En by lia.
      assert (post = []) as Epost by (unfold post; rewrite drop_ge; [done|unfold n in *; lia]).
      assert (inner n C2 = []) as E2.
      { destruct (inner n C2) as [|r C'] eqn:E; [done|]. assert (r ∈ inner n C2) as Hr by (rewrite E; left).
        apply list_elem_of_filter in Hr as [Hr _]. destruct Hok as [? _]. lia. }
      destruct Hem as (D & -> & _ & HD & Hrw). rewrite !inner_app, !final_app.
      replace (insertion i (length old)) with (insertion n 0) by (unfold insertion; by rewrite Nat.add_0_r, En).
      destruct (inner_insertion n 0 (inserted (length old) new 0 0 (context_line_indices c))) as (-> & -> & _).
      destruct (inner_below n D) as [-> ->].
      { eapply Forall_impl; [exact HD|]. simpl. lia. }
      specialize (Hrw blk [] [] Hblk ltac:(constructor)). rewrite Nat.add_0_r, drop_0 in Hrw.
      cbn [rewrite_lines] in Hrw. rewrite !app_nil_r in Hrw. rewrite Epost, E2, !app_nil_r, Hrw. cbn [app].
      eapply patched_last; [done|exact Hsides|done|done|].
      specialize (Hp (late ++ inserted (length old) new 0 0 (context_line_indices c))).
      rewrite Epost, E2 in Hp. cbn [rewrite_lines app] in Hp. by rewrite <-app_assoc in Hp.
Qed.

Lemma chunks_loop_patched orig path chunks reps li reps' :
  Forall chunk_wf chunks → li ≤ length orig →
  chunks_loop orig path reps li chunks = Ok reps' →
  ∃ C, reps' = reps ++ C ∧ loop_patches orig li chunks C.
Proof.
  intros Hwf. revert reps li; induction Hwf as [|c chunks Hc _ IH]; intros reps li Hli Hrun; cbn [chunks_loop] in Hrun.
  { simplify_eq. exists []. rewrite app_nil_r. split; [done|]. split_and!; [done|constructor|constructor|].
    intros late. cbn. rewrite app_nil_r. constructor. }
  unfold chunk_step in Hrun. destruct (seek_context_ok orig path li (change_context c) Hli) as [_ Hctx].
  destruct (seek_context _ _ _ _) as [li1|e|]; [|done..]. cbn [mbind res_bind] in Hrun.
  destruct (Hctx li1 eq_refl) as [Hli1 Hseen]. clear Hctx.
  assert (∀ i, li1 ≤ i → i ≤ length orig → after_context c (take (i - li) (drop li orig))) as Hafter.
  { intros i Hi Hn ctx Hctx. destruct (Hseen ctx Hctx) as (k & l & Hk & Hl & Hnl). exists l. split; [|done].
    apply list_elem_of_lookup. exists (k - li). rewrite lookup_take_lt, lookup_drop by lia.
    by replace (li + (k - li)) with k by lia. }
  destruct (is_empty (old_lines c)) eqn:Hold.
  { cbn [mbind res_bind] in Hrun. apply IH in Hrun as (C & -> & HC); [|lia]. exists ((length orig, 0, new_lines c) :: C).
    rewrite <-app_assoc. split; [done|]. eapply addition_patches; [by destruct (old_lines c)|exact Hli1|apply Hafter; lia|done]. }
  apply is_empty_false in Hold.
  destruct (locate_ok orig li1 c) as (o & old & new & Hloc & Hsides & Hfound); [lia|].
  rewrite Hloc in Hrun. cbn [mbind res_bind] in Hrun. destruct o as [i|]; [|done].
  destruct (Hfound i eq_refl) as (Hi & Hlen & Hnorm).
  destruct (sides_prefix _ _ _ Hsides) as [Hpo Hpn].
  destruct (emit_from_ok i (length old) new (old_lines c) (new_lines c) 0 0
    (context_line_indices c) reps) as (C1 & HC1 & Hem);
    [done|done|by apply prefix_length|lia..|].
  unfold emit in Hrun. rewrite HC1 in Hrun. cbn [mbind res_bind] in Hrun.
  apply IH in Hrun as (C2 & -> & HC2); [|lia]. exists (C1 ++ C2). rewrite app_assoc. split; [done|].
  apply (block_patches orig li i c chunks old new); try done; [lia|apply Hafter; lia].
Qed.

(** Texts after the replacements. *)
Lemma replace_loop_texts {E} pref src pos acc reps :
  reps_ok pos (pos + length src) reps →
  ∃ ls, @replace_loop E pref src pos acc reps = Ok ls ∧
    text <$> ls = (text <$> acc) ++ rewrite_lines pos (text <$> src) reps.
Proof.
  revert src pos acc; induction reps as [|[[s o] seg] reps IH]; intros src pos acc Hok;
    cbn [replace_loop].
  { eexists. split; [done|]. by rewrite fmap_app. }
  destruct Hok as [Hs Hok]. unfold rep_start, rep_len in Hs, Hok. simpl in Hs, Hok.
  pose proof (reps_ok_le _ _ _ Hok). rewrite usub_Ok by lia. cbn [mbind res_bind].
  destruct (IH (drop o (drop (s - pos) src)) (s + o) (acc ++ take (s - pos) src
    ++ ((λ t, {| text := t; ending := Some pref |}) <$> seg))) as (ls & Hls & Htexts).
  { rewrite !length_drop.
    by replace (s + o + (length src - (s - pos) - o)) with (pos + length src) by lia. }
  exists ls. split; [done|]. rewrite Htexts, !fmap_app, <-!app_assoc. f_equal.
  cbn [rewrite_lines]. unfold rep_start, rep_len, rep_seg. simpl.
  rewrite fmap_take, !fmap_drop, drop_drop. f_equal. f_equal.
  - rewrite <-list_fmap_compose. by apply list_fmap_id.
  - by replace (s - pos + o) with (s + o - pos) by lia.
Qed.

(** Sorting puts the insertions at the end of the file behind all others. *)
Lemma rewrite_sorted (ls : list str) C :
  let n := length ls in
  reps_ok 0 n (inner n C) → Forall (λ r, rep_start r = n → rep_len r = 0) C → Forall (λ r, rep_start r ≤ n) C →
  reps_ok 0 n (sort_by_start C) ∧ rewrite_lines 0 ls (sort_by_start C) = rewrite_lines 0 ls (inner n C) ++ final n C.
Proof.
  cbv zeta. set (n := length ls). intros Hok Hlen Hle.
  rewrite (sort_by_start_split n) by (done || by eapply reps_ok_sorted). fold (inner n C).
  assert (∀ D, Forall (λ r, rep_start r = n → rep_len r = 0) D → Forall (λ r, rep_start r = n) D →
    reps_ok n n D ∧ ∀ src, length src = 0 → rewrite_lines n src D = concat (rep_seg <$> D)) as Hend.
  { clear. intros D Hl Hs. induction D as [|r D IH]; [by split; [simpl; lia|intros [] ?]|].
    apply Forall_cons in Hl as [Hl1 Hl], Hs as [Hs1 Hs]. destruct (IH Hl Hs) as [IH1 IH2]. specialize (Hl1 Hs1). split.
    - simpl. split; [lia|]. by rewrite Hs1, Hl1, Nat.add_0_r.
    - intros [|x src] Hsrc; [|done]. cbn [rewrite_lines fmap list_fmap concat]. rewrite take_nil, drop_nil, Hs1, Hl1, Nat.add_0_r.
      cbn [app]. by rewrite (IH2 []). }
  destruct (Hend (filter (λ r, rep_start r = n) C)) as [Hfok Hfrw].
  { apply Forall_forall. intros r [_ Hr]%list_elem_of_filter. rewrite Forall_forall in Hlen. by apply Hlen. }
  { apply Forall_forall. by intros r [Hr _]%list_elem_of_filter. }
  split; [by eapply reps_ok_app|]. unfold final. fold n in Hfrw.
  assert (∀ D pos src rest, reps_ok pos (pos + length src) D → Forall (λ r, pos + length src ≤ rep_start r) rest →
    rewrite_lines pos src (D ++ rest) = rewrite_lines pos src D ++ rewrite_lines (pos + length src) [] rest) as Happ.
  { clear. intros D. induction D as [|r D IH]; intros pos src rest Hok Hr.
    - cbn [app rewrite_lines]. rewrite (rewrite_lines_keep (length src)) by done. by rewrite firstn_all, drop_all.
    - destruct Hok as [Hr1 Hok]. pose proof (reps_ok_le _ _ _ Hok). cbn [app rewrite_lines].
      rewrite IH, !app_assoc; rewrite length_drop;
        replace (rep_start r + rep_len r + (length src - (rep_start r + rep_len r - pos))) with (pos + length src) by lia; done. }
  rewrite (Happ _ 0 ls); [by rewrite Hfrw|done|]. apply Forall_forall. intros r [Hr _]%list_elem_of_filter. simpl. lia.
Qed.

Lemma new_contents_patched contents path chunks out :
  Forall chunk_wf chunks → new_contents_from_chunks contents path chunks = Ok out →
  ∃ f, out = into_contents f ∧ patched (line_texts (parse contents)) [] chunks (line_texts f)
    ∧ Forall (λ l, is_Some (ending l)) (file_lines f).
Proof.
  intros Hwf. unfold new_contents_from_chunks, compute_replacements.
  destruct (chunks_loop _ _ _ _ _) as [reps|e|] eqn:E; [|done..]. simpl.
  apply chunks_loop_patched in E as (C & -> & Hok & Hlen & Hle & Hp); [|done|lia]. simpl.
  destruct (rewrite_sorted (line_texts (parse contents)) C) as [Hsok Hsrw]; [done..|].
  specialize (Hp []). rewrite drop_0 in Hp. cbn [app] in Hp. rewrite <-Hsrw in Hp. unfold apply_replacements.
  destruct (@replace_loop_texts ApplyPatchError (preferred_ending (parse contents))
    (file_lines (parse contents)) 0 [] (sort_by_start C)) as (ls & -> & Htexts).
  { unfold line_texts in Hsok. by rewrite length_fmap in Hsok. }
  simpl. intros [= <-]. eexists. split; [reflexivity|]. split.
  - unfold line_texts at 2. simpl. rewrite <-list_fmap_compose.
    simpl in Htexts. unfold line_texts in *. rewrite <-Htexts in Hp. done.
  - apply Forall_fmap. apply Forall_true. intros l. simpl. eauto.
Qed.

(** If the file's block is the old side itself, the merged block is the new
    side. *)
Lemma merge_exact_from old new o n ix :
  context_from o n old new ix → n ≤ length new →
  merge_from (length old) new old o n ix = drop n new.
Proof.
  revert o n; induction ix as [|[i j] ix IH]; intros o n Hctx Hn; simpl; [done|].
  destruct Hctx as (Hoi & Hnj & (l & Hi & Hj) & Hctx).
  pose proof (lookup_lt_Some _ _ _ Hi). pose proof (lookup_lt_Some _ _ _ Hj).
  rewrite !bool_decide_eq_false_2 by lia. simpl. rewrite IH by (done || lia).
  rewrite (drop_S _ _ _ Hi). simpl. rewrite <-(drop_S _ _ _ Hj).
  replace j with (n + (j - n)) at 2 by lia. by rewrite <-drop_drop, take_drop.
Qed.

(** ** The properties *)

(** For chunks as the parser builds them, [compute_replacements] never panics
    and the replacements it returns are sorted, pairwise disjoint and within the
    file, which is what [apply_replacements] needs. *)
Theorem compute_replacements_sorted_disjoint orig path chunks :
  Forall chunk_wf chunks →
  compute_replacements orig path chunks ≠ Panic ∧
  ∀ reps, compute_replacements orig path chunks = Ok reps → reps_ok 0 (length orig) reps.
Proof. apply compute_replacements_ok. Qed.

(** C7: what a successful update does to a file: walking the original lines once,
    every chunk with old lines finds, in order, a block that reads like its old side
    (up to the tolerated differences, and after its context line if it names one);
    the block becomes the new side with its context lines kept as the file has them.
    The lines of a chunk without old lines go behind the last line of the file, in
    the order of the chunks, and so do the lines that a chunk inserts after a block
    at the end of the file.  All else is unchanged, and every line of the result is
    terminated.  Chunks are as the parser builds them. *)
Theorem update_rewrites_blocks_in_order contents path chunks out :
  Forall chunk_wf chunks → new_contents_from_chunks contents path chunks = Ok out →
  ∃ f, out = into_contents f ∧ patched (line_texts (parse contents)) [] chunks (line_texts f)
    ∧ Forall (λ l, is_Some (ending l)) (file_lines f).
Proof. apply new_contents_patched. Qed.

(** When the block the file has is the chunk's old side itself, the merged
    block is exactly the chunk's new side. *)
Theorem exact_block_becomes_new_side c :
  chunk_wf c →
  merge_from (length (old_lines c)) (new_lines c) (old_lines c) 0 0 (context_line_indices c)
  = new_lines c.
Proof. intros H. apply (merge_exact_from _ _ 0 0 _ H). lia. Qed.

(** ** Witnesses *)
Definition sample_chunk : UpdateFileChunk :=
  {| change_context := Some (lit "head"); old_lines := [lit "x"; lit "y"];
     new_lines := [lit "x"; lit "z"; lit "w"]; context_line_indices := [(0, 0)];
     is_end_of_file := false |}.
Definition sample_text : str := join [LF] [lit "head"; lit "x  "; lit "y"; lit "end"].

Lemma sample_chunk_wf : Forall chunk_wf [sample_chunk].
Proof. repeat constructor. eexists. by vm_compute. Qed.

Lemma compute_replacements_witness :
  compute_replacements (line_texts (parse sample_text)) (lit "f") [sample_chunk]
    = Ok [(2, 1, [lit "z"; lit "w"])]
  ∧ reps_ok 0 (length (line_texts (parse sample_text))) [(2, 1, [lit "z"; lit "w"])].
Proof.
  assert (compute_replacements (line_texts (parse sample_text)) (lit "f") [sample_chunk]
    = Ok [(2, 1, [lit "z"; lit "w"])]) as E by (vm_compute; reflexivity).
  split; [exact E|].
  apply (compute_replacements_sorted_disjoint _ (lit "f") [sample_chunk] sample_chunk_wf). exact E.
Defined.

Definition addition_chunk : UpdateFileChunk :=
  {| change_context := None; old_lines := []; new_lines := [lit "last"]; context_line_indices := [];
     is_end_of_file := false |}.
Lemma update_rewrites_witness :
  ∃ f, join [LF] [lit "head"; lit "x  "; lit "z"; lit "w"; lit "end"; lit "last"] ++ [LF] = into_contents f
    ∧ patched (line_texts (parse sample_text)) [] [addition_chunk; sample_chunk] (line_texts f)
    ∧ Forall (λ l, is_Some (ending l)) (file_lines f).
Proof.
  apply (update_rewrites_blocks_in_order sample_text (lit "f") [addition_chunk; sample_chunk]);
    [constructor; [exact I|exact sample_chunk_wf]|vm_compute; reflexivity].
Defined.

Lemma exact_block_witness :
  merge_from 2 [lit "x"; lit "z"; lit "w"] [lit "x"; lit "y"] 0 0 [(0, 0)]
  = [lit "x"; lit "z"; lit "w"].
Proof.
  apply (exact_block_becomes_new_side sample_chunk). repeat constructor. eexists. by vm_compute.
Defined.
