(* ===== verification/PatchApply.v ===== *)
(** * apply-patch: applying hunks to a file system

    [apply_hunks_to_files] and its callers of [apply-patch/src/lib.rs], over an
    abstract [ExecutorFileSystem].  The program's state is the file system's
    world and the [AppliedPatchDelta] it fills; an error leaves both as they
    were when it happened. *)
From stdpp Require Import gmap.
From S2P Require Import Prelude Str PatchSyntax PatchParser FileUpdate.

(** ** The interfaces *)

Record FileMetadata := { is_directory : bool; is_file : bool; is_symlink : bool }.

(** [RemoveOptions]; the other option structs hold [follow_symlinks] alone, or
    with [recursive]. *)
Record RemoveOptions := { recursive : bool; force : bool; remove_follow : bool }.
Record CreateDirectoryOptions := { mkdir_recursive : bool; mkdir_follow : bool }.

(** [io::Result<A>]. *)
Abbreviation io A := (io_error + A)%type.

(** The operations of [ExecutorFileSystem] (with the sandbox context fixed) that
    a patch uses; each one may change the world [W]. *)
Class FileSystem (W P : Type) := {
  read_file_text : bool → P → W → io str * W;
  get_metadata : bool → P → W → io FileMetadata * W;
  write_file : bool → P → str → W → io unit * W;
  remove : RemoveOptions → P → W → io unit * W;
  create_directory : CreateDirectoryOptions → P → W → io unit * W;
}.

(** The operations of [PathUri] that a patch uses. *)
Class PathUri (P : Type) := {
  path_join : P → str → str + P;
  path_parent : P → option P;
  inferred_native_path_string : P → str;
}.

(** ** Data *)

(** [AppliedPatchFileChange]. *)
Inductive AppliedPatchFileChange (P : Type) :=
  | Added (content : str) (overwritten_content : option str)
  | Deleted (content : str)
  | Updated (move_path : option P) (old_content : str)
      (overwritten_move_content : option str) (new_content : str).
Arguments Added {P}.
Arguments Deleted {P}.
Arguments Updated {P}.

Record AppliedPatchChange (P : Type) :=
  { change_path : P; change : AppliedPatchFileChange P }.
Arguments change_path {P}.
Arguments change {P}.

Record AppliedPatchDelta (P : Type) :=
  { delta_changes : list (AppliedPatchChange P); exact : bool }.
Arguments delta_changes {P}.
Arguments exact {P}.

Definition empty_delta {P} : AppliedPatchDelta P := {| delta_changes := []; exact := true |}.

(** [AppliedPatchDelta::append]. *)
Definition delta_append {P} (d other : AppliedPatchDelta P) : AppliedPatchDelta P :=
  {| delta_changes := delta_changes d ++ delta_changes other;
     exact := exact d && exact other |}.

Record AffectedPaths := { added : list str; modified : list str; deleted : list str }.

Record AppliedPatch := { original_contents : str; new_contents : str }.

(** [anyhow::Error] as this module builds it: a message, an I/O error under the
    contexts attached to it (the outermost first), or another error. *)
Inductive anyhow :=
  | AnyMessage (m : str)
  | AnyIo (contexts : list str) (e : io_error)
  | AnyPatch (e : ApplyPatchError)
  | AnyPathUri (m : str).

(** [ParseError::to_string], [ApplyPatchError::to_string], [anyhow::Error::to_string]. *)
Definition show_parse_error (e : ParseError) : str :=
  match e with
  | InvalidPatchError m => lit "invalid patch: " ++ m
  | InvalidHunkError m n => lit "invalid hunk at line " ++ show_nat n ++ lit ", " ++ m
  end.
Definition show_patch_error (e : ApplyPatchError) : str :=
  match e with
  | PatchParseError e => show_parse_error e
  | IoError context source => context ++ lit ": " ++ io_message source
  | ComputeReplacements m => m
  | PathUriError m => m
  | ImplicitInvocation => lit "patch detected without explicit call to apply_patch. Rerun as [" ++ [34%N] ++ lit "apply_patch" ++ [34%N] ++ lit ", " ++ [34%N] ++ lit "<patch>" ++ [34%N] ++ lit "]"
  end.
Definition show_anyhow (e : anyhow) : str :=
  match e with
  | AnyMessage m => m
  | AnyIo (c :: _) _ => c
  | AnyIo [] e => io_message e
  | AnyPatch e => show_patch_error e
  | AnyPathUri m => m
  end.

(** ** The monad: state, error and panic *)
Section monad.
Context {St : Type}.
Definition M (A : Type) : Type := St → res anyhow A * St.

#[global] Instance M_ret : MRet M := λ A a s, (Ok a, s).
#[global] Instance M_bind : MBind M := λ A B f m s,
  match m s with
  | (Ok a, s) => f a s
  | (Err e, s) => (Err e, s)
  | (Panic, s) => (Panic, s)
  end.

Definition fail {A} (e : anyhow) : M A := λ s, (Err e, s).
(** [r?], the error already converted. *)
Definition lift {A} (r : res anyhow A) : M A := λ s, (r, s).
Definition modify (f : St → St) : M unit := λ s, (Ok tt, f s).
End monad.
Arguments M St A : clear implicits.

Section apply.
Context {W P : Type} {FS : FileSystem W P} {PU : PathUri P}.
Context (follow_symlinks : bool) (cwd : P).

Definition PatchState : Type := W * AppliedPatchDelta P.

(** One call of the file system. *)
Definition call {A} (op : W → A * W) : M PatchState A := λ s,
  let '(a, w) := op s.1 in (Ok a, (w, s.2)).

(** [delta.exact &= b], [delta.changes.push(c)], [delta.changes[i] = c]. *)
Definition and_exact (b : bool) : M PatchState unit := modify (λ s,
  (s.1, {| delta_changes := delta_changes s.2; exact := exact s.2 && b |})).
Definition push_change (c : AppliedPatchChange P) : M PatchState unit := modify (λ s,
  (s.1, {| delta_changes := delta_changes s.2 ++ [c]; exact := exact s.2 |})).
Definition set_change (i : nat) (c : AppliedPatchChange P) : M PatchState unit := λ s,
  if decide (i < length (delta_changes s.2)) then
    (Ok tt, (s.1, {| delta_changes := <[i := c]> (delta_changes s.2); exact := exact s.2 |}))
  else (Panic, s).

(** [with_context(|| format!("{prefix} {path}"))?] on an I/O result. *)
Definition or_context {A} (prefix : str) (path : P) (r : io A) : M PatchState A :=
  match r with
  | inr a => mret a
  | inl e => fail (AnyIo [prefix ++ lit " " ++ inferred_native_path_string path] e)
  end.

Definition ensure_not_directory (path : P) : M PatchState (io unit) :=
  meta ← call (get_metadata follow_symlinks path);
  mret (match meta with
        | inl e => inl e
        | inr metadata =>
            if is_directory metadata
            then inl {| kind := InvalidInput; io_message := lit "path is a directory" |}
            else inr tt
        end).

Definition remove_failure_was_side_effect_free (path : P) (expected : option str) : M PatchState bool :=
  match expected with
  | Some expected =>
      r ← call (read_file_text follow_symlinks path);
      mret (match r with inr content => bool_decide (content = expected) | inl _ => false end)
  | None => mret false
  end.

Definition note_existing_path_delta_support (path : P) : M PatchState unit :=
  meta ← call (get_metadata follow_symlinks path);
  match meta with
  | inr metadata =>
      if is_file metadata && negb (is_symlink metadata) then mret tt else and_exact false
  | inl e => match kind e with NotFound => mret tt | _ => and_exact false end
  end.

Definition read_optional_file_text_for_delta (path : P) : M PatchState (option str) :=
  note_existing_path_delta_support path;;
  r ← call (read_file_text follow_symlinks path);
  match r with
  | inr content => mret (Some content)
  | inl e => match kind e with
             | NotFound => mret None
             | _ => and_exact false;; mret None
             end
  end.

(** [write_file_with_missing_parent_retry]: the error, if any, as a value. *)
Definition write_file_with_missing_parent_retry (path : P) (contents : str)
    : M PatchState (anyhow + unit) :=
  let name := inferred_native_path_string path in
  let retry :=
    r ← call (write_file follow_symlinks path contents);
    mret (match r with
          | inr _ => inr tt
          | inl e => inl (AnyIo [lit "Failed to write file " ++ name] e)
          end) in
  r ← call (write_file follow_symlinks path contents);
  match r with
  | inr _ => mret (inr tt)
  | inl err =>
      match kind err with
      | NotFound =>
          match path_parent path with
          | Some parent =>
              r ← call (create_directory
                    {| mkdir_recursive := true; mkdir_follow := follow_symlinks |} parent);
              match r with
              | inl e => mret (inl (AnyIo
                  [lit "Failed to create parent directories for " ++ name] e))
              | inr _ => retry
              end
          | None => retry
          end
      | _ => mret (inl (AnyIo [lit "Failed to write file " ++ name] err))
      end
  end.

(** The macro [try_write!]. *)
Definition try_write {A} (m : M PatchState (anyhow + A)) : M PatchState A :=
  r ← m;
  match r with
  | inr a => mret a
  | inl e => and_exact false;; fail e
  end.

(** [derive_new_contents_from_chunks] of [file_update.rs]. *)
Definition derive_new_contents_from_chunks (path : P) (chunks : list UpdateFileChunk)
    : M PatchState AppliedPatch :=
  r ← call (read_file_text follow_symlinks path);
  match r with
  | inl err => fail (AnyPatch (IoError
      (lit "Failed to read file to update " ++ inferred_native_path_string path) err))
  | inr original =>
      match new_contents_from_chunks original (inferred_native_path_string path) chunks with
      | Ok new => mret {| original_contents := original; new_contents := new |}
      | Err e => fail (AnyPatch e)
      | Panic => lift Panic
      end
  end.

(** [cwd.join(path)?]. *)
Definition resolve (path : str) : M PatchState P :=
  match path_join cwd path with
  | inr p => mret p
  | inl m => fail (AnyPathUri m)
  end.

(** [Hunk::resolve_path]. *)
Definition resolve_path (h : Hunk) : M PatchState P :=
  resolve (match h with UpdateFile path _ _ => path | _ => hunk_path h end).

(** The arm [Hunk::AddFile]. *)
Definition apply_add (path : P) (contents : str) : M PatchState unit :=
  overwritten ← read_optional_file_text_for_delta path;
  try_write (write_file_with_missing_parent_retry path contents);;
  push_change {| change_path := path; change := Added contents overwritten |}.

(** [fs.remove] with the check before it and the error path after it: shared by
    the deletion and by the removal of a moved file's original. *)
Definition remove_file (prefix : str) (path : P) (expected : option str) : M PatchState unit :=
  ensure_not_directory path ≫= or_context prefix path;;
  r ← call (remove {| recursive := false; force := false;
                      remove_follow := follow_symlinks |} path);
  match r with
  | inr _ => mret tt
  | inl e =>
      free ← remove_failure_was_side_effect_free path expected;
      and_exact free;;
      or_context prefix path (inl e)
  end.

(** The arm [Hunk::DeleteFile]. *)
Definition apply_delete (path : P) : M PatchState unit :=
  note_existing_path_delta_support path;;
  r ← call (read_file_text follow_symlinks path);
  let deleted_content := match r with inr content => Some content | inl _ => None end in
  (if is_none deleted_content then and_exact false else mret tt);;
  remove_file (lit "Failed to delete file") path deleted_content;;
  match deleted_content with
  | Some content => push_change {| change_path := path; change := Deleted content |}
  | None => mret tt
  end.

(** The arm [Hunk::UpdateFile]: with a move, and in place. *)
Definition apply_move (path : P) (dest : str) (p : AppliedPatch) : M PatchState unit :=
  dest_uri ← resolve dest;
  overwritten ← read_optional_file_text_for_delta dest_uri;
  try_write (write_file_with_missing_parent_retry dest_uri (new_contents p));;
  i ← (λ s, (Ok (length (delta_changes s.2)), s));
  push_change {| change_path := dest_uri; change := Added (new_contents p) overwritten |};;
  remove_file (lit "Failed to remove original") path (Some (original_contents p));;
  set_change i {| change_path := path;
    change := Updated (Some dest_uri) (original_contents p) overwritten (new_contents p) |}.

Definition apply_in_place (path : P) (p : AppliedPatch) : M PatchState unit :=
  try_write (
    r ← call (write_file follow_symlinks path (new_contents p));
    mret (match r with
          | inr _ => inr tt
          | inl e => inl (AnyIo
              [lit "Failed to write file " ++ inferred_native_path_string path] e)
          end));;
  push_change {| change_path := path;
    change := Updated None (original_contents p) None (new_contents p) |}.

Definition apply_update (path : P) (move_path : option str) (chunks : list UpdateFileChunk)
    : M PatchState unit :=
  note_existing_path_delta_support path;;
  p ← derive_new_contents_from_chunks path chunks;
  match move_path with
  | Some dest => apply_move path dest p
  | None => apply_in_place path p
  end.

Definition apply_hunk (hunk : Hunk) : M PatchState unit :=
  path_uri ← resolve_path hunk;
  match hunk with
  | AddFile _ contents => apply_add path_uri contents
  | DeleteFile _ => apply_delete path_uri
  | UpdateFile _ move_path chunks => apply_update path_uri move_path chunks
  end.

(** [added.push(..)], [deleted.push(..)], [modified.push(..)]. *)
Definition push_affected (hunk : Hunk) (a : AffectedPaths) : AffectedPaths :=
  match hunk with
  | AddFile _ _ => {| added := added a ++ [hunk_path hunk]; modified := modified a;
                      deleted := deleted a |}
  | DeleteFile _ => {| added := added a; modified := modified a;
                       deleted := deleted a ++ [hunk_path hunk] |}
  | UpdateFile _ _ _ => {| added := added a; modified := modified a ++ [hunk_path hunk];
                           deleted := deleted a |}
  end.

Fixpoint hunks_loop (hunks : list Hunk) (a : AffectedPaths) : M PatchState AffectedPaths :=
  match hunks with
  | [] => mret a
  | hunk :: hunks => apply_hunk hunk;; hunks_loop hunks (push_affected hunk a)
  end.

Definition apply_hunks_to_files (hunks : list Hunk) : M PatchState AffectedPaths :=
  if is_empty hunks then fail (AnyMessage (lit "No files were modified."))
  else hunks_loop hunks {| added := []; modified := []; deleted := [] |}.
End apply.

(** ** Output and entry points *)

(** [std::io::Write], used by [writeln!] only. *)
Class Write (O : Type) := write_line : str → O → io unit * O.

Section entry.
Context {W P O : Type} {FS : FileSystem W P} {PU : PathUri P} {WR : Write O}.

(** [writeln!] for each of the lines, stopping at the first error. *)
Fixpoint write_lines (ls : list str) (out : O) : io unit * O :=
  match ls with
  | [] => (inr tt, out)
  | l :: ls =>
      match write_line l out with
      | (inr _, out) => write_lines ls out
      | (inl e, out) => (inl e, out)
      end
  end.

Definition print_summary (affected : AffectedPaths) (out : O) : io unit * O :=
  write_lines
    ([lit "Success. Updated the following files:"]
     ++ ((λ p, lit "A " ++ p) <$> added affected)
     ++ ((λ p, lit "M " ++ p) <$> modified affected)
     ++ ((λ p, lit "D " ++ p) <$> deleted affected)) out.

(** [ApplyPatchFailure]. *)
Record ApplyPatchFailure := { failure_error : ApplyPatchError; failure_delta : AppliedPatchDelta P }.

(** [ApplyPatchError::from(io::Error)]. *)
Definition from_io (e : io_error) : ApplyPatchError := IoError (lit "I/O error") e.

(** [error.downcast_ref::<io::Error>()], else the error under its own text. *)
Definition error_of_anyhow (error : anyhow) : ApplyPatchError :=
  match error with
  | AnyIo _ e => from_io e
  | _ => IoError (show_anyhow error) {| kind := OtherKind; io_message := show_anyhow error |}
  end.

Record outcome := {
  result : res ApplyPatchFailure (AppliedPatchDelta P);
  world : W; stdout : O; stderr : O }.

Definition apply_hunks_with_options (hunks : list Hunk) (follow_symlinks : bool) (cwd : P)
    (out err : O) (w : W) : outcome :=
  let '(r, (w, delta)) := apply_hunks_to_files follow_symlinks cwd hunks (w, empty_delta) in
  match r with
  | Ok affected_paths =>
      match print_summary affected_paths out with
      | (inr _, out) => {| result := Ok delta; world := w; stdout := out; stderr := err |}
      | (inl e, out) =>
          {| result := Err {| failure_error := from_io e; failure_delta := delta |};
             world := w; stdout := out; stderr := err |}
      end
  | Err error =>
      match write_line (show_anyhow error) err with
      | (inr _, err) =>
          {| result := Err {| failure_error := error_of_anyhow error; failure_delta := delta |};
             world := w; stdout := out; stderr := err |}
      | (inl e, err) =>
          {| result := Err {| failure_error := from_io e; failure_delta := delta |};
             world := w; stdout := out; stderr := err |}
      end
  | Panic => {| result := Panic; world := w; stdout := out; stderr := err |}
  end.

(** What [apply_patch_with_options] prints for a patch that does not parse. *)
Definition invalid_patch_line (e : ParseError) : str :=
  match e with
  | InvalidPatchError message => lit "Invalid patch: " ++ message
  | InvalidHunkError message line_number =>
      lit "Invalid patch hunk on line " ++ show_nat line_number ++ lit ": " ++ message
  end.

Definition without_delta (e : ApplyPatchError) : ApplyPatchFailure :=
  {| failure_error := e; failure_delta := empty_delta |}.

Definition apply_patch_with_options (patch : str) (follow_symlinks : bool) (cwd : P)
    (out err : O) (w : W) : outcome :=
  match parse_patch patch with
  | Ok source => apply_hunks_with_options (args_hunks source) follow_symlinks cwd out err w
  | Err e =>
      match write_line (invalid_patch_line e) err with
      | (inr _, err) =>
          {| result := Err (without_delta (PatchParseError e)); world := w;
             stdout := out; stderr := err |}
      | (inl e, err) =>
          {| result := Err (without_delta (from_io e)); world := w;
             stdout := out; stderr := err |}
      end
  | Panic => {| result := Panic; world := w; stdout := out; stderr := err |}
  end.

(** [apply_patch]: [ApplyPatchOptions::default()] follows symbolic links. *)
Definition apply_patch (patch : str) : P → O → O → W → outcome :=
  apply_patch_with_options patch true.
End entry.

(** ** What a file system promises

    [view w] is the regular text files of the world [w] by path; [plain p w]
    says that [p] is not a symbolic link there (a path that does not exist is
    plain).  [tidy w] says that every symbolic link of [w] leads to a file or
    directory that exists, and that no file has two paths (no hard link, no
    link to a directory); [unlinked p w] that no symbolic link of [w] leads to
    [p].  Only in a tidy world does the metadata of a path tell whether it is
    plain: that of a dangling link is not found, as that of a missing path.
    No operation makes a link; removing a file that no link leads to leaves
    none dangling. *)
Class FileSystemLaws {W P : Type} (FS : FileSystem W P) {EqP : EqDecision P} {CoP : Countable P} := {
  view : W → gmap P str;
  plain : P → W → Prop;
  tidy : W → Prop;
  unlinked : P → W → Prop;
  metadata_view f p w : view (get_metadata f p w).2 = view w;
  metadata_plain f p q w : plain q w → plain q (get_metadata f p w).2;
  metadata_tidy f p w : tidy w → tidy (get_metadata f p w).2;
  metadata_unlinked f p q w : unlinked q w → unlinked q (get_metadata f p w).2;
  metadata_file f p w m : tidy w → (get_metadata f p w).1 = inr m →
    is_file m = true → is_symlink m = false → plain p (get_metadata f p w).2;
  metadata_missing f p w e : tidy w → (get_metadata f p w).1 = inl e →
    kind e = NotFound → plain p (get_metadata f p w).2;
  read_view f p w : view (read_file_text f p w).2 = view w;
  read_plain f p q w : plain q w → plain q (read_file_text f p w).2;
  read_tidy f p w : tidy w → tidy (read_file_text f p w).2;
  read_unlinked f p q w : unlinked q w → unlinked q (read_file_text f p w).2;
  read_ok f p w s : plain p w → (read_file_text f p w).1 = inr s → view w !! p = Some s;
  read_missing f p w e : plain p w → (read_file_text f p w).1 = inl e →
    kind e = NotFound → view w !! p = None;
  write_plain f p c q w : plain q w → plain q (write_file f p c w).2;
  write_tidy f p c w : tidy w → tidy (write_file f p c w).2;
  write_unlinked f p c q w : unlinked q w → unlinked q (write_file f p c w).2;
  write_ok f p c w : plain p w → (write_file f p c w).1 = inr tt →
    view (write_file f p c w).2 = <[p := c]> (view w);
  write_missing f p c w e : (write_file f p c w).1 = inl e → kind e = NotFound →
    view (write_file f p c w).2 = view w;
  mkdir_view o p w : view (create_directory o p w).2 = view w;
  mkdir_plain o p q w : plain q w → plain q (create_directory o p w).2;
  mkdir_tidy o p w : tidy w → tidy (create_directory o p w).2;
  mkdir_unlinked o p q w : unlinked q w → unlinked q (create_directory o p w).2;
  remove_plain o p q w : plain q w → plain q (remove o p w).2;
  remove_tidy o p w : tidy w → plain p w → unlinked p w → tidy (remove o p w).2;
  remove_unlinked o p q w : unlinked q w → unlinked q (remove o p w).2;
  remove_ok o p w : plain p w → (remove o p w).1 = inr tt →
    view (remove o p w).2 = delete p (view w);
  remove_failed o p w e : (remove o p w).1 = inl e →
    view (remove o p w).2 = view w ∨ view (remove o p w).2 = delete p (view w);
}.

(** Nothing is promised of a world that is not tidy: every file system
    satisfies the laws when no world counts as tidy. *)
Definition no_laws {W P : Type} (FS : FileSystem W P) {EqP : EqDecision P} {CoP : Countable P} :
  FileSystemLaws FS.
Proof.
  refine {| view := λ _, ∅; plain := λ _ _, False; tidy := λ _, False; unlinked := λ _ _, False |};
    try done. auto.
Defined.

(** ** Replaying and undoing a delta *)
Section replay.
Context {P : Type} {EqP : EqDecision P} {CoP : Countable P}.

Definition set_or_delete (p : P) (o : option str) (m : gmap P str) : gmap P str :=
  match o with Some s => <[p := s]> m | None => delete p m end.

(** The files after a change, and the files before it. *)
Definition redo (m : gmap P str) (c : AppliedPatchChange P) : gmap P str :=
  match change c with
  | Added content _ => <[change_path c := content]> m
  | Deleted _ => delete (change_path c) m
  | Updated None _ _ new => <[change_path c := new]> m
  | Updated (Some dest) _ _ new => delete (change_path c) (<[dest := new]> m)
  end.
Definition undo (c : AppliedPatchChange P) (m : gmap P str) : gmap P str :=
  match change c with
  | Added _ overwritten => set_or_delete (change_path c) overwritten m
  | Deleted content => <[change_path c := content]> m
  | Updated None old _ _ => <[change_path c := old]> m
  | Updated (Some dest) old overwritten _ =>
      set_or_delete dest overwritten (<[change_path c := old]> m)
  end.

Definition redo_all (cs : list (AppliedPatchChange P)) (m : gmap P str) : gmap P str :=
  foldl redo m cs.
Definition undo_all (cs : list (AppliedPatchChange P)) (m : gmap P str) : gmap P str :=
  foldr undo m cs.

(** The contents a change records as overwritten are the ones that were there. *)
Definition records (m : gmap P str) (c : AppliedPatchChange P) : Prop :=
  match change c with
  | Added _ overwritten => m !! change_path c = overwritten
  | Deleted content => m !! change_path c = Some content
  | Updated None old _ _ => m !! change_path c = Some old
  | Updated (Some dest) old overwritten _ =>
      m !! change_path c = Some old ∧ m !! dest = overwritten
  end.

(** The same for a sequence, each change in the files the ones before it left. *)
Fixpoint records_all (m : gmap P str) (cs : list (AppliedPatchChange P)) : Prop :=
  match cs with
  | [] => True
  | c :: cs => records m c ∧ records_all (redo m c) cs
  end.

Lemma set_or_delete_id p m : set_or_delete p (m !! p) m = m.
Proof.
  unfold set_or_delete. destruct (m !! p) eqn:E; [by apply insert_id|by apply delete_id].
Qed.

Lemma set_or_delete_insert p o s m : set_or_delete p o (<[p := s]> m) = set_or_delete p o m.
Proof. destruct o; simpl; [apply insert_insert_eq|apply delete_insert_eq]. Qed.

Lemma set_or_delete_lookup p o m : set_or_delete p o m !! p = o.
Proof. destruct o; simpl; [apply lookup_insert_eq|apply lookup_delete_eq]. Qed.

Lemma set_or_delete_lookup_ne p q o m : p ≠ q → set_or_delete p o m !! q = m !! q.
Proof. intros. destruct o; simpl; [by apply lookup_insert_ne|by apply lookup_delete_ne]. Qed.

Lemma undo_redo m c : records m c → undo c (redo m c) = m.
Proof.
  destruct c as [p [content o|content|[dest|] old o new]]; unfold records, undo, redo; simpl.
  - intros <-. by rewrite set_or_delete_insert, set_or_delete_id.
  - intros. by rewrite insert_delete_eq, insert_id.
  - intros [Hp <-]. apply map_eq. intros q.
    destruct (decide (dest = q)) as [->|]; [by rewrite set_or_delete_lookup|].
    rewrite set_or_delete_lookup_ne by done.
    destruct (decide (p = q)) as [->|]; [by rewrite lookup_insert_eq|].
    by rewrite lookup_insert_ne, lookup_delete_ne, lookup_insert_ne.
  - intros. by rewrite insert_insert_eq, insert_id.
Qed.

Lemma undo_redo_all cs m : records_all m cs → undo_all cs (redo_all cs m) = m.
Proof.
  revert m. induction cs as [|c cs IH]; intros m; [done|]. intros [Hc Hcs]. simpl.
  rewrite IH by done. by apply undo_redo.
Qed.

Lemma records_all_app m cs ds :
  records_all m (cs ++ ds) ↔ records_all m cs ∧ records_all (redo_all cs m) ds.
Proof. revert m. induction cs as [|c cs IH]; intros m; simpl; [tauto|]. rewrite IH. tauto. Qed.

Lemma redo_all_app m cs ds : redo_all (cs ++ ds) m = redo_all ds (redo_all cs m).
Proof. apply foldl_app. Qed.
End replay.

(** ** Exactness is only ever lost *)
Section monotone.
Context {W P : Type} {FS : FileSystem W P} {PU : PathUri P}.
Context (follow_symlinks : bool) (cwd : P).

Definition keeps_inexact {A} (m : M (@PatchState W P) A) : Prop :=
  ∀ s, exact (m s).2.2 = true → exact s.2 = true.

Lemma keeps_bind {A B} (m : M _ A) (f : A → M _ B) :
  keeps_inexact m → (∀ a, keeps_inexact (f a)) → keeps_inexact (m ≫= f).
Proof.
  intros Hm Hf s. unfold mbind, M_bind. specialize (Hm s).
  destruct (m s) as [[a|e|] s']; [|exact Hm..]. intros He. by apply Hm, (Hf a).
Qed.
Lemma keeps_ret {A} (a : A) : keeps_inexact (mret a).
Proof. by intros s. Qed.
Lemma keeps_fail {A} e : keeps_inexact (A:=A) (fail e).
Proof. by intros s. Qed.
Lemma keeps_lift {A} (r : res anyhow A) : keeps_inexact (lift r).
Proof. by intros s. Qed.
Lemma keeps_call {A} (op : W → A * W) : keeps_inexact (call op).
Proof. intros s. unfold call. by destruct (op s.1). Qed.
Lemma keeps_and_exact b : keeps_inexact (and_exact b).
Proof. intros s. simpl. by intros [? _]%andb_prop. Qed.
Lemma keeps_push c : keeps_inexact (push_change c).
Proof. by intros s. Qed.
Lemma keeps_set i c : keeps_inexact (set_change i c).
Proof. intros s. unfold set_change. by case_decide. Qed.
Lemma keeps_get {A} (f : PatchState → A) : keeps_inexact (λ s, (Ok (f s), s)).
Proof. by intros s. Qed.

Create HintDb keeps.
#[local] Hint Resolve keeps_ret keeps_fail keeps_lift keeps_call keeps_and_exact
  keeps_push keeps_set keeps_get : keeps.
#[local] Ltac keeps := repeat first
  [ apply keeps_bind; [|intros ?] | progress auto with keeps | case_match | progress simpl ].

Lemma apply_hunk_keeps h : keeps_inexact (apply_hunk follow_symlinks cwd h).
Proof.
  unfold apply_hunk, resolve_path, apply_add, apply_delete, apply_update, apply_move,
    apply_in_place, try_write, remove_file, or_context, ensure_not_directory,
    derive_new_contents_from_chunks, read_optional_file_text_for_delta,
    note_existing_path_delta_support, remove_failure_was_side_effect_free,
    write_file_with_missing_parent_retry, resolve.
  keeps.
Qed.

Lemma hunks_loop_keeps hs a : keeps_inexact (hunks_loop follow_symlinks cwd hs a).
Proof.
  revert a. induction hs as [|h hs IH]; intros a; simpl; [apply keeps_ret|].
  apply keeps_bind; [apply apply_hunk_keeps|done].
Qed.
End monotone.

(** ** Correctness of one application *)
Section hoare.
Context {W P : Type} {FS : FileSystem W P} {PU : PathUri P}
  {EqP : EqDecision P} {CoP : Countable P} {L : FileSystemLaws FS}.
Context (follow_symlinks : bool) (cwd : P).

(** [T] is what the start of the application is assumed to satisfy, [U] the
    paths it may remove. *)
Context (T : Prop) (U : P → Prop).
Implicit Types (v : gmap P str) (cs : list (AppliedPatchChange P)) (ps : list P) (φ : Prop).

(** Total-correctness triples with an error postcondition; no panic. *)
Definition triple {A} (Pre : PatchState → Prop) (m : M (@PatchState W P) A)
    (Q : A → PatchState → Prop) (E : PatchState → Prop) : Prop :=
  ∀ s, Pre s → match m s with
               | (Ok a, s') => Q a s'
               | (Err _, s') => E s'
               | (Panic, _) => False
               end.

Lemma triple_bind {A B} Pre (m : M _ A) (f : A → M _ B) R Q E :
  triple Pre m R E → (∀ a, triple (R a) (f a) Q E) → triple Pre (m ≫= f) Q E.
Proof.
  intros Hm Hf s Hs. specialize (Hm s Hs). unfold mbind, M_bind.
  destruct (m s) as [[a|e|] s']; [|done..]. by apply Hf.
Qed.

Lemma triple_ret {A} Pre (a : A) (Q : A → PatchState → Prop) E :
  (∀ s, Pre s → Q a s) → triple Pre (mret a) Q E.
Proof. intros H s Hs. by apply H. Qed.

Lemma triple_fail {A} Pre e (Q : A → PatchState → Prop) (E : PatchState → Prop) :
  (∀ s, Pre s → E s) → triple Pre (fail e) Q E.
Proof. intros H s Hs. by apply H. Qed.

Lemma triple_pre {A} (Pre Pre' : PatchState → Prop) (m : M _ A) Q E :
  (∀ s, Pre s → Pre' s) → triple Pre' m Q E → triple Pre m Q E.
Proof. intros H Hm s Hs. by apply Hm, H. Qed.

Lemma triple_post {A} Pre (m : M _ A) (Q Q' : A → PatchState → Prop) E :
  triple Pre m Q E → (∀ a s, Q a s → Q' a s) → triple Pre m Q' E.
Proof.
  intros Hm HQ s Hs. specialize (Hm s Hs). destruct (m s) as [[a|e|] s']; auto.
Qed.

Lemma triple_error {A} Pre (m : M _ A) Q (E E' : PatchState → Prop) :
  triple Pre m Q E → (∀ s, E s → E' s) → triple Pre m Q E'.
Proof.
  intros Hm HE s Hs. specialize (Hm s Hs). destruct (m s) as [[a|e|] s']; auto.
Qed.

(** While the delta is exact: the fact [φ], the view, the paths known to be
    plain, and the links. *)
Definition live (s : @PatchState W P) : Prop := exact s.2 = true ∧ T.
Definition settled (w : W) : Prop := tidy w ∧ ∀ q, U q → unlinked q w.
Definition at_state φ v cs ps (s : PatchState) : Prop :=
  delta_changes s.2 = cs ∧
  (live s → φ ∧ view s.1 = v ∧ Forall (λ p, plain p s.1) ps ∧ settled s.1).

Lemma at_state_weaken φ φ' v cs ps ps' s :
  (φ → φ') → ps' ⊆ ps → at_state φ v cs ps s → at_state φ' v cs ps' s.
Proof.
  intros Hφ Hps [Hc H]. split; [done|]. intros He.
  destruct (H He) as (? & ? & Hp & ?). split; [by apply Hφ|]. split; [done|]. split; [|done].
  rewrite Forall_forall in *. auto.
Qed.

Lemma and_exact_spec φ v cs ps b E :
  triple (at_state φ v cs ps) (and_exact b) (λ _, at_state (φ ∧ b = true) v cs ps) E.
Proof.
  intros [w d] [Hc H]. split; [done|]. simpl in *. intros [[He ->]%andb_prop HT].
  destruct (H (conj He HT)) as (? & ? & ?). done.
Qed.

(** A call that keeps the view, the plain paths and the links. *)
Lemma call_spec {A} φ v cs ps (op : W → A * W) (X : A → W → W → Prop) E :
  (∀ w, view (op w).2 = view w) → (∀ q w, plain q w → plain q (op w).2) →
  (∀ w, settled w → settled (op w).2) →
  (∀ w, Forall (λ p, plain p w) ps → settled w → X (op w).1 w (op w).2) →
  triple (at_state φ v cs ps) (call op)
    (λ a, λ s, delta_changes s.2 = cs ∧
      (live s → φ ∧ view s.1 = v ∧ Forall (λ p, plain p s.1) ps ∧ settled s.1
        ∧ ∃ w, view w = v ∧ X a w s.1)) E.
Proof.
  intros Hv Hp Hset HX [w d] [Hc H]. unfold call. simpl. specialize (HX w).
  specialize (Hv w). specialize (λ q, Hp q w). specialize (Hset w).
  destruct (op w) as [a w'] eqn:Eop. simpl in *. split; [done|]. intros He.
  destruct (H He) as (? & Hview & Hps & Hs). split; [done|]. split; [simpl in *; congruence|].
  split; [|split; [by apply Hset|]].
  - eapply Forall_impl; [done|]. simpl. intros. by apply Hp.
  - exists w. split; [done|]. by apply HX.
Qed.

Lemma metadata_settled f p w : settled w → settled (get_metadata f p w).2.
Proof. intros [? ?]. split; auto using metadata_tidy, metadata_unlinked. Qed.
Lemma read_settled f p w : settled w → settled (read_file_text f p w).2.
Proof. intros [? ?]. split; auto using read_tidy, read_unlinked. Qed.
Lemma write_settled f p c w : settled w → settled (write_file f p c w).2.
Proof. intros [? ?]. split; auto using write_tidy, write_unlinked. Qed.
Lemma mkdir_settled o p w : settled w → settled (create_directory o p w).2.
Proof. intros [? ?]. split; auto using mkdir_tidy, mkdir_unlinked. Qed.
Lemma remove_settled o p w : U p → plain p w → settled w → settled (remove o p w).2.
Proof. intros ? ? [? ?]. split; auto using remove_tidy, remove_unlinked. Qed.

Lemma called_at φ v cs ps (X : W → W → Prop) s :
  delta_changes s.2 = cs ∧ (live s → φ ∧ view s.1 = v ∧ Forall (λ p, plain p s.1) ps ∧ settled s.1
    ∧ ∃ w, view w = v ∧ X w s.1) → at_state φ v cs ps s.
Proof.
  intros [Hc H]. split; [done|]. intros He. destruct (H He) as (? & ? & ? & ? & _). done.
Qed.

(** Once the delta is inexact nothing else has to be kept. *)
Lemma inexact_spec (X : PatchState → Prop) φ v cs ps E :
  (∀ s, X s → delta_changes s.2 = cs) →
  triple X (and_exact false) (λ _, at_state φ v cs ps) E.
Proof.
  intros H s Hs. split; [by apply (H s Hs)|]. intros [Hf _]. simpl in Hf.
  by rewrite andb_false_r in Hf.
Qed.

Lemma note_spec φ v cs ps p E :
  triple (at_state φ v cs ps) (note_existing_path_delta_support follow_symlinks p)
    (λ _, at_state φ v cs (p :: ps)) E.
Proof.
  eapply triple_bind.
  { eapply (call_spec _ _ _ _ _ (λ r w w', match r with
      | inr m => is_file m = true → is_symlink m = false → plain p w'
      | inl e => kind e = NotFound → plain p w' end)).
    - intros. apply metadata_view.
    - intros. by apply metadata_plain.
    - intros. by apply metadata_settled.
    - intros w _ [Ht _]. destruct (get_metadata _ p w).1 eqn:Em.
      + intros. by eapply metadata_missing.
      + intros. by eapply metadata_file. }
  intros r. simpl.
  assert (∀ X : W → Prop, (∀ w, X w → plain p w) → triple
    (λ s, delta_changes s.2 = cs ∧ (live s → φ ∧ view s.1 = v
      ∧ Forall (λ p, plain p s.1) ps ∧ settled s.1 ∧ ∃ w, view w = v ∧ X s.1)) (mret tt)
    (λ _, at_state φ v cs (p :: ps)) E) as Hret.
  { intros X HX. apply triple_ret. intros s [Hc H]. split; [done|]. intros He.
    destruct (H He) as (? & ? & ? & ? & w & _ & HXs). split; [done|]. split; [done|].
    split; [|done]. constructor; [by apply HX|done]. }
  destruct r as [e|md].
  - destruct (kind e) eqn:Ek; [|apply inexact_spec; by intros s [? _]..].
    apply (Hret (λ w', NotFound = NotFound → plain p w')). auto.
  - destruct (is_file md && negb (is_symlink md)) eqn:Em; [|apply inexact_spec; by intros s [? _]].
    apply andb_prop in Em as [? ?%negb_true_iff].
    apply (Hret (λ w', is_file md = true → is_symlink md = false → plain p w')). auto.
Qed.

Lemma read_spec φ v cs ps p E :
  p ∈ ps →
  triple (at_state φ v cs ps) (call (read_file_text follow_symlinks p))
    (λ r, at_state (φ ∧ match r with
                        | inr c => v !! p = Some c
                        | inl e => kind e = NotFound → v !! p = None
                        end) v cs ps) E.
Proof.
  intros Hp. eapply triple_post; [apply (call_spec _ _ _ _ _ (λ r w w', match r with
      | inr c => view w !! p = Some c
      | inl e => kind e = NotFound → view w !! p = None end))|].
  - intros. apply read_view.
  - intros. by apply read_plain.
  - intros. by apply read_settled.
  - intros w Hps _. rewrite Forall_forall in Hps. specialize (Hps _ Hp).
    destruct (read_file_text _ p w).1 eqn:Er.
    + intros. by eapply read_missing.
    + by eapply read_ok.
  - intros r s [Hc H]. split; [done|]. intros He.
    destruct (H He) as (? & ? & ? & ? & w & <- & ?). done.
Qed.

Lemma read_optional_spec φ v cs ps p E :
  triple (at_state φ v cs ps) (read_optional_file_text_for_delta follow_symlinks p)
    (λ o, at_state (φ ∧ v !! p = o) v cs (p :: ps)) E.
Proof.
  eapply triple_bind; [apply note_spec|]. intros []. simpl.
  eapply triple_bind; [apply read_spec; by left|]. intros [e|c]; simpl.
  - destruct (kind e) eqn:Ek.
    + apply triple_ret. intros s. apply at_state_weaken; [|done]. naive_solver.
    + eapply triple_bind; [apply (inexact_spec _ (φ ∧ v !! p = None) v cs (p :: ps)); by intros s [? _]|].
      intros []. by apply triple_ret.
    + eapply triple_bind; [apply (inexact_spec _ (φ ∧ v !! p = None) v cs (p :: ps)); by intros s [? _]|].
      intros []. by apply triple_ret.
  - by apply triple_ret.
Qed.

Lemma ensure_not_directory_spec φ v cs ps p E :
  triple (at_state φ v cs ps) (ensure_not_directory follow_symlinks p)
    (λ _, at_state φ v cs ps) E.
Proof.
  eapply triple_bind.
  - apply (call_spec _ _ _ _ _ (λ _ _ _, True));
      [|by intros; apply metadata_plain|by intros; apply metadata_settled|done].
    intros. apply metadata_view.
  - intros r. apply triple_ret. intros s. apply (called_at _ _ _ _ (λ _ _, True)).
Qed.

(** A call of [write_file], when it succeeds and when it finds no parent. *)
Lemma write_call_spec φ v cs ps p c E :
  p ∈ ps →
  triple (at_state φ v cs ps) (call (write_file follow_symlinks p c))
    (λ r s, match r with
            | inr _ => at_state φ (<[p := c]> v) cs ps s
            | inl e => delta_changes s.2 = cs ∧ (kind e = NotFound → at_state φ v cs ps s)
            end) E.
Proof.
  intros Hp [w d] [Hc H]. unfold call. simpl.
  pose proof (λ q, write_plain follow_symlinks p c q w) as Hplain.
  pose proof (write_ok follow_symlinks p c w) as Hok.
  pose proof (write_settled follow_symlinks p c w) as Hset.
  pose proof (write_missing follow_symlinks p c w) as Hmiss.
  destruct (write_file follow_symlinks p c w) as [[e|[]] w']; simpl in *.
  - split; [done|]. intros Hk. split; [done|]. intros He.
    destruct (H He) as (? & <- & Hps & Hs). split; [done|]. split; [by eapply Hmiss|].
    split; [|by apply Hset]. eapply Forall_impl; [exact Hps|]. simpl. auto.
  - split; [done|]. intros He. destruct (H He) as (? & <- & Hps & Hs). split; [done|].
    split; [|split; [|by apply Hset]].
    + apply Hok; [|done]. rewrite Forall_forall in Hps. auto.
    + eapply Forall_impl; [exact Hps|]. simpl. auto.
Qed.

Lemma write_once_spec φ v cs ps p c x E :
  p ∈ ps →
  triple (at_state φ v cs ps)
    (r ← call (write_file follow_symlinks p c);
     mret (match r with inr _ => inr tt | inl e => inl (AnyIo x e) end))
    (λ r s, match r with
            | inr _ => at_state φ (<[p := c]> v) cs ps s
            | inl _ => delta_changes s.2 = cs
            end) E.
Proof.
  intros Hp. eapply triple_bind; [by apply write_call_spec|].
  intros [e|[]]; apply triple_ret; naive_solver.
Qed.

Lemma write_retry_spec φ v cs ps p c E :
  p ∈ ps →
  triple (at_state φ v cs ps) (write_file_with_missing_parent_retry follow_symlinks p c)
    (λ r s, match r with
            | inr _ => at_state φ (<[p := c]> v) cs ps s
            | inl _ => delta_changes s.2 = cs
            end) E.
Proof.
  intros Hp. unfold write_file_with_missing_parent_retry.
  eapply triple_bind; [by apply write_call_spec|]. intros [e|[]]; simpl; [|by apply triple_ret].
  destruct (kind e) eqn:Ek; [|apply triple_ret; naive_solver..].
  destruct (path_parent p) as [parent|].
  - eapply triple_bind; [eapply triple_pre; [by intros s [_ H]; apply H|]|].
    + apply (call_spec φ v cs ps _ (λ _ _ _, True)); [|by intros; apply mkdir_plain
        |by intros; apply mkdir_settled|done]. intros. apply mkdir_view.
    + intros [e'|[]]; [apply triple_ret; naive_solver|].
      eapply triple_pre; [|by apply write_once_spec]. intros s. apply (called_at _ _ _ _ (λ _ _, True)).
  - eapply triple_pre; [|by apply write_once_spec]. naive_solver.
Qed.

(** What holds when an application stops with an error: the changes recorded
    after [cs] are exactly what happened to the files [v]. *)
Definition committed v cs (s : @PatchState W P) : Prop :=
  ∃ ds, delta_changes s.2 = cs ++ ds
    ∧ (live s → view s.1 = redo_all ds v ∧ records_all v ds).

Lemma committed_at φ v cs ps s : at_state φ v cs ps s → committed v cs s.
Proof. intros [Hc H]. exists []. rewrite app_nil_r. naive_solver. Qed.

Lemma try_write_spec {A} Pre (m : M _ (anyhow + A)) Q v cs :
  triple Pre m (λ r s, match r with
                       | inr a => Q a s
                       | inl _ => delta_changes s.2 = cs
                       end) (committed v cs) →
  triple Pre (try_write m) Q (committed v cs).
Proof.
  intros Hm. eapply triple_bind; [exact Hm|]. intros [e|a]; simpl; [|by apply triple_ret].
  eapply triple_bind; [apply (inexact_spec _ True v cs []); auto|].
  intros []. apply triple_fail. intros s. apply committed_at.
Qed.

Lemma remove_call_spec φ v cs ps o p E :
  U p → p ∈ ps →
  triple (at_state φ v cs ps) (call (remove o p))
    (λ r s, match r with
            | inr _ => at_state φ (delete p v) cs ps s
            | inl _ => at_state φ v cs ps s ∨ at_state φ (delete p v) cs ps s
            end) E.
Proof.
  intros HU Hp [w d] [Hc H]. unfold call. simpl.
  pose proof (λ q, remove_plain o p q w) as Hplain. pose proof (remove_settled o p w HU) as Hset.
  pose proof (remove_ok o p w) as Hok. pose proof (remove_failed o p w) as Hfail.
  assert (live (w, d) → plain p w) as Hpp.
  { intros (_ & _ & Hps & _)%H. rewrite Forall_forall in Hps. auto. }
  destruct (remove o p w) as [[e|[]] w']; simpl in *.
  - destruct (Hfail e eq_refl) as [Hv|Hv]; [left|right]; (split; [done|]);
      simpl; intros He; destruct (H He) as (? & <- & Hps & Hs); (split; [done|]);
      (split; [done|]); (split; [|by apply Hset; [apply Hpp|]]);
      (eapply Forall_impl; [exact Hps|]); simpl; auto.
  - split; [done|]. simpl. intros He. destruct (H He) as (? & <- & Hps & Hs).
    split; [done|]. split; [by apply Hok; [apply Hpp|]|].
    split; [|by apply Hset; [apply Hpp|]]. eapply Forall_impl; [exact Hps|]. simpl. auto.
Qed.

(** Reading back the expected content rules out that the file is gone. *)
Lemma side_effect_free_spec φ v cs ps p expected E :
  p ∈ ps →
  triple (λ s, at_state φ v cs ps s ∨ at_state φ (delete p v) cs ps s)
    (remove_failure_was_side_effect_free follow_symlinks p expected)
    (λ b s, delta_changes s.2 = cs ∧ (b = true → at_state φ v cs ps s)) E.
Proof.
  intros Hp. unfold remove_failure_was_side_effect_free.
  destruct expected as [expected|].
  - intros s [Hs|Hs].
    + revert s Hs. change (triple (at_state φ v cs ps)
        (r ← call (read_file_text follow_symlinks p);
         mret (match r with inr content => bool_decide (content = expected) | inl _ => false end))
        (λ b s, delta_changes s.2 = cs ∧ (b = true → at_state φ v cs ps s)) E).
      eapply triple_bind; [by apply read_spec|]. intros r. apply triple_ret.
      intros s Hs. split; [by apply Hs|]. intros _. revert Hs. by apply at_state_weaken; [intros [? _]|].
    + revert s Hs. change (triple (at_state φ (delete p v) cs ps)
        (r ← call (read_file_text follow_symlinks p);
         mret (match r with inr content => bool_decide (content = expected) | inl _ => false end))
        (λ b s, delta_changes s.2 = cs ∧ (b = true → at_state φ v cs ps s)) E).
      eapply triple_bind; [by apply read_spec|]. intros r. apply triple_ret.
      intros s [Hc H]. split; [done|]. intros Hb. split; [done|]. intros He.
      destruct (H He) as ([_ Hr] & _). destruct r; [done|].
      by rewrite lookup_delete_eq in Hr.
  - apply triple_ret. intros s [[? _]|[? _]]; (split; [done|]); done.
Qed.

Lemma remove_file_spec φ v cs ps prefix p expected :
  U p → p ∈ ps →
  triple (at_state φ v cs ps) (remove_file follow_symlinks prefix p expected)
    (λ _, at_state φ (delete p v) cs ps) (at_state φ v cs ps).
Proof.
  intros HU Hp. unfold remove_file. eapply (triple_bind _ _ _ (λ _, at_state φ v cs ps)).
  { eapply triple_bind; [apply ensure_not_directory_spec|].
    intros [e|[]]; simpl; [by apply triple_fail|by apply triple_ret]. }
  intros []. eapply triple_bind; [by apply remove_call_spec|].
  intros [e|[]]; simpl; [|by apply triple_ret].
  eapply triple_bind; [by apply side_effect_free_spec|]. intros b.
  eapply (triple_bind _ _ _ (λ _, at_state φ v cs ps)); [|intros []; intros s Hs; exact Hs].
  intros [w d] [Hc H]. split; [done|]. intros [[He ->]%andb_prop HT]. by apply H.
Qed.

(** ** What a hunk means for the files

    The reference: a patch as a partial function on path-indexed text. *)
Definition hunk_spec (h : Hunk) v : option (gmap P str) :=
  match h with
  | AddFile path contents =>
      p ← maybe inr (path_join cwd path);
      Some (<[p := contents]> v)
  | DeleteFile path =>
      p ← maybe inr (path_join cwd path);
      _ ← v !! p;
      Some (delete p v)
  | UpdateFile path move_path chunks =>
      p ← maybe inr (path_join cwd path);
      old ← v !! p;
      new ← match new_contents_from_chunks old (inferred_native_path_string p) chunks with
            | Ok new => Some new
            | _ => None
            end;
      match move_path with
      | Some dest => d ← maybe inr (path_join cwd dest); Some (delete p (<[d := new]> v))
      | None => Some (<[p := new]> v)
      end
  end.

Fixpoint patch_spec (hs : list Hunk) v : option (gmap P str) :=
  match hs with
  | [] => Some v
  | h :: hs => hunk_spec h v ≫= patch_spec hs
  end.

Definition applied (h : Hunk) v cs (s : @PatchState W P) : Prop :=
  committed v cs s ∧ (live s → hunk_spec h v = Some (view s.1) ∧ settled s.1).

Lemma push_change_spec φ v v' cs ps c h E :
  (φ → v' = redo v c ∧ records v c ∧ hunk_spec h v = Some v') →
  triple (at_state φ v' cs ps) (push_change c) (λ _, applied h v cs) E.
Proof.
  intros Hφ [w d] [Hc H]. simpl in *. split.
  - exists [c]. split; [by simpl; rewrite Hc|]. simpl. intros He.
    destruct (H He) as (Hf & -> & _). naive_solver.
  - simpl. intros He. destruct (H He) as (Hf & -> & _ & Hs). naive_solver.
Qed.

Lemma resolve_spec Pre path (E : PatchState → Prop) :
  (∀ s, Pre s → E s) →
  triple Pre (resolve cwd path) (λ p s, path_join cwd path = inr p ∧ Pre s) E.
Proof. intros H s Hs. unfold resolve. destruct (path_join cwd path) eqn:E'; [by apply H|done]. Qed.

(** A pure fact of the precondition may be assumed. *)
Lemma triple_pure {A} (ψ : Prop) Pre (m : M _ A) Q E :
  (ψ → triple Pre m Q E) → triple (λ s, ψ ∧ Pre s) m Q E.
Proof. intros H s [Hψ Hs]. by apply H. Qed.

Lemma apply_add_spec path p contents v cs :
  path_join cwd path = inr p →
  triple (at_state True v cs []) (apply_add follow_symlinks p contents)
    (λ _, applied (AddFile path contents) v cs) (committed v cs).
Proof.
  intros Hj. eapply triple_bind; [apply read_optional_spec|]. intros o.
  eapply triple_bind; [apply try_write_spec, write_retry_spec; by left|]. intros [].
  apply push_change_spec. simpl. rewrite Hj. unfold records. naive_solver.
Qed.

(** The paths a hunk removes. *)
Definition removes (h : Hunk) (q : P) : Prop :=
  match h with
  | DeleteFile path | UpdateFile path (Some _) _ => path_join cwd path = inr q
  | _ => False
  end.

Lemma apply_delete_spec path p v cs :
  U p → path_join cwd path = inr p →
  triple (at_state True v cs []) (apply_delete follow_symlinks p)
    (λ _, applied (DeleteFile path) v cs) (committed v cs).
Proof.
  intros HU Hj. eapply triple_bind; [apply note_spec|]. intros [].
  eapply triple_bind; [apply read_spec; by left|]. intros r.
  set (o := match r with inr content => Some content | inl _ => None end). simpl.
  eapply (triple_bind _ _ _ (λ _, at_state (is_Some o ∧ v !! p = o) v cs [p])).
  { destruct r; simpl; [|apply triple_ret; intros s; apply at_state_weaken; [|done]; naive_solver].
    apply inexact_spec. by intros s [? _]. }
  intros []. eapply triple_bind.
  { eapply triple_error; [apply remove_file_spec; [done|by left]|]. intros s. apply committed_at. }
  intros []. destruct o as [content|] eqn:Eo.
  - apply push_change_spec. simpl. rewrite Hj. unfold records. simpl.
    intros [_ Hv]. by rewrite Hv.
  - apply triple_ret. intros s [Hc H]. split; [exists []; rewrite app_nil_r; split; [done|]|];
      intros He; destruct (H He) as ([[? ?] _] & _); done.
Qed.

Lemma apply_in_place_spec path p p' chunks v cs :
  path_join cwd path = inr p →
  triple (at_state (v !! p = Some (original_contents p') ∧
      new_contents_from_chunks (original_contents p') (inferred_native_path_string p) chunks
        = Ok (new_contents p')) v cs [p])
    (apply_in_place follow_symlinks p p')
    (λ _, applied (UpdateFile path None chunks) v cs) (committed v cs).
Proof.
  intros Hj. eapply triple_bind; [apply try_write_spec, write_once_spec; by left|].
  intros []. apply push_change_spec. simpl. rewrite Hj. unfold records. simpl.
  intros [Hv Hn]. rewrite Hv. simpl. by rewrite Hn.
Qed.

Lemma apply_move_spec path p dest p' chunks v cs :
  U p → path_join cwd path = inr p →
  triple (at_state (v !! p = Some (original_contents p') ∧
      new_contents_from_chunks (original_contents p') (inferred_native_path_string p) chunks
        = Ok (new_contents p')) v cs [p])
    (apply_move follow_symlinks cwd p dest p')
    (λ _, applied (UpdateFile path (Some dest) chunks) v cs) (committed v cs).
Proof.
  intros HU Hj. eapply triple_bind; [apply resolve_spec; intros s; apply committed_at|].
  intros d. apply triple_pure. intros Hd.
  eapply triple_bind; [apply read_optional_spec|]. intros o.
  eapply triple_bind; [apply try_write_spec, write_retry_spec; by left|]. intros [].
  eapply (triple_bind _ _ _ (λ i s, i = length cs ∧ at_state _ _ cs _ s)).
  { intros s [Hc H]. split; [by rewrite Hc|]. split; [done|exact H]. }
  intros i. apply triple_pure. intros ->.
  eapply (triple_bind _ _ _ (λ _, at_state _ _ (cs ++ [_]) [d; p])).
  { intros s [Hc H]. split; [by simpl; rewrite Hc|exact H]. }
  intros []. eapply triple_bind.
  { eapply triple_error; [apply remove_file_spec; [done|right; by left]|].
    intros s [Hc H]. eexists [_]. split; [exact Hc|]. intros He.
    destruct (H He) as ([_ Ho] & -> & _). by simpl. }
  intros [] s [Hc H]. unfold set_change. rewrite decide_True
    by (rewrite Hc, length_app; simpl; lia).
  split; [eexists [_]; split; [simpl; by rewrite Hc, insert_app_r_alt, Nat.sub_diag|]|];
    simpl; intros He; destruct (H He) as (((Hv & Hn) & Ho) & -> & _ & Hs); unfold records; simpl.
  - done.
  - split; [|done]. rewrite Hj. simpl. rewrite Hv. simpl. rewrite Hn. simpl. by rewrite Hd.
Qed.

Definition hunk_wf (h : Hunk) : Prop :=
  match h with UpdateFile _ _ chunks => Forall chunk_wf chunks | _ => True end.

Lemma apply_update_spec path p move_path chunks v cs :
  (∀ q, removes (UpdateFile path move_path chunks) q → U q) → Forall chunk_wf chunks → path_join cwd path = inr p →
  triple (at_state True v cs []) (apply_update follow_symlinks cwd p move_path chunks)
    (λ _, applied (UpdateFile path move_path chunks) v cs) (committed v cs).
Proof.
  intros HU Hwf Hj. eapply triple_bind; [apply note_spec|]. intros [].
  eapply (triple_bind _ _ _ (λ p', at_state (v !! p = Some (original_contents p') ∧
      new_contents_from_chunks (original_contents p') (inferred_native_path_string p) chunks
        = Ok (new_contents p')) v cs [p])).
  - eapply triple_bind; [apply read_spec; by left|]. intros [e|old]; simpl.
    { apply triple_fail. intros s. apply committed_at. }
    pose proof (new_contents_no_panic old (inferred_native_path_string p) chunks Hwf) as Hnp.
    destruct (new_contents_from_chunks _ _ _) as [new|e|] eqn:En; [| |done].
    + apply triple_ret. intros s. apply at_state_weaken; [|done]. naive_solver.
    + apply triple_fail. intros s. apply committed_at.
  - intros p'. destruct move_path; [apply apply_move_spec; [by apply HU|done]|by apply apply_in_place_spec].
Qed.

Lemma apply_hunk_spec h v cs :
  (∀ q, removes h q → U q) → hunk_wf h →
  triple (at_state True v cs []) (apply_hunk follow_symlinks cwd h)
    (λ _, applied h v cs) (committed v cs).
Proof.
  intros HU Hwf. eapply triple_bind.
  { apply resolve_spec. intros s. apply committed_at. }
  intros p. apply triple_pure. destruct h; simpl;
    [apply apply_add_spec|intros Hj; by apply apply_delete_spec; [apply HU|]|by apply apply_update_spec].
Qed.

Lemma hunks_loop_spec hs a v cs :
  (∀ h q, h ∈ hs → removes h q → U q) → Forall hunk_wf hs →
  triple (at_state True v cs []) (hunks_loop follow_symlinks cwd hs a)
    (λ a' s, committed v cs s ∧ (live s → patch_spec hs v = Some (view s.1)))
    (committed v cs).
Proof.
  intros HU Hwf. revert a v cs HU. induction Hwf as [|h hs Hh _ IH]; intros a v cs HU; simpl.
  { apply triple_ret. intros s Hs. split; [by eapply committed_at|].
    intros He. by destruct Hs as [_ (_ & -> & _)]. }
  intros s Hs. pose proof (apply_hunk_spec h v cs (λ q, HU h q ltac:(by left)) Hh s Hs) as H1.
  unfold mbind, M_bind. destruct (apply_hunk _ _ h s) as [[[]|e|] s1]; [|done..].
  destruct H1 as [(ds & Hds & Hv1) Hspec].
  specialize (IH (push_affected h a) (view s1.1) (cs ++ ds)
    (λ h' q Hin, HU h' q ltac:(by right)) s1).
  assert (at_state True (view s1.1) (cs ++ ds) [] s1) as Hs1.
  { split; [done|]. intros [_ ?]%Hspec. split; [done|]. split; [done|]. by split. }
  assert (∀ s2, committed (view s1.1) (cs ++ ds) s2 → (live s2 → live s1) →
    committed v cs s2) as Hcomp.
  { intros s2 (es & Hes & H2) Hex. exists (ds ++ es). rewrite Hes, (assoc_L (++)). split; [done|].
    intros He. destruct (H2 He) as [Hv2 Hr2], (Hv1 (Hex He)) as [Hvs1 Hr1].
    rewrite redo_all_app, records_all_app, <-Hvs1. done. }
  assert (∀ s2 r, hunks_loop follow_symlinks cwd hs (push_affected h a) s1 = (r, s2) →
    live s2 → live s1) as Hmono.
  { intros s2 r E [He HT]. split; [|done].
    pose proof (hunks_loop_keeps follow_symlinks cwd hs (push_affected h a) s1) as Hm.
    rewrite E in Hm. by apply Hm. }
  destruct (hunks_loop _ _ hs _ s1) as [[a'|e|] s2] eqn:E2.
  - destruct (IH Hs1) as (Hc & Hp). split; [by eauto|].
    intros He. destruct (Hspec (Hmono _ _ eq_refl He)) as [-> _]. simpl. by apply Hp.
  - apply Hcomp; [|by eauto]. by apply IH.
  - by apply IH.
Qed.

Lemma hunk_complete_wf h : hunk_complete h → hunk_wf h.
Proof.
  destruct h; simpl; [done..|]. intros [_ H]. eapply Forall_impl; [exact H|]. by intros c [? _].
Qed.

(** The whole application, from an empty delta. *)
Lemma application_spec hs w :
  (∀ h q, h ∈ hs → removes h q → U q) → Forall hunk_wf hs → (T → settled w) →
  let '(r, s) := apply_hunks_to_files follow_symlinks cwd hs (w, empty_delta) in
    r ≠ Panic ∧ committed (view w) [] s
    ∧ ∀ a, r = Ok a → live s → patch_spec hs (view w) = Some (view s.1).
Proof.
  intros HU Hwf Hset. unfold apply_hunks_to_files. destruct (is_empty hs).
  { simpl. repeat split; try done. by exists []. }
  assert (at_state True (view w) [] [] (w, empty_delta)) as Hstart.
  { split; [done|]. intros [_ HT]. split; [done|]. split; [done|]. split; [done|]. by apply Hset. }
  pose proof (hunks_loop_spec hs {| added := []; modified := []; deleted := [] |} (view w) []
    HU Hwf _ Hstart) as H.
  destruct (hunks_loop _ _ _ _ _) as [[a|e|] s]; [|naive_solver..].
  destruct H as (? & ?). split; [done|]. split; [done|]. by intros a' [= <-].
Qed.
End hoare.

(** ** The properties *)

(** The application never panics, whatever the file system does. *)
Lemma apply_hunks_to_files_no_panic {W P : Type} {FS : FileSystem W P} {PU : PathUri P}
    {EqP : EqDecision P} {CoP : Countable P} follow_symlinks (cwd : P) hs (w : W) :
  Forall hunk_wf hs →
  (apply_hunks_to_files follow_symlinks cwd hs (w, empty_delta)).1 ≠ Panic.
Proof.
  intros Hwf. pose proof (application_spec (L:=no_laws FS) follow_symlinks cwd False (λ _, True)
    hs w ltac:(done) Hwf ltac:(done)) as H.
  destruct (apply_hunks_to_files _ _ _ _). naive_solver.
Qed.

Section properties.
Context {W P : Type} {FS : FileSystem W P} {PU : PathUri P}
  {EqP : EqDecision P} {CoP : Countable P} {L : FileSystemLaws FS}.

(** What the start of an application has to satisfy for its delta to be
    trusted: the world is tidy, and no symbolic link leads to a file that one
    of the hunks removes. *)
Definition links_ok (cwd : P) (hs : list Hunk) (w : W) : Prop :=
  tidy w ∧ ∀ h q, h ∈ hs → removes cwd h q → unlinked q w.

Lemma apply_hunks_to_files_spec follow_symlinks (cwd : P) hs w r w' d :
  Forall hunk_wf hs → links_ok cwd hs w →
  apply_hunks_to_files follow_symlinks cwd hs (w, empty_delta) = (r, (w', d)) →
  exact d = true →
  view w' = redo_all (delta_changes d) (view w) ∧ records_all (view w) (delta_changes d)
  ∧ ∀ a, r = Ok a → patch_spec cwd hs (view w) = Some (view w').
Proof.
  intros Hwf [Ht Hu] E He.
  pose proof (application_spec follow_symlinks cwd True (λ q, ∃ h, h ∈ hs ∧ removes cwd h q) hs w) as H.
  rewrite E in H. destruct H as (_ & (ds & Hds & H) & Hok); [by eauto|done| |].
  { intros _. split; [done|]. intros q (h & Hh & Hq). by apply (Hu h). }
  simpl in *. subst ds. destruct (H (conj He I)) as [Hv Hr].
  split; [done|]. split; [done|]. intros a Ha. by apply (Hok a).
Qed.

(** C2: however an application of well-formed hunks ends, with success or with
    an error half-way, if the delta it reports is marked exact then replaying
    the delta's changes in order on the files before gives exactly the files
    after, and undoing them in reverse order gives back the files before.
    The application starts in a world without dangling symbolic links or files
    of two names, in which no link leads to a file the hunks remove; without
    this an exact delta can be wrong ([MemFs.dangling_link_delta_is_wrong]). *)
Theorem exact_delta_replays_and_undoes follow_symlinks (cwd : P) hs w r w' d :
  Forall hunk_wf hs → links_ok cwd hs w →
  apply_hunks_to_files follow_symlinks cwd hs (w, empty_delta) = (r, (w', d)) →
  exact d = true →
  view w' = redo_all (delta_changes d) (view w)
  ∧ undo_all (delta_changes d) (view w') = view w.
Proof.
  intros Hwf Hl E He. destruct (apply_hunks_to_files_spec _ _ _ _ _ _ _ Hwf Hl E He) as (-> & Hr & _).
  split; [done|]. by apply undo_redo_all.
Qed.

(** C3: a successful application whose delta is exact implements the reference
    semantics of the patch (each hunk a partial function on the files), when
    it starts in a world whose links are as in C2. *)
Theorem apply_hunks_refines_patch_spec follow_symlinks (cwd : P) hs w a w' d :
  Forall hunk_wf hs → links_ok cwd hs w →
  apply_hunks_to_files follow_symlinks cwd hs (w, empty_delta) = (Ok a, (w', d)) →
  exact d = true →
  patch_spec cwd hs (view w) = Some (view w').
Proof.
  intros Hwf Hl E He. by eapply (apply_hunks_to_files_spec _ _ _ _ _ _ _ Hwf Hl E He).
Qed.
End properties.

Section whole.
Context {W P O : Type} {FS : FileSystem W P} {PU : PathUri P} {WR : Write O}
  {EqP : EqDecision P} {CoP : Countable P} {L : FileSystemLaws FS}.

(** What an answer says of the files: with [d] exact, replaying it gives the
    files after the application and undoing it those before. *)
Definition accounts_for (d : AppliedPatchDelta P) (w w' : W) : Prop :=
  exact d = true →
  view w' = redo_all (delta_changes d) (view w) ∧ undo_all (delta_changes d) (view w') = view w.

(** C40: [apply_patch] never panics, whatever the text, the file system and the
    writers do.  A text that does not parse leaves the files and the standard
    output alone and fails with the parse error (or the error of writing the
    message) and an empty delta.  Otherwise, when the links of the file system
    are as in [links_ok], an exact delta accounts for what happened to the
    files, also when the application fails, and a success with an exact delta
    has made the files what the patch means. *)
Theorem apply_patch_contract patch (cwd : P) (out err : O) (w : W) :
  let o := apply_patch patch cwd out err w in
  match parse_patch patch with
  | Err e =>
      world o = w ∧ stdout o = out
      ∧ ∃ x, result o = Err {| failure_error := x; failure_delta := empty_delta |}
          ∧ (x = PatchParseError e ∨ ∃ i, x = IoError (lit "I/O error") i)
  | Ok args =>
      match result o with
      | Panic => False
      | Err f => links_ok cwd (args_hunks args) w → accounts_for (failure_delta f) w (world o)
      | Ok d =>
          links_ok cwd (args_hunks args) w →
          accounts_for d w (world o)
          ∧ (exact d = true → patch_spec cwd (args_hunks args) (view w) = Some (view (world o)))
      end
  | Panic => False
  end.
Proof.
  unfold apply_patch, apply_patch_with_options.
  destruct (parse_patch_text_inv patch (if PARSE_IN_STRICT_MODE then Strict else Lenient))
    as [Hnp Hok]. unfold parse_patch.
  destruct (parse_patch_text _ _) as [args|e|]; [|cbv zeta|done].
  2: { destruct (write_line _ err) as [[i|[]] err']; simpl; eauto 10. }
  specialize (Hok args eq_refl).
  assert (Forall hunk_wf (args_hunks args)) as Hwf by exact (Forall_impl _ _ _ Hok hunk_complete_wf).
  unfold apply_hunks_with_options.
  pose proof (apply_hunks_to_files_no_panic true cwd (args_hunks args) w Hwf) as Hp.
  destruct (apply_hunks_to_files _ _ _ _) as [r [w' d]] eqn:E.
  assert (links_ok cwd (args_hunks args) w → accounts_for d w w'
    ∧ ∀ a, r = Ok a → exact d = true →
        patch_spec cwd (args_hunks args) (view w) = Some (view w')) as H.
  { intros Hl. split.
    - intros He. destruct (apply_hunks_to_files_spec _ _ _ _ _ _ _ Hwf Hl E He) as (-> & Hr & _).
      split; [done|]. by apply undo_redo_all.
    - intros a Ha He. by eapply (apply_hunks_to_files_spec _ _ _ _ _ _ _ Hwf Hl E He). }
  destruct r as [a|e|]; [| |done].
  - destruct (print_summary a out) as [[i|[]] out']; simpl; [by intros [? _]%H|].
    intros [? Hs]%H. split; [done|]. by apply (Hs a).
  - destruct (write_line _ err) as [[i|[]] err']; simpl; by intros [? _]%H.
Qed.
End whole.

Section self_move.
Context {W P : Type} {FS : FileSystem W P} {PU : PathUri P}
  {EqP : EqDecision P} {CoP : Countable P} {L : FileSystemLaws FS}.

(** An update whose move destination resolves to the file itself deletes
    the file: the new contents are written to the path and the path is then
    removed as the original. *)
Theorem self_move_deletes_the_file follow_symlinks (cwd p : P) path dest chunks w a w' d :
  Forall chunk_wf chunks → tidy w → unlinked p w →
  path_join cwd path = inr p → path_join cwd dest = inr p →
  apply_hunks_to_files follow_symlinks cwd [UpdateFile path (Some dest) chunks]
    (w, empty_delta) = (Ok a, (w', d)) →
  exact d = true →
  view w' !! p = None.
Proof.
  intros Hwf Ht Hu Hp Hd E He.
  destruct (apply_hunks_to_files_spec follow_symlinks cwd
    [UpdateFile path (Some dest) chunks] w (Ok a) w' d) as (_ & _ & Hs); [by repeat constructor| |done..|].
  { split; [done|]. intros h q ->%list_elem_of_singleton. simpl. rewrite Hp. by intros [= <-]. }
  specialize (Hs a eq_refl). simpl in Hs. rewrite Hp in Hs. simpl in Hs.
  destruct (view w !! p); simpl in Hs; [|done].
  destruct (new_contents_from_chunks _ _ _); simpl in Hs; [|done..].
  rewrite Hd in Hs. simpl in Hs. injection Hs as <-. apply lookup_delete_eq.
Qed.
End self_move.
