(* ===== verification/Float64.v ===== *)
(** * IEEE 754 binary64

    [f64] as the Standard Library's executable specification of floating-point
    numbers, with 53 bits of precision and exponents below 1024, and the order
    that comparisons follow.  The transcendental functions of libm ([ln],
    [powf]) are parameters of the developments that use them. *)
From Stdlib Require Import ZArith SpecFloat.
From S2P Require Import Prelude.

Abbreviation f64 := spec_float.

Definition fadd : f64 → f64 → f64 := SFadd 53 1024.
Definition fsub : f64 → f64 → f64 := SFsub 53 1024.
Definition fmul : f64 → f64 → f64 := SFmul 53 1024.
Definition fdiv : f64 → f64 → f64 := SFdiv 53 1024.
Definition fsqrt : f64 → f64 := SFsqrt 53 1024.
Definition fneg : f64 → f64 := SFopp.

(** [x as f64] for an integer. *)
Definition of_Z (z : Z) : f64 := binary_normalize 53 1024 z 0 false.
Definition of_nat (n : nat) : f64 := of_Z (Z.of_nat n).

(** A decimal literal [num / den]: the quotient of two integers that floats
    represent is the nearest float, which is what a literal denotes. *)
Definition ratio (num den : Z) : f64 := fdiv (of_Z num) (of_Z den).

Definition INFINITY : f64 := S754_infinity false.
Definition NEG_INFINITY : f64 := S754_infinity true.
Definition fzero : f64 := S754_zero false.

Definition is_nan (x : f64) : bool := match x with S754_nan => true | _ => false end.
Definition is_finite (x : f64) : bool :=
  match x with S754_zero _ | S754_finite _ _ _ => true | _ => false end.

(** [x > y], [x < y], [x == y]: false on a NaN. *)
Definition fgt (x y : f64) : bool := SFltb y x.
Definition flt (x y : f64) : bool := SFltb x y.
Definition feq (x y : f64) : bool := SFeqb x y.

(** [f64::max], [f64::min]: the other operand of a NaN. *)
Definition fmax (x y : f64) : f64 :=
  if is_nan x then y else if is_nan y then x else if flt x y then y else x.
Definition fmin (x y : f64) : f64 :=
  if is_nan x then y else if is_nan y then x else if flt y x then y else x.

(** [f64::trunc]. *)
Definition ftrunc (x : f64) : f64 :=
  match x with
  | S754_finite s m e =>
      if (0 <=? e)%Z then x
      else
        let q := (Z.pos m / 2 ^ (- e))%Z in
        match q with
        | Z0 => S754_zero s
        | _ => of_Z (if s then - q else q)%Z
        end
  | _ => x
  end.

(** ** The order of the comparisons

    Every value but a NaN has a place on a line of triples in lexicographic
    order. *)
Definition rank (x : f64) : Z * Z * Z :=
  match x with
  | S754_infinity true => (-2, 0, 0)
  | S754_finite true m e => (-1, - e, - Z.pos m)
  | S754_zero _ => (0, 0, 0)
  | S754_finite false m e => (1, e, Z.pos m)
  | S754_infinity false => (2, 0, 0)
  | S754_nan => (0, 0, 0)
  end%Z.

Definition rank_lt (a b : Z * Z * Z) : Prop :=
  let '(x, y, z) := a in let '(x', y', z') := b in
  (x < x' ∨ (x = x' ∧ (y < y' ∨ (y = y' ∧ z < z'))))%Z.

Lemma rank_lt_irrefl a : ¬ rank_lt a a.
Proof. destruct a as [[x y] z]. simpl. lia. Qed.
Lemma rank_lt_trans a b c : rank_lt a b → rank_lt b c → rank_lt a c.
Proof. destruct a as [[??]?], b as [[??]?], c as [[??]?]. simpl. lia. Qed.
(** Negative transitivity. *)
Lemma rank_lt_split a b c : rank_lt a c → rank_lt a b ∨ rank_lt b c.
Proof. destruct a as [[??]?], b as [[??]?], c as [[??]?]. simpl. lia. Qed.

Lemma flt_rank x y :
  is_nan x = false → is_nan y = false → flt x y = true ↔ rank_lt (rank x) (rank y).
Proof.
  intros Hx Hy. unfold flt, SFltb.
  destruct x as [[]|[]| |[] mx ex], y as [[]|[]| |[] my ey]; try done; simpl;
    try (split; [done|lia]); try (split; [lia|done]).
  - destruct (Z.compare_spec ex ey) as [->|?|?]; [|split; [done|lia]|split; [lia|done]].
    change (Pos.compare_cont Eq mx my) with (Pos.compare mx my).
    destruct (Pos.compare_spec mx my) as [->|?|?]; simpl; split; try done; lia.
  - destruct (Z.compare_spec ex ey) as [->|?|?]; [|split; [lia|done]|split; [done|lia]].
    change (Pos.compare_cont Eq mx my) with (Pos.compare mx my).
    destruct (Pos.compare_spec mx my) as [->|?|?]; simpl; split; try done; lia.
Qed.

Lemma fgt_rank x y :
  is_nan x = false → is_nan y = false → fgt x y = true ↔ rank_lt (rank y) (rank x).
Proof. intros. by apply flt_rank. Qed.

Lemma feq_rank x y :
  is_nan x = false → is_nan y = false → feq x y = true ↔ rank x = rank y.
Proof.
  intros Hx Hy. unfold feq, SFeqb.
  destruct x as [[]|[]| |[] mx ex], y as [[]|[]| |[] my ey]; try done; simpl.
  - destruct (Z.compare_spec ex ey) as [->|?|?]; [|split; [done|intros [= ?]; lia]..].
    change (Pos.compare_cont Eq mx my) with (Pos.compare mx my).
    destruct (Pos.compare_spec mx my) as [->|?|?]; simpl; split; try done; intros [= ?]; lia.
  - destruct (Z.compare_spec ex ey) as [->|?|?]; [|split; [done|intros [= ?]; lia]..].
    change (Pos.compare_cont Eq mx my) with (Pos.compare mx my).
    destruct (Pos.compare_spec mx my) as [->|?|?]; simpl; split; try done; intros [= ?]; lia.
Qed.

Lemma is_finite_not_nan x : is_finite x = true → is_nan x = false.
Proof. by destruct x. Qed.

Lemma fneg_not_nan x : is_nan x = false → is_nan (fneg x) = false.
Proof. by destruct x. Qed.
Lemma fmin_not_nan x y : is_nan y = false → is_nan (fmin x y) = false.
Proof. intros Hy. unfold fmin. destruct (is_nan x) eqn:E; [done|]. rewrite Hy. by case_match. Qed.
