(* ===== verification/Json.v ===== *)
(** * JSON values

    [serde_json::Value] and the accessors the sources use.  The keys of an
    object are distinct, so that [get] is the first entry of a key. *)
From Stdlib Require Import ZArith.
From S2P Require Import Prelude Str Float64.

Inductive Number :=
  | PosInt (n : N)
  | NegInt (z : Z)
  | Float (x : f64).

Inductive Value :=
  | Null
  | Bool (b : bool)
  | Num (n : Number)
  | String (s : str)
  | Array (l : list Value)
  | Object (m : list (str * Value)).

Definition number_as_f64 (n : Number) : f64 :=
  match n with PosInt n => of_Z (Z.of_N n) | NegInt z => of_Z z | Float x => x end.

Definition as_f64 (v : Value) : option f64 :=
  match v with Num n => Some (number_as_f64 n) | _ => None end.
Definition as_str (v : Value) : option str :=
  match v with String s => Some s | _ => None end.
Definition as_object (v : Value) : option (list (str * Value)) :=
  match v with Object m => Some m | _ => None end.
Definition is_object (v : Value) : bool := is_some (as_object v).

(** [Value::get] with a key. *)
Definition get (v : Value) (key : str) : option Value :=
  m ← as_object v; snd <$> find_first (λ e, str_eqb e.1 key) m.
