(* ===== verification/Search.v ===== *)
(** * kernel-search: the search tree

    The crate [kernel-search]: its configuration ([config.rs]), nodes and
    outcomes ([node.rs]), the greedy and Monte-Carlo selections ([greedy.rs],
    [mcts.rs]) and the state machine that records batches of measured outcomes
    ([lib.rs]).  An out-of-range index is a panic of [res]; errors are
    [anyhow] messages.  [ln] and [powf] are parameters. *)
From Stdlib Require Import ZArith.
From S2P Require Import Prelude Str Float64 Json.

Abbreviation NodeId := nat.
Definition ROOT : NodeId := 0.

(** ** Configuration *)
Inductive Strategy := Greedy | Mcts.
#[export] Instance Strategy_eq_dec : EqDecision Strategy.
Proof. solve_decision. Defined.

Record SearchConfig := {
  max_iterations_opt : option nat;
  num_candidates_opt : option nat;
  max_consecutive_failures : option nat;
  speedup_threshold : option f64;
  use_recent_failed_only : option bool;
  exploration_constant : option f64;
  pw_alpha : option f64;
  pw_c_root : option f64;
  pw_c_repair : option f64;
  pw_c_optimize : option f64;
  max_children_per_node : option nat;
}.

Definition max_iterations (c : SearchConfig) (s : Strategy) : nat :=
  default (match s with Greedy => 3 | Mcts => 10 end) (max_iterations_opt c).
Definition num_candidates (c : SearchConfig) : nat := default 2 (num_candidates_opt c).

Abbreviation result := (res str).

Definition validate_config (c : SearchConfig) : result unit :=
  ensure (forallb (is_none_or is_finite)
    [speedup_threshold c; exploration_constant c; pw_alpha c; pw_c_root c; pw_c_repair c;
     pw_c_optimize c]) (lit "search parameters must be finite").

(** ** Nodes *)
Inductive Status := Pending | Success | Failed | Discarded.
#[export] Instance Status_eq_dec : EqDecision Status.
Proof. solve_decision. Defined.

Record Outcome := {
  status : Status;
  outcome_speedup : option f64;
  error_context : option Value;
}.

Definition validate (o : Outcome) : result unit :=
  ensure (negb (bool_decide (status o = Pending))) (lit "cannot commit a pending outcome");;
  match outcome_speedup o with
  | Some speedup => ensure (is_finite speedup) (lit "speedup must be finite")
  | None => Ok tt
  end;;
  (if bool_decide (status o = Success)
   then ensure (is_some (outcome_speedup o)) (lit "success requires a measured speedup")
   else Ok tt);;
  match error_context o with
  | Some error =>
      ensure (is_object error) (lit "error_context must be an object");;
      match get error (lit "max_diff") with
      | Some diff => ensure (is_some (as_f64 diff)) (lit "max_diff must be numeric")
      | None => Ok tt
      end
  | None => Ok tt
  end.

Record Node := {
  id : NodeId;
  node_name : str;
  iteration : Z;
  parent : option NodeId;
  children : list NodeId;
  outcome : Outcome;
  visits : nat;
  total_reward : f64;
  terminal : bool;
}.

Definition speedup (n : Node) : f64 := default fzero (outcome_speedup (outcome n)).
Definition successful (n : Node) : bool := bool_decide (status (outcome n) = Success).

(** The assignments to a node's fields. *)
Definition push_child (c : NodeId) (n : Node) : Node :=
  {| id := id n; node_name := node_name n; iteration := iteration n; parent := parent n;
     children := children n ++ [c]; outcome := outcome n; visits := visits n;
     total_reward := total_reward n; terminal := terminal n |}.
Definition set_parent (p : NodeId) (n : Node) : Node :=
  {| id := id n; node_name := node_name n; iteration := iteration n; parent := Some p;
     children := children n; outcome := outcome n; visits := visits n;
     total_reward := total_reward n; terminal := terminal n |}.
Definition visit (reward : f64) (n : Node) : Node :=
  {| id := id n; node_name := node_name n; iteration := iteration n; parent := parent n;
     children := children n; outcome := outcome n; visits := S (visits n);
     total_reward := fadd (total_reward n) reward; terminal := terminal n |}.
Definition set_terminal (n : Node) : Node :=
  {| id := id n; node_name := node_name n; iteration := iteration n; parent := parent n;
     children := children n; outcome := outcome n; visits := visits n;
     total_reward := total_reward n; terminal := true |}.

(** ** The state *)
Record SearchState := {
  strategy : Strategy;
  config : SearchConfig;
  nodes : list Node;
  current_iteration : nat;
  current_best : option NodeId;
  consecutive_failures : nat;
  speedup_history : list f64;
  root_expansions : nat;
  pw_gate_closures : nat;
  virtual_child_wins : nat;
}.

Definition with_nodes (ns : list Node) (st : SearchState) : SearchState :=
  {| strategy := strategy st; config := config st; nodes := ns;
     current_iteration := current_iteration st; current_best := current_best st;
     consecutive_failures := consecutive_failures st; speedup_history := speedup_history st;
     root_expansions := root_expansions st; pw_gate_closures := pw_gate_closures st;
     virtual_child_wins := virtual_child_wins st |}.
Definition with_counters (re pw vw : nat) (st : SearchState) : SearchState :=
  {| strategy := strategy st; config := config st; nodes := nodes st;
     current_iteration := current_iteration st; current_best := current_best st;
     consecutive_failures := consecutive_failures st; speedup_history := speedup_history st;
     root_expansions := root_expansions st + re; pw_gate_closures := pw_gate_closures st + pw;
     virtual_child_wins := virtual_child_wins st + vw |}.

Definition root_node : Node :=
  {| id := ROOT; node_name := lit "ROOT"; iteration := -1; parent := None; children := [];
     outcome := {| status := Pending; outcome_speedup := None; error_context := None |};
     visits := 0; total_reward := fzero; terminal := false |}.

(** [SearchState::new]. *)
Definition new (s : Strategy) (c : SearchConfig) : result SearchState :=
  validate_config c;;
  Ok {| strategy := s; config := c; nodes := [root_node]; current_iteration := 0;
        current_best := None; consecutive_failures := 0; speedup_history := [];
        root_expansions := 0; pw_gate_closures := 0; virtual_child_wins := 0 |}.

Definition should_continue (st : SearchState) : result bool :=
  if bool_decide (max_iterations (config st) (strategy st) ≤ current_iteration st) then Ok false
  else if bool_decide (strategy st = Greedy) && bool_decide (2 ≤ length (speedup_history st)) then
    let n := length (speedup_history st) in
    last ← index (speedup_history st) (n - 1);
    prev ← index (speedup_history st) (n - 2);
    Ok (negb (flt (fsub last prev) (default (ratio 1 10) (speedup_threshold (config st)))))
  else Ok true.

(** [self.nodes[i]] and [self.nodes[i].f(..)]. *)
Definition node (st : SearchState) (i : NodeId) : result Node := index (nodes st) i.
Definition update (i : NodeId) (f : Node → Node) (ns : list Node) : result (list Node) :=
  match ns !! i with Some n => Ok (<[i := f n]> ns) | None => Panic end.

(** ** Greedy selection *)

Definition stage_of (error_type : option str) : nat :=
  match error_type with
  | Some t =>
      if str_eqb t (lit "correctness_error") then 3
      else if existsb (str_eqb t) [lit "RuntimeError"; lit "CudaError"; lit "execution_error";
                                   lit "cuda_compile_runtime_error"] then 2
      else if existsb (str_eqb t) [lit "SyntaxError"; lit "ImportError"] then 1
      else 0
  | None => 0
  end.

Definition priority (n : Node) : nat * f64 * f64 :=
  match error_context (outcome n) with
  | None => (0, fzero, fzero)
  | Some error =>
      if is_some_and is_empty (as_object error) then (0, fzero, fzero)
      else
        let stage := stage_of (get error (lit "error_type") ≫= as_str) in
        let diff := default fzero (get error (lit "max_diff") ≫= as_f64) in
        (stage, fneg diff, fmin (speedup n) (of_Z 2))
  end.

(** [>] on the tuples of [priority]: lexicographic, false on a NaN. *)
Definition priority_gt (a b : nat * f64 * f64) : bool :=
  let '(s, d, x) := a in let '(s', d', x') := b in
  bool_decide (s' < s)
  || (bool_decide (s = s') && (fgt d d' || (feq d d' && fgt x x'))).

(** [iter().map(|n| n.iteration).max()]. *)
Definition most_recent (ns : list Node) : option Z :=
  foldl (λ acc n, Some (from_option (Z.max (iteration n)) (iteration n) acc)) None ns.

(** One step of the loop over the failed nodes. *)
Definition greedy_candidate (c : SearchConfig) (recent : option Z) (n : Node) : bool :=
  negb (negb (bool_decide (status (outcome n) = Failed))
        || (default true (use_recent_failed_only c)
            && negb (bool_decide (Some (iteration n) = recent)))).

Fixpoint greedy_loop (st : SearchState) (recent : option Z) (best : option NodeId)
    (ns : list Node) : result (option NodeId) :=
  match ns with
  | [] => Ok best
  | n :: ns =>
      if greedy_candidate (config st) recent n then
        wins ← match best with
               | None => Ok true
               | Some b => old ← node st b; Ok (priority_gt (priority n) (priority old))
               end;
        greedy_loop st recent (if (wins : bool) then Some (id n) else best) ns
      else greedy_loop st recent best ns
  end.

Definition select_greedy (st : SearchState) : result (option NodeId) :=
  if bool_decide (current_iteration st = 0)
     || bool_decide (default 2 (max_consecutive_failures (config st)) ≤ consecutive_failures st)
  then Ok None
  else
    use_best ← match current_best st with
               | Some best => n ← node st best; Ok (successful n)
               | None => Ok false
               end;
    if (use_best : bool) then Ok (current_best st)
    else greedy_loop st (most_recent (drop 1 (nodes st))) None (drop 1 (nodes st)).

(** [winner]. *)
Fixpoint winner_loop (st : SearchState) (best : option NodeId) (ns : list Node)
    : result (option NodeId) :=
  match ns with
  | [] => Ok best
  | n :: ns =>
      if successful n then
        wins ← match best with
               | None => Ok true
               | Some b => old ← node st b; Ok (fgt (speedup n) (speedup old))
               end;
        winner_loop st (if (wins : bool) then Some (id n) else best) ns
      else winner_loop st best ns
  end.
Definition winner (st : SearchState) : result (option NodeId) :=
  winner_loop st None (drop 1 (nodes st)).

(** ** Monte-Carlo tree search *)
Section mcts.
(** [f64::ln] and [f64::powf]. *)
Context (ln : f64 → f64) (powf : f64 → f64 → f64).

Definition mcts_reward (n : Node) : f64 :=
  if successful n then ln (fmax (speedup n) (ratio 1 10))
  else if is_some (outcome_speedup (outcome n)) then of_Z (-2)
  else of_Z (-3).

Definition mcts_score (n : Node) : f64 :=
  if negb (successful n) || feq (speedup n) fzero then NEG_INFINITY
  else ln (fmax (speedup n) (ratio 1 10)).

Definition uct (st : SearchState) (i : NodeId) : result f64 :=
  n ← node st i;
  if bool_decide (visits n = 0) then Ok INFINITY
  else
    let score := fdiv (total_reward n) (of_nat (visits n)) in
    match parent n with
    | Some p =>
        pn ← node st p;
        if bool_decide (0 < visits pn) then
          Ok (fadd score (fmul (default (ratio 1414 1000) (exploration_constant (config st)))
                (fsqrt (fdiv (ln (of_nat (visits pn))) (of_nat (visits n))))))
        else Ok score
    | None => Ok score
    end.

Definition virtual_uct (st : SearchState) (i : NodeId) : result f64 :=
  n ← node st i;
  if bool_decide (visits n = 0) then Ok INFINITY
  else
    let v := of_nat (visits n) in
    let fair := fmax (fdiv v (of_nat (length (children n) + 1))) (of_Z 1) in
    Ok (fadd (fdiv (total_reward n) v)
          (fmul (default (ratio 1414 1000) (exploration_constant (config st)))
             (fsqrt (fdiv (ln v) fair)))).

Definition can_add_child (st : SearchState) (i : NodeId) : result bool :=
  n ← node st i;
  let c :=
    if bool_decide (i = ROOT) then default (of_Z 2) (pw_c_root (config st))
    else if bool_decide (status (outcome n) = Failed)
    then default (of_Z 2) (pw_c_repair (config st))
    else default (of_Z 3) (pw_c_optimize (config st)) in
  let limit :=
    fmax (ftrunc (fmul c (powf (of_nat (visits n)) (default (ratio 1 2) (pw_alpha (config st))))))
      (of_Z 1) in
  let limit :=
    match max_children_per_node (config st) with
    | Some cap => if bool_decide (0 < cap) then fmin limit (of_nat cap) else limit
    | None => limit
    end in
  Ok (flt (of_nat (length (children n))) limit).

(** The loop over the children of a node. *)
Fixpoint best_child (st : SearchState) (cs : list NodeId) (best : option (NodeId * f64))
    : result (option (NodeId * f64)) :=
  match cs with
  | [] => Ok best
  | c :: cs =>
      n ← node st c;
      if terminal n then best_child st cs best
      else
        score ← uct st c;
        best_child st cs (if is_none_or (λ '(_, old), fgt score old) best
                          then Some (c, score) else best)
  end.

(** How the selection loop of [select_mcts] ends: it breaks at a node, or
    returns early because every child is terminal. *)
Inductive descent := BreakAt (i : NodeId) | Exhausted.

(** The loop, with fuel; without fuel left it would panic. *)
Fixpoint select_loop (fuel : nat) (st : SearchState) (i : NodeId) : result (SearchState * descent) :=
  match fuel with
  | 0 => Panic
  | S fuel =>
      n ← node st i;
      if is_empty (children n) then Ok (st, BreakAt i)
      else
        best ← best_child st (children n) None;
        match best with
        | None =>
            ns ← update i set_terminal (nodes st);
            Ok (with_nodes ns st, Exhausted)
        | Some (child, best_score) =>
            open ← can_add_child st i;
            if (open : bool) then
              v ← virtual_uct st i;
              if fgt v best_score then Ok (with_counters 0 0 1 st, BreakAt i)
              else select_loop fuel st child
            else select_loop fuel (with_counters 0 1 0 st) child
        end
  end.

Definition select_mcts (st : SearchState) : result (SearchState * option NodeId) :=
  '(st, d) ← select_loop (S (length (nodes st))) st ROOT;
  match d with
  | Exhausted => Ok (st, None)
  | BreakAt i =>
      if bool_decide (i = ROOT) then Ok (with_counters 1 0 0 st, None) else Ok (st, Some i)
  end.

(** [select]. *)
Definition select (st : SearchState) : result (SearchState * option NodeId) :=
  match strategy st with
  | Greedy => sel ← select_greedy st; Ok (st, sel)
  | Mcts => select_mcts st
  end.

(** [while let Some(id) = ancestor]: the walk to the root, with fuel. *)
Fixpoint credit_ancestors (fuel : nat) (reward : f64) (ancestor : option NodeId)
    (ns : list Node) : result (list Node) :=
  match ancestor with
  | None => Ok ns
  | Some i =>
      match fuel with
      | 0 => Panic
      | S fuel =>
          ns ← update i (visit reward) ns;
          n ← index ns i;
          credit_ancestors fuel reward (parent n) ns
      end
  end.

(** The condition under which a failed parent becomes terminal. *)
Fixpoint all_failed (ns : list Node) (cs : list NodeId) : result bool :=
  match cs with
  | [] => Ok true
  | c :: cs =>
      n ← index ns c;
      if bool_decide (status (outcome n) = Failed) then all_failed ns cs else Ok false
  end.

Definition mark_exhausted (i : NodeId) (ns : list Node) : result (list Node) :=
  n ← index ns i;
  match parent n with
  | Some p =>
      if bool_decide (p = ROOT) then Ok ns
      else
        pn ← index ns p;
        if bool_decide (status (outcome pn) = Failed) && bool_decide (3 ≤ length (children pn))
        then
          all ← all_failed ns (children pn);
          if (all : bool) then update p set_terminal ns else Ok ns
        else Ok ns
  | None => Ok ns
  end.

(** [update_mcts] for one node: link it, credit its ancestors, mark its parent. *)
Definition link_to_root (i : NodeId) (ns : list Node) : result (list Node) :=
  n ← index ns i;
  match parent n with
  | None => ns ← update i (set_parent ROOT) ns; update ROOT (push_child i) ns
  | Some _ => Ok ns
  end.
Definition update_one (i : NodeId) (ns : list Node) : result (list Node) :=
  ns ← link_to_root i ns;
  n ← index ns i;
  ns ← credit_ancestors (S (length ns)) (mcts_reward n) (Some i) ns;
  mark_exhausted i ns.
Fixpoint update_mcts (added : list NodeId) (ns : list Node) : result (list Node) :=
  match added with
  | [] => Ok ns
  | i :: added => ns ← update_one i ns; update_mcts added ns
  end.

(** ** Recording a batch *)
Definition score (st : SearchState) (i : NodeId) : result f64 :=
  n ← node st i;
  Ok (match strategy st with Greedy => speedup n | Mcts => mcts_score n end).

Definition child_name (iter : nat) (p : option str) (ix : nat) : str :=
  match p with
  | Some name => lit "iter" ++ show_nat iter ++ lit "_p" ++ name ++ lit "_c" ++ show_nat ix
  | None => lit "iter" ++ show_nat iter ++ lit "_sol" ++ show_nat ix
  end.

(** The loop that pushes the nodes of a batch. *)
Fixpoint push_outcomes (iter : nat) (par : option NodeId) (ix : nat) (os : list Outcome)
    (added : list NodeId) (ns : list Node) : result (list NodeId * list Node) :=
  match os with
  | [] => Ok (added, ns)
  | o :: os =>
      let i := length ns in
      pname ← match par with
              | Some p => pn ← index ns p; Ok (Some (node_name pn))
              | None => Ok None
              end;
      let ns := ns ++ [{| id := i; node_name := child_name iter pname ix;
                          iteration := Z.of_nat iter; parent := par; children := [];
                          outcome := o; visits := 0; total_reward := fzero;
                          terminal := false |}] in
      ns ← match par with Some p => update p (push_child i) ns | None => Ok ns end;
      push_outcomes iter par (S ix) os (added ++ [i]) ns
  end.

(** [if self.nodes[id].successful() && best.is_none_or(..)]. *)
Fixpoint iteration_best (st : SearchState) (best : option NodeId) (added : list NodeId)
    : result (option NodeId) :=
  match added with
  | [] => Ok best
  | i :: added =>
      n ← node st i;
      wins ← (if successful n then
                match best with
                | None => Ok true
                | Some b => s ← score st i; t ← score st b; Ok (fgt s t)
                end
              else Ok false);
      iteration_best st (if (wins : bool) then Some i else best) added
  end.

(** What follows the loops: the bests, the history and the counters. *)
Definition conclude_batch (st : SearchState) (best : option NodeId) : result SearchState :=
  match best with
  | Some b =>
      wins ← match current_best st with
             | None => Ok true
             | Some old => s ← score st b; t ← score st old; Ok (fgt s t)
             end;
      history ← (if bool_decide (strategy st = Greedy)
                 then n ← node st b; Ok (speedup_history st ++ [speedup n])
                 else Ok (speedup_history st));
      Ok {| strategy := strategy st; config := config st; nodes := nodes st;
            current_iteration := S (current_iteration st);
            current_best := if (wins : bool) then Some b else current_best st;
            consecutive_failures := 0; speedup_history := history;
            root_expansions := root_expansions st; pw_gate_closures := pw_gate_closures st;
            virtual_child_wins := virtual_child_wins st |}
  | None =>
      Ok {| strategy := strategy st; config := config st; nodes := nodes st;
            current_iteration := S (current_iteration st);
            current_best := current_best st;
            consecutive_failures := S (consecutive_failures st);
            speedup_history := speedup_history st;
            root_expansions := root_expansions st; pw_gate_closures := pw_gate_closures st;
            virtual_child_wins := virtual_child_wins st |}
  end.

Definition check_parent (st : SearchState) (par : option NodeId) : result unit :=
  match par with
  | Some p => ensure (bool_decide (ROOT < p) && bool_decide (p < length (nodes st)))
                (lit "invalid parent")
  | None => Ok tt
  end.

Definition record_batch (st : SearchState) (par : option NodeId) (os : list Outcome)
    : result (SearchState * list NodeId) :=
  check_parent st par;;
  _ ← res_mapM validate os;
  '(added, ns) ← push_outcomes (current_iteration st) par 0 os [] (nodes st);
  ns ← (if bool_decide (strategy st = Mcts) then update_mcts added ns else Ok ns);
  let st := with_nodes ns st in
  best ← iteration_best st None added;
  st ← conclude_batch st best;
  Ok (st, added).

(** ** The trace driver: one step of a search per batch of outcomes *)
Fixpoint trace_loop (it : nat) (st : SearchState) (batches : list (list Outcome))
    (steps : list (option NodeId * SearchState)) : result (list (option NodeId * SearchState)) :=
  match batches with
  | [] => Ok steps
  | os :: batches =>
      go ← (if bool_decide (0 < it) then should_continue st else Ok true);
      if (go : bool) then
        '(st, par) ← (if bool_decide (it = 0) then Ok (st, None) else select st);
        '(st, _) ← record_batch st par os;
        trace_loop (S it) st batches (steps ++ [(par, st)])
      else Ok steps
  end.

Definition trace (s : Strategy) (c : SearchConfig) (batches : list (list Outcome))
    : result (list (option NodeId * SearchState)) :=
  st ← new s c;
  trace_loop 0 st batches [].
End mcts.
