(* ===== verification/SearchTree.v ===== *)
(** * kernel-search: the tree invariant

    What the vector of nodes looks like: parents come before children, the
    [children] vectors are exactly the nodes that name a parent, in order, and
    under Monte-Carlo search the statistics of a node are those of its subtree.
    Recording a batch preserves this, and no index is ever out of range. *)
From Stdlib Require Import ZArith.
From stdpp Require Import sets.
From S2P Require Import Prelude Str Float64 Json Search.

(** ** Updating a node *)
Lemma update_Ok i f ns : i < length ns → update i f ns = Ok (alter f i ns).
Proof.
  intros Hi. unfold update. destruct (lookup_lt_is_Some_2 ns i Hi) as [n Hn].
  rewrite Hn. f_equal. symmetry. apply list_eq. intros j.
  destruct (decide (i = j)) as [->|Hne].
  - rewrite list_lookup_alter_eq, list_lookup_insert_eq by done. by rewrite Hn.
  - by rewrite list_lookup_alter_ne, list_lookup_insert_ne.
Qed.

Lemma fmap_alter_same {B} (g : Node → B) (f : Node → Node) (i : nat) (ns : list Node) :
  (∀ n, g (f n) = g n) → g <$> alter f i ns = g <$> ns.
Proof.
  intros Hg. apply list_eq. intros j. rewrite !list_lookup_fmap.
  destruct (decide (i = j)) as [->|]; [|by rewrite list_lookup_alter_ne].
  rewrite list_lookup_alter_eq. destruct (ns !! j); simpl; [by rewrite Hg|done].
Qed.

(** ** Parents, children and ancestors, as functions of the parent fields *)
Definition parents (ns : list Node) : list (option NodeId) := parent <$> ns.
Definition par_of (ps : list (option NodeId)) (i : NodeId) : option NodeId := ps !! i ≫= λ p, p.

Definition kids (ps : list (option NodeId)) (i : NodeId) : list NodeId :=
  filter (λ j, par_of ps j = Some i) (seq 0 (length ps)).

(** A node and its ancestors, up to the root. *)
Fixpoint path (ps : list (option NodeId)) (fuel : nat) (i : NodeId) : list NodeId :=
  match fuel with
  | 0 => []
  | S fuel => i :: match par_of ps i with Some p => path ps fuel p | None => [] end
  end.

(** The nodes of the first [k] that have [i] among their ancestors. *)
Definition subtree (ps : list (option NodeId)) (k : nat) (i : NodeId) : list NodeId :=
  filter (λ j, i ∈ path ps (S j) j) (seq 1 (k - 1)).

Definition ordered (ps : list (option NodeId)) : Prop := ∀ i p, par_of ps i = Some p → p < i.

Section paths.
Context (ps : list (option NodeId)).
Hypothesis Hord : ordered ps.

Lemma path_le fuel i j : j ∈ path ps fuel i → j ≤ i.
Proof.
  revert i. induction fuel as [|fuel IH]; intros i; simpl; [by intros ?%not_elem_of_nil|].
  intros [->|Hj]%elem_of_cons; [done|]. destruct (par_of ps i) as [p|] eqn:E.
  - apply IH in Hj. apply Hord in E. lia.
  - by apply not_elem_of_nil in Hj.
Qed.

Lemma path_fuel f g i : i < f → i < g → path ps f i = path ps g i.
Proof.
  revert g i. induction f as [|f IH]; intros g i Hf Hg; [lia|]. destruct g as [|g]; [lia|].
  simpl. f_equal. destruct (par_of ps i) as [p|] eqn:E; [|done].
  apply Hord in E. apply IH; lia.
Qed.

(** Paths only look at the parents below. *)
Lemma path_agree qs f i :
  (∀ j, j ≤ i → par_of qs j = par_of ps j) → path qs f i = path ps f i.
Proof.
  revert i. induction f as [|f IH]; intros i H; [done|]. simpl. rewrite H by lia. f_equal.
  destruct (par_of ps i) as [p|] eqn:E; [|done]. apply Hord in E. apply IH. intros. apply H. lia.
Qed.
End paths.

Lemma subtree_S ps k i :
  1 ≤ k → subtree ps (S k) i = subtree ps k i ++ (if decide (i ∈ path ps (S k) k) then [k] else []).
Proof.
  intros Hk. unfold subtree. replace (S k - 1) with (S (k - 1)) by lia.
  rewrite seq_S, filter_app. replace (1 + (k - 1)) with k by lia. done.
Qed.

Lemma subtree_agree ps qs k i :
  ordered ps → (∀ j, j < k → par_of qs j = par_of ps j) → subtree qs k i = subtree ps k i.
Proof.
  intros Hord H. unfold subtree. apply list_filter_ext.
  intros j Hj%elem_of_seq. rewrite (path_agree ps Hord qs); [done|]. intros. apply H. lia.
Qed.

(** ** The invariant

    [k] is the number of nodes whose statistics have been credited; between
    operations it is the number of nodes. *)
Section tree.
Context (ln : f64 → f64).
Implicit Types (ns ms : list Node) (i j k : nat) (js : list NodeId).

(** The reward of a node is a function of its outcome. *)
Definition reward_at (ns : list Node) (j : NodeId) : f64 :=
  from_option (mcts_reward ln) fzero (ns !! j).
Definition total (ns : list Node) (js : list NodeId) : f64 :=
  foldl fadd fzero (reward_at ns <$> js).

Record shape (ns : list Node) : Prop := {
  shape_root : ∃ n, ns !! 0 = Some n ∧ parent n = None;
  shape_ids : ∀ i n, ns !! i = Some n → id n = i;
  shape_ordered : ordered (parents ns);
  shape_kids : ∀ i n, ns !! i = Some n → children n = kids (parents ns) i;
}.

(** The statistics of the nodes after [k] of them were credited. *)
Definition credited (k : nat) (ns : list Node) : Prop :=
  ∀ i n, ns !! i = Some n →
    visits n = length (subtree (parents ns) k i)
    ∧ total_reward n = total ns (subtree (parents ns) k i).

Lemma parents_lookup ns i n : ns !! i = Some n → par_of (parents ns) i = parent n.
Proof. intros H. unfold par_of, parents. by rewrite list_lookup_fmap, H. Qed.
Lemma parents_lookup_inv ns i p :
  par_of (parents ns) i = Some p → ∃ n, ns !! i = Some n ∧ parent n = Some p.
Proof.
  unfold par_of, parents. rewrite list_lookup_fmap. destruct (ns !! i) as [n|]; simpl; [|done].
  intros. by exists n.
Qed.
Lemma parents_beyond ns i : length ns ≤ i → par_of (parents ns) i = None.
Proof. intros H. unfold par_of, parents. by rewrite list_lookup_fmap, lookup_ge_None_2. Qed.

(** An update that keeps parent, children, id and outcome keeps the shape and
    every reward. *)
Definition keeps (f : Node → Node) : Prop :=
  ∀ n, parent (f n) = parent n ∧ children (f n) = children n ∧ id (f n) = id n
       ∧ outcome (f n) = outcome n.

Lemma mcts_reward_outcome n m : outcome n = outcome m → mcts_reward ln n = mcts_reward ln m.
Proof. unfold mcts_reward, successful, speedup. by intros ->. Qed.

Lemma total_outcomes ns ms js : outcome <$> ns = outcome <$> ms → total ns js = total ms js.
Proof.
  intros H. unfold total. f_equal. apply list_fmap_ext. intros _ j _. unfold reward_at.
  pose proof (f_equal (.!! j) H) as Hl. simpl in Hl. rewrite !list_lookup_fmap in Hl.
  destruct (ns !! j), (ms !! j); simplify_eq/=; [by apply mcts_reward_outcome|done].
Qed.

(** A list of nodes that differs from a shaped one in statistics and terminal
    flags only. *)
Definition same_links (ns ms : list Node) : Prop :=
  parent <$> ns = parent <$> ms ∧ children <$> ns = children <$> ms
  ∧ id <$> ns = id <$> ms ∧ outcome <$> ns = outcome <$> ms.

Lemma fmap_lookup_same {B} (g : Node → B) ns ms i n :
  g <$> ns = g <$> ms → ns !! i = Some n → ∃ m, ms !! i = Some m ∧ g m = g n.
Proof.
  intros H Hn. pose proof (f_equal (.!! i) H) as Hl. simpl in Hl.
  rewrite !list_lookup_fmap, Hn in Hl. destruct (ms !! i); simplify_eq/=. eauto.
Qed.

Lemma shape_same_links ns ms : same_links ns ms → shape ms → shape ns.
Proof.
  intros (Hp & Hc & Hi & _) [(r & Hr & Hrp) Hids Hord Hkids].
  assert (parents ns = parents ms) as Hps by done.
  split.
  - symmetry in Hp. destruct (fmap_lookup_same parent ms ns 0 r Hp Hr) as (m & ? & ?).
    exists m. split; congruence.
  - intros i n Hn. destruct (fmap_lookup_same id ns ms i n Hi Hn) as (m & Hm & <-). auto.
  - by rewrite Hps.
  - intros i n Hn. destruct (fmap_lookup_same children ns ms i n Hc Hn) as (m & Hm & <-).
    rewrite Hps. auto.
Qed.

Lemma keeps_same_links f i ns : keeps f → same_links (alter f i ns) ns.
Proof.
  intros Hf. split_and!; apply fmap_alter_same; intros n; destruct (Hf n) as (? & ? & ? & ?); auto.
Qed.

Lemma visit_keeps r : keeps (visit r).
Proof. by intros n. Qed.
Lemma set_terminal_keeps : keeps set_terminal.
Proof. by intros n. Qed.
#[local] Hint Resolve visit_keeps set_terminal_keeps : cubineer.

Lemma same_links_trans a b c : same_links a b → same_links b c → same_links a c.
Proof. intros (?&?&?&?) (?&?&?&?). split_and!; congruence. Qed.
Lemma same_links_refl a : same_links a a.
Proof. done. Qed.
Lemma same_links_length a b : same_links a b → length a = length b.
Proof. intros (H & _). by rewrite <-(length_fmap parent a), H, length_fmap. Qed.

(** ** Crediting the ancestors *)

(** The nodes of [js] visited once each. *)
Definition bump (r : f64) (js : list NodeId) (ns : list Node) : list Node :=
  imap (λ j n, if decide (j ∈ js) then visit r n else n) ns.

Lemma bump_lookup r js ns j :
  bump r js ns !! j = (λ n, if decide (j ∈ js) then visit r n else n) <$> ns !! j.
Proof. apply list_lookup_imap. Qed.

Lemma bump_same_links r js ns : same_links (bump r js ns) ns.
Proof.
  split_and!; apply list_eq; intros j; rewrite !list_lookup_fmap, bump_lookup;
    destruct (ns !! j); simpl; [|done| |done| |done| |done]; by case_decide.
Qed.

Lemma bump_cons r i js ns : i ∉ js → bump r js (alter (visit r) i ns) = bump r (i :: js) ns.
Proof.
  intros Hi. apply list_eq. intros j. rewrite !bump_lookup.
  destruct (decide (i = j)) as [->|Hne].
  - rewrite list_lookup_alter_eq. destruct (ns !! j); simpl; [|done].
    rewrite decide_False by done. rewrite decide_True by left. done.
  - rewrite list_lookup_alter_ne by done. destruct (ns !! j); simpl; [|done].
    f_equal. repeat case_decide; set_solver.
Qed.
Lemma bump_nil r ns : bump r [] ns = ns.
Proof.
  apply list_eq. intros j. rewrite bump_lookup. by destruct (ns !! j).
Qed.

Lemma credit_ancestors_Ok fuel r i ns :
  ordered (parents ns) → i < length ns → i < fuel →
  credit_ancestors fuel r (Some i) ns = Ok (bump r (path (parents ns) (S i) i) ns).
Proof.
  revert i ns. induction fuel as [|fuel IH]; intros i ns Hord Hi Hf; [lia|]. simpl.
  rewrite update_Ok by done. simpl.
  destruct (lookup_lt_is_Some_2 ns i Hi) as [n Hn].
  unfold index. rewrite list_lookup_alter_eq, Hn. simpl.
  pose proof (parents_lookup ns i n Hn) as Hp. rewrite Hp.
  destruct (parent n) as [p|].
  - assert (p < i) as Hlt by by apply Hord.
    assert (parents (alter (visit r) i ns) = parents ns) as Hps.
    { apply fmap_alter_same. done. }
    rewrite IH; [|by rewrite Hps|rewrite length_alter; lia|lia]. rewrite Hps. f_equal.
    rewrite bump_cons.
    + do 2 f_equal. apply path_fuel; [done|lia..].
    + intros Hin. apply path_le in Hin; [lia|done].
  - rewrite <-bump_cons by apply not_elem_of_nil. rewrite bump_nil. by destruct fuel.
Qed.

(** ** Appending a node *)
Lemma par_of_app ps q j :
  par_of (ps ++ [q]) j = if decide (j = length ps) then q else par_of ps j.
Proof.
  unfold par_of. case_decide as H.
  - subst. by rewrite lookup_app_r, Nat.sub_diag by lia.
  - destruct (decide (j < length ps)) as [Hlt|Hge]; [by rewrite lookup_app_l|].
    rewrite !lookup_ge_None_2; [done|lia|rewrite length_app; simpl; lia].
Qed.

Lemma kids_app ps q i :
  kids (ps ++ [q]) i = kids ps i ++ (if decide (q = Some i) then [length ps] else []).
Proof.
  unfold kids. rewrite length_app, seq_app, filter_app. simpl. f_equal.
  - apply list_filter_ext. intros j Hj%elem_of_seq. rewrite par_of_app, decide_False by lia. done.
  - rewrite filter_cons, par_of_app, (decide_True (P:=length ps = length ps)) by done.
    by case_decide.
Qed.

(** No node has a parent that comes after it. *)
Lemma kids_beyond ps i : ordered ps → length ps ≤ S i → kids ps i = [].
Proof.
  intros Hord Hi. apply list_filter_nil. intros j Hj%elem_of_seq Hp. apply Hord in Hp. lia.
Qed.

Definition fresh (n : Node) (ns : list Node) : Prop :=
  id n = length ns ∧ children n = [] ∧ visits n = 0 ∧ total_reward n = fzero.

Lemma ordered_app ps q : ordered ps → (∀ p, q = Some p → p < length ps) → ordered (ps ++ [q]).
Proof.
  intros Hord Hq j p. rewrite par_of_app. case_decide; [subst; intros; by apply Hq|apply Hord].
Qed.

(** The list a new node leaves: itself at the end, and its parent's [children]
    extended. *)
Definition append_node (ns : list Node) (n : Node) : list Node :=
  match parent n with
  | Some p => alter (push_child (length ns)) p (ns ++ [n])
  | None => ns ++ [n]
  end.

Lemma append_parents ns n : parents (append_node ns n) = parents ns ++ [parent n].
Proof.
  unfold append_node, parents. destruct (parent n) eqn:E;
    [rewrite fmap_alter_same by done|]; by rewrite fmap_app; simpl; rewrite E.
Qed.
Lemma append_length ns n : length (append_node ns n) = S (length ns).
Proof.
  unfold append_node. destruct (parent n); rewrite ?length_alter, length_app; simpl; lia.
Qed.

Lemma append_lookup ns n i m :
  append_node ns n !! i = Some m →
  ∃ m0, (ns ++ [n]) !! i = Some m0 ∧
    m = if decide (parent n = Some i) then push_child (length ns) m0 else m0.
Proof.
  unfold append_node. destruct (parent n) as [p|]; [|by intros; exists m].
  rewrite list_lookup_alter. case_decide as H.
  - subst. rewrite fmap_Some. intros (m0 & ? & ->). exists m0. split; [done|].
    by rewrite decide_True.
  - intros. exists m. split; [done|]. rewrite decide_False; [done|congruence].
Qed.

Lemma append_shape ns n :
  shape ns → fresh n ns → (∀ p, parent n = Some p → p < length ns) → shape (append_node ns n).
Proof.
  intros [(r & Hr & Hrp) Hids Hord Hkids] (Hid & Hch & _ & _) Hp.
  assert (ordered (parents ns ++ [parent n])) as Hord'.
  { apply ordered_app; [done|]. intros p Hpp. unfold parents. rewrite length_fmap. auto. }
  assert (∀ i m0, (ns ++ [n]) !! i = Some m0 → children m0 = kids (parents ns) i ∧ id m0 = i) as Hold.
  { intros i m0 [Hm|[Hi Hm]]%lookup_app_Some; [by auto|].
    apply list_lookup_singleton_Some in Hm as [Hz ->]. assert (i = length ns) as -> by lia.
    split; [|done]. rewrite Hch. symmetry. apply kids_beyond; [done|].
    unfold parents. rewrite length_fmap. lia. }
  split.
  - assert (0 < length ns) by by eapply lookup_lt_Some.
    destruct (append_node ns n !! 0) as [m|] eqn:E.
    2: { apply lookup_ge_None_1 in E. rewrite append_length in E. lia. }
    exists m. split; [done|]. apply append_lookup in E as (m0 & Hm0 & ->).
    rewrite lookup_app_l, Hr in Hm0 by done. injection Hm0 as <-. by case_decide.
  - intros i m (m0 & Hm0 & ->)%append_lookup. destruct (Hold i m0 Hm0). by case_decide.
  - by rewrite append_parents.
  - intros i m (m0 & Hm0 & ->)%append_lookup. destruct (Hold i m0 Hm0) as [Hc _].
    rewrite append_parents, kids_app. unfold parents at 2. rewrite length_fmap.
    case_decide; simpl; [by rewrite Hc|by rewrite app_nil_r].
Qed.

Lemma reward_at_app ns n j : j < length ns → reward_at (ns ++ [n]) j = reward_at ns j.
Proof. intros. unfold reward_at. by rewrite lookup_app_l. Qed.

Lemma append_outcomes ns n : outcome <$> append_node ns n = outcome <$> (ns ++ [n]).
Proof. unfold append_node. destruct (parent n); [by apply fmap_alter_same|done]. Qed.

Lemma append_credited k ns n :
  1 ≤ k → k ≤ length ns → ordered (parents ns) → fresh n ns →
  (∀ p, parent n = Some p → p < length ns) →
  credited k ns → credited k (append_node ns n).
Proof.
  intros Hk1 Hk Hord (_ & _ & Hv & Ht) Hp Hcr i m (m0 & Hm0 & ->)%append_lookup.
  assert (ordered (parents ns ++ [parent n])) as Hord'.
  { apply ordered_app; [done|]. intros p Hpp. unfold parents. rewrite length_fmap. auto. }
  rewrite append_parents.
  assert (subtree (parents ns ++ [parent n]) k i = subtree (parents ns) k i) as ->.
  { apply subtree_agree; [done|]. intros j Hj. rewrite par_of_app. rewrite decide_False; [done|].
    unfold parents. rewrite length_fmap. lia. }
  rewrite (total_outcomes _ (ns ++ [n])) by apply append_outcomes.
  assert (total (ns ++ [n]) (subtree (parents ns) k i) = total ns (subtree (parents ns) k i)) as ->.
  { unfold total. f_equal. apply list_fmap_ext. intros x j Hj%list_elem_of_lookup_2.
    apply list_elem_of_filter in Hj as [_ Hj%elem_of_seq]. apply reward_at_app. lia. }
  assert (visits m0 = length (subtree (parents ns) k i)
    ∧ total_reward m0 = total ns (subtree (parents ns) k i)) as [Hv0 Ht0].
  { apply lookup_app_Some in Hm0 as [Hm|[Hi Hm]]; [by apply Hcr|].
    apply list_lookup_singleton_Some in Hm as [Hz ->].
    assert (subtree (parents ns) k i = []) as ->.
    { apply list_filter_nil. intros j Hj%elem_of_seq Hin. apply path_le in Hin; [lia|done]. }
    by rewrite Hv, Ht. }
  by case_decide.
Qed.

(** ** Linking a node to the root *)
Definition link (k : NodeId) (ns : list Node) : list Node :=
  alter (push_child k) ROOT (alter (set_parent ROOT) k ns).

Lemma link_parents k ns : parents (link k ns) = alter (λ _, Some ROOT) k (parents ns).
Proof.
  unfold link, parents. rewrite fmap_alter_same by done. apply list_eq. intros j.
  rewrite list_lookup_fmap, !list_lookup_alter. case_decide; rewrite list_lookup_fmap; [|done].
  by destruct (ns !! k).
Qed.

Lemma link_par_of k ns j :
  k < length ns → par_of (parents (link k ns)) j = if decide (j = k) then Some ROOT else par_of (parents ns) j.
Proof.
  intros Hk. rewrite link_parents. unfold par_of. rewrite list_lookup_alter.
  destruct (lookup_lt_is_Some_2 ns k Hk) as [n Hn].
  repeat case_decide; subst; try done. unfold parents. by rewrite list_lookup_fmap, Hn.
Qed.

Lemma link_kids k ns i :
  k < length ns → par_of (parents ns) k = None → (∀ j, k < j → par_of (parents ns) j = None) →
  kids (parents (link k ns)) i = kids (parents ns) i ++ (if decide (i = ROOT) then [k] else []).
Proof.
  intros Hk Hnone Hlater. unfold kids.
  assert (length (parents (link k ns)) = length (parents ns)) as ->
    by by rewrite link_parents, length_alter.
  assert (length (parents ns) = length ns) as -> by apply length_fmap.
  replace (length ns) with (k + S (length ns - S k)) by lia.
  rewrite seq_app, !filter_app. simpl. rewrite !filter_cons.
  rewrite (link_par_of k ns k) by done. rewrite (decide_True (P:=k = k)) by done. rewrite Hnone.
  assert (∀ qs, (∀ j, k < j → par_of qs j = None) →
    filter (λ j, par_of qs j = Some i) (seq (S k) (length ns - S k)) = []) as Htail.
  { intros qs Hq. apply list_filter_nil. intros j Hj%elem_of_seq. rewrite Hq by lia. done. }
  rewrite !Htail; [|done|].
  2: { intros j Hj. rewrite link_par_of, decide_False by lia. auto. }
  assert (filter (λ j, par_of (parents (link k ns)) j = Some i) (seq 0 k)
    = filter (λ j, par_of (parents ns) j = Some i) (seq 0 k)) as ->.
  { apply list_filter_ext. intros j Hj%elem_of_seq. rewrite link_par_of, decide_False by lia. done. }
  rewrite (decide_False (P:=None = Some i)) by done. rewrite app_nil_r.
  repeat case_decide; subst; try done; congruence.
Qed.

Lemma link_lookup k ns i m :
  link k ns !! i = Some m → k ≠ ROOT →
  ∃ m0, ns !! i = Some m0 ∧ visits m = visits m0 ∧ total_reward m = total_reward m0
    ∧ id m = id m0 ∧ outcome m = outcome m0 ∧ terminal m = terminal m0
    ∧ children m = children m0 ++ (if decide (i = ROOT) then [k] else [])
    ∧ parent m = if decide (i = k) then Some ROOT else parent m0.
Proof.
  intros H Hk. unfold link in H. rewrite !list_lookup_alter in H.
  repeat case_decide; subst; try done.
  - apply fmap_Some in H as (m0 & H & ->). exists m0. rewrite ?decide_True by done.
    by repeat split.
  - apply fmap_Some in H as (m0 & H & ->). exists m0. simpl. rewrite app_nil_r. by repeat split.
  - exists m. rewrite app_nil_r. by repeat split.
Qed.

Lemma link_ordered k ns : 0 < k < length ns → ordered (parents ns) → ordered (parents (link k ns)).
Proof.
  intros Hk Hord j p. rewrite link_par_of by lia. case_decide; [|apply Hord].
  intros [= <-]. unfold ROOT. lia.
Qed.

Lemma link_shape k ns :
  0 < k < length ns → shape ns → par_of (parents ns) k = None →
  (∀ j, k < j → par_of (parents ns) j = None) → shape (link k ns).
Proof.
  intros Hk [(r & Hr & Hrp) Hids Hord Hkids] Hnone Hlater.
  assert (k ≠ ROOT) as Hk0 by (unfold ROOT; lia). split.
  - destruct (link k ns !! 0) as [m|] eqn:E.
    + exists m. split; [done|]. apply link_lookup in E as (m0 & Hm0 & _ & _ & _ & _ & _ & _ & ->); [|done].
      rewrite decide_False by (unfold ROOT in *; lia). congruence.
    + apply lookup_ge_None_1 in E. unfold link in E. rewrite !length_alter in E. lia.
  - intros i m (m0 & Hm0 & _ & _ & -> & _)%link_lookup; auto.
  - by apply link_ordered.
  - intros i m (m0 & Hm0 & _ & _ & _ & _ & _ & -> & _)%link_lookup; [|done].
    rewrite link_kids by (done || lia). f_equal. auto.
Qed.

Lemma link_outcomes k ns : outcome <$> link k ns = outcome <$> ns.
Proof. unfold link. by rewrite !fmap_alter_same. Qed.

Lemma link_credited k ns :
  0 < k < length ns → ordered (parents ns) → credited k ns → credited k (link k ns).
Proof.
  intros Hk Hord Hcr i m (m0 & Hm0 & -> & -> & _)%link_lookup; [|unfold ROOT; lia].
  rewrite (total_outcomes _ ns) by apply link_outcomes.
  rewrite (subtree_agree (parents ns)); [by apply Hcr|done|].
  intros j Hj. rewrite link_par_of, decide_False by lia. done.
Qed.

(** ** Crediting a node *)
Lemma bump_credited k ns r n :
  1 ≤ k → ordered (parents ns) → credited k ns → ns !! k = Some n → mcts_reward ln n = r →
  credited (S k) (bump r (path (parents ns) (S k) k) ns).
Proof.
  intros Hk Hord Hcr Hn Hr i m. rewrite bump_lookup, fmap_Some.
  intros (m0 & Hm0 & ->). destruct (Hcr i m0 Hm0) as [Hv Ht].
  pose proof (bump_same_links r (path (parents ns) (S k) k) ns) as (Hp & _ & _ & Ho).
  change (parents (bump r (path (parents ns) (S k) k) ns) = parents ns) in Hp.
  rewrite Hp, (total_outcomes _ ns) by done.
  rewrite subtree_S by done. case_decide as Hin; [|by rewrite app_nil_r].
  simpl. rewrite length_app. simpl. split; [lia|].
  unfold total in *. rewrite fmap_app, foldl_app. simpl. rewrite Ht. f_equal.
  unfold reward_at. by rewrite Hn.
Qed.

(** Setting a terminal flag changes nothing else. *)
Lemma terminal_credited k i ns : credited k ns → credited k (alter set_terminal i ns).
Proof.
  intros Hcr j m. pose proof (keeps_same_links _ i ns set_terminal_keeps) as (Hp & _ & _ & Ho).
  unfold parents. rewrite Hp, (total_outcomes _ ns) by done.
  rewrite list_lookup_alter. case_decide; [|apply Hcr]. subst.
  intros (m0 & Hm0 & ->)%fmap_Some. exact (Hcr _ _ Hm0).
Qed.
End tree.
