(* ===== verification/SearchBatch.v ===== *)
(** * kernel-search: recording a batch

    [record_batch] never panics on a well-formed state, keeps the state
    well-formed, and keeps [current_best] the first best node of all. *)
From Stdlib Require Import ZArith.
From stdpp Require Import sets.
From S2P Require Import Prelude Str Float64 Json Search SearchTree.

Section batch.
Context (ln : f64 → f64) (powf : f64 → f64 → f64).
Implicit Types (ns ms : list Node) (i j k : nat).

(** ** Crediting the new nodes *)
Lemma all_failed_Ok ns cs : Forall (λ c, c < length ns) cs → ∃ b, all_failed ns cs = Ok b.
Proof.
  induction 1 as [|c cs Hc _ IH]; simpl; [by eauto|].
  destruct (lookup_lt_is_Some_2 ns c Hc) as [n Hn]. unfold index. rewrite Hn. simpl.
  case_bool_decide; eauto.
Qed.

Lemma kids_in_range ns i : Forall (λ c, c < length ns) (kids (parents ns) i).
Proof.
  apply Forall_forall. intros c [_ Hc%elem_of_seq]%list_elem_of_filter.
  unfold parents in Hc. rewrite length_fmap in Hc. lia.
Qed.

Lemma mark_exhausted_Ok i ns :
  shape ns → i < length ns →
  ∃ ns', mark_exhausted i ns = Ok ns' ∧ (ns' = ns ∨ ∃ p, ns' = alter set_terminal p ns).
Proof.
  intros Hs Hi. unfold mark_exhausted, index.
  destruct (lookup_lt_is_Some_2 ns i Hi) as [n Hn]. rewrite Hn. simpl.
  destruct (parent n) as [p|] eqn:Hp; [|by eauto]. case_bool_decide; [by eauto|].
  assert (p < i) as Hlt.
  { apply (shape_ordered _ Hs). by rewrite (parents_lookup ns i n Hn). }
  destruct (lookup_lt_is_Some_2 ns p) as [pn Hpn]; [lia|]. rewrite Hpn. simpl.
  case_match; [|by eauto]. rewrite (shape_kids _ Hs p pn Hpn).
  destruct (all_failed_Ok ns _ (kids_in_range ns p)) as [[] ->]; simpl; [|by eauto].
  rewrite update_Ok by lia. eauto.
Qed.

(** What crediting changes of the other fields: nothing. *)
Definition same_data ns ms : Prop :=
  outcome <$> ns = outcome <$> ms ∧ iteration <$> ns = iteration <$> ms.

Lemma same_data_length ns ms : same_data ns ms → length ns = length ms.
Proof. intros [H _]. by rewrite <-(length_fmap outcome ns), H, length_fmap. Qed.
Lemma same_data_trans a b c : same_data a b → same_data b c → same_data a c.
Proof. intros [] []. split; congruence. Qed.

Lemma bump_same_data r js ns : same_data (bump r js ns) ns.
Proof.
  split; apply list_eq; intros j; rewrite !list_lookup_fmap, bump_lookup;
    destruct (ns !! j); simpl; [|done| |done]; by case_decide.
Qed.
Lemma link_same_data k ns : same_data (link k ns) ns.
Proof. split; unfold link; by rewrite !fmap_alter_same. Qed.
Lemma terminal_same_data p ns : same_data (alter set_terminal p ns) ns.
Proof. split; by apply fmap_alter_same. Qed.

Lemma terminal_shape p ns : shape ns → shape (alter set_terminal p ns).
Proof. apply shape_same_links, keeps_same_links, set_terminal_keeps. Qed.
Lemma bump_shape r js ns : shape ns → shape (bump r js ns).
Proof. apply shape_same_links, bump_same_links. Qed.

Lemma link_to_root_Ok k ns :
  0 < k < length ns → shape ns → credited ln k ns →
  (par_of (parents ns) k = None → ∀ j, k < j → par_of (parents ns) j = None) →
  ∃ ns', link_to_root k ns = Ok ns' ∧ shape ns' ∧ credited ln k ns' ∧ same_data ns' ns
    ∧ (∀ j, par_of (parents ns') j
         = if decide (j = k ∧ par_of (parents ns) k = None) then Some ROOT
           else par_of (parents ns) j).
Proof.
  intros Hk Hs Hc Hlater. unfold link_to_root, index.
  destruct (lookup_lt_is_Some_2 ns k) as [n Hn]; [lia|]. rewrite Hn. simpl.
  pose proof (parents_lookup ns k n Hn) as Hp. destruct (parent n) as [p|].
  - exists ns. do 4 (split; [done|]). intros j. rewrite decide_False; [done|]. rewrite Hp. naive_solver.
  - rewrite update_Ok by lia. simpl. rewrite update_Ok by (rewrite length_alter; unfold ROOT; lia).
    exists (link k ns). split; [done|]. split; [by apply link_shape; auto|].
    split; [apply link_credited; [lia|by apply shape_ordered|done]|]. split; [apply link_same_data|].
    intros j. rewrite link_par_of by lia. repeat case_decide; naive_solver.
Qed.

Lemma update_one_Ok k ns :
  0 < k < length ns → shape ns → credited ln k ns →
  (par_of (parents ns) k = None → ∀ j, k < j → par_of (parents ns) j = None) →
  ∃ ns', update_one ln k ns = Ok ns' ∧ shape ns' ∧ credited ln (S k) ns' ∧ same_data ns' ns
    ∧ (∀ j, par_of (parents ns') j
         = if decide (j = k ∧ par_of (parents ns) k = None) then Some ROOT
           else par_of (parents ns) j).
Proof.
  intros Hk Hs Hc Hlater. unfold update_one.
  destruct (link_to_root_Ok k ns Hk Hs Hc Hlater) as (ns1 & -> & Hs1 & Hc1 & Hd1 & Hp1). cbn [mbind res_bind].
  pose proof (same_data_length _ _ Hd1) as Hl1.
  destruct (lookup_lt_is_Some_2 ns1 k) as [n Hn]; [lia|]. rewrite (index_Ok ns1 k n Hn). cbn [mbind res_bind].
  rewrite (credit_ancestors_Ok ln); [|by apply shape_ordered|lia|lia]. cbn [mbind res_bind].
  set (ns2 := bump _ _ ns1).
  pose proof (bump_same_links (mcts_reward ln n) (path (parents ns1) (S k) k) ns1) as Hl2.
  fold ns2 in Hl2. assert (shape ns2) as Hs2 by by apply bump_shape.
  assert (credited ln (S k) ns2) as Hc2 by (apply bump_credited with n; [lia|by apply shape_ordered|done..]).
  assert (same_data ns2 ns1) as Hd2 by apply bump_same_data.
  destruct (mark_exhausted_Ok k ns2 Hs2) as (ns3 & -> & Hns3).
  { rewrite (same_data_length _ _ Hd2). lia. }
  exists ns3. split; [done|].
  assert (parents ns3 = parents ns1 ∧ shape ns3 ∧ credited ln (S k) ns3 ∧ same_data ns3 ns2)
    as (Hp3 & ? & ? & ?).
  { destruct Hns3 as [->|[p ->]]; [by destruct Hl2|].
    split; [|split; [by apply terminal_shape|split; [by apply terminal_credited|apply terminal_same_data]]].
    destruct (keeps_same_links set_terminal p ns2 set_terminal_keeps) as [Hp _].
    destruct Hl2 as [Hp2 _]. unfold parents. congruence. }
  do 2 (split; [done|]). split; [eauto using same_data_trans|]. intros j. by rewrite Hp3.
Qed.

Lemma update_mcts_Ok m k ns :
  0 < k → k + m = length ns → shape ns → credited ln k ns →
  ((∀ j, k ≤ j → par_of (parents ns) j = None)
   ∨ (∀ j, k ≤ j < length ns → par_of (parents ns) j ≠ None)) →
  ∃ ns', update_mcts ln (seq k m) ns = Ok ns' ∧ shape ns' ∧ credited ln (length ns) ns'
    ∧ same_data ns' ns
    ∧ (∀ j, j < k → par_of (parents ns') j = par_of (parents ns) j)
    ∧ (∀ j, k ≤ j < length ns → par_of (parents ns') j ≠ None).
Proof.
  revert k ns. induction m as [|m IH]; intros k ns Hk Hlen Hs Hc Hor; simpl.
  { exists ns. replace (length ns) with k by lia. split_and!; try done. lia. }
  destruct (update_one_Ok k ns) as (ns1 & -> & Hs1 & Hc1 & Hd1 & Hp1); [lia|done|done| |].
  { intros Hn j Hj. destruct Hor as [Hor|Hor]; [apply Hor; lia|]. destruct (Hor k); [lia|done]. }
  simpl. pose proof (same_data_length _ _ Hd1) as Hl1.
  destruct (IH (S k) ns1) as (ns2 & -> & Hs2 & Hc2 & Hd2 & Hold & Hnew); [lia|lia|done|done| |].
  { destruct Hor as [Hor|Hor].
    - left. intros j Hj. rewrite Hp1, decide_False by lia. apply Hor. lia.
    - right. intros j Hj. rewrite Hp1. case_decide; [done|]. apply Hor. lia. }
  exists ns2. rewrite Hl1 in *. split_and!; try done; [by eapply same_data_trans|..].
  - intros j Hj. rewrite Hold by lia. rewrite Hp1, decide_False by lia. done.
  - intros j Hj. destruct (decide (j = k)) as [->|]; [|apply Hnew; lia].
    rewrite Hold by lia. rewrite Hp1. case_decide as Hd; [done|].
    destruct Hor as [Hor|Hor]; [|apply Hor; lia]. rewrite Hor in Hd by lia. naive_solver.
Qed.

(** ** Pushing the outcomes *)
Lemma push_outcomes_Ok iter par k os ix added ns :
  1 ≤ k → k ≤ length ns → shape ns → credited ln k ns →
  (∀ p, par = Some p → p < length ns) →
  ∃ ns', push_outcomes iter par ix os added ns = Ok (added ++ seq (length ns) (length os), ns')
    ∧ shape ns' ∧ credited ln k ns'
    ∧ outcome <$> ns' = (outcome <$> ns) ++ os
    ∧ iteration <$> ns' = (iteration <$> ns) ++ replicate (length os) (Z.of_nat iter)
    ∧ parents ns' = parents ns ++ replicate (length os) par.
Proof.
  revert ix added ns. induction os as [|o os IH]; intros ix added ns Hk1 Hk Hs Hc Hp; simpl.
  { exists ns. rewrite !app_nil_r. by split_and!. }
  assert (∃ pname, (match par with
    | Some p => pn ← index ns p; Ok (Some (node_name pn)) | None => Ok None end) = @Ok str _ pname) as [pname ->].
  { destruct par as [p|]; [|by eauto]. destruct (lookup_lt_is_Some_2 ns p (Hp p eq_refl)) as [pn Hpn].
    rewrite (index_Ok ns p pn Hpn). simpl. eauto. }
  cbn [mbind res_bind]. set (n := {| id := length ns; node_name := _; iteration := _; parent := par;
    children := []; outcome := o; visits := 0; total_reward := fzero; terminal := false |}).
  assert ((match par with Some p => update p (push_child (length ns)) (ns ++ [n])
    | None => Ok (ns ++ [n]) end) = Ok (append_node ns n)) as ->.
  { unfold append_node. simpl. destruct par as [p|]; [|done]. apply update_Ok.
    specialize (Hp p eq_refl). rewrite length_app. lia. }
  cbn [mbind res_bind].
  assert (fresh n ns) as Hfresh by by repeat split.
  destruct (IH (S ix) (added ++ [length ns]) (append_node ns n)) as (ns' & -> & Hs' & Hc' & Ho & Hi & Hps).
  - done.
  - rewrite append_length. lia.
  - by apply append_shape.
  - apply append_credited; try done. by apply shape_ordered.
  - intros p Hpp. rewrite append_length. specialize (Hp p Hpp). lia.
  - exists ns'. rewrite append_length, <-app_assoc. split; [done|]. split; [done|]. split; [done|].
    rewrite Ho, Hi, Hps, append_parents, append_outcomes. rewrite fmap_app.
    assert (iteration <$> append_node ns n = (iteration <$> ns) ++ [Z.of_nat iter]) as ->.
    { unfold append_node. destruct (parent n); [rewrite fmap_alter_same by done|]; by rewrite fmap_app. }
    by rewrite <-!app_assoc.
Qed.
End batch.

(** ** The best node *)
Section best.
Context (ln : f64 → f64).
(** [ln] is a number from one tenth up: it is undefined below zero only. *)
Hypothesis ln_number : ∀ x, is_nan x = false → flt x (ratio 1 10) = false → is_nan (ln x) = false.
Implicit Types (ns : list Node) (i j k : nat).

Definition score_of (s : Strategy) (n : Node) : f64 :=
  match s with Greedy => speedup n | Mcts => mcts_score ln n end.
Definition key_at (s : Strategy) ns i : f64 := from_option (score_of s) fzero (ns !! i).
Definition success_at ns i : bool := is_some_and successful (ns !! i).
Definition gt_at (s : Strategy) ns i j : bool := fgt (key_at s ns i) (key_at s ns j).

(** The successful nodes from [k] on, in order. *)
Definition successes ns k : list NodeId :=
  filter (λ i, success_at ns i = true) (seq k (length ns - k)).

(** The reference: the first node of the highest score. *)
Definition best_node (s : Strategy) ns : option NodeId := first_max (gt_at s ns) (successes ns 1).

Lemma fmax_number x y : is_nan y = false → is_nan (fmax x y) = false ∧ flt (fmax x y) y = false.
Proof.
  intros Hy. assert (flt y y = false) as Hyy.
  { apply not_true_is_false. rewrite flt_rank by done. apply rank_lt_irrefl. }
  unfold fmax. rewrite Hy. destruct (is_nan x) eqn:Hx; [done|]. by destruct (flt x y) eqn:E.
Qed.

Lemma valid_speedup o x : validate o = Ok tt → outcome_speedup o = Some x → is_finite x = true.
Proof.
  unfold validate. intros H Hx. rewrite Hx in H.
  destruct (ensure (negb _) _) as [[]| |]; simpl in H; try done.
  by destruct (is_finite x).
Qed.

Lemma score_not_nan s n : validate (outcome n) = Ok tt → is_nan (score_of s n) = false.
Proof.
  intros Hv. assert (is_nan (speedup n) = false) as Hs.
  { unfold speedup. destruct (outcome_speedup (outcome n)) as [x|] eqn:E; [|done]. simpl.
    by apply is_finite_not_nan, (valid_speedup _ _ Hv). }
  destruct s; simpl; [done|]. unfold mcts_score. case_match; [done|].
  destruct (fmax_number (speedup n) (ratio 1 10) eq_refl). by apply ln_number.
Qed.

(** The comparison is a strict weak order on nodes with valid outcomes. *)
Section order.
Context (s : Strategy) (ns : list Node).
Definition valid_at i : Prop := is_nan (key_at s ns i) = false.

Lemma gt_at_trans i j k : valid_at i → valid_at j → valid_at k →
  gt_at s ns i j = true → gt_at s ns j k = true → gt_at s ns i k = true.
Proof.
  unfold gt_at. intros Hi Hj Hk. rewrite !fgt_rank by done.
  intros H1 H2. by eapply rank_lt_trans.
Qed.
Lemma gt_at_split i j k : valid_at i → valid_at j → valid_at k →
  gt_at s ns i k = true → gt_at s ns i j = true ∨ gt_at s ns j k = true.
Proof.
  unfold gt_at. intros Hi Hj Hk. rewrite !fgt_rank by done. intros H.
  destruct (rank_lt_split _ (rank (key_at s ns j)) _ H); auto.
Qed.
End order.

Lemma node_Ok st i n : nodes st !! i = Some n → node st i = Ok n.
Proof. apply index_Ok. Qed.

Lemma score_Ok st i : i < length (nodes st) → score ln st i = Ok (key_at (strategy st) (nodes st) i).
Proof.
  intros Hi. destruct (lookup_lt_is_Some_2 _ _ Hi) as [n Hn]. unfold score.
  rewrite (node_Ok _ _ _ Hn). unfold key_at. rewrite Hn. simpl. by destruct (strategy st).
Qed.

Lemma iteration_best_Ok st best added :
  Forall (λ i, i < length (nodes st)) added → (∀ b, best = Some b → b < length (nodes st)) →
  iteration_best ln st best added
  = Ok (foldl (better (gt_at (strategy st) (nodes st))) best
          (filter (λ i, success_at (nodes st) i = true) added)).
Proof.
  intros Ha. revert best. induction Ha as [|i added Hi _ IH]; intros best Hb; [done|].
  cbn [iteration_best]. destruct (lookup_lt_is_Some_2 _ _ Hi) as [n Hn].
  rewrite (node_Ok _ _ _ Hn). cbn [mbind res_bind]. rewrite filter_cons.
  assert (success_at (nodes st) i = successful n) as Hsa by (unfold success_at; by rewrite Hn).
  destruct (successful n) eqn:Hsu.
  - rewrite (decide_True _ _ Hsa). simpl foldl. destruct best as [b|].
    + rewrite !score_Ok by auto. cbn [mbind res_bind]. rewrite IH; [done|].
      intros b' Hb'. case_match; simplify_eq; auto.
    + cbn [mbind res_bind]. rewrite IH; [done|]. by intros b [= <-].
  - rewrite decide_False by congruence. cbn [mbind res_bind]. by apply IH.
Qed.

Lemma winner_loop_Ok st k best :
  shape (nodes st) → k ≤ length (nodes st) → (∀ b, best = Some b → b < length (nodes st)) →
  winner_loop st best (drop k (nodes st))
  = Ok (foldl (better (gt_at Greedy (nodes st))) best (successes (nodes st) k)).
Proof.
  intros Hs. remember (length (nodes st) - k) as m eqn:Hm. revert k best Hm.
  induction m as [|m IH]; intros k best Hm Hk Hb.
  { rewrite drop_ge by lia. unfold successes. by rewrite <-Hm. }
  destruct (lookup_lt_is_Some_2 (nodes st) k) as [n Hn]; [lia|].
  rewrite (drop_S _ _ _ Hn). cbn [winner_loop]. unfold successes. rewrite <-Hm.
  cbn [seq]. rewrite filter_cons.
  assert (success_at (nodes st) k = successful n) as Hsa by (unfold success_at; by rewrite Hn).
  assert (∀ best, (∀ b, best = Some b → b < length (nodes st)) →
    winner_loop st best (drop (S k) (nodes st)) = Ok (foldl (better (gt_at Greedy (nodes st))) best
      (filter (λ i, success_at (nodes st) i = true) (seq (S k) m)))) as IH'.
  { intros best' Hb'. rewrite IH; [|lia|lia|done]. unfold successes. do 3 f_equal. f_equal. lia. }
  destruct (successful n); [rewrite (decide_True _ _ Hsa)|rewrite decide_False by congruence; by apply IH'].
  rewrite (shape_ids _ Hs k n Hn). simpl foldl. destruct best as [b|].
  - destruct (lookup_lt_is_Some_2 (nodes st) b) as [bn Hbn]; [auto|].
    rewrite (node_Ok _ _ _ Hbn). cbn [mbind res_bind].
    assert (better (gt_at Greedy (nodes st)) (Some b) k
      = if fgt (speedup n) (speedup bn) then Some k else Some b) as ->.
    { unfold better, gt_at, key_at. simpl. by rewrite Hn, Hbn. }
    apply IH'. intros b'. case_match; intros [= <-]; [lia|auto].
  - cbn [mbind res_bind]. apply IH'. intros b [= <-]. lia.
Qed.
End best.
