(* ===== verification/SearchProps.v ===== *)
(** * kernel-search: what a search guarantees

    The well-formed states, that every operation keeps them, and the properties
    of the winner, of the selections and of whole traces. *)
From Stdlib Require Import ZArith.
From stdpp Require Import sets.
From S2P Require Import Prelude Str Float64 Json Search SearchTree SearchBatch.

Section states.
Context (ln : f64 → f64) (powf : f64 → f64 → f64).
Hypothesis ln_number : ∀ x, is_nan x = false → flt x (ratio 1 10) = false → is_nan (ln x) = false.
Implicit Types (ns : list Node) (i j k : nat) (st : SearchState).

(** The number of nodes whose statistics count: greedy search keeps none. *)
Definition counted st : nat :=
  match strategy st with Greedy => 1 | Mcts => length (nodes st) end.

Record state_ok st : Prop := {
  ok_shape : shape (nodes st);
  ok_stats : credited ln (counted st) (nodes st);
  ok_linked : strategy st = Mcts →
    ∀ j, 0 < j < length (nodes st) → par_of (parents (nodes st)) j ≠ None;
  ok_outcomes : ∀ i n, 0 < i → nodes st !! i = Some n → validate (outcome n) = Ok tt;
  ok_iterations : ∀ i n, 0 < i → nodes st !! i = Some n →
    (0 ≤ iteration n < Z.of_nat (current_iteration st))%Z;
  ok_best : current_best st = best_node ln (strategy st) (nodes st);
}.

Lemma nodes_nonempty st : state_ok st → 0 < length (nodes st).
Proof. intros [[(r & Hr & _) _ _ _] _ _ _ _ _]. by eapply lookup_lt_Some. Qed.

Lemma new_ok s c st : new s c = Ok st → state_ok st.
Proof.
  unfold new. destruct (validate_config c); [|done..]. intros [= <-]. split; simpl.
  - split; simpl.
    + by exists root_node.
    + intros [|i] n; [by intros [= <-]|done].
    + intros [|i] p; [done|]. unfold par_of. by destruct i.
    + intros [|i] n; [by intros [= <-]|done].
  - intros [|i] n; [intros [= <-]|done]. unfold counted. simpl. by destruct s.
  - intros _ j Hj. lia.
  - intros [|i] n; [lia|done].
  - intros [|i] n; [lia|done].
  - done.
Qed.

(** ** Keys and successes are functions of the outcomes *)
Lemma key_at_outcome s ns ms i :
  (outcome <$> ns) !! i = (outcome <$> ms) !! i →
  key_at ln s ns i = key_at ln s ms i ∧ success_at ns i = success_at ms i.
Proof.
  rewrite !list_lookup_fmap. unfold key_at, success_at, score_of, mcts_score, speedup, successful.
  destruct (ns !! i) as [n|], (ms !! i) as [m|]; simpl; try done.
  intros [= H]. by rewrite H.
Qed.

Lemma successes_app ns ms os :
  1 ≤ length ns → outcome <$> ms = (outcome <$> ns) ++ os →
  successes ms 1 = successes ns 1
    ++ filter (λ i, success_at ms i = true) (seq (length ns) (length os)).
Proof.
  intros Hn H. unfold successes.
  assert (length ms = length ns + length os) as ->.
  { by rewrite <-(length_fmap outcome ms), H, length_app, length_fmap. }
  replace (length ns + length os - 1) with ((length ns - 1) + length os) by lia.
  rewrite seq_app, filter_app. replace (1 + (length ns - 1)) with (length ns) by lia. f_equal.
  apply list_filter_ext. intros i Hi%elem_of_seq.
  destruct (key_at_outcome Greedy ms ns i) as [_ ->]; [|done].
  rewrite H, lookup_app_l; [done|]. rewrite length_fmap. lia.
Qed.

Lemma successes_in ns k : Forall (λ i, k ≤ i < length ns ∧ success_at ns i = true) (successes ns k).
Proof.
  apply Forall_forall. intros i [Hs Hi%elem_of_seq]%list_elem_of_filter. split; [lia|done].
Qed.

Definition outcomes_ok ns : Prop := ∀ i n, 0 < i → ns !! i = Some n → validate (outcome n) = Ok tt.

Lemma outcomes_valid_at s ns i : outcomes_ok ns → 0 < i < length ns → valid_at ln s ns i.
Proof.
  intros Hv Hi. unfold valid_at, key_at. destruct (lookup_lt_is_Some_2 ns i) as [n Hn]; [lia|].
  rewrite Hn. simpl. apply score_not_nan; [done|]. apply (Hv i n); [lia|done].
Qed.

(** Extending the nodes by a batch: the best node is the better of the best so
    far and the best of the batch. *)
Lemma best_node_extend s ns ms os :
  1 ≤ length ns → outcome <$> ms = (outcome <$> ns) ++ os → outcomes_ok ms →
  best_node ln s ms =
  match first_max (gt_at ln s ms)
          (filter (λ i, success_at ms i = true) (seq (length ns) (length os))) with
  | Some b => better (gt_at ln s ms) (best_node ln s ns) b
  | None => best_node ln s ns
  end.
Proof.
  intros Hn H Hv. assert (length ms = length ns + length os) as Hlen.
  { by rewrite <-(length_fmap outcome ms), H, length_app, length_fmap. }
  unfold best_node at 1, first_max. rewrite (successes_app ns ms os Hn H), foldl_app.
  assert (foldl (better (gt_at ln s ms)) None (successes ns 1) = best_node ln s ns) as ->.
  { apply foldl_better_ext with (λ i, i < length ns); [|eapply Forall_impl; [apply successes_in|]|done].
    - assert (∀ i, i < length ns → key_at ln s ms i = key_at ln s ns i) as Hk.
      { intros i Hi. apply key_at_outcome. rewrite H, lookup_app_l; [done|]. by rewrite length_fmap. }
      intros i j Hi Hj. unfold gt_at. by rewrite !Hk.
    - simpl. lia. }
  apply (foldl_better _ (λ i, 0 < i < length ms)).
  - intros i j k Hi Hj Hk. by apply gt_at_trans; apply outcomes_valid_at.
  - intros i j k Hi Hj Hk. by apply gt_at_split; apply outcomes_valid_at.
  - apply Forall_forall. intros i [_ Hi%elem_of_seq]%list_elem_of_filter. lia.
  - apply foldl_better_in; [|done]. eapply Forall_impl; [apply successes_in|]. simpl. lia.
Qed.

(** ** Recording a batch *)
Lemma par_of_replicate ps m q j :
  par_of (ps ++ replicate m q) j
  = if decide (j < length ps) then par_of ps j else if decide (j < length ps + m) then q else None.
Proof.
  unfold par_of. repeat case_decide.
  - by rewrite lookup_app_l.
  - rewrite lookup_app_r by lia. rewrite lookup_replicate_2 by lia. done.
  - rewrite lookup_app_r by lia. rewrite lookup_ge_None_2; [done|]. rewrite length_replicate. lia.
Qed.

Lemma check_parent_Ok st par :
  check_parent st par = Ok tt → ∀ p, par = Some p → 0 < p < length (nodes st).
Proof.
  intros H p ->. unfold check_parent in H. simpl in H. apply ensure_Ok in H.
  apply andb_prop in H as [H1%bool_decide_eq_true H2%bool_decide_eq_true]. unfold ROOT in H1. lia.
Qed.

(** The nodes after a batch, before the bests are updated. *)
Definition batch_nodes st (par : option NodeId) (os : list Outcome) ns : Prop :=
  shape ns
  ∧ credited ln (match strategy st with Greedy => 1 | Mcts => length ns end) ns
  ∧ outcome <$> ns = (outcome <$> nodes st) ++ os
  ∧ iteration <$> ns
    = (iteration <$> nodes st) ++ replicate (length os) (Z.of_nat (current_iteration st))
  ∧ (strategy st = Mcts → ∀ j, 0 < j < length ns → par_of (parents ns) j ≠ None).

Lemma batch_nodes_Ok st par os :
  state_ok st → check_parent st par = Ok tt →
  ∃ ns, ('(added, ns) ← push_outcomes (current_iteration st) par 0 os [] (nodes st);
         ns ← (if bool_decide (strategy st = Mcts) then update_mcts ln added ns else Ok ns);
         Ok (added, ns)) = @Ok str _ (seq (length (nodes st)) (length os), ns)
    ∧ batch_nodes st par os ns.
Proof.
  intros Hst Hpar0. pose proof (check_parent_Ok st par Hpar0) as Hpar.
  pose proof (nodes_nonempty st Hst) as Hne.
  destruct (push_outcomes_Ok ln (current_iteration st) par (counted st) os 0 [] (nodes st))
    as (ns & -> & Hs & Hc & Ho & Hi & Hp).
  { unfold counted. destruct (strategy st); lia. } { unfold counted. destruct (strategy st); lia. }
  { apply Hst. } { apply Hst. } { intros p Hpp. apply Hpar in Hpp. lia. }
  cbn [mbind res_bind app]. unfold counted in Hc.
  assert (length ns = length (nodes st) + length os) as Hlen.
  { by rewrite <-(length_fmap outcome ns), Ho, length_app, length_fmap. }
  destruct (strategy st) eqn:Hstr; simpl.
  - exists ns. split; [done|]. unfold batch_nodes. rewrite Hstr. by split_and!.
  - destruct (update_mcts_Ok ln (length os) (length (nodes st)) ns)
      as (ns' & -> & Hs' & Hc' & [Ho' Hi'] & Hold & Hnew); [done|lia|done|done| |].
    { assert (length (parents (nodes st)) = length (nodes st)) as Hpl by apply length_fmap.
      destruct par as [p|]; [right|left]; intros j Hj; rewrite Hp, par_of_replicate, Hpl;
        rewrite decide_False by lia; repeat case_decide; done || lia. }
    exists ns'. split; [done|]. unfold batch_nodes. rewrite Hstr.
    assert (length ns' = length ns) as Hlen' by by rewrite <-(length_fmap outcome ns'), Ho', length_fmap.
    rewrite Hlen'. split_and!; try done; [congruence..|]. intros _ j Hj.
    destruct (decide (j < length (nodes st))); [|apply Hnew; lia].
    rewrite Hold, Hp, par_of_replicate by done. rewrite decide_True by (unfold parents; by rewrite length_fmap).
    apply (ok_linked _ Hst Hstr). lia.
Qed.

Lemma extended_iterations st ns (os : list Outcome) :
  state_ok st →
  iteration <$> ns
    = (iteration <$> nodes st) ++ replicate (length os) (Z.of_nat (current_iteration st)) →
  ∀ i n, 0 < i → ns !! i = Some n → (0 ≤ iteration n < Z.of_nat (S (current_iteration st)))%Z.
Proof.
  intros Hst H i n Hi Hn.
  assert ((iteration <$> ns) !! i = Some (iteration n)) as Hin by by rewrite list_lookup_fmap, Hn.
  rewrite H in Hin. apply lookup_app_Some in Hin as [Hin|[_ Hin]].
  - rewrite list_lookup_fmap in Hin. destruct (nodes st !! i) as [m|] eqn:Hm; [|done].
    injection Hin as <-. pose proof (ok_iterations _ Hst i m Hi Hm). lia.
  - apply lookup_replicate in Hin as [-> _]. lia.
Qed.

Lemma extended_outcomes st ns os :
  state_ok st → Forall (λ o, validate o = Ok tt) os →
  outcome <$> ns = (outcome <$> nodes st) ++ os → outcomes_ok ns.
Proof.
  intros Hst Hos H i n Hi0 Hn.
  assert ((outcome <$> ns) !! i = Some (outcome n)) as Hin by by rewrite list_lookup_fmap, Hn.
  rewrite H in Hin. apply lookup_app_Some in Hin as [Hin|[_ Hin]].
  - rewrite list_lookup_fmap in Hin. destruct (nodes st !! i) as [m|] eqn:Hm; [|done].
    injection Hin as <-. by apply (ok_outcomes _ Hst i m).
  - rewrite Forall_forall in Hos. apply Hos. by eapply list_elem_of_lookup_2.
Qed.

Lemma best_in_range s ns b : best_node ln s ns = Some b → 0 < b < length ns ∧ success_at ns b = true.
Proof.
  apply (foldl_better_in (gt_at ln s ns) (λ b, 0 < b < length ns ∧ success_at ns b = true)); [|done].
  eapply Forall_impl; [apply successes_in|]. simpl. intros i [? ?]. split; [lia|done].
Qed.

(** The bests, history and counters after the nodes [ns] of a batch. *)
Lemma conclude_batch_ok st ns os :
  state_ok st → 1 ≤ length (nodes st) → outcome <$> ns = (outcome <$> nodes st) ++ os →
  outcomes_ok ns →
  let best := first_max (gt_at ln (strategy st) ns)
    (filter (λ i, success_at ns i = true) (seq (length (nodes st)) (length os))) in
  ∃ st', conclude_batch ln (with_nodes ns st) best = Ok st'
    ∧ nodes st' = ns ∧ strategy st' = strategy st ∧ config st' = config st
    ∧ current_iteration st' = S (current_iteration st)
    ∧ current_best st' = best_node ln (strategy st) ns.
Proof.
  intros Hst Hne Ho Hv best.
  assert (length ns = length (nodes st) + length os) as Hlen.
  { by rewrite <-(length_fmap outcome ns), Ho, length_app, length_fmap. }
  pose proof (best_node_extend (strategy st) (nodes st) ns os Hne Ho Hv) as Hbest. fold best in Hbest.
  assert (∀ b, best = Some b → b < length ns) as Hb.
  { apply (foldl_better_in _ (λ b, b < length ns)); [|done].
    apply Forall_forall. intros i [_ Hi%elem_of_seq]%list_elem_of_filter. lia. }
  destruct best as [b|]; simpl.
  2: { eexists. split; [reflexivity|]. split_and!; try done. simpl. rewrite Hbest. apply Hst. }
  specialize (Hb b eq_refl). rewrite (ok_best _ Hst).
  assert ((match best_node ln (strategy st) (nodes st) with
     | Some old => s ← score ln (with_nodes ns st) b; t ← score ln (with_nodes ns st) old; Ok (fgt s t)
     | None => Ok true end)
     = @Ok str _ (is_none_or (λ old, gt_at ln (strategy st) ns b old) (best_node ln (strategy st) (nodes st))))
    as ->.
  { destruct (best_node ln (strategy st) (nodes st)) as [old|] eqn:Eold; [|done].
    apply best_in_range in Eold as [? _]. by rewrite !score_Ok by (simpl; lia). }
  cbn [mbind res_bind].
  assert (∃ h, (if bool_decide (strategy st = Greedy) then n ← node (with_nodes ns st) b;
    Ok (speedup_history st ++ [speedup n]) else Ok (speedup_history st)) = @Ok str _ h) as [h ->].
  { case_bool_decide; [|by eauto]. destruct (lookup_lt_is_Some_2 ns b Hb) as [n Hn].
    rewrite (node_Ok (with_nodes ns st) b n Hn). simpl. eauto. }
  cbn [mbind res_bind]. eexists. split; [reflexivity|]. split_and!; try done.
Qed.

Lemma record_batch_ok st par os :
  state_ok st → check_parent st par = Ok tt → Forall (λ o, validate o = Ok tt) os →
  ∃ st', record_batch ln st par os = Ok (st', seq (length (nodes st)) (length os))
    ∧ state_ok st' ∧ strategy st' = strategy st ∧ config st' = config st
    ∧ current_iteration st' = S (current_iteration st)
    ∧ outcome <$> nodes st' = (outcome <$> nodes st) ++ os.
Proof.
  intros Hst Hpar Hos. unfold record_batch. rewrite Hpar. cbn [mbind res_bind].
  assert (∃ us, res_mapM validate os = Ok us) as [us ->].
  { clear -Hos. induction Hos as [|o os Ho _ [us IH]]; simpl; [by eauto|]. rewrite Ho, IH. simpl. eauto. }
  cbn [mbind res_bind].
  destruct (batch_nodes_Ok st par os Hst Hpar) as (ns & E & Hs & Hc & Ho & Hi & Hl).
  destruct (push_outcomes _ _ _ _ _ _) as [[added ns0]| |];
    cbn [mbind res_bind] in E |- *; try done.
  destruct (if bool_decide _ then update_mcts ln added ns0 else Ok ns0) as [ns1| |]; simpl in E; try done.
  injection E as -> ->. cbn [mbind res_bind].
  pose proof (nodes_nonempty st Hst) as Hne.
  assert (length ns = length (nodes st) + length os) as Hlen.
  { by rewrite <-(length_fmap outcome ns), Ho, length_app, length_fmap. }
  pose proof (extended_outcomes st ns os Hst Hos Ho) as Hv.
  rewrite iteration_best_Ok; [|simpl; apply Forall_forall; intros i Hin%elem_of_seq; lia|done].
  cbn [mbind res_bind].
  destruct (conclude_batch_ok st ns os Hst Hne Ho Hv) as (st' & E & Hn & Hstr & Hcfg & Hit & Hb).
  unfold first_max in E. simpl nodes. simpl strategy. rewrite E. cbn [mbind res_bind].
  exists st'. split; [done|]. split; [|by rewrite Hn].
  split; unfold counted; rewrite ?Hn, ?Hstr, ?Hit; try done. by eapply extended_iterations.
Qed.

(** ** Selection *)
Lemma uct_Ok st i : shape (nodes st) → i < length (nodes st) → ∃ x, uct ln st i = Ok x.
Proof.
  intros Hs Hi. destruct (lookup_lt_is_Some_2 _ _ Hi) as [n Hn]. unfold uct.
  rewrite (node_Ok _ _ _ Hn). cbn [mbind res_bind]. case_bool_decide; [by eauto|].
  destruct (parent n) as [p|] eqn:Hp; [|by eauto].
  assert (p < i) by (apply (shape_ordered _ Hs); by rewrite (parents_lookup _ _ _ Hn)).
  destruct (lookup_lt_is_Some_2 (nodes st) p) as [pn Hpn]; [lia|].
  rewrite (node_Ok _ _ _ Hpn). cbn [mbind res_bind]. case_bool_decide; eauto.
Qed.

Lemma best_child_Ok st cs best :
  shape (nodes st) → Forall (λ c, c < length (nodes st)) cs →
  ∃ o, best_child ln st cs best = Ok o
    ∧ (∀ c x, o = Some (c, x) → best = Some (c, x)
         ∨ c ∈ cs ∧ ∃ n, nodes st !! c = Some n ∧ terminal n = false).
Proof.
  intros Hs Hcs. revert best. induction Hcs as [|c cs Hc _ IH]; intros best; simpl.
  { exists best. split; [done|]. by left. }
  destruct (lookup_lt_is_Some_2 _ _ Hc) as [n Hn].
  rewrite (node_Ok _ _ _ Hn). cbn [mbind res_bind]. destruct (terminal n) eqn:Ht.
  - destruct (IH best) as (o & -> & Ho). exists o. split; [done|]. intros c' x Hx.
    destruct (Ho c' x Hx) as [?|[? ?]]; [by left|right]. split; [by right|done].
  - destruct (uct_Ok st c Hs Hc) as [x ->]. cbn [mbind res_bind].
    destruct (IH (if is_none_or (λ '(_, old), fgt x old) best then Some (c, x) else best))
      as (o & -> & Ho). exists o. split; [done|]. intros c' y Hy.
    destruct (Ho c' y Hy) as [Hb|[? ?]]; [|right; by split; [right|]].
    case_match; [|by left]. injection Hb as <- <-. right. split; [left|by exists n].
Qed.

Lemma can_add_child_Ok st i : i < length (nodes st) → ∃ b, can_add_child powf st i = Ok b.
Proof.
  intros Hi. destruct (lookup_lt_is_Some_2 _ _ Hi) as [n Hn]. unfold can_add_child.
  rewrite (node_Ok _ _ _ Hn). cbn [mbind res_bind]. eauto.
Qed.
Lemma virtual_uct_Ok st i : i < length (nodes st) → ∃ x, virtual_uct ln st i = Ok x.
Proof.
  intros Hi. destruct (lookup_lt_is_Some_2 _ _ Hi) as [n Hn]. unfold virtual_uct.
  rewrite (node_Ok _ _ _ Hn). cbn [mbind res_bind]. case_bool_decide; eauto.
Qed.

(** The fields a selection leaves alone. *)
Definition same_search st st' : Prop :=
  strategy st' = strategy st ∧ config st' = config st
  ∧ current_iteration st' = current_iteration st ∧ current_best st' = current_best st
  ∧ consecutive_failures st' = consecutive_failures st
  ∧ speedup_history st' = speedup_history st.

(** The descent: enough fuel for the nodes below [i] suffices. *)
Lemma select_loop_Ok fuel st i :
  shape (nodes st) → i < length (nodes st) → length (nodes st) - i < fuel →
  ∃ st' d, select_loop ln powf fuel st i = Ok (st', d) ∧ same_search st st' ∧
    match d with
    | BreakAt j => nodes st' = nodes st ∧ i ≤ j < length (nodes st)
        ∧ (j = i ∨ ∃ n, nodes st !! j = Some n ∧ terminal n = false)
    | Exhausted => ∃ k, nodes st' = alter set_terminal k (nodes st)
    end.
Proof.
  revert st i. induction fuel as [|fuel IH]; intros st i Hs Hi Hf; [lia|]. cbn [select_loop].
  destruct (lookup_lt_is_Some_2 _ _ Hi) as [n Hn].
  rewrite (node_Ok _ _ _ Hn). cbn [mbind res_bind]. destruct (is_empty (children n)).
  { exists st, (BreakAt i). split; [done|]. split; [by split_and!|]. split; [done|]. split; [lia|by left]. }
  rewrite (shape_kids _ Hs i n Hn).
  destruct (best_child_Ok st (kids (parents (nodes st)) i) None Hs (kids_in_range _ _)) as (o & -> & Ho).
  cbn [mbind res_bind]. destruct o as [[c x]|].
  2: { rewrite update_Ok by done. cbn [mbind res_bind]. do 2 eexists. split; [reflexivity|].
       split; [by split_and!|]. by exists i. }
  destruct (Ho c x eq_refl) as [?|[Hc Hcn]]; [done|]. clear Ho.
  apply list_elem_of_filter in Hc as [Hpc Hc%elem_of_seq].
  assert (i < c) by by apply (shape_ordered _ Hs).
  assert (c < length (nodes st)).
  { destruct Hcn as (cn & Hcn & _). by eapply lookup_lt_Some. }
  assert (∀ st1, nodes st1 = nodes st → same_search st st1 →
    ∃ st' d, select_loop ln powf fuel st1 c = Ok (st', d) ∧ same_search st st' ∧
    match d with
    | BreakAt j => nodes st' = nodes st ∧ i ≤ j < length (nodes st)
        ∧ (j = i ∨ ∃ n, nodes st !! j = Some n ∧ terminal n = false)
    | Exhausted => ∃ k, nodes st' = alter set_terminal k (nodes st)
    end) as Hrec.
  { intros st1 Hns Hsame. destruct (IH st1 c) as (st' & d & -> & Hsame' & Hd); rewrite ?Hns; [done|lia|lia|].
    exists st', d. split; [done|]. split.
    - unfold same_search in *. destruct_and!. split_and!; congruence.
    - rewrite Hns in Hd. destruct d as [j|]; [|done]. destruct Hd as (? & ? & Hj).
      split; [done|]. split; [lia|]. right. destruct Hj as [->|?]; done. }
  destruct (can_add_child_Ok st i Hi) as [[] ->]; cbn [mbind res_bind].
  - destruct (virtual_uct_Ok st i Hi) as [y ->]. cbn [mbind res_bind].
    destruct (fgt y x); [|by apply Hrec].
    exists (with_counters 0 0 1 st), (BreakAt i). split; [done|]. split; [by split_and!|].
    split; [done|]. split; [lia|by left].
  - by apply Hrec.
Qed.

Lemma best_node_outcomes s ns ms :
  outcome <$> ns = outcome <$> ms → best_node ln s ns = best_node ln s ms.
Proof.
  intros H. assert (length ns = length ms) as Hlen by by rewrite <-(length_fmap outcome ns), H, length_fmap.
  assert (∀ i, key_at ln s ns i = key_at ln s ms i ∧ success_at ns i = success_at ms i) as Hk.
  { intros i. apply key_at_outcome. by rewrite H. }
  unfold best_node, first_max.
  assert (successes ns 1 = successes ms 1) as ->.
  { unfold successes. rewrite Hlen. apply list_filter_ext. intros i _. by destruct (Hk i) as [_ ->]. }
  apply foldl_better_ext with (λ _, True); [|by apply Forall_true|done].
  intros i j _ _. unfold gt_at. destruct (Hk i) as [-> _], (Hk j) as [-> _]. done.
Qed.

(** Terminal flags are not part of the invariant. *)
Lemma state_ok_flags st st' :
  state_ok st → same_search st st' →
  (nodes st' = nodes st ∨ ∃ k, nodes st' = alter set_terminal k (nodes st)) → state_ok st'.
Proof.
  intros Hst (Hstr & _ & Hit & Hb & _ & _) Hns.
  assert (same_data (nodes st') (nodes st) ∧ parents (nodes st') = parents (nodes st)
    ∧ shape (nodes st') ∧ credited ln (counted st) (nodes st')) as ([Ho Hi] & Hp & Hs & Hc).
  { destruct Hst as [? ? _ _ _ _]. destruct Hns as [->|[k ->]]; [by split_and!|].
    split; [apply terminal_same_data|]. split; [by apply fmap_alter_same|].
    split; [by apply terminal_shape|by apply terminal_credited]. }
  assert (length (nodes st') = length (nodes st)) as Hlen.
  { by rewrite <-(length_fmap outcome (nodes st')), Ho, length_fmap. }
  split.
  - done.
  - unfold counted in *. by rewrite Hstr, Hlen.
  - rewrite Hstr, Hp, Hlen. apply Hst.
  - intros i n Hi0 Hn. destruct (fmap_lookup_same outcome _ _ i n Ho Hn) as (m & Hm & <-).
    by apply (ok_outcomes _ Hst i).
  - intros i n Hi0 Hn. destruct (fmap_lookup_same iteration _ _ i n Hi Hn) as (m & Hm & <-).
    rewrite Hit. by apply (ok_iterations _ Hst i).
  - rewrite Hb, Hstr, (ok_best _ Hst). symmetry. by apply best_node_outcomes.
Qed.

(** The candidates of the greedy fallback, in order. *)
Definition candidates st (recent : option Z) k : list NodeId :=
  filter (λ i, is_some_and (greedy_candidate (config st) recent) (nodes st !! i) = true)
    (seq k (length (nodes st) - k)).
Definition priority_at ns i : nat * f64 * f64 := from_option priority (0, fzero, fzero) (ns !! i).
Definition more_urgent ns i j : bool := priority_gt (priority_at ns i) (priority_at ns j).

Lemma greedy_loop_Ok st recent k best :
  shape (nodes st) → k ≤ length (nodes st) → (∀ b, best = Some b → b < length (nodes st)) →
  greedy_loop st recent best (drop k (nodes st))
  = Ok (foldl (better (more_urgent (nodes st))) best (candidates st recent k)).
Proof.
  intros Hs. remember (length (nodes st) - k) as m eqn:Hm. revert k best Hm.
  induction m as [|m IH]; intros k best Hm Hk Hb.
  { rewrite drop_ge by lia. unfold candidates. by rewrite <-Hm. }
  destruct (lookup_lt_is_Some_2 (nodes st) k) as [n Hn]; [lia|].
  rewrite (drop_S _ _ _ Hn). cbn [greedy_loop]. unfold candidates. rewrite <-Hm.
  cbn [seq]. rewrite filter_cons.
  assert (is_some_and (greedy_candidate (config st) recent) (nodes st !! k)
    = greedy_candidate (config st) recent n) as Hsa by by rewrite Hn.
  assert (∀ best, (∀ b, best = Some b → b < length (nodes st)) →
    greedy_loop st recent best (drop (S k) (nodes st)) = Ok (foldl (better (more_urgent (nodes st))) best
      (filter (λ i, is_some_and (greedy_candidate (config st) recent) (nodes st !! i) = true)
        (seq (S k) m)))) as IH'.
  { intros best' Hb'. rewrite IH; [|lia|lia|done]. unfold candidates. do 3 f_equal. f_equal. lia. }
  destruct (greedy_candidate (config st) recent n);
    [rewrite (decide_True _ _ Hsa)|rewrite decide_False by congruence; by apply IH'].
  rewrite (shape_ids _ Hs k n Hn). simpl foldl. destruct best as [b|].
  - destruct (lookup_lt_is_Some_2 (nodes st) b) as [bn Hbn]; [auto|].
    rewrite (node_Ok _ _ _ Hbn). cbn [mbind res_bind].
    assert (better (more_urgent (nodes st)) (Some b) k
      = if priority_gt (priority n) (priority bn) then Some k else Some b) as ->.
    { unfold better, more_urgent, priority_at. simpl. by rewrite Hn, Hbn. }
    apply IH'. intros b'. case_match; intros [= <-]; [lia|auto].
  - cbn [mbind res_bind]. apply IH'. intros b [= <-]. lia.
Qed.

(** What greedy selection returns. *)
Definition greedy_choice st : option NodeId :=
  if bool_decide (current_iteration st = 0)
     || bool_decide (default 2 (max_consecutive_failures (config st)) ≤ consecutive_failures st)
  then None
  else match best_node ln Greedy (nodes st) with
       | Some b => Some b
       | None => first_max (more_urgent (nodes st))
                   (candidates st (most_recent (drop 1 (nodes st))) 1)
       end.

Lemma select_greedy_Ok st :
  state_ok st → strategy st = Greedy → select_greedy st = Ok (greedy_choice st).
Proof.
  intros Hst Hstr. pose proof (nodes_nonempty st Hst) as Hne. unfold select_greedy, greedy_choice.
  destruct (bool_decide _ || _); [done|]. rewrite (ok_best _ Hst), Hstr.
  destruct (best_node ln Greedy (nodes st)) as [b|] eqn:Eb.
  - apply best_in_range in Eb as [Hr Hsu]. destruct (lookup_lt_is_Some_2 (nodes st) b) as [n Hn]; [lia|].
    rewrite (node_Ok _ _ _ Hn). cbn [mbind res_bind]. unfold success_at in Hsu. rewrite Hn in Hsu.
    simpl in Hsu. by rewrite Hsu.
  - cbn [mbind res_bind]. rewrite greedy_loop_Ok; [done|apply Hst|lia|done].
Qed.

Lemma greedy_choice_in_range st p : greedy_choice st = Some p → 0 < p < length (nodes st).
Proof.
  unfold greedy_choice. case_match; [done|].
  destruct (best_node ln Greedy (nodes st)) as [b|] eqn:Eb.
  - intros [= <-]. by apply best_in_range in Eb as [? _].
  - apply (foldl_better_in _ (λ i, 0 < i < length (nodes st))); [|done].
    apply Forall_forall. intros i [_ Hi%elem_of_seq]%list_elem_of_filter. lia.
Qed.

Lemma select_ok st :
  state_ok st →
  ∃ st' sel, select ln powf st = Ok (st', sel) ∧ state_ok st' ∧ same_search st st'
    ∧ length (nodes st') = length (nodes st)
    ∧ ∀ p, sel = Some p → 0 < p < length (nodes st)
        ∧ (strategy st = Mcts → ∃ n, nodes st' !! p = Some n ∧ terminal n = false).
Proof.
  intros Hst. pose proof (nodes_nonempty st Hst) as Hne. unfold select.
  destruct (strategy st) eqn:Hstr.
  - rewrite select_greedy_Ok by done. cbn [mbind res_bind]. do 2 eexists. split; [reflexivity|].
    split; [done|]. split; [by split_and!|]. split; [done|]. intros p Hp.
    split; [by apply greedy_choice_in_range|done].
  - unfold select_mcts.
    destruct (select_loop_Ok (S (length (nodes st))) st ROOT) as (st' & d & -> & Hsame & Hd);
      [apply Hst|unfold ROOT; lia|lia|]. cbn [mbind res_bind].
    destruct d as [j|].
    + destruct Hd as (Hns & Hj & Hdj).
      assert (state_ok st') as Hok by (apply (state_ok_flags st); auto).
      case_bool_decide as HR.
      * do 2 eexists. split; [reflexivity|]. split; [by apply (state_ok_flags st'); [..|left]|].
        split; [done|]. split; [by simpl; rewrite Hns|done].
      * do 2 eexists. split; [reflexivity|]. split; [done|]. split; [done|]. split; [by rewrite Hns|].
        intros p [= <-]. unfold ROOT in *. split; [lia|]. intros _. rewrite Hns.
        destruct Hdj as [->|?]; [lia|done].
    + do 2 eexists. split; [reflexivity|]. split; [by apply (state_ok_flags st); auto|].
      split; [done|]. split; [|done]. destruct Hd as [k ->]. apply length_alter.
Qed.

(** ** Traces *)
Lemma should_continue_Ok st :
  ∃ b, should_continue st = Ok b
    ∧ (b = true → current_iteration st < max_iterations (config st) (strategy st)).
Proof.
  unfold should_continue. case_bool_decide as Hit; [by exists false|].
  destruct (bool_decide (strategy st = Greedy) && bool_decide (2 ≤ length (speedup_history st))) eqn:E.
  - apply andb_prop in E as [_ Hlen%bool_decide_eq_true].
    destruct (lookup_lt_is_Some_2 (speedup_history st) (length (speedup_history st) - 1)) as [x Hx]; [lia|].
    destruct (lookup_lt_is_Some_2 (speedup_history st) (length (speedup_history st) - 2)) as [y Hy]; [lia|].
    rewrite (index_Ok _ _ _ Hx). cbn [mbind res_bind]. rewrite (index_Ok _ _ _ Hy). cbn [mbind res_bind].
    eexists. split; [reflexivity|]. lia.
  - exists true. split; [done|]. lia.
Qed.

Lemma trace_loop_ok batches st steps :
  state_ok st → current_iteration st = length steps →
  length steps ≤ 1 `max` max_iterations (config st) (strategy st) →
  Forall (Forall (λ o, validate o = Ok tt)) batches → Forall (λ x, state_ok x.2) steps →
  ∃ out, trace_loop ln powf (length steps) st batches steps = Ok out
    ∧ length out ≤ 1 `max` max_iterations (config st) (strategy st)
    ∧ length out ≤ length steps + length batches
    ∧ Forall (λ x, state_ok x.2) out.
Proof.
  intros Hst Hit Hlen Hb. revert st steps Hst Hit Hlen.
  induction Hb as [|os batches Hos _ IH]; intros st steps Hst Hit Hlen Hsteps; cbn [trace_loop].
  { exists steps. split; [done|]. split; [done|]. simpl. split; [lia|done]. }
  assert (∃ go, (if bool_decide (0 < length steps) then should_continue st else Ok true) = Ok go
    ∧ (go = true → length steps < 1 `max` max_iterations (config st) (strategy st))) as (go & -> & Hgo).
  { case_bool_decide; [|exists true; split; [done|lia]].
    destruct (should_continue_Ok st) as (b & -> & Hlt). exists b. split; [done|]. intros Hbt. specialize (Hlt Hbt). lia. }
  cbn [mbind res_bind]. destruct go.
  2: { exists steps. split; [done|]. split; [done|]. split; [lia|done]. }
  specialize (Hgo eq_refl).
  assert (∃ st1 sel, (if bool_decide (length steps = 0) then Ok (st, None) else select ln powf st)
    = Ok (st1, sel) ∧ state_ok st1 ∧ same_search st st1 ∧ check_parent st1 sel = Ok tt)
    as (st1 & sel & -> & Hst1 & Hsame & Hpar).
  { case_bool_decide.
    - exists st, None. split_and!; try done.
    - destruct (select_ok st Hst) as (st1 & sel & -> & ? & ? & Hl & Hsel). exists st1, sel.
      split_and!; try done. unfold check_parent. destruct sel as [p|]; [|done].
      apply ensure_Ok. destruct (Hsel p eq_refl) as [? _]. rewrite Hl. unfold ROOT.
      rewrite !bool_decide_eq_true_2 by lia. done. }
  cbn [mbind res_bind].
  destruct (record_batch_ok st1 sel os Hst1 Hpar Hos) as (st2 & -> & Hst2 & Hstr & Hcfg & Hit2 & _).
  cbn [mbind res_bind]. destruct Hsame as (Hs1 & Hc1 & Hi1 & _).
  assert (S (length steps) = length (steps ++ [(sel, st2)])) as Hsl by (rewrite length_app; simpl; lia).
  rewrite Hsl. destruct (IH st2 (steps ++ [(sel, st2)])) as (out & -> & ? & ? & ?).
  - done.
  - rewrite Hit2, Hi1, Hit. done.
  - rewrite Hcfg, Hc1, Hstr, Hs1, <-Hsl. lia.
  - apply Forall_app. split; [done|]. by apply Forall_singleton.
  - exists out. rewrite Hcfg, Hc1, Hstr, Hs1 in *. split; [done|]. split; [done|].
    split; [simpl; lia|done].
Qed.

(** ** Priorities *)
Definition urgency_ok ns i : Prop :=
  is_nan (priority_at ns i).1.2 = false ∧ is_nan (priority_at ns i).2 = false.

Lemma priority_gt_rank a b :
  is_nan a.1.2 = false → is_nan a.2 = false → is_nan b.1.2 = false → is_nan b.2 = false →
  priority_gt a b = true ↔
  (b.1.1 < a.1.1 ∨ (a.1.1 = b.1.1 ∧ (rank_lt (rank b.1.2) (rank a.1.2)
     ∨ (rank a.1.2 = rank b.1.2 ∧ rank_lt (rank b.2) (rank a.2))))).
Proof.
  destruct a as [[s d] x], b as [[s' d'] x']. simpl. intros Hd Hx Hd' Hx'.
  rewrite orb_true_iff, andb_true_iff, orb_true_iff, andb_true_iff, !bool_decide_eq_true,
    !fgt_rank, feq_rank by done. tauto.
Qed.

Lemma more_urgent_trans ns i j k : urgency_ok ns i → urgency_ok ns j → urgency_ok ns k →
  more_urgent ns i j = true → more_urgent ns j k = true → more_urgent ns i k = true.
Proof.
  intros [] [] []. unfold more_urgent. rewrite !priority_gt_rank by done.
  generalize (priority_at ns i), (priority_at ns j), (priority_at ns k).
  intros [[s d] x] [[s' d'] x'] [[s'' d''] x'']; simpl.
  intros [?|(? & [?|(? & ?)])] [?|(? & [?|(? & ?)])]; try (left; lia); right; (split; [lia|]);
    [left; by eapply rank_lt_trans|left; congruence|left; congruence|].
  right. split; [congruence|]. by eapply rank_lt_trans.
Qed.

Lemma more_urgent_split ns i j k : urgency_ok ns i → urgency_ok ns j → urgency_ok ns k →
  more_urgent ns i k = true → more_urgent ns i j = true ∨ more_urgent ns j k = true.
Proof.
  intros [] [] []. unfold more_urgent. rewrite !priority_gt_rank by done.
  generalize (priority_at ns i), (priority_at ns j), (priority_at ns k).
  intros [[s d] x] [[s' d'] x'] [[s'' d''] x'']; simpl.
  destruct (rank d) as [[d1 d2] d3], (rank d') as [[d1' d2'] d3'], (rank d'') as [[d1'' d2''] d3''],
    (rank x) as [[x1 x2] x3], (rank x') as [[x1' x2'] x3'], (rank x'') as [[x1'' x2''] x3''].
  unfold rank_lt. rewrite !pair_equal_spec. lia.
Qed.

Lemma validate_no_panic o : validate o ≠ Panic.
Proof.
  unfold validate, ensure. repeat (case_match; simpl; try done).
Qed.

Lemma res_mapM_validate os : res_mapM validate os ≠ Panic.
Proof.
  induction os as [|o os IH]; simpl; [done|]. pose proof (validate_no_panic o).
  destruct (validate o); simpl; try done. by destruct (res_mapM validate os).
Qed.

Lemma res_mapM_valid os us : res_mapM validate os = Ok us → Forall (λ o, validate o = Ok tt) os.
Proof.
  intros H%res_mapM_Ok. induction H as [|o u os us Ho H IH]; [done|].
  constructor; [by destruct u|done].
Qed.

(** ** Reachable states and the properties *)
Inductive reachable : SearchState → Prop :=
  | reachable_new s c st : new s c = Ok st → reachable st
  | reachable_select st st' sel : reachable st → select ln powf st = Ok (st', sel) → reachable st'
  | reachable_record st par os st' added :
      reachable st → record_batch ln st par os = Ok (st', added) → reachable st'.

Lemma record_batch_checks st par os r :
  record_batch ln st par os = Ok r →
  check_parent st par = Ok tt ∧ Forall (λ o, validate o = Ok tt) os.
Proof.
  unfold record_batch. destruct (check_parent st par) as [[]| |]; [|done..].
  cbn [mbind res_bind]. destruct (res_mapM validate os) as [us| |] eqn:E; [|done..].
  intros _. split; [done|]. by eapply res_mapM_valid.
Qed.

Lemma reachable_ok st : reachable st → state_ok st.
Proof.
  induction 1 as [s c st H|st st' sel _ IH H|st par os st' added _ IH H].
  - by eapply new_ok.
  - destruct (select_ok st IH) as (st1 & sel1 & E & Hok & _).
    rewrite H in E. by injection E as <- <-.
  - pose proof (record_batch_checks _ _ _ _ H) as [Hpar Hos].
    destruct (record_batch_ok st par os IH Hpar Hos) as (st1 & E & Hok & _).
    rewrite H in E. by injection E as -> ->.
Qed.

(** C4: every state a search reaches is a well-formed tree: node [i] has id [i],
    parents come before their children, a node's [children] are exactly the
    nodes that name it as parent, in order; under Monte-Carlo search every node
    hangs below the root; every recorded outcome is valid, and every node's
    iteration is one of the past. *)
Theorem search_tree_invariant st :
  reachable st →
  (∀ i n, nodes st !! i = Some n →
     id n = i ∧ children n = kids (parents (nodes st)) i
     ∧ (∀ p, parent n = Some p → p < i)
     ∧ (0 < i → validate (outcome n) = Ok tt
          ∧ (0 ≤ iteration n < Z.of_nat (current_iteration st))%Z
          ∧ (strategy st = Mcts → parent n ≠ None))).
Proof.
  intros Hst%reachable_ok i n Hn. pose proof (ok_shape _ Hst) as Hs.
  pose proof (parents_lookup _ _ _ Hn) as Hp. split_and!.
  - by apply (shape_ids _ Hs).
  - by apply (shape_kids _ Hs).
  - intros p Hpp. apply (shape_ordered _ Hs). congruence.
  - intros Hi. split; [by apply (ok_outcomes _ Hst i n)|].
    split; [by apply (ok_iterations _ Hst i n)|]. intros Hm. rewrite <-Hp.
    apply (ok_linked _ Hst Hm). apply lookup_lt_Some in Hn. lia.
Qed.

(** C8: under Monte-Carlo search a node's visits and total reward are those of
    its subtree: one visit per descendant (itself included, the root
    excluded), and the sum of their rewards in the order of their ids. *)
Theorem mcts_statistics_are_subtree_sums st i n :
  reachable st → strategy st = Mcts → nodes st !! i = Some n →
  visits n = length (subtree (parents (nodes st)) (length (nodes st)) i)
  ∧ total_reward n
    = foldl fadd fzero (reward_at ln (nodes st)
        <$> subtree (parents (nodes st)) (length (nodes st)) i).
Proof.
  intros Hst%reachable_ok Hm Hn. pose proof (ok_stats _ Hst i n Hn) as H.
  unfold counted in H. by rewrite Hm in H.
Qed.

(** Selection terminates without a panic in every reachable state, changes
    neither the bests nor the number of nodes, and the parent it returns is
    one [record_batch] accepts; under Monte-Carlo search it is not terminal. *)
Theorem select_returns_a_valid_parent st :
  reachable st →
  ∃ st' sel, select ln powf st = Ok (st', sel)
    ∧ check_parent st' sel = Ok tt
    ∧ length (nodes st') = length (nodes st) ∧ current_best st' = current_best st
    ∧ ∀ p, sel = Some p → strategy st = Mcts →
        ∃ n, nodes st' !! p = Some n ∧ terminal n = false.
Proof.
  intros Hst%reachable_ok.
  destruct (select_ok st Hst) as (st' & sel & E & _ & Hsame & Hl & Hsel).
  exists st', sel. split; [done|]. split.
  - unfold check_parent. destruct sel as [p|]; [|done]. destruct (Hsel p eq_refl) as [? _].
    apply ensure_Ok. rewrite Hl. unfold ROOT. rewrite !bool_decide_eq_true_2 by lia. done.
  - split; [done|]. split; [apply Hsame|]. intros p Hp Hm. by apply (Hsel p Hp).
Qed.

(** [record_batch] on a reachable state succeeds exactly when the parent is
    a node other than the root and every outcome is valid; then it appends one
    node per outcome, in order, and counts one more iteration.  It never
    panics. *)
Theorem record_batch_accepts_exactly_valid_batches st par os :
  reachable st →
  record_batch ln st par os ≠ Panic
  ∧ (is_ok (record_batch ln st par os) = true ↔
       check_parent st par = Ok tt ∧ Forall (λ o, validate o = Ok tt) os)
  ∧ ∀ st' added, record_batch ln st par os = Ok (st', added) →
      added = seq (length (nodes st)) (length os)
      ∧ outcome <$> nodes st' = (outcome <$> nodes st) ++ os
      ∧ current_iteration st' = S (current_iteration st).
Proof.
  intros Hst%reachable_ok.
  assert (check_parent st par = Ok tt ∧ Forall (λ o, validate o = Ok tt) os →
    ∃ st', record_batch ln st par os = Ok (st', seq (length (nodes st)) (length os))
      ∧ outcome <$> nodes st' = (outcome <$> nodes st) ++ os
      ∧ current_iteration st' = S (current_iteration st)) as Hok.
  { intros [Hp Ho]. destruct (record_batch_ok st par os Hst Hp Ho) as (st' & E & _ & _ & _ & ? & ?).
    exists st'. done. }
  split; [|split].
  - intros HP. assert (check_parent st par = Ok tt ∧ Forall (λ o, validate o = Ok tt) os) as H.
    { revert HP. unfold record_batch. unfold check_parent at 1.
      destruct (match par with Some p => _ | None => _ end) as [[]| |] eqn:E;
        [|done|by destruct par; [unfold ensure in E; case_match|]].
      cbn [mbind res_bind]. destruct (res_mapM validate os) as [us|e|] eqn:Ev; [|done|].
      - intros _. split; [done|]. by eapply res_mapM_valid.
      - by apply res_mapM_validate in Ev. }
    destruct (Hok H) as (st' & E & _). congruence.
  - split.
    + destruct (record_batch ln st par os) as [r| |] eqn:E; [|done..]. intros _.
      by apply (record_batch_checks _ _ _ r).
    + intros H. by destruct (Hok H) as (st' & -> & _).
  - intros st' added E. pose proof (record_batch_checks _ _ _ _ E) as H.
    destruct (Hok H) as (st1 & E1 & ? & ?). rewrite E in E1. by injection E1 as -> ->.
Qed.

Lemma winner_Ok st : state_ok st → winner st = Ok (best_node ln Greedy (nodes st)).
Proof.
  intros Hst. unfold winner. rewrite (winner_loop_Ok ln); [done|apply Hst| |done].
  apply nodes_nonempty in Hst. lia.
Qed.

Lemma best_node_spec s ns :
  outcomes_ok ns → is_first_max (gt_at ln s ns) (successes ns 1) (best_node ln s ns).
Proof.
  intros Hv. apply first_max_spec with (λ i, 0 < i < length ns).
  - intros i j k Hi Hj Hk. by apply gt_at_trans; apply outcomes_valid_at.
  - intros i j k Hi Hj Hk. by apply gt_at_split; apply outcomes_valid_at.
  - eapply Forall_impl; [apply successes_in|]. simpl. lia.
Qed.

(** In every reachable state [winner] returns (without a panic) the first
    successful node of the highest speedup: no successful node is faster, and
    every earlier one is strictly slower; it returns nothing only when no node
    succeeded. *)
Theorem winner_is_the_first_fastest_success st :
  reachable st →
  ∃ o, winner st = Ok o ∧ is_first_max (gt_at ln Greedy (nodes st)) (successes (nodes st) 1) o.
Proof.
  intros Hst%reachable_ok. rewrite winner_Ok by done. eexists. split; [done|].
  exact (best_node_spec _ _ (ok_outcomes _ Hst)).
Qed.

(** [current_best], which is only ever compared with the best of each batch,
    is the first best of all successful nodes by the strategy's score; under
    greedy search it is therefore always the winner. *)
Theorem current_best_is_the_overall_best st :
  reachable st →
  is_first_max (gt_at ln (strategy st) (nodes st)) (successes (nodes st) 1) (current_best st)
  ∧ (strategy st = Greedy → winner st = Ok (current_best st)).
Proof.
  intros Hst%reachable_ok. rewrite (ok_best _ Hst). split.
  - exact (best_node_spec _ _ (ok_outcomes _ Hst)).
  - intros ->. by apply winner_Ok.
Qed.

(** Greedy selection: nothing in the first iteration or after too many
    consecutive failures; otherwise the current best node if any node has
    succeeded; otherwise the first most urgent failed node (the furthest
    stage, then the smallest difference, then the highest speedup), taken from
    the latest iteration unless configured otherwise. *)
Theorem greedy_selects_best_or_most_urgent st :
  reachable st → strategy st = Greedy →
  (∀ i, urgency_ok (nodes st) i) →
  let stop := bool_decide (current_iteration st = 0)
    || bool_decide (default 2 (max_consecutive_failures (config st)) ≤ consecutive_failures st) in
  ∃ o, select_greedy st = Ok o ∧
    if stop then o = None
    else match current_best st with
         | Some b => o = Some b
         | None => is_first_max (more_urgent (nodes st))
                     (candidates st (most_recent (drop 1 (nodes st))) 1) o
         end.
Proof.
  intros Hst%reachable_ok Hg Hu stop. rewrite select_greedy_Ok by done.
  exists (greedy_choice st). split; [done|]. unfold greedy_choice. fold stop.
  destruct stop; [done|]. rewrite (ok_best _ Hst), Hg.
  destruct (best_node ln Greedy (nodes st)); [done|].
  apply first_max_spec with (urgency_ok (nodes st)).
  - intros i j k. apply more_urgent_trans.
  - intros i j k. apply more_urgent_split.
  - apply Forall_true. apply Hu.
Qed.

(** A whole search over batches of valid outcomes runs to the end without
    an error or a panic, in at most [max_iterations] steps (or one, since the
    first batch is always recorded), through well-formed states. *)
Theorem trace_runs_within_budget s c batches :
  validate_config c = Ok tt → Forall (Forall (λ o, validate o = Ok tt)) batches →
  ∃ steps, trace ln powf s c batches = Ok steps
    ∧ length steps ≤ 1 `max` max_iterations c s
    ∧ length steps ≤ length batches
    ∧ Forall (λ x, state_ok x.2) steps.
Proof.
  intros Hc Hb. unfold trace, new. rewrite Hc. cbn [mbind res_bind].
  match goal with |- context [trace_loop _ _ 0 ?x _ _] => set (st := x) end.
  destruct (trace_loop_ok batches st []) as (out & E & ? & ? & ?).
  - apply (new_ok s c). unfold new. by rewrite Hc.
  - done.
  - simpl. lia.
  - done.
  - done.
  - exists out. done.
Qed.
End states.

(** ** Witnesses: two batches of a Monte-Carlo search, and of a greedy one *)
Definition sample_config : SearchConfig :=
  {| max_iterations_opt := Some 2; num_candidates_opt := None; max_consecutive_failures := None;
     speedup_threshold := None; use_recent_failed_only := None; exploration_constant := None;
     pw_alpha := None; pw_c_root := None; pw_c_repair := None; pw_c_optimize := None;
     max_children_per_node := None |}.
Definition success (x : f64) : Outcome :=
  {| status := Success; outcome_speedup := Some x; error_context := None |}.
Definition failure (stage : str) : Outcome :=
  {| status := Failed; outcome_speedup := None;
     error_context := Some (Object [(lit "error_type", String stage)]) |}.
Definition sample_batches : list (list Outcome) :=
  [[success (ratio 3 2); failure (lit "SyntaxError")]; [success (of_Z 2)]; [success (of_Z 3)]].

(** Concrete stand-ins for [ln] and [powf]; the first is a number wherever its
    argument is. *)
Definition sample_ln (x : f64) : f64 := x.
Definition sample_powf (x y : f64) : f64 := x.
Lemma sample_ln_number x : is_nan x = false → flt x (ratio 1 10) = false → is_nan (sample_ln x) = false.
Proof. done. Qed.

(** The states of the first two steps. *)
Definition get_ok {A} (d : A) (r : result A) : A := match r with Ok a => a | _ => d end.
Definition state0 (s : Strategy) : SearchState :=
  {| strategy := s; config := sample_config; nodes := [root_node]; current_iteration := 0;
     current_best := None; consecutive_failures := 0; speedup_history := []; root_expansions := 0;
     pw_gate_closures := 0; virtual_child_wins := 0 |}.
Definition batch1 : list Outcome := [success (ratio 3 2); failure (lit "SyntaxError")].
Definition run1 (s : Strategy) := get_ok (state0 s, []) (record_batch sample_ln (state0 s) None batch1).
Definition run2 (s : Strategy) := get_ok (state0 s, None) (select sample_ln sample_powf (run1 s).1).
Definition run3 (s : Strategy) :=
  get_ok (state0 s, []) (record_batch sample_ln (run2 s).1 (run2 s).2 [success (of_Z 2)]).
Definition sample_state (s : Strategy) : SearchState := (run3 s).1.

Lemma run_eqs s :
  new s sample_config = Ok (state0 s)
  ∧ record_batch sample_ln (state0 s) None batch1 = Ok (run1 s)
  ∧ select sample_ln sample_powf (run1 s).1 = Ok (run2 s)
  ∧ record_batch sample_ln (run2 s).1 (run2 s).2 [success (of_Z 2)] = Ok (run3 s).
Proof. destruct s; repeat split; vm_compute; reflexivity. Qed.

Lemma sample_reachable s : reachable sample_ln sample_powf (sample_state s).
Proof.
  destruct (run_eqs s) as (E0 & E1 & E2 & E3). unfold sample_state.
  eapply (reachable_record _ _ _ _ _ _ (run3 s).2); [|rewrite E3; by destruct (run3 s)].
  eapply (reachable_select _ _ _ _ (run2 s).2); [|rewrite E2; by destruct (run2 s)].
  eapply (reachable_record _ _ _ _ _ _ (run1 s).2); [|rewrite E1; by destruct (run1 s)].
  by eapply reachable_new.
Qed.

(** The second batch of the Monte-Carlo search hangs below the node that won. *)
Lemma search_tree_invariant_witness :
  ∃ n, nodes (sample_state Mcts) !! 3 = Some n ∧ id n = 3
    ∧ (strategy (sample_state Mcts) = Mcts → parent n ≠ None).
Proof.
  destruct (nodes (sample_state Mcts) !! 3) as [n|] eqn:E; [|vm_compute in E; discriminate].
  exists n. split; [reflexivity|].
  pose proof (search_tree_invariant sample_ln sample_powf sample_ln_number (sample_state Mcts)
    (sample_reachable Mcts) 3 n E) as (Hid & _ & _ & H).
  split; [exact Hid|]. apply H. lia.
Defined.

Lemma mcts_statistics_witness :
  ∃ n, nodes (sample_state Mcts) !! 0 = Some n ∧ visits n = 3.
Proof.
  destruct (nodes (sample_state Mcts) !! 0) as [n|] eqn:E; [|vm_compute in E; discriminate].
  exists n. split; [reflexivity|].
  destruct (mcts_statistics_are_subtree_sums sample_ln sample_powf sample_ln_number
    (sample_state Mcts) 0 n (sample_reachable Mcts) ltac:(vm_compute; reflexivity) E) as [H _].
  rewrite H. vm_compute. reflexivity.
Defined.

Lemma select_valid_parent_witness :
  ∃ st' sel, select sample_ln sample_powf (sample_state Mcts) = Ok (st', sel)
    ∧ check_parent st' sel = Ok tt.
Proof.
  destruct (select_returns_a_valid_parent sample_ln sample_powf sample_ln_number
    (sample_state Mcts) (sample_reachable Mcts)) as (st' & sel & H1 & H2 & _).
  exists st', sel. split; [exact H1|exact H2].
Defined.

Lemma record_batch_accepts_witness :
  record_batch sample_ln (sample_state Greedy) (Some 9) [] ≠ Panic
  ∧ is_ok (record_batch sample_ln (sample_state Greedy) (Some 1) [success (of_Z 1)]) = true.
Proof.
  split.
  - apply (record_batch_accepts_exactly_valid_batches sample_ln sample_powf sample_ln_number
      (sample_state Greedy) (Some 9) [] (sample_reachable Greedy)).
  - apply (record_batch_accepts_exactly_valid_batches sample_ln sample_powf sample_ln_number
      (sample_state Greedy) (Some 1) [success (of_Z 1)] (sample_reachable Greedy)).
    split; [vm_compute; reflexivity|]. apply Forall_singleton. vm_compute. reflexivity.
Defined.

Lemma winner_witness :
  winner (sample_state Greedy) = Ok (Some 3) ∧
  ∃ o, winner (sample_state Greedy) = Ok o
    ∧ is_first_max (gt_at sample_ln Greedy (nodes (sample_state Greedy)))
        (successes (nodes (sample_state Greedy)) 1) o.
Proof.
  split; [vm_compute; reflexivity|].
  exact (winner_is_the_first_fastest_success sample_ln sample_powf sample_ln_number
    (sample_state Greedy) (sample_reachable Greedy)).
Defined.

Lemma current_best_witness :
  current_best (sample_state Greedy) = Some 3
  ∧ winner (sample_state Greedy) = Ok (current_best (sample_state Greedy)).
Proof.
  split; [vm_compute; reflexivity|].
  apply (current_best_is_the_overall_best sample_ln sample_powf sample_ln_number
    (sample_state Greedy) (sample_reachable Greedy)). vm_compute. reflexivity.
Defined.

Lemma greedy_selects_witness :
  ∃ o, select_greedy (sample_state Greedy) = Ok o ∧ o = Some 3.
Proof.
  destruct (greedy_selects_best_or_most_urgent sample_ln sample_powf sample_ln_number
    (sample_state Greedy) (sample_reachable Greedy)) as (o & H1 & H2).
  - vm_compute. reflexivity.
  - intros [|[|[|[|i]]]]; split; vm_compute; reflexivity.
  - exists o. split; [exact H1|]. vm_compute in H2. exact H2.
Defined.

Lemma trace_budget_witness :
  ∃ steps, trace sample_ln sample_powf Mcts sample_config sample_batches = Ok steps
    ∧ length steps ≤ 2.
Proof.
  destruct (trace_runs_within_budget sample_ln sample_powf sample_ln_number Mcts sample_config
    sample_batches) as (steps & H1 & H2 & _).
  - reflexivity.
  - repeat apply Forall_cons_2; try apply Forall_nil_2; vm_compute; reflexivity.
  - exists steps. split; [exact H1|]. exact H2.
Defined.
