(* ===== verification/StreamText.v ===== *)
(** * stream-parser: the parser interface

    [StreamTextChunk] and the trait [StreamTextParser] of
    [utils/stream-parser/src/stream_text.rs], with the runs of a parser over a
    stream that arrives in pieces. *)
From S2P Require Import Prelude Str.

Record StreamTextChunk (X : Type) := { visible_text : str; extracted : list X }.
Arguments Build_StreamTextChunk {X}.
Arguments visible_text {X}.
Arguments extracted {X}.

(** [StreamTextChunk::default()], [is_empty], and appending one chunk to another. *)
Definition empty_chunk {X} : StreamTextChunk X := {| visible_text := []; extracted := [] |}.
Definition chunk_is_empty {X} (c : StreamTextChunk X) : bool :=
  is_empty (visible_text c) && is_empty (extracted c).
Definition chunk_app {X} (c d : StreamTextChunk X) : StreamTextChunk X :=
  {| visible_text := visible_text c ++ visible_text d; extracted := extracted c ++ extracted d |}.

(** The trait. *)
Class StreamTextParser (P X : Type) := {
  push_str : P → str → P * StreamTextChunk X;
  finish : P → P * StreamTextChunk X;
}.

Section runs.
Context {P X : Type} {SP : StreamTextParser P X}.

(** Pushing the pieces of a stream one after the other. *)
Fixpoint feed (p : P) (cs : list str) : P * StreamTextChunk X :=
  match cs with
  | [] => (p, empty_chunk)
  | c :: cs =>
      let '(p, o) := push_str p c in
      let '(p, o') := feed p cs in
      (p, chunk_app o o')
  end.

(** A whole stream: the pieces, then the flush. *)
Definition stream (p : P) (cs : list str) : StreamTextChunk X :=
  let '(p, o) := feed p cs in
  chunk_app o (finish p).2.
End runs.

(** What a parser promises to a client that does not control how the stream is
    cut: from a fresh parser, the same visible text and the same payloads up to
    [norm], however the pieces fall. *)
Class Transparent {P X : Type} (SP : StreamTextParser P X) (fresh : P)
    (norm : list X → list X) : Prop := {
  cut_visible cs : visible_text (stream fresh cs) = visible_text (stream fresh [concat cs]);
  cut_extracted cs :
    norm (extracted (stream fresh cs)) = norm (extracted (stream fresh [concat cs]));
}.

Section chunk_monoid.
Context {X : Type}.
Lemma chunk_app_nil_l (c : StreamTextChunk X) : chunk_app empty_chunk c = c.
Proof. by destruct c. Qed.
Lemma chunk_app_nil_r (c : StreamTextChunk X) : chunk_app c empty_chunk = c.
Proof. destruct c. unfold chunk_app. simpl. by rewrite !app_nil_r. Qed.
Lemma chunk_app_assoc (a b c : StreamTextChunk X) :
  chunk_app (chunk_app a b) c = chunk_app a (chunk_app b c).
Proof. unfold chunk_app. simpl. by rewrite !app_assoc. Qed.
End chunk_monoid.
