(* ===== verification/InlineTag.v ===== *)
(** * stream-parser: inline hidden tags

    [InlineHiddenTagParser] of [utils/stream-parser/src/inline_hidden_tag.rs]
    and its instance for citations ([citation.rs]).  The reference semantics
    [scan] works on a complete text; the parser computes it on a text that
    arrives in pieces. *)
From S2P Require Import Prelude Str StreamText.

Section inline.
Context {T : Type}.

Record ExtractedInlineTag := { tag : T; tag_content : str }.
Record InlineTagSpec := { spec_tag : T; open : str; close : str }.
Record ActiveTag := { active_tag : T; active_close : str; active_content : str }.

Record InlineHiddenTagParser := {
  specs : list InlineTagSpec;
  pending : str;
  active : option ActiveTag;
}.

(** [InlineHiddenTagParser::new], with its assertions. *)
Definition new_inline (ss : list InlineTagSpec) : res False InlineHiddenTagParser :=
  if negb (is_empty ss)
     && forallb (λ s, negb (is_empty (open s)) && negb (is_empty (close s))) ss
  then Ok {| specs := ss; pending := []; active := None |}
  else Panic.

(** The candidates [(pos, len, idx)] of [find_next_open] and their order: the
    first position, then the longest delimiter, then the first tag. *)
Definition candidate_lt (a b : nat * nat * nat) : bool :=
  let '(pos_a, len_a, idx_a) := a in let '(pos_b, len_b, idx_b) := b in
  bool_decide (pos_a < pos_b)
  || (bool_decide (pos_a = pos_b)
      && (bool_decide (len_b < len_a)
          || (bool_decide (len_a = len_b) && bool_decide (idx_a < idx_b)))).

Fixpoint open_candidates (idx : nat) (ss : list InlineTagSpec) (s : str)
    : list (nat * nat * nat) :=
  match ss with
  | [] => []
  | spec :: ss =>
      match find (open spec) s with
      | Some pos => (pos, length (open spec), idx) :: open_candidates (S idx) ss s
      | None => open_candidates (S idx) ss s
      end
  end.

(** [min_by]: the first of the least elements. *)
Definition min_candidate (l : list (nat * nat * nat)) : option (nat * nat * nat) :=
  first_max candidate_lt l.

Definition find_next_open (ss : list InlineTagSpec) (s : str) : option (nat * nat) :=
  (λ '(pos, _, idx), (pos, idx)) <$> min_candidate (open_candidates 0 ss s).

(** [longest_suffix_prefix_len]: the loop from [k] down. *)
Fixpoint suffix_prefix_loop (s needle : str) (k : nat) : nat :=
  match k with
  | 0 => 0
  | S k' => if ends_with s (take k needle) then k else suffix_prefix_loop s needle k'
  end.
Definition longest_suffix_prefix_len (s needle : str) : nat :=
  suffix_prefix_loop s needle (length s `min` (length needle - 1)).

Definition max_open_prefix_suffix_len (ss : list InlineTagSpec) (s : str) : nat :=
  foldr Nat.max 0 ((λ spec, longest_suffix_prefix_len s (open spec)) <$> ss).

Definition visible (s : str) : StreamTextChunk ExtractedInlineTag :=
  {| visible_text := s; extracted := [] |}.
Definition extract (a : ActiveTag) (s : str) : StreamTextChunk ExtractedInlineTag :=
  {| visible_text := [];
     extracted := [{| tag := active_tag a; tag_content := active_content a ++ s |}] |}.
Definition activate (spec : InlineTagSpec) : ActiveTag :=
  {| active_tag := spec_tag spec; active_close := close spec; active_content := [] |}.

(** The loop of [push_str] on [&self.pending[consumed..]]; [None] when the fuel
    runs out or an index is out of range. *)
Fixpoint push_loop (fuel : nat) (ss : list InlineTagSpec) (act : option ActiveTag) (s : str)
    (out : StreamTextChunk ExtractedInlineTag)
    : option (option ActiveTag * str * StreamTextChunk ExtractedInlineTag) :=
  match fuel with
  | 0 => None
  | S fuel =>
      match act with
      | Some a =>
          match find (active_close a) s with
          | Some i =>
              push_loop fuel ss None (drop (i + length (active_close a)) s)
                (chunk_app out (extract a (take i s)))
          | None =>
              let n := length s - longest_suffix_prefix_len s (active_close a) in
              Some (Some {| active_tag := active_tag a; active_close := active_close a;
                            active_content := active_content a ++ take n s |},
                    drop n s, out)
          end
      | None =>
          match find_next_open ss s with
          | Some (i, k) =>
              match ss !! k with
              | Some spec =>
                  push_loop fuel ss (Some (activate spec)) (drop (i + length (open spec)) s)
                    (chunk_app out (visible (take i s)))
              | None => None
              end
          | None =>
              let n := length s - max_open_prefix_suffix_len ss s in
              Some (None, drop n s, chunk_app out (visible (take n s)))
          end
      end
  end.

Definition push_inline (p : InlineHiddenTagParser) (chunk : str)
    : option (InlineHiddenTagParser * StreamTextChunk ExtractedInlineTag) :=
  let s := pending p ++ chunk in
  '(act, s, out) ← push_loop (S (length s)) (specs p) (active p) s empty_chunk;
  Some ({| specs := specs p; pending := s; active := act |}, out).

Definition finish_inline (p : InlineHiddenTagParser)
    : InlineHiddenTagParser * StreamTextChunk ExtractedInlineTag :=
  ({| specs := specs p; pending := []; active := None |},
   match active p with
   | Some a => extract a (pending p)
   | None => visible (pending p)
   end).

#[global] Instance inline_parser : StreamTextParser InlineHiddenTagParser ExtractedInlineTag := {|
  push_str p c := default (p, empty_chunk) (push_inline p c);
  finish := finish_inline;
|}.

(** ** The reference semantics on a complete text *)
Fixpoint scan (fuel : nat) (ss : list InlineTagSpec) (act : option ActiveTag) (s : str)
    : StreamTextChunk ExtractedInlineTag :=
  match fuel with
  | 0 => empty_chunk
  | S fuel =>
      match act with
      | Some a =>
          match find (active_close a) s with
          | Some i => chunk_app (extract a (take i s))
                        (scan fuel ss None (drop (i + length (active_close a)) s))
          | None => extract a s
          end
      | None =>
          match find_next_open ss s with
          | Some (i, k) =>
              match ss !! k with
              | Some spec => chunk_app (visible (take i s))
                  (scan fuel ss (Some (activate spec)) (drop (i + length (open spec)) s))
              | None => empty_chunk
              end
          | None => visible s
          end
      end
  end.
Definition scan_text (ss : list InlineTagSpec) (act : option ActiveTag) (s : str) :=
  scan (S (length s)) ss act s.
End inline.
Arguments ExtractedInlineTag : clear implicits.
Arguments InlineTagSpec : clear implicits.
Arguments ActiveTag : clear implicits.
Arguments InlineHiddenTagParser : clear implicits.

(** ** Lemmas on delimiters *)
Lemma occurs_inside p q s i j :
  occurs p s i → occurs q s j → j ≤ i → i + length p ≤ j + length q → occurs p q (i - j).
Proof.
  intros (a & b & Hs & Ha) (c & d & Hs' & Hc) Hji Hlen.
  exists (take (i - j) q), (drop (i - j + length p) q).
  assert (drop j s = q ++ d) as Hq by (rewrite Hs'; by rewrite drop_app_length').
  assert (drop i s = p ++ b) as Hp by (rewrite Hs; by rewrite drop_app_length').
  assert (drop (i - j) q ++ d = p ++ b) as Hd.
  { rewrite <-Hp. replace i with (j + (i - j)) at 2 by lia. rewrite <-drop_drop, Hq.
    by rewrite drop_app_le by lia. }
  split; [|rewrite length_take; lia].
  rewrite <-(take_drop (i - j) q) at 1. f_equal.
  rewrite <-(take_drop (length p) (drop (i - j) q)), drop_drop. f_equal.
  rewrite <-(take_app_le _ d) by (rewrite length_drop; lia). rewrite Hd. by rewrite take_app_length.
Qed.

Lemma find_app p s t i : find p s = Some i → find p (s ++ t) = Some i.
Proof.
  rewrite !find_Some. intros [Ho Hmin]. split; [by apply occurs_app|].
  intros j Hj Hoj. apply occurs_app_inv in Hoj as [?|Hlen]; [by eapply Hmin|].
  apply occurs_bound in Ho. lia.
Qed.

Lemma occurs_drop p s n i : n ≤ length s → occurs p (drop n s) i ↔ occurs p s (n + i).
Proof.
  intros Hn. split.
  - intros (a & b & H & Hl). exists (take n s ++ a), b. rewrite <-!app_assoc, <-H, take_drop.
    split; [done|]. rewrite length_app, length_take. lia.
  - intros (a & b & H & Hl). exists (drop n a), b. split; [|rewrite length_drop; lia].
    rewrite H. by rewrite drop_app_le by lia.
Qed.

Lemma find_skip p s n :
  n ≤ length s → (∀ j, j < n → ¬ occurs p s j) → find p s = (λ i, n + i) <$> find p (drop n s).
Proof.
  intros Hn Hno. destruct (find p (drop n s)) as [i|] eqn:E; simpl.
  - apply find_Some in E as [Ho Hmin]. apply find_Some. split; [by apply occurs_drop|].
    intros j Hj Hoj. destruct (decide (j < n)) as [Hlt|Hge]; [by apply (Hno j)|].
    apply (Hmin (j - n)); [lia|]. apply occurs_drop; [done|]. by replace (n + (j - n)) with j by lia.
  - rewrite find_None in *. intros j Hoj.
    destruct (decide (j < n)) as [Hlt|Hge]; [by apply (Hno j)|].
    apply (E (j - n)). apply occurs_drop; [done|]. by replace (n + (j - n)) with j by lia.
Qed.

(** What is kept back can still become a delimiter; what is not cannot. *)
Lemma suffix_prefix_loop_ge s d m k :
  1 ≤ k ≤ m → ends_with s (take k d) = true → k ≤ suffix_prefix_loop s d m.
Proof.
  induction m as [|m IH]; intros Hk He; [lia|]. simpl.
  destruct (ends_with s (take (S m) d)) eqn:E; [lia|].
  destruct (decide (k = S m)) as [->|]; [congruence|]. apply IH; [lia|done].
Qed.
Lemma suffix_prefix_loop_le s d m : suffix_prefix_loop s d m ≤ m.
Proof. induction m as [|m IH]; simpl; [done|]. case_match; lia. Qed.
Lemma longest_suffix_prefix_len_le s d : longest_suffix_prefix_len s d ≤ length s.
Proof. unfold longest_suffix_prefix_len. pose proof (suffix_prefix_loop_le s d (length s `min` (length d - 1))). lia. Qed.

Lemma kept_back d s t i :
  find d s = None → occurs d (s ++ t) i → i < length s →
  length s - i ≤ longest_suffix_prefix_len s d.
Proof.
  intros Hn Ho Hi. apply occurs_app_inv in Ho as Hor. destruct Hor as [Hin|Hlen].
  { by apply (proj1 (find_None d s) Hn) in Hin. }
  destruct (occurs_overlap d s t i Ho) as (q & Hd & Hq); [lia|done|].
  apply suffix_prefix_loop_ge.
  - rewrite Hd, length_app, length_drop. destruct q; [done|]. simpl. lia.
  - apply ends_with_spec. exists (take i s). rewrite Hd.
    rewrite take_app_length' by (rewrite length_drop; lia). by rewrite take_drop.
Qed.

(** ** The next opening delimiter *)
Section next_open.
Context {T : Type}.
Implicit Types (ss : list (InlineTagSpec T)) (s t : str).

Lemma elem_of_open_candidates idx ss s pos len j :
  (pos, len, j) ∈ open_candidates idx ss s ↔
  ∃ k spec, ss !! k = Some spec ∧ j = idx + k ∧ find (open spec) s = Some pos
    ∧ len = length (open spec).
Proof.
  revert idx. induction ss as [|spec ss IH]; intros idx; simpl.
  { split; [by intros ?%not_elem_of_nil|]. by intros (k & spec & ? & _). }
  assert ((∃ k spec0, ss !! k = Some spec0 ∧ j = S idx + k ∧ find (open spec0) s = Some pos
      ∧ len = length (open spec0)) ↔
    (∃ k spec0, (spec :: ss) !! S k = Some spec0 ∧ j = idx + S k ∧ find (open spec0) s = Some pos
      ∧ len = length (open spec0))) as Hshift.
  { split; intros (k & spec0 & H1 & H2 & H3 & H4); exists k, spec0;
      (split; [exact H1|]); (split; [lia|]); by split. }
  destruct (find (open spec) s) as [p|] eqn:E; rewrite ?elem_of_cons, IH, Hshift; split.
  - intros [[= -> -> ->]|(k & spec0 & H)]; [|by exists (S k), spec0].
    exists 0, spec. split; [done|]. split; [lia|]. by split.
  - intros ([|k] & spec0 & ? & -> & ? & ->); [left|right; by exists k, spec0].
    simplify_eq/=. f_equal. lia.
  - intros (k & spec0 & H). by exists (S k), spec0.
  - intros ([|k] & spec0 & ? & -> & ? & ->); [|by exists k, spec0]. simplify_eq/=.
Qed.

Lemma candidate_lt_spec a b :
  candidate_lt a b = true ↔
  a.1.1 < b.1.1 ∨ (a.1.1 = b.1.1 ∧ (b.1.2 < a.1.2 ∨ (a.1.2 = b.1.2 ∧ a.2 < b.2))).
Proof.
  destruct a as [[??]?], b as [[??]?]. simpl.
  rewrite orb_true_iff, andb_true_iff, orb_true_iff, andb_true_iff, !bool_decide_eq_true. done.
Qed.

(** [c] comes no later than any candidate. *)
Definition least (l : list (nat * nat * nat)) (c : nat * nat * nat) : Prop :=
  c ∈ l ∧ ∀ x, x ∈ l → candidate_lt x c = false.

Lemma min_candidate_least l c : min_candidate l = Some c → least l c.
Proof.
  intros H. pose proof (first_max_spec candidate_lt (λ _, True)) as Hs.
  specialize (Hs ltac:(intros [[??]?] [[??]?] [[??]?] _ _ _; rewrite !candidate_lt_spec; simpl; lia)).
  specialize (Hs ltac:(intros [[??]?] [[??]?] [[??]?] _ _ _; rewrite !candidate_lt_spec; simpl; lia)).
  specialize (Hs l ltac:(by apply Forall_true)). unfold min_candidate in H. rewrite H in Hs.
  destruct Hs as (l1 & l2 & -> & H1 & H2). rewrite Forall_forall in H1, H2.
  split; [by apply elem_of_app; right; left|]. intros x [Hx|[->|Hx]%elem_of_cons]%elem_of_app.
  - apply not_true_is_false. rewrite candidate_lt_spec. apply H1, candidate_lt_spec in Hx. lia.
  - apply not_true_is_false. rewrite candidate_lt_spec. lia.
  - by apply H2.
Qed.
Lemma min_candidate_None l : min_candidate l = None → l = [].
Proof.
  intros H. destruct l as [|x l _] using rev_ind; [done|]. unfold min_candidate, first_max in H.
  rewrite foldl_app in H. simpl in H.
  destruct (foldl (better candidate_lt) None l) as [b|]; unfold better in H; simpl in H; [|done].
  by destruct (candidate_lt x b).
Qed.

Lemma least_unique l c c' : least l c → least l c' → c = c'.
Proof.
  intros [Hc Hmin] [Hc' Hmin']. specialize (Hmin c' Hc'). specialize (Hmin' c Hc).
  apply not_true_iff_false in Hmin, Hmin'. rewrite candidate_lt_spec in Hmin, Hmin'.
  destruct c as [[??]?], c' as [[??]?]. simpl in *. f_equal; [f_equal|]; lia.
Qed.

(** The delimiters are not empty and no opening one contains another. *)
Definition delimiters_ok ss : Prop :=
  Forall (λ spec, open spec ≠ [] ∧ close spec ≠ []) ss
  ∧ ∀ j k sj sk, ss !! j = Some sj → ss !! k = Some sk → j ≠ k →
      ∀ o, ¬ occurs (open sk) (open sj) o.

Definition next_is ss s i k : Prop :=
  ∃ spec, ss !! k = Some spec ∧ least (open_candidates 0 ss s) (i, length (open spec), k).

Lemma find_next_open_Some ss s i k : find_next_open ss s = Some (i, k) ↔ next_is ss s i k.
Proof.
  unfold find_next_open. split.
  - intros ([[i' len] k'] & Hm & [= -> ->])%fmap_Some.
    apply min_candidate_least in Hm as Hl. destruct Hl as [Hin Hmin].
    pose proof Hin as Hin'. apply elem_of_open_candidates in Hin' as (m & spec & Hs & -> & Hf & ->).
    exists spec. split; [done|]. by split.
  - intros (spec & Hs & Hl). destruct (min_candidate (open_candidates 0 ss s)) as [c|] eqn:E.
    + apply min_candidate_least in E. by rewrite (least_unique _ _ _ E Hl).
    + apply min_candidate_None in E. destruct Hl as [Hin _]. rewrite E in Hin.
      by apply not_elem_of_nil in Hin.
Qed.
Lemma find_next_open_None ss s :
  find_next_open ss s = None ↔ Forall (λ spec, find (open spec) s = None) ss.
Proof.
  unfold find_next_open. rewrite fmap_None, Forall_lookup. split.
  - intros H%min_candidate_None k spec Hs. destruct (find (open spec) s) as [i|] eqn:E; [|done].
    assert ((i, length (open spec), k) ∈ open_candidates 0 ss s) as Hin.
    { apply elem_of_open_candidates. by exists k, spec. }
    rewrite H in Hin. by apply not_elem_of_nil in Hin.
  - intros H. destruct (min_candidate _) as [[[i len] k]|] eqn:E; [|done].
    apply min_candidate_least in E as [Hin _].
    apply elem_of_open_candidates in Hin as (m & spec & Hs & _ & Hf & _).
    specialize (H m spec Hs). simpl in H. congruence.
Qed.

Lemma next_open_app ss s t i k :
  delimiters_ok ss → find_next_open ss s = Some (i, k) → find_next_open ss (s ++ t) = Some (i, k).
Proof.
  intros [_ Hsep]. rewrite !find_next_open_Some. intros (spec & Hs & Hin & Hmin).
  apply elem_of_open_candidates in Hin as (k' & spec' & Hs' & -> & Hf & _). simplify_eq/=.
  exists spec. split; [done|]. split.
  - apply elem_of_open_candidates. exists k', spec. split_and!; try done. by apply find_app.
  - intros [[i' len'] j] Hj. pose proof Hj as Hj'.
    apply elem_of_open_candidates in Hj' as (j' & sj & Hsj & -> & Hfj & ->).
    apply not_true_iff_false. rewrite candidate_lt_spec. simpl. intros Hlt.
    assert (i' ≤ i) as Hle by lia.
    apply find_Some in Hfj as [Hoj Hminj]. apply find_Some in Hf as [Hof _].
    apply occurs_app_inv in Hoj as Hor. destruct Hor as [Hin|Hlen].
    + assert (find (open sj) s = Some i') as Hfs.
      { apply find_Some. split; [done|]. intros x Hx Hox. apply (Hminj x Hx). by apply occurs_app. }
      assert ((i', length (open sj), j') ∈ open_candidates 0 ss s) as Hinj.
      { apply elem_of_open_candidates. by exists j', sj. }
      apply Hmin in Hinj. apply not_true_iff_false in Hinj. rewrite candidate_lt_spec in Hinj.
      simpl in Hinj. lia.
    + destruct (decide (j' = k')) as [->|Hne].
      * simplify_eq. apply occurs_bound in Hof. lia.
      * apply (Hsep j' k' sj spec Hsj Hs Hne (i - i')). apply (occurs_inside _ _ (s ++ t)).
        -- by apply occurs_app.
        -- done.
        -- done.
        -- apply occurs_bound in Hof. lia.
Qed.

Lemma next_open_skip ss s n :
  n ≤ length s → Forall (λ spec, ∀ j, j < n → ¬ occurs (open spec) s j) ss →
  find_next_open ss s = (λ '(i, k), (n + i, k)) <$> find_next_open ss (drop n s).
Proof.
  intros Hn Hno. rewrite Forall_lookup in Hno.
  assert (∀ i len k, (n + i, len, k) ∈ open_candidates 0 ss s
    ↔ (i, len, k) ∈ open_candidates 0 ss (drop n s)) as Hel.
  { intros i len k. rewrite !elem_of_open_candidates. split; intros (m & spec & Hs & -> & Hf & ->);
      exists m, spec; (split_and!; [done..| |done]); rewrite (find_skip _ s n) in * by eauto.
    - apply fmap_Some in Hf as (i' & Hf & ?). rewrite Hf. f_equal. lia.
    - by rewrite Hf. }
  assert (∀ x len k, (x, len, k) ∈ open_candidates 0 ss s → n ≤ x) as Hge.
  { intros x len k (m & spec & Hs & -> & Hf & ->)%elem_of_open_candidates.
    rewrite (find_skip _ s n) in Hf by eauto. apply fmap_Some in Hf as (i' & _ & ->). lia. }
  destruct (find_next_open ss (drop n s)) as [[i k]|] eqn:E; simpl.
  - apply find_next_open_Some in E as (spec & Hs & Hin & Hmin).
    apply find_next_open_Some. exists spec. split; [done|]. split; [by apply Hel|].
    intros [[x len] j] Hx. pose proof (Hge _ _ _ Hx). replace x with (n + (x - n)) in * by lia.
    apply Hel, Hmin in Hx. apply not_true_iff_false in Hx. apply not_true_iff_false.
    rewrite candidate_lt_spec in *. simpl in *. lia.
  - rewrite find_next_open_None in *. rewrite Forall_lookup in *. intros k spec Hs.
    rewrite (find_skip _ s n) by eauto. by rewrite (E k spec Hs).
Qed.
End next_open.

(** ** Scanning *)
Section scanning.
Context {T : Type} (ss : list (InlineTagSpec T)).
Hypothesis Hok : delimiters_ok ss.
Implicit Types (act : option (ActiveTag T)) (s t : str).

Definition active_ok act : Prop := ∀ a, act = Some a → active_close a ≠ [].

Lemma activate_ok k spec : ss !! k = Some spec → active_ok (Some (activate spec)).
Proof.
  intros Hs a [= <-]. destruct Hok as [Hne _]. rewrite Forall_lookup in Hne. by apply (Hne k).
Qed.

Lemma open_ne k spec : ss !! k = Some spec → open spec ≠ [].
Proof. intros Hs. destruct Hok as [Hne _]. rewrite Forall_lookup in Hne. by apply (Hne k). Qed.

Lemma next_open_spec s i k :
  find_next_open ss s = Some (i, k) →
  ∃ spec, ss !! k = Some spec ∧ occurs (open spec) s i ∧ i + length (open spec) ≤ length s.
Proof.
  intros (spec & Hs & Hin & _)%find_next_open_Some.
  apply elem_of_open_candidates in Hin as (k' & spec' & Hs' & -> & Hf & _). simplify_eq/=.
  apply find_Some in Hf as [Ho _]. exists spec. split; [done|]. split; [done|]. by apply occurs_bound.
Qed.

(** The text left after a delimiter is shorter. *)
Lemma after_close_lt (a : ActiveTag T) s i :
  active_close a ≠ [] → find (active_close a) s = Some i →
  length (drop (i + length (active_close a)) s) < length s.
Proof.
  intros Hne [Ho _]%find_Some. apply occurs_bound in Ho. rewrite length_drop.
  destruct (active_close a); [done|]. simpl in *. lia.
Qed.
Lemma after_open_lt s i k spec :
  ss !! k = Some spec → find_next_open ss s = Some (i, k) →
  length (drop (i + length (open spec)) s) < length s.
Proof.
  intros Hs (spec' & Hs' & _ & Hlen)%next_open_spec. simplify_eq. rewrite length_drop.
  apply open_ne in Hs. destruct (open spec); [done|]. simpl in *. lia.
Qed.

Lemma scan_fuel f g act s :
  active_ok act → length s < f → length s < g → scan f ss act s = scan g ss act s.
Proof.
  revert g act s. induction f as [|f IH]; intros g act s Ha Hf Hg; [lia|].
  destruct g as [|g]; [lia|]. simpl. destruct act as [a|].
  - destruct (find (active_close a) s) as [i|] eqn:E; [|done]. f_equal.
    pose proof (after_close_lt a s i (Ha a eq_refl) E). apply IH; [done|lia..].
  - destruct (find_next_open ss s) as [[i k]|] eqn:E; [|done].
    destruct (ss !! k) as [spec|] eqn:Hs; [|done]. f_equal.
    pose proof (after_open_lt s i k spec Hs E). apply IH; [by eapply activate_ok|lia..].
Qed.

(** The equations of [scan_text]. *)
Lemma scan_close (a : ActiveTag T) s i :
  active_close a ≠ [] → find (active_close a) s = Some i →
  scan_text ss (Some a) s
  = chunk_app (extract a (take i s)) (scan_text ss None (drop (i + length (active_close a)) s)).
Proof.
  intros Hne E. unfold scan_text at 1. simpl. rewrite E. f_equal.
  pose proof (after_close_lt a s i Hne E). apply scan_fuel; [done|lia..].
Qed.
Lemma scan_open s i k spec :
  find_next_open ss s = Some (i, k) → ss !! k = Some spec →
  scan_text ss None s
  = chunk_app (visible (take i s))
      (scan_text ss (Some (activate spec)) (drop (i + length (open spec)) s)).
Proof.
  intros E Hs. unfold scan_text at 1. simpl. rewrite E, Hs. f_equal.
  pose proof (after_open_lt s i k spec Hs E). apply scan_fuel; [by eapply activate_ok|lia..].
Qed.
Lemma scan_no_close (a : ActiveTag T) s : find (active_close a) s = None → scan_text ss (Some a) s = extract a s.
Proof. intros E. unfold scan_text. simpl. by rewrite E. Qed.
Lemma scan_no_open s : find_next_open ss s = None → scan_text ss None s = visible s.
Proof. intros E. unfold scan_text. simpl. by rewrite E. Qed.

(** Moving text that holds no delimiter into the active tag, or to the output. *)
Definition with_content (a : ActiveTag T) (s : str) : ActiveTag T :=
  {| active_tag := active_tag a; active_close := active_close a;
     active_content := active_content a ++ s |}.

Lemma extract_with_content a s t : extract (with_content a s) t = extract a (s ++ t).
Proof. unfold extract, with_content. simpl. by rewrite app_assoc. Qed.
Lemma visible_app s t : chunk_app (visible s) (visible t) = visible (T:=T) (s ++ t).
Proof. done. Qed.

Lemma take_drop_shift s t n i :
  n ≤ length s → take n s ++ take i (drop n s ++ t) = take (n + i) (s ++ t)
    ∧ drop i (drop n s ++ t) = drop (n + i) (s ++ t).
Proof.
  intros Hn. rewrite <-(drop_app_le s t n Hn), drop_drop. split; [|done].
  rewrite <-(take_app_le s t n Hn). apply take_take_drop.
Qed.

Lemma scan_hold_close (a : ActiveTag T) s t :
  active_close a ≠ [] → find (active_close a) s = None →
  let n := length s - longest_suffix_prefix_len s (active_close a) in
  scan_text ss (Some a) (s ++ t) = scan_text ss (Some (with_content a (take n s))) (drop n s ++ t).
Proof.
  intros Hne Hnone n. assert (n ≤ length s) as Hn by lia.
  assert (find (active_close a) (s ++ t) = (λ i, n + i) <$> find (active_close a) (drop n s ++ t)) as E.
  { rewrite <-(drop_app_le s t n Hn). apply find_skip; [rewrite length_app; lia|].
    intros j Hj Ho. pose proof (kept_back _ _ _ _ Hnone Ho ltac:(lia)). lia. }
  destruct (find (active_close a) (drop n s ++ t)) as [i|] eqn:E'; simpl in E.
  - rewrite (scan_close a _ _ Hne E), (scan_close (with_content a (take n s)) _ i Hne E').
    rewrite extract_with_content. simpl.
    destruct (take_drop_shift s t n i Hn) as [-> _].
    destruct (take_drop_shift s t n (i + length (active_close a)) Hn) as [_ ->].
    do 3 f_equal. lia.
  - rewrite scan_no_close, scan_no_close by done. rewrite extract_with_content.
    by rewrite app_assoc, take_drop.
Qed.

Lemma foldr_max_ge l x : x ∈ l → x ≤ foldr Nat.max 0 l.
Proof. induction l as [|y l IH]; simpl; [by intros ?%not_elem_of_nil|]. intros [->|?%IH]%elem_of_cons; lia. Qed.

Lemma scan_hold_open s t :
  find_next_open ss s = None →
  let n := length s - max_open_prefix_suffix_len ss s in
  scan_text ss None (s ++ t) = chunk_app (visible (take n s)) (scan_text ss None (drop n s ++ t)).
Proof.
  intros Hnone n. assert (n ≤ length s) as Hn by lia.
  assert (find_next_open ss (s ++ t)
    = (λ '(i, k), (n + i, k)) <$> find_next_open ss (drop n s ++ t)) as E.
  { rewrite <-(drop_app_le s t n Hn). apply next_open_skip; [rewrite length_app; lia|].
    apply Forall_lookup. intros k spec Hs j Hj Ho.
    rewrite find_next_open_None, Forall_lookup in Hnone.
    pose proof (kept_back _ _ _ _ (Hnone k spec Hs) Ho ltac:(lia)) as Hk.
    assert (longest_suffix_prefix_len s (open spec) ≤ max_open_prefix_suffix_len ss s).
    { apply foldr_max_ge. apply list_elem_of_fmap. exists spec. split; [done|].
      by eapply list_elem_of_lookup_2. }
    lia. }
  destruct (find_next_open ss (drop n s ++ t)) as [[i k]|] eqn:E'; simpl in E.
  - destruct (next_open_spec _ _ _ E') as (spec & Hs & _).
    rewrite (scan_open _ _ _ _ E Hs), (scan_open _ _ _ _ E' Hs), <-chunk_app_assoc, visible_app.
    destruct (take_drop_shift s t n i Hn) as [-> _].
    destruct (take_drop_shift s t n (i + length (open spec)) Hn) as [_ ->].
    do 3 f_equal. lia.
  - rewrite scan_no_open, scan_no_open, visible_app by done. by rewrite app_assoc, take_drop.
Qed.

(** ** The parser computes the scan *)

(** Between pushes no delimiter is complete in the pending text. *)
Definition settled act s : Prop :=
  match act with
  | Some a => find (active_close a) s = None
  | None => find_next_open ss s = None
  end.

Lemma find_drop_None p s n : find p s = None → find p (drop n s) = None.
Proof.
  intros H. destruct (decide (n ≤ length s)).
  - rewrite find_None in *. intros i Ho. apply (H (n + i)). by apply occurs_drop.
  - rewrite drop_ge by lia. destruct (find p []) as [i|] eqn:E; [|done].
    apply find_Some in E as [Ho _]. rewrite find_None in H. exfalso. apply (H 0), occurs_0.
    apply occurs_bound in Ho. destruct p; [done|]. simpl in Ho. lia.
Qed.

Lemma push_loop_scan fuel act s out :
  active_ok act → length s < fuel →
  ∃ act' s' out', push_loop fuel ss act s out = Some (act', s', out')
    ∧ active_ok act' ∧ settled act' s'
    ∧ ∀ t, chunk_app out (scan_text ss act (s ++ t)) = chunk_app out' (scan_text ss act' (s' ++ t)).
Proof.
  revert act s out. induction fuel as [|fuel IH]; intros act s out Ha Hf; [lia|]. simpl.
  destruct act as [a|].
  - specialize (Ha a eq_refl). destruct (find (active_close a) s) as [i|] eqn:E.
    + pose proof (after_close_lt a s i Ha E).
      destruct (IH None (drop (i + length (active_close a)) s) (chunk_app out (extract a (take i s))))
        as (act' & s' & out' & -> & Ha' & Hset & Hscan); [done|lia|].
      do 3 eexists. split; [reflexivity|]. split; [done|]. split; [done|]. intros t.
      rewrite <-Hscan, (scan_close a _ i Ha) by by apply find_app.
      rewrite chunk_app_assoc. apply find_Some in E as [Ho%occurs_bound _].
      by rewrite take_app_le, drop_app_le by lia.
    + do 3 eexists. split; [reflexivity|]. split; [by intros b [= <-]|].
      split; [by apply find_drop_None|]. intros t. by rewrite scan_hold_close.
  - destruct (find_next_open ss s) as [[i k]|] eqn:E.
    + destruct (next_open_spec _ _ _ E) as (spec & Hs & _ & Hlen). rewrite Hs.
      pose proof (after_open_lt s i k spec Hs E).
      destruct (IH (Some (activate spec)) (drop (i + length (open spec)) s)
        (chunk_app out (visible (take i s)))) as (act' & s' & out' & -> & Ha' & Hset & Hscan);
        [by eapply activate_ok|lia|].
      do 3 eexists. split; [reflexivity|]. split; [done|]. split; [done|]. intros t.
      rewrite <-Hscan, (scan_open _ i k spec) by (done || by apply next_open_app).
      rewrite chunk_app_assoc. by rewrite take_app_le, drop_app_le by lia.
    + do 3 eexists. split; [reflexivity|]. split; [done|]. split.
      * simpl. apply find_next_open_None. apply find_next_open_None in E.
        eapply Forall_impl; [exact E|]. intros spec. apply find_drop_None.
      * intros t. by rewrite scan_hold_open, chunk_app_assoc.
Qed.
End scanning.

Section properties.
Context {T : Type}.
Implicit Types p : InlineHiddenTagParser T.

Definition parser_ok p : Prop :=
  delimiters_ok (specs p) ∧ active_ok (active p) ∧ settled (specs p) (active p) (pending p).

Lemma push_inline_scan p c :
  parser_ok p →
  ∃ p' o, push_inline p c = Some (p', o) ∧ parser_ok p' ∧ specs p' = specs p
    ∧ ∀ t, scan_text (specs p) (active p) (pending p ++ c ++ t)
           = chunk_app o (scan_text (specs p) (active p') (pending p' ++ t)).
Proof.
  intros (Hd & Ha & Hs). unfold push_inline.
  destruct (push_loop_scan (specs p) Hd (S (length (pending p ++ c))) (active p) (pending p ++ c)
    empty_chunk Ha) as (act & s & out & -> & Ha' & Hset & Hscan); [lia|].
  simpl. do 2 eexists. split; [reflexivity|]. split; [done|]. split; [done|]. intros t. simpl.
  rewrite <-Hscan, chunk_app_nil_l. by rewrite app_assoc.
Qed.

Lemma stream_is_scan p cs :
  parser_ok p → stream p cs = scan_text (specs p) (active p) (pending p ++ concat cs).
Proof.
  unfold stream. revert p. induction cs as [|c cs IH]; intros p Hp; cbn [feed concat].
  - rewrite chunk_app_nil_l, app_nil_r. destruct Hp as (_ & _ & Hs). simpl.
    destruct (active p) as [a|]; [by rewrite scan_no_close|by rewrite scan_no_open].
  - cbn [push_str inline_parser]. destruct (push_inline_scan p c Hp) as (p' & o & -> & Hp' & Hsp & Hscan).
    cbn [default from_option id]. specialize (IH p' Hp'). destruct (feed p' cs) as [p'' o'].
    rewrite chunk_app_assoc, IH, Hscan, Hsp. done.
Qed.
End properties.

(** ** The properties *)
Section claims.
Context {T : Type}.

Lemma new_inline_ok (ss : list (InlineTagSpec T)) p :
  new_inline ss = Ok p → delimiters_ok ss → parser_ok p ∧ specs p = ss ∧ active p = None ∧ pending p = [].
Proof.
  unfold new_inline. case_match; [|done]. intros [= <-] Hd. split; [|done].
  split; [done|]. split; [done|]. cbn [specs pending active]. apply find_next_open_None. destruct Hd as [Hne _].
  eapply Forall_impl; [exact Hne|]. intros spec [Ho _].
  apply find_None. intros i Hi%occurs_bound. destruct (open spec); [done|]. simpl in Hi. lia.
Qed.

(** C10: a parser for non-empty delimiters whose opening ones do not contain each
    other computes, on a text cut into any pieces, exactly the reference scan of the whole text
    (the first opening delimiter, its content up to the first closing one, an
    unterminated tag closed at the end); every push terminates. *)
Theorem inline_tags_stream_is_scan (ss : list (InlineTagSpec T)) p cs :
  new_inline ss = Ok p → delimiters_ok ss →
  stream p cs = scan_text ss None (concat cs)
  ∧ ∀ (q : InlineHiddenTagParser T) (c : str), parser_ok q → is_Some (push_inline q c).
Proof.
  intros Hnew Hd. destruct (new_inline_ok ss p Hnew Hd) as (Hp & Hs & Ha & Hpe). split.
  - by rewrite stream_is_scan, Hs, Ha, Hpe.
  - intros q c Hq. destruct (push_inline_scan q c Hq) as (q' & o & -> & _). by eexists.
Qed.
End claims.

(** When one opening delimiter starts another the cuts show: the preference for
    the longer one only works if both arrive in one piece. *)
Definition nested_specs : list (InlineTagSpec nat) :=
  [{| spec_tag := 1; open := lit "<a"; close := lit ">" |};
   {| spec_tag := 2; open := lit "<ab"; close := lit ">" |}].
Definition nested_parser : InlineHiddenTagParser nat :=
  {| specs := nested_specs; pending := []; active := None |}.
Theorem nested_delimiters_depend_on_cuts :
  new_inline nested_specs = Ok nested_parser
  ∧ extracted (stream nested_parser [lit "<abc>"]) = [{| tag := 2; tag_content := lit "c" |}]
  ∧ extracted (stream nested_parser [lit "<a"; lit "bc>"]) = [{| tag := 1; tag_content := lit "bc" |}].
Proof. vm_compute. repeat split. Qed.

(** ** Citations *)
Definition CITATION_OPEN : str := lit "<oai-mem-citation>".
Definition CITATION_CLOSE : str := lit "</oai-mem-citation>".
Definition citation_specs : list (InlineTagSpec unit) :=
  [{| spec_tag := tt; open := CITATION_OPEN; close := CITATION_CLOSE |}].

Record CitationStreamParser := { inner : InlineHiddenTagParser unit }.
Definition new_citation : CitationStreamParser :=
  {| inner := {| specs := citation_specs; pending := []; active := None |} |}.

(** The bodies of the tags, as [push_str] and [finish] return them. *)
Definition bodies (c : StreamTextChunk (ExtractedInlineTag unit)) : StreamTextChunk str :=
  {| visible_text := visible_text c; extracted := tag_content <$> extracted c |}.

#[export] Instance citation_parser : StreamTextParser CitationStreamParser str := {|
  push_str p c := let '(i, o) := push_str (inner p) c in ({| inner := i |}, bodies o);
  finish p := let '(i, o) := finish (inner p) in ({| inner := i |}, bodies o);
|}.

(** [strip_citations]. *)
Definition strip_citations (text : str) : str * list str :=
  let '(parser, out) := push_str new_citation text in
  let '(_, tail) := finish parser in
  (visible_text out ++ visible_text tail, extracted out ++ extracted tail).

Lemma citation_specs_ok : delimiters_ok citation_specs.
Proof.
  split; [repeat constructor; discriminate|].
  intros [|j] [|k] sj sk Hj Hk Hne; simplify_eq/=.
Qed.
Lemma new_citation_is_new : new_inline citation_specs = Ok (inner new_citation).
Proof. reflexivity. Qed.

Lemma bodies_app c d : bodies (chunk_app c d) = chunk_app (bodies c) (bodies d).
Proof. unfold bodies, chunk_app. simpl. by rewrite fmap_app. Qed.

Lemma citation_feed p cs :
  feed p cs = (let '(i, o) := feed (inner p) cs in ({| inner := i |}, bodies o)).
Proof.
  revert p. induction cs as [|c cs IH]; intros p; cbn [feed]; [by destruct p|].
  cbn [push_str citation_parser]. destruct (push_str (inner p) c) as [i o]. rewrite IH. simpl.
  destruct (feed i cs) as [i' o']. by rewrite bodies_app.
Qed.

Lemma citation_stream p cs : stream p cs = bodies (stream (inner p) cs).
Proof.
  unfold stream. rewrite citation_feed. destruct (feed (inner p) cs) as [i o].
  by rewrite bodies_app.
Qed.

Lemma fresh_citation_stream cs :
  stream new_citation cs = bodies (scan_text citation_specs None (concat cs)).
Proof.
  rewrite citation_stream. f_equal.
  destruct (new_inline_ok _ _ new_citation_is_new citation_specs_ok) as (Hp & Hs & Ha & Hpe).
  by rewrite stream_is_scan, Hs, Ha, Hpe.
Qed.

(** However the assistant's text is cut, streaming citations agrees with
    [strip_citations] on the complete text. *)
Lemma citation_cut_transparent cs :
  stream new_citation cs
  = {| visible_text := (strip_citations (concat cs)).1; extracted := (strip_citations (concat cs)).2 |}.
Proof.
  rewrite fresh_citation_stream.
  pose proof (fresh_citation_stream [concat cs]) as H. cbn [concat] in H. rewrite app_nil_r in H.
  rewrite <-H. unfold strip_citations, stream. cbn [feed].
  destruct (push_str new_citation (concat cs)) as [p o]. rewrite chunk_app_nil_r.
  by destruct (finish p) as [p' o'].
Qed.

#[export] Instance citation_transparent : Transparent citation_parser new_citation id.
Proof.
  split; intros cs; rewrite (citation_cut_transparent cs), (citation_cut_transparent [concat cs]);
    cbn [concat]; by rewrite app_nil_r.
Qed.

Lemma inline_tags_witness :
  stream (inner new_citation) [lit "see <oai-mem"; lit "-citation>doc A</oai-"; lit "mem-citation>!"]
  = {| visible_text := lit "see !"; extracted := [{| tag := tt; tag_content := lit "doc A" |}] |}.
Proof.
  destruct (inline_tags_stream_is_scan citation_specs (inner new_citation)
    [lit "see <oai-mem"; lit "-citation>doc A</oai-"; lit "mem-citation>!"]
    new_citation_is_new citation_specs_ok) as [H _].
  rewrite H. vm_compute. reflexivity.
Defined.
