(* ===== verification/TaggedLine.v ===== *)
(** * stream-parser: tags alone on a line

    [utils/stream-parser/src/tagged_line_parser.rs]: text that arrives in
    pieces is split into normal text and tag blocks; a tag counts only when it
    is alone on its line, so a line is held back until it can no longer be a
    tag.  The reference definition [line_segments] reads whole lines, and the
    theorem says that the streaming parser computes it, however the text is cut,
    up to the merging of adjacent texts ([push_segment]). *)
From S2P Require Import Prelude Str.

Section tagged_line.
Context {T : Type} `{!EqDecision T}.

Record TagSpec := { spec_open : str; spec_close : str; spec_tag : T }.

Inductive TaggedLineSegment :=
  | Normal (text : str)
  | TagStart (tag : T)
  | TagDelta (tag : T) (text : str)
  | TagEnd (tag : T).

#[global] Instance TaggedLineSegment_eq_dec : EqDecision TaggedLineSegment.
Proof. solve_decision. Defined.

Record TaggedLineParser := {
  tl_specs : list TagSpec;
  active_tag : option T;
  detect_tag : bool;
  line_buffer : str;
}.

Definition new_tagged (specs : list TagSpec) : TaggedLineParser :=
  {| tl_specs := specs; active_tag := None; detect_tag := true; line_buffer := [] |}.

Definition with_tag (p : TaggedLineParser) (a : option T) : TaggedLineParser :=
  {| tl_specs := tl_specs p; active_tag := a; detect_tag := detect_tag p; line_buffer := line_buffer p |}.
Definition with_line (p : TaggedLineParser) (d : bool) (b : str) : TaggedLineParser :=
  {| tl_specs := tl_specs p; active_tag := active_tag p; detect_tag := d; line_buffer := b |}.

Definition push_segment (segments : list TaggedLineSegment) (segment : TaggedLineSegment)
    : list TaggedLineSegment :=
  match segment with
  | Normal delta =>
      if is_empty delta then segments
      else match last segments with
           | Some (Normal existing) => update_last (λ _, Normal (existing ++ delta)) segments
           | _ => segments ++ [Normal delta]
           end
  | TagDelta tag delta =>
      if is_empty delta then segments
      else match last segments with
           | Some (TagDelta existing_tag existing) =>
               if decide (existing_tag = tag)
               then update_last (λ _, TagDelta existing_tag (existing ++ delta)) segments
               else segments ++ [TagDelta tag delta]
           | _ => segments ++ [TagDelta tag delta]
           end
  | TagStart tag => segments ++ [TagStart tag]
  | TagEnd tag => segments ++ [TagEnd tag]
  end.

Definition push_text (p : TaggedLineParser) (text : str) (segments : list TaggedLineSegment)
    : list TaggedLineSegment :=
  match active_tag p with
  | Some tag => push_segment segments (TagDelta tag text)
  | None => push_segment segments (Normal text)
  end.

Definition is_tag_prefix (p : TaggedLineParser) (slug : str) : bool :=
  let slug := trim_end slug in
  existsb (λ spec, starts_with (spec_open spec) slug || starts_with (spec_close spec) slug) (tl_specs p).

Definition match_open (p : TaggedLineParser) (slug : str) : option T :=
  spec_tag <$> find_first (λ spec, str_eqb (spec_open spec) slug) (tl_specs p).
Definition match_close (p : TaggedLineParser) (slug : str) : option T :=
  spec_tag <$> find_first (λ spec, str_eqb (spec_close spec) slug) (tl_specs p).

(** [line.strip_suffix('\n').unwrap_or(&line)], trimmed. *)
Definition slug_of (line : str) : str :=
  trim_end (trim_start (default line (strip_suffix [LF] line))).

(** The let-chains [if let Some(tag) = match_open(slug) && active_tag.is_none()]
    and [if let Some(tag) = match_close(slug) && active_tag == Some(tag)]. *)
Definition opens (p : TaggedLineParser) (slug : str) : option T :=
  match match_open p slug with
  | Some tag => if is_none (active_tag p) then Some tag else None
  | None => None
  end.
Definition closes (p : TaggedLineParser) (slug : str) : option T :=
  match match_close p slug with
  | Some tag => if decide (active_tag p = Some tag) then Some tag else None
  | None => None
  end.

Definition finish_line (p : TaggedLineParser) (segments : list TaggedLineSegment)
    : TaggedLineParser * list TaggedLineSegment :=
  let line := line_buffer p in
  let p := with_line p (detect_tag p) [] in
  let slug := slug_of line in
  match opens p slug with
  | Some tag => (with_line (with_tag p (Some tag)) true [], push_segment segments (TagStart tag))
  | None =>
      match closes p slug with
      | Some tag => (with_line (with_tag p None) true [], push_segment segments (TagEnd tag))
      | None =>
          let p := with_line p true [] in
          (p, push_text p line segments)
      end
  end.

(** One round of the loop of [parse]; the loop's state is the parser, [run]
    and the segments. *)
Definition parse_char (st : TaggedLineParser * str * list TaggedLineSegment) (ch : char)
    : TaggedLineParser * str * list TaggedLineSegment :=
  let '(p, run, segments) := st in
  if detect_tag p then
    let segments := if is_empty run then segments else push_text p run segments in
    let run := [] in
    let p := with_line p true (line_buffer p ++ [ch]) in
    if (ch =? LF)%N then
      let '(p, segments) := finish_line p segments in (p, run, segments)
    else
      let slug := trim_start (line_buffer p) in
      if is_empty slug || is_tag_prefix p slug then (p, run, segments)
      else
        let buffered := line_buffer p in
        let p := with_line p false [] in
        (p, run, push_text p buffered segments)
  else
    let run := run ++ [ch] in
    if (ch =? LF)%N then
      (with_line p true (line_buffer p), [], push_text p run segments)
    else (p, run, segments).

Definition parse (p : TaggedLineParser) (delta : str)
    : TaggedLineParser * list TaggedLineSegment :=
  let '(p, run, segments) := foldl parse_char (p, [], []) delta in
  (p, if is_empty run then segments else push_text p run segments).

Definition finish_tagged (p : TaggedLineParser) : TaggedLineParser * list TaggedLineSegment :=
  let '(p, segments) :=
    if is_empty (line_buffer p) then (p, [])
    else
      let buffered := line_buffer p in
      let p := with_line p (detect_tag p) [] in
      let slug := slug_of buffered in
      match opens p slug with
      | Some tag => (with_tag p (Some tag), push_segment [] (TagStart tag))
      | None =>
          match closes p slug with
          | Some tag => (with_tag p None, push_segment [] (TagEnd tag))
          | None => (p, push_text p buffered [])
          end
      end in
  let '(p, segments) :=
    match active_tag p with
    | Some tag => (with_tag p None, push_segment segments (TagEnd tag))
    | None => (p, segments)
    end in
  (with_line p true (line_buffer p), segments).

(** Pieces pushed one after the other, then the flush. *)
Fixpoint parse_all (p : TaggedLineParser) (cs : list str)
    : TaggedLineParser * list TaggedLineSegment :=
  match cs with
  | [] => (p, [])
  | c :: cs =>
      let '(p, segs) := parse p c in
      let '(p, segs') := parse_all p cs in
      (p, segs ++ segs')
  end.
Definition tagged_stream (p : TaggedLineParser) (cs : list str) : list TaggedLineSegment :=
  let '(p, segs) := parse_all p cs in segs ++ (finish_tagged p).2.

(** ** The reference: line by line *)

(** Adjacent texts of the same kind merged, empty ones dropped. *)
Definition merge (segs : list TaggedLineSegment) : list TaggedLineSegment :=
  foldl push_segment [] segs.

Definition text_segment (active : option T) (text : str) : TaggedLineSegment :=
  match active with Some tag => TagDelta tag text | None => Normal text end.

(** A line opens a block, closes the open one, or is text. *)
Definition line_segment (specs : list TagSpec) (active : option T) (line : str)
    : TaggedLineSegment * option T :=
  let p := with_tag (new_tagged specs) active in
  match opens p (slug_of line) with
  | Some tag => (TagStart tag, Some tag)
  | None =>
      match closes p (slug_of line) with
      | Some tag => (TagEnd tag, None)
      | None => (text_segment active line, active)
      end
  end.

Fixpoint line_segments (specs : list TagSpec) (active : option T) (ls : list str)
    : list TaggedLineSegment :=
  match ls with
  | [] => match active with Some tag => [TagEnd tag] | None => [] end
  | l :: ls =>
      let '(seg, active) := line_segment specs active l in
      seg :: line_segments specs active ls
  end.

(** ** Merging *)
Implicit Types (p : TaggedLineParser) (s segs : list TaggedLineSegment) (l text : str).

Lemma push_text_segment p text segs :
  push_text p text segs = push_segment segs (text_segment (active_tag p) text).
Proof. unfold push_text, text_segment. by destruct (active_tag p). Qed.

Lemma push_empty_text a segs : push_segment segs (text_segment a []) = segs.
Proof. by destruct a. Qed.

(** Two texts pushed one after the other are one text. *)
Lemma push_text_text a text text' segs :
  push_segment (push_segment segs (text_segment a text)) (text_segment a text')
  = push_segment segs (text_segment a (text ++ text')).
Proof.
  destruct text as [|c text]; [by rewrite push_empty_text|].
  destruct text' as [|c' text']; [by rewrite push_empty_text, app_nil_r|].
  destruct segs as [|x segs _] using rev_ind.
  - destruct a; simpl; [by rewrite decide_True|done].
  - destruct a as [t|], x as [y|y|u y|y]; cbn [text_segment push_segment is_empty app];
      rewrite ?last_snoc; try case_decide; subst;
      rewrite ?update_last_snoc, ?last_snoc, ?decide_True, ?update_last_snoc by done;
      by rewrite <-?app_assoc.
Qed.

Lemma foldl_push_push s segs x :
  foldl push_segment s (push_segment segs x) = push_segment (foldl push_segment s segs) x.
Proof.
  assert (foldl push_segment s (segs ++ [x]) = push_segment (foldl push_segment s segs) x) as Happ
    by by rewrite foldl_app.
  destruct segs as [|y segs _] using rev_ind; [by destruct x as [[]| |? []|]|].
  destruct x as [text|t|t text|t]; cbn [push_segment]; try exact Happ.
  - destruct text as [|c text]; [done|]. cbn [is_empty]. rewrite last_snoc.
    destruct y as [text'| | |]; try exact Happ.
    rewrite update_last_snoc, !foldl_app. cbn [foldl]. symmetry. exact (push_text_text None text' (c :: text) (foldl push_segment s segs)).
  - destruct text as [|c text]; [done|]. cbn [is_empty]. rewrite last_snoc.
    destruct y as [| |t' text'|]; try exact Happ. case_decide; [subst t'|exact Happ].
    rewrite update_last_snoc, !foldl_app. cbn [foldl]. symmetry. exact (push_text_text (Some t) text' (c :: text) (foldl push_segment s segs)).
Qed.

Lemma foldl_push_merge s segs : foldl push_segment s (merge segs) = foldl push_segment s segs.
Proof.
  induction segs as [|x segs IH] using rev_ind; [done|]. unfold merge in *.
  rewrite !foldl_app. simpl. by rewrite foldl_push_push, IH.
Qed.

Lemma merge_app segs segs' : merge (segs ++ segs') = foldl push_segment (merge segs) segs'.
Proof. apply foldl_app. Qed.

(** ** A line given up early is not a tag *)

Lemma trim_end_prefix (a b : str) : ∃ r, trim_end (a ++ b) = trim_end a ++ r.
Proof.
  induction b as [|c b [r Hr]] using rev_ind; [exists []; by rewrite !app_nil_r|].
  rewrite app_assoc. destruct (is_whitespace c) eqn:E.
  - exists r. by rewrite trim_end_snoc_ws.
  - rewrite trim_end_snoc by done. destruct (trim_end_split a) as (w & Ha & _).
    exists (w ++ b ++ [c]). rewrite Ha at 1. by rewrite <-!app_assoc.
Qed.

Lemma trim_start_app (a b : str) : trim_start a ≠ [] → trim_start (a ++ b) = trim_start a ++ b.
Proof.
  intros H. destruct (trim_start_split a) as (w & Ha & Hw).
  pose proof (drop_while_head is_whitespace a) as Hh. fold (trim_start a) in Hh.
  rewrite Ha at 1. rewrite <-app_assoc. unfold trim_start at 1.
  rewrite drop_while_app_all by done. apply drop_while_id. by destruct (trim_start a).
Qed.

Lemma strip_line_app l r : LF ∉ l →
  ∃ r', default (l ++ r) (strip_suffix [LF] (l ++ r)) = l ++ r'.
Proof.
  intros Hl. destruct (strip_suffix [LF] (l ++ r)) as [k|] eqn:E; [|by exists r].
  apply strip_suffix_Some in E. simpl. destruct r as [|c r _] using rev_ind.
  - exfalso. apply Hl. rewrite app_nil_r in E. subst. apply elem_of_app. right. constructor.
  - rewrite app_assoc in E. apply app_inj_tail in E as [<- _]. by exists r.
Qed.

(** [trim_start(l)] is empty or the start of a tag: the line is held back. *)
Definition held (p : TaggedLineParser) (l : str) : bool :=
  is_empty (trim_start l) || is_tag_prefix p (trim_start l).

Lemma tag_line_held p l r :
  LF ∉ l → held p l = false →
  match_open p (slug_of (l ++ r)) = None ∧ match_close p (slug_of (l ++ r)) = None.
Proof.
  intros Hl [Hne Hpre]%orb_false_iff.
  assert (∃ r', slug_of (l ++ r) = trim_end (trim_start l) ++ r') as [r' Hr].
  { unfold slug_of. destruct (strip_line_app l r Hl) as [r0 ->].
    rewrite trim_start_app by (intros E; by rewrite E in Hne). apply trim_end_prefix. }
  unfold match_open, match_close. rewrite !fmap_None, !find_first_None, Hr.
  split; apply Forall_forall; intros spec Hs; apply str_eqb_ne; intros E;
    apply not_true_iff_false in Hpre; apply Hpre; apply existsb_exists; exists spec;
    (split; [by apply list_elem_of_In|]); apply orb_true_iff; [left|right];
    apply starts_with_spec; by exists r'.
Qed.

Lemma tag_line_held_text p l r :
  LF ∉ l → held p l = false →
  line_segment (tl_specs p) (active_tag p) (l ++ r)
  = (text_segment (active_tag p) (l ++ r), active_tag p).
Proof.
  intros Hl Hh. destruct (tag_line_held p l r Hl Hh) as [Ho Hc].
  unfold line_segment, opens, closes.
  change (match_open (with_tag (new_tagged (tl_specs p)) (active_tag p))) with (match_open p).
  change (match_close (with_tag (new_tagged (tl_specs p)) (active_tag p))) with (match_close p).
  by rewrite Ho, Hc.
Qed.

(** ** One character at a time *)
Definition raw_char p (ch : char) : TaggedLineParser * list TaggedLineSegment :=
  let '(p, run, segs) := parse_char (p, [], []) ch in (p, push_text p run segs).
Fixpoint raw p (text : str) : TaggedLineParser * list TaggedLineSegment :=
  match text with
  | [] => (p, [])
  | c :: text =>
      let '(p, segs) := raw_char p c in
      let '(p, segs') := raw p text in
      (p, segs ++ segs')
  end.

(** [finish_line] is the reference on the line that ends. *)
Lemma finish_line_reference p segs :
  finish_line p segs
  = (with_line (with_tag p (line_segment (tl_specs p) (active_tag p) (line_buffer p)).2) true [],
     push_segment segs (line_segment (tl_specs p) (active_tag p) (line_buffer p)).1).
Proof.
  unfold finish_line, line_segment.
  change (opens (with_line p (detect_tag p) [])) with (opens (with_tag (new_tagged (tl_specs p)) (active_tag p))).
  change (closes (with_line p (detect_tag p) [])) with (closes (with_tag (new_tagged (tl_specs p)) (active_tag p))).
  case_match; [done|]. case_match; [done|]. simpl. rewrite push_text_segment. by destruct p.
Qed.

(** What a character does, in the two modes of the parser. *)
Lemma raw_char_detect p ch :
  detect_tag p = true →
  let l := line_buffer p ++ [ch] in
  raw_char p ch =
    if (ch =? LF)%N then
      (with_line (with_tag p (line_segment (tl_specs p) (active_tag p) l).2) true [],
       push_segment [] (line_segment (tl_specs p) (active_tag p) l).1)
    else if held p l then (with_line p true l, [])
    else (with_line p false [], push_segment [] (text_segment (active_tag p) l)).
Proof.
  intros Hd. unfold raw_char, parse_char. rewrite Hd. cbn [is_empty line_buffer with_line].
  destruct (ch =? LF)%N.
  - rewrite finish_line_reference. cbn [tl_specs active_tag line_buffer with_line with_tag].
    by rewrite push_text_segment, push_empty_text.
  - unfold held. change (is_tag_prefix (with_line p true (line_buffer p ++ [ch]))) with (is_tag_prefix p).
    destruct (is_empty _ || _); by rewrite !push_text_segment, push_empty_text.
Qed.

Lemma raw_char_text p ch :
  detect_tag p = false →
  raw_char p ch = (with_line p (ch =? LF)%N (line_buffer p),
                   push_segment [] (text_segment (active_tag p) [ch])).
Proof.
  intros Hd. unfold raw_char, parse_char. rewrite Hd. destruct (ch =? LF)%N;
    rewrite !push_text_segment; [by rewrite push_empty_text|]. f_equal. by destruct p; simpl in *; subst.
Qed.

(** The pending [run] of [parse] is text that [raw] pushes at once. *)
Lemma parse_char_raw p run segs ch :
  (run ≠ [] → detect_tag p = false) →
  let '(p', run', segs') := parse_char (p, run, segs) ch in
  p' = (raw_char p ch).1 ∧ (run' ≠ [] → detect_tag p' = false)
  ∧ push_text p' run' segs' = foldl push_segment (push_text p run segs) (raw_char p ch).2.
Proof.
  intros Hrun. destruct (detect_tag p) eqn:Hd.
  - assert (run = []) as -> by (destruct run; [done|]; by discriminate Hrun).
    rewrite raw_char_detect by done. unfold parse_char. rewrite Hd.
    cbn [is_empty line_buffer with_line]. rewrite (push_text_segment p []), push_empty_text.
    destruct (ch =? LF)%N.
    + rewrite finish_line_reference. cbn [tl_specs active_tag line_buffer with_line with_tag].
      split; [done|]. split; [done|].
      rewrite push_text_segment, push_empty_text. cbn [snd]. by rewrite foldl_push_push.
    + unfold held. change (is_tag_prefix (with_line p true (line_buffer p ++ [ch]))) with (is_tag_prefix p).
      destruct (is_empty _ || _); rewrite !push_text_segment, push_empty_text; [done|].
      split; [done|]. split; [done|]. cbn [snd]. by rewrite foldl_push_push.
  - rewrite raw_char_text by done. unfold parse_char. rewrite Hd.
    assert (∀ b, with_line p b (line_buffer p) = p ∨ b = true) as Hb
      by (intros []; [by right|left]; destruct p; simpl in *; by subst).
    destruct (ch =? LF)%N; cbn [fst snd]; rewrite foldl_push_push, !push_text_segment.
    + split; [done|]. split; [done|]. rewrite push_empty_text. cbn [foldl]. by rewrite push_text_text.
    + destruct (Hb false) as [->|]; [|done]. split; [done|]. split; [done|].
      cbn [foldl]. by rewrite push_text_text.
Qed.

Lemma parse_loop_raw text p run segs :
  (run ≠ [] → detect_tag p = false) →
  let '(p', run', segs') := foldl parse_char (p, run, segs) text in
  p' = (raw p text).1
  ∧ push_text p' run' segs' = foldl push_segment (push_text p run segs) (raw p text).2.
Proof.
  revert p run segs. induction text as [|ch text IH]; intros p run segs Hrun; cbn [foldl raw]; [done|].
  pose proof (parse_char_raw p run segs ch Hrun) as Hc.
  destruct (parse_char (p, run, segs) ch) as [[p' run'] segs']. destruct Hc as (-> & Hrun' & Hs).
  destruct (raw_char p ch) as [p1 out]. cbn [fst snd] in *. specialize (IH p1 run' segs' Hrun').
  destruct (raw p1 text) as [p2 out2], (foldl parse_char (p1, run', segs') text) as [[p3 run3] segs3].
  cbn [fst snd] in *. by rewrite foldl_app, <-Hs.
Qed.

Lemma parse_raw p text : parse p text = ((raw p text).1, merge (raw p text).2).
Proof.
  unfold parse. pose proof (parse_loop_raw text p [] [] ltac:(done)) as H.
  destruct (foldl parse_char (p, [], []) text) as [[p' run] segs]. destruct H as [-> H].
  rewrite (push_text_segment p []), push_empty_text in H. f_equal. unfold merge. rewrite <-H.
  destruct run; [by rewrite push_text_segment, push_empty_text|done].
Qed.

Lemma raw_app text text' p :
  raw p (text ++ text') = ((raw (raw p text).1 text').1, (raw p text).2 ++ (raw (raw p text).1 text').2).
Proof.
  revert p. induction text as [|c text IH]; intros p; cbn [raw app fst snd]; [apply surjective_pairing|].
  destruct (raw_char p c) as [p1 out]. rewrite IH. destruct (raw p1 text) as [p2 out2]. simpl.
  by rewrite app_assoc.
Qed.

(** Cutting the text changes only where adjacent texts are split. *)
Lemma parse_all_raw cs p s :
  (parse_all p cs).1 = (raw p (concat cs)).1
  ∧ foldl push_segment s (parse_all p cs).2 = foldl push_segment s (raw p (concat cs)).2.
Proof.
  revert p s. induction cs as [|c cs IH]; intros p s; cbn [parse_all concat]; [done|].
  rewrite parse_raw, raw_app. cbn [fst snd].
  destruct (IH (raw p c).1 (foldl push_segment s (raw p c).2)) as [IH1 IH2].
  destruct (parse_all (raw p c).1 cs) as [p' segs]. cbn [fst snd] in *. split; [done|].
  by rewrite !foldl_app, foldl_push_merge.
Qed.

(** ** The state in the middle of a line

    [l] is the line so far, [s0] the segments before it and [s] those so far. *)
Definition in_line p (s0 : list TaggedLineSegment) (l : str) s : Prop :=
  LF ∉ l ∧
  ((detect_tag p = true ∧ line_buffer p = l ∧ s = s0) ∨
   (detect_tag p = false ∧ line_buffer p = [] ∧ l ≠ []
    ∧ (∃ l1 l2, l = l1 ++ l2 ∧ held p l1 = false)
    ∧ s = push_segment s0 (text_segment (active_tag p) l))).

(** A given-up line stays text. *)
Lemma given_up_text p l r :
  LF ∉ l → (∃ l1 l2, l = l1 ++ l2 ∧ held p l1 = false) →
  line_segment (tl_specs p) (active_tag p) (l ++ r)
  = (text_segment (active_tag p) (l ++ r), active_tag p).
Proof.
  intros Hl (l1 & l2 & -> & Hh). rewrite <-app_assoc. apply tag_line_held_text; [|done].
  intros Hin. apply Hl. apply elem_of_app. by left.
Qed.

Lemma raw_char_in_line p s0 l s ch :
  in_line p s0 l s → ch ≠ LF →
  in_line (raw_char p ch).1 s0 (l ++ [ch]) (foldl push_segment s (raw_char p ch).2)
  ∧ active_tag (raw_char p ch).1 = active_tag p ∧ tl_specs (raw_char p ch).1 = tl_specs p.
Proof.
  intros [Hl Hst] Hch. assert ((ch =? LF)%N = false) as Hc by by apply N.eqb_neq.
  assert (LF ∉ l ++ [ch]) as Hl'.
  { rewrite elem_of_app, list_elem_of_singleton. intros [|]; [done|congruence]. }
  destruct Hst as [(Hd & <- & ->)|(Hd & Hb & Hne & Hh & ->)].
  - rewrite raw_char_detect, Hc by done. destruct (held p (line_buffer p ++ [ch])) eqn:E.
    + split; [|done]. split; [done|]. by left.
    + split; [|done]. split; [done|]. right. cbn [fst snd]. rewrite foldl_push_push.
      repeat split; [by destruct (line_buffer p)|]. exists (line_buffer p ++ [ch]), [].
      by rewrite app_nil_r.
  - rewrite raw_char_text, Hc by done. split; [|done]. split; [done|]. right. cbn [fst snd].
    rewrite foldl_push_push. repeat split; [done|by destruct l| |].
    + destruct Hh as (l1 & l2 & -> & Hh). exists l1, (l2 ++ [ch]). by rewrite app_assoc.
    + cbn [foldl]. by rewrite push_text_text.
Qed.

Lemma raw_char_line_end p s0 l s :
  in_line p s0 l s →
  let '(seg, a) := line_segment (tl_specs p) (active_tag p) (l ++ [LF]) in
  in_line (raw_char p LF).1 (push_segment s0 seg) [] (foldl push_segment s (raw_char p LF).2)
  ∧ active_tag (raw_char p LF).1 = a ∧ tl_specs (raw_char p LF).1 = tl_specs p.
Proof.
  intros [Hl [(Hd & <- & ->)|(Hd & Hb & Hne & Hh & ->)]].
  - rewrite raw_char_detect by done. cbn [fst snd].
    destruct (line_segment (tl_specs p) (active_tag p) (line_buffer p ++ [LF])) as [seg a].
    cbn [fst snd N.eqb LF Pos.eqb]. rewrite foldl_push_push. split; [|done].
    split; [apply not_elem_of_nil|]. by left.
  - rewrite raw_char_text by done. rewrite given_up_text by done. cbn [fst snd].
    rewrite foldl_push_push. split; [|done]. split; [apply not_elem_of_nil|]. left.
    repeat split; [done|]. cbn [foldl]. by rewrite push_text_text.
Qed.

(** The flush closes the line, then the block. *)
Lemma finish_in_line p s0 l s :
  in_line p s0 l s →
  foldl push_segment s (finish_tagged p).2
  = foldl push_segment s0 (line_segments (tl_specs p) (active_tag p) (split_inclusive LF l)).
Proof.
  intros [Hl [(Hd & <- & ->)|(Hd & Hb & Hne & Hh & ->)]]; unfold finish_tagged.
  - destruct (line_buffer p) as [|c l] eqn:Eb.
    + cbn [is_empty split_inclusive line_segments]. by destruct (active_tag p).
    + rewrite (split_inclusive_last LF (c :: l)) by done. cbn [is_empty line_segments].
      unfold line_segment.
      change (opens (with_line p (detect_tag p) [])) with (opens (with_tag (new_tagged (tl_specs p)) (active_tag p))).
      change (closes (with_line p (detect_tag p) [])) with (closes (with_tag (new_tagged (tl_specs p)) (active_tag p))).
      destruct (opens _ _); [done|]. destruct (closes _ _); [done|]. rewrite push_text_segment.
      cbn [active_tag with_line]. by destruct (active_tag p).
  - rewrite Hb. cbn [is_empty]. rewrite (split_inclusive_last LF l) by done. cbn [line_segments].
    pose proof (given_up_text p l [] Hl Hh) as Hg. rewrite app_nil_r in Hg. rewrite Hg.
    by destruct (active_tag p).
Qed.

Lemma raw_reference text p s0 l s :
  in_line p s0 l s →
  foldl push_segment s ((raw p text).2 ++ (finish_tagged (raw p text).1).2)
  = foldl push_segment s0 (line_segments (tl_specs p) (active_tag p) (split_inclusive LF (l ++ text))).
Proof.
  revert p s0 l s. induction text as [|c text IH]; intros p s0 l s Hin; cbn [raw].
  - rewrite app_nil_r. by apply finish_in_line.
  - destruct (decide (c = LF)) as [->|Hc].
    + pose proof (raw_char_line_end p s0 l s Hin) as H.
      rewrite (split_inclusive_line LF l text) by apply Hin. cbn [line_segments].
      destruct (line_segment _ _ (l ++ [LF])) as [seg a]. destruct H as (H & Ha & Hs).
      destruct (raw_char p LF) as [p1 out]. cbn [fst snd] in *. specialize (IH p1 _ _ _ H).
      destruct (raw p1 text) as [p2 out2]. cbn [fst snd] in *.
      rewrite <-app_assoc, foldl_app. cbn [foldl]. by rewrite IH, Ha, Hs.
    + destruct (raw_char_in_line p s0 l s c Hin Hc) as (H & Ha & Hs).
      change (c :: text) with ([c] ++ text). rewrite app_assoc.
      destruct (raw_char p c) as [p1 out]. cbn [fst snd] in *. specialize (IH p1 _ _ _ H).
      destruct (raw p1 text) as [p2 out2]. cbn [fst snd] in *.
      by rewrite <-app_assoc, foldl_app, IH, Ha, Hs.
Qed.

Lemma stream_reference specs cs :
  merge (tagged_stream (new_tagged specs) cs)
  = merge (line_segments specs None (split_inclusive LF (concat cs))).
Proof.
  unfold tagged_stream, merge. destruct (parse_all_raw cs (new_tagged specs) []) as [H1 H2].
  destruct (parse_all (new_tagged specs) cs) as [p segs]. cbn [fst snd] in *.
  rewrite foldl_app, H1, H2, <-foldl_app.
  apply (raw_reference (concat cs) (new_tagged specs) [] [] []).
  split; [apply not_elem_of_nil|]. by left.
Qed.

(** However the text is cut, the streaming parser delivers the segments of
    the line-by-line reference: a line that is, up to surrounding blanks, the
    opening tag (outside a block) or the closing tag of the open block is a
    tag line, every other line is text, and an open block is closed at the
    end; the cuts only decide where a run of text is split. *)
Theorem tagged_stream_is_line_by_line (specs : list TagSpec) (cs : list str) :
  merge (tagged_stream (new_tagged specs) cs)
  = merge (line_segments specs None (split_inclusive LF (concat cs))).
Proof. apply stream_reference. Qed.
End tagged_line.
Arguments TagSpec : clear implicits.
Arguments TaggedLineSegment : clear implicits.
Arguments TaggedLineParser : clear implicits.
