(* ===== verification/ProposedPlan.v ===== *)
(** * stream-parser: proposed plans

    [utils/stream-parser/src/proposed_plan.rs]: the blocks between
    [<proposed_plan>] and [</proposed_plan>], each alone on its line, are taken
    out of the visible text. *)
From S2P Require Import Prelude Str StreamText TaggedLine.

Definition OPEN_TAG : str := lit "<proposed_plan>".
Definition CLOSE_TAG : str := lit "</proposed_plan>".

Inductive PlanTag := ProposedPlan.
#[export] Instance PlanTag_eq_dec : EqDecision PlanTag.
Proof. solve_decision. Defined.

Inductive ProposedPlanSegment :=
  | PlanNormal (text : str)
  | ProposedPlanStart
  | ProposedPlanDelta (text : str)
  | ProposedPlanEnd.

Record ProposedPlanParser := { parser : TaggedLineParser PlanTag }.

Definition plan_specs : list (TagSpec PlanTag) :=
  [{| spec_open := OPEN_TAG; spec_close := CLOSE_TAG; spec_tag := ProposedPlan |}].
Definition new_plan : ProposedPlanParser := {| parser := new_tagged plan_specs |}.

Definition map_segment (segment : TaggedLineSegment PlanTag) : ProposedPlanSegment :=
  match segment with
  | Normal text => PlanNormal text
  | TagStart ProposedPlan => ProposedPlanStart
  | TagDelta ProposedPlan text => ProposedPlanDelta text
  | TagEnd ProposedPlan => ProposedPlanEnd
  end.

Definition map_segments (segments : list (TaggedLineSegment PlanTag))
    : StreamTextChunk ProposedPlanSegment :=
  foldl (λ out segment,
    let mapped := map_segment segment in
    {| visible_text := match mapped with
                       | PlanNormal text => visible_text out ++ text
                       | _ => visible_text out
                       end;
       extracted := extracted out ++ [mapped] |}) empty_chunk segments.

#[export] Instance plan_parser : StreamTextParser ProposedPlanParser ProposedPlanSegment := {|
  push_str p chunk := let '(p, segs) := parse (parser p) chunk in ({| parser := p |}, map_segments segs);
  finish p := let '(p, segs) := finish_tagged (parser p) in ({| parser := p |}, map_segments segs);
|}.

Definition strip_proposed_plan_blocks (text : str) : str :=
  let '(p, out) := push_str new_plan text in
  visible_text out ++ visible_text (finish p).2.

(** The body of the loop of [extract_proposed_plan_text]: the flag and the text. *)
Definition extract_step (st : bool * str) (segment : ProposedPlanSegment) : bool * str :=
  match segment with
  | ProposedPlanStart => (true, [])
  | ProposedPlanDelta delta => (st.1, st.2 ++ delta)
  | ProposedPlanEnd | PlanNormal _ => st
  end.
Definition extract_proposed_plan_text (text : str) : option str :=
  let '(p, out) := push_str new_plan text in
  let '(saw_plan_block, plan_text) :=
    foldl extract_step (false, []) (extracted out ++ extracted (finish p).2) in
  if saw_plan_block then Some plan_text else None.

(** ** Streams of segments *)

(** The normal text of segments. *)
Definition normal_text (segs : list (TaggedLineSegment PlanTag)) : str :=
  concat ((λ s, match s with Normal text => text | _ => [] end) <$> segs).

Lemma normal_text_app segs segs' : normal_text (segs ++ segs') = normal_text segs ++ normal_text segs'.
Proof. unfold normal_text. by rewrite fmap_app, concat_app. Qed.

Lemma map_segments_spec segs :
  map_segments segs = {| visible_text := normal_text segs; extracted := map_segment <$> segs |}.
Proof.
  induction segs as [|x segs IH] using rev_ind; [done|]. unfold map_segments in *.
  rewrite foldl_app, IH, normal_text_app, fmap_app. simpl. f_equal.
  destruct x as [text|[]|[] text|[]]; unfold normal_text; simpl; by rewrite ?app_nil_r.
Qed.

Lemma map_segments_app segs segs' :
  map_segments (segs ++ segs') = chunk_app (map_segments segs) (map_segments segs').
Proof. rewrite !map_segments_spec. unfold chunk_app. simpl. by rewrite normal_text_app, fmap_app. Qed.

Lemma plan_feed cs p :
  feed p cs = (let '(q, segs) := parse_all (parser p) cs in ({| parser := q |}, map_segments segs)).
Proof.
  revert p. induction cs as [|c cs IH]; intros p; cbn [feed parse_all]; [by destruct p|].
  cbn [push_str plan_parser]. destruct (parse (parser p) c) as [q segs]. rewrite IH. simpl.
  destruct (parse_all q cs) as [q' segs']. by rewrite map_segments_app.
Qed.

Lemma plan_stream cs p : stream p cs = map_segments (tagged_stream (parser p) cs).
Proof.
  unfold stream, tagged_stream. rewrite plan_feed. destruct (parse_all (parser p) cs) as [q segs].
  cbn [finish plan_parser parser]. destruct (finish_tagged q) as [q' segs']. simpl.
  by rewrite map_segments_app.
Qed.

(** Neither the normal text nor the plan text depends on how texts are merged. *)
Lemma normal_text_push segs x :
  normal_text (push_segment segs x) = normal_text (segs ++ [x]).
Proof.
  destruct segs as [|y segs _] using rev_ind; [by destruct x as [[]|[]|[] []|[]]|].
  destruct x as [[]|[]|[] []|[]], y as [|[]|[] |[]]; cbn [push_segment is_empty]; rewrite ?last_snoc;
    try case_decide; rewrite ?update_last_snoc, !normal_text_app; unfold normal_text; simpl;
    rewrite ?app_nil_r; rewrite <-?app_assoc; done.
Qed.

Lemma normal_text_merge segs : normal_text (merge segs) = normal_text segs.
Proof.
  induction segs as [|x segs IH] using rev_ind; [done|].
  unfold merge. rewrite foldl_app. cbn [foldl]. fold (merge segs).
  by rewrite normal_text_push, !normal_text_app, IH.
Qed.

Definition plan_text_of (st : bool * str) (segs : list (TaggedLineSegment PlanTag)) : bool * str :=
  foldl extract_step st (map_segment <$> segs).

Lemma plan_text_app st segs segs' :
  plan_text_of st (segs ++ segs') = plan_text_of (plan_text_of st segs) segs'.
Proof. unfold plan_text_of. by rewrite fmap_app, foldl_app. Qed.

Lemma plan_text_push st segs x :
  plan_text_of st (push_segment segs x) = plan_text_of st (segs ++ [x]).
Proof.
  destruct segs as [|y segs _] using rev_ind.
  - destruct x as [[]|[]|[] []|[]]; unfold plan_text_of; simpl; rewrite ?app_nil_r; by destruct st.
  - destruct x as [[]|[]|[] []|[]], y as [|[]|[] |[]]; cbn [push_segment is_empty]; rewrite ?last_snoc;
    try case_decide; rewrite ?update_last_snoc, !plan_text_app; try done;
    destruct (plan_text_of st segs) as [b w]; unfold plan_text_of; simpl; by rewrite <-?app_assoc, ?app_nil_r.
Qed.

Lemma plan_text_merge st segs : plan_text_of st (merge segs) = plan_text_of st segs.
Proof.
  induction segs as [|x segs IH] using rev_ind; [done|].
  unfold merge. rewrite foldl_app. cbn [foldl]. fold (merge segs).
  by rewrite plan_text_push, !plan_text_app, IH.
Qed.

(** The same merging on the delivered segments. *)
Definition unmap_segment (s : ProposedPlanSegment) : TaggedLineSegment PlanTag :=
  match s with
  | PlanNormal text => Normal text
  | ProposedPlanStart => TagStart ProposedPlan
  | ProposedPlanDelta text => TagDelta ProposedPlan text
  | ProposedPlanEnd => TagEnd ProposedPlan
  end.
Definition merge_plan (xs : list ProposedPlanSegment) : list ProposedPlanSegment :=
  map_segment <$> merge (unmap_segment <$> xs).

Lemma merge_plan_map segs : merge_plan (map_segment <$> segs) = map_segment <$> merge segs.
Proof.
  unfold merge_plan. f_equal. f_equal. rewrite <-list_fmap_compose.
  rewrite <-(list_fmap_id segs) at 2. apply list_fmap_ext. by intros _ [|[]|[]|[]] _.
Qed.

(** The lines of a text, classified. *)
Definition plan_lines (text : str) : list (TaggedLineSegment PlanTag) :=
  line_segments plan_specs None (split_inclusive LF text).

Lemma plan_stream_lines cs :
  visible_text (stream new_plan cs) = normal_text (plan_lines (concat cs))
  ∧ merge_plan (extracted (stream new_plan cs)) = map_segment <$> merge (plan_lines (concat cs))
  ∧ foldl extract_step (false, []) (extracted (stream new_plan cs))
    = plan_text_of (false, []) (plan_lines (concat cs)).
Proof.
  rewrite plan_stream, map_segments_spec. cbn [visible_text extracted].
  pose proof (stream_reference plan_specs cs) as H.
  change (new_tagged plan_specs) with (parser new_plan) in H. split; [|split].
  - by rewrite <-normal_text_merge, H, normal_text_merge.
  - by rewrite merge_plan_map, H.
  - change (plan_text_of (false, []) (tagged_stream (parser new_plan) cs)
            = plan_text_of (false, []) (plan_lines (concat cs))).
    by rewrite <-plan_text_merge, H, plan_text_merge.
Qed.

#[export] Instance plan_transparent : Transparent plan_parser new_plan merge_plan.
Proof.
  split; intros cs; destruct (plan_stream_lines cs) as (Hv & He & _);
    destruct (plan_stream_lines [concat cs]) as (Hv' & He' & _);
    rewrite ?Hv, ?Hv', ?He, ?He'; cbn [concat]; by rewrite app_nil_r.
Qed.

Lemma strip_is_stream text : strip_proposed_plan_blocks text = visible_text (stream new_plan [text]).
Proof.
  unfold strip_proposed_plan_blocks, stream. cbn [feed].
  destruct (push_str new_plan text) as [p o]. by rewrite chunk_app_nil_r.
Qed.
Lemma extract_is_stream text :
  extract_proposed_plan_text text
  = (let '(saw, t) := foldl extract_step (false, []) (extracted (stream new_plan [text])) in
     if saw then Some t else None).
Proof.
  unfold extract_proposed_plan_text, stream. cbn [feed].
  destruct (push_str new_plan text) as [p o]. by rewrite chunk_app_nil_r.
Qed.

(** ** Texts with a plan block *)

(** A line that is no tag line, and lines written out. *)
Definition plain_line (l : str) : Prop :=
  LF ∉ l ∧ slug_of (l ++ [LF]) ≠ OPEN_TAG ∧ slug_of (l ++ [LF]) ≠ CLOSE_TAG.
#[export] Instance plain_line_dec l : Decision (plain_line l).
Proof. unfold plain_line. apply _. Defined.
Definition unlines (ls : list str) : str := concat ((λ l, l ++ [LF]) <$> ls).

Lemma plain_line_segment l a :
  plain_line l → line_segment plan_specs a (l ++ [LF]) = (text_segment a (l ++ [LF]), a).
Proof.
  intros (_ & Ho & Hc). unfold line_segment, opens, closes, match_open, match_close.
  cbn [tl_specs with_tag new_tagged plan_specs find_first spec_open spec_close].
  rewrite (proj2 (str_eqb_ne _ _)), (proj2 (str_eqb_ne _ _)) by congruence. done.
Qed.

Lemma plain_lines_segments ls a rest :
  Forall plain_line ls →
  line_segments plan_specs a (split_inclusive LF (unlines ls ++ rest))
  = ((λ l, text_segment a (l ++ [LF])) <$> ls) ++ line_segments plan_specs a (split_inclusive LF rest).
Proof.
  induction 1 as [|l ls Hl _ IH]; [done|]. unfold unlines. cbn [fmap list_fmap concat].
  rewrite <-!app_assoc. cbn [app]. rewrite (split_inclusive_line LF l) by apply Hl.
  cbn [line_segments]. rewrite plain_line_segment by done. cbn [app]. f_equal. apply IH.
Qed.

Lemma open_line_segments rest :
  line_segments plan_specs None (split_inclusive LF (OPEN_TAG ++ LF :: rest))
  = TagStart ProposedPlan :: line_segments plan_specs (Some ProposedPlan) (split_inclusive LF rest).
Proof. rewrite split_inclusive_line; [reflexivity|]. by apply (bool_decide_unpack _). Qed.
Lemma close_line_segments rest :
  line_segments plan_specs (Some ProposedPlan) (split_inclusive LF (CLOSE_TAG ++ LF :: rest))
  = TagEnd ProposedPlan :: line_segments plan_specs None (split_inclusive LF rest).
Proof. rewrite split_inclusive_line; [reflexivity|]. by apply (bool_decide_unpack _). Qed.

Lemma normal_text_texts a ls :
  normal_text ((λ l, text_segment a (l ++ [LF])) <$> ls) = if is_some a then [] else unlines ls.
Proof.
  unfold normal_text, unlines. rewrite <-list_fmap_compose. destruct a; [|done].
  by induction ls.
Qed.
Lemma plan_text_texts st a ls :
  plan_text_of st ((λ l, text_segment a (l ++ [LF])) <$> ls)
  = (st.1, if is_some a then st.2 ++ unlines ls else st.2).
Proof.
  revert st. induction ls as [|l ls IH]; intros [b w].
  - unfold plan_text_of, unlines. simpl. by destruct a; rewrite ?app_nil_r.
  - cbn [fmap list_fmap]. change (?x :: ?y) with ([x] ++ y). rewrite plan_text_app, IH.
    destruct a as [[]|]; [|done]. unfold plan_text_of, unlines. cbn. by rewrite <-!app_assoc.
Qed.

(** A plan block between plain lines, in a text cut into any pieces: the
    visible text is the text without the block, the plan text is the lines of
    the block, and the two whole-text functions give the same. *)
Theorem plan_block_extracted (pre plan post : list str) (cs : list str) :
  Forall plain_line pre → Forall plain_line plan → Forall plain_line post →
  concat cs = unlines pre ++ OPEN_TAG ++ LF :: unlines plan ++ CLOSE_TAG ++ LF :: unlines post →
  visible_text (stream new_plan cs) = unlines pre ++ unlines post
  ∧ foldl extract_step (false, []) (extracted (stream new_plan cs)) = (true, unlines plan)
  ∧ strip_proposed_plan_blocks (concat cs) = unlines pre ++ unlines post
  ∧ extract_proposed_plan_text (concat cs) = Some (unlines plan).
Proof.
  intros Hpre Hplan Hpost Hcs.
  assert (plan_lines (concat cs)
    = ((λ l, text_segment None (l ++ [LF])) <$> pre) ++ [TagStart ProposedPlan]
      ++ ((λ l, text_segment (Some ProposedPlan) (l ++ [LF])) <$> plan) ++ [TagEnd ProposedPlan]
      ++ ((λ l, text_segment None (l ++ [LF])) <$> post)) as Hl.
  { unfold plan_lines. rewrite Hcs, plain_lines_segments, open_line_segments by done.
    rewrite plain_lines_segments, close_line_segments by done.
    rewrite <-(app_nil_r (unlines post)), plain_lines_segments by done. cbn. by rewrite !app_nil_r. }
  assert (normal_text (plan_lines (concat cs)) = unlines pre ++ unlines post) as Hn.
  { rewrite Hl, !normal_text_app, !normal_text_texts. done. }
  assert (plan_text_of (false, []) (plan_lines (concat cs)) = (true, unlines plan)) as Hp.
  { rewrite Hl, !plan_text_app, !plan_text_texts. done. }
  rewrite strip_is_stream, extract_is_stream.
  destruct (plan_stream_lines cs) as (-> & _ & ->).
  destruct (plan_stream_lines [concat cs]) as (-> & _ & ->). cbn [concat]. rewrite app_nil_r.
  by rewrite Hn, Hp.
Qed.

Lemma plan_block_witness :
  visible_text (stream new_plan [lit "Intro"; LF :: lit "  <prop"; lit "x"]) =
    lit "Intro" ++ LF :: lit "  <propx"
  ∧ extract_proposed_plan_text
      (lit "Intro" ++ LF :: OPEN_TAG ++ LF :: lit "- step" ++ LF :: CLOSE_TAG ++ LF :: lit "Outro" ++ [LF])
    = Some (lit "- step" ++ [LF]).
Proof.
  split; [vm_compute; reflexivity|].
  pose proof (plan_block_extracted [lit "Intro"] [lit "- step"] [lit "Outro"]
    [lit "Intro" ++ LF :: lit "<pro"; lit "posed_plan>" ++ LF :: lit "- step" ++ LF :: CLOSE_TAG ++ [LF];
     lit "Outro" ++ [LF]]) as H.
  apply H; [| | |vm_compute; reflexivity];
    (constructor; [|constructor]); apply (bool_decide_unpack _); vm_compute; exact I.
Defined.
