(* ===== verification/Utf8Stream.v ===== *)
(** * stream-parser: raw bytes in front of a text parser

    [utils/stream-parser/src/utf8_stream.rs]: [Utf8StreamParser] accepts raw
    bytes, holds back an incomplete code point, and passes decoded text to the
    parser it wraps.  [from_utf8] models [std::str::from_utf8] with the
    [valid_up_to] and [error_len] of its error. *)
From S2P Require Import Prelude Str StreamText TaggedLine ProposedPlan.

(** ** [std::str::from_utf8] *)

Definition in_range (a b x : N) : bool := ((a <=? x) && (x <=? b))%N.
Definition is_cont (b : N) : bool := in_range 128 191 b.

(** The length of a sequence by its first byte; [0] for a byte that starts none. *)
Definition utf8_char_width (b : N) : nat :=
  if (b <? 128)%N then 1
  else if in_range 194 223 b then 2
  else if in_range 224 239 b then 3
  else if in_range 240 244 b then 4
  else 0.

(** The second bytes that a first byte admits: no overlong form, no surrogate,
    nothing above U+10FFFF. *)
Definition second_ok (first b : N) : bool :=
  if (first =? 224)%N then in_range 160 191 b
  else if (first =? 237)%N then in_range 128 159 b
  else if (first =? 240)%N then in_range 144 191 b
  else if (first =? 244)%N then in_range 128 143 b
  else is_cont b.

Inductive utf8_step :=
  | Decoded (c : char) (rest : list N)
  | Invalid (error_len : nat)
  | Incomplete.

(** One round of the validation loop. *)
Definition decode_one (bs : list N) : utf8_step :=
  match bs with
  | [] => Incomplete
  | b :: bs =>
      match utf8_char_width b with
      | 1 => Decoded b bs
      | 2 =>
          match bs with
          | [] => Incomplete
          | b1 :: bs =>
              if is_cont b1 then Decoded ((b - 192) * 64 + (b1 - 128))%N bs else Invalid 1
          end
      | 3 =>
          match bs with
          | [] => Incomplete
          | b1 :: bs =>
              if second_ok b b1 then
                match bs with
                | [] => Incomplete
                | b2 :: bs =>
                    if is_cont b2
                    then Decoded (((b - 224) * 64 + (b1 - 128)) * 64 + (b2 - 128))%N bs
                    else Invalid 2
                end
              else Invalid 1
          end
      | 4 =>
          match bs with
          | [] => Incomplete
          | b1 :: bs =>
              if second_ok b b1 then
                match bs with
                | [] => Incomplete
                | b2 :: bs =>
                    if is_cont b2 then
                      match bs with
                      | [] => Incomplete
                      | b3 :: bs =>
                          if is_cont b3
                          then Decoded ((((b - 240) * 64 + (b1 - 128)) * 64 + (b2 - 128)) * 64 + (b3 - 128))%N bs
                          else Invalid 3
                      end
                    else Invalid 2
                end
              else Invalid 1
          end
      | _ => Invalid 1
      end
  end.

(** The decoded prefix, the bytes after it, and why decoding stopped: the end
    ([None]) or an error with its [error_len]. *)
Fixpoint decode (fuel : nat) (bs : list N) : str * list N * option (option nat) :=
  match bs with
  | [] => ([], [], None)
  | _ :: _ =>
      match fuel with
      | O => ([], bs, None)
      | S fuel =>
          match decode_one bs with
          | Decoded c bs => let '(t, rest, e) := decode fuel bs in (c :: t, rest, e)
          | Invalid n => ([], bs, Some (Some n))
          | Incomplete => ([], bs, Some None)
          end
      end
  end.

Record Utf8Error := { err_valid_up_to : nat; err_error_len : option nat }.

Definition from_utf8 (bs : list N) : res Utf8Error str :=
  match decode (length bs) bs with
  | (t, _, None) => Ok t
  | (_, rest, Some n) => Err {| err_valid_up_to := length bs - length rest; err_error_len := n |}
  end.

(** ** The parser *)
Inductive Utf8StreamParserError :=
  | InvalidUtf8 (valid_up_to error_len : nat)
  | IncompleteUtf8AtEof.

Record Utf8StreamParser (P : Type) := { inner : P; pending_utf8 : list N }.
Arguments Build_Utf8StreamParser {P}.
Arguments inner {P}.
Arguments pending_utf8 {P}.

Section utf8_stream.
Context {P X : Type} {SP : StreamTextParser P X}.

Definition new_utf8 (inner : P) : Utf8StreamParser P := {| inner := inner; pending_utf8 := [] |}.

Definition push_bytes (p : Utf8StreamParser P) (chunk : list N)
    : Utf8StreamParser P * res Utf8StreamParserError (StreamTextChunk X) :=
  let old_len := length (pending_utf8 p) in
  let pending := pending_utf8 p ++ chunk in
  match from_utf8 pending with
  | Ok text =>
      let '(i, out) := push_str (inner p) text in
      ({| inner := i; pending_utf8 := [] |}, Ok out)
  | Err err =>
      match err_error_len err with
      | Some error_len =>
          ({| inner := inner p; pending_utf8 := take old_len pending |},
           Err (InvalidUtf8 (err_valid_up_to err) error_len))
      | None =>
          let valid_up_to := err_valid_up_to err in
          if valid_up_to =? 0 then ({| inner := inner p; pending_utf8 := pending |}, Ok empty_chunk)
          else
            match from_utf8 (take valid_up_to pending) with
            | Ok text =>
                let '(i, out) := push_str (inner p) text in
                ({| inner := i; pending_utf8 := drop valid_up_to pending |}, Ok out)
            | Err prefix_err =>
                ({| inner := inner p; pending_utf8 := take old_len pending |},
                 Err (InvalidUtf8 (err_valid_up_to prefix_err) (default 0 (err_error_len prefix_err))))
            | Panic => (p, Panic)
            end
      end
  | Panic => (p, Panic)
  end.

Definition finish_utf8 (p : Utf8StreamParser P)
    : Utf8StreamParser P * res Utf8StreamParserError (StreamTextChunk X) :=
  let flush (i : P) (out : StreamTextChunk X) :=
    let '(i, tail) := finish i in
    ({| inner := i; pending_utf8 := [] |}, Ok (chunk_app out tail)) in
  if is_empty (pending_utf8 p) then flush (inner p) empty_chunk
  else
    match from_utf8 (pending_utf8 p) with
    | Ok text => let '(i, out) := push_str (inner p) text in flush i out
    | Err err =>
        (p, Err match err_error_len err with
                | Some error_len => InvalidUtf8 (err_valid_up_to err) error_len
                | None => IncompleteUtf8AtEof
                end)
    | Panic => (p, Panic)
    end.

Definition into_inner (p : Utf8StreamParser P) : res Utf8StreamParserError P :=
  if is_empty (pending_utf8 p) then Ok (inner p)
  else
    match from_utf8 (pending_utf8 p) with
    | Ok _ => Ok (inner p)
    | Err err =>
        Err match err_error_len err with
            | Some error_len => InvalidUtf8 (err_valid_up_to err) error_len
            | None => IncompleteUtf8AtEof
            end
    | Panic => Panic
    end.
Definition into_inner_lossy (p : Utf8StreamParser P) : P := inner p.
End utf8_stream.

(** ** Encoding and decoding *)

(** A Unicode scalar value: what a Rust [char] holds. *)
Definition is_scalar (c : char) : bool := ((c <? 55296) || ((57344 <=? c) && (c <? 1114112)))%N.
Definition scalars (t : str) : Prop := Forall (λ c, is_scalar c = true) t.

(** Linear arithmetic with quotients and remainders, and boolean tests turned
    into it. *)
Ltac Zify.zify_post_hook ::= Z.to_euclidean_division_equations.
Ltac byte_tests :=
  unfold is_scalar, second_ok, utf8_char_width, is_cont in *; unfold in_range in *;
  repeat match goal with
  | H : context [(?a <? ?b)%N] |- _ => destruct (N.ltb_spec a b); simpl in H
  | H : context [(?a <=? ?b)%N] |- _ => destruct (N.leb_spec a b); simpl in H
  | H : context [(?a =? ?b)%N] |- _ => destruct (N.eqb_spec a b); simpl in H
  | |- context [(?a <? ?b)%N] => destruct (N.ltb_spec a b); simpl
  | |- context [(?a <=? ?b)%N] => destruct (N.leb_spec a b); simpl
  | |- context [(?a =? ?b)%N] => destruct (N.eqb_spec a b); simpl
  end; try done; try lia.

Lemma width_cases b :
  (b < 128)%N ∧ utf8_char_width b = 1
  ∨ (194 ≤ b ≤ 223)%N ∧ utf8_char_width b = 2
  ∨ (224 ≤ b ≤ 239)%N ∧ utf8_char_width b = 3
  ∨ (240 ≤ b ≤ 244)%N ∧ utf8_char_width b = 4
  ∨ utf8_char_width b = 0.
Proof. byte_tests; intuition lia. Qed.

Lemma width_2 b : (194 ≤ b ≤ 223)%N → utf8_char_width b = 2.
Proof. intros. byte_tests. Qed.
Lemma width_3 b : (224 ≤ b ≤ 239)%N → utf8_char_width b = 3.
Proof. intros. byte_tests. Qed.
Lemma width_4 b : (240 ≤ b ≤ 244)%N → utf8_char_width b = 4.
Proof. intros. byte_tests. Qed.
Lemma is_cont_spec b : is_cont b = true ↔ (128 ≤ b ≤ 191)%N.
Proof. byte_tests; intuition lia. Qed.
Lemma second_ok_cont b b1 : second_ok b b1 = true → (128 ≤ b1 ≤ 191)%N.
Proof. intros. byte_tests. Qed.
Lemma second_ok_3 b b1 :
  (224 ≤ b ≤ 239)%N → second_ok b b1 = true ↔
  (128 ≤ b1 ≤ 191)%N ∧ (b = 224%N → 160 ≤ b1)%N ∧ (b = 237%N → b1 ≤ 159)%N.
Proof. intros. byte_tests; intuition lia. Qed.
Lemma second_ok_4 b b1 :
  (240 ≤ b ≤ 244)%N → second_ok b b1 = true ↔
  (128 ≤ b1 ≤ 191)%N ∧ (b = 240%N → 144 ≤ b1)%N ∧ (b = 244%N → b1 ≤ 143)%N.
Proof. intros. byte_tests; intuition lia. Qed.
Lemma second_ok_3_true b b1 :
  (224 ≤ b ≤ 239)%N → (128 ≤ b1 ≤ 191)%N → (b = 224 → 160 ≤ b1)%N → (b = 237 → b1 ≤ 159)%N →
  second_ok b b1 = true.
Proof. intros. by apply second_ok_3. Qed.
Lemma second_ok_4_true b b1 :
  (240 ≤ b ≤ 244)%N → (128 ≤ b1 ≤ 191)%N → (b = 240 → 144 ≤ b1)%N → (b = 244 → b1 ≤ 143)%N →
  second_ok b b1 = true.
Proof. intros. by apply second_ok_4. Qed.
Lemma is_scalar_spec c : is_scalar c = true ↔ (c < 55296 ∨ 57344 ≤ c < 1114112)%N.
Proof. byte_tests; intuition lia. Qed.

(** The four lengths of an encoded character. *)
Lemma utf8_char_cases c :
  is_scalar c = true →
  (c < 128)%N ∧ utf8_char c = [c]
  ∨ (128 ≤ c < 2048)%N ∧ utf8_char c = [192 + c / 64; 128 + c mod 64]%N
  ∨ (2048 ≤ c < 65536)%N ∧ utf8_char c = [224 + c / 64 / 64; 128 + (c / 64) mod 64; 128 + c mod 64]%N
  ∨ (65536 ≤ c < 1114112)%N
    ∧ utf8_char c = [240 + c / 64 / 64 / 64; 128 + (c / 64 / 64) mod 64; 128 + (c / 64) mod 64; 128 + c mod 64]%N.
Proof.
  intros Hc%is_scalar_spec. rewrite !N.Div0.div_div. unfold utf8_char.
  destruct (N.ltb_spec c 128); [left; split; [lia|done]|right].
  destruct (N.ltb_spec c 2048); [left; split; [lia|done]|right].
  destruct (N.ltb_spec c 65536); [left; split; [lia|done]|right]. split; [lia|done].
Qed.

Lemma decode_one_char c r : is_scalar c = true → decode_one (utf8_char c ++ r) = Decoded c r.
Proof.
  intros Hc. pose proof (proj1 (is_scalar_spec c) Hc) as Hr.
  destruct (utf8_char_cases c Hc) as [[H ->]|[[H ->]|[[H ->]|[H ->]]]]; cbn [app decode_one].
  - assert (utf8_char_width c = 1) as -> by byte_tests. done.
  - rewrite width_2 by lia. rewrite (proj2 (is_cont_spec _)) by lia. f_equal. lia.
  - rewrite width_3 by lia. rewrite second_ok_3_true by lia.
    rewrite (proj2 (is_cont_spec _)) by lia. f_equal. lia.
  - rewrite width_4 by lia. rewrite second_ok_4_true by lia.
    rewrite !(proj2 (is_cont_spec _)) by lia. f_equal. lia.
Qed.

(** A part of a character is incomplete, never invalid. *)
Lemma decode_one_part c bs more :
  is_scalar c = true → bs ++ more = utf8_char c → more ≠ [] → decode_one bs = Incomplete.
Proof.
  intros Hc Hbs Hm. pose proof (proj1 (is_scalar_spec c) Hc) as Hr.
  destruct (utf8_char_cases c Hc) as [[H E]|[[H E]|[[H E]|[H E]]]]; rewrite E in Hbs;
    destruct bs as [|b0 [|b1 [|b2 [|b3 [|b4 bs]]]]]; simplify_eq/=; try done.
  - by rewrite width_2 by lia.
  - by rewrite width_3 by lia.
  - rewrite width_3 by lia. by rewrite second_ok_3_true by lia.
  - by rewrite width_4 by lia.
  - rewrite width_4 by lia. by rewrite second_ok_4_true by lia.
  - rewrite width_4 by lia. rewrite second_ok_4_true by lia.
    by rewrite (proj2 (is_cont_spec _)) by lia.
Qed.

Ltac unfold_utf8 :=
  unfold utf8_char; change 262144%N with (64 * 64 * 64)%N; change 4096%N with (64 * 64)%N;
  rewrite <-!N.Div0.div_div.

(** What is decoded was encoded so, and is a scalar value. *)
Lemma decode_one_Decoded bs c r :
  decode_one bs = Decoded c r → bs = utf8_char c ++ r ∧ is_scalar c = true.
Proof.
  destruct bs as [|b bs]; [done|]. cbn [decode_one].
  destruct (width_cases b) as [[H ->]|[[H ->]|[[H ->]|[[H ->]| ->]]]]; [..|done].
  - intros [= <- <-]. split; [|apply is_scalar_spec; lia]. unfold utf8_char.
    by rewrite (proj2 (N.ltb_lt b 128)) by lia.
  - destruct bs as [|b1 bs]; [done|]. destruct (is_cont b1) eqn:E1; [|done]. intros [= <- <-].
    apply is_cont_spec in E1. split; [|apply is_scalar_spec; lia]. unfold_utf8.
    rewrite (proj2 (N.ltb_ge _ 128)), (proj2 (N.ltb_lt _ 2048)) by lia. cbn [app]. repeat f_equal; lia.
  - destruct bs as [|b1 bs]; [done|]. destruct (second_ok b b1) eqn:E1; [|done].
    destruct bs as [|b2 bs]; [done|]. destruct (is_cont b2) eqn:E2; [|done]. intros [= <- <-].
    apply second_ok_3 in E1 as (E1 & E3 & E4); [|done]. apply is_cont_spec in E2.
    split; [|apply is_scalar_spec; lia]. unfold_utf8.
    rewrite (proj2 (N.ltb_ge _ 128)), (proj2 (N.ltb_ge _ 2048)), (proj2 (N.ltb_lt _ 65536)) by lia.
    cbn [app]. repeat f_equal; lia.
  - destruct bs as [|b1 bs]; [done|]. destruct (second_ok b b1) eqn:E1; [|done].
    destruct bs as [|b2 bs]; [done|]. destruct (is_cont b2) eqn:E2; [|done].
    destruct bs as [|b3 bs]; [done|]. destruct (is_cont b3) eqn:E5; [|done]. intros [= <- <-].
    apply second_ok_4 in E1 as (E1 & E3 & E4); [|done]. apply is_cont_spec in E2, E5.
    split; [|apply is_scalar_spec; lia]. unfold_utf8.
    rewrite (proj2 (N.ltb_ge _ 128)), (proj2 (N.ltb_ge _ 2048)), (proj2 (N.ltb_ge _ 65536)) by lia.
    cbn [app]. repeat f_equal; lia.
Qed.

(** An incomplete sequence is the start of a character. *)
Lemma decode_one_Incomplete bs :
  decode_one bs = Incomplete → ∃ more c, bs ++ more = utf8_char c ∧ is_scalar c = true.
Proof.
  assert (∀ more c, decode_one (bs ++ more) = Decoded c [] →
    ∃ more c, bs ++ more = utf8_char c ∧ is_scalar c = true) as Hdone.
  { intros more c [H Hs]%decode_one_Decoded. rewrite app_nil_r in H. eauto. }
  destruct bs as [|b bs]; [intros _; apply (Hdone [0%N] 0%N); reflexivity|]. cbn [decode_one].
  destruct (width_cases b) as [[H W]|[[H W]|[[H W]|[[H W]|W]]]]; rewrite W; [done|..|done].
  - destruct bs as [|b1 bs]; [|by destruct (is_cont b1)]. intros _.
    eapply (Hdone [128%N]). cbn [app decode_one]. by rewrite W.
  - destruct bs as [|b1 bs].
    + intros _. eapply (Hdone [if (b =? 224)%N then 160%N else 128%N; 128%N]). cbn [app decode_one].
      rewrite W. rewrite (proj2 (second_ok_3 _ _ H)); [done|].
      destruct (N.eqb_spec b 224); lia.
    + destruct (second_ok b b1) eqn:E1; [|done]. destruct bs as [|b2 bs]; [|by destruct (is_cont b2)].
      intros _. eapply (Hdone [128%N]). cbn [app decode_one]. by rewrite W, E1.
  - destruct bs as [|b1 bs].
    + intros _. eapply (Hdone [if (b =? 240)%N then 144%N else 128%N; 128%N; 128%N]). cbn [app decode_one].
      rewrite W. rewrite (proj2 (second_ok_4 _ _ H)); [done|].
      destruct (N.eqb_spec b 240); lia.
    + destruct (second_ok b b1) eqn:E1; [|done]. destruct bs as [|b2 bs].
      * intros _. eapply (Hdone [128%N; 128%N]). cbn [app decode_one]. by rewrite W, E1.
      * destruct (is_cont b2) eqn:E2; [|done]. destruct bs as [|b3 bs]; [|by destruct (is_cont b3)].
        intros _. eapply (Hdone [128%N]). cbn [app decode_one]. by rewrite W, E1, E2.
Qed.
Ltac Zify.zify_post_hook ::= idtac.

(** Bytes that start no complete character: nothing, or the start of one. *)
Definition partial (bs : list N) : Prop := bs = [] ∨ decode_one bs = Incomplete.

Lemma partial_short bs : partial bs → length bs ≤ 3.
Proof.
  intros [->|H]; [simpl; lia|]. destruct bs as [|b bs]; [simpl; lia|].
  revert H. cbn [decode_one]. repeat case_match; simplify_eq/=; try done; intros; lia.
Qed.

(** What [decode] returns. *)
Definition stop (rest : list N) : option (option nat) :=
  match rest with
  | [] => None
  | _ => match decode_one rest with Invalid n => Some (Some n) | _ => Some None end
  end.

Lemma decode_text fuel t rest :
  scalars t → length (as_bytes t ++ rest) ≤ fuel →
  (∀ c r, decode_one rest ≠ Decoded c r) →
  decode fuel (as_bytes t ++ rest) = (t, rest, stop rest).
Proof.
  intros Ht. revert fuel. induction Ht as [|c t Hc _ IH]; intros fuel Hf Hr.
  - cbn [as_bytes fmap list_fmap concat app] in *. destruct rest as [|b rest]; [by destruct fuel|].
    destruct fuel as [|fuel]; [simpl in Hf; lia|]. cbn [decode stop].
    destruct (decode_one (b :: rest)) as [c r|n|] eqn:E; [|done..]. by destruct (Hr c r).
  - rewrite as_bytes_cons, <-app_assoc in *. destruct (utf8_char c) as [|b bs] eqn:E; [by destruct (utf8_char_ne c)|].
    destruct fuel as [|fuel]; [simpl in Hf; lia|]. cbn [decode app].
    change (b :: bs ++ as_bytes t ++ rest) with ((b :: bs) ++ (as_bytes t ++ rest)).
    rewrite <-E, decode_one_char by done. rewrite IH; [done| |done].
    simpl in Hf. rewrite length_app in Hf. lia.
Qed.

(** Every byte string is encoded text followed by bytes that decode no further. *)
Lemma longest_text bs :
  ∃ t rest, bs = as_bytes t ++ rest ∧ scalars t ∧ (∀ c r, decode_one rest ≠ Decoded c r).
Proof.
  induction bs as [bs IH] using (induction_ltof1 _ length). unfold ltof in IH.
  destruct (decode_one bs) as [c r|n|] eqn:E.
  - apply decode_one_Decoded in E as [-> Hc]. destruct (IH r) as (t & rest & -> & Ht & Hr).
    + rewrite length_app. pose proof (utf8_char_ne c). destruct (utf8_char c); [done|simpl; lia].
    + exists (c :: t), rest. rewrite as_bytes_cons, app_assoc. split; [done|]. by split; [constructor|].
  - exists [], bs. split; [done|]. split; [constructor|congruence].
  - exists [], bs. split; [done|]. split; [constructor|congruence].
Qed.

Lemma from_utf8_text t rest :
  scalars t → (∀ c r, decode_one rest ≠ Decoded c r) →
  from_utf8 (as_bytes t ++ rest) =
    match stop rest with
    | None => Ok t
    | Some n => Err {| err_valid_up_to := length (as_bytes t); err_error_len := n |}
    end.
Proof.
  intros Ht Hr. unfold from_utf8. rewrite decode_text by done.
  destruct (stop rest); [|done]. repeat f_equal. rewrite length_app. lia.
Qed.

(** The start of encoded text is encoded text and the start of a character. *)
Lemma text_prefix text bs more :
  scalars text → bs ++ more = as_bytes text →
  ∃ t1 t2 part, text = t1 ++ t2 ∧ bs = as_bytes t1 ++ part ∧ part ++ more = as_bytes t2 ∧ partial part.
Proof.
  intros Ht. revert bs. induction Ht as [|c text Hc Ht IH]; intros bs Hbs.
  - apply app_nil in Hbs as [-> ->]. exists [], [], []. repeat split. by left.
  - rewrite as_bytes_cons in Hbs.
    destruct (decide (length (utf8_char c) ≤ length bs)) as [Hle|Hgt].
    + destruct (app_eq_inv _ _ _ _ Hbs) as [(k & -> & Hk)|(k & Hk & ->)].
      * destruct (IH k) as (t1 & t2 & part & -> & -> & Hp & Hpart); [done|].
        exists (c :: t1), t2, part. rewrite as_bytes_cons, app_assoc. done.
      * assert (k = []) as -> by (apply (f_equal length) in Hk; rewrite length_app in Hk; destruct k; [done|simpl in Hk; lia]).
        rewrite app_nil_r in Hk. subst bs. exists [c], text, []. rewrite as_bytes_cons, !app_nil_r.
        repeat split. by left.
    + exists [], (c :: text), bs. repeat split; [done|]. destruct bs as [|b bs]; [by left|]. right.
      destruct (app_eq_inv _ _ _ _ Hbs) as [(k & Hk & _)|(k & Hk & _)].
      * exfalso. apply (f_equal length) in Hk. rewrite length_app in Hk. lia.
      * apply (decode_one_part c (b :: bs) k); [done..|]. intros ->. rewrite app_nil_r in Hk.
        rewrite Hk in Hgt. lia.
Qed.

(** Bytes that may still become text: no later bytes are needed to see an error. *)
Definition extendable (bs : list N) : Prop :=
  ∃ text more, scalars text ∧ bs ++ more = as_bytes text.

Lemma partial_extendable t part :
  scalars t → partial part → extendable (as_bytes t ++ part).
Proof.
  intros Ht [->|H].
  - exists t, []. by rewrite !app_nil_r.
  - destruct (decode_one_Incomplete part H) as (more & c & Hm & Hc).
    exists (t ++ [c]), more. split; [apply Forall_app; by repeat constructor|].
    rewrite as_bytes_app, <-app_assoc, Hm, as_bytes_cons. unfold as_bytes at 3. simpl. by rewrite app_nil_r.
Qed.

Lemma partial_no_char part c r : partial part → decode_one part ≠ Decoded c r.
Proof. intros [->| ->]; done. Qed.

Lemma partial_text_nil part t : partial part → part = as_bytes t → scalars t → part = [].
Proof.
  intros Hp -> Ht. destruct Ht as [|c t Hc Ht]; [done|]. exfalso.
  rewrite as_bytes_cons in Hp. apply (partial_no_char _ c (as_bytes t) Hp). by apply decode_one_char.
Qed.

(** ** Runs over byte pieces *)
Section utf8_runs.
Context {P X : Type} {SP : StreamTextParser P X}.
Implicit Types p : Utf8StreamParser P.

(** Pushing byte pieces until one is refused, then the flush. *)
Fixpoint feed_bytes p (chunks : list (list N))
    : Utf8StreamParser P * res Utf8StreamParserError (StreamTextChunk X) :=
  match chunks with
  | [] => (p, Ok empty_chunk)
  | c :: chunks =>
      match push_bytes p c with
      | (p, Ok out) =>
          let '(p, r) := feed_bytes p chunks in (p, chunk_app out <$> r)
      | (p, r) => (p, r)
      end
  end.
Definition byte_stream p (chunks : list (list N)) : res Utf8StreamParserError (StreamTextChunk X) :=
  match feed_bytes p chunks with
  | (p, Ok out) => chunk_app out <$> (finish_utf8 p).2
  | (_, r) => r
  end.

Lemma feed_singleton (i : P) t : feed i [t] = push_str i t.
Proof. cbn [feed]. destruct (push_str i t). by rewrite chunk_app_nil_r. Qed.

Lemma feed_app (i : P) cs cs' :
  feed i (cs ++ cs') = (let '(j, o) := feed i cs in let '(k, o') := feed j cs' in (k, chunk_app o o')).
Proof.
  revert i. induction cs as [|c cs IH]; intros i; cbn [feed app].
  - destruct (feed i cs') as [j o]. by rewrite chunk_app_nil_l.
  - destruct (push_str i c) as [j o]. rewrite IH. destruct (feed j cs) as [k o1].
    destruct (feed k cs') as [k' o2]. by rewrite chunk_app_assoc.
Qed.

(** A piece that leaves a partial character behind: the text before it is
    pushed, at most once. *)
Lemma push_bytes_text p chunk t part :
  pending_utf8 p ++ chunk = as_bytes t ++ part → scalars t → partial part →
  ∃ cs i out, concat cs = t ∧ feed (inner p) cs = (i, out)
    ∧ push_bytes p chunk = ({| inner := i; pending_utf8 := part |}, Ok out).
Proof.
  intros Hb Ht Hp. unfold push_bytes. rewrite Hb.
  rewrite from_utf8_text by (done || (intros; by apply partial_no_char)).
  destruct (decide (part = [])) as [->|Hne].
  - exists [t]. cbn [stop concat]. rewrite feed_singleton, app_nil_r.
    destruct (push_str (inner p) t) as [i out]. eauto.
  - destruct Hp as [|Hp]; [done|].
    assert (stop part = Some None) as -> by (unfold stop; destruct part; [done|by rewrite Hp]).
    cbn [err_error_len err_valid_up_to]. destruct (length (as_bytes t) =? 0) eqn:E.
    + assert (t = []) as ->.
      { destruct t as [|c t]; [done|]. apply Nat.eqb_eq, nil_length_inv in E.
        rewrite as_bytes_cons in E. apply app_nil in E as [E _]. by destruct (utf8_char_ne c). }
      by exists [], (inner p), empty_chunk.
    + rewrite take_app_length. pose proof (from_utf8_text t [] Ht ltac:(done)) as Hf.
      rewrite app_nil_r in Hf. rewrite Hf. cbn [stop]. rewrite drop_app_length.
      exists [t]. cbn [concat]. rewrite feed_singleton, app_nil_r.
      destruct (push_str (inner p) t) as [i out]. eauto.
Qed.

(** A piece with an invalid sequence is refused and forgotten. *)
Lemma push_bytes_invalid p chunk t rest n :
  pending_utf8 p ++ chunk = as_bytes t ++ rest → scalars t → decode_one rest = Invalid n →
  push_bytes p chunk = (p, Err (InvalidUtf8 (length (as_bytes t)) n)).
Proof.
  intros Hb Ht Hn. unfold push_bytes. rewrite Hb, from_utf8_text by (done || (intros; congruence)).
  assert (stop rest = Some (Some n)) as -> by (unfold stop; destruct rest; [done|by rewrite Hn]).
  rewrite <-Hb, take_app_length. by destruct p.
Qed.

Lemma push_bytes_cases p chunk :
  ∃ t rest, pending_utf8 p ++ chunk = as_bytes t ++ rest ∧ scalars t
    ∧ (partial rest ∨ ∃ n, decode_one rest = Invalid n).
Proof.
  destruct (longest_text (pending_utf8 p ++ chunk)) as (t & rest & Hb & Ht & Hr).
  exists t, rest. split; [done|]. split; [done|].
  destruct (decode_one rest) as [c r|n|] eqn:E; [by destruct (Hr c r)|eauto|]. left. by right.
Qed.

Lemma not_extendable t rest n :
  scalars t → decode_one rest = Invalid n → ¬ extendable (as_bytes t ++ rest).
Proof.
  intros Ht Hn (text & more & Htext & Hm). revert text Htext Hm.
  induction Ht as [|c t Hc Ht IH]; intros text Htext Hm.
  - destruct (text_prefix text rest more Htext Hm) as (t1 & t2 & part & -> & -> & _ & Hp).
    apply Forall_app in Htext as [Ht1 _]. destruct Ht1 as [|c t1 Hc _].
    + destruct Hp as [->|Hp]; [done|]. cbn in Hn. congruence.
    + rewrite as_bytes_cons, <-app_assoc, decode_one_char in Hn by done. done.
  - rewrite as_bytes_cons, <-!app_assoc in Hm. destruct Htext as [|d text Hd Htext].
    { apply app_nil in Hm as [Hm _]. by destruct (utf8_char_ne c). }
    assert (decode_one (as_bytes (d :: text)) = Decoded c (as_bytes t ++ rest ++ more)) as Hdec
      by (rewrite <-Hm; by apply decode_one_char).
    rewrite as_bytes_cons, decode_one_char in Hdec by done. injection Hdec as -> Hrest.
    apply (IH text Htext). by rewrite <-app_assoc.
Qed.

(** A pushed piece is refused exactly when the held-back bytes and the piece
    are not the start of any UTF-8 text; a refusal names the length of the
    longest valid text and leaves the parser, the wrapped one included, as it
    was; an accepted piece is decoded completely except for the start of one
    character, which is held back. *)
Theorem push_bytes_refuses_exactly_invalid p chunk :
  (extendable (pending_utf8 p ++ chunk) →
     ∃ cs i out part, push_bytes p chunk = ({| inner := i; pending_utf8 := part |}, Ok out)
       ∧ feed (inner p) cs = (i, out)
       ∧ pending_utf8 p ++ chunk = as_bytes (concat cs) ++ part ∧ partial part)
  ∧ (¬ extendable (pending_utf8 p ++ chunk) →
     ∃ t n rest, push_bytes p chunk = (p, Err (InvalidUtf8 (length (as_bytes t)) n))
       ∧ pending_utf8 p ++ chunk = as_bytes t ++ rest ∧ scalars t ∧ decode_one rest = Invalid n).
Proof.
  destruct (push_bytes_cases p chunk) as (t & rest & Hb & Ht & Hr). split; intros Hext.
  - destruct Hr as [Hr|[n Hn]].
    + destruct (push_bytes_text p chunk t rest Hb Ht Hr) as (cs & i & out & Hcs & Hf & Hp).
      exists cs, i, out, rest. by rewrite Hcs.
    + rewrite Hb in Hext. by apply (not_extendable t rest n) in Hext.
  - destruct Hr as [Hr|[n Hn]].
    + destruct Hext. rewrite Hb. by apply partial_extendable.
    + exists t, n, rest. split; [by eapply push_bytes_invalid|done].
Qed.

(** The flush of a parser that holds back at most a partial character. *)
Lemma finish_partial p :
  partial (pending_utf8 p) →
  (finish_utf8 p).2 = (if is_empty (pending_utf8 p) then Ok (finish (inner p)).2 else Err IncompleteUtf8AtEof).
Proof.
  intros Hp. unfold finish_utf8. destruct (pending_utf8 p) as [|b bs] eqn:E; cbn [is_empty].
  - destruct (finish (inner p)) as [i tail]. by rewrite chunk_app_nil_l.
  - rewrite <-E in *. pose proof (from_utf8_text [] (pending_utf8 p) ltac:(constructor)
      ltac:(intros; by apply partial_no_char)) as Hf. cbn [as_bytes fmap list_fmap concat app] in Hf.
    rewrite Hf. destruct Hp as [Hp|Hp]; [congruence|]. unfold stop. rewrite E, <-E, Hp. done.
Qed.

(** Pushing keeps the held-back bytes a partial character of at most three
    bytes; so the flush fails, with [IncompleteUtf8AtEof], exactly when bytes
    are held back, and [into_inner] returns the wrapped parser exactly when
    none are. *)
Theorem held_back_bytes_are_partial p chunk :
  partial (pending_utf8 p) →
  partial (pending_utf8 (push_bytes p chunk).1)
  ∧ length (pending_utf8 p) ≤ 3
  ∧ (finish_utf8 p).2 = (if is_empty (pending_utf8 p) then Ok (finish (inner p)).2 else Err IncompleteUtf8AtEof)
  ∧ into_inner p = (if is_empty (pending_utf8 p) then Ok (inner p) else Err IncompleteUtf8AtEof).
Proof.
  intros Hp. split; [|split; [by apply partial_short|split; [by apply finish_partial|]]].
  - destruct (push_bytes_cases p chunk) as (t & rest & Hb & Ht & [Hr|[n Hn]]).
    + by destruct (push_bytes_text p chunk t rest Hb Ht Hr) as (cs & i & out & _ & _ & ->).
    + by rewrite (push_bytes_invalid p chunk t rest n).
  - unfold into_inner. destruct (is_empty (pending_utf8 p)) eqn:E; [done|].
    pose proof (from_utf8_text [] (pending_utf8 p) ltac:(constructor)
      ltac:(intros; by apply partial_no_char)) as Hf. cbn [as_bytes fmap list_fmap concat app] in Hf.
    rewrite Hf. destruct Hp as [Hp|Hp]; [by rewrite Hp in E|]. unfold stop. rewrite Hp.
    by destruct (pending_utf8 p).
Qed.

Lemma feed_bytes_text chunks p text more :
  scalars text → (pending_utf8 p ++ concat chunks) ++ more = as_bytes text →
  partial (pending_utf8 p) →
  ∃ cs i out part t2, text = concat cs ++ t2 ∧ feed (inner p) cs = (i, out)
    ∧ feed_bytes p chunks = ({| inner := i; pending_utf8 := part |}, Ok out)
    ∧ part ++ more = as_bytes t2 ∧ partial part.
Proof.
  intros Htext. revert p text Htext. induction chunks as [|c chunks IH]; intros p text Htext Hb Hp.
  - exists [], (inner p), empty_chunk, (pending_utf8 p), text. cbn [concat] in Hb.
    rewrite app_nil_r in Hb. by destruct p.
  - cbn [concat feed_bytes] in *. rewrite app_assoc, <-(app_assoc (_ ++ c)) in Hb.
    destruct (text_prefix text _ _ Htext Hb) as (t1 & t2 & part & -> & Hpre & Hrest & Hpart).
    apply Forall_app in Htext as [Ht1 Ht2].
    destruct (push_bytes_text p c t1 part Hpre Ht1 Hpart) as (cs & i & out & Hcs & Hf & ->).
    destruct (IH {| inner := i; pending_utf8 := part |} t2 Ht2) as
      (cs' & j & out' & part' & t3 & -> & Hf' & -> & Hrest' & Hpart'); [by rewrite <-app_assoc|done|].
    exists (cs ++ cs'), j, (chunk_app out out'), part', t3. cbn [inner] in Hf'.
    rewrite concat_app, Hcs, feed_app, Hf, Hf', app_assoc. done.
Qed.

Lemma byte_stream_text chunks (fresh : P) text :
  scalars text → concat chunks = as_bytes text →
  ∃ cs, concat cs = text ∧ byte_stream (new_utf8 fresh) chunks = Ok (stream fresh cs).
Proof.
  intros Htext Hb.
  destruct (feed_bytes_text chunks (new_utf8 fresh) text [] Htext) as
    (cs & i & out & part & t2 & -> & Hf & Hfb & Hrest & Hpart); [by rewrite app_nil_r|by left|].
  rewrite app_nil_r in Hrest. apply Forall_app in Htext as [_ Ht2].
  assert (part = []) as -> by by eapply partial_text_nil.
  assert (t2 = []) as ->.
  { destruct t2 as [|c t2]; [done|]. rewrite as_bytes_cons in Hrest. symmetry in Hrest.
    apply app_nil in Hrest as [Hc _]. by destruct (utf8_char_ne c). }
  exists cs. rewrite app_nil_r. split; [done|]. unfold byte_stream, stream. rewrite Hfb.
  cbn [new_utf8 inner] in Hf. rewrite Hf, finish_partial by by left. done.
Qed.

(** Encoded text cut into byte pieces anywhere, also inside a character,
    gives what the wrapped parser gives on the whole text: no piece is
    refused, the flush succeeds, the visible text and (up to the wrapped
    parser's own merging) the payloads are the same. *)
Theorem byte_cuts_are_transparent (fresh : P) (norm : list X → list X) chunks text :
  Transparent SP fresh norm → scalars text → concat chunks = as_bytes text →
  ∃ out, byte_stream (new_utf8 fresh) chunks = Ok out
    ∧ visible_text out = visible_text (stream fresh [text])
    ∧ norm (extracted out) = norm (extracted (stream fresh [text])).
Proof.
  intros Htr Htext Hb. destruct (byte_stream_text chunks fresh text Htext Hb) as (cs & <- & Hs).
  exists (stream fresh cs). split; [done|]. split; [apply cut_visible|apply cut_extracted].
Qed.
End utf8_runs.

(** ** Examples *)
(** A two-byte character cut in the middle, then a plan block. *)
Definition sample_text : str := 233%N :: LF :: OPEN_TAG ++ LF :: lit "go" ++ LF :: CLOSE_TAG.
Lemma byte_cuts_witness :
  ∃ out, byte_stream (new_utf8 new_plan) [take 1 (as_bytes sample_text); drop 1 (as_bytes sample_text)] = Ok out
    ∧ visible_text out = [233%N; LF].
Proof.
  destruct (byte_cuts_are_transparent new_plan merge_plan
    [take 1 (as_bytes sample_text); drop 1 (as_bytes sample_text)] sample_text plan_transparent)
    as (out & H & Hv & _).
  - repeat constructor.
  - vm_compute. reflexivity.
  - exists out. split; [exact H|]. rewrite Hv. vm_compute. reflexivity.
Defined.

Lemma push_bytes_witness :
  ∃ t n rest, push_bytes (new_utf8 new_plan) [111; 107; 255]%N
      = (new_utf8 new_plan, Err (InvalidUtf8 (length (as_bytes t)) n))
    ∧ [111; 107; 255]%N = as_bytes t ++ rest ∧ scalars t ∧ decode_one rest = Invalid n.
Proof.
  apply (push_bytes_refuses_exactly_invalid (new_utf8 new_plan) [111; 107; 255]%N).
  apply (not_extendable (lit "ok") [255%N] 1); [repeat constructor|reflexivity].
Defined.

Lemma held_back_witness :
  (finish_utf8 {| inner := new_plan; pending_utf8 := [226; 130]%N |}).2 = Err IncompleteUtf8AtEof.
Proof.
  destruct (held_back_bytes_are_partial {| inner := new_plan; pending_utf8 := [226; 130]%N |} [])
    as (_ & _ & H & _); [right; reflexivity|]. exact H.
Defined.
