(* ===== verification/AssistantText.v ===== *)
(** * stream-parser: assistant text

    [utils/stream-parser/src/assistant_text.rs]: the citation parser in front,
    and in plan mode the plan parser behind it, on the text that the citation
    parser lets through. *)
From S2P Require Import Prelude Str StreamText InlineTag TaggedLine ProposedPlan.

Record AssistantTextChunk := {
  at_visible_text : str;
  at_citations : list str;
  at_plan_segments : list ProposedPlanSegment;
}.
Definition empty_assistant : AssistantTextChunk :=
  {| at_visible_text := []; at_citations := []; at_plan_segments := [] |}.
Definition assistant_is_empty (c : AssistantTextChunk) : bool :=
  is_empty (at_visible_text c) && is_empty (at_citations c) && is_empty (at_plan_segments c).

Record AssistantTextStreamParser := {
  plan_mode : bool;
  citations : CitationStreamParser;
  plan : ProposedPlanParser;
}.
Definition new_assistant (plan_mode : bool) : AssistantTextStreamParser :=
  {| plan_mode := plan_mode; citations := new_citation; plan := new_plan |}.

Definition parse_visible_text (p : AssistantTextStreamParser) (text : str)
    : AssistantTextStreamParser * AssistantTextChunk :=
  if negb (plan_mode p) then
    (p, {| at_visible_text := text; at_citations := []; at_plan_segments := [] |})
  else
    let '(pl, plan_chunk) := push_str (plan p) text in
    ({| plan_mode := plan_mode p; citations := citations p; plan := pl |},
     {| at_visible_text := visible_text plan_chunk; at_citations := [];
        at_plan_segments := extracted plan_chunk |}).

Definition push_assistant (p : AssistantTextStreamParser) (chunk : str)
    : AssistantTextStreamParser * AssistantTextChunk :=
  let '(ci, citation_chunk) := push_str (citations p) chunk in
  let p := {| plan_mode := plan_mode p; citations := ci; plan := plan p |} in
  let '(p, out) := parse_visible_text p (visible_text citation_chunk) in
  (p, {| at_visible_text := at_visible_text out; at_citations := extracted citation_chunk;
         at_plan_segments := at_plan_segments out |}).

Definition finish_assistant (p : AssistantTextStreamParser)
    : AssistantTextStreamParser * AssistantTextChunk :=
  let '(ci, citation_chunk) := finish (citations p) in
  let p := {| plan_mode := plan_mode p; citations := ci; plan := plan p |} in
  let '(p, out) := parse_visible_text p (visible_text citation_chunk) in
  let '(p, out) :=
    if plan_mode p then
      let '(pl, tail) := finish (plan p) in
      let p := {| plan_mode := plan_mode p; citations := citations p; plan := pl |} in
      if chunk_is_empty tail then (p, out)
      else (p, {| at_visible_text := at_visible_text out ++ visible_text tail;
                  at_citations := at_citations out;
                  at_plan_segments := at_plan_segments out ++ extracted tail |})
    else (p, out) in
  (p, {| at_visible_text := at_visible_text out; at_citations := extracted citation_chunk;
         at_plan_segments := at_plan_segments out |}).

(** ** Runs *)
Definition assistant_app (c d : AssistantTextChunk) : AssistantTextChunk :=
  {| at_visible_text := at_visible_text c ++ at_visible_text d;
     at_citations := at_citations c ++ at_citations d;
     at_plan_segments := at_plan_segments c ++ at_plan_segments d |}.
Fixpoint feed_assistant (p : AssistantTextStreamParser) (cs : list str)
    : AssistantTextStreamParser * AssistantTextChunk :=
  match cs with
  | [] => (p, empty_assistant)
  | c :: cs =>
      let '(p, o) := push_assistant p c in
      let '(p, o') := feed_assistant p cs in
      (p, assistant_app o o')
  end.
Definition assistant_stream (p : AssistantTextStreamParser) (cs : list str) : AssistantTextChunk :=
  let '(p, o) := feed_assistant p cs in assistant_app o (finish_assistant p).2.

(** The pieces of visible text that the citation parser passes on. *)
Fixpoint passed (ci : CitationStreamParser) (cs : list str) : list str :=
  match cs with
  | [] => [visible_text (finish ci).2]
  | c :: cs => let '(ci, o) := push_str ci c in visible_text o :: passed ci cs
  end.

Lemma passed_concat cs ci : concat (passed ci cs) = visible_text (stream ci cs).
Proof.
  revert ci. induction cs as [|c cs IH]; intros ci; unfold stream in *; cbn [passed feed concat].
  - by rewrite app_nil_r.
  - destruct (push_str ci c) as [ci' o]. cbn [concat]. rewrite IH.
    destruct (feed ci' cs) as [ci'' o']. cbn. by rewrite app_assoc.
Qed.

Lemma stream_cons {P X} {SP : StreamTextParser P X} (p : P) c cs :
  stream p (c :: cs) = chunk_app (push_str p c).2 (stream (push_str p c).1 cs).
Proof.
  unfold stream. cbn [feed]. destruct (push_str p c) as [q o]. cbn [fst snd].
  destruct (feed q cs) as [r o']. by rewrite chunk_app_assoc.
Qed.

(** Outside plan mode the text passes through; in plan mode the plan parser
    reads the passed pieces. *)
Lemma assistant_stream_parts cs p :
  assistant_stream p cs =
    {| at_visible_text :=
         (if plan_mode p then visible_text (stream (plan p) (passed (citations p) cs))
          else visible_text (stream (citations p) cs));
       at_citations := extracted (stream (citations p) cs);
       at_plan_segments :=
         (if plan_mode p then extracted (stream (plan p) (passed (citations p) cs)) else []) |}.
Proof.
  destruct p as [m ci pl]. revert ci pl.
  induction cs as [|c cs IH]; intros ci pl; cbn [plan_mode plan citations] in *.
  - unfold assistant_stream. cbn [feed_assistant passed]. rewrite stream_cons. unfold stream. cbn [feed].
    unfold finish_assistant, parse_visible_text. cbn [citations].
    destruct (finish ci) as [ci' co]. destruct m; cbn [negb plan_mode plan citations fst snd]; [|done].
    destruct (push_str pl (visible_text co)) as [pl' po]. cbn [plan plan_mode fst snd]. destruct (finish pl') as [pl'' tail].
    cbn [fst snd]. destruct (chunk_is_empty tail) eqn:E; [|by cbn].
    unfold chunk_is_empty in E. destruct tail as [[|] [|]]; try done. cbn. by rewrite ?app_nil_r.
  - unfold assistant_stream in *. cbn [feed_assistant passed]. unfold push_assistant, parse_visible_text.
    rewrite (stream_cons ci). cbn [citations plan_mode plan].
    destruct (push_str ci c) as [ci' co]. cbn [fst snd]. destruct m; cbn [negb].
    + rewrite stream_cons. destruct (push_str pl (visible_text co)) as [pl' po]. cbn [fst snd].
      specialize (IH ci' pl'). destruct (feed_assistant _ cs) as [q o']. cbn [plan_mode citations plan] in IH.
      cbn [fst snd]. unfold assistant_app in *. cbn in *. injection IH as Hv Hc Hp.
      by rewrite <-!app_assoc, Hv, Hc, Hp.
    + specialize (IH ci' pl). destruct (feed_assistant _ cs) as [q o']. cbn [plan_mode citations plan] in IH.
      cbn [fst snd]. unfold assistant_app in *. cbn in *. injection IH as Hv Hc Hp.
      by rewrite <-!app_assoc, Hv, Hc, Hp.
Qed.

(** However the assistant's text is cut, the visible text is the text with
    the citations stripped and, in plan mode, the plan blocks of the rest
    stripped; the citations are those of the whole text; the plan segments are,
    up to the splitting of texts, those of the citation-free text. *)
Theorem assistant_stream_is_strip (mode : bool) (cs : list str) :
  let text := (strip_citations (concat cs)).1 in
  let out := assistant_stream (new_assistant mode) cs in
  at_visible_text out = (if mode then strip_proposed_plan_blocks text else text)
  ∧ at_citations out = (strip_citations (concat cs)).2
  ∧ merge_plan (at_plan_segments out)
    = (if mode then map_segment <$> merge (plan_lines text) else []).
Proof.
  rewrite assistant_stream_parts. cbn [at_visible_text at_citations at_plan_segments plan_mode citations plan new_assistant].
  rewrite citation_cut_transparent. cbn [visible_text extracted].
  destruct mode; [|done]. pose proof (passed_concat cs new_citation) as Hp.
  rewrite citation_cut_transparent in Hp. cbn [visible_text] in Hp.
  destruct (plan_stream_lines (passed new_citation cs)) as (-> & -> & _). rewrite Hp.
  rewrite strip_is_stream. destruct (plan_stream_lines [(strip_citations (concat cs)).1]) as (-> & _ & _).
  cbn [concat]. by rewrite app_nil_r.
Qed.
