(* ===== verification/AbsolutePath.v ===== *)
(** * absolute-path: normalised absolute paths

    [AbsolutePathBuf] of [utils/absolute-path/src/lib.rs] and the lexical
    normalisation of [absolutize.rs], as compiled for Unix.  A path is read into
    its components, as [std::path::Path::components] does, and an
    [AbsolutePathBuf] is the list of them: two [PathBuf]s are equal when their
    components are.  The home and the current directory come from the
    environment. *)
From S2P Require Import Prelude Str.

Definition SLASH : char := 47%N.
Definition TILDE : char := 126%N.
Definition DOT : str := lit ".".
Definition DOTDOT : str := lit "..".

(** [str::split(c)]: the pieces between the separators, empty ones included. *)
Fixpoint split (c : char) (s : str) : list str :=
  match s with
  | [] => [[]]
  | x :: s =>
      if (x =? c)%N then [] :: split c s
      else match split c s with
           | [] => [[x]]
           | p :: ps => (x :: p) :: ps
           end
  end.

(** ** [std::path] *)
Inductive Component :=
  | RootDir
  | CurDir
  | ParentDir
  | NormalName (name : str).
#[export] Instance Component_eq_dec : EqDecision Component.
Proof. solve_decision. Defined.

Definition is_absolute (path : str) : bool := starts_with path [SLASH].

(** A piece between slashes; [.] is no component. *)
Definition component_of (piece : str) : option Component :=
  if is_empty piece || str_eqb piece DOT then None
  else if str_eqb piece DOTDOT then Some ParentDir
  else Some (NormalName piece).

(** [Path::components]: [.] counts only at the start of a relative path. *)
Definition components (path : str) : list Component :=
  let pieces := split SLASH path in
  (if is_absolute path then [RootDir]
   else if bool_decide (head pieces = Some DOT) then [CurDir]
   else [])
  ++ omap component_of pieces.

(** [Path::join]. *)
Definition path_push (base path : str) : str :=
  if is_absolute path then path
  else if is_empty base || ends_with base [SLASH] then base ++ path
  else base ++ SLASH :: path.

(** A [PathBuf] built by [push]ing components: pushing the root replaces the
    path; [pop] drops the last component, but neither the root nor from nothing. *)
Definition buf_push (buf : list Component) (c : Component) : list Component :=
  match c with RootDir => [RootDir] | _ => buf ++ [c] end.
Definition buf_pop (buf : list Component) : list Component :=
  match last buf with
  | None | Some RootDir => buf
  | Some _ => removelast buf
  end.

(** ** [absolutize.rs] *)
Definition normalize_step (normalized : list Component) (component : Component) : list Component :=
  match component with
  | CurDir => normalized
  | ParentDir => buf_pop normalized
  | RootDir | NormalName _ => buf_push normalized component
  end.
Definition normalize_path (path : str) : list Component :=
  let normalized := foldl normalize_step [] (components path) in
  if is_empty normalized then [CurDir] else normalized.

Definition path_with_base (path base_path : str) : str :=
  if is_absolute path then path else path_push base_path path.
Definition absolutize_from (path base_path : str) : list Component :=
  normalize_path (path_with_base path base_path).

(** What the process reads from its environment: [home_directory()] and
    [std::env::current_dir()] ([None]: the call fails). *)
Record PathEnv := { home_directory : option str; current_dir : option str }.

Definition absolutize (env : PathEnv) (path : str) : option (list Component) :=
  if is_absolute path then Some (normalize_path path)
  else absolutize_from path <$> current_dir env.

(** ** [AbsolutePathBuf] *)
Abbreviation AbsolutePathBuf := (list Component) (only parsing).

Definition maybe_expand_home_directory (env : PathEnv) (path : str) : str :=
  match strip_prefix [TILDE] path, home_directory env with
  | Some rest, Some home =>
      if is_empty rest then home
      else match strip_prefix [SLASH] rest with
           | Some rest => path_push home (drop_while (N.eqb SLASH) rest)
           | None => path
           end
  | _, _ => path
  end.

Definition resolve_path_against_base (env : PathEnv) (path base_path : str) : AbsolutePathBuf :=
  absolutize_from (maybe_expand_home_directory env path) base_path.
Definition from_absolute_path (env : PathEnv) (path : str) : option AbsolutePathBuf :=
  absolutize env (maybe_expand_home_directory env path).
Definition from_absolute_path_checked (env : PathEnv) (path : str) : option AbsolutePathBuf :=
  let expanded := maybe_expand_home_directory env path in
  if negb (is_absolute expanded) then None else Some (absolutize_from expanded [SLASH]).

(** [Path::file_name]. *)
Definition file_name (p : AbsolutePathBuf) : option str :=
  match last p with Some (NormalName n) => Some n | _ => None end.

(** The text of a path. *)
Definition component_str (c : Component) : str :=
  match c with RootDir => [] | CurDir => DOT | ParentDir => DOTDOT | NormalName n => n end.
Definition path_str (p : list Component) : str :=
  match p with
  | [RootDir] => [SLASH]
  | _ => join [SLASH] (component_str <$> p)
  end.

(** ** Lemmas *)

(** A file name: what [components] gives as a normal component. *)
Definition plain_name (n : str) : Prop := n ≠ [] ∧ SLASH ∉ n ∧ n ≠ DOT ∧ n ≠ DOTDOT.
Definition normal_form (p : list Component) : Prop :=
  ∃ names, p = RootDir :: (NormalName <$> names) ∧ Forall plain_name names.

Lemma split_no_sep c s : Forall (λ p, c ∉ p) (split c s).
Proof.
  induction s as [|x s IH]; simpl; [repeat constructor; apply not_elem_of_nil|].
  destruct (N.eqb_spec x c) as [->|Hx]; [by constructor; [apply not_elem_of_nil|]|].
  destruct (split c s) as [|p ps]; [by repeat constructor; apply not_elem_of_cons; split; [done|apply not_elem_of_nil]|].
  apply Forall_cons in IH as [Hp Hps]. constructor; [|done]. apply not_elem_of_cons. by split.
Qed.

Lemma split_app c p s : c ∉ p → split c (p ++ c :: s) = p :: split c s.
Proof.
  induction p as [|x p IH]; intros Hp; simpl; [by rewrite N.eqb_refl|].
  apply not_elem_of_cons in Hp as [Hx Hp]. destruct (N.eqb_spec x c); [congruence|]. by rewrite IH.
Qed.
Lemma split_last c p : c ∉ p → split c p = [p].
Proof.
  induction p as [|x p IH]; intros Hp; simpl; [done|].
  apply not_elem_of_cons in Hp as [Hx Hp]. destruct (N.eqb_spec x c); [congruence|]. by rewrite IH.
Qed.

Lemma component_of_cases p c :
  component_of p = Some c → SLASH ∉ p → c = ParentDir ∨ ∃ n, c = NormalName n ∧ plain_name n.
Proof.
  unfold component_of. intros H Hs. destruct (is_empty p || str_eqb p DOT) eqn:E; [done|].
  apply orb_false_iff in E as [E1 E2%str_eqb_ne]. destruct (str_eqb p DOTDOT) eqn:E3.
  - injection H as <-. by left.
  - injection H as <-. right. exists p. apply str_eqb_ne in E3. by destruct p.
Qed.

Lemma component_of_plain n : plain_name n → component_of n = Some (NormalName n).
Proof.
  intros (Hne & _ & Hd & Hdd). unfold component_of.
  rewrite (proj2 (str_eqb_ne n DOT)), (proj2 (str_eqb_ne n DOTDOT)) by done. by destruct n.
Qed.

Lemma normal_form_push p n : normal_form p → plain_name n → normal_form (p ++ [NormalName n]).
Proof.
  intros (names & -> & Hn) Hp. exists (names ++ [n]). rewrite fmap_app. split; [done|].
  apply Forall_app. split; [done|]. by apply Forall_singleton.
Qed.
Lemma normal_form_pop p : normal_form p → normal_form (buf_pop p).
Proof.
  intros (names & -> & Hn). destruct names as [|n names _] using rev_ind; [by exists []|].
  apply Forall_app in Hn as [Hn _]. rewrite fmap_app, app_comm_cons.
  change (NormalName <$> [n]) with [NormalName n]. unfold buf_pop.
  rewrite last_snoc, removelast_last. by exists names.
Qed.

Lemma normalize_steps ps p :
  Forall (λ s, SLASH ∉ s) ps → normal_form p →
  normal_form (foldl normalize_step p (omap component_of ps)).
Proof.
  intros Hps. revert p. induction Hps as [|s ps Hs _ IH]; intros p Hp; [done|]. simpl.
  destruct (component_of s) as [c|] eqn:E; [|by apply IH]. simpl. apply IH.
  destruct (component_of_cases s c E Hs) as [->|(n & -> & Hn)];
    [by apply normal_form_pop|by apply normal_form_push].
Qed.

Lemma normalize_absolute path : is_absolute path = true → normal_form (normalize_path path).
Proof.
  intros Ha. unfold normalize_path, components. rewrite Ha. cbn [app foldl normalize_step buf_push].
  assert (normal_form (foldl normalize_step [RootDir] (omap component_of (split SLASH path)))) as H.
  { apply normalize_steps; [apply split_no_sep|]. by exists []. }
  cbn [buf_push app] in *. destruct (foldl _ _ _) eqn:E; [|done]. by destruct H as (? & ? & _).
Qed.

Lemma is_absolute_cons s : is_absolute (SLASH :: s) = true.
Proof. done. Qed.

Lemma is_absolute_app s t : is_absolute s = true → is_absolute (s ++ t) = true.
Proof.
  unfold is_absolute. rewrite !starts_with_spec. intros [r ->]. exists (r ++ t). by rewrite app_assoc.
Qed.
Lemma path_push_absolute base path : is_absolute base = true → is_absolute (path_push base path) = true.
Proof.
  unfold path_push. intros Hb. destruct (is_absolute path) eqn:E; [done|].
  case_match; by apply is_absolute_app.
Qed.

Lemma absolutize_from_normal path base :
  is_absolute base = true → normal_form (absolutize_from path base).
Proof.
  intros Hb. apply normalize_absolute. unfold path_with_base.
  destruct (is_absolute path) eqn:E; [done|]. by apply path_push_absolute.
Qed.

(** Printing a normal form and reading it back. *)
Lemma join_split names :
  Forall plain_name names → names ≠ [] → split SLASH (join [SLASH] names) = names.
Proof.
  induction 1 as [|n names Hn Hns IH]; [done|]. intros _. destruct names as [|n' names].
  - cbn [join]. apply split_last, Hn.
  - rewrite join_cons by done. cbn [app]. rewrite split_app by apply Hn. by rewrite IH.
Qed.

Lemma omap_plain names : Forall plain_name names → omap component_of names = NormalName <$> names.
Proof. induction 1 as [|n names Hn _ IH]; [done|]. cbn. rewrite component_of_plain by done. f_equal. apply IH. Qed.

Lemma normalize_names p names :
  foldl normalize_step p (NormalName <$> names) = p ++ (NormalName <$> names).
Proof.
  revert p. induction names as [|n names IH]; intros p; simpl; [by rewrite app_nil_r|].
  by rewrite IH, <-app_assoc.
Qed.

Lemma normal_form_str names :
  names ≠ [] → path_str (RootDir :: (NormalName <$> names)) = SLASH :: join [SLASH] names.
Proof.
  intros Hne. unfold path_str. destruct names as [|n names]; [done|].
  cbn [fmap list_fmap]. rewrite join_cons by done. cbn [app component_str]. do 2 f_equal.
  change (component_str (NormalName n) :: (component_str <$> (NormalName <$> names)))
    with (component_str <$> (NormalName <$> (n :: names))).
  rewrite <-list_fmap_compose. exact (list_fmap_id (n :: names)).
Qed.

Lemma normalize_path_str p :
  normal_form p → is_absolute (path_str p) = true ∧ normalize_path (path_str p) = p.
Proof.
  intros (names & -> & Hn). destruct (decide (names = [])) as [->|Hne]; [done|].
  rewrite normal_form_str by done. split; [done|].
  unfold normalize_path, components. rewrite is_absolute_cons.
  cbn [app foldl normalize_step buf_push split]. rewrite N.eqb_refl. cbn [omap list_omap].
  change (component_of []) with (@None Component). cbn [from_option].
  rewrite join_split, omap_plain, normalize_names by done. done.
Qed.

Lemma absolute_not_home env path :
  is_absolute path = true → maybe_expand_home_directory env path = path.
Proof. unfold is_absolute. rewrite starts_with_spec. by intros [r ->]. Qed.

Lemma from_absolute_path_normal env path p :
  (∀ d, current_dir env = Some d → is_absolute d = true) →
  from_absolute_path env path = Some p → normal_form p.
Proof.
  unfold from_absolute_path, absolutize. intros Hcwd. case_match; [|rewrite fmap_Some].
  - intros [= <-]. by apply normalize_absolute.
  - intros (d & Hd & ->). apply absolutize_from_normal. by apply Hcwd.
Qed.

(** Every [AbsolutePathBuf] built from text (with an absolute current
    directory) is a normal form: the root followed by file names, with no dot
    components, no empty name and no slash in a name; and its text read back,
    by either constructor, is the same path. *)
Theorem absolute_path_is_normal_form env path p :
  (∀ d, current_dir env = Some d → is_absolute d = true) →
  from_absolute_path env path = Some p →
  normal_form p
  ∧ from_absolute_path env (path_str p) = Some p
  ∧ from_absolute_path_checked env (path_str p) = Some p.
Proof.
  intros Hcwd Hp. pose proof (from_absolute_path_normal env path p Hcwd Hp) as Hn.
  destruct (normalize_path_str p Hn) as [Ha Hr]. split; [done|].
  unfold from_absolute_path, from_absolute_path_checked, absolutize, absolutize_from, path_with_base.
  rewrite absolute_not_home, Ha by done. cbn [negb]. by rewrite Hr.
Qed.

Definition demo_env : PathEnv :=
  {| home_directory := Some (lit "/home/u"); current_dir := Some (lit "/work") |}.
Lemma absolute_path_witness :
  from_absolute_path demo_env (path_str [RootDir; NormalName (lit "work"); NormalName (lit "b")])
  = Some [RootDir; NormalName (lit "work"); NormalName (lit "b")].
Proof.
  refine (proj1 (proj2 (absolute_path_is_normal_form demo_env (lit "./a/.././b/") _ _ _))).
  - intros d [= <-]. reflexivity.
  - reflexivity.
Defined.
