(* ===== verification/ExecPolicy.v ===== *)
(** * execpolicy: rules, matching and decisions

    The crate [execpolicy]: [decision.rs], [rule.rs], [policy.rs],
    [executable_name.rs] (as compiled for Unix) and the error type of
    [error.rs].  [PrefixRule] is the only implementation of the trait [Rule], so
    a [RuleRef] is a [PrefixRule].  The third-party multimap is an interface
    ([MultiMap]) with the laws its documentation states, discharged by an
    instance over finite maps. *)
From stdpp Require Import gmap sorting.
From S2P Require Import Prelude Str AbsolutePath.

(** ** Decisions *)
Inductive Decision := Allow | Prompt | Forbidden.
#[export] Instance Decision_eq_dec : EqDecision Decision.
Proof. solve_decision. Defined.

(** The derived order: [Allow < Prompt < Forbidden]. *)
Definition rank (d : Decision) : nat :=
  match d with Allow => 0 | Prompt => 1 | Forbidden => 2 end.
Definition decision_max (d e : Decision) : Decision :=
  if rank d <=? rank e then e else d.

(** ** Errors *)
Record TextPosition := { line : nat; column : nat }.
Record TextRange := { range_start : TextPosition; range_end : TextPosition }.
Record ErrorLocation := { loc_path : str; loc_range : TextRange }.

Inductive Error :=
  | InvalidDecision (raw : str)
  | InvalidPattern (message : str)
  | InvalidExample (message : str)
  | InvalidRule (message : str)
  | ExampleDidNotMatch (rules examples : list str) (location : option ErrorLocation)
  | ExampleDidMatch (rule example : str) (location : option ErrorLocation)
  | Starlark (message : str).

Definition with_location (e : Error) (location : ErrorLocation) : Error :=
  match e with
  | ExampleDidNotMatch rules examples None => ExampleDidNotMatch rules examples (Some location)
  | ExampleDidMatch rule example None => ExampleDidMatch rule example (Some location)
  | other => other
  end.

Definition parse_decision (raw : str) : res Error Decision :=
  if str_eqb raw (lit "allow") then Ok Allow
  else if str_eqb raw (lit "prompt") then Ok Prompt
  else if str_eqb raw (lit "forbidden") then Ok Forbidden
  else Err (InvalidDecision raw).

(** ** Rules *)
Inductive PatternToken :=
  | Single (expected : str)
  | Alts (alternatives : list str).

Definition token_matches (t : PatternToken) (token : str) : bool :=
  match t with
  | Single expected => str_eqb expected token
  | Alts alternatives => existsb (λ alt, str_eqb alt token) alternatives
  end.
Definition alternatives_of (t : PatternToken) : list str :=
  match t with Single expected => [expected] | Alts alternatives => alternatives end.

Record PrefixPattern := { first : str; rest : list PatternToken }.

(** The loop of [matches_prefix] over the zipped tokens. *)
Fixpoint tokens_match (pattern : list PatternToken) (tokens : list str) : bool :=
  match pattern, tokens with
  | t :: pattern, token :: tokens => token_matches t token && tokens_match pattern tokens
  | _, _ => true
  end.
Definition matches_prefix (p : PrefixPattern) (cmd : list str) : option (list str) :=
  let pattern_length := length (rest p) + 1 in
  if (length cmd <? pattern_length) || negb (bool_decide (head cmd = Some (first p))) then None
  else if tokens_match (rest p) (take (pattern_length - 1) (drop 1 cmd))
  then Some (take pattern_length cmd)
  else None.

Inductive RuleMatch :=
  | PrefixRuleMatch (matched_prefix : list str) (decision : Decision)
      (resolved_program : option AbsolutePathBuf) (justification : option str)
  | HeuristicsRuleMatch (command : list str) (decision : Decision).

Definition match_decision (m : RuleMatch) : Decision :=
  match m with PrefixRuleMatch _ d _ _ => d | HeuristicsRuleMatch _ d => d end.
Definition with_resolved_program (program : AbsolutePathBuf) (m : RuleMatch) : RuleMatch :=
  match m with
  | PrefixRuleMatch prefix decision _ justification =>
      PrefixRuleMatch prefix decision (Some program) justification
  | other => other
  end.

Record PrefixRule := {
  pattern : PrefixPattern;
  rule_decision : Decision;
  rule_justification : option str;
}.
Definition rule_program (r : PrefixRule) : str := first (pattern r).
Definition rule_matches (r : PrefixRule) (cmd : list str) : option RuleMatch :=
  (λ prefix, PrefixRuleMatch prefix (rule_decision r) None (rule_justification r))
  <$> matches_prefix (pattern r) cmd.

(** ** Network rules *)
Inductive NetworkRuleProtocol := Http | Https | Socks5Tcp | Socks5Udp.

Definition parse_protocol (raw : str) : res Error NetworkRuleProtocol :=
  if str_eqb raw (lit "http") then Ok Http
  else if str_eqb raw (lit "https") || str_eqb raw (lit "https_connect") || str_eqb raw (lit "http-connect")
  then Ok Https
  else if str_eqb raw (lit "socks5_tcp") then Ok Socks5Tcp
  else if str_eqb raw (lit "socks5_udp") then Ok Socks5Udp
  else Err (InvalidRule
    (lit "network_rule protocol must be one of http, https, socks5_tcp, socks5_udp (got " ++ raw ++ lit ")")).
Definition as_policy_string (p : NetworkRuleProtocol) : str :=
  match p with
  | Http => lit "http"
  | Https => lit "https"
  | Socks5Tcp => lit "socks5_tcp"
  | Socks5Udp => lit "socks5_udp"
  end.

Record NetworkRule := {
  host : str;
  protocol : NetworkRuleProtocol;
  net_decision : Decision;
  net_justification : option str;
}.

Definition COLON : char := 58%N.
Definition all_digits (s : str) : bool := forallb is_ascii_digit s.

(** The bracketed form [[inside]:port], and the form [candidate:port]. *)
Definition strip_brackets (raw stripped : str) : res Error str :=
  match split_once 93%N stripped with
  | None => Err (InvalidRule (lit "network_rule host has an invalid bracketed IPv6 literal"))
  | Some (inside, rest) =>
      let port_ok :=
        is_some_and (λ port, negb (is_empty port) && all_digits port) (strip_prefix [COLON] rest) in
      if negb (is_empty rest) && negb port_ok
      then Err (InvalidRule (lit "network_rule host contains an unsupported suffix: " ++ raw))
      else Ok inside
  end.
Definition strip_port (host : str) : str :=
  if count_char COLON host =? 1 then
    match rsplit_once COLON host with
    | Some (candidate, port) =>
        if negb (is_empty candidate) && negb (is_empty port) && all_digits port
        then candidate else host
    | None => host
    end
  else host.

Definition normalize_network_rule_host (raw : str) : res Error str :=
  let host := trim raw in
  if is_empty host then Err (InvalidRule (lit "network_rule host cannot be empty"))
  else if contains host (lit "://") || contains_char 47%N host || contains_char 63%N host
       || contains_char 35%N host
  then Err (InvalidRule
         (lit "network_rule host must be a hostname or IP literal (without scheme or path)"))
  else
    host ← match strip_prefix [91%N] host with
           | Some stripped => strip_brackets raw stripped
           | None => Ok (strip_port host)
           end;
    let normalized := to_ascii_lowercase (trim (trim_end_matches 46%N host)) in
    if is_empty normalized then Err (InvalidRule (lit "network_rule host cannot be empty"))
    else if contains_char 42%N normalized
    then Err (InvalidRule
           (lit "network_rule host must be a specific host; wildcards are not allowed"))
    else if existsb is_whitespace normalized
    then Err (InvalidRule (lit "network_rule host cannot contain whitespace"))
    else Ok normalized.

(** ** [executable_name.rs] *)
Definition executable_lookup_key (raw : str) : str := raw.
Definition executable_path_lookup_key (path : AbsolutePathBuf) : option str :=
  executable_lookup_key <$> file_name path.

(** ** The multimap of rules

    [insert] appends to the values of a key; [iter_all] visits every key once,
    in no particular order, with its values. *)
Class MultiMap (M : Type) := {
  mm_new : M;
  mm_insert : str → PrefixRule → M → M;
  mm_get_vec : str → M → option (list PrefixRule);
  mm_iter_all : M → list (str * list PrefixRule);
}.
Class MultiMapLaws (M : Type) `{!MultiMap M} : Prop := {
  mm_get_new k : mm_get_vec k mm_new = None;
  mm_get_insert k r m : mm_get_vec k (mm_insert k r m) = Some (default [] (mm_get_vec k m) ++ [r]);
  mm_get_insert_ne k k' r m : k ≠ k' → mm_get_vec k' (mm_insert k r m) = mm_get_vec k' m;
  mm_iter_keys m : NoDup (mm_iter_all m).*1;
  mm_iter_spec m k rs : (k, rs) ∈ mm_iter_all m ↔ mm_get_vec k m = Some rs;
}.

(** ** Policies *)
Record MatchOptions := { resolve_host_executables : bool }.
Definition default_options : MatchOptions := {| resolve_host_executables := false |}.

Record Evaluation := { decision : Decision; matched_rules : list RuleMatch }.
Definition is_match (e : Evaluation) : bool :=
  existsb (λ m, match m with HeuristicsRuleMatch _ _ => false | _ => true end) (matched_rules e).

(** [iter().map(RuleMatch::decision).max()], and the [expect] on an empty list. *)
Definition max_decision (ms : list RuleMatch) : option Decision :=
  foldl (λ o m, Some match o with
                     | None => match_decision m
                     | Some d => decision_max d (match_decision m)
                     end) None ms.
Definition from_matches (ms : list RuleMatch) : res Error Evaluation :=
  match max_decision ms with
  | Some d => Ok {| decision := d; matched_rules := ms |}
  | None => Panic
  end.

(** The orders of [sort()] on [Vec<String>] and on [Vec<Vec<String>>]. *)
Fixpoint tokens_leb (s t : list str) : bool :=
  match s, t with
  | [], _ => true
  | _ :: _, [] => false
  | x :: s, y :: t => if str_eqb x y then tokens_leb s t else str_leb x y
  end.
Definition tokens_le (s t : list str) : Prop := tokens_leb s t = true.
#[export] Instance tokens_le_dec : RelDecision tokens_le.
Proof. intros s t. unfold tokens_le. apply _. Defined.
Definition str_le (s t : str) : Prop := str_leb s t = true.
#[export] Instance str_le_dec : RelDecision str_le.
Proof. intros s t. unfold str_le. apply _. Defined.

Definition upsert_domain (entries : list str) (host : str) : list str :=
  filter (λ entry, entry ≠ host) entries ++ [host].

Definition render_pattern_token (t : PatternToken) : str :=
  match t with
  | Single value => value
  | Alts alternatives => lit "[" ++ join (lit "|") alternatives ++ lit "]"
  end.

Section policy.
Context {M : Type} `{!MultiMap M} (env : PathEnv).

Record Policy := {
  rules_by_program : M;
  network_rules : list NetworkRule;
  host_executables_by_name : gmap str (list AbsolutePathBuf);
}.
Implicit Types p : Policy.

Definition new_policy (rules : M) : Policy :=
  {| rules_by_program := rules; network_rules := []; host_executables_by_name := ∅ |}.
Definition empty_policy : Policy := new_policy mm_new.

Definition rule_prefix (r : PrefixRule) : list str :=
  first (pattern r) :: (render_pattern_token <$> rest (pattern r)).
Definition get_allowed_prefixes p : list (list str) :=
  let prefixes :=
    '(_, rules) ← mm_iter_all (rules_by_program p);
    r ← rules;
    if decide (rule_decision r = Allow) then [rule_prefix r] else [] in
  dedup (merge_sort tokens_le prefixes).

Definition add_prefix_rule p (prefix : list str) (d : Decision) : res Error Policy :=
  match prefix with
  | [] => Err (InvalidPattern (lit "prefix cannot be empty"))
  | first_token :: rest =>
      let rule := {| pattern := {| first := first_token; rest := Single <$> rest |};
                     rule_decision := d; rule_justification := None |} in
      Ok {| rules_by_program := mm_insert first_token rule (rules_by_program p);
            network_rules := network_rules p;
            host_executables_by_name := host_executables_by_name p |}
  end.

Definition add_network_rule p (raw : str) (proto : NetworkRuleProtocol) (d : Decision)
    (justification : option str) : res Error Policy :=
  host ← normalize_network_rule_host raw;
  if is_some_and (λ j, is_empty (trim j)) justification
  then Err (InvalidRule (lit "justification cannot be empty"))
  else Ok {| rules_by_program := rules_by_program p;
             network_rules := network_rules p ++
               [{| host := host; protocol := proto; net_decision := d; net_justification := justification |}];
             host_executables_by_name := host_executables_by_name p |}.

Definition set_host_executable_paths p (name : str) (paths : list AbsolutePathBuf) : Policy :=
  {| rules_by_program := rules_by_program p; network_rules := network_rules p;
     host_executables_by_name := <[name := paths]> (host_executables_by_name p) |}.

(** The loops that insert the overlay's rules. *)
Definition insert_rules (m : M) (program : str) (rules : list PrefixRule) : M :=
  foldl (λ m r, mm_insert program r m) m rules.
Definition combine_rules (m : M) (all : list (str * list PrefixRule)) : M :=
  foldl (λ m '(program, rules), insert_rules m program rules) m all.
Definition merge_overlay p (overlay : Policy) : Policy :=
  {| rules_by_program := combine_rules (rules_by_program p) (mm_iter_all (rules_by_program overlay));
     network_rules := network_rules p ++ network_rules overlay;
     host_executables_by_name := host_executables_by_name overlay ∪ host_executables_by_name p |}.

Definition compile_step (st : list str * list str) (rule : NetworkRule) : list str * list str :=
  let '(allowed, denied) := st in
  match net_decision rule with
  | Allow => (upsert_domain allowed (host rule), filter (λ entry, entry ≠ host rule) denied)
  | Forbidden => (filter (λ entry, entry ≠ host rule) allowed, upsert_domain denied (host rule))
  | Prompt => (allowed, denied)
  end.
Definition compiled_network_domains p : list str * list str :=
  foldl compile_step ([], []) (network_rules p).

(** ** Matching a command *)
Definition match_exact_rules p (cmd : list str) : option (list RuleMatch) :=
  match cmd with
  | [] => None
  | first :: _ =>
      Some (match mm_get_vec first (rules_by_program p) with
            | Some rules => omap (λ r, rule_matches r cmd) rules
            | None => []
            end)
  end.

Definition match_host_executable_rules p (cmd : list str) : list RuleMatch :=
  match cmd with
  | [] => []
  | first :: args =>
      match from_absolute_path env first with
      | None => []
      | Some program =>
          match executable_path_lookup_key program with
          | None => []
          | Some basename =>
              match mm_get_vec basename (rules_by_program p) with
              | None => []
              | Some rules =>
                  if is_some_and (λ paths, negb (existsb (λ path, bool_decide (path = program)) paths))
                       (host_executables_by_name p !! basename)
                  then []
                  else with_resolved_program program
                       <$> omap (λ r, rule_matches r (basename :: args)) rules
              end
          end
      end
  end.

Definition matches_for_command_with_options p (cmd : list str)
    (heuristics_fallback : option (list str → Decision)) (options : MatchOptions) : list RuleMatch :=
  let exact := default [] (match_exact_rules p cmd) in
  let matched :=
    if negb (is_empty exact) then exact
    else if resolve_host_executables options then match_host_executable_rules p cmd
    else [] in
  match heuristics_fallback with
  | Some fallback => if is_empty matched then [HeuristicsRuleMatch cmd (fallback cmd)] else matched
  | None => matched
  end.
Definition matches_for_command p cmd fallback :=
  matches_for_command_with_options p cmd fallback default_options.

Definition check_with_options p (cmd : list str) (fallback : list str → Decision)
    (options : MatchOptions) : res Error Evaluation :=
  from_matches (matches_for_command_with_options p cmd (Some fallback) options).
Definition check p cmd fallback := check_with_options p cmd fallback default_options.

Definition check_multiple_with_options p (commands : list (list str)) (fallback : list str → Decision)
    (options : MatchOptions) : res Error Evaluation :=
  from_matches
    (commands ≫= λ cmd, matches_for_command_with_options p cmd (Some fallback) options).
Definition check_multiple p commands fallback :=
  check_multiple_with_options p commands fallback default_options.

(** ** Examples in policy files

    [shlex::try_join] and the debug rendering of rules are parameters. *)
Context (try_join : list str → option str) (debug_rule : PrefixRule → str) (debug_match : RuleMatch → str).

Definition render_example (example : list str) : str :=
  default (lit "unable to render example") (try_join example).
Definition all_options : MatchOptions := {| resolve_host_executables := true |}.

Definition validate_match_examples p (rules : list PrefixRule) (examples : list (list str)) : res Error unit :=
  let unmatched :=
    render_example <$> filter (λ e, matches_for_command_with_options p e None all_options = []) examples in
  if is_empty unmatched then Ok tt
  else Err (ExampleDidNotMatch (debug_rule <$> rules) unmatched None).

Fixpoint validate_not_match_examples p (examples : list (list str)) : res Error unit :=
  match examples with
  | [] => Ok tt
  | e :: examples =>
      match matches_for_command_with_options p e None all_options with
      | m :: _ => Err (ExampleDidMatch (debug_match m) (render_example e) None)
      | [] => validate_not_match_examples p examples
      end
  end.

(** [RequirementsExecPolicy]: the sorted rendering of all rules. *)
Definition fingerprint p : list str :=
  merge_sort str_le
    ('(program, rules) ← mm_iter_all (rules_by_program p);
     (λ r, program ++ lit ":" ++ debug_rule r) <$> rules).
Definition requirements_eq p q : bool := bool_decide (fingerprint p = fingerprint q).
End policy.
Arguments Policy : clear implicits.
