(* ===== verification/ExecPolicyProps.v ===== *)
(** * execpolicy: properties

    The strictest matching rule decides; prefix patterns match exactly the
    commands they describe; an overlay only adds rules; the last decisive rule
    of a host decides its network access; a normalised host is plain. *)
From stdpp Require Import gmap sorting.
From S2P Require Import Prelude Str AbsolutePath ExecPolicy.

(** ** Severity *)
Definition at_least (d e : Decision) : Prop := rank e ≤ rank d.

Lemma decision_max_rank d e : rank (decision_max d e) = rank d `max` rank e.
Proof. by destruct d, e. Qed.
Lemma decision_max_or d e : decision_max d e = d ∨ decision_max d e = e.
Proof. destruct d, e; auto. Qed.

Lemma max_decision_spec ms :
  ms ≠ [] →
  ∃ d, max_decision ms = Some d ∧ Forall (λ m, at_least d (match_decision m)) ms
    ∧ Exists (λ m, match_decision m = d) ms.
Proof.
  intros Hne. destruct ms as [|m ms]; [done|]. clear Hne.
  induction ms as [|x ms (d & Hd & Hall & Hex)] using rev_ind.
  - exists (match_decision m). unfold at_least. repeat constructor.
  - rewrite app_comm_cons. unfold max_decision in *. rewrite foldl_app, Hd. cbn [foldl].
    exists (decision_max d (match_decision x)). split; [done|]. rewrite Forall_app, Exists_app.
    unfold at_least in *. rewrite decision_max_rank. split; [split|].
    + eapply Forall_impl; [exact Hall|]. cbn. intros y Hy. lia.
    + constructor; [lia|constructor].
    + destruct (decision_max_or d (match_decision x)) as [E|E]; rewrite E; [by left|right]. by constructor.
Qed.

Lemma from_matches_spec ms :
  ms ≠ [] →
  ∃ d, from_matches ms = Ok {| decision := d; matched_rules := ms |}
    ∧ Forall (λ m, at_least d (match_decision m)) ms ∧ Exists (λ m, match_decision m = d) ms.
Proof.
  intros (d & Hd & H)%max_decision_spec. exists d. unfold from_matches. by rewrite Hd.
Qed.

(** ** Prefix patterns *)

(** The prefixes a pattern describes. *)
Definition covers (p : PrefixPattern) (prefix : list str) : Prop :=
  ∃ args, prefix = first p :: args ∧ Forall2 (λ t token, token ∈ alternatives_of t) (rest p) args.

Lemma token_matches_spec t token : token_matches t token = true ↔ token ∈ alternatives_of t.
Proof.
  destruct t as [e|alts]; simpl.
  - rewrite str_eqb_eq, list_elem_of_singleton. naive_solver.
  - rewrite existsb_exists. setoid_rewrite str_eqb_eq. setoid_rewrite <-list_elem_of_In. naive_solver.
Qed.

Lemma tokens_match_spec pat args :
  length args = length pat →
  tokens_match pat args = true ↔ Forall2 (λ t token, token ∈ alternatives_of t) pat args.
Proof.
  revert args. induction pat as [|t pat IH]; intros [|token args] Hl; simplify_eq/=; [by split; constructor|].
  rewrite andb_true_iff, token_matches_spec, IH by done. split.
  - intros []. by constructor.
  - by inversion 1.
Qed.

Lemma matches_prefix_spec p cmd prefix :
  matches_prefix p cmd = Some prefix ↔ covers p prefix ∧ ∃ args, cmd = prefix ++ args.
Proof.
  unfold matches_prefix, covers. destruct cmd as [|c cmd].
  { simpl. rewrite (proj2 (Nat.ltb_lt 0 _)) by lia. split; [done|].
    intros [(args & -> & _) (args' & ?)]. done. }
  cbn [head drop length]. rewrite !Nat.add_sub, !Nat.add_1_r. cbn [take].
  destruct (Nat.ltb_spec (S (length cmd)) (S (length (rest p)))) as [Hlt|Hge]; simpl.
  - split; [done|]. intros [(args & -> & Hargs%Forall2_length) (args' & [= -> ->])].
    rewrite length_app in Hlt. lia.
  - assert (length (take (length (rest p)) cmd) = length (rest p)) as Hlen by (rewrite length_take; lia).
    case_bool_decide as Hc; simpl.
    + injection Hc as ->. pose proof (tokens_match_spec (rest p) (take (length (rest p)) cmd) Hlen) as Hm.
      destruct (tokens_match _ _).
      * split.
        -- intros [= <-]. split; [eexists; split; [done|]; by apply Hm|].
           exists (drop (length (rest p)) cmd). cbn [app]. by rewrite take_drop.
        -- intros [(args & -> & Hargs) (args' & [= ->])].
           rewrite take_app_length'; [done|]. by eapply Forall2_length.
      * split; [done|]. intros [(args & -> & Hargs) (args' & [= ->])].
        rewrite take_app_length' in Hm by by eapply Forall2_length. by apply Hm in Hargs.
    + split; [done|]. intros [(args & -> & _) (args' & [= -> _])]. done.
Qed.

Lemma rule_matches_covers r prefix args :
  covers (pattern r) prefix →
  rule_matches r (prefix ++ args)
  = Some (PrefixRuleMatch prefix (rule_decision r) None (rule_justification r)).
Proof.
  intros Hc. unfold rule_matches.
  rewrite (proj2 (matches_prefix_spec (pattern r) (prefix ++ args) prefix)); [done|]. eauto.
Qed.

(** ** The multimap over finite maps *)
#[export] Instance gmap_multimap : MultiMap (gmap str (list PrefixRule)) := {|
  mm_new := ∅;
  mm_insert k r m := <[k := default [] (m !! k) ++ [r]]> m;
  mm_get_vec k m := m !! k;
  mm_iter_all m := map_to_list m;
|}.
#[export] Instance gmap_multimap_laws : MultiMapLaws (gmap str (list PrefixRule)).
Proof.
  split.
  - intros k. apply lookup_empty.
  - intros k r m. apply lookup_insert_eq.
  - intros k k' r m Hk. by apply lookup_insert_ne.
  - intros m. apply NoDup_fst_map_to_list.
  - intros m k rs. apply elem_of_map_to_list.
Qed.

Section props.
Context {M : Type} `{!MultiMap M, !MultiMapLaws M} (env : PathEnv).
Implicit Types p q : Policy M.

(** The rules filed under a program, and the exact matches of a command. *)
Definition rules_for p (program : str) : list PrefixRule :=
  default [] (mm_get_vec program (rules_by_program p)).
Definition exact_matches p (cmd : list str) : list RuleMatch :=
  default [] (match_exact_rules p cmd).

Lemma exact_matches_cons p c cmd :
  exact_matches p (c :: cmd) = omap (λ r, rule_matches r (c :: cmd)) (rules_for p c).
Proof. unfold exact_matches, rules_for. simpl. by destruct (mm_get_vec _ _). Qed.

Lemma matches_exact p cmd fallback options :
  exact_matches p cmd ≠ [] →
  matches_for_command_with_options env p cmd fallback options = exact_matches p cmd.
Proof.
  intros Hne. unfold matches_for_command_with_options. fold (exact_matches p cmd).
  destruct (exact_matches p cmd); [done|]. cbn. by destruct fallback.
Qed.

Lemma matches_nonempty p cmd fallback options :
  matches_for_command_with_options env p cmd (Some fallback) options ≠ [].
Proof.
  unfold matches_for_command_with_options.
  match goal with |- context [is_empty ?l] => destruct l eqn:E end.
  all: cbn; try done. all: case_match; done.
Qed.

Lemma exact_match_in p cmd r prefix args fallback options :
  cmd = prefix ++ args → covers (pattern r) prefix → r ∈ rules_for p (rule_program r) →
  PrefixRuleMatch prefix (rule_decision r) None (rule_justification r)
    ∈ matches_for_command_with_options env p cmd fallback options.
Proof.
  intros -> Hc Hr. assert (PrefixRuleMatch prefix (rule_decision r) None (rule_justification r)
    ∈ exact_matches p (prefix ++ args)) as Hin.
  { pose proof (rule_matches_covers r prefix args Hc) as Hm.
    destruct Hc as (args' & -> & _). cbn [app] in *. rewrite exact_matches_cons.
    apply list_elem_of_omap. by exists r. }
  rewrite matches_exact; [done|]. intros E. rewrite E in Hin. by apply not_elem_of_nil in Hin.
Qed.

(** C5: a check of commands decides with the strictest match: it returns (an
    empty list of commands apart, which panics), its decision is at least as
    strict as every match and is that of some match; so it is at least as
    strict as every rule filed under its program whose pattern covers a prefix
    of one of the commands, and, for a command no rule matches, as the
    fallback's decision. *)
Theorem check_decides_by_strictest_rule p cmds fallback options :
  (cmds = [] → check_multiple_with_options env p cmds fallback options = Panic)
  ∧ (cmds ≠ [] → ∃ ev, check_multiple_with_options env p cmds fallback options = Ok ev
      ∧ Forall (λ m, at_least (decision ev) (match_decision m)) (matched_rules ev)
      ∧ Exists (λ m, match_decision m = decision ev) (matched_rules ev)
      ∧ (∀ cmd r prefix args, cmd ∈ cmds → cmd = prefix ++ args →
           covers (pattern r) prefix → r ∈ rules_for p (rule_program r) →
           at_least (decision ev) (rule_decision r))
      ∧ (∀ cmd, cmd ∈ cmds → matches_for_command_with_options env p cmd None options = [] →
           at_least (decision ev) (fallback cmd))).
Proof.
  split; [by intros ->|]. intros Hne. unfold check_multiple_with_options.
  set (ms := cmds ≫= _).
  assert (∀ cmd m, cmd ∈ cmds →
    m ∈ matches_for_command_with_options env p cmd (Some fallback) options → m ∈ ms) as Hin
    by (intros cmd m Hcmd Hm; apply list_elem_of_bind; by exists cmd).
  assert (ms ≠ []) as Hms.
  { destruct cmds as [|cmd cmds]; [done|]. pose proof (matches_nonempty p cmd fallback options) as Hm.
    destruct (matches_for_command_with_options env p cmd (Some fallback) options) as [|m l] eqn:E; [done|].
    intros E'. assert (m ∈ ms) as H; [|rewrite E' in H; by apply not_elem_of_nil in H].
    apply (Hin cmd); [constructor|rewrite E; constructor]. }
  destruct (from_matches_spec ms Hms) as (d & -> & Hall & Hex).
  eexists. split; [done|]. cbn [decision matched_rules]. split; [done|]. split; [done|].
  rewrite Forall_forall in Hall. split.
  - intros cmd r prefix args Hcmd Hpre Hcov Hr.
    apply (Hall (PrefixRuleMatch prefix (rule_decision r) None (rule_justification r))).
    apply (Hin cmd); [done|]. by eapply exact_match_in.
  - intros cmd Hcmd Hno. apply (Hall (HeuristicsRuleMatch cmd (fallback cmd))). apply (Hin cmd); [done|].
    unfold matches_for_command_with_options in *. rewrite Hno. by constructor.
Qed.

(** ** Adding rules *)
Lemma get_insert_rules (m : M) k rs k' :
  default [] (mm_get_vec k' (insert_rules m k rs))
  = default [] (mm_get_vec k' m) ++ (if decide (k = k') then rs else []).
Proof.
  unfold insert_rules. revert m. induction rs as [|r rs IH]; intros m; cbn [foldl].
  - by case_decide; rewrite app_nil_r.
  - rewrite IH. case_decide as Hk.
    + subst k'. rewrite mm_get_insert. cbn. by rewrite <-app_assoc.
    + by rewrite mm_get_insert_ne.
Qed.

Lemma get_combine_rules (m : M) all k :
  NoDup all.*1 →
  default [] (mm_get_vec k (combine_rules m all))
  = default [] (mm_get_vec k m)
    ++ default [] (snd <$> find_first (λ x, bool_decide (x.1 = k)) all).
Proof.
  unfold combine_rules. revert m. induction all as [|[k' rs] all IH]; intros m Hnd; cbn [foldl find_first].
  - by rewrite app_nil_r.
  - apply NoDup_cons in Hnd as [Hk' Hnd]. rewrite IH, get_insert_rules by done. cbn [fst].
    case_bool_decide as Hk; [|rewrite decide_False by done; by rewrite app_nil_r].
    subst k'. rewrite decide_True by done. cbn [option_fmap option_map snd].
    destruct (find_first _ all) as [[k' rs']|] eqn:E; [|by rewrite app_nil_r].
    apply find_first_Some in E as [Hin Hk%bool_decide_eq_true]. cbn in Hk. subst k'.
    destruct Hk'. apply list_elem_of_fmap. by exists (k, rs').
Qed.

Lemma find_iter (m : M) k :
  snd <$> find_first (λ x, bool_decide (x.1 = k)) (mm_iter_all m) = mm_get_vec k m.
Proof.
  destruct (find_first _ _) as [[k' rs]|] eqn:E; cbn.
  - apply find_first_Some in E as [Hin Hk%bool_decide_eq_true]. cbn in Hk. subst k'.
    symmetry. by apply mm_iter_spec.
  - apply find_first_None in E. rewrite Forall_forall in E.
    destruct (mm_get_vec k m) as [rs|] eqn:Hg; [|done].
    apply mm_iter_spec in Hg. specialize (E _ Hg). cbn in E. by rewrite bool_decide_eq_false in E.
Qed.

Lemma rules_for_merge p q k :
  rules_for (merge_overlay p q) k = rules_for p k ++ rules_for q k.
Proof.
  unfold rules_for, merge_overlay. cbn [rules_by_program].
  rewrite get_combine_rules by apply mm_iter_keys. by rewrite find_iter.
Qed.

Lemma exact_matches_merge p q cmd :
  exact_matches (merge_overlay p q) cmd = exact_matches p cmd ++ exact_matches q cmd.
Proof.
  destruct cmd as [|c cmd]; [done|]. rewrite !exact_matches_cons, rules_for_merge. apply omap_app.
Qed.

Lemma check_exact p cmd fallback options :
  exact_matches p cmd ≠ [] →
  ∃ d, check_with_options env p cmd fallback options
       = Ok {| decision := d; matched_rules := exact_matches p cmd |}
    ∧ Forall (λ m, at_least d (match_decision m)) (exact_matches p cmd)
    ∧ Exists (λ m, match_decision m = d) (exact_matches p cmd).
Proof.
  intros Hne. unfold check_with_options. rewrite matches_exact by done. by apply from_matches_spec.
Qed.

(** An overlay adds its rules after those of the base and removes none: every
    command has the matches of both, so where the base or the overlay has a
    matching rule the merged policy is at least as strict as each; the
    overlay's entry for a host executable replaces the base's. *)
Theorem overlay_only_adds_rules p q cmd fallback options :
  exact_matches (merge_overlay p q) cmd = exact_matches p cmd ++ exact_matches q cmd
  ∧ (∀ x ev, x = p ∨ x = q → exact_matches x cmd ≠ [] →
       check_with_options env x cmd fallback options = Ok ev →
       ∃ ev', check_with_options env (merge_overlay p q) cmd fallback options = Ok ev'
         ∧ at_least (decision ev') (decision ev))
  ∧ network_rules (merge_overlay p q) = network_rules p ++ network_rules q
  ∧ ∀ name, host_executables_by_name (merge_overlay p q) !! name
      = match host_executables_by_name q !! name with
        | Some paths => Some paths
        | None => host_executables_by_name p !! name
        end.
Proof.
  pose proof (exact_matches_merge p q cmd) as Hm. split; [done|]. split; [|split; [done|]].
  - intros x ev Hx Hne Hev.
    assert (exact_matches (merge_overlay p q) cmd ≠ []) as Hne'.
    { rewrite Hm. intros [E1 E2]%app_nil. by destruct Hx as [-> | ->]. }
    destruct (check_exact x cmd fallback options Hne) as (d & Hc & _ & Hex).
    rewrite Hc in Hev. injection Hev as <-.
    destruct (check_exact _ cmd fallback options Hne') as (d' & -> & Hall & _).
    eexists. split; [done|]. cbn [decision]. apply Exists_exists in Hex as (m & Hin & <-).
    rewrite Forall_forall in Hall. apply Hall. rewrite Hm. apply elem_of_app. destruct Hx as [-> | ->]; auto.
  - intros name. cbn [merge_overlay host_executables_by_name]. rewrite lookup_union.
    by destruct (host_executables_by_name q !! name), (host_executables_by_name p !! name).
Qed.

(** ** Network domains *)

(** The decision of the last rule of a host that is not [Prompt]. *)
Definition verdict (h : str) (rules : list NetworkRule) : option Decision :=
  last (omap (λ r, if decide (host r = h ∧ net_decision r ≠ Prompt) then Some (net_decision r) else None)
          rules).

Lemma verdict_snoc h rules r :
  verdict h (rules ++ [r])
  = (if decide (host r = h ∧ net_decision r ≠ Prompt) then Some (net_decision r) else verdict h rules).
Proof.
  unfold verdict. rewrite omap_app. cbn. case_decide; [by rewrite last_snoc|by rewrite app_nil_r].
Qed.

Lemma elem_of_upsert h x l : x ∈ upsert_domain l h ↔ x = h ∨ (x ∈ l ∧ x ≠ h).
Proof.
  unfold upsert_domain. rewrite elem_of_app, list_elem_of_filter, list_elem_of_singleton. tauto.
Qed.
Lemma NoDup_upsert h l : NoDup l → NoDup (upsert_domain l h).
Proof.
  intros Hl. unfold upsert_domain. apply NoDup_app. split; [by apply NoDup_filter|].
  split; [|apply NoDup_singleton]. intros x [Hx _]%list_elem_of_filter Hx'%list_elem_of_singleton. done.
Qed.

(** In the compiled domain lists every host appears at most once; a host is
    allowed exactly when the last rule for it that is not a prompt allows it,
    and denied exactly when that rule forbids it: later rules override earlier
    ones, and no host is both. *)
Theorem last_network_rule_decides p :
  NoDup (compiled_network_domains p).1 ∧ NoDup (compiled_network_domains p).2
  ∧ ∀ h, (h ∈ (compiled_network_domains p).1 ↔ verdict h (network_rules p) = Some Allow)
       ∧ (h ∈ (compiled_network_domains p).2 ↔ verdict h (network_rules p) = Some Forbidden).
Proof.
  unfold compiled_network_domains. induction (network_rules p) as [|r rules IH] using rev_ind.
  - split; [constructor|]. split; [constructor|]. intros h. cbn.
    split; (split; [intros H; by apply not_elem_of_nil in H|done]).
  - rewrite foldl_app. cbn [foldl]. destruct (foldl compile_step ([], []) rules) as [al de].
    cbn [fst snd] in IH. destruct IH as (Ha & Hd & Hv). unfold compile_step.
    destruct (net_decision r) eqn:E; cbn [fst snd].
    + split; [by apply NoDup_upsert|]. split; [by apply NoDup_filter|]. intros h.
      rewrite elem_of_upsert, list_elem_of_filter, verdict_snoc, E.
      destruct (Hv h) as [H1 H2]. case_decide; naive_solver.
    + split; [done|]. split; [done|]. intros h. rewrite verdict_snoc, E.
      rewrite decide_False by naive_solver. apply Hv.
    + split; [by apply NoDup_filter|]. split; [by apply NoDup_upsert|]. intros h.
      rewrite elem_of_upsert, list_elem_of_filter, verdict_snoc, E.
      destruct (Hv h) as [H1 H2]. case_decide; naive_solver.
Qed.
End props.

(** ** Hosts *)
Lemma elem_of_trim c s : c ∈ trim s → c ∈ s.
Proof.
  unfold trim. destruct (trim_end_split s) as (w & Hs & _). destruct (trim_start_split (trim_end s)) as (w' & Ht & _).
  intros H. rewrite Hs, Ht, !elem_of_app. auto.
Qed.
Lemma elem_of_trim_end_matches a c s : c ∈ trim_end_matches a s → c ∈ s.
Proof.
  unfold trim_end_matches. rewrite elem_of_reverse. intros H.
  destruct (drop_while_suffix (N.eqb a) (reverse s)) as (k & Hk & _).
  rewrite <-elem_of_reverse, Hk. apply elem_of_app. by right.
Qed.
Lemma elem_of_rsplit_once a s l r c : rsplit_once a s = Some (l, r) → c ∈ l → c ∈ s.
Proof.
  unfold rsplit_once. rewrite fmap_Some. intros ([x y] & Hs & [= -> ->]) Hc.
  apply split_once_Some in Hs as [Hs _]. apply (f_equal reverse) in Hs.
  rewrite reverse_involutive in Hs. rewrite Hs, reverse_app, reverse_cons, !elem_of_app. auto.
Qed.
Lemma elem_of_strip_port c s : c ∈ strip_port s → c ∈ s.
Proof.
  unfold strip_port. case_match; [|done]. destruct (rsplit_once COLON s) as [[l r]|] eqn:E; [|done].
  case_match; [|done]. by eapply elem_of_rsplit_once.
Qed.
Lemma elem_of_strip_brackets raw s h c : strip_brackets raw s = Ok h → c ∈ h → c ∈ s.
Proof.
  unfold strip_brackets. destruct (split_once 93%N s) as [[l r]|] eqn:E; [|done].
  apply split_once_Some in E as [-> _]. case_match; [done|]. intros [= <-] Hc. rewrite elem_of_app. auto.
Qed.

Definition ascii_upper (c : char) : bool := ((65 <=? c) && (c <=? 90))%N.
(** A character that may stand in a normalised host. *)
Definition host_char (c : char) : Prop :=
  is_whitespace c = false ∧ ascii_upper c = false ∧ c ∉ [42; 47; 63; 35]%N.

Lemma lower_cases c :
  let l := (if ((65 <=? c) && (c <=? 90))%N then (c + 32)%N else c) in
  ascii_upper l = false ∧ (l = c ∨ (97 ≤ l ≤ 122)%N).
Proof.
  cbn. unfold ascii_upper. destruct (N.leb_spec 65 c), (N.leb_spec c 90); cbn.
  2-4: split; [|by left]; apply andb_false_iff; rewrite !N.leb_gt; lia.
  split; [apply andb_false_iff; rewrite !N.leb_gt; lia|right; lia].
Qed.

(** A host that [normalize_network_rule_host] accepts is not empty and has
    only characters of a plain host: no blank, no ASCII capital, no wildcard
    and none of the characters that introduce a path, a query or a fragment;
    so every network rule that [add_network_rule] appends has such a host. *)
Theorem accepted_hosts_are_plain {M : Type} (p p' : Policy M) raw proto d j :
  add_network_rule p raw proto d j = Ok p' →
  ∃ h, normalize_network_rule_host raw = Ok h
    ∧ network_rules p' = network_rules p ++
        [{| host := h; protocol := proto; net_decision := d; net_justification := j |}]
    ∧ h ≠ [] ∧ Forall host_char h ∧ is_some_and (λ t, is_empty (trim t)) j = false.
Proof.
  unfold add_network_rule. destruct (normalize_network_rule_host raw) as [h|e|] eqn:Hn; [|done..].
  cbn [mbind res_bind]. destruct (is_some_and _ j) eqn:Hj; [done|]. intros [= <-].
  exists h. split; [done|]. split; [done|].
  revert Hn. unfold normalize_network_rule_host. destruct (is_empty (trim raw)); [done|].
  destruct (contains _ _ || _ || _ || _) eqn:Hc; [done|].
  repeat setoid_rewrite orb_false_iff in Hc. destruct Hc as [[[_ H1] H2] H3].
  unfold contains_char in *. rewrite !bool_decide_eq_false in *.
  destruct (match strip_prefix _ _ with Some _ => _ | None => _ end) as [k|e|] eqn:Hk; [|done..].
  cbn [mbind res_bind]. set (n := to_ascii_lowercase _).
  destruct (is_empty n) eqn:Hne; [done|]. destruct (bool_decide (42%N ∈ n)) eqn:Hst; [done|].
  destruct (existsb is_whitespace n) eqn:Hw; [done|]. intros [= <-].
  assert (∀ c, c ∈ k → c ∈ trim raw) as Hsub.
  { intros c Hin. destruct (strip_prefix [91%N] (trim raw)) as [s|] eqn:E.
    - apply strip_prefix_Some in E. rewrite E. apply elem_of_app. right. by eapply elem_of_strip_brackets.
    - injection Hk as <-. by apply elem_of_strip_port. }
  split; [by destruct n|]. split; [|done]. apply Forall_forall. intros c Hin.
  assert (is_whitespace c = false) as Hcw.
  { apply not_true_iff_false. intros Hcw. apply not_true_iff_false in Hw. apply Hw, existsb_exists.
    exists c. split; [by apply list_elem_of_In|done]. }
  assert (c ≠ 42%N) as Hc42 by (intros ->; by apply bool_decide_eq_false in Hst).
  unfold n, to_ascii_lowercase in Hin. apply list_elem_of_fmap in Hin as (x & -> & Hx).
  apply elem_of_trim, elem_of_trim_end_matches, Hsub in Hx.
  destruct (lower_cases x) as [Hu Hl]. split; [done|]. split; [done|].
  rewrite !not_elem_of_cons. cbn zeta in Hl.
  repeat split; [done|..|apply not_elem_of_nil]; destruct Hl as [-> |Hl]; try lia; by intros ->.
Qed.

(** ** Programs named by a relative path *)
Lemma split_app_sep c s t : split c (s ++ c :: t) = split c s ++ split c t.
Proof.
  induction s as [|x s IH]; cbn [app split]; [by rewrite N.eqb_refl|].
  destruct (x =? c)%N; [by rewrite IH|]. rewrite IH. destruct (split c s) as [|q qs] eqn:E; [|done].
  by destruct s as [|y s]; [|cbn in E; destruct (y =? c)%N; [|destruct (split c s)]].
Qed.

Lemma normalize_last s name :
  is_absolute s = true → plain_name name →
  last (normalize_path (s ++ SLASH :: name)) = Some (NormalName name).
Proof.
  intros Ha Hn. unfold normalize_path, components.
  rewrite (is_absolute_app s _ Ha), split_app_sep, (split_last _ name) by apply Hn.
  rewrite omap_app. cbn [omap list_omap]. rewrite component_of_plain by done.
  rewrite app_assoc, foldl_app. cbn [foldl normalize_step buf_push].
  destruct (is_empty _) eqn:E; [|by rewrite last_snoc]. by destruct (foldl _ _ _).
Qed.

Lemma dot_program env d name :
  current_dir env = Some d → is_absolute d = true → plain_name name →
  ∃ program, from_absolute_path env (lit "./" ++ name) = Some program ∧ file_name program = Some name.
Proof.
  intros Hcwd Hd Hn. unfold from_absolute_path, absolutize, maybe_expand_home_directory.
  change (strip_prefix [TILDE] (lit "./" ++ name)) with (@None str).
  change (is_absolute (lit "./" ++ name)) with false. rewrite Hcwd. cbn [fmap option_fmap option_map].
  eexists. split; [done|]. unfold file_name, absolutize_from, path_with_base, path_push.
  change (is_absolute (lit "./" ++ name)) with false. cbn [orb]. cbn match.
  assert (∃ s, is_absolute s = true ∧
    (if is_empty d || ends_with d [SLASH] then d ++ lit "./" ++ name else d ++ SLASH :: lit "./" ++ name)
    = s ++ SLASH :: name) as (s & Hs & ->); [|by rewrite normalize_last].
  destruct (is_empty d || ends_with d [SLASH]).
  - exists (d ++ DOT). split; [by apply is_absolute_app|]. by rewrite <-app_assoc.
  - exists (d ++ SLASH :: DOT). split; [by apply is_absolute_app|]. by rewrite <-app_assoc.
Qed.

(** With host-executable resolution, a program given by a path relative to the
    current directory ([./name]) is matched by the rules of its basename,
    whatever file the path names, unless the policy lists the executables of
    that name: the resolution is not limited to absolute program paths. *)
Theorem relative_program_uses_basename_rules {M : Type} `{!MultiMap M} env (p : Policy M) d name args :
  current_dir env = Some d → is_absolute d = true → plain_name name →
  mm_get_vec (lit "./" ++ name) (rules_by_program p) = None →
  host_executables_by_name p !! name = None →
  ∃ program, from_absolute_path env (lit "./" ++ name) = Some program
    ∧ matches_for_command_with_options env p ((lit "./" ++ name) :: args) None all_options
      = with_resolved_program program <$> exact_matches p (name :: args).
Proof.
  intros Hcwd Hd Hn Hr Hh. destruct (dot_program env d name Hcwd Hd Hn) as (program & Hp & Hf).
  exists program. split; [done|]. unfold matches_for_command_with_options, match_exact_rules.
  rewrite Hr. cbn [default is_empty negb all_options resolve_host_executables].
  unfold match_host_executable_rules, executable_path_lookup_key, executable_lookup_key.
  rewrite Hp, Hf. cbn [fmap option_fmap option_map]. rewrite Hh. cbn [is_some_and].
  rewrite exact_matches_cons. unfold rules_for. by destruct (mm_get_vec name (rules_by_program p)).
Qed.

(** ** Allowed prefixes *)
(** The prefixes offered as already allowed are those of the [Allow] rules. *)
Lemma allowed_prefixes_spec {M : Type} `{!MultiMap M, !MultiMapLaws M} (p : Policy M) prefix :
  prefix ∈ get_allowed_prefixes p ↔
  ∃ k r, r ∈ rules_for p k ∧ rule_decision r = Allow ∧ prefix = rule_prefix r.
Proof.
  unfold get_allowed_prefixes, rules_for. rewrite elem_of_dedup, merge_sort_Permutation.
  rewrite list_elem_of_bind. split.
  - intros ([k rs] & Hin & Hk). apply list_elem_of_bind in Hin as (r & Hr & Hrs).
    case_decide; [|by apply not_elem_of_nil in Hr]. apply list_elem_of_singleton in Hr.
    apply mm_iter_spec in Hk. exists k, r. by rewrite Hk.
  - intros (k & r & Hr & Hd & ->). destruct (mm_get_vec k (rules_by_program p)) as [rs|] eqn:E; [|by apply not_elem_of_nil in Hr].
    exists (k, rs). split; [|by apply mm_iter_spec]. apply list_elem_of_bind. exists r.
    split; [|done]. rewrite decide_True by done. by apply list_elem_of_singleton.
Qed.

(** ** Examples *)
Definition rule_of (tokens : list str) (d : Decision) : PrefixRule :=
  {| pattern := {| first := default [] (head tokens); rest := Single <$> tail tokens |};
     rule_decision := d; rule_justification := None |}.
Definition git_allow : PrefixRule := rule_of [lit "git"] Allow.
Definition git_push_forbidden : PrefixRule := rule_of [lit "git"; lit "push"] Forbidden.
Definition demo_policy : Policy (gmap str (list PrefixRule)) :=
  new_policy {[ lit "git" := [git_allow; git_push_forbidden] ]}.
Definition demo_overlay : Policy (gmap str (list PrefixRule)) :=
  new_policy {[ lit "git" := [rule_of [lit "git"; lit "status"] Prompt] ]}.
Definition always_prompt (cmd : list str) : Decision := Prompt.

Lemma check_decides_witness :
  ∃ ev, check_multiple_with_options demo_env demo_policy [[lit "ls"]; [lit "git"; lit "push"; lit "-f"]]
          always_prompt default_options = Ok ev
    ∧ at_least (decision ev) Forbidden.
Proof.
  destruct (check_decides_by_strictest_rule demo_env demo_policy [[lit "ls"]; [lit "git"; lit "push"; lit "-f"]]
    always_prompt default_options) as [_ H].
  destruct H as (ev & Hev & _ & _ & Hr & _); [discriminate|]. exists ev. split; [exact Hev|].
  apply (Hr [lit "git"; lit "push"; lit "-f"] git_push_forbidden [lit "git"; lit "push"] [lit "-f"]).
  - right. left.
  - reflexivity.
  - exists [lit "push"]. split; [reflexivity|]. constructor; [left|constructor].
  - vm_compute. right. left.
Defined.

Lemma overlay_witness :
  ∃ ev', check_with_options demo_env (merge_overlay demo_policy demo_overlay) [lit "git"; lit "status"]
           always_prompt default_options = Ok ev'
    ∧ at_least (decision ev') Prompt.
Proof.
  destruct (overlay_only_adds_rules demo_env demo_policy demo_overlay [lit "git"; lit "status"]
    always_prompt default_options) as (_ & H & _).
  apply (H demo_overlay {| decision := Prompt;
    matched_rules := [PrefixRuleMatch [lit "git"; lit "status"] Prompt None None] |}).
  - right. reflexivity.
  - vm_compute. discriminate.
  - vm_compute. reflexivity.
Defined.

Definition example_network_policy : Policy (gmap str (list PrefixRule)) :=
  {| rules_by_program := ∅;
     network_rules := [{| host := lit "example.com"; protocol := Https; net_decision := Forbidden; net_justification := None |}];
     host_executables_by_name := ∅ |}.
Lemma accepted_hosts_witness :
  ∃ h, normalize_network_rule_host (lit " Example.COM.:443") = Ok h ∧ h ≠ [] ∧ Forall host_char h.
Proof.
  destruct (accepted_hosts_are_plain (new_policy (∅ : gmap str (list PrefixRule))) example_network_policy
    (lit " Example.COM.:443") Https Forbidden None) as (h & Hh & _ & Hne & Hc & _); [reflexivity|].
  exists h. repeat split; assumption.
Defined.

Lemma relative_program_witness :
  ∃ program, from_absolute_path demo_env (lit "./git") = Some program
    ∧ matches_for_command_with_options demo_env demo_policy [lit "./git"; lit "log"] None all_options
      = [PrefixRuleMatch [lit "git"] Allow (Some program) None].
Proof.
  destruct (relative_program_uses_basename_rules demo_env demo_policy (lit "/work") (lit "git") [lit "log"])
    as (program & Hp & Hm).
  - reflexivity.
  - reflexivity.
  - apply (bool_decide_unpack _). vm_compute. exact I.
  - vm_compute. reflexivity.
  - vm_compute. reflexivity.
  - exists program. split; [exact Hp|]. etransitivity; [exact Hm|]. vm_compute. reflexivity.
Defined.
