(* ===== verification/Memory.v ===== *)
(** * kernel: run-scoped search memory

    [Snapshot::merge] of [kernel/src/memory.rs]: the findings of a batch and the
    evaluator's facts are checked and absorbed into the memory, then every
    category is cut to its size, oldest entries first. *)
From stdpp Require Import gmap.
From S2P Require Import Prelude Str.

Inductive Category := SearchFindings | ErrorsAndCorrections | SuccessfulPatterns | KeyFiles | Learnings.
#[export] Instance Category_eq_dec : EqDecision Category.
Proof. solve_decision. Defined.

Definition CATEGORIES : list Category :=
  [SearchFindings; ErrorsAndCorrections; SuccessfulPatterns; KeyFiles; Learnings].
Definition MAX_SECTION_CHARS : N := 8000.

Record Finding := { category : Category; text : str; evidence : str }.
Record Entry := { finding : Finding; batch : nat; evaluator_fact : bool }.
(** [version] is an [i64]. *)
Record Snapshot := { version : Z; entries : list Entry }.
Definition default_snapshot : Snapshot := {| version := 0; entries := [] |}.

(** The two checks of a finding. *)
Definition one_line (f : Finding) : bool :=
  negb (is_empty (trim (text f))) && (length (text f) <=? 150)
  && negb (contains_char LF (text f) || contains_char CR (text f)).
Definition ENTRY_ERROR : str := lit "memory entries must be one line, at most 150 characters".
Definition EVIDENCE_ERROR : str := lit "memory entry references unknown evidence".
Definition check_finding (known : gset str) (f : Finding) : res str unit :=
  ensure (one_line f) ENTRY_ERROR;; ensure (bool_decide (evidence f ∈ known)) EVIDENCE_ERROR.

(** An entry for the same category and text. *)
Definition same_finding (f : Finding) (e : Entry) : bool :=
  bool_decide (category (finding e) = category f) && str_eqb (text (finding e)) (text f).

(** The rest of the loop body: an existing entry is replaced by a fact and kept
    otherwise; a new finding is appended. *)
Definition absorb (b : nat) (es : list Entry) (f : Finding) (fact : bool) : list Entry :=
  let entry := {| finding := f; batch := b; evaluator_fact := fact |} in
  match position (same_finding f) es with
  | Some i => if fact then <[i := entry]> es else es
  | None => es ++ [entry]
  end.

Fixpoint absorb_all (known : gset str) (b : nat) (es : list Entry) (fs : list (Finding * bool))
    : res str (list Entry) :=
  match fs with
  | [] => Ok es
  | (f, fact) :: fs => check_finding known f;; absorb_all known b (absorb b es f fact) fs
  end.

(** The size of a category, and the loop that cuts it; [None] is a loop that does
    not end. *)
Definition in_category (c : Category) (e : Entry) : bool := bool_decide (category (finding e) = c).
Definition entry_size (e : Entry) : N :=
  (N.of_nat (length (text (finding e))) + N.of_nat (length (evidence (finding e))) + 64)%N.
Definition total_size (es : list Entry) : N := foldr N.add 0%N (entry_size <$> es).
Definition section (c : Category) (es : list Entry) : list Entry := filter (λ e, in_category c e = true) es.
Fixpoint cut_section (fuel : nat) (c : Category) (es : list Entry) : option (list Entry) :=
  match fuel with
  | 0 => None
  | S fuel =>
      if (MAX_SECTION_CHARS <? total_size (section c es))%N then
        match position (in_category c) es with
        | Some i => cut_section fuel c (delete i es)
        | None => cut_section fuel c es
        end
      else Some es
  end.
Fixpoint cut_sections (cs : list Category) (es : list Entry) : option (list Entry) :=
  match cs with
  | [] => Some es
  | c :: cs => es ← cut_section (S (length es)) c es; cut_sections cs es
  end.

Definition I64_MAX : Z := 2 ^ 63 - 1.

Definition merge (s : Snapshot) (b : nat) (findings facts : list Finding) (known : gset str)
    : res str Snapshot :=
  es ← absorb_all known b (entries s)
         (((λ f, (f, false)) <$> findings) ++ ((λ f, (f, true)) <$> facts));
  match cut_sections CATEGORIES es with
  | Some es =>
      if decide (version s = I64_MAX) then Panic
      else Ok {| version := version s + 1; entries := es |}
  | None => Panic
  end.

(** ** Absorbing *)
Definition key (f : Finding) : Category * str := (category f, text f).
Definition entry_key (e : Entry) : Category * str := key (finding e).

Lemma same_finding_spec f e : same_finding f e = true ↔ entry_key e = key f.
Proof.
  unfold same_finding, entry_key, key. rewrite andb_true_iff, bool_decide_eq_true, str_eqb_eq.
  split; [by intros [-> ->]|by intros [= -> ->]].
Qed.

Definition entry_of (b : nat) (f : Finding) (fact : bool) : Entry :=
  {| finding := f; batch := b; evaluator_fact := fact |}.

Lemma position_same f es :
  match position (same_finding f) es with
  | Some i => ∃ e, es !! i = Some e ∧ entry_key e = key f
  | None => key f ∉ entry_key <$> es
  end.
Proof.
  destruct (position (same_finding f) es) as [i|] eqn:E.
  - apply position_Some in E as (e & He & Hf & _). exists e. by rewrite <-same_finding_spec.
  - apply position_None in E. rewrite Forall_forall in E. intros (e & Hk & He)%list_elem_of_fmap.
    specialize (E e He). apply not_true_iff_false in E. by apply E, same_finding_spec.
Qed.

Lemma absorb_keys b es f fact :
  entry_key <$> absorb b es f fact =
  (entry_key <$> es) ++ (if decide (key f ∈ entry_key <$> es) then [] else [key f]).
Proof.
  unfold absorb. pose proof (position_same f es) as Hp. destruct (position (same_finding f) es) as [i|].
  - destruct Hp as (e & He & Hk). rewrite decide_True, app_nil_r.
    2:{ rewrite <-Hk. apply list_elem_of_fmap. exists e. split; [done|]. by eapply list_elem_of_lookup_2. }
    destruct fact; [|done]. rewrite list_fmap_insert. unfold entry_key at 1. cbn [finding].
    rewrite list_insert_id; [done|]. by rewrite list_lookup_fmap, He, <-Hk.
  - by rewrite decide_False, fmap_app.
Qed.

(** A fact takes the place of what the memory has under its key; an inference is
    noted only if there is nothing. *)
Lemma absorb_fact b es f e :
  NoDup (entry_key <$> es) →
  e ∈ absorb b es f true ↔ e = entry_of b f true ∨ e ∈ es ∧ entry_key e ≠ key f.
Proof.
  intros Hnd. unfold absorb. fold (entry_of b f true). pose proof (position_same f es) as Hp.
  destruct (position (same_finding f) es) as [i|].
  - destruct Hp as (e0 & He0 & Hk). rewrite !list_elem_of_lookup. split.
    + intros [j [(_ & <- & _)|[Hij Hj]]%list_lookup_insert_Some]; [by left|right]. split; [by exists j|].
      intros Hkj. apply Hij. eapply (NoDup_lookup _ i j (key f) Hnd); rewrite list_lookup_fmap.
      * by rewrite He0, <-Hk.
      * by rewrite Hj, <-Hkj.
    + intros [->|[[j Hj] Hne]].
      * exists i. apply list_lookup_insert_eq. by eapply lookup_lt_Some.
      * exists j. rewrite list_lookup_insert_ne; [done|]. intros ->. congruence.
  - rewrite elem_of_app, list_elem_of_singleton. split; [|tauto]. intros [He|?]; [|by left]. right. split; [done|].
    intros Hk. apply Hp. rewrite <-Hk. by apply list_elem_of_fmap_2.
Qed.
Lemma absorb_inference b es f e :
  e ∈ absorb b es f false ↔ e ∈ es ∨ key f ∉ entry_key <$> es ∧ e = entry_of b f false.
Proof.
  unfold absorb. fold (entry_of b f false). pose proof (position_same f es) as Hp.
  destruct (position (same_finding f) es) as [i|].
  - destruct Hp as (e0 & He0 & Hk). split; [by left|]. intros [?|[Hn _]]; [done|]. destruct Hn. rewrite <-Hk.
    apply list_elem_of_fmap_2. by eapply list_elem_of_lookup_2.
  - rewrite elem_of_app, list_elem_of_singleton. naive_solver.
Qed.

(** *** What a batch makes of a memory

    [noted b es fs e]: with the findings [fs] of the batch [b], in order and each
    with the mark that tells facts from inferences, the memory [es] has the entry
    [e].  It is the latest fact with its category and text; an entry that was there
    and that no fact replaces; or the first inference under a category and text
    that were not there and that no fact takes. *)
Definition names_fact (fs : list (Finding * bool)) (k : Category * str) : Prop := ∃ g, (g, true) ∈ fs ∧ key g = k.
Inductive noted (b : nat) (es : list Entry) (fs : list (Finding * bool)) : Entry → Prop :=
  | noted_fact before f after :
      fs = before ++ (f, true) :: after → ¬ names_fact after (key f) → noted b es fs (entry_of b f true)
  | noted_before e : e ∈ es → ¬ names_fact fs (entry_key e) → noted b es fs e
  | noted_inference before f after :
      fs = before ++ (f, false) :: after → key f ∉ entry_key <$> es → key f ∉ (λ x, key x.1) <$> before →
      ¬ names_fact fs (key f) → noted b es fs (entry_of b f false).

Lemma names_fact_snoc fs f fact k : names_fact (fs ++ [(f, fact)]) k ↔ names_fact fs k ∨ fact = true ∧ key f = k.
Proof.
  unfold names_fact. setoid_rewrite elem_of_app. setoid_rewrite list_elem_of_singleton. split.
  - intros (g & [?|[= <- <-]] & ?); [left; eauto|by right].
  - intros [(g & ? & ?)|[-> <-]]; eauto.
Qed.
Lemma noted_key b es fs e : noted b es fs e → entry_key e ∈ entry_key <$> es ∨ entry_key e ∈ (λ x, key x.1) <$> fs.
Proof.
  intros [before f after -> _|e' He _|before f after -> _ _ _]; [right|left|right].
  - rewrite fmap_app, fmap_cons. apply elem_of_app. right. left.
  - by apply list_elem_of_fmap_2.
  - rewrite fmap_app, fmap_cons. apply elem_of_app. right. left.
Qed.
Lemma noted_snoc_fact b es fs f e :
  noted b es (fs ++ [(f, true)]) e ↔ e = entry_of b f true ∨ noted b es fs e ∧ entry_key e ≠ key f.
Proof.
  split.
  - intros H. inversion H as [before g after E Hn|e' He Hn|before g after E Hk Hb Hn]; subst.
    + destruct after as [|x after _] using rev_ind.
      * apply app_inj_tail in E as [_ [= ->]]. by left.
      * right. rewrite app_comm_cons, app_assoc in E. apply app_inj_tail in E as [-> <-].
        rewrite names_fact_snoc in Hn. split; [by eapply noted_fact; [done|naive_solver]|naive_solver].
    + right. rewrite names_fact_snoc in Hn. split; [apply noted_before; naive_solver|naive_solver].
    + right. destruct after as [|x after _] using rev_ind; [by apply app_inj_tail in E as [_ [=]]|].
      rewrite app_comm_cons, app_assoc in E. apply app_inj_tail in E as [-> <-]. rewrite names_fact_snoc in Hn.
      split; [by eapply noted_inference; [done|done|done|naive_solver]|naive_solver].
  - intros [->|[H Hne]].
    + eapply (noted_fact _ _ _ fs f []); [done|]. by intros (g & ?%elem_of_nil & _).
    + destruct H as [before g after -> Hn|e' He Hn|before g after -> Hk Hb Hn].
      * eapply (noted_fact _ _ _ before g (after ++ [(f, true)])); [by rewrite <-app_assoc|].
        rewrite names_fact_snoc. intros [?|[_ ?]]; [done|]. by apply Hne.
      * apply noted_before; [done|]. rewrite names_fact_snoc. intros [?|[_ ?]]; [done|]. by apply Hne.
      * eapply (noted_inference _ _ _ before g (after ++ [(f, true)])); [by rewrite <-app_assoc|done|done|].
        rewrite names_fact_snoc. intros [?|[_ ?]]; [done|]. by apply Hne.
Qed.
Lemma noted_snoc_inference b es fs f e :
  noted b es (fs ++ [(f, false)]) e ↔
  noted b es fs e ∨ key f ∉ entry_key <$> es ∧ key f ∉ (λ x, key x.1) <$> fs ∧ e = entry_of b f false.
Proof.
  assert (∀ k, names_fact (fs ++ [(f, false)]) k ↔ names_fact fs k) as Hnf.
  { intros k. rewrite names_fact_snoc. naive_solver. }
  split.
  - intros H. inversion H as [before g after E Hn|e' He Hn|before g after E Hk Hb Hn]; subst.
    + destruct after as [|x after _] using rev_ind; [by apply app_inj_tail in E as [_ [=]]|].
      rewrite app_comm_cons, app_assoc in E. apply app_inj_tail in E as [-> <-]. rewrite names_fact_snoc in Hn.
      left. by eapply noted_fact; [done|naive_solver].
    + left. apply noted_before; [done|]. by rewrite <-Hnf.
    + destruct after as [|x after _] using rev_ind.
      * apply app_inj_tail in E as [-> [= ->]]. by right.
      * left. rewrite app_comm_cons, app_assoc in E. apply app_inj_tail in E as [-> <-].
        eapply noted_inference; [done|done|done|]. by rewrite <-Hnf.
  - intros [H|(Hk & Hb & ->)].
    + destruct H as [before g after -> Hn|e' He Hn|before g after -> Hk Hb Hn].
      * eapply (noted_fact _ _ _ before g (after ++ [(f, false)])); [by rewrite <-app_assoc|].
        rewrite names_fact_snoc. naive_solver.
      * apply noted_before; [done|]. by rewrite Hnf.
      * eapply (noted_inference _ _ _ before g (after ++ [(f, false)])); [by rewrite <-app_assoc|done|done|].
        by rewrite Hnf.
    + eapply (noted_inference _ _ _ fs f []); [done|done|done|]. rewrite Hnf. intros (g & Hg & Hkg). apply Hb.
      rewrite <-Hkg. by apply (list_elem_of_fmap_2 (λ x, key x.1) _ (g, true)).
Qed.

(** Findings that are not yet there, in the order in which they first occur. *)
Fixpoint new_keys (seen ks : list (Category * str)) : list (Category * str) :=
  match ks with
  | [] => []
  | k :: ks => if decide (k ∈ seen) then new_keys seen ks else k :: new_keys (seen ++ [k]) ks
  end.
Lemma new_keys_snoc seen ks k :
  new_keys seen (ks ++ [k]) = new_keys seen ks ++ (if decide (k ∈ seen ++ new_keys seen ks) then [] else [k]).
Proof.
  revert seen. induction ks as [|x ks IH]; intros seen; cbn [app new_keys].
  - rewrite app_nil_r. by destruct (decide (k ∈ seen)).
  - destruct (decide (x ∈ seen)); [apply IH|]. rewrite IH. by rewrite <-app_assoc.
Qed.
Lemma elem_of_new_keys seen ks k : k ∈ seen ++ new_keys seen ks ↔ k ∈ seen ∨ k ∈ ks.
Proof.
  revert seen. induction ks as [|x ks IH]; intros seen; cbn [new_keys].
  - rewrite app_nil_r, elem_of_nil. tauto.
  - destruct (decide (x ∈ seen)) as [Hx|Hx].
    + rewrite IH, elem_of_cons. naive_solver.
    + replace (seen ++ x :: new_keys (seen ++ [x]) ks) with ((seen ++ [x]) ++ new_keys (seen ++ [x]) ks)
        by by rewrite <-app_assoc.
      rewrite IH, elem_of_app, list_elem_of_singleton, elem_of_cons. tauto.
Qed.
Lemma NoDup_new_keys seen ks : NoDup seen → NoDup (seen ++ new_keys seen ks).
Proof.
  revert seen. induction ks as [|x ks IH]; intros seen Hnd; cbn [new_keys]; [by rewrite app_nil_r|].
  destruct (decide (x ∈ seen)); [by apply IH|].
  replace (seen ++ x :: new_keys (seen ++ [x]) ks) with ((seen ++ [x]) ++ new_keys (seen ++ [x]) ks)
    by by rewrite <-app_assoc.
  apply IH, NoDup_app. split; [done|]. split; [|apply NoDup_singleton]. set_solver.
Qed.

Definition absorb_fold (b : nat) (es : list Entry) (fs : list (Finding * bool)) : list Entry :=
  foldl (λ es x, absorb b es x.1 x.2) es fs.
Lemma absorb_fold_spec b es fs :
  NoDup (entry_key <$> es) →
  entry_key <$> absorb_fold b es fs = (entry_key <$> es) ++ new_keys (entry_key <$> es) ((λ x, key x.1) <$> fs)
  ∧ ∀ e, e ∈ absorb_fold b es fs ↔ noted b es fs e.
Proof.
  intros Hnd. induction fs as [|[f fact] fs [IHk IH]] using rev_ind.
  { split; [by rewrite app_nil_r|]. intros e. split.
    - intros He. apply noted_before; [done|]. by intros (g & ?%elem_of_nil & _).
    - intros H. inversion H as [before f after E|e' He|before f after E]; [by destruct before|done|by destruct before]. }
  unfold absorb_fold in *. rewrite foldl_app. cbn [foldl fst snd]. set (cur := foldl _ es fs) in *.
  assert (NoDup (entry_key <$> cur)) as Hcur by (rewrite IHk; by apply NoDup_new_keys). split.
  - by rewrite absorb_keys, IHk, fmap_app, fmap_cons, fmap_nil, new_keys_snoc, app_assoc.
  - intros e. destruct fact.
    + by rewrite absorb_fact, noted_snoc_fact, IH by done.
    + rewrite absorb_inference, noted_snoc_inference, IH, IHk, elem_of_new_keys. tauto.
Qed.

(** *** Checks *)
(** A line with something to read, of at most 150 characters, that cites evidence
    the run has. *)
Definition short_line (f : Finding) : Prop :=
  (∃ c, c ∈ text f ∧ is_whitespace c = false) ∧ length (text f) ≤ 150 ∧ LF ∉ text f ∧ CR ∉ text f.
Definition finding_ok (known : gset str) (f : Finding) : Prop := short_line f ∧ evidence f ∈ known.

Lemma trim_nonempty t : negb (is_empty (trim t)) = true ↔ ∃ c, c ∈ t ∧ is_whitespace c = false.
Proof.
  assert (trim t = [] ↔ Forall (λ c, is_whitespace c = true) t) as Ht.
  { unfold trim. rewrite trim_start_nil. destruct (trim_end_split t) as (w & E & Hw). rewrite E at 2.
    rewrite Forall_app. tauto. }
  rewrite negb_true_iff. assert (is_empty (trim t) = false ↔ trim t ≠ []) as -> by (by destruct (trim t)).
  rewrite Ht. split.
  - intros H. apply not_Forall_Exists in H; [|intros c; apply _]. apply Exists_exists in H as (c & Hc & Hn).
    exists c. by apply not_true_is_false in Hn.
  - intros (c & Hc & Hn) H. rewrite Forall_forall in H. apply H in Hc. congruence.
Qed.
Lemma one_line_spec f : one_line f = true ↔ short_line f.
Proof.
  unfold one_line, short_line, contains_char. rewrite !andb_true_iff, trim_nonempty, Nat.leb_le, negb_true_iff.
  rewrite orb_false_iff, !bool_decide_eq_false. tauto.
Qed.
#[export] Instance short_line_dec f : Decision (short_line f).
Proof. refine (cast_if (decide (one_line f = true))); by rewrite <-one_line_spec. Defined.
#[export] Instance finding_ok_dec known f : Decision (finding_ok known f).
Proof. unfold finding_ok. apply _. Defined.

Lemma check_finding_spec known f :
  check_finding known f =
  if decide (short_line f) then if decide (evidence f ∈ known) then Ok tt else Err EVIDENCE_ERROR
  else Err ENTRY_ERROR.
Proof.
  unfold check_finding, ensure. destruct (decide (short_line f)) as [Hs|Hs].
  - rewrite (proj2 (one_line_spec f) Hs). cbn. case_bool_decide; [by rewrite decide_True|by rewrite decide_False].
  - rewrite <-one_line_spec in Hs. apply not_true_is_false in Hs. by rewrite Hs.
Qed.

(** The first finding that fails its checks decides the error. *)
Lemma absorb_all_spec known b fs es :
  if decide (Forall (λ x, finding_ok known x.1) fs) then absorb_all known b es fs = Ok (absorb_fold b es fs)
  else ∃ before f fact after, fs = before ++ (f, fact) :: after ∧ Forall (λ x, finding_ok known x.1) before
    ∧ ¬ finding_ok known f
    ∧ absorb_all known b es fs = Err (if decide (short_line f) then EVIDENCE_ERROR else ENTRY_ERROR).
Proof.
  revert es. induction fs as [|[f fact] fs IH]; intros es.
  { by rewrite decide_True by constructor. }
  cbn [absorb_all]. rewrite check_finding_spec. destruct (decide (finding_ok known f)) as [[Hs He]|Hno].
  - rewrite (decide_True _ _ Hs), (decide_True _ _ He). cbn [mbind res_bind]. specialize (IH (absorb b es f fact)).
    destruct (decide (Forall _ fs)) as [Hfs|Hfs].
    + by rewrite decide_True by by constructor.
    + rewrite decide_False by by intros [_ ?]%Forall_cons.
      destruct IH as (before & g & fact' & after & -> & Hb & Hg & ->).
      exists ((f, fact) :: before), g, fact', after. split_and!; [done|by constructor|done|done].
  - rewrite decide_False by by intros [? _]%Forall_cons. exists [], f, fact, fs. split_and!; [done|constructor|done|].
    destruct (decide (short_line f)); [|done]. rewrite decide_False; [done|]. intros ?. by destruct Hno.
Qed.

(** ** Cutting *)
Lemma section_delete c es i :
  position (in_category c) es = Some i → section c (delete i es) = tail (section c es).
Proof.
  unfold section. revert i. induction es as [|e es IH]; intros i; [done|]. cbn [position].
  destruct (in_category c e) eqn:E.
  - intros [= <-]. rewrite filter_cons_True by done. done.
  - rewrite fmap_Some. intros (j & Hj & ->). cbn [delete list_delete].
    rewrite !filter_cons_False by congruence. by apply IH.
Qed.
Lemma section_delete_ne c c' es i :
  c ≠ c' → position (in_category c) es = Some i → section c' (delete i es) = section c' es.
Proof.
  unfold section. intros Hne. revert i. induction es as [|e es IH]; intros i; [done|]. cbn [position].
  destruct (in_category c e) eqn:E.
  - intros [= <-]. rewrite filter_cons_False; [done|].
    unfold in_category in *. rewrite bool_decide_eq_true in *. congruence.
  - rewrite fmap_Some. intros (j & Hj & ->). cbn [delete list_delete].
    rewrite !filter_cons. case_decide; [f_equal|]; exact (IH j Hj).
Qed.

(** The space of entries, and a category that is brought within 8000 characters by
    dropping its first entries, as few as suffice. *)
Definition space (es : list Entry) : N :=
  N.of_nat (sum_list_with (λ e, length (text (finding e)) + length (evidence (finding e)) + 64) es).
Definition cut_to_size (before after : list Entry) : Prop :=
  ∃ k, after = drop k before ∧ (space after ≤ 8000)%N ∧ ∀ j, j < k → (8000 < space (drop j before))%N.
Lemma total_size_space es : total_size es = space es.
Proof.
  unfold total_size, space. induction es as [|e es IH]; [done|]. cbn [fmap list_fmap foldr sum_list_with].
  rewrite IH. unfold entry_size. lia.
Qed.

Lemma cut_section_spec fuel c es :
  length (section c es) < fuel →
  ∃ es', cut_section fuel c es = Some es' ∧ cut_to_size (section c es) (section c es')
    ∧ (∀ c', c' ≠ c → section c' es' = section c' es)
    ∧ es' `sublist_of` es.
Proof.
  revert es. induction fuel as [|fuel IH]; intros es Hf; [lia|]. cbn [cut_section].
  rewrite total_size_space.
  destruct (N.ltb_spec MAX_SECTION_CHARS (space (section c es))) as [Hlt|Hge]; unfold MAX_SECTION_CHARS in *.
  - destruct (position (in_category c) es) as [i|] eqn:E.
    + pose proof (section_delete c es i E) as Hs. destruct (section c es) as [|e rest] eqn:Hsec; [done|].
      cbn in Hs, Hf. destruct (IH (delete i es)) as (es' & Hc & (k & Hk & Hsz & Hmin) & Hne & Hsub);
        [rewrite Hs; lia|]. exists es'. split; [done|]. split; [|split].
      * exists (S k). rewrite Hs in *. split; [done|]. split; [done|].
        intros [|j] Hj; [done|]. apply Hmin. lia.
      * intros c' Hc'. rewrite Hne by done. apply (section_delete_ne c c'); [congruence|done].
      * etrans; [exact Hsub|]. apply sublist_delete.
    + exfalso. apply position_None in E. unfold section in Hlt. rewrite list_filter_nil in Hlt.
      * by vm_compute in Hlt.
      * intros e He. rewrite Forall_forall in E. by rewrite (E e He).
  - exists es. split; [done|]. split; [|done]. exists 0. split; [done|]. split; [done|lia].
Qed.

Lemma length_section c es : length (section c es) ≤ length es.
Proof. apply length_filter. Qed.

Lemma cut_sections_spec cs es :
  NoDup cs →
  ∃ es', cut_sections cs es = Some es'
    ∧ (∀ c, c ∈ cs → cut_to_size (section c es) (section c es'))
    ∧ (∀ c, c ∉ cs → section c es' = section c es)
    ∧ es' `sublist_of` es.
Proof.
  intros Hnd. revert es. induction Hnd as [|c cs Hc Hnd IH]; intros es; cbn [cut_sections].
  - exists es. split; [done|]. split; [|done]. intros c Hc. by apply not_elem_of_nil in Hc.
  - destruct (cut_section_spec (S (length es)) c es) as (es1 & -> & Hcut & Hne & Hsub);
      [pose proof (length_section c es); lia|]. cbn [mbind option_bind].
    destruct (IH es1) as (es2 & -> & Hcut2 & Hne2 & Hsub2). exists es2. split; [done|].
    split; [|split; [|by etrans]].
    + intros c' [->|Hin]%elem_of_cons; [by rewrite Hne2|].
      rewrite <-(Hne c') by congruence. by apply Hcut2.
    + intros c' [Hc' Hin]%not_elem_of_cons. by rewrite Hne2, Hne.
Qed.

Lemma all_categories c : c ∈ CATEGORIES.
Proof. destruct c; repeat (constructor; fail || constructor). Qed.
Lemma categories_nodup : NoDup CATEGORIES.
Proof. apply (bool_decide_unpack _). vm_compute. exact I. Qed.

(** The findings of a batch as the merge reads them: the inferences of the models,
    then the facts of the evaluator. *)
Definition tagged (findings facts : list Finding) : list (Finding * bool) :=
  ((λ f, (f, false)) <$> findings) ++ ((λ f, (f, true)) <$> facts).

(** C39: a merge into a memory with one entry per category and text (its version
    below the maximum) never loops or panics, and succeeds exactly when every
    finding and fact is a line with something to read, of at most 150 characters,
    that cites known evidence; otherwise the first that is not decides the error.
    The result has the next version.  Before the cuts the memory has one entry per
    category and text, the old ones first and in order: the latest fact under that
    key, else the old entry, else the first inference, marked as such; so a fact is
    never replaced by an inference, nor an inference taken for a fact.  Then every
    category is brought within 8000 characters (64 per entry beside its text and
    evidence) by dropping the fewest of its first entries, facts included. *)
Theorem merge_is_bounded_and_keeps_facts s b findings facts known :
  NoDup (entry_key <$> entries s) → (version s < I64_MAX)%Z →
  if decide (Forall (finding_ok known) (findings ++ facts)) then
    ∃ next all, merge s b findings facts known = Ok next
      ∧ version next = (version s + 1)%Z
      ∧ entry_key <$> all = (entry_key <$> entries s) ++ new_keys (entry_key <$> entries s) (key <$> findings ++ facts)
      ∧ NoDup (entry_key <$> all)
      ∧ (∀ e, e ∈ all ↔ noted b (entries s) (tagged findings facts) e)
      ∧ entries next `sublist_of` all
      ∧ (∀ c, cut_to_size (section c all) (section c (entries next)))
  else ∃ before f after, findings ++ facts = before ++ f :: after ∧ Forall (finding_ok known) before
    ∧ ¬ finding_ok known f
    ∧ merge s b findings facts known =
      Err (if decide (short_line f) then lit "memory entry references unknown evidence"
           else lit "memory entries must be one line, at most 150 characters").
Proof.
  intros Hnd Hv. unfold merge. fold (tagged findings facts). set (fs := tagged findings facts).
  pose proof (absorb_all_spec known b fs (entries s)) as Habs.
  assert (fst <$> fs = findings ++ facts) as Hfst.
  { unfold fs, tagged. rewrite fmap_app, <-!list_fmap_compose. f_equal; apply list_fmap_id. }
  assert (∀ l, Forall (λ x : Finding * bool, finding_ok known x.1) l ↔ Forall (finding_ok known) (fst <$> l)) as Hiff.
  { intros l. by rewrite Forall_fmap. }
  destruct (decide (Forall (finding_ok known) (findings ++ facts))) as [Hok|Hno].
  - rewrite decide_True in Habs by by rewrite Hiff, Hfst.
    rewrite Habs. cbn [mbind res_bind].
    destruct (absorb_fold_spec b (entries s) fs Hnd) as [Hkeys Hin]. set (all := absorb_fold b (entries s) fs) in *.
    destruct (cut_sections_spec CATEGORIES all categories_nodup) as (es & -> & Hcut & _ & Hsub).
    rewrite decide_False by lia. eexists _, all. split; [done|]. split; [done|].
    assert ((λ x, key x.1) <$> fs = key <$> findings ++ facts) as Hk by by rewrite <-Hfst, <-list_fmap_compose.
    rewrite Hk in Hkeys. split_and!; [done|rewrite Hkeys; by apply NoDup_new_keys|done|done|].
    intros c. apply Hcut, all_categories.
  - rewrite decide_False in Habs by by rewrite Hiff, Hfst.
    destruct Habs as (before & f & fact & after & Hfs & Hb & Hf & ->). exists (fst <$> before), f, (fst <$> after).
    split_and!; [by rewrite <-Hfst, Hfs, fmap_app|by rewrite <-Hiff|done|done].
Qed.

Definition demo_fact : Finding :=
  {| category := Learnings; text := lit "tile 128 is fastest"; evidence := lit "n3" |}.
Definition demo_memory : Snapshot :=
  {| version := 4;
     entries := [{| finding := {| category := Learnings; text := lit "tile 128 is fastest"; evidence := lit "n1" |};
                    batch := 0; evaluator_fact := false |}] |}.
Lemma merge_witness :
  ∃ next (all : list Entry), merge demo_memory 2 [] [demo_fact] {[lit "n3"]} = Ok next
    ∧ version next = 5%Z ∧ entry_of 2 demo_fact true ∈ all.
Proof.
  pose proof (merge_is_bounded_and_keeps_facts demo_memory 2 [] [demo_fact] {[lit "n3"]}) as H.
  rewrite decide_True in H by (constructor; [apply (bool_decide_unpack _); vm_compute; exact I|constructor]).
  destruct H as (next & all & Hm & Hv & _ & _ & Hin & _).
  - apply (bool_decide_unpack _). vm_compute. exact I.
  - vm_compute. reflexivity.
  - exists next, all. split; [exact Hm|]. split; [exact Hv|]. apply Hin.
    apply (noted_fact _ _ _ [] demo_fact []); [reflexivity|]. intros (g & Hg & _). by apply elem_of_nil in Hg.
Defined.
