(* ===== verification/Truncate.v ===== *)
(** * utils/string and output-truncation: cutting text to a budget

    [utils/string/src/truncate.rs] and the text operations of
    [utils/output-truncation/src/lib.rs].  Budgets are in bytes and kept at the
    width of [usize] (64 bits); a byte offset at a character boundary is the
    prefix of characters before it. *)
From S2P Require Import Prelude Str.

Definition USIZE_MAX : N := 2 ^ 64 - 1.
Definition saturating_add (a b : N) : N := N.min (a + b) USIZE_MAX.
Definition saturating_mul (a b : N) : N := N.min (a * b) USIZE_MAX.

(** [&s[..s.floor_char_boundary(n)]] and [&s[s.ceil_char_boundary(k)..]]. *)
Fixpoint floor_prefix (n : N) (s : str) : str :=
  match s with
  | [] => []
  | c :: s => if (len_utf8 c <=? n)%N then c :: floor_prefix (n - len_utf8 c) s else []
  end.
Fixpoint ceil_suffix (k : N) (s : str) : str :=
  match s with
  | [] => []
  | c :: s' => if (k =? 0)%N then s else ceil_suffix (k - len_utf8 c) s'
  end.

Definition APPROX_BYTES_PER_TOKEN : N := 4.
Definition approx_token_count (text : str) : N :=
  saturating_add (blen text) (APPROX_BYTES_PER_TOKEN - 1) / APPROX_BYTES_PER_TOKEN.
Definition approx_bytes_for_tokens (tokens : N) : N := saturating_mul tokens APPROX_BYTES_PER_TOKEN.
Definition approx_tokens_from_byte_count (bytes : N) : N :=
  saturating_add bytes (APPROX_BYTES_PER_TOKEN - 1) / APPROX_BYTES_PER_TOKEN.

Definition split_budget (budget : N) : N * N := let l := (budget / 2)%N in (l, (budget - l)%N).

(** The loop of [split_string]: the offset, [prefix_end], [suffix_start],
    [removed_chars] and [suffix_started]. *)
Record SplitState := {
  sp_idx : N; prefix_end : N; suffix_start : N; removed_chars : N; suffix_started : bool;
}.
Definition split_step (beginning_bytes tail_start_target : N) (st : SplitState) (ch : char) : SplitState :=
  let idx := sp_idx st in
  let char_end := (idx + len_utf8 ch)%N in
  if (char_end <=? beginning_bytes)%N then
    {| sp_idx := char_end; prefix_end := char_end; suffix_start := suffix_start st;
       removed_chars := removed_chars st; suffix_started := suffix_started st |}
  else if (tail_start_target <=? idx)%N then
    {| sp_idx := char_end; prefix_end := prefix_end st;
       suffix_start := if suffix_started st then suffix_start st else idx;
       removed_chars := removed_chars st; suffix_started := true |}
  else
    {| sp_idx := char_end; prefix_end := prefix_end st; suffix_start := suffix_start st;
       removed_chars := saturating_add (removed_chars st) 1; suffix_started := suffix_started st |}.
Definition split_string (s : str) (beginning_bytes end_bytes : N) : N * str * str :=
  if is_empty s then (0%N, [], [])
  else
    let len := blen s in
    let st := foldl (split_step beginning_bytes (len - end_bytes))
                {| sp_idx := 0; prefix_end := 0; suffix_start := len; removed_chars := 0;
                   suffix_started := false |} s in
    let suffix_start := N.max (suffix_start st) (prefix_end st) in
    (removed_chars st, floor_prefix (prefix_end st) s, ceil_suffix suffix_start s).

Definition ELLIPSIS : char := 8230%N.
Definition format_truncation_marker (use_tokens : bool) (removed_count : N) : str :=
  if use_tokens
  then ELLIPSIS :: show_N removed_count ++ lit " tokens truncated" ++ [ELLIPSIS]
  else ELLIPSIS :: show_N removed_count ++ lit " chars truncated" ++ [ELLIPSIS].
Definition removed_units (use_tokens : bool) (removed_bytes removed_chars : N) : N :=
  if use_tokens then approx_tokens_from_byte_count removed_bytes else removed_chars.
Definition assemble_truncated_output (prefix suffix marker : str) : str := prefix ++ marker ++ suffix.

Definition truncate_with_byte_estimate (s : str) (max_bytes : N) (use_tokens : bool) : str :=
  if is_empty s then []
  else if (max_bytes =? 0)%N then
    let total_chars := if use_tokens then 0%N else N.of_nat (length s) in
    format_truncation_marker use_tokens (removed_units use_tokens (blen s) total_chars)
  else if (blen s <=? max_bytes)%N then s
  else
    let total_bytes := blen s in
    let '(left_budget, right_budget) := split_budget max_bytes in
    let '(removed_chars, before, after) :=
      if use_tokens
      then (0%N, floor_prefix left_budget s, ceil_suffix (total_bytes - right_budget) s)
      else split_string s left_budget right_budget in
    let marker := format_truncation_marker use_tokens
                    (removed_units use_tokens (total_bytes - max_bytes) removed_chars) in
    assemble_truncated_output before after marker.

Definition truncate_middle_chars (s : str) (max_bytes : N) : str :=
  truncate_with_byte_estimate s max_bytes false.

Definition truncate_middle_with_marker (s : str) (max_bytes : N) (marker : str) : str :=
  if (blen s <=? max_bytes)%N then s
  else if (max_bytes <? blen marker)%N then floor_prefix max_bytes s
  else
    let '(left_budget, right_budget) := split_budget (max_bytes - blen marker) in
    assemble_truncated_output (floor_prefix left_budget s)
      (ceil_suffix (blen s - right_budget) s) marker.

Definition truncate_middle_with_token_budget (s : str) (max_tokens : N) : str * option N :=
  if is_empty s then ([], None)
  else if (0 <? max_tokens)%N && (blen s <=? approx_bytes_for_tokens max_tokens)%N then (s, None)
  else
    let truncated := truncate_with_byte_estimate s (approx_bytes_for_tokens max_tokens) true in
    if str_eqb truncated s then (truncated, None) else (truncated, Some (approx_token_count s)).

(** [take_bytes_at_char_boundary] of [lib.rs]: its loop stops at the first
    character that does not fit. *)
Fixpoint last_ok_loop (maxb idx last_ok : N) (s : str) : N :=
  match s with
  | [] => last_ok
  | ch :: s =>
      let nb := (idx + len_utf8 ch)%N in
      if (maxb <? nb)%N then last_ok else last_ok_loop maxb nb nb s
  end.
Definition take_bytes_at_char_boundary (s : str) (maxb : N) : str :=
  if (blen s <=? maxb)%N then s else floor_prefix (last_ok_loop maxb 0 0 s) s.

Lemma floor_prefix_split n s :
  ∃ r, s = floor_prefix n s ++ r ∧ (blen (floor_prefix n s) ≤ n)%N
    ∧ (∀ c r', r = c :: r' → (n < blen (floor_prefix n s) + len_utf8 c)%N).
Proof.
  revert n. induction s as [|c s IH]; intros n; cbn [floor_prefix].
  - exists []. rewrite blen_nil. split; [done|]. split; [lia|done].
  - destruct (N.leb_spec (len_utf8 c) n) as [Hle|Hgt].
    + destruct (IH (n - len_utf8 c)%N) as (r & Hs & Hl & Hn). exists r. cbn [app]. rewrite <-Hs.
      split; [done|]. rewrite blen_cons. split; [lia|]. intros d r' Hr. specialize (Hn d r' Hr). lia.
    + exists (c :: s). rewrite blen_nil. split; [done|]. split; [lia|]. intros d r' [= <- _]. lia.
Qed.

Lemma ceil_suffix_split k s :
  ∃ l, s = l ++ ceil_suffix k s ∧ (N.min k (blen s) ≤ blen l)%N
    ∧ (∀ l' c, l = l' ++ [c] → (blen l' < k)%N).
Proof.
  revert k. induction s as [|c s IH]; intros k; cbn [ceil_suffix].
  - exists []. rewrite blen_nil. split; [done|]. split; [lia|]. intros l' d E. by destruct l'.
  - destruct (N.eqb_spec k 0) as [->|Hk].
    + exists []. split; [done|]. split; [lia|]. intros l' d E. by destruct l'.
    + destruct (IH (k - len_utf8 c)%N) as (l & Hs & Hl & Hm). exists (c :: l). cbn [app]. rewrite <-Hs.
      split; [done|]. rewrite !blen_cons. split; [lia|]. intros [|d l'] e E; simplify_eq/=.
      * rewrite blen_nil. lia.
      * rewrite blen_cons. specialize (Hm l' e eq_refl).
        destruct (N.le_gt_cases k (len_utf8 d)); lia.
Qed.

Lemma split_budget_sum b : ((split_budget b).1 + (split_budget b).2 = b)%N.
Proof. unfold split_budget. cbn. pose proof (N.Div0.mul_div_le b 2). lia. Qed.

(** A prefix within one budget and a suffix within another do not meet when the
    text is longer than both together. *)
Lemma two_ends n m s :
  (n + m < blen s)%N →
  ∃ mid, s = floor_prefix n s ++ mid ++ ceil_suffix (blen s - m) s
    ∧ (blen (floor_prefix n s) ≤ n)%N ∧ (blen (ceil_suffix (blen s - m) s) ≤ m)%N
    ∧ mid ≠ []
    ∧ (∀ a c b, mid = a ++ c :: b →
         (n < blen (floor_prefix n s ++ a) + len_utf8 c)%N
         ∧ (blen (floor_prefix n s ++ a) < blen s - m)%N).
Proof.
  intros Hlen. destruct (floor_prefix_split n s) as (r & Hs & Hn & Hfit).
  destruct (ceil_suffix_split (blen s - m) s) as (l & Hs' & Hm & Hmin).
  set (pre := floor_prefix n s) in *. set (suf := ceil_suffix (blen s - m) s) in *.
  assert (∃ mid, l = pre ++ mid) as [mid ->].
  { rewrite Hs in Hs' at 1. destruct (app_eq_inv _ _ _ _ Hs') as [(k & -> & _)|(k & -> & _)]; [|by exists k].
    rewrite blen_app in Hn. exists []. destruct k as [|c k]; [by rewrite !app_nil_r|].
    exfalso. rewrite blen_cons in Hn. pose proof (len_utf8_pos c). lia. }
  exists mid. rewrite app_assoc. split; [done|]. split; [done|].
  assert (blen (pre ++ mid) + blen suf = blen s)%N as Hsum by by rewrite <-blen_app, <-Hs'.
  rewrite blen_app in Hsum, Hm. split; [lia|]. split; [intros ->; rewrite blen_nil in *; lia|].
  intros a c b ->. split.
  - rewrite blen_app. destruct a as [|d a].
    + rewrite blen_nil. assert (r = c :: b ++ suf) as Hr.
      { rewrite Hs in Hs' at 1. rewrite <-!app_assoc in Hs'. by apply app_inv_head in Hs'. }
      specialize (Hfit c _ Hr). lia.
    + assert (r = d :: a ++ (c :: b) ++ suf) as Hr.
      { rewrite Hs in Hs' at 1. rewrite <-!app_assoc in Hs'. by apply app_inv_head in Hs'. }
      specialize (Hfit d _ Hr). rewrite blen_cons. lia.
  - destruct b as [|e b _] using rev_ind.
    + apply (Hmin _ c). by rewrite app_assoc.
    + assert (blen (pre ++ a ++ c :: b) < blen s - m)%N as Hlt.
      { apply (Hmin _ e). by rewrite <-!app_assoc. }
      rewrite !blen_app, blen_cons in *. lia.
Qed.

Lemma floor_prefix_app a b : floor_prefix (blen a) (a ++ b) = a.
Proof.
  induction a as [|c a IH]; cbn [app].
  - rewrite blen_nil. destruct b as [|d b]; [done|]. cbn [floor_prefix].
    pose proof (len_utf8_pos d). destruct (N.leb_spec (len_utf8 d) 0); [lia|done].
  - cbn [floor_prefix]. rewrite blen_cons. destruct (N.leb_spec (len_utf8 c) (len_utf8 c + blen a)); [|lia].
    replace (len_utf8 c + blen a - len_utf8 c)%N with (blen a) by lia. by rewrite IH.
Qed.
Lemma ceil_suffix_app a b : ceil_suffix (blen a) (a ++ b) = b.
Proof.
  induction a as [|c a IH]; cbn [app].
  - rewrite blen_nil. by destruct b.
  - cbn [ceil_suffix]. rewrite blen_cons. pose proof (len_utf8_pos c).
    destruct (N.eqb_spec (len_utf8 c + blen a) 0); [lia|].
    by replace (len_utf8 c + blen a - len_utf8 c)%N with (blen a) by lia.
Qed.

(** The loop of [split_string] over the three parts of the text. *)
Lemma split_prefix n t a st :
  (sp_idx st + blen a ≤ n)%N → prefix_end st = sp_idx st →
  foldl (split_step n t) st a =
    {| sp_idx := sp_idx st + blen a; prefix_end := sp_idx st + blen a; suffix_start := suffix_start st;
       removed_chars := removed_chars st; suffix_started := suffix_started st |}.
Proof.
  revert st. induction a as [|c a IH]; intros [i p u r b] Hle He; cbn in *; subst.
  - rewrite blen_nil, !N.add_0_r. done.
  - rewrite blen_cons in *. unfold split_step at 2. cbn.
    destruct (N.leb_spec (i + len_utf8 c) n); [|lia]. rewrite IH by (cbn; lia). cbn.
    by rewrite !N.add_assoc.
Qed.

Lemma split_middle n t a st :
  (∀ x c y, a = x ++ c :: y → (n < sp_idx st + blen x + len_utf8 c)%N ∧ (sp_idx st + blen x < t)%N) →
  (removed_chars st + N.of_nat (length a) ≤ USIZE_MAX)%N →
  foldl (split_step n t) st a =
    {| sp_idx := sp_idx st + blen a; prefix_end := prefix_end st; suffix_start := suffix_start st;
       removed_chars := removed_chars st + N.of_nat (length a); suffix_started := suffix_started st |}.
Proof.
  revert st. induction a as [|c a IH]; intros [i p u r b] Ha Hr; cbn [sp_idx prefix_end suffix_start removed_chars suffix_started foldl] in *.
  - rewrite blen_nil, !N.add_0_r. done.
  - destruct (Ha [] c a eq_refl) as [H1 H2]. rewrite blen_nil in H1, H2. unfold split_step at 2. cbn.
    destruct (N.leb_spec (i + len_utf8 c) n); [lia|]. destruct (N.leb_spec t i); [lia|].
    cbn [length] in Hr. assert (saturating_add r 1 = (r + 1)%N) as -> by (unfold saturating_add; lia).
    rewrite IH; cbn [sp_idx prefix_end suffix_start removed_chars suffix_started].
    + rewrite blen_cons. f_equal; cbn [length]; lia.
    + intros x d y ->. destruct (Ha (c :: x) d y eq_refl) as [H3 H4]. rewrite blen_cons in *. lia.
    + lia.
Qed.

Lemma split_suffix n t a st :
  (n ≤ sp_idx st)%N → (t ≤ sp_idx st)%N →
  foldl (split_step n t) st a =
    {| sp_idx := sp_idx st + blen a; prefix_end := prefix_end st;
       suffix_start := if suffix_started st || is_empty a then suffix_start st else sp_idx st;
       removed_chars := removed_chars st;
       suffix_started := suffix_started st || negb (is_empty a) |}.
Proof.
  revert st. induction a as [|c a IH]; intros [i p u r b] Hn Ht; cbn [sp_idx prefix_end suffix_start removed_chars suffix_started foldl] in *.
  - rewrite blen_nil, N.add_0_r. cbn. by rewrite orb_true_r, orb_false_r.
  - pose proof (len_utf8_pos c). unfold split_step at 2. cbn.
    destruct (N.leb_spec (i + len_utf8 c) n); [lia|]. destruct (N.leb_spec t i); [|lia].
    rewrite IH; cbn [sp_idx prefix_end suffix_start removed_chars suffix_started]; [|lia..].
    rewrite blen_cons, orb_true_r. cbn. f_equal; [lia|]. by destruct b.
Qed.

Lemma split_string_ends s n m :
  (n + m < blen s)%N → (N.of_nat (length s) ≤ USIZE_MAX)%N →
  ∃ mid, s = floor_prefix n s ++ mid ++ ceil_suffix (blen s - m) s
    ∧ split_string s n m
      = (N.of_nat (length mid), floor_prefix n s, ceil_suffix (blen s - m) s).
Proof.
  intros Hlen Hmax. destruct (two_ends n m s Hlen) as (mid & Hs & Hn & Hm & Hne & Hmid).
  set (pre := floor_prefix n s) in *. set (suf := ceil_suffix (blen s - m) s) in *.
  exists mid. split; [done|]. unfold split_string. clearbody pre suf.
  destruct (is_empty s) eqn:E; [destruct s; [rewrite blen_nil in Hlen; lia|done]|].
  assert (blen s = blen pre + blen mid + blen suf)%N as Hsum by (rewrite Hs at 1; rewrite !blen_app; lia).
  assert (length s = length pre + length mid + length suf) as Hl by (rewrite Hs at 1; rewrite !length_app; lia).
  match goal with |- context [foldl ?f ?st s] =>
    replace (foldl f st s) with (foldl f st (pre ++ mid ++ suf)) by (f_equal; exact (eq_sym Hs)) end.
  rewrite !foldl_app.
  rewrite (split_prefix _ _ pre) by (cbn [sp_idx prefix_end]; lia). cbn [sp_idx suffix_start removed_chars suffix_started].
  rewrite (split_middle _ _ mid); cbn [sp_idx prefix_end suffix_start removed_chars suffix_started]; [| |lia].
  2:{ intros x c y Hxy. destruct (Hmid x c y Hxy) as [H1 H2]. rewrite blen_app in *. lia. }
  assert (n ≤ blen pre + blen mid)%N as Hpm.
  { destruct mid as [|c mid _] using rev_ind; [done|]. destruct (Hmid mid c [] eq_refl) as [H1 _].
    rewrite blen_app in H1. rewrite blen_app, blen_cons, blen_nil. lia. }
  rewrite (split_suffix _ _ suf); cbn [sp_idx prefix_end suffix_start removed_chars suffix_started]; [|lia..].
  rewrite orb_false_l, !N.add_0_l.
  assert ((if is_empty suf then blen s else blen pre + blen mid)%N = (blen pre + blen mid)%N) as ->.
  { destruct suf; [rewrite blen_nil in Hsum; cbn; lia|done]. }
  rewrite (N.max_l _ (blen pre)) by lia. f_equal; [f_equal|].
  - rewrite Hs at 1. apply floor_prefix_app.
  - rewrite Hs at 1. rewrite app_assoc, <-blen_app. apply ceil_suffix_app.
Qed.

(** Truncation to a budget keeps a text that fits; otherwise it keeps a prefix
    of at most half the budget and a suffix of at most the rest, whole
    characters in order, and puts between them a marker with the exact number
    of removed characters (or with the estimate of the tokens by which the text
    exceeds the budget). *)
Theorem truncation_keeps_both_ends s max_bytes use_tokens :
  (blen s ≤ USIZE_MAX)%N →
  let out := truncate_with_byte_estimate s max_bytes use_tokens in
  if is_empty s || ((0 <? max_bytes)%N && (blen s <=? max_bytes)%N) then out = s
  else ∃ pre mid suf, s = pre ++ mid ++ suf ∧ mid ≠ []
    ∧ (blen pre ≤ max_bytes / 2)%N ∧ (blen pre + blen suf ≤ max_bytes)%N
    ∧ out = pre ++ format_truncation_marker use_tokens
              (if use_tokens then approx_tokens_from_byte_count (blen s - max_bytes)
               else N.of_nat (length mid)) ++ suf.
Proof.
  intros Hmax. cbn zeta. unfold truncate_with_byte_estimate.
  destruct s as [|c s'] eqn:Es; [done|]. rewrite <-Es in *. cbn [is_empty orb].
  assert (is_empty s = false) as -> by by subst.
  destruct (N.eqb_spec max_bytes 0) as [->|Hz].
  - exists [], s, []. rewrite !app_nil_r, blen_nil, N.sub_0_r. split; [done|]. split; [by subst|].
    split; [done|]. split; [done|]. by destruct use_tokens.
  - destruct (N.ltb_spec 0 max_bytes) as [_|]; [|lia]. cbn [andb].
    destruct (N.leb_spec (blen s) max_bytes) as [|Hgt]; [done|].
    pose proof (split_budget_sum max_bytes) as Hsum. unfold split_budget in *. cbn [fst snd] in Hsum.
    set (n := (max_bytes / 2)%N) in *. set (m := (max_bytes - n)%N) in *.
    assert (length s ≤ N.to_nat (blen s)) as Hchars.
    { clear. induction s as [|d s IH]; [done|]. rewrite blen_cons. pose proof (len_utf8_pos d). cbn [length]. lia. }
    destruct (two_ends n m s ltac:(lia)) as (mid & Hs & Hn & Hm & Hne & _).
    destruct (split_string_ends s n m) as (mid' & Hs' & Hsp); [lia|lia|].
    assert (mid' = mid) as ->.
    { rewrite Hs in Hs' at 1. apply app_inv_head in Hs'. by apply app_inv_tail in Hs'. }
    exists (floor_prefix n s), mid, (ceil_suffix (blen s - m) s).
    split; [done|]. split; [done|]. split; [done|]. split; [lia|].
    destruct use_tokens; [done|]. by rewrite Hsp.
Qed.

(** Truncation with a caller's marker never exceeds the limit: a text that fits
    is unchanged; a marker that fits stands for a removed middle; and a marker
    that does not fit leaves the longest prefix that does. *)
Theorem truncation_with_marker_fits s max_bytes marker :
  let out := truncate_middle_with_marker s max_bytes marker in
  (blen out ≤ max_bytes)%N
  ∧ ((blen s ≤ max_bytes)%N → out = s)
  ∧ ((max_bytes < blen s)%N → (blen marker ≤ max_bytes)%N →
       ∃ pre mid suf, s = pre ++ mid ++ suf ∧ mid ≠ [] ∧ out = pre ++ marker ++ suf)
  ∧ ((max_bytes < blen s)%N → (max_bytes < blen marker)%N →
       ∃ c r, s = out ++ c :: r ∧ (max_bytes < blen (out ++ [c]))%N).
Proof.
  cbn zeta. unfold truncate_middle_with_marker.
  destruct (N.leb_spec (blen s) max_bytes) as [Hle|Hgt].
  { split; [done|]. split; [done|]. split; lia. }
  destruct (N.ltb_spec max_bytes (blen marker)) as [Hm|Hm].
  - destruct (floor_prefix_split max_bytes s) as (r & Hs & Hn & Hfit). split; [done|].
    split; [lia|]. split; [lia|]. intros _ _. destruct r as [|c r].
    + rewrite app_nil_r in Hs. rewrite <-Hs in Hn. lia.
    + exists c, r. split; [done|]. specialize (Hfit c r eq_refl). rewrite blen_app, blen_cons, blen_nil. lia.
  - pose proof (split_budget_sum (max_bytes - blen marker)) as Hsum. unfold split_budget in *.
    cbn [fst snd] in Hsum. set (n := ((max_bytes - blen marker) / 2)%N) in *.
    destruct (two_ends n (max_bytes - blen marker - n) s ltac:(lia)) as (mid & Hs & Hn & Hm' & Hne & _).
    unfold assemble_truncated_output. split; [rewrite !blen_app; lia|]. split; [lia|]. split; [|lia].
    intros _ _. eauto 10.
Qed.

Lemma last_ok_loop_spec maxb idx s :
  (idx ≤ maxb)%N → last_ok_loop maxb idx idx s = (idx + blen (floor_prefix (maxb - idx) s))%N.
Proof.
  revert idx. induction s as [|c s IH]; intros idx Hi; cbn [last_ok_loop floor_prefix].
  - rewrite blen_nil. lia.
  - destruct (N.ltb_spec maxb (idx + len_utf8 c)), (N.leb_spec (len_utf8 c) (maxb - idx)); try lia.
    + rewrite blen_nil. lia.
    + rewrite IH, blen_cons by lia. replace (maxb - (idx + len_utf8 c))%N with (maxb - idx - len_utf8 c)%N by lia. lia.
Qed.

(** [take_bytes_at_char_boundary] returns the longest prefix within the budget. *)
Lemma take_bytes_is_floor s maxb : take_bytes_at_char_boundary s maxb = floor_prefix maxb s.
Proof.
  unfold take_bytes_at_char_boundary. destruct (floor_prefix_split maxb s) as (r & Hs & Hn & Hfit).
  destruct (N.leb_spec (blen s) maxb) as [Hle|Hgt].
  - destruct r as [|c r]; [by rewrite app_nil_r in Hs|]. exfalso. specialize (Hfit c r eq_refl).
    apply (f_equal blen) in Hs. rewrite blen_app, blen_cons in Hs. lia.
  - rewrite last_ok_loop_spec by lia. rewrite N.add_0_l, N.sub_0_r. rewrite Hs at 2. apply floor_prefix_app.
Qed.

Lemma truncation_keeps_witness :
  let out := truncate_with_byte_estimate (lit "abcdefgh") 4 false in
  ∃ pre mid suf, lit "abcdefgh" = pre ++ mid ++ suf ∧ (blen pre + blen suf ≤ 4)%N
    ∧ out = pre ++ format_truncation_marker false (N.of_nat (length mid)) ++ suf.
Proof.
  destruct (truncation_keeps_both_ends (lit "abcdefgh") 4 false) as (pre & mid & suf & Hs & _ & _ & Hb & Ho).
  - vm_compute. discriminate.
  - exists pre, mid, suf. split; [exact Hs|]. split; [exact Hb|exact Ho].
Defined.

Lemma truncation_fits_witness :
  ∃ pre mid suf, lit "abcdefgh" = pre ++ mid ++ suf ∧ mid ≠ []
    ∧ truncate_middle_with_marker (lit "abcdefgh") 5 (lit "..") = pre ++ lit ".." ++ suf.
Proof.
  destruct (truncation_with_marker_fits (lit "abcdefgh") 5 (lit "..")) as (_ & _ & H & _).
  apply H; vm_compute; [reflexivity|discriminate].
Defined.
