(* ===== verification/OutputTruncation.v ===== *)
(** * utils/output-truncation: truncating tool output

    [utils/output-truncation/src/lib.rs] on top of [Truncate], with
    [TruncationPolicy] of [protocol/src/protocol.rs].  The media a content item
    carries, the estimate of the tokens of an audio item and [serde_json]'s
    serialization are parameters. *)
From S2P Require Import Prelude Str Float64 Json Truncate.

Inductive TruncationPolicy :=
  | Bytes (limit : N)
  | Tokens (limit : N).

Definition token_budget (p : TruncationPolicy) : N :=
  match p with Bytes n => approx_tokens_from_byte_count n | Tokens n => n end.
Definition byte_budget (p : TruncationPolicy) : N :=
  match p with Bytes n => n | Tokens n => approx_bytes_for_tokens n end.

Definition truncate_text (content : str) (policy : TruncationPolicy) : str :=
  match policy with
  | Bytes bytes => truncate_middle_chars content bytes
  | Tokens tokens => (truncate_middle_with_token_budget content tokens).1
  end.

Definition formatted_truncate_text (content : str) (policy : TruncationPolicy) : str :=
  if (blen content <=? byte_budget policy)%N then content
  else
    let original_token_count := approx_token_count content in
    let total_lines := length (lines content) in
    let result := truncate_text content policy in
    lit "Warning: truncated output (original token count: " ++ show_N original_token_count
    ++ lit ")" ++ [LF] ++ lit "Total output lines: " ++ show_nat total_lines ++ [LF; LF] ++ result.

(** [i64] values, with [usize] of 64 bits. *)
Definition I64_MAX : Z := (2 ^ 63 - 1)%Z.
Definition approx_tokens_from_byte_count_i64 (bytes : Z) : Z :=
  if (bytes <=? 0)%Z then 0%Z
  else Z.min (Z.of_N (approx_tokens_from_byte_count (N.min (Z.to_N bytes) USIZE_MAX))) I64_MAX.

Section Items.
Context {Image Detail : Type}.

Inductive FunctionCallOutputContentItem :=
  | InputText (text : str)
  | InputImage (image : Image) (detail : option Detail)
  | InputAudio (audio_url : str)
  | EncryptedContent (encrypted_content : str).

Definition item_text (i : FunctionCallOutputContentItem) : option str :=
  match i with InputText t => Some t | _ => None end.
Definition not_text (i : FunctionCallOutputContentItem) : bool := negb (is_some (item_text i)).

(** The loop that joins the texts: a separator before a text when something
    precedes it. *)
Definition combine_text (combined text : str) : str :=
  (if is_empty combined then combined else combined ++ [LF]) ++ text.

Definition formatted_truncate_text_content_items_with_policy
    (items : list FunctionCallOutputContentItem) (policy : TruncationPolicy) :
    list FunctionCallOutputContentItem * option N :=
  let text_segments := omap item_text items in
  if is_empty text_segments then (items, None)
  else
    let combined := foldl combine_text [] text_segments in
    if (blen combined <=? byte_budget policy)%N then (items, None)
    else (InputText (formatted_truncate_text combined policy) :: List.filter not_text items,
          Some (approx_token_count combined)).

(** The state of the loop of [truncate_function_output_items_with_policy]. *)
Record Budgeted := {
  out : list FunctionCallOutputContentItem;
  remaining_budget : N;
  omitted_text_items : nat;
  omitted_audio_items : nat;
}.

Definition policy_budget (p : TruncationPolicy) : N :=
  match p with Bytes _ => byte_budget p | Tokens _ => token_budget p end.
Definition with_limit (p : TruncationPolicy) (n : N) : TruncationPolicy :=
  match p with Bytes _ => Bytes n | Tokens _ => Tokens n end.
Definition text_cost (p : TruncationPolicy) (text : str) : N :=
  match p with Bytes _ => blen text | Tokens _ => approx_token_count text end.

Section Audio.
Variable estimate_audio_token_count : str → N.

Definition audio_cost (p : TruncationPolicy) (audio_url : str) : N :=
  let token_cost := estimate_audio_token_count audio_url in
  match p with Bytes _ => approx_bytes_for_tokens token_cost | Tokens _ => token_cost end.

Definition keep (st : Budgeted) (item : FunctionCallOutputContentItem) (cost : N) : Budgeted :=
  {| out := out st ++ [item]; remaining_budget := remaining_budget st - cost;
     omitted_text_items := omitted_text_items st; omitted_audio_items := omitted_audio_items st |}.
Definition omit_text (st : Budgeted) : Budgeted :=
  {| out := out st; remaining_budget := remaining_budget st;
     omitted_text_items := S (omitted_text_items st); omitted_audio_items := omitted_audio_items st |}.
Definition omit_audio (st : Budgeted) : Budgeted :=
  {| out := out st; remaining_budget := remaining_budget st;
     omitted_text_items := omitted_text_items st; omitted_audio_items := S (omitted_audio_items st) |}.
Definition exhaust (st : Budgeted) : Budgeted :=
  {| out := out st; remaining_budget := 0;
     omitted_text_items := omitted_text_items st; omitted_audio_items := omitted_audio_items st |}.

Definition budget_item (policy : TruncationPolicy) (st : Budgeted)
    (item : FunctionCallOutputContentItem) : Budgeted :=
  match item with
  | InputText text =>
      if is_empty text then st
      else if (remaining_budget st =? 0)%N then omit_text st
      else
        let cost := text_cost policy text in
        if (cost <=? remaining_budget st)%N then keep st (InputText text) cost
        else
          let snippet := truncate_text text (with_limit policy (remaining_budget st)) in
          exhaust (if is_empty snippet then omit_text st else keep st (InputText snippet) 0)
  | InputImage image detail => keep st (InputImage image detail) 0
  | InputAudio audio_url =>
      let cost := audio_cost policy audio_url in
      if (cost <=? remaining_budget st)%N then keep st (InputAudio audio_url) cost else omit_audio st
  | EncryptedContent encrypted_content => keep st (EncryptedContent encrypted_content) 0
  end.

Definition omission_note (n : nat) (what : str) : list FunctionCallOutputContentItem :=
  if (0 <? n)%nat
  then [InputText (lit "[omitted " ++ show_nat n ++ lit " " ++ what ++ lit " items ...]")]
  else [].

Definition truncate_function_output_items_with_policy
    (items : list FunctionCallOutputContentItem) (policy : TruncationPolicy) :
    list FunctionCallOutputContentItem :=
  let st := foldl (budget_item policy)
              {| out := []; remaining_budget := policy_budget policy;
                 omitted_text_items := 0; omitted_audio_items := 0 |} items in
  out st ++ omission_note (omitted_text_items st) (lit "text")
    ++ omission_note (omitted_audio_items st) (lit "audio").

Inductive FunctionCallOutputBody :=
  | Text (text : str)
  | ContentItems (items : list FunctionCallOutputContentItem).
Record FunctionCallOutputPayload := { body : FunctionCallOutputBody; success : option bool }.

Definition truncate_function_output_payload (output : FunctionCallOutputPayload)
    (policy : TruncationPolicy) : FunctionCallOutputPayload :=
  {| body :=
       match body output with
       | Text text => Text (truncate_text text policy)
       | ContentItems items => ContentItems (truncate_function_output_items_with_policy items policy)
       end;
     success := success output |}.

(** ** What the items cost *)
Definition item_cost (p : TruncationPolicy) (i : FunctionCallOutputContentItem) : N :=
  match i with
  | InputText t => text_cost p t
  | InputAudio url => audio_cost p url
  | _ => 0%N
  end.
Definition total_cost (p : TruncationPolicy) (l : list FunctionCallOutputContentItem) : N :=
  foldr (λ i n, (item_cost p i + n)%N) 0%N l.
Definition is_blank (i : FunctionCallOutputContentItem) : bool :=
  match i with InputText t => is_empty t | _ => false end.
Definition is_text (i : FunctionCallOutputContentItem) : bool :=
  match i with InputText _ => true | _ => false end.
Definition is_audio (i : FunctionCallOutputContentItem) : bool :=
  match i with InputAudio _ => true | _ => false end.
Definition is_media (i : FunctionCallOutputContentItem) : bool := negb (is_text i || is_audio i).
Definition spoken (l : list FunctionCallOutputContentItem) := List.filter (λ i, negb (is_blank i)) l.

Lemma total_cost_app p l k : total_cost p (l ++ k) = (total_cost p l + total_cost p k)%N.
Proof. unfold total_cost. induction l as [|i l IH]; cbn [app foldr]; lia. Qed.

(** What was kept of the items read so far: all of it unchanged and paid for, or
    one text cut to what was left of the budget and nothing that costs after it. *)
Inductive paid (p : TruncationPolicy) (read kept : list FunctionCallOutputContentItem) (rest : N) : Prop :=
  | paid_whole :
      kept `sublist_of` read → (total_cost p kept + rest = policy_budget p)%N → paid p read kept rest
  | paid_cut a t b :
      kept = a ++ InputText (truncate_text t (with_limit p (policy_budget p - total_cost p a))) :: b →
      (a ++ InputText t :: b) `sublist_of` read →
      (total_cost p a < policy_budget p < total_cost p a + text_cost p t)%N →
      total_cost p b = 0%N → rest = 0%N → paid p read kept rest.

Record budgeted_ok (p : TruncationPolicy) (read : list FunctionCallOutputContentItem) (st : Budgeted) : Prop := {
  ok_paid : paid p read (out st) (remaining_budget st);
  ok_texts : length (List.filter is_text (out st)) + omitted_text_items st
             = length (List.filter is_text (spoken read));
  ok_audio : length (List.filter is_audio (out st)) + omitted_audio_items st
             = length (List.filter is_audio read);
  ok_media : List.filter is_media (out st) = List.filter is_media read;
  ok_all : (total_cost p (spoken read) ≤ policy_budget p)%N →
           out st = spoken read ∧ omitted_text_items st = 0 ∧ omitted_audio_items st = 0
           ∧ (total_cost p (out st) + remaining_budget st = policy_budget p)%N;
}.

Lemma paid_skip p read kept rest i : paid p read kept rest → paid p (read ++ [i]) kept rest.
Proof.
  intros [Hs Hc|a t b -> Hs Hc Hb ->]; [apply paid_whole|eapply paid_cut]; eauto using sublist_inserts_r.
Qed.
Lemma paid_keep p read kept rest i :
  (item_cost p i ≤ rest)%N → paid p read kept rest → paid p (read ++ [i]) (kept ++ [i]) (rest - item_cost p i)%N.
Proof.
  intros Hi [Hs Hc|a t b -> Hs Hc Hb ->].
  - apply paid_whole; [by apply sublist_app|]. rewrite total_cost_app. cbn. lia.
  - apply (paid_cut _ _ _ _ a t (b ++ [i])); [by rewrite <-app_assoc| | done| |lia].
    + rewrite app_comm_cons, app_assoc. by apply sublist_app.
    + rewrite total_cost_app. cbn. lia.
Qed.
Lemma paid_snippet p read kept rest t :
  (0 < rest < text_cost p t)%N → paid p read kept rest →
  paid p (read ++ [InputText t]) (kept ++ [InputText (truncate_text t (with_limit p rest))]) 0%N.
Proof.
  intros Hr [Hs Hc|a t' b -> Hs Hc Hb ->]; [|lia].
  apply (paid_cut _ _ _ _ kept t []); [|by apply sublist_app|lia|done|done].
  by replace (policy_budget p - total_cost p kept)%N with rest by lia.
Qed.

Lemma marker_ne u n s t : s ++ format_truncation_marker u n ++ t ≠ [].
Proof. by destruct s, u. Qed.
Lemma truncate_ne s n u : s ≠ [] → truncate_with_byte_estimate s n u ≠ [].
Proof.
  intros Hs. unfold truncate_with_byte_estimate. destruct (is_empty s) eqn:E; [by destruct s|].
  destruct (N.eqb_spec n 0); [by destruct u|]. destruct (N.leb_spec (blen s) n); [done|].
  unfold split_budget. destruct u; [apply marker_ne|].
  destruct (split_string _ _ _) as [[? ?] ?]. apply marker_ne.
Qed.
Lemma truncate_text_ne s p : s ≠ [] → truncate_text s p ≠ [].
Proof.
  intros Hs. destruct p as [n|n]; cbn [truncate_text]; [by apply truncate_ne|].
  unfold truncate_middle_with_token_budget. destruct (is_empty s) eqn:E; [by destruct s|].
  destruct (_ && _); [done|]. destruct (str_eqb _ _); by apply truncate_ne.
Qed.

Lemma filter_snoc (f : FunctionCallOutputContentItem → bool) l i :
  List.filter f (l ++ [i]) = List.filter f l ++ (if f i then [i] else []).
Proof. rewrite List.filter_app. cbn. by destruct (f i). Qed.
Lemma spoken_snoc l i : spoken (l ++ [i]) = spoken l ++ (if is_blank i then [] else [i]).
Proof. unfold spoken. rewrite filter_snoc. by destruct (is_blank i). Qed.

Lemma keep_ok p read st i :
  is_blank i = false → (item_cost p i ≤ remaining_budget st)%N →
  budgeted_ok p read st → budgeted_ok p (read ++ [i]) (keep st i (item_cost p i)).
Proof.
  intros Hb Hc [Hp Ht Ha Hm Hall].
  split; cbn [out remaining_budget omitted_text_items omitted_audio_items keep];
    rewrite ?spoken_snoc, ?Hb, ?filter_snoc.
  - by apply paid_keep.
  - rewrite !length_app. lia.
  - rewrite !length_app. lia.
  - by rewrite Hm.
  - intros Htot. rewrite total_cost_app in Htot. destruct Hall as (-> & -> & -> & Hsum); [lia|].
    rewrite total_cost_app. cbn [total_cost foldr] in *. split; [done|]. split; [done|]. split; [done|].
    unfold total_cost in *. lia.
Qed.

Lemma omit_ok p read st i :
  is_blank i = false → (is_text i = true ∨ is_audio i = true) →
  (remaining_budget st < item_cost p i)%N → budgeted_ok p read st →
  budgeted_ok p (read ++ [i]) (if is_text i then omit_text st else omit_audio st).
Proof.
  intros Hb Hk Hc [Hp Ht Ha Hm Hall].
  assert (paid p (read ++ [i]) (out st) (remaining_budget st)) as Hp' by by apply paid_skip.
  assert ((total_cost p (spoken read) + item_cost p i ≤ policy_budget p)%N → False) as Hno.
  { intros Htot. destruct Hall as (E & _ & _ & Hsum); [lia|]. rewrite E in Hsum. lia. }
  destruct i as [t|im d|u|e]; [|by destruct Hk|..|by destruct Hk]; cbn [is_text is_audio item_cost] in *;
  (split; cbn [out remaining_budget omitted_text_items omitted_audio_items omit_text omit_audio];
    rewrite ?spoken_snoc, ?Hb, ?filter_snoc, ?app_nil_r, ?length_app; cbn [is_text is_audio length]; try (done || lia);
    try (by rewrite Hm, app_nil_r); intros Htot; exfalso; apply Hno; rewrite total_cost_app in Htot;
    cbn [total_cost foldr item_cost] in Htot; unfold total_cost; lia).
Qed.

Lemma snippet_ok p read st t :
  t ≠ [] → (0 < remaining_budget st < text_cost p t)%N → budgeted_ok p read st →
  budgeted_ok p (read ++ [InputText t])
    (exhaust (keep st (InputText (truncate_text t (with_limit p (remaining_budget st)))) 0)).
Proof.
  intros Ht Hr [Hp Htx Ha Hm Hall]. assert (is_empty t = false) as He by by destruct t.
  split; cbn [out remaining_budget omitted_text_items omitted_audio_items keep exhaust];
    rewrite ?spoken_snoc; cbn [is_blank]; rewrite ?He, ?filter_snoc; cbn [is_text is_audio is_media orb negb];
    rewrite ?app_nil_r, ?length_app; cbn [length].
  - by apply paid_snippet.
  - lia.
  - lia.
  - done.
  - rewrite total_cost_app. cbn [total_cost foldr item_cost]. intros Htot. exfalso.
    destruct Hall as (E & _ & _ & Hsum); [lia|]. rewrite E in Hsum. unfold total_cost in *. lia.
Qed.

Lemma text_cost_pos p t : t ≠ [] → (0 < text_cost p t)%N.
Proof.
  intros Ht. assert (0 < blen t)%N as Hb.
  { destruct t as [|c t]; [done|]. rewrite blen_cons. pose proof (len_utf8_pos c). lia. }
  destruct p; cbn; [done|]. unfold approx_token_count, saturating_add, APPROX_BYTES_PER_TOKEN.
  apply N.div_str_pos. unfold USIZE_MAX. lia.
Qed.

Lemma budget_item_ok p read st i :
  budgeted_ok p read st → budgeted_ok p (read ++ [i]) (budget_item p st i).
Proof.
  intros H. pose proof (keep_ok p read st i) as Hkeep. pose proof (omit_ok p read st i) as Homit.
  destruct i as [t|im d|u|e]; cbn [budget_item is_blank is_text is_audio item_cost] in *; [|by apply Hkeep; [|lia|]|
    |by apply Hkeep; [|lia|]].
  - destruct (is_empty t) eqn:E.
    + apply is_empty_true in E as ->. destruct H as [Hp Ht Ha Hm Hall].
      split; rewrite ?spoken_snoc, ?filter_snoc; cbn [is_blank is_empty is_text is_audio is_media orb negb];
        rewrite ?app_nil_r; try done. by apply paid_skip.
    + apply is_empty_false in E. pose proof (text_cost_pos p t E).
      destruct (N.eqb_spec (remaining_budget st) 0) as [Hz|Hz]; [apply Homit; auto; lia|].
      destruct (N.leb_spec (text_cost p t) (remaining_budget st)) as [Hle|Hgt]; [by apply Hkeep|].
      pose proof (truncate_text_ne t (with_limit p (remaining_budget st)) E) as Hne.
      apply is_empty_false in Hne. rewrite Hne. apply snippet_ok; [done|lia|done].
  - destruct (N.leb_spec (audio_cost p u) (remaining_budget st)) as [Hle|Hgt]; [by apply Hkeep|].
    apply Homit; auto.
Qed.

(** Truncating the content items of a tool's output keeps images and encrypted
    content, all of them and in order; the texts and audio it keeps are items of
    the output in their order, unchanged and within the budget together, except
    for at most one text, which is cut to what the items before it left of the
    budget and after which nothing that costs is kept; the notes at the end
    count exactly the non-empty texts and the audio items that were left out;
    and an output within the budget loses nothing but its empty texts. *)
Theorem output_items_within_budget items policy :
  ∃ kept texts audios,
    truncate_function_output_items_with_policy items policy
    = kept ++ omission_note texts (lit "text") ++ omission_note audios (lit "audio")
    ∧ List.filter is_media kept = List.filter is_media items
    ∧ length (List.filter is_text kept) + texts = length (List.filter is_text (spoken items))
    ∧ length (List.filter is_audio kept) + audios = length (List.filter is_audio items)
    ∧ ((kept `sublist_of` items ∧ (total_cost policy kept ≤ policy_budget policy)%N)
       ∨ ∃ a t b,
           kept = a ++ InputText (truncate_text t (with_limit policy (policy_budget policy - total_cost policy a))) :: b
           ∧ (a ++ InputText t :: b) `sublist_of` items
           ∧ (total_cost policy (a ++ b) < policy_budget policy < total_cost policy a + text_cost policy t)%N)
    ∧ ((total_cost policy (spoken items) ≤ policy_budget policy)%N →
         kept = spoken items ∧ texts = 0 ∧ audios = 0).
Proof.
  set (st := foldl (budget_item policy)
               {| out := []; remaining_budget := policy_budget policy;
                  omitted_text_items := 0; omitted_audio_items := 0 |} items).
  assert (budgeted_ok policy items st) as [Hp Ht Ha Hm Hall].
  { subst st. induction items as [|i items IH] using rev_ind.
    - split; [by apply paid_whole|done..|]. intros _. done.
    - rewrite foldl_app. cbn [foldl]. by apply budget_item_ok. }
  exists (out st), (omitted_text_items st), (omitted_audio_items st).
  split; [done|]. split; [done|]. split; [done|]. split; [done|]. split.
  - destruct Hp as [Hs Hc|a t b Ho Hs Hc Hb _]; [left; split; [done|lia]|right].
    exists a, t, b. rewrite total_cost_app. split; [done|]. split; [done|]. lia.
  - intros Htot. destruct Hall as (? & ? & ? & _); done.
Qed.
End Audio.
End Items.

(** ** Results of MCP tools *)
Record CallToolResult := {
  content : list Value;
  structured_content : option Value;
  is_error : option bool;
  meta : option Value;
}.

Section Mcp.
(** [serde_json::to_string] on a result; [None] is an error. *)
Variable to_string : CallToolResult → option str.

Definition preview_result (result : CallToolResult) (serialized : str) (preview_budget : N) : CallToolResult :=
  let preview := if (preview_budget =? 0)%N then [] else truncate_text serialized (Bytes preview_budget) in
  {| content := [Object [(lit "type", String (lit "text")); (lit "text", String preview)]];
     structured_content := None; is_error := is_error result; meta := None |}.

Definition next_budget (preview_budget max_bytes truncated_len : N) : N :=
  N.min (saturating_mul preview_budget max_bytes / truncated_len) (preview_budget - 1).

(** The loop; [None] when [fuel] does not suffice. *)
Fixpoint preview_loop (fuel : nat) (result : CallToolResult) (serialized : str)
    (max_bytes preview_budget : N) : option CallToolResult :=
  match fuel with
  | O => None
  | S fuel =>
      let truncated := preview_result result serialized preview_budget in
      match to_string truncated with
      | None => Some result
      | Some truncated_serialized =>
          let truncated_len := blen truncated_serialized in
          if (truncated_len <=? max_bytes)%N || (preview_budget =? 0)%N then Some truncated
          else preview_loop fuel result serialized max_bytes
                 (next_budget preview_budget max_bytes truncated_len)
      end
  end.

Definition truncate_mcp_tool_result (fuel : nat) (result : CallToolResult) (max_bytes : N) :
    option CallToolResult :=
  match to_string result with
  | None => Some result
  | Some serialized =>
      if (blen serialized <=? max_bytes)%N then Some result
      else preview_loop fuel result serialized max_bytes max_bytes
  end.

Lemma next_budget_lt n m len : (0 < n)%N → (next_budget n m len < n)%N.
Proof. unfold next_budget. lia. Qed.

Lemma preview_loop_returns fuel result serialized m n :
  (N.to_nat n < fuel)%nat →
  ∃ r, preview_loop fuel result serialized m n = Some r
    ∧ ((r = result ∧ ∃ k, to_string (preview_result result serialized k) = None)
       ∨ ∃ k s, (k ≤ n)%N ∧ r = preview_result result serialized k ∧ to_string r = Some s
                ∧ ((blen s ≤ m)%N ∨ k = 0%N)).
Proof.
  revert n. induction fuel as [|fuel IH]; intros n Hf; [lia|]. cbn [preview_loop].
  destruct (to_string _) as [s|] eqn:E; [|eauto 10].
  destruct (N.leb_spec (blen s) m); [eauto 12 using N.le_refl|].
  destruct (N.eqb_spec n 0) as [Hz|Hz]; [cbn [orb]; eauto 12 using N.le_refl|]. cbn [orb].
  pose proof (next_budget_lt n m (blen s) ltac:(lia)) as Hlt.
  destruct (IH (next_budget n m (blen s)) ltac:(lia)) as (r & -> & [Hr|(k & s' & Hk & Hr)]); [by eauto 10|].
  exists r. split; [done|]. right. exists k, s'. split; [lia|done].
Qed.

(** Shrinking the result of an MCP tool terminates, within one round per byte
    of the limit, whatever the serializer does; a result that fits, or that does
    not serialize, is returned unchanged; and a replacement keeps the error flag
    and either serializes within the limit or carries an empty preview. *)
Theorem mcp_result_shrinks fuel result max_bytes :
  (N.to_nat max_bytes < fuel)%nat →
  ∃ r, truncate_mcp_tool_result fuel result max_bytes = Some r
    ∧ is_error r = is_error result
    ∧ ((∃ s, to_string result = Some s ∧ (blen s ≤ max_bytes)%N) → r = result)
    ∧ (r = result
       ∨ ∃ serialized k s, to_string result = Some serialized ∧ (max_bytes < blen serialized)%N
           ∧ (k ≤ max_bytes)%N ∧ r = preview_result result serialized k ∧ to_string r = Some s
           ∧ ((blen s ≤ max_bytes)%N ∨ k = 0%N)).
Proof.
  intros Hf. unfold truncate_mcp_tool_result.
  destruct (to_string result) as [ser|] eqn:E; [|exists result; repeat split; by left].
  destruct (N.leb_spec (blen ser) max_bytes) as [Hle|Hgt]; [exists result; repeat split; by left|].
  destruct (preview_loop_returns fuel result ser max_bytes max_bytes Hf) as (r & -> & Hr).
  exists r. split; [done|]. destruct Hr as [[-> _]|(k & s & Hk & -> & Hs & Hfit)];
    [repeat split; by left|].
  split; [done|]. split; [intros (s' & [= <-] & ?); lia|]. right. eauto 10.
Qed.
End Mcp.

(** A serializer that doubles the text of the preview, as escaping can. *)
Definition doubling (r : CallToolResult) : option str :=
  match content r with
  | [Object [_; (_, String s)]] => Some (s ++ s)
  | _ => Some (lit "0123456789012345678901234567890123456789012345678901234567890123456789")
  end.
Definition long_result : CallToolResult :=
  {| content := []; structured_content := None; is_error := Some true; meta := None |}.

Lemma mcp_shrinks_witness :
  ∃ r, truncate_mcp_tool_result doubling 61 long_result 60 = Some r ∧ is_error r = Some true.
Proof.
  destruct (mcp_result_shrinks doubling 61 long_result 60) as (r & Hr & He & _).
  - vm_compute. lia.
  - exists r. split; [exact Hr|exact He].
Defined.
