(* ===== verification/Template.v ===== *)
(** * utils/template: strict templates

    [utils/template/src/lib.rs].  The parser's cursor is a byte offset with the
    text that follows it; the text between [literal_start] and the cursor is kept
    as [literal].  Every round of the loop consumes a character, so that fuel of
    one more than the length of the source is enough; running out of it would be
    the value [Panic], which [parse_total] excludes.  [BTreeSet] and [BTreeMap]
    are lists sorted by their keys. *)
From stdpp Require Import sets.
From S2P Require Import Prelude Str.

Inductive TemplateParseError :=
  | EmptyPlaceholder (start : N)
  | NestedPlaceholder (start : N)
  | UnmatchedClosingDelimiter (start : N)
  | UnterminatedPlaceholder (start : N).
Inductive TemplateRenderError :=
  | DuplicateValue (name : str)
  | ExtraValue (name : str)
  | MissingValue (name : str).
Inductive TemplateError :=
  | ParseError (e : TemplateParseError)
  | RenderError (e : TemplateRenderError).

Inductive Segment :=
  | Literal (s : str)
  | Placeholder (name : str).

(** [BTreeMap::insert] and [get]; a set is a map to [unit]. *)
Definition btree (V : Type) := list (str * V).
Fixpoint btree_insert {V} (k : str) (v : V) (m : btree V) : btree V :=
  match m with
  | [] => [(k, v)]
  | (k', v') :: m' =>
      if str_eqb k k' then (k, v) :: m'
      else if str_leb k k' then (k, v) :: m
      else (k', v') :: btree_insert k v m'
  end.
Definition btree_get {V} (k : str) (m : btree V) : option V :=
  snd <$> find_first (λ e, str_eqb e.1 k) m.

Record Template := { placeholders : btree unit; segments : list Segment }.

(** [last_mut] and [push]. *)
Definition push_literal (segments : list Segment) (literal : str) : list Segment :=
  if is_empty literal then segments
  else match last segments with
       | Some (Literal existing) => removelast segments ++ [Literal (existing ++ literal)]
       | _ => segments ++ [Literal literal]
       end.

Definition OPEN : char := 123%N.
Definition CLOSE : char := 125%N.

Fixpoint placeholder_loop (start cursor : N) (name rest : str) :
    res TemplateParseError (str * N * str) :=
  match rest with
  | [] => Err (UnterminatedPlaceholder start)
  | ch :: rest' =>
      if starts_with rest [OPEN; OPEN] then Err (NestedPlaceholder start)
      else match strip_prefix [CLOSE; CLOSE] rest with
           | Some after =>
               let placeholder := trim name in
               if is_empty placeholder then Err (EmptyPlaceholder start)
               else Ok (placeholder, (cursor + 2)%N, after)
           | None => placeholder_loop start (cursor + len_utf8 ch)%N (name ++ [ch]) rest'
           end
  end.
(** On the text after the opening delimiter at [start]. *)
Definition parse_placeholder (start : N) (rest : str) : res TemplateParseError (str * N * str) :=
  placeholder_loop start (start + 2)%N [] rest.

Fixpoint parse_loop (fuel : nat) (placeholders : btree unit) (segments : list Segment)
    (literal : str) (cursor : N) (rest : str) : res TemplateParseError Template :=
  match fuel, rest with
  | O, _ => Panic
  | S _, [] => Ok {| placeholders := placeholders; segments := push_literal segments literal |}
  | S fuel, ch :: rest' =>
      match strip_prefix [OPEN; OPEN; OPEN; OPEN] rest with
      | Some after =>
          parse_loop fuel placeholders (push_literal (push_literal segments literal) [OPEN; OPEN])
            [] (cursor + 4)%N after
      | None =>
      match strip_prefix [CLOSE; CLOSE; CLOSE; CLOSE] rest with
      | Some after =>
          parse_loop fuel placeholders (push_literal (push_literal segments literal) [CLOSE; CLOSE])
            [] (cursor + 4)%N after
      | None =>
      match strip_prefix [OPEN; OPEN] rest with
      | Some after =>
          '(placeholder, next_cursor, after) ← parse_placeholder cursor after;
          parse_loop fuel (btree_insert placeholder tt placeholders)
            (push_literal segments literal ++ [Placeholder placeholder]) [] next_cursor after
      | None =>
          if starts_with rest [CLOSE; CLOSE] then Err (UnmatchedClosingDelimiter cursor)
          else parse_loop fuel placeholders segments (literal ++ [ch]) (cursor + len_utf8 ch)%N rest'
      end
      end
      end
  end.
Definition parse (source : str) : res TemplateParseError Template :=
  parse_loop (S (length source)) [] [] [] 0%N source.

Fixpoint build_variable_map (map : btree str) (variables : list (str * str)) :
    res TemplateRenderError (btree str) :=
  match variables with
  | [] => Ok map
  | (name, value) :: variables =>
      if is_some (btree_get name map) then Err (DuplicateValue name)
      else build_variable_map (btree_insert name value map) variables
  end.

Fixpoint render_segments (variables : btree str) (rendered : str) (segments : list Segment) :
    res TemplateRenderError str :=
  match segments with
  | [] => Ok rendered
  | Literal literal :: segments => render_segments variables (rendered ++ literal) segments
  | Placeholder name :: segments =>
      match btree_get name variables with
      | Some value => render_segments variables (rendered ++ value) segments
      | None => Err (MissingValue name)
      end
  end.

Definition Template_render (t : Template) (variables : list (str * str)) : res TemplateRenderError str :=
  variables ← build_variable_map [] variables;
  match find_first (λ n, negb (is_some (btree_get n variables))) (placeholders t).*1 with
  | Some name => Err (MissingValue name)
  | None =>
      match find_first (λ n, negb (is_some (btree_get n (placeholders t)))) variables.*1 with
      | Some name => Err (ExtraValue name)
      | None => render_segments variables [] (segments t)
      end
  end.

Definition render (template : str) (variables : list (str * str)) : res TemplateError str :=
  match parse template with
  | Ok t =>
      match Template_render t variables with
      | Ok s => Ok s
      | Err e => Err (RenderError e)
      | Panic => Panic
      end
  | Err e => Err (ParseError e)
  | Panic => Panic
  end.

Definition parse_error_message (e : TemplateParseError) : str :=
  match e with
  | EmptyPlaceholder start =>
      lit "template placeholder at byte " ++ show_N start ++ lit " is empty"
  | NestedPlaceholder start =>
      lit "template placeholder starting at byte " ++ show_N start
      ++ lit " contains a nested `{`"
  | UnmatchedClosingDelimiter start =>
      lit "template contains an unmatched `}` at byte " ++ show_N start
  | UnterminatedPlaceholder start =>
      lit "template placeholder starting at byte " ++ show_N start ++ lit " is missing `}`"
  end.
Definition render_error_message (e : TemplateRenderError) : str :=
  match e with
  | DuplicateValue name => lit "template value `" ++ name ++ lit "` was provided more than once"
  | ExtraValue name => lit "template value `" ++ name ++ lit "` is not used by this template"
  | MissingValue name => lit "template placeholder `" ++ name ++ lit "` is missing a value"
  end.
Definition error_message (e : TemplateError) : str :=
  match e with ParseError e => parse_error_message e | RenderError e => render_error_message e end.

(** ** Maps and sets *)
Section BTree.
Context {V : Type}.
Implicit Types m : btree V.

Lemma btree_get_insert k v m k' :
  btree_get k' (btree_insert k v m) = if str_eqb k k' then Some v else btree_get k' m.
Proof.
  unfold btree_get. induction m as [|[j w] m IH]; cbn [btree_insert].
  - cbn [find_first fst]. by destruct (str_eqb k k').
  - destruct (str_eqb k j) eqn:Ekj; [|destruct (str_leb k j)]; cbn [find_first fst].
    + apply str_eqb_eq in Ekj as ->. by destruct (str_eqb j k').
    + by destruct (str_eqb k k').
    + destruct (str_eqb j k') eqn:Ej; [|done]. apply str_eqb_eq in Ej as ->. by rewrite Ekj.
Qed.
Lemma btree_get_elem k m : is_some (btree_get k m) = true ↔ k ∈ m.*1.
Proof.
  unfold btree_get. induction m as [|[j w] m IH]; cbn [find_first fst fmap list_fmap].
  - split; [done|]. intros Hn. by apply not_elem_of_nil in Hn.
  - rewrite elem_of_cons. destruct (str_eqb j k) eqn:E.
    + apply str_eqb_eq in E as ->. naive_solver.
    + apply str_eqb_ne in E. rewrite IH. naive_solver.
Qed.
Lemma btree_insert_elem k v m k' : k' ∈ (btree_insert k v m).*1 ↔ k' = k ∨ k' ∈ m.*1.
Proof.
  rewrite <-!btree_get_elem, btree_get_insert. destruct (str_eqb k k') eqn:E.
  - apply str_eqb_eq in E as ->. naive_solver.
  - apply str_eqb_ne in E. naive_solver.
Qed.
End BTree.

(** ** Parsing consumes the source *)
Lemma placeholder_loop_shorter start cursor name rest p c after :
  placeholder_loop start cursor name rest = Ok (p, c, after) → length after < length rest.
Proof.
  revert cursor name. induction rest as [|ch rest IH]; intros cursor name; cbn [placeholder_loop]; [done|].
  destruct (starts_with _ _); [done|]. destruct (strip_prefix _ (ch :: rest)) as [a|] eqn:E.
  - destruct (is_empty _); [done|]. intros [= <- <- <-]. apply strip_prefix_Some in E. rewrite E. cbn. lia.
  - intros H%IH. cbn. lia.
Qed.
Lemma strip_shorter p s r : strip_prefix p s = Some r → p ≠ [] → length r < length s.
Proof.
  intros E Hp. apply strip_prefix_Some in E as ->. rewrite length_app. destruct p; [done|]. cbn. lia.
Qed.

Lemma parse_loop_fuel f f' ps segs l c rest :
  length rest < f → length rest < f' → parse_loop f ps segs l c rest = parse_loop f' ps segs l c rest.
Proof.
  revert f' ps segs l c rest. induction f as [|f IH]; intros [|f'] ps segs l c rest Hf Hf'; [lia..|].
  destruct rest as [|ch rest]; [done|]. cbn [parse_loop].
  destruct (strip_prefix _ (ch :: rest)) as [a|] eqn:E1; [apply strip_shorter in E1; [|done]; apply IH; lia|].
  destruct (strip_prefix [CLOSE; _; _; _] _) as [a|] eqn:E2; [apply strip_shorter in E2; [|done]; apply IH; lia|].
  destruct (strip_prefix [OPEN; OPEN] _) as [a|] eqn:E3.
  - apply strip_shorter in E3; [|done]. destruct (parse_placeholder c a) as [[[p c'] a']|e|] eqn:E4; [|done..].
    apply placeholder_loop_shorter in E4. cbn [mbind res_bind]. apply IH; lia.
  - destruct (starts_with _ _); [done|]. cbn [length] in *. apply IH; lia.
Qed.

(** The loop with the fuel it needs, and its rounds. *)
Definition parse_at ps segs l c rest := parse_loop (S (length rest)) ps segs l c rest.

Lemma parse_at_eq ps segs l c ch rest' :
  let rest := ch :: rest' in
  parse_at ps segs l c rest =
    match strip_prefix [OPEN; OPEN; OPEN; OPEN] rest with
    | Some after => parse_at ps (push_literal (push_literal segs l) [OPEN; OPEN]) [] (c + 4)%N after
    | None =>
    match strip_prefix [CLOSE; CLOSE; CLOSE; CLOSE] rest with
    | Some after => parse_at ps (push_literal (push_literal segs l) [CLOSE; CLOSE]) [] (c + 4)%N after
    | None =>
    match strip_prefix [OPEN; OPEN] rest with
    | Some after =>
        '(p, c', after) ← parse_placeholder c after;
        parse_at (btree_insert p tt ps) (push_literal segs l ++ [Placeholder p]) [] c' after
    | None =>
        if starts_with rest [CLOSE; CLOSE] then Err (UnmatchedClosingDelimiter c)
        else parse_at ps segs (l ++ [ch]) (c + len_utf8 ch)%N rest'
    end
    end
    end.
Proof.
  cbn zeta. unfold parse_at at 1. cbn [parse_loop].
  destruct (strip_prefix _ (ch :: rest')) as [a|] eqn:E1; [apply strip_shorter in E1; [|done]; apply parse_loop_fuel; cbn [length] in *; lia|].
  destruct (strip_prefix [CLOSE; _; _; _] _) as [a|] eqn:E2; [apply strip_shorter in E2; [|done]; apply parse_loop_fuel; cbn [length] in *; lia|].
  destruct (strip_prefix [OPEN; OPEN] _) as [a|] eqn:E3; [|done].
  apply strip_shorter in E3; [|done]. destruct (parse_placeholder c a) as [[[p c'] a']|e|] eqn:E4; [|done..].
  apply placeholder_loop_shorter in E4. cbn [mbind res_bind]. apply parse_loop_fuel; cbn [length] in *; lia.
Qed.

(** Induction over the rounds of the parser. *)
Lemma placeholder_loop_ok start c name rest : placeholder_loop start c name rest ≠ Panic.
Proof.
  revert c name. induction rest as [|ch rest IH]; intros c name; cbn [placeholder_loop]; [done|].
  destruct (starts_with _ _); [done|]. destruct (strip_prefix _ _); [by destruct (is_empty _)|done].
Qed.

Section Rounds.
Variable P : btree unit → list Segment → str → res TemplateParseError Template → Prop.
Hypothesis at_end : ∀ ps segs l,
  P ps segs l (Ok {| placeholders := ps; segments := push_literal segs l |}).
Hypothesis at_error : ∀ ps segs l e, P ps segs l (Err e).
Hypothesis at_escape : ∀ ps segs l e r,
  P ps (push_literal (push_literal segs l) e) [] r → P ps segs l r.
Hypothesis at_placeholder : ∀ ps segs l p r,
  P (btree_insert p tt ps) (push_literal segs l ++ [Placeholder p]) [] r → P ps segs l r.
Hypothesis at_char : ∀ ps segs l ch r, P ps segs (l ++ [ch]) r → P ps segs l r.

Lemma parse_rounds ps segs l c rest : P ps segs l (parse_at ps segs l c rest).
Proof.
  revert ps segs l c. induction rest as [rest IH] using (induction_ltof1 _ (@length N)). unfold ltof in IH.
  intros ps segs l c. destruct rest as [|ch rest']; [apply at_end|]. rewrite parse_at_eq.
  destruct (strip_prefix _ (ch :: rest')) as [a|] eqn:E1;
    [apply strip_shorter in E1; [|done]; eapply at_escape, IH; done|].
  destruct (strip_prefix [CLOSE; _; _; _] _) as [a|] eqn:E2;
    [apply strip_shorter in E2; [|done]; eapply at_escape, IH; done|].
  destruct (strip_prefix [OPEN; OPEN] _) as [a|] eqn:E3.
  - apply strip_shorter in E3; [|done]. destruct (parse_placeholder c a) as [[[p c'] a']|e|] eqn:E4;
      [|apply at_error|by apply placeholder_loop_ok in E4].
    apply placeholder_loop_shorter in E4. eapply at_placeholder, IH. lia.
  - destruct (starts_with _ _); [apply at_error|]. eapply at_char, IH. cbn. lia.
Qed.
End Rounds.

Lemma push_literal_eq segs l :
  l ≠ [] →
  push_literal segs l =
    match last segs with
    | Some (Literal e) => removelast segs ++ [Literal (e ++ l)]
    | _ => segs ++ [Literal l]
    end.
Proof. intros Hl. unfold push_literal. by destruct l. Qed.
Lemma push_literal_snoc segs e l : push_literal (segs ++ [Literal e]) l = segs ++ [Literal (e ++ l)].
Proof.
  unfold push_literal. destruct (is_empty l) eqn:E; [apply is_empty_true in E as ->; by rewrite app_nil_r|].
  by rewrite last_snoc, removelast_last.
Qed.
Lemma push_literal_push segs a b : push_literal (push_literal segs a) b = push_literal segs (a ++ b).
Proof.
  destruct a as [|x a]; [done|].
  rewrite (push_literal_eq _ (x :: a)), (push_literal_eq _ ((x :: a) ++ b)) by done.
  destruct (last segs) as [[e|n]|]; by rewrite push_literal_snoc, <-?app_assoc.
Qed.
Lemma push_literal_placeholder segs l n : Placeholder n ∈ push_literal segs l ↔ Placeholder n ∈ segs.
Proof.
  destruct l as [|x l]; [done|]. rewrite push_literal_eq by done.
  destruct (last segs) as [[e|m]|] eqn:E; [|set_solver..].
  apply last_Some in E as [segs' ->]. rewrite removelast_last. set_solver.
Qed.

(** The parser returns, and the placeholders it lists are those of its segments. *)
Lemma parse_total source :
  match parse source with
  | Ok t => ∀ n, n ∈ (placeholders t).*1 ↔ Placeholder n ∈ segments t
  | Err _ => True
  | Panic => False
  end.
Proof.
  unfold parse. fold (parse_at [] [] [] 0%N source).
  refine (parse_rounds (λ ps segs l r,
    (∀ n, n ∈ ps.*1 ↔ Placeholder n ∈ segs) →
    match r with
    | Ok t => ∀ n, n ∈ (placeholders t).*1 ↔ Placeholder n ∈ segments t
    | Err _ => True
    | Panic => False
    end) _ _ _ _ _ [] [] [] 0%N source _).
  - intros ps segs l H n. cbn [placeholders segments]. by rewrite push_literal_placeholder.
  - done.
  - intros ps segs l e r Hr H. apply Hr. intros n. by rewrite !push_literal_placeholder.
  - intros ps segs l p r Hr H. apply Hr. intros n.
    rewrite btree_insert_elem, elem_of_app, push_literal_placeholder, H. set_solver.
  - intros ps segs l ch r Hr H. by apply Hr.
  - intros n. set_solver.
Qed.

(** ** Rendering *)
Definition subst (variables : list (str * str)) (s : Segment) : str :=
  match s with
  | Literal l => l
  | Placeholder n => default [] (snd <$> find_first (λ e, str_eqb e.1 n) variables)
  end.

(** The names of the variables are new and distinct. *)
Definition fresh_names (m : btree str) (vs : list (str * str)) : Prop :=
  NoDup vs.*1 ∧ ∀ n, n ∈ vs.*1 → n ∉ m.*1.
Lemma fresh_names_cons m k v vs :
  fresh_names m ((k, v) :: vs) ↔ k ∉ m.*1 ∧ fresh_names (btree_insert k v m) vs.
Proof.
  unfold fresh_names. cbn [fmap list_fmap fst]. rewrite NoDup_cons. split.
  - intros [[Hk Hnd] Hdis]. split; [apply Hdis; set_solver|]. split; [done|].
    intros n Hn. rewrite btree_insert_elem. intros [->|H]; [done|]. apply (Hdis n); set_solver.
  - intros (Hk & Hnd & Hdis). split.
    + split; [|done]. intros H. apply (Hdis k H). rewrite btree_insert_elem. by left.
    + intros n [->|Hn]%elem_of_cons; [done|]. intros H. apply (Hdis n Hn). rewrite btree_insert_elem. by right.
Qed.

Lemma build_variable_map_spec m vs :
  match build_variable_map m vs with
  | Ok m' => fresh_names m vs
      ∧ ∀ n, btree_get n m' = match find_first (λ e, str_eqb e.1 n) vs with
                              | Some e => Some e.2 | None => btree_get n m end
  | Err e => ∃ n, e = DuplicateValue n ∧ n ∈ vs.*1 ∧ ¬ fresh_names m vs
  | Panic => False
  end.
Proof.
  revert m. induction vs as [|[k v] vs IH]; intros m; cbn [build_variable_map].
  - split; [|done]. split; [constructor|set_solver].
  - destruct (is_some (btree_get k m)) eqn:E.
    { apply btree_get_elem in E. exists k. rewrite fresh_names_cons. set_solver. }
    assert (k ∉ m.*1) as Hk by (intros Hk%btree_get_elem; congruence).
    specialize (IH (btree_insert k v m)).
    destruct (build_variable_map _ vs) as [m'|e|]; [| |done].
    2:{ destruct IH as (n & -> & Hn & Hno). exists n. rewrite fresh_names_cons. set_solver. }
    rewrite fresh_names_cons.
    destruct IH as [Hf Hget]. split; [done|]. intros n. rewrite Hget, btree_get_insert.
    cbn [find_first fst]. destruct (str_eqb k n) eqn:Ek; [|done]. apply str_eqb_eq in Ek as <-.
    destruct (find_first _ vs) as [x|] eqn:Ef; [|done]. exfalso.
    apply find_first_Some in Ef as [Hx Hxk%str_eqb_eq]. destruct Hf as [_ Hdis].
    apply (Hdis k); [rewrite <-Hxk; by apply list_elem_of_fmap_2|]. rewrite btree_insert_elem. by left.
Qed.

Lemma render_segments_spec m acc segs :
  (∀ n, Placeholder n ∈ segs → is_some (btree_get n m) = true) →
  render_segments m acc segs = Ok (acc ++ concat ((λ s, match s with
    | Literal l => l | Placeholder n => default [] (btree_get n m) end) <$> segs)).
Proof.
  revert acc. induction segs as [|[l|n] segs IH]; intros acc H; cbn [render_segments fmap list_fmap concat].
  - by rewrite app_nil_r.
  - rewrite IH by set_solver. by rewrite <-app_assoc.
  - destruct (btree_get n m) eqn:E; [|by specialize (H n ltac:(set_solver)); rewrite E in H].
    rewrite IH by set_solver. by rewrite <-app_assoc.
Qed.

(** Rendering a template succeeds exactly when the template parses, no variable
    is given twice and the variables are the placeholders of the template, no
    more and no less; the result is the template's text with every placeholder
    replaced by its value.  A render error names a variable given twice, a
    placeholder without a value, or a variable the template does not use. *)
Theorem render_exactly_when_covered source vars :
  (∀ r, render source vars = Ok r ↔
     ∃ t, parse source = Ok t ∧ NoDup vars.*1
       ∧ (∀ n, n ∈ vars.*1 ↔ Placeholder n ∈ segments t)
       ∧ r = concat (subst vars <$> segments t))
  ∧ (∀ e, render source vars = Err (RenderError e) → ∃ t, parse source = Ok t ∧
       match e with
       | DuplicateValue n => n ∈ vars.*1 ∧ ¬ NoDup vars.*1
       | MissingValue n => Placeholder n ∈ segments t ∧ n ∉ vars.*1
       | ExtraValue n => n ∈ vars.*1 ∧ Placeholder n ∉ segments t
       end)
  ∧ render source vars ≠ Panic.
Proof.
  unfold render. pose proof (parse_total source) as Ht.
  destruct (parse source) as [t|e|]; [|split; [|split]; [split; naive_solver|naive_solver|done]|done].
  unfold Template_render. pose proof (build_variable_map_spec [] vars) as Hm.
  destruct (build_variable_map [] vars) as [m|e|]; [|..|done]; cbn [mbind res_bind].
  2:{ destruct Hm as (n & -> & Hn & Hno). assert (¬ NoDup vars.*1) as Hnd by (intros Hnd; apply Hno; split; set_solver).
      split; [split; naive_solver|]. split; [|done]. intros e [= <-]. eauto. }
  destruct Hm as [[Hnd _] Hget].
  assert (∀ n, n ∈ m.*1 ↔ n ∈ vars.*1) as Hnames.
  { intros n. rewrite <-!btree_get_elem, Hget. unfold btree_get. by destruct (find_first _ vars). }
  destruct (find_first _ (placeholders t).*1) as [n|] eqn:E1.
  { apply find_first_Some in E1 as [Hn Hmiss%negb_true_iff]. apply Ht in Hn.
    assert (n ∉ vars.*1) as Hv by (rewrite <-Hnames, <-btree_get_elem; congruence).
    split; [split; naive_solver|]. split; [|done]. intros e [= <-]. eauto. }
  destruct (find_first _ m.*1) as [n|] eqn:E2.
  { apply find_first_Some in E2 as [Hn Hmiss%negb_true_iff]. apply Hnames in Hn.
    assert (Placeholder n ∉ segments t) as Hv by (rewrite <-Ht, <-btree_get_elem; congruence).
    split; [split; naive_solver|]. split; [|done]. intros e [= <-]. eauto. }
  apply find_first_None in E1, E2. rewrite Forall_forall in E1, E2.
  assert (∀ n, n ∈ vars.*1 ↔ Placeholder n ∈ segments t) as Hcov.
  { intros n. rewrite <-Ht, <-Hnames, <-!btree_get_elem. split; intros H%btree_get_elem.
    - apply E2 in H. by destruct (is_some _).
    - apply E1 in H. by destruct (is_some _). }
  rewrite render_segments_spec by (intros n Hn; rewrite btree_get_elem, Hnames; by apply Hcov).
  replace (_ <$> segments t) with (subst vars <$> segments t).
  - split; [|done]. intros r. split; [intros [= <-]; eauto|]. by intros (t' & [= <-] & _ & _ & ->).
  - apply list_fmap_ext. intros _ [l|n] _; [done|]. cbn [subst]. rewrite Hget. by destruct (find_first _ vars).
Qed.

(** ** Printing a template *)
Definition is_brace (c : char) : bool := (c =? OPEN)%N || (c =? CLOSE)%N.
Fixpoint escape (s : str) : str :=
  match s with
  | [] => []
  | c :: s' =>
      match s' with
      | d :: s'' => if is_brace c && (c =? d)%N then c :: c :: c :: c :: escape s'' else c :: escape s'
      | [] => [c]
      end
  end.
(** The escaped text ends in an opening brace that is not part of a pair. *)
Fixpoint open_end (s : str) : bool :=
  match s with
  | [] => false
  | c :: s' =>
      match s' with
      | d :: s'' => if is_brace c && (c =? d)%N then open_end s'' else open_end s'
      | [] => (c =? OPEN)%N
      end
  end.
Fixpoint no_pair (s : str) : bool :=
  match s with
  | c :: (d :: _) as s' => negb (is_brace c && (c =? d)%N) && no_pair s'
  | _ => true
  end.
Definition name_ok (n : str) : bool :=
  no_pair n && is_some_and (λ c, negb (is_whitespace c)) (head n)
  && is_some_and (λ c, negb (is_whitespace c)) (last n).

Definition print_segment (s : Segment) : str :=
  match s with
  | Literal l => escape l
  | Placeholder n => [OPEN; OPEN; SP] ++ n ++ [SP; CLOSE; CLOSE]
  end.
Definition print (segs : list Segment) : str := concat (print_segment <$> segs).

(** Literals are not empty and not adjacent, and one before a placeholder does not
    end in an unpaired opening brace. *)
Fixpoint segments_ok (segs : list Segment) : bool :=
  match segs with
  | [] => true
  | Placeholder n :: segs => name_ok n && segments_ok segs
  | Literal l :: segs =>
      negb (is_empty l)
      && match segs with
         | [] => true
         | Literal _ :: _ => false
         | Placeholder _ :: _ => negb (open_end l)
         end
      && segments_ok segs
  end.

Lemma print_name_loop start c acc n k :
  no_pair n = true →
  placeholder_loop start c acc (n ++ [SP; CLOSE; CLOSE] ++ k)
  = if is_empty (trim (acc ++ n ++ [SP])) then Err (EmptyPlaceholder start)
    else Ok (trim (acc ++ n ++ [SP]), (c + blen n + 3)%N, k).
Proof.
  revert c acc. induction n as [|x n IH]; intros c acc Hn; cbn [app].
  - cbn -[len_utf8 blen trim N.add]. destruct (is_empty _); [done|].
    rewrite blen_nil. change (len_utf8 SP) with 1%N. do 3 f_equal. lia.
  - cbn [placeholder_loop].
    assert (starts_with (x :: n ++ [SP; CLOSE; CLOSE] ++ k) [OPEN; OPEN] = false
            ∧ strip_prefix [CLOSE; CLOSE] (x :: n ++ [SP; CLOSE; CLOSE] ++ k) = None) as [E1 E2].
    { unfold starts_with. cbn [strip_prefix]. destruct n as [|y n]; cbn [app].
      - destruct (OPEN =? x)%N, (CLOSE =? x)%N; done.
      - cbn [no_pair] in Hn. unfold is_brace in Hn.
        destruct (N.eqb_spec OPEN x) as [Ex|Ex]; [subst x|destruct (N.eqb_spec CLOSE x) as [Ex'|]; [subst x|done]].
        + destruct (N.eqb_spec OPEN y) as [Ey|]; [by subst y|done].
        + destruct (N.eqb_spec CLOSE y) as [Ey|]; [by subst y|done]. }
    cbn [app] in E1, E2. rewrite E1, E2. rewrite IH.
    + rewrite blen_cons, <-!app_assoc. cbn [app]. destruct (is_empty _); [done|]. do 3 f_equal. lia.
    + destruct n; [done|]. cbn [no_pair] in Hn. by apply andb_true_iff in Hn as [_ ?].
Qed.

Lemma trim_padded n :
  is_some_and (λ c, negb (is_whitespace c)) (head n) = true →
  is_some_and (λ c, negb (is_whitespace c)) (last n) = true → trim (SP :: n ++ [SP]) = n.
Proof.
  intros Hh Hl. unfold trim. rewrite app_comm_cons, trim_end_snoc_ws by done.
  destruct n as [|z n _] using rev_ind; [done|]. rewrite last_snoc in Hl. cbn in Hl.
  apply negb_true_iff in Hl. rewrite app_comm_cons, trim_end_snoc by done. cbn [app].
  unfold trim_start. cbn [drop_while]. change (is_whitespace SP) with true. cbn iota.
  destruct (n ++ [z]) as [|y m]; [done|]. apply trim_start_cons. cbn in Hh. by apply negb_true_iff in Hh.
Qed.

Lemma print_name_parses start n k :
  name_ok n = true →
  parse_placeholder start (SP :: n ++ [SP; CLOSE; CLOSE] ++ k) = Ok (n, (start + blen n + 6)%N, k).
Proof.
  unfold name_ok. intros [[Hp Hh]%andb_true_iff Hl]%andb_true_iff.
  unfold parse_placeholder. rewrite app_comm_cons, print_name_loop; [|by destruct n].
  rewrite app_nil_l. cbn [app]. rewrite trim_padded by done.
  destruct n; [done|]. cbn [is_empty]. rewrite (blen_cons SP). change (len_utf8 SP) with 1%N.
  do 3 f_equal. lia.
Qed.

Lemma char_round ps segs l c ch rest :
  (is_brace ch = true → head rest ≠ Some ch) →
  parse_at ps segs l c (ch :: rest) = parse_at ps segs (l ++ [ch]) (c + len_utf8 ch)%N rest.
Proof.
  intros Hr. rewrite parse_at_eq. unfold starts_with, is_brace in *. cbn [strip_prefix].
  destruct (N.eqb_spec OPEN ch) as [E|E]; [subst ch|destruct (N.eqb_spec CLOSE ch) as [E'|]; [subst ch|done]];
    (destruct rest as [|y rest]; [done|]); specialize (Hr eq_refl); cbn [head] in Hr.
  - destruct (N.eqb_spec OPEN y) as [Ey|]; [by subst y|done].
  - destruct (N.eqb_spec CLOSE y) as [Ey|]; [by subst y|done].
Qed.
Lemma pair_round ps segs l c ch rest :
  is_brace ch = true →
  parse_at ps segs l c (ch :: ch :: ch :: ch :: rest)
  = parse_at ps (push_literal (push_literal segs l) [ch; ch]) [] (c + 4)%N rest.
Proof.
  unfold is_brace. intros [->%N.eqb_eq| ->%N.eqb_eq]%orb_true_iff; by rewrite parse_at_eq.
Qed.
Lemma head_escape d s : head (escape (d :: s)) = Some d.
Proof. destruct s as [|e s]; [done|]. cbn [escape]. by destruct (_ && _). Qed.

(** The text of a literal is read back, whatever follows that does not complete a
    delimiter with its last character. *)
Lemma escape_parses ps segs l c s k :
  head k ≠ Some CLOSE → (head k = Some OPEN → open_end s = false) →
  ∃ segs' l' c', parse_at ps segs l c (escape s ++ k) = parse_at ps segs' l' c' k
    ∧ push_literal segs' l' = push_literal segs (l ++ s).
Proof.
  intros Hc. revert segs l c. induction s as [s IH] using (induction_ltof1 _ (@length N)). unfold ltof in IH.
  intros segs l c Ho. destruct s as [|x [|y s]].
  - exists segs, l, c. by rewrite app_nil_r.
  - exists segs, (l ++ [x]), (c + len_utf8 x)%N. split; [|done]. apply char_round.
    unfold is_brace. intros [->%N.eqb_eq| ->%N.eqb_eq]%orb_true_iff; [|done]. intros Hk. by apply Ho in Hk.
  - change (escape (x :: y :: s)) with
      (if is_brace x && (x =? y)%N then x :: x :: x :: x :: escape s else x :: escape (y :: s)).
    change (open_end (x :: y :: s)) with
      (if is_brace x && (x =? y)%N then open_end s else open_end (y :: s)) in Ho.
    destruct (is_brace x && (x =? y)%N) eqn:E.
    + apply andb_true_iff in E as [Hx <-%N.eqb_eq]. cbn [app]. rewrite pair_round by done.
      destruct (IH s ltac:(cbn; lia) (push_literal (push_literal segs l) [x; x]) [] (c + 4)%N Ho)
        as (segs' & l' & c' & -> & Hp).
      exists segs', l', c'. split; [done|]. by rewrite Hp, !push_literal_push, <-?app_assoc.
    + rewrite <-app_comm_cons, char_round.
      * destruct (IH (y :: s) ltac:(cbn; lia) segs (l ++ [x]) (c + len_utf8 x)%N Ho) as (segs' & l' & c' & -> & Hp).
        exists segs', l', c'. split; [done|]. by rewrite Hp, <-app_assoc.
      * intros Hx Hh. rewrite Hx in E. pose proof (head_escape y s) as Hy.
        destruct (escape (y :: s)); [done|]. cbn in Hy, Hh. simplify_eq. by rewrite N.eqb_refl in E.
Qed.

Lemma placeholder_round ps segs l c n k :
  name_ok n = true →
  parse_at ps segs l c (print_segment (Placeholder n) ++ k)
  = parse_at (btree_insert n tt ps) (push_literal segs l ++ [Placeholder n]) [] (c + blen n + 6)%N k.
Proof.
  intros Hn. cbn [print_segment app]. rewrite parse_at_eq. cbn [strip_prefix].
  change (OPEN =? OPEN)%N with true. change (OPEN =? SP)%N with false. change (CLOSE =? OPEN)%N with false.
  cbn iota. by rewrite <-app_assoc, print_name_parses.
Qed.

Lemma print_parses ps segs c todo :
  segments_ok todo = true →
  match todo, last segs with Literal _ :: _, Some (Literal _) => False | _, _ => True end →
  ∃ ps', parse_at ps segs [] c (print todo) = Ok {| placeholders := ps'; segments := segs ++ todo |}.
Proof.
  revert ps segs c. induction todo as [|[l|n] todo IH]; intros ps segs c Hok Hadj.
  - exists ps. by rewrite app_nil_r.
  - cbn [segments_ok] in Hok. apply andb_true_iff in Hok as [[Hl Hnext]%andb_true_iff Hok].
    unfold print. cbn [fmap list_fmap concat print_segment]. fold (print todo).
    destruct (escape_parses ps segs [] c l (print todo)) as (segs' & l' & c' & -> & Hp).
    { by destruct todo as [|[]]. }
    { destruct todo as [|[]]; [done..|]. intros _. by apply negb_true_iff. }
    assert (push_literal segs' l' = segs ++ [Literal l]) as Hp'.
    { rewrite Hp. cbn [app]. rewrite push_literal_eq by by destruct l.
      destruct (last segs) as [[]|]; done. }
    destruct todo as [|[l2|n] todo]; [|done|].
    + exists ps. unfold print, parse_at. cbn [fmap list_fmap concat length parse_loop]. by rewrite Hp'.
    + destruct (IH ps (segs ++ [Literal l]) c' Hok) as [ps' Hps'].
      { done. }
      cbn [segments_ok] in Hok. apply andb_true_iff in Hok as [Hn _].
      exists ps'. rewrite <-app_assoc in Hps'. cbn [app] in Hps'. rewrite <-Hps'.
      unfold print. cbn [fmap list_fmap concat]. by rewrite !placeholder_round, Hp'.
  - cbn [segments_ok] in Hok. apply andb_true_iff in Hok as [Hn Hok].
    destruct (IH (btree_insert n tt ps) (segs ++ [Placeholder n]) (c + blen n + 6)%N Hok) as [ps' Hps'].
    { rewrite last_snoc. by destruct todo as [|[]]. }
    exists ps'. rewrite <-app_assoc in Hps'. cbn [app] in Hps'. rewrite <-Hps'.
    unfold print. cbn [fmap list_fmap concat]. by rewrite placeholder_round.
Qed.

(** The parser reads back every printed template: for segments in normal form,
    with literals printed with their double braces doubled and placeholders as
    [{{ name }}], it returns exactly these segments and the set of their names;
    so rendering the printed template with a value for every name is the
    substitution. *)
Theorem template_round_trip segs :
  segments_ok segs = true →
  ∃ t, parse (print segs) = Ok t ∧ segments t = segs
    ∧ (∀ n, n ∈ (placeholders t).*1 ↔ Placeholder n ∈ segs).
Proof.
  intros Hok. destruct (print_parses [] [] 0%N segs Hok) as [ps Hp]; [by destruct segs as [|[]]|].
  unfold parse_at in Hp. fold (parse (print segs)) in Hp. pose proof (parse_total (print segs)) as Ht.
  rewrite Hp in Ht. eauto.
Qed.

Lemma template_round_trip_witness :
  ∃ t, parse (lit "a{{{{b}}}}c{{ x }}") = Ok t
    ∧ segments t = [Literal (lit "a{{b}}c"); Placeholder (lit "x")].
Proof.
  destruct (template_round_trip [Literal (lit "a{{b}}c"); Placeholder (lit "x")]) as (t & Hp & Hs & _).
  - vm_compute. reflexivity.
  - exists t. split; [exact Hp|exact Hs].
Defined.
