(* ===== verification/IpAddr.v ===== *)
(** * Internet addresses of the standard library

    What the sources use of [std::net]: parsing an address (a recursive-descent
    parser over characters, [core/src/net/parser.rs]) and the classification of
    addresses.  An IPv4 address is a 32-bit and an IPv6 address a 128-bit
    number. *)
From S2P Require Import Prelude Str.

Inductive IpAddr :=
  | V4 (ip : N)
  | V6 (ip : N).

(** ** Parsing *)
Definition to_digit (radix : N) (c : char) : option N :=
  let d :=
    if ((48 <=? c) && (c <=? 57))%N then Some (c - 48)%N
    else if ((97 <=? c) && (c <=? 122))%N then Some (c - 87)%N
    else if ((65 <=? c) && (c <=? 90))%N then Some (c - 55)%N
    else None in
  d ← d; if (d <? radix)%N then Some d else None.

Fixpoint read_digits (radix : N) (max_digits count : nat) (acc : N) (s : str) : option (N * nat * str) :=
  match s with
  | [] => Some (acc, count, s)
  | c :: s' =>
      match to_digit radix c with
      | None => Some (acc, count, s)
      | Some d =>
          if (max_digits <? S count)%nat then None
          else read_digits radix max_digits (S count) (acc * radix + d)%N s'
      end
  end.
Definition read_number (radix : N) (max_digits : nat) (allow_zero_prefix : bool) (limit : N) (s : str) :
    option (N * str) :=
  '(n, count, rest) ← read_digits radix max_digits 0 0%N s;
  if (limit <=? n)%N then None
  else if (count =? 0)%nat then None
  else if negb allow_zero_prefix && is_some_and (λ c, (c =? 48)%N) (head s) && (1 <? count)%nat then None
  else Some (n, rest).

(** [read_separator]: the separator before every item but the first. *)
Definition read_separator {A} (sep : char) (index : nat) (inner : str → option (A * str)) (s : str) :
    option (A * str) :=
  if (0 <? index)%nat then rest ← strip_prefix [sep] s; inner rest else inner s.

Fixpoint read_octets (n index : nat) (acc : N) (s : str) : option (N * str) :=
  match n with
  | O => Some (acc, s)
  | S n =>
      '(octet, rest) ← read_separator 46%N index (read_number 10 3 false 256) s;
      read_octets n (S index) (acc * 256 + octet)%N rest
  end.
Definition read_ipv4_addr (s : str) : option (N * str) := read_octets 4 0 0%N s.

(** [read_groups] on the [n] groups that are left of [n + index]; the groups read,
    whether they end in an IPv4 address, and the rest. *)
Fixpoint read_groups (n index : nat) (s : str) : list N * bool * str :=
  match n with
  | O => ([], false, s)
  | S n' =>
      match (if (1 <? n)%nat then read_separator 58%N index read_ipv4_addr s else None) with
      | Some (v4, rest) => ([(v4 / 65536)%N; (v4 mod 65536)%N], true, rest)
      | None =>
          match read_separator 58%N index (read_number 16 4 true 65536) s with
          | Some (g, rest) =>
              let '(gs, v4, rest) := read_groups n' (S index) rest in (g :: gs, v4, rest)
          | None => ([], false, s)
          end
      end
  end.
Definition segments_value (gs : list N) : N := foldl (λ acc g, (acc * 65536 + g)%N) 0%N gs.
Definition read_ipv6_addr (s : str) : option (N * str) :=
  let '(front, head_ipv4, rest) := read_groups 8 0 s in
  if (length front =? 8)%nat then Some (segments_value front, rest)
  else if head_ipv4 then None
  else
    rest ← strip_prefix [58%N; 58%N] rest;
    let '(tail, _, rest) := read_groups (8 - (length front + 1)) 0 rest in
    Some (segments_value (front ++ replicate (8 - length front - length tail) 0%N ++ tail), rest).

(** [parse_with]: the whole text. *)
Definition parse_with {A} (p : str → option (A * str)) (s : str) : option A :=
  '(a, rest) ← p s; if is_empty rest then Some a else None.
Definition parse_ipv6 (s : str) : option N := parse_with read_ipv6_addr s.
Definition parse_ip (s : str) : option IpAddr :=
  parse_with (λ s, match read_ipv4_addr s with
                   | Some (ip, rest) => Some (V4 ip, rest)
                   | None => '(ip, rest) ← read_ipv6_addr s; Some (V6 ip, rest)
                   end) s.

(** ** Classification *)
Definition from_octets (a b c d : N) : N := (((a * 256 + b) * 256 + c) * 256 + d)%N.
Definition octet (i : N) (ip : N) : N := ((ip / 256 ^ (3 - i)) mod 256)%N.
Definition LOCALHOST_V4 : N := from_octets 127 0 0 1.
Definition LOCALHOST_V6 : N := 1.

Definition v4_is_loopback (ip : N) : bool := (octet 0 ip =? 127)%N.
Definition v4_is_private (ip : N) : bool :=
  (octet 0 ip =? 10)%N
  || ((octet 0 ip =? 172) && (16 <=? octet 1 ip) && (octet 1 ip <=? 31))%N
  || ((octet 0 ip =? 192) && (octet 1 ip =? 168))%N.
Definition v4_is_link_local (ip : N) : bool := ((octet 0 ip =? 169) && (octet 1 ip =? 254))%N.
Definition v4_is_unspecified (ip : N) : bool := (ip =? 0)%N.
Definition v4_is_multicast (ip : N) : bool := ((224 <=? octet 0 ip) && (octet 0 ip <=? 239))%N.
Definition v4_is_broadcast (ip : N) : bool := (ip =? from_octets 255 255 255 255)%N.

Definition segment0 (ip : N) : N := ((ip / 2 ^ 112) mod 65536)%N.
Definition v6_is_loopback (ip : N) : bool := (ip =? 1)%N.
Definition v6_is_unspecified (ip : N) : bool := (ip =? 0)%N.
Definition v6_is_multicast (ip : N) : bool := (N.land (segment0 ip) 65280 =? 65280)%N.
Definition v6_is_unique_local (ip : N) : bool := (N.land (segment0 ip) 65024 =? 64512)%N.
Definition v6_is_unicast_link_local (ip : N) : bool := (N.land (segment0 ip) 65472 =? 65152)%N.
(** [Ipv6Addr::to_ipv4]: IPv4-compatible and IPv4-mapped addresses. *)
Definition to_ipv4 (ip : N) : option N :=
  if (ip / 2 ^ 48 =? 0)%N && (((ip / 2 ^ 32) mod 65536 =? 0) || ((ip / 2 ^ 32) mod 65536 =? 65535))%N
  then Some (ip mod 2 ^ 32)%N else None.
Definition is_loopback (ip : IpAddr) : bool :=
  match ip with V4 ip => v4_is_loopback ip | V6 ip => v6_is_loopback ip end.

Example ip_v4 : parse_ip (lit "192.168.1.20") = Some (V4 (from_octets 192 168 1 20)).
Proof. reflexivity. Qed.
Example ip_v4_bad :
  (parse_ip <$> [lit "1.2.3"; lit "1.2.3.4.5"; lit "01.2.3.4"; lit "256.1.1.1"; lit "1.2.3.4 "; lit ""])
  = [None; None; None; None; None; None].
Proof. reflexivity. Qed.
Example ip_v6 :
  (parse_ip <$> [lit "::1"; lit "::"; lit "fe80::1"; lit "::ffff:1.2.3.4"; lit "1:2:3:4:5:6:7:8"])
  = [Some (V6 1); Some (V6 0); Some (V6 (65152 * 2 ^ 112 + 1)%N);
     Some (V6 (65535 * 2 ^ 32 + from_octets 1 2 3 4)%N);
     Some (V6 (segments_value [1; 2; 3; 4; 5; 6; 7; 8]%N))].
Proof. reflexivity. Qed.
Example ip_v6_bad :
  (parse_ip <$> [lit "1:2:3:4:5:6:7:8:9"; lit "1::2::3"; lit "12345::"; lit "1:2:3:4:5:6:7"; lit ":1"; lit "1.2.3.4::"])
  = [None; None; None; None; None; None].
Proof. reflexivity. Qed.
