(* ===== verification/DomainMatcher.v ===== *)
(** * network-proxy/domain_matcher: wildcards over the bytes of host names

    The matcher [matches] of [network-proxy/src/domain_matcher.rs], a loop that
    retries the latest star only, and its reference, the relation [Glob]. *)
From S2P Require Import Prelude Str.

Definition STAR : N := 42.
Definition QUESTION : N := 63.

(** [u8::eq_ignore_ascii_case]. *)
Definition byte_lower (b : N) : N := if ((65 <=? b) && (b <=? 90))%N then (b + 32)%N else b.
Definition eq_ignore_ascii_case (a b : N) : bool := (byte_lower a =? byte_lower b)%N.

(** The [while] loop of [matches], with the offsets [p] and [h] and the latest star;
    [None] when [fuel] does not suffice. *)
Fixpoint matches_loop (fuel : nat) (pattern host : list N) (p h : nat) (star : option (nat * nat)) :
    option bool :=
  match fuel with
  | O => None
  | S fuel =>
      match host !! h with
      | None => Some (forallb (λ c, (c =? STAR)%N) (drop p pattern))
      | Some x =>
          let retry :=
            match star with
            | Some (resume, consumed) =>
                matches_loop fuel pattern host resume (S consumed) (Some (resume, S consumed))
            | None => Some false
            end in
          match pattern !! p with
          | Some c =>
              if (c =? STAR)%N then matches_loop fuel pattern host (S p) h (Some (S p, h))
              else if (c =? QUESTION)%N || eq_ignore_ascii_case c x
              then matches_loop fuel pattern host (S p) (S h) star
              else retry
          | None => retry
          end
      end
  end.

(** Enough rounds: at most one pass over the pattern for each position of the host. *)
Definition matches_rounds (pattern host : list N) : nat :=
  length host * (length pattern + 2) + length pattern + 1.
Definition matches (pattern host : list N) : bool :=
  default false (matches_loop (matches_rounds pattern host) pattern host 0 0 None).

(** ** What a pattern means *)
Inductive Glob : list N → list N → Prop :=
  | Glob_nil : Glob [] []
  | Glob_star p a h : Glob p h → Glob (STAR :: p) (a ++ h)
  | Glob_char c p x h :
      c ≠ STAR → (c =? QUESTION)%N || eq_ignore_ascii_case c x = true → Glob p h →
      Glob (c :: p) (x :: h).

Lemma Glob_star_iff p h : Glob (STAR :: p) h ↔ ∃ j, j ≤ length h ∧ Glob p (drop j h).
Proof.
  split.
  - inversion 1 as [|p' a h' H1 E1 E2|c p' x h' Hc]; subst; [|done].
    exists (length a). rewrite length_app, drop_app_length. split; [lia|done].
  - intros (j & Hj & H). rewrite <-(take_drop j h). by constructor.
Qed.
Lemma Glob_char_iff c p x h :
  c ≠ STAR →
  Glob (c :: p) (x :: h) ↔ (c =? QUESTION)%N || eq_ignore_ascii_case c x = true ∧ Glob p h.
Proof.
  intros Hc. split; [|intros [H1 H2]; by constructor].
  inversion 1; subst; done.
Qed.
Lemma Glob_end p : Glob p [] ↔ forallb (λ c, (c =? STAR)%N) p = true.
Proof.
  induction p as [|c p IH]; cbn [forallb].
  - split; [done|]. constructor.
  - rewrite andb_true_iff, N.eqb_eq. split.
    + inversion 1 as [|p' a h' H1 E1 E2|]; subst. apply app_eq_nil in E2 as [-> ->]. by rewrite <-IH.
    + intros [-> H]. apply (Glob_star p [] []). by apply IH.
Qed.

(** A part of the pattern without stars consumes as many bytes. *)
Lemma Glob_plain seg p h :
  STAR ∉ seg → Glob (seg ++ p) h → length seg ≤ length h ∧ Glob p (drop (length seg) h).
Proof.
  revert h. induction seg as [|c seg IH]; intros h Hs; cbn [app length]; [intros; split; [lia|done]|].
  apply not_elem_of_cons in Hs as [Hc Hs].
  inversion 1 as [|p' a h' H1 E1 E2|c' p' x h' Hc' Hm H1]; subst; [done|].
  apply IH in H1 as [Hl H1]; [|done]. cbn. split; [lia|done].
Qed.

Section Loop.
Variables pattern host : list N.

(** The ways in which a match can still be found. *)
Definition open_matches (p h : nat) (star : option (nat * nat)) : Prop :=
  Glob (drop p pattern) (drop h host)
  ∨ ∃ r k j, star = Some (r, k) ∧ k < j ≤ length host ∧ Glob (drop r pattern) (drop j host).

(** After a star the loop has compared a part without stars, byte by byte. *)
Definition loop_ok (p h : nat) (star : option (nat * nat)) : Prop :=
  p ≤ length pattern ∧ h ≤ length host
  ∧ ∀ r k, star = Some (r, k) → r ≤ p ∧ h = k + (p - r) ∧ STAR ∉ take (p - r) (drop r pattern).

Definition loop_measure (p : nat) (star : option (nat * nat)) : nat :=
  (length host - from_option snd 0 star) * (length pattern + 2) + (length pattern - p).

Lemma segment_drop r p :
  r ≤ p → p ≤ length pattern →
  drop r pattern = take (p - r) (drop r pattern) ++ drop p pattern
  ∧ length (take (p - r) (drop r pattern)) = p - r.
Proof.
  intros H1 H2. split.
  - rewrite <-(take_drop (p - r) (drop r pattern)) at 1. rewrite drop_drop. do 2 f_equal. lia.
  - rewrite length_take, length_drop. lia.
Qed.

(** A later retry of the star matches only if the rest matches further on. *)
Lemma retry_later p h r k j :
  loop_ok p h (Some (r, k)) → k < j ≤ length host → Glob (drop r pattern) (drop j host) →
  ∃ i, h < i ≤ length host ∧ Glob (drop p pattern) (drop i host).
Proof.
  intros (Hp & Hh & Hs) Hj HG. destruct (Hs r k eq_refl) as (Hr & -> & Hns).
  destruct (segment_drop r p Hr Hp) as [Hseg Hlen]. rewrite Hseg in HG.
  apply Glob_plain in HG as [Hl HG]; [|done]. rewrite Hlen, drop_drop in HG. rewrite Hlen, length_drop in Hl.
  exists (j + (p - r)). split; [lia|done].
Qed.

Lemma glob_at p h c x :
  pattern !! p = Some c → host !! h = Some x →
  drop p pattern = c :: drop (S p) pattern ∧ drop h host = x :: drop (S h) host.
Proof. intros. split; by apply drop_S. Qed.

(** ** The rounds keep the set of open matches *)
Lemma round_star p h x star :
  loop_ok p h star → pattern !! p = Some STAR → host !! h = Some x →
  loop_ok (S p) h (Some (S p, h)) ∧ (open_matches p h star ↔ open_matches (S p) h (Some (S p, h))).
Proof.
  intros Hok Hp Hx. pose proof (lookup_lt_Some _ _ _ Hp). pose proof (lookup_lt_Some _ _ _ Hx). split.
  - split; [lia|]. split; [lia|]. intros r k [= <- <-]. rewrite Nat.sub_diag, take_0. split; [lia|].
    split; [lia|]. apply not_elem_of_nil.
  - assert (Glob (drop p pattern) (drop h host) ↔
            ∃ i, h ≤ i ≤ length host ∧ Glob (drop (S p) pattern) (drop i host)) as Hstar.
    { rewrite (drop_S pattern STAR p Hp), Glob_star_iff. split.
      - intros (j & Hj & HG). rewrite length_drop in Hj. rewrite drop_drop in HG. exists (h + j). split; [lia|done].
      - intros (i & Hi & HG). exists (i - h). rewrite length_drop, drop_drop.
        split; [lia|]. by replace (h + (i - h)) with i by lia. }
    unfold open_matches. rewrite Hstar. split.
    + intros [(i & Hi & HG)|(r & k & j & -> & Hj & HG)].
      * destruct (decide (i = h)) as [->|]; [by left|]. right. exists (S p), h, i. split; [done|]. split; [lia|done].
      * destruct (retry_later p h r k j Hok Hj HG) as (i & Hi & HG'). rewrite (drop_S pattern STAR p Hp) in HG'.
        apply Glob_star_iff in HG' as (j' & Hj' & HG'). rewrite length_drop in Hj'. rewrite drop_drop in HG'.
        right. exists (S p), h, (i + j'). split; [done|]. split; [lia|done].
    + intros [HG|(r & k & j & [= <- <-] & Hj & HG)]; left; [exists h|exists j]; (split; [lia|done]).
Qed.

Lemma round_char p h c x star :
  loop_ok p h star → pattern !! p = Some c → host !! h = Some x → c ≠ STAR →
  (c =? QUESTION)%N || eq_ignore_ascii_case c x = true →
  loop_ok (S p) (S h) star ∧ (open_matches p h star ↔ open_matches (S p) (S h) star).
Proof.
  intros (Hle & Hhle & Hs) Hp Hx Hc Hm. pose proof (lookup_lt_Some _ _ _ Hp). pose proof (lookup_lt_Some _ _ _ Hx).
  split.
  - split; [lia|]. split; [lia|]. intros r k Hrk. destruct (Hs r k Hrk) as (Hr & -> & Hns).
    split; [lia|]. split; [lia|]. replace (S p - r) with (S (p - r)) by lia.
    rewrite (take_S_r _ _ c); [|rewrite lookup_drop; by replace (r + (p - r)) with p by lia].
    rewrite elem_of_app, list_elem_of_singleton. naive_solver.
  - unfold open_matches. destruct (glob_at p h c x Hp Hx) as [-> ->]. rewrite (Glob_char_iff c) by done. naive_solver.
Qed.

Lemma round_retry p h r k :
  loop_ok p h (Some (r, k)) → h < length host → ¬ Glob (drop p pattern) (drop h host) →
  loop_ok r (S k) (Some (r, S k))
  ∧ (open_matches p h (Some (r, k)) ↔ open_matches r (S k) (Some (r, S k))).
Proof.
  intros (Hp & Hh & Hs) Hlt Hno. destruct (Hs r k eq_refl) as (Hr & Hk & _). split.
  - split; [lia|]. split; [lia|]. intros r' k' [= <- <-]. rewrite Nat.sub_diag, take_0. split; [lia|].
    split; [lia|]. apply not_elem_of_nil.
  - unfold open_matches. split.
    + intros [HG|(r' & k' & j & [= <- <-] & Hj & HG)]; [done|].
      destruct (decide (j = S k)) as [->|]; [by left|]. right. exists r, (S k), j. split; [done|]. split; [lia|done].
    + intros [HG|(r' & k' & j & [= <- <-] & Hj & HG)]; right; [exists r, k, (S k)|exists r, k, j];
        (split; [done|]; split; [lia|done]).
Qed.

Lemma round_end p h star :
  loop_ok p h star → host !! h = None →
  open_matches p h star ↔ forallb (λ c, (c =? STAR)%N) (drop p pattern) = true.
Proof.
  intros Hok Hh%lookup_ge_None. rewrite <-Glob_end. unfold open_matches.
  rewrite (drop_ge host h) by lia. split; [|by left]. intros [HG|(r & k & j & -> & Hj & HG)]; [done|].
  destruct (retry_later p h r k j Hok Hj HG) as (i & Hi & _). lia.
Qed.

Lemma matches_loop_correct fuel p h star :
  loop_ok p h star → loop_measure p star < fuel →
  ∃ b, matches_loop fuel pattern host p h star = Some b ∧ (b = true ↔ open_matches p h star).
Proof.
  revert p h star. induction fuel as [|fuel IH]; intros p h star Hok Hf; [lia|]. cbn [matches_loop].
  destruct (host !! h) as [x|] eqn:Hx.
  2:{ eexists. split; [done|]. by rewrite round_end. }
  pose proof (lookup_lt_Some _ _ _ Hx) as Hlt. pose proof Hok as (Hp & Hh & Hs).
  assert (∀ p' h' star', loop_ok p' h' star' ∧ (open_matches p h star ↔ open_matches p' h' star') →
    loop_measure p' star' < fuel →
    ∃ b, matches_loop fuel pattern host p' h' star' = Some b ∧ (b = true ↔ open_matches p h star)) as Hnext.
  { intros p' h' star' [Hok' Heq] Hm. destruct (IH p' h' star' Hok' Hm) as (b & Hb & Hiff). exists b. by rewrite Heq. }
  clear IH. assert (¬ Glob (drop p pattern) (drop h host) →
    ∃ b, match star with
         | Some (r, k) => matches_loop fuel pattern host r (S k) (Some (r, S k))
         | None => Some false
         end = Some b ∧ (b = true ↔ open_matches p h star)) as Hretry.
  { intros Hno. destruct star as [[r k]|].
    - apply Hnext; [by apply round_retry|].
      destruct (Hs r k eq_refl) as (Hr & Hk & _). unfold loop_measure in *. cbn [from_option snd] in *. nia.
    - exists false. split; [done|]. split; [done|]. intros [HG|(r & k & j & Hn & _)]; done. }
  destruct (pattern !! p) as [c|] eqn:Hc.
  2:{ apply Hretry. apply lookup_ge_None in Hc. rewrite (drop_ge pattern), (drop_S host x h Hx) by done. inversion 1. }
  pose proof (lookup_lt_Some _ _ _ Hc) as Hcl. destruct (N.eqb_spec c STAR) as [->|Hns].
  - apply Hnext; [by eapply round_star|].
    unfold loop_measure in *. destruct star as [[r k]|]; cbn [from_option snd] in *; [|nia].
    destruct (Hs r k eq_refl) as (Hr & Hk & _). nia.
  - destruct ((c =? QUESTION)%N || eq_ignore_ascii_case c x) eqn:Hm.
    + apply Hnext; [by eapply round_char|].
      unfold loop_measure in *. nia.
    + apply Hretry. destruct (glob_at p h c x Hc Hx) as [-> ->]. rewrite Glob_char_iff by done.
      rewrite Hm. by intros [? _].
Qed.
End Loop.

Lemma matches_returns pattern host :
  ∃ b, matches_loop (matches_rounds pattern host) pattern host 0 0 None = Some b
    ∧ (b = true ↔ Glob pattern host).
Proof.
  destruct (matches_loop_correct pattern host (matches_rounds pattern host) 0 0 None) as (b & Hb & Hiff).
  - split; [lia|]. split; [lia|done].
  - unfold loop_measure, matches_rounds. cbn [from_option]. lia.
  - exists b. split; [done|]. rewrite Hiff. unfold open_matches. rewrite !drop_0. naive_solver.
Qed.
Lemma matches_glob pattern host : matches pattern host = true ↔ Glob pattern host.
Proof. unfold matches. by destruct (matches_returns pattern host) as (b & -> & Hb). Qed.

(** C37: the domain matcher decides the meaning of the pattern: [*] stands for any
    bytes, [?] for one, every other byte for itself up to ASCII case.  Retrying
    the latest star alone is enough, and the loop returns within one pass over
    the pattern per position of the host. *)
Theorem matches_decides_glob pattern host :
  (∃ b, matches_loop (matches_rounds pattern host) pattern host 0 0 None = Some b)
  ∧ (matches pattern host = true ↔ Glob pattern host).
Proof.
  split; [|apply matches_glob]. destruct (matches_returns pattern host) as (b & Hb & _). by exists b.
Qed.
