(* ===== verification/DomainSet.v ===== *)
(** * network-proxy/domain_matcher: sets of domain patterns

    [network-proxy/src/domain_matcher.rs] above the matcher: normalization of
    hosts and patterns, expansion of domain prefixes, and the compiled set. *)
From stdpp Require Import sets.
From S2P Require Import Prelude Str IpAddr DomainMatcher.

Inductive GlobalWildcard := Allow | Reject.
Definition is_reject (g : GlobalWildcard) : bool := match g with Reject => true | Allow => false end.

Inductive PatternError :=
  | UnsupportedGlobalWildcard
  | UnsupportedSyntax (pattern : str)
  | RepeatedWildcard (pattern : str)
  | UnsupportedBrackets (pattern : str)
  | EmptyPattern.

(** The compiled patterns, as bytes. *)
Record DomainPatternSet := { patterns : list (list N) }.

(** [split_once] with a string, [split(c).next()]. *)
Definition split_once_str (p s : str) : option (str * str) :=
  (λ i, (take i s, drop (i + length p) s)) <$> find p s.
Definition before_first (c : char) (s : str) : str := from_option fst s (split_once c s).

Definition COLON : char := 58%N.
Definition DOT : char := 46%N.
Definition PERCENT : char := 37%N.
Definition LBRACKET : char := 91%N.
Definition RBRACKET : char := 93%N.

Definition is_ip (s : str) : bool := is_some (parse_ip s).

Definition unscoped_ip_literal (host : str) : option str :=
  '(ip, _) ← split_once PERCENT host; if is_ip ip then Some ip else None.

Definition scoped_by (delimiter host : str) : option str :=
  '(ip, scope) ← split_once_str delimiter host;
  if is_ip ip then Some (ip ++ [PERCENT] ++ scope) else None.
Definition normalize_ip_literal (host : str) : option str :=
  if is_ip host then Some host
  else match scoped_by (lit "%25") host with
       | Some ip => Some ip
       | None => scoped_by (lit "%") host
       end.

Definition normalize_dns_host_or_ip_literal (host : str) : str :=
  let host := trim_end_matches DOT (to_ascii_lowercase host) in
  default host (normalize_ip_literal host).

Definition normalize_host (host : str) : str :=
  let host := trim host in
  match (if starts_with host [LBRACKET] then find [RBRACKET] host else None) with
  | Some end_ => normalize_dns_host_or_ip_literal (drop 1 (take end_ host))
  | None =>
      if (count_char COLON host =? 1)%nat
      then normalize_dns_host_or_ip_literal (before_first COLON host)
      else normalize_dns_host_or_ip_literal host
  end.

Definition normalize_pattern (pattern : str) : str :=
  let pattern := trim pattern in
  if str_eqb pattern (lit "*") then lit "*"
  else
    let '(prefix, remainder) :=
      match strip_prefix (lit "**.") pattern with
      | Some domain => (lit "**.", domain)
      | None => match strip_prefix (lit "*.") pattern with
                | Some domain => (lit "*.", domain)
                | None => ([], pattern)
                end
      end in
    let remainder := normalize_host remainder in
    if is_empty prefix then remainder else prefix ++ remainder.

Definition strip_wildcard_prefix (pattern : str) : option str :=
  match strip_prefix (lit "**.") pattern with
  | Some domain => Some domain
  | None => strip_prefix (lit "*.") pattern
  end.

Definition expand_domain_pattern (pattern : str) : list str :=
  let pattern := trim pattern in
  match strip_wildcard_prefix pattern with
  | None => [pattern]
  | Some domain =>
      let domain := trim domain in
      if is_empty domain then [[]]
      else if starts_with pattern (lit "**.") then [domain; lit "?*." ++ domain]
      else [lit "?*." ++ domain]
  end.

Definition is_global_wildcard_domain_pattern (pattern : str) : bool :=
  existsb (λ candidate, str_eqb candidate (lit "*")) (expand_domain_pattern (normalize_pattern pattern)).

Definition contains_any (cs : list char) (s : str) : bool := existsb (λ c, contains_char c s) cs.

(** The test on a bracketed literal. *)
Definition bracketed_ok (host : str) : bool :=
  match (s ← strip_prefix [LBRACKET] host; split_once RBRACKET s) with
  | None => false
  | Some (ip, suffix) =>
      let normalized := normalize_dns_host_or_ip_literal ip in
      let unscoped := before_first PERCENT normalized in
      negb (contains_any [LBRACKET; RBRACKET] ip)
      && (str_eqb normalized (lit "*") || is_some (parse_ipv6 unscoped))
      && negb (contains_any [LBRACKET; RBRACKET] suffix)
      && (forallb (λ c, (c =? DOT)%N) suffix || starts_with suffix [COLON])
  end.

(** The checks of one pattern. *)
Definition check_pattern (global_wildcard : GlobalWildcard) (pattern : str) : res PatternError unit :=
  if is_reject global_wildcard && is_global_wildcard_domain_pattern pattern
  then Err UnsupportedGlobalWildcard
  else
    let raw := trim pattern in
    _ ← ensure (negb (contains_any (lit "{}\/") raw) && negb (existsb is_whitespace raw))
          (UnsupportedSyntax pattern);
    let host := default raw (strip_wildcard_prefix raw) in
    _ ← ensure (negb (contains host (lit "**"))) (RepeatedWildcard pattern);
    if contains_any [LBRACKET; RBRACKET] host
    then ensure (bracketed_ok host) (UnsupportedBrackets pattern)
    else Ok tt.

(** [seen] and [compiled]: a candidate seen before is skipped. *)
Fixpoint add_candidates (seen : list str) (compiled : list (list N)) (candidates : list str) :
    res PatternError (list str * list (list N)) :=
  match candidates with
  | [] => Ok (seen, compiled)
  | candidate :: candidates =>
      if bool_decide (candidate ∈ seen) then add_candidates seen compiled candidates
      else
        _ ← ensure (negb (is_empty candidate)) EmptyPattern;
        add_candidates (candidate :: seen) (compiled ++ [as_bytes candidate]) candidates
  end.
Fixpoint compile_patterns (global_wildcard : GlobalWildcard) (seen : list str) (compiled : list (list N))
    (pats : list str) : res PatternError (list (list N)) :=
  match pats with
  | [] => Ok compiled
  | pattern :: pats =>
      _ ← check_pattern global_wildcard pattern;
      '(seen, compiled) ← add_candidates seen compiled (expand_domain_pattern (normalize_pattern pattern));
      compile_patterns global_wildcard seen compiled pats
  end.
Definition new_set (pats : list str) (global_wildcard : GlobalWildcard) : res PatternError DomainPatternSet :=
  compiled ← compile_patterns global_wildcard [] [] pats; Ok {| patterns := compiled |}.

Definition compile_allowlist (pats : list str) : res PatternError DomainPatternSet := new_set pats Allow.
Definition compile_denylist (pats : list str) : res PatternError DomainPatternSet := new_set pats Reject.

Definition set_is_match (s : DomainPatternSet) (host : str) : bool :=
  existsb (λ pattern, matches pattern (as_bytes host)) (patterns s).

Example hosts_normalize :
  normalize_host <$> [lit " Example.COM. "; lit "example.com:443"; lit "[::1]:80"; lit "fe80::1%25lo0"]
  = [lit "example.com"; lit "example.com"; lit "::1"; lit "fe80::1%lo0"].
Proof. reflexivity. Qed.
Example denylist_subdomains :
  (λ s, set_is_match s <$> [lit "api.example.com"; lit "example.com"])
    <$> compile_denylist [lit "*.Example.COM."] = Ok [true; false].
Proof. reflexivity. Qed.
Example denylist_global :
  compile_denylist <$> [[lit "*"]; [lit "[*]"]; [lit "*:80"]]
  = [Err UnsupportedGlobalWildcard; Err UnsupportedGlobalWildcard; Err UnsupportedGlobalWildcard].
Proof. reflexivity. Qed.

(** ** What a set of patterns means *)

(** A host below a domain: at least one byte, a dot, and a host of the domain. *)
Definition subdomain_of (domain host : list N) : Prop :=
  ∃ label rest, label ≠ [] ∧ host = label ++ DOT :: rest ∧ Glob domain rest.

Definition pattern_meaning (pattern : str) (host : list N) : Prop :=
  let pattern := trim (normalize_pattern pattern) in
  match strip_prefix (lit "**.") pattern with
  | Some domain => let d := as_bytes (trim domain) in Glob d host ∨ subdomain_of d host
  | None => match strip_prefix (lit "*.") pattern with
            | Some domain => subdomain_of (as_bytes (trim domain)) host
            | None => Glob (as_bytes pattern) host
            end
  end.

Lemma Glob_subdomain d host : Glob (as_bytes (lit "?*.") ++ d) host ↔ subdomain_of d host.
Proof.
  change (as_bytes (lit "?*.") ++ d) with (QUESTION :: STAR :: DOT :: d). split.
  - inversion 1 as [| |c p x h Hc Hm HG]; subst. inversion HG as [|p a h' HG' E1 E2|]; subst; [|done].
    inversion HG' as [| |c p y h Hc' Hm' HG'']; subst.
    exists (x :: a), h. split; [done|]. split; [|done]. cbn [app]. do 2 f_equal.
    apply orb_true_iff in Hm' as [?|Hm']; [done|]. apply N.eqb_eq in Hm'.
    change (byte_lower DOT) with DOT in Hm'. unfold byte_lower, DOT in *. destruct ((65 <=? y) && (y <=? 90))%N eqn:E; [|by subst y].
    apply andb_true_iff in E as [?%N.leb_le ?%N.leb_le]. exfalso. lia.
  - intros (label & rest & Hl & -> & HG). destruct label as [|x label]; [done|]. cbn [app].
    constructor; [done|done|]. constructor. constructor; [done|done|done].
Qed.

Lemma expand_meaning pattern host :
  [] ∉ expand_domain_pattern (normalize_pattern pattern) →
  (∃ c, c ∈ expand_domain_pattern (normalize_pattern pattern) ∧ Glob (as_bytes c) host)
  ↔ pattern_meaning pattern host.
Proof.
  unfold expand_domain_pattern, strip_wildcard_prefix, pattern_meaning.
  set (n := trim (normalize_pattern pattern)). unfold starts_with.
  assert (∀ c h, (∃ x, x ∈ [c] ∧ Glob (as_bytes x) h) ↔ Glob (as_bytes c) h) as Hone.
  { intros c h. setoid_rewrite list_elem_of_singleton. naive_solver. }
  destruct (strip_prefix (lit "**.") n) as [d|]; cbn [is_some].
  - destruct (is_empty (trim d)); [set_solver|]. intros _.
    rewrite <-Glob_subdomain, <-as_bytes_app, <-(Hone (_ ++ _)). split.
    + intros (c & [->|Hc]%elem_of_cons & HG); eauto.
    + intros [HG|(c & Hc & HG)]; [exists (trim d)|exists c]; rewrite elem_of_cons; eauto.
  - destruct (strip_prefix (lit "*.") n) as [d|]; [|intros _; apply Hone].
    destruct (is_empty (trim d)); [set_solver|]. intros _. rewrite <-Glob_subdomain, <-as_bytes_app. apply Hone.
Qed.

Definition compiled_from (seen : list str) (compiled : list (list N)) : Prop :=
  ∀ b, b ∈ compiled ↔ ∃ c, c ∈ seen ∧ b = as_bytes c.

Lemma add_candidates_spec seen compiled cs seen' compiled' :
  add_candidates seen compiled cs = Ok (seen', compiled') → compiled_from seen compiled → [] ∉ seen →
  compiled_from seen' compiled' ∧ [] ∉ seen' ∧ (∀ c, c ∈ seen' ↔ c ∈ seen ∨ c ∈ cs).
Proof.
  revert seen compiled. induction cs as [|c cs IH]; intros seen compiled; cbn [add_candidates].
  - intros [= <- <-] ??. split; [done|]. split; [done|]. set_solver.
  - case_bool_decide as Hin.
    + intros Hadd Hc Hne. destruct (IH _ _ Hadd Hc Hne) as (? & ? & Heq). split; [done|]. split; [done|].
      intros x. rewrite Heq. set_solver.
    + destruct c as [|x c]; [done|]. cbn [is_empty negb ensure mbind res_bind]. intros Hadd Hc Hne.
      destruct (IH _ _ Hadd) as (? & ? & Heq); [|set_solver|].
      { intros b. rewrite elem_of_app, list_elem_of_singleton, (Hc b). set_solver. }
      split; [done|]. split; [done|]. intros y. rewrite Heq. set_solver.
Qed.

Lemma check_pattern_reject pattern :
  check_pattern Reject pattern = Ok tt → is_global_wildcard_domain_pattern pattern = false.
Proof. unfold check_pattern. cbn [is_reject andb]. by destruct (is_global_wildcard_domain_pattern pattern). Qed.

Lemma compile_patterns_spec g seen compiled pats out :
  compile_patterns g seen compiled pats = Ok out → compiled_from seen compiled → [] ∉ seen →
  ∃ all, compiled_from all out ∧ [] ∉ all
    ∧ (∀ c, c ∈ all ↔ c ∈ seen ∨ ∃ p, p ∈ pats ∧ c ∈ expand_domain_pattern (normalize_pattern p))
    ∧ (g = Reject → Forall (λ p, is_global_wildcard_domain_pattern p = false) pats).
Proof.
  revert seen compiled. induction pats as [|p pats IH]; intros seen compiled; cbn [compile_patterns].
  - intros [= <-] ??. exists seen. split; [done|]. split; [done|]. split; [set_solver|]. constructor.
  - destruct (check_pattern g p) as [[]|e|] eqn:Ec; [|done..]. cbn [mbind res_bind].
    destruct (add_candidates _ _ _) as [[seen' compiled']|e|] eqn:Ea; [|done..]. cbn [res_bind].
    intros Hrest Hc Hne. destruct (add_candidates_spec _ _ _ _ _ Ea Hc Hne) as (Hc' & Hne' & Hseen).
    destruct (IH _ _ Hrest Hc' Hne') as (all & Hall & Hn & Heq & Hrej). exists all.
    split; [done|]. split; [done|]. split.
    + intros c. rewrite Heq, Hseen. set_solver.
    + intros ->. constructor; [by apply check_pattern_reject|by apply Hrej].
Qed.

Lemma utf8_star x : utf8_char x = [STAR] → x = STAR.
Proof. unfold utf8_char. repeat case_match; try done. by intros [= ->]. Qed.
Lemma as_bytes_star c : as_bytes c = [STAR] → c = lit "*".
Proof.
  destruct c as [|x c]; [done|]. rewrite as_bytes_cons. intros H.
  pose proof (utf8_char_ne x). destruct (utf8_char x) as [|b [|b' l]] eqn:E; [done| |done].
  cbn [app] in H. injection H as -> Hc. apply utf8_star in E as ->.
  destruct c as [|y c]; [done|]. rewrite as_bytes_cons in Hc. apply app_eq_nil in Hc as [Hy _].
  by apply utf8_char_ne in Hy.
Qed.

(** A compiled set of domain patterns matches a host exactly when one of the
    patterns covers it: [**.d] covers what [d] matches and everything below it,
    [*.d] only what is strictly below it, and any other pattern what it matches
    itself; and a compiled deny list never holds the pattern of all hosts. *)
Theorem domain_set_meaning pats g s host :
  new_set pats g = Ok s →
  (set_is_match s host = true ↔ ∃ pat, pat ∈ pats ∧ pattern_meaning pat (as_bytes host))
  ∧ (g = Reject → [STAR] ∉ patterns s).
Proof.
  unfold new_set. destruct (compile_patterns g [] [] pats) as [out|e|] eqn:E; [|done..]. cbn [mbind res_bind].
  intros [= <-]. cbn [patterns set_is_match].
  destruct (compile_patterns_spec _ _ _ _ _ E) as (all & Hall & Hne & Heq & Hrej); [|set_solver|].
  { intros b. set_solver. }
  split.
  - unfold set_is_match. cbn [patterns]. rewrite existsb_exists. setoid_rewrite matches_glob.
    setoid_rewrite <-list_elem_of_In. split.
    + intros (b & [c [[Hn|(p & Hp & Hc)]%Heq ->]]%Hall & HG); [by apply not_elem_of_nil in Hn|]. exists p.
      split; [done|]. apply expand_meaning; [|by eauto]. intros Hnil. apply Hne, Heq. by eauto.
    + intros (p & Hp & Hm). apply expand_meaning in Hm as (c & Hc & HG).
      * exists (as_bytes c). split; [|done]. apply Hall. exists c. split; [|done]. apply Heq. by eauto.
      * intros Hnil. apply Hne, Heq. by eauto.
  - intros Hg [c [[Hn|(p & Hp & Hc)]%Heq Hs]]%Hall; [by apply not_elem_of_nil in Hn|].
    symmetry in Hs. apply as_bytes_star in Hs as ->. specialize (Hrej Hg).
    rewrite Forall_forall in Hrej. specialize (Hrej p Hp). unfold is_global_wildcard_domain_pattern in Hrej.
    apply not_true_iff_false in Hrej. apply Hrej, existsb_exists. exists (lit "*").
    split; [by apply list_elem_of_In|done].
Qed.

Lemma domain_set_witness :
  ∃ s, compile_denylist [lit "**.example.com"] = Ok s
    ∧ (set_is_match s (lit "api.example.com") = true ↔
         ∃ pat, pat ∈ [lit "**.example.com"] ∧ pattern_meaning pat (as_bytes (lit "api.example.com"))).
Proof.
  eexists. split; [vm_compute; reflexivity|].
  apply (domain_set_meaning [lit "**.example.com"] Reject). vm_compute. reflexivity.
Defined.
