(* ===== verification/NetworkPolicy.v ===== *)
(** * network-proxy/policy: hosts, addresses and domain constraints

    [network-proxy/src/policy.rs].  [url::Host::parse] followed by [to_string] is
    the parameter [url_host]. *)
From S2P Require Import Prelude Str IpAddr DomainMatcher DomainSet.

(** [Host]: a normalized host. *)
Record Host := { host_str : str }.
Definition Host_parse (input : str) : res unit Host :=
  let normalized := normalize_host input in
  _ ← ensure (negb (is_empty normalized)) tt; Ok {| host_str := normalized |}.

Definition is_loopback_host (host : Host) : bool :=
  let host := default (host_str host) (unscoped_ip_literal (host_str host)) in
  if str_eqb host (lit "localhost") then true
  else match parse_ip host with Some ip => is_loopback ip | None => false end.

Definition is_default_proxy_bypass_host (host : str) : bool :=
  let host := normalize_host host in
  match parse_ip host with
  | Some (V4 ip) => (ip =? LOCALHOST_V4)%N || v4_is_private ip
  | Some (V6 ip) => (ip =? LOCALHOST_V6)%N
  | None => str_eqb host (lit "localhost") || ends_with host (lit ".localhost")
  end.

(** [u32] arithmetic: a shift drops the bits above the width. *)
Definition U32_MAX : N := 2 ^ 32 - 1.
Definition ipv4_in_cidr (ip base prefix : N) : bool :=
  let mask := if (prefix =? 0)%N then 0%N else N.land (N.shiftl U32_MAX (32 - prefix)) U32_MAX in
  (N.land ip mask =? N.land base mask)%N.

Definition is_non_public_ipv4 (ip : N) : bool :=
  v4_is_loopback ip
  || v4_is_private ip
  || v4_is_link_local ip
  || v4_is_unspecified ip
  || v4_is_multicast ip
  || v4_is_broadcast ip
  || ipv4_in_cidr ip (from_octets 0 0 0 0) 8
  || ipv4_in_cidr ip (from_octets 100 64 0 0) 10
  || ipv4_in_cidr ip (from_octets 192 0 0 0) 24
  || ipv4_in_cidr ip (from_octets 192 0 2 0) 24
  || ipv4_in_cidr ip (from_octets 198 18 0 0) 15
  || ipv4_in_cidr ip (from_octets 198 51 100 0) 24
  || ipv4_in_cidr ip (from_octets 203 0 113 0) 24
  || ipv4_in_cidr ip (from_octets 240 0 0 0) 4.

Definition is_private_network_v4 (ip : N) : bool :=
  v4_is_private ip || ipv4_in_cidr ip (from_octets 100 64 0 0) 10.
Definition is_private_network_ip (ip : IpAddr) : bool :=
  match ip with
  | V4 ip => is_private_network_v4 ip
  | V6 ip => match to_ipv4 ip with
             | Some ip => is_private_network_v4 ip
             | None => v6_is_unique_local ip
             end
  end.

Definition is_non_public_ipv6 (ip : N) : bool :=
  match to_ipv4 ip with
  | Some v4 => is_non_public_ipv4 v4 || v6_is_loopback ip
  | None =>
      v6_is_loopback ip || v6_is_unspecified ip || v6_is_multicast ip || v6_is_unique_local ip
      || v6_is_unicast_link_local ip
  end.
Definition is_non_public_ip (ip : IpAddr) : bool :=
  match ip with V4 ip => is_non_public_ipv4 ip | V6 ip => is_non_public_ipv6 ip end.

(** ** Constraints on domain patterns *)
Inductive DomainPattern :=
  | ApexAndSubdomains (domain : str)
  | SubdomainsOnly (domain : str)
  | Exact (domain : str).

Section Constraints.
Variable url_host : str → option str.

Definition parse_domain_for_constraints (domain : str) : str :=
  let domain := trim_end_matches DOT (trim domain) in
  if is_empty domain then []
  else
    let host :=
      if starts_with domain [LBRACKET] && ends_with domain [RBRACKET]
      then drop 1 (take (length domain - 1) domain) else domain in
    if contains_any (lit "*?%") host then domain
    else default [] (url_host host).

Definition parse_for_constraints (input : str) : DomainPattern :=
  let input := trim input in
  if is_empty input then Exact []
  else match strip_prefix (lit "**.") input with
       | Some domain => ApexAndSubdomains (parse_domain_for_constraints domain)
       | None => match strip_prefix (lit "*.") input with
                 | Some domain => SubdomainsOnly (parse_domain_for_constraints domain)
                 | None => Exact (parse_domain_for_constraints input)
                 end
       end.
End Constraints.

Definition normalize_domain (domain : str) : str := to_ascii_lowercase (trim_end_matches DOT domain).
Definition domain_eq (l r : str) : bool := str_eqb (normalize_domain l) (normalize_domain r).
Definition is_subdomain_or_equal (child parent : str) : bool :=
  let child := normalize_domain child in
  let parent := normalize_domain parent in
  if str_eqb child parent then true else ends_with child ([DOT] ++ parent).
Definition is_strict_subdomain (child parent : str) : bool :=
  let child := normalize_domain child in
  let parent := normalize_domain parent in
  negb (str_eqb child parent) && ends_with child ([DOT] ++ parent).

Definition allows (self candidate : DomainPattern) : bool :=
  match self with
  | Exact domain =>
      match candidate with Exact candidate => domain_eq candidate domain | _ => false end
  | SubdomainsOnly domain =>
      match candidate with
      | Exact candidate => is_strict_subdomain candidate domain
      | SubdomainsOnly candidate => is_subdomain_or_equal candidate domain
      | ApexAndSubdomains candidate => is_strict_subdomain candidate domain
      end
  | ApexAndSubdomains domain =>
      match candidate with
      | Exact candidate => is_subdomain_or_equal candidate domain
      | SubdomainsOnly candidate => is_subdomain_or_equal candidate domain
      | ApexAndSubdomains candidate => is_subdomain_or_equal candidate domain
      end
  end.

Example non_public :
  is_non_public_ip <$> [V4 (from_octets 100 64 0 1); V4 (from_octets 8 8 8 8); V6 1;
                        V6 (65535 * 2 ^ 32 + from_octets 10 0 0 1)%N; V6 (8193 * 2 ^ 112)%N]
  = [true; false; true; true; false].
Proof. reflexivity. Qed.

(** ** Names below a domain *)
Definition below (child parent : str) : Prop := ∃ k, child = k ++ DOT :: parent.

Lemma below_length c d : below c d → length d < length c.
Proof. intros [k ->]. rewrite length_app. cbn. lia. Qed.
Lemma below_trans a b c : below a b → below b c → below a c.
Proof. intros [k ->] [k' ->]. exists (k ++ DOT :: k'). by rewrite <-app_assoc. Qed.
Lemma below_irrefl a : ¬ below a a.
Proof. intros H%below_length. lia. Qed.
Lemma below_label x c d : x ≠ DOT → below (x :: DOT :: c) d ↔ c = d ∨ below c d.
Proof.
  intros Hx. split.
  - intros [[|y [|z k]] E]; cbn [app] in E; simplify_eq; [by left|]. right. by exists k.
  - intros [->|[k ->]]; [by exists [x]|by exists (x :: DOT :: k)].
Qed.

Lemma domain_eq_iff c d : domain_eq c d = true ↔ normalize_domain c = normalize_domain d.
Proof. apply str_eqb_eq. Qed.
Lemma ends_with_below c d : ends_with c ([DOT] ++ d) = true ↔ below c d.
Proof. apply ends_with_spec. Qed.
Lemma subdomain_or_equal_iff c d :
  is_subdomain_or_equal c d = true ↔
  normalize_domain c = normalize_domain d ∨ below (normalize_domain c) (normalize_domain d).
Proof.
  unfold is_subdomain_or_equal. rewrite <-ends_with_below.
  destruct (str_eqb _ _) eqn:E; [apply str_eqb_eq in E|apply str_eqb_ne in E]; naive_solver.
Qed.
Lemma strict_subdomain_iff c d :
  is_strict_subdomain c d = true ↔ below (normalize_domain c) (normalize_domain d).
Proof.
  unfold is_strict_subdomain. rewrite andb_true_iff, negb_true_iff, str_eqb_ne, ends_with_below.
  split; [by intros [_ ?]|]. intros H. split; [|done]. intros E. rewrite E in H. by apply below_irrefl in H.
Qed.

(** A normalized name is in lower case and does not end in a dot, so that it is
    its own normal form, also below a label. *)
Lemma lowercase_idemp s : to_ascii_lowercase (to_ascii_lowercase s) = to_ascii_lowercase s.
Proof.
  unfold to_ascii_lowercase. rewrite <-list_fmap_compose. apply list_fmap_ext. intros _ c _. cbn.
  destruct ((65 <=? c) && (c <=? 90))%N eqn:E; [|by rewrite E].
  destruct ((65 <=? c + 32) && (c + 32 <=? 90))%N eqn:E'; [|done].
  rewrite andb_true_iff, !N.leb_le in *. lia.
Qed.
Lemma trim_end_matches_id c s : last s ≠ Some c → trim_end_matches c s = s.
Proof.
  intros H. unfold trim_end_matches. destruct s as [|x s _] using rev_ind; [done|].
  rewrite last_snoc in H. rewrite reverse_snoc. cbn [drop_while].
  destruct (N.eqb_spec c x); [congruence|]. by rewrite reverse_cons, reverse_involutive.
Qed.
Lemma trim_end_matches_last c s : last (trim_end_matches c s) ≠ Some c.
Proof.
  unfold trim_end_matches. rewrite last_reverse.
  pose proof (drop_while_head (N.eqb c) (reverse s)) as H.
  destruct (head _) as [x|]; [|done]. cbn in H. intros [= ->]. by rewrite N.eqb_refl in H.
Qed.
Lemma normalize_domain_last d : last (normalize_domain d) ≠ Some DOT.
Proof.
  unfold normalize_domain. pose proof (trim_end_matches_last DOT d) as H. revert H.
  generalize (trim_end_matches DOT d). intros s H. destruct s as [|x s _] using rev_ind; [done|].
  unfold to_ascii_lowercase. rewrite fmap_app. cbn [fmap list_fmap]. rewrite last_snoc.
  rewrite last_snoc in H. destruct ((65 <=? x) && (x <=? 90))%N eqn:E; [|done].
  rewrite andb_true_iff, !N.leb_le in E. intros [= Hx]. unfold DOT in *. lia.
Qed.
Lemma normalize_below x d :
  (97 <= x <= 122)%N → normalize_domain d ≠ [] →
  normalize_domain (x :: DOT :: normalize_domain d) = x :: DOT :: normalize_domain d.
Proof.
  intros Hx Hd. unfold normalize_domain at 1. rewrite trim_end_matches_id.
  - unfold to_ascii_lowercase at 1. cbn [fmap list_fmap].
    destruct ((65 <=? x) && (x <=? 90))%N eqn:E; [rewrite andb_true_iff, !N.leb_le in E; lia|].
    do 2 f_equal. unfold normalize_domain. apply lowercase_idemp.
  - pose proof (normalize_domain_last d). by destruct (normalize_domain d).
Qed.

Definition pattern_domain (p : DomainPattern) : str :=
  match p with ApexAndSubdomains d | SubdomainsOnly d | Exact d => d end.

Lemma allows_exact p h :
  allows p (Exact h) = true ↔
  match p with
  | Exact d => normalize_domain h = normalize_domain d
  | SubdomainsOnly d => below (normalize_domain h) (normalize_domain d)
  | ApexAndSubdomains d =>
      normalize_domain h = normalize_domain d ∨ below (normalize_domain h) (normalize_domain d)
  end.
Proof.
  destruct p; cbn [allows]; [apply subdomain_or_equal_iff|apply strict_subdomain_iff|apply domain_eq_iff].
Qed.

(** Two hosts below a domain, for any domain that is not empty. *)
Definition label_host (x : char) (d : str) : str := x :: DOT :: normalize_domain d.
Lemma label_host_below x d c :
  (97 <= x <= 122)%N → normalize_domain c ≠ [] →
  normalize_domain (label_host x c) = label_host x c
  ∧ (below (label_host x c) (normalize_domain d) ↔
       normalize_domain c = normalize_domain d ∨ below (normalize_domain c) (normalize_domain d)).
Proof.
  intros Hx Hc. split; [by apply normalize_below|]. apply below_label. unfold DOT. lia.
Qed.

Lemma allows_complete p q :
  normalize_domain (pattern_domain q) ≠ [] →
  (∀ h, allows q (Exact h) = true → allows p (Exact h) = true) → allows p q = true.
Proof.
  intros Hne Hall. set (c := pattern_domain q) in *.
  setoid_rewrite allows_exact in Hall.
  pose proof (Hall c) as Hself.
  pose proof (Hall (label_host 97 c)) as Ha. pose proof (Hall (label_host 98 c)) as Hb.
  pose proof (λ d, label_host_below 97 d c ltac:(lia) Hne) as La.
  pose proof (λ d, label_host_below 98 d c ltac:(lia) Hne) as Lb.
  destruct (La c) as [Na Ba], (Lb c) as [Nb Bb]. rewrite Na in Ha. rewrite Nb in Hb.
  destruct q as [c'|c'|c']; cbn [pattern_domain] in c; subst c; destruct p as [d|d|d]; cbn [allows];
    rewrite ?subdomain_or_equal_iff, ?strict_subdomain_iff, ?domain_eq_iff;
    destruct (La d) as [_ Ad], (Lb d) as [_ Bd].
  - naive_solver.
  - naive_solver.
  - rewrite <-Ha in Hself by naive_solver. specialize (Hself (or_introl eq_refl)).
    apply (f_equal length) in Hself. cbn in Hself. lia.
  - destruct Ha as [Ha|Ha]; [naive_solver| |naive_solver].
    destruct Hb as [Hb|Hb]; [naive_solver|by rewrite <-Ha in Hb|]. apply below_length in Hb.
    rewrite <-Ha in Hb. cbn in Hb. lia.
  - naive_solver.
  - rewrite <-Ha in Hb by naive_solver. discriminate Hb. naive_solver.
  - naive_solver.
  - naive_solver.
  - naive_solver.
Qed.

Lemma allows_sound p q h :
  allows p q = true → allows q (Exact h) = true → allows p (Exact h) = true.
Proof.
  rewrite !allows_exact. destruct p as [d|d|d], q as [c|c|c]; cbn [allows]; try done;
    rewrite ?subdomain_or_equal_iff, ?strict_subdomain_iff, ?domain_eq_iff;
    intros Hpq Hq; repeat match goal with H : _ ∨ _ |- _ => destruct H as [H|H] end;
    try (rewrite Hq); try (rewrite <-Hpq); eauto using below_trans.
Qed.

(** A domain pattern allows another exactly when every host the other covers is
    covered by it; so a constraint admits only patterns that do not reach beyond
    it, and admits all of those (whose domain is not empty). *)
Theorem allows_is_inclusion p q :
  normalize_domain (pattern_domain q) ≠ [] →
  allows p q = true ↔ ∀ h, allows q (Exact h) = true → allows p (Exact h) = true.
Proof.
  intros Hne. split; [intros H h; by apply allows_sound|by apply allows_complete].
Qed.

Lemma allows_witness :
  allows (ApexAndSubdomains (lit "example.com")) (SubdomainsOnly (lit "api.Example.com.")) = true
  ∧ allows (ApexAndSubdomains (lit "example.com")) (Exact (lit "v1.api.example.com")) = true.
Proof.
  split; [reflexivity|].
  refine (proj1 (allows_is_inclusion (ApexAndSubdomains (lit "example.com"))
                   (SubdomainsOnly (lit "api.Example.com.")) _) _ (lit "v1.api.example.com") _);
    [discriminate|reflexivity|reflexivity].
Defined.

(** ** Address ranges *)
Lemma mask_bits k ip :
  (0 < k <= 32)%N → (ip < 2 ^ 32)%N →
  N.land ip (N.land (N.shiftl U32_MAX (32 - k)) U32_MAX) = N.shiftl (N.shiftr ip (32 - k)) (32 - k).
Proof.
  intros Hk Hip. change U32_MAX with (N.ones 32). apply N.bits_inj. intros i.
  rewrite !N.land_spec. destruct (N.lt_ge_cases i (32 - k)) as [Hi|Hi].
  - rewrite !N.shiftl_spec_low by done. by rewrite andb_false_r.
  - rewrite !N.shiftl_spec_high' by done. rewrite N.shiftr_spec'.
    replace (i - (32 - k) + (32 - k))%N with i by lia. destruct (N.lt_ge_cases i 32) as [Hj|Hj].
    + rewrite !N.ones_spec_low by lia. by rewrite !andb_true_r.
    + assert (N.testbit ip i = false) as ->; [|done].
      destruct (N.eq_dec ip 0%N) as [->|Hz]; [apply N.bits_0|].
      apply N.bits_above_log2. assert (N.log2 ip < 32)%N by (apply N.log2_lt_pow2; lia). lia.
Qed.

(** A block of addresses is the interval of its size that starts at its base. *)
Lemma in_cidr_interval ip base k :
  (0 < k <= 32)%N → (ip < 2 ^ 32)%N → (base < 2 ^ 32)%N → (base mod 2 ^ (32 - k) = 0)%N →
  ipv4_in_cidr ip base k = true ↔ (base <= ip < base + 2 ^ (32 - k))%N.
Proof.
  intros Hk Hip Hb Hal. unfold ipv4_in_cidr. destruct (N.eqb_spec k 0); [lia|].
  rewrite N.eqb_eq, !mask_bits by done. rewrite !N.shiftl_mul_pow2, !N.shiftr_div_pow2.
  set (m := (2 ^ (32 - k))%N) in *. assert (m ≠ 0)%N as Hm by (apply N.pow_nonzero; lia).
  pose proof (N.div_mod ip m Hm) as E1. pose proof (N.mod_lt ip m Hm) as L1.
  pose proof (N.div_mod base m Hm) as E2. rewrite Hal in E2. clearbody m. clear - E1 L1 E2 Hm.
  rewrite E1, E2 at 2. revert E1 E2 L1. generalize (ip / m)%N (base / m)%N (ip mod m)%N. intros a b r -> -> L1.
  split; [intros E; nia|]. intros [H1 H2]. f_equal. nia.
Qed.

Lemma cidr_block base k top :
  ((0 <? k) && (k <=? 32) && (top <? 2 ^ 32) && (base mod 2 ^ (32 - k) =? 0)
   && (base + 2 ^ (32 - k) =? top + 1))%N = true →
  ∀ ip, (ip < 4294967296)%N → ipv4_in_cidr ip base k = true ↔ (base <= ip <= top)%N.
Proof.
  rewrite !andb_true_iff, !N.ltb_lt, N.leb_le, !N.eqb_eq. change (2 ^ 32)%N with 4294967296%N.
  intros ((((H1 & H2) & H3) & H4) & H5) ip Hip.
  assert (0 < 2 ^ (32 - k))%N by (apply N.neq_0_lt_0, N.pow_nonzero; lia).
  rewrite in_cidr_interval; [lia|lia|exact Hip| |done]. change (2 ^ 32)%N with 4294967296%N. lia.
Qed.

Definition non_public_ranges : list (N * N) :=
  [(from_octets 0 0 0 0, from_octets 0 255 255 255);
   (from_octets 10 0 0 0, from_octets 10 255 255 255);
   (from_octets 100 64 0 0, from_octets 100 127 255 255);
   (from_octets 127 0 0 0, from_octets 127 255 255 255);
   (from_octets 169 254 0 0, from_octets 169 254 255 255);
   (from_octets 172 16 0 0, from_octets 172 31 255 255);
   (from_octets 192 0 0 0, from_octets 192 0 0 255);
   (from_octets 192 0 2 0, from_octets 192 0 2 255);
   (from_octets 192 168 0 0, from_octets 192 168 255 255);
   (from_octets 198 18 0 0, from_octets 198 19 255 255);
   (from_octets 198 51 100 0, from_octets 198 51 100 255);
   (from_octets 203 0 113 0, from_octets 203 0 113 255);
   (from_octets 224 0 0 0, from_octets 255 255 255 255)].
Definition in_range (ip : N) (r : N * N) : Prop := (r.1 <= ip <= r.2)%N.

Section Octets.
Ltac Zify.zify_post_hook ::= Z.to_euclidean_division_equations.
Ltac octets :=
  unfold octet, from_octets; change (256 ^ (3 - 0))%N with 16777216%N; change (256 ^ (3 - 1))%N with 65536%N;
  rewrite ?orb_true_iff, ?andb_true_iff, ?N.eqb_eq, ?N.leb_le; lia.

Lemma loopback_range ip :
  (ip < 4294967296)%N → v4_is_loopback ip = true ↔ (2130706432 <= ip <= 2147483647)%N.
Proof. intros. unfold v4_is_loopback. octets. Qed.
Lemma private_range ip :
  (ip < 4294967296)%N → v4_is_private ip = true ↔
  (167772160 <= ip <= 184549375)%N ∨ (2886729728 <= ip <= 2887778303)%N ∨ (3232235520 <= ip <= 3232301055)%N.
Proof. intros. unfold v4_is_private. octets. Qed.
Lemma link_local_range ip :
  (ip < 4294967296)%N → v4_is_link_local ip = true ↔ (2851995648 <= ip <= 2852061183)%N.
Proof. intros. unfold v4_is_link_local. octets. Qed.
Lemma multicast_range ip :
  (ip < 4294967296)%N → v4_is_multicast ip = true ↔ (3758096384 <= ip <= 4026531839)%N.
Proof. intros. unfold v4_is_multicast. octets. Qed.
End Octets.
Ltac Zify.zify_post_hook ::= idtac.

(** The addresses refused as not public are exactly the reserved ranges: this
    network, the private, shared, loopback and link-local blocks, the protocol,
    documentation and benchmarking blocks, and everything from the multicast
    block up.  The tests by bit mask equal the intervals. *)
Theorem non_public_ranges_exact ip :
  (ip < 2 ^ 32)%N → is_non_public_ipv4 ip = true ↔ Exists (in_range ip) non_public_ranges.
Proof.
  intros Hip. change (2 ^ 32)%N with 4294967296%N in Hip. unfold is_non_public_ipv4.
  rewrite !orb_true_iff, loopback_range, private_range, link_local_range, multicast_range by done.
  rewrite (cidr_block (from_octets 0 0 0 0) 8 (from_octets 0 255 255 255) eq_refl ip Hip).
  rewrite (cidr_block (from_octets 100 64 0 0) 10 (from_octets 100 127 255 255) eq_refl ip Hip).
  rewrite (cidr_block (from_octets 192 0 0 0) 24 (from_octets 192 0 0 255) eq_refl ip Hip).
  rewrite (cidr_block (from_octets 192 0 2 0) 24 (from_octets 192 0 2 255) eq_refl ip Hip).
  rewrite (cidr_block (from_octets 198 18 0 0) 15 (from_octets 198 19 255 255) eq_refl ip Hip).
  rewrite (cidr_block (from_octets 198 51 100 0) 24 (from_octets 198 51 100 255) eq_refl ip Hip).
  rewrite (cidr_block (from_octets 203 0 113 0) 24 (from_octets 203 0 113 255) eq_refl ip Hip).
  rewrite (cidr_block (from_octets 240 0 0 0) 4 (from_octets 255 255 255 255) eq_refl ip Hip).
  unfold v4_is_unspecified, v4_is_broadcast. rewrite !N.eqb_eq. unfold non_public_ranges, in_range.
  rewrite !Exists_cons, Exists_nil. cbn [fst snd]. unfold from_octets. lia.
Qed.

Lemma non_public_witness :
  is_non_public_ipv4 (from_octets 100 64 0 1) = true
  ∧ Exists (in_range (from_octets 100 64 0 1)) non_public_ranges.
Proof.
  split; [reflexivity|]. apply (non_public_ranges_exact (from_octets 100 64 0 1)); reflexivity.
Defined.
