(* ===== verification/WindowsCommand.v ===== *)
(** * shell-command/command_safety: dangerous commands on Windows

    [windows_dangerous_commands.rs].  [shlex::split], the capture of the regular
    expression around a URL and [url::Url::parse] are parameters. *)
From stdpp Require Import sets.
From S2P Require Import Prelude Str.

(** [str::eq_ignore_ascii_case]: the texts with ASCII letters in lower case. *)
Definition eq_ignore_case (s t : str) : bool := str_eqb (to_ascii_lowercase s) (to_ascii_lowercase t).
Definition one_of (names : list str) (s : str) : bool := existsb (str_eqb s) names.

(** [split] with a predicate, on characters or on tokens: always at least one part. *)
Fixpoint split_by {A} (f : A → bool) (l : list A) : list (list A) :=
  match l with
  | [] => [[]]
  | x :: l =>
      if f x then [] :: split_by f l
      else match split_by f l with
           | [] => [[x]]
           | p :: ps => (x :: p) :: ps
           end
  end.
(** [rsplit(f).next()]. *)
Definition last_part (f : char → bool) (s : str) : str := default [] (last (split_by f s)).

Definition trim_matches (c : char) (s : str) : str := drop_while (N.eqb c) (trim_end_matches c s).

Definition is_ascii_alphabetic (c : char) : bool :=
  (((65 <=? c) && (c <=? 90)) || ((97 <=? c) && (c <=? 122)))%N.
Definition SLASH : char := 47%N.
Definition BACKSLASH : char := 92%N.
Definition is_separator (c : char) : bool := (c =? SLASH)%N || (c =? BACKSLASH)%N.

(** The drive of a name such as [C:tool]. *)
Definition strip_drive (name : str) : str :=
  match name with
  | d :: c :: rest => if is_ascii_alphabetic d && (c =? 58)%N then rest else name
  | _ => name
  end.
Definition executable_basename (exe : str) : option str :=
  let name := last_part is_separator exe in
  if is_empty name then None
  else let name := strip_drive name in
       if is_empty name then None else Some (to_ascii_lowercase name).

Definition is_powershell_executable (exe : str) : bool :=
  is_some_and (one_of [lit "powershell"; lit "powershell.exe"; lit "pwsh"; lit "pwsh.exe"])
    (executable_basename exe).
Definition is_browser_executable (name : str) : bool :=
  one_of [lit "chrome"; lit "chrome.exe"; lit "msedge"; lit "msedge.exe"; lit "firefox"; lit "firefox.exe";
          lit "iexplore"; lit "iexplore.exe"] name.

(** ** Splitting on the operators of CMD *)
Definition AMP : char := 38%N.
Definition BAR : char := 124%N.
Definition is_operator (c : char) : bool := (c =? AMP)%N || (c =? BAR)%N.
Definition flush (part : str) : list str := if is_empty part then [] else [part].

(** The loop, with the text since [start]. *)
Fixpoint operator_loop (part token : str) : list str :=
  match token with
  | [] => flush part
  | ch :: rest =>
      if is_operator ch then
        match rest with
        | next :: rest' =>
            if (next =? ch)%N then flush part ++ [ch; next] :: operator_loop [] rest'
            else flush part ++ [ch] :: operator_loop [] rest
        | [] => flush part ++ [ch] :: operator_loop [] rest
        end
      else operator_loop (part ++ [ch]) rest
  end.
Definition is_blank (s : str) : bool := is_empty (trim s).
Definition split_embedded_cmd_operators (token : str) : list str :=
  List.filter (λ s, negb (is_blank s)) (operator_loop [] token).

(** ** Forced deletion in PowerShell *)
Definition DELETE_CMDLETS : list str :=
  [lit "remove-item"; lit "ri"; lit "rm"; lit "del"; lit "erase"; lit "rd"; lit "rmdir"].
Definition SEG_SEPS : list char := [59; 124; 38; 10; 13; 9]%N.
Definition SOFT_SEPS : list char := [123; 125; 40; 41; 91; 93; 44; 59]%N.
Definition char_in (cs : list char) (c : char) : bool := existsb (N.eqb c) cs.

(** The segments, all but the last one first. *)
Record Segments := { closed : list (list str); current : list str }.
Definition push_word (word : str) (segs : Segments) : Segments :=
  let s := trim word in
  if is_empty s then segs else {| closed := closed segs; current := current segs ++ [s] |}.
Definition end_segment (segs : Segments) : Segments :=
  if is_empty (current segs) then segs else {| closed := closed segs ++ [current segs]; current := [] |}.
Fixpoint segment_token (cur : str) (segs : Segments) (tok : str) : Segments :=
  match tok with
  | [] => push_word cur segs
  | ch :: tok =>
      if char_in SEG_SEPS ch then segment_token [] (end_segment (push_word cur segs)) tok
      else segment_token (cur ++ [ch]) segs tok
  end.
Definition command_segments (tokens : list str) : list (list str) :=
  let segs := foldl (segment_token []) {| closed := []; current := [] |} tokens in
  closed segs ++ [current segs].

Definition atoms (seg : list str) : list str :=
  List.filter (λ s, negb (is_empty s)) (trim <$> concat (split_by (char_in SOFT_SEPS) <$> seg)).
(** [a.get(..7)] equal to seven ASCII characters: the first seven characters. *)
Definition is_force_flag (a : str) : bool :=
  eq_ignore_case a (lit "-force") || eq_ignore_case (take 7 a) (lit "-force:").
Definition has_force_delete_cmdlet (tokens : list str) : bool :=
  existsb (λ seg,
    existsb (λ a, existsb (λ cmd, eq_ignore_case a cmd) DELETE_CMDLETS) (atoms seg)
    && existsb is_force_flag (atoms seg)) (command_segments tokens).

Definition has_force_flag_cmd (args : list str) : bool := existsb (λ a, eq_ignore_case a (lit "/f")) args.
Definition has_recursive_flag_cmd (args : list str) : bool := existsb (λ a, eq_ignore_case a (lit "/s")) args.
Definition has_quiet_flag_cmd (args : list str) : bool := existsb (λ a, eq_ignore_case a (lit "/q")) args.

Section Windows.
Variable shlex_split : str → option (list str).
(** The first group of the regular expression, and the scheme of a parsed URL. *)
Variable url_capture : str → option str.
Variable url_scheme : str → option str.

Definition looks_like_url (token : str) : bool :=
  let lowercase_token := to_ascii_lowercase token in
  let urlish :=
    match find (lit "https://") lowercase_token with
    | Some idx => drop idx token
    | None => match find (lit "http://") lowercase_token with
              | Some idx => drop idx token
              | None => token
              end
    end in
  let candidate := default urlish (url_capture urlish) in
  match url_scheme candidate with
  | Some scheme => one_of [lit "http"; lit "https"] scheme
  | None => false
  end.
Definition args_have_url (args : list str) : bool := existsb looks_like_url args.

Definition is_dangerous_powershell_words (words : list str) : bool :=
  let tokens_lc := (λ t, to_ascii_lowercase (trim_matches 34%N (trim_matches 39%N t))) <$> words in
  let has_url := args_have_url words in
  if has_url && existsb (λ t,
       one_of [lit "start-process"; lit "start"; lit "saps"; lit "invoke-item"; lit "ii"] t
       || contains t (lit "start-process") || contains t (lit "invoke-item")) tokens_lc then true
  else if has_url && existsb (λ t, contains t (lit "shellexecute") || contains t (lit "shell.application")) tokens_lc
  then true
  else if is_some_and (λ first,
       (str_eqb first (lit "rundll32")
        && existsb (λ t, contains t (lit "url.dll,fileprotocolhandler")) tokens_lc && has_url)
       || (str_eqb first (lit "mshta") && has_url)
       || (is_browser_executable first && has_url)
       || (one_of [lit "explorer"; lit "explorer.exe"] first && has_url)) (head tokens_lc) then true
  else has_force_delete_cmdlet tokens_lc.

(** The loop over the arguments of PowerShell; the tokens of its command. *)
Fixpoint parse_powershell_invocation (args : list str) : option (list str) :=
  match args with
  | [] => None
  | arg :: args' =>
      let lower := to_ascii_lowercase arg in
      if one_of [lit "-command"; lit "/command"; lit "-c"] lower then
        match args' with [script] => shlex_split script | _ => None end
      else if starts_with lower (lit "-command:") || starts_with lower (lit "/command:") then
        match args' with
        | [] => '(_, script) ← split_once 58%N arg; shlex_split script
        | _ => None
        end
      else if starts_with lower (lit "-") then parse_powershell_invocation args'
      else Some args
  end.

Definition is_dangerous_powershell (command : list str) : bool :=
  match command with
  | [] => false
  | exe :: rest =>
      if is_powershell_executable exe then
        match parse_powershell_invocation rest with
        | Some tokens => is_dangerous_powershell_words tokens
        | None => false
        end
      else false
  end.

(** The arguments after the switch that starts the body; [None] is the early return. *)
Fixpoint cmd_body (rest : list str) : option (list str) :=
  match rest with
  | [] => Some []
  | arg :: rest =>
      let lower := to_ascii_lowercase arg in
      if one_of [lit "/c"; lit "/r"; lit "-c"] lower then Some rest
      else if starts_with lower (lit "/") then cmd_body rest
      else None
  end.
Definition dangerous_segment (segment : list str) : bool :=
  match segment with
  | [] => false
  | cmd :: _ =>
      (eq_ignore_case cmd (lit "start") && args_have_url segment)
      || ((eq_ignore_case cmd (lit "del") || eq_ignore_case cmd (lit "erase")) && has_force_flag_cmd segment)
      || ((eq_ignore_case cmd (lit "rd") || eq_ignore_case cmd (lit "rmdir"))
          && has_recursive_flag_cmd segment && has_quiet_flag_cmd segment)
  end.
Definition is_dangerous_cmd (command : list str) : bool :=
  match command with
  | [] => false
  | exe :: rest =>
      if is_some_and (one_of [lit "cmd"; lit "cmd.exe"]) (executable_basename exe) then
        match cmd_body rest with
        | None | Some [] => false
        | Some remaining =>
            let cmd_tokens :=
              match remaining with
              | [only] => default [only] (shlex_split only)
              | _ => remaining
              end in
            let tokens := concat (split_embedded_cmd_operators <$> cmd_tokens) in
            existsb dangerous_segment
              (split_by (one_of [lit "&"; lit "&&"; lit "|"; lit "||"]) tokens)
        end
      else false
  end.

Definition is_direct_gui_launch (command : list str) : bool :=
  match command with
  | [] => false
  | exe :: rest =>
      match executable_basename exe with
      | None => false
      | Some base =>
          (one_of [lit "explorer"; lit "explorer.exe"] base && args_have_url rest)
          || (one_of [lit "mshta"; lit "mshta.exe"] base && args_have_url rest)
          || (one_of [lit "rundll32"; lit "rundll32.exe"] base
              && existsb (λ t, contains (to_ascii_lowercase t) (lit "url.dll,fileprotocolhandler")) rest
              && args_have_url rest)
          || (is_browser_executable base && args_have_url rest)
      end
  end.

Definition is_dangerous_command_windows (command : list str) : bool :=
  if is_dangerous_powershell command then true
  else if is_dangerous_cmd command then true
  else is_direct_gui_launch command.
End Windows.

Example operators_split :
  split_embedded_cmd_operators (lit "echo hi&del a||b & &") =
  [lit "echo hi"; lit "&"; lit "del a"; lit "||"; lit "b "; lit "&"; lit "&"].
Proof. reflexivity. Qed.
Example force_delete_in_segment :
  has_force_delete_cmdlet [lit "write-host"; lit "hi;remove-item"; lit "x"; lit "-Force:$true"] = true.
Proof. reflexivity. Qed.
Example force_delete_other_segment :
  has_force_delete_cmdlet [lit "get-item"; lit "-force|remove-item"; lit "x"] = false.
Proof. reflexivity. Qed.

(** ** Nothing is lost between the operators *)
Lemma flush_concat p : concat (flush p) = p.
Proof. destruct p; cbn; by rewrite ?app_nil_r. Qed.
Lemma operator_loop_concat part token : concat (operator_loop part token) = part ++ token.
Proof.
  revert part. induction token as [token IH] using (induction_ltof1 _ (@length N)). unfold ltof in IH. intros part.
  destruct token as [|c rest]; cbn [operator_loop]; [by rewrite flush_concat, app_nil_r|].
  destruct (is_operator c); [|rewrite IH by (cbn; lia); by rewrite <-app_assoc].
  destruct rest as [|d rest'].
  - rewrite concat_app, flush_concat. done.
  - destruct (N.eqb_spec d c); rewrite concat_app, flush_concat; cbn [concat]; by rewrite IH by (cbn; lia).
Qed.

(** A part is one of the operators or has none of their characters. *)
Definition operator_or_plain (p : str) : Prop :=
  (∃ c, is_operator c = true ∧ (p = [c] ∨ p = [c; c])) ∨ Forall (λ c, is_operator c = false) p.
Lemma operator_loop_parts part token :
  Forall (λ c, is_operator c = false) part → Forall operator_or_plain (operator_loop part token).
Proof.
  revert part. induction token as [token IH] using (induction_ltof1 _ (@length N)). unfold ltof in IH.
  intros part Hp. assert (Forall operator_or_plain (flush part)) as Hf.
  { unfold flush. destruct (is_empty part); [constructor|]. constructor; [by right|constructor]. }
  destruct token as [|c rest]; cbn [operator_loop]; [done|]. destruct (is_operator c) eqn:E.
  - destruct rest as [|d rest'].
    + apply Forall_app. split; [done|]. constructor; [left; eauto|constructor].
    + destruct (N.eqb_spec d c) as [->|]; apply Forall_app; (split; [done|]); (constructor; [left; eauto|]);
        (apply IH; [cbn; lia|constructor]).
  - apply IH; [cbn; lia|]. apply Forall_app. split; [done|]. by constructor.
Qed.

(** ** Forced deletion is found within a command *)
Definition no_separator (t : str) : bool := forallb (λ c, negb (char_in SEG_SEPS c)) t.
Definition plain_word (t : str) : Prop :=
  trim t = t ∧ forallb (λ c, negb (char_in SOFT_SEPS c)) t = true.
Definition all_segments (segs : Segments) : list (list str) := closed segs ++ [current segs].
Definition has_words (ws : list str) (segs : Segments) : Prop := ∃ seg, seg ∈ all_segments segs ∧ ws ⊆ seg.

Lemma segment_token_plain cur segs t :
  no_separator t = true → segment_token cur segs t = push_word (cur ++ t) segs.
Proof.
  revert cur. induction t as [|c t IH]; intros cur; cbn [segment_token no_separator forallb]; [by rewrite app_nil_r|].
  intros [Hc Ht]%andb_true_iff. apply negb_true_iff in Hc. rewrite Hc, IH by done. by rewrite <-app_assoc.
Qed.
Lemma push_word_has ws w segs : has_words ws segs → has_words ws (push_word w segs).
Proof.
  intros (seg & Hin & Hsub). unfold push_word, has_words, all_segments in *. destruct (is_empty (trim w)); [by eauto|].
  cbn [closed current]. apply elem_of_app in Hin as [Hin| ->%list_elem_of_singleton]; [exists seg; set_solver|].
  exists (current segs ++ [trim w]). set_solver.
Qed.
Lemma end_segment_has ws segs : has_words ws segs → has_words ws (end_segment segs).
Proof.
  intros (seg & Hin & Hsub). unfold end_segment, has_words, all_segments in *. destruct (is_empty (current segs)); [by eauto|].
  cbn [closed current]. exists seg. set_solver.
Qed.
Lemma segment_token_has ws cur segs t : has_words ws segs → has_words ws (segment_token cur segs t).
Proof.
  revert cur segs. induction t as [|c t IH]; intros cur segs H; cbn [segment_token]; [by apply push_word_has|].
  destruct (char_in SEG_SEPS c); [by apply IH, end_segment_has, push_word_has|by apply IH].
Qed.
Lemma segment_tokens_has ws segs ts : has_words ws segs → has_words ws (foldl (segment_token []) segs ts).
Proof. revert segs. induction ts as [|t ts IH]; intros segs H; cbn [foldl]; [done|]. by apply IH, segment_token_has. Qed.

Lemma segment_tokens_plain segs ts :
  Forall (λ t, no_separator t = true) ts →
  current segs ++ List.filter (λ s, negb (is_empty s)) (trim <$> ts)
  = current (foldl (segment_token []) segs ts).
Proof.
  intros H. revert segs. induction H as [|t ts Ht _ IH]; intros segs; cbn [foldl fmap list_fmap List.filter].
  - by rewrite app_nil_r.
  - rewrite segment_token_plain by done. rewrite <-IH. unfold push_word. cbn [app].
    destruct (is_empty (trim t)); [done|]. cbn [negb current]. by rewrite <-app_assoc.
Qed.

Lemma split_by_plain {A} (f : A → bool) l : forallb (λ x, negb (f x)) l = true → split_by f l = [l].
Proof.
  induction l as [|x l IH]; cbn [split_by forallb]; [done|]. intros [Hx Hl]%andb_true_iff.
  apply negb_true_iff in Hx. by rewrite Hx, IH.
Qed.
Lemma atoms_plain seg t : t ∈ seg → plain_word t → t ≠ [] → t ∈ atoms seg.
Proof.
  intros Hin [Htrim Hs] Hne. unfold atoms. rewrite list_elem_of_In, List.filter_In, <-list_elem_of_In.
  split; [|by destruct t]. rewrite list_elem_of_fmap. exists t. split; [done|].
  apply list_elem_of_In, in_concat. exists [t]. split; [|by left]. apply list_elem_of_In.
  rewrite list_elem_of_fmap. exists t. split; [by rewrite split_by_plain|done].
Qed.

(** A forced deletion in PowerShell is found wherever it stands: if a run of
    words without command separators has a deleting cmdlet, in any case, and a
    force flag, in either order and among any other words, the whole script is
    flagged. *)
Theorem forced_delete_found pre mid post cmd flag :
  Forall (λ t, no_separator t = true) mid →
  cmd ∈ mid → plain_word cmd → existsb (λ c, eq_ignore_case cmd c) DELETE_CMDLETS = true →
  flag ∈ mid → plain_word flag → is_force_flag flag = true →
  has_force_delete_cmdlet (pre ++ mid ++ post) = true.
Proof.
  intros Hmid Hc Hpc Hdel Hf Hpf Hforce.
  assert (cmd ≠ []) as Hcne by (intros ->; vm_compute in Hdel; discriminate).
  assert (flag ≠ []) as Hfne by (intros ->; vm_compute in Hforce; discriminate).
  unfold has_force_delete_cmdlet, command_segments. rewrite !foldl_app.
  set (s0 := foldl _ _ pre). set (s1 := foldl (segment_token []) s0 mid).
  assert (has_words [cmd; flag] s1) as Hw.
  { exists (current s1). split; [set_solver|]. subst s1. rewrite <-segment_tokens_plain by done.
    assert (∀ t, t ∈ mid → plain_word t → t ≠ [] → t ∈ List.filter (λ s, negb (is_empty s)) (trim <$> mid)) as Hk.
    { intros t Ht [Htr _] Hne. rewrite list_elem_of_In, List.filter_In, <-list_elem_of_In.
      split; [|by destruct t]. rewrite list_elem_of_fmap. by exists t. }
    intros w [->|[->|[]%elem_of_nil]%elem_of_cons]%elem_of_cons; apply elem_of_app; right; by apply Hk. }
  destruct (segment_tokens_has _ _ post Hw) as (seg & Hin & Hsub). apply existsb_exists. exists seg.
  split; [by apply list_elem_of_In|]. apply andb_true_iff. split; apply existsb_exists.
  - exists cmd. split; [|done]. apply list_elem_of_In, atoms_plain; [set_solver|done|done].
  - exists flag. split; [|done]. apply list_elem_of_In, atoms_plain; [set_solver|done|done].
Qed.

Lemma forced_delete_witness :
  has_force_delete_cmdlet ([lit "echo"; lit "hi;"] ++ [lit "-Force"; lit "x"; lit "RI"] ++ [lit "| more"]) = true.
Proof.
  apply (forced_delete_found _ _ _ (lit "RI") (lit "-Force")); vm_compute; try reflexivity;
    repeat constructor.
Defined.
