(* ===== verification/BashParse.v ===== *)
(** * shell-command/bash: commands of a shell script

    [bash.rs] and [detect_shell_type] of [shell_detect.rs].  The tree-sitter
    parser is a parameter; its syntax trees are the type [Node], and the code
    that walks them is modelled as it is written: a stack of nodes, popped from
    its end. *)
From stdpp Require Import sets sorting.
From S2P Require Import Prelude Str AbsolutePath.

(** ** Syntax trees *)
Inductive Node :=
  mk_node (kind : str) (is_named : bool) (start_byte : N) (utf8_text : option str) (has_error : bool)
    (children : list Node).
Definition kind (n : Node) : str := let 'mk_node k _ _ _ _ _ := n in k.
Definition is_named (n : Node) : bool := let 'mk_node _ b _ _ _ _ := n in b.
Definition start_byte (n : Node) : N := let 'mk_node _ _ s _ _ _ := n in s.
(** The source text of the node; [None] when its range does not cut whole characters. *)
Definition utf8_text (n : Node) : option str := let 'mk_node _ _ _ t _ _ := n in t.
Definition has_error (n : Node) : bool := let 'mk_node _ _ _ _ e _ := n in e.
Definition children (n : Node) : list Node := let 'mk_node _ _ _ _ _ cs := n in cs.
Definition named_children (n : Node) : list Node := List.filter is_named (children n).
Definition kind_is (k : str) (n : Node) : bool := str_eqb (kind n) k.
Definition kind_in (ks : list str) (n : Node) : bool := existsb (λ k, kind_is k n) ks.

(** ** Literal words *)
Definition SPECIAL : list char := lit "{}*?[]\~^#$`".
Definition literal_text (word : str) : bool :=
  negb (starts_with word (lit "=")) && negb (existsb (λ c, contains_char c word) SPECIAL).
Definition is_literal_word_or_number (node : Node) : bool :=
  if negb (kind_in [lit "word"; lit "number"] node) then false
  else is_empty (named_children node) && is_some_and literal_text (utf8_text node).

Definition QUOTE : char := 34%N.
Definition APOSTROPHE : char := 39%N.
Definition BACKSLASH : char := 92%N.
Definition escapable (c : char) : bool := existsb (N.eqb c) [36; 96; 34; 92; 10]%N.
(** [windows(2)] with a backslash and a character it escapes. *)
Fixpoint has_escape (s : str) : bool :=
  match s with
  | a :: (b :: _) as s' => ((a =? BACKSLASH)%N && escapable b) || has_escape s'
  | _ => false
  end.
Definition unquote (q : char) (text : str) : option str :=
  rest ← strip_prefix [q] text; strip_suffix [q] rest.
Definition parse_double_quoted_string (node : Node) : option str :=
  if negb (kind_is (lit "string") node) then None
  else if negb (forallb (kind_is (lit "string_content")) (named_children node)) then None
  else
    raw ← utf8_text node;
    stripped ← unquote QUOTE raw;
    if has_escape stripped then None else Some stripped.
Definition parse_raw_string (node : Node) : option str :=
  if negb (kind_is (lit "raw_string") node) then None
  else raw ← utf8_text node; unquote APOSTROPHE raw.

(** ** Plain commands *)
Fixpoint concat_plain (concatenated : str) (parts : list Node) : option str :=
  match parts with
  | [] => Some concatenated
  | part :: parts =>
      text ← (if kind_in [lit "word"; lit "number"] part then utf8_text part
              else if kind_is (lit "string") part then parse_double_quoted_string part
              else if kind_is (lit "raw_string") part then parse_raw_string part
              else None);
      concat_plain (concatenated ++ text) parts
  end.
Definition plain_child (child : Node) : option str :=
  if kind_is (lit "command_name") child then
    word_node ← head (named_children child);
    if negb (kind_is (lit "word") word_node) then None else utf8_text word_node
  else if kind_in [lit "word"; lit "number"] child then utf8_text child
  else if kind_is (lit "string") child then parse_double_quoted_string child
  else if kind_is (lit "raw_string") child then parse_raw_string child
  else if kind_is (lit "concatenation") child then
    concatenated ← concat_plain [] (named_children child);
    if is_empty concatenated then None else Some concatenated
  else None.
Fixpoint plain_words (words : list str) (cs : list Node) : option (list str) :=
  match cs with
  | [] => Some words
  | child :: cs => word ← plain_child child; plain_words (words ++ [word]) cs
  end.
Definition parse_plain_command_from_node (cmd : Node) : option (list str) :=
  if negb (kind_is (lit "command") cmd) then None else plain_words [] (named_children cmd).

(** ** Scripts of plain commands *)
Definition ALLOWED_KINDS : list str :=
  [lit "program"; lit "list"; lit "pipeline"; lit "command"; lit "command_name"; lit "word"; lit "string";
   lit "string_content"; lit "raw_string"; lit "number"; lit "concatenation"].
Definition ALLOWED_PUNCT_TOKENS : list str := [lit "&&"; lit "||"; lit ";"; lit "|"; [QUOTE]; [APOSTROPHE]].
Definition allowed_punct (k : str) : bool := existsb (str_eqb k) ALLOWED_PUNCT_TOKENS.

(** The tests of one node. *)
Definition accepts (node : Node) : bool :=
  if is_named node then
    kind_in ALLOWED_KINDS node
    && negb (kind_in [lit "word"; lit "number"] node && negb (is_literal_word_or_number node))
  else
    negb (existsb (λ c, contains_char c (lit "&;|")) (kind node) && negb (allowed_punct (kind node)))
    && (allowed_punct (kind node) || is_empty (trim (kind node))).

(** The loop over the stack, its top first.  The outer [None] is fuel that does not
    suffice, the inner one a rejection. *)
Fixpoint word_only_loop (fuel : nat) (stack command_nodes : list Node) : option (option (list Node)) :=
  match fuel, stack with
  | O, _ => None
  | S _, [] => Some (Some command_nodes)
  | S fuel, node :: stack =>
      if accepts node then
        word_only_loop fuel (reverse (children node) ++ stack)
          (if is_named node && kind_is (lit "command") node then command_nodes ++ [node] else command_nodes)
      else Some None
  end.

(** [sort_by_key(Node::start_byte)], a stable sort. *)
Fixpoint insert_node (n : Node) (l : list Node) : list Node :=
  match l with
  | [] => [n]
  | m :: l' => if (start_byte n <=? start_byte m)%N then n :: l else m :: insert_node n l'
  end.
Definition sort_nodes (l : list Node) : list Node := foldr insert_node [] l.

Fixpoint plain_commands (commands : list (list str)) (nodes : list Node) : option (list (list str)) :=
  match nodes with
  | [] => Some commands
  | node :: nodes =>
      match parse_plain_command_from_node node with
      | Some words => plain_commands (commands ++ [words]) nodes
      | None => None
      end
  end.

(** The number of nodes of a tree bounds the rounds of its walks. *)
Fixpoint visit (n : Node) : list Node :=
  n :: match n with mk_node _ _ _ _ _ cs => concat (reverse (map visit cs)) end.
Definition walk_rounds (root : Node) : nat := S (length (visit root)).

Definition try_parse_word_only_commands_sequence (root : Node) : option (list (list str)) :=
  if has_error root then None
  else
    command_nodes ← default None (word_only_loop (walk_rounds root) [root] []);
    plain_commands [] (sort_nodes command_nodes).

(** ** Literal commands of any script *)
Fixpoint parse_literal_shell_word (node : Node) : option str :=
  if kind_in [lit "word"; lit "number"] node then
    if is_literal_word_or_number node then utf8_text node else None
  else if kind_is (lit "string") node then parse_double_quoted_string node
  else if kind_is (lit "raw_string") node then parse_raw_string node
  else if kind_is (lit "concatenation") node then
    let fix parts (cs : list Node) : option str :=
      match cs with
      | [] => Some []
      | c :: cs =>
          if is_named c then
            text ← parse_literal_shell_word c; rest ← parts cs; Some (text ++ rest)
          else parts cs
      end in
    match node with
    | mk_node _ _ _ _ _ cs =>
        concatenated ← parts cs; if is_empty concatenated then None else Some concatenated
    end
  else None.

Fixpoint literal_words (words : list str) (found_command_name : bool) (cs : list Node) :
    option (list str) :=
  match cs with
  | [] => if found_command_name then Some words else None
  | child :: cs =>
      if kind_is (lit "command_name") child then
        name ← head (named_children child);
        command_name ← parse_literal_shell_word name;
        literal_words (words ++ [command_name]) true cs
      else
        match (if found_command_name then parse_literal_shell_word child else None) with
        | Some word => literal_words (words ++ [word]) found_command_name cs
        | None => literal_words words found_command_name cs
        end
  end.
Definition parse_literal_command_from_node (cmd : Node) : option (list str) :=
  if negb (kind_is (lit "command") cmd) then None else literal_words [] false (named_children cmd).

Definition command_words (node : Node) : list (list str) :=
  match (if kind_is (lit "command") node then parse_literal_command_from_node node else None) with
  | Some command => [command]
  | None => []
  end.
Fixpoint literal_loop (fuel : nat) (stack : list Node) (commands : list (list str)) :
    option (list (list str)) :=
  match fuel, stack with
  | O, _ => None
  | S _, [] => Some commands
  | S fuel, node :: stack =>
      literal_loop fuel (reverse (named_children node) ++ stack) (commands ++ command_words node)
  end.

(** ** The shell *)
Inductive ShellType := Zsh | Bash | PowerShell | Sh | Cmd.

(** [Path::file_stem]: the last component without its last extension. *)
Definition path_file_name (path : str) : option str :=
  match last (components path) with Some (NormalName n) => Some n | _ => None end.
Definition stem_of (name : str) : str :=
  match rsplit_once 46%N name with
  | Some (before, _) => if is_empty before then name else before
  | None => name
  end.
Definition file_stem (path : str) : option str := stem_of <$> path_file_name path.

Fixpoint detect_shell_loop (fuel : nat) (shell_path : str) : option (option ShellType) :=
  match fuel with
  | O => None
  | S fuel =>
      if str_eqb shell_path (lit "zsh") then Some (Some Zsh)
      else if str_eqb shell_path (lit "sh") then Some (Some Sh)
      else if str_eqb shell_path (lit "cmd") then Some (Some Cmd)
      else if str_eqb shell_path (lit "bash") then Some (Some Bash)
      else if str_eqb shell_path (lit "pwsh") then Some (Some PowerShell)
      else if str_eqb shell_path (lit "powershell") then Some (Some PowerShell)
      else
        match file_stem shell_path with
        | Some shell_name =>
            if bool_decide (components shell_name = components shell_path) then Some None
            else detect_shell_loop fuel shell_name
        | None => Some None
        end
  end.
Definition detect_shell_type (shell_path : str) : option ShellType :=
  default None (detect_shell_loop (S (length shell_path)) shell_path).

Definition is_posix_shell (t : option ShellType) : bool :=
  match t with Some Zsh | Some Bash | Some Sh => true | _ => false end.
Definition extract_bash_command (command : list str) : option (str * str) :=
  match command with
  | [shell; flag; script] =>
      if negb (str_eqb flag (lit "-lc") || str_eqb flag (lit "-c"))
         || negb (is_posix_shell (detect_shell_type shell))
      then None else Some (shell, script)
  | _ => None
  end.

Section Parser.
(** The root of the tree of a script. *)
Variable try_parse_shell : str → option Node.

Definition parse_shell_script_into_commands (script : str) : option (list (list str)) :=
  root ← try_parse_shell script; try_parse_word_only_commands_sequence root.
Definition parse_shell_lc_plain_commands (command : list str) : option (list (list str)) :=
  '(_, script) ← extract_bash_command command; parse_shell_script_into_commands script.
Definition parse_shell_lc_literal_commands (command : list str) : option (list (list str)) :=
  '(_, script) ← extract_bash_command command;
  root ← try_parse_shell script;
  if has_error root then None else literal_loop (walk_rounds root) [root] [].
End Parser.

Example shells :
  detect_shell_type <$> [lit "/usr/bin/bash"; lit "zsh"; lit "C.sh"; lit "/bin/bash.exe"; lit "fish"; lit "bash/"]
  = [Some Bash; Some Zsh; None; Some Bash; None; None].
Proof. reflexivity. Qed.

(** ** Walking a tree *)
Lemma visit_eq n : visit n = n :: concat (reverse (visit <$> children n)).
Proof. by destruct n. Qed.
Lemma visit_root n : n ∈ visit n.
Proof. rewrite visit_eq. by left. Qed.
Lemma visit_child c n : c ∈ children n → visit c ⊆ visit n ∧ length (visit c) < length (visit n).
Proof.
  intros Hc. rewrite (visit_eq n). destruct (list_elem_of_split _ _ Hc) as (l & r & ->).
  rewrite fmap_app, fmap_cons, reverse_app, reverse_cons, !concat_app. cbn [concat].
  rewrite app_nil_r. cbn [length]. rewrite !length_app. split; [set_solver|lia].
Qed.
Lemma visit_step c n root : n ∈ visit root → c ∈ children n → c ∈ visit root.
Proof.
  induction root as [root IH] using (induction_ltof1 _ (λ r, length (visit r))). unfold ltof in IH.
  intros Hn Hc. pose proof Hn as Hn'. rewrite visit_eq in Hn'. apply elem_of_cons in Hn' as [->|Hin].
  - destruct (visit_child c root Hc) as [Hsub _]. apply Hsub, visit_root.
  - apply list_elem_of_In, in_concat in Hin as (l & Hl & Hin). apply list_elem_of_In in Hin.
    apply list_elem_of_In in Hl. rewrite elem_of_reverse, list_elem_of_fmap in Hl.
    destruct Hl as (d & -> & Hd). destruct (visit_child d root Hd) as [Hsub Hlt].
    apply Hsub. by apply (IH d).
Qed.

Lemma visit_trans n m root : n ∈ visit root → m ∈ visit n → m ∈ visit root.
Proof.
  intros Hn. induction n as [n IH] using (induction_ltof1 _ (λ r, length (visit r))). unfold ltof in IH.
  intros Hm. rewrite visit_eq in Hm. apply elem_of_cons in Hm as [->|Hin]; [done|].
  apply list_elem_of_In, in_concat in Hin as (l & Hl & Hin). apply list_elem_of_In in Hin.
  apply list_elem_of_In in Hl. rewrite elem_of_reverse, list_elem_of_fmap in Hl. destruct Hl as (d & -> & Hd).
  destruct (visit_child d n Hd) as [_ Hlt]. apply (IH d); [done|by apply (visit_step d n)|done].
Qed.

Definition stack_nodes (stack : list Node) : list Node := concat (visit <$> stack).
Lemma stack_nodes_pop node stack :
  stack_nodes (node :: stack) = node :: stack_nodes (reverse (children node) ++ stack).
Proof.
  unfold stack_nodes. rewrite fmap_cons, fmap_app, concat_app. cbn [concat]. rewrite visit_eq.
  by rewrite fmap_reverse.
Qed.

Definition is_command (n : Node) : bool := is_named n && kind_is (lit "command") n.
Lemma word_only_loop_spec fuel stack acc :
  length (stack_nodes stack) < fuel →
  word_only_loop fuel stack acc =
    Some (if forallb accepts (stack_nodes stack) then Some (acc ++ List.filter is_command (stack_nodes stack))
          else None).
Proof.
  revert stack acc. induction fuel as [|fuel IH]; intros stack acc Hf; [lia|]. destruct stack as [|node stack].
  - cbn. by rewrite app_nil_r.
  - rewrite stack_nodes_pop in *. cbn [word_only_loop forallb List.filter length] in *.
    destruct (accepts node); [|done]. cbn [andb]. rewrite IH by lia. unfold is_command at 2.
    destruct (is_named node && kind_is (lit "command") node); [|done]. by rewrite <-app_assoc.
Qed.

Lemma named_nodes_le node stack :
  length (stack_nodes (reverse (named_children node) ++ stack))
  ≤ length (stack_nodes (reverse (children node) ++ stack)).
Proof.
  unfold stack_nodes, named_children. rewrite !fmap_app, !concat_app, !length_app.
  assert (∀ l, length (concat (visit <$> reverse (List.filter is_named l))) ≤ length (concat (visit <$> reverse l))) as H.
  { intros l. induction l as [|c l IH]; [done|]. cbn [List.filter]. rewrite (reverse_cons _ c).
    destruct (is_named c); rewrite ?reverse_cons, ?fmap_app, ?concat_app, ?length_app in *; lia. }
  specialize (H (children node)). lia.
Qed.

(** The nodes reached through named children. *)
Inductive named_below : Node → Node → Prop :=
  | named_here n : named_below n n
  | named_child n c m : c ∈ named_children n → named_below c m → named_below n m.

Lemma literal_loop_spec fuel stack acc :
  length (stack_nodes stack) < fuel →
  ∃ out, literal_loop fuel stack acc = Some out
    ∧ ∀ ws, ws ∈ out ↔ ws ∈ acc ∨ ∃ r n, r ∈ stack ∧ named_below r n ∧ ws ∈ command_words n.
Proof.
  revert stack acc. induction fuel as [|fuel IH]; intros stack acc Hf; [lia|]. destruct stack as [|node stack].
  - exists acc. split; [done|]. set_solver.
  - rewrite stack_nodes_pop in Hf. cbn [length] in Hf. pose proof (named_nodes_le node stack).
    cbn [literal_loop]. destruct (IH (reverse (named_children node) ++ stack) (acc ++ command_words node))
      as (out & -> & Hout); [lia|].
    exists out. split; [done|]. intros ws. rewrite Hout, elem_of_app. split.
    + intros [[Ha|Hc]|(r & n & Hr & Hn & Hw)]; [by left|right|right].
      * exists node, node. split; [by left|]. split; [constructor|done].
      * apply elem_of_app in Hr as [Hr|Hr]; [rewrite elem_of_reverse in Hr|exists r, n; set_solver].
        exists node, n. split; [by left|]. split; [by apply (named_child node r n)|done].
    + intros [Ha|(r & n & [->|Hr]%elem_of_cons & Hn & Hw)]; [by left; left| |].
      * inversion Hn as [|? c ? Hc Hcn]; subst; [by left; right|]. right. exists c, n.
        rewrite elem_of_app, elem_of_reverse. auto.
      * right. exists r, n. rewrite elem_of_app. auto.
Qed.

(** ** What the words are *)

(** The text of a word that reaches the command as it is written: no expansion, no
    escape, quotes removed, parts joined. *)
Inductive literal_word : Node → str → Prop :=
  | literal_plain n t :
      kind_in [lit "word"; lit "number"] n = true → utf8_text n = Some t → literal_text t = true → literal_word n t
  | literal_double n t :
      kind n = lit "string" → utf8_text n = Some (QUOTE :: t ++ [QUOTE]) → has_escape t = false →
      Forall (λ c, kind c = lit "string_content") (named_children n) → literal_word n t
  | literal_single n t :
      kind n = lit "raw_string" → utf8_text n = Some (APOSTROPHE :: t ++ [APOSTROPHE]) → literal_word n t
  | literal_concat n parts :
      kind n = lit "concatenation" → Forall2 literal_word (named_children n) parts → concat parts ≠ [] →
      literal_word n (concat parts)
  | literal_name n w t :
      kind n = lit "command_name" → head (named_children n) = Some w → literal_word w t → literal_word n t.

Lemma kind_is_iff k n : kind_is k n = true ↔ kind n = k.
Proof. apply str_eqb_eq. Qed.
Lemma unquote_Some q text t : unquote q text = Some t → text = q :: t ++ [q].
Proof.
  unfold unquote. destruct (strip_prefix [q] text) as [r|] eqn:E; [|done]. cbn [mbind option_bind].
  intros H%strip_suffix_Some. apply strip_prefix_Some in E. by subst.
Qed.
Lemma double_quoted_literal n t : parse_double_quoted_string n = Some t → literal_word n t.
Proof.
  unfold parse_double_quoted_string. destruct (kind_is (lit "string") n) eqn:Ek; [|done].
  destruct (forallb _ _) eqn:Ef; [|done]. cbn [negb]. destruct (utf8_text n) as [raw|] eqn:Et; [|done].
  cbn [mbind option_bind]. destruct (unquote QUOTE raw) as [s|] eqn:Eu; [|done]. cbn [mbind option_bind].
  destruct (has_escape s) eqn:Ee; [done|]. intros [= <-]. apply kind_is_iff in Ek. apply unquote_Some in Eu.
  apply literal_double; [done|by rewrite Et, Eu|done|]. apply Forall_forall. intros c Hc.
  rewrite forallb_forall in Ef. apply kind_is_iff, Ef. by apply list_elem_of_In.
Qed.
Lemma raw_string_literal n t : parse_raw_string n = Some t → literal_word n t.
Proof.
  unfold parse_raw_string. destruct (kind_is (lit "raw_string") n) eqn:Ek; [|done]. cbn [negb].
  destruct (utf8_text n) as [raw|] eqn:Et; [|done]. cbn [mbind option_bind]. intros Eu%unquote_Some.
  apply kind_is_iff in Ek. apply literal_single; [done|by rewrite Et, Eu].
Qed.

(** A named node that the walk accepts has a literal text when it is a word. *)
Lemma accepted_word n t :
  is_named n = true → accepts n = true → kind_in [lit "word"; lit "number"] n = true → utf8_text n = Some t →
  literal_word n t.
Proof.
  unfold accepts. intros -> [_ Hl]%andb_true_iff Hk Ht. rewrite Hk in Hl. cbn [andb] in Hl.
  rewrite negb_involutive in Hl. unfold is_literal_word_or_number in Hl. rewrite Hk, Ht in Hl. cbn in Hl.
  apply andb_true_iff in Hl as [_ Hl]. by apply literal_plain.
Qed.

Definition all_accepted (n : Node) : Prop := ∀ m, m ∈ visit n → accepts m = true.
Lemma all_accepted_child n c : all_accepted n → c ∈ children n → all_accepted c.
Proof. intros H Hc m Hm. apply H. destruct (visit_child c n Hc) as [Hsub _]. by apply Hsub. Qed.
Lemma named_children_spec n c : c ∈ named_children n ↔ c ∈ children n ∧ is_named c = true.
Proof. unfold named_children. by rewrite list_elem_of_In, List.filter_In, <-list_elem_of_In. Qed.

Lemma concat_plain_literal acc parts out :
  (∀ c, c ∈ parts → is_named c = true ∧ all_accepted c) → concat_plain acc parts = Some out →
  ∃ ts, Forall2 literal_word parts ts ∧ out = acc ++ concat ts.
Proof.
  revert acc. induction parts as [|c parts IH]; intros acc Hc; cbn [concat_plain].
  - intros [= <-]. exists []. split; [constructor|by rewrite app_nil_r].
  - destruct (if kind_in [lit "word"; lit "number"] c then _ else _) as [t|] eqn:Et; [|done].
    cbn [mbind option_bind]. intros H. apply IH in H as (ts & Hts & ->); [|set_solver].
    exists (t :: ts). cbn [concat]. split; [|by rewrite <-app_assoc]. constructor; [|done].
    destruct (Hc c) as [Hn Ha]; [by left|]. specialize (Ha c (visit_root c)).
    destruct (kind_in _ c) eqn:Ek; [by apply accepted_word|].
    destruct (kind_is (lit "string") c); [by apply double_quoted_literal|].
    destruct (kind_is (lit "raw_string") c); [by apply raw_string_literal|done].
Qed.

Lemma plain_child_literal c t :
  is_named c = true → all_accepted c → plain_child c = Some t → literal_word c t.
Proof.
  intros Hn Ha. pose proof (Ha c (visit_root c)) as Hac. unfold plain_child.
  destruct (kind_is (lit "command_name") c) eqn:Ename.
  { destruct (head (named_children c)) as [w|] eqn:Ew; [|done]. cbn [mbind option_bind].
    destruct (kind_is (lit "word") w) eqn:Ek; [|done]. cbn [negb]. intros Ht. apply kind_is_iff in Ename.
    assert (w ∈ named_children c) as [Hwc Hwn]%named_children_spec by (by apply head_Some_elem_of).
    apply (literal_name c w t); [done|done|]. apply accepted_word; [done| | |done].
    - apply (all_accepted_child c w); [done|done|apply visit_root].
    - unfold kind_in. cbn. by rewrite Ek. }
  destruct (kind_in _ c) eqn:Ek; [by apply accepted_word|].
  destruct (kind_is (lit "string") c); [apply double_quoted_literal|].
  destruct (kind_is (lit "raw_string") c); [apply raw_string_literal|].
  destruct (kind_is (lit "concatenation") c) eqn:Ec; [|done].
  destruct (concat_plain [] (named_children c)) as [out|] eqn:Eo; [|done]. cbn [mbind option_bind].
  destruct (is_empty out) eqn:Ee; [done|]. intros [= <-]. apply is_empty_false in Ee. apply kind_is_iff in Ec.
  apply concat_plain_literal in Eo as (ts & Hts & ->).
  - by apply literal_concat.
  - intros d [Hd Hdn]%named_children_spec. split; [done|]. by apply (all_accepted_child c).
Qed.

Lemma plain_words_literal acc cs ws :
  (∀ c, c ∈ cs → is_named c = true ∧ all_accepted c) → plain_words acc cs = Some ws →
  ∃ ts, ws = acc ++ ts ∧ Forall2 literal_word cs ts.
Proof.
  revert acc. induction cs as [|c cs IH]; intros acc Hc; cbn [plain_words].
  - intros [= <-]. exists []. split; [by rewrite app_nil_r|constructor].
  - destruct (plain_child c) as [t|] eqn:Et; [|done]. cbn [mbind option_bind].
    intros H. apply IH in H as (ts & -> & Hts); [|set_solver]. exists (t :: ts). split; [by rewrite <-app_assoc|].
    constructor; [|done]. destruct (Hc c) as [Hn Ha]; [by left|]. by apply plain_child_literal.
Qed.
Lemma plain_command_literal n ws :
  all_accepted n → parse_plain_command_from_node n = Some ws → Forall2 literal_word (named_children n) ws.
Proof.
  intros Ha. unfold parse_plain_command_from_node. destruct (kind_is (lit "command") n); [|done]. cbn [negb].
  intros H. apply plain_words_literal in H as (ts & -> & Hts); [done|].
  intros c [Hc Hn]%named_children_spec. split; [done|]. by apply (all_accepted_child n).
Qed.
Lemma plain_commands_spec acc nodes cmds :
  plain_commands acc nodes = Some cmds →
  ∃ out, cmds = acc ++ out ∧ Forall2 (λ n ws, parse_plain_command_from_node n = Some ws) nodes out.
Proof.
  revert acc. induction nodes as [|n nodes IH]; intros acc; cbn [plain_commands].
  - intros [= <-]. exists []. split; [by rewrite app_nil_r|constructor].
  - destruct (parse_plain_command_from_node n) as [ws|] eqn:E; [|done].
    intros H. apply IH in H as (out & -> & Ho). exists (ws :: out). split; [by rewrite <-app_assoc|]. by constructor.
Qed.

Lemma Forall2_with {A B} (P : A → Prop) (R S : A → B → Prop) l k :
  Forall P l → (∀ x y, P x → R x y → S x y) → Forall2 R l k → Forall2 S l k.
Proof. intros HP HRS HR. induction HR; [constructor|]. inversion HP; subst. constructor; auto. Qed.

Definition before (n m : Node) : Prop := (start_byte n <= start_byte m)%N.
Lemma insert_node_perm n l : insert_node n l ≡ₚ n :: l.
Proof.
  induction l as [|m l IH]; cbn [insert_node]; [done|]. destruct (_ <=? _)%N; [done|].
  rewrite IH. apply Permutation_swap.
Qed.
Lemma insert_node_sorted n l : StronglySorted before l → StronglySorted before (insert_node n l).
Proof.
  induction 1 as [|m l Hl IH Hm]; cbn [insert_node]; [by repeat constructor|].
  destruct (N.leb_spec (start_byte n) (start_byte m)) as [Hle|Hgt].
  - constructor; [by constructor|]. constructor; [done|]. eapply Forall_impl; [exact Hm|].
    unfold before in *. intros x Hx. lia.
  - constructor; [done|]. rewrite insert_node_perm. constructor; [unfold before; lia|done].
Qed.
Lemma sort_nodes_spec l : sort_nodes l ≡ₚ l ∧ StronglySorted before (sort_nodes l).
Proof.
  induction l as [|n l [IHp IHs]]; cbn [sort_nodes foldr]; [by repeat constructor|].
  split; [by rewrite insert_node_perm, IHp|by apply insert_node_sorted].
Qed.

(** The plain commands of a script are exactly what it says: if the parser of
    plain scripts returns commands, every node of the syntax tree is of an
    allowed kind, the commands are those of all command nodes, in the order of
    the source, and every word is literal: without expansions, escapes or globs,
    with its quotes removed and its parts joined.  The walk of the tree always
    returns. *)
Theorem plain_commands_are_literal root :
  (∃ r, word_only_loop (walk_rounds root) [root] [] = Some r)
  ∧ ∀ cmds, try_parse_word_only_commands_sequence root = Some cmds →
      has_error root = false ∧ all_accepted root
      ∧ ∃ nodes, nodes ≡ₚ List.filter is_command (visit root) ∧ StronglySorted before nodes
          ∧ Forall2 (λ n ws, Forall2 literal_word (named_children n) ws) nodes cmds.
Proof.
  assert (word_only_loop (walk_rounds root) [root] [] =
    Some (if forallb accepts (visit root) then Some (List.filter is_command (visit root)) else None)) as Hw.
  { rewrite word_only_loop_spec; unfold walk_rounds, stack_nodes; cbn [fmap list_fmap concat]; rewrite app_nil_r; [done|lia]. }
  split; [by eauto|]. intros cmds. unfold try_parse_word_only_commands_sequence. rewrite Hw.
  destruct (has_error root); [done|]. destruct (forallb accepts (visit root)) eqn:Ea; [|done]. cbn [default mbind option_bind id].
  intros H. apply plain_commands_spec in H as (out & -> & Hout). cbn [app].
  assert (all_accepted root) as Hall.
  { intros m Hm. rewrite forallb_forall in Ea. by apply Ea, list_elem_of_In. }
  destruct (sort_nodes_spec (List.filter is_command (visit root))) as [Hp Hs].
  split; [done|]. split; [done|]. exists (sort_nodes (List.filter is_command (visit root))).
  split; [done|]. split; [done|]. eapply (Forall2_with all_accepted); [|apply plain_command_literal|exact Hout].
  rewrite Hp. apply Forall_forall. intros n Hn.
  apply list_elem_of_In, List.filter_In in Hn as [Hn _]. apply list_elem_of_In in Hn.
  intros m Hm. apply Hall. by apply (visit_trans n).
Qed.

(** ** The shell is always detected or not *)
Lemma split_piece c s x : x ∈ split c s → length x < length s ∨ x = s.
Proof.
  revert x. induction s as [|y s IH]; intros x; cbn [split].
  - intros ->%list_elem_of_singleton. by right.
  - destruct (y =? c)%N.
    + intros [->|Hx]%elem_of_cons; [left; cbn; lia|]. destruct (IH x Hx) as [|Hs]; [left; cbn; lia|].
      subst. left. cbn. lia.
    + destruct (split c s) as [|p ps] eqn:E.
      * intros ->%list_elem_of_singleton. destruct s; [by right|left; cbn; lia].
      * intros [->|Hx]%elem_of_cons.
        -- destruct (IH p) as [|Hs]; [by left|left; cbn; lia|]. subst. by right.
        -- destruct (IH x) as [|Hs]; [by right|left; cbn; lia|]. subst. left. cbn. lia.
Qed.
Lemma path_file_name_piece p x : path_file_name p = Some x → length x < length p ∨ x = p.
Proof.
  unfold path_file_name. destruct (last (components p)) as [[| | |y]|] eqn:E; [done..| |done]. intros [= <-].
  apply last_Some_elem_of in E. unfold components in E. apply elem_of_app in E as [E|E].
  - destruct (is_absolute p); [set_solver|]. case_bool_decide; set_solver.
  - apply list_elem_of_omap in E as (z & Hz & Hc). unfold component_of in Hc.
    destruct (_ || _); [done|]. destruct (str_eqb _ _); [done|]. simplify_eq. by apply (split_piece SLASH).
Qed.
Lemma stem_of_shorter x : length (stem_of x) < length x ∨ stem_of x = x.
Proof.
  unfold stem_of, rsplit_once. destruct (split_once 46%N (reverse x)) as [[a b]|] eqn:E; cbn [fmap option_fmap option_map]; [|by right].
  apply split_once_Some in E as [E _]. apply (f_equal length) in E. rewrite length_reverse, length_app in E. cbn in E.
  destruct (is_empty _); [by right|left]. rewrite length_reverse. lia.
Qed.
Lemma detect_shell_returns fuel p : length p < fuel → ∃ r, detect_shell_loop fuel p = Some r.
Proof.
  revert p. induction fuel as [|fuel IH]; intros p Hf; [lia|]. cbn [detect_shell_loop].
  repeat (destruct (str_eqb _ _); [by eauto|]). unfold file_stem.
  destruct (path_file_name p) as [x|] eqn:E; cbn [fmap option_fmap option_map]; [|by eauto].
  case_bool_decide as Hc; [by eauto|]. apply IH.
  destruct (path_file_name_piece p x E) as [Hx|Hx], (stem_of_shorter x) as [Hs|Hs]; [lia|rewrite Hs; lia| |].
  - rewrite Hx in Hs |- *. lia.
  - by rewrite Hs, Hx in Hc.
Qed.

(** The literal commands of a script are those of all its command nodes that have
    a literal name. *)
Lemma literal_commands_complete try_parse_shell command shell script root :
  extract_bash_command command = Some (shell, script) → try_parse_shell script = Some root →
  has_error root = false →
  ∃ cmds, parse_shell_lc_literal_commands try_parse_shell command = Some cmds
    ∧ ∀ ws, ws ∈ cmds ↔ ∃ n, named_below root n ∧ parse_literal_command_from_node n = Some ws.
Proof.
  intros He Ht Herr. unfold parse_shell_lc_literal_commands. rewrite He. cbn [mbind option_bind]. rewrite Ht.
  cbn [mbind option_bind]. rewrite Herr. destruct (literal_loop_spec (walk_rounds root) [root] []) as (out & -> & Hout).
  { unfold walk_rounds, stack_nodes. cbn [fmap list_fmap concat]. rewrite app_nil_r. lia. }
  exists out. split; [done|]. intros ws. rewrite Hout.
  assert (∀ n, ws ∈ command_words n ↔ parse_literal_command_from_node n = Some ws) as Hcw.
  { intros n. unfold command_words, parse_literal_command_from_node. destruct (kind_is (lit "command") n); cbn [negb].
    - destruct (literal_words _ _ _); set_solver.
    - set_solver. }
  setoid_rewrite Hcw. set_solver.
Qed.

(** The tree of [ls && echo 'a b']. *)
Definition demo_leaf (k t : str) (named : bool) (at_ : N) (cs : list Node) : Node :=
  mk_node k named at_ (Some t) false cs.
Definition demo_tree : Node :=
  demo_leaf (lit "program") (lit "ls && echo 'a b'") true 0
    [demo_leaf (lit "list") (lit "ls && echo 'a b'") true 0
       [demo_leaf (lit "command") (lit "ls") true 0
          [demo_leaf (lit "command_name") (lit "ls") true 0 [demo_leaf (lit "word") (lit "ls") true 0 []]];
        demo_leaf (lit "&&") (lit "&&") false 3 [];
        demo_leaf (lit "command") (lit "echo 'a b'") true 6
          [demo_leaf (lit "command_name") (lit "echo") true 6 [demo_leaf (lit "word") (lit "echo") true 6 []];
           demo_leaf (lit "raw_string") (lit "'a b'") true 11 []]]].
Example demo_plain :
  try_parse_word_only_commands_sequence demo_tree = Some [[lit "ls"]; [lit "echo"; lit "a b"]].
Proof. reflexivity. Qed.
Example demo_literal :
  parse_shell_lc_literal_commands (λ _, Some demo_tree) [lit "bash"; lit "-lc"; lit "ls && echo 'a b'"]
  = Some [[lit "echo"; lit "a b"]; [lit "ls"]].
Proof. reflexivity. Qed.
