(* ===== verification/DangerousCommand.v ===== *)
(** * shell-command/command_safety: dangerous commands

    [is_dangerous_command.rs] over [WindowsCommand] and the commands that
    [BashParse] finds in shell scripts; the parameters are theirs. *)
From stdpp Require Import sets.
From S2P Require Import Prelude Str BashParse WindowsCommand.

Inductive DangerousCommandPlatform := Posix | Windows.
Inductive DangerousCommandMatch := ForcedRm | Other.
Definition is_windows (p : DangerousCommandPlatform) : bool :=
  match p with Windows => true | Posix => false end.

Definition MAX_DANGEROUS_COMMAND_WRAPPER_DEPTH : nat := 8.

Fixpoint strip_first_suffix (suffixes : list str) (name : str) : option str :=
  match suffixes with
  | [] => None
  | suffix :: suffixes =>
      match strip_suffix suffix name with
      | Some stripped => Some stripped
      | None => strip_first_suffix suffixes name
      end
  end.
Definition executable_name_lookup_key (raw : str) (platform : DangerousCommandPlatform) : option str :=
  match platform with
  | Posix =>
      let name := last_part (N.eqb SLASH) raw in
      if is_empty name then None else Some name
  | Windows =>
      let name := last_part is_separator raw in
      if is_empty name then None
      else
        let name := to_ascii_lowercase (strip_drive name) in
        match strip_first_suffix [lit ".exe"; lit ".cmd"; lit ".bat"; lit ".com"] name with
        | Some stripped => Some stripped
        | None => if is_empty name then None else Some name
        end
  end.

Definition force_option (arg : str) : bool :=
  str_eqb arg (lit "--force")
  || is_some_and (λ flags, negb (starts_with flags (lit "-")) && contains_char 102%N flags)
       (strip_prefix (lit "-") arg).
Fixpoint take_while {A} (f : A → bool) (l : list A) : list A :=
  match l with x :: l => if f x then x :: take_while f l else [] | [] => [] end.
Definition rm_args_include_force_option (args : list str) : bool :=
  existsb force_option (take_while (λ arg, negb (str_eqb arg (lit "--"))) args).

(** The command that [env] runs: what follows its options and assignments. *)
Definition is_assignment (argument : str) : bool :=
  is_some_and (λ p, negb (is_empty p.1) && negb (starts_with p.1 (lit "-"))) (split_once 61%N argument).
Fixpoint env_command (args : list str) : list str :=
  match args with
  | [] => []
  | argument :: args' =>
      if str_eqb argument (lit "--") then args'
      else if one_of [lit "-i"; lit "--ignore-environment"] argument || is_assignment argument
      then env_command args'
      else args
  end.
(** The shell command that [trap] stores. *)
Definition trap_command (args : list str) : option (list str) :=
  let args := match args with
              | argument :: args' => if str_eqb argument (lit "--") then args' else args
              | [] => args
              end in
  action ← head args;
  if starts_with action (lit "-") then None else Some [lit "sh"; lit "-c"; action].

(** ** What the words of a command say

    The reference for the helpers above, on the shape of the words. *)

(** [base] is the part of a path behind its last separator. *)
Definition base_of (sep : char → bool) (word base : str) : Prop :=
  ∃ dir, word = dir ++ base ∧ Forall (λ c, sep c = false) base
         ∧ (dir = [] ∨ ∃ d c, dir = d ++ [c] ∧ sep c = true).
(** A Windows name without its drive. *)
Definition without_drive (base name : str) : Prop :=
  (∃ d, is_ascii_alphabetic d = true ∧ base = d :: 58%N :: name)
  ∨ name = base ∧ ∀ d r, is_ascii_alphabetic d = true → base ≠ d :: 58%N :: r.
Definition EXTENSIONS : list str := [lit ".exe"; lit ".cmd"; lit ".bat"; lit ".com"].
(** The program that a word runs: the base name, on Windows in lower case, without
    a drive and without the extension of an executable. *)
Definition runs_program (platform : DangerousCommandPlatform) (word name : str) : Prop :=
  match platform with
  | Posix => base_of (N.eqb SLASH) word name ∧ name ≠ []
  | Windows =>
      ∃ base tail, base_of is_separator word base ∧ base ≠ [] ∧ without_drive base tail
        ∧ ((∃ ext, ext ∈ EXTENSIONS ∧ to_ascii_lowercase tail = name ++ ext)
           ∨ (∀ ext r, ext ∈ EXTENSIONS → to_ascii_lowercase tail ≠ r ++ ext)
             ∧ to_ascii_lowercase tail = name ∧ name ≠ [])
  end.
(** The options of [rm] up to [--] have [--force], or an [f] among the letters
    behind a single dash. *)
Definition forces_removal (args : list str) : Prop :=
  ∃ before arg after, args = before ++ arg :: after ∧ lit "--" ∉ before
    ∧ (arg = lit "--force" ∨ ∃ flags, arg = 45%N :: flags ∧ head flags ≠ Some 45%N ∧ 102%N ∈ flags).
(** [NAME=value], where the name is not empty and no option. *)
Definition assigns (argument : str) : Prop :=
  ∃ name value, argument = name ++ 61%N :: value ∧ 61%N ∉ name ∧ name ≠ [] ∧ head name ≠ Some 45%N.
Definition env_skips (argument : str) : Prop :=
  argument = lit "-i" ∨ argument = lit "--ignore-environment" ∨ assigns argument.
(** The command that [env] runs with these arguments. *)
Inductive env_runs : list str → list str → Prop :=
  | env_none : env_runs [] []
  | env_dashes args : env_runs (lit "--" :: args) args
  | env_skip argument args inner :
      argument ≠ lit "--" → env_skips argument → env_runs args inner → env_runs (argument :: args) inner
  | env_stop argument args :
      argument ≠ lit "--" → ¬ env_skips argument → env_runs (argument :: args) (argument :: args).
(** The shell command that [trap] stores: its first operand, if it is no option. *)
Definition trap_runs (args inner : list str) : Prop :=
  ∃ action rest, (args = action :: rest ∧ action ≠ lit "--" ∨ args = lit "--" :: action :: rest)
    ∧ head action ≠ Some 45%N ∧ inner = [lit "sh"; lit "-c"; action].

Lemma split_by_single {A} (f : A → bool) s p :
  split_by f s = [p] ↔ p = s ∧ Forall (λ c, f c = false) s.
Proof.
  revert p. induction s as [|x s IH]; intros p; cbn [split_by].
  { split; [by intros [= <-]|]. by intros [-> _]. }
  destruct (f x) eqn:Ex.
  { split; [intros [= _ H]; by destruct s as [|y s]; cbn in H; [|destruct (f y), (split_by f s)]|].
    intros [_ H]. apply Forall_cons in H as [? _]. congruence. }
  rewrite Forall_cons. destruct (split_by f s) as [|q [|q' qs]] eqn:E.
  - by destruct s as [|y s]; cbn in E; [|destruct (f y), (split_by f s)].
  - destruct (IH q) as [IH1 _]. destruct (IH1 eq_refl) as [-> ?]. naive_solver.
  - split; [done|]. intros (-> & _ & H). destruct (IH s) as [_ IH2]. by specialize (IH2 (conj eq_refl H)).
Qed.
Lemma last_part_base f word : base_of f word (last_part f word).
Proof.
  unfold last_part. induction word as [|x s IH]; cbn [split_by].
  { exists []. split_and!; [done|constructor|by left]. }
  destruct IH as (dir & E & Hb & Hd). destruct (f x) eqn:Ex.
  - rewrite last_cons. destruct (last (split_by f s)) as [b|] eqn:El; simpl in *.
    + exists (x :: dir). split_and!; [by rewrite E|done|]. right.
      destruct Hd as [->|(d & c & -> & Hc)]; [by exists [], x|by exists (x :: d), c].
    + apply last_None in El. by destruct s as [|y s]; cbn in El; [|destruct (f y), (split_by f s)].
  - destruct (split_by f s) as [|q [|q' qs]] eqn:Es.
    + by destruct s as [|y s]; cbn in Es; [|destruct (f y), (split_by f s)].
    + apply split_by_single in Es as [-> Hs]. exists []. simpl. split_and!; [done|by constructor|by left].
    + rewrite last_cons_cons in *. destruct Hd as [->|(d & c & -> & Hc)].
      * exfalso. simpl in E. rewrite <-E in Hb. assert (split_by f s = [s]) as H by by apply split_by_single. congruence.
      * exists (x :: d ++ [c]). split_and!; [by rewrite E at 1|done|]. right. by exists (x :: d), c.
Qed.
Lemma base_of_unique f word b b' : base_of f word b → base_of f word b' → b = b'.
Proof.
  assert (∀ dir b dir' b', dir ++ b = dir' ++ b' → Forall (λ c, f c = false) b →
    (dir' = [] ∨ ∃ d c, dir' = d ++ [c] ∧ f c = true) → length dir ≤ length dir' → b = b') as Haux.
  { intros dir c dir' c' E Hb Hd Hl. apply app_eq_inv in E as [(k & -> & ->)|(k & -> & ->)].
    - rewrite length_app in Hl. by destruct k; [|simpl in Hl; lia].
    - destruct Hd as [Hd|(d & x & Hd & Hx)]; [by destruct dir, k|].
      destruct k as [|y k _] using rev_ind; [done|]. rewrite app_assoc in Hd. apply app_inj_tail in Hd as [_ ->].
      rewrite !Forall_app, Forall_singleton in Hb. destruct Hb as [[_ Hb] _]. congruence. }
  intros (dir & -> & Hb & Hd) (dir' & E & Hb' & Hd').
  destruct (Nat.le_ge_cases (length dir) (length dir')); [by eapply Haux|]. symmetry. by eapply Haux.
Qed.
Lemma last_part_spec f word b : last_part f word = b ↔ base_of f word b.
Proof. split; [intros <-; apply last_part_base|]. intros H. eapply base_of_unique; [apply last_part_base|done]. Qed.
Lemma strip_drive_spec base name : strip_drive base = name ↔ without_drive base name.
Proof.
  unfold without_drive. destruct base as [|d [|c rest]]; simpl.
  - split; [intros <-; by right|]. intros [(d & _ & [=])|[-> _]]. done.
  - split; [intros <-; by right|]. intros [(d' & _ & [=])|[-> _]]. done.
  - destruct (is_ascii_alphabetic d && (c =? 58)%N) eqn:E.
    + apply andb_true_iff in E as [Hd ->%N.eqb_eq]. split; [intros <-; left; by exists d|].
      intros [(d' & _ & [= -> ->])|[_ H]]; [done|]. by destruct (H d rest).
    + split.
      * intros <-. right. split; [done|]. intros d' r Hd' [= -> -> ->]. by rewrite Hd' in E.
      * intros [(d' & Hd' & [= -> -> ->])|[-> _]]; [|done]. by rewrite Hd' in E.
Qed.
Lemma strip_first_suffix_spec exts name :
  match strip_first_suffix exts name with
  | Some r => ∃ ext, ext ∈ exts ∧ name = r ++ ext
  | None => ∀ ext r, ext ∈ exts → name ≠ r ++ ext
  end.
Proof.
  induction exts as [|e exts IH]; cbn [strip_first_suffix]; [by intros ext r ?%elem_of_nil|].
  destruct (strip_suffix e name) as [r|] eqn:E.
  - exists e. split; [left|]. by apply strip_suffix_Some.
  - destruct (strip_first_suffix exts name) as [r|].
    + destruct IH as (ext & ? & ?). exists ext. by split; [right|].
    + intros ext r [->|H]%elem_of_cons Hn; [|by eapply IH]. apply strip_suffix_Some in Hn. congruence.
Qed.
(** No name has two of the extensions. *)
Lemma extension_unique ext ext' (r r' : str) :
  ext ∈ EXTENSIONS → ext' ∈ EXTENSIONS → r ++ ext = r' ++ ext' → r = r'.
Proof.
  intros H H' E. assert (length ext = length ext') as Hl.
  { assert (∀ e, e ∈ EXTENSIONS → length e = 4) as H4; [|by rewrite (H4 ext), (H4 ext')].
    intros e He. unfold EXTENSIONS in He. rewrite !elem_of_cons in He.
    by destruct He as [->|[->|[->|[->|He%elem_of_nil]]]]. }
  by apply app_inj_2 in E as [? _].
Qed.
Lemma lookup_key_spec word platform name :
  executable_name_lookup_key word platform = Some name ↔ runs_program platform word name.
Proof.
  destruct platform; cbn [executable_name_lookup_key runs_program].
  - rewrite <-last_part_spec. destruct (last_part _ word) as [|c b]; simpl; naive_solver.
  - pose proof (last_part_base is_separator word) as Hb. destruct (last_part is_separator word) as [|c b] eqn:El.
    + simpl. split; [done|]. intros (base & tail & Hbase & Hne & _).
      destruct Hne. by eapply base_of_unique.
    + cbn [is_empty]. pose proof (strip_first_suffix_spec EXTENSIONS (to_ascii_lowercase (strip_drive (c :: b)))) as Hx.
      fold EXTENSIONS. set (tail := strip_drive (c :: b)) in *.
      assert (∀ base tail', base_of is_separator word base → without_drive base tail' → tail' = tail) as Hu.
      { intros base tail' H1 H2%strip_drive_spec. rewrite (base_of_unique _ _ _ _ H1 Hb) in H2. by subst. }
      destruct (strip_first_suffix EXTENSIONS _) as [r|].
      * destruct Hx as (ext & He & Ht). split.
        -- intros [= ->]. exists (c :: b), tail. split_and!; [done|done|by apply strip_drive_spec|]. left. eauto.
        -- intros (base & tail' & H1 & _ & H2 & H3). apply Hu in H2 as ->; [|done]. f_equal.
           destruct H3 as [(ext' & He' & Ht')|(Hno & _)]; [|by destruct (Hno ext r)].
           rewrite Ht in Ht'. exact (extension_unique ext ext' r name He He' Ht').
      * split.
        -- destruct (to_ascii_lowercase tail) as [|x l] eqn:Et; [done|]. intros [= <-].
           exists (c :: b), tail. split_and!; [done|done|by apply strip_drive_spec|]. right. by rewrite Et.
        -- intros (base & tail' & H1 & _ & H2 & H3). apply Hu in H2 as ->; [|done].
           destruct H3 as [(ext & He & Ht)|(_ & -> & Hne)]; [by destruct (Hx ext name He)|]. by destruct name.
Qed.
Lemma force_option_spec arg :
  force_option arg = true ↔
  arg = lit "--force" ∨ ∃ flags, arg = 45%N :: flags ∧ head flags ≠ Some 45%N ∧ 102%N ∈ flags.
Proof.
  unfold force_option. rewrite orb_true_iff, str_eqb_eq. destruct (strip_prefix (lit "-") arg) as [flags|] eqn:E.
  - apply strip_prefix_Some in E as ->. change (lit "-" ++ flags) with (45%N :: flags).
    simpl. unfold contains_char. rewrite andb_true_iff, negb_true_iff, bool_decide_eq_true.
    assert (starts_with flags (lit "-") = false ↔ head flags ≠ Some 45%N) as ->; [|naive_solver].
    rewrite <-not_true_iff_false, starts_with_spec. destruct flags as [|x l]; simpl.
    + split; [done|]. by intros _ [r [=]].
    + split; [intros H [= ->]; apply H; by exists l|]. intros H [r [= -> _]]. done.
  - simpl. split; [intros [?|?]; [by left|done]|]. intros [?|(flags & -> & _)]; [by left|].
    by change (45%N :: flags) with (lit "-" ++ flags) in E; rewrite strip_prefix_app in E.
Qed.
Lemma forces_removal_spec args : rm_args_include_force_option args = true ↔ forces_removal args.
Proof.
  unfold rm_args_include_force_option, forces_removal. setoid_rewrite <-force_option_spec.
  induction args as [|a args IH]; cbn [take_while existsb].
  { split; [done|]. intros (before & arg & after & E & _). by destruct before. }
  destruct (str_eqb a (lit "--")) eqn:Ea; cbn [negb existsb].
  - apply str_eqb_eq in Ea as ->. split; [done|]. intros (before & arg & after & E & Hb & Hf).
    destruct before as [|b before]; injection E as <- ->; [done|]. destruct Hb. by left.
  - rewrite orb_true_iff, IH. split.
    + intros [Hf|(before & arg & after & -> & Hb & Hf)].
      * exists [], a, args. split_and!; [done|by apply not_elem_of_nil|done].
      * exists (a :: before), arg, after. split_and!; [done| |done]. apply not_elem_of_cons. split; [|done].
        intros <-. by rewrite str_eqb_refl in Ea.
    + intros (before & arg & after & E & Hb & Hf). destruct before as [|b before]; injection E as <- ->; [by left|right].
      apply not_elem_of_cons in Hb as [_ Hb]. by exists before, arg, after.
Qed.
Lemma assigns_spec argument : is_assignment argument = true ↔ assigns argument.
Proof.
  unfold is_assignment, assigns. destruct (split_once 61%N argument) as [[n v]|] eqn:E; simpl.
  - apply split_once_Some in E as [-> Hn]. rewrite andb_true_iff, !negb_true_iff.
    assert (starts_with n (lit "-") = false ↔ head n ≠ Some 45%N) as ->.
    { rewrite <-not_true_iff_false, starts_with_spec. destruct n as [|x l]; simpl.
      - split; [done|]. by intros _ [r [=]].
      - split; [intros H [= ->]; apply H; by exists l|]. intros H [r [= -> _]]. done. }
    assert (is_empty n = false ↔ n ≠ []) as -> by (by destruct n). split.
    + intros [? ?]. by exists n, v.
    + intros (n' & v' & E & Hn' & ? & ?). assert (split_once 61%N (n ++ 61%N :: v) = Some (n', v')) as E' by by apply split_once_Some.
      rewrite (proj2 (split_once_Some _ _ n v)) in E' by done. by injection E' as <- <-.
  - apply split_once_None in E. split; [done|]. intros (n & v & -> & _). destruct E. set_solver.
Qed.
Lemma env_skips_spec argument :
  one_of [lit "-i"; lit "--ignore-environment"] argument || is_assignment argument = true ↔ env_skips argument.
Proof.
  unfold env_skips, one_of. cbn [existsb]. rewrite !orb_true_iff, !str_eqb_eq, assigns_spec. naive_solver.
Qed.
Lemma env_runs_spec args inner : env_runs args inner ↔ inner = env_command args.
Proof.
  split.
  - induction 1 as [|args|a args inner Hd Hs _ ->|a args Hd Hs]; [done| | |]; cbn [env_command].
    + by rewrite str_eqb_refl.
    + apply env_skips_spec in Hs. by rewrite (proj2 (str_eqb_ne _ _) Hd), Hs.
    + rewrite (proj2 (str_eqb_ne _ _) Hd). destruct (_ || _) eqn:E; [|done]. by apply env_skips_spec in E.
  - intros ->. induction args as [|a args IH]; cbn [env_command]; [constructor|].
    destruct (str_eqb a (lit "--")) eqn:Ea; [apply str_eqb_eq in Ea as ->; constructor|]. apply str_eqb_ne in Ea.
    destruct (_ || _) eqn:E; [apply env_skip; [done|by apply env_skips_spec|done]|].
    apply env_stop; [done|]. by intros H%env_skips_spec; rewrite H in E.
Qed.
Lemma trap_runs_spec args inner : trap_runs args inner ↔ trap_command args = Some inner.
Proof.
  assert (∀ action, starts_with action (lit "-") = false ↔ head action ≠ Some 45%N) as Hs.
  { intros action. rewrite <-not_true_iff_false, starts_with_spec. destruct action as [|x l]; simpl.
    - split; [done|]. by intros _ [r [=]].
    - split; [intros H [= ->]; apply H; by exists l|]. intros H [r [= -> _]]. done. }
  unfold trap_runs, trap_command. split.
  - intros (action & rest & Ha & Hh & ->). apply Hs in Hh.
    destruct Ha as [[-> Hne]| ->]; [rewrite (proj2 (str_eqb_ne _ _) Hne)|rewrite str_eqb_refl]; cbn; by rewrite Hh.
  - destruct args as [|a args]; [done|]. destruct (str_eqb a (lit "--")) eqn:Ea.
    + apply str_eqb_eq in Ea as ->. destruct args as [|action rest]; [done|]. cbn.
      destruct (starts_with action (lit "-")) eqn:Ed; [done|]. intros [= <-]. exists action, rest.
      split_and!; [by right|by apply Hs|done].
    + apply str_eqb_ne in Ea. cbn. destruct (starts_with a (lit "-")) eqn:Ed; [done|]. intros [= <-].
      exists a, args. split_and!; [by left|by apply Hs|done].
Qed.

Section Classifier.
Variable try_parse_shell : str → option Node.
Variable shlex_split : str → option (list str).
Variables url_capture url_scheme : str → option str.
Notation literal_commands := (parse_shell_lc_literal_commands try_parse_shell).
Notation is_dangerous_windows := (is_dangerous_command_windows shlex_split url_capture url_scheme).

(** [None] stands for fuel that does not suffice.  The recursion goes through a
    command that wraps another one, with the depth of the wrappers. *)
Fixpoint first_match {A} (f : A → option (option DangerousCommandMatch)) (l : list A) :
    option (option DangerousCommandMatch) :=
  match l with
  | [] => Some None
  | x :: l => r ← f x; match r with Some m => Some (Some m) | None => first_match f l end
  end.
Definition match_for_exec (recur : list str → option (option DangerousCommandMatch)) (command : list str)
    (platform : DangerousCommandPlatform) : option (option DangerousCommandMatch) :=
  match command with
  | [] => Some None
  | cmd0 :: args =>
      match executable_name_lookup_key cmd0 platform with
      | None => Some None
      | Some name =>
          if str_eqb name (lit "rm") && rm_args_include_force_option args then Some (Some ForcedRm)
          else if str_eqb name (lit "sudo") then recur args
          else if str_eqb name (lit "env") then recur (env_command args)
          else if str_eqb name (lit "trap") then
            match trap_command args with Some shell_command => recur shell_command | None => Some None end
          else Some None
      end
  end.
Fixpoint match_with_depth (fuel : nat) (command : list str) (wrapper_depth : nat)
    (platform : DangerousCommandPlatform) : option (option DangerousCommandMatch) :=
  match fuel with
  | O => None
  | S fuel =>
      if (MAX_DANGEROUS_COMMAND_WRAPPER_DEPTH <? wrapper_depth)%nat then Some (Some Other)
      else
        let recur c := match_with_depth fuel c (S wrapper_depth) platform in
        r ← match_for_exec recur command platform;
        match r with
        | Some m => Some (Some m)
        | None =>
            r ← match literal_commands command with
                | Some commands => first_match recur commands
                | None => Some None
                end;
            match r with
            | Some m => Some (Some m)
            | None => Some (if is_windows platform && is_dangerous_windows command then Some Other else None)
            end
        end
  end.
Definition dangerous_command_match_for_platform (command : list str) (platform : DangerousCommandPlatform) :
    option DangerousCommandMatch :=
  default None (match_with_depth (MAX_DANGEROUS_COMMAND_WRAPPER_DEPTH + 2) command 0 platform).

(** ** What is dangerous *)

(** One command wraps another: [sudo], [env], [trap], or a script with it. *)
Inductive wraps (platform : DangerousCommandPlatform) : list str → list str → Prop :=
  | wraps_sudo p args : runs_program platform p (lit "sudo") → wraps platform (p :: args) args
  | wraps_env p args inner :
      runs_program platform p (lit "env") → env_runs args inner → wraps platform (p :: args) inner
  | wraps_trap p args inner :
      runs_program platform p (lit "trap") → trap_runs args inner → wraps platform (p :: args) inner
  | wraps_script command commands inner :
      literal_commands command = Some commands → inner ∈ commands → wraps platform command inner.

(** A forced removal, or a match of the Windows rules. *)
Definition dangerous_itself (platform : DangerousCommandPlatform) (command : list str) : Prop :=
  (∃ p args, command = p :: args ∧ runs_program platform p (lit "rm") ∧ forces_removal args)
  ∨ (platform = Windows ∧ is_dangerous_windows command = true).

(** [n] wrappers lead from one command to another. *)
Inductive wrapped (platform : DangerousCommandPlatform) : nat → list str → list str → Prop :=
  | wrapped_here c : wrapped platform 0 c c
  | wrapped_in n c d e : wraps platform c d → wrapped platform n d e → wrapped platform (S n) c e.

(** Dangerous within [n] wrappers, or nested more deeply than that. *)
Definition reaches_danger (platform : DangerousCommandPlatform) (n : nat) (command : list str) : Prop :=
  (∃ k inner, k ≤ n ∧ wrapped platform k command inner ∧ dangerous_itself platform inner)
  ∨ (∃ inner, wrapped platform (S n) command inner).

(** Beyond the limit every wrapped command counts as dangerous. *)
Definition danger_below (platform : DangerousCommandPlatform) (n : nat) (command : list str) : Prop :=
  match n with O => True | S n => reaches_danger platform n command end.

Lemma reaches_unfold platform n command :
  reaches_danger platform n command ↔
  dangerous_itself platform command ∨ ∃ d, wraps platform command d ∧ danger_below platform n d.
Proof.
  unfold reaches_danger. split.
  - intros [(k & e & Hk & Hw & Hd)|(e & Hw)]; inversion Hw as [|k' c d e' Hcd Hde]; subst; [by left|..]; right;
      exists d; (split; [done|]); destruct n as [|n]; try done.
    + left. exists k', e. split; [lia|done].
    + right. by exists e.
  - intros [Hd|(d & Hcd & Hb)].
    + left. exists 0, command. split; [lia|]. split; [constructor|done].
    + destruct n as [|n]; [right; exists d; econstructor; [done|constructor]|].
      destruct Hb as [(k & e & Hk & Hw & Hd)|(e & Hw)].
      * left. exists (S k), e. split; [lia|]. split; [by econstructor|done].
      * right. exists e. by econstructor.
Qed.

Definition decides (r : option (option DangerousCommandMatch)) (P : Prop) : Prop :=
  ∃ m, r = Some m ∧ (m ≠ None ↔ P).

#[local] Instance decides_proper r : Proper (iff ==> iff) (decides r).
Proof. intros P Q HPQ. unfold decides. by setoid_rewrite HPQ. Qed.

Lemma first_match_decides {A} (f : A → option (option DangerousCommandMatch)) (P : A → Prop) l :
  (∀ x, decides (f x) (P x)) → decides (first_match f l) (∃ x, x ∈ l ∧ P x).
Proof.
  intros Hf. induction l as [|x l IH]; cbn [first_match].
  - exists None. split; [done|]. split; [done|]. by intros (x & ?%elem_of_nil & _).
  - destruct (Hf x) as ([m|] & -> & Hm); cbn [mbind option_bind].
    + exists (Some m). split; [done|]. split; [|done]. intros _. exists x. split; [by left|]. by apply Hm.
    + destruct IH as (m & -> & IH). exists m. split; [done|]. rewrite IH. setoid_rewrite elem_of_cons.
      split; [naive_solver|]. intros (y & [->|Hy] & HP); [|eauto]. by apply Hm in HP.
Qed.

(** The part of the wrappers that is seen from the words of the command. *)
Inductive wraps_words (platform : DangerousCommandPlatform) (p : str) (args : list str) : list str → Prop :=
  | words_sudo : executable_name_lookup_key p platform = Some (lit "sudo") → wraps_words platform p args args
  | words_env :
      executable_name_lookup_key p platform = Some (lit "env") → wraps_words platform p args (env_command args)
  | words_trap inner :
      executable_name_lookup_key p platform = Some (lit "trap") → trap_command args = Some inner →
      wraps_words platform p args inner.

Lemma wraps_iff platform command d :
  wraps platform command d ↔
  (∃ p args, command = p :: args ∧ wraps_words platform p args d)
  ∨ ∃ commands, literal_commands command = Some commands ∧ d ∈ commands.
Proof.
  split.
  - intros [p args H%lookup_key_spec|p args inner H%lookup_key_spec ->%env_runs_spec
      |p args inner H1%lookup_key_spec H2%trap_runs_spec|c cs inner H1 H2]; eauto 10 using wraps_words.
  - intros [(p & args & -> & [H%lookup_key_spec|H%lookup_key_spec|inner H1%lookup_key_spec H2%trap_runs_spec])
      |(cs & H1 & H2)]; [by constructor|by apply wraps_env; [|apply env_runs_spec]|by eapply wraps_trap|by eapply wraps_script].
Qed.

(** The wrapper seen from the words is the one of the program's name. *)
#[local] Ltac same_wrapper E :=
  let Hw := fresh in let HP := fresh in let Hk := fresh in let Ht := fresh in
  intros (? & Hw & HP); inversion Hw as [Hk|Hk|? Hk Ht]; subst;
  first [exact HP | congruence
        | exfalso; rewrite E in Hk; vm_compute in Hk; discriminate Hk].

Lemma match_for_exec_decides recur platform (P : list str → Prop) command :
  (∀ c, decides (recur c) (P c)) →
  decides (match_for_exec recur command platform)
    ((∃ p args, command = p :: args ∧ executable_name_lookup_key p platform = Some (lit "rm")
                ∧ rm_args_include_force_option args = true)
     ∨ ∃ p args d, command = p :: args ∧ wraps_words platform p args d ∧ P d).
Proof.
  intros Hr. unfold match_for_exec.
  assert (∀ Q : Prop, ¬ Q → decides (Some None) Q) as Hno by (intros Q HQ; exists None; naive_solver).
  destruct command as [|p args]; [apply Hno; naive_solver|].
  destruct (executable_name_lookup_key p platform) as [name|] eqn:E.
  2:{ apply Hno. intros [(?&?&[= <- <-]&?&_)|(?&?&?&[= <- <-]&Hw&_)]; [congruence|]. inversion Hw; congruence. }
  destruct (str_eqb name (lit "rm") && rm_args_include_force_option args) eqn:Erm.
  { apply andb_true_iff in Erm as [->%str_eqb_eq Hf]. exists (Some ForcedRm). split; [done|]. split; [|done].
    intros _. left. eauto. }
  assert (∀ r (Q : Prop), decides r Q →
    (Q ↔ ∃ d, wraps_words platform p args d ∧ P d) →
    decides r ((∃ p' args', p :: args = p' :: args' ∧ executable_name_lookup_key p' platform = Some (lit "rm")
                 ∧ rm_args_include_force_option args' = true)
       ∨ ∃ p' args' d, p :: args = p' :: args' ∧ wraps_words platform p' args' d ∧ P d)) as Hvia.
  { intros r Q (m & -> & Hm) HQ. exists m. split; [done|]. rewrite Hm, HQ. split; [naive_solver|].
    intros [(?&?&[= <- <-]&Hk&Hf)|(?&?&d&[= <- <-]&?&?)]; [|eauto]. rewrite E in Hk. injection Hk as ->.
    rewrite str_eqb_refl, Hf in Erm. done. }
  destruct (str_eqb name (lit "sudo")) eqn:E1; [apply str_eqb_eq in E1 as ->|apply str_eqb_ne in E1].
  { apply (Hvia _ _ (Hr args)). split; [eauto using wraps_words|]. same_wrapper E. }
  destruct (str_eqb name (lit "env")) eqn:E2; [apply str_eqb_eq in E2 as ->|apply str_eqb_ne in E2].
  { apply (Hvia _ _ (Hr (env_command args))). split; [eauto using wraps_words|]. same_wrapper E. }
  destruct (str_eqb name (lit "trap")) eqn:E3; [apply str_eqb_eq in E3 as ->|apply str_eqb_ne in E3].
  { destruct (trap_command args) as [c|] eqn:Et.
    - apply (Hvia _ _ (Hr c)). split; [eauto using wraps_words|]. same_wrapper E.
    - apply (Hvia _ False); [apply Hno; tauto|]. split; [done|]. same_wrapper E. }
  apply (Hvia _ False); [apply Hno; tauto|]. split; [done|]. same_wrapper E.
Qed.

Lemma dangerous_itself_iff platform command :
  dangerous_itself platform command ↔
  (∃ p args, command = p :: args ∧ executable_name_lookup_key p platform = Some (lit "rm")
             ∧ rm_args_include_force_option args = true)
  ∨ (platform = Windows ∧ is_dangerous_windows command = true).
Proof.
  unfold dangerous_itself. setoid_rewrite lookup_key_spec. setoid_rewrite forces_removal_spec. done.
Qed.

Lemma match_with_depth_decides fuel command depth platform :
  MAX_DANGEROUS_COMMAND_WRAPPER_DEPTH + 2 ≤ fuel + depth →
  decides (match_with_depth fuel command depth platform)
    (danger_below platform (S MAX_DANGEROUS_COMMAND_WRAPPER_DEPTH - depth) command) ∨ fuel = 0.
Proof.
  revert command depth. induction fuel as [|fuel IH]; intros command depth Hf; [by right|left]. cbn [match_with_depth].
  destruct (Nat.ltb_spec MAX_DANGEROUS_COMMAND_WRAPPER_DEPTH depth) as [Hd|Hd].
  { exists (Some Other). split; [done|]. by replace (_ - depth) with 0 by lia. }
  replace (S MAX_DANGEROUS_COMMAND_WRAPPER_DEPTH - depth) with (S (MAX_DANGEROUS_COMMAND_WRAPPER_DEPTH - depth)) by lia.
  cbn [danger_below]. rewrite reaches_unfold, dangerous_itself_iff.
  assert (∀ c, decides (match_with_depth fuel c (S depth) platform)
                 (danger_below platform (MAX_DANGEROUS_COMMAND_WRAPPER_DEPTH - depth) c)) as Hr.
  { intros c. destruct (IH c (S depth)) as [H|H]; [lia|exact H|lia]. }
  destruct (match_for_exec_decides _ platform _ command Hr) as (m & -> & Hm). cbn [mbind option_bind].
  setoid_rewrite wraps_iff. destruct m as [m|].
  { exists (Some m). split; [done|]. split; [|done]. intros _.
    destruct Hm as [Hm _]. destruct (Hm ltac:(done)) as [H|(p & args & d & -> & Hw & HP)]; [by left; left|].
    right. exists d. split; [left; eauto|done]. }
  assert (decides match literal_commands command with
                  | Some commands => first_match (λ c, match_with_depth fuel c (S depth) platform) commands
                  | None => Some None
                  end
    (∃ d, (∃ cs, literal_commands command = Some cs ∧ d ∈ cs)
          ∧ danger_below platform (MAX_DANGEROUS_COMMAND_WRAPPER_DEPTH - depth) d)) as (m & -> & Hs).
  { destruct (literal_commands command) as [cs|]; [|exists None; naive_solver].
    destruct (first_match_decides _ _ cs Hr) as (m & -> & Hs). exists m. split; [done|]. rewrite Hs. naive_solver. }
  cbn [option_bind]. destruct m as [m|].
  { exists (Some m). split; [done|]. split; [|done]. intros _. destruct Hs as [Hs _].
    destruct (Hs ltac:(done)) as (d & Hd' & HP). right. exists d. split; [by right|done]. }
  exists (if is_windows platform && is_dangerous_windows command then Some Other else None).
  split; [done|]. destruct platform; cbn [is_windows andb].
  - split; [done|]. naive_solver.
  - destruct (is_dangerous_windows command); naive_solver.
Qed.

(** C38: the classifier always decides, and flags a command exactly when it is an
    [rm] with [--force] or an [f] among its short options before [--], or matches
    the rules for Windows there; when it reaches such a command through at most
    eight wrappers ([sudo], [env] behind its options and assignments, the action of
    [trap], or a literal command that the shell parser finds in a script); or when
    it is nested more deeply than that.  Programs are recognised by their base
    name, on Windows without drive, case and the extension of an executable.  The
    Windows rules and the shell parser are taken as they are. *)
Theorem dangerous_command_flagged command platform :
  (∃ m, match_with_depth (MAX_DANGEROUS_COMMAND_WRAPPER_DEPTH + 2) command 0 platform = Some m)
  ∧ (dangerous_command_match_for_platform command platform ≠ None ↔ reaches_danger platform 8 command).
Proof.
  destruct (match_with_depth_decides (MAX_DANGEROUS_COMMAND_WRAPPER_DEPTH + 2) command 0 platform)
    as [(m & Hm & Hiff)|H]; [lia| |done].
  unfold dangerous_command_match_for_platform. rewrite Hm. split; [by exists m|exact Hiff].
Qed.
End Classifier.
