(* ===== verification/PolicyFile.v ===== *)
(** * execpolicy: editing policy files

    [amend.rs], which appends a rule to a policy file, and [sandbox_migration.rs],
    which removes banned rules once.  The file is its bytes; every step of the
    operating system may fail, a write after some of its bytes.  The JSON strings
    of [serde_json] are parameters. *)
From stdpp Require Import sets.
From S2P Require Import Prelude Str Utf8Stream AbsolutePath ExecPolicy.

(** Failures of the operating system. *)
Definition io_error := str.

(** An invalid network rule has the text of its error or a message. *)
Inductive AmendError :=
  | EmptyPrefix
  | InvalidNetworkRule (reason : Error + str)
  | MissingParent
  | CreatePolicyDir (source : io_error)
  | SerializePrefix
  | SerializeNetworkRule
  | OpenPolicyFile (source : io_error)
  | WritePolicyFile (source : io_error)
  | LockPolicyFile (source : io_error)
  | SeekPolicyFile (source : io_error)
  | ReadPolicyFile (source : option io_error).

(** How the steps end: [None] is success; a failed write has written some bytes. *)
Inductive DirResult := Created | AlreadyExists | DirFailed (e : io_error).
Record Env := {
  dir_result : DirResult;
  open_error : option io_error;
  lock_error : option io_error;
  seek_error : option io_error;
  read_error : option io_error;
  newline_error : option (nat * io_error);
  line_error : option (nat * io_error);
}.

(** The policy file: its bytes, when it exists. *)
Definition File := option (list N).
Definition write_all (outcome : option (nat * io_error)) (data file : list N) : res AmendError unit * list N :=
  match outcome with
  | None => (Ok tt, file ++ data)
  | Some (n, e) => (Err (WritePolicyFile e), file ++ take n data)
  end.

Definition append_locked_line (env : Env) (line : str) (file : File) : res AmendError unit * File :=
  match open_error env with
  | Some e => (Err (OpenPolicyFile e), file)
  | None =>
  let bytes := default [] file in
  match lock_error env with
  | Some e => (Err (LockPolicyFile e), Some bytes)
  | None =>
  match seek_error env with
  | Some e => (Err (SeekPolicyFile e), Some bytes)
  | None =>
  match read_error env with
  | Some e => (Err (ReadPolicyFile (Some e)), Some bytes)
  | None =>
  match from_utf8 bytes with
  | Ok contents =>
      if existsb (λ existing, str_eqb existing line) (lines contents) then (Ok tt, Some bytes)
      else
        let '(r, bytes) :=
          if negb (is_empty contents) && negb (ends_with contents [LF])
          then write_all (newline_error env) (as_bytes [LF]) bytes else (Ok tt, bytes) in
        match r with
        | Ok _ => let '(r, bytes) := write_all (line_error env) (as_bytes (line ++ [LF])) bytes in (r, Some bytes)
        | r => (r, Some bytes)
        end
  | _ => (Err (ReadPolicyFile None), Some bytes)
  end
  end
  end
  end
  end.

(** [Path::parent]: none for the root and the empty path. *)
Definition has_parent (path : str) : bool :=
  negb (is_empty (components path)) && negb (bool_decide (components path = [RootDir])).
Definition append_rule_line (env : Env) (policy_path rule : str) (file : File) : res AmendError unit * File :=
  if negb (has_parent policy_path) then (Err MissingParent, file)
  else match dir_result env with
       | DirFailed e => (Err (CreatePolicyDir e), file)
       | Created | AlreadyExists => append_locked_line env rule file
       end.

Definition QUOTE : char := 34%N.
Definition ALLOW_SUFFIX : str := lit ", decision=" ++ [QUOTE] ++ lit "allow" ++ [QUOTE] ++ lit ")".
Definition prefix_rule_line (pattern : str) : str := lit "prefix_rule(pattern=" ++ pattern ++ ALLOW_SUFFIX.
Definition json_array (tokens : list str) : str := lit "[" ++ join (lit ", ") tokens ++ lit "]".

Section Json.
(** [serde_json::to_string] on a string and [from_str] on an array of strings. *)
Variable json_string : str → option str.
Variable json_strings : str → option (list str).

Definition blocking_append_allow_prefix_rule (env : Env) (policy_path : str) (prefix : list str) (file : File) :
    res AmendError unit * File :=
  if is_empty prefix then (Err EmptyPrefix, file)
  else match mapM json_string prefix with
       | None => (Err SerializePrefix, file)
       | Some tokens => append_rule_line env policy_path (prefix_rule_line (json_array tokens)) file
       end.

Definition decision_word (d : Decision) : str :=
  match d with Allow => lit "allow" | Prompt => lit "prompt" | Forbidden => lit "deny" end.
Definition network_rule_args (host : str) (protocol : NetworkRuleProtocol) (decision : Decision)
    (justification : option str) : option (list str) :=
  host ← json_string host;
  protocol ← json_string (as_policy_string protocol);
  decision ← json_string (decision_word decision);
  let args := [lit "host=" ++ host; lit "protocol=" ++ protocol; lit "decision=" ++ decision] in
  match justification with
  | Some justification => j ← json_string justification; Some (args ++ [lit "justification=" ++ j])
  | None => Some args
  end.
Definition blocking_append_network_rule (env : Env) (policy_path host : str) (protocol : NetworkRuleProtocol)
    (decision : Decision) (justification : option str) (file : File) : res AmendError unit * File :=
  match normalize_network_rule_host host with
  | Ok host =>
      if is_some_and (λ raw, is_empty (trim raw)) justification
      then (Err (InvalidNetworkRule (inr (lit "justification cannot be empty"))), file)
      else match network_rule_args host protocol decision justification with
           | None => (Err SerializeNetworkRule, file)
           | Some args =>
               append_rule_line env policy_path (lit "network_rule(" ++ join (lit ", ") args ++ lit ")") file
           end
  | Err e => (Err (InvalidNetworkRule (inl e)), file)
  | Panic => (Panic, file)
  end.

(** ** The migration *)
Definition should_remove_rule (banned : list (list str)) (line : str) : bool :=
  let line := default line (strip_suffix [LF] line) in
  let line := default line (strip_suffix [CR] line) in
  match (rest ← strip_prefix (lit "prefix_rule(pattern=") line; strip_suffix ALLOW_SUFFIX rest) with
  | None => false
  | Some pattern =>
      match json_strings pattern with
      | None => false
      | Some prefix => bool_decide (map to_ascii_lowercase prefix ∈ banned)
      end
  end.
Definition strip_banned_allow_rules (contents : str) (banned_prefixes : list (list str)) : str :=
  let banned := map (map to_ascii_lowercase) banned_prefixes in
  concat (List.filter (λ line, negb (should_remove_rule banned line)) (split_inclusive LF contents)).
End Json.

(** [clean_rules_file] where no step fails: the file is rewritten only when a rule is
    removed; bytes that are not text are an error. *)
Definition clean_rules_file (json_strings : str → option (list str)) (banned_prefixes : list (list str))
    (file : File) : res unit File :=
  match file with
  | None => Ok None
  | Some bytes =>
      match from_utf8 bytes with
      | Ok contents =>
          let retained := strip_banned_allow_rules json_strings contents banned_prefixes in
          if str_eqb retained contents then Ok (Some bytes) else Ok (Some (as_bytes retained))
      | _ => Err tt
      end
  end.
(** [prefix_rule_migration]: nothing when the marker exists, else the cleaning and then
    the marker. *)
Definition prefix_rule_migration (json_strings : str → option (list str)) (banned_prefixes : list (list str))
    (marker : bool) (file : File) : res unit (bool * File) :=
  if marker then Ok (marker, file)
  else file ← clean_rules_file json_strings banned_prefixes file; Ok (true, file).

(** ** Lines *)
Definition ended (t : str) : Prop := t = [] ∨ last t = Some LF.
Lemma ended_app t s : ended t → split_inclusive LF (t ++ s) = split_inclusive LF t ++ split_inclusive LF s.
Proof.
  intros [->|H]; [done|]. induction t as [|x t IH]; [done|]. cbn [app split_inclusive].
  destruct t as [|y t].
  - cbn in H. injection H as ->. done.
  - rewrite last_cons_cons in H. rewrite (IH H). destruct (x =? LF)%N; [done|].
    destruct (split_inclusive LF (y :: t)) as [|l ls] eqn:E; [|done].
    cbn [split_inclusive] in E. destruct (y =? LF)%N; [done|]. by destruct (split_inclusive LF t).
Qed.
Lemma lines_ended t s : ended t → lines (t ++ s) = lines t ++ lines s.
Proof. intros H. unfold lines. by rewrite ended_app, fmap_app. Qed.
Lemma last_line t : ∃ a l, t = a ++ l ∧ ended a ∧ LF ∉ l.
Proof.
  induction t as [|x t IH] using rev_ind; [exists [], []; split; [done|]; split; [by left|set_solver]|].
  destruct (decide (x = LF)) as [->|Hx].
  - exists (t ++ [LF]), []. rewrite app_nil_r. split; [done|]. split; [right; by rewrite last_snoc|set_solver].
  - destruct IH as (a & l & -> & Ha & Hl). exists a, (l ++ [x]). split; [by rewrite app_assoc|]. split; [done|set_solver].
Qed.
Lemma lines_newline t :
  t ≠ [] → last t ≠ Some LF → last t ≠ Some CR → lines (t ++ [LF]) = lines t ∧ ended (t ++ [LF]).
Proof.
  intros Hne Hlf Hcr. split; [|right; by rewrite last_snoc].
  destruct (last_line t) as (a & l & -> & Ha & Hl).
  assert (l ≠ []) as Hlne by (intros ->; rewrite app_nil_r in *; destruct Ha; done).
  assert (last l ≠ Some CR) as Hlcr.
  { destruct l as [|x l _] using rev_ind; [done|]. rewrite app_assoc, !last_snoc in Hcr. by rewrite last_snoc. }
  rewrite <-app_assoc, (lines_ended a (l ++ [LF])), (lines_ended a l), (lines_last l) by done.
  by rewrite (lines_cons l []).
Qed.

(** The line stands alone at the end of the text. *)
Lemma lines_append t line :
  ended t → LF ∉ line → last line ≠ Some CR → lines (t ++ line ++ [LF]) = lines t ++ [line].
Proof. intros. rewrite lines_ended by done. by rewrite (lines_cons line []). Qed.

(** ** Appending *)
Definition no_faults (env : Env) : Prop :=
  open_error env = None ∧ lock_error env = None ∧ seek_error env = None ∧ read_error env = None
  ∧ newline_error env = None ∧ line_error env = None.
Definition appended (line t : str) : str :=
  if existsb (λ existing, str_eqb existing line) (lines t) then t
  else (if negb (is_empty t) && negb (ends_with t [LF]) then t ++ [LF] else t) ++ line ++ [LF].

Lemma from_utf8_bytes t : scalars t → from_utf8 (as_bytes t) = Ok t.
Proof.
  intros Ht. pose proof (from_utf8_text t [] Ht) as H. rewrite app_nil_r in H. by apply H.
Qed.
Lemma append_text env line t :
  no_faults env → scalars t →
  append_locked_line env line (Some (as_bytes t)) = (Ok tt, Some (as_bytes (appended line t))).
Proof.
  intros (H1 & H2 & H3 & H4 & H5 & H6) Ht. unfold append_locked_line. cbn [default].
  rewrite H1, H2, H3, H4. cbn [id]. rewrite from_utf8_bytes by done. unfold appended.
  destruct (existsb _ _); [done|]. unfold write_all. rewrite H5, H6.
  destruct (negb (is_empty t) && negb (ends_with t [LF])); by rewrite <-!as_bytes_app.
Qed.

(** Appending a rule to a readable policy file leaves all its lines, adds the rule
    as one line of its own at the end unless a line already says it, and doing so
    again changes nothing. *)
Theorem append_adds_one_line env line t :
  no_faults env → scalars t → scalars line → last t ≠ Some CR → LF ∉ line → last line ≠ Some CR →
  ∃ t', append_locked_line env line (Some (as_bytes t)) = (Ok tt, Some (as_bytes t'))
    ∧ lines t' = (if bool_decide (line ∈ lines t) then lines t else lines t ++ [line])
    ∧ (∃ more, t' = t ++ more)
    ∧ append_locked_line env line (Some (as_bytes t')) = (Ok tt, Some (as_bytes t')).
Proof.
  intros Henv Ht Hline Hcr Hlf Hlcr. exists (appended line t). split; [by apply append_text|].
  assert (∀ t, existsb (λ existing, str_eqb existing line) (lines t) = bool_decide (line ∈ lines t)) as Hex.
  { intros u. apply eq_true_iff_eq. rewrite existsb_exists, bool_decide_eq_true. setoid_rewrite str_eqb_eq.
    setoid_rewrite <-list_elem_of_In. naive_solver. }
  assert (lines (appended line t) = if bool_decide (line ∈ lines t) then lines t else lines t ++ [line]) as Hl.
  { unfold appended. rewrite Hex. case_bool_decide; [done|].
    destruct t as [|c u] eqn:Et; [by apply (lines_append [] line); [left|..]|]. rewrite <-Et in *. cbn [is_empty].
    assert (is_empty t = false) as -> by by subst. cbn [negb andb].
    destruct (ends_with t [LF]) eqn:Ee; cbn [negb].
    - apply ends_with_spec in Ee as [r Hr]. apply lines_append; [right; by rewrite Hr, last_snoc|done|done].
    - assert (last t ≠ Some LF) as Hnlf.
      { intros [r Hr]%last_Some. assert (ends_with t [LF] = true) by (apply ends_with_spec; eauto). congruence. }
      destruct (lines_newline t) as [H1 H2]; [by subst|done|done|]. by rewrite lines_append, H1. }
  split; [done|]. split.
  - unfold appended. destruct (existsb _ _); [exists []; by rewrite app_nil_r|].
    destruct (_ && _); [rewrite <-app_assoc|]; eauto.
  - assert (scalars (appended line t)) as Hs.
    { unfold appended, scalars in *. repeat case_match; rewrite ?Forall_app; repeat split; try done; by repeat constructor. }
    rewrite append_text by done. assert (line ∈ lines (appended line t)) as Hin.
    { rewrite Hl. case_bool_decide; [done|]. set_solver. }
    assert (∀ u, line ∈ lines u → appended line u = u) as Hid.
    { intros u Hu. unfold appended. by rewrite Hex, bool_decide_eq_true_2. }
    by rewrite (Hid _ Hin).
Qed.

(** Whatever fails, nothing that was in the file is lost. *)
Theorem append_keeps_contents env line bytes :
  ∃ r more, append_locked_line env line (Some bytes) = (r, Some (bytes ++ more)).
Proof.
  unfold append_locked_line. cbn [default]. unfold write_all.
  repeat case_match; simplify_eq; rewrite <-?app_assoc; eauto;
    do 2 eexists; by rewrite app_nil_r.
Qed.

Definition calm_env : Env :=
  {| dir_result := AlreadyExists; open_error := None; lock_error := None; seek_error := None; read_error := None;
     newline_error := None; line_error := None |}.
Lemma append_witness :
  ∃ t', append_locked_line calm_env (lit "rule()") (Some (as_bytes (lit "old()"))) = (Ok tt, Some (as_bytes t'))
    ∧ lines t' = [lit "old()"; lit "rule()"].
Proof.
  destruct (append_adds_one_line calm_env (lit "rule()") (lit "old()")) as (t' & H1 & H2 & _).
  - repeat split.
  - repeat constructor.
  - repeat constructor.
  - discriminate.
  - vm_compute. set_solver.
  - discriminate.
  - exists t'. split; [exact H1|exact H2].
Defined.

(** ** The migration undoes exactly the banned appends *)
Section Migration.
Variable json_strings : str → option (list str).
Notation strip := (strip_banned_allow_rules json_strings).

Lemma strip_ended t s banned : ended t → strip (t ++ s) banned = strip t banned ++ strip s banned.
Proof. intros H. unfold strip_banned_allow_rules. by rewrite ended_app, List.filter_app, concat_app. Qed.

Lemma rule_line_removed banned prefix pattern :
  json_strings pattern = Some prefix →
  should_remove_rule json_strings banned (prefix_rule_line pattern ++ [LF])
  = bool_decide (map to_ascii_lowercase prefix ∈ banned).
Proof.
  intros Hp. unfold should_remove_rule. rewrite strip_suffix_app. cbn [default id].
  assert (strip_suffix [CR] (prefix_rule_line pattern) = None) as ->.
  { destruct (strip_suffix [CR] _) as [r|] eqn:E; [|done]. apply strip_suffix_Some in E. exfalso.
    apply (f_equal last) in E. unfold prefix_rule_line, ALLOW_SUFFIX in E. rewrite !app_assoc, !last_snoc in E.
    rewrite last_app in E. done. }
  cbn [default id]. unfold prefix_rule_line. rewrite strip_prefix_app. cbn [mbind option_bind].
  by rewrite strip_suffix_app, Hp.
Qed.

(** After a rule was appended, cleaning the file removes it when its prefix is banned,
    up to ASCII case, and keeps it otherwise; the lines before are cleaned as before. *)
Theorem migration_removes_exactly_banned t prefix pattern banned :
  ended t → LF ∉ pattern → json_strings pattern = Some prefix →
  strip (t ++ prefix_rule_line pattern ++ [LF]) banned
  = strip t banned
    ++ (if bool_decide (map to_ascii_lowercase prefix ∈ map (map to_ascii_lowercase) banned) then []
        else prefix_rule_line pattern ++ [LF]).
Proof.
  intros Ht Hlf Hp. rewrite strip_ended by done. f_equal. unfold strip_banned_allow_rules.
  rewrite (split_inclusive_line LF (prefix_rule_line pattern) []).
  - cbn [split_inclusive List.filter]. rewrite rule_line_removed with (prefix := prefix) by done.
    case_bool_decide; cbn [negb concat]; [done|]. by rewrite app_nil_r.
  - unfold prefix_rule_line. rewrite !not_elem_of_app. split; [|split]; [|done|]; vm_compute; set_solver.
Qed.
End Migration.
