(* ===== verification/Readiness.v ===== *)
(** * The readiness flag of utils/readiness

    [utils/readiness/src/lib.rs]: a flag that becomes ready when a subscribed
    token is presented, or when it is asked for while nobody is subscribed, and
    tasks that wait for it.  The calls of [is_ready], [subscribe], [mark_ready]
    and [wait_ready] run concurrently; each atomic access, each use of the token
    mutex and each operation on the watch channel is a step of its own, and a
    world is the flag with the calls in progress.  The watch channel is the one
    of tokio: a class with the documented laws of its operations.

    The development shows that the calls are linearizable against a sequential
    specification, that a task which registered before the flag became ready is
    woken, and that a task which registers afterwards may wait for ever. *)
From stdpp Require Import gmap sets relations.
From S2P Require Import Prelude.

Open Scope Z_scope.

(** ** The watch channel

    [w_new] is the sending half of a channel whose first receiver was dropped,
    as [ReadinessFlag::new] leaves it; [w_seen r w] is the receiver [r] after
    [changed] returned. *)
Class Watch (W R : Type) := {
  w_new : bool → W;
  w_send : bool → W → W;
  w_subscribe : W → R * W;
  w_borrow : R → W → bool;
  w_has_changed : R → W → bool;
  w_seen : R → W → R;
  w_drop : R → W → W;
  receiver_count : W → nat;
}.

(** What the documentation of [tokio::sync::watch] says of them.  [w_from r w]
    holds of the receivers of the channel. *)
Class WatchLaws (W R : Type) `{Watch W R} := {
  w_from : R → W → Prop;
  new_count b : receiver_count (w_new b) = 0%nat;
  new_borrow b r : w_borrow r (w_new b) = b;
  send_closed b w : receiver_count w = 0%nat → w_send b w = w;
  send_count b w : receiver_count (w_send b w) = receiver_count w;
  send_borrow b w r : receiver_count w ≠ 0%nat → w_borrow r (w_send b w) = b;
  send_changed b w r :
    receiver_count w ≠ 0%nat → w_from r w → w_has_changed r (w_send b w) = true;
  send_from b w r : w_from r w → w_from r (w_send b w);
  subscribe_count w : receiver_count (w_subscribe w).2 = S (receiver_count w);
  subscribe_borrow w r : w_borrow r (w_subscribe w).2 = w_borrow r w;
  subscribe_changed w r : w_has_changed r (w_subscribe w).2 = w_has_changed r w;
  subscribe_fresh w : w_has_changed (w_subscribe w).1 w = false;
  subscribe_from w r : w_from r w → w_from r (w_subscribe w).2;
  subscribed_from w : w_from (w_subscribe w).1 (w_subscribe w).2;
  seen_borrow w r r' : w_borrow (w_seen r w) w = w_borrow r' w;
  seen_from w r : w_from r w → w_from (w_seen r w) w;
  drop_count w r : receiver_count (w_drop r w) = pred (receiver_count w);
  drop_borrow w r r' : w_borrow r' (w_drop r w) = w_borrow r' w;
  drop_changed w r r' : w_has_changed r' (w_drop r w) = w_has_changed r' w;
  drop_from w r r' : w_from r' w → w_from r' (w_drop r w);
}.

(** ** Tokens *)

(** [AtomicI32::fetch_add(1)] wraps around. *)
Definition i32_succ (z : Z) : Z := (z + 1 + 2 ^ 31) `mod` 2 ^ 32 - 2 ^ 31.

(** One turn of the loop of [subscribe]: the token if it is inserted. *)
Definition try_token (next : Z) (tokens : gset Z) : option Z :=
  if bool_decide (next ≠ 0) && bool_decide (next ∉ tokens) then Some next else None.

(** ** The flag and the calls in progress *)
Inductive ReadinessError := TokenLockFailed | FlagAlreadyReady.

Inductive outcome :=
  | RIsReady (b : bool)
  | RSubscribe (r : res ReadinessError Z)
  | RMark (r : res ReadinessError bool)
  | RWait
  | Cancelled.

(** The linearization points: an operation with the answer it gets.
    [contended] tells that [is_ready] did not get the guard of the tokens. *)
Inductive event :=
  | EIsReady (contended b : bool)
  | ESubscribe (r : res ReadinessError Z)
  | EMark (t : Z) (r : res ReadinessError bool)
  | EWait.

Section readiness.
Context {W R : Type} {Wt : Watch W R} {WL : WatchLaws W R}.

(** [locked] is the call that holds the guard of the [tokens] mutex. *)
Record ReadinessFlag := {
  ready : bool;
  next_id : Z;
  tokens : gset Z;
  locked : option nat;
  tx : W;
}.

Definition new : ReadinessFlag :=
  {| ready := false; next_id := 1; tokens := ∅; locked := None; tx := w_new false |}.

Definition set_ready (b : bool) (f : ReadinessFlag) : ReadinessFlag :=
  {| ready := b; next_id := next_id f; tokens := tokens f; locked := locked f; tx := tx f |}.
Definition set_next (z : Z) (f : ReadinessFlag) : ReadinessFlag :=
  {| ready := ready f; next_id := z; tokens := tokens f; locked := locked f; tx := tx f |}.
Definition set_tokens (s : gset Z) (f : ReadinessFlag) : ReadinessFlag :=
  {| ready := ready f; next_id := next_id f; tokens := s; locked := locked f; tx := tx f |}.
Definition set_locked (l : option nat) (f : ReadinessFlag) : ReadinessFlag :=
  {| ready := ready f; next_id := next_id f; tokens := tokens f; locked := l; tx := tx f |}.
Definition set_tx (w : W) (f : ReadinessFlag) : ReadinessFlag :=
  {| ready := ready f; next_id := next_id f; tokens := tokens f; locked := locked f; tx := w |}.

(** Where a call stands.  [wait] tells that [is_ready] was called by
    [wait_ready]. *)
Inductive pc :=
  | IsReady_load (wait : bool) | IsReady_try_lock (wait : bool) | IsReady_is_empty (wait : bool)
  | IsReady_swap (wait : bool) | IsReady_drop (wait was_ready : bool) | IsReady_send (wait : bool)
  | IsReady_reload (wait contended : bool)
  | Subscribe_load | Subscribe_lock | Subscribe_recheck | Subscribe_loop | Subscribe_unlock (t : Z)
  | Mark_load (t : Z) | Mark_lock (t : Z) | Mark_remove (t : Z) | Mark_store (t : Z) | Mark_clear
  | Mark_unlock | Mark_send
  | Wait_subscribe | Wait_borrow (r : R) | Wait_changed (r : R) | Wait_check (r : R)
  | Done (o : outcome).

Inductive op := OpIsReady | OpSubscribe | OpMark (t : Z) | OpWait.
Definition start (o : op) : pc :=
  match o with
  | OpIsReady => IsReady_load false
  | OpSubscribe => Subscribe_load
  | OpMark t => Mark_load t
  | OpWait => IsReady_load true
  end.

(** The value of [is_ready] goes to the caller or to [wait_ready]. *)
Definition is_ready_returns (wait b : bool) : pc :=
  if wait then if b then Done RWait else Wait_subscribe else Done (RIsReady b).

(** The answer of [is_ready]; one that does not end [wait_ready] is none. *)
Definition ready_answer (wait contended b : bool) : option event :=
  if wait then if b then Some EWait else None else Some (EIsReady contended b).

Definition moves : Type := list (ReadinessFlag * pc * option event).
Definition goes (f : ReadinessFlag) (p : pc) : moves := [(f, p, None)].
Definition returns (f : ReadinessFlag) (o : outcome) (e : event) : moves :=
  [(f, Done o, Some e)].

(** [with_tokens] up to the acquisition of the guard: the lock is free, or its
    holder keeps it until the timeout; the caller may drop the future. *)
Definition with_tokens (me : nat) (f : ReadinessFlag) (inside : pc)
    (fails : ReadinessError → outcome) (answer : ReadinessError → event) : moves :=
  (match locked f with
   | None => goes (set_locked (Some me) f) inside
   | Some _ => returns f (fails TokenLockFailed) (answer TokenLockFailed)
   end) ++ goes f (Done Cancelled).

Definition is_ready_step (me : nat) (f : ReadinessFlag) (p : pc) : moves :=
  match p with
  | IsReady_load k =>
      if ready f then [(f, is_ready_returns k true, ready_answer k false true)]
      else goes f (IsReady_try_lock k)
  | IsReady_try_lock k =>
      match locked f with
      | None => goes (set_locked (Some me) f) (IsReady_is_empty k)
      | Some _ => goes f (IsReady_reload k true)
      end
  | IsReady_is_empty k =>
      if bool_decide (tokens f = ∅) then goes f (IsReady_swap k)
      else goes (set_locked None f) (IsReady_reload k false)
  | IsReady_swap k =>
      [(set_ready true f, IsReady_drop k (ready f), ready_answer k false true)]
  | IsReady_drop k was_ready =>
      goes (set_locked None f) (if was_ready then is_ready_returns k true else IsReady_send k)
  | IsReady_send k => goes (set_tx (w_send true (tx f)) f) (is_ready_returns k true)
  | IsReady_reload k contended =>
      [(f, is_ready_returns k (ready f), ready_answer k contended (ready f))]
  | _ => []
  end.

Definition subscribe_step (me : nat) (f : ReadinessFlag) (p : pc) : moves :=
  match p with
  | Subscribe_load =>
      if ready f
      then returns f (RSubscribe (Err FlagAlreadyReady)) (ESubscribe (Err FlagAlreadyReady))
      else goes f Subscribe_lock
  | Subscribe_lock =>
      with_tokens me f Subscribe_recheck (λ e, RSubscribe (Err e)) (λ e, ESubscribe (Err e))
  | Subscribe_recheck =>
      if ready f
      then returns (set_locked None f) (RSubscribe (Err FlagAlreadyReady))
             (ESubscribe (Err FlagAlreadyReady))
      else goes f Subscribe_loop
  | Subscribe_loop =>
      let f' := set_next (i32_succ (next_id f)) f in
      match try_token (next_id f) (tokens f) with
      | Some t => [(set_tokens ({[t]} ∪ tokens f) f', Subscribe_unlock t, Some (ESubscribe (Ok t)))]
      | None => goes f' Subscribe_loop
      end
  | Subscribe_unlock t => goes (set_locked None f) (Done (RSubscribe (Ok t)))
  | _ => []
  end.

Definition mark_ready_step (me : nat) (f : ReadinessFlag) (p : pc) : moves :=
  match p with
  | Mark_load t =>
      if ready f then returns f (RMark (Ok false)) (EMark t (Ok false))
      else if bool_decide (t = 0) then returns f (RMark (Ok false)) (EMark t (Ok false))
      else goes f (Mark_lock t)
  | Mark_lock t => with_tokens me f (Mark_remove t) (λ e, RMark (Err e)) (λ e, EMark t (Err e))
  | Mark_remove t =>
      if bool_decide (t ∈ tokens f) then goes (set_tokens (tokens f ∖ {[t]}) f) (Mark_store t)
      else returns (set_locked None f) (RMark (Ok false)) (EMark t (Ok false))
  | Mark_store t => [(set_ready true f, Mark_clear, Some (EMark t (Ok true)))]
  | Mark_clear => goes (set_tokens ∅ f) Mark_unlock
  | Mark_unlock => goes (set_locked None f) Mark_send
  | Mark_send => goes (set_tx (w_send true (tx f)) f) (Done (RMark (Ok true)))
  | _ => []
  end.

(** Leaving [wait_ready] drops the receiver.  [changed] has no step while the
    receiver has seen the latest value; it does not fail, since the flag keeps
    the sender alive. *)
Definition wait_ready_step (f : ReadinessFlag) (p : pc) : moves :=
  match p with
  | Wait_subscribe => goes (set_tx (w_subscribe (tx f)).2 f) (Wait_borrow (w_subscribe (tx f)).1)
  | Wait_borrow r =>
      if w_borrow r (tx f) then returns (set_tx (w_drop r (tx f)) f) RWait EWait
      else goes f (Wait_changed r)
  | Wait_changed r =>
      (if w_has_changed r (tx f) then goes f (Wait_check (w_seen r (tx f))) else [])
      ++ goes (set_tx (w_drop r (tx f)) f) (Done Cancelled)
  | Wait_check r =>
      if w_borrow r (tx f) then returns (set_tx (w_drop r (tx f)) f) RWait EWait
      else goes f (Wait_changed r)
  | _ => []
  end.

Definition step_call (me : nat) (f : ReadinessFlag) (p : pc) : moves :=
  is_ready_step me f p ++ subscribe_step me f p ++ mark_ready_step me f p ++ wait_ready_step f p.

(** A world: the flag, the operations called so far, where each call stands and
    the linearization points passed, in order, each with the call it is of. *)
Record world := {
  flag : ReadinessFlag;
  ops : list op;
  calls : list pc;
  events : list (nat * event);
}.

Definition initial : world := {| flag := new; ops := []; calls := []; events := [] |}.

(** The worlds after a new call and after a move of the call [i]. *)
Definition spawn (w : world) (o : op) : world :=
  {| flag := flag w; ops := ops w ++ [o]; calls := calls w ++ [start o]; events := events w |}.
Definition moved (w : world) (i : nat) (f' : ReadinessFlag) (p' : pc) (e : option event) : world :=
  {| flag := f'; ops := ops w; calls := <[i:=p']> (calls w);
     events := events w ++ ((i,.) <$> option_list e) |}.

(** A new call, or a step of the call with the given number. *)
Inductive step_by : option nat → world → world → Prop :=
  | step_spawn w o : step_by None w (spawn w o)
  | step_run w i p f' p' e :
      calls w !! i = Some p →
      (f', p', e) ∈ step_call i (flag w) p →
      step_by (Some i) w (moved w i f' p' e).
Definition step (w w' : world) : Prop := ∃ c, step_by c w w'.

Definition reachable (w : world) : Prop := rtc step initial w.

(** ** Steps by their effect *)

(** The calls that hold the guard, and those that hold a receiver. *)
Definition holding (p : pc) : bool :=
  match p with
  | IsReady_is_empty _ | IsReady_swap _ | IsReady_drop _ _ | Subscribe_recheck | Subscribe_loop
  | Subscribe_unlock _ | Mark_remove _ | Mark_store _ | Mark_clear | Mark_unlock => true
  | _ => false
  end.
Definition receiver (p : pc) : option R :=
  match p with Wait_borrow r | Wait_changed r | Wait_check r => Some r | _ => None end.
(** The token a call of [subscribe] obtained, and whether a call of
    [mark_ready] was the one that made the flag ready. *)
Definition granted_token (p : pc) : option Z :=
  match p with Subscribe_unlock t | Done (RSubscribe (Ok t)) => Some t | _ => None end.
Definition marked (p : pc) : bool :=
  match p with
  | Mark_clear | Mark_unlock | Mark_send | Done (RMark (Ok true)) => true
  | _ => false
  end.

Ltac call_cases H :=
  unfold step_call, is_ready_step, subscribe_step, mark_ready_step, wait_ready_step,
    with_tokens, goes, returns, is_ready_returns, ready_answer in H;
  apply list_elem_of_In in H; simpl in H;
  repeat (match type of H with
          | context [match ?x with _ => _ end] => destruct x eqn:?; simpl in H
          end);
  repeat match type of H with _ ∨ _ => destruct H as [H|H] end;
  try done; simplify_eq/=.

(** A call without the guard changes at most the channel, unless it takes the
    guard; a call with the guard keeps it or gives it back. *)
Lemma step_call_effect i f p f' p' e :
  (f', p', e) ∈ step_call i f p →
  (holding p = false ∧ holding p' = false ∧ ready f' = ready f ∧
     tokens f' = tokens f ∧ locked f' = locked f) ∨
  (holding p = false ∧ holding p' = true ∧ locked f = None ∧ ready f' = ready f ∧
     tokens f' = tokens f ∧ locked f' = Some i) ∨
  (holding p = true ∧ (locked f' = locked f ∧ holding p' = true ∨
                       locked f' = None ∧ holding p' = false)).
Proof. intros H. destruct p; call_cases H; naive_solver. Qed.

Lemma step_call_ready i f p f' p' e :
  (f', p', e) ∈ step_call i f p → ready f = true → ready f' = true.
Proof. intros H. destruct p; call_cases H; naive_solver. Qed.

Lemma step_call_from i f p f' p' e r :
  (f', p', e) ∈ step_call i f p → w_from r (tx f) → w_from r (tx f').
Proof.
  intros H. destruct p; call_cases H; eauto using send_from, subscribe_from, drop_from.
Qed.

(** ** Counting calls *)

Definition count_calls (P : pc → bool) (l : list pc) : nat := length (List.filter P l).

Lemma count_calls_cons P p l : count_calls P (p :: l) = (Nat.b2n (P p) + count_calls P l)%nat.
Proof. unfold count_calls. simpl. by destruct (P p). Qed.

Lemma count_calls_insert P l i p p' :
  l !! i = Some p →
  (count_calls P (<[i:=p']> l) + Nat.b2n (P p) = count_calls P l + Nat.b2n (P p'))%nat.
Proof.
  revert i; induction l as [|q l IH]; intros [|i] Hi; simplify_eq/=; rewrite !count_calls_cons.
  - lia.
  - specialize (IH i Hi). lia.
Qed.

Lemma count_calls_snoc P l p : count_calls P (l ++ [p]) = (count_calls P l + Nat.b2n (P p))%nat.
Proof. induction l as [|q l IH]; simpl; rewrite !count_calls_cons; [done|]. rewrite IH. lia. Qed.

Lemma count_calls_pos P l i p : l !! i = Some p → P p = true → count_calls P l ≠ 0%nat.
Proof.
  revert i; induction l as [|q l IH]; intros [|i] Hi Hp; simplify_eq/=; rewrite count_calls_cons.
  - by rewrite Hp.
  - specialize (IH i Hi Hp). lia.
Qed.

Lemma omap_insert_eq {A B} (g : A → option B) (l : list A) (i : nat) p p' :
  l !! i = Some p → g p' = g p → omap g (<[i:=p']> l) = omap g l.
Proof.
  revert i; induction l as [|q l IH]; intros [|i] Hi Hg; simplify_eq/=; [by rewrite Hg|].
  by rewrite (IH i).
Qed.

Lemma omap_insert_new {A B} (g : A → option B) (l : list A) (i : nat) p p' t :
  l !! i = Some p → g p = None → g p' = Some t → omap g (<[i:=p']> l) ≡ₚ t :: omap g l.
Proof.
  revert i; induction l as [|q l IH]; intros [|i] Hi Hp Hp'; simplify_eq/=.
  - by rewrite Hp, Hp'.
  - destruct (g q); [|by apply (IH i)]. etransitivity; [by apply perm_skip, (IH i)|constructor].
Qed.

(** ** The sequential specification

    A set of tokens and a flag, and for each operation the answers it may give:
    [subscribe] grants a new token while the flag is not ready and is refused
    afterwards; [mark_ready] answers [true] exactly to a subscribed token before
    the flag is ready; [is_ready] and [wait_ready] make the flag ready when there
    is no token, and [is_ready] answers [false] while there is one.  Calls that
    compete for the guard may also fail to get it: [subscribe] and [mark_ready]
    say so, [is_ready] answers whether the flag is ready without looking at the
    tokens. *)
Record spec := { s_ready : bool; s_tokens : gset Z }.
Definition spec_new : spec := {| s_ready := false; s_tokens := ∅ |}.
Definition spec_apply (s : option spec) (e : event) : option spec :=
  s ← s;
  match e with
  | EIsReady true b => if eqb b (s_ready s) then Some s else None
  | EIsReady false true | EWait =>
      if s_ready s then Some s
      else if bool_decide (s_tokens s = ∅) then Some {| s_ready := true; s_tokens := ∅ |}
      else None
  | EIsReady false false =>
      if s_ready s then None else if bool_decide (s_tokens s = ∅) then None else Some s
  | ESubscribe (Ok t) =>
      if s_ready s then None
      else if bool_decide (t ≠ 0 ∧ t ∉ s_tokens s)
      then Some {| s_ready := false; s_tokens := {[t]} ∪ s_tokens s |} else None
  | ESubscribe (Err FlagAlreadyReady) => if s_ready s then Some s else None
  | EMark t (Ok true) =>
      if s_ready s then None
      else if bool_decide (t ∈ s_tokens s) then Some {| s_ready := true; s_tokens := ∅ |} else None
  | EMark t (Ok false) =>
      if s_ready s then Some s else if bool_decide (t ∈ s_tokens s) then None else Some s
  | ESubscribe (Err TokenLockFailed) | EMark _ (Err TokenLockFailed) => Some s
  | EMark _ (Err FlagAlreadyReady) | ESubscribe Panic | EMark _ Panic => None
  end.
Definition spec_run (es : list (nat * event)) : option spec :=
  foldl spec_apply (Some spec_new) es.*2.

Definition grants (es : list (nat * event)) : list Z :=
  omap (λ x, match x.2 with ESubscribe (Ok t) => Some t | _ => None end) es.
Definition is_mark (x : nat * event) : bool :=
  match x.2 with EMark _ (Ok true) => true | _ => false end.

Lemma spec_run_snoc es i e s :
  spec_run (es ++ [(i, e)]) = Some s →
  ∃ s0, spec_run es = Some s0 ∧ spec_apply (Some s0) e = Some s.
Proof.
  unfold spec_run. rewrite fmap_app, foldl_app. simpl.
  destruct (foldl spec_apply (Some spec_new) es.*2) as [s0|]; [by exists s0|done].
Qed.

(** The ways in which an answer changes the state. *)
Lemma spec_apply_cases s e s' :
  spec_apply (Some s) e = Some s' →
  (∃ t, e = ESubscribe (Ok t) ∧ s_ready s = false ∧ t ≠ 0 ∧ t ∉ s_tokens s ∧
     s' = {| s_ready := false; s_tokens := {[t]} ∪ s_tokens s |}) ∨
  (∀ t, e ≠ ESubscribe (Ok t)) ∧
    (s' = s ∧ (∀ t, e ≠ EMark t (Ok true)) ∨
     s_ready s = false ∧ s' = {| s_ready := true; s_tokens := ∅ |}).
Proof.
  cbn. destruct e as [[] []|[t|[]|]|t [[]|[]|]|], s as [[] tk]; simpl; intros H;
    try case_bool_decide; simplify_eq; try (right; split; [done|]; auto; fail); try naive_solver.
Qed.

(** A run of the specification grants distinct tokens and marks at most once. *)
Lemma spec_run_facts es s :
  spec_run es = Some s →
  NoDup (grants es) ∧ (length (List.filter is_mark es) ≤ Nat.b2n (s_ready s))%nat ∧
  (s_ready s = false → s_tokens s = list_to_set (grants es)) ∧
  (s_ready s = true → s_tokens s = ∅) ∧ 0 ∉ grants es.
Proof.
  revert s; induction es as [|[i e] es IH] using rev_ind; intros s Hs.
  { injection Hs as <-. repeat split; [constructor|done|by apply not_elem_of_nil]. }
  apply spec_run_snoc in Hs as (s0 & H0 & He).
  destruct (IH s0 H0) as (Hnd & Hmk & Htk & Hemp & Hz). unfold grants in *.
  rewrite omap_app, List.filter_app, length_app.
  destruct (spec_apply_cases _ _ _ He)
    as [(t & -> & Hr & Hnz & Hnt & ->)|(Hng & [[-> Hnm]|[Hr ->]])].
  - simpl. rewrite (Htk Hr), elem_of_list_to_set in Hnt. rewrite Hr in Hmk. simpl in Hmk.
    split_and!; [| lia | intros _; rewrite (Htk Hr); set_solver | done | set_solver].
    apply NoDup_app. repeat split; [done| |apply NoDup_singleton]. set_solver.
  - replace (omap _ [(i, e)]) with (@nil Z) by (by destruct e as [| [t| |]| |]; simpl; try (by destruct (Hng t))).
    replace (List.filter is_mark [(i, e)]) with (@nil (nat * event))
      by (by destruct e as [| |t [[]| |]|]; simpl; try (by destruct (Hnm t))).
    rewrite app_nil_r, Nat.add_0_r. done.
  - replace (omap _ [(i, e)]) with (@nil Z) by (by destruct e as [| [t| |]| |]; simpl; try (by destruct (Hng t))).
    rewrite app_nil_r. rewrite Hr in Hmk. simpl in Hmk.
    assert (length (List.filter is_mark [(i, e)]) ≤ 1)%nat by (simpl; case_match; simpl; lia).
    split_and!; try done; simpl in *; lia.
Qed.

(** Once there is a token, there is one until the flag is ready. *)
Definition occupied (s : spec) : Prop := s_ready s = true ∨ s_tokens s ≠ ∅.

Lemma spec_apply_occupied s e s' : spec_apply (Some s) e = Some s' → occupied s → occupied s'.
Proof.
  intros He Ho. destruct (spec_apply_cases _ _ _ He)
    as [(t & _ & _ & _ & _ & ->)|(_ & [[-> _]|[_ ->]])]; [|done|by left].
  right. simpl. set_solver.
Qed.

(** ** The invariant *)

(** What a call knows of the flag. *)
Definition pc_ok (f : ReadinessFlag) (p : pc) : Prop :=
  match p with
  | IsReady_swap _ => tokens f = ∅
  | Subscribe_loop => ready f = false
  | Mark_store t => ready f = false ∧ t ∉ tokens f
  | Mark_unlock => ready f = true ∧ tokens f = ∅
  | IsReady_drop _ _ | IsReady_send _ | Mark_clear | Mark_send
  | Done (RIsReady true) | Done (RMark (Ok true)) | Done RWait => ready f = true
  | Wait_borrow r | Wait_changed r | Wait_check r => w_from r (tx f)
  | _ => True
  end.

Record inv (w : world) : Prop := {
  inv_lock i p : calls w !! i = Some p → holding p = true → locked (flag w) = Some i;
  inv_pc i p : calls w !! i = Some p → pc_ok (flag w) p;
  inv_ready :
    ready (flag w) = true → tokens (flag w) = ∅ ∨ ∃ i, calls w !! i = Some Mark_clear;
  inv_zero : 0 ∉ tokens (flag w);
  inv_borrow r : w_borrow r (tx (flag w)) = true → ready (flag w) = true;
  inv_count : receiver_count (tx (flag w)) = count_calls (λ p, is_some (receiver p)) (calls w);
}.

Lemma start_plain o : holding (start o) = false ∧ receiver (start o) = None ∧
  granted_token (start o) = None ∧ marked (start o) = false ∧ ∀ f, pc_ok f (start o).
Proof. by destruct o. Qed.

(** What a call knows survives the steps of the others. *)
Lemma pc_ok_frame w i j p f' p' q e :
  inv w → i ≠ j → calls w !! i = Some p → (f', p', e) ∈ step_call i (flag w) p →
  calls w !! j = Some q → pc_ok f' q ∧ (holding q = true → locked f' = Some j).
Proof.
  intros Hinv Hij Hi Hstep Hj.
  pose proof (inv_pc w Hinv j q Hj) as Hq. pose proof (inv_lock w Hinv j q Hj) as Hlq.
  pose proof (inv_lock w Hinv i p Hi) as Hlp.
  pose proof (step_call_ready _ _ _ _ _ _ Hstep) as Hr.
  pose proof (λ r, step_call_from _ _ _ _ _ _ r Hstep) as Hf.
  destruct (step_call_effect _ _ _ _ _ _ Hstep)
    as [(_ & _ & Er & Et & El)|[(_ & _ & El & Er & Et & El')|(Hp & _)]].
  - split; [|rewrite El; done].
    destruct q; simpl in *; rewrite ?Er, ?Et; try done; try (by apply Hf).
  - split; [|intros Hh; rewrite (Hlq Hh) in El; done].
    destruct q; simpl in *; rewrite ?Er, ?Et; try done; try (by apply Hf).
  - assert (holding q = false) as Hh.
    { destruct (holding q); [|done]. rewrite Hlp in Hlq by done. naive_solver. }
    split; [|congruence]. destruct q; simpl in *; try done; auto. repeat case_match; auto.
Qed.

Lemma try_token_Some z s t : try_token z s = Some t ↔ t = z ∧ z ≠ 0 ∧ z ∉ s.
Proof. unfold try_token. repeat case_bool_decide; simpl; naive_solver. Qed.

(** A call that holds the guard sees no token once the flag is ready, unless it
    is about to clear them. *)
Lemma guarded_tokens w i p :
  inv w → calls w !! i = Some p → holding p = true → p ≠ Mark_clear →
  ready (flag w) = true → tokens (flag w) = ∅.
Proof.
  intros Hinv Hi Hh Hne Ht. destruct (inv_ready w Hinv Ht) as [?|[j Hj]]; [done|].
  pose proof (inv_lock w Hinv j _ Hj eq_refl) as Hlj.
  rewrite (inv_lock w Hinv i p Hi Hh) in Hlj. congruence.
Qed.

(** A step of a call establishes what the call knows next. *)
Lemma own_pc_ok w i p f' p' e :
  inv w → calls w !! i = Some p → (f', p', e) ∈ step_call i (flag w) p → pc_ok f' p'.
Proof.
  intros Hinv Hi Hstep.
  pose proof (inv_pc w Hinv i p Hi) as Hp. pose proof (inv_borrow w Hinv) as Hb.
  pose proof (guarded_tokens w i p Hinv Hi) as Hempty. destruct w as [f cs es]; simpl in *.
  destruct p; call_cases Hstep; try case_bool_decide; simplify_eq/=;
    repeat match goal with |- context [match ?b with _ => _ end] => destruct b eqn:? end;
    try done; eauto using subscribed_from, seen_from, not_true_is_false; [|by destruct Hp].
  split; [|set_solver]. apply not_true_is_false. intros Ht.
  specialize (Hempty eq_refl ltac:(done) Ht). set_solver.
Qed.

Lemma own_lock w i p f' p' e :
  inv w → calls w !! i = Some p → (f', p', e) ∈ step_call i (flag w) p →
  holding p' = true → locked f' = Some i.
Proof.
  intros Hinv Hi Hstep Hp'. pose proof (inv_lock w Hinv i p Hi) as Hl.
  destruct (step_call_effect _ _ _ _ _ _ Hstep) as [Ha|[Ha|(Hp & [[E _]|[_ Hn]])]].
  - destruct Ha as (_ & Hn & _). congruence.
  - by destruct Ha as (_ & _ & _ & _ & _ & ?).
  - by rewrite E, Hl.
  - congruence.
Qed.

Lemma step_call_zero i f p f' p' e :
  (f', p', e) ∈ step_call i f p → 0 ∉ tokens f → 0 ∉ tokens f'.
Proof.
  intros Hstep Hz. destruct p; call_cases Hstep; try done; [|set_solver..].
  apply try_token_Some in Heqo as (-> & ? & ?). set_solver.
Qed.

Lemma own_borrow w i p f' p' e r :
  inv w → calls w !! i = Some p → (f', p', e) ∈ step_call i (flag w) p →
  w_borrow r (tx f') = true → ready f' = true.
Proof.
  intros Hinv Hi Hstep. pose proof (inv_pc w Hinv i p Hi) as Hp.
  pose proof (inv_borrow w Hinv) as Hb. destruct w as [f cs es]; simpl in *.
  destruct p; call_cases Hstep; rewrite ?drop_borrow, ?subscribe_borrow; eauto.
Qed.

Lemma own_count w i p f' p' e :
  inv w → calls w !! i = Some p → (f', p', e) ∈ step_call i (flag w) p →
  receiver_count (tx f') = count_calls (λ p, is_some (receiver p)) (<[i:=p']> (calls w)).
Proof.
  intros Hinv Hi Hstep. pose proof (inv_count w Hinv) as Hc.
  pose proof (count_calls_insert (λ p, is_some (receiver p)) _ i p p' Hi) as Hins.
  pose proof (count_calls_pos (λ p, is_some (receiver p)) _ i p Hi) as Hpos.
  destruct w as [f cs es]; simpl in *.
  destruct p; call_cases Hstep; rewrite ?drop_count, ?subscribe_count, ?send_count;
    try (destruct wait; simpl in * ); try (specialize (Hpos eq_refl)); lia.
Qed.

Lemma own_ready w i p f' p' e :
  inv w → calls w !! i = Some p → (f', p', e) ∈ step_call i (flag w) p →
  ready f' = true → tokens f' = ∅ ∨ p' = Mark_clear ∨ ∃ j, j ≠ i ∧ calls w !! j = Some Mark_clear.
Proof.
  intros Hinv Hi Hstep. pose proof (inv_pc w Hinv i p Hi) as Hp.
  assert (ready (flag w) = true → p ≠ Mark_clear →
    tokens (flag w) = ∅ ∨ ∃ j, j ≠ i ∧ calls w !! j = Some Mark_clear) as Hr.
  { intros Ht Hne. destruct (inv_ready w Hinv Ht) as [?|[j Hj]]; [by left|right].
    exists j. split; [|done]. intros ->. congruence. }
  destruct w as [f cs es]; simpl in *.
  destruct p; call_cases Hstep; intros Ht; try (by left); try (by right; left);
    try congruence; (destruct Hr as [E|?]; [done|done| |by right; right]); left; try done.
  rewrite E. set_solver.
Qed.

Lemma inv_step w w' : inv w → step w w' → inv w'.
Proof.
  intros Hinv [c Hst]. destruct Hst as [w o|w i p f' p' e Hi Hstep].
  - destruct (start_plain o) as (Hh & Hrc & _ & _ & Hok).
    split; simpl; try apply Hinv.
    + intros j q [Hj|[_ Hj]]%lookup_app_Some; [by apply Hinv|].
      apply list_lookup_singleton_Some in Hj as [_ <-]. congruence.
    + intros j q [Hj|[_ Hj]]%lookup_app_Some; [by eapply Hinv|].
      apply list_lookup_singleton_Some in Hj as [_ <-]. apply Hok.
    + intros Ht. destruct (inv_ready w Hinv Ht) as [?|[j Hj]]; [by left|right].
      exists j. by apply lookup_app_l_Some.
    + rewrite count_calls_snoc, Hrc, (inv_count w Hinv). simpl. lia.
  - split; simpl.
    + intros j q [(<- & <- & _)|[Hij Hj]]%list_lookup_insert_Some; [by eapply own_lock|].
      by eapply pc_ok_frame.
    + intros j q [(<- & <- & _)|[Hij Hj]]%list_lookup_insert_Some; [by eapply own_pc_ok|].
      by eapply pc_ok_frame.
    + intros Ht. destruct (own_ready _ _ _ _ _ _ Hinv Hi Hstep Ht) as [?|[->|(j & Hj & Hc)]];
        [by left|right; exists i|right; exists j].
      * apply list_lookup_insert_eq. by eapply lookup_lt_Some.
      * by rewrite list_lookup_insert_ne.
    + eapply step_call_zero; [done|apply Hinv].
    + intros r. by eapply own_borrow.
    + by eapply own_count.
Qed.

Lemma inv_initial : inv initial.
Proof.
  split; simpl; try (by intros ?? [=]); try done.
  - intros r. by rewrite new_borrow.
  - by rewrite new_count.
Qed.

Lemma reachable_inv w : reachable w → inv w.
Proof.
  intros Hr. pattern w. eapply rtc_ind_r; [apply inv_initial| |exact Hr].
  intros w1 w2 _ Hs Hi. by eapply inv_step.
Qed.

(** ** Linearizability *)

(** The answers of one call. *)
Definition history (i : nat) (es : list (nat * event)) : list event :=
  omap (λ x, if decide (x.1 = i) then Some x.2 else None) es.

(** What an operation that returned an outcome has answered: one answer of its
    own, which is the one returned; a call whose future was dropped has none. *)
Definition answered (o : op) (r : outcome) (h : list event) : Prop :=
  match o, r with
  | OpIsReady, RIsReady b => ∃ contended, h = [EIsReady contended b]
  | OpSubscribe, RSubscribe r => h = [ESubscribe r]
  | OpMark t, RMark r => h = [EMark t r]
  | OpWait, RWait => h = [EWait]
  | OpSubscribe, Cancelled | OpMark _, Cancelled | OpWait, Cancelled => h = []
  | _, _ => False
  end.

(** The same for a call in progress. *)
Definition is_ready_op (wait : bool) : op := if wait then OpWait else OpIsReady.
Definition call_history (o : op) (p : pc) (h : list event) : Prop :=
  match p with
  | IsReady_drop k _ | IsReady_send k => o = is_ready_op k ∧ h = option_list (ready_answer k false true)
  | IsReady_load k | IsReady_try_lock k | IsReady_is_empty k | IsReady_swap k
  | IsReady_reload k _ => o = is_ready_op k ∧ h = []
  | Subscribe_load | Subscribe_lock | Subscribe_recheck | Subscribe_loop => o = OpSubscribe ∧ h = []
  | Subscribe_unlock t => o = OpSubscribe ∧ h = [ESubscribe (Ok t)]
  | Mark_load t | Mark_lock t | Mark_remove t | Mark_store t => o = OpMark t ∧ h = []
  | Mark_clear | Mark_unlock | Mark_send => ∃ t, o = OpMark t ∧ h = [EMark t (Ok true)]
  | Wait_subscribe | Wait_borrow _ | Wait_changed _ | Wait_check _ => o = OpWait ∧ h = []
  | Done r => answered o r h
  end.

Lemma own_history o i f p f' p' e h :
  (f', p', e) ∈ step_call i f p → call_history o p h → call_history o p' (h ++ option_list e).
Proof.
  intros Hstep Hh. destruct p; call_cases Hstep; try done;
    first [destruct Hh as [-> ->]|destruct Hh as (? & -> & ->)]; simpl; rewrite ?app_nil_r; eauto.
Qed.

Lemma history_app i es es' : history i (es ++ es') = history i es ++ history i es'.
Proof. apply omap_app. Qed.

Lemma history_own i e : history i ((i,.) <$> option_list e) = option_list e.
Proof. destruct e; simpl; by rewrite ?decide_True. Qed.

Lemma history_other i j e : i ≠ j → history j ((i,.) <$> option_list e) = [].
Proof. intros Hij. destruct e; simpl; by rewrite ?decide_False. Qed.

(** Every call has answered what it returns, and every answer is of a call. *)
Record accounted (w : world) : Prop := {
  acc_length : length (ops w) = length (calls w);
  acc_history i o p :
    ops w !! i = Some o → calls w !! i = Some p → call_history o p (history i (events w));
  acc_calls i e : (i, e) ∈ events w → (i < length (calls w))%nat;
}.

Lemma accounted_initial : accounted initial.
Proof. split; simpl; [done|done|]. intros i e. by rewrite elem_of_nil. Qed.

Lemma history_fresh w : accounted w → history (length (calls w)) (events w) = [].
Proof.
  intros [_ _ Hc]. destruct (history _ _) as [|e h] eqn:E; [done|exfalso].
  assert (e ∈ history (length (calls w)) (events w)) as Hin by (rewrite E; left).
  apply list_elem_of_omap in Hin as ([i e'] & Hin & Hx). simpl in Hx. case_decide; [|done].
  apply Hc in Hin. lia.
Qed.

Lemma accounted_step w w' : accounted w → step w w' → accounted w'.
Proof.
  intros Hacc [c Hst]. pose proof Hacc as [Hl Hh Hc].
  destruct Hst as [w o|w i p f' p' e Hi Hstep]; split; simpl.
  - rewrite !length_app. simpl. lia.
  - intros i o' p [Ho|[Hge Ho]]%lookup_app_Some Hp.
    + apply lookup_app_Some in Hp as [Hp|[Hge Hp]]; [by apply Hh|].
      apply lookup_lt_Some in Ho. lia.
    + apply list_lookup_singleton_Some in Ho as [Hz <-].
      assert (i = length (calls w)) as -> by lia.
      rewrite lookup_app_r, Nat.sub_diag in Hp by lia. injection Hp as <-.
      rewrite history_fresh by done. by destruct o.
  - intros i e He%Hc. rewrite length_app. lia.
  - by rewrite length_insert.
  - intros j o q Ho. rewrite history_app.
    intros [(<- & <- & _)|[Hij Hj]]%list_lookup_insert_Some.
    + rewrite history_own. eapply own_history; [done|by apply Hh].
    + rewrite history_other, app_nil_r by done. by apply Hh.
  - intros j e' [Hin|Hin]%elem_of_app; rewrite length_insert; [by eapply Hc|].
    apply list_elem_of_fmap in Hin as (? & [= -> ->] & _). by eapply lookup_lt_Some.
Qed.

Lemma reachable_accounted w : reachable w → accounted w.
Proof.
  intros Hr. pattern w. eapply rtc_ind_r; [apply accounted_initial| |exact Hr].
  intros w1 w2 _ Hs Hi. by eapply accounted_step.
Qed.

(** *** Contention

    Only a call that competes with another one reports that the guard was taken. *)
Definition was_busy (e : event) : bool :=
  match e with
  | EIsReady true _ | ESubscribe (Err TokenLockFailed) | EMark _ (Err TokenLockFailed) => true
  | _ => false
  end.

Record contention (w : world) : Prop := {
  con_holder i : locked (flag w) = Some i → ∃ p, calls w !! i = Some p ∧ holding p = true;
  con_reload i k :
    calls w !! i = Some (IsReady_reload k true) → ∃ j, j ≠ i ∧ (j < length (calls w))%nat;
  con_events i e :
    (i, e) ∈ events w → was_busy e = true → ∃ j, j ≠ i ∧ (j < length (calls w))%nat;
}.

Lemma own_contention i f p f' p' e :
  (f', p', e) ∈ step_call i f p →
  (∃ k, p' = IsReady_reload k true) ∨ (∃ e', e = Some e' ∧ was_busy e' = true) →
  holding p = false ∧ (∃ j, locked f = Some j) ∨ ∃ k, p = IsReady_reload k true.
Proof.
  intros Hstep. destruct p; call_cases Hstep;
    (intros [[k' ?]|(e' & ? & ?)]; simplify_eq/=); try done; eauto; by destruct contended; eauto.
Qed.

Lemma contention_step w w' : inv w → contention w → step w w' → contention w'.
Proof.
  intros Hinv Hcon [c Hst]. pose proof Hcon as [Hh Hr He].
  destruct Hst as [w o|w i p f' p' e Hi Hstep].
  - split; simpl.
    + intros i (p & Hp & ?)%Hh. exists p. by rewrite (lookup_app_l_Some _ _ _ _ Hp).
    + intros i k [(j & ? & ?)%Hr|[_ Hs]]%lookup_app_Some.
      * exists j. rewrite length_app. lia.
      * apply list_lookup_singleton_Some in Hs as [_ Hs]. by destruct o.
    + intros i e Hin Hc. destruct (He i e Hin Hc) as (j & ? & ?). exists j. rewrite length_app. lia.
  - assert ((∃ k, p' = IsReady_reload k true) ∨ (∃ e', e = Some e' ∧ was_busy e' = true) →
      ∃ j, j ≠ i ∧ (j < length (calls w))%nat) as Hown.
    { intros H. destruct (own_contention _ _ _ _ _ _ Hstep H) as [[Hnh [j Hj]]|[k ->]]; [|by eapply Hr].
      destruct (Hh j Hj) as (q & Hq & Hhq). exists j. split; [|by eapply lookup_lt_Some].
      intros ->. congruence. }
    split; simpl.
    + intros j Hj. destruct (decide (i = j)) as [->|Hij].
      * exists p'. rewrite list_lookup_insert_eq by (by eapply lookup_lt_Some). split; [done|].
        destruct (step_call_effect _ _ _ _ _ _ Hstep)
          as [(Hn & _ & _ & _ & El)|[(_ & ? & _)|(_ & [[_ ?]|[El _]])]]; [|done|done|congruence].
        rewrite El in Hj. destruct (Hh j Hj) as (q & Hq & ?). congruence.
      * assert (locked (flag w) = Some j) as Hl.
        { pose proof (inv_lock w Hinv i p Hi) as Hlp.
          destruct (step_call_effect _ _ _ _ _ _ Hstep)
            as [(_ & _ & _ & _ & El)|[(_ & _ & _ & _ & _ & El)|(Hp & [[El _]|[El _]])]];
            [congruence..|rewrite <-El; done|congruence]. }
        destruct (Hh j Hl) as (q & Hq & ?). exists q. by rewrite list_lookup_insert_ne.
    + intros j k. rewrite length_insert.
      intros [(<- & -> & _)|[Hij Hj]]%list_lookup_insert_Some; [eauto|by eapply Hr].
    + intros j e' [Hin|Hin]%elem_of_app Hc; rewrite length_insert; [by eapply He|].
      apply list_elem_of_fmap in Hin as (? & [= -> <-] & Ho).
      apply Hown. right. exists e'. destruct e; simpl in Ho; [|by apply elem_of_nil in Ho].
      by apply list_elem_of_singleton in Ho as <-.
Qed.

Lemma reachable_contention w : reachable w → contention w.
Proof.
  intros Hr. pattern w. eapply rtc_ind_r; [| |exact Hr].
  - split; simpl; try done. intros i e. by rewrite elem_of_nil.
  - intros w1 w2 H1 Hs Hi. eapply contention_step; [by apply reachable_inv|done..].
Qed.

(** *** The simulation *)

(** A state of the specification for a world: between the removal of its token
    and the store, a call of [mark_ready] has not yet passed its linearization
    point; a call of [is_ready] that found a token remembers it. *)
Record simulates (s : spec) (w : world) : Prop := {
  sim_run : spec_run (events w) = Some s;
  sim_ready : s_ready s = ready (flag w);
  sim_tokens x :
    s_ready s = false → x ∈ s_tokens s ↔ x ∈ tokens (flag w) ∨ Mark_store x ∈ calls w;
  sim_reload k : IsReady_reload k false ∈ calls w → occupied s;
  sim_grants : omap granted_token (calls w) ≡ₚ grants (events w);
  sim_marks : count_calls marked (calls w) = length (List.filter is_mark (events w));
}.

Lemma sim_initial : simulates spec_new initial.
Proof. split; simpl; try done; [intros x _; set_solver|]. intros k. by rewrite elem_of_nil. Qed.

(** The tokens and marks of the calls change exactly with the events. *)
Lemma own_results w i p f' p' e :
  calls w !! i = Some p → (f', p', e) ∈ step_call i (flag w) p →
  omap granted_token (<[i:=p']> (calls w)) ≡ₚ
    grants ((i,.) <$> option_list e) ++ omap granted_token (calls w) ∧
  count_calls marked (<[i:=p']> (calls w)) =
    (count_calls marked (calls w) + length (List.filter is_mark ((i,.) <$> option_list e)))%nat.
Proof.
  intros Hi Hstep. pose proof (count_calls_insert marked _ i p p' Hi) as Hm.
  assert (granted_token p' = granted_token p ∧ grants ((i,.) <$> option_list e) = [] ∨
    ∃ t, granted_token p = None ∧ granted_token p' = Some t ∧
      grants ((i,.) <$> option_list e) = [t]) as Hg.
  { destruct p; call_cases Hstep; try (destruct wait); try (destruct (ready f')); eauto 6. }
  split.
  - destruct Hg as [[Hg ->]|(t & H1 & H2 & ->)].
    + by rewrite (omap_insert_eq granted_token _ _ p p').
    + by rewrite (omap_insert_new granted_token _ _ p p' t).
  - destruct p; call_cases Hstep; repeat case_match; simpl in *; lia.
Qed.

Lemma storing_unique w i p x :
  inv w → calls w !! i = Some p → holding p = true → Mark_store x ∈ calls w → p = Mark_store x.
Proof.
  intros Hinv Hi Hh Hin. apply list_elem_of_lookup_1 in Hin as [j Hj].
  pose proof (inv_lock w Hinv j _ Hj eq_refl) as Hlj.
  rewrite (inv_lock w Hinv i p Hi Hh) in Hlj. congruence.
Qed.

Lemma storing_insert w i p p' x :
  inv w → calls w !! i = Some p →
  Mark_store x ∈ <[i:=p']> (calls w) ↔ p' = Mark_store x ∨ p ≠ Mark_store x ∧ Mark_store x ∈ calls w.
Proof.
  intros Hinv Hi. rewrite !list_elem_of_lookup. split.
  - intros [j [(_ & <- & _)|[Hij Hj]]%list_lookup_insert_Some]; [by left|right].
    split; [|by exists j]. intros ->.
    pose proof (inv_lock w Hinv j _ Hj eq_refl) as Hlj.
    rewrite (inv_lock w Hinv i _ Hi eq_refl) in Hlj. congruence.
  - intros [->|[Hne [j Hj]]].
    + exists i. apply list_lookup_insert_eq. by eapply lookup_lt_Some.
    + exists j. rewrite list_lookup_insert_ne; [done|]. intros ->. congruence.
Qed.

(** The steps that change the state of the specification. *)
Definition acts (p : pc) : bool :=
  match p with IsReady_swap _ | Subscribe_loop | Mark_store _ => true | _ => false end.

(** The other steps leave the flag and the tokens of the specification alone. *)
Lemma silent_step i f p f' p' e :
  (f', p', e) ∈ step_call i f p → acts p = false → pc_ok f p →
  ready f = ready f' ∧
  (ready f = false →
    (tokens f' = tokens f ∧ (∀ x, p ≠ Mark_store x) ∧ (∀ x, p' ≠ Mark_store x)) ∨
    (∃ t, p = Mark_remove t ∧ t ∈ tokens f ∧ tokens f' = tokens f ∖ {[t]} ∧ p' = Mark_store t)).
Proof.
  intros Hstep Ha Hp. destruct p; try done; call_cases Hstep; try (split; [congruence|]);
    try (intros; congruence); try (by intros _; left; repeat split; intros; repeat case_match).
  intros _. right. exists t. by case_bool_decide.
Qed.

(** Their answers are those the specification gives in its present state. *)
Lemma silent_answer s i f p f' p' e :
  (f', p', e) ∈ step_call i f p → acts p = false → pc_ok f p → (∀ r, w_borrow r (tx f) = true → ready f = true) →
  s_ready s = ready f →
  (∀ t, p = Mark_remove t → t ∉ tokens f → s_ready s = false → t ∉ s_tokens s) →
  (0 ∉ s_tokens s) → (∀ k, p = IsReady_reload k false → occupied s) →
  foldl spec_apply (Some s) (option_list e) = Some s.
Proof.
  intros Hstep Ha Hp Hb Hr Hrm Hz Ho.
  destruct s as [sr st]; simpl in *; subst sr.
  destruct p; try done; call_cases Hstep; try done; simpl;
    repeat match goal with
    | H : ready ?f = ?b |- context [ready ?f] => rewrite H
    | H : w_borrow _ _ = true |- _ => apply Hb in H
    end; try done.
  - destruct contended, (ready f') eqn:E; try done.
    destruct (Ho false eq_refl) as [?|?]; [done|]. by rewrite bool_decide_false.
  - case_bool_decide; [|done]. rewrite bool_decide_false; [done|]. by subst.
  - destruct (ready f) eqn:E; [done|]. case_bool_decide as Hin; [done|].
    by rewrite bool_decide_false by eauto.
Qed.

Lemma own_sim_silent s w i p f' p' e :
  inv w → simulates s w → calls w !! i = Some p → (f', p', e) ∈ step_call i (flag w) p →
  acts p = false →
  foldl spec_apply (Some s) (option_list e) = Some s ∧ s_ready s = ready f' ∧
    ∀ x, s_ready s = false →
      x ∈ s_tokens s ↔ x ∈ tokens f' ∨ Mark_store x ∈ <[i:=p']> (calls w).
Proof.
  intros Hinv Hsim Hi Hstep Ha. pose proof (inv_pc w Hinv i p Hi) as Hp.
  pose proof (λ x, storing_unique w i p x Hinv Hi) as Hu.
  destruct Hsim as [Hrun Hr Htk Hrl _ _].
  destruct (spec_run_facts _ _ Hrun) as (_ & _ & Hset & Hemp & Hz).
  destruct (silent_step i (flag w) p f' p' e Hstep Ha Hp) as [E Hq]. split_and!.
  - eapply silent_answer; try done; [apply Hinv|..].
    + intros t -> Hnt Hs. rewrite Htk by done. intros [?|Hin]; [done|]. by apply Hu in Hin.
    + destruct (s_ready s) eqn:Es; [rewrite Hemp by done; set_solver|].
      rewrite Hset by done. by rewrite elem_of_list_to_set.
    + intros k ->. eapply Hrl, list_elem_of_lookup_2, Hi.
  - congruence.
  - intros x Hx. rewrite (Htk x Hx), (storing_insert w i p p' x Hinv Hi).
    destruct (Hq ltac:(congruence)) as [(-> & Hn & Hn')|(t & -> & Ht & -> & ->)]; [naive_solver|].
    split.
    + intros [Hin|Hin]; [|by apply Hu in Hin].
      destruct (decide (x = t)) as [->|]; [by right; left|left; set_solver].
    + intros [Hin|[[= ->]|[_ Hin]]]; [left; set_solver|by left|by right].
Qed.

(** A grant, a mark and a flag that becomes ready by itself. *)
Lemma own_sim_acts s w i p f' p' e :
  inv w → simulates s w → calls w !! i = Some p → (f', p', e) ∈ step_call i (flag w) p →
  acts p = true →
  ∃ s', foldl spec_apply (Some s) (option_list e) = Some s' ∧ s_ready s' = ready f' ∧
    ∀ x, s_ready s' = false →
      x ∈ s_tokens s' ↔ x ∈ tokens f' ∨ Mark_store x ∈ <[i:=p']> (calls w).
Proof.
  intros Hinv Hsim Hi Hstep Ha. pose proof (inv_pc w Hinv i p Hi) as Hp.
  pose proof (λ x, storing_unique w i p x Hinv Hi) as Hu.
  assert (∀ x, Mark_store x ∈ <[i:=p']> (calls w) ↔
    p' = Mark_store x ∨ p ≠ Mark_store x ∧ Mark_store x ∈ calls w) as Hins
    by (intros; by apply storing_insert).
  destruct Hsim as [Hrun Hr Htk _ _ _]. destruct (spec_run_facts _ _ Hrun) as (_ & _ & _ & Hemp & _).
  destruct w as [f os cs es], s as [sr st]; simpl in *; subst sr.
  destruct p as [| | |k| | | | | | |  | | | | |t| | | | | | | |]; try done; simpl in Hp.
  - assert (∀ x, ready f = false → x ∉ st) as Hno.
    { intros x Er. rewrite Htk by done. intros [Hx|Hx]; [by rewrite Hp in Hx|]. by apply Hu in Hx. }
    call_cases Hstep; destruct (ready f) eqn:Er; simpl; try (by eexists);
      (rewrite bool_decide_true; [by eexists|set_solver]).
  - call_cases Hstep.
    + apply try_token_Some in Heqo as (-> & Hnz & Hnt). rewrite Hp in *. rewrite bool_decide_true.
      * eexists; split; [done|]. split; [done|]. intros x _. simpl.
        rewrite elem_of_union, elem_of_singleton, Htk, Hins by done. set_solver.
      * split; [done|]. rewrite Htk by done. intros [?|Hin]; [done|]. by apply Hu in Hin.
    + eexists; split; [done|]. split; [done|]. intros x Hx. simpl in *. rewrite Htk, Hins by done. naive_solver.
  - destruct Hp as [Er _]. call_cases Hstep. rewrite Er in *. rewrite bool_decide_true; [by eexists|].
    apply Htk; [done|]. right. by eapply list_elem_of_lookup_2.
Qed.

(** The state of the specification after the event of a step. *)
Lemma own_sim s w i p f' p' e :
  inv w → simulates s w → calls w !! i = Some p → (f', p', e) ∈ step_call i (flag w) p →
  ∃ s', foldl spec_apply (Some s) (option_list e) = Some s' ∧ s_ready s' = ready f' ∧
    ∀ x, s_ready s' = false →
      x ∈ s_tokens s' ↔ x ∈ tokens f' ∨ Mark_store x ∈ <[i:=p']> (calls w).
Proof.
  intros Hinv Hsim Hi Hstep. destruct (acts p) eqn:Ha; [by eapply own_sim_acts|].
  exists s. by eapply own_sim_silent.
Qed.

(** A call of [is_ready] that goes on to its second load has found a token. *)
Lemma own_reload s w i p f' p' e s' k :
  inv w → simulates s w → calls w !! i = Some p → (f', p', e) ∈ step_call i (flag w) p →
  foldl spec_apply (Some s) (option_list e) = Some s' →
  IsReady_reload k false ∈ <[i:=p']> (calls w) → occupied s'.
Proof.
  intros Hinv Hsim Hi Hstep Hs Hin.
  assert (occupied s → occupied s') as Hocc.
  { destruct e as [e|]; simpl in Hs; [by eapply spec_apply_occupied|by injection Hs as <-]. }
  apply list_elem_of_lookup_1 in Hin as [j [(_ & -> & _)|[_ Hj]]%list_lookup_insert_Some].
  - assert (tokens (flag w) ≠ ∅) as Hne.
    { destruct p; call_cases Hstep; try case_bool_decide; done. }
    apply Hocc. destruct (s_ready s) eqn:E; [by left|right].
    apply set_choose_L in Hne as [x Hx]. intros Es.
    assert (x ∈ s_tokens s) by (apply (sim_tokens _ _ Hsim); auto). set_solver.
  - by eapply Hocc, (sim_reload _ _ Hsim), list_elem_of_lookup_2.
Qed.

Lemma simulates_step s w w' :
  inv w → simulates s w → step w w' → ∃ s', simulates s' w'.
Proof.
  intros Hinv Hsim [c Hst]. pose proof Hsim as [Hrun Hr Htk Hrl Hg Hm].
  destruct Hst as [w o|w i p f' p' e Hi Hstep].
  - destruct (start_plain o) as (_ & _ & Hgt & Hmk & _). exists s. split; simpl; try done.
    + intros x Hx. rewrite Htk, elem_of_app, list_elem_of_singleton by done.
      assert (Mark_store x ≠ start o) by (by destruct o). naive_solver.
    + intros k [?|Hs%list_elem_of_singleton]%elem_of_app; [by eapply Hrl|by destruct o].
    + rewrite omap_app. simpl. by rewrite Hgt, app_nil_r.
    + rewrite count_calls_snoc, Hmk. simpl. lia.
  - destruct (own_sim s w i p f' p' e) as (s' & Hs' & Hr' & Htk'); try done.
    destruct (own_results w i p f' p' e Hi Hstep) as [Hg' Hm'].
    exists s'. split; simpl; try done.
    + unfold spec_run in *. rewrite fmap_app, foldl_app, Hrun. by destruct e.
    + intros k. by eapply own_reload.
    + rewrite Hg', Hg. unfold grants. rewrite omap_app. apply Permutation_app_comm.
    + rewrite Hm', Hm, List.filter_app, length_app. done.
Qed.

Lemma reachable_simulates w : reachable w → ∃ s, simulates s w.
Proof.
  intros Hr. pattern w. eapply rtc_ind_r; [by exists spec_new; apply sim_initial| |exact Hr].
  intros w1 w2 H1 Hs [s Hsim]. eapply simulates_step; [|done..]. by apply reachable_inv.
Qed.


(** ** Waking up *)

(** The calls that made the flag ready and have not yet broadcast it. *)
Definition sending (p : pc) : bool :=
  match p with
  | IsReady_drop _ false | IsReady_send _ | Mark_clear | Mark_unlock | Mark_send => true
  | _ => false
  end.

(** [woken r p f]: the call at [p] waits with [r] and has been notified. *)
Definition woken (r : R) (p : pc) (f : ReadinessFlag) : Prop :=
  w_borrow r (tx f) = true ∧ (p = Wait_changed r → w_has_changed r (tx f) = true).

Lemma step_call_keeps_true i f p f' p' e r :
  (f', p', e) ∈ step_call i f p → w_borrow r (tx f) = true → w_borrow r (tx f') = true.
Proof.
  intros Hstep Hb. assert (w_borrow r (w_send true (tx f)) = true).
  { destruct (decide (receiver_count (tx f) = 0%nat)); [by rewrite send_closed|by apply send_borrow]. }
  destruct p; call_cases Hstep; rewrite ?subscribe_borrow, ?drop_borrow; done.
Qed.

Lemma step_call_keeps_changed i f p f' p' e r :
  (f', p', e) ∈ step_call i f p → receiver_count (tx f) ≠ 0%nat → w_from r (tx f) →
  w_has_changed r (tx f) = true → w_has_changed r (tx f') = true.
Proof.
  intros Hstep Hc Hf Hb.
  destruct p; call_cases Hstep; rewrite ?subscribe_changed, ?drop_changed; try done;
    by apply send_changed.
Qed.

(** Making the flag ready obliges the call to broadcast; the broadcast reaches
    every registered receiver. *)
Lemma step_call_sending i f p f' p' e :
  (f', p', e) ∈ step_call i f p →
  (ready f = false → ready f' = false ∨ sending p' = true) ∧
  (sending p = true → sending p' = true ∨
     ∀ r, receiver_count (tx f) ≠ 0%nat → w_from r (tx f) →
       w_borrow r (tx f') = true ∧ w_has_changed r (tx f') = true).
Proof.
  intros Hstep. split.
  - intros Hr. destruct p; call_cases Hstep; rewrite ?Hr; auto.
  - intros Hs. destruct p; try done; call_cases Hstep; auto;
      right; intros r Hc Hf; (split; [by apply send_borrow|by apply send_changed]).
Qed.

(** The call [i] has returned; or it has a receiver, and it has been notified or
    the broadcast is still to come (if [pending] allows that). *)
Definition attended (pending : Prop) (i : nat) (w : world) : Prop :=
  (∃ o, calls w !! i = Some (Done o) ∧ (o = RWait ∨ o = Cancelled)) ∨
  ∃ p r, calls w !! i = Some p ∧ receiver p = Some r ∧
    (pending ∧ ready (flag w) = false ∨
     pending ∧ (∃ j q, calls w !! j = Some q ∧ sending q = true) ∨ woken r p (flag w)).

Lemma attended_own P i w p f' p' e :
  inv w → attended P i w → calls w !! i = Some p → (f', p', e) ∈ step_call i (flag w) p →
  attended P i (moved w i f' p' e).
Proof.
  intros Hinv Ha Hi Hstep.
  destruct Ha as [(o & Ho & _)|(p0 & r & Hp0 & Hr & Hcase)].
  { rewrite Hi in Ho. injection Ho as ->. by call_cases Hstep. }
  rewrite Hi in Hp0. injection Hp0 as <-.
  assert (length (calls w) > i)%nat as Hlen by (by eapply lookup_lt_Some).
  assert ((∃ o, p' = Done o ∧ (o = RWait ∨ o = Cancelled)) ∨ ready f' = ready (flag w) ∧
    ∃ r', receiver p' = Some r' ∧ (woken r p (flag w) → woken r' p' f')) as Hown.
  { unfold woken. destruct w as [f cs es]; simpl in *.
    destruct p; try done; call_cases Hstep; eauto; right; (split; [done|]); eexists; (split; [done|]);
      intros [Hb Hch]; split; try done; try congruence.
    by rewrite (seen_borrow _ _ r). }
  destruct Hown as [(o & -> & Ho)|(Er & r' & Hr' & Hw)].
  - left. exists o. simpl. by rewrite list_lookup_insert_eq.
  - right. exists p', r'. simpl. rewrite list_lookup_insert_eq by done. split; [done|]. split; [done|].
    rewrite Er. destruct Hcase as [?|[(HP & j & q & Hj & Hs)|?]]; [by left| |right; right; auto].
    right; left. split; [done|]. exists j, q. rewrite list_lookup_insert_ne; [done|].
    intros ->. rewrite Hi in Hj. injection Hj as ->. by destruct q.
Qed.

Lemma attended_other P i j w p f' p' e :
  inv w → attended P i w → i ≠ j → calls w !! j = Some p → (f', p', e) ∈ step_call j (flag w) p →
  attended P i (moved w j f' p' e).
Proof.
  intros Hinv Ha Hij Hj Hstep. unfold attended. simpl.
  rewrite list_lookup_insert_ne by done.
  destruct Ha as [?|(p0 & r & Hp0 & Hr & Hcase)]; [by left|right].
  exists p0, r. split; [done|]. split; [done|].
  assert (receiver_count (tx (flag w)) ≠ 0%nat) as Hc.
  { rewrite (inv_count w Hinv). apply (count_calls_pos _ _ i p0 Hp0). simpl. by rewrite Hr. }
  assert (w_from r (tx (flag w))) as Hf.
  { pose proof (inv_pc w Hinv i p0 Hp0) as Hok. destruct p0; by simplify_eq/=. }
  destruct (step_call_sending _ _ _ _ _ _ Hstep) as [Hnew Hold].
  assert (length (calls w) > j)%nat as Hlen by (by eapply lookup_lt_Some).
  destruct Hcase as [[HP Hrd]|[(HP & k & q & Hk & Hs)|[Hb Hch]]].
  - destruct (Hnew Hrd) as [?|?]; [by left|right; left].
    split; [done|]. exists j, p'. by rewrite list_lookup_insert_eq.
  - destruct (decide (k = j)) as [->|Hkj].
    + rewrite Hj in Hk. injection Hk as <-. destruct (Hold Hs) as [?|Hall].
      * right; left. split; [done|]. exists j, p'. by rewrite list_lookup_insert_eq.
      * right; right. by destruct (Hall r Hc Hf).
    + right; left. split; [done|]. exists k, q. by rewrite list_lookup_insert_ne.
  - right; right. split; [by eapply step_call_keeps_true|].
    intros E. eapply step_call_keeps_changed; eauto.
Qed.

Lemma attended_step P i c w w' :
  inv w → attended P i w → step_by c w w' → attended P i w'.
Proof.
  intros Hinv Ha Hst. destruct Hst as [w o|w j p f' p' e Hj Hstep].
  - destruct Ha as [(o' & Ho & Hc)|(p & r & Hp & Hr & Hc)]; [left|right].
    + exists o'. split; [by apply lookup_app_l_Some|done].
    + exists p, r. split; [by apply lookup_app_l_Some|]. split; [done|]. simpl.
      destruct Hc as [?|[(HP & j & q & Hj & Hs)|?]]; auto.
      right; left. split; [done|]. exists j, q. split; [by apply lookup_app_l_Some|done].
  - destruct (decide (i = j)) as [->|Hij]; [by eapply attended_own|by eapply attended_other].
Qed.

(** A run in which the call [i] makes [n] steps, interleaved with any others. *)
Inductive run (i : nat) : nat → world → world → Prop :=
  | run_nil w : run i 0 w w
  | run_own n w w1 w2 : step_by (Some i) w w1 → run i n w1 w2 → run i (S n) w w2
  | run_other n w w1 w2 c : c ≠ Some i → step_by c w w1 → run i n w1 w2 → run i n w w2.

(** The steps a notified call is away from its return. *)
Definition rank (p : pc) : nat :=
  match p with Wait_check _ => 1 | Wait_changed _ => 2 | Wait_borrow _ => 3 | _ => 0 end.

Lemma notified_moves i w :
  attended False i w →
  (∃ o, calls w !! i = Some (Done o) ∧ (o = RWait ∨ o = Cancelled)) ∨
  (∃ w', step_by (Some i) w w' ∧ calls w' !! i ≠ Some (Done Cancelled)) ∧
  ∃ p, calls w !! i = Some p ∧ (rank p ≤ 3)%nat ∧
    ∀ w', step_by (Some i) w w' → ∃ p', calls w' !! i = Some p' ∧ (rank p' < rank p)%nat.
Proof.
  intros [?|(p & r & Hi & Hr & [[[] _]|[[[] _]|[Hb Hch]]])]; [by left|right].
  assert (length (calls w) > i)%nat as Hlen by (by eapply lookup_lt_Some). split.
  - assert (∃ f' p' e, (f', p', e) ∈ step_call i (flag w) p ∧ p' ≠ Done Cancelled)
      as (f' & p' & e & Hstep & Hnc).
    { destruct p; simplify_eq/=; unfold step_call; simpl; rewrite ?Hb, ?Hch by done;
        do 3 eexists; (split; [apply list_elem_of_In; left; reflexivity|done]). }
    exists (moved w i f' p' e). split; [by econstructor|]. simpl.
    rewrite list_lookup_insert_eq by done. congruence.
  - exists p. split; [done|]. split; [destruct p; simpl; lia|].
    intros w' Hst. inversion Hst as [|? ? p0 f' p' e Hi' Hstep]; subst. simplify_eq/=.
    exists p'. rewrite list_lookup_insert_eq by done. split; [done|].
    destruct w as [f cs es]; simpl in *.
    destruct p; simplify_eq/=; call_cases Hstep; lia.
Qed.

Lemma run_step i n w w' : run i n w w' → rtc step w w'.
Proof. induction 1; [done|..]; (eapply rtc_l; [by eexists|done]). Qed.

Lemma notified_returns i n w w' p :
  inv w → attended False i w → run i n w w' → calls w !! i = Some p → (rank p ≤ n)%nat →
  ∃ o, calls w' !! i = Some (Done o) ∧ (o = RWait ∨ o = Cancelled).
Proof.
  intros Hinv Ha Hrun. revert p. induction Hrun as [w|n w w1 w2 Hst Hrun IH|n w w1 w2 c Hc Hst Hrun IH];
    intros p Hi Hrank.
  - destruct Ha as [?|(q & r & Hq & Hr & _)]; [done|].
    rewrite Hi in Hq. injection Hq as <-. destruct p; simpl in *; try done; lia.
  - pose proof (attended_step _ _ _ _ _ Hinv Ha Hst) as Ha1.
    assert (inv w1) as Hinv1 by (eapply inv_step; [done|by eexists]).
    destruct (notified_moves i w Ha) as [(o & Ho & _)|(_ & q & Hq & _ & Hdec)].
    + inversion Hst as [|? ? p0 f' p' e Hi' Hstep]; subst. simplify_eq/=. by call_cases Hstep.
    + rewrite Hi in Hq. injection Hq as <-. destruct (Hdec w1 Hst) as (p' & Hp' & Hlt).
      eapply IH; [done|done|exact Hp'|lia].
  - pose proof (attended_step _ _ _ _ _ Hinv Ha Hst) as Ha1.
    assert (inv w1) as Hinv1 by (eapply inv_step; [done|by eexists]).
    eapply IH; [done|done| |exact Hrank].
    destruct Hst as [w o|w j q f' q' e Hj Hstep]; simpl.
    + by apply lookup_app_l_Some.
    + rewrite list_lookup_insert_ne; [done|]. congruence.
Qed.

Lemma attended_steps P i w w' :
  inv w → attended P i w → rtc step w w' → inv w' ∧ attended P i w'.
Proof.
  intros Hinv Ha Hst. revert Hinv Ha. induction Hst as [w|w w1 w2 [c Hs] _ IH]; [done|].
  intros Hinv Ha. apply IH; [eapply inv_step; [done|by eexists]|by eapply attended_step].
Qed.

(** C35: a task that waits and registered with the channel while the flag was not
    ready is woken: once the flag is ready and whoever made it ready has
    broadcast, then, whatever the other calls do and unless the caller drops the
    future of [wait_ready], the task is never blocked again: it can go on to
    return, and after three steps of its own [wait_ready] has returned. *)
Theorem registered_waiter_is_woken i w0 w p r :
  reachable w0 → calls w0 !! i = Some p → receiver p = Some r → ready (flag w0) = false →
  rtc step w0 w → ready (flag w) = true → Forall (λ q, sending q = false) (calls w) →
  ∀ n w', run i n w w' → calls w' !! i ≠ Some (Done Cancelled) →
    calls w' !! i = Some (Done RWait) ∨
    (n < 3)%nat ∧
    ∃ w'', step_by (Some i) w' w'' ∧ calls w'' !! i ≠ Some (Done Cancelled).
Proof.
  intros Hr0 Hi Hr Hrd0 Hst Hrd Hquiet n w' Hrun Hnc.
  pose proof (reachable_inv w0 Hr0) as Hinv0.
  assert (attended True i w0) as Ha0 by (right; exists p, r; auto).
  destruct (attended_steps _ _ _ _ Hinv0 Ha0 Hst) as [Hinv Ha].
  assert (attended False i w) as Hn.
  { destruct Ha as [?|(q & r' & Hq & Hr' & [[_ ?]|[(_ & j & s & Hj & Hs)|?]])]; [by left|congruence| |].
    - rewrite Forall_lookup in Hquiet. apply Hquiet in Hj. congruence.
    - right. exists q, r'. auto. }
  destruct (decide (n < 3)%nat) as [Hlt|Hge].
  - destruct (attended_steps _ _ _ _ Hinv Hn (run_step _ _ _ _ Hrun)) as [_ Hn'].
    destruct (notified_moves i w' Hn') as [(o & Ho & [->| ->])|[? _]]; [by left|done|by right].
  - left. assert (∃ q, calls w !! i = Some q ∧ (rank q ≤ 3)%nat) as (q & Hq & Hrank).
    { destruct Hn as [(o & Ho & _)|(q & r' & Hq & _)]; eexists; (split; [done|]); [simpl; lia|].
      destruct q; simpl; lia. }
    destruct (notified_returns i n w w' q Hinv Hn Hrun Hq) as (o & Ho & [->| ->]); [lia|done|done].
Qed.

(** ** Running a schedule *)
Inductive action := Spawn (o : op) | Run (i k : nat).

(** [Run i k]: the [k]-th of the moves of call [i]. *)
Definition act (w : world) (a : action) : option world :=
  match a with
  | Spawn o => Some (spawn w o)
  | Run i k =>
      p ← calls w !! i;
      '(f', p', e) ← step_call i (flag w) p !! k;
      Some (moved w i f' p' e)
  end.
Definition schedule (w : world) (l : list action) : option world :=
  foldl (λ w a, w ← w; act w a) (Some w) l.

Lemma act_step w a w' : act w a = Some w' → step w w'.
Proof.
  destruct a as [o|i k]; simpl; [intros [= <-]; eexists; constructor|].
  intros H. destruct (calls w !! i) as [p|] eqn:Hi; [|done]. cbn [mbind option_bind] in H.
  destruct (step_call i (flag w) p !! k) as [[[f' p'] e]|] eqn:Hk; [|done]. cbn in H.
  injection H as <-. eexists. econstructor; [done|]. by eapply list_elem_of_lookup_2.
Qed.

Lemma schedule_steps w l w' : schedule w l = Some w' → rtc step w w'.
Proof.
  revert w'; induction l as [|a l IH] using rev_ind; intros w' H; [by injection H as <-|].
  unfold schedule in *. rewrite foldl_app in H. cbn in H.
  destruct (foldl _ (Some w) l) as [w1|]; [|done]. cbn in H.
  eapply rtc_r; [by apply IH|by eapply act_step].
Qed.

(** ** The lost wake-up *)

(** No call will broadcast any more. *)
Definition mute (p : pc) : bool :=
  match p with
  | IsReady_drop _ false | IsReady_send _ | Subscribe_loop | Subscribe_unlock _
  | Mark_store _ | Mark_clear | Mark_unlock | Mark_send => false
  | _ => true
  end.

Record abandoned (i : nat) (w : world) : Prop := {
  ab_ready : ready (flag w) = true;
  ab_tokens : tokens (flag w) = ∅;
  ab_borrow r : w_borrow r (tx (flag w)) = false;
  ab_mute : Forall (λ q, mute q = true) (calls w);
  ab_call : (∃ r, calls w !! i = Some (Wait_changed r) ∧ w_has_changed r (tx (flag w)) = false) ∨
            calls w !! i = Some (Done Cancelled);
}.

Lemma abandoned_call_step i f p f' p' e :
  (f', p', e) ∈ step_call i f p → mute p = true → ready f = true → tokens f = ∅ →
  (∀ r, w_borrow r (tx f) = false) →
  mute p' = true ∧ ready f' = true ∧ tokens f' = ∅ ∧ (∀ r, w_borrow r (tx f') = false) ∧
  (∀ r, w_has_changed r (tx f') = w_has_changed r (tx f)).
Proof.
  intros Hstep Hm Hr Ht Hb.
  assert (∀ t, bool_decide (t ∈ tokens f) = false) as Hnt.
  { intros t. apply bool_decide_eq_false. rewrite Ht. set_solver. }
  destruct p; try done; call_cases Hstep; try (by rewrite Hnt in *);
    repeat case_match; split_and!; try done; try congruence; intros r';
    rewrite ?subscribe_borrow, ?drop_borrow, ?subscribe_changed, ?drop_changed; auto.
Qed.

Lemma abandoned_step i w w' : abandoned i w → step w w' → abandoned i w'.
Proof.
  intros [Hr Ht Hb Hm Hc] [c Hst]. destruct Hst as [w o|w j p f' p' e Hj Hstep].
  - split; try done; simpl.
    + apply Forall_app. split; [done|]. apply Forall_singleton. by destruct o.
    + destruct Hc as [(r & Hi & ?)|Hi]; [left; exists r|right]; [split; [|done]|];
        by apply lookup_app_l_Some.
  - pose proof (Forall_lookup_1 _ _ _ _ Hm Hj) as Hmp.
    destruct (abandoned_call_step _ _ _ _ _ _ Hstep Hmp Hr Ht Hb) as (Hm' & Hr' & Ht' & Hb' & Hch).
    split; simpl; try done; [by apply Forall_insert|].
    destruct (decide (i = j)) as [->|Hij].
    + right. rewrite list_lookup_insert_eq by (by eapply lookup_lt_Some).
      destruct Hc as [(r & Hi & Hn)|Hi]; rewrite Hj in Hi; injection Hi as ->.
      * destruct w as [f cs es]; simpl in *. call_cases Hstep; congruence.
      * by call_cases Hstep.
    + rewrite list_lookup_insert_ne by done.
      destruct Hc as [(r & Hi & Hn)|Hi]; [left|by right]. exists r. by rewrite Hch.
Qed.

(** A token is handed out; a task calls [wait_ready] and finds the flag not
    ready; before it subscribes to the channel the token is presented, and the
    broadcast finds no receiver. *)
Definition losing_schedule : list action :=
  [Spawn OpSubscribe; Run 0 0; Run 0 0; Run 0 0; Run 0 0; Run 0 0;
   Spawn OpWait; Run 1 0; Run 1 0; Run 1 0; Run 1 0;
   Spawn (OpMark 1); Run 2 0; Run 2 0; Run 2 0; Run 2 0; Run 2 0; Run 2 0; Run 2 0;
   Run 1 0].

(** A wake-up can be lost.  There is a reachable world in which the flag is
    ready, the call of [mark_ready] that made it so has returned [true] and the
    only other call in progress is one of [wait_ready]: from there on, whatever
    calls are made, [wait_ready] never returns. *)
Theorem wake_up_can_be_lost :
  ∃ w i, reachable w ∧ ready (flag w) = true ∧ Done (RMark (Ok true)) ∈ calls w ∧
    (∃ r, calls w !! i = Some (Wait_changed r)) ∧
    (∀ j q, j ≠ i → calls w !! j = Some q → ∃ o, q = Done o) ∧
    ∀ w', rtc step w w' → calls w' !! i ≠ Some (Done RWait).
Proof.
  pose (c := w_send true (w_new false)).
  assert (c = w_new false) as Hc by (apply send_closed, new_count).
  pose (r := (w_subscribe c).1).
  pose (f := {| ready := true; next_id := 2; tokens := ∅; locked := None; tx := (w_subscribe c).2 |}).
  pose (cs p := [Done (RSubscribe (Ok 1)); p; Done (RMark (Ok true))]).
  pose (os := [OpSubscribe; OpWait; OpMark 1]).
  pose (es := [(0%nat, ESubscribe (Ok 1)); (2%nat, EMark 1 (Ok true))]).
  assert (rtc step initial {| flag := f; ops := os; calls := cs (Wait_borrow r); events := es |}) as Hreach.
  { apply (schedule_steps _ losing_schedule). vm_compute. reflexivity. }
  assert (∀ r', w_borrow r' (tx f) = false) as Hb.
  { intros r'. simpl. by rewrite subscribe_borrow, Hc, new_borrow. }
  assert (w_has_changed r (tx f) = false) as Hch.
  { unfold r. simpl. by rewrite subscribe_changed, subscribe_fresh. }
  exists {| flag := f; ops := os; calls := cs (Wait_changed r); events := es |}, 1%nat. split_and!; try done.
  - eapply rtc_r; [exact Hreach|]. eexists.
    apply (step_run {| flag := f; ops := os; calls := cs (Wait_borrow r); events := es |}
             1 (Wait_borrow r) f (Wait_changed r) None); [done|].
    unfold step_call; simpl. rewrite Hb. left.
  - simpl. set_solver.
  - by exists r.
  - intros [|[|[|j]]] q Hne Hj; simplify_eq/=; eauto; done.
  - intros w' Hst. assert (abandoned 1 w') as [_ _ _ _ Ha].
    { assert (abandoned 1 {| flag := f; ops := os; calls := cs (Wait_changed r); events := es |}) as Hab.
      { split; try done; [by repeat constructor|]. left. by exists r. }
      clear -Hst Hab WL. induction Hst as [|w1 w2 w3 Hs _ IH]; [done|].
      apply IH. by eapply abandoned_step. }
    destruct Ha as [(r' & -> & _)| ->]; done.
Qed.

(** ** The loop of subscribe *)

Definition i32_range (z : Z) : Prop := - 2 ^ 31 ≤ z < 2 ^ 31.

Lemma i32_iter z k :
  i32_range z → Nat.iter k i32_succ z = (z + Z.of_nat k + 2 ^ 31) `mod` 2 ^ 32 - 2 ^ 31.
Proof.
  intros Hz. unfold i32_range in Hz. induction k as [|k IH]; simpl Nat.iter.
  - rewrite Z.mod_small; lia.
  - rewrite IH. unfold i32_succ. f_equal.
    replace ((z + Z.of_nat k + 2 ^ 31) `mod` 2 ^ 32 - 2 ^ 31 + 1 + 2 ^ 31)
      with ((z + Z.of_nat k + 2 ^ 31) `mod` 2 ^ 32 + 1) by lia.
    rewrite Zplus_mod_idemp_l. f_equal. lia.
Qed.

Lemma i32_iter_inj z a b :
  i32_range z → Z.of_nat a < 2 ^ 32 → Z.of_nat b < 2 ^ 32 →
  Nat.iter a i32_succ z = Nat.iter b i32_succ z → a = b.
Proof.
  intros Hz Ha Hb. rewrite !i32_iter by done. intros E. unfold i32_range in Hz.
  assert ((z + Z.of_nat a + 2 ^ 31) `mod` 2 ^ 32 = (z + Z.of_nat b + 2 ^ 31) `mod` 2 ^ 32) as E' by lia.
  clear E. pose proof (Z.div_mod (z + Z.of_nat a + 2 ^ 31) (2 ^ 32) ltac:(lia)).
  pose proof (Z.div_mod (z + Z.of_nat b + 2 ^ 31) (2 ^ 32) ltac:(lia)). nia.
Qed.

(** Among more candidates than there are tokens one is free and not zero. *)
Lemma free_token z (s : gset Z) :
  i32_range z → Z.of_nat (size s) + 2 < 2 ^ 32 →
  ∃ k t, (k < size s + 2)%nat ∧ try_token (Nat.iter k i32_succ z) s = Some t.
Proof.
  intros Hz Hs. set (cand := (λ k, Nat.iter k i32_succ z) <$> seq 0 (size s + 2)).
  destruct (decide (Forall (λ c, c ∈ ({[0]} ∪ s)) cand)) as [Hall|Hex].
  - exfalso.
    assert (NoDup cand) as Hnd.
    { apply NoDup_fmap_2_strong; [|apply NoDup_seq].
      intros a b Ha%elem_of_seq Hb%elem_of_seq. apply i32_iter_inj; [done|lia..]. }
    assert ((list_to_set cand : gset Z) ⊆ {[0]} ∪ s) as Hsub.
    { intros x Hx%elem_of_list_to_set. rewrite Forall_forall in Hall. by apply Hall. }
    apply subseteq_size in Hsub. rewrite size_list_to_set in Hsub by done.
    unfold cand in Hsub. rewrite length_fmap, length_seq in Hsub.
    rewrite size_union_alt, size_singleton in Hsub.
    assert (size (s ∖ {[0%Z]}) ≤ size s)%nat by (apply subseteq_size; set_solver). lia.
  - apply not_Forall_Exists in Hex; [|intros c; apply _]. apply Exists_exists in Hex as (c & Hc & Hn).
    unfold cand in Hc. apply list_elem_of_fmap in Hc as (k & -> & Hk%elem_of_seq).
    exists k, (Nat.iter k i32_succ z). split; [lia|]. apply try_token_Some. set_solver.
Qed.

Lemma step_call_next i f p f' p' e :
  (f', p', e) ∈ step_call i f p →
  (holding p = false → next_id f' = next_id f) ∧ (i32_range (next_id f) → i32_range (next_id f')).
Proof.
  intros Hstep. split.
  - intros Hh. destruct p; try done; call_cases Hstep; done.
  - intros Hr. destruct p; call_cases Hstep; try done; unfold i32_range, i32_succ;
      pose proof (Z.mod_pos_bound (next_id f + 1 + 2 ^ 31) (2 ^ 32)); lia.
Qed.

Lemma reachable_next w : reachable w → i32_range (next_id (flag w)).
Proof.
  intros Hr. pattern w. eapply rtc_ind_r; [|clear w Hr|exact Hr].
  - unfold i32_range; simpl; lia.
  - intros w1 w2 _ [c Hs] Hi. destruct Hs as [|w i p f' p' e Hi' Hstep]; [done|].
    by apply (step_call_next _ _ _ _ _ _ Hstep).
Qed.

(** While a call is in the loop, the others change neither the tokens nor the
    counter. *)
Lemma loop_other i c w w' :
  inv w → calls w !! i = Some Subscribe_loop → c ≠ Some i → step_by c w w' →
  calls w' !! i = Some Subscribe_loop ∧ tokens (flag w') = tokens (flag w) ∧
  next_id (flag w') = next_id (flag w).
Proof.
  intros Hinv Hi Hc Hst. destruct Hst as [w o|w j q f' q' e Hj Hstep]; simpl.
  { by split; [apply lookup_app_l_Some|]. }
  rewrite list_lookup_insert_ne by congruence. split; [done|].
  assert (holding q = false) as Hh.
  { destruct (holding q) eqn:E; [|done]. pose proof (inv_lock w Hinv j q Hj E) as Hl.
    rewrite (inv_lock w Hinv i _ Hi eq_refl) in Hl. congruence. }
  split; [|by apply (step_call_next _ _ _ _ _ _ Hstep)].
  destruct (step_call_effect _ _ _ _ _ _ Hstep) as [?|[?|?]]; by destruct_and?; congruence.
Qed.

Lemma granted_stays i n w w' p t :
  run i n w w' → calls w !! i = Some p → granted_token p = Some t →
  ∃ p', calls w' !! i = Some p' ∧ granted_token p' = Some t.
Proof.
  intros Hrun. revert p. induction Hrun as [w|n w w1 w2 Hst Hrun IH|n w w1 w2 c Hc Hst Hrun IH];
    intros p Hi Hg; [by exists p|..].
  - inversion Hst as [|? ? p0 f' p' e Hi' Hstep]; subst. simplify_eq/=.
    apply (IH p'); [by apply list_lookup_insert_eq; eapply lookup_lt_Some|].
    destruct p; try done; by call_cases Hstep.
  - apply (IH p); [|done]. destruct Hst as [|w j q f' q' e Hj Hstep]; simpl.
    + by apply lookup_app_l_Some.
    + rewrite list_lookup_insert_ne; [done|congruence].
Qed.

Lemma loop_exits i n k w w' t :
  inv w → run i n w w' → calls w !! i = Some Subscribe_loop → (k < n)%nat →
  try_token (Nat.iter k i32_succ (next_id (flag w))) (tokens (flag w)) = Some t →
  ∃ p' t', calls w' !! i = Some p' ∧ granted_token p' = Some t'.
Proof.
  intros Hinv Hrun. revert k.
  induction Hrun as [w|n w w1 w2 Hst Hrun IH|n w w1 w2 c Hc Hst Hrun IH];
    intros k Hi Hk Ht; [lia|..].
  - assert (inv w1) as Hinv1 by (eapply inv_step; [done|by eexists]).
    inversion Hst as [|? ? p0 f' p' e Hi' Hstep]; subst. simplify_eq/=.
    assert (i < length (calls w))%nat as Hlen by (by eapply lookup_lt_Some).
    destruct w as [f cs es]; simpl in *. call_cases Hstep.
    + destruct (granted_stays _ _ _ _ (Subscribe_unlock z) z Hrun) as (p' & ? & ?); [|done|by exists p', z].
      by apply list_lookup_insert_eq.
    + destruct k as [|k]; [simpl in Ht; congruence|].
      apply (IH Hinv1 k); simpl; [by apply list_lookup_insert_eq|lia|].
      by rewrite <-Nat.iter_succ_r.
  - destruct (loop_other i c w w1 Hinv Hi Hc Hst) as (Hi1 & Et & En).
    apply (IH ltac:(eapply inv_step; [done|by eexists]) k); [done|done|by rewrite Et, En].
Qed.

(** The loop of [subscribe] ends: while fewer than 2^32 - 2 tokens are out, two
    more turns than there are tokens yield one. *)
Theorem subscribe_loop_terminates i n w w' :
  reachable w → calls w !! i = Some Subscribe_loop →
  Z.of_nat (size (tokens (flag w))) + 2 < 2 ^ 32 →
  run i n w w' → (size (tokens (flag w)) + 2 ≤ n)%nat →
  ∃ p t, calls w' !! i = Some p ∧ granted_token p = Some t.
Proof.
  intros Hr Hi Hs Hrun Hn.
  destruct (free_token (next_id (flag w)) (tokens (flag w)) (reachable_next w Hr) Hs) as (k & t & Hk & Ht).
  eapply loop_exits; [by apply reachable_inv|exact Hrun|exact Hi| |exact Ht]. lia.
Qed.

End readiness.

(** ** A channel

    A value, its version and the number of receivers; a receiver remembers the
    version it has seen. *)
Module Channel.
Record chan := { value : bool; version : nat; count : nat }.

Definition send (b : bool) (w : chan) : chan :=
  match count w with
  | O => w
  | S _ => {| value := b; version := S (version w); count := count w |}
  end.

#[global] Instance watch : Watch chan nat := {|
  w_new b := {| value := b; version := 0; count := 0 |};
  w_send := send;
  w_subscribe w := (version w, {| value := value w; version := version w; count := S (count w) |});
  w_borrow _ w := value w;
  w_has_changed r w := bool_decide (r ≠ version w);
  w_seen _ w := version w;
  w_drop _ w := {| value := value w; version := version w; count := pred (count w) |};
  receiver_count := count;
|}.

#[global] Program Instance watch_laws : WatchLaws chan nat :=
  {| w_from r w := (r ≤ version w)%nat |}.
Solve Obligations with
  (intros; simpl in *; unfold send in *; try case_match; simpl in *;
   rewrite ?bool_decide_eq_true, ?bool_decide_eq_false; try done; try lia; auto).
End Channel.

(** A task waits while a token is out; the token is presented. *)
Definition waking_schedule : list action :=
  [Spawn OpSubscribe; Run 0 0; Run 0 0; Run 0 0; Run 0 0; Run 0 0;
   Spawn OpWait; Run 1 0; Run 1 0; Run 1 0; Run 1 0; Run 1 0; Run 1 0].
Definition marking_schedule : list action :=
  [Spawn (OpMark 1); Run 2 0; Run 2 0; Run 2 0; Run 2 0; Run 2 0; Run 2 0; Run 2 0].

Definition waiting_world : world (W := Channel.chan) (R := nat) :=
  default initial (schedule initial waking_schedule).
Definition marked_world : world (W := Channel.chan) (R := nat) :=
  default initial (schedule waiting_world marking_schedule).


Lemma registered_waiter_witness :
  calls waiting_world !! 1%nat = Some (Wait_changed 0%nat) ∧
  ∀ n w', run 1 n marked_world w' → calls w' !! 1%nat ≠ Some (Done Cancelled) →
    calls w' !! 1%nat = Some (Done RWait) ∨
    (n < 3)%nat ∧
    ∃ w'', step_by (Some 1%nat) w' w'' ∧ calls w'' !! 1%nat ≠ Some (Done Cancelled).
Proof.
  assert (calls waiting_world !! 1%nat = Some (Wait_changed 0%nat)) as Hi by (vm_compute; reflexivity).
  split; [exact Hi|].
  apply (registered_waiter_is_woken 1 waiting_world marked_world (Wait_changed 0%nat) 0%nat).
  - apply (schedule_steps _ waking_schedule). vm_compute. reflexivity.
  - exact Hi.
  - reflexivity.
  - vm_compute. reflexivity.
  - apply (schedule_steps _ marking_schedule). vm_compute. reflexivity.
  - vm_compute. reflexivity.
  - vm_compute. repeat constructor.
Defined.

Lemma wake_up_lost_witness :
  ∃ (w : world (W := Channel.chan) (R := nat)) i, reachable w ∧ ready (flag w) = true ∧
    ∀ w', rtc step w w' → calls w' !! i ≠ Some (Done RWait).
Proof.
  destruct (wake_up_can_be_lost (W := Channel.chan) (R := nat)) as (w & i & Hr & Hd & _ & _ & _ & Hn).
  exists w, i. exact (conj Hr (conj Hd Hn)).
Defined.
