(* ===== verification/ResponseItem.v ===== *)
(** * The items of a conversation

    The data of [protocol/src/models.rs] that a model request carries
    ([ResponseItem] with its parts), the envelope and the harness metadata of
    [history/src/lib.rs], and the annotated content of
    [context-fragments/src/annotated_content.rs].  The tool-call records, the
    reasoning effort and the metadata that the modelled code only carries along
    are type parameters. *)
From S2P Require Import Prelude Str Float64 Json Truncate OutputTruncation.

Inductive ImageReference :=
  | Inline (image_url : str)
  | File (file_id : str).
Inductive ImageDetail := Auto | Low | High | Original.

Inductive InputModality := ModText | ModImage | ModAudio.

(** [ContentItem] and [AgentMessageInputContent], whose constructors share
    their names with those of tool outputs. *)
Module Content.
Inductive ContentItem :=
  | InputText (text : str)
  | InputImage (image : ImageReference) (detail : option ImageDetail)
  | InputAudio (audio_url : str)
  | OutputText (text : str) (annotations : option (list Value)).
End Content.
Notation ContentItem := Content.ContentItem.

Module Agent.
Inductive AgentMessageInputContent :=
  | InputText (text : str)
  | EncryptedContent (encrypted_content : str).
End Agent.

Definition ContentItemKind : Type := str.
Definition ResponseItemId : Type := str.

(** [ResponseItemId::with_suffix] *)
Definition with_suffix (prefix suffix : str) : ResponseItemId := prefix ++ lit "_" ++ suffix.

Inductive MessagePhase := Commentary | PartialAnswer | FinalAnswer.
Inductive LocalShellStatus := Completed | InProgress | Incomplete.
Record LocalShellExecAction := {
  command : list str;
  timeout_ms : option N;
  working_directory : option str;
  env : option (list (str * str));
  user : option str;
}.
Inductive LocalShellAction := Exec (action : LocalShellExecAction).
Inductive WebSearchAction :=
  | WSearch (query : option str) (queries : option (list str))
  | WOpenPage (url : option str)
  | WFindInPage (url : option str) (pattern : option str)
  | WOther.
Inductive ReasoningItemReasoningSummary := SummaryText (text : str).
Inductive ReasoningItemContent := ReasoningText (text : str) | PlainText (text : str).

Section items.
Context {ExecutedToolCall ReasoningEffort MetadataRest : Type}.

Record InternalChatMessageMetadataPassthrough := {
  turn_id : option str;
  create_time : option Number;
  content_item_kinds : option (list ContentItemKind);
  cell_id : option str;
  executed_tool_calls : option (list ExecutedToolCall);
  tool_calls_complete : option bool;
}.
Notation Passthrough := (option InternalChatMessageMetadataPassthrough).
Notation Payload := (@FunctionCallOutputPayload ImageReference ImageDetail).

(** [#[derive(Default)]] *)
Definition default_passthrough : InternalChatMessageMetadataPassthrough :=
  {| turn_id := None; create_time := None; content_item_kinds := None; cell_id := None;
     executed_tool_calls := None; tool_calls_complete := None |}.
Definition with_kinds (m : InternalChatMessageMetadataPassthrough)
    (kinds : option (list ContentItemKind)) : InternalChatMessageMetadataPassthrough :=
  {| turn_id := turn_id m; create_time := create_time m; content_item_kinds := kinds;
     cell_id := cell_id m; executed_tool_calls := executed_tool_calls m;
     tool_calls_complete := tool_calls_complete m |}.

Inductive ResponseItem :=
  | AdditionalTools (id : option ResponseItemId) (role : str) (tools : list Value)
  | Message (encrypted_content status : option str) (id : option ResponseItemId) (role : str)
      (content : list ContentItem) (phase : option MessagePhase) (passthrough : Passthrough)
  | AgentMessage (id : option ResponseItemId) (author recipient : str)
      (content : list Agent.AgentMessageInputContent) (passthrough : Passthrough)
  | Reasoning (id : option ResponseItemId) (summary : list ReasoningItemReasoningSummary)
      (content : option (list ReasoningItemContent)) (encrypted_content : option str)
      (passthrough : Passthrough)
  | LocalShellCall (encrypted_content : option str) (id : option ResponseItemId)
      (call_id : option str) (status : LocalShellStatus) (action : LocalShellAction)
      (passthrough : Passthrough)
  | FunctionCall (encrypted_content status : option str) (id : option ResponseItemId) (name : str)
      (namespace : option str) (arguments : str) (encrypted_function_args : option (list str))
      (call_id : str) (passthrough : Passthrough)
  | ToolSearchCall (encrypted_content : option str) (id : option ResponseItemId)
      (call_id status : option str) (execution : str) (arguments : Value) (passthrough : Passthrough)
  | FunctionCallOutput (id : option ResponseItemId) (call_id name namespace : option str)
      (output : Payload) (passthrough : Passthrough)
  | CustomToolCall (encrypted_content : option str) (id : option ResponseItemId)
      (status : option str) (call_id name : str) (namespace : option str) (input : str)
      (passthrough : Passthrough)
  | CustomToolCallOutput (id : option ResponseItemId) (call_id : str) (name : option str)
      (output : Payload) (passthrough : Passthrough)
  | ToolSearchOutput (id : option ResponseItemId) (call_id : option str) (status execution : str)
      (tools : list Value) (passthrough : Passthrough)
  | WebSearchCall (encrypted_content : option str) (id : option ResponseItemId)
      (status : option str) (action : option WebSearchAction) (passthrough : Passthrough)
  | ImageGenerationCall (encrypted_content : option str) (id : option ResponseItemId) (status : str)
      (revised_prompt : option str) (result : str) (passthrough : Passthrough)
  | Compaction (id : option ResponseItemId) (encrypted_content : str) (passthrough : Passthrough)
  | ConfigurationUpdate (effort : ReasoningEffort)
  | CompactionTrigger
  | ContextCompaction (id : option ResponseItemId) (encrypted_content : option str)
      (passthrough : Passthrough)
  | OtherItem.

(** The fields of [CodexHarnessMetadata] that the modelled code reads; the
    others travel in [metadata_rest]. *)
Record CodexHarnessMetadata := {
  inherited_user_message : bool;
  harness_authored_configuration : bool;
  history_truncation_token_limit : option N;
  metadata_rest : MetadataRest;
}.

Record ResponseItemEnvelope := { item : ResponseItem; metadata : option CodexHarnessMetadata }.

(** [ResponseItemEnvelope::new] *)
Definition envelope (i : ResponseItem) : ResponseItemEnvelope := {| item := i; metadata := None |}.
Definition with_item (e : ResponseItemEnvelope) (i : ResponseItem) : ResponseItemEnvelope :=
  {| item := i; metadata := metadata e |}.

(** ** Annotated content *)
Record AnnotatedContent := { content_of : ContentItem; kind_of : ContentItemKind }.

(** [zip] with the classifications, continued by "unknown". *)
Fixpoint zip_kinds (content : list ContentItem) (kinds : list ContentItemKind) :
    list AnnotatedContent :=
  match content, kinds with
  | [], _ => []
  | c :: content, k :: kinds => {| content_of := c; kind_of := k |} :: zip_kinds content kinds
  | c :: content, [] => {| content_of := c; kind_of := lit "unknown" |} :: zip_kinds content []
  end.

(** Takes the content and the classifications out of a message; the second
    component is what is left of the item. *)
Definition to_annotated_content (i : ResponseItem) : option (list AnnotatedContent * ResponseItem) :=
  match i with
  | Message enc status id role content phase passthrough =>
      let kinds := default [] (m ← passthrough; content_item_kinds m) in
      Some (zip_kinds content kinds,
            Message enc status id role [] phase ((λ m, with_kinds m None) <$> passthrough))
  | _ => None
  end.

Definition set_annotated_content (i : ResponseItem) (annotated : list AnnotatedContent) :
    option ResponseItem :=
  match i with
  | Message enc status id role _ phase passthrough =>
      Some (Message enc status id role (content_of <$> annotated) phase
              (Some (with_kinds (default default_passthrough passthrough) (Some (kind_of <$> annotated)))))
  | _ => None
  end.

(** [content_items_mut] of the payload of a tool output. *)
Definition map_content_items (f : @FunctionCallOutputContentItem ImageReference ImageDetail →
                                  @FunctionCallOutputContentItem ImageReference ImageDetail)
    (output : Payload) : Payload :=
  match body output with
  | Text _ => output
  | ContentItems items => {| body := ContentItems (f <$> items); success := success output |}
  end.

(** [FunctionCallOutputPayload::from_text] *)
Definition from_text (t : str) : Payload := {| body := Text t; success := None |}.

Lemma zip_kinds_content content kinds : content_of <$> zip_kinds content kinds = content.
Proof.
  revert kinds; induction content as [|c content IH]; intros [|k kinds]; simpl; f_equal; auto.
Qed.

(** Taking a message's content out and putting it back gives every entry a
    classification and changes nothing else. *)
Lemma annotated_round_trip i annotated rest :
  to_annotated_content i = Some (annotated, rest) →
  ∃ enc status id role content phase passthrough,
    i = Message enc status id role content phase passthrough ∧
    content_of <$> annotated = content ∧
    set_annotated_content rest annotated =
      Some (Message enc status id role content phase
        (Some (with_kinds (default default_passthrough passthrough) (Some (kind_of <$> annotated))))).
Proof.
  destruct i; intros [= <- <-]. do 7 eexists. split; [done|]. split; [apply zip_kinds_content|].
  simpl. rewrite zip_kinds_content. by destruct passthrough as [[]|].
Qed.
End items.
