(* ===== verification/HistoryNormalize.v ===== *)
(** * Normalising a history for a prompt

    [core/src/context_manager/normalize.rs] and [normalize_history] of
    [history.rs]: every call gets an output, outputs without a call go, and media
    the model does not take are replaced by a note.  [error_or_panic] panics in
    builds with debug assertions, so the flag is a parameter; so is the rendering
    of a version 5 UUID in the fixed namespace.

    The development shows that normalisation establishes the pairing of calls
    and outputs, keeps every other item in place and is idempotent, and that
    dropping the first item with its counterpart keeps the pairing. *)
From stdpp Require Import gmap sets.
From S2P Require Import Prelude Str Float64 Json Truncate OutputTruncation ResponseItem.

Section normalize.
Context {ExecutedToolCall ReasoningEffort MetadataRest : Type}.
Notation Item := (@ResponseItem ExecutedToolCall ReasoningEffort).
Notation Envelope := (@ResponseItemEnvelope ExecutedToolCall ReasoningEffort MetadataRest).

(** [cfg!(debug_assertions)] and [Uuid::new_v5] of a name in the namespace. *)
Variable debug_assertions : bool.
Variable new_v5 : str → str.

Definition error_or_panic : res unit unit := if debug_assertions then Panic else Ok tt.

(** [Vec::insert] and [Vec::remove]. *)
Definition vec_insert {A} (l : list A) (i : nat) (x : A) : res unit (list A) :=
  if decide (i ≤ length l)%nat then Ok (take i l ++ x :: drop i l) else Panic.
Definition vec_remove {A} (l : list A) (i : nat) : list A := take i l ++ drop (S i) l.

(** ** The calls and outputs of an item *)
Definition function_output_id (i : Item) : option str :=
  match i with FunctionCallOutput _ call_id _ _ _ _ => call_id | _ => None end.
Definition tool_search_output_id (i : Item) : option str :=
  match i with ToolSearchOutput _ call_id _ _ _ _ => call_id | _ => None end.
Definition custom_tool_output_id (i : Item) : option str :=
  match i with CustomToolCallOutput _ call_id _ _ _ => Some call_id | _ => None end.
Definition function_call_id (i : Item) : option str :=
  match i with
  | FunctionCall _ _ _ _ _ _ _ call_id _ => Some call_id
  | LocalShellCall _ _ call_id _ _ _ => call_id
  | _ => None
  end.
Definition tool_search_call_id (i : Item) : option str :=
  match i with ToolSearchCall _ _ call_id _ _ _ _ => call_id | _ => None end.
Definition custom_tool_call_id (i : Item) : option str :=
  match i with CustomToolCall _ _ _ call_id _ _ _ _ => Some call_id | _ => None end.

(** The ids an item contributes, over all the items. *)
Definition ids (f : Item → option str) (items : list Envelope) : gset str :=
  list_to_set (omap (λ e, f (item e)) items).

(** ** Missing outputs *)
Definition synthetic_output_id (prefix : str) (item_id : option ResponseItemId) :
    option ResponseItemId :=
  source_id ← item_id;
  if is_empty source_id then None
  else Some (with_suffix prefix (new_v5 (prefix ++ lit ":" ++ source_id))).

Definition aborted_function_output (id : option ResponseItemId) (call_id : str) : Envelope :=
  envelope (FunctionCallOutput (synthetic_output_id (lit "fco") id) (Some call_id) None None
              (from_text (lit "aborted")) None).

(** A call that was copied from a parent thread. *)
Definition inherited (e : Envelope) : bool := is_some_and inherited_user_message (metadata e).

Definition missing_output (function_output_ids tool_search_output_ids custom_tool_output_ids : gset str)
    (e : Envelope) : res unit (option Envelope) :=
  match item e with
  | FunctionCall _ _ id _ _ _ _ call_id _ =>
      if bool_decide (call_id ∈ function_output_ids) then Ok None
      else Ok (Some (aborted_function_output id call_id))
  | ToolSearchCall _ id (Some call_id) _ _ _ _ =>
      if bool_decide (call_id ∈ tool_search_output_ids) then Ok None
      else Ok (Some (envelope (ToolSearchOutput (synthetic_output_id (lit "tso") id) (Some call_id)
                                 (lit "completed") (lit "client") [] None)))
  | CustomToolCall _ id _ call_id _ _ _ _ =>
      if bool_decide (call_id ∈ custom_tool_output_ids) then Ok None
      else
        _ ← (if inherited e then Ok tt else error_or_panic);
        Ok (Some (envelope (CustomToolCallOutput (synthetic_output_id (lit "ctco") id) call_id None
                              (from_text (lit "aborted")) None)))
  | LocalShellCall _ id (Some call_id) _ _ _ =>
      if bool_decide (call_id ∈ function_output_ids) then Ok None
      else
        _ ← (if inherited e then Ok tt else error_or_panic);
        Ok (Some (aborted_function_output id call_id))
  | _ => Ok None
  end.

(** The loop that collects the outputs to insert with the index of their call. *)
Fixpoint missing_loop (f : Envelope → res unit (option Envelope)) (idx : nat) (items : list Envelope) :
    res unit (list (nat * Envelope)) :=
  match items with
  | [] => Ok []
  | e :: items =>
      o ← f e;
      rest ← missing_loop f (S idx) items;
      Ok (match o with Some o => (idx, o) :: rest | None => rest end)
  end.

(** The insertions, from the last to the first. *)
Fixpoint insert_loop (items : list Envelope) (missing : list (nat * Envelope)) :
    res unit (list Envelope) :=
  match missing with
  | [] => Ok items
  | (idx, o) :: missing => items ← vec_insert items (idx + 1) o; insert_loop items missing
  end.

Definition ensure_call_outputs_present (items : list Envelope) : res unit (list Envelope) :=
  let function_output_ids := ids function_output_id items in
  let tool_search_output_ids := ids tool_search_output_id items in
  let custom_tool_output_ids := ids custom_tool_output_id items in
  missing ← missing_loop
    (missing_output function_output_ids tool_search_output_ids custom_tool_output_ids) 0 items;
  insert_loop items (reverse missing).

(** ** Orphan outputs *)
Definition is_orphan (function_call_ids tool_search_call_ids custom_tool_call_ids : gset str)
    (e : Envelope) : bool :=
  match item e with
  | FunctionCallOutput _ (Some call_id) _ _ _ _ => bool_decide (call_id ∉ function_call_ids)
  | CustomToolCallOutput _ call_id _ _ _ => bool_decide (call_id ∉ custom_tool_call_ids)
  | ToolSearchOutput _ (Some call_id) _ execution _ _ =>
      negb (str_eqb execution (lit "server")) && bool_decide (call_id ∉ tool_search_call_ids)
  | _ => false
  end.

Fixpoint orphan_loop (orphan : Envelope → bool) (position : nat) (items : list Envelope) :
    res unit (list nat) :=
  match items with
  | [] => Ok []
  | e :: items =>
      if orphan e then
        _ ← error_or_panic;
        rest ← orphan_loop orphan (S position) items;
        Ok (position :: rest)
      else orphan_loop orphan (S position) items
  end.

(** [retain] with the peekable iterator over the positions. *)
Fixpoint retain_loop (position : nat) (orphans : list nat) (items : list Envelope) : list Envelope :=
  match items with
  | [] => []
  | e :: items =>
      match orphans with
      | p :: rest =>
          if decide (p = position) then retain_loop (S position) rest items
          else e :: retain_loop (S position) orphans items
      | [] => e :: retain_loop (S position) [] items
      end
  end.

Definition remove_orphan_outputs (items : list Envelope) : res unit (list Envelope) :=
  let function_call_ids := ids function_call_id items in
  let tool_search_call_ids := ids tool_search_call_id items in
  let custom_tool_call_ids := ids custom_tool_call_id items in
  orphan_positions ← orphan_loop
    (is_orphan function_call_ids tool_search_call_ids custom_tool_call_ids) 0 items;
  Ok (if is_empty orphan_positions then items else retain_loop 0 orphan_positions items).

(** ** Counterparts *)
Definition remove_first_matching (items : list Envelope) (predicate : Item → bool) : list Envelope :=
  match position (λ e, predicate (item e)) items with
  | Some pos => vec_remove items pos
  | None => items
  end.

Definition is_function_output (call_id : str) (i : Item) : bool :=
  match i with FunctionCallOutput _ (Some existing) _ _ _ _ => str_eqb existing call_id | _ => false end.
Definition is_function_call (call_id : str) (i : Item) : bool :=
  match i with FunctionCall _ _ _ _ _ _ _ existing _ => str_eqb existing call_id | _ => false end.
Definition is_local_shell_call (call_id : str) (i : Item) : bool :=
  match i with LocalShellCall _ _ (Some existing) _ _ _ => str_eqb existing call_id | _ => false end.
Definition is_tool_search_output (call_id : str) (i : Item) : bool :=
  match i with ToolSearchOutput _ (Some existing) _ _ _ _ => str_eqb existing call_id | _ => false end.
Definition is_tool_search_call (call_id : str) (i : Item) : bool :=
  match i with ToolSearchCall _ _ (Some existing) _ _ _ _ => str_eqb existing call_id | _ => false end.
Definition is_custom_tool_output (call_id : str) (i : Item) : bool :=
  match i with CustomToolCallOutput _ existing _ _ _ => str_eqb existing call_id | _ => false end.
Definition is_custom_tool_call (call_id : str) (i : Item) : bool :=
  match i with CustomToolCall _ _ _ existing _ _ _ _ => str_eqb existing call_id | _ => false end.

Definition remove_corresponding_for (items : list Envelope) (i : Item) : list Envelope :=
  match i with
  | FunctionCall _ _ _ _ _ _ _ call_id _ => remove_first_matching items (is_function_output call_id)
  | FunctionCallOutput _ (Some call_id) _ _ _ _ =>
      match position (λ e, is_function_call call_id (item e)) items with
      | Some pos => vec_remove items pos
      | None =>
          match position (λ e, is_local_shell_call call_id (item e)) items with
          | Some pos => vec_remove items pos
          | None => items
          end
      end
  | ToolSearchCall _ _ (Some call_id) _ _ _ _ =>
      remove_first_matching items (is_tool_search_output call_id)
  | ToolSearchOutput _ (Some call_id) _ _ _ _ =>
      remove_first_matching items (is_tool_search_call call_id)
  | CustomToolCall _ _ _ call_id _ _ _ _ =>
      remove_first_matching items (is_custom_tool_output call_id)
  | CustomToolCallOutput _ call_id _ _ _ => remove_first_matching items (is_custom_tool_call call_id)
  | LocalShellCall _ _ (Some call_id) _ _ _ =>
      remove_first_matching items (is_function_output call_id)
  | _ => items
  end.

(** ** Unsupported media *)
Definition IMAGE_text : str := lit "image content omitted because you do not support image input".
Definition IMAGE_kind : ContentItemKind := lit "images.unsupported".
Definition AUDIO_text : str := lit "audio content omitted because you do not support audio input".
Definition AUDIO_kind : ContentItemKind := lit "audio.unsupported".

(** [UnsupportedMedia::…render_fragment().into_parts().1]: the markers are
    empty, so the body is the text itself. *)
Definition media_note (text : str) (kind : ContentItemKind) : AnnotatedContent :=
  {| content_of := Content.InputText text; kind_of := kind |}.

Definition is_image (c : ContentItem) : bool :=
  match c with Content.InputImage _ _ => true | _ => false end.
Definition is_audio (c : ContentItem) : bool :=
  match c with Content.InputAudio _ => true | _ => false end.

Definition strip_message (unsupported : ContentItem → bool) (note : AnnotatedContent) (i : Item) : Item :=
  match to_annotated_content i with
  | None => i
  | Some (content, rest) =>
      let content := (λ c, if unsupported (content_of c) then note else c) <$> content in
      default rest (set_annotated_content rest content)
  end.

Notation OutputItem := (@FunctionCallOutputContentItem ImageReference ImageDetail).
Definition strip_output_image (c : OutputItem) : OutputItem :=
  match c with InputImage _ _ => InputText IMAGE_text | _ => c end.
Definition strip_output_audio (c : OutputItem) : OutputItem :=
  match c with InputAudio _ => InputText AUDIO_text | _ => c end.

Definition strip_image_item (i : Item) : Item :=
  match i with
  | Message _ _ _ _ _ _ _ => strip_message is_image (media_note IMAGE_text IMAGE_kind) i
  | FunctionCallOutput id call_id name namespace output p =>
      FunctionCallOutput id call_id name namespace (map_content_items strip_output_image output) p
  | CustomToolCallOutput id call_id name output p =>
      CustomToolCallOutput id call_id name (map_content_items strip_output_image output) p
  | ImageGenerationCall enc id status revised_prompt _ p =>
      ImageGenerationCall enc id status revised_prompt [] p
  | _ => i
  end.
Definition strip_audio_item (i : Item) : Item :=
  match i with
  | Message _ _ _ _ _ _ _ => strip_message is_audio (media_note AUDIO_text AUDIO_kind) i
  | FunctionCallOutput id call_id name namespace output p =>
      FunctionCallOutput id call_id name namespace (map_content_items strip_output_audio output) p
  | CustomToolCallOutput id call_id name output p =>
      CustomToolCallOutput id call_id name (map_content_items strip_output_audio output) p
  | _ => i
  end.

#[local] Instance InputModality_eq_dec : EqDecision InputModality.
Proof. solve_decision. Defined.

Definition strip_images_when_unsupported (modalities : list InputModality) (items : list Envelope) :
    list Envelope :=
  if bool_decide (ModImage ∈ modalities) then items
  else (λ e, with_item e (strip_image_item (item e))) <$> items.
Definition strip_audio_when_unsupported (modalities : list InputModality) (items : list Envelope) :
    list Envelope :=
  if bool_decide (ModAudio ∈ modalities) then items
  else (λ e, with_item e (strip_audio_item (item e))) <$> items.

(** [ContextManager::normalize_history] and [for_prompt]. *)
Definition normalize_history (modalities : list InputModality) (items : list Envelope) :
    res unit (list Envelope) :=
  items ← ensure_call_outputs_present items;
  items ← remove_orphan_outputs items;
  Ok (strip_audio_when_unsupported modalities (strip_images_when_unsupported modalities items)).
Definition for_prompt (modalities : list InputModality) (items : list Envelope) : res unit (list Item) :=
  items ← normalize_history modalities items; Ok (map item items).

(** ** Reference

    The calls an item makes and the outputs it is, by kind and id; a call of a
    local shell is answered like a function call, and the output of a search
    that ran on the server needs no call. *)
Inductive kind := KFunction | KSearch | KCustom.
#[local] Instance kind_eq_dec : EqDecision kind.
Proof. solve_decision. Defined.
Notation key := (kind * str)%type.

Definition call_key (i : Item) : option key :=
  match i with
  | FunctionCall _ _ _ _ _ _ _ c _ | LocalShellCall _ _ (Some c) _ _ _ => Some (KFunction, c)
  | ToolSearchCall _ _ (Some c) _ _ _ _ => Some (KSearch, c)
  | CustomToolCall _ _ _ c _ _ _ _ => Some (KCustom, c)
  | _ => None
  end.
Definition output_key (i : Item) : option key :=
  match i with
  | FunctionCallOutput _ (Some c) _ _ _ _ => Some (KFunction, c)
  | ToolSearchOutput _ (Some c) _ _ _ _ => Some (KSearch, c)
  | CustomToolCallOutput _ c _ _ _ => Some (KCustom, c)
  | _ => None
  end.
Definition server_output (i : Item) : bool :=
  match i with ToolSearchOutput _ _ _ execution _ _ => str_eqb execution (lit "server") | _ => false end.

Definition calls (items : list Envelope) : list key := omap (λ e, call_key (item e)) items.
Definition outputs (items : list Envelope) : list key := omap (λ e, output_key (item e)) items.

(** Every call is answered and every output answers a call. *)
Definition paired (items : list Envelope) : Prop :=
  (∀ e k, e ∈ items → call_key (item e) = Some k → k ∈ outputs items) ∧
  (∀ e k, e ∈ items → output_key (item e) = Some k → server_output (item e) = false →
     k ∈ calls items).

(** The output that stands in for the missing one of a call. *)
Definition answer (e : Envelope) : option Envelope :=
  match item e with
  | FunctionCall _ _ id _ _ _ _ c _ | LocalShellCall _ id (Some c) _ _ _ =>
      Some (aborted_function_output id c)
  | ToolSearchCall _ id (Some c) _ _ _ _ =>
      Some (envelope (ToolSearchOutput (synthetic_output_id (lit "tso") id) (Some c)
                        (lit "completed") (lit "client") [] None))
  | CustomToolCall _ id _ c _ _ _ _ =>
      Some (envelope (CustomToolCallOutput (synthetic_output_id (lit "ctco") id) c None
                        (from_text (lit "aborted")) None))
  | _ => None
  end.
Definition unanswered (items : list Envelope) (e : Envelope) : bool :=
  is_some_and (λ k, bool_decide (k ∉ outputs items)) (call_key (item e)).
Definition orphan (items : list Envelope) (e : Envelope) : bool :=
  negb (server_output (item e)) &&
  is_some_and (λ k, bool_decide (k ∉ calls items)) (output_key (item e)).

(** The history with answers behind unanswered calls and without orphans. *)
Definition repaired_entry (items : list Envelope) (e : Envelope) : list Envelope :=
  if orphan items e then []
  else e :: (if unanswered items e then option_list (answer e) else []).
Definition repaired (items : list Envelope) : list Envelope :=
  concat (repaired_entry items <$> items).

(** Calls whose missing output is a defect of the program. *)
Definition asserted (e : Envelope) : bool :=
  match item e with
  | CustomToolCall _ _ _ _ _ _ _ _ | LocalShellCall _ _ (Some _) _ _ _ => negb (inherited e)
  | _ => false
  end.
Definition defective (items : list Envelope) : bool :=
  existsb (λ e, unanswered items e && asserted e) items || existsb (orphan items) items.

(** ** The loops against the reference *)

Lemma ids_elem f items c : c ∈ ids f items ↔ ∃ e, e ∈ items ∧ f (item e) = Some c.
Proof. unfold ids. by rewrite elem_of_list_to_set, list_elem_of_omap. Qed.
Lemma calls_elem items k : k ∈ calls items ↔ ∃ e, e ∈ items ∧ call_key (item e) = Some k.
Proof. apply list_elem_of_omap. Qed.
Lemma outputs_elem items k : k ∈ outputs items ↔ ∃ e, e ∈ items ∧ output_key (item e) = Some k.
Proof. apply list_elem_of_omap. Qed.

(** The sets of ids are the keys of one kind. *)
Lemma ids_key (f : Item → option str) (g : Item → option key) kd items c :
  (∀ i, f i = Some c ↔ g i = Some (kd, c)) →
  bool_decide (c ∈ ids f items) = bool_decide ((kd, c) ∈ omap (λ e, g (item e)) items).
Proof.
  intros Hfg. apply bool_decide_ext. rewrite ids_elem, list_elem_of_omap. naive_solver.
Qed.

Ltac by_item := intros i; destruct i; simpl; repeat case_match; naive_solver.

Lemma missing_output_spec items e :
  missing_output (ids function_output_id items) (ids tool_search_output_id items)
    (ids custom_tool_output_id items) e =
  if unanswered items e then
    _ ← (if asserted e then error_or_panic else Ok tt); Ok (answer e)
  else Ok None.
Proof.
  unfold missing_output, unanswered, asserted, answer, outputs.
  destruct (item e) as [| | | |? ? [c|]|? ? ? ? ? ? ? c|? ? [c|]| |? ? ? c| | | | | | | | |]; try done; simpl.
  all: first
    [ rewrite (ids_key function_output_id output_key KFunction) by by_item
    | rewrite (ids_key tool_search_output_id output_key KSearch) by by_item
    | rewrite (ids_key custom_tool_output_id output_key KCustom) by by_item ].
  all: repeat case_bool_decide; try done; destruct (inherited e); done.
Qed.

Lemma is_orphan_spec items e :
  is_orphan (ids function_call_id items) (ids tool_search_call_id items)
    (ids custom_tool_call_id items) e = orphan items e.
Proof.
  unfold is_orphan, orphan, calls.
  destruct (item e) as [| | | | | | |? [c|]| |? c|? [c|]| | | | | | |]; try done; simpl;
    rewrite ?andb_false_r; try done; rewrite !bool_decide_not.
  - by rewrite (ids_key function_call_id call_key KFunction) by by_item.
  - by rewrite (ids_key custom_tool_call_id call_key KCustom) by by_item.
  - by rewrite (ids_key tool_search_call_id call_key KSearch) by by_item.
Qed.

Lemma insert_loop_app l a b :
  insert_loop l (a ++ b) = l' ← insert_loop l a; insert_loop l' b.
Proof.
  revert l; induction a as [|[i o] a IH]; intros l; simpl; [done|].
  destruct (vec_insert l (i + 1) o); simpl; auto.
Qed.

(** Inserting from the back puts every output directly behind its call. *)
Lemma insert_missing f g idx pre items :
  (∀ e, e ∈ items → f e = Ok (g e)) → length pre = idx →
  ∃ m, missing_loop f idx items = Ok m ∧
    insert_loop (pre ++ items) (reverse m) =
      Ok (pre ++ concat ((λ e, e :: option_list (g e)) <$> items)).
Proof.
  revert idx pre; induction items as [|e items IH]; intros idx pre Hf Hlen.
  { exists []. split; [done|]. simpl. by rewrite !app_nil_r. }
  destruct (IH (S idx) (pre ++ [e])) as (m & Hm & Hins).
  { intros e' He'. apply Hf. by right. }
  { rewrite length_app. simpl. lia. }
  rewrite <-!app_assoc in Hins. simpl in Hins.
  simpl. rewrite Hf by left. simpl. rewrite Hm. simpl. eexists. split; [done|].
  destruct (g e) as [o|]; simpl; [|done].
  rewrite reverse_cons, insert_loop_app, Hins. simpl. unfold vec_insert.
  rewrite decide_True by (rewrite length_app; simpl; lia). simpl.
  rewrite take_app_ge, drop_app_ge by lia.
  replace (idx + 1 - length pre) with 1 by lia. simpl. by rewrite take_0, drop_0, <-app_assoc.
Qed.

Lemma missing_loop_panic f idx items :
  Exists (λ e, f e = Panic) items → Forall (λ e, ∀ x, f e ≠ Err x) items →
  missing_loop f idx items = Panic.
Proof.
  revert idx; induction items as [|e items IH]; intros idx Hex Hok; simpl.
  - by apply Exists_nil in Hex.
  - apply Forall_cons in Hok as [He Hok]. destruct (f e) as [o|x|] eqn:E; simpl; [|by destruct (He x)|done].
    apply Exists_cons in Hex as [?|Hex]; [congruence|]. by rewrite IH.
Qed.

Lemma orphan_loop_release orph pos items :
  debug_assertions = false →
  ∃ ps, orphan_loop orph pos items = Ok ps ∧ Forall (λ p, pos ≤ p)%nat ps ∧
    retain_loop pos ps items = List.filter (λ e, negb (orph e)) items ∧
    (ps = [] → Forall (λ e, orph e = false) items).
Proof.
  intros Hd. revert pos; induction items as [|e items IH]; intros pos; simpl.
  { exists []. repeat split; constructor. }
  destruct (IH (S pos)) as (ps & Hps & Hge & Hret & Hnil).
  destruct (orph e) eqn:E; simpl.
  - unfold error_or_panic. rewrite Hd. simpl. rewrite Hps. simpl. exists (pos :: ps).
    split; [done|]. split; [constructor; [done|]; eapply Forall_impl; [done|]; simpl; lia|].
    split; [|done]. by rewrite decide_True.
  - exists ps. split; [done|]. split; [eapply Forall_impl; [done|]; simpl; lia|].
    split; [|by constructor; auto].
    destruct ps as [|p ps]; [by rewrite Hret|].
    apply Forall_cons in Hge as [Hp _]. rewrite decide_False by lia. by rewrite Hret.
Qed.

Lemma orphan_loop_debug orph pos items :
  debug_assertions = true →
  orphan_loop orph pos items = if existsb orph items then Panic else Ok [].
Proof.
  intros Hd. revert pos; induction items as [|e items IH]; intros pos; simpl; [done|].
  destruct (orph e); simpl; [by unfold error_or_panic; rewrite Hd|]. apply IH.
Qed.

Lemma filter_all {A} (f : A → bool) l : Forall (λ x, f x = true) l → List.filter f l = l.
Proof. induction 1 as [|x l Hx _ IH]; simpl; [done|]. by rewrite Hx, IH. Qed.

(** Filling in answers adds outputs of the same keys as the calls, and no
    calls. *)
Lemma answer_facts e o :
  answer e = Some o → output_key (item o) = call_key (item e) ∧ call_key (item e) ≠ None ∧
  call_key (item o) = None ∧ server_output (item o) = false.
Proof. unfold answer. by destruct (item e) as [| | | |? ? [c|]| |? ? [c|]| | | | | | | | | | |]; intros [= <-]. Qed.

Lemma answer_exists e k : call_key (item e) = Some k → ∃ o, answer e = Some o.
Proof. unfold answer. destruct (item e) as [| | | |? ? [c|]| |? ? [c|]| | | | | | | | | | |]; naive_solver. Qed.

Lemma elem_of_flat {A B} (g : A → list B) l y :
  y ∈ concat (g <$> l) ↔ ∃ x, x ∈ l ∧ y ∈ g x.
Proof.
  induction l as [|x l IH]; simpl; [set_solver|]. rewrite elem_of_app, IH. set_solver.
Qed.

Definition filled (items : list Envelope) : list Envelope :=
  concat ((λ e, e :: (if unanswered items e then option_list (answer e) else [])) <$> items).

Lemma filled_elem items e :
  e ∈ filled items ↔
  e ∈ items ∨ ∃ c, c ∈ items ∧ unanswered items c = true ∧ answer c = Some e.
Proof.
  unfold filled. rewrite elem_of_flat. split.
  - intros (c & Hc & He). apply elem_of_cons in He as [->|He]; [by left|right].
    destruct (unanswered items c) eqn:E; [|by apply not_elem_of_nil in He].
    exists c. destruct (answer c); simpl in He; set_solver.
  - intros [He|(c & Hc & Hu & Ha)]; [exists e; split; [done|left]|].
    exists c. split; [done|]. rewrite Hu, Ha. right. left.
Qed.

Lemma filled_calls items k : k ∈ calls (filled items) ↔ k ∈ calls items.
Proof.
  rewrite !calls_elem. setoid_rewrite filled_elem. split; [|naive_solver].
  intros (e & [He|(c & _ & _ & Ha)] & Hk); [by exists e|].
  apply answer_facts in Ha as (_ & _ & Hn & _). congruence.
Qed.

Lemma filled_orphan items e : orphan (filled items) e = orphan items e.
Proof.
  unfold orphan. f_equal. destruct (output_key (item e)) as [k|]; [|done]. simpl.
  apply bool_decide_ext. by rewrite filled_calls.
Qed.

Lemma filter_concat {A B} (f : B → bool) (g : A → list B) l :
  List.filter f (concat (g <$> l)) = concat ((λ x, List.filter f (g x)) <$> l).
Proof. induction l as [|x l IH]; [done|]. rewrite !fmap_cons. simpl. by rewrite List.filter_app, IH. Qed.

(** An answer is never an orphan, and a call is not one either. *)
Lemma orphan_answer items e o :
  e ∈ items → answer e = Some o → orphan items o = false ∧ orphan items e = false.
Proof.
  intros He Ha. pose proof (answer_facts e o Ha) as (Hk & Hne & _ & _). unfold orphan.
  rewrite Hk. destruct (call_key (item e)) as [k|] eqn:E; [|done]. simpl.
  rewrite bool_decide_false; [|rewrite calls_elem; intros Hn; apply Hn; by exists e].
  rewrite andb_false_r. split; [done|]. by destruct (item e).
Qed.

Lemma filled_filter items :
  List.filter (λ e, negb (orphan (filled items) e)) (filled items) = repaired items.
Proof.
  rewrite (List.filter_ext _ (λ e, negb (orphan items e))) by (intros; by rewrite filled_orphan).
  unfold filled, repaired. rewrite filter_concat. f_equal. apply list_fmap_ext.
  intros i e Hi. apply list_elem_of_lookup_2 in Hi. unfold repaired_entry. simpl.
  destruct (unanswered items e); [|by destruct (orphan items e)].
  destruct (answer e) as [o|] eqn:Ha; simpl; [|by destruct (orphan items e)].
  destruct (orphan_answer items e o Hi Ha) as [-> ->]. done.
Qed.

Lemma unanswered_defect items :
  existsb (λ e, unanswered items e && asserted e) items = false →
  ∀ e, e ∈ items → unanswered items e = true → asserted e = false.
Proof.
  intros Hex e He Hu. destruct (asserted e) eqn:E; [|done].
  assert (existsb (λ e, unanswered items e && asserted e) items = true); [|congruence].
  apply existsb_exists. exists e. by rewrite <-list_elem_of_In, Hu, E.
Qed.

(** Both builds: the release build repairs every history, a build with debug
    assertions repairs those without a defect and panics on the others. *)
Lemma ensure_spec items :
  ensure_call_outputs_present items =
  if debug_assertions && existsb (λ e, unanswered items e && asserted e) items then Panic
  else Ok (filled items).
Proof.
  unfold ensure_call_outputs_present.
  set (f := missing_output _ _ _).
  assert (∀ e, f e = if unanswered items e
    then _ ← (if asserted e then error_or_panic else Ok tt); Ok (answer e) else Ok None) as Hf
    by (intros; apply missing_output_spec).
  unfold error_or_panic in Hf.
  destruct (debug_assertions && existsb _ items) eqn:Hd.
  - apply andb_true_iff in Hd as [Hd Hex]. rewrite missing_loop_panic; [done| |].
    + apply existsb_exists in Hex as (e & He & Hb). apply andb_true_iff in Hb as [Hu Ha].
      apply Exists_exists. exists e. rewrite list_elem_of_In, Hf, Hu, Ha, Hd. done.
    + apply Forall_forall. intros e _ x. rewrite Hf, Hd. by repeat case_match.
  - destruct (insert_missing f (λ e, if unanswered items e then answer e else None) 0 [] items)
      as (m & Hm & Hins); [|done|].
    + intros e He. rewrite Hf. destruct (unanswered items e) eqn:Hu; [|done].
      apply andb_false_iff in Hd as [->|Hex]; [by destruct (asserted e)|].
      by rewrite (unanswered_defect items Hex e He Hu).
    + simpl in Hins. rewrite Hm. simpl. rewrite Hins. unfold filled. do 2 f_equal.
      apply list_fmap_ext. intros ? e _. by destruct (unanswered items e).
Qed.

Lemma remove_spec items :
  remove_orphan_outputs items =
  if debug_assertions && existsb (orphan items) items then Panic
  else Ok (List.filter (λ e, negb (orphan items e)) items).
Proof.
  unfold remove_orphan_outputs. set (orph := is_orphan _ _ _).
  assert (∀ e, orph e = orphan items e) as Horph by (intros; apply is_orphan_spec).
  assert (∀ l, existsb orph l = existsb (orphan items) l) as Hex.
  { intros l. induction l as [|e l IH]; simpl; [done|]. by rewrite Horph, IH. }
  rewrite <-(List.filter_ext (λ e, negb (orph e))) by (intros; by rewrite Horph).
  destruct debug_assertions eqn:Hd; simpl.
  - rewrite orphan_loop_debug, <-Hex by done. destruct (existsb orph items) eqn:E; simpl; [done|].
    rewrite filter_all; [done|]. apply Forall_forall. intros e He. apply negb_true_iff.
    destruct (orph e) eqn:Ho; [|done]. assert (existsb orph items = true); [|congruence].
    apply existsb_exists. exists e. by rewrite <-list_elem_of_In.
  - destruct (orphan_loop_release orph 0 items Hd) as (ps & -> & _ & Hret & Hnil). simpl.
    destruct ps as [|p ps]; simpl; [|by rewrite Hret].
    rewrite filter_all; [done|]. eapply Forall_impl; [by apply Hnil|]. simpl. by intros e ->.
Qed.

Lemma filled_orphans items : existsb (orphan (filled items)) (filled items) = existsb (orphan items) items.
Proof.
  apply eq_true_iff_eq. rewrite !existsb_exists. setoid_rewrite <-list_elem_of_In.
  setoid_rewrite filled_orphan. setoid_rewrite filled_elem. split; [|naive_solver].
  intros (e & [He|(c & Hc & _ & Ha)] & Ho); [by exists e|].
  by rewrite (proj1 (orphan_answer items c e Hc Ha)) in Ho.
Qed.

Lemma normalize_spec modalities items :
  normalize_history modalities items =
  if debug_assertions && defective items then Panic
  else Ok (strip_audio_when_unsupported modalities
             (strip_images_when_unsupported modalities (repaired items))).
Proof.
  unfold normalize_history, defective. rewrite ensure_spec.
  destruct debug_assertions eqn:Hd; simpl; [destruct (existsb _ items); simpl; [done|]|];
    rewrite remove_spec, filled_orphans, Hd, filled_filter; simpl; [|done].
  by destruct (existsb (orphan items) items).
Qed.

(** ** Pairing *)

Lemma repaired_elem items e :
  e ∈ repaired items ↔
  (e ∈ items ∧ orphan items e = false) ∨
  ∃ c, c ∈ items ∧ unanswered items c = true ∧ answer c = Some e.
Proof.
  rewrite <-filled_filter, list_elem_of_In, filter_In, <-list_elem_of_In, filled_elem, filled_orphan,
    negb_true_iff.
  split; [naive_solver|]. intros [?|(c & Hc & Hu & Ha)]; [naive_solver|].
  split; [naive_solver|]. by apply (orphan_answer items c e).
Qed.

Lemma repaired_calls items k : k ∈ calls (repaired items) ↔ k ∈ calls items.
Proof.
  rewrite !calls_elem. setoid_rewrite repaired_elem. split.
  - intros (e & [[He _]|(c & _ & _ & Ha)] & Hk); [by exists e|].
    apply answer_facts in Ha as (_ & _ & Hn & _). congruence.
  - intros (e & He & Hk). exists e. split; [|done]. left. split; [done|].
    destruct (answer_exists e k Hk) as [o Ho]. by apply (orphan_answer items e o).
Qed.

Lemma repaired_paired items : paired (repaired items).
Proof.
  split.
  - intros e k He Hk. assert (k ∈ calls items) as Hin.
    { apply repaired_calls, calls_elem. by exists e. }
    apply calls_elem in Hin as (c & Hc & Hck). apply outputs_elem. setoid_rewrite repaired_elem.
    destruct (decide (k ∈ outputs items)) as [Ho|Hn].
    + apply outputs_elem in Ho as (o & Ho & Hok). exists o. split; [|done]. left. split; [done|].
      unfold orphan. rewrite Hok. simpl. rewrite bool_decide_false; [apply andb_false_r|].
      intros Hn. apply Hn, calls_elem. by exists c.
    + destruct (answer_exists c k Hck) as [o Ha]. exists o.
      destruct (answer_facts c o Ha) as (Hko & _). rewrite Hko. split; [|done]. right. exists c.
      split; [done|]. split; [|done]. unfold unanswered. rewrite Hck. simpl. by apply bool_decide_true.
  - intros e k He Hk Hs. apply repaired_calls.
    apply repaired_elem in He as [[_ Ho]|(c & Hc & _ & Ha)].
    + unfold orphan in Ho. rewrite Hk, Hs in Ho. simpl in Ho.
      apply bool_decide_eq_false in Ho. by destruct (decide (k ∈ calls items)).
    + apply answer_facts in Ha as (Hko & _). apply calls_elem. exists c. by rewrite <-Hko.
Qed.

(** A paired history needs no repair. *)
Lemma paired_unanswered items e : paired items → e ∈ items → unanswered items e = false.
Proof.
  intros [Hc _] He. unfold unanswered. destruct (call_key (item e)) as [k|] eqn:E; [|done]. simpl.
  apply bool_decide_false. intros Hn. apply Hn. by eapply Hc.
Qed.
Lemma paired_orphan items e : paired items → e ∈ items → orphan items e = false.
Proof.
  intros [_ Ho] He. unfold orphan. destruct (server_output (item e)) eqn:Hs; [done|].
  destruct (output_key (item e)) as [k|] eqn:E; [|done]. simpl.
  apply bool_decide_false. intros Hn. apply Hn. by eapply Ho.
Qed.

Lemma repaired_fixed items : paired items → repaired items = items.
Proof.
  intros Hp. unfold repaired. transitivity (concat ((λ e : Envelope, [e]) <$> items)).
  - f_equal. apply list_fmap_ext. intros i e Hi%list_elem_of_lookup_2. unfold repaired_entry.
    by rewrite (paired_orphan items e), (paired_unanswered items e).
  - clear. induction items as [|e items IH]; [done|]. rewrite fmap_cons. simpl. by rewrite IH.
Qed.

Lemma paired_not_defective items : paired items → defective items = false.
Proof.
  intros Hp. unfold defective. apply orb_false_iff.
  split; apply not_true_is_false; rewrite existsb_exists; intros (e & He & Hb);
    apply list_elem_of_In in He.
  - by rewrite (paired_unanswered items e) in Hb.
  - by rewrite (paired_orphan items e) in Hb.
Qed.

(** Changes of items that keep calls and outputs keep the pairing. *)
Definition keeps_keys (g : Item → Item) : Prop :=
  ∀ i, call_key (g i) = call_key i ∧ output_key (g i) = output_key i ∧
       server_output (g i) = server_output i.

Lemma omap_keep {A B} (f : A → option B) (h : A → A) (l : list A) :
  (∀ x, f (h x) = f x) → omap f (h <$> l) = omap f l.
Proof. intros Hf. induction l as [|x l IH]; [done|]. csimpl. by rewrite Hf, IH. Qed.

Lemma paired_fmap g items :
  keeps_keys g → paired items → paired ((λ e, with_item e (g (item e))) <$> items).
Proof.
  intros Hg [Hc Ho]. set (h := λ e : Envelope, with_item e (g (item e))).
  assert (calls (h <$> items) = calls items) as Ec by (apply omap_keep; intros; apply Hg).
  assert (outputs (h <$> items) = outputs items) as Eo by (apply omap_keep; intros; apply Hg).
  split; intros e k He; apply list_elem_of_fmap in He as (e' & -> & He'); simpl;
    destruct (Hg (item e')) as (E1 & E2 & E3); rewrite ?E1, ?E2, ?E3, ?Ec, ?Eo; eauto.
Qed.

Lemma strip_image_keys : keeps_keys strip_image_item.
Proof. by intros []. Qed.
Lemma strip_audio_keys : keeps_keys strip_audio_item.
Proof. by intros []. Qed.

(** ** Media *)

(** [supports modalities i]: the item has no content the model does not take. *)
Definition content_supported (modalities : list InputModality) (c : ContentItem) : Prop :=
  (is_image c = true → ModImage ∈ modalities) ∧ (is_audio c = true → ModAudio ∈ modalities).
Definition output_supported (modalities : list InputModality) (c : OutputItem) : Prop :=
  match c with
  | InputImage _ _ => ModImage ∈ modalities
  | InputAudio _ => ModAudio ∈ modalities
  | _ => True
  end.
Definition payload_supported (modalities : list InputModality)
    (output : @FunctionCallOutputPayload ImageReference ImageDetail) : Prop :=
  match body output with Text _ => True | ContentItems l => Forall (output_supported modalities) l end.
Definition supported (modalities : list InputModality) (i : Item) : Prop :=
  match i with
  | Message _ _ _ _ content _ _ => Forall (content_supported modalities) content
  | FunctionCallOutput _ _ _ _ output _ | CustomToolCallOutput _ _ _ output _ =>
      payload_supported modalities output
  | ImageGenerationCall _ _ _ _ result _ => result = [] ∨ ModImage ∈ modalities
  | _ => True
  end.

Definition strip_item (modalities : list InputModality) (i : Item) : Item :=
  let i := if bool_decide (ModImage ∈ modalities) then i else strip_image_item i in
  if bool_decide (ModAudio ∈ modalities) then i else strip_audio_item i.

Lemma strip_is_map modalities items :
  strip_audio_when_unsupported modalities (strip_images_when_unsupported modalities items)
  = (λ e, with_item e (strip_item modalities (item e))) <$> items.
Proof.
  unfold strip_audio_when_unsupported, strip_images_when_unsupported, strip_item.
  repeat case_bool_decide; rewrite <-?list_fmap_compose; try done.
  rewrite <-(list_fmap_id items) at 1. apply list_fmap_ext. by intros ? [].
Qed.

(** *** What the media notes may change

    A piece of content that the model does not take becomes a note, everything
    else stays as it is. *)
Inductive content_cleaned (modalities : list InputModality) : AnnotatedContent → AnnotatedContent → Prop :=
  | content_image i d k : ModImage ∉ modalities →
      content_cleaned modalities {| content_of := Content.InputImage i d; kind_of := k |}
        {| content_of := Content.InputText (lit "image content omitted because you do not support image input");
           kind_of := lit "images.unsupported" |}
  | content_audio a k : ModAudio ∉ modalities →
      content_cleaned modalities {| content_of := Content.InputAudio a; kind_of := k |}
        {| content_of := Content.InputText (lit "audio content omitted because you do not support audio input");
           kind_of := lit "audio.unsupported" |}
  | content_kept c : content_supported modalities (content_of c) → content_cleaned modalities c c.
Inductive output_cleaned (modalities : list InputModality) : OutputItem → OutputItem → Prop :=
  | output_image i d : ModImage ∉ modalities →
      output_cleaned modalities (InputImage i d)
        (InputText (lit "image content omitted because you do not support image input"))
  | output_audio a : ModAudio ∉ modalities →
      output_cleaned modalities (InputAudio a)
        (InputText (lit "audio content omitted because you do not support audio input"))
  | output_kept c : output_supported modalities c → output_cleaned modalities c c.
Inductive payload_cleaned (modalities : list InputModality) :
    @FunctionCallOutputPayload ImageReference ImageDetail →
    @FunctionCallOutputPayload ImageReference ImageDetail → Prop :=
  | payload_text t ok : payload_cleaned modalities {| body := Text t; success := ok |} {| body := Text t; success := ok |}
  | payload_items l l' ok : Forall2 (output_cleaned modalities) l l' →
      payload_cleaned modalities {| body := ContentItems l; success := ok |} {| body := ContentItems l'; success := ok |}.
(** The classifications of a message's content, by position, "unknown" where there
    is none; a message that loses media has one for each piece. *)
Definition known_kinds (m : option (@InternalChatMessageMetadataPassthrough ExecutedToolCall)) : list ContentItemKind :=
  default [] (m ← m; content_item_kinds m).
Inductive cleaned (modalities : list InputModality) : Item → Item → Prop :=
  | cleaned_message enc status id role content phase m cs :
      Forall2 (content_cleaned modalities) (zip_kinds content (known_kinds m)) cs →
      cleaned modalities (Message enc status id role content phase m)
        (Message enc status id role (content_of <$> cs) phase
           (Some (with_kinds (default default_passthrough m) (Some (kind_of <$> cs)))))
  | cleaned_function_output id c n ns output output' m :
      payload_cleaned modalities output output' →
      cleaned modalities (FunctionCallOutput id c n ns output m) (FunctionCallOutput id c n ns output' m)
  | cleaned_custom_output id c n output output' m :
      payload_cleaned modalities output output' →
      cleaned modalities (CustomToolCallOutput id c n output m) (CustomToolCallOutput id c n output' m)
  | cleaned_image_call enc id status rp result m : ModImage ∉ modalities →
      cleaned modalities (ImageGenerationCall enc id status rp result m)
        (ImageGenerationCall enc id status rp [] m)
  | cleaned_kept i : supported modalities i → cleaned modalities i i.

(** A message whose entries all have a classification. *)
Definition annotated enc status id role phase passthrough (cs : list AnnotatedContent) : Item :=
  Message enc status id role (content_of <$> cs) phase
    (Some (with_kinds (default default_passthrough passthrough) (Some (kind_of <$> cs)))).

Lemma zip_kinds_annotated cs : zip_kinds (content_of <$> cs) (kind_of <$> cs) = cs.
Proof. induction cs as [|[c k] cs IH]; [done|]. csimpl. by rewrite IH. Qed.

Lemma strip_message_annotates u note enc status id role content phase passthrough :
  strip_message u note (Message enc status id role content phase passthrough) =
  annotated enc status id role phase passthrough
    ((λ c, if u (content_of c) then note else c) <$> zip_kinds content (known_kinds passthrough)).
Proof. unfold strip_message, annotated. simpl. by destruct passthrough as [[]|]. Qed.

Lemma strip_message_annotated u note enc status id role phase passthrough cs :
  strip_message u note (annotated enc status id role phase passthrough cs) =
  annotated enc status id role phase passthrough
    ((λ c, if u (content_of c) then note else c) <$> cs).
Proof. unfold strip_message, annotated. simpl. by rewrite zip_kinds_annotated. Qed.

(** The replacement of a piece of content, for a model with these modalities. *)
Definition strip_content (modalities : list InputModality) (c : AnnotatedContent) : AnnotatedContent :=
  let c := if bool_decide (ModImage ∈ modalities) then c
           else if is_image (content_of c) then media_note IMAGE_text IMAGE_kind else c in
  if bool_decide (ModAudio ∈ modalities) then c
  else if is_audio (content_of c) then media_note AUDIO_text AUDIO_kind else c.

Lemma strip_content_idem modalities c :
  strip_content modalities (strip_content modalities c) = strip_content modalities c.
Proof.
  destruct c as [c k]. unfold strip_content.
  by repeat case_bool_decide; destruct c; simpl.
Qed.

Lemma strip_content_supported modalities c :
  content_supported modalities (content_of (strip_content modalities c)).
Proof.
  destruct c as [c k]. unfold strip_content, content_supported.
  by repeat case_bool_decide; destruct c; simpl.
Qed.

Lemma strip_annotated modalities enc status id role phase passthrough cs :
  strip_item modalities (annotated enc status id role phase passthrough cs) =
  annotated enc status id role phase passthrough (strip_content modalities <$> cs).
Proof.
  unfold strip_item, strip_content, strip_image_item, strip_audio_item.
  repeat case_bool_decide; simpl;
    rewrite ?list_fmap_id, ?strip_message_annotated, <-?list_fmap_compose; try done.
Qed.

Lemma strip_message_item modalities enc status id role content phase passthrough :
  strip_item modalities (Message enc status id role content phase passthrough) =
    Message enc status id role content phase passthrough ∧
    (ModImage ∈ modalities ∧ ModAudio ∈ modalities) ∨
  strip_item modalities (Message enc status id role content phase passthrough) =
  annotated enc status id role phase passthrough
    (strip_content modalities <$> zip_kinds content (known_kinds passthrough)).
Proof.
  unfold strip_item, strip_content. case_bool_decide; case_bool_decide; [by left|right..].
  - apply strip_message_annotates.
  - apply strip_message_annotates.
  - change (strip_image_item (Message enc status id role content phase passthrough))
      with (strip_message is_image (media_note IMAGE_text IMAGE_kind)
              (Message enc status id role content phase passthrough)).
    rewrite strip_message_annotates. unfold strip_audio_item, annotated at 1. fold (annotated
      enc status id role phase passthrough ((λ c, if is_image (content_of c) then media_note IMAGE_text IMAGE_kind else c)
        <$> zip_kinds content (known_kinds passthrough))).
    by rewrite strip_message_annotated, <-list_fmap_compose.
Qed.

(** The same for the content items of a tool output. *)
Definition strip_output (modalities : list InputModality) (c : OutputItem) : OutputItem :=
  let c := if bool_decide (ModImage ∈ modalities) then c else strip_output_image c in
  if bool_decide (ModAudio ∈ modalities) then c else strip_output_audio c.

Lemma strip_output_facts modalities c :
  strip_output modalities (strip_output modalities c) = strip_output modalities c ∧
  output_supported modalities (strip_output modalities c).
Proof. unfold strip_output. by repeat case_bool_decide; destruct c. Qed.

Lemma map_content_items_compose f g output :
  map_content_items f (map_content_items g output) = map_content_items (f ∘ g) output.
Proof.
  unfold map_content_items. destruct (body output) eqn:E; [by rewrite E|]. simpl.
  by rewrite <-list_fmap_compose.
Qed.

Lemma map_content_items_id output : map_content_items (λ c, c) output = output.
Proof. unfold map_content_items. destruct output as [[] s]; simpl; by rewrite ?list_fmap_id. Qed.

Lemma strip_payload modalities output :
  (if bool_decide (ModAudio ∈ modalities) then λ o, o else map_content_items strip_output_audio)
    ((if bool_decide (ModImage ∈ modalities) then λ o, o else map_content_items strip_output_image) output)
  = map_content_items (strip_output modalities) output.
Proof.
  unfold strip_output. repeat case_bool_decide; rewrite ?map_content_items_compose; try done.
  by rewrite map_content_items_id.
Qed.

Lemma payload_facts modalities output :
  map_content_items (strip_output modalities) (map_content_items (strip_output modalities) output)
    = map_content_items (strip_output modalities) output ∧
  payload_supported modalities (map_content_items (strip_output modalities) output).
Proof.
  split.
  - rewrite map_content_items_compose. unfold map_content_items. destruct (body output); [done|].
    do 2 f_equal. apply list_fmap_ext. intros ? c _. apply strip_output_facts.
  - unfold payload_supported, map_content_items. destruct (body output) eqn:E; simpl; [by rewrite E|].
    apply Forall_fmap, Forall_true. intros c. apply strip_output_facts.
Qed.

Lemma strip_output_item modalities i :
  strip_item modalities i =
  match i with
  | Message _ _ _ _ _ _ _ => strip_item modalities i
  | FunctionCallOutput id c n ns output p =>
      FunctionCallOutput id c n ns (map_content_items (strip_output modalities) output) p
  | CustomToolCallOutput id c n output p =>
      CustomToolCallOutput id c n (map_content_items (strip_output modalities) output) p
  | ImageGenerationCall enc id status rp result p =>
      ImageGenerationCall enc id status rp (if bool_decide (ModImage ∈ modalities) then result else []) p
  | _ => i
  end.
Proof.
  destruct i; try done; try rewrite <-strip_payload; unfold strip_item; by repeat case_bool_decide.
Qed.

Lemma strip_item_facts modalities i :
  strip_item modalities (strip_item modalities i) = strip_item modalities i ∧
  supported modalities (strip_item modalities i).
Proof.
  destruct i as [|enc status id role content phase p| | | | | |id c n ns output p| |id c n output p| | |
    enc id status rp result p| | | | |];
    try (rewrite !strip_output_item; done).
  - destruct (strip_message_item modalities enc status id role content phase p)
      as [[-> [Hi Ha]]| ->].
    + destruct (strip_message_item modalities enc status id role content phase p)
        as [[-> _]|E]; [split; [done|]; simpl; apply Forall_true; by split|].
      split; [|simpl; apply Forall_true; by split].
      unfold strip_item. by rewrite !bool_decide_true.
    + rewrite strip_annotated, <-list_fmap_compose. split.
      * f_equal. apply list_fmap_ext. intros ? c _. apply strip_content_idem.
      * simpl. rewrite <-list_fmap_compose. apply Forall_fmap, Forall_true. intros c.
        apply strip_content_supported.
  - rewrite strip_output_item. rewrite strip_output_item. split; [f_equal|]; apply payload_facts.
  - rewrite strip_output_item. rewrite strip_output_item. split; [f_equal|]; apply payload_facts.
  - rewrite strip_output_item. rewrite strip_output_item. simpl. case_bool_decide; auto.
Qed.

Lemma strip_item_keys modalities : keeps_keys (strip_item modalities).
Proof.
  intros i. unfold strip_item.
  destruct (strip_image_keys i) as (Hc & Ho & Hs).
  destruct (strip_audio_keys i) as (Hc' & Ho' & Hs').
  destruct (strip_audio_keys (strip_image_item i)) as (Hc'' & Ho'' & Hs'').
  repeat case_bool_decide; split_and!; congruence.
Qed.

Lemma strip_content_cleaned modalities c : content_cleaned modalities c (strip_content modalities c).
Proof.
  destruct c as [c k]. unfold strip_content.
  destruct c; repeat case_bool_decide; simpl; try (by constructor); by apply content_kept.
Qed.
Lemma strip_payload_cleaned modalities output :
  payload_cleaned modalities output (map_content_items (strip_output modalities) output).
Proof.
  destruct output as [[t|l] ok]; unfold map_content_items; simpl; constructor.
  apply Forall2_fmap_r, Forall_Forall2_diag, Forall_true. intros c. unfold strip_output.
  destruct c; repeat case_bool_decide; simpl; by constructor.
Qed.
Lemma strip_item_cleaned modalities i : cleaned modalities i (strip_item modalities i).
Proof.
  destruct i as [|enc status id role content phase p| | | | | |id c n ns output p| |id c n output p| | |
    enc id status rp result p| | | | |]; try (rewrite strip_output_item; by apply cleaned_kept).
  - destruct (strip_message_item modalities enc status id role content phase p) as [[-> [Hi Ha]]| ->].
    + apply cleaned_kept. simpl. apply Forall_true. by split.
    + constructor. apply Forall2_fmap_r, Forall_Forall2_diag, Forall_true. apply strip_content_cleaned.
  - rewrite strip_output_item. constructor. apply strip_payload_cleaned.
  - rewrite strip_output_item. constructor. apply strip_payload_cleaned.
  - rewrite strip_output_item. case_bool_decide; [apply cleaned_kept; by right|by constructor].
Qed.


End normalize.

(** ** Dropping the first item *)
Section first_item.
Context {ExecutedToolCall ReasoningEffort MetadataRest : Type}.
Notation Item := (@ResponseItem ExecutedToolCall ReasoningEffort).
Notation Envelope := (@ResponseItemEnvelope ExecutedToolCall ReasoningEffort MetadataRest).
Notation key := (kind * str)%type.

(** [ContextManager::remove_first_item] on the items. *)
Definition remove_first_item (items : list Envelope) : list Envelope :=
  match items with
  | [] => []
  | removed :: items => remove_corresponding_for items (item removed)
  end.

Lemma position_remove {A} (f : A → bool) l :
  match position f l with
  | Some i => ∃ l1 x l2, l = l1 ++ x :: l2 ∧ f x = true ∧ vec_remove l i = l1 ++ l2
  | None => Forall (λ x, f x = false) l
  end.
Proof.
  destruct (position f l) as [i|] eqn:E; [|by apply position_None].
  apply position_Some in E as (x & Hx & Hf & _).
  exists (take i l), x, (drop (S i) l). split; [|done]. symmetry. by apply take_drop_middle.
Qed.

(** The counterpart of an item in the rest of the history. *)
Definition counterpart (i j : Item) : Prop :=
  (∃ k, call_key i = Some k ∧ output_key j = Some k) ∨
  (∃ k, output_key i = Some k ∧ call_key j = Some k).

Lemma remove_first_matching_spec (p : Item → bool) i (items : list Envelope) :
  (∀ j, p j = true ↔ counterpart i j) →
  (∃ l1 e l2, items = l1 ++ e :: l2 ∧ counterpart i (item e) ∧
     remove_first_matching items p = l1 ++ l2) ∨
  (remove_first_matching items p = items ∧ Forall (λ e, ¬ counterpart i (item e)) items).
Proof.
  intros Hp. unfold remove_first_matching.
  pose proof (position_remove (λ e : Envelope, p (item e)) items) as Hpos.
  destruct (position _ items) as [n|].
  - left. destruct Hpos as (l1 & e & l2 & -> & He & Hr). exists l1, e, l2. by rewrite <-Hp.
  - right. split; [done|]. eapply Forall_impl; [done|]. simpl. intros e He. rewrite <-Hp. congruence.
Qed.

Ltac by_counterpart :=
  intros j; unfold counterpart; simpl; destruct j; simpl; repeat case_match; unfold str_eqb;
  rewrite ?bool_decide_eq_true; naive_solver.

Lemma remove_corresponding_spec (items : list Envelope) (i : Item) :
  (∃ l1 e l2, items = l1 ++ e :: l2 ∧ counterpart i (item e) ∧
     remove_corresponding_for items i = l1 ++ l2) ∨
  (remove_corresponding_for items i = items ∧ Forall (λ e, ¬ counterpart i (item e)) items).
Proof.
  destruct i as [| | | |? ? [c|]|? ? ? ? ? ? ? c|? ? [c|]|? [c|]|? ? ? c|? c|? [c|]| | | | | | |];
    simpl; try (apply remove_first_matching_spec; by_counterpart);
    try (right; split; [done|]; apply Forall_true; intros e [(k & [=] & _)|(k & [=] & _)]).
  pose proof (position_remove (λ e : Envelope, is_function_call c (item e)) items) as H1.
  pose proof (position_remove (λ e : Envelope, is_local_shell_call c (item e)) items) as H2.
  destruct (position _ items) as [n|].
  - left. destruct H1 as (l1 & e & l2 & -> & He & Hr). exists l1, e, l2. split; [done|]. split; [|done].
    right. exists (KFunction, c). split; [done|]. destruct (item e); try done. simpl in *.
    unfold str_eqb in He. by apply bool_decide_eq_true in He as ->.
  - destruct (position _ items) as [n|].
    + left. destruct H2 as (l1 & e & l2 & -> & He & Hr). exists l1, e, l2. split; [done|]. split; [|done].
      right. exists (KFunction, c). split; [done|]. destruct (item e) as [| | | |? ? [c'|]| | | | | | | | | | | | |];
        try done. simpl in *. unfold str_eqb in He. by apply bool_decide_eq_true in He as ->.
    + right. split; [done|]. rewrite Forall_forall in *. intros e He.
      specialize (H1 e He). specialize (H2 e He).
      intros [(k & [=] & _)|(k & [= <-] & Hk)].
      destruct (item e) as [| | | |? ? [c'|]| |? ? [c'|]| | | | | | | | | | |]; simplify_eq/=;
        unfold str_eqb in *; by rewrite bool_decide_true in *.
Qed.

Lemma key_exclusive (i : Item) : call_key i = None ∨ output_key i = None.
Proof. destruct i; auto. Qed.

Lemma calls_app (l1 l2 : list Envelope) : calls (l1 ++ l2) = calls l1 ++ calls l2.
Proof. apply omap_app. Qed.
Lemma outputs_app (l1 l2 : list Envelope) : outputs (l1 ++ l2) = outputs l1 ++ outputs l2.
Proof. apply omap_app. Qed.
Lemma calls_cons (e : Envelope) l : calls (e :: l) = option_list (call_key (item e)) ++ calls l.
Proof. unfold calls. csimpl. by destruct (call_key (item e)). Qed.
Lemma outputs_cons (e : Envelope) l : outputs (e :: l) = option_list (output_key (item e)) ++ outputs l.
Proof. unfold outputs. csimpl. by destruct (output_key (item e)). Qed.

(** Pairing in terms of the keys. *)
Definition demands (items : list Envelope) : list key :=
  omap (λ e, if server_output (item e) then None else output_key (item e)) items.

Lemma paired_keys (items : list Envelope) : paired items ↔ calls items ⊆ outputs items ∧ demands items ⊆ calls items.
Proof.
  unfold paired. assert (∀ k, k ∈ demands items ↔
    ∃ e, e ∈ items ∧ output_key (item e) = Some k ∧ server_output (item e) = false) as Hd.
  { intros k. unfold demands. rewrite list_elem_of_omap.
    split; intros (e & He & Hk); exists e; (split; [done|]); destruct (server_output (item e)); naive_solver. }
  split.
  - intros [Hc Ho]. split; intros k; [rewrite calls_elem|rewrite Hd]; naive_solver.
  - intros [Hc Ho]. split; intros e k He Hk; [apply Hc, calls_elem; eauto|intros Hs].
    apply Ho, Hd. eauto.
Qed.

Lemma demands_app (l1 l2 : list Envelope) : demands (l1 ++ l2) = demands l1 ++ demands l2.
Proof. apply omap_app. Qed.
Lemma demands_cons (e : Envelope) l :
  demands (e :: l) = (if server_output (item e) then [] else option_list (output_key (item e))) ++ demands l.
Proof. unfold demands. csimpl. destruct (server_output (item e)); [done|]. by destruct (output_key (item e)). Qed.
Lemma demands_outputs (l : list Envelope) : demands l ⊆ outputs l.
Proof.
  intros k. unfold demands, outputs. rewrite !list_elem_of_omap. intros (e & He & Hk). exists e.
  destruct (server_output (item e)); naive_solver.
Qed.

(** Removing a key from both sides. *)
Lemma remove_key_output (k : key) (A O D1 D2 P : list key) (s : list key) :
  k :: A ⊆ k :: O → P ++ D1 ++ s ++ D2 ⊆ k :: A → D1 ++ D2 ⊆ O → k ∉ A → k ∉ O →
  A ⊆ O ∧ D1 ++ D2 ⊆ A.
Proof. intros H1 H2 H3 HA HO. split; set_solver. Qed.

(** Dropping the oldest item together with its counterpart keeps a paired
    history without repeated ids paired, and shortens it, so that a history can
    be cut from the front step by step without another normalisation. *)
Theorem remove_first_keeps_pairing (items : list Envelope) :
  items ≠ [] → paired items → NoDup (calls items) → NoDup (outputs items) →
  paired (remove_first_item items) ∧ NoDup (calls (remove_first_item items)) ∧
  NoDup (outputs (remove_first_item items)) ∧ (length (remove_first_item items) < length items)%nat.
Proof.
  intros Hne Hp Hc Ho. destruct items as [|i rest]; [done|]. simpl. rewrite paired_keys in *.
  destruct Hp as [Hp1 Hp2]. rewrite calls_cons, outputs_cons in *. rewrite demands_cons in Hp2.
  destruct (remove_corresponding_spec rest (item i)) as [(l1 & e & l2 & -> & Hcp & ->)|[-> Hn]].
  - rewrite !length_app. simpl. rewrite !calls_app, !outputs_app, !demands_app, !calls_cons, !outputs_cons,
      !demands_cons in *.
    pose proof (demands_outputs l1) as D1. pose proof (demands_outputs l2) as D2.
    destruct (key_exclusive (item i)) as [Ei|Ei], (key_exclusive (item e)) as [Ee|Ee];
      destruct Hcp as [(k & Hk1 & Hk2)|(k & Hk1 & Hk2)]; try congruence;
      rewrite Hk1, Hk2, ?Ei, ?Ee in *; simpl in *;
      rewrite <-?Permutation_middle in *;
      apply NoDup_cons in Hc as [Hkc Hc]; apply NoDup_cons in Ho as [Hko Ho];
      (split; [|split; [done|split; [done|lia]]]).
    all: eapply remove_key_output; [done| |set_solver|done|done];
      etransitivity; [|exact Hp2]; done.
  - split; [|split; [by apply NoDup_app in Hc as (_ & _ & ?)
               |split; [by apply NoDup_app in Ho as (_ & _ & ?)|simpl; lia]]].
    assert (∀ k, output_key (item i) = Some k → k ∉ calls rest) as Hno.
    { intros k Hk (e & He & Hke)%calls_elem. rewrite Forall_forall in Hn.
      apply (Hn e He). right. by exists k. }
    assert (∀ k, call_key (item i) = Some k → k ∉ outputs rest) as Hnc.
    { intros k Hk (e & He & Hke)%outputs_elem. rewrite Forall_forall in Hn.
      apply (Hn e He). left. by exists k. }
    destruct (key_exclusive (item i)) as [Ei|Ei]; rewrite Ei in *; simpl in *.
    + destruct (output_key (item i)) as [k|]; simpl in *; [|by destruct (server_output (item i))].
      specialize (Hno k eq_refl). split; [set_solver|]. set_solver.
    + destruct (call_key (item i)) as [k|]; simpl in *; [|by destruct (server_output (item i))].
      specialize (Hnc k eq_refl). exfalso. apply Hnc, Hp1. left.
Qed.

End first_item.

(** A function call, its output and a message. *)
Definition sample_history : list (@ResponseItemEnvelope unit unit unit) :=
  [envelope (FunctionCall None None None (lit "exec") None (lit "{}") None (lit "c1") None);
   envelope (FunctionCallOutput None (Some (lit "c1")) None None (from_text (lit "ok")) None);
   envelope (Message None None None (lit "user") [Content.InputText (lit "hi")] None None)].

Lemma remove_first_witness :
  paired sample_history ∧ paired (remove_first_item sample_history) ∧
  length (remove_first_item sample_history) = 1.
Proof.
  assert (paired sample_history) as Hp.
  { split; intros e k He; repeat (apply elem_of_cons in He as [->|He]); try (by apply not_elem_of_nil in He);
      simpl; intros [= <-]; vm_compute; repeat constructor. }
  split; [exact Hp|]. split; [|reflexivity].
  apply (remove_first_keeps_pairing sample_history).
  - discriminate.
  - exact Hp.
  - apply NoDup_singleton.
  - apply NoDup_singleton.
Defined.

(** An unanswered call gets its output, an orphan goes. *)
Example normalize_example :
  normalize_history false (λ s, s) []
    [envelope (FunctionCall None None (Some (lit "fc_1")) (lit "exec") None (lit "{}") None (lit "c1") None);
     envelope (FunctionCallOutput None (Some (lit "c2")) None None (from_text (lit "ok")) None)]
  = Ok [@envelope unit unit unit
          (FunctionCall None None (Some (lit "fc_1")) (lit "exec") None (lit "{}") None (lit "c1") None);
        envelope (FunctionCallOutput (Some (lit "fco_fco:fc_1")) (Some (lit "c1")) None None
                    (from_text (lit "aborted")) None)].
Proof. vm_compute. reflexivity. Qed.
