(* ===== verification/JsonOps.v ===== *)
(** * Operations on JSON values

    The operations of [serde_json] (with [preserve_order]) on values and maps
    that the kernel's model contracts use: indexing, pointers, equality,
    insertion, removal by swapping and extension; and the parsing of decimal
    numbers into binary64 as [f64::from_str] does it. *)
From Stdlib Require Import ZArith SpecFloat.
From S2P Require Import Prelude Str Float64 Json.

Abbreviation Map := (list (str * Value)).

(** ** Maps in insertion order *)
Definition mget (m : Map) (key : str) : option Value :=
  snd <$> find_first (λ e, str_eqb e.1 key) m.
Definition contains_key (m : Map) (key : str) : bool := is_some (mget m key).
Definition keys (m : Map) : list str := m.*1.

Fixpoint minsert (key : str) (v : Value) (m : Map) : Map :=
  match m with
  | [] => [(key, v)]
  | e :: m => if str_eqb e.1 key then (e.1, v) :: m else e :: minsert key v m
  end.
Definition mextend (m other : Map) : Map := foldl (λ m e, minsert e.1 e.2 m) m other.

(** [Map::remove] moves the last entry to the place of the removed one. *)
Definition mremove (key : str) (m : Map) : Map :=
  match position (λ e, str_eqb e.1 key) m, last m with
  | Some i, Some e => <[i := e]> (removelast m)
  | _, _ => m
  end.

(** ** Values *)
Definition as_array (v : Value) : option (list Value) :=
  match v with Array l => Some l | _ => None end.
Definition is_null (v : Value) : bool := match v with Null => true | _ => false end.

(** [v[key]]: null where there is no such entry. *)
Definition at_key (v : Value) (key : str) : Value := default Null (get v key).

Lemma get_Object m key : get (Object m) key = mget m key.
Proof. done. Qed.

(** [==]: numbers of the same kind by value, maps regardless of order. *)
Definition number_eqb (a b : Number) : bool :=
  match a, b with
  | PosInt n, PosInt n' => (n =? n')%N
  | NegInt z, NegInt z' => (z =? z')%Z
  | Float x, Float y => feq x y
  | _, _ => false
  end.
Fixpoint value_eqb (a b : Value) {struct a} : bool :=
  match a, b with
  | Null, Null => true
  | Bool x, Bool y => Bool.eqb x y
  | Num x, Num y => number_eqb x y
  | String x, String y => str_eqb x y
  | Array l, Array l' =>
      (fix go (l l' : list Value) : bool :=
         match l, l' with
         | [], [] => true
         | x :: l, y :: l' => value_eqb x y && go l l'
         | _, _ => false
         end) l l'
  | Object m, Object m' =>
      (length m =? length m')%nat &&
      (fix go (m : list (str * Value)) : bool :=
         match m with
         | [] => true
         | (k, x) :: m =>
             match mget m' k with Some y => value_eqb x y | None => false end && go m
         end) m
  | _, _ => false
  end.

(** ** Pointers *)
Definition is_digit (c : char) : bool := is_ascii_digit c.

(** An index of an array: digits without a sign or a leading zero. *)
Definition digits_value (s : str) : N := foldl (λ n c, (10 * n + (c - 48))%N) 0%N s.
Definition parse_index (s : str) : option nat :=
  match s with
  | [] => None
  | c :: rest =>
      if forallb is_digit s && negb ((c =? 48)%N && negb (is_empty rest))
      then Some (N.to_nat (digits_value s)) else None
  end.

(** [replace("~1", "/").replace("~0", "~")] on a reference token. *)
Fixpoint replace_tilde (d : char) (by_ : char) (s : str) : str :=
  match s with
  | c :: (c' :: s') as tail =>
      if (c =? 126)%N && (c' =? d)%N then by_ :: replace_tilde d by_ s' else c :: replace_tilde d by_ tail
  | s => s
  end.
Definition unescape (s : str) : str := replace_tilde 48 126 (replace_tilde 49 47 s).

Fixpoint split_on (c : char) (s : str) : list str :=
  match s with
  | [] => [[]]
  | x :: s =>
      if (x =? c)%N then [] :: split_on c s
      else match split_on c s with [] => [[x]] | w :: ws => (x :: w) :: ws end
  end.

Definition pointer_step (v : option Value) (token : str) : option Value :=
  v ← v;
  match v with
  | Object m => mget m token
  | Array l => i ← parse_index token; l !! i
  | _ => None
  end.

Definition pointer (v : Value) (p : str) : option Value :=
  match p with
  | [] => Some v
  | c :: rest =>
      if (c =? 47)%N then foldl pointer_step (Some v) (unescape <$> split_on 47 rest) else None
  end.

(** ** Numbers *)

(** [f64::from_str]: a sign, then [inf], [infinity] or [nan] in any case, or
    digits with an optional point and exponent. *)
Definition span_digits (s : str) : str * str :=
  (take (length s - length (drop_while is_digit s)) s, drop_while is_digit s).

Definition parse_exponent (s : str) : option Z :=
  match s with
  | [] => Some 0%Z
  | c :: s =>
      if (c =? 101)%N || (c =? 69)%N then
        let '(neg, s) := match s with
                         | c :: s' => if (c =? 45)%N then (true, s')
                                      else if (c =? 43)%N then (false, s') else (false, s)
                         | [] => (false, s)
                         end in
        let '(d, rest) := span_digits s in
        if is_empty d || negb (is_empty rest) then None
        else Some (let n := Z.of_N (digits_value d) in if neg : bool then - n else n)%Z
      else None
  end.

(** The nearest float of [m * 10 ^ e] for a positive [m]: a quotient is taken
    with more bits than a float has and a last bit for what remains. *)
Definition decimal_to_f64 (neg : bool) (m : N) (e : Z) : f64 :=
  let signed (z : Z) := (if neg then - z else z)%Z in
  if (m =? 0)%N then S754_zero neg
  else if (400 <? e)%Z then S754_infinity neg
  else if (0 <=? e)%Z then binary_normalize 53 1024 (signed (Z.of_N m * 10 ^ e)%Z) 0 neg
  else
    let den := (10 ^ (- e))%Z in
    let s := (Z.log2 den + 66)%Z in
    let q := (Z.of_N m * 2 ^ s / den)%Z in
    let r := ((Z.of_N m * 2 ^ s) mod den)%Z in
    binary_normalize 53 1024 (signed (2 * q + if (r =? 0)%Z then 0 else 1)%Z) (- s - 1)%Z neg.

Definition parse_decimal (neg : bool) (s : str) : option f64 :=
  let '(int, rest) := span_digits s in
  let '(frac, rest) := match rest with
                       | c :: rest' => if (c =? 46)%N then span_digits rest' else ([], rest)
                       | [] => ([], rest)
                       end in
  if is_empty int && is_empty frac then None
  else e ← parse_exponent rest;
       Some (decimal_to_f64 neg (digits_value (int ++ frac)) (e - Z.of_nat (length frac))).

Definition parse_f64 (s : str) : option f64 :=
  let '(neg, s) := match s with
                   | c :: s' => if (c =? 45)%N then (true, s')
                                else if (c =? 43)%N then (false, s') else (false, s)
                   | [] => (false, s)
                   end in
  let low := to_ascii_lowercase s in
  if str_eqb low (lit "inf") || str_eqb low (lit "infinity") then Some (S754_infinity neg)
  else if str_eqb low (lit "nan") then Some S754_nan
  else parse_decimal neg s.

Example parse_half : parse_f64 (lit "0.5") = Some (ratio 1 2).
Proof. vm_compute. reflexivity. Qed.
Example parse_tenth : parse_f64 (lit "-1e-1") = Some (ratio (-1) 10).
Proof. vm_compute. reflexivity. Qed.
Example parse_large : parse_f64 (lit "12345.678E3") = Some (of_Z 12345678).
Proof. vm_compute. reflexivity. Qed.
Example parse_dot : parse_f64 (lit ".") = None ∧ parse_f64 (lit "5.") = Some (of_Z 5).
Proof. vm_compute. split; reflexivity. Qed.

(** ** Lemmas on maps *)

Lemma str_eqb_true s t : str_eqb s t = true ↔ s = t.
Proof. unfold str_eqb. by rewrite bool_decide_eq_true. Qed.
Lemma str_eqb_false s t : str_eqb s t = false ↔ s ≠ t.
Proof. unfold str_eqb. by rewrite bool_decide_eq_false. Qed.

Lemma mget_cons k v m key : mget ((k, v) :: m) key = if str_eqb k key then Some v else mget m key.
Proof. unfold mget. simpl. by destruct (str_eqb k key). Qed.

Lemma mget_elem m key v : mget m key = Some v → (key, v) ∈ m.
Proof.
  induction m as [|[k x] m IH]; [done|]. rewrite mget_cons.
  destruct (str_eqb k key) eqn:E; [|by right; apply IH].
  apply str_eqb_true in E as ->. intros [= ->]. left.
Qed.

Lemma elem_mget m key v : NoDup (keys m) → (key, v) ∈ m → mget m key = Some v.
Proof.
  unfold keys. induction m as [|[k x] m IH]; simpl; intros Hnd Hin; [by apply not_elem_of_nil in Hin|].
  apply NoDup_cons in Hnd as [Hk Hnd]. rewrite mget_cons.
  apply elem_of_cons in Hin as [[= -> ->]|Hin]; [by rewrite str_eqb_refl|].
  destruct (str_eqb k key) eqn:E; [|by apply IH].
  apply str_eqb_true in E as ->. destruct Hk. apply list_elem_of_fmap. by exists (key, v).
Qed.

Lemma mget_None m key : mget m key = None ↔ key ∉ keys m.
Proof.
  unfold keys. induction m as [|[k x] m IH]; simpl; [split; [intros _; apply not_elem_of_nil|done]|].
  rewrite mget_cons, not_elem_of_cons. destruct (str_eqb k key) eqn:E.
  - apply str_eqb_true in E as ->. naive_solver.
  - apply str_eqb_false in E. naive_solver.
Qed.

Lemma mget_minsert key key' v m :
  mget (minsert key v m) key' = if str_eqb key key' then Some v else mget m key'.
Proof.
  induction m as [|[k x] m IH]; simpl.
  - by rewrite mget_cons.
  - destruct (str_eqb k key) eqn:E; simpl; rewrite !mget_cons.
    + apply str_eqb_true in E as ->. by destruct (str_eqb key key').
    + rewrite IH. destruct (str_eqb k key') eqn:E1, (str_eqb key key') eqn:E2; try done.
      apply str_eqb_true in E1 as ->. apply str_eqb_true in E2 as ->. by rewrite str_eqb_refl in E.
Qed.

Lemma keys_minsert key v m :
  keys (minsert key v m) = if contains_key m key then keys m else keys m ++ [key].
Proof.
  unfold contains_key, keys. induction m as [|[k x] m IH]; simpl; [done|].
  rewrite mget_cons. destruct (str_eqb k key) eqn:E; [done|]. csimpl. rewrite IH. by case_match.
Qed.

Lemma minsert_absent key v m : key ∉ keys m → minsert key v m = m ++ [(key, v)].
Proof.
  unfold keys. induction m as [|[k y] m IH]; simpl; [done|]. intros [Hk Hn]%not_elem_of_cons.
  destruct (str_eqb k key) eqn:E; [apply str_eqb_true in E; congruence|]. by rewrite IH.
Qed.

Lemma NoDup_minsert key v m : NoDup (keys m) → NoDup (keys (minsert key v m)).
Proof.
  intros Hnd. rewrite keys_minsert. unfold contains_key.
  destruct (mget m key) eqn:E; simpl; [done|]. apply mget_None in E.
  apply NoDup_app. split; [done|]. split; [|apply NoDup_singleton].
  intros x Hx ->%list_elem_of_singleton. done.
Qed.

Lemma filter_absent key m : key ∉ keys m → filter (λ e : str * Value, e.1 ≠ key) m = m.
Proof.
  induction m as [|[k x] l IH]; unfold keys; simpl; [done|]. intros Hn%not_elem_of_cons.
  rewrite filter_cons, decide_True by naive_solver. f_equal. apply IH, Hn.
Qed.

(** Removing an entry leaves the others, in some order. *)
Lemma mremove_perm key m : NoDup (keys m) → mremove key m ≡ₚ filter (λ e, e.1 ≠ key) m.
Proof.
  intros Hnd. unfold mremove.
  destruct (position (λ e, str_eqb e.1 key) m) as [i|] eqn:Hp.
  - apply position_Some in Hp as ([k v] & Hi & Hk & _). simpl in Hk. apply str_eqb_true in Hk as ->.
    assert (filter (λ e, e.1 ≠ key) m = take i m ++ drop (S i) m) as Hf.
    { rewrite <-(take_drop_middle m i (key, v) Hi) in Hnd |- * at 1.
      unfold keys in Hnd. rewrite fmap_app, fmap_cons in Hnd. simpl in Hnd.
      apply NoDup_app in Hnd as (_ & Hd & [Hk2 _]%NoDup_cons).
      rewrite filter_app, filter_cons, decide_False by (simpl; tauto).
      rewrite !filter_absent; [done|done|]. intros Hin. apply (Hd key Hin). left. }
    rewrite Hf. destruct m as [|e l _] using rev_ind; [done|].
    rewrite last_snoc, removelast_last. destruct (decide (i < length l)) as [Hlt|Hge].
    + rewrite insert_take_drop, take_app_le, drop_app_le by lia.
      apply Permutation_app_head. by rewrite (Permutation_app_comm _ [e]).
    + apply lookup_lt_Some in Hi. rewrite length_app in Hi. simpl in Hi. assert (i = length l) as -> by lia.
      rewrite list_insert_ge, take_app_le, firstn_all, drop_ge by (rewrite ?length_app; simpl; lia).
      by rewrite app_nil_r.
  - apply position_None in Hp. rewrite filter_absent; [by destruct (last m)|].
    rewrite Forall_forall in Hp. intros (e & -> & He)%list_elem_of_fmap. specialize (Hp e He).
    by rewrite str_eqb_refl in Hp.
Qed.

Lemma NoDup_mremove key m : NoDup (keys m) → NoDup (keys (mremove key m)).
Proof.
  intros Hnd. unfold keys. rewrite (mremove_perm key m Hnd).
  clear -Hnd. unfold keys in Hnd. induction m as [|[k v] m IH]; [done|]. rewrite fmap_cons in Hnd.
  apply NoDup_cons in Hnd as [Hk Hnd]. rewrite filter_cons. case_decide; [csimpl|by apply IH].
  apply NoDup_cons. split; [|by apply IH].
  intros (e & -> & [_ He]%list_elem_of_filter)%list_elem_of_fmap. apply Hk, list_elem_of_fmap. by exists e.
Qed.

Lemma mget_mremove key key' m :
  NoDup (keys m) → mget (mremove key m) key' = if str_eqb key key' then None else mget m key'.
Proof.
  intros Hnd. pose proof (NoDup_mremove key m Hnd) as Hnd'.
  destruct (str_eqb key key') eqn:E.
  - apply str_eqb_true in E as <-. apply mget_None. unfold keys. rewrite (mremove_perm key m Hnd).
    intros (e & -> & [Hne _]%list_elem_of_filter)%list_elem_of_fmap. done.
  - apply str_eqb_false in E. apply option_eq. intros v. split.
    + intros Hg%mget_elem. rewrite (mremove_perm key m Hnd) in Hg.
      apply list_elem_of_filter in Hg as [_ Hg]. by apply elem_mget.
    + intros Hg%mget_elem. apply elem_mget; [done|]. rewrite (mremove_perm key m Hnd).
      apply list_elem_of_filter. by split.
Qed.

Lemma NoDup_mextend m other : NoDup (keys m) → NoDup (keys (mextend m other)).
Proof.
  unfold mextend. revert m; induction other as [|[k v] other IH]; intros m Hnd; simpl; [done|].
  by apply IH, NoDup_minsert.
Qed.

Lemma mget_zip ks vs i name :
  NoDup ks → length ks = length vs → ks !! i = Some name → mget (zip ks vs) name = vs !! i.
Proof.
  revert vs i; induction ks as [|k ks IH]; intros [|v vs] i Hnd Hlen Hi; simplify_eq/=.
  apply NoDup_cons in Hnd as [Hk Hnd]. rewrite mget_cons. destruct i as [|i]; simplify_eq/=.
  - by rewrite str_eqb_refl.
  - destruct (str_eqb k name) eqn:E; [|apply IH; [done|lia|done]].
    apply str_eqb_true in E as ->. destruct Hk. by eapply list_elem_of_lookup_2.
Qed.

Lemma keys_zip ks (vs : list Value) : length ks = length vs → keys (zip ks vs) = ks.
Proof. intros Hlen. apply fst_zip. lia. Qed.

(** [Forall] over the values inside a value. *)
Section deep.
Variable P : Map → Prop.
Fixpoint deep (v : Value) : Prop :=
  match v with
  | Array l => (fix go (l : list Value) : Prop := match l with [] => True | x :: l => deep x ∧ go l end) l
  | Object m =>
      P m ∧
      (fix go (m : list (str * Value)) : Prop := match m with [] => True | (_, x) :: m => deep x ∧ go m end) m
  | _ => True
  end.

Lemma deep_Array l : deep (Array l) ↔ Forall deep l.
Proof.
  induction l as [|x l IH]; simpl in *; [split; constructor|]. rewrite Forall_cons. tauto.
Qed.
Lemma deep_Object m : deep (Object m) ↔ P m ∧ Forall (λ e, deep e.2) m.
Proof.
  simpl. apply and_iff_compat_l. induction m as [|[k x] m IH]; [split; constructor|].
  rewrite Forall_cons. simpl. tauto.
Qed.

Lemma deep_mget m k v : Forall (λ e : str * Value, deep e.2) m → mget m k = Some v → deep v.
Proof. rewrite Forall_forall. intros Hm Hg%mget_elem. by apply (Hm (k, v)). Qed.
Lemma deep_get v k x : deep v → get v k = Some x → deep x.
Proof.
  destruct v as [| | | | |m]; try done. rewrite deep_Object, get_Object. intros [_ Hm]. by apply deep_mget.
Qed.
Lemma deep_at_key v k : deep v → deep (at_key v k).
Proof. intros Hv. unfold at_key. destruct (get v k) eqn:E; simpl; [by eapply deep_get|done]. Qed.
Lemma deep_as_array v l : deep v → as_array v = Some l → Forall deep l.
Proof. destruct v; try done. intros Hv [= ->]. by apply deep_Array. Qed.
Lemma deep_as_object v m : deep v → as_object v = Some m → P m ∧ Forall (λ e, deep e.2) m.
Proof. destruct v; try done. intros Hv [= ->]. by apply deep_Object. Qed.

Lemma deep_pointer v p x : deep v → pointer v p = Some x → deep x.
Proof.
  intros Hv. unfold pointer. destruct p as [|c p]; [by intros [= ->]|].
  destruct (c =? 47)%N; [|done]. generalize (unescape <$> split_on 47 p). intros tokens.
  assert (∀ o, (∀ y, o = Some y → deep y) → ∀ x, foldl pointer_step o tokens = Some x → deep x) as H;
    [|by apply H; intros y [= <-]].
  induction tokens as [|t tokens IH]; intros o Ho y Hy; simpl in Hy; [by apply Ho|].
  eapply IH; [|exact Hy]. intros z Hz. destruct o as [w|]; [|done]. specialize (Ho w eq_refl).
  cbn in Hz. destruct w as [| | | |l|m]; try done.
  - destruct (parse_index t) as [i|]; [|done]. cbn in Hz. apply deep_Array in Ho.
    rewrite Forall_lookup in Ho. eauto.
  - apply deep_Object in Ho as [_ Ho]. by eapply deep_mget.
Qed.

Lemma deep_minsert k v m :
  Forall (λ e : str * Value, deep e.2) m → deep v → Forall (λ e, deep e.2) (minsert k v m).
Proof.
  intros Hm Hv. induction Hm as [|[k' x] m Hx Hm IH]; simpl; [by repeat constructor|].
  destruct (str_eqb k' k); constructor; auto.
Qed.
Lemma deep_mremove k m :
  NoDup (keys m) → Forall (λ e : str * Value, deep e.2) m → Forall (λ e, deep e.2) (mremove k m).
Proof.
  intros Hnd Hm. rewrite (mremove_perm k m Hnd). rewrite Forall_forall in *.
  intros e [_ He]%list_elem_of_filter. auto.
Qed.
Lemma deep_mextend m other :
  Forall (λ e : str * Value, deep e.2) m → Forall (λ e : str * Value, deep e.2) other →
  Forall (λ e, deep e.2) (mextend m other).
Proof.
  unfold mextend. intros Hm Ho. revert m Hm. induction Ho as [|[k v] other Hv Ho IH]; intros m Hm; simpl; [done|].
  apply IH. by apply deep_minsert.
Qed.

Fixpoint deepb (p : Map → bool) (v : Value) : bool :=
  match v with
  | Array l => (fix go (l : list Value) := match l with [] => true | x :: l => deepb p x && go l end) l
  | Object m =>
      p m &&
      (fix go (m : list (str * Value)) := match m with [] => true | (_, x) :: m => deepb p x && go m end) m
  | _ => true
  end.

Lemma deepb_sound (p : Map → bool) : (∀ m, p m = true → P m) → ∀ v, deepb p v = true → deep v.
Proof.
  intros Hp. fix IH 1. intros [| | | |l|m]; try done.
  - intros H. apply deep_Array. revert H. induction l as [|x l IHl]; simpl; [constructor|].
    intros [Hx Hl]%andb_true_iff. constructor; [by apply IH|by apply IHl].
  - intros [Hm H]%andb_true_iff. apply deep_Object. split; [by apply Hp|]. clear Hm. revert H.
    induction m as [|[k x] m IHm]; simpl; [constructor|].
    intros [Hx Hm]%andb_true_iff. constructor; [by apply IH|by apply IHm].
Qed.
End deep.

Lemma mget_mextend m other k :
  NoDup (keys other) → mget (mextend m other) k = match mget other k with Some v => Some v | None => mget m k end.
Proof.
  unfold mextend. revert m; induction other as [|[k' v] other IH]; intros m Hnd; simpl; [done|].
  unfold keys in Hnd. simpl in Hnd. apply NoDup_cons in Hnd as [Hk Hnd].
  rewrite IH by done. rewrite mget_minsert, mget_cons.
  destruct (str_eqb k' k) eqn:E; [|done]. apply str_eqb_true in E as ->.
  by rewrite (proj2 (mget_None other k)).
Qed.

(** ** Well-formed values: the keys of every object are distinct. *)
Definition wf : Value → Prop := deep (λ m, NoDup (keys m)).

Lemma wf_at_key v k : wf v → wf (at_key v k).
Proof. apply deep_at_key. Qed.
Lemma wf_as_array v l : wf v → as_array v = Some l → Forall wf l.
Proof. apply deep_as_array. Qed.
Lemma wf_as_object v m : wf v → as_object v = Some m → NoDup (keys m) ∧ Forall (λ e, wf e.2) m.
Proof. apply deep_as_object. Qed.
Lemma wf_pointer v p x : wf v → pointer v p = Some x → wf x.
Proof. apply deep_pointer. Qed.
