(* ===== verification/ModelSchema.v ===== *)
(** * The contracts of the kernel's model roles

    [kernel/src/domain/models.rs]: a model's JSON answer is normalised against
    the schema of its role, and the schemas are made strict before they are sent
    to the model.  Both follow references into the root schema, so their
    recursion is not structural: the fuel stands for the stack, and running out
    of it is a panic; [resolves] tells when the fuel suffices.

    The development shows that a normalised value conforms to its schema, that
    normalising it again changes nothing, that the recursion returns on schemas
    whose references are not circular, and that a strict schema is strict. *)
From Stdlib Require Import ZArith SpecFloat.
From S2P Require Import Prelude Str Float64 Json JsonOps.

(** [number.fract() == 0.0], [x >= y], and [x as i64], [x as u64] of an integer
    in range. *)
Definition is_integral (x : f64) : bool := feq (fsub x (ftrunc x)) fzero.
Definition fge (x y : f64) : bool := SFleb y x.
Definition to_Z (x : f64) : Z :=
  match x with
  | S754_finite s m e =>
      let a := (if 0 <=? e then Z.pos m * 2 ^ e else Z.pos m / 2 ^ (- e))%Z in
      (if s then - a else a)%Z
  | _ => 0%Z
  end.

(** ** Numbers *)

(** An underscore must stand between digits. *)
Definition UNDERSCORE : N := 95%N.
Definition digit_at (bytes : list N) (i : nat) : bool :=
  match bytes !! i with Some b => is_ascii_digit b | None => false end.
Definition separator_ok (bytes : list N) (index : nat) : bool :=
  match bytes !! index with
  | Some b =>
      negb (b =? UNDERSCORE)%N ||
      ((0 <? index)%nat && (index + 1 <? length bytes)%nat &&
       digit_at bytes (index - 1) && digit_at bytes (index + 1))
  | None => true
  end.

Definition numeric (value : Value) : res str f64 :=
  number ← match value with
           | Bool b => Ok (if b then of_Z 1 else of_Z 0)
           | Num n => Ok (number_as_f64 n)
           | String s =>
               let text := trim s in
               let bytes := as_bytes text in
               _ ← ensure (forallb (separator_ok bytes) (seq 0 (length bytes)))
                     (lit "invalid numeric separator");
               ok_or (parse_f64 (List.filter (λ c, negb (c =? UNDERSCORE)%N) text))
                 (lit "invalid numeric string")
           | _ => Err (lit "expected number")
           end;
  _ ← ensure (is_finite number) (lit "nonfinite number");
  Ok number.

(** ** Scalars *)
Definition is_false_word (s : str) : bool :=
  existsb (str_eqb s) [lit "0"; lit "off"; lit "f"; lit "false"; lit "n"; lit "no"].
Definition is_true_word (s : str) : bool :=
  existsb (str_eqb s) [lit "1"; lit "on"; lit "t"; lit "true"; lit "y"; lit "yes"].

Definition normalize_boolean (value : Value) : res str Value :=
  match value with
  | Bool b => Ok (Bool b)
  | Num n =>
      if feq (number_as_f64 n) (of_Z 0) then Ok (Bool false)
      else if feq (number_as_f64 n) (of_Z 1) then Ok (Bool true)
      else Err (lit "expected boolean")
  | String s =>
      let s := to_ascii_lowercase s in
      if is_false_word s then Ok (Bool false)
      else if is_true_word s then Ok (Bool true)
      else Err (lit "expected boolean")
  | _ => Err (lit "expected boolean")
  end.

Definition normalize_integer (value : Value) : res str Value :=
  _ ← match as_str value with
      | Some text => ensure (negb (existsb (λ c, (c =? 101) || (c =? 69))%N text))
                       (lit "expected integer string")
      | None => Ok tt
      end;
  match value with
  | Num (PosInt _) | Num (NegInt _) => Ok value
  | _ =>
      number ← numeric value;
      _ ← ensure (is_integral number) (lit "expected integer");
      _ ← ensure (fge number (of_Z (- 2 ^ 63)) && flt number (of_Z (2 ^ 64)))
            (lit "integer out of range");
      Ok (Num (if flt number fzero then NegInt (to_Z number) else PosInt (Z.to_N (to_Z number))))
  end.

Definition normalize_scalar (kind : str) (value : Value) : res str Value :=
  if str_eqb kind (lit "string") then
    s ← ok_or (as_str value) (lit "expected string"); Ok (String s)
  else if str_eqb kind (lit "boolean") then normalize_boolean value
  else if str_eqb kind (lit "integer") then normalize_integer value
  else if str_eqb kind (lit "number") then number ← numeric value; Ok (Num (Float number))
  else if str_eqb kind (lit "null") then
    _ ← ensure (is_null value) (lit "expected null"); Ok Null
  else Err (lit "unsupported schema type " ++ kind).

(** ** Enumerations and bounds *)
Definition check_enum (schema result : Value) : res str unit :=
  match as_array (at_key schema (lit "enum")) with
  | Some allowed => ensure (existsb (λ v, value_eqb v result) allowed) (lit "unknown enum value")
  | None => Ok tt
  end.
Definition check_minimum (schema : Value) (number : f64) : res str unit :=
  match as_f64 (at_key schema (lit "minimum")) with
  | Some minimum => ensure (fge number minimum) (lit "number below minimum")
  | None => Ok tt
  end.
Definition check_maximum (schema : Value) (number : f64) : res str unit :=
  match as_f64 (at_key schema (lit "maximum")) with
  | Some maximum => ensure (fge maximum number) (lit "number above maximum")
  | None => Ok tt
  end.
Definition check_result (schema result : Value) : res str Value :=
  _ ← check_enum schema result;
  _ ← match as_f64 result with
      | Some number => _ ← check_minimum schema number; check_maximum schema number
      | None => Ok tt
      end;
  Ok result.

(** ** Objects, arrays and alternatives *)

(** [with_context]: the error is reported under the name of the field. *)
Definition under (name : str) (r : res str Value) : res str Value :=
  match r with Err _ => Err name | r => r end.

Fixpoint normalize_fields (rec : Value → Value → res str Value) (input properties result : Map) :
    res str Map :=
  match properties with
  | [] => Ok result
  | (name, field) :: properties =>
      value ← match mget input name with
              | Some value => under name (rec value field)
              | None => ok_or (get field (lit "default")) (lit "missing field " ++ name)
              end;
      normalize_fields rec input properties (minsert name value result)
  end.

Definition normalize_object (rec : Value → Value → res str Value) (value schema : Value) : res str Value :=
  input ← ok_or (as_object value) (lit "expected object");
  properties ← ok_or (as_object (at_key schema (lit "properties"))) (lit "schema properties");
  _ ← match at_key schema (lit "additionalProperties") with
      | Bool false => ensure (forallb (contains_key properties) (keys input)) (lit "unexpected field")
      | _ => Ok tt
      end;
  result ← normalize_fields rec input properties [];
  Ok (Object result).

Fixpoint first_ok (rec : Value → res str Value) (choices : list Value) : res str Value :=
  match choices with
  | [] => Err (lit "value does not match any schema alternative")
  | choice :: choices =>
      match rec choice with
      | Ok value => Ok value
      | Err _ => first_ok rec choices
      | Panic => Panic
      end
  end.

Definition HASH : char := 35%N.
Definition resolve (root : Value) (reference : str) : option Value :=
  pointer root (drop_while (λ c, (c =? HASH)%N) reference).

Section contract.
Variable root : Value.

Fixpoint normalize (fuel : nat) (value schema : Value) : res str Value :=
  match fuel with
  | O => Panic
  | S fuel =>
      match as_str (at_key schema (lit "$ref")) with
      | Some reference =>
          target ← ok_or (resolve root reference) (lit "schema reference");
          normalize fuel value target
      | None =>
          match as_array (at_key schema (lit "anyOf")) with
          | Some choices => first_ok (normalize fuel value) choices
          | None =>
              kind ← ok_or (as_str (at_key schema (lit "type"))) (lit "schema type");
              result ←
                (if str_eqb kind (lit "object") then normalize_object (normalize fuel) value schema
                 else if str_eqb kind (lit "array") then
                   items ← ok_or (as_array value) (lit "expected array");
                   l ← res_mapM (λ v, normalize fuel v (at_key schema (lit "items"))) items;
                   Ok (Array l)
                 else normalize_scalar kind value);
              check_result schema result
          end
      end
  end.

(** ** Conformance *)

(** The values a schema of a scalar type admits. *)
Definition scalar_typed (kind : str) (v : Value) : Prop :=
  (kind = lit "string" ∧ ∃ s, v = String s) ∨
  (kind = lit "boolean" ∧ ∃ b, v = Bool b) ∨
  (kind = lit "integer" ∧ ((∃ n, v = Num (PosInt n)) ∨ (∃ z, v = Num (NegInt z)))) ∨
  (kind = lit "number" ∧ ∃ x, v = Num (Float x) ∧ is_finite x = true) ∨
  (kind = lit "null" ∧ v = Null).

(** The enumeration and the bounds of a schema. *)
Definition within (schema v : Value) : Prop :=
  (∀ allowed, as_array (at_key schema (lit "enum")) = Some allowed →
     ∃ a, a ∈ allowed ∧ value_eqb a v = true) ∧
  (∀ x m, as_f64 v = Some x → as_f64 (at_key schema (lit "minimum")) = Some m → fge x m = true) ∧
  (∀ x m, as_f64 v = Some x → as_f64 (at_key schema (lit "maximum")) = Some m → fge m x = true).

Inductive conforms : Value → Value → Prop :=
  | conforms_ref schema reference target v :
      as_str (at_key schema (lit "$ref")) = Some reference → resolve root reference = Some target →
      conforms target v → conforms schema v
  | conforms_any schema choices choice v :
      as_array (at_key schema (lit "anyOf")) = Some choices → choice ∈ choices →
      conforms choice v → conforms schema v
  | conforms_object schema properties m :
      as_str (at_key schema (lit "type")) = Some (lit "object") →
      as_object (at_key schema (lit "properties")) = Some properties →
      keys m = keys properties →
      (∀ name field x, (name, field) ∈ properties → mget m name = Some x →
         conforms field x ∨ get field (lit "default") = Some x) →
      within schema (Object m) → conforms schema (Object m)
  | conforms_array schema l :
      as_str (at_key schema (lit "type")) = Some (lit "array") →
      (∀ x, x ∈ l → conforms (at_key schema (lit "items")) x) →
      within schema (Array l) → conforms schema (Array l)
  | conforms_scalar schema kind v :
      as_str (at_key schema (lit "type")) = Some kind → scalar_typed kind v → within schema v →
      conforms schema v.

Lemma ensure_any {E} c (e : E) u : ensure c e = Ok u ↔ c = true.
Proof. destruct u. apply ensure_Ok. Qed.

Lemma check_enum_Ok schema v u :
  check_enum schema v = Ok u ↔
  ∀ allowed, as_array (at_key schema (lit "enum")) = Some allowed →
    ∃ a, a ∈ allowed ∧ value_eqb a v = true.
Proof.
  unfold check_enum. destruct (as_array _) as [l|]; [|destruct u; naive_solver].
  rewrite ensure_any, existsb_exists. setoid_rewrite <-list_elem_of_In. naive_solver.
Qed.
Lemma check_minimum_Ok schema x u :
  check_minimum schema x = Ok u ↔
  ∀ m, as_f64 (at_key schema (lit "minimum")) = Some m → fge x m = true.
Proof.
  unfold check_minimum. destruct (as_f64 _); [rewrite ensure_any|destruct u]; naive_solver.
Qed.
Lemma check_maximum_Ok schema x u :
  check_maximum schema x = Ok u ↔
  ∀ m, as_f64 (at_key schema (lit "maximum")) = Some m → fge m x = true.
Proof.
  unfold check_maximum. destruct (as_f64 _); [rewrite ensure_any|destruct u]; naive_solver.
Qed.

Lemma check_result_Ok schema v v' : check_result schema v = Ok v' ↔ v' = v ∧ within schema v.
Proof.
  unfold check_result, within. rewrite <-(check_enum_Ok schema v tt).
  destruct (check_enum schema v) as [[]| |]; cbn [mbind res_bind]; [|naive_solver..].
  destruct (as_f64 v) as [x|]; [|naive_solver].
  assert (∀ P : f64 → f64 → Prop, (∀ y m, Some x = Some y → P y m) ↔ (∀ m, P x m)) as Hx by naive_solver.
  rewrite (Hx (λ y m, as_f64 (at_key schema (lit "minimum")) = Some m → fge y m = true)),
    (Hx (λ y m, as_f64 (at_key schema (lit "maximum")) = Some m → fge m y = true)).
  rewrite <-(check_minimum_Ok schema x tt), <-(check_maximum_Ok schema x tt).
  destruct (check_minimum schema x) as [[]| |]; cbn [mbind res_bind]; [|naive_solver..].
  destruct (check_maximum schema x) as [[]| |]; cbn [mbind res_bind]; naive_solver.
Qed.

(** The results of the scalar types. *)
Lemma numeric_finite v x : numeric v = Ok x → is_finite x = true.
Proof.
  unfold numeric. intros H.
  match type of H with (mbind _ ?y) = _ => destruct y as [y'| |]; [|done..] end.
  cbn [mbind res_bind] in H. destruct (is_finite y') eqn:E; [|done]. by injection H as <-.
Qed.

Lemma normalize_integer_typed v v' :
  normalize_integer v = Ok v' → (∃ n, v' = Num (PosInt n)) ∨ (∃ z, v' = Num (NegInt z)).
Proof.
  unfold normalize_integer. intros H.
  match type of H with (mbind _ ?y) = _ => destruct y as [[]| |]; [|done..] end.
  cbn [mbind res_bind] in H.
  assert (∀ w, (number ← numeric w; _ ← ensure (is_integral number) (lit "expected integer");
      _ ← ensure (fge number (of_Z (- 2 ^ 63)) && flt number (of_Z (2 ^ 64))) (lit "integer out of range");
      Ok (Num (if flt number fzero then NegInt (to_Z number) else PosInt (Z.to_N (to_Z number))))) = Ok v' →
    (∃ n, v' = Num (PosInt n)) ∨ (∃ z, v' = Num (NegInt z))) as Hgen.
  { intros w Hw. destruct (numeric w) as [x| |]; [|done..]. cbn [mbind res_bind] in Hw.
    destruct (is_integral x); [|done]. destruct (fge x _ && flt x _); [|done].
    cbn in Hw. injection Hw as <-. destruct (flt x fzero); eauto. }
  destruct v as [| |[]| | |]; try (by eapply Hgen); injection H as <-; eauto.
Qed.

Lemma normalize_boolean_typed v v' : normalize_boolean v = Ok v' → ∃ b, v' = Bool b.
Proof. unfold normalize_boolean. intros H. repeat case_match; simplify_eq/=; eauto. Qed.

Lemma normalize_scalar_typed kind v v' : normalize_scalar kind v = Ok v' → scalar_typed kind v'.
Proof.
  unfold normalize_scalar, scalar_typed. intros H.
  destruct (str_eqb kind (lit "string")) eqn:E1.
  { apply str_eqb_true in E1. left. split; [done|]. destruct (as_str v); simplify_eq/=. eauto. }
  destruct (str_eqb kind (lit "boolean")) eqn:E2.
  { apply str_eqb_true in E2. right; left. eauto using normalize_boolean_typed. }
  destruct (str_eqb kind (lit "integer")) eqn:E3.
  { apply str_eqb_true in E3. right; right; left. eauto using normalize_integer_typed. }
  destruct (str_eqb kind (lit "number")) eqn:E4.
  { apply str_eqb_true in E4. right; right; right; left. split; [done|].
    destruct (numeric v) as [x| |] eqn:En; [|done..]. cbn in H. injection H as <-.
    eauto using numeric_finite. }
  destruct (str_eqb kind (lit "null")) eqn:E5; [|done].
  apply str_eqb_true in E5. repeat right. split; [done|]. destruct (is_null v); [|done].
  cbn in H. by injection H as <-.
Qed.

(** The loop over the properties. *)
Lemma normalize_fields_Ok rec input properties result m :
  NoDup (keys result ++ keys properties) → normalize_fields rec input properties result = Ok m →
  ∃ vs, m = result ++ zip (keys properties) vs ∧ length vs = length properties ∧
    ∀ i name field, properties !! i = Some (name, field) → ∃ x, vs !! i = Some x ∧
      match mget input name with
      | Some v => rec v field = Ok x
      | None => get field (lit "default") = Some x
      end.
Proof.
  revert result; induction properties as [|[name field] properties IH]; intros result Hnd H; simpl in H.
  { injection H as <-. exists []. split; [by rewrite app_nil_r|done]. }
  match type of H with (mbind _ ?y) = _ => destruct y as [x| |] eqn:Ex; [|done..] end.
  cbn [mbind res_bind] in H.
  assert (minsert name x result = result ++ [(name, x)]) as Hins.
  { apply minsert_absent. intros Hin. unfold keys in *. simpl in Hnd.
    apply NoDup_app in Hnd as (_ & Hd & _). apply (Hd name Hin). left. }
  destruct (IH (result ++ [(name, x)])) as (vs & -> & Hlen & Hvs).
  { unfold keys in *. rewrite fmap_app, <-app_assoc. exact Hnd. }
  { by rewrite Hins in H. }
  exists (x :: vs). split; [by rewrite <-app_assoc|]. split; [simpl; lia|].
  intros [|i] name' field' Hi; [|by apply Hvs].
  injection Hi as <- <-. exists x. split; [done|].
  destruct (mget input name); [by destruct (rec v field); simplify_eq/=|].
  by apply ok_or_Ok in Ex.
Qed.

Lemma first_ok_Ok rec choices v :
  first_ok rec choices = Ok v →
  ∃ l1 choice l2, choices = l1 ++ choice :: l2 ∧ rec choice = Ok v ∧
    Forall (λ c, ∃ e, rec c = Err e) l1.
Proof.
  induction choices as [|c choices IH]; simpl; [done|].
  destruct (rec c) as [x|e|] eqn:E; [intros [= ->]; by exists [], c, choices| |done].
  intros (l1 & choice & l2 & -> & Hc & Hl)%IH. exists (c :: l1), choice, l2.
  repeat split; [done|]. constructor; eauto.
Qed.

Lemma res_mapM_elem (f : Value → res str Value) l ys y :
  res_mapM f l = Ok ys → y ∈ ys → ∃ x, x ∈ l ∧ f x = Ok y.
Proof.
  rewrite res_mapM_Ok. intros HF Hy. apply list_elem_of_lookup_1 in Hy as [i Hi].
  destruct (Forall2_lookup_r _ _ _ _ _ HF Hi) as (x & Hx & Hf). exists x. split; [|done].
  by eapply list_elem_of_lookup_2.
Qed.

Lemma resolve_wf reference target : wf root → resolve root reference = Some target → wf target.
Proof. apply wf_pointer. Qed.

(** A normalised object, given the normalised fields. *)
Lemma normalize_object_Ok rec value schema v' :
  wf schema → normalize_object rec value schema = Ok v' →
  ∃ input properties m, as_object value = Some input ∧
    as_object (at_key schema (lit "properties")) = Some properties ∧ NoDup (keys properties) ∧
    v' = Object m ∧ keys m = keys properties ∧
    ∀ name field, (name, field) ∈ properties → ∃ x, mget m name = Some x ∧
      match mget input name with
      | Some v => rec v field = Ok x
      | None => get field (lit "default") = Some x
      end.
Proof.
  intros Hwf H. unfold normalize_object in H.
  destruct (as_object value) as [input|]; [|done]. cbn [mbind res_bind ok_or] in H.
  destruct (as_object (at_key schema (lit "properties"))) as [properties|] eqn:Ep; [|done].
  cbn [mbind res_bind ok_or] in H.
  match type of H with (mbind _ ?y) = _ => destruct y as [[]| |]; [|done..] end.
  cbn [mbind res_bind] in H.
  destruct (normalize_fields rec input properties []) as [m| |] eqn:Em; [|done..].
  cbn in H. injection H as <-.
  assert (NoDup (keys properties)) as Hnd by (eapply wf_as_object; [by apply wf_at_key|done]).
  apply normalize_fields_Ok in Em as (vs & -> & Hlen & Hvs); [|exact Hnd]. simpl.
  assert (length (keys properties) = length vs) as Hlen' by (unfold keys; rewrite length_fmap; lia).
  exists input, properties, (zip (keys properties) vs). split_and!; try done; [by apply keys_zip|].
  intros name field [i Hi]%list_elem_of_lookup_1.
  destruct (Hvs i name field Hi) as (x & Hx & Hm). exists x. split; [|done].
  rewrite (mget_zip _ _ i); [done|done|done|]. unfold keys. by rewrite list_lookup_fmap, Hi.
Qed.

(** A value that normalisation returns conforms to the schema: it has the
    type the schema names, an object has exactly the declared fields, each
    conforming to its own schema or being its declared default, and enumerations
    and bounds hold. *)
Lemma normalize_conforms fuel value schema v' :
  wf root → wf schema → normalize fuel value schema = Ok v' → conforms schema v'.
Proof.
  intros Hroot. revert value schema v'.
  induction fuel as [|fuel IH]; intros value schema v' Hwf H; simpl in H; [done|].
  destruct (as_str (at_key schema (lit "$ref"))) as [reference|] eqn:Er.
  { destruct (resolve root reference) as [target|] eqn:Et; [|done]. cbn in H.
    eapply conforms_ref; [done|done|]. eapply IH; [|done]. by eapply resolve_wf. }
  destruct (as_array (at_key schema (lit "anyOf"))) as [choices|] eqn:Ea.
  { apply first_ok_Ok in H as (l1 & choice & l2 & -> & Hc & _).
    eapply conforms_any; [done|by apply elem_of_app; right; left|]. eapply IH; [|done].
    pose proof (wf_as_array _ _ (wf_at_key _ (lit "anyOf") Hwf) Ea) as Hall.
    by apply Forall_app in Hall as [_ [? _]%Forall_cons]. }
  destruct (as_str (at_key schema (lit "type"))) as [kind|] eqn:Ek; [|done]. cbn [mbind res_bind ok_or] in H.
  match type of H with (mbind _ ?y) = _ => destruct y as [result| |] eqn:Eres; [|done..] end.
  cbn [mbind res_bind] in H. apply check_result_Ok in H as [-> Hin].
  destruct (str_eqb kind (lit "object")) eqn:E1.
  { apply str_eqb_true in E1 as ->. 
    apply normalize_object_Ok in Eres as (input & properties & m & _ & Hp & _ & -> & Hkeys & Hf); [|done].
    eapply conforms_object; [done|done|done| |done].
    intros name field x Hnf Hx. destruct (Hf name field Hnf) as (x' & Hx' & Hcase).
    rewrite Hx in Hx'. injection Hx' as <-. destruct (mget input name) as [v|]; [left|by right].
    eapply IH; [|done]. destruct (wf_as_object _ _ (wf_at_key _ (lit "properties") Hwf) Hp) as [_ Hall].
    rewrite Forall_forall in Hall. by apply (Hall (name, field)). }
  destruct (str_eqb kind (lit "array")) eqn:E2.
  { apply str_eqb_true in E2 as ->. destruct (as_array value) as [items|]; [|done].
    cbn [mbind res_bind ok_or] in Eres.
    destruct (res_mapM _ items) as [l| |] eqn:El; [|done..]. cbn in Eres. injection Eres as <-.
    apply conforms_array; [done| |done]. intros x Hx.
    destruct (res_mapM_elem _ _ _ _ El Hx) as (y & _ & Hy). eapply IH; [|done]. by apply wf_at_key. }
  eapply conforms_scalar; [done|by eapply normalize_scalar_typed|done].
Qed.

(** ** Termination *)

(** The references met below a schema end within the fuel. *)
Fixpoint resolves (fuel : nat) (schema : Value) : bool :=
  match fuel with
  | O => false
  | S fuel =>
      match as_str (at_key schema (lit "$ref")) with
      | Some reference =>
          match resolve root reference with Some target => resolves fuel target | None => true end
      | None =>
          match as_array (at_key schema (lit "anyOf")) with
          | Some choices => forallb (resolves fuel) choices
          | None =>
              match as_str (at_key schema (lit "type")) with
              | None => true
              | Some kind =>
                  if str_eqb kind (lit "object") then
                    match as_object (at_key schema (lit "properties")) with
                    | Some properties => forallb (λ e, resolves fuel e.2) properties
                    | None => true
                    end
                  else if str_eqb kind (lit "array") then resolves fuel (at_key schema (lit "items"))
                  else true
              end
          end
      end
  end.

Lemma ok_or_no_panic {E A} (o : option A) (e : E) : ok_or o e ≠ Panic.
Proof. by destruct o. Qed.
Lemma ensure_no_panic {E} c (e : E) : ensure c e ≠ Panic.
Proof. by destruct c. Qed.
Lemma bind_no_panic {E A B} (x : res E A) (f : A → res E B) :
  x ≠ Panic → (∀ a, x = Ok a → f a ≠ Panic) → (x ≫= f) ≠ Panic.
Proof. destruct x; simpl; auto. Qed.

Ltac no_panic :=
  repeat first
    [ apply bind_no_panic; [|intros ? ?]
    | apply ok_or_no_panic | apply ensure_no_panic | discriminate
    | progress case_match ].

Lemma numeric_no_panic v : numeric v ≠ Panic.
Proof. unfold numeric. no_panic. Qed.
Lemma normalize_scalar_no_panic kind v : normalize_scalar kind v ≠ Panic.
Proof.
  unfold normalize_scalar, normalize_boolean, normalize_integer.
  no_panic; apply numeric_no_panic.
Qed.
Lemma check_result_no_panic schema v : check_result schema v ≠ Panic.
Proof. unfold check_result, check_enum, check_minimum, check_maximum. no_panic. Qed.

Lemma first_ok_no_panic rec choices :
  (∀ c, c ∈ choices → rec c ≠ Panic) → first_ok rec choices ≠ Panic.
Proof.
  induction choices as [|c choices IH]; intros Hr; simpl; [done|].
  destruct (rec c) eqn:E; [done| |by destruct (Hr c (list_elem_of_here _ _))].
  apply IH. intros. apply Hr. by right.
Qed.

Lemma res_mapM_no_panic {A B} (f : A → res str B) l : (∀ x, f x ≠ Panic) → res_mapM f l ≠ Panic.
Proof. intros Hf. induction l as [|x l IH]; simpl; [done|]. by no_panic. Qed.

Lemma normalize_fields_no_panic rec input properties result :
  (∀ v e, e ∈ properties → rec v e.2 ≠ Panic) →
  normalize_fields rec input properties result ≠ Panic.
Proof.
  revert result; induction properties as [|[name field] properties IH]; intros result Hr; simpl; [done|].
  apply bind_no_panic.
  - destruct (mget input name) as [v|]; [|apply ok_or_no_panic].
    pose proof (Hr v (name, field) (list_elem_of_here _ _)) as Hv. simpl in Hv. by destruct (rec v field).
  - intros x _. apply IH. intros. apply Hr. by right.
Qed.

(** Normalisation returns.  On a schema whose references are not circular
    the recursion ends, with a value or an error, whatever the model answered. *)
Lemma normalize_returns fuel value schema :
  resolves fuel schema = true → is_panic (normalize fuel value schema) = false.
Proof.
  intros Hres. assert (normalize fuel value schema ≠ Panic) as H; [|by destruct (normalize _ _ _)].
  revert value schema Hres; induction fuel as [|fuel IH]; intros value schema Hres; simpl in *; [done|].
  destruct (as_str (at_key schema (lit "$ref"))) as [reference|].
  { destruct (resolve root reference); simpl; [by apply IH|done]. }
  destruct (as_array (at_key schema (lit "anyOf"))) as [choices|].
  { apply first_ok_no_panic. intros c Hc. apply IH. rewrite forallb_forall in Hres.
    by apply Hres, list_elem_of_In. }
  destruct (as_str (at_key schema (lit "type"))) as [kind|]; [|done]. cbn [mbind res_bind ok_or].
  apply bind_no_panic; [|intros; apply check_result_no_panic].
  destruct (str_eqb kind (lit "object")).
  { unfold normalize_object.
    destruct (as_object (at_key schema (lit "properties"))) as [properties|];
      [|apply bind_no_panic; [apply ok_or_no_panic|intros; cbn; discriminate]].
    rewrite forallb_forall in Hres.
    no_panic; apply normalize_fields_no_panic; intros v e He; simplify_eq/=;
      by apply IH, Hres, list_elem_of_In. }
  destruct (str_eqb kind (lit "array")); [|apply normalize_scalar_no_panic].
  no_panic. apply res_mapM_no_panic. intros x. by apply IH.
Qed.

(** ** Idempotence *)

(** A schema whose values are accepted as they are. *)
Definition exact (schema : Value) : bool :=
  is_none (as_str (at_key schema (lit "$ref"))) && is_none (as_array (at_key schema (lit "anyOf"))) &&
  match as_str (at_key schema (lit "type")) with
  | Some kind => str_eqb kind (lit "string") || str_eqb kind (lit "null")
  | None => false
  end.

(** Alternatives after the first convert nothing, and defaults are normal. *)
Fixpoint regular (fuel : nat) (schema : Value) : Prop :=
  match fuel with
  | O => True
  | S fuel =>
      match as_str (at_key schema (lit "$ref")) with
      | Some reference =>
          match resolve root reference with Some target => regular fuel target | None => True end
      | None =>
          match as_array (at_key schema (lit "anyOf")) with
          | Some [] => True
          | Some (first :: others) => regular fuel first ∧ forallb exact others = true
          | None =>
              match as_object (at_key schema (lit "properties")) with
              | Some properties =>
                  Forall (λ e, regular fuel e.2 ∧
                    match get e.2 (lit "default") with
                    | Some d => normalize fuel d e.2 = Ok d
                    | None => True
                    end) properties
              | None => True
              end ∧
              match as_str (at_key schema (lit "type")) with
              | Some kind =>
                  if str_eqb kind (lit "array") then regular fuel (at_key schema (lit "items")) else True
              | None => True
              end
          end
      end
  end.

(** The same as a check, for defaults that are null, booleans or strings. *)
Definition same_scalar (v v' : Value) : bool :=
  match v, v' with
  | Null, Null => true
  | Bool b, Bool b' => Bool.eqb b b'
  | String s, String s' => str_eqb s s'
  | _, _ => false
  end.
Fixpoint regularb (fuel : nat) (schema : Value) : bool :=
  match fuel with
  | O => true
  | S fuel =>
      match as_str (at_key schema (lit "$ref")) with
      | Some reference =>
          match resolve root reference with Some target => regularb fuel target | None => true end
      | None =>
          match as_array (at_key schema (lit "anyOf")) with
          | Some [] => true
          | Some (first :: others) => regularb fuel first && forallb exact others
          | None =>
              match as_object (at_key schema (lit "properties")) with
              | Some properties =>
                  forallb (λ e, regularb fuel e.2 &&
                    match get e.2 (lit "default") with
                    | Some d => match normalize fuel d e.2 with Ok v => same_scalar d v | _ => false end
                    | None => true
                    end) properties
              | None => true
              end &&
              match as_str (at_key schema (lit "type")) with
              | Some kind =>
                  if str_eqb kind (lit "array") then regularb fuel (at_key schema (lit "items")) else true
              | None => true
              end
          end
      end
  end.

Lemma same_scalar_eq v v' : same_scalar v v' = true → v = v'.
Proof.
  destruct v, v'; simpl; try done; intros H; f_equal;
    [by apply eqb_prop|by apply str_eqb_true].
Qed.

Lemma regularb_sound fuel schema : regularb fuel schema = true → regular fuel schema.
Proof.
  revert schema; induction fuel as [|fuel IH]; intros schema H; simpl in *; [done|].
  destruct (as_str (at_key schema (lit "$ref"))); [destruct (resolve root l); auto|].
  destruct (as_array (at_key schema (lit "anyOf"))) as [[|c cs]|]; [done| |].
  { apply andb_true_iff in H as [H1 H2]. auto. }
  apply andb_true_iff in H as [H1 H2]. split.
  - destruct (as_object _) as [ps|]; [|done]. rewrite forallb_forall in H1. apply Forall_forall.
    intros e He%list_elem_of_In. apply H1, andb_true_iff in He as [Hr Hd]. split; [auto|].
    destruct (get e.2 (lit "default")) as [d|]; [|done].
    destruct (normalize fuel d e.2) as [v| |]; [|done..]. by apply same_scalar_eq in Hd as ->.
  - destruct (as_str _); [|done]. destruct (str_eqb _ _); auto.
Qed.

Lemma exact_identity fuel value schema v' :
  exact schema = true → normalize fuel value schema = Ok v' → v' = value.
Proof.
  intros Hex H. destruct fuel as [|fuel]; [done|]. simpl in H. unfold exact in Hex.
  apply andb_true_iff in Hex as [Hex Hk]. apply andb_true_iff in Hex as [Hr Ha].
  destruct (as_str (at_key schema (lit "$ref"))); [done|].
  destruct (as_array (at_key schema (lit "anyOf"))); [done|].
  destruct (as_str (at_key schema (lit "type"))) as [kind|]; [|done]. cbn [mbind res_bind ok_or] in H.
  apply orb_true_iff in Hk as [Hk|Hk]; apply str_eqb_true in Hk as ->; cbn in H.
  - destruct value; try done. cbn in H. by apply check_result_Ok in H as [-> _].
  - destruct value; try done. cbn in H. by apply check_result_Ok in H as [-> _].
Qed.

Lemma numeric_float x : is_finite x = true → numeric (Num (Float x)) = Ok x.
Proof. intros Hx. unfold numeric. cbn. by rewrite Hx. Qed.

Lemma normalize_scalar_again kind v v' :
  normalize_scalar kind v = Ok v' → normalize_scalar kind v' = Ok v'.
Proof.
  intros H. apply normalize_scalar_typed in H.
  destruct H as [[-> [s ->]]|[[-> [b ->]]|[[-> [[n ->]|[z ->]]]|[[-> (x & -> & Hx)]|[-> ->]]]]]; try done.
  unfold normalize_scalar. simpl. by rewrite numeric_float.
Qed.

Lemma normalize_fields_same rec input properties m result :
  Forall2 (λ e e', e.1 = e'.1 ∧ mget input e.1 = Some e'.2 ∧ rec e'.2 e.2 = Ok e'.2) properties m →
  NoDup (keys result ++ keys properties) →
  normalize_fields rec input properties result = Ok (result ++ m).
Proof.
  intros HF. revert result. induction HF as [|[n f] [n' x] properties m (Hn & Hg & Hr) HF IH];
    intros result Hnd; simpl in *; [by rewrite app_nil_r|]. subst n'.
  rewrite Hg, Hr. cbn [mbind res_bind under].
  rewrite minsert_absent; [|intros Hin; unfold keys in *; simpl in Hnd; apply NoDup_app in Hnd as (_ & Hd & _);
                            apply (Hd n Hin); left].
  rewrite IH; [by rewrite <-app_assoc|]. unfold keys in *. rewrite fmap_app, <-app_assoc. exact Hnd.
Qed.

Lemma aligned_fields (rec : Value → Value → res str Value) (properties m : Map) :
  NoDup (keys properties) → keys m = keys properties →
  (∀ name field x, (name, field) ∈ properties → mget m name = Some x → rec x field = Ok x) →
  Forall2 (λ e e', e.1 = e'.1 ∧ mget m e.1 = Some e'.2 ∧ rec e'.2 e.2 = Ok e'.2) properties m.
Proof.
  intros Hnd Hkeys Hrec. assert (length m = length properties) as Hlen.
  { unfold keys in Hkeys. apply (f_equal length) in Hkeys. by rewrite !length_fmap in Hkeys. }
  apply Forall2_same_length_lookup. split; [done|].
  intros i [n f] [n' x] Hi Hi'. simpl.
  assert (n' = n) as ->.
  { assert (keys m !! i = keys properties !! i) as E by (by rewrite Hkeys).
    unfold keys in E. rewrite !list_lookup_fmap, Hi, Hi' in E. by injection E. }
  assert (mget m n = Some x) as Hg.
  { apply elem_mget; [by rewrite Hkeys|]. by eapply list_elem_of_lookup_2. }
  split; [done|]. split; [done|]. apply (Hrec n); [|done]. by eapply list_elem_of_lookup_2.
Qed.

Lemma normalize_object_again rec value schema v' :
  wf schema → normalize_object rec value schema = Ok v' →
  (∀ properties name field x, as_object (at_key schema (lit "properties")) = Some properties →
     (name, field) ∈ properties →
     (∃ v, rec v field = Ok x) ∨ get field (lit "default") = Some x → rec x field = Ok x) →
  normalize_object rec v' schema = Ok v'.
Proof.
  intros Hwf H Hrec.
  apply normalize_object_Ok in H as (input & properties & m & _ & Hp & Hnd & -> & Hkeys & Hf); [|done].
  unfold normalize_object. rewrite Hp. cbn [as_object mbind res_bind ok_or].
  assert (ensure (forallb (contains_key properties) (keys m)) (lit "unexpected field") = Ok tt) as Hens.
  { apply ensure_Ok, forallb_forall. intros k Hk%list_elem_of_In. rewrite Hkeys in Hk.
    unfold contains_key. destruct (mget properties k) eqn:E; [done|]. by apply mget_None in E. }
  assert (∀ P : res str unit, (P = Ok tt ∨ P = ensure (forallb (contains_key properties) (keys m)) (lit "unexpected field")) →
    P = Ok tt) as HP by naive_solver.
  rewrite (HP (match at_key schema (lit "additionalProperties") with
      | Bool false => ensure (forallb (contains_key properties) (keys m)) (lit "unexpected field")
      | _ => Ok tt end)) by (repeat case_match; auto).
  cbn [mbind res_bind]. rewrite (normalize_fields_same _ _ _ m []); [done| |done].
  apply aligned_fields; [done|done|]. intros name field x Hnf Hx.
  destruct (Hf name field Hnf) as (x' & Hx' & Hc). rewrite Hx in Hx'. injection Hx' as <-.
  apply (Hrec properties name); [done|done|]. destruct (mget input name); eauto.
Qed.

(** Normalisation is idempotent on the schemas the roles use (alternatives
    after the first convert nothing, defaults are normal): a normalised answer
    is accepted as it is. *)
Lemma normalize_idempotent fuel value schema v' :
  wf root → wf schema → regular fuel schema →
  normalize fuel value schema = Ok v' → normalize fuel v' schema = Ok v'.
Proof.
  intros Hroot. revert value schema v'.
  induction fuel as [|fuel IH]; intros value schema v' Hwf Hreg H; [done|]. simpl in H, Hreg |- *.
  destruct (as_str (at_key schema (lit "$ref"))) as [reference|] eqn:Er.
  { destruct (resolve root reference) as [target|] eqn:Et; [|done]. cbn in H |- *.
    eapply IH; [by eapply resolve_wf|done|done]. }
  destruct (as_array (at_key schema (lit "anyOf"))) as [choices|] eqn:Ea.
  { pose proof (wf_as_array _ _ (wf_at_key _ (lit "anyOf") Hwf) Ea) as Hall.
    destruct choices as [|first others]; [done|]. destruct Hreg as [Hreg Hex].
    apply Forall_cons in Hall as [Hwf1 _]. pose proof H as H'. simpl in H |- *.
    destruct (normalize fuel value first) as [x|e|] eqn:E; [| |done].
    - injection H as ->. by rewrite (IH value first v' Hwf1 Hreg E).
    - apply first_ok_Ok in H as (l1 & choice & l2 & -> & Hc & _).
      assert (v' = value) as ->; [|done]. eapply exact_identity; [|exact Hc].
      rewrite forallb_forall in Hex. apply Hex, in_elt. }
  destruct (as_str (at_key schema (lit "type"))) as [kind|] eqn:Ek; [|done]. cbn [mbind res_bind ok_or] in H |- *.
  match type of H with (mbind _ ?y) = _ => destruct y as [result| |] eqn:Eres; [|done..] end.
  cbn [mbind res_bind] in H. apply check_result_Ok in H as [-> Hin].
  assert (check_result schema result = Ok result) as Hchk by (by apply check_result_Ok).
  destruct Hreg as [Hprops Hitems].
  destruct (str_eqb kind (lit "object")) eqn:E1.
  { rewrite (normalize_object_again _ _ _ _ Hwf Eres); [done|].
    intros properties name field x Hp Hnf Hcase. rewrite Hp in Hprops. rewrite Forall_forall in Hprops.
    destruct (Hprops (name, field) Hnf) as [Hreg Hdef]. simpl in *.
    destruct (wf_as_object _ _ (wf_at_key _ (lit "properties") Hwf) Hp) as [_ Hall].
    rewrite Forall_forall in Hall. specialize (Hall (name, field) Hnf). simpl in Hall.
    destruct Hcase as [[v Hv]|Hd]; [by eapply IH|]. by rewrite Hd in Hdef. }
  destruct (str_eqb kind (lit "array")) eqn:E2.
  { destruct (as_array value) as [items|]; [|done]. cbn [mbind res_bind ok_or] in Eres.
    destruct (res_mapM _ items) as [l| |] eqn:El; [|done..]. cbn in Eres. injection Eres as <-.
    cbn [as_array mbind res_bind ok_or].
    rewrite (proj2 (res_mapM_Ok (λ v, normalize fuel v (at_key schema (lit "items"))) l l)); [done|].
    apply Forall_Forall2_diag, Forall_forall. intros x Hx.
    destruct (res_mapM_elem _ _ _ _ El Hx) as (y & _ & Hy).
    eapply IH; [by apply wf_at_key|done|exact Hy]. }
  by rewrite (normalize_scalar_again _ _ _ Eres).
Qed.

(** ** Strict schemas *)

(** [iter().map(|(key, value)| ...).collect::<Result<Map>>()] *)
Definition map_values (rec : Value → res str Value) (m : Map) : res str Map :=
  res_mapM (λ e : str * Value, v ← rec e.2; Ok (e.1, v)) m.

Definition empty_object_schema : Value :=
  Object [(lit "additionalProperties", Bool false); (lit "type", String (lit "object"));
          (lit "properties", Object []); (lit "required", Array [])].

(** The steps of [strict_schema], in order. *)
Definition strict_definitions (rec : Value → res str Value) (name : str) (schema : Map) : res str Map :=
  match mget schema name with
  | Some (Object definitions) => ds ← map_values rec definitions; Ok (minsert name (Object ds) schema)
  | _ => Ok schema
  end.

Definition strict_additional (schema : Map) : res str Map :=
  match mget schema (lit "type") with
  | Some (String t) =>
      if str_eqb t (lit "object") then
        match mget schema (lit "additionalProperties") with
        | None => Ok (minsert (lit "additionalProperties") (Bool false) schema)
        | Some (Bool false) => Ok schema
        | Some _ => Err (lit "additionalProperties must be false for object schemas")
        end
      else Ok schema
  | _ => Ok schema
  end.

Definition strict_properties (rec : Value → res str Value) (schema : Map) : res str Map :=
  match mget schema (lit "properties") with
  | Some (Object properties) =>
      let schema := minsert (lit "required") (Array (String <$> keys properties)) schema in
      ps ← map_values rec properties;
      Ok (minsert (lit "properties") (Object ps) schema)
  | _ => Ok schema
  end.

Definition strict_items (rec : Value → res str Value) (schema : Map) : res str Map :=
  match mget schema (lit "items") with
  | Some items => items ← rec items; Ok (minsert (lit "items") items schema)
  | None => Ok schema
  end.

Definition strict_any_of (rec : Value → res str Value) (schema : Map) : res str Map :=
  match mget schema (lit "anyOf") with
  | Some (Array any_of) => l ← res_mapM rec any_of; Ok (minsert (lit "anyOf") (Array l) schema)
  | _ => Ok schema
  end.

Definition strict_one_of (rec : Value → res str Value) (schema : Map) : res str Map :=
  match mget schema (lit "oneOf") with
  | Some one_of =>
      let schema := mremove (lit "oneOf") schema in
      let any_of := default [] (v ← mget schema (lit "anyOf"); as_array v) in
      let schema := mremove (lit "anyOf") schema in
      one_of ← ok_or (as_array one_of) (lit "oneOf must be an array");
      l ← res_mapM rec one_of;
      Ok (minsert (lit "anyOf") (Array (any_of ++ l)) schema)
  | None => Ok schema
  end.

Definition strict_all_of (rec : Value → res str Value) (schema : Map) : res str Map :=
  match mget schema (lit "allOf") with
  | Some all_of =>
      let schema := mremove (lit "allOf") schema in
      all_of ← ok_or (as_array all_of) (lit "allOf must be an array");
      match all_of with
      | [entry] =>
          v ← rec entry;
          m ← ok_or (as_object v) (lit "allOf entry must be an object");
          Ok (mextend schema m)
      | _ => l ← res_mapM rec all_of; Ok (minsert (lit "allOf") (Array l) schema)
      end
  | None => Ok schema
  end.

Definition strict_steps (rec : Value → res str Value) (schema : Map) : res str Map :=
  schema ← strict_definitions rec (lit "$defs") schema;
  schema ← strict_definitions rec (lit "definitions") schema;
  schema ← strict_additional schema;
  schema ← strict_properties rec schema;
  schema ← strict_items rec schema;
  schema ← strict_any_of rec schema;
  schema ← strict_one_of rec schema;
  schema ← strict_all_of rec schema;
  Ok (mremove (lit "default") schema).

Fixpoint strict_schema (fuel : nat) (schema : Value) : res str Value :=
  match fuel with
  | O => Panic
  | S fuel =>
      schema ← ok_or (as_object schema) (lit "schema must be an object");
      if is_empty schema then Ok empty_object_schema
      else
        schema ← strict_steps (strict_schema fuel) schema;
        if (1 <? length schema)%nat then
          match mget schema (lit "$ref") with
          | Some reference =>
              let schema := mremove (lit "$ref") schema in
              reference ← ok_or (as_str reference) (lit "schema reference must be a string");
              _ ← ensure (starts_with reference (lit "#/")) (lit "unsupported schema reference");
              target ← ok_or (resolve root reference) (lit "schema reference");
              resolved ← ok_or (as_object target) (lit "schema reference must resolve to an object");
              strict_schema fuel (Object (mextend resolved schema))
          | None => Ok (Object schema)
          end
        else Ok (Object schema)
  end.

(** What a strict schema promises, at every schema inside it. *)
Inductive strict : Value → Prop :=
  | strict_intro m :
      (mget m (lit "type") = Some (String (lit "object")) →
         mget m (lit "additionalProperties") = Some (Bool false)) →
      (∀ ps, mget m (lit "properties") = Some (Object ps) →
         mget m (lit "required") = Some (Array (String <$> keys ps)) ∧ ∀ e, e ∈ ps → strict e.2) →
      (∀ i, mget m (lit "items") = Some i → strict i) →
      (∀ l c, mget m (lit "anyOf") = Some (Array l) → c ∈ l → strict c) →
      (∀ n ds e, n ∈ [lit "$defs"; lit "definitions"] → mget m n = Some (Object ds) → e ∈ ds →
         strict e.2) →
      mget m (lit "oneOf") = None → mget m (lit "default") = None →
      strict (Object m).

(** Schemas without [allOf], which none of the roles uses. *)
Definition plain_map (m : Map) : Prop := NoDup (keys m) ∧ mget m (lit "allOf") = None.
Definition plain : Value → Prop := deep plain_map.
Definition plain_entries (m : Map) : Prop := plain_map m ∧ Forall (λ e, plain e.2) m.

Ltac lit_neq := let H := fresh in intros H; vm_compute in H; discriminate H.

Lemma plain_Object m : plain (Object m) ↔ plain_entries m.
Proof. apply deep_Object. Qed.

Lemma plain_minsert k v m :
  plain_entries m → plain v → k ≠ lit "allOf" → plain_entries (minsert k v m).
Proof.
  intros [[Hnd Ha] Hm] Hv Hk. split; [split|by apply deep_minsert].
  - by apply NoDup_minsert.
  - rewrite mget_minsert. destruct (str_eqb k (lit "allOf")) eqn:E; [|done].
    by apply str_eqb_true in E.
Qed.
Lemma plain_mremove k m : plain_entries m → plain_entries (mremove k m).
Proof.
  intros [[Hnd Ha] Hm]. split; [split|by apply deep_mremove].
  - by apply NoDup_mremove.
  - rewrite mget_mremove by done. by case_match.
Qed.
Lemma plain_mextend m other : plain_entries m → plain_entries other → plain_entries (mextend m other).
Proof.
  intros [[Hnd Ha] Hm] [[Hnd' Ha'] Ho]. split; [split|by apply deep_mextend].
  - by apply NoDup_mextend.
  - rewrite mget_mextend by done. by rewrite Ha'.
Qed.
Lemma plain_entry m k v : plain_entries m → mget m k = Some v → plain v.
Proof. intros [_ Hm]. by apply deep_mget. Qed.

Definition plain_mapb (m : Map) : bool := bool_decide (NoDup (keys m)) && is_none (mget m (lit "allOf")).
Definition plainb : Value → bool := deepb plain_mapb.

Lemma plainb_sound v : plainb v = true → plain v.
Proof.
  apply deepb_sound. intros m [Hn Ha]%andb_true_iff. apply bool_decide_eq_true in Hn.
  split; [done|]. by destruct (mget m (lit "allOf")).
Qed.

Lemma plain_wf v : plainb v = true → wf v.
Proof. apply deepb_sound. intros m [Hn _]%andb_true_iff. by apply bool_decide_eq_true in Hn. Qed.

Section steps.
Variable rec : Value → res str Value.
Hypothesis rec_strict : ∀ v v', plain v → rec v = Ok v' → plain v' ∧ strict v'.

Lemma map_values_strict m m' :
  plain_entries m → map_values rec m = Ok m' →
  plain (Object m') ∧ keys m' = keys m ∧ ∀ e, e ∈ m' → strict e.2.
Proof.
  intros [[Hnd Ha] Hm] HF%res_mapM_Ok.
  assert (Forall2 (λ e e', e.1 = e'.1 ∧ plain e'.2 ∧ strict e'.2) m m') as HF'.
  { clear Hnd Ha. induction HF as [|[k v] [k' v'] m m' He HF IH]; [constructor|].
    apply Forall_cons in Hm as [Hv Hm]. cbn in He. destruct (rec v) as [w| |] eqn:E; [|done..].
    cbn in He. injection He as <- <-. constructor; [|by apply IH]. split; [done|]. by apply (rec_strict v). }
  clear HF Hm. assert (keys m' = keys m) as Hk.
  { clear Hnd Ha. unfold keys. induction HF' as [|e e' m m' (He & _) HF IH]; [done|]. csimpl. by rewrite He, IH. }
  split; [|split; [done|]].
  - apply plain_Object. split; [split; [by rewrite Hk|]|].
    + apply mget_None. rewrite Hk. by apply mget_None.
    + clear -HF'. induction HF' as [|e e' m m' (_ & He & _) HF IH]; by constructor.
  - clear -HF'. induction HF' as [|e e' m m' (_ & _ & He) HF IH]; intros x Hx; [by apply not_elem_of_nil in Hx|].
    apply elem_of_cons in Hx as [->|Hx]; auto.
Qed.

Lemma mapM_strict l l' :
  Forall plain l → res_mapM rec l = Ok l' → plain (Array l') ∧ ∀ c, c ∈ l' → strict c.
Proof.
  intros Hl HF%res_mapM_Ok.
  assert (Forall (λ c, plain c ∧ strict c) l') as H.
  { induction HF as [|v v' l l' Hv HF IH]; [constructor|]. apply Forall_cons in Hl as [Hp Hl].
    constructor; [by apply (rec_strict v)|by apply IH]. }
  split; [apply deep_Array; eapply Forall_impl; [done|]; by intros ? []|].
  rewrite Forall_forall in H. intros c Hc. by apply H.
Qed.

(** Each step keeps the other entries and establishes its own. *)
Lemma strict_definitions_ok n s s' :
  n ≠ lit "allOf" → plain_entries s → strict_definitions rec n s = Ok s' →
  plain_entries s' ∧ (∀ k, k ≠ n → mget s' k = mget s k) ∧
  (∀ ds e, mget s' n = Some (Object ds) → e ∈ ds → strict e.2).
Proof.
  intros Hn Hs H. unfold strict_definitions in H.
  destruct (mget s n) as [[| | | | |m]|] eqn:E; simplify_eq/=; try (split_and!; naive_solver).
  destruct (map_values rec m) as [ds| |] eqn:Em; [|done..]. cbn in H. injection H as <-.
  pose proof (plain_entry _ _ _ Hs E) as Hm. apply plain_Object in Hm.
  destruct (map_values_strict m ds Hm Em) as (Hp & _ & Hst). split_and!.
  - by apply plain_minsert.
  - intros k Hk. rewrite mget_minsert. apply not_eq_sym, str_eqb_false in Hk. by rewrite Hk.
  - intros ds' e. rewrite mget_minsert, str_eqb_refl. intros [= <-]. auto.
Qed.

Lemma strict_additional_ok s s' :
  plain_entries s → strict_additional s = Ok s' →
  plain_entries s' ∧ (∀ k, k ≠ lit "additionalProperties" → mget s' k = mget s k) ∧
  (mget s' (lit "type") = Some (String (lit "object")) →
     mget s' (lit "additionalProperties") = Some (Bool false)).
Proof.
  intros Hs H. unfold strict_additional in H.
  destruct (mget s (lit "type")) as [[| | |t| |]|] eqn:Et; simplify_eq/=; try (split_and!; naive_solver).
  destruct (str_eqb t (lit "object")) eqn:E.
  - destruct (mget s (lit "additionalProperties")) as [[|[]| | | |]|] eqn:Ea; simplify_eq/=;
      [split_and!; naive_solver|].
    split_and!; [apply plain_minsert; [done|done|lit_neq]| |].
    + intros k Hk. rewrite mget_minsert. apply not_eq_sym, str_eqb_false in Hk. by rewrite Hk.
    + intros _. by rewrite mget_minsert, str_eqb_refl.
  - injection H as <-. apply str_eqb_false in E. split_and!; naive_solver.
Qed.

Lemma strict_properties_ok s s' :
  plain_entries s → strict_properties rec s = Ok s' →
  plain_entries s' ∧
  (∀ k, k ≠ lit "properties" → k ≠ lit "required" → mget s' k = mget s k) ∧
  (∀ ps, mget s' (lit "properties") = Some (Object ps) →
     mget s' (lit "required") = Some (Array (String <$> keys ps)) ∧ ∀ e, e ∈ ps → strict e.2).
Proof.
  intros Hs H. unfold strict_properties in H.
  destruct (mget s (lit "properties")) as [[| | | | |m]|] eqn:E; simplify_eq/=; try (split_and!; naive_solver).
  destruct (map_values rec m) as [ps| |] eqn:Em; [|done..]. cbn [mbind res_bind] in H. injection H as <-.
  pose proof (plain_entry _ _ _ Hs E) as Hm. apply plain_Object in Hm.
  destruct (map_values_strict m ps Hm Em) as (Hp & Hk & Hst). split_and!.
  - apply plain_minsert; [apply plain_minsert; [done| |lit_neq]|done|lit_neq].
    apply deep_Array, Forall_fmap, Forall_true. done.
  - intros k Hk1 Hk2. rewrite !mget_minsert. apply not_eq_sym, str_eqb_false in Hk1, Hk2. by rewrite Hk1, Hk2.
  - intros ps'. rewrite !mget_minsert, str_eqb_refl. intros [= <-]. rewrite Hk. split; [|done].
    by rewrite str_eqb_refl.
Qed.

Lemma strict_items_ok s s' :
  plain_entries s → strict_items rec s = Ok s' →
  plain_entries s' ∧ (∀ k, k ≠ lit "items" → mget s' k = mget s k) ∧
  (∀ i, mget s' (lit "items") = Some i → strict i).
Proof.
  intros Hs H. unfold strict_items in H. destruct (mget s (lit "items")) as [v|] eqn:E; simplify_eq/=;
    [|split_and!; naive_solver].
  destruct (rec v) as [i| |] eqn:Ei; [|done..]. cbn in H. injection H as <-.
  destruct (rec_strict v i (plain_entry _ _ _ Hs E) Ei) as [Hp Hst]. split_and!.
  - apply plain_minsert; [done|done|lit_neq].
  - intros k Hk. rewrite mget_minsert. apply not_eq_sym, str_eqb_false in Hk. by rewrite Hk.
  - intros i'. rewrite mget_minsert, str_eqb_refl. by intros [= <-].
Qed.

Lemma strict_any_of_ok s s' :
  plain_entries s → strict_any_of rec s = Ok s' →
  plain_entries s' ∧ (∀ k, k ≠ lit "anyOf" → mget s' k = mget s k) ∧
  (∀ l c, mget s' (lit "anyOf") = Some (Array l) → c ∈ l → strict c).
Proof.
  intros Hs H. unfold strict_any_of in H.
  destruct (mget s (lit "anyOf")) as [[| | | |l|]|] eqn:E; simplify_eq/=; try (split_and!; naive_solver).
  destruct (res_mapM rec l) as [l'| |] eqn:El; [|done..]. cbn in H. injection H as <-.
  pose proof (plain_entry _ _ _ Hs E) as Hl. apply deep_Array in Hl.
  destruct (mapM_strict l l' Hl El) as [Hp Hst]. split_and!.
  - apply plain_minsert; [done|done|lit_neq].
  - intros k Hk. rewrite mget_minsert. apply not_eq_sym, str_eqb_false in Hk. by rewrite Hk.
  - intros l2 c. rewrite mget_minsert, str_eqb_refl. intros [= <-]. auto.
Qed.

Lemma strict_one_of_ok s s' :
  plain_entries s → strict_one_of rec s = Ok s' →
  (∀ l c, mget s (lit "anyOf") = Some (Array l) → c ∈ l → strict c) →
  plain_entries s' ∧ (∀ k, k ≠ lit "anyOf" → k ≠ lit "oneOf" → mget s' k = mget s k) ∧
  (∀ l c, mget s' (lit "anyOf") = Some (Array l) → c ∈ l → strict c) ∧
  mget s' (lit "oneOf") = None.
Proof.
  intros Hs H Hany. unfold strict_one_of in H.
  destruct (mget s (lit "oneOf")) as [v|] eqn:E; simplify_eq/=; [|split_and!; naive_solver].
  destruct (as_array v) as [l|] eqn:Ev; [|done]. cbn [mbind res_bind ok_or] in H.
  destruct (res_mapM rec l) as [l'| |] eqn:El; [|done..]. cbn [mbind res_bind] in H. injection H as <-.
  destruct (mapM_strict l l') as [Hp Hst]; [|done|].
  { eapply deep_as_array; [by eapply plain_entry|done]. }
  pose proof Hs as [[Hnd _] _]. pose proof (NoDup_mremove (lit "oneOf") s Hnd) as Hnd1.
  rewrite mget_mremove by done.
  replace (str_eqb (lit "oneOf") (lit "anyOf")) with false by reflexivity.
  set (old := default [] (v0 ← mget s (lit "anyOf"); as_array v0)).
  assert (Forall plain old ∧ ∀ c, c ∈ old → strict c) as [Hold Hold'].
  { unfold old. destruct (mget s (lit "anyOf")) as [w|] eqn:Ew; cbn;
      [|split; [constructor|by intros c Hc%not_elem_of_nil]].
    destruct w as [| | | |lw|]; cbn; try (split; [constructor|by intros c Hc%not_elem_of_nil]).
    pose proof (plain_entry _ _ _ Hs Ew) as Hw. apply deep_Array in Hw. split; [done|]. eauto. }
  split_and!.
  - apply plain_minsert; [by apply plain_mremove, plain_mremove| |lit_neq].
    apply deep_Array, Forall_app. split; [done|]. by apply deep_Array.
  - intros k Hk1 Hk2. rewrite mget_minsert, !mget_mremove by done.
    apply not_eq_sym, str_eqb_false in Hk1, Hk2. by rewrite Hk1, Hk2.
  - intros l2 c. rewrite mget_minsert, str_eqb_refl. intros [= <-] [Hc|Hc]%elem_of_app; auto.
  - rewrite mget_minsert, !mget_mremove by done. reflexivity.
Qed.

Lemma strict_all_of_ok s : plain_entries s → strict_all_of rec s = Ok s.
Proof. intros [[_ Ha] _]. unfold strict_all_of. by rewrite Ha. Qed.

Lemma strict_steps_ok s s' :
  plain_entries s → strict_steps rec s = Ok s' → plain_entries s' ∧ strict (Object s').
Proof.
  intros H0 H. unfold strict_steps in H.
  destruct (strict_definitions rec (lit "$defs") s) as [s1| |] eqn:E1; [|done..]. cbn [mbind res_bind] in H.
  destruct (strict_definitions_ok (lit "$defs") s s1 ltac:(lit_neq) H0 E1) as (H1 & F1 & P1).
  destruct (strict_definitions rec (lit "definitions") s1) as [s2| |] eqn:E2; [|done..]. cbn [mbind res_bind] in H.
  destruct (strict_definitions_ok (lit "definitions") s1 s2 ltac:(lit_neq) H1 E2) as (H2 & F2 & P2).
  destruct (strict_additional s2) as [s3| |] eqn:E3; [|done..]. cbn [mbind res_bind] in H.
  destruct (strict_additional_ok s2 s3 H2 E3) as (H3 & F3 & P3).
  destruct (strict_properties rec s3) as [s4| |] eqn:E4; [|done..]. cbn [mbind res_bind] in H.
  destruct (strict_properties_ok s3 s4 H3 E4) as (H4 & F4 & P4).
  destruct (strict_items rec s4) as [s5| |] eqn:E5; [|done..]. cbn [mbind res_bind] in H.
  destruct (strict_items_ok s4 s5 H4 E5) as (H5 & F5 & P5).
  destruct (strict_any_of rec s5) as [s6| |] eqn:E6; [|done..]. cbn [mbind res_bind] in H.
  destruct (strict_any_of_ok s5 s6 H5 E6) as (H6 & F6 & P6).
  destruct (strict_one_of rec s6) as [s7| |] eqn:E7; [|done..]. cbn [mbind res_bind] in H.
  destruct (strict_one_of_ok s6 s7 H6 E7 P6) as (H7 & F7 & P7 & P7').
  rewrite (strict_all_of_ok s7 H7) in H. cbn [mbind res_bind] in H. injection H as <-.
  pose proof H7 as [[Hnd _] _]. split; [by apply plain_mremove|].
  assert (∀ k, k ≠ lit "default" → mget (mremove (lit "default") s7) k = mget s7 k) as F8.
  { intros k Hk. rewrite mget_mremove by done. apply not_eq_sym, str_eqb_false in Hk. by rewrite Hk. }
  constructor.
  - rewrite !F8, !F7, !F6, !F5, !F4 by lit_neq. exact P3.
  - intros ps. rewrite !F8, !F7, !F6, !F5 by lit_neq. apply P4.
  - intros i. rewrite F8, F7, F6 by lit_neq. apply P5.
  - intros l c. rewrite F8 by lit_neq. apply P7.
  - intros n ds e Hn. apply elem_of_cons in Hn as [->|Hn].
    + rewrite F8, F7, F6, F5, F4, F3, F2 by lit_neq. apply P1.
    + apply list_elem_of_singleton in Hn as ->. rewrite F8, F7, F6, F5, F4, F3 by lit_neq. apply P2.
  - by rewrite F8 by lit_neq.
  - rewrite mget_mremove by done. reflexivity.
Qed.
End steps.

Lemma empty_object_schema_strict : plain empty_object_schema ∧ strict empty_object_schema.
Proof.
  split.
  - split; [split; [|done]|repeat split; apply NoDup_nil_2].
    unfold keys. simpl. repeat (apply NoDup_cons; split; [|]); try apply NoDup_nil_2;
      rewrite ?not_elem_of_cons; repeat split; try lit_neq; apply not_elem_of_nil.
  - constructor; try done.
    + intros ps. vm_compute. intros [= <-]. split; [done|]. by intros e He%not_elem_of_nil.
    + intros n ds e Hn. apply elem_of_cons in Hn as [->|Hn]; [by vm_compute|].
      apply list_elem_of_singleton in Hn as ->. by vm_compute.
Qed.

Lemma strict_schema_ok fuel schema s' :
  plain root → plain schema → strict_schema fuel schema = Ok s' → plain s' ∧ strict s'.
Proof.
  intros Hroot. revert schema s'; induction fuel as [|fuel IH]; intros schema s' Hp H; simpl in H; [done|].
  destruct (as_object schema) as [m|] eqn:Em; [|done]. cbn [mbind res_bind ok_or] in H.
  destruct m as [|e m]; [injection H as <-; apply empty_object_schema_strict|]. cbn [is_empty] in H.
  destruct (strict_steps (strict_schema fuel) (e :: m)) as [s1| |] eqn:E; [|done..]. cbn [mbind res_bind] in H.
  assert (plain_entries (e :: m)) as Hm by (by eapply deep_as_object).
  destruct (strict_steps_ok (strict_schema fuel) (λ v v', IH v v') _ _ Hm E) as [Hp1 Hst].
  assert (plain (Object s1) ∧ strict (Object s1)) as Hdone by (split; [by apply plain_Object|done]).
  destruct (1 <? length s1)%nat; [|by injection H as <-].
  destruct (mget s1 (lit "$ref")) as [reference|]; [|by injection H as <-].
  destruct (as_str reference) as [r|]; [|done]. cbn [mbind res_bind ok_or] in H.
  destruct (starts_with r (lit "#/")); [|done]. cbn [mbind res_bind ensure] in H.
  destruct (resolve root r) as [target|] eqn:Et; [|done]. cbn [mbind res_bind ok_or] in H.
  destruct (as_object target) as [resolved|] eqn:Eo; [|done]. cbn [mbind res_bind ok_or] in H.
  eapply IH; [|exact H]. apply plain_Object, plain_mextend; [|by apply plain_mremove].
  eapply deep_as_object; [|exact Eo]. eapply deep_pointer; [exact Hroot|exact Et].
Qed.

(** A schema sent to a model is strict: in it and in every schema inside it
    objects admit no undeclared field and require every declared one, and there
    is neither a default nor a [oneOf]. *)
Lemma strict_schema_is_strict fuel schema s' :
  plain root → plain schema → strict_schema fuel schema = Ok s' → strict s'.
Proof. intros Hr Hs H. by eapply strict_schema_ok. Qed.

End contract.

(** ** The roles

    [MODELS] is the bundled table of contracts, [fuel] the depth of the stack. *)
Section roles.
Variable MODELS : Map.
Variable fuel : nat.

Definition schemas : res str Value :=
  m ← res_mapM (λ e : str * Value,
        let validation := at_key e.2 (lit "validation") in
        match strict_schema validation fuel validation with
        | Ok schema => Ok (e.1, schema)
        | _ => Panic
        end) MODELS;
  Ok (Object m).

Definition validate (role : str) (value : Value) : res str Value :=
  schema ← ok_or (mget MODELS role) (lit "unknown model role");
  let validation := at_key schema (lit "validation") in
  normalize validation fuel value validation.

(** C32: an accepted answer of a model conforms to the contract of its role: it
    has the type the schema names, an object has exactly the declared fields,
    each conforming to its own schema or being its declared default, and
    enumerations and bounds hold; and when the alternatives of the contract after
    the first convert nothing and its defaults are normal, validating the result
    again returns it unchanged. *)
Theorem validate_conforms role value c v' :
  mget MODELS role = Some c → wf (at_key c (lit "validation")) →
  validate role value = Ok v' →
  conforms (at_key c (lit "validation")) (at_key c (lit "validation")) v' ∧
  (regular (at_key c (lit "validation")) fuel (at_key c (lit "validation")) →
   validate role v' = Ok v').
Proof.
  intros Hc Hwf H. unfold validate in *. rewrite Hc in *. cbn [ok_or mbind res_bind] in *.
  split; [by eapply normalize_conforms|]. intros Hreg. by eapply normalize_idempotent.
Qed.
End roles.
