(* ===== verification/ModelContracts.v ===== *)
(** * The bundled contracts

    The "validation" schemas of [kernel/src/domain/fixtures/models.json], which
    [models.rs] loads, and what the theorems of [ModelSchema] say of them: the
    answers of every role are normalised in bounded depth, conform to their
    schema and stay as they are, and the schemas sent to the models are strict. *)
From Stdlib Require Import ZArith SpecFloat.
From S2P Require Import Prelude Str Float64 Json JsonOps ModelSchema.

Definition candidate_contract : Value :=
  Object [
    (lit "description", String (lit "Single code completion with metadata"));
    (lit "example", Object [
      (lit "approach", String (lit "Simple addition using + operator"));
      (lit "code", String (lit "def add(a, b):" ++ [LF] ++ lit "    return a + b"));
      (lit "confidence", Num (Float (ratio 19 20)))]);
    (lit "properties", Object [
      (lit "code", Object [
        (lit "description", String (lit "The generated Python code"));
        (lit "title", String (lit "Code"));
        (lit "type", String (lit "string"))]);
      (lit "approach", Object [
        (lit "description", String (lit "Brief description of the approach used"));
        (lit "title", String (lit "Approach"));
        (lit "type", String (lit "string"))]);
      (lit "confidence", Object [
        (lit "description", String (lit "Confidence score (0-1)"));
        (lit "maximum", Num (Float (ratio 1 1)));
        (lit "minimum", Num (Float fzero));
        (lit "title", String (lit "Confidence"));
        (lit "type", String (lit "number"))])]);
    (lit "required", Array [String (lit "code");
      String (lit "approach");
      String (lit "confidence")]);
    (lit "title", String (lit "CodeCompletion"));
    (lit "type", String (lit "object"))].

Definition reference_contract : Value :=
  Object [
    (lit "$defs", Object [
      (lit "BottleneckType", Object [
        (lit "description", String (lit "Bottleneck classification types for GPU kernels." ++ [LF] ++ [LF] ++ lit "Math-level (Stage 1 - roofline-based):" ++ [LF] ++ lit "    Derived from compute intensity analysis. These represent the" ++ [LF] ++ lit "    theoretical performance ceiling based on the math operations." ++ [LF] ++ [LF] ++ lit "Implementation-level (Stage 2 - profiler-detected):" ++ [LF] ++ lit "    Detected during optimization via NCU/nsys. These represent" ++ [LF] ++ lit "    issues with the current implementation, not the algorithm."));
        (lit "enum", Array [String (lit "compute_bound");
          String (lit "memory_bound");
          String (lit "mixed");
          String (lit "latency_bound");
          String (lit "occupancy_limited");
          String (lit "launch_overhead")]);
        (lit "title", String (lit "BottleneckType"));
        (lit "type", String (lit "string"))])]);
    (lit "additionalProperties", Bool false);
    (lit "description", String (lit "Output schema for Stage 1 Benchmarking Agent." ++ [LF] ++ [LF] ++ lit "This structured output captures the complete analysis of a reference" ++ [LF] ++ lit "kernel implementation, including both theoretical (math-based) and" ++ [LF] ++ lit "empirical (NCU-based) bottleneck classification." ++ [LF] ++ [LF] ++ lit "The final_bottleneck field is used by Stage 2 to filter which" ++ [LF] ++ lit "ProfilingTools are relevant for the optimization."));
    (lit "properties", Object [
      (lit "invalid_reference_code", Object [
        (lit "default", Bool false);
        (lit "description", String (lit "Set to True if the reference code is invalid, unparseable, or cannot be analyzed. When True, other fields may contain placeholder values and should not be trusted."));
        (lit "title", String (lit "Invalid Reference Code"));
        (lit "type", String (lit "boolean"))]);
      (lit "math_operations", Object [
        (lit "description", String (lit "List of mathematical operations identified in the code. Examples: ['GEMM', 'Softmax', 'LayerNorm', 'Conv2d']"));
        (lit "items", Object [
          (lit "type", String (lit "string"))]);
        (lit "title", String (lit "Math Operations"));
        (lit "type", String (lit "array"))]);
      (lit "dominant_operation", Object [
        (lit "description", String (lit "The primary operation that dominates runtime. Examples: 'GEMM', 'Softmax', 'Attention'"));
        (lit "title", String (lit "Dominant Operation"));
        (lit "type", String (lit "string"))]);
      (lit "problem_dimensions_str", Object [
        (lit "description", String (lit "Key dimensions extracted from the code as a string. Examples: 'M=4096, N=4096, K=4096' for GEMM, 'batch=32, seq_len=512, hidden=768' for transformer"));
        (lit "title", String (lit "Problem Dimensions Str"));
        (lit "type", String (lit "string"))]);
      (lit "total_flops", Object [
        (lit "description", String (lit "Total floating point operations. GEMM: 2*M*N*K, Softmax: ~5*N per row, etc."));
        (lit "title", String (lit "Total Flops"));
        (lit "type", String (lit "integer"))]);
      (lit "total_bytes", Object [
        (lit "description", String (lit "Total memory traffic in bytes. Include input reads + output writes + any intermediate buffers."));
        (lit "title", String (lit "Total Bytes"));
        (lit "type", String (lit "integer"))]);
      (lit "compute_intensity", Object [
        (lit "description", String (lit "Arithmetic intensity = total_flops / total_bytes. Higher values indicate more compute-bound kernels."));
        (lit "title", String (lit "Compute Intensity"));
        (lit "type", String (lit "number"))]);
      (lit "theoretical_bottleneck", Object [
        (lit "$ref", String (lit "#/$defs/BottleneckType"));
        (lit "description", String (lit "Bottleneck type from theoretical roofline analysis. Based on compute_intensity vs ridge point."))]);
      (lit "actual_bottleneck", Object [
        (lit "$ref", String (lit "#/$defs/BottleneckType"));
        (lit "description", String (lit "Bottleneck type from NCU profiling. Based on sm_throughput vs dram_throughput comparison."))]);
      (lit "classification_match", Object [
        (lit "description", String (lit "Whether theoretical and actual classifications agree. Mismatch may indicate implementation inefficiency."));
        (lit "title", String (lit "Classification Match"));
        (lit "type", String (lit "boolean"))]);
      (lit "final_bottleneck", Object [
        (lit "$ref", String (lit "#/$defs/BottleneckType"));
        (lit "description", String (lit "The bottleneck classification used for Stage 2 tool filtering. When classifications match, use that. When they differ, trust theoretical (represents ceiling)."))]);
      (lit "sm_throughput", Object [
        (lit "description", String (lit "SM (compute) throughput as percentage of peak. High values (>60%) indicate compute-bound."));
        (lit "title", String (lit "Sm Throughput"));
        (lit "type", String (lit "number"))]);
      (lit "dram_throughput", Object [
        (lit "description", String (lit "DRAM (memory) throughput as percentage of peak. High values (>60%) indicate memory-bound."));
        (lit "title", String (lit "Dram Throughput"));
        (lit "type", String (lit "number"))]);
      (lit "reference_latency_ms", Object [
        (lit "description", String (lit "Reference kernel execution time in milliseconds. Used as baseline for speedup calculations."));
        (lit "title", String (lit "Reference Latency Ms"));
        (lit "type", String (lit "number"))]);
      (lit "occupancy", Object [
        (lit "anyOf", Array [Object [
            (lit "type", String (lit "number"))];
          Object [
            (lit "type", String (lit "null"))]]);
        (lit "default", Null);
        (lit "description", String (lit "Achieved occupancy as percentage. Low values may indicate register pressure."));
        (lit "title", String (lit "Occupancy"))]);
      (lit "kernel_name", Object [
        (lit "anyOf", Array [Object [
            (lit "type", String (lit "string"))];
          Object [
            (lit "type", String (lit "null"))]]);
        (lit "default", Null);
        (lit "description", String (lit "Name of the profiled CUDA kernel."));
        (lit "title", String (lit "Kernel Name"))]);
      (lit "achievable_speedup", Object [
        (lit "description", String (lit "Estimated achievable speedup based on roofline gap. 1.0 means already at theoretical peak."));
        (lit "title", String (lit "Achievable Speedup"));
        (lit "type", String (lit "number"))]);
      (lit "recommended_techniques", Object [
        (lit "description", String (lit "Optimization techniques recommended based on bottleneck type. Examples: ['tensor_cores', 'memory_coalescing', 'kernel_fusion']"));
        (lit "items", Object [
          (lit "type", String (lit "string"))]);
        (lit "title", String (lit "Recommended Techniques"));
        (lit "type", String (lit "array"))]);
      (lit "analysis_notes", Object [
        (lit "anyOf", Array [Object [
            (lit "type", String (lit "string"))];
          Object [
            (lit "type", String (lit "null"))]]);
        (lit "default", Null);
        (lit "description", String (lit "Additional notes about the analysis, especially if theoretical and actual classifications differ."));
        (lit "title", String (lit "Analysis Notes"))])]);
    (lit "required", Array [String (lit "math_operations");
      String (lit "dominant_operation");
      String (lit "problem_dimensions_str");
      String (lit "total_flops");
      String (lit "total_bytes");
      String (lit "compute_intensity");
      String (lit "theoretical_bottleneck");
      String (lit "actual_bottleneck");
      String (lit "classification_match");
      String (lit "final_bottleneck");
      String (lit "sm_throughput");
      String (lit "dram_throughput");
      String (lit "reference_latency_ms");
      String (lit "achievable_speedup");
      String (lit "recommended_techniques")]);
    (lit "title", String (lit "ReferenceAnalysis"));
    (lit "type", String (lit "object"))].

Definition profile_contract : Value :=
  Object [
    (lit "description", String (lit "Structured output for GPU profiling analysis"));
    (lit "properties", Object [
      (lit "bottleneck_type", Object [
        (lit "description", String (lit "Primary bottleneck: 'memory', 'compute', 'latency', or 'balanced'"));
        (lit "title", String (lit "Bottleneck Type"));
        (lit "type", String (lit "string"))]);
      (lit "severity", Object [
        (lit "description", String (lit "Bottleneck severity: 'critical', 'moderate', or 'minor'"));
        (lit "title", String (lit "Severity"));
        (lit "type", String (lit "string"))]);
      (lit "key_observations", Object [
        (lit "description", String (lit "List of 3-5 key observations from the metrics"));
        (lit "items", Object [
          (lit "type", String (lit "string"))]);
        (lit "title", String (lit "Key Observations"));
        (lit "type", String (lit "array"))]);
      (lit "optimization_recommendations", Object [
        (lit "description", String (lit "List of 3-5 specific, actionable optimization recommendations"));
        (lit "items", Object [
          (lit "type", String (lit "string"))]);
        (lit "title", String (lit "Optimization Recommendations"));
        (lit "type", String (lit "array"))]);
      (lit "estimated_improvement", Object [
        (lit "description", String (lit "Estimated potential speedup if recommendations are applied (1.0 = no improvement, 2.0 = 2x faster)"));
        (lit "maximum", Num (Float (ratio 10 1)));
        (lit "minimum", Num (Float (ratio 1 1)));
        (lit "title", String (lit "Estimated Improvement"));
        (lit "type", String (lit "number"))]);
      (lit "priority_score", Object [
        (lit "description", String (lit "Priority for optimization (0.0-1.0, higher = more critical)"));
        (lit "maximum", Num (Float (ratio 1 1)));
        (lit "minimum", Num (Float fzero));
        (lit "title", String (lit "Priority Score"));
        (lit "type", String (lit "number"))]);
      (lit "summary", Object [
        (lit "description", String (lit "One-sentence summary of the performance profile"));
        (lit "title", String (lit "Summary"));
        (lit "type", String (lit "string"))])]);
    (lit "required", Array [String (lit "bottleneck_type");
      String (lit "severity");
      String (lit "key_observations");
      String (lit "optimization_recommendations");
      String (lit "estimated_improvement");
      String (lit "priority_score");
      String (lit "summary")]);
    (lit "title", String (lit "ProfileAnalysis"));
    (lit "type", String (lit "object"))].

(** [MODELS], with the schemas the code reads. *)
Definition MODELS : Map :=
  [(lit "candidate", Object [(lit "validation", candidate_contract)]);
   (lit "reference", Object [(lit "validation", reference_contract)]);
   (lit "profile", Object [(lit "validation", profile_contract)])].

(** The depth of every contract, references included. *)
Definition DEPTH : nat := 8.

(** The facts about the contracts that evaluation decides. *)
Definition contract_ok (c : Value) : bool :=
  plainb c && resolves c DEPTH c && regularb c DEPTH c && is_ok (strict_schema c DEPTH c).

Lemma bundled_contracts_ok :
  forallb (λ e : str * Value, contract_ok (at_key e.2 (lit "validation"))) MODELS = true.
Proof. vm_compute. reflexivity. Qed.

Lemma role_contract role c :
  mget MODELS role = Some c → contract_ok (at_key c (lit "validation")) = true.
Proof.
  intros H%mget_elem. pose proof bundled_contracts_ok as Hall. rewrite forallb_forall in Hall.
  apply (Hall (role, c)). by apply list_elem_of_In.
Qed.

(** The answer of a model in any of the bundled roles is decided: the
    recursion of the validation ends, an answer is accepted only for a role of
    the table, and every bundled contract is regular, so that an accepted answer
    is accepted unchanged from then on. *)
Theorem bundled_roles_are_decided role value :
  is_panic (validate MODELS DEPTH role value) = false ∧
  (mget MODELS role = None → validate MODELS DEPTH role value = Err (lit "unknown model role")) ∧
  ∀ v', validate MODELS DEPTH role value = Ok v' → validate MODELS DEPTH role v' = Ok v'.
Proof.
  unfold validate. destruct (mget MODELS role) as [c|] eqn:E; cbn [ok_or mbind res_bind];
    [|split_and!; [done|done|by intros]].
  pose proof (role_contract role c E) as Hc. set (s := at_key c (lit "validation")) in *.
  unfold contract_ok in Hc. apply andb_true_iff in Hc as [Hc _].
  apply andb_true_iff in Hc as [Hc Hreg]. apply andb_true_iff in Hc as [Hp Hres].
  pose proof (plain_wf s Hp) as Hwf. pose proof (regularb_sound s DEPTH s Hreg) as Hr.
  split; [by apply normalize_returns|]. split; [done|].
  intros v' Hv. by eapply normalize_idempotent.
Qed.

(** The schemas sent to the models exist for every bundled role and are
    strict: in each of them and in every schema inside it objects admit no
    undeclared field and require every declared one, and there is neither a
    default nor a [oneOf]. *)
Theorem bundled_schemas_are_strict :
  ∃ m, schemas MODELS DEPTH = Ok (Object m) ∧ keys m = keys MODELS ∧
    ∀ role s, (role, s) ∈ m → strict s.
Proof.
  pose proof bundled_contracts_ok as Hall. rewrite forallb_forall in Hall. unfold schemas.
  set (f := λ e : str * Value, match strict_schema (at_key e.2 (lit "validation")) DEPTH
              (at_key e.2 (lit "validation")) with Ok s => Ok (e.1, s) | _ => @Panic str (str * Value) end).
  assert (∀ e, e ∈ MODELS → ∃ s, f e = Ok (e.1, s) ∧ strict s) as Hf.
  { intros e He%list_elem_of_In. apply Hall, andb_true_iff in He as [Hc Hok].
    apply andb_true_iff in Hc as [Hc _]. apply andb_true_iff in Hc as [Hp _]. unfold f.
    destruct (strict_schema _ _ _) as [s| |] eqn:E; [|done..]. exists s. split; [done|].
    apply plainb_sound in Hp. by eapply strict_schema_is_strict. }
  clear Hall. generalize dependent MODELS. clearbody f. intros M Hf.
  assert (∃ m, res_mapM f M = Ok m ∧ keys m = keys M ∧ ∀ e, e ∈ m → strict e.2) as (m & -> & Hk & Hs).
  { induction M as [|e M IH].
    - exists []. split; [done|]. split; [done|]. by intros e He%not_elem_of_nil.
    - destruct (Hf e) as (s & He & Hs); [left|]. destruct IH as (m & Hm & Hk & Hst); [intros; apply Hf; by right|].
      exists ((e.1, s) :: m). simpl. rewrite He. cbn [mbind res_bind]. rewrite Hm.
      split; [done|]. split; [unfold keys in *; csimpl; by rewrite Hk|].
      intros x [->|Hx]%elem_of_cons; auto. }
  exists m. split; [done|]. split; [done|]. intros role s Hin. by apply (Hs (role, s)).
Qed.

(** An answer with numbers as strings. *)
Definition sample_answer : Value :=
  Object [(lit "confidence", String (lit " 9_0e-2 ")); (lit "code", String (lit "x"));
          (lit "approach", String (lit "y")); (lit "extra", Null)].
Definition normal_answer : Value :=
  Object [(lit "code", String (lit "x")); (lit "approach", String (lit "y"));
          (lit "confidence", Num (Float (ratio 9 10)))].

Lemma validate_conforms_witness :
  validate MODELS DEPTH (lit "candidate") sample_answer = Ok normal_answer ∧
  conforms candidate_contract candidate_contract normal_answer.
Proof.
  assert (validate MODELS DEPTH (lit "candidate") sample_answer = Ok normal_answer) as H
    by (vm_compute; reflexivity).
  split; [exact H|].
  apply (validate_conforms MODELS DEPTH (lit "candidate") sample_answer
           (Object [(lit "validation", candidate_contract)]) normal_answer).
  - vm_compute. reflexivity.
  - apply plain_wf. vm_compute. reflexivity.
  - exact H.
Defined.
