(* ===== verification/KernelIo.v ===== *)
(** * kernel: effects, sessions and what they promise

    The asynchronous functions of the kernel crate run one effect after the
    other: they are computations over a world, which may fail with an [anyhow]
    message or panic.  This file has their monad with a logic of triples, the
    JSON and paths they build, the data of a session ([host.rs]) and the
    interfaces through which the controller reaches the disk, the worker, the
    app-server and its sessions. *)
From Stdlib Require Import ZArith.
From S2P Require Import Prelude Str Float64 Json JsonOps Search.

(** ** The monad *)
Definition io (W A : Type) : Type := W → W * result A.

#[export] Instance io_ret {W} : MRet (io W) := λ A a w, (w, Ok a).
#[export] Instance io_bind {W} : MBind (io W) := λ A B f m w,
  match m w with
  | (w, Ok a) => f a w
  | (w, Err e) => (w, Err e)
  | (w, Panic) => (w, Panic)
  end.

(** [r?] and a computation that only reads. *)
Definition lift {W A} (r : result A) : io W A := λ w, (w, r).
(** [match m.await { Ok(a) => .., Err(e) => .. }]. *)
Definition attempt {W A} (m : io W A) : io W (A + str) := λ w,
  match m w with
  | (w, Ok a) => (w, Ok (inl a))
  | (w, Err e) => (w, Ok (inr e))
  | (w, Panic) => (w, Panic)
  end.
Definition modify {W} (f : W → W) : io W unit := λ w, (f w, Ok tt).
Definition gets {W A} (f : W → A) : io W A := λ w, (w, Ok (f w)).

(** [for x in l { f(index, x).await?; }] *)
Fixpoint for_each {W A} (f : nat → A → io W unit) (i : nat) (l : list A) : io W unit :=
  match l with
  | [] => mret tt
  | x :: l => f i x;; for_each f (S i) l
  end.

(** ** Triples: no panic, [Q] after success and [X] after an error *)
Definition spec {W A} (P : W → Prop) (m : io W A) (Q : A → W → Prop) (X : W → Prop) : Prop :=
  ∀ w, P w → match m w with
             | (w', Ok a) => Q a w'
             | (w', Err _) => X w'
             | (_, Panic) => False
             end.

Lemma ensure_returns {E} c (e : E) : ensure c e ≠ Panic.
Proof. by destruct c. Qed.
Lemma ok_or_returns {E A} (o : option A) (e : E) : ok_or o e ≠ Panic.
Proof. by destruct o. Qed.
#[export] Hint Resolve ensure_returns ok_or_returns : cubineer.

Section triples.
Context {W : Type}.
Implicit Types (P X : W → Prop).

Lemma spec_ret {A} (a : A) P X : spec P (mret a) (λ b w, b = a ∧ P w) X.
Proof. by intros w Hw. Qed.
Lemma spec_bind {A B} P (m : io W A) (f : A → io W B) R Q X :
  spec P m R X → (∀ a, spec (R a) (f a) Q X) → spec P (a ← m; f a) Q X.
Proof.
  intros Hm Hf w Hw. specialize (Hm w Hw). unfold mbind, io_bind.
  destruct (m w) as [w' [a|e|]]; [by apply Hf|done..].
Qed.
Lemma spec_weaken {A} P P' (m : io W A) (Q Q' : A → W → Prop) X X' :
  spec P' m Q' X' → (∀ w, P w → P' w) → (∀ a w, Q' a w → Q a w) → (∀ w, X' w → X w) →
  spec P m Q X.
Proof.
  intros Hm HP HQ HX w Hw. specialize (Hm w (HP w Hw)).
  destruct (m w) as [w' [a|e|]]; [by apply HQ|by apply HX|done].
Qed.
Lemma spec_lift {A} (r : result A) P (Q : A → W → Prop) X :
  r ≠ Panic → (∀ a w, r = Ok a → P w → Q a w) → (∀ w, P w → X w) → spec P (lift r) Q X.
Proof. intros Hr HQ HX w Hw. unfold lift. destruct r; [by apply HQ|by apply HX|done]. Qed.
Lemma spec_attempt {A} P (m : io W A) (Q : A + str → W → Prop) X :
  spec P m (λ a, Q (inl a)) (λ w, ∀ e, Q (inr e) w) → spec P (attempt m) Q X.
Proof.
  intros Hm w Hw. specialize (Hm w Hw). unfold attempt.
  destruct (m w) as [w' [a|e|]]; [done|by apply Hm|done].
Qed.
Lemma spec_modify (f : W → W) P (Q : unit → W → Prop) X :
  (∀ w, P w → Q tt (f w)) → spec P (modify f) Q X.
Proof. intros H w Hw. by apply H. Qed.
Lemma spec_gets {A} (f : W → A) P (Q : A → W → Prop) X :
  (∀ w, P w → Q (f w) w) → spec P (gets f) Q X.
Proof. intros H w Hw. by apply H. Qed.
Lemma spec_pure {A} P (φ : Prop) (m : io W A) Q X :
  (φ → spec P m Q X) → spec (λ w, φ ∧ P w) m Q X.
Proof. intros H w [Hφ Hw]. by apply H. Qed.
Lemma spec_for_each {A} (f : nat → A → io W unit) (Inv : nat → W → Prop) X i l :
  (∀ j x, l !! j = Some x → spec (Inv (i + j)) (f (i + j) x) (λ _, Inv (S (i + j))) X) →
  spec (Inv i) (for_each f i l) (λ _, Inv (i + length l)) X.
Proof.
  revert i. induction l as [|x l IH]; intros i H; simpl.
  - rewrite Nat.add_0_r. by intros v Hv.
  - eapply spec_bind; [|intros a].
    + specialize (H 0 x eq_refl). by rewrite !Nat.add_0_r in H.
    + simpl. eapply spec_weaken; [apply (IH (S i))|done| |done].
      * intros j y Hj. specialize (H (S j) y Hj). by rewrite Nat.add_succ_r in H.
      * intros ? v. simpl. by rewrite Nat.add_succ_r.
Qed.
End triples.

(** ** JSON and paths *)
Notation "k ↦ v" := (lit k, v) (at level 60, no associativity).
Definition json (fields : Map) : Value := Object fields.
Abbreviation jstr s := (String (lit s)) (only parsing).
Definition jnat (n : nat) : Value := Num (PosInt (N.of_nat n)).
Definition jopt {A} (f : A → Value) (o : option A) : Value := from_option f Null o.
Notation "v .[ k ]" := (at_key v (lit k)) (at level 1, left associativity, k constr at level 0,
  format "v .[ k ]").

(** [value[key] = v]: an entry of an object, made of null if need be; other
    values cannot be indexed. *)
Definition set_key (v : Value) (key : str) (x : Value) : result Value :=
  match v with
  | Object m => Ok (Object (minsert key x m))
  | Null => Ok (Object [(key, x)])
  | _ => Panic
  end.

(** [PathBuf::join] with a relative path, and [path.join(format!(..))]. *)
Definition join (dir name : str) : str := dir ++ lit "/" ++ name.

(** ** Sessions ([host.rs]) *)
Record SessionSpec := {
  spec_role : str;
  spec_model : str;
  spec_cwd : str;
  spec_instructions : str;
  spec_input : str;
  spec_schema : Value;
  spec_tools : list Value;
  spec_evidence : Value;
}.

Record SessionResult := {
  thread_id : str;
  turn_id : str;
  role : str;
  model : str;
  value : option Value;
  error : option str;
  events : list Value;
}.

(** Its derived serialization. *)
Definition session_value (r : SessionResult) : Value :=
  json [("thread_id" ↦ String (thread_id r)); ("turn_id" ↦ String (turn_id r));
        ("role" ↦ String (role r)); ("model" ↦ String (model r));
        ("value" ↦ default Null (value r)); ("error" ↦ jopt String (error r));
        ("events" ↦ Array (events r))].

(** [tool]. *)
Definition tool (name description : str) : Value :=
  json [("type" ↦ jstr "function"); ("name" ↦ String name);
        ("description" ↦ String description);
        ("inputSchema" ↦
          json [("type" ↦ jstr "object"); ("properties" ↦ json []);
                ("required" ↦ Array []); ("additionalProperties" ↦ Bool false)])].

(** ** Interfaces *)

(** [tokio::fs]. *)
Class Disk (W : Type) := {
  create_dir_all : str → io W unit;
  write_file : str → str → io W unit;
}.
(** [Worker::call]. *)
Class Calls (W : Type) := { call : str → Value → io W Value }.
(** [Host::batch]. *)
Class Sessions (W : Type) := { batch : list SessionSpec → io W (list SessionResult) }.

(** A session that has ended left its submission or an error. *)
Definition settled (r : SessionResult) : Prop := is_Some (value r) ∨ is_Some (error r).
(** What a caller of [batch] may rely on: one settled result per session, in
    order; only a candidate session may have no submission. *)
Definition answers (s : SessionSpec) (r : SessionResult) : Prop :=
  role r = spec_role s ∧ model r = spec_model s ∧ settled r
  ∧ (spec_role s ≠ lit "candidate" → is_Some (value r)).
