(* ===== verification/HostSessions.v ===== *)
(** * kernel: the host's sessions

    [Host::batch] of [kernel/src/host.rs]: the sessions of a batch are started
    as child threads of the run's root thread, their events are consumed until
    every turn has completed or the deadline passes, and every child is closed
    and archived, whether the consuming succeeded or not.  A batch is modelled
    up to its end: the [select!] around the run in [kernel/src/controller.rs]
    drops it on an interrupt, at any of its await points and so also before or
    during the closing of its children.  The app-server, the disk and the worker
    are interfaces; the events that arrive before the deadline are a finite list,
    after which the deadline fires.  [sent] is a history of the requests. *)
From Stdlib Require Import ZArith.
From stdpp Require Import gmap sorting.
From S2P Require Import ResponseItem.
From S2P Require Import Prelude Str Float64 Json JsonOps Search Truncate OutputTruncation KernelIo.

(** ** The app-server's events *)
Inductive TurnStatus := Completed | Interrupted | Failed | InProgress.
#[export] Instance TurnStatus_eq_dec : EqDecision TurnStatus.
Proof. solve_decision. Defined.
#[export] Instance MessagePhase_eq_dec : EqDecision MessagePhase.
Proof. solve_decision. Defined.

(** Items and turns carry their derived serialization. *)
Inductive ThreadItem :=
  | AgentMessage (text : str) (phase : option MessagePhase) (serialized : Value)
  | OtherItem (serialized : Value).
Definition item_value (i : ThreadItem) : Value :=
  match i with AgentMessage _ _ v | OtherItem v => v end.
Record Turn := { turn_status : TurnStatus; turn_value : Value }.

Inductive Event :=
  | Lagged (skipped : N)
  | DynamicToolCall (request_id : Value) (thread tool : str) (arguments : Value)
  | OtherRequest (request_id : Value)
  | ItemCompleted (thread : str) (item : ThreadItem)
  | TurnCompleted (thread : str) (turn : Turn)
  | ThreadTokenUsageUpdated (thread : str) (token_usage : Value)
  | OtherNotification.

(** What [tokio::select!] may yield before the deadline. *)
Inductive Wake := Arrived (e : Event) | Disconnected | CtrlC.

Class AppServer (E : Type) := {
  rpc : str → Value → io E Value;
  resolve_server_request : Value → Value → io E unit;
  reject_server_request : Value → Z → str → io E unit;
  (** The wake-ups between now and the deadline. *)
  arrivals : E → list Wake;
}.

(** The excerpts shown to a session ([KernelContextFragment::body]). *)
Definition excerpt (text file : str) : str :=
  lit "Complete controller-provided content: " ++ truncate_text file (Bytes 256)
  ++ lit ". Read it when this excerpt is truncated." ++ [LF] ++ truncate_text text (Bytes 8000).

(** The order of the keys of a [BTreeMap<String, _>]. *)
Definition thread_le (x y : str * nat) : Prop := str_leb x.1 y.1 = true.
#[export] Instance thread_le_dec : RelDecision thread_le.
Proof. intros x y. unfold thread_le. apply _. Defined.

Section host.
Context {E : Type} `{AppServer E, Disk E, Calls E}.
(** [serde_json::to_string] and [from_str] on values. *)
Context (to_string : Value → str) (from_str : str → option Value).
(** Fields of [Host] that do not change. *)
Context (root provider : str) (timeout_secs : N) (parallel_sessions : nat).

Record Host := { client : E; usage : gmap str Value; sent : list (str * Value) }.
Record Batch := { host : Host; results : list SessionResult; active : gmap str nat }.

Definition with_client (e : E) (h : Host) : Host :=
  {| client := e; usage := usage h; sent := sent h |}.
Definition with_host (h : Host) (b : Batch) : Batch :=
  {| host := h; results := results b; active := active b |}.
Definition with_results (rs : list SessionResult) (b : Batch) : Batch :=
  {| host := host b; results := rs; active := active b |}.
Definition with_active (a : gmap str nat) (b : Batch) : Batch :=
  {| host := host b; results := results b; active := a |}.

Definition on_client {A} (m : io E A) : io Batch A := λ b,
  let '(e, r) := m (client (host b)) in (with_host (with_client e (host b)) b, r).
Definition request (method : str) (params : Value) : io Batch Value := λ b,
  let '(e, r) := rpc method params (client (host b)) in
  (with_host {| client := e; usage := usage (host b); sent := sent (host b) ++ [(method, params)] |} b, r).

(** [results[index]] and assignments to its fields. *)
Definition result_at (i : nat) : io Batch SessionResult := λ b, (b, index (results b) i).
Definition update_result (i : nat) (f : SessionResult → SessionResult) : io Batch unit :=
  r ← result_at i; modify (λ b, with_results (<[i := f r]> (results b)) b).
Definition set_turn_id (t : str) (r : SessionResult) : SessionResult :=
  {| thread_id := thread_id r; turn_id := t; role := role r; model := model r;
     value := value r; error := error r; events := events r |}.
Definition set_value (v : Value) (r : SessionResult) : SessionResult :=
  {| thread_id := thread_id r; turn_id := turn_id r; role := role r; model := model r;
     value := Some v; error := error r; events := events r |}.
Definition set_error (e : str) (r : SessionResult) : SessionResult :=
  {| thread_id := thread_id r; turn_id := turn_id r; role := role r; model := model r;
     value := value r; error := Some e; events := events r |}.
Definition push_event (v : Value) (r : SessionResult) : SessionResult :=
  {| thread_id := thread_id r; turn_id := turn_id r; role := role r; model := model r;
     value := value r; error := error r; events := events r ++ [v] |}.

(** ** Starting the sessions *)
Definition child_startup (spec : SessionSpec) : Value :=
  json ["parentThreadId" ↦ String root;
    "startup" ↦ json ["model" ↦ String (spec_model spec); "modelProvider" ↦ String provider;
      "cwd" ↦ String (spec_cwd spec); "runtimeWorkspaceRoots" ↦ Array [String (spec_cwd spec)];
      "developerInstructions" ↦ String (excerpt (spec_instructions spec) (lit "domain-instructions.md"));
      "dynamicTools" ↦ Array (spec_tools spec); "sandbox" ↦ jstr "workspace-write";
      "config" ↦ json ["agents.enabled" ↦ Bool false; "features.multi_agent_v2" ↦ Bool false;
        "features.memories" ↦ Bool false; "sandbox_workspace_write.writable_roots" ↦ Array [];
        "sandbox_workspace_write.exclude_tmpdir_env_var" ↦ Bool true;
        "sandbox_workspace_write.exclude_slash_tmp" ↦ Bool true]]].
Definition turn_start (thread : str) (spec : SessionSpec) : Value :=
  json ["threadId" ↦ String thread;
    "input" ↦ Array [json ["type" ↦ jstr "text";
      "text" ↦ String (excerpt (spec_input spec) (lit "task-context.txt")); "textElements" ↦ Array []]];
    "outputSchema" ↦ spec_schema spec].

Definition new_result (thread : str) (spec : SessionSpec) : SessionResult :=
  {| thread_id := thread; turn_id := []; role := spec_role spec; model := spec_model spec;
     value := None; error := None; events := [] |}.

Definition start_session (i : nat) (spec : SessionSpec) : io Batch unit :=
  on_client (create_dir_all (spec_cwd spec));;
  on_client (write_file (join (spec_cwd spec) (lit "domain-instructions.md")) (spec_instructions spec));;
  on_client (write_file (join (spec_cwd spec) (lit "task-context.txt")) (spec_input spec));;
  child ← request (lit "thread/startChild") (child_startup spec);
  lift (ensure (value_eqb (child.["model"]) (String (spec_model spec))
                && value_eqb (child.["modelProvider"]) (String provider))
          (lit "resolved child provider/model differs from requested configuration"));;
  thread ← lift (ok_or (as_str (child.["thread"].["id"])) (lit "missing child ID"));
  modify (λ b, with_results (results b ++ [new_result thread spec]) b);;
  turn ← request (lit "turn/start") (turn_start thread spec);
  turn_id ← lift (ok_or (as_str (turn.["turn"].["id"])) (lit "missing turn ID"));
  modify (λ b, with_active (<[thread := i]> (active b)) b);;
  update_result i (set_turn_id turn_id).

(** ** Events *)
Definition tool_call (specs : list SessionSpec) (request_id : Value) (thread name : str)
    (arguments : Value) : io Batch unit :=
  a ← gets active;
  i ← lift (ok_or (a !! thread) (lit "tool call outside active batch"));
  spec ← lift (index specs i);
  lift (ensure (existsb (λ t, value_eqb (t.["name"]) (String name)) (spec_tools spec))
          (lit "unregistered domain tool"));;
  lift (ensure (value_eqb arguments (json [])) (lit "domain tools take no arguments"));;
  v ← (if str_eqb name (lit "profile_reference_with_ncu") then mret (spec_evidence spec)
       else on_client (call (lit "tool")
              (json ["name" ↦ String name; "report" ↦ spec_evidence spec])));
  update_result i (push_event (json ["tool" ↦ String name; "evidence" ↦ v]));;
  let evidence_file := lit "tool-" ++ name ++ lit ".json" in
  on_client (write_file (join (spec_cwd spec) evidence_file) (to_string v));;
  on_client (resolve_server_request request_id
    (json ["success" ↦ Bool true;
      "contentItems" ↦ Array [json ["type" ↦ jstr "inputText";
        "text" ↦ String (excerpt (to_string v) evidence_file)]]])).

Definition item_completed (thread : str) (item : ThreadItem) : io Batch unit :=
  a ← gets active;
  match a !! thread with
  | Some i =>
      update_result i (push_event (item_value item));;
      match item with
      | AgentMessage text phase _ =>
          if bool_decide (phase = Some Commentary) then mret tt
          else match from_str text with
               | Some v => update_result i (set_value v)
               | None => mret tt
               end
      | OtherItem _ => mret tt
      end
  | None => mret tt
  end.

Definition turn_completed (thread : str) (turn : Turn) : io Batch unit :=
  a ← gets active;
  match a !! thread with
  | Some i =>
      modify (λ b, with_active (delete thread (active b)) b);;
      if bool_decide (turn_status turn = Completed) then
        r ← result_at i;
        if is_none (value r) then update_result i (set_error (lit "missing structured submission"))
        else mret tt
      else update_result i (set_error (to_string (turn_value turn)))
  | None => mret tt
  end.

Definition INTERACTIVE : str :=
  lit "This headless run cannot answer an interactive approval; use an appropriate existing Codex policy.".

Definition handle (specs : list SessionSpec) (e : Event) : io Batch unit :=
  match e with
  | Lagged skipped =>
      lift (Err (lit "lost " ++ show_N skipped ++ lit " session events; refusing incomplete evidence"))
  | DynamicToolCall request_id thread name arguments =>
      tool_call specs request_id thread name arguments
  | OtherRequest request_id => on_client (reject_server_request request_id (-32000) INTERACTIVE)
  | ItemCompleted thread item => item_completed thread item
  | TurnCompleted thread turn => turn_completed thread turn
  | ThreadTokenUsageUpdated thread token_usage =>
      modify (λ b, with_host {| client := client (host b);
                                usage := <[thread := token_usage]> (usage (host b));
                                sent := sent (host b) |} b)
  | OtherNotification => mret tt
  end.

(** The deadline: every active session, in the order of the [BTreeMap]. *)
Definition BUDGET : str := lit "session exceeded its " ++ show_N timeout_secs ++ lit "s wall-clock budget".
Definition expire (_ : nat) (entry : str * nat) : io Batch unit :=
  r ← result_at entry.2;
  interrupt ← attempt (request (lit "turn/interrupt")
    (json ["threadId" ↦ String entry.1; "turnId" ↦ String (turn_id r)]));
  update_result entry.2 (set_error
    match interrupt with
    | inl _ => BUDGET
    | inr e => BUDGET ++ lit "; interrupt failed: " ++ e
    end).
Definition by_thread (a : gmap str nat) : list (str * nat) := merge_sort thread_le (map_to_list a).
Definition deadline : io Batch unit :=
  a ← gets active;
  for_each expire 0 (by_thread a);;
  modify (with_active ∅).

Fixpoint event_loop (specs : list SessionSpec) (ws : list Wake) : io Batch unit :=
  a ← gets active;
  if decide (a = ∅) then mret tt
  else match ws with
       | [] => deadline
       | Arrived e :: ws => handle specs e;; event_loop specs ws
       | Disconnected :: _ => lift (Err (lit "app-server disconnected"))
       | CtrlC :: _ => lift (Err (lit "kernel run cancelled"))
       end.

Definition execution (specs : list SessionSpec) : io Batch unit :=
  for_each start_session 0 specs;;
  ws ← gets (λ b, arrivals (client (host b)));
  event_loop specs ws.

(** ** Cleaning up *)
Definition close_params (thread : str) : Value :=
  json ["parentThreadId" ↦ String root; "threadId" ↦ String thread].
Definition archive_params (thread : str) : Value := json ["threadId" ↦ String thread].

Fixpoint cleanup (rs : list SessionResult) (err : option str) : io Batch (option str) :=
  match rs with
  | [] => mret err
  | r :: rs =>
      c ← attempt (request (lit "thread/closeChild") (close_params (thread_id r)));
      a ← attempt (request (lit "thread/archive") (archive_params (thread_id r)));
      cleanup rs (match a, c with inr e, _ => Some e | _, inr e => Some e | _, _ => err end)
  end.

(** A session other than a candidate's that ended without a submission. *)
Definition barren (r : SessionResult) : bool :=
  negb (str_eqb (role r) (lit "candidate")) && is_some (error r) && is_none (value r).

Definition conclude (executed : result unit) (err : option str) (rs : list SessionResult)
    : result (list SessionResult) :=
  executed;;
  match err with Some e => Err e | None => Ok tt end;;
  match find_first barren rs with
  | Some r => Err (role r ++ lit " session " ++ thread_id r ++ lit " failed: " ++ default [] (error r))
  | None => Ok rs
  end.

Definition active_batch (specs : list SessionSpec) : io Host (list SessionResult) := λ h,
  let '(b, executed) := execution specs {| host := h; results := []; active := ∅ |} in
  match executed with
  | Panic => (host b, Panic)
  | _ =>
      match cleanup (results b) None b with
      | (b, Ok err) => (host b, conclude executed err (results b))
      | (b, _) => (host b, Panic)
      end
  end.

(** [specs.chunks(n)]: pieces of [n] and a shorter last one. *)
Fixpoint chunks {A} (fuel n : nat) (l : list A) : list (list A) :=
  match fuel, l with
  | S fuel, _ :: _ => take n l :: chunks fuel n (drop n l)
  | _, _ => []
  end.
Fixpoint batch_loop (pieces : list (list SessionSpec)) (rs : list SessionResult)
    : io Host (list SessionResult) :=
  match pieces with
  | [] => mret rs
  | piece :: pieces => more ← active_batch piece; batch_loop pieces (rs ++ more)
  end.
(** [Host::batch], when its future is polled to its end. *)
Definition host_batch (specs : list SessionSpec) : io Host (list SessionResult) :=
  if decide (parallel_sessions = 0) then lift Panic
  else batch_loop (chunks (length specs) parallel_sessions specs) [].
End host.
