(* ===== verification/HostProps.v ===== *)
(** * kernel: what the host's sessions guarantee

    Every batch that succeeds answers each session, in order; every session
    whose turn was started is closed and archived, also when the batch fails. *)
From Stdlib Require Import ZArith.
From stdpp Require Import gmap sorting.
From S2P Require Import Prelude Str Float64 Json JsonOps Search KernelIo HostSessions.

Abbreviation START_CHILD := (lit "thread/startChild").
Abbreviation TURN_START := (lit "turn/start").

(** The app-server's promises: a new child thread has an identifier that no
    thread had before; and no effect panics. *)
Class AppServerLaws (E : Type) {A : AppServer E} {D : Disk E} {C : Calls E} := {
  known : E → gset str;
  rpc_known m p e : known e ⊆ known (rpc m p e).1;
  create_known d e : known e ⊆ known (create_dir_all d e).1;
  write_known d s e : known e ⊆ known (write_file d s e).1;
  start_child_fresh p e v t :
    (rpc START_CHILD p e).2 = Ok v → as_str (v.["thread"].["id"]) = Some t →
    t ∉ known e ∧ t ∈ known (rpc START_CHILD p e).1;
  rpc_returns m p e : (rpc m p e).2 ≠ Panic;
  create_returns d e : (create_dir_all d e).2 ≠ Panic;
  write_returns d s e : (write_file d s e).2 ≠ Panic;
  call_returns o p e : (call o p e).2 ≠ Panic;
  resolve_returns i v e : (resolve_server_request i v e).2 ≠ Panic;
  reject_returns i c s e : (reject_server_request i c s e).2 ≠ Panic;
}.

(** ** Results and the sessions still active *)
Definition threads (rs : list SessionResult) : list str := thread_id <$> rs.
Definition header (r : SessionResult) : str * str * str := (thread_id r, role r, model r).
Definition label (s : SessionSpec) : str * str := (spec_role s, spec_model s).

(** An update of a result that keeps its identity and what has been settled. *)
Definition gentle (f : SessionResult → SessionResult) : Prop :=
  ∀ r, header (f r) = header r ∧ (settled r → settled (f r)).

Record tracked (rs : list SessionResult) (a : gmap str nat) : Prop := {
  active_indexed : ∀ t i, a !! t = Some i → threads rs !! i = Some t;
  inactive_settled : ∀ i r, rs !! i = Some r → a !! thread_id r = Some i ∨ settled r;
}.

Section tracking.
Implicit Types (rs : list SessionResult) (a : gmap str nat).

Lemma headers_update rs i r f :
  rs !! i = Some r → header (f r) = header r → header <$> <[i := f r]> rs = header <$> rs.
Proof.
  intros Hr Hf. rewrite list_fmap_insert, Hf. apply list_insert_id.
  by rewrite list_lookup_fmap, Hr.
Qed.
Lemma threads_headers rs rs' : header <$> rs = header <$> rs' → threads rs = threads rs'.
Proof.
  intros H. unfold threads. transitivity ((λ h, h.1.1) <$> (header <$> rs)).
  - by rewrite <-list_fmap_compose.
  - rewrite H. by rewrite <-list_fmap_compose.
Qed.

Lemma tracked_update rs a i r f :
  tracked rs a → rs !! i = Some r → gentle f → tracked (<[i := f r]> rs) a.
Proof.
  intros [Ha Hs] Hr Hf. destruct (Hf r) as [Hh Hm]. split.
  - rewrite (threads_headers (<[i:=f r]> rs) rs); [done|]. by apply headers_update.
  - intros j r' [(<- & <- & _)|[_ H]]%list_lookup_insert_Some; [|by apply Hs].
    injection Hh as -> _ _. destruct (Hs i r Hr); [by left|right; by apply Hm].
Qed.

Lemma tracked_settle rs a t i r f :
  tracked rs a → a !! t = Some i → rs !! i = Some r → gentle f → settled (f r) →
  tracked (<[i := f r]> rs) (delete t a).
Proof.
  intros Htr Ht Hr Hf Hset. pose proof (tracked_update _ _ _ _ _ Htr Hr Hf) as [Ha Hs].
  assert (thread_id r = t) as Hrt.
  { destruct Htr as [Ha' _]. specialize (Ha' t i Ht). unfold threads in Ha'.
    rewrite list_lookup_fmap, Hr in Ha'. by injection Ha'. }
  split.
  - intros t' j [_ H]%lookup_delete_Some. by apply Ha.
  - intros j r' Hj. destruct (Hs j r' Hj) as [H|H]; [|by right].
    destruct (decide (thread_id r' = t)) as [Heq|Hne].
    + right. rewrite Heq, Ht in H. injection H as <-.
      rewrite list_lookup_insert_eq in Hj by (by eapply lookup_lt_Some). by injection Hj as <-.
    + left. by rewrite lookup_delete_ne.
Qed.

Lemma tracked_push rs a r :
  tracked rs a → thread_id r ∉ threads rs →
  tracked (rs ++ [r]) (<[thread_id r := length rs]> a).
Proof.
  intros [Ha Hs] Hn. unfold threads in *. split.
  - intros t i. unfold threads. rewrite fmap_app. intros [[<- <-]|[Hne Ht]]%lookup_insert_Some.
    + rewrite lookup_app_r by by rewrite length_fmap. by rewrite length_fmap, Nat.sub_diag.
    + apply lookup_app_l_Some. by apply Ha.
  - intros i r' [Hi|[Hl Hi]]%lookup_app_Some.
    + destruct (Hs i r' Hi) as [H|H]; [left|by right].
      rewrite lookup_insert_ne; [done|]. intros Heq. apply Hn. rewrite Heq.
      apply list_elem_of_fmap. exists r'. split; [done|]. by eapply list_elem_of_lookup_2.
    + destruct (i - length rs) as [|n] eqn:E; [|done]. injection Hi as <-. left.
      rewrite lookup_insert_eq. f_equal. lia.
Qed.

Lemma tracked_at rs a t i : tracked rs a → a !! t = Some i →
  ∃ r, rs !! i = Some r ∧ thread_id r = t.
Proof.
  intros [Ha _] Ht. specialize (Ha t i Ht). unfold threads in Ha.
  by apply list_lookup_fmap_Some in Ha as (r & -> & ?); eauto.
Qed.

Lemma tracked_done rs : tracked rs ∅ ↔ Forall settled rs.
Proof.
  split.
  - intros [_ Hs]. apply Forall_lookup. intros i r Hr. by destruct (Hs i r Hr).
  - intros H. split; [done|]. intros i r Hr. right. by eapply Forall_lookup_1.
Qed.

Lemma gentle_turn_id t : gentle (set_turn_id t).
Proof. by intros r. Qed.
Lemma gentle_event v : gentle (push_event v).
Proof. by intros r. Qed.
Lemma gentle_value v : gentle (set_value v).
Proof. intros r. split; [done|]. intros _. left. by eexists. Qed.
Lemma gentle_error e : gentle (set_error e).
Proof. intros r. split; [done|]. intros _. right. by eexists. Qed.
End tracking.
#[export] Hint Resolve gentle_turn_id gentle_event gentle_value gentle_error : cubineer.

(** ** The history of requests *)
Definition started_in (log : list (str * Value)) (t : str) : Prop :=
  ∃ v, (TURN_START, v) ∈ log ∧ v.["threadId"] = String t.
(** Every turn started since [before] belongs to a recorded thread. *)
Definition logged (before : list (str * Value)) (ts : list str) (log : list (str * Value)) : Prop :=
  ∃ new, log = before ++ new ∧ ∀ t, started_in new t → t ∈ ts.

Lemma logged_other before ts log m p :
  m ≠ TURN_START → logged before ts log → logged before ts (log ++ [(m, p)]).
Proof.
  intros Hm (new & -> & Hnew). exists (new ++ [(m, p)]). split; [by rewrite app_assoc|].
  intros t (v & [Hv|Hv%list_elem_of_singleton]%elem_of_app & Ht); [apply Hnew; by exists v|].
  by injection Hv as <- _.
Qed.
Lemma logged_turn before ts log p t :
  p.["threadId"] = String t → t ∈ ts → logged before ts log →
  logged before ts (log ++ [(TURN_START, p)]).
Proof.
  intros Hp Hin (new & -> & Hnew). exists (new ++ [(TURN_START, p)]).
  split; [by rewrite app_assoc|].
  intros t' (v & [Hv|Hv%list_elem_of_singleton]%elem_of_app & Ht); [apply Hnew; by exists v|].
  injection Hv as ->. rewrite Hp in Ht. by injection Ht as <-.
Qed.
Lemma logged_more before ts ts' log : ts ⊆ ts' → logged before ts log → logged before ts' log.
Proof. intros Hts (new & -> & Hnew). exists new. split; [done|]. intros t Ht. by apply Hts, Hnew. Qed.

Section sessions.
Context {E : Type} {A : AppServer E} {D : Disk E} {C : Calls E} {L : AppServerLaws E}.
Context (to_string : Value → str) (from_str : str → option Value).
Context (root provider : str) (timeout_secs : N) (parallel_sessions : nat).
Implicit Types (b : Batch (E := E)) (rs : list SessionResult) (P X : Batch (E := E) → Prop).

Lemma spec_on_client {T} P (m : io E T) Q X :
  (∀ e, (m e).2 ≠ Panic) →
  (∀ b v, P b → (m (client (host b))).2 = Ok v →
     Q v (with_host (with_client (m (client (host b))).1 (host b)) b)) →
  (∀ b, P b → X (with_host (with_client (m (client (host b))).1 (host b)) b)) →
  spec P (on_client m) Q X.
Proof.
  intros Hm HQ HX b Hb. specialize (Hm (client (host b))). specialize (HQ b). specialize (HX b Hb).
  unfold on_client. destruct (m (client (host b))) as [e [v|x|]]; [by apply HQ|done..].
Qed.

Definition requested (m : str) (p : Value) b : Batch :=
  with_host {| client := (rpc m p (client (host b))).1; usage := usage (host b);
               sent := sent (host b) ++ [(m, p)] |} b.
Lemma spec_request P m p Q X :
  (∀ b v, P b → (rpc m p (client (host b))).2 = Ok v → Q v (requested m p b)) →
  (∀ b, P b → X (requested m p b)) → spec P (request m p) Q X.
Proof.
  intros HQ HX b Hb. pose proof (rpc_returns m p (client (host b))) as Hm.
  specialize (HQ b). specialize (HX b Hb). unfold request, requested in *.
  destruct (rpc m p (client (host b))) as [e [v|x|]]; [by apply HQ|done..].
Qed.

Lemma spec_update_result P i f Q X :
  (∀ b, P b → ∃ r, results b !! i = Some r ∧ Q tt (with_results (<[i := f r]> (results b)) b)) →
  spec P (update_result i f) Q X.
Proof.
  intros H b Hb. destruct (H b Hb) as (r & Hr & HQ).
  unfold update_result, result_at, index, mbind, io_bind. by rewrite Hr.
Qed.

(** ** While sessions run *)
Context (specs : list SessionSpec) (before : list (str * Value)).

Record frame b : Prop := {
  frame_labels : (λ r, (role r, model r)) <$> results b = label <$> take (length (results b)) specs;
  frame_logged : logged before (threads (results b)) (sent (host b));
}.

Lemma frame_headers b b' :
  header <$> results b' = header <$> results b → sent (host b') = sent (host b) → frame b → frame b'.
Proof.
  intros Hh Hs [Hl Hg]. split; [|by rewrite Hs, (threads_headers _ _ Hh)].
  assert (length (results b') = length (results b)) as -> by by rewrite <-(length_fmap header), Hh, length_fmap.
  rewrite <-Hl. change (λ r, (role r, model r)) with ((λ h : str * str * str, (h.1.2, h.2)) ∘ header).
  by rewrite !list_fmap_compose, Hh.
Qed.

Lemma frame_request b m p : m ≠ TURN_START → frame b → frame (requested m p b).
Proof. intros Hm [Hl Hg]. split; [done|]. by apply logged_other. Qed.

Definition running b : Prop :=
  frame b ∧ tracked (results b) (active b) ∧ length (results b) = length specs.

Lemma running_update b i r f :
  results b !! i = Some r → gentle f → running b → running (with_results (<[i := f r]> (results b)) b).
Proof.
  intros Hr Hf (Hfr & Htr & Hlen). split_and!.
  - eapply frame_headers; [..|done]; [|done]. apply headers_update; [done|]. apply Hf.
  - by apply tracked_update.
  - simpl. by rewrite length_insert.
Qed.

Lemma item_completed_running thread item :
  spec running (item_completed from_str thread item) (λ _, running) frame.
Proof.
  apply (spec_bind _ _ _ (λ a b, a = active b ∧ running b)); [by apply spec_gets|]. intros a.
  destruct (a !! thread) as [i|] eqn:Ea; [|by intros b [_ Hb]].
  assert (∀ f, gentle f → spec (λ b, a = active b ∧ running b) (update_result i f)
            (λ _ b, a = active b ∧ running b) frame) as Hup.
  { intros f Hf. apply spec_update_result. intros b [-> Hb].
    destruct (tracked_at _ _ _ _ (proj1 (proj2 Hb)) Ea) as (r & Hr & _).
    exists r. split; [done|]. split; [done|]. by apply running_update. }
  eapply spec_bind; [apply Hup; auto with cubineer|]. intros [].
  destruct item as [text phase v|v]; [|by intros b [_ Hb]].
  case_bool_decide; [by intros b [_ Hb]|].
  destruct (from_str text) as [v'|]; [|by intros b [_ Hb]].
  eapply spec_weaken; [apply Hup; auto with cubineer|done|by intros ? b [_ Hb]|done].
Qed.

Lemma turn_completed_running thread turn :
  spec running (turn_completed to_string thread turn) (λ _, running) frame.
Proof.
  intros b (Hfr & Htr & Hlen). unfold turn_completed, mbind, io_bind, gets.
  destruct (active b !! thread) as [i|] eqn:Ea; [|done].
  destruct (tracked_at _ _ _ _ Htr Ea) as (r & Hr & _).
  assert (∀ f, gentle f → settled (f r) →
    running (with_results (<[i := f r]> (results b)) (with_active (delete thread (active b)) b))) as Hset.
  { intros f Hf Hs. split_and!; simpl.
    - eapply frame_headers; [..|exact Hfr]; [|done]. apply headers_update; [done|]. apply Hf.
    - by eapply tracked_settle.
    - by rewrite length_insert. }
  unfold modify, result_at, update_result, mbind, io_bind. simpl.
  case_bool_decide; simpl; rewrite (index_Ok _ _ _ Hr); simpl.
  - destruct (value r) as [v|] eqn:Ev; simpl.
    + specialize (Hset (λ r, r) ltac:(by intros ?) ltac:(left; by rewrite Ev)).
      by rewrite list_insert_id in Hset.
    + rewrite (index_Ok _ _ _ Hr). apply Hset; [auto with cubineer|]. right. by eexists.
  - apply Hset; [auto with cubineer|]. right. by eexists.
Qed.

Lemma frame_client b e : frame b → frame (with_host (with_client e (host b)) b).
Proof. by intros [Hl Hg]. Qed.

(** A batch with the active sessions [a]. *)
Definition running_at (a : gmap str nat) b : Prop := a = active b ∧ running b.

Lemma client_running {T} a (m : io E T) :
  (∀ e, (m e).2 ≠ Panic) → spec (running_at a) (on_client m) (λ _, running_at a) frame.
Proof.
  intros Hm. apply spec_on_client; [done| |].
  - intros b v (Ha & Hf & Ht & Hl) _. split; [done|]. split; [by apply frame_client|done].
  - intros b (Ha & Hf & Ht & Hl). by apply frame_client.
Qed.
Lemma update_running a t i f :
  a !! t = Some i → gentle f →
  spec (running_at a) (update_result i f) (λ _, running_at a) frame.
Proof.
  intros Ea Hf. apply spec_update_result. intros b [-> Hb].
  destruct (tracked_at _ _ _ _ (proj1 (proj2 Hb)) Ea) as (r & Hr & _).
  exists r. split; [done|]. split; [done|]. by apply running_update.
Qed.
Lemma lift_running {T} a (r : result T) :
  r ≠ Panic → spec (running_at a) (lift r) (λ v b, r = Ok v ∧ running_at a b) frame.
Proof.
  intros Hr. apply spec_lift; [done| |].
  - by intros v b -> Hb.
  - by intros b (_ & Hf & _).
Qed.
Lemma running_indexed a b t i : running_at a b → a !! t = Some i → i < length specs.
Proof.
  intros (-> & _ & Htr & Hl) Ht. destruct (tracked_at _ _ _ _ Htr Ht) as (r & Hr & _).
  rewrite <-Hl. by eapply lookup_lt_Some.
Qed.

Lemma tool_call_running request_id thread name arguments :
  spec running (tool_call to_string specs request_id thread name arguments) (λ _, running) frame.
Proof.
  apply (spec_bind _ _ _ running_at); [by apply spec_gets|]. intros a.
  eapply spec_bind; [apply lift_running; auto with cubineer|]. intros i.
  apply spec_pure. intros Ea%ok_or_Ok.
  eapply (spec_bind _ _ _ (λ s b, running_at a b)).
  { intros b Hb. pose proof (running_indexed _ _ _ _ Hb Ea) as [s Hs]%lookup_lt_is_Some.
    unfold lift. by rewrite (index_Ok _ _ _ Hs). }
  intros s. eapply spec_bind; [apply lift_running; auto with cubineer|].
  intros ?. apply spec_pure. intros _.
  eapply spec_bind; [apply lift_running; auto with cubineer|].
  intros ?. apply spec_pure. intros _.
  eapply (spec_bind _ _ _ (λ v b, running_at a b)).
  { destruct (str_eqb _ _); [by intros b Hb|]. apply client_running, call_returns. }
  intros v. eapply spec_bind; [apply (update_running _ thread); auto with cubineer|]. intros ?.
  eapply spec_bind; [apply client_running, write_returns|]. intros ?.
  eapply spec_weaken; [apply client_running, resolve_returns|done|by intros ? b [_ Hb]|done].
Qed.

Lemma handle_running e : spec running (handle to_string from_str specs e) (λ _, running) frame.
Proof.
  destruct e; simpl.
  - apply spec_lift; [done..|]. by intros b (Hf & _).
  - apply tool_call_running.
  - intros b Hb. pose proof (client_running (active b) (reject_server_request request_id (-32000)
      INTERACTIVE) (reject_returns _ _ _) b (conj eq_refl Hb)) as Hc.
    destruct (on_client _ b) as [b' [v|x|]]; [by destruct Hc|done..].
  - apply item_completed_running.
  - apply turn_completed_running.
  - apply spec_modify. intros b (Hf & Ht & Hl). split; [|done]. by destruct Hf.
  - by intros b Hb.
Qed.

(** ** The deadline *)
Definition expired (es : list (str * nat)) b : Prop :=
  Forall (λ e, ∃ r, results b !! e.2 = Some r ∧ settled r) es.

Lemma request_running a m p :
  m ≠ TURN_START →
  spec (running_at a) (attempt (request m p)) (λ _, running_at a) frame.
Proof.
  intros Hm. apply spec_attempt. apply spec_request.
  - intros b v (Ha & Hf & Ht & Hl) _. split; [done|]. split; [by apply frame_request|done].
  - intros b (Ha & Hf & Ht & Hl) _. split; [done|]. split; [by apply frame_request|done].
Qed.

Lemma expire_running a es n e :
  a !! e.1 = Some e.2 →
  spec (λ b, running_at a b ∧ expired es b) (expire timeout_secs n e)
    (λ _ b, running_at a b ∧ expired (es ++ [e]) b) frame.
Proof.
  intros Ea b [Hb Hes]. unfold expire, mbind, io_bind, result_at.
  destruct (tracked_at _ _ _ _ (proj1 (proj2 (proj2 Hb))) ltac:(by rewrite <-(proj1 Hb)))
    as (r & Hr & _).
  rewrite (index_Ok _ _ _ Hr).
  set (params := json _). pose proof (request_running a (lit "turn/interrupt") params) as Hreq.
  specialize (Hreq ltac:(done) b Hb).
  assert (results (attempt (request (lit "turn/interrupt") params) b).1 = results b) as Hres.
  { unfold attempt, request. by destruct (rpc _ _ _) as [? []]. }
  destruct (attempt _ b) as [b' [v|x|]]; [|done..]. simpl in Hres. clearbody params.
  unfold update_result, mbind, io_bind, result_at. rewrite Hres, (index_Ok _ _ _ Hr).
  unfold modify. set (f := set_error _).
  assert (gentle f) as Hf by apply gentle_error. split.
  - destruct Hreq as [Ha Hrun]. split; [done|]. rewrite <-Hres in Hr. by apply running_update.
  - apply Forall_app. split; [|apply Forall_singleton].
    + eapply Forall_impl; [exact Hes|]. intros e' (r' & Hr' & Hs'). simpl. rewrite Hres.
      destruct (decide (e.2 = e'.2)) as [Heq|Hne].
      * rewrite Heq in Hr |- *. exists (f r).
        rewrite list_lookup_insert_eq by (by eapply lookup_lt_Some). split; [done|]. right. by eexists.
      * exists r'. by rewrite list_lookup_insert_ne.
    + exists (f r). simpl. rewrite Hres, list_lookup_insert_eq by (by eapply lookup_lt_Some).
      split; [done|]. right. by eexists.
Qed.

Lemma by_thread_elem (a : gmap str nat) e : e ∈ by_thread a ↔ a !! e.1 = Some e.2.
Proof.
  unfold by_thread. rewrite merge_sort_Permutation. destruct e. apply elem_of_map_to_list.
Qed.

Lemma expire_all a es done_ n :
  Forall (λ e, a !! e.1 = Some e.2) es →
  spec (λ b, running_at a b ∧ expired done_ b) (for_each (expire timeout_secs) n es)
    (λ _ b, running_at a b ∧ expired (done_ ++ es) b) frame.
Proof.
  intros Hes. revert n done_. induction Hes as [|e es He _ IH]; intros n done_; simpl.
  - rewrite app_nil_r. by intros b Hb.
  - eapply spec_bind; [by apply (expire_running a done_ n e)|]. intros ?.
    specialize (IH (S n) (done_ ++ [e])). by rewrite <-app_assoc in IH.
Qed.

Lemma deadline_running :
  spec running (deadline timeout_secs) (λ _ b, running b ∧ active b = ∅) frame.
Proof.
  apply (spec_bind _ _ _ (λ a b, running_at a b ∧ expired [] b)).
  { apply spec_gets. intros b Hb. split; [by split|constructor]. }
  intros a. eapply spec_bind; [apply expire_all|].
  { apply Forall_forall. by intros e ?%by_thread_elem. }
  intros []. apply spec_modify. intros b [(-> & Hf & Ht & Hl) Hex]. split; [|done].
  split_and!; [by destruct Hf| |done]. simpl. apply tracked_done. apply Forall_lookup.
  intros i r Hr. destruct (inactive_settled _ _ Ht i r Hr) as [Ha|Hs]; [|done].
  eapply Forall_forall in Hex; [|by apply (by_thread_elem _ (thread_id r, i))].
  destruct Hex as (r' & Hr' & Hs). simpl in Hr'. by rewrite Hr in Hr'; injection Hr' as <-.
Qed.

Lemma event_loop_running ws :
  spec running (event_loop to_string from_str timeout_secs specs ws)
    (λ _ b, running b ∧ active b = ∅) frame.
Proof.
  induction ws as [|w ws IH]; simpl;
    (eapply spec_bind; [apply (spec_gets _ _ (λ a b, a = active b ∧ running b)); done|]);
    intros a; destruct (decide (a = ∅)) as [->|Hne]; try (by intros b [Ha Hb]).
  - eapply spec_weaken; [apply deadline_running|by intros b [_ Hb]|done..].
  - destruct w as [e| |]; [|apply spec_lift; [done..|]; by intros b (_ & Hf & _)..].
    eapply spec_bind; [|intros ?; apply IH].
    eapply spec_weaken; [apply handle_running|by intros b [_ Hb]|done..].
Qed.

(** ** Starting the sessions *)
Definition registered b : Prop := ∀ t, t ∈ threads (results b) → t ∈ known (client (host b)).
Definition starting (i : nat) b : Prop :=
  frame b ∧ tracked (results b) (active b) ∧ length (results b) = i ∧ registered b.

Lemma client_starting {T} i (m : io E T) :
  (∀ e, (m e).2 ≠ Panic) → (∀ e, known e ⊆ known (m e).1) →
  spec (starting i) (on_client m) (λ _, starting i) frame.
Proof.
  intros Hm Hk. apply spec_on_client; [done| |].
  - intros b v (Hf & Ht & Hl & Hr) _. split_and!; [by apply frame_client|done|done|].
    intros t Hin. apply Hk. by apply Hr.
  - intros b (Hf & _). by apply frame_client.
Qed.
Lemma lift_starting {T} (P : Batch → Prop) (r : result T) :
  r ≠ Panic → (∀ b, P b → frame b) → spec P (lift r) (λ v b, r = Ok v ∧ P b) frame.
Proof. intros Hr HP. apply spec_lift; [done| |done]. by intros v b -> Hb. Qed.

(** The child of a session has been started and recorded, its turn not yet. *)
Definition pushed (i : nat) (t : str) b : Prop :=
  frame b ∧ length (results b) = S i ∧ registered b
  ∧ ∃ rs r, results b = rs ++ [r] ∧ thread_id r = t ∧ t ∉ threads rs ∧ tracked rs (active b).

Lemma pushed_active i t b :
  pushed i t b → starting (S i) (with_active (<[t := i]> (active b)) b).
Proof.
  intros (Hf & Hl & Hr & rs & r & Hrs & <- & Hn & Ht).
  assert (length rs = i) as <- by (rewrite Hrs, length_app in Hl; simpl in Hl; lia).
  split_and!; [by destruct Hf| |done|done]. simpl. rewrite Hrs. by apply tracked_push.
Qed.

Lemma spec_start_child i s :
  spec (starting i) (request START_CHILD (child_startup root provider s))
    (λ v b, starting i b ∧ ∀ t, as_str (v.["thread"].["id"]) = Some t →
       t ∉ threads (results b) ∧ t ∈ known (client (host b))) frame.
Proof.
  apply spec_request.
  - intros b v (Hf & Ht & Hl & Hr) Hv. split; [split_and!|]; [by apply frame_request|done|done| |].
    + intros t Hin. apply rpc_known. by apply Hr.
    + intros t Hid. destruct (start_child_fresh _ _ _ _ Hv Hid) as [Hn Hk]. split; [|done].
      intros Hin. by apply Hn, Hr.
  - intros b (Hf & _). by apply frame_request.
Qed.

Lemma spec_push i s t :
  specs !! i = Some s →
  spec (λ b, starting i b ∧ t ∉ threads (results b) ∧ t ∈ known (client (host b)))
    (modify (λ b, with_results (results b ++ [new_result t s]) b)) (λ _, pushed i t) frame.
Proof.
  intros Hs. apply spec_modify. intros b ((Hf & Ht & Hl & Hr) & Hn & Hk).
  split_and!.
  - destruct Hf as [Hlab Hlog]. split; simpl.
    + rewrite length_app. simpl. rewrite Hl, Nat.add_1_r, (take_S_r _ _ _ Hs), !fmap_app, Hlab, Hl. done.
    + eapply logged_more; [|done]. unfold threads. rewrite fmap_app. set_solver.
  - simpl. rewrite length_app. simpl. lia.
  - intros t'. unfold threads. simpl. rewrite fmap_app, elem_of_app.
    intros [Hin|Heq%list_elem_of_singleton]; [by apply Hr|by rewrite Heq].
  - by exists (results b), (new_result t s).
Qed.

Lemma spec_turn_start i t s :
  spec (pushed i t) (request TURN_START (turn_start t s)) (λ _, pushed i t) frame.
Proof.
  assert (∀ b, pushed i t b → frame (requested TURN_START (turn_start t s) b)) as Hframe.
  { intros b ([Hlab Hlog] & _ & _ & rs & r & Hrs & Hid & _). split; [done|].
    apply (logged_turn _ _ _ _ t); [done| |done]. simpl. unfold threads.
    rewrite Hrs, fmap_app. csimpl. rewrite Hid. set_solver. }
  apply spec_request; [|done].
  intros b v Hb _. split; [by apply Hframe|]. destruct Hb as (_ & Hl & Hr & rs & r & Hrs).
  split_and!; [done| |by exists rs, r]. intros t' Hin. apply rpc_known. by apply Hr.
Qed.

Lemma start_session_ok i s :
  specs !! i = Some s → spec (starting i) (start_session root provider i s) (λ _, starting (S i)) frame.
Proof.
  intros Hs. unfold start_session.
  eapply spec_bind; [apply client_starting; [apply create_returns|apply create_known]|]. intros ?.
  do 2 (eapply spec_bind; [apply client_starting; [apply write_returns|apply write_known]|]; intros ?).
  eapply spec_bind; [apply spec_start_child|]. intros child.
  eapply spec_bind; [apply lift_starting; [auto with cubineer|by intros b [[Hf _] _]]|].
  intros ?. apply spec_pure. intros _.
  eapply spec_bind; [apply lift_starting; [auto with cubineer|by intros b [[Hf _] _]]|].
  intros t. apply spec_pure. intros Ht%ok_or_Ok.
  eapply spec_bind.
  { eapply spec_weaken; [apply (spec_push i s t Hs)| |done|done].
    intros b [Hb Hfresh]. split; [done|]. by apply Hfresh. }
  intros ?. eapply spec_bind; [apply spec_turn_start|]. intros turn.
  eapply spec_bind; [apply lift_starting; [auto with cubineer|by intros b [Hf _]]|].
  intros turn_id. apply spec_pure. intros _.
  eapply (spec_bind _ _ _ (λ _, starting (S i))).
  { apply spec_modify. intros b Hb. by apply pushed_active. }
  intros ?. apply spec_update_result. intros b (Hf & Htr & Hl & Hr).
  destruct (lookup_lt_is_Some_2 (results b) i) as [r Hri]; [lia|]. exists r. split; [done|].
  pose proof (headers_update _ _ _ (set_turn_id turn_id) Hri eq_refl) as Hh.
  split_and!.
  - by eapply frame_headers.
  - apply tracked_update; auto with cubineer.
  - simpl. by rewrite length_insert.
  - intros t'. simpl. rewrite (threads_headers _ _ Hh). apply Hr.
Qed.

Lemma execution_ok h :
  sent h = before →
  spec (λ b, b = {| host := h; results := []; active := ∅ |})
    (execution to_string from_str root provider timeout_secs specs)
    (λ _ b, running b ∧ active b = ∅) frame.
Proof.
  intros Hh. eapply (spec_bind _ _ _ (λ _ b, starting (length specs) b)).
  { eapply spec_weaken; [apply (spec_for_each _ starting frame 0 specs)| |done|done].
    - intros i s Hs. by apply start_session_ok.
    - intros b ->. split_and!; [|by apply tracked_done|done|by intros t ?%elem_of_nil].
      split; [done|]. exists []. split; [by rewrite app_nil_r|]. by intros t (v & ?%elem_of_nil & _). }
  intros ?. eapply (spec_bind _ _ _ (λ _, running)).
  { apply spec_gets. by intros b (Hf & Ht & Hl & _). }
  intros ws. apply event_loop_running.
Qed.

(** ** Cleaning up *)
Definition closing (rs : list SessionResult) : list (str * Value) :=
  rs ≫= λ r, [(lit "thread/closeChild", close_params root (thread_id r));
              (lit "thread/archive", archive_params (thread_id r))].

Lemma attempt_request m p b : ∃ v, attempt (request m p) b = (requested m p b, Ok v).
Proof.
  pose proof (rpc_returns m p (client (host b))) as Hm. unfold attempt, request, requested.
  destruct (rpc m p (client (host b))) as [e [v|x|]]; [by eexists..|done].
Qed.

Lemma cleanup_ok rs err b : ∃ b' err',
  cleanup root rs err b = (b', Ok err') ∧ results b' = results b
  ∧ sent (host b') = sent (host b) ++ closing rs.
Proof.
  revert err b. induction rs as [|r rs IH]; intros err b; simpl.
  { exists b, err. by rewrite app_nil_r. }
  unfold mbind at 1, io_bind at 1. edestruct attempt_request as [c ->].
  unfold mbind at 1, io_bind at 1. edestruct attempt_request as [a ->].
  edestruct IH as (b' & err' & -> & Hr & Hs). exists b', err'. split; [done|].
  split; [by rewrite Hr|]. rewrite Hs. simpl. by rewrite <-!app_assoc.
Qed.
End sessions.

(** Every turn started in [log] belongs to a thread that [log] closes and archives. *)
Definition closed_in (root : str) (log : list (str * Value)) : Prop :=
  ∀ t, started_in log t →
    (lit "thread/closeChild", close_params root t) ∈ log
    ∧ (lit "thread/archive", archive_params t) ∈ log.

Lemma closed_in_app root l k : closed_in root l → closed_in root k → closed_in root (l ++ k).
Proof.
  intros Hl Hk t (v & [Hv|Hv]%elem_of_app & Ht).
  - destruct (Hl t) as [? ?]; [by exists v|]. rewrite !elem_of_app. auto.
  - destruct (Hk t) as [? ?]; [by exists v|]. rewrite !elem_of_app. auto.
Qed.

Lemma logged_closed root before rs log :
  logged before (threads rs) log →
  ∃ new, log ++ closing root rs = before ++ new ∧ closed_in root new.
Proof.
  intros (new & -> & Hnew). exists (new ++ closing root rs). split; [by rewrite app_assoc|].
  intros t (v & Hv & Ht).
  assert (t ∈ threads rs) as (r & -> & Hr)%list_elem_of_fmap.
  { apply elem_of_app in Hv as [Hv|Hv]; [apply Hnew; by exists v|].
    apply list_elem_of_bind in Hv as (r & Hv & _). apply elem_of_cons in Hv as [[=]|Hv].
    apply list_elem_of_singleton in Hv. by injection Hv. }
  unfold closing. rewrite !elem_of_app, !list_elem_of_bind. split; right; exists r; set_solver.
Qed.

Section guarantees.
Context {E : Type} {A : AppServer E} {D : Disk E} {C : Calls E} {L : AppServerLaws E}.
Context (to_string : Value → str) (from_str : str → option Value).
Context (root provider : str) (timeout_secs : N).

Lemma conclude_answers specs executed err rs rs' :
  (λ r, (role r, model r)) <$> rs = label <$> specs → Forall settled rs →
  conclude executed err rs = Ok rs' → Forall2 answers specs rs'.
Proof.
  intros Hl Hs. unfold conclude. destruct executed as [[]|x|]; [|done..]. cbn [mbind res_bind].
  destruct err as [x|]; [done|]. cbn [mbind res_bind].
  destruct (find_first barren rs) as [r|] eqn:Hb; [done|]. intros [= <-].
  apply find_first_None in Hb. apply Forall2_same_length_lookup.
  assert (length specs = length rs) as Hlen by by rewrite <-(length_fmap label), <-Hl, length_fmap.
  split; [done|]. intros i s r Hsi Hri.
  assert ((role r, model r) = label s) as [= Hrole Hmodel].
  { apply (f_equal (.!! i)) in Hl. rewrite !list_lookup_fmap, Hsi, Hri in Hl. simpl in Hl. congruence. }
  pose proof (Forall_lookup_1 _ _ _ _ Hs Hri) as Hset.
  pose proof (Forall_lookup_1 _ _ _ _ Hb Hri) as Hbar. split_and!; [done..|].
  intros Hcand. unfold barren in Hbar. destruct Hset as [Hv|Herr]; [done|].
  destruct (str_eqb (role r) (lit "candidate")) eqn:Ec.
  - apply str_eqb_eq in Ec. congruence.
  - destruct (value r); [by eexists|]. by destruct Herr as [? Herr]; rewrite Herr in Hbar.
Qed.

Lemma active_batch_ok specs h :
  match active_batch to_string from_str root provider timeout_secs specs h with
  | (h', r) => r ≠ Panic ∧ (∃ log, sent h' = sent h ++ log ∧ closed_in root log)
               ∧ ∀ rs, r = Ok rs → Forall2 answers specs rs
  end.
Proof.
  unfold active_batch. set (b0 := {| host := h |}).
  pose proof (execution_ok to_string from_str root provider timeout_secs specs (sent h) h eq_refl b0
    eq_refl) as Hex.
  destruct (execution _ _ _ _ _ specs b0) as [b executed].
  assert (executed ≠ Panic ∧ frame specs (sent h) b
    ∧ (executed = Ok tt → running specs (sent h) b ∧ active b = ∅)) as (Hp & [Hlab Hlog] & Hrun).
  { destruct executed as [[]|x|]; [|by split_and!|done]. split_and!; [done| |done]. apply Hex. }
  destruct (cleanup_ok root (results b) None b) as (b' & err & Hc & Hres & Hsent).
  destruct (logged_closed root _ _ _ Hlog) as (log & Hcat & Hclosed).
  rewrite Hc. destruct executed as [[]|x|]; [| |done].
  - destruct Hrun as [(_ & Htr & Hlen) Hemp]; [done|]. rewrite Hemp in Htr.
    split_and!; [|exists log; by rewrite Hsent|].
    + unfold conclude. simpl. destruct err; [done|]. simpl. by destruct (find_first _ _).
    + intros rs Hrs. rewrite Hres in Hrs. eapply conclude_answers; [|by apply tracked_done|done].
      by rewrite Hlab, Hlen, firstn_all.
  - split_and!; [done|exists log; by rewrite Hsent|done].
Qed.

Lemma chunks_concat {T} n fuel (l : list T) : n ≠ 0 → length l ≤ fuel → concat (chunks fuel n l) = l.
Proof.
  intros Hn. revert l. induction fuel as [|fuel IH]; intros [|x l] Hl; simpl in *; try done; [lia|].
  destruct n as [|n]; [done|]. simpl. rewrite IH; [by rewrite take_drop|]. rewrite length_drop. lia.
Qed.

Lemma batch_loop_ok pieces rs specs h :
  Forall2 answers specs rs →
  match batch_loop to_string from_str root provider timeout_secs pieces rs h with
  | (h', r) => r ≠ Panic ∧ (∃ log, sent h' = sent h ++ log ∧ closed_in root log)
               ∧ ∀ rs', r = Ok rs' → Forall2 answers (specs ++ concat pieces) rs'
  end.
Proof.
  revert rs specs h. induction pieces as [|piece pieces IH]; intros rs specs h Hrs; simpl.
  - split_and!; [done| |by intros rs' [= <-]; rewrite app_nil_r].
    exists []. split; [by rewrite app_nil_r|]. by intros t (v & ?%elem_of_nil & _).
  - unfold mbind, io_bind. pose proof (active_batch_ok piece h) as Hb.
    destruct (active_batch _ _ _ _ _ piece h) as [h1 [more|x|]]; destruct Hb as (Hp & Hlog & Hans);
      [|by split_and!|done].
    specialize (IH (rs ++ more) (specs ++ piece) h1 ltac:(apply Forall2_app; auto)).
    destruct (batch_loop _ _ _ _ _ pieces _ h1) as [h2 r]. destruct IH as (Hp' & Hlog' & Hans').
    split_and!; [done| |by rewrite <-app_assoc in Hans'].
    destruct Hlog as (l1 & Hl1 & Hc1), Hlog' as (l2 & Hl2 & Hc2). exists (l1 ++ l2).
    split; [by rewrite Hl2, Hl1, app_assoc|]. by apply closed_in_app.
Qed.

Lemma host_batch_ok n specs h :
  n ≠ 0 →
  match host_batch to_string from_str root provider timeout_secs n specs h with
  | (h', r) => r ≠ Panic ∧ (∃ log, sent h' = sent h ++ log ∧ closed_in root log)
               ∧ ∀ rs, r = Ok rs → Forall2 answers specs rs
  end.
Proof.
  intros Hn. unfold host_batch. rewrite decide_False by done.
  pose proof (batch_loop_ok (chunks (length specs) n specs) [] [] h ltac:(constructor)) as H.
  by rewrite chunks_concat in H.
Qed.

(** C13: a batch of sessions that succeeds has one result per session, in order,
    with the session's role and model, and every result is settled: it has a
    submission or an error, and a session that is not a candidate's has a
    submission.  The batch never panics, whatever events arrive. *)
Theorem batch_answers_every_session n specs h :
  n ≠ 0 →
  match host_batch to_string from_str root provider timeout_secs n specs h with
  | (_, Ok rs) => Forall2 answers specs rs
  | (_, Err _) => True
  | (_, Panic) => False
  end.
Proof.
  intros Hn. pose proof (host_batch_ok n specs h Hn) as H.
  destruct (host_batch _ _ _ _ _ n specs h) as [h' [rs|x|]]; destruct H as (Hp & _ & Hans); [by apply Hans|done..].
Qed.

(** C14: a batch that runs to its end, with its results or with an error (lost
    events, a disconnection, a failed request), has sent the request to close
    and the request to archive every session whose turn it started.  A batch
    whose future is dropped, as the [select!] of [controller.rs] does on an
    interrupt, does not reach its end. *)
Theorem started_sessions_are_closed n specs h :
  n ≠ 0 →
  ∃ log, sent (host_batch to_string from_str root provider timeout_secs n specs h).1 = sent h ++ log
    ∧ closed_in root log.
Proof.
  intros Hn. pose proof (host_batch_ok n specs h Hn) as H.
  destruct (host_batch _ _ _ _ _ n specs h) as [h' r]. apply H.
Qed.

(** A child whose model or provider is not the requested one has been started,
    but is not among the results yet: it is neither closed nor archived. *)
Lemma mismatched_child_is_left_open spec h e1 e2 e3 e4 child :
  create_dir_all (spec_cwd spec) (client h) = (e1, Ok tt) →
  write_file (join (spec_cwd spec) (lit "domain-instructions.md")) (spec_instructions spec) e1 = (e2, Ok tt) →
  write_file (join (spec_cwd spec) (lit "task-context.txt")) (spec_input spec) e2 = (e3, Ok tt) →
  rpc START_CHILD (child_startup root provider spec) e3 = (e4, Ok child) →
  value_eqb (child.["model"]) (String (spec_model spec)) = false →
  active_batch to_string from_str root provider timeout_secs [spec] h
  = ({| client := e4; usage := usage h; sent := sent h ++ [(START_CHILD, child_startup root provider spec)] |},
     Err (lit "resolved child provider/model differs from requested configuration")).
Proof.
  intros H1 H2 H3 H4 Hm. unfold active_batch, execution, for_each, start_session, mbind, io_bind,
    on_client, request, lift. simpl. rewrite H1. simpl. rewrite H2. simpl. rewrite H3. simpl. rewrite H4.
  simpl. by rewrite Hm.
Qed.
End guarantees.

(** ** A server that answers *)
Module Demo.
(** The world counts the threads. *)
Definition name (n : nat) : str := lit "t" ++ show_nat n.
Definition reply (method : str) (params : Value) (n : nat) : nat * result Value :=
  if str_eqb method START_CHILD then
    (S n, Ok (json ["model" ↦ params.["startup"].["model"];
                    "modelProvider" ↦ params.["startup"].["modelProvider"];
                    "thread" ↦ json ["id" ↦ String (name n)]]))
  else (n, Ok (json ["turn" ↦ json ["id" ↦ jstr "turn"]])).

#[global] Instance server : AppServer nat := {
  rpc := reply;
  resolve_server_request := λ _ _ n, (n, Ok tt);
  reject_server_request := λ _ _ _ n, (n, Ok tt);
  arrivals := λ n,
    [Arrived (OtherRequest Null);
     Arrived (ItemCompleted (name 0) (AgentMessage (lit "1") None Null));
     Arrived (TurnCompleted (name 0) {| turn_status := Completed; turn_value := Null |})];
}.
#[global] Instance disk : Disk nat := {
  create_dir_all := λ _ n, (n, Ok tt);
  write_file := λ _ _ n, (n, Ok tt);
}.
#[global] Instance calls : Calls nat := { call := λ _ _ n, (n, Ok Null) }.

Lemma name_inj n m : name n = name m → n = m.
Proof. unfold name. intros H%app_inv_head. by apply show_nat_inj. Qed.

#[global] Instance laws : AppServerLaws nat.
Proof.
  refine {| known := λ n, list_to_set (name <$> seq 0 n) |}.
  - intros m p n. cbn [rpc server]. unfold reply. destruct (str_eqb m START_CHILD); [|done].
    cbn [fst]. rewrite seq_S, fmap_app, list_to_set_app_L. set_solver.
  - done.
  - done.
  - intros p n v t. cbn [rpc server]. unfold reply. rewrite str_eqb_refl. cbn [fst snd].
    intros [= <-] [= <-]. split.
    + rewrite elem_of_list_to_set. intros (k & Hk%name_inj & Hin%elem_of_seq)%list_elem_of_fmap. lia.
    + rewrite elem_of_list_to_set. apply list_elem_of_fmap. exists n. split; [done|].
      apply elem_of_seq. lia.
  - intros m p n. simpl. unfold reply. by destruct (str_eqb m START_CHILD).
  - done.
  - done.
  - done.
  - done.
  - done.
Defined.

Definition session (r : str) : SessionSpec :=
  {| spec_role := r; spec_model := lit "m"; spec_cwd := lit "w"; spec_instructions := lit "i";
     spec_input := lit "j"; spec_schema := Null; spec_tools := []; spec_evidence := Null |}.
Definition specs : list SessionSpec := [session (lit "memory"); session (lit "candidate")].
Definition run : Host * result (list SessionResult) :=
  host_batch (λ _, []) (λ t, Some (String t)) (lit "root") (lit "p") 900 2 specs
    {| client := 0; usage := ∅; sent := [] |}.
End Demo.

(** The first session submits, the second passes its deadline. *)
Lemma batch_answers_witness :
  match Demo.run with
  | (_, Ok [r1; r2]) => value r1 = Some (jstr "1") ∧ is_Some (error r2)
  | _ => False
  end
  ∧ match Demo.run with
    | (_, Ok rs) => Forall2 answers Demo.specs rs
    | (_, Err _) => True
    | (_, Panic) => False
    end.
Proof.
  split; [vm_compute; split; [done|by eexists]|].
  apply (batch_answers_every_session (λ _, []) (λ t, Some (String t)) (lit "root") (lit "p") 900 2). lia.
Defined.

Lemma started_sessions_witness :
  length (sent Demo.run.1) = 9
  ∧ ∃ log, sent Demo.run.1 = [] ++ log ∧ closed_in (lit "root") log.
Proof.
  split; [vm_compute; done|].
  apply (started_sessions_are_closed (λ _, []) (λ t, Some (String t)) (lit "root") (lit "p") 900 2
    Demo.specs {| client := 0; usage := ∅; sent := [] |}). lia.
Defined.
