(* ===== verification/SearchStore.v ===== *)
(** * state: the snapshots of search memory

    [state/src/runtime/memories/search.rs] and the statements by which
    [delete_thread_memory] and [clear_memory_data_in_pool] of [memories.rs] delete
    from the same tables of the memory database: [jobs], with the primary key (kind, job_key), and
    [search_memory_snapshots], with the primary key (run_id, version).  A
    statement fails only where a constraint forbids it; a transaction that is
    dropped leaves the tables alone.  The columns of times and leases are not
    read by these operations and are left out. *)
From Stdlib Require Import ZArith DecimalN DecimalString DecimalFacts.
From stdpp Require Import gmap.
From S2P Require Import Prelude Str Float64 Json Search.

Inductive JobStatus := Running | Done | JobFailed.
#[export] Instance JobStatus_eq_dec : EqDecision JobStatus.
Proof. solve_decision. Defined.
Record Job := { job_status : JobStatus; last_error : option str }.

(** The jobs of kind [kernel_search_extract] by key, and the snapshots. *)
Record Store := { jobs : gmap str Job; snapshots : gmap (str * Z) str }.

Definition show_Z (z : Z) : str :=
  if (z <? 0)%Z then lit "-" ++ show_N (Z.to_N (- z)) else show_N (Z.to_N z).
Definition job_key (run_id : str) (batch : Z) : str := run_id ++ lit ":" ++ show_Z batch.

(** [SELECT COALESCE(MAX(version), 0) .. WHERE run_id = ?]. *)
Definition versions (run_id : str) (s : Store) : list Z :=
  omap (λ e, if bool_decide (e.1.1 = run_id) then Some e.1.2 else None) (map_to_list (snapshots s)).
Definition max_version (run_id : str) (s : Store) : Z :=
  match versions run_id s with [] => 0 | v :: vs => foldl Z.max v vs end.

Definition load_search_snapshot (run_id : str) (s : Store) : option str :=
  match versions run_id s with
  | [] => None
  | v :: vs => snapshots s !! (run_id, foldl Z.max v vs)
  end.

Definition SCOPE_ERROR : str := lit "invalid search memory scope".
Definition UNIQUE_ERROR : str := lit "UNIQUE constraint failed".
Definition SIZE_ERROR : str := lit "search memory snapshot is too large".
Definition VERSION_ERROR : str := lit "invalid search memory version".
Definition STALE_ERROR : str := lit "stale search memory update".
Definition INACTIVE_ERROR : str := lit "search memory extraction is not active".

Definition begin_search_extraction (run_id : str) (batch : Z) (s : Store) : result Store :=
  ensure (negb (is_empty run_id) && (0 <=? batch)%Z) SCOPE_ERROR;;
  ensure (is_none (jobs s !! job_key run_id batch)) UNIQUE_ERROR;;
  Ok {| jobs := <[job_key run_id batch := {| job_status := Running; last_error := None |}]> (jobs s);
        snapshots := snapshots s |}.

(** [UPDATE jobs SET status = .. WHERE job_key = ? AND status = 'running'], with
    the number of rows affected. *)
Definition finish_job (key : str) (st : JobStatus) (err : option str) (s : Store) : Store * nat :=
  match jobs s !! key with
  | Some j =>
      if bool_decide (job_status j = Running) then
        ({| jobs := <[key := {| job_status := st;
                                last_error := match err with Some e => Some e | None => last_error j end |}]> (jobs s);
            snapshots := snapshots s |}, 1)
      else (s, 0)
  | None => (s, 0)
  end.

Definition fail_search_extraction (run_id : str) (batch : Z) (error : str) (s : Store) : Store :=
  (finish_job (job_key run_id batch) JobFailed (Some error) s).1.

Definition commit_search_snapshot (run_id : str) (batch previous_version : Z) (snapshot : str)
    (s : Store) : result Store :=
  ensure (blen snapshot <=? 64 * 1024)%N SIZE_ERROR;;
  ensure (0 <=? previous_version)%Z VERSION_ERROR;;
  let version := max_version run_id s in
  ensure (version =? previous_version)%Z STALE_ERROR;;
  let '(s, updated) := finish_job (job_key run_id batch) Done None s in
  ensure (updated =? 1) INACTIVE_ERROR;;
  if decide (version = 2 ^ 63 - 1)%Z then Panic
  else
    ensure (is_none (snapshots s !! (run_id, version + 1)%Z)) UNIQUE_ERROR;;
    Ok {| jobs := jobs s; snapshots := <[(run_id, (version + 1)%Z) := snapshot]> (snapshots s) |}.

(** [key LIKE '{id}:%'], for an identifier without wildcards: [LIKE] does not
    regard the case of ASCII letters. *)
Definition like_prefix (id key : str) : bool :=
  starts_with (to_ascii_lowercase key) (to_ascii_lowercase (id ++ lit ":")).
(** The statements of [delete_thread_memory] on these tables: the thread of a
    kernel run names the run. *)
Definition delete_thread_memory (thread_id : str) (s : Store) : Store :=
  {| jobs := filter (λ x, like_prefix thread_id x.1 = false) (jobs s);
     snapshots := filter (λ x, x.1.1 ≠ thread_id) (snapshots s) |}.
(** Those of [clear_memory_data_in_pool]. *)
Definition clear_memory_data (s : Store) : Store := {| jobs := ∅; snapshots := ∅ |}.

(** ** Keys of jobs identify the run and the batch *)
Definition COLON : N := 58.
Lemma uint_no_colon d : Forall (λ c, c ≠ COLON) (lit (NilEmpty.string_of_uint d)).
Proof. induction d; unfold lit in *; simpl in *; constructor; done. Qed.
Lemma uint_nilzero_no_colon d : Forall (λ c, c ≠ COLON) (lit (NilZero.string_of_uint d)).
Proof. destruct d; [by repeat constructor|apply (uint_no_colon (_ d))..]. Qed.
Lemma show_Z_no_colon z : Forall (λ c, c ≠ COLON) (show_Z z).
Proof.
  unfold show_Z, show_N. case_match; [apply Forall_app; split; [by repeat constructor|]|];
    apply uint_nilzero_no_colon.
Qed.

Lemma N_to_uint_nonnil n : N.to_uint n ≠ Decimal.Nil.
Proof. intros H. pose proof (DecimalN.Unsigned.of_to n) as Hn. rewrite H in Hn. simpl in Hn. by subst. Qed.
Lemma show_N_inj n m : show_N n = show_N m → n = m.
Proof.
  unfold show_N. intros H%lit_inj.
  assert (N.to_uint n = N.to_uint m) as Hu.
  { assert (Some (N.to_uint n) = Some (N.to_uint m)) as [=]; [|done].
    rewrite <-!NilZero.usu by apply N_to_uint_nonnil. by rewrite H. }
  by rewrite <-(DecimalN.Unsigned.of_to n), <-(DecimalN.Unsigned.of_to m), Hu.
Qed.
Lemma uint_no_sign d : Forall (λ c, c ≠ 45%N) (lit (NilEmpty.string_of_uint d)).
Proof. induction d; unfold lit in *; simpl in *; constructor; done. Qed.
Lemma show_N_no_sign n k : show_N n ≠ lit "-" ++ show_N k.
Proof.
  unfold show_N. intros H.
  assert (Forall (λ c, c ≠ 45%N) (lit (NilZero.string_of_uint (N.to_uint n)))) as Hf.
  { destruct (N.to_uint n); [by repeat constructor|apply (uint_no_sign (_ u))..]. }
  rewrite H in Hf. by inversion Hf.
Qed.
Lemma show_Z_inj z w : show_Z z = show_Z w → z = w.
Proof.
  unfold show_Z. destruct (z <? 0)%Z eqn:Ez, (w <? 0)%Z eqn:Ew; intros H.
  - apply app_inv_head in H. apply show_N_inj in H. lia.
  - symmetry in H. by apply show_N_no_sign in H.
  - by apply show_N_no_sign in H.
  - apply show_N_inj in H. lia.
Qed.

Lemma job_key_inj run run' b b' : job_key run b = job_key run' b' → run = run' ∧ b = b'.
Proof.
  unfold job_key. revert run'. induction run as [|c run IH]; intros [|c' run'] H; simpl in H.
  - injection H as H. by apply show_Z_inj in H.
  - exfalso. injection H as _ H. pose proof (show_Z_no_colon b) as Hf. rewrite H in Hf.
    apply Forall_app in Hf as [_ Hf]. by inversion Hf.
  - exfalso. injection H as _ H. pose proof (show_Z_no_colon b') as Hf. rewrite <-H in Hf.
    apply Forall_app in Hf as [_ Hf]. by inversion Hf.
  - injection H as -> H. by destruct (IH run' H) as [-> ->].
Qed.

(** ** The versions of a run *)
Lemma versions_elem run s v : v ∈ versions run s ↔ is_Some (snapshots s !! (run, v)).
Proof.
  unfold versions. rewrite list_elem_of_omap. split.
  - intros ([[r w] x] & Hx%elem_of_map_to_list & Heq). simpl in Heq.
    case_bool_decide; [|done]. injection Heq as <-. subst r. by exists x.
  - intros [x Hx]. exists ((run, v), x). split; [by apply elem_of_map_to_list|].
    simpl. by rewrite bool_decide_eq_true_2.
Qed.

Lemma foldl_max_spec v vs :
  foldl Z.max v vs ∈ v :: vs ∧ ∀ w, w ∈ v :: vs → (w ≤ foldl Z.max v vs)%Z.
Proof.
  revert v. induction vs as [|x vs IH]; intros v; simpl.
  - split; [by left|]. intros w Hw%list_elem_of_singleton. lia.
  - destruct (IH (Z.max v x)) as [Hin Hle]. split.
    + apply elem_of_cons in Hin as [->|Hin]; [|by do 2 right].
      destruct (Z.max_spec v x) as [[_ ->]|[_ ->]]; [right; by left|by left].
    + intros w Hw. destruct (decide (w ∈ vs)) as [Hvs|Hvs]; [apply Hle; by right|].
      transitivity (Z.max v x); [|apply Hle; by left].
      apply elem_of_cons in Hw as [->|[->|Hw]%elem_of_cons]; [lia..|done].
Qed.

(** The snapshots of every run are numbered from 1 without gaps. *)
Definition store_ok (s : Store) : Prop :=
  ∀ run v, is_Some (snapshots s !! (run, v)) ↔ (1 ≤ v ≤ max_version run s)%Z.

Lemma max_version_nonneg run s : store_ok s → (0 ≤ max_version run s)%Z.
Proof.
  intros Hok. unfold max_version. destruct (versions run s) as [|v vs] eqn:Hvs; [done|].
  destruct (foldl_max_spec v vs) as [Hin _]. rewrite <-Hvs, versions_elem, (Hok run) in Hin.
  lia.
Qed.

Lemma max_version_is run s n :
  (0 ≤ n)%Z → (∀ v, is_Some (snapshots s !! (run, v)) ↔ (1 ≤ v ≤ n)%Z) → max_version run s = n.
Proof.
  intros Hn H. unfold max_version. destruct (versions run s) as [|v vs] eqn:Hvs.
  - destruct (decide (n = 0)%Z) as [->|]; [done|].
    assert (n ∈ versions run s) as Hin by (apply versions_elem, H; lia).
    rewrite Hvs in Hin. by apply elem_of_nil in Hin.
  - destruct (foldl_max_spec v vs) as [Hin Hle]. rewrite <-Hvs in Hin, Hle.
    rewrite versions_elem, H in Hin. apply Z.le_antisymm; [lia|].
    apply Hle. apply versions_elem, H. lia.
Qed.

Lemma load_max run s : store_ok s →
  load_search_snapshot run s =
    if decide (max_version run s = 0)%Z then None else snapshots s !! (run, max_version run s).
Proof.
  intros Hok. unfold load_search_snapshot, max_version.
  destruct (versions run s) as [|v vs] eqn:Hvs; [done|].
  destruct (foldl_max_spec v vs) as [Hin _]. rewrite <-Hvs, versions_elem, (Hok run) in Hin.
  rewrite decide_False by lia. done.
Qed.

(** ** Adding a snapshot *)
Definition add_snapshot (run : str) (x : str) (js : gmap str Job) (s : Store) : Store :=
  {| jobs := js; snapshots := <[(run, (max_version run s + 1)%Z) := x]> (snapshots s) |}.

Lemma max_version_add run x js s run' :
  store_ok s →
  max_version run' (add_snapshot run x js s)
  = (if decide (run' = run) then max_version run s + 1 else max_version run' s)%Z.
Proof.
  intros Hok. pose proof (max_version_nonneg run s Hok). pose proof (max_version_nonneg run' s Hok).
  apply max_version_is; [case_decide; lia|]. intros v. simpl. case_decide as Hr.
  - subst run'. destruct (decide (v = max_version run s + 1)%Z) as [->|Hv].
    + rewrite lookup_insert_eq. split; [lia|by eexists].
    + rewrite lookup_insert_ne by congruence. rewrite (Hok run v). lia.
  - rewrite lookup_insert_ne by congruence. apply Hok.
Qed.
Lemma add_snapshot_ok run x js s : store_ok s → store_ok (add_snapshot run x js s).
Proof.
  intros Hok run' v. rewrite max_version_add by done. simpl.
  pose proof (max_version_nonneg run s Hok). case_decide as Hr.
  - subst run'. destruct (decide (v = max_version run s + 1)%Z) as [->|Hv].
    + rewrite lookup_insert_eq. split; [lia|by eexists].
    + rewrite lookup_insert_ne by congruence. rewrite (Hok run v). lia.
  - rewrite lookup_insert_ne by congruence. apply Hok.
Qed.
Lemma load_add run x js s run' :
  store_ok s →
  load_search_snapshot run' (add_snapshot run x js s)
  = if decide (run' = run) then Some x else load_search_snapshot run' s.
Proof.
  intros Hok. rewrite !load_max; [|done|by apply add_snapshot_ok].
  pose proof (max_version_nonneg run s Hok). rewrite max_version_add by done. destruct (decide (run' = run)) as [Hr|Hr].
  - subst run'. rewrite decide_False by lia. simpl. by rewrite lookup_insert_eq.
  - case_decide; [done|]. simpl. by rewrite lookup_insert_ne by congruence.
Qed.

(** ** Committing *)
Definition commits (run : str) (b previous : Z) (x : str) (s : Store) : Prop :=
  (blen x ≤ 64 * 1024)%N ∧ (0 ≤ previous ∧ previous ≠ 2 ^ 63 - 1)%Z ∧ max_version run s = previous
  ∧ ∃ j, jobs s !! job_key run b = Some j ∧ job_status j = Running.

Lemma commit_cases run b previous x s :
  store_ok s →
  match commit_search_snapshot run b previous x s with
  | Ok s' => commits run b previous x s
      ∧ ∃ j, s' = add_snapshot run x (<[job_key run b := j]> (jobs s)) s ∧ job_status j = Done
  | Err e => ¬ commits run b previous x s
      ∧ ((previous ≠ max_version run s) → e ∈ [SIZE_ERROR; VERSION_ERROR; STALE_ERROR])
  | Panic => previous = (2 ^ 63 - 1)%Z
  end.
Proof.
  intros Hok. unfold commit_search_snapshot, commits.
  destruct (N.leb_spec (blen x) (64 * 1024)) as [Hx|Hx]; cbn [mbind res_bind ensure];
    [|split; [intros (Hx2 & _); by apply N.lt_nge in Hx|set_solver]].
  destruct (0 <=? previous)%Z eqn:Hp; cbn [mbind res_bind ensure]; [|split; [intros (? & ? & ? & _); lia|set_solver]].
  destruct (max_version run s =? previous)%Z eqn:Hv; cbn [mbind res_bind ensure];
    [|split; [intros (? & ? & ? & _); lia|set_solver]].
  apply Z.eqb_eq in Hv. unfold finish_job.
  destruct (jobs s !! job_key run b) as [j|] eqn:Hj; cbn [mbind res_bind ensure Nat.eqb];
    [|split; [intros (_ & _ & _ & j' & ? & ?); congruence|done]].
  case_bool_decide as Hr; cbn [mbind res_bind ensure Nat.eqb]; [|split; [intros (_ & _ & _ & j' & ? & ?); congruence|done]].
  case_decide as Hm; [lia|]. simpl.
  assert (snapshots s !! (run, max_version run s + 1)%Z = None) as ->.
  { apply eq_None_not_Some. rewrite (Hok run). lia. }
  simpl. split; [|by eexists]. split_and!; [done|lia|congruence|done|]. by exists j.
Qed.

(** ** Any interleaving of the operations of any runs *)
Inductive store_op :=
  | OpBegin (run : str) (b : Z)
  | OpFail (run : str) (b : Z) (error : str)
  | OpCommit (run : str) (b previous : Z) (x : str)
  | OpDelete (thread_id : str)
  | OpClear.
Definition no_wildcards (s : str) : Prop := 37%N ∉ s ∧ 95%N ∉ s.
Inductive store_step : store_op → Store → Store → Prop :=
  | step_begin run b s s' : begin_search_extraction run b s = Ok s' → store_step (OpBegin run b) s s'
  | step_fail run b e s : store_step (OpFail run b e) s (fail_search_extraction run b e s)
  | step_commit run b v x s s' :
      commit_search_snapshot run b v x s = Ok s' → store_step (OpCommit run b v x) s s'
  | step_delete id s : no_wildcards id → store_step (OpDelete id) s (delete_thread_memory id s)
  | step_clear s : store_step OpClear s (clear_memory_data s).
Inductive store_steps : list store_op → Store → Store → Prop :=
  | steps_nil s : store_steps [] s s
  | steps_cons op ops s s1 s2 : store_step op s s1 → store_steps ops s1 s2 → store_steps (op :: ops) s s2.

(** The operations that delete the snapshots of a run. *)
Definition deletes (run : str) (op : store_op) : Prop :=
  match op with OpDelete id => id = run | OpClear => True | _ => False end.

Lemma same_snapshots_ok s s' :
  snapshots s' = snapshots s → ∀ run, max_version run s' = max_version run s.
Proof. intros H run. unfold max_version, versions. by rewrite H. Qed.

Lemma finish_job_snapshots key st err s : snapshots (finish_job key st err s).1 = snapshots s.
Proof. unfold finish_job. by repeat case_match. Qed.

Lemma deleted_versions run id s :
  max_version run (delete_thread_memory id s) = if decide (id = run) then 0%Z else max_version run s.
Proof.
  assert (∀ v, v ∈ versions run (delete_thread_memory id s) ↔ v ∈ versions run s ∧ run ≠ id) as Hv.
  { intros v. rewrite !versions_elem. simpl. unfold is_Some. setoid_rewrite map_lookup_filter_Some. naive_solver. }
  unfold max_version. destruct (decide (id = run)) as [->|Hne].
  - destruct (versions run (delete_thread_memory run s)) as [|v vs]; [done|].
    destruct (proj1 (Hv v)); [left|done].
  - destruct (versions run (delete_thread_memory id s)) as [|v vs] eqn:E, (versions run s) as [|v' vs'] eqn:E'; [done|..].
    + assert (v' ∈ []) by (apply Hv; split; [left|done]). by apply elem_of_nil in H.
    + destruct (proj1 (Hv v)) as [H _]; [left|]. by apply elem_of_nil in H.
    + destruct (foldl_max_spec v vs) as [Hin Hle], (foldl_max_spec v' vs') as [Hin' Hle'].
      apply Z.le_antisymm; [apply Hle', Hv, Hin|apply Hle, Hv; by split].
Qed.
Lemma delete_ok id s : store_ok s → store_ok (delete_thread_memory id s).
Proof.
  intros Hok run v. rewrite deleted_versions. simpl. unfold is_Some. setoid_rewrite map_lookup_filter_Some.
  destruct (decide (id = run)) as [->|Hne].
  - split; [by intros (x & _ & ?)|lia].
  - rewrite <-(Hok run v). unfold is_Some. split; [intros (x & ? & _); eauto|]. intros (x & ?). exists x. by split; [|simpl; congruence].
Qed.
Lemma clear_ok s : store_ok (clear_memory_data s).
Proof.
  intros run v. unfold max_version, versions. simpl. rewrite map_to_list_empty, lookup_empty.
  simpl. split; [by intros []|lia].
Qed.

Lemma store_step_ok op s s' :
  store_step op s s' → store_ok s →
  store_ok s' ∧ ∀ run, ¬ deletes run op →
    (max_version run s ≤ max_version run s')%Z
    ∧ ∀ v x, snapshots s !! (run, v) = Some x → snapshots s' !! (run, v) = Some x.
Proof.
  intros Hstep Hok.
  assert (snapshots s' = snapshots s →
    store_ok s' ∧ ∀ run, ¬ deletes run op → (max_version run s ≤ max_version run s')%Z
      ∧ ∀ v x, snapshots s !! (run, v) = Some x → snapshots s' !! (run, v) = Some x) as Hsame.
  { intros Heq. pose proof (same_snapshots_ok _ _ Heq) as Hm. split_and!.
    - intros run v. rewrite Heq, Hm. apply Hok.
    - intros run _. rewrite Hm, Heq. done. }
  destruct Hstep as [run b s s' H|run b e s|run b v x s s' H|id s _|s].
  - apply Hsame. unfold begin_search_extraction in H.
    destruct (_ && _); [|done]. simpl in H. destruct (is_none _); [|done]. by injection H as <-.
  - apply Hsame, finish_job_snapshots.
  - pose proof (commit_cases run b v x s Hok) as Hc. rewrite H in Hc.
    destruct Hc as (Hc & j & -> & _). split; [by apply add_snapshot_ok|]. intros run' _. split.
    + rewrite max_version_add by done. case_decide; [subst; lia|lia].
    + intros v' x' Hx. simpl. rewrite lookup_insert_ne; [done|]. intros [= <- <-].
      assert (is_Some (snapshots s !! (run, (max_version run s + 1)%Z))) as Hs by by eexists.
      rewrite (Hok run) in Hs. lia.
  - split; [by apply delete_ok|]. intros run Hne. simpl in Hne. rewrite deleted_versions, decide_False by done.
    split; [done|]. intros v x Hx. simpl. apply map_lookup_filter_Some. split; [done|]. simpl. congruence.
  - split; [apply clear_ok|]. intros run Hne. by destruct Hne.
Qed.

Lemma store_steps_ok ops s s' :
  store_steps ops s s' → store_ok s →
  store_ok s' ∧ ∀ run, Forall (λ op, ¬ deletes run op) ops →
    (max_version run s ≤ max_version run s')%Z
    ∧ ∀ v x, snapshots s !! (run, v) = Some x → snapshots s' !! (run, v) = Some x.
Proof.
  induction 1 as [s|op ops s s1 s' Hstep _ IH]; intros Hok; [done|].
  destruct (store_step_ok _ _ _ Hstep Hok) as [Hok1 H1]. destruct (IH Hok1) as [Hok2 H2]. split; [done|].
  intros run [Ho Hops]%Forall_cons. destruct (H1 run Ho) as [? ?], (H2 run Hops) as [? ?]. split; [lia|eauto].
Qed.

Definition empty_store : Store := {| jobs := ∅; snapshots := ∅ |}.
Lemma empty_store_ok : store_ok empty_store.
Proof.
  intros run v. unfold max_version, versions. simpl. rewrite map_to_list_empty, lookup_empty.
  simpl. split; [by intros []|lia].
Qed.

(** Committing a snapshot of search memory is a compare-and-swap scoped to
    its run: it succeeds exactly when the snapshot fits, its previous version is
    the run's newest and the batch's extraction is running; it then becomes the
    run's newest snapshot and ends the extraction, and no snapshot or
    extraction of another run or batch is touched.  A failed commit changes
    nothing. *)
Theorem commit_is_compare_and_swap ops run b previous x s :
  store_steps ops empty_store s →
  (is_ok (commit_search_snapshot run b previous x s) = true ↔ commits run b previous x s)
  ∧ ∀ s', commit_search_snapshot run b previous x s = Ok s' →
      load_search_snapshot run s' = Some x ∧ max_version run s' = (previous + 1)%Z
      ∧ (∃ j, jobs s' !! job_key run b = Some j ∧ job_status j = Done)
      ∧ (∀ run' b', (run', b') ≠ (run, b) → jobs s' !! job_key run' b' = jobs s !! job_key run' b')
      ∧ (∀ run', run' ≠ run →
           load_search_snapshot run' s' = load_search_snapshot run' s
           ∧ max_version run' s' = max_version run' s).
Proof.
  intros Hs. destruct (store_steps_ok _ _ _ Hs empty_store_ok) as [Hok _].
  pose proof (commit_cases run b previous x s Hok) as Hc.
  destruct (commit_search_snapshot run b previous x s) as [s1|e|]; simpl.
  - destruct Hc as (Hc & j & -> & Hj). split; [done|]. intros s' [= <-].
    rewrite load_add, max_version_add by done. rewrite !decide_True by done.
    destruct Hc as (_ & _ & -> & _). split_and!; [done..| | |].
    + exists j. simpl. by rewrite lookup_insert_eq.
    + intros run' b' Hne. simpl. rewrite lookup_insert_ne; [done|].
      intros [-> ->]%job_key_inj. done.
    + intros run' Hne. by rewrite load_add, max_version_add, !decide_False by done.
  - destruct Hc as [Hc _]. by split.
  - split; [|done]. split; [done|]. intros (_ & [_ H] & _). done.
Qed.

(** What a deletion leaves of a run. *)
Lemma deleted_run run op s s' :
  store_step op s s' → deletes run op →
  load_search_snapshot run s' = None ∧ ∀ b, jobs s' !! job_key run b = None.
Proof.
  intros Hstep Hd. assert (∀ m : Store, (∀ v, snapshots m !! (run, v) = None) → load_search_snapshot run m = None) as Hload.
  { intros m Hm. unfold load_search_snapshot. destruct (versions run m) as [|v vs] eqn:E; [done|].
    assert (v ∈ versions run m) as [x Hx]%versions_elem by (rewrite E; left). by rewrite Hm in Hx. }
  destruct Hstep as [| | |id s _|s]; [done..| |].
  - simpl in Hd. subst id. split.
    + apply Hload. intros v. simpl. apply map_lookup_filter_None. right. intros x _. simpl. tauto.
    + intros b. simpl. apply map_lookup_filter_None. right. intros j _. simpl. rewrite not_false_iff_true.
      unfold like_prefix. apply starts_with_spec. exists (to_ascii_lowercase (show_Z b)).
      unfold job_key, to_ascii_lowercase. by rewrite !fmap_app, <-app_assoc.
  - split; [apply Hload; intros v|intros b]; apply lookup_empty.
Qed.


(** Two runs: one commits its first snapshot. *)
Definition begun : Store :=
  {| jobs := {[job_key (lit "a") 0 := {| job_status := Running; last_error := None |}]};
     snapshots := ∅ |}.
Lemma begun_reachable : store_steps [OpBegin (lit "a") 0] empty_store begun.
Proof. eapply steps_cons; [by apply (step_begin (lit "a") 0)|constructor]. Qed.

Lemma commit_witness :
  is_ok (commit_search_snapshot (lit "a") 0 0 (lit "first") begun) = true
  ∧ commits (lit "a") 0 0 (lit "first") begun.
Proof.
  split; [by vm_compute|].
  apply (commit_is_compare_and_swap _ (lit "a") 0 0 (lit "first") begun begun_reachable).
  by vm_compute.
Defined.

