(* ===== verification/Controller.v ===== *)
(** * kernel: the controller

    [optimize] of [kernel/src/controller.rs]: a run prepares its task, has the
    reference measured and classified, and then iterates: select a parent,
    collect feedback, run the candidate sessions, evaluate and profile their
    submissions, record the batch in the search tree, update the memory and save
    the winner, until the search is over. *)
From Stdlib Require Import ZArith.
From stdpp Require Import gmap.
From S2P Require Import Prelude Str Float64 Json JsonOps Template Memory Search KernelIo SearchStore MemoryPrompt KernelRoles.

(** ** Pure parts *)

(** [apply_runtime_defaults]: [get_or_insert] on five fields. *)
Definition apply_runtime_defaults (c : SearchConfig) : SearchConfig :=
  {| max_iterations_opt := Some (default 10 (max_iterations_opt c));
     num_candidates_opt := Some (default 3 (num_candidates_opt c));
     max_consecutive_failures := Some (default 3 (max_consecutive_failures c));
     speedup_threshold := Some (default (of_Z (-100)) (speedup_threshold c));
     use_recent_failed_only := Some (default false (use_recent_failed_only c));
     exploration_constant := exploration_constant c;
     pw_alpha := pw_alpha c; pw_c_root := pw_c_root c; pw_c_repair := pw_c_repair c;
     pw_c_optimize := pw_c_optimize c; max_children_per_node := max_children_per_node c |}.
(** The two overrides of the command line. *)
Definition override (its cands : option nat) (c : SearchConfig) : SearchConfig :=
  {| max_iterations_opt := match its with Some n => Some n | None => max_iterations_opt c end;
     num_candidates_opt := match cands with Some n => Some n | None => num_candidates_opt c end;
     max_consecutive_failures := max_consecutive_failures c;
     speedup_threshold := speedup_threshold c; use_recent_failed_only := use_recent_failed_only c;
     exploration_constant := exploration_constant c;
     pw_alpha := pw_alpha c; pw_c_root := pw_c_root c; pw_c_repair := pw_c_repair c;
     pw_c_optimize := pw_c_optimize c; max_children_per_node := max_children_per_node c |}.
Definition default_config : SearchConfig :=
  {| max_iterations_opt := None; num_candidates_opt := None; max_consecutive_failures := None;
     speedup_threshold := None; use_recent_failed_only := None; exploration_constant := None;
     pw_alpha := None; pw_c_root := None; pw_c_repair := None; pw_c_optimize := None;
     max_children_per_node := None |}.

Definition candidate_mode (parent : option NodeId) (tree : SearchState) (candidates : gmap nat Value)
    : result str :=
  match parent with
  | None => Ok (lit "initial")
  | Some i =>
      n ← node tree i;
      if bool_decide (status (outcome n) = Failed) then Ok (lit "repair")
      else if bool_decide (status (outcome n) = Success)
              && is_some_and (λ a, negb (is_empty a))
                   (candidates !! i ≫= λ v, as_object (v.["analysis"]))
      then Ok (lit "optimize")
      else Ok (lit "initial")
  end.

Definition failed_evaluation (validation error : str) : Value :=
  json ["outcome" ↦ json ["status" ↦ jstr "failed"; "speedup" ↦ Null;
          "error_context" ↦ json ["error_type" ↦ jstr "WorkerCrash"; "error_message" ↦ String error]];
        "candidate_seconds" ↦ Null; "profile" ↦ Null; "validation" ↦ String validation].

(** The derived deserialization of [Outcome] ([node.rs]). *)
Section outcomes.
Context (serde_error : Value → str).
Definition status_from_value : Value → result Status :=
  variant serde_error [(lit "pending", Pending); (lit "success", Success); (lit "failed", Failed);
                       (lit "discarded", Discarded)].
Definition speedup_from_value (v : Value) : result (option f64) :=
  match v with
  | Null => Ok None
  | Num n => Ok (Some (number_as_f64 n))
  | _ => Err (serde_error v)
  end.
Definition optional (v : Value) : option Value := if is_null v then None else Some v.
Definition outcome_from_value (v : Value) : result Outcome :=
  let build st sp ec :=
    st ← ok_or st (serde_error v); status ← status_from_value st; speedup ← speedup_from_value sp;
    Ok {| status := status; outcome_speedup := speedup; error_context := optional ec |} in
  match v with
  | Object m =>
      only_fields serde_error [lit "status"; lit "speedup"; lit "error_context"] m v;;
      build (mget m (lit "status")) (default Null (mget m (lit "speedup")))
        (default Null (mget m (lit "error_context")))
  | Array [st; sp] => build (Some st) sp Null
  | Array [st; sp; ec] => build (Some st) sp ec
  | _ => Err (serde_error v)
  end.
End outcomes.

Definition strategy_value (s : Strategy) : Value :=
  match s with Greedy => jstr "greedy" | Mcts => jstr "mcts" end.

Section controller.
Context {E : Type} {D : Disk E} {C : Calls E} {Se : Sessions E} {F : Artifacts E}.
Context (ln : f64 → f64) (powf : f64 → f64 → f64).
Context (to_string : Value → str) (entries_text : list Entry → str) (snapshot_text : Snapshot → str).
Context (read_snapshot : str → result Snapshot) (serde_error : Value → str) (sha256 : str → str).
(** The derived serialization of a configuration. *)
Context (config_value : SearchConfig → Value).
Context (root provider host_model : str) (args : OptimizeArgs).

Abbreviation World := (@World E).

(** ** One candidate *)
Definition evidence_value (i : nat) (evaluated analysis : Value) (session : SessionResult)
    (memory_version : Z) : Value :=
  json ["id" ↦ String (lit "candidate:" ++ show_nat i); "evaluation" ↦ evaluated;
        "analysis" ↦ analysis; "submission" ↦ default Null (value session);
        "session" ↦ session_value session;
        "memory_version" ↦ Num (if (memory_version <? 0)%Z then NegInt memory_version
                                else PosInt (Z.to_N memory_version))].
Definition candidate_dir (i : nat) : str := artifact args (lit "candidates/" ++ show_nat i).

(** What the run knows before it iterates. *)
Record Task := { problem : Value; reference : Value; scenario_value : Value;
                 classification : Value + str }.
Definition bottleneck (t : Task) : option Value :=
  match classification t with inl v => get v (lit "final_bottleneck") | inr _ => None end.
Definition reference_analysis (t : Task) : Value :=
  match classification t with inl v => v | inr _ => Null end.

Definition run_candidate (t : Task) (i iteration index_ : nat) (memory_version : Z)
    (session : SessionResult) : io World Value :=
  let directory := candidate_dir i in
  on_env (create_dir_all directory);;
  save (join directory (lit "session.json")) (DSession session);;
  evaluated ← attempt (evaluate sha256 args (problem t) (reference t) (scenario_value t) session
                         iteration index_ directory);
  evaluated ← match evaluated with
              | inl v => mret v
              | inr e =>
                  save (join directory (lit "evaluation-error.json")) (DValue (String e));;
                  mret (failed_evaluation (backend args) e)
              end;
  analysis ← (if value_eqb (evaluated.["profile"].["success"]) (Bool true) then
                a ← attempt (profile host_model args (problem t) (evaluated.["profile"]) (bottleneck t) i);
                match a with
                | inl v => mret v
                | inr e =>
                    save (join directory (lit "profiling-error.json")) (DValue (String e));; mret Null
                end
              else mret Null);
  let evidence := evidence_value i evaluated analysis session memory_version in
  save (join directory (lit "evidence.json")) (DValue evidence);;
  mret evidence.

(** The loop over the sessions: [first] is [tree.nodes.len()]. *)
Fixpoint run_candidates (t : Task) (first iteration index_ : nat) (memory_version : Z)
    (sessions : list SessionResult) (evidence : list Value) : io World (list Value) :=
  match sessions with
  | [] => mret evidence
  | session :: sessions =>
      if is_some (error session) || is_none (value session) then
        let directory := artifact args (lit "generation-errors") in
        on_env (create_dir_all directory);;
        save (join directory (show_nat iteration ++ lit "-" ++ show_nat index_ ++ lit ".json"))
          (DSession session);;
        run_candidates t first iteration (index_ + 1) memory_version sessions evidence
      else
        v ← run_candidate t (first + length evidence) iteration (length evidence) memory_version session;
        run_candidates t first iteration (index_ + 1) memory_version sessions (evidence ++ [v])
  end.

(** ** One iteration *)
Record Run := { tree : SearchState; candidates : gmap nat Value; snapshot : Snapshot }.

Definition parent_context (parent : option NodeId) (candidates : gmap nat Value) : Value :=
  jopt (λ v, json ["submission" ↦ v.["submission"]; "outcome" ↦ v.["evaluation"].["outcome"];
                   "analysis" ↦ v.["analysis"]; "validation" ↦ v.["evaluation"].["validation"]])
    (parent ≫= λ i, candidates !! i).

Definition SUBMISSION : str :=
  lit "Return one complete CodeCompletion. Evaluation is controller-owned; do not run full candidate evaluation or modify evaluator rules. Use native file/search tools for source research. No delegation or sibling communication.".

Definition candidate_spec (t : Task) (iteration : nat) (mode : str) (parent feedback : Value)
    (s : Snapshot) (index_ : nat) : SessionSpec :=
  {| spec_role := lit "candidate"; spec_model := host_model;
     spec_cwd := workspace args (lit "candidate-" ++ show_nat iteration ++ lit "-" ++ show_nat index_);
     spec_instructions := default [] (as_str (at_key ((problem t).["instructions"]) mode));
     spec_input := to_string (json ["reference" ↦ (problem t).["canonical_solution"];
       "task" ↦ (problem t).["description"]; "parent" ↦ parent;
       "reference_analysis" ↦ reference_analysis t;
       "memory" ↦ String (if memory_off args then [] else context entries_text s root);
       "feedback" ↦ feedback.["text"]; "submission" ↦ String SUBMISSION]);
     spec_schema := (problem t).["schemas"].["candidate"]; spec_tools := []; spec_evidence := Null |}.

(** [for (id, evidence) in ids.iter().zip(&batch)]. *)
Definition insert_evidence (ids : list NodeId) (evidence : list Value) (m : gmap nat Value) : gmap nat Value :=
  foldl (λ m e, <[e.1 := e.2]> m) m (zip ids evidence).

(** The end of an iteration that touches the memory. *)
Definition refresh_memory (iteration : nat) (evidence : list Value) (s : Snapshot) : io World Snapshot :=
  if memory_off args then mret s
  else
    r ← attempt (update_memory to_string entries_text snapshot_text serde_error root host_model args
                   iteration evidence s);
    s ← match r with
        | inl next => mret next
        | inr e =>
            save (artifact args (lit "memory-error-" ++ show_nat iteration ++ lit ".json"))
              (DValue (String e));; mret s
        end;
    st ← gets store;
    match st ≫= load_search_snapshot root with
    | Some stored =>
        s ← lift (read_snapshot stored);
        save (artifact args (lit "memory.json")) (DSnapshot s);;
        mret s
    | None => mret s
    end.

Definition winner_value (w : option NodeId) (candidates : gmap nat Value) : Value :=
  json ["node" ↦ jopt jnat w; "evidence" ↦ default Null (w ≫= λ i, candidates !! i);
        "validation" ↦ String (backend args)].

Definition iterate (t : Task) (run : Run) : io World (Run * bool) :=
  let iteration := current_iteration (tree run) in
  '(tr, parent) ← lift (if decide (iteration = 0) then Ok (tree run, None) else select ln powf (tree run));
  mode ← lift (candidate_mode parent tr (candidates run));
  let context := parent_context parent (candidates run) in
  feedback ← on_env (call (lit "feedback")
    (json ["parent" ↦ context; "mode" ↦ String mode; "hint" ↦ jopt String (hint args)]));
  sessions ← on_env (batch
    (candidate_spec t iteration mode context feedback (snapshot run) <$> seq 0 (num_candidates (config tr))));
  evidence ← run_candidates t (length (nodes tr)) iteration 0 (version (snapshot run)) sessions [];
  lift (ensure (negb (is_empty evidence))
          (lit "all candidate sessions failed in iteration " ++ show_nat iteration));;
  outcomes ← lift (res_mapM (λ v, outcome_from_value serde_error (v.["evaluation"].["outcome"])) evidence);
  '(tr, ids) ← lift (record_batch ln tr parent outcomes);
  let cands := insert_evidence ids evidence (candidates run) in
  save (artifact args (lit "tree.json")) (DTree tr);;
  s ← refresh_memory iteration evidence (snapshot run);
  w ← lift (winner tr);
  save (artifact args (lit "winner.json")) (DValue (winner_value w cands));;
  go ← lift (should_continue tr);
  mret ({| tree := tr; candidates := cands; snapshot := s |}, go).

(** [loop]: with fuel; without fuel left it would panic. *)
Fixpoint iterations_loop (fuel : nat) (t : Task) (run : Run) : io World Run :=
  match fuel with
  | 0 => lift Panic
  | S fuel =>
      '(run, go) ← iterate t run;
      if (go : bool) then iterations_loop fuel t run else mret run
  end.

(** ** [optimize] *)
Definition configure : io World SearchState :=
  let strategy := if str_eqb (arg_strategy args) (lit "mcts") then Mcts else Greedy in
  c ← match search_config args with
      | Some path => on_env (read_config path)
      | None => mret default_config
      end;
  let c := override (iterations args) (candidates_arg args) (apply_runtime_defaults c) in
  lift (ensure (bool_decide (0 < num_candidates c)) (lit "at least one candidate is required"));;
  lift (new strategy c).

Definition run_value (tr : SearchState) (problem : Value) : Value :=
  json ["root_thread_id" ↦ String root; "provider" ↦ String provider; "model" ↦ String host_model;
    "reference_model" ↦ String (default host_model (reference_model args));
    "profile_model" ↦ String (default host_model (profile_model args));
    "memory_model" ↦ String (default host_model (memory_model args));
    "strategy" ↦ strategy_value (strategy tr); "search_config" ↦ config_value (config tr);
    "evaluator" ↦ String (backend args); "profiling" ↦ String (profiling args);
    "ncu_full" ↦ Bool (ncu_full args); "memory_off" ↦ Bool (memory_off args);
    "task_sha256" ↦ problem.["sha256"]].

Definition prepare_task (tr : SearchState) : io World Task :=
  sc ← match scenario args with
       | Some path => on_env (read_value path)
       | None => mret Null
       end;
  gpu ← lift (index (gpus args) 0);
  problem ← on_env (call (lit "prepare")
    (json ["dataset_root" ↦ String (dataset_root args); "dataset" ↦ String (dataset args);
           "task" ↦ String (task args); "level" ↦ jnat (level args);
           "backend" ↦ String (backend args); "cutlass_root" ↦ jopt String (cutlass_root args);
           "gpu_id" ↦ jnat gpu]));
  save (artifact args (lit "task.json")) (DValue problem);;
  save (artifact args (lit "run.json")) (DValue (run_value tr problem));;
  reference ← on_env (call (lit "reference")
    (json ["backend" ↦ String (backend args); "problem" ↦ problem;
           "output_dir" ↦ String (artifact args (lit "reference"));
           "fixture" ↦ sc.["reference"]; "ncu_full" ↦ Bool (ncu_full args); "gpu_id" ↦ jnat gpu]));
  save (artifact args (lit "reference.json")) (DValue reference);;
  cl ← attempt (classify host_model args problem reference);
  save (artifact args (lit "classification.json"))
    (DValue (json ["analysis" ↦ match cl with inl v => v | inr _ => Null end;
                   "error" ↦ match cl with inl _ => Null | inr e => String e end]));;
  mret {| problem := problem; reference := reference; scenario_value := sc; classification := cl |}.

Definition optimize : io World Run :=
  tr ← configure;
  t ← prepare_task tr;
  iterations_loop (1 `max` max_iterations (config tr) (strategy tr)) t
    {| tree := tr; candidates := ∅; snapshot := default_snapshot |}.
End controller.
