(* ===== verification/ControllerProps.v ===== *)
(** * kernel: what a run guarantees

    A run never panics and stops within its budget; it keeps one piece of
    evidence per node of its search tree, with the node's outcome, saved under
    the node's identifier; and its memory is the newest snapshot of the
    database. *)
From Stdlib Require Import ZArith.
From stdpp Require Import gmap.
From S2P Require Import Prelude Str Float64 Json JsonOps Template Memory Search SearchTree SearchBatch SearchProps.
From S2P Require Import KernelIo SearchStore MemoryPrompt KernelRoles Controller.

(** The promises of the interfaces: no effect panics, [batch] answers every
    session, a validated profile is an object, and budgets of iterations read
    from a file fit an [i64]. *)
Class EnvLaws (E : Type) {D : Disk E} {C : Calls E} {Se : Sessions E} {F : Artifacts E} := {
  env_create d e : (create_dir_all d e).2 ≠ Panic;
  env_write d s e : (write_file d s e).2 ≠ Panic;
  env_json p d e : (write_json p d e).2 ≠ Panic;
  env_rename p q e : (rename p q e).2 ≠ Panic;
  env_config p e : (read_config p e).2 ≠ Panic;
  env_value p e : (read_value p e).2 ≠ Panic;
  env_call o p e : (call o p e).2 ≠ Panic;
  env_batch specs e : (batch specs e).2 ≠ Panic;
  batch_answers specs e rs : (batch specs e).2 = Ok rs → Forall2 answers specs rs;
  profile_object p e v :
    p.["role"] = jstr "profile" → (call (lit "validate") p e).2 = Ok v → is_object v = true;
  config_bounded p e c n :
    (read_config p e).2 = Ok c → max_iterations_opt c = Some n → (Z.of_nat n < 2 ^ 63 - 1)%Z;
}.

Section quiet.
Context {E : Type} {D : Disk E} {C : Calls E} {Se : Sessions E} {F : Artifacts E} {L : EnvLaws E}.
Abbreviation World := (@World E).

(** The database satisfies [Φ] and the artifacts [sv] have been saved. *)
Definition holding (Φ : option Store → Prop) (sv : list (str * Document)) (w : World) : Prop :=
  Φ (store w) ∧ sv ⊆ saved w.

(** A computation that leaves the database alone and only adds artifacts. *)
Definition quiet {A} (m : io World A) (Q : A → Prop) : Prop :=
  ∀ Φ sv, spec (holding Φ sv) m (λ a w, Q a ∧ holding Φ sv w) (holding Φ sv).

Lemma quiet_spec {A} (m : io World A) Q Φ sv :
  quiet m Q → spec (holding Φ sv) m (λ a w, Q a ∧ holding Φ sv w) (holding Φ sv).
Proof. intros H. apply H. Qed.
Lemma quiet_bind {A B} (m : io World A) (f : A → io World B) R Q :
  quiet m R → (∀ a, R a → quiet (f a) Q) → quiet (a ← m; f a) Q.
Proof.
  intros Hm Hf Φ sv. eapply spec_bind; [apply Hm|]. intros a. apply spec_pure. intros Ha. by apply Hf.
Qed.
Lemma quiet_ret {A} (a : A) (Q : A → Prop) : Q a → quiet (mret a) Q.
Proof. by intros HQ Φ sv w Hw. Qed.
Lemma quiet_lift {A} (r : result A) (Q : A → Prop) :
  r ≠ Panic → (∀ a, r = Ok a → Q a) → quiet (lift r) Q.
Proof. intros Hr HQ Φ sv. apply spec_lift; [done| |done]. intros a w Ha Hw. split; [by apply HQ|done]. Qed.
Lemma quiet_env {A} (m : io E A) (Q : A → Prop) :
  (∀ e, (m e).2 ≠ Panic) → (∀ e a, (m e).2 = Ok a → Q a) → quiet (on_env m) Q.
Proof.
  intros Hm HQ Φ sv w Hw. unfold on_env. specialize (Hm (env w)). specialize (HQ (env w)).
  destruct (m (env w)) as [e [a|x|]]; [|done..]. split; [by apply HQ|done].
Qed.
Lemma quiet_attempt {A} (m : io World A) (Q : A → Prop) :
  quiet m Q → quiet (attempt m) (λ r, match r with inl a => Q a | inr _ => True end).
Proof.
  intros Hm Φ sv. apply spec_attempt. eapply spec_weaken; [apply Hm|done|done|]. by intros w Hw e.
Qed.
Lemma quiet_weaken {A} (m : io World A) (R Q : A → Prop) : quiet m R → (∀ a, R a → Q a) → quiet m Q.
Proof. intros Hm HQ Φ sv. eapply spec_weaken; [apply Hm|done| |done]. intros a w [Ha Hw]. split; [by apply HQ|done]. Qed.

Lemma spec_save p d Φ sv :
  spec (holding Φ sv) (save p d) (λ _, holding Φ ((p, d) :: sv)) (holding Φ sv).
Proof.
  unfold save.
  eapply spec_bind; [apply (quiet_env _ (λ _, True)); [apply env_json|done]|]. intros ?. apply spec_pure. intros _.
  eapply spec_bind; [apply (quiet_env _ (λ _, True)); [apply env_rename|done]|]. intros ?. apply spec_pure. intros _.
  apply spec_modify. intros w [HΦ Hsv]. split; [done|]. simpl. set_solver.
Qed.
Lemma quiet_save p d : quiet (save p d) (λ _, True).
Proof.
  intros Φ sv. eapply spec_weaken; [apply spec_save|done| |done].
  intros ? w [HΦ Hsv]. split; [done|]. split; [done|]. set_solver.
Qed.
Lemma quiet_call o p : quiet (on_env (call o p)) (λ _, True).
Proof. apply quiet_env; [apply env_call|done]. Qed.
Lemma quiet_batch specs : quiet (on_env (batch specs)) (λ rs, Forall2 answers specs rs).
Proof. apply quiet_env; [apply env_batch|apply batch_answers]. Qed.
Lemma quiet_create d : quiet (on_env (create_dir_all d)) (λ _, True).
Proof. apply quiet_env; [apply env_create|done]. Qed.
Lemma quiet_write d s : quiet (on_env (write_file d s)) (λ _, True).
Proof. apply quiet_env; [apply env_write|done]. Qed.
Lemma quiet_ensure c e : quiet (lift (ensure c e)) (λ _, c = true).
Proof. apply quiet_lift; [apply ensure_returns|]. by intros [] ?%ensure_Ok. Qed.
Lemma quiet_ok_or {A} (o : option A) e : quiet (lift (ok_or o e)) (λ a, o = Some a).
Proof. apply quiet_lift; [apply ok_or_returns|]. by intros a ?%ok_or_Ok. Qed.

(** The one session of a role has its submission. *)
Lemma quiet_first s rs :
  Forall2 answers [s] rs → quiet (lift (first_session rs)) (λ r, answers s r).
Proof.
  intros H. inversion H as [|? r ? ? Hr Hrest]; subst. inversion Hrest; subst.
  apply quiet_lift; [done|]. by intros r' [= <-].
Qed.
End quiet.

(** Run through a quiet computation, one step at a time. *)
Ltac quiet_step :=
  first
    [ apply quiet_save | apply quiet_call | apply quiet_batch | apply quiet_create
    | apply quiet_write | apply quiet_ensure | apply quiet_ok_or | apply quiet_attempt
    | eapply quiet_first; eassumption ].
Ltac quiet_next := eapply quiet_bind; [quiet_step|]; intros ? ?.
Ltac quiet_seq := repeat quiet_next.

Section run.
Context {E : Type} {D : Disk E} {C : Calls E} {Se : Sessions E} {F : Artifacts E} {L : EnvLaws E}.
Context (ln : f64 → f64) (powf : f64 → f64 → f64).
Context (to_string : Value → str) (entries_text : list Entry → str) (snapshot_text : Snapshot → str).
Context (read_snapshot : str → result Snapshot) (serde_error : Value → str) (sha256 : str → str).
Context (config_value : SearchConfig → Value).
Context (root provider host_model : str) (args : OptimizeArgs).
Abbreviation World := (@World E).

(** ** The roles *)
Lemma classify_quiet problem reference :
  quiet (classify (E := E) host_model args problem reference) (λ _, True).
Proof. unfold classify. quiet_seq. by apply quiet_ret. Qed.

Lemma evaluate_quiet problem reference sc session it ix dir :
  gpus args ≠ [] →
  quiet (evaluate (E := E) sha256 args problem reference sc session it ix dir) (λ _, True).
Proof.
  intros Hg. unfold evaluate. destruct (error session); [by apply quiet_ret|]. quiet_seq.
  eapply (quiet_bind _ _ (λ _, True)); [|intros ? _; quiet_step].
  rewrite decide_False by by destruct (gpus args). apply quiet_lift; [|done].
  assert (ix mod length (gpus args) < length (gpus args)) as [g Hi]%lookup_lt_is_Some
    by (apply Nat.mod_upper_bound; by destruct (gpus args)).
  by rewrite (index_Ok _ _ _ Hi).
Qed.

Lemma set_key_object v k x : is_object v = true → ∃ v', set_key v k x = Ok v' ∧ is_object v' = true.
Proof. destruct v; try done. intros _. by eexists. Qed.

Lemma profile_quiet problem report b i :
  quiet (profile (E := E) host_model args problem report b i) (λ _, True).
Proof.
  unfold profile. do 5 quiet_next.
  eapply (quiet_bind _ _ (λ v, is_object v = true)).
  { apply quiet_env; [apply env_call|]. intros e v. by apply profile_object. }
  intros v Hv. destruct (set_key_object v (lit "rule_recommendations") (report.["rule_recommendations"]) Hv)
    as (v1 & -> & Hv1).
  eapply (quiet_bind _ _ (λ v', v' = v1)); [by apply quiet_lift; [|by intros ? [= <-]]|]. intros ? ->.
  edestruct (set_key_object v1) as (v2 & Hv2 & _); [done|]. rewrite Hv2. by apply quiet_lift.
Qed.

(** ** Candidates *)
Definition evidence_path (i : nat) : str := join (candidate_dir args i) (lit "evidence.json").
Definition evidence_id (i : nat) : Value := String (lit "candidate:" ++ show_nat i).

Lemma run_candidate_ok t i it ix ver session Φ sv :
  gpus args ≠ [] →
  spec (holding Φ sv) (run_candidate (E := E) sha256 host_model args t i it ix ver session)
    (λ v w, v.["id"] = evidence_id i ∧ holding Φ ((evidence_path i, DValue v) :: sv) w) (holding Φ sv).
Proof.
  intros Hg. unfold run_candidate.
  eapply spec_bind; [apply quiet_create|]. intros ?. apply spec_pure. intros _.
  eapply spec_bind; [apply quiet_save|]. intros ?. apply spec_pure. intros _.
  eapply spec_bind; [apply quiet_attempt, (evaluate_quiet _ _ _ _ _ _ _ Hg)|]. intros r. apply spec_pure. intros _.
  eapply (spec_bind _ _ _ (λ _ w, True ∧ holding Φ sv w)).
  { destruct r as [v|e]; [by apply quiet_ret|]. apply quiet_spec. quiet_seq. by apply quiet_ret. }
  intros evaluated. apply spec_pure. intros _.
  eapply (spec_bind _ _ _ (λ _ w, True ∧ holding Φ sv w)).
  { destruct (value_eqb _ _); [|by apply quiet_ret]. apply quiet_spec.
    eapply quiet_bind; [apply quiet_attempt, profile_quiet|]. intros [v|e] _; [by apply quiet_ret|].
    quiet_seq. by apply quiet_ret. }
  intros analysis. apply spec_pure. intros _.
  eapply spec_bind; [apply spec_save|]. intros ?. by intros w Hw.
Qed.

(** The artifacts of the evidence of a batch whose first node is [first]. *)
Definition evidence_docs (first : nat) (l : list Value) : list (str * Document) :=
  imap (λ k v, (evidence_path (first + k), DValue v)) l.
Definition identified (first : nat) (l : list Value) : Prop :=
  ∀ k v, l !! k = Some v → v.["id"] = evidence_id (first + k).

Lemma run_candidates_ok t first it ix ver sessions l Φ sv :
  gpus args ≠ [] → identified first l →
  spec (holding Φ (evidence_docs first l ++ sv))
    (run_candidates (E := E) sha256 host_model args t first it ix ver sessions l)
    (λ l' w, (identified first l' ∧ length l' ≤ length l + length sessions)
             ∧ holding Φ (evidence_docs first l' ++ sv) w) (λ _, True).
Proof.
  intros Hg. revert ix l. induction sessions as [|s sessions IH]; intros ix l Hl; simpl.
  { intros w Hw. split; [|done]. split; [done|lia]. }
  destruct (is_some (error s) || is_none (value s)).
  - eapply spec_bind; [eapply spec_weaken; [apply quiet_create|done..]|]. intros ?. apply spec_pure. intros _.
    eapply spec_bind; [eapply spec_weaken; [apply quiet_save|done..]|]. intros ?. apply spec_pure. intros _.
    eapply spec_weaken; [by apply IH|done| |done]. intros l' w [[? ?] ?]. split; [|done]. split; [done|lia].
  - eapply spec_bind; [eapply spec_weaken; [by apply run_candidate_ok|done..]|]. intros v. apply spec_pure.
    intros Hid. eapply spec_weaken; [apply (IH (ix + 1) (l ++ [v]))| | |done].
    + intros k v' [Hk|[Hge Hk]]%lookup_app_Some; [by apply Hl|].
      destruct (k - length l) as [|n] eqn:Ek; [|done]. injection Hk as <-.
      by replace k with (length l) by lia.
    + intros w [HΦ Hsv]. split; [done|]. unfold evidence_docs. rewrite imap_app. simpl.
      rewrite Nat.add_0_r. set_solver.
    + intros l' w [[? Hlen] ?]. rewrite length_app in Hlen. simpl in Hlen. split; [|done]. split; [done|lia].
Qed.

(** ** Memory *)
Lemma merge_version s b fs gs known :
  version s ≠ I64_MAX →
  match merge s b fs gs known with
  | Ok next => version next = (version s + 1)%Z
  | Err _ => True
  | Panic => False
  end.
Proof.
  intros Hv. unfold merge.
  pose proof (absorb_all_spec known b (((λ f, (f, false)) <$> fs) ++ ((λ f, (f, true)) <$> gs)) (entries s)) as Habs.
  destruct (decide _); [|by destruct Habs as (? & ? & ? & ? & _ & _ & _ & ->)].
  rewrite Habs. cbn [mbind res_bind]. set (all := absorb_fold b (entries s) _).
  destruct (cut_sections_spec CATEGORIES all categories_nodup) as (es & -> & _).
  by rewrite decide_False.
Qed.

(** The run's memory is the newest snapshot of the database, if there is one. *)
Definition coherent (s : Snapshot) (st : Store) : Prop :=
  store_ok st ∧ max_version root st = version s
  ∧ load_search_snapshot root st = if decide (version s = 0)%Z then None else Some (snapshot_text s).
Definition mem_ok (s : Snapshot) (o : option Store) : Prop :=
  match o with Some st => coherent s st | None => version s = 0%Z end.

Lemma coherent_jobs s st st' : snapshots st' = snapshots st → coherent s st → coherent s st'.
Proof.
  intros Heq (Hok & Hm & Hl). pose proof (same_snapshots_ok _ _ Heq) as Hmax. split_and!.
  - intros run v. rewrite Heq, Hmax. apply Hok.
  - by rewrite Hmax.
  - rewrite <-Hl. unfold load_search_snapshot, versions. by rewrite Heq.
Qed.

Lemma coherent_commit s next b st :
  (version next = version s + 1)%Z → version s ≠ I64_MAX → coherent s st →
  match commit_search_snapshot root b (version s) (snapshot_text next) st with
  | Ok st' => coherent next st'
  | Err _ => True
  | Panic => False
  end.
Proof.
  intros Hnext Hmax (Hok & Hm & Hl). pose proof (commit_cases root b (version s) (snapshot_text next) st Hok) as Hc.
  destruct (commit_search_snapshot _ _ _ _ _) as [st'|e|]; [|done|done].
  destruct Hc as (_ & j & -> & _). pose proof (max_version_nonneg root st Hok). split_and!.
  - by apply add_snapshot_ok.
  - rewrite max_version_add, decide_True by done. lia.
  - rewrite load_add, decide_True by done. by rewrite decide_False by lia.
Qed.

Lemma spec_on_store f (Φ Ψ : option Store → Prop) sv :
  ¬ Φ None →
  (∀ st, Φ (Some st) → match f st with Ok st' => Ψ (Some st') | Err _ => True | Panic => False end) →
  spec (holding Φ sv) (on_store (E := E) f) (λ _, holding Ψ sv) (holding Φ sv).
Proof.
  intros HN Hf w [HΦ Hsv]. unfold on_store. destruct (store w) as [st|] eqn:Hst; [|done].
  specialize (Hf st HΦ). destruct (f st) as [st'|e|]; [by split|split; [by rewrite Hst|done]|done].
Qed.

Definition with_db (s : Snapshot) (o : option Store) : Prop := ∃ st, o = Some st ∧ coherent s st.

Abbreviation extract := (extract (E := E) to_string entries_text snapshot_text serde_error root host_model args).
Abbreviation update_memory := (update_memory (E := E) to_string entries_text snapshot_text serde_error root host_model args).
Abbreviation refresh_memory := (refresh_memory (E := E) to_string entries_text snapshot_text read_snapshot serde_error root host_model args).

Lemma extract_ok it l s sv :
  version s ≠ I64_MAX →
  spec (holding (with_db s) sv) (extract it l s)
    (λ next w, (version next = version s + 1)%Z ∧ holding (with_db next) sv w) (holding (with_db s) sv).
Proof.
  intros Hv. unfold KernelRoles.extract.
  eapply spec_bind; [apply (quiet_lift _ (λ _, True)); [apply extraction_input_returns|done]|].
  intros ?. apply spec_pure. intros _.
  eapply spec_bind; [apply quiet_batch|]. intros rs. apply spec_pure. intros Hrs.
  eapply spec_bind; [eapply quiet_first; exact Hrs|]. intros r. apply spec_pure. intros _.
  eapply spec_bind; [apply quiet_save|]. intros ?. apply spec_pure. intros _.
  eapply spec_bind; [apply quiet_ok_or|]. intros v. apply spec_pure. intros _.
  eapply spec_bind; [apply (quiet_lift _ (λ _, True)); [apply findings_from_value_returns|done]|].
  intros fs. apply spec_pure. intros _.
  pose proof (merge_version s it fs (fact to_string <$> l) (evidence_ids l) Hv) as Hm.
  eapply (spec_bind _ _ _ (λ next w, (version next = version s + 1)%Z ∧ holding (with_db s) sv w)).
  { apply quiet_lift; [by destruct (merge _ _ _ _ _)|]. intros next Hn. by rewrite Hn in Hm. }
  intros next. apply spec_pure. intros Hnext.
  eapply (spec_bind _ _ _ (λ _, holding (with_db next) sv)); [|by intros ? w Hw].
  apply spec_on_store; [by intros (? & ? & _)|].
  intros st (st1 & [= <-] & Hco). pose proof (coherent_commit s next (Z.of_nat it) st Hnext Hv Hco) as Hc.
  destruct (commit_search_snapshot _ _ _ _ _); [by eexists|done..].
Qed.

(** After an attempt to extract. *)
Definition extracted (s : Snapshot) sv (r : Snapshot + str) (w : World) : Prop :=
  match r with
  | inl next => (version next = version s + 1)%Z ∧ holding (with_db next) sv w
  | inr _ => holding (with_db s) sv w
  end.

Lemma update_memory_ok it l s sv :
  version s ≠ I64_MAX →
  spec (holding (mem_ok s) sv) (update_memory it l s)
    (λ next w, (version next = version s + 1)%Z ∧ holding (mem_ok next) sv w) (holding (mem_ok s) sv).
Proof.
  intros Hv. unfold KernelRoles.update_memory.
  apply (spec_bind _ _ _ (λ o w, o = store w ∧ holding (mem_ok s) sv w)); [by apply spec_gets|]. intros o.
  assert (∀ w : World, holding (with_db s) sv w → holding (mem_ok s) sv w) as Hmem.
  { intros w [(st & Hst & Hco) Hsv]. split; [by rewrite Hst|done]. }
  eapply (spec_bind _ _ _ (λ _, holding (with_db s) sv)).
  { apply spec_lift; [apply ensure_returns| |by intros w [_ Hw]].
    intros [] w Hs%ensure_Ok [-> [Hm Hsv]]. split; [|done]. destruct (store w) as [st|]; [by exists st|done]. }
  intros ?. eapply (spec_bind _ _ _ (λ _, holding (with_db s) sv)).
  { eapply spec_weaken; [apply (spec_on_store _ (with_db s) (with_db s) sv)|done|done|exact Hmem].
    - by intros (? & ? & _).
    - intros st (st1 & [= <-] & Hco). unfold begin_search_extraction.
      destruct (_ && _); [|done]. cbn [ensure mbind res_bind]. destruct (is_none _); [|done].
      simpl. eexists. split; [done|]. by eapply coherent_jobs. }
  intros ?. eapply (spec_bind _ _ _ (extracted s sv)).
  { apply spec_attempt. eapply spec_weaken; [by apply extract_ok|done|done|]. by intros w Hw e. }
  intros [next|e].
  - intros w [Hn [(st & Hst & Hco) Hsv]]. split; [done|]. split; [by rewrite Hst|done].
  - eapply (spec_bind _ _ _ (λ _, holding (with_db s) sv)).
    + eapply spec_weaken; [apply (spec_on_store _ (with_db s) (with_db s) sv)|done|done|exact Hmem].
      * by intros (? & ? & _).
      * intros st (st1 & [= <-] & Hco). eexists. split; [done|].
        eapply coherent_jobs; [|done]. apply finish_job_snapshots.
    + intros ?. by apply spec_lift.
Qed.

Lemma refresh_memory_ok it l s sv :
  (∀ s, read_snapshot (snapshot_text s) = Ok s) → version s ≠ I64_MAX →
  spec (holding (mem_ok s) sv) (refresh_memory it l s)
    (λ s' w, (version s ≤ version s' ≤ version s + 1)%Z ∧ holding (mem_ok s') sv w) (λ _, True).
Proof.
  intros Hread Hv. unfold Controller.refresh_memory.
  destruct (memory_off args); [by intros w Hw; split; [lia|]|].
  eapply (spec_bind _ _ _ (λ r w, match r with
      | inl next => (version next = version s + 1)%Z ∧ holding (mem_ok next) sv w
      | inr _ => holding (mem_ok s) sv w end)).
  { apply spec_attempt. eapply spec_weaken; [by apply update_memory_ok|done|done|]. by intros w Hw e. }
  intros r. eapply (spec_bind _ _ _ (λ s' w, (version s ≤ version s' ≤ version s + 1)%Z ∧ holding (mem_ok s') sv w)).
  { destruct r as [next|e].
    - intros w [Hn Hw]. split; [lia|done].
    - eapply spec_bind; [eapply spec_weaken; [apply quiet_save|done..]|]. intros ?. apply spec_pure. intros _.
      intros w Hw. split; [lia|done]. }
  intros s'. apply spec_pure. intros Hs'.
  apply (spec_bind _ _ _ (λ o w, o = store w ∧ holding (mem_ok s') sv w)); [by apply spec_gets|]. intros o.
  intros w [-> [Hm Hsv]]. destruct (store w) as [st|] eqn:Hst; simpl; [|by split; [|split; [rewrite Hst|]]].
  destruct Hm as (Hok & Hmax & Hl). rewrite Hl.
  assert (holding (mem_ok s') sv w) as Hw by (split; [by rewrite Hst|done]).
  destruct (decide (version s' = 0)%Z) as [H0|Hn]; [by split|].
  unfold mbind at 1, io_bind at 1. rewrite Hread. unfold lift. unfold mbind at 1, io_bind at 1.
  pose proof (quiet_save (artifact args (lit "memory.json")) (DSnapshot s') (mem_ok s') sv w Hw) as Hsave.
  destruct (save _ _ w) as [w' [[]|x|]]; [|done..]. split; [done|]. apply Hsave.
Qed.

(** ** One iteration *)
Lemma outcome_from_value_returns v : outcome_from_value serde_error v ≠ Panic.
Proof.
  unfold outcome_from_value, only_fields, ensure, status_from_value, variant, speedup_from_value, ok_or.
  repeat (case_match; cbn [mbind res_bind]; try done).
Qed.

Abbreviation outcome_of := (λ v : Value, outcome_from_value serde_error (v.["evaluation"].["outcome"])).

(** The evidence of a node: it names the node and has its outcome. *)
Definition evidence_for (i : nat) (v : Value) (ns : list Node) : Prop :=
  v.["id"] = evidence_id i ∧ ∃ o, outcome_of v = Ok o ∧ (outcome <$> ns) !! i = Some o.

Record run_ok (run : Run) : Prop := {
  run_tree : state_ok ln (tree run);
  run_covers : ∀ i, is_Some (candidates run !! i) ↔ 0 < i < length (nodes (tree run));
  run_evidence : ∀ i v, candidates run !! i = Some v → evidence_for i v (nodes (tree run));
  run_version : (0 ≤ version (snapshot run) ≤ Z.of_nat (current_iteration (tree run)))%Z;
}.

Lemma insert_evidence_lookup first l m i :
  insert_evidence (seq first (length l)) l m !! i =
    if decide (first ≤ i < first + length l) then l !! (i - first) else m !! i.
Proof.
  unfold insert_evidence. revert first m. induction l as [|v l IH]; intros first m; simpl.
  { rewrite decide_False by lia. done. }
  rewrite IH. destruct (decide (i = first)) as [->|Hne].
  - rewrite decide_False by lia. rewrite decide_True by lia. by rewrite lookup_insert_eq, Nat.sub_diag.
  - destruct (decide (S first ≤ i < S first + length l)).
    + rewrite decide_True by lia. replace (i - first) with (S (i - S first)) by lia. done.
    + rewrite decide_False by lia. by rewrite lookup_insert_ne.
Qed.

(** Recording a batch and its evidence. *)
Lemma record_evidence tr tr' (m : gmap nat Value) l os :
  0 < length (nodes tr) →
  (∀ i, is_Some (m !! i) ↔ 0 < i < length (nodes tr)) →
  (∀ i v, m !! i = Some v → evidence_for i v (nodes tr)) →
  identified (length (nodes tr)) l → Forall2 (λ v o, outcome_of v = Ok o) l os →
  outcome <$> nodes tr' = (outcome <$> nodes tr) ++ os →
  let m' := insert_evidence (seq (length (nodes tr)) (length os)) l m in
  (∀ i, is_Some (m' !! i) ↔ 0 < i < length (nodes tr'))
  ∧ ∀ i v, m' !! i = Some v → evidence_for i v (nodes tr').
Proof.
  intros Hpos Hdom Hev Hid Hos Hout m'. unfold m'. clear m'.
  pose proof (Forall2_length _ _ _ Hos) as Hlen. rewrite <-Hlen.
  assert (length (nodes tr') = length (nodes tr) + length l) as Hlen'.
  { rewrite <-(length_fmap outcome), Hout, length_app, length_fmap. lia. }
  split; intros i; [|intros v]; rewrite insert_evidence_lookup; destruct (decide _) as [Hi|Hi].
  - rewrite lookup_lt_is_Some. lia.
  - rewrite Hdom. lia.
  - intros Hv. split.
    + specialize (Hid _ _ Hv). by replace (length (nodes tr) + (i - length (nodes tr))) with i in Hid by lia.
    + destruct (Forall2_lookup_l _ _ _ _ _ Hos Hv) as (o & Ho & Hvo). exists o. split; [done|].
      rewrite Hout, lookup_app_r by (rewrite length_fmap; lia). by rewrite length_fmap.
  - intros Hv. destruct (Hev i v Hv) as [Hvid (o & Ho & Hlook)]. split; [done|]. exists o. split; [done|].
    rewrite Hout. by apply lookup_app_l_Some.
Qed.

Lemma candidate_mode_returns p tr m :
  (∀ i, p = Some i → i < length (nodes tr)) → candidate_mode p tr m ≠ Panic.
Proof.
  intros Hp. unfold candidate_mode, node. destruct p as [i|]; [|done].
  destruct (lookup_lt_is_Some_2 (nodes tr) i) as [n Hn]; [by apply Hp|].
  rewrite (index_Ok _ _ _ Hn). cbn [mbind res_bind]. by repeat case_match.
Qed.

(** ** The search within an iteration *)
Lemma update_outcomes i f ns ns' :
  (∀ n, outcome (f n) = outcome n) → update i f ns = Ok ns' → outcome <$> ns' = outcome <$> ns.
Proof.
  intros Hf. unfold update. destruct (ns !! i) as [n|] eqn:Hn; [|done]. intros [= <-].
  rewrite list_fmap_insert, Hf. apply list_insert_id. by rewrite list_lookup_fmap, Hn.
Qed.
Lemma select_loop_outcomes fuel st i st' d :
  select_loop ln powf fuel st i = Ok (st', d) → outcome <$> nodes st' = outcome <$> nodes st.
Proof.
  revert st i. induction fuel as [|fuel IH]; intros st i; [done|]. cbn [select_loop].
  destruct (node st i) as [n| |]; cbn [mbind res_bind]; [|done..].
  destruct (is_empty _); [by intros [= <- _]|].
  destruct (best_child _ _ _ _) as [[[c x]|]| |]; cbn [mbind res_bind]; [| |done..].
  - destruct (can_add_child _ _ _) as [[]| |]; cbn [mbind res_bind]; [| |done..].
    + destruct (virtual_uct _ _ _) as [v| |]; cbn [mbind res_bind]; [|done..].
      destruct (fgt v x); [by intros [= <- _]|apply IH].
    + intros H. by rewrite (IH _ _ H).
  - destruct (update i set_terminal (nodes st)) as [ns| |] eqn:Hu; cbn [mbind res_bind]; [|done..].
    intros [= <- _]. by eapply update_outcomes; [|exact Hu].
Qed.
Lemma select_outcomes st st' sel :
  select ln powf st = Ok (st', sel) → outcome <$> nodes st' = outcome <$> nodes st.
Proof.
  unfold select. destruct (strategy st).
  - destruct (select_greedy st); cbn [mbind res_bind]; [by intros [= <- _]|done..].
  - unfold select_mcts. destruct (select_loop _ _ _ _ _) as [[st1 d]| |] eqn:Hl; cbn [mbind res_bind]; [|done..].
    apply select_loop_outcomes in Hl. destruct d as [i|]; [|by intros [= <- _]].
    case_bool_decide; by intros [= <- _].
Qed.

Hypothesis ln_number : ∀ x, is_nan x = false → flt x (ratio 1 10) = false → is_nan (ln x) = false.

Definition choose (st : SearchState) : result (SearchState * option NodeId) :=
  if decide (current_iteration st = 0) then Ok (st, None) else select ln powf st.
Lemma choose_ok st :
  state_ok ln st →
  ∃ st' par, choose st = Ok (st', par) ∧ state_ok ln st' ∧ same_search st st'
    ∧ outcome <$> nodes st' = outcome <$> nodes st
    ∧ ∀ p, par = Some p → 0 < p < length (nodes st').
Proof.
  intros Hst. unfold choose. case_decide; [by exists st, None|].
  destruct (select_ok ln powf st Hst) as (st' & sel & Hsel & Hok & Hsame & Hlen & Hpar).
  exists st', sel. split_and!; [done..|by eapply select_outcomes|].
  intros p Hp. rewrite Hlen. apply (Hpar p Hp).
Qed.

Lemma record_batch_cases st par os :
  state_ok ln st → (∀ p, par = Some p → 0 < p < length (nodes st)) →
  match record_batch ln st par os with
  | Ok (st', ids) => ids = seq (length (nodes st)) (length os) ∧ state_ok ln st'
      ∧ strategy st' = strategy st ∧ config st' = config st
      ∧ current_iteration st' = S (current_iteration st)
      ∧ outcome <$> nodes st' = (outcome <$> nodes st) ++ os
  | Err _ => True
  | Panic => False
  end.
Proof.
  intros Hst Hpar.
  assert (check_parent st par = Ok tt) as Hcp.
  { unfold check_parent. destruct par as [p|]; [|done]. specialize (Hpar p eq_refl).
    rewrite !bool_decide_eq_true_2; [done|lia|unfold ROOT; lia]. }
  destruct (res_mapM validate os) as [us|e|] eqn:Hv.
  - apply res_mapM_valid in Hv.
    destruct (record_batch_ok ln ln_number st par os Hst Hcp Hv) as (st' & -> & Hok & Hs & Hc & Hi & Ho). done.
  - unfold record_batch. rewrite Hcp, Hv. done.
  - by apply res_mapM_validate in Hv.
Qed.

Definition evidence_saved (m : gmap nat Value) : list (str * Document) :=
  (λ e, (evidence_path e.1, DValue e.2)) <$> map_to_list m.
Lemma evidence_saved_elem m i v : m !! i = Some v → (evidence_path i, DValue v) ∈ evidence_saved m.
Proof.
  intros H. unfold evidence_saved. apply list_elem_of_fmap. exists (i, v). split; [done|].
  by apply elem_of_map_to_list.
Qed.
Lemma insert_evidence_saved first l m :
  evidence_saved (insert_evidence (seq first (length l)) l m) ⊆ evidence_docs first l ++ evidence_saved m.
Proof.
  intros d ([i v] & -> & Hiv%elem_of_map_to_list)%list_elem_of_fmap. simpl.
  rewrite insert_evidence_lookup in Hiv. apply elem_of_app. destruct (decide _) as [Hi|Hi].
  - left. unfold evidence_docs. apply (list_elem_of_lookup_2 _ (i - first)).
    rewrite list_lookup_imap, Hiv. simpl. by replace (first + (i - first)) with i by lia.
  - right. by apply evidence_saved_elem.
Qed.

Hypothesis read_text : ∀ s, read_snapshot (snapshot_text s) = Ok s.
Hypothesis some_gpu : gpus args ≠ [].

Abbreviation iterate := (Controller.iterate (E := E) ln powf to_string entries_text snapshot_text
  read_snapshot serde_error sha256 root host_model args).
Abbreviation iterations_loop := (Controller.iterations_loop (E := E) ln powf to_string entries_text
  snapshot_text read_snapshot serde_error sha256 root host_model args).

(** What holds of the world between iterations. *)
Definition winner_doc (o : option NodeId) (m : gmap nat Value) : str * Document :=
  (artifact args (lit "winner.json"), DValue (winner_value args o m)).
Definition resting (run : Run) (w : World) : Prop :=
  holding (mem_ok (snapshot run)) (evidence_saved (candidates run)) w.
Definition concluded (run : Run) (w : World) : Prop :=
  resting run w ∧ ∃ o, winner (tree run) = Ok o ∧ winner_doc o (candidates run) ∈ saved w.

Definition max_iters (run : Run) : nat := max_iterations (config (tree run)) (strategy (tree run)).
Definition next_run (run run' : Run) (go : bool) : Prop :=
  run_ok run' ∧ current_iteration (tree run') = S (current_iteration (tree run))
  ∧ max_iters run' = max_iters run
  ∧ (go = true → current_iteration (tree run') < max_iters run').

(** The end of an iteration, from the evidence of its candidates. *)
Lemma conclude_iteration run tr par it l os Φ :
  run_ok run → state_ok ln tr → same_search (tree run) tr →
  outcome <$> nodes tr = outcome <$> nodes (tree run) →
  (∀ p, par = Some p → 0 < p < length (nodes tr)) →
  identified (length (nodes tr)) l → Forall2 (λ v o, outcome_of v = Ok o) l os →
  (Z.of_nat (current_iteration (tree run)) < 2 ^ 63 - 1)%Z → Φ = mem_ok (snapshot run) →
  spec (holding Φ (evidence_docs (length (nodes tr)) l ++ evidence_saved (candidates run)))
    ('(tr, ids) ← lift (record_batch ln tr par os);
     let cands := insert_evidence ids l (candidates run) in
     save (artifact args (lit "tree.json")) (DTree tr);;
     s ← refresh_memory it l (snapshot run);
     w ← lift (winner tr);
     save (artifact args (lit "winner.json")) (DValue (winner_value args w cands));;
     go ← lift (should_continue tr);
     mret ({| tree := tr; candidates := cands; snapshot := s |}, go))
    (λ '(run', go) w, next_run run run' go ∧ concluded run' w) (λ _, True).
Proof.
  intros [Htree Hcov Hev Hver] Htr (Hstr & Hcfg & Hit & _) Hout Hpar Hid Hos Hsmall ->.
  pose proof (record_batch_cases tr par os Htr Hpar) as Hrec.
  destruct (record_batch ln tr par os) as [[tr' ids]|e|]; [|by intros w Hw|done].
  destruct Hrec as (-> & Hok' & Hstr' & Hcfg' & Hit' & Hout').
  assert (length (nodes tr) = length (nodes (tree run))) as Hlen
    by by rewrite <-(length_fmap outcome), Hout, length_fmap.
  destruct (record_evidence tr tr' (candidates run) l os) as [Hcov' Hev']; [| | |done..|].
  { by apply (nodes_nonempty ln). }
  { intros i. by rewrite Hcov, Hlen. }
  { intros i v Hv. destruct (Hev i v Hv) as [? ?]. split; [done|]. by rewrite Hout. }
  rewrite <-(Forall2_length _ _ _ Hos) in Hcov', Hev' |- *.
  set (cands := insert_evidence _ l _) in *.
  apply (spec_bind _ _ _ (λ p, (λ w, p = (tr', seq (length (nodes tr)) (length l)) ∧
    holding (mem_ok (snapshot run)) (evidence_saved cands) w))).
  { intros w [HΦ Hsv]. split; [done|]. split; [done|]. etrans; [apply insert_evidence_saved|done]. }
  intros [tr1 ids1]. apply spec_pure. intros [= -> ->]. fold cands.
  eapply spec_bind; [eapply spec_weaken; [apply quiet_save|done..]|]. intros ?. apply spec_pure. intros _.
  eapply spec_bind; [apply refresh_memory_ok; [done|unfold I64_MAX; lia]|]. intros s'. apply spec_pure. intros Hs'.
  rewrite (winner_Ok ln tr' Hok').
  eapply spec_bind; [eapply spec_weaken; [by apply (quiet_lift _ (λ o, o = best_node ln Greedy (nodes tr')));
    [|by intros ? [= <-]]|done..]|]. intros o. apply spec_pure. intros ->.
  eapply spec_bind; [eapply spec_weaken; [apply spec_save|done..]|]. intros ?.
  destruct (should_continue_Ok tr') as (go & -> & Hgo).
  intros w [Hmem Hsv]. unfold lift. simpl. split.
  - split_and!; simpl; [|by rewrite Hit', Hit| |].
    + split; simpl; [done|done|done|]. rewrite Hit', Hit. lia.
    + unfold max_iters. simpl. by rewrite Hcfg', Hcfg, Hstr', Hstr.
    + unfold max_iters. simpl. intros ->. by apply Hgo.
  - split; [split; simpl; [done|]; set_solver|]. exists (best_node ln Greedy (nodes tr')). simpl.
    split; [by apply winner_Ok|]. set_solver.
Qed.

Lemma iterate_ok t run :
  run_ok run → (Z.of_nat (current_iteration (tree run)) < 2 ^ 63 - 1)%Z →
  spec (resting run) (iterate t run)
    (λ '(run', go) w, next_run run run' go ∧ concluded run' w) (λ _, True).
Proof.
  intros Hrun Hsmall. unfold Controller.iterate.
  destruct (choose_ok (tree run) (run_tree _ Hrun)) as (tr & par & Hch & Htr & Hsame & Hout & Hpar).
  unfold choose in Hch. rewrite Hch.
  apply (spec_bind _ _ _ (λ p w, p = (tr, par) ∧ resting run w)); [by intros w Hw|].
  intros [tr1 par1]. apply spec_pure. intros [= -> ->].
  eapply spec_bind; [eapply spec_weaken; [apply (quiet_lift _ (λ _, True)); [|done]|done..]|].
  { apply candidate_mode_returns. intros i Hi. by apply Hpar. }
  intros mode. apply spec_pure. intros _.
  eapply spec_bind; [eapply spec_weaken; [apply quiet_call|done..]|]. intros fb. apply spec_pure. intros _.
  eapply spec_bind; [eapply spec_weaken; [apply quiet_batch|done..]|]. intros ss. apply spec_pure. intros _.
  eapply spec_bind; [apply (run_candidates_ok _ (length (nodes tr)) _ _ _ _ [])|]; [done|by intros ? ?|].
  intros l. apply spec_pure. intros [Hid _].
  eapply spec_bind; [eapply spec_weaken; [apply quiet_ensure|done..]|]. intros ?. apply spec_pure. intros _.
  eapply spec_bind; [eapply spec_weaken; [apply (quiet_lift _ (λ os, Forall2 (λ v o, outcome_of v = Ok o) l os))|done..]|].
  { apply res_mapM_returns. intros v. apply outcome_from_value_returns. }
  { by intros os ?%res_mapM_Ok. }
  intros os. apply spec_pure. intros Hos. by apply conclude_iteration.
Qed.

Lemma iterations_ok fuel t run :
  run_ok run → (Z.of_nat (1 `max` max_iters run) < 2 ^ 63 - 1)%Z →
  current_iteration (tree run) < 1 `max` max_iters run →
  1 `max` max_iters run ≤ fuel + current_iteration (tree run) →
  spec (resting run) (iterations_loop fuel t run)
    (λ run' w, (run_ok run' ∧ max_iters run' = max_iters run
                ∧ current_iteration (tree run) < current_iteration (tree run') ≤ 1 `max` max_iters run)
               ∧ concluded run' w) (λ _, True).
Proof.
  revert run. induction fuel as [|fuel IH]; intros run Hrun Hmax Hlt Hfuel; simpl; [lia|].
  eapply spec_bind; [apply iterate_ok; [done|lia]|]. intros [run' go]. apply spec_pure.
  intros (Hrun' & Hit & Hm & Hgo). destruct go.
  - specialize (Hgo eq_refl). eapply spec_weaken; [apply IH|by intros w [Hw _]| |done]; [done|lia..|].
    intros run2 w [(Hok2 & Hm2 & Hc2) Hw]. split; [|done]. split_and!; [done|lia..].
  - intros w Hw. split; [|done]. split_and!; [done|done|lia|lia].
Qed.

(** ** The whole run *)
Abbreviation optimize := (Controller.optimize (E := E) ln powf to_string entries_text snapshot_text
  read_snapshot serde_error sha256 config_value root provider host_model args).

Lemma configure_quiet :
  (∀ n, iterations args = Some n → (Z.of_nat n < 2 ^ 63 - 1)%Z) →
  quiet (configure (E := E) args) (λ tr,
    (∃ s c, new s c = Ok tr) ∧ (Z.of_nat (max_iterations (config tr) (strategy tr)) < 2 ^ 63 - 1)%Z).
Proof.
  intros Hits. unfold configure.
  eapply (quiet_bind _ _ (λ c, ∀ n, max_iterations_opt c = Some n → (Z.of_nat n < 2 ^ 63 - 1)%Z)).
  { destruct (search_config args) as [path|]; [|by apply quiet_ret].
    apply quiet_env; [apply env_config|]. intros e c Hc n. by apply (config_bounded path e c). }
  intros c Hc. quiet_next. apply quiet_lift.
  - unfold new, validate_config, ensure. by destruct (forallb _ _).
  - intros tr Htr. split; [by eauto|]. revert Htr. unfold new, validate_config, ensure.
    destruct (forallb _ _); [|done]. intros [= <-]. unfold max_iterations. simpl.
    destruct (iterations args) as [n|] eqn:Hn; simpl; [by apply Hits|].
    destruct (max_iterations_opt c) as [n|] eqn:Hn'; simpl; [by apply Hc|lia].
Qed.

Lemma prepare_task_quiet tr :
  quiet (prepare_task (E := E) config_value root provider host_model args tr) (λ _, True).
Proof.
  unfold prepare_task.
  eapply (quiet_bind _ _ (λ _, True)).
  { destruct (scenario args); [|by apply quiet_ret]. apply quiet_env; [apply env_value|done]. }
  intros sc _. eapply (quiet_bind _ _ (λ _, True)).
  { apply quiet_lift; [|done]. unfold index. by destruct (gpus args). }
  intros gpu _. do 5 quiet_next.
  eapply quiet_bind; [apply quiet_attempt, classify_quiet|]. intros cl _. quiet_next. by apply quiet_ret.
Qed.

(** The database at the start has no snapshot of this run. *)
Definition fresh_db (o : option Store) : Prop :=
  match o with Some st => store_ok st ∧ max_version root st = 0%Z | None => True end.

Lemma new_run_ok s c tr :
  new s c = Ok tr → run_ok {| tree := tr; candidates := ∅; snapshot := default_snapshot |}.
Proof.
  intros Hn. pose proof (new_ok ln s c tr Hn) as Htr. split; simpl; [done| |done|lia].
  revert Hn. unfold new, validate_config, ensure. destruct (forallb _ _); [|done]. intros [= <-] i.
  simpl. rewrite lookup_empty. split; [by intros []|lia].
Qed.
Lemma new_iteration s c tr : new s c = Ok tr → current_iteration tr = 0.
Proof. unfold new, validate_config, ensure. destruct (forallb _ _); [|done]. by intros [= <-]. Qed.

Lemma fresh_db_mem o : fresh_db o → mem_ok default_snapshot o.
Proof.
  destruct o as [st|]; [|done]. intros [Hok Hm]. split_and!; [done|done|].
  by rewrite load_max, Hm by done.
Qed.

Lemma optimize_ok :
  (∀ n, iterations args = Some n → (Z.of_nat n < 2 ^ 63 - 1)%Z) →
  spec (λ w, fresh_db (store w)) optimize
    (λ run w, (run_ok run ∧ 0 < current_iteration (tree run) ≤ 1 `max` max_iters run) ∧ concluded run w)
    (λ _, True).
Proof.
  intros Hits. unfold Controller.optimize.
  eapply spec_bind; [eapply spec_weaken; [apply (configure_quiet Hits fresh_db [])| |done..]|].
  { intros w Hw. split; [done|]. set_solver. }
  intros tr. apply spec_pure. intros [(s & c & Hnew) Hmax].
  eapply spec_bind; [eapply spec_weaken; [apply prepare_task_quiet|done..]|]. intros t. apply spec_pure. intros _.
  pose proof (new_iteration _ _ _ Hnew) as Hit.
  eapply spec_weaken; [apply iterations_ok| | |done].
  - by eapply new_run_ok.
  - unfold max_iters. simpl. lia.
  - simpl. lia.
  - unfold max_iters. simpl. lia.
  - intros w [Hdb _]. split; [by apply fresh_db_mem|]. simpl. unfold evidence_saved.
    rewrite map_to_list_empty. set_solver.
  - intros run w [(Hok & Hm & Hc) Hw]. split; [|done]. split; [done|]. simpl in Hc. rewrite Hm. lia.
Qed.

(** C12: a run (with at least one GPU, budgets that fit an [i64] and an empty
    database) never panics, whatever its sessions, worker and disk do; if it
    succeeds, it has recorded at least one iteration and at most its budget, or
    one iteration when the budget is zero: [--iterations 0] is accepted and the
    first iteration is made before the budget is looked at. *)
Theorem run_never_panics_and_is_bounded w :
  (∀ n, iterations args = Some n → (Z.of_nat n < 2 ^ 63 - 1)%Z) → fresh_db (store w) →
  match optimize w with
  | (_, Ok run) => 0 < current_iteration (tree run) ≤ 1 `max` max_iters run
  | (_, Err _) => True
  | (_, Panic) => False
  end.
Proof.
  intros Hits Hdb. pose proof (optimize_ok Hits w Hdb) as H.
  destruct (optimize w) as [w' [run|e|]]; [|done..]. apply H.
Qed.

(** C11: a successful run has evidence for exactly the nodes of its search tree
    other than the root.  The evidence of a node bears the node's identifier,
    holds the outcome the node records and has been saved in the node's own
    directory; and the saved winner is the winner of the tree, together with
    its evidence. *)
Theorem run_keeps_evidence_of_every_node w w' run :
  (∀ n, iterations args = Some n → (Z.of_nat n < 2 ^ 63 - 1)%Z) → fresh_db (store w) →
  optimize w = (w', Ok run) →
  (∀ i, is_Some (candidates run !! i) ↔ 0 < i < length (nodes (tree run)))
  ∧ (∀ i n v, nodes (tree run) !! i = Some n → candidates run !! i = Some v →
       v.["id"] = evidence_id i
       ∧ outcome_from_value serde_error (v.["evaluation"].["outcome"]) = Ok (outcome n)
       ∧ (evidence_path i, DValue v) ∈ saved w')
  ∧ ∃ o, winner (tree run) = Ok o ∧ winner_doc o (candidates run) ∈ saved w'
      ∧ ∀ i, o = Some i → is_Some (candidates run !! i).
Proof.
  intros Hits Hdb Hrun. pose proof (optimize_ok Hits w Hdb) as H. rewrite Hrun in H.
  destruct H as (([Htree Hcov Hev _] & _) & [_ Hsv] & o & Ho & Hdoc). split_and!; [done| |].
  - intros i n v Hn Hv. destruct (Hev i v Hv) as [Hid (oc & Hoc & Hlook)].
    rewrite list_lookup_fmap, Hn in Hlook. injection Hlook as ->. split_and!; [done..|].
    by apply Hsv, evidence_saved_elem.
  - exists o. split_and!; [done..|]. intros i ->. apply Hcov.
    rewrite (winner_Ok ln _ Htree) in Ho. injection Ho as Ho. by apply best_in_range in Ho as [? _].
Qed.

(** C15: after a successful run with a database, its search memory is the
    newest snapshot the database has for the run: the versions agree, and the
    stored text is that of the run's memory. *)
Theorem run_memory_is_the_newest_snapshot w w' run st :
  (∀ n, iterations args = Some n → (Z.of_nat n < 2 ^ 63 - 1)%Z) → fresh_db (store w) →
  optimize w = (w', Ok run) → store w' = Some st →
  max_version root st = version (snapshot run)
  ∧ load_search_snapshot root st
    = if decide (version (snapshot run) = 0)%Z then None else Some (snapshot_text (snapshot run)).
Proof.
  intros Hits Hdb Hrun Hst. pose proof (optimize_ok Hits w Hdb) as H. rewrite Hrun in H.
  destruct H as (_ & [Hmem _] & _). rewrite Hst in Hmem. by destruct Hmem as (_ & ? & ?).
Qed.
End run.
