(* ===== verification/KernelRun.v ===== *)
(** * kernel: a run over the host's sessions

    The controller on top of the host: [Host::batch] discharges the promise the
    controller's theorems assume of sessions.  A small environment shows that
    all assumptions hold together and that a whole run computes. *)
From Stdlib Require Import ZArith.
From stdpp Require Import gmap.
From S2P Require Import HostSessions HostProps.
From S2P Require Import Prelude Str Float64 Json JsonOps Template Memory Search SearchTree SearchBatch SearchProps.
From S2P Require Import KernelIo SearchStore MemoryPrompt KernelRoles Controller ControllerProps.

(** What remains to be promised by the disk and the worker. *)
Class ArtifactLaws (E : Type) {C : Calls E} {F : Artifacts E} := {
  json_returns p d e : (write_json p d e).2 ≠ Panic;
  rename_returns p q e : (rename p q e).2 ≠ Panic;
  config_returns p e : (read_config p e).2 ≠ Panic;
  value_returns p e : (read_value p e).2 ≠ Panic;
  profile_is_object p e v :
    p.["role"] = jstr "profile" → (call (lit "validate") p e).2 = Ok v → is_object v = true;
  config_fits p e c n :
    (read_config p e).2 = Ok c → max_iterations_opt c = Some n → (Z.of_nat n < 2 ^ 63 - 1)%Z;
}.

Section compose.
Context {E : Type} {A : AppServer E} {D : Disk E} {C : Calls E} {F : Artifacts E}.
Context {L : AppServerLaws E} {K : ArtifactLaws E}.
Context (to_string : Value → str) (from_str : str → option Value).
Context (root provider : str) (timeout_secs : N) (parallel_sessions : nat).
Hypothesis parallel : parallel_sessions ≠ 0.
Abbreviation Host := (@HostSessions.Host E).

Definition on_host {T} (m : io E T) : io Host T := λ h,
  let '(e, r) := m (client h) in (with_client e h, r).

#[local] Instance host_disk : Disk Host :=
  {| create_dir_all := λ d, on_host (create_dir_all d); write_file := λ d s, on_host (write_file d s) |}.
#[local] Instance host_calls : Calls Host := {| call := λ o p, on_host (call o p) |}.
#[local] Instance host_sessions : Sessions Host :=
  {| batch := host_batch to_string from_str root provider timeout_secs parallel_sessions |}.
#[local] Instance host_artifacts : Artifacts Host :=
  {| write_json := λ p d, on_host (write_json p d); rename := λ p q, on_host (rename p q);
     read_config := λ p, on_host (read_config p); read_value := λ p, on_host (read_value p) |}.

Lemma on_host_snd {T} (m : io E T) h : (on_host m h).2 = (m (client h)).2.
Proof. unfold on_host. by destruct (m (client h)). Qed.

Lemma host_env_laws : EnvLaws Host.
Proof.
  split; intros; try (simpl; rewrite on_host_snd).
  - apply create_returns.
  - apply write_returns.
  - apply json_returns.
  - apply rename_returns.
  - apply config_returns.
  - apply value_returns.
  - apply call_returns.
  - simpl. pose proof (host_batch_ok to_string from_str root provider timeout_secs parallel_sessions specs e parallel) as H.
    destruct (host_batch _ _ _ _ _ _ _ _). apply H.
  - pose proof (host_batch_ok to_string from_str root provider timeout_secs parallel_sessions specs e parallel) as Hb.
    simpl in *. destruct (host_batch _ _ _ _ _ _ _ _) as [h' r]. by apply Hb.
  - eapply profile_is_object; [done|]. simpl in *. by rewrite on_host_snd in *.
  - eapply config_fits; [|done]. simpl in *. by rewrite on_host_snd in *.
Qed.
End compose.

(** ** An environment in which every session submits *)
Module Lab.
Record lab := Lab { started : nat }.
Definition name (n : nat) : str := lit "t" ++ show_nat n.
Definition reply (method : str) (params : Value) (e : lab) : lab * result Value :=
  if str_eqb method START_CHILD then
    (Lab (S (started e)),
     Ok (json ["model" ↦ params.["startup"].["model"];
               "modelProvider" ↦ params.["startup"].["modelProvider"];
               "thread" ↦ json ["id" ↦ String (name (started e))]]))
  else (e, Ok (json ["turn" ↦ json ["id" ↦ jstr "turn"]])).

#[global] Instance server : AppServer lab := {
  rpc := reply;
  resolve_server_request := λ _ _ e, (e, Ok tt);
  reject_server_request := λ _ _ _ e, (e, Ok tt);
  arrivals := λ e, seq 0 (started e) ≫= λ n,
    [Arrived (ItemCompleted (name n) (AgentMessage (lit "x") None Null));
     Arrived (TurnCompleted (name n) {| turn_status := Completed; turn_value := Null |})];
}.
#[global] Instance disk : Disk lab := {
  create_dir_all := λ _ e, (e, Ok tt);
  write_file := λ _ _ e, (e, Ok tt);
}.
Definition answer (operation : str) : Value :=
  if str_eqb operation (lit "evaluate") then
    json ["outcome" ↦ json ["status" ↦ jstr "success"; "speedup" ↦ jnat 2]]
  else json ["code" ↦ jstr "y"].
#[global] Instance calls : Calls lab := { call := λ o _ e, (e, Ok (answer o)) }.
#[global] Instance artifacts : Artifacts lab := {
  write_json := λ _ _ e, (e, Ok tt);
  rename := λ _ _ e, (e, Ok tt);
  read_config := λ _ e, (e, Ok default_config);
  read_value := λ _ e, (e, Ok Null);
}.

Lemma lab_name_inj n m : name n = name m → n = m.
Proof. unfold name. intros H%app_inv_head. by apply show_nat_inj. Qed.

#[global] Instance server_laws : AppServerLaws lab.
Proof.
  refine {| known := λ e, list_to_set (name <$> seq 0 (started e)) |}; try done.
  - intros m p e. cbn [rpc server]. unfold reply. destruct (str_eqb m START_CHILD); [|done].
    cbn [fst started]. rewrite seq_S, fmap_app, list_to_set_app_L. set_solver.
  - intros p e v t. cbn [rpc server]. unfold reply. rewrite str_eqb_refl. cbn [fst snd].
    intros [= <-] [= <-]. rewrite !elem_of_list_to_set. split.
    + intros (k & Hk%lab_name_inj & Hin%elem_of_seq)%list_elem_of_fmap. lia.
    + apply list_elem_of_fmap. exists (started e). split; [done|]. apply elem_of_seq. simpl. lia.
  - intros m p e. cbn [rpc server]. unfold reply. by destruct (str_eqb m START_CHILD).
Defined.
#[global] Instance artifact_laws : ArtifactLaws lab.
Proof. split; try done. - by intros p e v _ [= <-]. - by intros p e c n [= <-]. Defined.

(** Snapshots as text, reversibly. *)
Definition category_code (c : Category) : nat :=
  match c with SearchFindings => 0 | ErrorsAndCorrections => 1 | SuccessfulPatterns => 2 | KeyFiles => 3 | Learnings => 4 end.
Definition entry_tuple (e : Entry) : nat * str * str * nat * bool :=
  (category_code (category (finding e)), Memory.text (finding e), evidence (finding e), Memory.batch e, evaluator_fact e).
Definition tuple_entry (t : nat * str * str * nat * bool) : Entry :=
  let '(c, x, v, b, f) := t in
  {| finding := {| category := nth c CATEGORIES Learnings; Memory.text := x; evidence := v |};
     Memory.batch := b; evaluator_fact := f |}.
Definition snapshot_text (s : Snapshot) : str :=
  [Npos (encode (version s, entry_tuple <$> entries s))].
Definition read_snapshot (t : str) : result Snapshot :=
  match t with
  | [Npos p] =>
      match decode p : option (Z * list (nat * str * str * nat * bool)) with
      | Some (v, es) => Ok {| version := v; entries := tuple_entry <$> es |}
      | None => Err []
      end
  | _ => Err []
  end.
Lemma read_text s : read_snapshot (snapshot_text s) = Ok s.
Proof.
  unfold read_snapshot, snapshot_text. rewrite decode_encode. do 2 f_equal.
  destruct s as [v es]. simpl. f_equal. rewrite <-list_fmap_compose. transitivity ((λ e, e) <$> es); [|apply list_fmap_id].
  apply list_fmap_ext. intros _ [[[] ? ?] ? ?] _; done.
Qed.

Definition args : OptimizeArgs :=
  {| dataset := []; dataset_root := []; cutlass_root := None; task := []; level := 1;
     arg_strategy := lit "greedy"; search_config := None; iterations := Some 2; candidates_arg := Some 2;
     reference_model := None; profile_model := None; memory_model := None; output := lit "o";
     evaluator := Gpu; scenario := None; profiling := lit "proactive"; ncu_full := false;
     memory_off := false; hint := None; gpus := [0] |}.

Definition to_string (_ : Value) : str := lit "x".
Definition from_str (_ : str) : option Value := Some (json ["findings" ↦ Array []]).
Abbreviation host_batch := (host_batch to_string from_str (lit "root") (lit "p") 900 1).
#[global] Instance sessions : Sessions (@Host lab) := {| batch := host_batch |}.

Definition start : @World (@Host lab) :=
  {| env := {| client := Lab 0; usage := ∅; sent := [] |}; store := Some empty_store; saved := [] |}.
Abbreviation run :=
  (optimize (D := host_disk) (C := host_calls) (Se := sessions) (F := host_artifacts)
    (λ x, x) (λ x _, x) to_string (λ _, []) snapshot_text read_snapshot (λ _, []) (λ s, s)
    (λ _, Null) (lit "root") (lit "p") (lit "m") args start).
End Lab.

Lemma lab_env_laws : @EnvLaws (@Host Lab.lab) host_disk host_calls Lab.sessions host_artifacts.
Proof. apply (host_env_laws Lab.to_string Lab.from_str (lit "root") (lit "p") 900 1). lia. Qed.
Lemma lab_fresh : fresh_db (lit "root") (store Lab.start).
Proof. split; [apply empty_store_ok|by vm_compute]. Qed.
Lemma lab_budget n : iterations Lab.args = Some n → (Z.of_nat n < 2 ^ 63 - 1)%Z.
Proof. intros [= <-]. lia. Qed.
Definition lab_ln : ∀ x, is_nan x = false → flt x (ratio 1 10) = false → is_nan x = false := λ x H _, H.

(** Two iterations of two candidates each, with an extraction after each. *)
Lemma run_bounded_witness :
  match Lab.run with
  | (_, Ok run) => 0 < current_iteration (tree run) ≤ 1 `max` max_iters run
  | (_, Err _) => True
  | (_, Panic) => False
  end ∧ is_ok Lab.run.2 = true.
Proof.
  split; [|by vm_compute].
  apply (run_never_panics_and_is_bounded (L := lab_env_laws) (λ x, x) (λ x _, x) Lab.to_string (λ _, [])
    Lab.snapshot_text Lab.read_snapshot (λ _, []) (λ s, s) (λ _, Null) (lit "root") (lit "p") (lit "m") Lab.args
    lab_ln Lab.read_text); [done|exact lab_budget|exact lab_fresh].
Defined.

Definition lab_end : @World (@Host Lab.lab) := Lab.run.1.
Definition lab_result : Run :=
  match Lab.run.2 with
  | Ok r => r
  | _ => {| tree := {| strategy := Greedy; config := default_config; nodes := []; current_iteration := 0;
              current_best := None; consecutive_failures := 0; speedup_history := []; root_expansions := 0;
              pw_gate_closures := 0; virtual_child_wins := 0 |};
            candidates := ∅; snapshot := default_snapshot |}
  end.
Lemma lab_runs : Lab.run = (lab_end, Ok lab_result).
Proof.
  unfold lab_end, lab_result. assert (is_ok Lab.run.2 = true) as H by by vm_compute.
  by destruct Lab.run as [w [r|e|]].
Qed.

Lemma run_evidence_witness :
  length (nodes (tree lab_result)) = 5 ∧ is_Some (candidates lab_result !! 4).
Proof.
  split; [by vm_compute|].
  apply (run_keeps_evidence_of_every_node (L := lab_env_laws) (λ x, x) (λ x _, x) Lab.to_string (λ _, [])
    Lab.snapshot_text Lab.read_snapshot (λ _, []) (λ s, s) (λ _, Null) (lit "root") (lit "p") (lit "m") Lab.args
    lab_ln Lab.read_text ltac:(done) Lab.start lab_end lab_result lab_budget lab_fresh lab_runs).
  assert (length (nodes (tree lab_result)) = 5) as -> by by vm_compute. lia.
Defined.

Lemma lab_has_store : is_Some (store lab_end).
Proof.
  assert (is_some (store lab_end) = true) as H by by vm_compute. by destruct (store lab_end).
Qed.

Lemma run_memory_witness :
  ∃ st, store lab_end = Some st ∧ version (snapshot lab_result) = 2%Z
    ∧ max_version (lit "root") st = version (snapshot lab_result).
Proof.
  destruct lab_has_store as [st Hst].
  exists st. split; [done|]. split; [by vm_compute|].
  apply (run_memory_is_the_newest_snapshot (L := lab_env_laws) (λ x, x) (λ x _, x) Lab.to_string (λ _, [])
    Lab.snapshot_text Lab.read_snapshot (λ _, []) (λ s, s) (λ _, Null) (lit "root") (lit "p") (lit "m") Lab.args
    lab_ln Lab.read_text ltac:(done) Lab.start lab_end lab_result st lab_budget lab_fresh lab_runs Hst).
Defined.
