(* ===== verification/Worker.v ===== *)
(** * kernel: the worker

    [Worker::call], [execute] and [external] of [kernel/src/worker.rs]: an
    operation is answered by the domain's functions, by the model contracts
    ([ModelSchema]) or by an external process, whose response must carry the
    version and the sequence number of the request.  The domain's functions on
    datasets, GPUs and reports are an interface. *)
From Stdlib Require Import ZArith.
From S2P Require Import HostSessions.
From S2P Require Import Prelude Str Float64 Json JsonOps Search ModelSchema ModelContracts KernelIo.

(** [kernel/src/domain]: [None] of [gpu_evaluate] is a timeout. *)
Class Domain (E : Type) := {
  analyze : Value → result Value;
  feedback : Value → result Value;
  invoke : Value → result Value;
  populate : Value → Value → Value → result Value;
  gpu_evaluate : str → Value → io E (option Value);
  simulated_reference : Value → io E Value;
  simulated_evaluate : Value → io E Value;
  dataset_prepare : Value → io E Value;
}.

Section worker.
Context {E : Type} {A : AppServer E} {D : Disk E} {Dom : Domain E}.
Context (to_string : Value → str) (from_str : str → option Value).
Context (python script : option str) (requests : str) (timeout_ms : N).

(** The world of a worker: its environment and [sequence]. *)
Record Bench := { bench_env : E; sequence : N }.
Definition on_bench {T} (m : io E T) : io Bench T := λ b,
  let '(e, r) := m (bench_env b) in ({| bench_env := e; sequence := sequence b |}, r).
(** [fetch_add(1, Relaxed)] on an [AtomicU64]. *)
Definition fetch_add : io Bench N := λ b,
  ({| bench_env := bench_env b; sequence := (sequence b + 1) mod 2 ^ 64 |}, Ok (sequence b)).

Definition execute (command : list str) (directory : str) (env : Value) (timeout : N) : io Bench Value :=
  let temporary := join directory (lit "tmp") in
  on_bench (create_dir_all temporary);;
  env ← lift (set_key env (lit "TMPDIR") (String temporary));
  env ← lift (set_key env (lit "PYTHONDONTWRITEBYTECODE") (jstr "1"));
  on_bench (rpc (lit "command/exec")
    (json ["command" ↦ Array (String <$> command); "cwd" ↦ String directory;
           "timeoutMs" ↦ Num (PosInt (N.min timeout timeout_ms));
           "outputBytesCap" ↦ Num (PosInt (4 * 1024 * 1024)); "env" ↦ env;
           "sandboxPolicy" ↦ json ["type" ↦ jstr "workspaceWrite";
             "writableRoots" ↦ Array [String directory]; "networkAccess" ↦ Bool false;
             "excludeTmpdirEnvVar" ↦ Bool true; "excludeSlashTmp" ↦ Bool true]])).

(** [{id:06}]. *)
Definition pad6 (s : str) : str := replicate (6 - length s) 48%N ++ s.

(** The checks of a response to the request [id]. *)
Definition open_response (operation : str) (id : N) (output : Value) : result Value :=
  ensure (value_eqb (output.["exitCode"]) (jnat 0))
    (lit "worker " ++ operation ++ lit " failed: " ++ to_string (output.["stderr"]));;
  stdout ← ok_or (as_str (output.["stdout"])) (lit "missing worker stdout");
  response ← ok_or (from_str stdout) (lit "invalid or truncated worker response");
  ensure (value_eqb (response.["version"]) (jnat 1) && value_eqb (response.["id"]) (Num (PosInt id)))
    (lit "worker response identity mismatch");;
  ensure (is_none (get response (lit "error")))
    (lit "worker " ++ operation ++ lit ": " ++ to_string (response.["error"]));;
  ok_or (get response (lit "result")) (lit "missing worker result").

Definition external (operation : str) (payload : Value) : io Bench Value :=
  id ← fetch_add;
  py ← lift (ok_or python (lit "GPU workloads require --python"));
  sc ← lift (ok_or script (lit "GPU workloads require --worker"));
  on_bench (create_dir_all requests);;
  let stem := join requests (pad6 (show_N id) ++ lit "-" ++ operation) in
  let request := stem ++ lit ".json" in
  let directory := default (join requests (lit "worker-" ++ show_N id)) (as_str (payload.["output_dir"])) in
  on_bench (create_dir_all directory);;
  on_bench (write_file request (to_string
    (json ["version" ↦ jnat 1; "id" ↦ Num (PosInt id); "operation" ↦ String operation;
           "payload" ↦ payload])));;
  output ← execute [py; sc; request] directory (json []) timeout_ms;
  on_bench (write_file (stem ++ lit ".log") (default [] (as_str (output.["stderr"]))));;
  lift (open_response operation id output).

Definition evaluation_timed_out (payload : Value) : Value :=
  json ["outcome" ↦ json ["status" ↦ jstr "failed"; "speedup" ↦ Null;
      "error_context" ↦ json ["error_type" ↦ jstr "TimeoutError";
        "error_message" ↦ String (lit "Evaluation exceeded " ++ show_N (timeout_ms / 1000) ++ lit "s timeout")]];
    "candidate_seconds" ↦ Null; "source_sha256" ↦ payload.["source_sha256"];
    "task_sha256" ↦ payload.["problem"].["sha256"]; "build_identity" ↦ Null; "profile" ↦ Null;
    "validation" ↦ jstr "gpu";
    "profiling_options" ↦ json ["tool_mode" ↦ payload.["tool_mode"]; "ncu_full" ↦ payload.["ncu_full"];
      "nsys" ↦ Bool false]].

Definition worker_call (operation : str) (payload : Value) : io Bench Value :=
  if str_eqb operation (lit "analyze") then lift (analyze payload)
  else if value_eqb (payload.["backend"]) (jstr "gpu")
          && (str_eqb operation (lit "reference") || str_eqb operation (lit "evaluate")) then
    r ← on_bench (gpu_evaluate operation payload);
    match r with
    | Some v => mret v
    | None => if str_eqb operation (lit "evaluate") then mret (evaluation_timed_out payload)
              else lift (Err (lit "GPU evaluation timed out"))
    end
  else if value_eqb (payload.["backend"]) (jstr "simulated") && str_eqb operation (lit "reference") then
    on_bench (simulated_reference payload)
  else if value_eqb (payload.["backend"]) (jstr "simulated") && str_eqb operation (lit "evaluate") then
    on_bench (simulated_evaluate payload)
  else if str_eqb operation (lit "prepare") then
    problem ← on_bench (dataset_prepare payload);
    metadata ← (if value_eqb (payload.["backend"]) (jstr "gpu") then
                  external (lit "metadata")
                    (json ["backend" ↦ jstr "gpu"; "gpu_id" ↦ payload.["gpu_id"]])
                else mret Null);
    lift (populate problem payload metadata)
  else if str_eqb operation (lit "feedback") then lift (feedback payload)
  else if str_eqb operation (lit "tool") then lift (invoke payload)
  else if str_eqb operation (lit "validate") then
    role ← lift (ok_or (as_str (payload.["role"])) (lit "missing model role"));
    lift (ModelSchema.validate MODELS DEPTH role (payload.["value"]))
  else external operation payload.

(** ** What the worker guarantees *)

Lemma open_response_Ok operation id output v :
  open_response operation id output = Ok v →
  ∃ stdout response, as_str (output.["stdout"]) = Some stdout ∧ from_str stdout = Some response
    ∧ output.["exitCode"] = jnat 0 ∧ response.["version"] = jnat 1
    ∧ response.["id"] = Num (PosInt id) ∧ get response (lit "error") = None
    ∧ get response (lit "result") = Some v.
Proof.
  assert (∀ u n, value_eqb u (Num (PosInt n)) = true → u = Num (PosInt n)) as Hnum.
  { intros [| |[m| |]| | |] n; simpl; try done. by intros ->%N.eqb_eq. }
  unfold open_response. intros H.
  destruct (value_eqb (output.["exitCode"]) (jnat 0)) eqn:Hx; [|done]. cbn [ensure mbind res_bind] in H.
  destruct (as_str (output.["stdout"])) as [stdout|] eqn:Hs; [|done]. cbn [ok_or mbind res_bind] in H.
  destruct (from_str stdout) as [response|] eqn:Hr; [|done]. cbn [ok_or mbind res_bind] in H.
  destruct (value_eqb (response.["version"]) (jnat 1)) eqn:Hv; [|done].
  destruct (value_eqb (response.["id"]) (Num (PosInt id))) eqn:Hi; [|done].
  cbn [andb ensure mbind res_bind] in H.
  destruct (get response (lit "error")) eqn:He; [done|]. cbn [is_none ensure mbind res_bind] in H.
  apply ok_or_Ok in H. exists stdout, response. split_and!; try done; by apply Hnum.
Qed.

(** Break the steps of a computation that succeeded. *)
Lemma io_bind_Ok {W S T} (m : io W S) (f : S → io W T) w w' v :
  (x ← m; f x) w = (w', Ok v) → ∃ w1 x, m w = (w1, Ok x) ∧ f x w1 = (w', Ok v).
Proof. unfold mbind, io_bind. destruct (m w) as [w1 [x|e|]]; [|done..]. intros H. by exists w1, x. Qed.
Lemma lift_Ok {W T} (r : result T) (w w' : W) v : lift r w = (w', Ok v) → w' = w ∧ r = Ok v.
Proof. by intros [= <- ->]. Qed.
Lemma on_bench_Ok {T} (m : io E T) b b' v :
  on_bench m b = (b', Ok v) → sequence b' = sequence b ∧ (m (bench_env b)).2 = Ok v.
Proof. unfold on_bench. destruct (m (bench_env b)) as [e r]. by intros [= <- ->]. Qed.

Lemma execute_Ok command directory env timeout b b' v :
  execute command directory env timeout b = (b', Ok v) →
  sequence b' = sequence b
  ∧ ∃ params e, params.["cwd"] = String directory ∧ params.["command"] = Array (String <$> command)
      ∧ (rpc (lit "command/exec") params e).2 = Ok v.
Proof.
  intros H. unfold execute in H.
  apply io_bind_Ok in H as (b1 & u1 & H1%on_bench_Ok & H). destruct H1 as [H1 _].
  apply io_bind_Ok in H as (b2 & u2 & [-> H2]%lift_Ok & H).
  apply io_bind_Ok in H as (b3 & u3 & [-> H3]%lift_Ok & H).
  apply on_bench_Ok in H as [H H4]. split; [congruence|].
  eexists _, _. split_and!; [..|exact H4]; reflexivity.
Qed.

(** C36: a result of the external worker comes from a process that exited with
    status 0, was given this request alone, and answered with the protocol's
    version and this request's own sequence number and without an error; and
    each request takes the next sequence number. *)
Theorem external_answers_its_own_request operation payload b b' v :
  external operation payload b = (b', Ok v) →
  sequence b' = ((sequence b + 1) mod 2 ^ 64)%N
  ∧ ∃ py sc params e output stdout response,
      python = Some py ∧ script = Some sc
      ∧ params.["command"] = Array [String py; String sc;
          String (join requests (pad6 (show_N (sequence b)) ++ lit "-" ++ operation) ++ lit ".json")]
      ∧ (rpc (lit "command/exec") params e).2 = Ok output
      ∧ output.["exitCode"] = jnat 0 ∧ as_str (output.["stdout"]) = Some stdout
      ∧ from_str stdout = Some response ∧ response.["version"] = jnat 1
      ∧ response.["id"] = Num (PosInt (sequence b)) ∧ get response (lit "error") = None
      ∧ get response (lit "result") = Some v.
Proof.
  intros H. unfold external in H. apply io_bind_Ok in H as (b0 & id & H0 & H).
  injection H0 as <- <-. set (b0 := {| bench_env := bench_env b |}) in H.
  apply io_bind_Ok in H as (b1 & py & [-> Hpy%ok_or_Ok]%lift_Ok & H).
  apply io_bind_Ok in H as (b2 & sc & [-> Hsc%ok_or_Ok]%lift_Ok & H).
  apply io_bind_Ok in H as (b3 & u3 & H3%on_bench_Ok & H).
  apply io_bind_Ok in H as (b4 & u4 & H4%on_bench_Ok & H).
  apply io_bind_Ok in H as (b5 & u5 & H5%on_bench_Ok & H).
  apply io_bind_Ok in H as (b6 & output & H6%execute_Ok & H).
  apply io_bind_Ok in H as (b7 & u7 & H7%on_bench_Ok & H).
  apply lift_Ok in H as [-> (stdout & response & Hresp)%open_response_Ok].
  destruct H3 as [H3 _], H4 as [H4 _], H5 as [H5 _], H7 as [H7 _].
  destruct H6 as (H6 & params & e & _ & Hcmd & Hrpc). split.
  - rewrite H7, H6, H5, H4, H3. done.
  - exists py, sc, params, e, output, stdout, response. by destruct_and!.
Qed.

(** A validated profile is an object. *)
Lemma normalize_object_is_object rec value schema v :
  normalize_object rec value schema = Ok v → is_object v = true.
Proof.
  unfold normalize_object. destruct (as_object value) as [input|]; [|done]. cbn [ok_or mbind res_bind].
  destruct (as_object (at_key schema _)) as [props|]; [|done]. cbn [ok_or mbind res_bind].
  intros H. destruct (match at_key schema (lit "additionalProperties") with Bool false => _ | _ => _ end)
    as [[]| |]; [|done..]. cbn [mbind res_bind] in H.
  destruct (normalize_fields _ _ _ _); [|done..]. by injection H as <-.
Qed.
Lemma normalize_is_object root fuel value schema v :
  as_str (at_key schema (lit "$ref")) = None → as_array (at_key schema (lit "anyOf")) = None →
  as_str (at_key schema (lit "type")) = Some (lit "object") →
  normalize root (S fuel) value schema = Ok v → is_object v = true.
Proof.
  intros Hr Ha Ht. cbn [normalize]. rewrite Hr, Ha, Ht. cbn [ok_or mbind res_bind]. rewrite str_eqb_refl.
  destruct (normalize_object _ value _) as [r| |] eqn:Hn; [|done..]. cbn [mbind res_bind].
  intros [-> _]%check_result_Ok. by eapply normalize_object_is_object.
Qed.
Lemma profile_entry : mget MODELS (lit "profile") = Some (Object [(lit "validation", profile_contract)]).
Proof. reflexivity. Qed.
Lemma profile_kind :
  as_str (at_key profile_contract (lit "$ref")) = None
  ∧ as_array (at_key profile_contract (lit "anyOf")) = None
  ∧ as_str (at_key profile_contract (lit "type")) = Some (lit "object").
Proof. split_and!; reflexivity. Qed.
Lemma validation_of c : at_key (Object [(lit "validation", c)]) (lit "validation") = c.
Proof. reflexivity. Qed.

Lemma validated_profile_is_object value v :
  ModelSchema.validate MODELS DEPTH (lit "profile") value = Ok v → is_object v = true.
Proof.
  unfold ModelSchema.validate. rewrite profile_entry. cbn [ok_or mbind res_bind].
  rewrite validation_of. destruct profile_kind as (Hr & Ha & Ht). by apply normalize_is_object.
Qed.

Lemma worker_profile_is_object payload b v :
  payload.["role"] = jstr "profile" → payload.["backend"] = Null →
  (worker_call (lit "validate") payload b).2 = Ok v → is_object v = true.
Proof.
  intros Hr Hb. unfold worker_call. rewrite Hb. simpl. unfold mbind, io_bind. rewrite Hr. simpl.
  apply validated_profile_is_object.
Qed.
End worker.

(** A process that answers. *)
Module Process.
#[local] Instance server : AppServer unit := {
  rpc := λ _ _ e, (e, Ok (json ["exitCode" ↦ jnat 0; "stdout" ↦ jstr "ok"; "stderr" ↦ jstr "-"]));
  resolve_server_request := λ _ _ e, (e, Ok tt);
  reject_server_request := λ _ _ _ e, (e, Ok tt);
  arrivals := λ _, [];
}.
#[local] Instance disk : Disk unit := {
  create_dir_all := λ _ e, (e, Ok tt);
  write_file := λ _ _ e, (e, Ok tt);
}.
Definition from_str (_ : str) : option Value :=
  Some (json ["version" ↦ jnat 1; "id" ↦ jnat 41; "result" ↦ Bool true]).
Definition run (b : @Bench unit) : @Bench unit * result Value :=
  external (λ _, []) from_str (Some (lit "python")) (Some (lit "worker.py")) (lit "requests") 1000
    (lit "metadata") Null b.
Definition start : @Bench unit := {| bench_env := tt; sequence := 41 |}.

Lemma external_witness :
  run start = ({| bench_env := tt; sequence := 42 |}, Ok (Bool true))
  ∧ sequence (run start).1 = 42%N.
Proof.
  assert (run start = ({| bench_env := tt; sequence := 42 |}, Ok (Bool true))) as H by (vm_compute; reflexivity).
  split; [exact H|]. rewrite H.
  apply (external_answers_its_own_request (λ _, []) from_str (Some (lit "python")) (Some (lit "worker.py"))
    (lit "requests") 1000 (lit "metadata") Null start _ (Bool true) H).
Defined.
End Process.
