(* ===== verification/FileUri.v ===== *)
(** * path-uri: file URIs

    [utils/path-uri/src/lib.rs] and [absolute_path_normalization.rs]: a [PathUri]
    is a validated [file:] URL whose operations are lexical and independent of
    the host.  The crates [url], [urlencoding] and [base64] are the interface
    [Url]; the conversions to and from the paths of the local host are left out.
    The text of a URL is ASCII, so its characters are its bytes. *)
From S2P Require Import Prelude Str Utf8Stream WindowsCommand.

Inductive PathConvention := Posix | Windows.
#[export] Instance PathConvention_eq_dec : EqDecision PathConvention.
Proof. solve_decision. Defined.

Definition TILDE : char := 126%N.
Definition COLON : char := 58%N.
Definition NUL : char := 0%N.
Definition PERIOD : char := 46%N.
Definition QUESTION : char := 63%N.
Definition DOT : str := lit ".".
Definition DOTDOT : str := lit "..".

(** [PathConvention::home_relative_suffix] and [path_segments]. *)
Definition home_relative_suffix (c : PathConvention) (path : str) : option str :=
  suffix ← strip_prefix [TILDE] path;
  if is_empty suffix || starts_with suffix [SLASH]
     || (bool_decide (c = Windows) && starts_with suffix [BACKSLASH])
  then Some suffix else None.
Definition separates (c : PathConvention) (ch : char) : bool :=
  match c with Posix => (ch =? SLASH)%N | Windows => is_separator ch end.
Definition convention_segments (c : PathConvention) (path : str) : list str := split_by (separates c) path.

(** ** The [url], [urlencoding] and [base64] crates *)
Class Url (U : Type) := {
  url_parse : str → str + U;
  as_str : U → str;
  scheme : U → str;
  username : U → str;
  password : U → option str;
  port : U → option N;
  query : U → option str;
  fragment : U → option str;
  host_str : U → option str;
  url_path : U → str;
  path_segments : U → option (list str);
  set_host : option str → U → option U;
  set_path : str → U → U;
  (** The methods of [path_segments_mut], which exists where [path_segments] does. *)
  seg_clear : U → U;
  seg_pop : U → U;
  seg_pop_if_empty : U → U;
  seg_push : str → U → U;
  decode_binary : list N → list N;
  url_decode : str → option str;
  encode_binary : list N → str;
  b64_encode : list N → str;
  b64_decode : str → option (list N);
}.

Inductive PathUriParseError :=
  | InvalidUri (e : str)
  | UnsupportedScheme (s : str)
  | InvalidFileUriPath (path : str)
  | CredentialsNotAllowed
  | PortNotAllowed
  | QueryNotAllowed
  | FragmentNotAllowed
  | JoinPathMustBeDescendant (path : str).

Definition FILE_SCHEME : str := lit "file".
Definition BAD_PATH_URI_PREFIX : str := lit "file:///%00/bad/path/".

(** A segment that spells a Windows drive. *)
Definition is_windows_drive_uri_segment (segment : str) : bool :=
  match segment with
  | drive :: rest =>
      is_ascii_alphabetic drive
      && (str_eqb rest [COLON] || str_eqb rest (lit "%3A") || str_eqb rest (lit "%3a"))
  | [] => false
  end.

(** [chunks_exact(2)] as little-endian [u16]s, and [encode_utf16] with [to_le_bytes]. *)
Fixpoint u16s (bytes : list N) : list N :=
  match bytes with
  | lo :: hi :: bytes => (lo + 256 * hi)%N :: u16s bytes
  | _ => []
  end.
Definition utf16_char (c : char) : list N :=
  if (c <? 65536)%N then [c]
  else [55296 + N.shiftr (c - 65536) 10; 56320 + N.land (c - 65536) 1023]%N.
Definition u16_to_le_bytes (u : N) : list N := [u mod 256; u / 256]%N.
Definition utf16_le_bytes (path : str) : list N := path ≫= λ c, utf16_char c ≫= u16_to_le_bytes.

Definition infer_opaque_path_convention (path_bytes : list N) : option PathConvention :=
  if starts_with path_bytes [SLASH] && negb (starts_with path_bytes [SLASH; NUL]) then Some Posix
  else if negb (Nat.even (length path_bytes)) then None
  else match u16s path_bytes with
       | first :: second :: _ =>
           let has_drive := (first <? 256)%N && is_ascii_alphabetic first && (second =? COLON)%N in
           let has_unc_prefix := is_separator first && is_separator second in
           if has_drive || has_unc_prefix then Some Windows else None
       | _ => None
       end.

(** [normalize_windows_device_path] of [absolute-path/src/lib.rs]. *)
Definition is_windows_drive_absolute_path (path : str) : bool :=
  match path with
  | drive :: colon :: sep :: _ => is_ascii_alphabetic drive && (colon =? COLON)%N && is_separator sep
  | _ => false
  end.
Definition bs2 : str := [BACKSLASH; BACKSLASH].
Definition device_prefix (namespace : char) : str := bs2 ++ [namespace; BACKSLASH].
Definition normalize_windows_device_path (path : str) : option str :=
  match strip_prefix (device_prefix QUESTION ++ lit "UNC" ++ [BACKSLASH]) path with
  | Some unc => Some (bs2 ++ unc)
  | None =>
  match strip_prefix (device_prefix PERIOD ++ lit "UNC" ++ [BACKSLASH]) path with
  | Some unc => Some (bs2 ++ unc)
  | None =>
  match strip_prefix (device_prefix QUESTION) path with
  | Some p => if is_windows_drive_absolute_path p then Some p
              else match strip_prefix (device_prefix PERIOD) path with
                   | Some p => if is_windows_drive_absolute_path p then Some p else None
                   | None => None
                   end
  | None =>
  match strip_prefix (device_prefix PERIOD) path with
  | Some p => if is_windows_drive_absolute_path p then Some p else None
  | None => None
  end end end end.

(** The segments of [path_uri_from_segments] after its loop: the normalized ones,
    their number and whether the text ends in a separator. *)
Definition normalize_segment (anchor_depth : nat) (st : list str * nat * bool) (segment : str)
    : list str * nat * bool :=
  let '(normalized, depth, trailing) := st in
  if is_empty segment then (normalized, depth, true)
  else if str_eqb segment DOT then (normalized, depth, false)
  else if str_eqb segment DOTDOT then
    if anchor_depth <? depth then (removelast normalized, depth - 1, false) else (normalized, depth, false)
  else (normalized ++ [segment], S depth, false).
Definition anchor_depth (c : PathConvention) : nat := match c with Windows => 1 | Posix => 0 end.
Definition normalized_segments (c : PathConvention) (host : option str) (segments : list str) : list str :=
  let '(normalized, depth, trailing) := foldl (normalize_segment (anchor_depth c)) ([], 0, false) segments in
  if trailing || (bool_decide (c = Windows) && is_none host && (depth =? anchor_depth c))
  then normalized ++ [[]] else normalized.

Section uris.
Context {U : Type} `{!Url U}.
Implicit Types (u base : U) (path : str).

(** [Result::ok], keeping a panic. *)
Definition ok_of {E A} (r : res E A) : res E (option A) :=
  match r with Ok a => Ok (Some a) | Err _ => Ok None | Panic => Panic end.

(** ** Opaque fallbacks, segments and the path convention *)
Definition decode_bad_path_uri u : option (list N) :=
  encoded_path ← strip_prefix BAD_PATH_URI_PREFIX (as_str u);
  if is_empty encoded_path || contains_char SLASH encoded_path then None
  else path_bytes ← b64_decode encoded_path;
       if str_eqb (b64_encode path_bytes) encoded_path then Some path_bytes else None.
Definition opaque_fallback_bytes u : option (list N) := decode_bad_path_uri u.
Definition is_opaque u : bool := is_some (opaque_fallback_bytes u).

Definition non_empty (segments : list str) : list str := filter (λ s, negb (is_empty s) = true) segments.
Definition first_segment u : option str :=
  segments ← path_segments u; find_first (λ s, negb (is_empty s)) segments.

Definition infer_path_convention u : option PathConvention :=
  match opaque_fallback_bytes u with
  | Some path_bytes => infer_opaque_path_convention path_bytes
  | None =>
      if is_some (host_str u) then Some Windows
      else if is_some_and is_windows_drive_uri_segment (first_segment u) then Some Windows
      else Some Posix
  end.

(** ** Construction *)
Definition validate_common_known_uri u : res PathUriParseError unit :=
  if negb (is_empty (username u)) || is_some (password u) then Err CredentialsNotAllowed
  else if is_some (port u) then Err PortNotAllowed
  else if is_some (query u) then Err QueryNotAllowed
  else if is_some (fragment u) then Err FragmentNotAllowed
  else Ok tt.
Definition validate_file_url u : res PathUriParseError unit :=
  _ ← validate_common_known_uri u;
  if contains_char NUL (decode_binary (url_path u)) && is_none (decode_bad_path_uri u)
  then Err (InvalidFileUriPath (as_str u)) else Ok tt.

Definition without_localhost_authority u : res PathUriParseError U :=
  if bool_decide (host_str u = Some (lit "localhost")) then
    match set_host None u with Some u => Ok u | None => Panic end
  else Ok u.
Definition to_ascii_uppercase (c : char) : char := if ((97 <=? c) && (c <=? 122))%N then (c - 32)%N else c.
Definition is_ascii_uppercase (c : char) : bool := ((65 <=? c) && (c <=? 90))%N.
Definition with_normalized_windows_drive_letter u : U :=
  if is_some (host_str u) then u
  else
    let path := url_path u in
    match position (λ b, negb (b =? SLASH)%N) path with
    | None => u
    | Some drive_start =>
        match head (split_by (N.eqb SLASH) (drop drive_start path)) with
        | Some ((letter :: _) as drive) =>
            if negb (is_windows_drive_uri_segment drive) || is_ascii_uppercase letter then u
            else set_path (take drive_start path ++ to_ascii_uppercase letter :: drop (S drive_start) path) u
        | _ => u
        end
    end.
(** [TryFrom<Url>] and [parse]. *)
Definition try_from u : res PathUriParseError U :=
  if negb (str_eqb (scheme u) FILE_SCHEME) then Err (UnsupportedScheme (scheme u))
  else
    _ ← validate_file_url u;
    u ← without_localhost_authority u;
    Ok (with_normalized_windows_drive_letter u).
Definition parse (uri : str) : res PathUriParseError U :=
  match url_parse uri with
  | inr u => try_from u
  | inl e => Err (InvalidUri e)
  end.
Definition from_opaque_path_bytes (path_bytes : list N) : res PathUriParseError U :=
  match parse (BAD_PATH_URI_PREFIX ++ b64_encode path_bytes) with
  | Ok u => Ok u
  | _ => Panic
  end.
Definition windows_opaque_path_uri path : res PathUriParseError U := from_opaque_path_bytes (utf16_le_bytes path).

Definition path_uri_from_segments (c : PathConvention) (host : option str) (segments : list str)
    : res PathUriParseError (option U) :=
  match url_parse (lit "file:///") with
  | inr u =>
      match (match host with Some h => set_host (Some h) u | None => Some u end) with
      | None => Ok None
      | Some u =>
          match path_segments u with
          | None => Ok None
          | Some _ => ok_of (try_from (foldl (λ u s, seg_push s u) (seg_clear u) (normalized_segments c host segments)))
          end
      end
  | inl _ => Ok None
  end.

(** ** Native absolute paths *)
Definition parse_posix_path path : res PathUriParseError (option U) :=
  match strip_prefix [SLASH] path with
  | None => Ok None
  | Some rest =>
      if contains_char NUL rest then Some <$> from_opaque_path_bytes (as_bytes (SLASH :: rest))
      else path_uri_from_segments Posix None (split_by (N.eqb SLASH) rest)
  end.

Definition uses_namespace path : bool :=
  match path with
  | first :: second :: namespace :: separator :: _ =>
      ((namespace =? PERIOD)%N || (namespace =? QUESTION)%N)
      && is_separator first && is_separator second && is_separator separator
  | _ => false
  end.
Definition is_dots (s : str) : bool := str_eqb s DOT || str_eqb s DOTDOT.
Definition parse_unc_path path : res PathUriParseError (option U) :=
  match split_by is_separator (drop 2 path) with
  | host :: share :: components =>
      if is_empty host || is_empty share then Ok None
      else if is_dots host || is_dots share then Some <$> windows_opaque_path_uri path
      else
        uri ← path_uri_from_segments Windows (Some host) (share :: components);
        match uri with
        | Some u =>
            if is_some_and (λ parsed, eq_ignore_case parsed host) (host_str u) then Ok (Some u)
            else Some <$> windows_opaque_path_uri path
        | None => Some <$> windows_opaque_path_uri path
        end
  | _ => Ok None
  end.
Definition parse_unnormalized_windows_path path : res PathUriParseError (option U) :=
  if uses_namespace path || contains_char NUL path then Some <$> windows_opaque_path_uri path
  else if is_windows_drive_absolute_path path then
    path_uri_from_segments Windows None (take 2 path :: split_by is_separator (drop 3 path))
  else match path with
       | first :: second :: _ =>
           if is_separator first && is_separator second then parse_unc_path path else Ok None
       | _ => Ok None
       end.
Definition missing_component (c : option str) : bool := is_none_or (λ s, is_empty s || is_dots s) c.
Definition parse_windows_path path : res PathUriParseError (option U) :=
  match normalize_windows_device_path path with
  | Some normalized =>
      let incomplete :=
        match strip_prefix bs2 normalized with
        | Some unc =>
            let components := split_by is_separator unc in
            missing_component (components !! 0) || missing_component (components !! 1)
        | None => false
        end in
      if incomplete then Some <$> windows_opaque_path_uri path
      else
        uri ← parse_unnormalized_windows_path normalized;
        match uri with
        | Some u =>
            if bool_decide (infer_path_convention u = Some Windows) && is_none (opaque_fallback_bytes u)
               && (negb (starts_with normalized bs2) || is_some_and (λ h, negb (is_empty h)) (host_str u))
            then Ok (Some u) else Some <$> windows_opaque_path_uri path
        | None => Some <$> windows_opaque_path_uri path
        end
  | None => parse_unnormalized_windows_path path
  end.
Definition from_absolute_native_path path (c : PathConvention) : res PathUriParseError (option U) :=
  uri ← match c with Posix => parse_posix_path path | Windows => parse_windows_path path end;
  match uri with
  | None => Ok None
  | Some u =>
      if negb (bool_decide (host_str u = Some [])) && bool_decide (infer_path_convention u = Some c)
      then Ok (Some u)
      else Some <$> match c with
                    | Posix => from_opaque_path_bytes (as_bytes path)
                    | Windows => windows_opaque_path_uri path
                    end
  end.

(** ** Equality and hashing *)
Definition url_eqb u v : bool := str_eqb (as_str u) (as_str v).
Definition windows_identity_path_bytes u : option (list N) :=
  if negb (bool_decide (infer_path_convention u = Some Windows)) || is_some (opaque_fallback_bytes u) then None
  else
    segments ← path_segments u;
    if existsb (λ s, existsb is_separator (decode_binary s)) segments then None
    else Some (decode_binary (url_path u)).
Definition uri_eqb u v : bool :=
  url_eqb u v
  || match windows_identity_path_bytes u, windows_identity_path_bytes v with
     | Some path, Some other_path =>
         bool_decide (host_str u = host_str v) && eq_ignore_case path other_path
     | _, _ => false
     end.
(** What [hash] feeds to the hasher. *)
Definition hash_input u : str + option str * nat * list N :=
  match windows_identity_path_bytes u with
  | None => inl (as_str u)
  | Some path => inr (host_str u, length path, to_ascii_lowercase path)
  end.

(** ** Lexical operations *)
Definition decode_uri_path path : str := default path (url_decode path).
Definition basename u : option str :=
  if is_some (decode_bad_path_uri u) then None
  else segments ← path_segments u; decode_uri_path <$> last (non_empty segments).

Definition parent u : option U :=
  if is_some (decode_bad_path_uri u) then None
  else
    convention ← infer_path_convention u;
    segments ← path_segments u;
    if length (non_empty segments) <=? anchor_depth convention then None
    else Some (seg_pop (seg_pop_if_empty u)).
(** [successors(Some(self), parent)]: a parent has fewer segments, or is the root. *)
Fixpoint successors (fuel : nat) u : list U :=
  u :: match fuel with
       | 0 => []
       | S fuel => match parent u with Some p => successors fuel p | None => [] end
       end.
Definition ancestors u : list U := successors (length (default [] (path_segments u))) u.

Definition containment_path_segments u (c : PathConvention) : option (list str) :=
  segments ← non_empty <$> path_segments u;
  if existsb (λ s, existsb (λ b, (b =? SLASH)%N || (bool_decide (c = Windows) && (b =? BACKSLASH)%N))
                     (decode_binary s)) segments
  then None else Some segments.
Definition segment_matches (c : PathConvention) (s base : str) : bool :=
  match c with
  | Posix => str_eqb (decode_binary s) (decode_binary base)
  | Windows => eq_ignore_case s base || eq_ignore_case (decode_uri_path s) (decode_uri_path base)
  end.
Definition native_path_segments_start_with (segments base_segments : list str) (c : PathConvention) : bool :=
  (length base_segments <=? length segments)
  && forallb (λ x, segment_matches c x.1 x.2) (zip segments base_segments).
Definition uri_starts_with u base : bool :=
  if uri_eqb u base then true
  else if is_some (decode_bad_path_uri u) || is_some (decode_bad_path_uri base) then false
  else if negb (bool_decide (host_str u = host_str base)) then false
  else if negb (bool_decide (infer_path_convention u = infer_path_convention base)) then false
  else
    let c := default Posix (infer_path_convention u) in
    match containment_path_segments u c, containment_path_segments base c with
    | Some segments, Some base_segments => native_path_segments_start_with segments base_segments c
    | _, _ => false
    end.
Definition lexical_depth u : option nat :=
  if is_some (decode_bad_path_uri u) then None
  else c ← infer_path_convention u; length <$> containment_path_segments u c.
Definition overlaps u v : option bool :=
  if uri_eqb u v then Some true
  else _ ← lexical_depth u; _ ← lexical_depth v; Some (uri_starts_with u v || uri_starts_with v u).
Definition relative_path_from u base : option str :=
  if uri_eqb u base then Some []
  else if is_some (decode_bad_path_uri u) || is_some (decode_bad_path_uri base)
          || negb (bool_decide (host_str u = host_str base))
          || negb (bool_decide (infer_path_convention u = infer_path_convention base)) then None
  else
    c ← infer_path_convention u;
    segments ← containment_path_segments u c;
    base_segments ← containment_path_segments base c;
    if negb (native_path_segments_start_with segments base_segments c) then None
    else Some (join (match c with Posix => [SLASH] | Windows => [BACKSLASH] end)
                 (decode_uri_path <$> drop (length base_segments) segments)).

(** ** Joining *)
Fixpoint pops (n : nat) u : U := match n with 0 => u | S n => pops n (seg_pop u) end.
Definition join_component (anchor : nat) (st : U * nat) (component : str) : U * nat :=
  let '(u, depth) := st in
  if is_empty component || str_eqb component DOT then (u, depth)
  else if str_eqb component DOTDOT then if anchor <? depth then (seg_pop u, depth - 1) else (u, depth)
  else (seg_push component u, S depth).
Definition drive_relative (c : PathConvention) path : bool :=
  match path with
  | drive :: colon :: _ => bool_decide (c = Windows) && (colon =? COLON)%N && is_ascii_alphabetic drive
  | _ => false
  end.
Definition same_drive u path : bool :=
  is_some_and (λ s, is_windows_drive_uri_segment s
                    && eq_ignore_case (take 1 s) (take 1 path)) (first_segment u).
Definition windows_root_relative (c : PathConvention) path : bool :=
  bool_decide (c = Windows)
  && match path with
     | first :: rest => is_separator first && negb (is_some_and is_separator (head rest))
     | [] => false
     end.
(** The part of [join] after the drive of a drive-relative path is gone. *)
Definition join_relative u (c : PathConvention) path : res PathUriParseError U :=
  if is_some (decode_bad_path_uri u) then Err (InvalidFileUriPath (as_str u))
  else
    match path_segments u with
    | None => Panic
    | Some segments =>
        let depth := length (non_empty segments) in
        let url := seg_pop_if_empty u in
        let '(url, depth) :=
          if windows_root_relative c path
          then (pops (depth - anchor_depth c) url, depth `min` anchor_depth c) else (url, depth) in
        let path := match c with Posix => path | Windows => replace_char BACKSLASH SLASH path end in
        try_from (foldl (join_component (anchor_depth c)) (url, depth) (split_by (N.eqb SLASH) path)).1
    end.
Definition uri_join u path : res PathUriParseError U :=
  if contains_char NUL path then Err (InvalidFileUriPath path)
  else if is_empty path then Ok u
  else match infer_path_convention u with
       | None => Err (InvalidFileUriPath (as_str u))
       | Some c =>
           absolute ← from_absolute_native_path path c;
           match absolute with
           | Some absolute => Ok absolute
           | None =>
               if drive_relative c path then
                 if same_drive u path then join_relative u c (drop 2 path) else Err (InvalidFileUriPath path)
               else join_relative u c path
           end
       end.
Definition join_descendant u path : res PathUriParseError U :=
  descendant ← uri_join u path;
  let windows := bool_decide (infer_path_convention u = Some Windows) in
  if starts_with path [SLASH]
     || (windows && (starts_with path [BACKSLASH]
                     || existsb (contains_char COLON) (convention_segments Windows path)))
     || negb (uri_starts_with descendant u)
  then Err (JoinPathMustBeDescendant path) else Ok descendant.
End uris.
