(* ===== verification/FileUriLaws.v ===== *)
(** * path-uri: what the url, urlencoding and base64 crates promise

    The documented behaviour of the operations of [Url] on [file:] URLs that the
    path URIs rely on, and the lemmas on texts, segments and their ASCII case
    that the theorems share. *)
From S2P Require Import Prelude Str Utf8Stream WindowsCommand FileUri.

(** ** ASCII case *)
Abbreviation lower := to_ascii_lowercase.

Lemma lower_app s t : lower (s ++ t) = lower s ++ lower t.
Proof. apply fmap_app. Qed.
Lemma lower_nil s : lower s = [] → s = [].
Proof. by destruct s. Qed.
Lemma lower_length s : length (lower s) = length s.
Proof. apply length_fmap. Qed.
Lemma lower_elem c s :
  is_ascii_alphabetic c = false → c ∈ lower s ↔ c ∈ s.
Proof.
  intros Hc. unfold is_ascii_alphabetic in Hc. induction s as [|x s IH]; [done|]. csimpl.
  rewrite !elem_of_cons, IH. byte_tests; intuition lia.
Qed.
Lemma eq_ignore_case_iff s t : eq_ignore_case s t = true ↔ lower s = lower t.
Proof. apply str_eqb_eq. Qed.

Local Ltac Zify.zify_post_hook ::= Z.to_euclidean_division_equations.
Lemma lower_high bs : Forall (λ b, 128 ≤ b)%N bs → lower bs = bs.
Proof.
  induction 1 as [|b bs Hb _ IH]; [done|]. csimpl. rewrite IH.
  by rewrite (proj2 (andb_false_iff _ _)) by (right; byte_tests).
Qed.
Lemma lower_utf8_char c :
  is_scalar c = true →
  lower (utf8_char c) = utf8_char (if ((65 <=? c) && (c <=? 90))%N then (c + 32)%N else c).
Proof.
  intros [[Hc E]|[[Hc E]|[[Hc E]|[Hc E]]]]%utf8_char_cases.
  - rewrite E. unfold to_ascii_lowercase. csimpl. unfold utf8_char.
    destruct ((65 <=? c) && (c <=? 90))%N eqn:Eu.
    + destruct (N.ltb_spec (c + 32) 128); [done|]. byte_tests.
    + destruct (N.ltb_spec c 128); [done|lia].
  - rewrite (proj2 (andb_false_iff _ _)), E by (right; byte_tests). apply lower_high.
    repeat first [apply Forall_nil_2 | apply Forall_cons_2; [cbn beta; lia|]].
  - rewrite (proj2 (andb_false_iff _ _)), E by (right; byte_tests). apply lower_high.
    by repeat first [apply Forall_nil_2 | apply Forall_cons_2; [cbn beta; lia|]].
  - rewrite (proj2 (andb_false_iff _ _)), E by (right; byte_tests). apply lower_high.
    by repeat first [apply Forall_nil_2 | apply Forall_cons_2; [cbn beta; lia|]].
Qed.
Lemma lower_as_bytes t : scalars t → lower (as_bytes t) = as_bytes (lower t).
Proof.
  induction 1 as [|c t Hc Ht IH]; [done|]. rewrite as_bytes_cons, lower_app, lower_utf8_char by done.
  rewrite IH. done.
Qed.
Lemma lower_scalars t : scalars t → scalars (lower t).
Proof.
  intros Ht. apply Forall_fmap. eapply Forall_impl; [exact Ht|]. intros c Hc%is_scalar_spec.
  apply is_scalar_spec. byte_tests.
Qed.

Local Ltac Zify.zify_post_hook ::= idtac.

(** ** Decoded text *)
Lemma from_utf8_Ok bs t : from_utf8 bs = Ok t ↔ bs = as_bytes t ∧ scalars t.
Proof.
  split.
  - intros H. destruct (longest_text bs) as (t' & rest & -> & Ht & Hr).
    rewrite from_utf8_text in H by done. destruct (stop rest) eqn:Es; [done|]. injection H as ->.
    split; [|done]. unfold stop in Es. destruct rest; [by rewrite app_nil_r|].
    destruct (decode_one _) as [c r| |] eqn:Ed; [|done|done]. by destruct (Hr c r).
  - intros [-> Ht]. rewrite <-(app_nil_r (as_bytes t)), from_utf8_text; [done|done|]. done.
Qed.
Lemma as_bytes_inj t t' : scalars t → scalars t' → as_bytes t = as_bytes t' → t = t'.
Proof.
  intros Ht Ht' E. assert (from_utf8 (as_bytes t) = Ok t) as H by by apply from_utf8_Ok.
  rewrite E in H. assert (from_utf8 (as_bytes t') = Ok t') as H' by by apply from_utf8_Ok.
  congruence.
Qed.
(** Texts agree up to ASCII case exactly when their bytes do. *)
Lemma lower_text t t' :
  scalars t → scalars t' → lower t = lower t' ↔ lower (as_bytes t) = lower (as_bytes t').
Proof.
  intros Ht Ht'. rewrite !lower_as_bytes by done. split; [by intros ->|].
  apply as_bytes_inj; by apply lower_scalars.
Qed.

(** ** Segments *)
Lemma split_by_no_sep c s : Forall (λ p, c ∉ p) (split_by (N.eqb c) s).
Proof.
  induction s as [|x s IH]; simpl; [repeat constructor; apply not_elem_of_nil|].
  destruct (N.eqb_spec c x) as [->|Hx]; [by constructor; [apply not_elem_of_nil|]|].
  destruct (split_by (N.eqb c) s) as [|p ps]; inversion IH; subst.
  - repeat constructor. apply not_elem_of_cons. split; [done|apply not_elem_of_nil].
  - constructor; [|done]. by apply not_elem_of_cons.
Qed.
Lemma split_by_app c p s : c ∉ p → split_by (N.eqb c) (p ++ c :: s) = p :: split_by (N.eqb c) s.
Proof.
  induction p as [|x p IH]; intros Hp; simpl; [by rewrite N.eqb_refl|].
  apply not_elem_of_cons in Hp as [Hx Hp]. destruct (N.eqb_spec c x); [congruence|]. by rewrite IH.
Qed.
Lemma split_by_last c p : c ∉ p → split_by (N.eqb c) p = [p].
Proof.
  induction p as [|x p IH]; intros Hp; simpl; [done|].
  apply not_elem_of_cons in Hp as [Hx Hp]. destruct (N.eqb_spec c x); [congruence|]. by rewrite IH.
Qed.
Lemma split_by_join c ps :
  Forall (λ p, c ∉ p) ps → ps ≠ [] → split_by (N.eqb c) (join [c] ps) = ps.
Proof.
  induction 1 as [|p ps Hp Hps IH]; [done|]. intros _. destruct ps as [|p' ps].
  - by apply split_by_last.
  - rewrite join_cons by done. cbn [app]. rewrite split_by_app by done. by rewrite IH.
Qed.
Lemma join_inj c ps qs :
  Forall (λ p, c ∉ p) ps → Forall (λ p, c ∉ p) qs → ps ≠ [] → qs ≠ [] →
  join [c] ps = join [c] qs → ps = qs.
Proof.
  intros Hp Hq Np Nq E. rewrite <-(split_by_join c ps), <-(split_by_join c qs) by done. by rewrite E.
Qed.
Lemma split_by_nonnil {A} (f : A → bool) s : split_by f s ≠ [].
Proof. induction s as [|x s IH]; simpl; [done|]. destruct (f x); [done|]. by destruct (split_by f s). Qed.
Lemma join_split_by c s : join [c] (split_by (N.eqb c) s) = s.
Proof.
  induction s as [|x s IH]; [done|]. simpl. pose proof (split_by_nonnil (N.eqb c) s).
  destruct (N.eqb_spec c x) as [->|].
  - rewrite join_cons by done. cbn. by rewrite IH.
  - destruct (split_by (N.eqb c) s) as [|p [|q ps]] eqn:E; [done|by simpl in *; subst|].
    rewrite join_cons in * by done. rewrite <-IH. done.
Qed.

(** ** The laws *)
Section laws.
Context (U : Type) `{!Url U}.
Implicit Types (u v : U).

(** No credentials, port, query or fragment. *)
Definition plain_url u : Prop :=
  username u = [] ∧ password u = None ∧ port u = None ∧ query u = None ∧ fragment u = None.
(** Everything but the host and the path is the same. *)
Definition same_rest u v : Prop :=
  scheme u = scheme v ∧ username u = username v ∧ password u = password v ∧ port u = port v
  ∧ query u = query v ∧ fragment u = fragment v.

(** The alphabet of URL-safe base64, and the names that [push] appends as they
    are written: no dots, and nothing that the URL parser drops or rewrites. *)
Definition url_safe (c : char) : bool :=
  is_ascii_alphabetic c || is_ascii_digit c || (c =? 45)%N || (c =? 95)%N.
Definition pushable (s : str) : Prop :=
  scalars s ∧ s ≠ DOT ∧ s ≠ DOTDOT ∧ Forall (λ c, 32 ≤ c ∧ c ≠ 124)%N s.

(** [PathSegmentsMut::pop] and [pop_if_empty]. *)
Definition popped (segments : list str) : list str :=
  match removelast segments with [] => [[]] | l => l end.
Definition popped_if_empty (segments : list str) : list str :=
  if bool_decide (last segments = Some []) then popped segments else segments.
(** What the next segment is appended to: the path [/] has one empty segment. *)
Definition before_push (segments : list str) : list str :=
  if bool_decide (segments = [[]]) then [] else segments.

Class UrlLaws : Prop := {
  as_str_inj u v : as_str u = as_str v → u = v;
  file_segments u : scheme u = FILE_SCHEME →
    ∃ ss, path_segments u = Some ss ∧ ss ≠ [] ∧ Forall (λ s, SLASH ∉ s) ss
          ∧ url_path u = SLASH :: join [SLASH] ss;
  file_as_str u : scheme u = FILE_SCHEME → plain_url u →
    as_str u = lit "file://" ++ default [] (host_str u) ++ url_path u;
  host_no_slash u h : host_str u = Some h → SLASH ∉ h;
  set_path_case u q : scheme u = FILE_SCHEME → lower q = lower (url_path u) →
    url_path (set_path q u) = q ∧ host_str (set_path q u) = host_str u ∧ same_rest (set_path q u) u;
  set_host_none u : scheme u = FILE_SCHEME →
    ∃ v, set_host None u = Some v ∧ host_str v = None ∧ url_path v = url_path u ∧ same_rest v u;
  set_host_some h u v : set_host (Some h) u = Some v → url_path v = url_path u ∧ same_rest v u;
  pop_frame u : host_str (seg_pop u) = host_str u ∧ same_rest (seg_pop u) u;
  pop_segments u ss : path_segments u = Some ss → path_segments (seg_pop u) = Some (popped ss);
  pop_if_empty_frame u : host_str (seg_pop_if_empty u) = host_str u ∧ same_rest (seg_pop_if_empty u) u;
  pop_if_empty_segments u ss :
    path_segments u = Some ss → path_segments (seg_pop_if_empty u) = Some (popped_if_empty ss);
  clear_frame u : host_str (seg_clear u) = host_str u ∧ same_rest (seg_clear u) u;
  clear_segments u ss : path_segments u = Some ss → path_segments (seg_clear u) = Some [[]];
  push_frame s u : host_str (seg_push s u) = host_str u ∧ same_rest (seg_push s u) u;
  push_segments s u ss : path_segments u = Some ss → pushable s →
    ∃ e, path_segments (seg_push s u) = Some (before_push ss ++ [e]) ∧ decode_binary e = as_bytes s;
  decode_case s t : lower s = lower t → lower (decode_binary s) = lower (decode_binary t);
  decode_nil s : decode_binary s = [] ↔ s = [];
  decode_slash s t : decode_binary (s ++ SLASH :: t) = decode_binary s ++ SLASH :: decode_binary t;
  decode_utf8 s : url_decode s = match from_utf8 (decode_binary s) with Ok t => Some t | _ => None end;
  decode_plain s : 37%N ∉ s → decode_binary s = s;
  decode_drive s : is_windows_drive_uri_segment s = true → decode_binary s = take 1 s ++ [COLON];
  decode_nul : decode_binary (lit "%00") = [NUL];
  b64_alphabet bs : Forall (λ c, url_safe c = true) (b64_encode bs);
  b64_round_trip bs : b64_decode (b64_encode bs) = Some bs;
  b64_nil bs : b64_encode bs = [] → bs = [];
  parse_root :
    ∃ u, url_parse (lit "file:///") = inr u ∧ scheme u = FILE_SCHEME ∧ plain_url u
         ∧ host_str u = None ∧ path_segments u = Some [[]];
  parse_bad s : Forall (λ c, url_safe c = true) s →
    ∃ u, url_parse (BAD_PATH_URI_PREFIX ++ s) = inr u ∧ scheme u = FILE_SCHEME ∧ plain_url u
         ∧ host_str u = None ∧ as_str u = BAD_PATH_URI_PREFIX ++ s;
}.
End laws.
Arguments plain_url {U _} u.
Arguments same_rest {U _} u v.
