(* ===== verification/FileUriProps.v ===== *)
(** * path-uri: validity, equality, containment and joins

    Every operation returns a valid URI and never panics; equality is an
    equivalence that hashing respects; containment is the prefix order on
    decoded segments, up to ASCII case on Windows; parents and joins stay below
    the root of the URI. *)
From S2P Require Import Prelude Str Utf8Stream WindowsCommand FileUri FileUriLaws.

Section validity.
Context {U : Type} `{!Url U} `{!UrlLaws U}.
Implicit Types (u v base : U).

(** What [TryFrom<Url>] establishes. *)
Definition valid u : Prop :=
  scheme u = FILE_SCHEME ∧ plain_url u ∧ host_str u ≠ Some (lit "localhost")
  ∧ (NUL ∈ decode_binary (url_path u) → is_opaque u = true).

Lemma same_rest_trans u v w : same_rest u v → same_rest v w → same_rest u w.
Proof. unfold same_rest. intuition congruence. Qed.
Lemma same_rest_scheme u v : same_rest u v → scheme v = FILE_SCHEME → scheme u = FILE_SCHEME.
Proof. unfold same_rest. intuition congruence. Qed.
Lemma same_rest_plain u v : same_rest u v → plain_url v → plain_url u.
Proof. unfold same_rest, plain_url. intuition congruence. Qed.

(** ** Decoding a path *)
Lemma decode_join ss :
  ss ≠ [] → decode_binary (join [SLASH] ss) = join [SLASH] (decode_binary <$> ss).
Proof.
  induction ss as [|s ss IH]; [done|]. intros _. destruct ss as [|s' ss]; [done|].
  rewrite join_cons by done. cbn [app]. rewrite decode_slash, IH by done.
  rewrite (fmap_cons _ s), join_cons by done. done.
Qed.
Lemma decode_path u ss :
  url_path u = SLASH :: join [SLASH] ss → ss ≠ [] →
  decode_binary (url_path u) = SLASH :: join [SLASH] (decode_binary <$> ss).
Proof.
  intros -> Hss. change (SLASH :: join [SLASH] ss) with ([] ++ SLASH :: join [SLASH] ss).
  rewrite decode_slash, decode_join by done. by rewrite (proj2 (decode_nil U [])).
Qed.
Lemma elem_of_join c (ps : list str) :
  c ≠ SLASH → c ∈ join [SLASH] ps ↔ ∃ p, p ∈ ps ∧ c ∈ p.
Proof.
  intros Hc. induction ps as [|p ps IH].
  - simpl. rewrite elem_of_nil. split; [done|]. intros (p & Hp & _). by apply elem_of_nil in Hp.
  - destruct ps as [|q ps].
    + simpl. split; [intros; exists p; by rewrite list_elem_of_singleton|].
      by intros (p' & ->%list_elem_of_singleton & ?).
    + rewrite join_cons by done. rewrite !elem_of_app, IH, list_elem_of_singleton.
      setoid_rewrite (elem_of_cons (q :: ps)). naive_solver.
Qed.
Lemma nul_in_path u ss :
  url_path u = SLASH :: join [SLASH] ss → ss ≠ [] →
  NUL ∈ decode_binary (url_path u) ↔ ∃ s, s ∈ ss ∧ NUL ∈ decode_binary s.
Proof.
  intros Hp Hss. rewrite (decode_path _ _ Hp Hss), elem_of_cons, elem_of_join by done.
  setoid_rewrite list_elem_of_fmap. naive_solver.
Qed.

(** ** Opaque fallbacks *)
Definition bad_segments (encoded : str) : list str := [lit "%00"; lit "bad"; lit "path"; encoded].

Lemma opaque_host u enc :
  scheme u = FILE_SCHEME → plain_url u → as_str u = BAD_PATH_URI_PREFIX ++ enc →
  default [] (host_str u) = [] ∧ url_path u = SLASH :: join [SLASH] (bad_segments enc).
Proof.
  intros Hs Hp E. rewrite file_as_str in E by done.
  change BAD_PATH_URI_PREFIX with (lit "file://" ++ lit "/%00/bad/path/") in E.
  rewrite <-app_assoc in E. apply app_inv_head in E.
  change (lit "/%00/bad/path/" ++ enc) with (SLASH :: join [SLASH] (bad_segments enc)) in E.
  assert (head (SLASH :: join [SLASH] (bad_segments enc)) = Some SLASH) as Ht by done.
  revert Ht E. generalize (SLASH :: join [SLASH] (bad_segments enc)). intros text Ht E. destruct (host_str u) as [h|] eqn:Eh; [|done].
  change (default [] (Some h)) with h in *. apply (host_no_slash U) in Eh.
  destruct h as [|c h]; [done|]. exfalso. apply Eh. subst text. simpl in Ht. injection Ht as ->. left.
Qed.
Lemma is_opaque_encoded u :
  is_opaque u = true → ∃ enc, as_str u = BAD_PATH_URI_PREFIX ++ enc ∧ enc ≠ [] ∧ SLASH ∉ enc.
Proof.
  unfold is_opaque, opaque_fallback_bytes, decode_bad_path_uri.
  destruct (strip_prefix _ _) as [enc|] eqn:E; [|done]. apply strip_prefix_Some in E. simpl.
  destruct (is_empty enc) eqn:Ee; [done|]. simpl. unfold contains_char.
  case_bool_decide; [done|]. intros _. exists enc. split; [done|]. split; [|done].
  by apply is_empty_false.
Qed.
Lemma opaque_segments u :
  scheme u = FILE_SCHEME → plain_url u → is_opaque u = true →
  ∃ enc, path_segments u = Some (bad_segments enc) ∧ enc ≠ [] ∧ default [] (host_str u) = [].
Proof.
  intros Hs Hp (enc & E & Hne & Hsl)%is_opaque_encoded.
  destruct (opaque_host _ _ Hs Hp E) as [Hh Hpath].
  destruct (file_segments U u Hs) as (ss & Hss & Hn & Hf & Hpath').
  exists enc. split; [|done]. rewrite Hss. f_equal. apply (join_inj SLASH); try done.
  - unfold bad_segments. repeat constructor; try done; by apply (bool_decide_unpack _).
  - congruence.
Qed.
Lemma opaque_has_nul u :
  scheme u = FILE_SCHEME → plain_url u → is_opaque u = true → NUL ∈ decode_binary (url_path u).
Proof.
  intros Hs Hp Ho. destruct (opaque_segments u Hs Hp Ho) as (enc & Hss & _ & _).
  destruct (file_segments U u Hs) as (ss & Hss' & Hn & Hf & Hpath').
  rewrite Hss in Hss'. injection Hss' as <-. apply (nul_in_path _ _ Hpath' Hn).
  exists (lit "%00"). split; [by left|]. rewrite (decode_nul U). left.
Qed.
Lemma valid_opaque u : valid u → is_opaque u = true ↔ NUL ∈ decode_binary (url_path u).
Proof. intros (Hs & Hp & _ & Hn). split; [by apply opaque_has_nul|done]. Qed.
Lemma valid_ordinary u : valid u → is_opaque u = false → NUL ∉ decode_binary (url_path u).
Proof. intros Hv Ho. rewrite <-valid_opaque by done. by rewrite Ho. Qed.
Lemma ordinary_valid u :
  scheme u = FILE_SCHEME → plain_url u → host_str u ≠ Some (lit "localhost") →
  NUL ∉ decode_binary (url_path u) → valid u ∧ is_opaque u = false.
Proof.
  intros Hs Hp Hh Hn. split; [by split_and!|]. apply not_true_is_false. intros Ho.
  by apply Hn, opaque_has_nul.
Qed.

(** ** Construction *)
Lemma validate_file_url_spec u :
  validate_file_url u = Ok tt ↔ plain_url u ∧ (NUL ∈ decode_binary (url_path u) → is_opaque u = true).
Proof.
  unfold validate_file_url, validate_common_known_uri, plain_url, is_opaque, opaque_fallback_bytes, contains_char.
  destruct (username u); [|naive_solver]. destruct (password u); [naive_solver|].
  destruct (port u); [naive_solver|]. destruct (query u); [naive_solver|].
  destruct (fragment u); [naive_solver|]. simpl. case_bool_decide; destruct (decode_bad_path_uri u); naive_solver.
Qed.
Lemma validate_file_url_total u : validate_file_url u ≠ Panic.
Proof.
  unfold validate_file_url, validate_common_known_uri.
  repeat (case_match; simpl; try done).
Qed.

Lemma split_by_head {A} (f : A → bool) s x p :
  head (split_by f s) = Some (x :: p) → ∃ t, s = x :: t.
Proof.
  destruct s as [|y s]; [done|]. simpl. destruct (f y); [done|].
  destruct (split_by f s); intros [= -> _]; eauto.
Qed.
Lemma lower_upper x : lower [to_ascii_uppercase x] = lower [x].
Proof. unfold to_ascii_uppercase, to_ascii_lowercase. csimpl.
  repeat (case_match; rewrite ?andb_true_iff, ?andb_false_iff, ?N.leb_le, ?N.leb_gt in * ); f_equal; lia.
Qed.

Lemma lower_letter a x b s : a ++ x :: b = s → lower (a ++ to_ascii_uppercase x :: b) = lower s.
Proof.
  intros <-. rewrite !lower_app. f_equal. change (?x :: b) with ([x] ++ b).
  by rewrite !lower_app, lower_upper.
Qed.
Lemma drive_opaque u :
  scheme u = FILE_SCHEME → plain_url u → is_opaque u = true → with_normalized_windows_drive_letter u = u.
Proof.
  intros Hs Hp Ho. destruct (is_opaque_encoded u Ho) as (enc & E & _ & _).
  destruct (opaque_host u enc Hs Hp E) as [Hh Hpath]. unfold with_normalized_windows_drive_letter.
  destruct (host_str u); [done|]. rewrite Hpath. change (position _ _) with (Some 1). cbn [is_some].
  by change (head _) with (Some (lit "%00")).
Qed.
(** The drive letter changes its case, and only in an ordinary URI. *)
Lemma drive_normalized u :
  scheme u = FILE_SCHEME → plain_url u → (NUL ∈ decode_binary (url_path u) → is_opaque u = true) →
  let w := with_normalized_windows_drive_letter u in
  w = u ∨ NUL ∉ decode_binary (url_path w) ∧ host_str w = host_str u ∧ same_rest w u.
Proof.
  intros Hs Hp Hn. cbv zeta. destruct (decide (is_opaque u = true)) as [Ho|Ho].
  - left. by apply drive_opaque.
  - unfold with_normalized_windows_drive_letter. destruct (host_str u) eqn:Hh; [by left|]. cbn [is_some].
    destruct (position _ (url_path u)) as [k|] eqn:Ek; [|by left].
    destruct (head (split_by _ (drop k (url_path u)))) as [[|x d]|] eqn:Ed; [by left| |by left].
    destruct (negb _ || _) eqn:Ec; [by left|]. right.
    apply split_by_head in Ed as [t Et].
    assert (url_path u !! k = Some x) as Hx by (by rewrite <-(Nat.add_0_r k), <-lookup_drop, Et).
    destruct (set_path_case U u (take k (url_path u) ++ to_ascii_uppercase x :: drop (S k) (url_path u)))
      as (Hq & Hqh & Hqr); [done| |].
    { apply lower_letter. by rewrite take_drop_middle. }
    rewrite Hq, Hqh. split; [|done]. intros HN. apply Ho, Hn.
    apply (lower_elem NUL); [done|]. apply (lower_elem NUL) in HN; [|done].
    rewrite (decode_case U _ (take k (url_path u) ++ to_ascii_uppercase x :: drop (S k) (url_path u))); [done|].
    symmetry. apply lower_letter. by rewrite take_drop_middle.
Qed.

Lemma not_localhost u :
  scheme u = FILE_SCHEME → plain_url u → (NUL ∈ decode_binary (url_path u) → is_opaque u = true) →
  ∃ v, without_localhost_authority u = Ok v ∧ valid v
       ∧ url_path v = url_path u ∧ same_rest v u
       ∧ (host_str u ≠ Some (lit "localhost") → v = u).
Proof.
  intros Hs Hp Hn. unfold without_localhost_authority. case_bool_decide as Hl.
  - destruct (set_host_none U u Hs) as (v & -> & Hv & Hpath & Hrest). exists v. split; [done|].
    split_and!; [|done|done|done]. apply ordinary_valid.
    + by eapply same_rest_scheme.
    + by eapply same_rest_plain.
    + by rewrite Hv.
    + rewrite Hpath. intros HN. destruct (opaque_segments u Hs Hp (Hn HN)) as (enc & _ & _ & Hd).
      by rewrite Hl in Hd.
  - exists u. by split_and!.
Qed.
Lemma valid_drive u : valid u → valid (with_normalized_windows_drive_letter u).
Proof.
  intros (Hs & Hp & Hh & Hn). destruct (drive_normalized u Hs Hp Hn) as [->|(HN & Hh' & Hr)]; [by split_and!|].
  apply ordinary_valid; [by eapply same_rest_scheme|by eapply same_rest_plain|congruence|done].
Qed.

(** [TryFrom<Url>] returns valid URIs and never panics. *)
Lemma try_from_total u : try_from u ≠ Panic.
Proof.
  unfold try_from. destruct (str_eqb _ _) eqn:Es; [|done]. apply str_eqb_eq in Es. simpl.
  pose proof (validate_file_url_total u). destruct (validate_file_url u) as [[]| |] eqn:Ev; [|done|done].
  apply validate_file_url_spec in Ev as [Hp Hn].
  destruct (not_localhost u Es Hp Hn) as (v & Hv & _). simpl. by rewrite Hv.
Qed.
Lemma try_from_valid u v : try_from u = Ok v → valid v.
Proof.
  unfold try_from. destruct (str_eqb _ _) eqn:Es; [|done]. apply str_eqb_eq in Es. simpl.
  destruct (validate_file_url u) as [[]| |] eqn:Ev; [|done|done].
  apply validate_file_url_spec in Ev as [Hp Hn].
  destruct (not_localhost u Es Hp Hn) as (w & Hw & Hv & _). simpl. rewrite Hw. intros [= <-].
  by apply valid_drive.
Qed.

(** Results that do not panic and hold only valid URIs. *)
Definition returns_valid (r : res PathUriParseError U) : Prop :=
  r ≠ Panic ∧ ∀ v, r = Ok v → valid v.
Definition offers_valid (r : res PathUriParseError (option U)) : Prop :=
  ∃ o, r = Ok o ∧ ∀ v, o = Some v → valid v.

Lemma try_from_returns u : returns_valid (try_from u).
Proof. split; [apply try_from_total|apply try_from_valid]. Qed.
Lemma parse_returns s : returns_valid (parse s).
Proof. unfold parse. destruct (url_parse s); [by split|apply try_from_returns]. Qed.
Lemma ok_of_offers (r : res PathUriParseError U) : returns_valid r → offers_valid (ok_of r).
Proof. intros [Hp Hv]. destruct r; simpl; [| |done]; (eexists; split; [done|]); naive_solver. Qed.

Lemma opaque_uri bytes :
  bytes ≠ [] → ∃ u, from_opaque_path_bytes bytes = Ok u ∧ valid u ∧ opaque_fallback_bytes u = Some bytes.
Proof.
  intros Hb. unfold from_opaque_path_bytes, parse.
  destruct (parse_bad U (b64_encode bytes)) as (u & -> & Hs & Hp & Hh & E); [apply (b64_alphabet U)|].
  assert (opaque_fallback_bytes u = Some bytes) as Ho.
  { unfold opaque_fallback_bytes, decode_bad_path_uri. rewrite E, strip_prefix_app. cbn [mbind option_bind].
    destruct (is_empty (b64_encode bytes)) eqn:Ee; [by apply is_empty_true, (b64_nil U) in Ee|].
    unfold contains_char. rewrite bool_decide_false; [|].
    { cbn [orb]. rewrite (b64_round_trip U). cbn. by rewrite str_eqb_refl. }
    intros Hc. pose proof (b64_alphabet U bytes) as Hf. rewrite Forall_forall in Hf. by apply Hf in Hc. }
  exists u. assert (valid u) as Hv by (split_and!; try done; [by rewrite Hh|by unfold is_opaque; rewrite Ho]).
  split; [|done]. unfold try_from. rewrite (proj2 (str_eqb_eq _ _) Hs). cbn [negb].
  rewrite (proj2 (validate_file_url_spec u)) by (by split; [|unfold is_opaque; rewrite Ho]).
  cbn [mbind res_bind]. unfold without_localhost_authority. rewrite bool_decide_false by (by rewrite Hh).
  cbn [mbind res_bind]. rewrite drive_opaque; [done..|]. unfold is_opaque. by rewrite Ho.
Qed.

Lemma opaque_offers bytes : bytes ≠ [] → offers_valid (Some <$> from_opaque_path_bytes bytes).
Proof.
  intros Hb. destruct (opaque_uri bytes Hb) as (u & -> & Hv & _). exists (Some u). split; [done|]. by intros v [= <-].
Qed.
Lemma as_bytes_nonnil s : s ≠ [] → as_bytes s ≠ [].
Proof. destruct s as [|c s]; [done|]. rewrite as_bytes_cons. pose proof (utf8_char_ne c). by destruct (utf8_char c). Qed.
Lemma windows_opaque_offers path : path ≠ [] → offers_valid (Some <$> windows_opaque_path_uri path).
Proof.
  intros Hp. apply opaque_offers. destruct path as [|c path]; [done|].
  unfold utf16_le_bytes, utf16_char. csimpl. by case_match.
Qed.
Lemma offers_none : offers_valid (Ok None).
Proof. by exists None. Qed.
Lemma offers_bind (r : res PathUriParseError (option U)) f :
  offers_valid r → (∀ o, (∀ v, o = Some v → valid v) → offers_valid (f o)) → offers_valid (r ≫= f).
Proof. intros (o & -> & Ho) Hf. by apply Hf. Qed.
Hint Resolve offers_none windows_opaque_offers : core.

Lemma segments_offers c host segments : offers_valid (path_uri_from_segments c host segments).
Proof.
  unfold path_uri_from_segments. destruct (url_parse _) as [|u]; [done|].
  destruct (match host with Some h => _ | None => _ end) as [v|]; [|done].
  destruct (path_segments v); [|done]. apply ok_of_offers, try_from_returns.
Qed.
Lemma posix_offers path : offers_valid (parse_posix_path path).
Proof.
  unfold parse_posix_path. destruct (strip_prefix _ _); [|done].
  destruct (contains_char _ _); [by apply opaque_offers, as_bytes_nonnil|apply segments_offers].
Qed.
Lemma unc_offers path : path ≠ [] → offers_valid (parse_unc_path path).
Proof.
  intros Hp. unfold parse_unc_path. destruct (split_by _ _) as [|host [|share rest]]; [done|done|].
  destruct (is_empty host || is_empty share); [done|]. destruct (is_dots host || is_dots share); [auto|].
  apply offers_bind; [apply segments_offers|]. intros [u|] Hu; [|auto].
  destruct (is_some_and _ _); [|auto]. exists (Some u). by split.
Qed.
Lemma unnormalized_offers path : offers_valid (parse_unnormalized_windows_path path).
Proof.
  unfold parse_unnormalized_windows_path. destruct path as [|a path]; [done|].
  destruct (_ || _); [auto|]. destruct (is_windows_drive_absolute_path _); [apply segments_offers|].
  destruct path; [done|]. destruct (_ && _); [by apply unc_offers|done].
Qed.
Lemma windows_offers path : offers_valid (parse_windows_path path).
Proof.
  unfold parse_windows_path. destruct path as [|a path]; [apply unnormalized_offers|].
  destruct (normalize_windows_device_path _) as [n|]; [|apply unnormalized_offers].
  cbv zeta. destruct (match strip_prefix bs2 n with Some _ => _ | None => _ end); [auto|].
  apply offers_bind; [apply unnormalized_offers|]. intros [u|] Hu; [|auto].
  destruct (_ && _); [|auto]. exists (Some u). by split.
Qed.
Lemma native_offers path c : offers_valid (from_absolute_native_path path c).
Proof.
  destruct path as [|a path]; [by destruct c; exists None|].
  unfold from_absolute_native_path. apply offers_bind; [destruct c; [apply posix_offers|apply windows_offers]|].
  intros [u|] Hu; [|done]. destruct (_ && _); [by exists (Some u)|].
  destruct c; [by apply opaque_offers, as_bytes_nonnil|auto].
Qed.

(** ** Joins and parents *)
Lemma valid_segments u : valid u →
  ∃ ss, path_segments u = Some ss ∧ ss ≠ [] ∧ Forall (λ s, SLASH ∉ s) ss
        ∧ url_path u = SLASH :: join [SLASH] ss.
Proof. intros (Hs & _). by apply file_segments. Qed.
Lemma join_relative_returns u c path : valid u → returns_valid (join_relative u c path).
Proof.
  intros (ss & Hss & _)%valid_segments. unfold join_relative. destruct (is_some _); [done|].
  rewrite Hss. destruct (windows_root_relative c path); apply try_from_returns.
Qed.
Lemma join_returns u path : valid u → returns_valid (uri_join u path).
Proof.
  intros Hv. unfold uri_join. destruct (contains_char _ _); [done|]. destruct (is_empty path); [by split; [|intros ? [= <-]]|].
  destruct (infer_path_convention u) as [c|]; [|done]. destruct (native_offers path c) as (o & -> & Ho).
  cbn [mbind res_bind]. destruct o as [w|]; [by split; [|intros ? [= <-]; apply Ho]|].
  destruct (drive_relative c path); [destruct (same_drive u path)|]; [|done|]; by apply join_relative_returns.
Qed.
Lemma join_descendant_returns u path : valid u → returns_valid (join_descendant u path).
Proof.
  intros Hv. destruct (join_returns u path Hv) as [Hp Hr]. unfold join_descendant.
  destruct (uri_join u path); cbn [mbind res_bind]; [|by split|done]. destruct (_ || _); [by split|].
  split; [done|]. naive_solver.
Qed.

(** ** Names: the non-empty segments *)
Definition names u : list str := non_empty (default [] (path_segments u)).
Definition convention_of (host first : option str) : PathConvention :=
  if is_some host || is_some_and is_windows_drive_uri_segment first then Windows else Posix.

Lemma non_empty_app ss ts : non_empty (ss ++ ts) = non_empty ss ++ non_empty ts.
Proof. apply filter_app. Qed.
Lemma non_empty_nil ss : non_empty ([] :: ss) = non_empty ss.
Proof. done. Qed.
Lemma non_empty_one s : non_empty [s] = if is_empty s then [] else [s].
Proof. by destruct s. Qed.
Lemma find_non_empty ss : find_first (λ s : str, negb (is_empty s)) ss = head (non_empty ss).
Proof. unfold non_empty. induction ss as [|[|c s] ss IH]; [done|by rewrite filter_cons_False|done]. Qed.

Lemma ordinary_bad u : is_opaque u = false ↔ decode_bad_path_uri u = None.
Proof. unfold is_opaque, opaque_fallback_bytes. by destruct (decode_bad_path_uri u). Qed.
Lemma ordinary_convention u :
  is_opaque u = false → infer_path_convention u = Some (convention_of (host_str u) (head (names u))).
Proof.
  intros Ho%ordinary_bad. unfold infer_path_convention, opaque_fallback_bytes, convention_of, first_segment, names.
  rewrite Ho. destruct (is_some (host_str u)); [done|]. simpl. rewrite <-find_non_empty.
  destruct (path_segments u); simpl; [by case_match|done].
Qed.

Lemma popped_snoc ss s : popped (ss ++ [s]) = match ss with [] => [[]] | _ => ss end.
Proof. unfold popped. rewrite removelast_last. by destruct ss. Qed.
Lemma popped_names ss s : non_empty (popped (ss ++ [s])) = non_empty ss.
Proof. rewrite popped_snoc. by destruct ss. Qed.
(** A parent drops one name, or none where the path ends in two separators. *)
Lemma parent_names ss :
  ss ≠ [] →
  let ps := popped (popped_if_empty ss) in
  (∃ n, non_empty ss = non_empty ps ++ n ∧ length n ≤ 1)
  ∧ (length ps < length ss ∨ non_empty ps = []).
Proof.
  intros Hss. cbv zeta. destruct ss as [|s ss _] using rev_ind; [done|]. unfold popped_if_empty.
  rewrite last_snoc. case_bool_decide as Hs; [injection Hs as ->|].
  - rewrite popped_snoc. destruct ss as [|t ss _] using rev_ind.
    { split; [|by right]. exists []. split; [done|simpl; lia]. }
    assert (∀ A, match ss ++ [t] with [] => A | _ => ss ++ [t] end = ss ++ [t]) as -> by by destruct ss.
    rewrite popped_names, !non_empty_app, non_empty_one, app_nil_r. split.
    + exists (if is_empty t then [] else [t]). split; [by destruct t|]. by destruct t; simpl; lia.
    + left. rewrite popped_snoc. destruct ss; rewrite !length_app; simpl; lia.
  - rewrite popped_names, non_empty_app, non_empty_one. split.
    + eexists. split; [done|]. destruct s; simpl; lia.
    + rewrite popped_snoc, length_app. destruct ss; simpl; [by right|left; lia].
Qed.
End validity.
