(* ===== verification/FileUriOrder.v ===== *)
(** * path-uri: equality, hashing, containment and ancestors

    Equality is an equivalence that hashing respects; containment is the prefix
    order on decoded names, up to ASCII case on Windows; the ancestors of a URI
    end at its root and contain it. *)
From S2P Require Import Prelude Str Utf8Stream WindowsCommand FileUri FileUriLaws FileUriProps.

Section order.
Context {U : Type} `{!Url U} `{!UrlLaws U}.
Implicit Types (u v w base : U).

(** ** Locations *)
Definition conv u : PathConvention := convention_of (host_str u) (head (names u)).
(** The identity of a name: its decoded bytes, up to ASCII case on Windows. *)
Definition canon (c : PathConvention) (s : str) : list N :=
  match c with Posix => decode_binary s | Windows => lower (decode_binary s) end.
Definition location u : option str * PathConvention * list (list N) :=
  (host_str u, conv u, canon (conv u) <$> names u).

(** Names without an encoded separator, and names that are text. *)
Definition ambiguous (c : PathConvention) (s : str) : bool :=
  existsb (λ b, (b =? SLASH)%N || (bool_decide (c = Windows) && (b =? BACKSLASH)%N)) (decode_binary s).
Definition lexical u : Prop := is_opaque u = false ∧ existsb (ambiguous (conv u)) (names u) = false.
Definition textual u : Prop := conv u = Windows → Forall (λ s, is_some (url_decode s) = true) (names u).

Lemma containment_names u c :
  valid u → containment_path_segments u c = if existsb (ambiguous c) (names u) then None else Some (names u).
Proof.
  intros (ss & Hss & _)%valid_segments. unfold containment_path_segments, names. rewrite Hss. done.
Qed.
Lemma lexical_depth_spec u d :
  valid u → lexical_depth u = Some d ↔ lexical u ∧ d = length (names u).
Proof.
  intros Hv. unfold lexical_depth, lexical. rewrite ordinary_bad. destruct (decode_bad_path_uri u) eqn:Hb; [naive_solver|].
  cbn [is_some]. rewrite ordinary_convention by by apply ordinary_bad. cbn [mbind option_bind].
  change (convention_of _ _) with (conv u). rewrite containment_names by done.
  destruct (existsb _ _); naive_solver.
Qed.
Lemma lexical_depth_names u : valid u → lexical u → lexical_depth u = Some (length (names u)).
Proof. intros. by apply lexical_depth_spec. Qed.

Lemma names_segments u ss : path_segments u = Some ss → names u = non_empty ss.
Proof. unfold names. by intros ->. Qed.

(** ** Names that match *)
Lemma url_decode_text s t :
  url_decode s = Some t → decode_binary s = as_bytes t ∧ scalars t.
Proof. rewrite (decode_utf8 U). destruct (from_utf8 _) eqn:E; [|done|done]. intros [= <-]. by apply from_utf8_Ok. Qed.
Lemma segment_matches_canon c s b :
  (c = Windows → is_some (url_decode s) = true ∧ is_some (url_decode b) = true) →
  segment_matches c s b = true ↔ canon c s = canon c b.
Proof.
  intros Ht. destruct c; simpl; [apply str_eqb_eq|]. destruct (Ht eq_refl) as [Hs Hb].
  unfold decode_uri_path. destruct (url_decode s) as [ts|] eqn:Es; [|done].
  destruct (url_decode b) as [tb|] eqn:Eb; [|done]. cbn [default from_option].
  apply url_decode_text in Es as [Es Hts]. apply url_decode_text in Eb as [Eb Htb].
  rewrite orb_true_iff, !eq_ignore_case_iff. split.
  - intros [H|H]; [by apply (decode_case U)|]. rewrite Es, Eb. by apply (lower_text ts tb Hts Htb).
  - intros H. right. apply (lower_text ts tb Hts Htb). by rewrite <-Es, <-Eb.
Qed.
Lemma forallb_zip_prefix {A} (m : str → str → bool) (f : str → A) ss bs :
  (∀ s b, s ∈ ss → b ∈ bs → m s b = true ↔ f s = f b) →
  (length bs <=? length ss) && forallb (λ x, m x.1 x.2) (zip ss bs) = true
  ↔ (f <$> bs) `prefix_of` (f <$> ss).
Proof.
  revert bs. induction ss as [|s ss IH]; intros [|b bs] Hm.
  - simpl. split; [intros; apply prefix_nil|done].
  - simpl. split; [done|]. intros H%prefix_length. simpl in H. lia.
  - simpl. split; [intros; apply prefix_nil|done].
  - csimpl. change (S (length bs) <=? S (length ss)) with (length bs <=? length ss).
    rewrite (andb_comm (m s b)), andb_assoc, andb_true_iff, IH.
    + rewrite Hm by left. split; [intros [H ->]; by apply prefix_cons|].
      intros H. split; [by eapply prefix_cons_inv_2|]. symmetry. by eapply prefix_cons_inv_1.
    + intros s' b' Hs Hb. apply Hm; by right.
Qed.
Lemma start_with_prefix u base :
  textual u → textual base → conv u = conv base →
  native_path_segments_start_with (names u) (names base) (conv u) = true
  ↔ (canon (conv base) <$> names base) `prefix_of` (canon (conv u) <$> names u).
Proof.
  intros Hu Hb E. rewrite <-E. apply forallb_zip_prefix. intros s b Hs Hin. apply segment_matches_canon.
  unfold textual in *. rewrite <-E in Hb. rewrite Forall_forall in Hu, Hb. naive_solver.
Qed.

(** ** Equality *)
Lemma lower_join ps : lower (join [SLASH] ps) = join [SLASH] (lower <$> ps).
Proof.
  induction ps as [|p ps IH]; [done|]. destruct ps as [|q ps]; [done|].
  rewrite join_cons, !lower_app, IH, (fmap_cons _ p), join_cons by done. done.
Qed.
Lemma identity_spec u bytes :
  valid u → windows_identity_path_bytes u = Some bytes →
  is_opaque u = false ∧ conv u = Windows
  ∧ ∃ ss, path_segments u = Some ss ∧ ss ≠ [] ∧ Forall (λ s, SLASH ∉ lower (decode_binary s)) ss
          ∧ lower bytes = SLASH :: join [SLASH] ((lower ∘ decode_binary) <$> ss).
Proof.
  intros Hv. unfold windows_identity_path_bytes. destruct (valid_segments u Hv) as (ss & Hss & Hne & _ & Hpath).
  case_bool_decide as Hc; [|done]. cbn [negb orb]. destruct (is_some (opaque_fallback_bytes u)) eqn:Ho; [done|].
  rewrite Hss. cbn [mbind option_bind]. destruct (existsb _ ss) eqn:Es; [done|]. intros [= <-].
  split; [done|]. rewrite ordinary_convention in Hc by done. split; [by injection Hc|].
  exists ss. split; [done|]. split; [done|]. split.
  - apply Forall_forall. intros s Hs Hin%(proj1 (lower_elem SLASH _ eq_refl)).
    apply not_true_iff_false in Es. apply Es, existsb_exists. exists s.
    split; [by apply list_elem_of_In|]. apply existsb_exists. exists SLASH. split; [by apply list_elem_of_In|done].
  - rewrite (decode_path u ss) by done. change (SLASH :: ?l) with ([SLASH] ++ l). rewrite lower_app, lower_join.
    by rewrite list_fmap_compose.
Qed.
Lemma uri_eqb_cases u v :
  uri_eqb u v = true ↔
  u = v ∨ ∃ p q, windows_identity_path_bytes u = Some p ∧ windows_identity_path_bytes v = Some q
                 ∧ host_str u = host_str v ∧ lower p = lower q.
Proof.
  unfold uri_eqb, url_eqb. rewrite orb_true_iff, str_eqb_eq. split.
  - intros [H|H]; [left; by apply (as_str_inj U)|right].
    destruct (windows_identity_path_bytes u) as [p|], (windows_identity_path_bytes v) as [q|]; try done.
    apply andb_true_iff in H as [H1%bool_decide_eq_true H2%eq_ignore_case_iff]. eauto 8.
  - intros [->|(p & q & -> & -> & Hh & Hl)]; [by left|right].
    rewrite bool_decide_true by done. by apply eq_ignore_case_iff.
Qed.
Lemma fmap_non_empty {A} (f : str → list A) ss :
  (∀ s, f s = [] ↔ s = []) → f <$> non_empty ss = filter (λ l, l ≠ []) (f <$> ss).
Proof.
  intros Hf. unfold non_empty. induction ss as [|s ss IH]; [done|]. rewrite fmap_cons.
  destruct s as [|c s].
  - rewrite filter_cons_False, filter_cons_False; [done| |done]. intros H. by apply H, Hf.
  - rewrite filter_cons_True, filter_cons_True, fmap_cons, IH; [done| |done]. intros H. by apply Hf in H.
Qed.
(** Equal URIs denote the same location. *)
Lemma uri_eqb_location u v : valid u → valid v → uri_eqb u v = true → location u = location v.
Proof.
  intros Hu Hv [->|(p & q & Hp & Hq & Hh & Hl)]%uri_eqb_cases; [done|].
  apply identity_spec in Hp as (_ & Hcu & ss & Hss & Hne & Hf & Ep); [|done].
  apply identity_spec in Hq as (_ & Hcv & ts & Hts & Hnt & Hg & Eq); [|done].
  rewrite Ep, Eq in Hl. injection Hl as Hl. apply join_inj in Hl.
  - unfold location. rewrite Hh, Hcu, Hcv. f_equal. unfold names. rewrite Hss, Hts. cbn [default from_option].
    assert (∀ s, canon Windows s = [] ↔ s = []) as Hc.
    { intros s. simpl. rewrite <-(decode_nil U s). split; [by intros ?%lower_nil|by intros ->]. }
    rewrite !fmap_non_empty by done. f_equal. exact Hl.
  - by apply Forall_fmap.
  - by apply Forall_fmap.
  - by destruct ss.
  - by destruct ts.
Qed.

(** ** Containment *)
Lemma starts_with_eq u : uri_starts_with u u = true.
Proof. unfold uri_starts_with. by rewrite (proj2 (uri_eqb_cases u u)) by by left. Qed.
Lemma uri_starts_with_spec u base :
  valid u → valid base → lexical u → lexical base → textual u → textual base →
  uri_starts_with u base = true ↔
  host_str u = host_str base ∧ conv u = conv base
  ∧ (canon (conv base) <$> names base) `prefix_of` (canon (conv u) <$> names u).
Proof.
  intros Vu Vb [Ou Lu] [Ob Lb] Tu Tb. unfold uri_starts_with. destruct (uri_eqb u base) eqn:E.
  { apply uri_eqb_location in E; [|done..]. unfold location in E. injection E as Eh Ec En.
    rewrite Ec in En. rewrite Eh, Ec, En. by split_and!. }
  rewrite (proj1 (ordinary_bad u)), (proj1 (ordinary_bad base)) by done. cbn [is_some orb].
  rewrite !ordinary_convention by done. change (convention_of (host_str u) _) with (conv u).
  change (convention_of (host_str base) _) with (conv base).
  case_bool_decide as Hh; [|naive_solver]. cbn [negb]. case_bool_decide as Hc;
    [|split; [done|]; intros (_ & Hc2 & _); by rewrite Hc2 in Hc].
  injection Hc as Hc. cbn [negb default from_option]. rewrite !containment_names by done.
  unfold id. rewrite Lu, Hc, Lb, <-Hc. rewrite start_with_prefix by done. rewrite Hc. naive_solver.
Qed.
Lemma ambiguous_starts_with u base :
  valid u → valid base → ¬ (lexical u ∧ lexical base) → uri_starts_with u base = uri_eqb u base.
Proof.
  intros Vu Vb Hn. unfold uri_starts_with. destruct (uri_eqb u base) eqn:E; [done|].
  destruct (is_opaque u) eqn:Ou.
  { unfold is_opaque, opaque_fallback_bytes in Ou. by rewrite Ou. }
  destruct (is_opaque base) eqn:Ob.
  { unfold is_opaque, opaque_fallback_bytes in Ob. by rewrite Ob, orb_true_r. }
  rewrite (proj1 (ordinary_bad u)), (proj1 (ordinary_bad base)) by done. cbn [is_some orb].
  rewrite !ordinary_convention by done. change (convention_of (host_str u) _) with (conv u).
  change (convention_of (host_str base) _) with (conv base).
  case_bool_decide as Hh; [|done]. cbn [negb]. case_bool_decide as Hc; [|done].
  injection Hc as Hc. cbn [negb default from_option]. unfold id. rewrite !containment_names by done.
  unfold lexical in Hn. rewrite Hc in *.
  destruct (existsb _ (names u)) eqn:Eu; [done|]. destruct (existsb _ (names base)) eqn:Eb; [done|].
  destruct Hn. by split_and!.
Qed.

(** URIs equal to a lexical one are lexical. *)
Lemma identity_lexical u bytes : valid u → windows_identity_path_bytes u = Some bytes → lexical u.
Proof.
  intros Hv Hi. destruct (identity_spec u bytes Hv Hi) as (Ho & Hc & ss & Hss & _). split; [done|].
  unfold windows_identity_path_bytes in Hi. rewrite Hss in Hi. destruct (negb _ || _); [done|].
  cbn [mbind option_bind] in Hi. destruct (existsb _ ss) eqn:Es; [done|].
  rewrite Hc, (names_segments _ _ Hss). apply not_true_is_false. intros (s & Hin & Hs)%existsb_exists.
  apply not_true_iff_false in Es. apply Es, existsb_exists. exists s. split; [|exact Hs].
  apply list_elem_of_In. apply list_elem_of_In in Hin. by apply list_elem_of_filter in Hin as [_ Hin].
Qed.
Lemma uri_eqb_lexical u v : valid u → uri_eqb u v = true → lexical v → lexical u.
Proof. intros Hv [->|(p & q & Hp & _)]%uri_eqb_cases Hl; [done|]. by eapply identity_lexical. Qed.
(** Lexical URIs of the same location contain the same URIs. *)
Lemma same_location u q r :
  valid u → valid q → valid r → lexical u → lexical q → lexical r → textual u → textual q → textual r →
  location q = location r → uri_starts_with u q = true → uri_starts_with u r = true.
Proof.
  intros ? ? ? ? ? ? ? ? ? E. rewrite !uri_starts_with_spec by done. unfold location in E.
  injection E as Eh Ec En. rewrite Ec in En. rewrite Eh, Ec, En. done.
Qed.
Lemma same_location_depth q r :
  valid q → valid r → lexical q → lexical r → location q = location r → lexical_depth q = lexical_depth r.
Proof.
  intros Hq Hr Lq Lr E. rewrite !lexical_depth_names by done. unfold location in E. injection E as _ _ En.
  apply (f_equal length) in En. rewrite !length_fmap in En. by rewrite En.
Qed.

(** ** Parents *)
Lemma parent_none u :
  valid u → is_opaque u = false → parent u = None ↔ length (names u) ≤ anchor_depth (conv u).
Proof.
  intros Hv Ho. unfold parent. rewrite (proj1 (ordinary_bad u)), ordinary_convention by done.
  destruct (valid_segments u Hv) as (ss & Hss & _). cbn [is_some mbind option_bind]. unfold conv, names. rewrite Hss.
  cbn [default from_option mbind option_bind]. unfold id.
  destruct (Nat.leb_spec (length (non_empty ss)) (anchor_depth (convention_of (host_str u) (head (non_empty ss)))));
    split; intros; try done; lia.
Qed.
Lemma parent_opaque u : is_opaque u = true → parent u = None.
Proof. unfold parent, is_opaque, opaque_fallback_bytes. by intros ->. Qed.
Lemma conv_head u v :
  host_str u = host_str v → head (names u) = head (names v) → conv u = conv v.
Proof. unfold conv. by intros -> ->. Qed.
Lemma segments_no_nul v ts :
  scheme v = FILE_SCHEME → path_segments v = Some ts → (∀ s, s ∈ ts → NUL ∉ decode_binary s) →
  NUL ∉ decode_binary (url_path v).
Proof.
  intros Hs Hts Hn HN. destruct (file_segments U v Hs) as (ss & Hss & Hne & _ & Hpath).
  rewrite Hts in Hss. injection Hss as <-. apply (nul_in_path _ _ Hpath Hne) in HN as (s & Hin & HN). by apply (Hn s).
Qed.
Lemma valid_no_nul u ss s :
  valid u → is_opaque u = false → path_segments u = Some ss → s ∈ ss → NUL ∉ decode_binary s.
Proof.
  intros Hv Ho Hss Hin HN. destruct (valid_segments u Hv) as (ss' & Hss' & Hne & _ & Hpath).
  rewrite Hss in Hss'. injection Hss' as <-. apply (valid_ordinary u Hv Ho).
  apply (nul_in_path _ _ Hpath Hne). eauto.
Qed.
Lemma popped_elem s ss : s ∈ popped ss → s ∈ ss ∨ s = [].
Proof.
  destruct ss as [|x ss _] using rev_ind; [by intros ->%list_elem_of_singleton; right|].
  rewrite popped_snoc, elem_of_app. destruct ss; [by intros ->%list_elem_of_singleton; right|by left; left].
Qed.
Lemma popped_if_empty_elem s ss : s ∈ popped_if_empty ss → s ∈ ss ∨ s = [].
Proof. unfold popped_if_empty. case_bool_decide; [apply popped_elem|by left]. Qed.
Lemma nil_no_nul : NUL ∉ decode_binary [].
Proof. rewrite (proj2 (decode_nil U [])) by done. apply not_elem_of_nil. Qed.

(** The URL of a parent, whatever convention its names imply. *)
Lemma popped_url u :
  valid u → is_opaque u = false →
  let p := seg_pop (seg_pop_if_empty u) in
  valid p ∧ is_opaque p = false ∧ host_str p = host_str u
  ∧ ∃ ss, path_segments u = Some ss ∧ ss ≠ [] ∧ path_segments p = Some (popped (popped_if_empty ss)).
Proof.
  intros Hv Ho p. destruct (valid_segments u Hv) as (ss & Hss & Hne & _). pose proof Hv as (Hs & Hpl & Hl & _).
  destruct (pop_if_empty_frame U u) as [Fh Fr]. destruct (pop_frame U (seg_pop_if_empty u)) as [Gh Gr].
  pose proof (same_rest_trans _ _ _ Gr Fr) as Hr.
  pose proof (pop_segments U _ _ (pop_if_empty_segments U u ss Hss)) as Hps.
  assert (scheme p = FILE_SCHEME) by by eapply same_rest_scheme.
  destruct (ordinary_valid p) as [Hv' Ho']; [done|by eapply same_rest_plain|unfold p; congruence| |].
  - apply (segments_no_nul p _ H Hps). intros s [Hin| ->]%popped_elem; [|apply nil_no_nul].
    apply popped_if_empty_elem in Hin as [Hin| ->]; [|apply nil_no_nul]. by eapply valid_no_nul.
  - split_and!; [done..|unfold p; congruence|]. by exists ss.
Qed.
Lemma parent_spec u p :
  valid u → parent u = Some p →
  valid p ∧ is_opaque p = false ∧ host_str p = host_str u ∧ conv p = conv u
  ∧ (∃ n, names u = names p ++ n ∧ length n ≤ 1) ∧ anchor_depth (conv u) ≤ length (names p)
  ∧ (length (default [] (path_segments p)) < length (default [] (path_segments u)) ∨ parent p = None).
Proof.
  intros Hv Hp. destruct (is_opaque u) eqn:Ho; [by rewrite parent_opaque in Hp|].
  assert (anchor_depth (conv u) < length (names u)) as Hd.
  { destruct (le_lt_dec (length (names u)) (anchor_depth (conv u))) as [H|]; [|done].
    apply parent_none in H; [congruence|done|done]. }
  destruct (popped_url u Hv Ho) as (Hv' & Ho' & Hh & ss & Hss & Hne & Hps).
  pose proof (names_segments u ss Hss) as Hn. unfold parent in Hp.
  rewrite (proj1 (ordinary_bad u)), ordinary_convention, Hss in Hp by done.
  cbn [is_some mbind option_bind] in Hp. destruct (_ <=? _); [done|]. injection Hp as <-.
  set (p := seg_pop (seg_pop_if_empty u)) in *.
  destruct (parent_names ss Hne) as [(n & En & Hln) Hlen]. pose proof (names_segments _ _ Hps) as Hpn.
  rewrite Hn, En, length_app in Hd.
  assert (conv p = conv u) as Hc.
  { destruct (names p) as [|x l] eqn:El.
    - destruct (conv u) eqn:Ec; [|rewrite <-Hpn in Hd; simpl in Hd; lia].
      unfold conv, convention_of in *. rewrite El, Hh. by destruct (is_some (host_str u)).
    - apply conv_head; [done|]. by rewrite El, Hn, En, <-Hpn. }
  split_and!; [done..| | |].
  - exists n. by rewrite Hn, Hpn.
  - rewrite Hpn. lia.
  - rewrite Hps, Hss. destruct Hlen as [|Hlen]; [by left|right]. apply parent_none; [done..|].
    rewrite Hpn, Hlen. simpl. lia.
Qed.

(** ** Ancestors *)
Lemma successors_spec n u :
  valid u → is_opaque u = false → length (default [] (path_segments u)) ≤ n →
  Forall (λ a, valid a ∧ is_opaque a = false ∧ host_str a = host_str u ∧ conv a = conv u
               ∧ names a `prefix_of` names u ∧ (a = u ∨ anchor_depth (conv u) ≤ length (names a))) (successors n u)
  ∧ ∃ r, last (successors n u) = Some r ∧ parent r = None.
Proof.
  revert u. induction n as [|n IH]; intros u Hv Ho Hn.
  { destruct (valid_segments u Hv) as (ss & Hss & Hne & _). rewrite Hss in Hn. destruct ss; [done|simpl in Hn; lia]. }
  cbn [successors]. destruct (parent u) as [p|] eqn:Hp.
  2:{ split; [|by exists u]. constructor; [split_and!; by try left|constructor]. }
  destruct (parent_spec u p Hv Hp) as (Hv' & Ho' & Hh & Hc & (m & Em & _) & Ha & Hlt).
  assert (names p `prefix_of` names u) as Hpre by by exists m.
  assert (Forall (λ a, valid a ∧ is_opaque a = false ∧ host_str a = host_str p ∧ conv a = conv p
               ∧ names a `prefix_of` names p ∧ (a = p ∨ anchor_depth (conv p) ≤ length (names a))) (successors n p)
          ∧ ∃ r, last (successors n p) = Some r ∧ parent r = None) as [HF (r & Hr & Hpr)].
  { destruct Hlt as [Hlt|Hnone]; [apply IH; [done..|lia]|].
    assert (successors n p = [p]) as -> by (destruct n; simpl; [done|by rewrite Hnone]).
    split; [|by exists p]. constructor; [split_and!; by try left|constructor]. }
  split.
  - constructor; [split_and!; by try left|]. eapply Forall_impl; [exact HF|]. simpl.
    intros a (? & ? & ? & ? & ? & Ha'). split_and!; [done|done|congruence|congruence|by etrans|right].
    destruct Ha' as [-> |Ha']; [done|]. by rewrite <-Hc.
  - exists r. split; [|done]. rewrite last_cons, Hr. done.
Qed.
Lemma lexical_prefix u a :
  is_opaque a = false → conv a = conv u → names a `prefix_of` names u → lexical u → lexical a.
Proof.
  intros Ho Hc [n E] [_ Hl]. split; [done|]. rewrite Hc. rewrite E, existsb_app in Hl. by apply orb_false_iff in Hl as [].
Qed.
Lemma textual_prefix u a : conv a = conv u → names a `prefix_of` names u → textual u → textual a.
Proof. intros Hc [n E] Ht Hw. rewrite Hc in Hw. apply Ht in Hw. rewrite E in Hw. by apply Forall_app in Hw as []. Qed.
(** The root that [file_system_root] finds. *)
Lemma root_spec u r :
  valid u → is_opaque u = false → last (ancestors u) = Some r →
  valid r ∧ is_opaque r = false ∧ parent r = None ∧ host_str r = host_str u ∧ conv r = conv u
  ∧ names r = take (anchor_depth (conv u)) (names u).
Proof.
  intros Hv Ho Hr. destruct (successors_spec (length (default [] (path_segments u))) u Hv Ho) as [HF (r' & Hr' & Hp)]; [done|].
  unfold ancestors in Hr. rewrite Hr in Hr'. injection Hr' as <-.
  assert (r ∈ successors (length (default [] (path_segments u))) u) as Hin by (by apply last_Some_elem_of).
  rewrite Forall_forall in HF. apply HF in Hin as (? & ? & ? & Hc & [n E] & Ha). split_and!; try done.
  assert (length (names r) ≤ anchor_depth (conv u)) as Hle by (rewrite <-Hc; by apply parent_none).
  destruct Ha as [-> |Ha]; [by rewrite take_ge|]. rewrite E, take_app_length'; [done|lia].
Qed.

(** C28: every operation that makes a path URI (parsing, reading a native path,
    joining, taking the parent) returns a valid one or an error, and none of the
    branches marked unreachable is reached: a valid URI is a [file:] URL without
    credentials, port, query or fragment, not on [localhost], and free of null
    bytes unless it is an opaque fallback. *)
Theorem operations_keep_uris_valid u :
  valid u →
  (∀ s, returns_valid (U := U) (parse s))
  ∧ (∀ path c, offers_valid (U := U) (from_absolute_native_path path c))
  ∧ (∀ path, returns_valid (uri_join u path))
  ∧ (∀ path, returns_valid (join_descendant u path))
  ∧ (∀ p, parent u = Some p → valid p ∧ is_opaque p = false).
Proof.
  intros Hv. split_and!.
  - apply parse_returns.
  - apply native_offers.
  - intros path. by apply join_returns.
  - intros path. by apply join_descendant_returns.
  - intros p Hp. by destruct (parent_spec u p Hv Hp) as (? & ? & _).
Qed.

(** Equality of path URIs is an equivalence, although it identifies Windows
    spellings by their decoded bytes up to ASCII case, and equal URIs feed the
    same data to a hasher: the contract of [Eq] and [Hash]. *)
Theorem equality_and_hash_agree :
  (∀ u, uri_eqb u u = true)
  ∧ (∀ u v, uri_eqb u v = true → uri_eqb v u = true)
  ∧ (∀ u v w, uri_eqb u v = true → uri_eqb v w = true → uri_eqb u w = true)
  ∧ (∀ u v, uri_eqb u v = true → hash_input u = hash_input v).
Proof.
  split_and!.
  - intros u. apply uri_eqb_cases. by left.
  - intros u v. rewrite !uri_eqb_cases. intros [->|(p & q & ? & ? & ? & ?)]; [by left|right]. by exists q, p.
  - intros u v w. rewrite !uri_eqb_cases. intros [->|(p & q & Hp & Hq & Hh & Hl)] [->|(q' & r & Hq' & Hr & Hh' & Hl')];
      [by left|right; by exists q', r|right; by exists p, q|right].
    exists p, r. split_and!; [done..|congruence|congruence].
  - intros u v. rewrite uri_eqb_cases. intros [->|(p & q & Hp & Hq & Hh & Hl)]; [done|]. unfold hash_input.
    rewrite Hp, Hq, Hh, Hl. by rewrite <-(lower_length p), Hl, lower_length.
Qed.

(** C29: for valid URIs that are not opaque, have no encoded separator in a name and
    whose names are UTF-8 text, containment is the prefix order: the same host and
    the same convention, and the decoded names of the one start the names of the
    other, up to ASCII case on Windows.  An opaque URI, or one with an encoded
    separator, contains and is contained in nothing but its equals.  Names that
    are not UTF-8 text are left out ([containment_can_split_equal_uris]). *)
Theorem containment_is_the_prefix_order u base :
  valid u → valid base →
  (lexical u → lexical base → textual u → textual base →
   uri_starts_with u base = true ↔
   host_str u = host_str base ∧ conv u = conv base
   ∧ (canon (conv base) <$> names base) `prefix_of` (canon (conv u) <$> names u))
  ∧ (¬ (lexical u ∧ lexical base) → uri_starts_with u base = uri_eqb u base).
Proof. intros. split; [intros; by apply uri_starts_with_spec|by apply ambiguous_starts_with]. Qed.

(** The ancestors of a valid URI are finitely many valid URIs of the same host
    and convention, each of which contains it; the last one is the root, which has
    no parent and keeps only the drive or share of a Windows path. *)
Theorem ancestors_lead_to_the_root u :
  valid u → lexical u → textual u →
  Forall (λ a, valid a ∧ uri_starts_with u a = true) (ancestors u)
  ∧ ∃ r, last (ancestors u) = Some r ∧ parent r = None
         ∧ location r = (host_str u, conv u, take (anchor_depth (conv u)) (canon (conv u) <$> names u)).
Proof.
  intros Hv Hl Ht. pose proof Hl as [Ho _]. destruct (successors_spec _ u Hv Ho (le_n _)) as [HF (r & Hr & Hp)]. split.
  - eapply Forall_impl; [exact HF|]. intros a (Hva & Hoa & Hh & Hc & Hpre & _). split; [done|].
    apply uri_starts_with_spec; [done..|by eapply lexical_prefix|done|by eapply textual_prefix|].
    split_and!; [done..|]. rewrite Hc. destruct Hpre as [n ->]. rewrite fmap_app. by eexists.
  - exists r. destruct (root_spec u r Hv Ho Hr) as (_ & _ & _ & Hh & Hc & Hn). split_and!; [done..|].
    unfold location. by rewrite Hh, Hc, Hn, fmap_take.
Qed.
End order.
