(* ===== verification/FileUriJoin.v ===== *)
(** * path-uri: joins

    A relative path is resolved name by name against the names of the URI: [.]
    and empty names are skipped, [..] removes a name but never the drive or share
    of a Windows path.  An absolute POSIX path is normalized in the same way. *)
From S2P Require Import Prelude Str Utf8Stream WindowsCommand FileUri FileUriLaws FileUriProps FileUriOrder.

(** ** The reference: a stack of names *)
Definition resolve_name (anchor : nat) (stack : list (list N)) (component : str) : list (list N) :=
  if is_empty component || str_eqb component DOT then stack
  else if str_eqb component DOTDOT then if anchor <? length stack then removelast stack else stack
  else stack ++ [as_bytes component].
Definition resolve_names (anchor : nat) (stack : list (list N)) (components : list str) : list (list N) :=
  foldl (resolve_name anchor) stack components.
(** A component that [push] appends as it is written, or that is not pushed. *)
Definition joinable (s : str) : Prop := s = [] ∨ s = DOT ∨ s = DOTDOT ∨ pushable s.
(** No empty segment but the one of the path [/]. *)
Definition compact (ss : list str) : Prop := ss = [[]] ∨ ss ≠ [] ∧ Forall (λ s, s ≠ []) ss.

Lemma removelast_fmap {A B} (f : A → B) l : f <$> removelast l = removelast (f <$> l).
Proof. destruct l as [|x l _] using rev_ind; [done|]. rewrite fmap_app, fmap_cons, fmap_nil. by rewrite !removelast_last. Qed.
Lemma removelast_take {A} (l : list A) n : n < length l → take n (removelast l) = take n l.
Proof.
  destruct l as [|x l _] using rev_ind; [simpl; lia|]. rewrite removelast_last, length_app. simpl. intros.
  by rewrite take_app_le by lia.
Qed.
Lemma removelast_length {A} (l : list A) : length (removelast l) = length l - 1.
Proof. destruct l as [|x l _] using rev_ind; [done|]. rewrite removelast_last, length_app. simpl. lia. Qed.
(** Resolution keeps the first [anchor] names. *)
Lemma resolve_names_anchor anchor stack cs :
  anchor ≤ length stack → take anchor (resolve_names anchor stack cs) = take anchor stack.
Proof.
  unfold resolve_names. revert stack. induction cs as [|c cs IH]; intros stack Hs; [done|]. simpl.
  unfold resolve_name at 2. destruct (_ || _); [by apply IH|]. destruct (str_eqb c DOTDOT).
  - destruct (Nat.ltb_spec anchor (length stack)); [|by apply IH]. rewrite IH; [by apply removelast_take|].
    rewrite removelast_length. lia.
  - rewrite IH by (rewrite length_app; lia). by rewrite take_app_le.
Qed.

Lemma compact_names ss : compact ss → before_push ss = non_empty ss.
Proof.
  unfold before_push. intros [->|[Hne Hf]]; [done|]. rewrite bool_decide_false by (intros ->; inversion Hf; done).
  unfold non_empty. induction Hf as [|s ss Hs Hf IH]; [done|]. rewrite filter_cons_True by by destruct s.
  destruct ss; [done|]. by rewrite <-IH.
Qed.
Lemma compact_popped ss :
  compact ss → non_empty ss ≠ [] → compact (popped ss) ∧ non_empty (popped ss) = removelast (non_empty ss).
Proof.
  intros [->|[Hne Hf]] Hn; [done|]. destruct ss as [|s ss _] using rev_ind; [done|].
  rewrite popped_names, non_empty_app, non_empty_one, popped_snoc.
  apply Forall_app in Hf as [Hf Hs]. inversion Hs as [|? ? Hs' _]; subst.
  destruct s as [|c s]; [done|]. cbn [is_empty]. rewrite removelast_last. split; [|done]. destruct ss; [by left|by right].
Qed.
Lemma compact_pushed ss e :
  compact ss → e ≠ [] → compact (before_push ss ++ [e]) ∧ non_empty (before_push ss ++ [e]) = non_empty ss ++ [e].
Proof.
  intros Hc He. split.
  - right. split; [by destruct (before_push ss)|]. apply Forall_app. split; [|by constructor].
    destruct Hc as [->|[? ?]]; [constructor|]. unfold before_push. by case_bool_decide; [constructor|].
  - rewrite non_empty_app, non_empty_one, compact_names by done. destruct e; [done|]. f_equal.
    unfold non_empty. rewrite list_filter_filter. apply list_filter_iff. naive_solver.
Qed.

Section joins.
Context {U : Type} `{!Url U} `{!UrlLaws U}.
Implicit Types (u v w : U).

(** The URL [w] has the host and the rest of [u] and the decoded names [stack]. *)
Definition has_names u w (stack : list (list N)) : Prop :=
  host_str w = host_str u ∧ same_rest w u
  ∧ ∃ ss, path_segments w = Some ss ∧ compact ss ∧ decode_binary <$> non_empty ss = stack.

Lemma pop_names u w stack :
  has_names u w stack → stack ≠ [] → has_names u (seg_pop w) (removelast stack).
Proof.
  intros (Hh & Hr & ss & Hss & Hc & <-) Hne. destruct (pop_frame U w) as [Ph Pr].
  split; [congruence|]. split; [by eapply same_rest_trans|]. exists (popped ss).
  split; [by apply (pop_segments U)|]. destruct (compact_popped ss Hc) as [Hc' Hn]; [by destruct (non_empty ss)|].
  split; [done|]. by rewrite Hn, removelast_fmap.
Qed.
Lemma push_names u w stack s :
  has_names u w stack → pushable s → s ≠ [] → has_names u (seg_push s w) (stack ++ [as_bytes s]).
Proof.
  intros (Hh & Hr & ss & Hss & Hc & <-) Hs Hne. destruct (push_frame U s w) as [Ph Pr].
  destruct (push_segments U s w ss Hss Hs) as (e & He & Hd).
  assert (e ≠ []) as Hee.
  { intros ->. rewrite (proj2 (decode_nil U [])) in Hd by done. by apply (as_bytes_nonnil s). }
  split; [congruence|]. split; [by eapply same_rest_trans|]. eexists. split; [exact He|].
  destruct (compact_pushed ss e Hc Hee) as [Hc' Hn]. split; [done|]. by rewrite Hn, fmap_app, <-Hd.
Qed.
Lemma join_component_names u w stack anchor s :
  has_names u w stack → joinable s →
  let '(w', depth) := join_component anchor (w, length stack) s in
  has_names u w' (resolve_name anchor stack s) ∧ depth = length (resolve_name anchor stack s).
Proof.
  intros Hw Hj. unfold join_component, resolve_name. destruct (is_empty s) eqn:Es; [done|]. cbn [orb].
  destruct (str_eqb s DOT) eqn:Ed; [done|]. apply is_empty_false in Es. apply str_eqb_ne in Ed.
  destruct (str_eqb s DOTDOT) eqn:Edd.
  - destruct (Nat.ltb_spec anchor (length stack)); [|done]. rewrite removelast_length. split; [|done].
    apply pop_names; [done|]. intros ->. simpl in *. lia.
  - apply str_eqb_ne in Edd. rewrite length_app. simpl. split; [|lia]. apply push_names; [done| |done].
    destruct Hj as [|[|[|]]]; done.
Qed.
Lemma join_components_names u cs anchor w stack :
  has_names u w stack → Forall joinable cs →
  has_names u (foldl (join_component anchor) (w, length stack) cs).1 (resolve_names anchor stack cs).
Proof.
  intros Hw Hcs. unfold resolve_names. revert w stack Hw. induction Hcs as [|s cs Hs _ IH]; intros w stack Hw; [done|].
  cbn [foldl]. pose proof (join_component_names u w stack anchor s Hw Hs) as Hj.
  destruct (join_component anchor (w, length stack) s) as [w' depth]. destruct Hj as [Hw' ->]. by apply IH.
Qed.

(** ** The drive letter *)
Lemma first_name_position s k :
  position (λ b, negb (b =? SLASH)%N) s = Some k →
  head (split_by (N.eqb SLASH) (drop k s)) = head (non_empty (split_by (N.eqb SLASH) s)).
Proof.
  revert k. induction s as [|x s IH]; intros k; [done|]. cbn [position]. rewrite (N.eqb_sym x).
  destruct (N.eqb_spec SLASH x) as [<-|Hx]; cbn [negb].
  - destruct (position _ s) as [j|]; [|done]. intros [= <-]. cbn [drop split_by]. rewrite N.eqb_refl. by apply IH.
  - intros [= <-]. cbn [drop split_by]. rewrite (proj2 (N.eqb_neq _ _) Hx). by destruct (split_by (N.eqb SLASH) s).
Qed.
Lemma path_split u ss :
  Forall (λ s, SLASH ∉ s) ss → ss ≠ [] → url_path u = SLASH :: join [SLASH] ss →
  split_by (N.eqb SLASH) (url_path u) = [] :: ss.
Proof. intros Hf Hne ->. simpl. by rewrite split_by_join. Qed.
Lemma lower_same_names u w :
  scheme u = FILE_SCHEME → scheme w = FILE_SCHEME → lower (url_path w) = lower (url_path u) →
  canon Windows <$> names w = canon Windows <$> names u.
Proof.
  intros Hu Hw E. destruct (file_segments U u Hu) as (ss & Hss & Hne & Hf & Hp).
  destruct (file_segments U w Hw) as (ts & Hts & Hnt & Hg & Hq). rewrite Hp, Hq in E.
  injection E as E. rewrite !lower_join in E. apply join_inj in E; [| | |by destruct ts|by destruct ss].
  2-3: apply Forall_fmap; eapply Forall_impl; [eassumption|]; intros s Hs; simpl; by rewrite lower_elem.
  rewrite (names_segments _ _ Hss), (names_segments _ _ Hts). rewrite !fmap_non_empty by
    (intros s; simpl; rewrite <-(decode_nil U s); split; [by intros ?%lower_nil|by intros ->]).
  f_equal. clear -E UrlLaws0. revert ss E. induction ts as [|t ts IH]; intros [|s ss] E; try done.
  csimpl in *. injection E as Es E. rewrite (IH _ E). f_equal. by apply (decode_case U).
Qed.
Lemma first_name_drive w k d :
  scheme w = FILE_SCHEME → position (λ b, negb (b =? SLASH)%N) (url_path w) = Some k →
  head (split_by (N.eqb SLASH) (drop k (url_path w))) = Some d → is_windows_drive_uri_segment d = true →
  conv w = Windows.
Proof.
  intros Hs Hk Ed Hd. destruct (file_segments U w Hs) as (ss & Hss & Hne & Hf & Hp).
  rewrite (first_name_position _ _ Hk), (path_split w ss Hf Hne Hp), non_empty_nil in Ed.
  unfold conv, convention_of. rewrite (names_segments _ _ Hss), Ed. cbn [is_some_and]. by rewrite Hd, orb_true_r.
Qed.
Lemma split_head_replaced x y t d :
  y ≠ SLASH → head (split_by (N.eqb SLASH) (x :: t)) = Some (x :: d) →
  head (split_by (N.eqb SLASH) (y :: t)) = Some (y :: d).
Proof.
  intros Hy. cbn [split_by]. rewrite (proj2 (N.eqb_neq SLASH y)) by done. destruct (SLASH =? x)%N; [done|].
  destruct (split_by (N.eqb SLASH) t); by intros [= <-].
Qed.
Lemma upper_drive x d :
  is_windows_drive_uri_segment (x :: d) = true → is_windows_drive_uri_segment (to_ascii_uppercase x :: d) = true.
Proof.
  simpl. rewrite !andb_true_iff. intros [Hx Hd]. split; [|done]. unfold is_ascii_alphabetic, to_ascii_uppercase in *.
  rewrite ?orb_true_iff, ?andb_true_iff, ?N.leb_le in *. case_match; rewrite ?andb_true_iff, ?andb_false_iff, ?N.leb_le, ?N.leb_gt in *; lia.
Qed.
Lemma position_replaced (f : char → bool) s k x y :
  position f s = Some k → s !! k = Some x → f y = true → position f (take k s ++ y :: drop (S k) s) = Some k.
Proof.
  revert k. induction s as [|z s IH]; intros k; [done|]. simpl. destruct (f z) eqn:Ez.
  - intros [= <-] _ Hy. simpl. by rewrite Hy.
  - destruct (position f s) as [j|] eqn:Ej; [|done]. intros [= <-] Hx Hy. simpl in *. rewrite Ez, IH; done.
Qed.
(** The letter of a drive may change its case, in a Windows path only. *)
Lemma drive_result w :
  scheme w = FILE_SCHEME →
  let v := with_normalized_windows_drive_letter w in
  v = w ∨ host_str v = host_str w ∧ same_rest v w ∧ lower (url_path v) = lower (url_path w)
          ∧ conv v = Windows ∧ conv w = Windows.
Proof.
  intros Hs. cbv zeta. unfold with_normalized_windows_drive_letter. destruct (host_str w) eqn:Hh; [by left|]. cbn [is_some].
  destruct (position _ (url_path w)) as [k|] eqn:Ek; [|by left].
  destruct (head (split_by _ (drop k (url_path w)))) as [[|x d]|] eqn:Ed; [by left| |by left].
  destruct (negb _ || _) eqn:Ec; [by left|]. right. apply orb_false_iff in Ec as [Ec _].
  apply negb_false_iff in Ec. destruct (split_by_head _ _ _ _ Ed) as [t Et].
  assert (url_path w !! k = Some x) as Hx by (by rewrite <-(Nat.add_0_r k), <-lookup_drop, Et).
  set (q := take k (url_path w) ++ to_ascii_uppercase x :: drop (S k) (url_path w)).
  assert (lower q = lower (url_path w)) as Hq by (apply lower_letter; by rewrite take_drop_middle).
  destruct (set_path_case U w q Hs Hq) as (Hvp & Hvh & Hvr). split_and!; [congruence|done|by rewrite Hvp| |].
  - assert (to_ascii_uppercase x ≠ SLASH) as Hy by (intros E; apply upper_drive in Ec; by rewrite E in Ec).
    eapply first_name_drive; [by eapply same_rest_scheme| | |by apply upper_drive].
    + rewrite Hvp. eapply position_replaced; [done..|]. by apply negb_true_iff, N.eqb_neq.
    + rewrite Hvp. unfold q. rewrite drop_app_length' by (rewrite length_take; apply lookup_lt_Some in Hx; lia).
      eapply split_head_replaced; [done|]. by rewrite <-(drop_S _ _ _ Hx).
  - by eapply first_name_drive.
Qed.

(** ** No null bytes *)
Lemma utf8_no_nul c : c ≠ NUL → NUL ∉ utf8_char c.
Proof.
  intros Hc Hin. unfold utf8_char in Hin. repeat case_match; repeat (apply elem_of_cons in Hin as [Hin|Hin]);
    try by apply elem_of_nil in Hin. all: first [by symmetry in Hin|symmetry in Hin; by apply N.eq_add_0 in Hin as [? _]].
Qed.
Lemma as_bytes_no_nul s : NUL ∉ s → NUL ∉ as_bytes s.
Proof.
  induction s as [|c s IH]; [done|]. rewrite not_elem_of_cons, as_bytes_cons, not_elem_of_app. intros [Hc Hs].
  split; [by apply utf8_no_nul|by apply IH].
Qed.
Lemma removelast_elem {A} (x : A) l : x ∈ removelast l → x ∈ l.
Proof. destruct l as [|y l _] using rev_ind; [done|]. rewrite removelast_last, elem_of_app. by left. Qed.
Lemma resolve_no_nul anchor stack cs :
  Forall (λ s, NUL ∉ s) stack → Forall (λ s, NUL ∉ s) cs → Forall (λ s, NUL ∉ s) (resolve_names anchor stack cs).
Proof.
  intros Hs Hcs. unfold resolve_names. revert stack Hs. induction Hcs as [|c cs Hc _ IH]; intros stack Hs; [done|].
  simpl. apply IH. unfold resolve_name. destruct (_ || _); [done|]. destruct (str_eqb c DOTDOT).
  - destruct (_ <? _); [|done]. rewrite Forall_forall in *. intros x Hx%removelast_elem. auto.
  - apply Forall_app. split; [done|]. constructor; [by apply as_bytes_no_nul|done].
Qed.
Lemma split_elem c s p x : p ∈ split_by (N.eqb c) s → x ∈ p → x ∈ s.
Proof.
  revert p. induction s as [|y s IH]; intros p; cbn [split_by].
  - by intros ->%list_elem_of_singleton.
  - destruct (N.eqb c y).
    + intros [->|Hp]%elem_of_cons Hx; [by apply elem_of_nil in Hx|]. right. by eapply IH.
    + destruct (split_by _ s) as [|q qs].
      * intros ->%list_elem_of_singleton ->%list_elem_of_singleton. left.
      * intros [->|Hp]%elem_of_cons; [|intros; right; eapply IH; [by right|done]].
        intros [->|Hx]%elem_of_cons; [left|]. right. eapply IH; [by left|done].
Qed.

(** What [try_from] makes of a URL with ordinary names. *)
Lemma try_from_names u w ss :
  scheme u = FILE_SCHEME → plain_url u → host_str u ≠ Some (lit "localhost") →
  host_str w = host_str u → same_rest w u → path_segments w = Some ss →
  Forall (λ s, NUL ∉ decode_binary s) (non_empty ss) →
  ∃ v, try_from w = Ok v ∧ valid v ∧ is_opaque v = false ∧ host_str v = host_str u
       ∧ lower <$> (decode_binary <$> names v) = lower <$> (decode_binary <$> non_empty ss)
       ∧ (v = w ∨ conv v = Windows ∧ conv w = Windows).
Proof.
  intros Hs Hp Hl Hh Hr Hss Hn. rewrite Forall_forall in Hn.
  pose proof (same_rest_scheme _ _ Hr Hs) as Hws. pose proof (same_rest_plain _ _ Hr Hp) as Hwp.
  assert (NUL ∉ decode_binary (url_path w)) as HN.
  { apply (segments_no_nul w ss Hws Hss). intros s Hin. destruct s as [|c s]; [apply nil_no_nul|].
    apply Hn. by apply list_elem_of_filter. }
  destruct (ordinary_valid w Hws Hwp) as [Hwv Hwo]; [congruence|done|].
  exists (with_normalized_windows_drive_letter w). split.
  { unfold try_from. rewrite (proj2 (str_eqb_eq _ _) Hws). cbn [negb].
    rewrite (proj2 (validate_file_url_spec w)) by (split; [done|by intros]). cbn [mbind res_bind].
    unfold without_localhost_authority. by rewrite bool_decide_false by congruence. }
  destruct (drive_result w Hws) as [->|(Hvh & Hvr & Hvl & Hvc & Hwc)].
  { rewrite (names_segments _ _ Hss). split_and!; by try left. }
  pose proof (valid_drive w Hwv) as Hvv. split_and!; [done| |congruence| |by right].
  - apply not_true_is_false. intros Ho%(opaque_has_nul _); [|by eapply same_rest_scheme|by eapply same_rest_plain].
    apply (proj2 (lower_elem NUL _ eq_refl)) in Ho. rewrite (decode_case U _ _ Hvl) in Ho.
    by apply (proj1 (lower_elem NUL _ eq_refl)) in Ho.
  - rewrite <-!list_fmap_compose. rewrite <-(names_segments _ _ Hss).
    apply lower_same_names; [done|by eapply same_rest_scheme|done].
Qed.

(** ** Relative paths *)
Definition relative_components (c : PathConvention) (path : str) : list str :=
  split_by (N.eqb SLASH) (match c with Posix => path | Windows => replace_char BACKSLASH SLASH path end).
Definition compact_uri u : Prop := ∃ ss, path_segments u = Some ss ∧ compact (popped_if_empty ss).

Lemma pop_if_empty_names ss : ss ≠ [] → non_empty (popped_if_empty ss) = non_empty ss.
Proof.
  intros Hss. unfold popped_if_empty. destruct ss as [|s ss _] using rev_ind; [done|]. rewrite last_snoc.
  case_bool_decide as Hs; [|done]. injection Hs as ->. rewrite popped_names, non_empty_app. by rewrite app_nil_r.
Qed.
Lemma pop_if_empty_has_names u :
  valid u → compact_uri u → has_names u (seg_pop_if_empty u) (decode_binary <$> names u).
Proof.
  intros Hv (ss & Hss & Hc). destruct (pop_if_empty_frame U u) as [Hh Hr]. split; [done|]. split; [done|].
  exists (popped_if_empty ss). split; [by apply (pop_if_empty_segments U)|]. split; [done|].
  destruct (valid_segments u Hv) as (ss' & Hss' & Hne & _). rewrite Hss in Hss'. injection Hss' as <-.
  by rewrite pop_if_empty_names, (names_segments _ _ Hss).
Qed.
Lemma replace_no_nul s : NUL ∉ s → NUL ∉ replace_char BACKSLASH SLASH s.
Proof.
  intros Hn. unfold replace_char. rewrite list_elem_of_fmap. intros (c & E & Hin). case_match; [done|]. by subst.
Qed.
Lemma join_relative_names u path :
  valid u → is_opaque u = false → compact_uri u → NUL ∉ path → windows_root_relative (conv u) path = false →
  Forall joinable (relative_components (conv u) path) →
  ∃ v, join_relative u (conv u) path = Ok v ∧ valid v ∧ is_opaque v = false ∧ host_str v = host_str u
       ∧ let stack := resolve_names (anchor_depth (conv u)) (decode_binary <$> names u)
                        (relative_components (conv u) path) in
         lower <$> (decode_binary <$> names v) = lower <$> stack
         ∧ (conv v = Posix → decode_binary <$> names v = stack).
Proof.
  intros Hv Ho Hc Hn Hw Hj. destruct (valid_segments u Hv) as (ss & Hss & _). pose proof Hv as (Hs & Hp & Hl & _).
  unfold join_relative. rewrite (proj1 (ordinary_bad u)), Hss, Hw by done. cbn [is_some].
  set (w := (foldl (join_component (anchor_depth (conv u))) (seg_pop_if_empty u, length (non_empty ss))
       (relative_components (conv u) path)).1).
  assert (has_names u w (resolve_names (anchor_depth (conv u)) (decode_binary <$> names u)
            (relative_components (conv u) path))) as (Hh & Hr & ts & Hts & _ & Hst).
  { unfold w. rewrite <-(names_segments _ _ Hss), <-(length_fmap decode_binary (names u)).
    apply join_components_names; [by apply pop_if_empty_has_names|done]. }
  destruct (try_from_names u w ts) as (v & Ht & Hv' & Ho' & Hh' & Hl' & He'); try done.
  - apply (Forall_fmap decode_binary (λ s, NUL ∉ s)). rewrite Hst. apply resolve_no_nul.
    + apply Forall_fmap, Forall_forall. intros s Hin. unfold names in Hin. rewrite Hss in Hin.
      apply list_elem_of_filter in Hin as [_ Hin]. by eapply valid_no_nul.
    + apply Forall_forall. intros s Hin Hx. unfold relative_components in Hin. apply (split_elem _ _ _ _ Hin) in Hx.
      destruct (conv u); [done|]. by apply (replace_no_nul path Hn).
  - exists v. cbv zeta. rewrite <-Hst. split_and!; [done..|]. destruct He' as [->|[-> _]]; [|done].
    by rewrite (names_segments _ _ Hts).
Qed.

(** C30: joining a relative path to a valid ordinary URI whose path has no empty
    names resolves it name by name: [.] and empty names are skipped and [..]
    removes a name, but never the drive or share of a Windows path; the host is
    kept.  The path is non-empty, without NUL, neither absolute nor relative to a
    drive or to the root of one, and each of its names is empty, [.], [..] or one
    the URL library takes as it is.  On Windows the names agree up to ASCII case,
    since a drive letter is written in upper case. *)
Theorem join_resolves_lexically u path :
  valid u → is_opaque u = false → compact_uri u → path ≠ [] → NUL ∉ path →
  from_absolute_native_path path (conv u) = Ok (@None U) →
  drive_relative (conv u) path = false → windows_root_relative (conv u) path = false →
  Forall joinable (relative_components (conv u) path) →
  let stack := resolve_names (anchor_depth (conv u)) (decode_binary <$> names u)
                 (relative_components (conv u) path) in
  (∃ v, uri_join u path = Ok v ∧ valid v ∧ is_opaque v = false ∧ host_str v = host_str u
        ∧ lower <$> (decode_binary <$> names v) = lower <$> stack
        ∧ (conv v = Posix → decode_binary <$> names v = stack))
  ∧ (anchor_depth (conv u) ≤ length (names u) →
     take (anchor_depth (conv u)) stack = take (anchor_depth (conv u)) (decode_binary <$> names u)).
Proof.
  intros Hv Ho Hc Hne Hn Ha Hd Hw Hj stack. split.
  - destruct (join_relative_names u path Hv Ho Hc Hn Hw Hj) as (v & E & Hr). exists v. split; [|done].
    unfold uri_join, contains_char. rewrite bool_decide_false by done. rewrite (proj2 (is_empty_false path)) by done.
    rewrite ordinary_convention by done. change (convention_of _ _) with (conv u). rewrite Ha. cbn [mbind res_bind].
    by rewrite Hd.
  - intros Hle. apply resolve_names_anchor. by rewrite length_fmap.
Qed.

(** ** Absolute POSIX paths *)
(** The names of a text, as [path_uri_from_segments] collects them. *)
Lemma normalize_fold anchor segments normalized depth trailing :
  depth = length normalized → Forall joinable segments →
  Forall (λ s, pushable s ∧ s ≠ []) normalized →
  let '(normalized', depth', _) := foldl (normalize_segment anchor) (normalized, depth, trailing) segments in
  depth' = length normalized' ∧ Forall (λ s, pushable s ∧ s ≠ []) normalized'
  ∧ as_bytes <$> normalized' = resolve_names anchor (as_bytes <$> normalized) segments.
Proof.
  intros Hd Hj. revert normalized depth trailing Hd.
  induction Hj as [|s segments Hs Hj IH]; intros normalized depth trailing Hd Hf; [done|].
  unfold resolve_names. cbn [foldl]. unfold normalize_segment at 2. unfold resolve_name at 2.
  destruct (is_empty s) eqn:Es; [by apply IH|]. cbn [orb]. destruct (str_eqb s DOT) eqn:Ed; [by apply IH|].
  apply is_empty_false in Es. apply str_eqb_ne in Ed. destruct (str_eqb s DOTDOT) eqn:Edd.
  - rewrite length_fmap, <-Hd. destruct (anchor <? depth); [|by apply IH]. rewrite <-removelast_fmap. apply IH.
    + rewrite removelast_length. lia.
    + rewrite Forall_forall in *. intros x Hx%removelast_elem. auto.
  - apply str_eqb_ne in Edd. change [as_bytes s] with (as_bytes <$> [s]). rewrite <-fmap_app. apply IH.
    + rewrite length_app. simpl. lia.
    + apply Forall_app. split; [done|]. constructor; [|done]. split; [|done]. destruct Hs as [|[|[|]]]; done.
Qed.
Lemma push_all u l :
  path_segments u = Some [[]] → Forall (λ s, pushable s ∧ s ≠ []) l →
  let w := foldl (λ u s, seg_push s u) u l in
  host_str w = host_str u ∧ same_rest w u
  ∧ ∃ es, path_segments w = Some es ∧ before_push es = non_empty es ∧ decode_binary <$> non_empty es = as_bytes <$> l
          ∧ (l = [] → es = [[]]).
Proof.
  intros Hu. induction l as [|s l IH] using rev_ind; intros Hf; cbv zeta.
  { split; [done|]. split; [done|]. by exists [[]]. }
  apply Forall_app in Hf as [Hf Hs]. inversion Hs as [|? ? [Hs1 Hs2] _]; subst.
  destruct (IH Hf) as (Hh & Hr & es & Hes & Hb & Hd & _). rewrite foldl_app. cbn [foldl].
  set (w := foldl (λ u s, seg_push s u) u l) in *. destruct (push_frame U s w) as [Ph Pr].
  destruct (push_segments U s w es Hes Hs1) as (e & He & Hde).
  assert (e ≠ []) as Hee.
  { intros ->. rewrite (proj2 (decode_nil U [])) in Hde by done. by apply (as_bytes_nonnil s). }
  split; [congruence|]. split; [by eapply same_rest_trans|]. exists (before_push es ++ [e]). split; [done|].
  rewrite Hb. assert (non_empty (non_empty es ++ [e]) = non_empty es ++ [e]) as ->.
  { rewrite non_empty_app, non_empty_one. destruct e; [done|]. f_equal. unfold non_empty.
    rewrite list_filter_filter. apply list_filter_iff. naive_solver. }
  split_and!.
  - unfold before_push. rewrite bool_decide_false; [done|]. destruct (non_empty es) as [|? [|]]; simpl; congruence.
  - rewrite !fmap_app, Hd. f_equal. csimpl. by rewrite Hde.
  - by destruct l.
Qed.
(** A trailing separator adds one empty segment. *)
Lemma push_trailing w es :
  path_segments w = Some es → path_segments (seg_push [] w) = Some (before_push es ++ [[]]).
Proof.
  intros Hes. destruct (push_segments U [] w es Hes) as (e & He & Hd).
  { split; [constructor|]. split; [discriminate|]. split; [discriminate|constructor]. }
  change (as_bytes []) with (@nil N) in Hd. apply (proj1 (decode_nil U e)) in Hd. by subst.
Qed.

(** The root URL with the names of a text. *)
Lemma posix_segments segments :
  Forall joinable segments →
  let l := normalized_segments Posix None segments in
  ∃ u0 w es, url_parse (lit "file:///") = inr u0 ∧ scheme u0 = FILE_SCHEME ∧ plain_url u0 ∧ host_str u0 = None
    ∧ w = foldl (λ u s, seg_push s u) (seg_clear u0) l
    ∧ path_segments u0 = Some [[]]
    ∧ host_str w = None ∧ same_rest w u0 ∧ path_segments w = Some es
    ∧ decode_binary <$> es = as_bytes <$> (if is_empty l then [[]] else l)
    ∧ decode_binary <$> non_empty es = resolve_names 0 [] segments.
Proof.
  intros Hj. cbv zeta. destruct (parse_root U) as (u0 & Hu0 & Hs & Hp & Hh & Hseg).
  destruct (clear_frame U u0) as [Ch Cr]. pose proof (clear_segments U u0 _ Hseg) as Cs.
  pose proof (normalize_fold 0 segments [] 0 false eq_refl Hj (Forall_nil_2 _)) as Hn.
  unfold normalized_segments. change (anchor_depth Posix) with 0.
  destruct (foldl (normalize_segment 0) ([], 0, false) segments) as [[l d] trailing].
  destruct Hn as (-> & Hf & Hl). change (as_bytes <$> []) with (@nil (list N)) in Hl. rewrite bool_decide_false, orb_false_r by done.
  destruct (push_all (seg_clear u0) l Cs Hf) as (Ph & Pr & es & Hes & Hb & Hd & Hnil).
  set (w := foldl (λ u s, seg_push s u) (seg_clear u0) l) in *.
  exists u0, (if trailing then seg_push [] w else w), (if trailing then before_push es ++ [[]] else es).
  destruct trailing.
  - rewrite foldl_app. destruct (push_frame U [] w) as [Qh Qr].
    split_and!; try done; [congruence|by do 2 (eapply same_rest_trans; [eassumption|])|by apply push_trailing| |].
    + rewrite (proj2 (is_empty_false (l ++ [[]]))) by by destruct l. rewrite !fmap_app, Hb, Hd. f_equal.
      csimpl. by rewrite (proj2 (decode_nil U [])).
    + rewrite non_empty_app, app_nil_r, Hb. rewrite <-Hl, <-Hd. f_equal. unfold non_empty.
      rewrite list_filter_filter. apply list_filter_iff. naive_solver.
  - split_and!; try done; [congruence|by eapply same_rest_trans| |congruence].
    destruct l as [|s l]; [rewrite Hnil by done; csimpl; by rewrite (proj2 (decode_nil U []))|].
    cbn [is_empty]. rewrite <-Hd. f_equal. unfold before_push in Hb. case_bool_decide as Hb'; [|exact Hb].
    by rewrite Hb' in Hd.
Qed.
(** The bytes of a name that spells a drive. *)
Definition drive_bytes (bs : list N) : bool :=
  match bs with [x; c] => is_ascii_alphabetic x && (c =? COLON)%N | _ => false end.
Lemma drive_segment_bytes s : is_windows_drive_uri_segment s = true → drive_bytes (decode_binary s) = true.
Proof.
  intros Hd. rewrite (decode_drive U s Hd). destruct s as [|x s]; [done|]. simpl in *.
  apply andb_true_iff in Hd as [-> _]. done.
Qed.
(** An absolute POSIX path is an ordinary URI with its normalized names, or keeps
    its bytes in an opaque one where it could be read as a Windows path. *)
Lemma posix_absolute rest :
  NUL ∉ rest → Forall joinable (split_by (N.eqb SLASH) rest) →
  let l := normalized_segments Posix None (split_by (N.eqb SLASH) rest) in
  let stack := resolve_names 0 [] (split_by (N.eqb SLASH) rest) in
  ∃ v, from_absolute_native_path (SLASH :: rest) Posix = Ok (Some v) ∧ valid v
       ∧ (opaque_fallback_bytes v = Some (as_bytes (SLASH :: rest)) ∧ is_some_and drive_bytes (head stack) = true
          ∨ is_opaque v = false ∧ host_str v = None ∧ conv v = Posix
            ∧ ∃ es, path_segments v = Some es ∧ decode_binary <$> es = as_bytes <$> (if is_empty l then [[]] else l)
                    ∧ decode_binary <$> names v = stack).
Proof.
  intros Hn Hj. cbv zeta.
  destruct (posix_segments _ Hj) as (u0 & w & es & Hu0 & Hs & Hp & Hh & Ew & Hseg & Hwh & Hwr & Hes & Hd & Hdn).
  destruct (try_from_names u0 w es) as (v & Ht & Hv & Ho & Hvh & _ & Hvw); try done; [by rewrite Hh|congruence| |].
  { apply (Forall_fmap decode_binary (λ s, NUL ∉ s)). rewrite Hdn. apply resolve_no_nul; [constructor|].
    apply Forall_forall. intros s Hin Hx. apply Hn. by eapply split_elem. }
  unfold from_absolute_native_path, parse_posix_path. change (strip_prefix [SLASH] (SLASH :: rest)) with (Some rest).
  cbn [mbind res_bind]. unfold contains_char. rewrite bool_decide_false by done. unfold path_uri_from_segments.
  rewrite Hu0, Hseg, <-Ew, Ht. cbn [ok_of mbind res_bind]. rewrite bool_decide_false by (by rewrite Hvh, Hh).
  rewrite ordinary_convention by done. change (convention_of _ _) with (conv v). cbn [negb andb].
  destruct (conv v) eqn:Ec.
  - rewrite bool_decide_true by done. exists v. split; [done|]. split; [done|]. right.
    destruct Hvw as [->|[? _]]; [|done]. split_and!; [done|congruence|done|]. exists es. split_and!; [done..|].
    by rewrite (names_segments _ _ Hes).
  - rewrite bool_decide_false by done. destruct (opaque_uri (as_bytes (SLASH :: rest))) as (o & Eo & Vo & Ob);
      [by apply as_bytes_nonnil|]. rewrite Eo. exists o. split; [done|]. split; [done|]. left. split; [done|].
    assert (conv w = Windows) as Hcw by (destruct Hvw as [->|[_ ?]]; done).
    unfold conv, convention_of in Hcw. rewrite Hwh, (names_segments _ _ Hes) in Hcw. rewrite <-Hdn.
    destruct (non_empty es) as [|e es']; [done|]. csimpl in *.
    destruct (is_windows_drive_uri_segment e) eqn:Ed; [|done]. by apply drive_segment_bytes.
Qed.
End joins.
