(* ===== verification/NativePath.v ===== *)
(** * path-uri: native paths and configuration paths

    [api_path_string.rs] (the text of a path at the API boundary, read and
    rendered with an explicit convention), [config_path.rs] (paths of a
    configuration) and [native_path_bytes.rs] (joins of raw bytes). *)
From S2P Require Import Prelude Str Utf8Stream WindowsCommand FileUri.

Inductive LegacyAppPathStringError :=
  | OpaqueFallback (path : str)
  | IncompatibleConvention (path : str) (convention : PathConvention)
  | InvalidNativePath (path : str) (convention : option PathConvention)
  | UnsupportedConfigPath (path : str) (convention : PathConvention)
  | MissingBaseConvention (cwd : str)
  | MissingHomeDirectory (path : str)
  | MismatchedConvention (path : str) (path_convention : PathConvention) (cwd : str) (convention : PathConvention)
  | PathUriError (e : PathUriParseError).

(** [String::from_utf8_lossy]: one U+FFFD per invalid sequence. *)
Definition REPLACEMENT : char := 65533%N.
Fixpoint utf8_lossy (fuel : nat) (bytes : list N) : str :=
  match fuel with
  | 0 => []
  | S fuel =>
      match decode (length bytes) bytes with
      | (text, _, None) => text
      | (text, _, Some None) => text ++ [REPLACEMENT]
      | (text, rest, Some (Some n)) => text ++ REPLACEMENT :: utf8_lossy fuel (drop n rest)
      end
  end.
Definition from_utf8_lossy (bytes : list N) : str := utf8_lossy (S (length bytes)) bytes.

(** [String::from_utf16_lossy]: one U+FFFD per unpaired surrogate. *)
Fixpoint from_utf16_lossy (units : list N) : str :=
  match units with
  | [] => []
  | u :: units =>
      if in_range 55296 56319 u then
        match units with
        | v :: units' =>
            if in_range 56320 57343 v
            then (65536 + N.shiftl (u - 55296) 10 + (v - 56320))%N :: from_utf16_lossy units'
            else REPLACEMENT :: from_utf16_lossy units
        | [] => [REPLACEMENT]
        end
      else (if in_range 56320 57343 u then REPLACEMENT else u) :: from_utf16_lossy units
  end.

(** [infer_absolute_path_convention]. *)
Definition has_unc_root (path : str) : bool :=
  match path with first :: second :: _ => is_separator first && is_separator second | _ => false end.
Definition infer_absolute_path_convention (path : str) : option PathConvention :=
  if is_windows_drive_absolute_path path || has_unc_root path then Some Windows
  else if starts_with path [SLASH] then Some Posix else None.

Definition contains_glob_metacharacter (path : str) : bool := existsb (λ c, contains_char c (lit "*?[]{}")) path.

(** ** [validate_config_path_text] *)
Definition config_segment_colon (i : nat) (segment : str) : bool :=
  contains_char COLON
    (match segment with
     | drive :: colon :: rest =>
         if (i =? 0) && is_ascii_alphabetic drive && (colon =? COLON)%N then rest else segment
     | _ => segment
     end).
Definition has_windows_component_colon (c : PathConvention) (native_input : str) : bool :=
  bool_decide (c = Windows)
  && existsb (λ x, config_segment_colon x.1 x.2)
       (let segments := convention_segments c native_input in zip (seq 0 (length segments)) segments).
Definition mixed_home_separators (c : PathConvention) (input : str) : bool :=
  bool_decide (c = Windows)
  && is_some_and (λ suffix,
       (starts_with suffix [SLASH] && starts_with (drop_while (N.eqb SLASH) suffix) [BACKSLASH])
       || (starts_with suffix [BACKSLASH] && starts_with (drop_while (N.eqb BACKSLASH) suffix) [SLASH]))
     (home_relative_suffix c input).
Definition bare_windows_drive (c : PathConvention) (native_input : str) : bool :=
  bool_decide (c = Windows)
  && match native_input with [drive; colon] => is_ascii_alphabetic drive && (colon =? COLON)%N | _ => false end.
Definition validate_config_path_text (input : str) (c : PathConvention) : res LegacyAppPathStringError unit :=
  let native_input := default input (normalize_windows_device_path input) in
  if contains_char NUL input || has_windows_component_colon c native_input || mixed_home_separators c input
     || bare_windows_drive c native_input
  then Err (UnsupportedConfigPath input c) else Ok tt.

Section native.
Context {U : Type} `{!Url U}.
Implicit Types (u cwd : U) (path : str).

Definition lift_uri {A} (r : res PathUriParseError A) : res LegacyAppPathStringError A :=
  match r with Ok a => Ok a | Err e => Err (PathUriError e) | Panic => Panic end.

(** ** Rendering *)
Definition decode_native_segment (segment : str) : str := from_utf8_lossy (decode_binary segment).
Definition incompatible_convention {A} u (c : PathConvention) : res LegacyAppPathStringError A :=
  Err (IncompatibleConvention (as_str u) c).
Definition render_posix_path u : res LegacyAppPathStringError str :=
  if is_some (host_str u) then incompatible_convention u Posix
  else match path_segments u with
       | None => Panic
       | Some segments => Ok (concat ((λ s, SLASH :: decode_native_segment s) <$> segments))
       end.
Definition render_windows_path u : res LegacyAppPathStringError str :=
  match path_segments u with
  | None => Panic
  | Some segments =>
      prefix ←
        match host_str u with
        | Some host =>
            match segments with
            | [] => incompatible_convention u Windows
            | share :: rest =>
                let share := decode_native_segment share in
                if is_empty share then incompatible_convention u Windows
                else Ok (bs2 ++ host ++ [BACKSLASH] ++ share, rest)
            end
        | None =>
            match segments with
            | [] => incompatible_convention u Windows
            | drive :: rest =>
                let drive := decode_native_segment drive in
                match drive with
                | [letter; colon] =>
                    if is_ascii_alphabetic letter && (colon =? COLON)%N then Ok (drive, rest)
                    else incompatible_convention u Windows
                | _ => incompatible_convention u Windows
                end
            end
        end;
      let rendered := prefix.1 ++ concat ((λ s, BACKSLASH :: decode_native_segment s) <$> prefix.2) in
      Ok (if (length rendered =? 2) && bool_decide (rendered !! 1 = Some COLON) then rendered ++ [BACKSLASH]
          else rendered)
  end.
Definition render_windows_opaque_fallback (path_bytes : list N) : option str :=
  if negb (Nat.even (length path_bytes)) then None
  else
    let path_wide := u16s path_bytes in
    if is_windows_drive_absolute_path path_wide || has_unc_root path_wide
    then Some (from_utf16_lossy path_wide) else None.
Definition render_opaque_fallback u (path_bytes : list N) (c : PathConvention) : res LegacyAppPathStringError str :=
  ok_or (match c with
         | Posix => if starts_with path_bytes [SLASH] then Some (from_utf8_lossy path_bytes) else None
         | Windows => render_windows_opaque_fallback path_bytes
         end) (OpaqueFallback (as_str u)).
Definition from_path_uri u (c : PathConvention) : res LegacyAppPathStringError str :=
  match opaque_fallback_bytes u with
  | Some path_bytes => render_opaque_fallback u path_bytes c
  | None => match c with Posix => render_posix_path u | Windows => render_windows_path u end
  end.
(** A valid URI has segments, so rendering it never panics. *)
Definition inferred_native_path_string u : str :=
  match infer_path_convention u with
  | Some c => match from_path_uri u c with Ok s => s | _ => as_str u end
  | None => as_str u
  end.

(** ** Reading *)
Definition to_path_uri path (c : PathConvention) : res LegacyAppPathStringError U :=
  uri ← lift_uri (from_absolute_native_path path c);
  ok_or uri (InvalidNativePath path (Some c)).
Definition try_from_path path : res LegacyAppPathStringError U :=
  match infer_absolute_path_convention path with
  | None => Err (InvalidNativePath path None)
  | Some c => to_path_uri path c
  end.
Definition to_inferred_path_uri path : option U := match try_from_path path with Ok u => Some u | _ => None end.
Definition render_for_ui path : str :=
  match to_inferred_path_uri path with Some u => inferred_native_path_string u | None => path end.

Definition resolve_against path cwd (user_home_dir : option U) : res LegacyAppPathStringError U :=
  match infer_path_convention cwd with
  | None => Err (MissingBaseConvention (as_str cwd))
  | Some c =>
      let is_windows := bool_decide (c = Windows) in
      match home_relative_suffix c path with
      | Some suffix =>
          match user_home_dir with
          | None => Err (MissingHomeDirectory path)
          | Some home => lift_uri (uri_join home (drop_while (separates c) suffix))
          end
      | None =>
          if is_windows && (starts_with path [SLASH; SLASH] || starts_with path bs2) then to_path_uri path Windows
          else match infer_absolute_path_convention path with
               | Some pc =>
                   if bool_decide (pc = c) then to_path_uri path c
                   else if bool_decide (pc = Posix) && is_windows then lift_uri (uri_join cwd path)
                   else Err (MismatchedConvention path pc (as_str cwd) c)
               | None => lift_uri (uri_join cwd path)
               end
      end
  end.

(** ** Configuration paths *)
Definition validate_config_path u (c : PathConvention) : res LegacyAppPathStringError unit :=
  if negb (bool_decide (infer_path_convention u = Some c)) then incompatible_convention u c
  else
    let bytes := decode_binary (url_path u) in
    if is_none (lexical_depth u) || contains_char NUL bytes || negb (is_ok (from_utf8 bytes))
    then Err (PathUriError (InvalidFileUriPath (as_str u)))
    else text ← from_path_uri u c; validate_config_path_text text c.
Definition validate_glob_directory u (c : PathConvention) : res LegacyAppPathStringError unit :=
  _ ← validate_config_path u c;
  text ← from_path_uri u c;
  if contains_glob_metacharacter text || (bool_decide (c = Posix) && contains_char BACKSLASH text)
  then Err (UnsupportedConfigPath text c) else Ok tt.
Definition to_config_path_string u (c : PathConvention) : res LegacyAppPathStringError str :=
  rendered ← from_path_uri u c;
  Ok (if is_some (host_str u) && is_none (parent u) then rendered ++ [BACKSLASH] else rendered).
Definition resolve_config_path_uri (input : str) (c : PathConvention) (base user_home_dir : option U)
    : res LegacyAppPathStringError U :=
  _ ← validate_config_path_text input c;
  let glob (u : U) := if contains_glob_metacharacter input then validate_glob_directory u c else Ok tt in
  resolved ←
    (if is_some (home_relative_suffix c input) then
       match user_home_dir with
       | None => Err (MissingHomeDirectory input)
       | Some home =>
           _ ← validate_config_path home c; _ ← glob home; resolve_against input home (Some home)
       end
     else match to_path_uri input c with
          | Ok absolute => Ok absolute
          | Err error =>
              match base with
              | None => Err error
              | Some base => _ ← validate_config_path base c; _ ← glob base; resolve_against input base None
              end
          | Panic => Panic
          end);
  _ ← validate_config_path resolved c;
  lift_uri (uri_join resolved DOT).
Definition resolve_config_path (input : str) (c : PathConvention) (base user_home_dir : option U)
    : res LegacyAppPathStringError str :=
  u ← resolve_config_path_uri input c base user_home_dir; to_config_path_string u c.

(** ** Joins of raw bytes *)
Definition push_bytes_component (segments : list str) (component : list N) : list str :=
  if is_empty component || str_eqb component DOT then segments
  else if str_eqb component DOTDOT then removelast segments
  else segments ++ [encode_binary component].
Definition join_native_bytes u (path : list N) : res PathUriParseError U :=
  match from_utf8 path with
  | Ok text => uri_join u text
  | _ =>
      if negb (bool_decide (infer_path_convention u = Some Posix)) || is_some (opaque_fallback_bytes u)
         || contains_char NUL path
      then Err (InvalidFileUriPath (as_str u))
      else
        let segments := if starts_with path [SLASH] then []
                        else non_empty (split_by (N.eqb SLASH) (url_path u)) in
        let segments := foldl push_bytes_component segments (split_by (N.eqb SLASH) path) in
        uri ← try_from (set_path (SLASH :: join [SLASH] segments) u);
        if negb (bool_decide (infer_path_convention uri = Some Posix))
        then Err (InvalidFileUriPath (as_str uri)) else Ok uri
  end.
End native.
