(* ===== verification/NativePathProps.v ===== *)
(** * path-uri: native text round trips

    Reading an absolute POSIX path and rendering the URI gives the lexically
    normalized path back, and reading that text again changes nothing. *)
From S2P Require Import Prelude Str Utf8Stream WindowsCommand FileUri FileUriLaws FileUriProps FileUriOrder.
From S2P Require Import FileUriJoin NativePath.

Lemma from_utf8_lossy_text t : scalars t → from_utf8_lossy (as_bytes t) = t.
Proof.
  intros Ht. unfold from_utf8_lossy. cbn [utf8_lossy].
  assert (from_utf8 (as_bytes t) = Ok t) as E by by apply from_utf8_Ok.
  unfold from_utf8 in E. destruct (decode _ _) as [[text rest] [e|]]; by simplify_eq/=.
Qed.
Lemma concat_slash l : l ≠ [] → concat ((λ s : str, SLASH :: s) <$> l) = SLASH :: join [SLASH] l.
Proof.
  induction l as [|s l IH]; [done|]. intros _. destruct l as [|t l]; [by csimpl; rewrite app_nil_r|].
  rewrite fmap_cons, join_cons by done. cbn [concat app]. by rewrite IH.
Qed.

(** ** Normalized text *)
(** A name of a normalized path. *)
Definition plain_segment (s : str) : Prop := s ≠ [] ∧ s ≠ DOT ∧ s ≠ DOTDOT ∧ SLASH ∉ s.
Lemma normalize_plain anchor names normalized depth trailing :
  Forall plain_segment names →
  foldl (normalize_segment anchor) (normalized, depth, trailing) names
  = (normalized ++ names, depth + length names, if is_empty names then trailing else false).
Proof.
  intros Hf. revert normalized depth trailing. induction Hf as [|s names (Hne & Hd & Hdd & _) Hf IH]; intros.
  - simpl. by rewrite app_nil_r, Nat.add_0_r.
  - cbn [foldl]. unfold normalize_segment at 2. rewrite (proj2 (is_empty_false s)) by done.
    rewrite (proj2 (str_eqb_ne s DOT)), (proj2 (str_eqb_ne s DOTDOT)) by done. rewrite IH, <-app_assoc.
    cbn [app is_empty length]. rewrite Nat.add_succ_comm. by destruct (is_empty names).
Qed.
Lemma normalize_plains anchor segments normalized depth trailing :
  Forall (λ s, SLASH ∉ s) segments → Forall plain_segment normalized →
  Forall plain_segment (foldl (normalize_segment anchor) (normalized, depth, trailing) segments).1.1
  ∧ (∀ s, s ∈ (foldl (normalize_segment anchor) (normalized, depth, trailing) segments).1.1 →
          s ∈ normalized ∨ s ∈ segments).
Proof.
  intros Hf. revert normalized depth trailing. induction Hf as [|s segments Hs Hf IH]; intros normalized depth trailing Hn.
  - split; [done|]. by left.
  - cbn [foldl]. unfold normalize_segment at 2 4.
    assert (∀ l d t, Forall plain_segment l → (∀ x, x ∈ l → x ∈ normalized ∨ x = s) →
      Forall plain_segment (foldl (normalize_segment anchor) (l, d, t) segments).1.1
      ∧ (∀ x, x ∈ (foldl (normalize_segment anchor) (l, d, t) segments).1.1 → x ∈ normalized ∨ x ∈ s :: segments)) as Hl.
    { intros l d t Hl Hx. destruct (IH l d t Hl) as [H1 H2]. split; [done|]. intros x [H|H]%H2; [|by right; right].
      destruct (Hx x H) as [| ->]; [by left|right; left]. }
    destruct (is_empty s) eqn:Es; [apply Hl; [done|by left]|]. destruct (str_eqb s DOT) eqn:Ed; [apply Hl; [done|by left]|].
    apply is_empty_false in Es. apply str_eqb_ne in Ed. destruct (str_eqb s DOTDOT) eqn:Edd.
    + destruct (anchor <? depth); [|apply Hl; [done|by left]]. apply Hl; [|intros x Hx%removelast_elem; by left].
      rewrite Forall_forall in *. intros x Hx%removelast_elem. auto.
    + apply str_eqb_ne in Edd. apply Hl.
      * apply Forall_app. split; [done|]. by repeat constructor.
      * intros x [| ->%list_elem_of_singleton]%elem_of_app; [by left|by right].
Qed.

(** The names of the path [SLASH :: rest] after normalization, and their text. *)
Definition normalized_names (rest : str) : list str := normalized_segments Posix None (split_by (N.eqb SLASH) rest).
Definition normalized_text (rest : str) : str := join [SLASH] (normalized_names rest).

Lemma normalized_names_spec rest :
  ∃ ns (trailing : bool), normalized_names rest = ns ++ (if trailing then [[]] else []) ∧ Forall plain_segment ns
    ∧ ∀ s, s ∈ ns → s ∈ split_by (N.eqb SLASH) rest.
Proof.
  unfold normalized_names, normalized_segments.
  destruct (normalize_plains (anchor_depth Posix) (split_by (N.eqb SLASH) rest) [] 0 false) as [Hp Hs];
    [apply split_by_no_sep|constructor|].
  destruct (foldl _ _ _) as [[ns d] trailing]. rewrite bool_decide_false by done. cbn [andb]. rewrite orb_false_r.
  exists ns, trailing. split; [by destruct trailing; [|rewrite app_nil_r]|]. split; [done|].
  intros s [H|H]%Hs; [by apply elem_of_nil in H|done].
Qed.
Lemma normalized_text_idemp rest : normalized_text (normalized_text rest) = normalized_text rest.
Proof.
  unfold normalized_text. destruct (normalized_names_spec rest) as (ns & trailing & E & Hp & _). rewrite E.
  assert (Forall (λ s, SLASH ∉ s) (ns ++ (if trailing then [[]] else []))) as Hf.
  { apply Forall_app. split; [by eapply Forall_impl; [exact Hp|]; intros s (_ & _ & _ & ?)|].
    destruct trailing; repeat constructor; apply not_elem_of_nil. }
  unfold normalized_names at 1. destruct (decide (ns ++ (if trailing then [[]] else []) = [])) as [Hnil|Hne].
  { by rewrite Hnil. }
  rewrite split_by_join by done. unfold normalized_segments. rewrite foldl_app, normalize_plain by done.
  cbn [app]. destruct trailing; [done|]. cbn [foldl]. rewrite bool_decide_false by done. cbn [andb].
  rewrite orb_false_r, app_nil_r in *. by destruct ns.
Qed.

Section texts.
Context {U : Type} `{!Url U} `{!UrlLaws U}.

Lemma render_posix u es (l : list str) :
  host_str u = None → path_segments u = Some es → decode_binary <$> es = as_bytes <$> l → l ≠ [] → Forall scalars l →
  render_posix_path u = Ok (SLASH :: join [SLASH] l).
Proof.
  intros Hh Hes Hd Hne Hs. unfold render_posix_path. rewrite Hh, Hes. cbn [is_some]. f_equal.
  rewrite <-concat_slash by done. f_equal. clear -Hd Hs. revert es Hd.
  induction Hs as [|s l Hs Hf IH]; intros [|e es] Hd; try done. csimpl in *. injection Hd as He Hd.
  rewrite (IH es Hd). unfold decode_native_segment. by rewrite He, from_utf8_lossy_text.
Qed.
Lemma normalized_scalars rest : Forall scalars (split_by (N.eqb SLASH) rest) → Forall scalars (normalized_names rest).
Proof.
  intros Hs. destruct (normalized_names_spec rest) as (ns & trailing & -> & _ & Hin). apply Forall_app. split.
  - rewrite Forall_forall in *. auto.
  - destruct trailing; repeat constructor.
Qed.
(** Its first name, after [.] and [..] are resolved, spells a drive: [/C:/x] would
    be the URI of a Windows path. *)
Definition looks_like_drive (rest : str) : Prop :=
  ∃ x c, head (resolve_names 0 [] (split_by (N.eqb SLASH) rest)) = Some [x; c]
         ∧ is_ascii_alphabetic x = true ∧ c = COLON.
Lemma looks_like_drive_bytes rest :
  is_some_and drive_bytes (head (resolve_names 0 [] (split_by (N.eqb SLASH) rest))) = true ↔ looks_like_drive rest.
Proof.
  unfold looks_like_drive. destruct (head _) as [bs|]; simpl; [|naive_solver].
  unfold drive_bytes. destruct bs as [|x [|c [|]]]; try naive_solver.
  rewrite andb_true_iff, N.eqb_eq. naive_solver.
Qed.
(** Reading an absolute path and rendering it. *)
Lemma posix_read_render rest :
  NUL ∉ rest → scalars rest → Forall joinable (split_by (N.eqb SLASH) rest) →
  ∃ u : U, to_path_uri (SLASH :: rest) Posix = Ok u ∧ valid u
    ∧ (is_opaque u = true ∧ looks_like_drive rest ∧ from_path_uri u Posix = Ok (SLASH :: rest)
       ∨ is_opaque u = false ∧ infer_path_convention u = Some Posix
         ∧ decode_binary <$> names u = resolve_names 0 [] (split_by (N.eqb SLASH) rest)
         ∧ from_path_uri u Posix = Ok (SLASH :: normalized_text rest)).
Proof.
  intros Hn Hs Hj. destruct (posix_absolute rest Hn Hj) as (u & E & Hv & Hu). exists u. unfold to_path_uri. rewrite E.
  split; [done|]. split; [done|]. destruct Hu as [[Ho Hdr]|(Ho & Hh & Hcv & es & Hes & Hd & Hst)].
  - left. unfold is_opaque, from_path_uri. rewrite Ho. split; [done|]. split; [by apply looks_like_drive_bytes|]. unfold render_opaque_fallback.
    change (starts_with (as_bytes (SLASH :: rest)) [SLASH]) with true. cbn match.
    by rewrite from_utf8_lossy_text by by constructor.
  - right. split; [done|]. split; [by rewrite ordinary_convention by done; f_equal|]. split; [done|].
    unfold from_path_uri. unfold opaque_fallback_bytes. rewrite (proj1 (ordinary_bad u) Ho).
    unfold normalized_text. fold (normalized_names rest) in Hd.
    assert (Forall scalars (normalized_names rest)) as Hsc.
    { apply normalized_scalars, Forall_forall. intros s Hin. apply Forall_forall. intros c Hc.
      unfold scalars in Hs. rewrite Forall_forall in Hs. apply Hs. by eapply split_elem. }
    destruct (normalized_names rest) as [|n ns] eqn:En.
    + by apply (render_posix u es [[]]); [..|repeat constructor].
    + by apply (render_posix u es (n :: ns)).
Qed.
Lemma normalized_text_ok rest :
  NUL ∉ rest → scalars rest → Forall joinable (split_by (N.eqb SLASH) rest) →
  NUL ∉ normalized_text rest ∧ scalars (normalized_text rest)
  ∧ Forall joinable (split_by (N.eqb SLASH) (normalized_text rest)).
Proof.
  intros Hn Hs Hj. unfold normalized_text.
  destruct (normalized_names_spec rest) as (ns & trailing & E & Hp & Hin). rewrite E.
  assert (∀ c, c ∈ join [SLASH] (ns ++ (if trailing then [[]] else [])) → c = SLASH ∨ c ∈ rest) as Hc.
  { intros c Hc. destruct (decide (c = SLASH)); [by left|right]. apply elem_of_join in Hc as (s & Hs' & Hc); [|done].
    apply elem_of_app in Hs' as [Hs'|Hs']; [by eapply split_elem; [apply Hin|]|].
    destruct trailing; [|by apply elem_of_nil in Hs']. apply list_elem_of_singleton in Hs' as ->. by apply elem_of_nil in Hc. }
  split; [by intros [H|H]%Hc|]. split.
  { apply Forall_forall. intros c [-> |H]%Hc; [done|]. unfold scalars in Hs. rewrite Forall_forall in Hs. auto. }
  assert (Forall joinable (ns ++ (if trailing then [[]] else []))) as Hj'.
  { apply Forall_app. split; [rewrite Forall_forall in *; auto|]. destruct trailing; repeat constructor. }
  destruct (decide (ns ++ (if trailing then [[]] else []) = [])) as [-> |Hne]; [by repeat constructor|].
  rewrite split_by_join; [done| |done]. apply Forall_app.
  split; [by eapply Forall_impl; [exact Hp|]; intros s (_ & _ & _ & ?)|].
  destruct trailing; repeat constructor; apply not_elem_of_nil.
Qed.

(** C31: an absolute POSIX path without NUL, whose names the [url] crate writes as
    segments, is read as an ordinary POSIX URI with its names resolved lexically
    and rendered as its lexically normalized text, which reads and renders to
    itself.  The one exception is a path whose first resolved name spells a drive:
    it may be kept in an opaque URI, which renders it as it was written. *)
Theorem posix_text_round_trip rest :
  NUL ∉ rest → scalars rest → Forall joinable (split_by (N.eqb SLASH) rest) →
  ∃ u : U, to_path_uri (SLASH :: rest) Posix = Ok u ∧ valid u
    ∧ (is_opaque u = true ∧ looks_like_drive rest ∧ from_path_uri u Posix = Ok (SLASH :: rest)
       ∨ is_opaque u = false ∧ infer_path_convention u = Some Posix
         ∧ decode_binary <$> names u = resolve_names 0 [] (split_by (N.eqb SLASH) rest)
         ∧ from_path_uri u Posix = Ok (SLASH :: normalized_text rest)
         ∧ ∃ v : U, to_path_uri (SLASH :: normalized_text rest) Posix = Ok v
                    ∧ from_path_uri v Posix = Ok (SLASH :: normalized_text rest)).
Proof.
  intros Hn Hs Hj. destruct (posix_read_render rest Hn Hs Hj) as (u & E & Hv & Hu). exists u. split; [done|].
  split; [done|]. destruct Hu as [Hu|(Ho & Hc & Hd & Hu)]; [by left|right]. split_and!; [done..|].
  destruct (normalized_text_ok rest Hn Hs Hj) as (Hn' & Hs' & Hj').
  destruct (posix_read_render (normalized_text rest) Hn' Hs' Hj') as (v & Ev & _ & Hr). exists v. split; [done|].
  rewrite normalized_text_idemp in Hr. destruct Hr as [(_ & _ & Hr)|(_ & _ & _ & Hr)]; done.
Qed.
End texts.
