(* ===== verification/UrlModel.v ===== *)
(** * path-uri: a model of the URL laws

    File URLs as their text, with percent-encoding and a reversible encoding of
    bytes: the laws assumed of the crates hold together, and the theorems on path
    URIs apply to concrete ones. *)
From S2P Require Import Prelude Str Utf8Stream WindowsCommand FileUri FileUriLaws FileUriProps FileUriOrder.
From S2P Require Import FileUriJoin.

(** ** Percent-encoding *)
Definition PERCENT : char := 37%N.
Definition hex_value (c : char) : option N :=
  if in_range 48 57 c then Some (c - 48)%N
  else if in_range 65 70 c then Some (c - 55)%N
  else if in_range 97 102 c then Some (c - 87)%N
  else None.
Definition hex_digit (n : N) : char := if (n <? 10)%N then (48 + n)%N else (55 + n)%N.
Fixpoint percent_decode (s : str) : list N :=
  match s with
  | [] => []
  | c :: s' =>
      match s' with
      | a :: b :: r =>
          match hex_value a, hex_value b with
          | Some x, Some y => if (c =? PERCENT)%N then (16 * x + y)%N :: percent_decode r else c :: percent_decode s'
          | _, _ => c :: percent_decode s'
          end
      | _ => c :: percent_decode s'
      end
  end.
Definition unreserved (b : N) : bool := is_ascii_alphabetic b || is_ascii_digit b || contains_char b (lit ".-_~:").
Definition percent_byte (b : N) : str :=
  if unreserved b then [b] else [PERCENT; hex_digit (b / 16); hex_digit (b mod 16)].
Definition percent_encode (bs : list N) : str := concat (percent_byte <$> bs).

(** Induction on texts, two and one characters at a time. *)
Lemma text_ind (P : str → Prop) :
  P [] → (∀ c s, (∀ t, length t ≤ length s → P t) → P (c :: s)) → ∀ s, P s.
Proof.
  intros Hn Hc s. assert (∀ n t, length t ≤ n → P t) as H; [|by apply (H (length s))].
  induction n as [|n IH]; intros [|c t] Hl; [done|simpl in Hl; lia|done|].
  apply Hc. intros t' Ht'. apply IH. simpl in Hl. lia.
Qed.
(** An escape at the start of a text, and what follows it. *)
Definition escape (c : char) (s : str) : option (N * str) :=
  match s with
  | a :: b :: r =>
      match hex_value a, hex_value b with
      | Some x, Some y => if (c =? PERCENT)%N then Some (16 * x + y, r)%N else None
      | _, _ => None
      end
  | _ => None
  end.
Lemma percent_decode_cons c s :
  percent_decode (c :: s) =
  match escape c s with Some (x, r) => x :: percent_decode r | None => c :: percent_decode s end.
Proof.
  destruct s as [|a [|b r]]; [done..|]. cbn [percent_decode escape].
  destruct (hex_value a), (hex_value b); try done. by destruct (c =? PERCENT)%N.
Qed.
Lemma escape_length c s x r : escape c s = Some (x, r) → length r ≤ length s.
Proof. destruct s as [|a [|b s]]; simpl; try done. repeat case_match; try done. intros [= <- <-]. lia. Qed.
Lemma escape_plain c s : c ≠ PERCENT → escape c s = None.
Proof.
  intros Hc. destruct s as [|a [|b s]]; simpl; try done. destruct (hex_value a), (hex_value b); try done.
  by rewrite (proj2 (N.eqb_neq _ _) Hc).
Qed.
Lemma escape_slash c s t : escape c (s ++ SLASH :: t) = (λ x, (x.1, x.2 ++ SLASH :: t)) <$> escape c s.
Proof.
  destruct s as [|a [|b s]]; cbn [app escape].
  - by destruct t.
  - change (hex_value SLASH) with (@None N). by destruct (hex_value a).
  - destruct (hex_value a), (hex_value b); try done. by destruct (c =? PERCENT)%N.
Qed.
Lemma percent_decode_nil s : percent_decode s = [] ↔ s = [].
Proof. split; [|by intros ->]. destruct s as [|c s]; [done|]. rewrite percent_decode_cons. by destruct (escape c s) as [[]|]. Qed.
Lemma percent_decode_slash s t : percent_decode (s ++ SLASH :: t) = percent_decode s ++ SLASH :: percent_decode t.
Proof.
  induction s as [|c s IH] using text_ind; cbn [app].
  - by rewrite percent_decode_cons, escape_plain.
  - rewrite !percent_decode_cons, escape_slash. destruct (escape c s) as [[x r]|] eqn:E; csimpl.
    + by rewrite IH by by eapply escape_length.
    + by rewrite IH.
Qed.

(** Escapes do not depend on the case of their digits. *)
Definition lower_char (c : char) : char := if ((65 <=? c) && (c <=? 90))%N then (c + 32)%N else c.
Ltac char_cases :=
  repeat (case_match; rewrite ?andb_true_iff, ?andb_false_iff, ?N.leb_le, ?N.leb_gt in * );
  try done; try f_equal; lia.
Lemma hex_value_lower c : hex_value (lower_char c) = hex_value c.
Proof. unfold hex_value, lower_char, in_range. char_cases. Qed.
Lemma percent_lower c : (lower_char c =? PERCENT)%N = (c =? PERCENT)%N.
Proof. apply eq_true_iff_eq. rewrite !N.eqb_eq. unfold lower_char, PERCENT. char_cases. Qed.
Lemma escape_lower c s : escape (lower_char c) (lower s) = (λ x, (x.1, lower x.2)) <$> escape c s.
Proof.
  destruct s as [|a [|b s]]; [done..|]. cbn [fmap list_fmap to_ascii_lowercase]. unfold to_ascii_lowercase. csimpl.
  fold (lower_char a) (lower_char b). rewrite !hex_value_lower, percent_lower.
  destruct (hex_value a), (hex_value b); try done. by destruct (c =? PERCENT)%N.
Qed.
Lemma percent_decode_lower s : lower (percent_decode (lower s)) = lower (percent_decode s).
Proof.
  induction s as [|c s IH] using text_ind; [done|]. change (lower (c :: s)) with (lower_char c :: lower s).
  rewrite !percent_decode_cons, escape_lower. destruct (escape c s) as [[x r]|] eqn:E; csimpl.
  - f_equal. apply IH. by eapply escape_length.
  - f_equal; [|by apply IH]. unfold lower_char. char_cases.
Qed.
Lemma percent_decode_case s t : lower s = lower t → lower (percent_decode s) = lower (percent_decode t).
Proof. intros E. by rewrite <-percent_decode_lower, E, percent_decode_lower. Qed.

(** Encoded bytes decode to themselves and hold no separator. *)
Lemma hex_digit_value n : (n < 16)%N → hex_value (hex_digit n) = Some n.
Proof.
  intros Hn. unfold hex_digit, hex_value, in_range. destruct (N.ltb_spec n 10); char_cases.
Qed.
Lemma unreserved_plain b : unreserved b = true → b ≠ PERCENT ∧ b ≠ SLASH.
Proof. intros H. split; intros ->; done. Qed.
Lemma decode_percent_byte b s : (b < 256)%N → percent_decode (percent_byte b ++ s) = b :: percent_decode s.
Proof.
  intros Hb. unfold percent_byte. destruct (unreserved b) eqn:E.
  - cbn [app]. rewrite percent_decode_cons, escape_plain; [done|]. by apply unreserved_plain.
  - cbn [app]. rewrite percent_decode_cons. cbn [escape].
    rewrite !hex_digit_value by (apply N.Div0.div_lt_upper_bound || apply N.mod_lt; lia). cbn match.
    f_equal. symmetry. apply (N.Div0.div_mod b 16).
Qed.
Lemma decode_percent_encode bs : Forall (λ b, b < 256)%N bs → percent_decode (percent_encode bs) = bs.
Proof.
  induction 1 as [|b bs Hb _ IH]; [done|]. unfold percent_encode. csimpl.
  rewrite decode_percent_byte by done. f_equal. exact IH.
Qed.
Lemma hex_digit_slash n : (n < 16)%N → hex_digit n ≠ SLASH.
Proof. intros Hn E. pose proof (hex_digit_value n Hn) as H. by rewrite E in H. Qed.
Lemma percent_encode_no_slash bs : Forall (λ b, b < 256)%N bs → SLASH ∉ percent_encode bs.
Proof.
  induction 1 as [|b bs Hb _ IH]; [apply not_elem_of_nil|]. unfold percent_encode. csimpl.
  rewrite not_elem_of_app. split; [|exact IH]. unfold percent_byte. destruct (unreserved b) eqn:E.
  - rewrite list_elem_of_singleton. intros H. symmetry in H. revert H. by apply unreserved_plain.
  - assert (b / 16 < 16)%N by (apply N.Div0.div_lt_upper_bound; lia). assert (b mod 16 < 16)%N by (apply N.mod_lt; lia).
    rewrite !not_elem_of_cons. split_and!; [done|by apply not_eq_sym, hex_digit_slash..|apply not_elem_of_nil].
Qed.
Lemma as_bytes_small s : scalars s → Forall (λ b, b < 256)%N (as_bytes s).
Proof.
  induction 1 as [|c s Hc _ IH]; [constructor|]. rewrite as_bytes_cons. apply Forall_app. split; [|done].
  assert (∀ x, x mod 64 < 64)%N as Hm by (intros; apply N.mod_lt; lia).
  assert (∀ x n m, x < n * m → x / n < m)%N as Hd by (intros; by apply N.Div0.div_lt_upper_bound).
  apply utf8_char_cases in Hc as [[? ->]|[[? ->]|[[? ->]|[? ->]]]].
  - by apply Forall_singleton; lia.
  - rewrite !Forall_cons. pose proof (Hm c). pose proof (Hd c 64 32)%N. split_and!; [lia..|constructor].
  - rewrite !Forall_cons. pose proof (Hm c). pose proof (Hm (c / 64)%N). pose proof (Hd c 64 1024)%N.
    pose proof (Hd (c / 64) 64 16)%N. split_and!; [lia..|constructor].
  - rewrite !Forall_cons. pose proof (Hm c). pose proof (Hm (c / 64)%N). pose proof (Hm (c / 64 / 64)%N).
    pose proof (Hd c 64 32768)%N. pose proof (Hd (c / 64) 64 512)%N. pose proof (Hd (c / 64 / 64) 64 8)%N.
    split_and!; [lia..|constructor].
Qed.

(** ** A reversible encoding over the URL-safe alphabet *)
Definition mark : char := 98%N.
Definition tally (b : N) : str := replicate (N.to_nat b) 97%N ++ [mark].
Definition tally_encode (bs : list N) : str := concat (tally <$> bs).
Fixpoint tally_decode (n : N) (s : str) : option (list N) :=
  match s with
  | [] => if (n =? 0)%N then Some [] else None
  | c :: s => if (c =? mark)%N then cons n <$> tally_decode 0 s else tally_decode (n + 1) s
  end.
Lemma tally_decode_tally n m s : tally_decode n (replicate m 97%N ++ mark :: s) = cons (n + N.of_nat m)%N <$> tally_decode 0 s.
Proof.
  revert n. induction m as [|m IH]; intros n; cbn [replicate app tally_decode].
  - by rewrite N.eqb_refl, N.add_0_r.
  - change (97 =? mark)%N with false. cbn match. rewrite IH. do 2 f_equal. lia.
Qed.
Lemma tally_round_trip bs : tally_decode 0 (tally_encode bs) = Some bs.
Proof.
  induction bs as [|b bs IH]; [done|]. unfold tally_encode, tally. csimpl. rewrite <-app_assoc. cbn [app].
  rewrite tally_decode_tally. unfold tally_encode, tally in IH. rewrite IH. csimpl. by rewrite N2Nat.id.
Qed.
Lemma tally_alphabet bs : Forall (λ c, url_safe c = true) (tally_encode bs).
Proof.
  apply Forall_concat, Forall_fmap, Forall_forall. intros b _. simpl. unfold tally. apply Forall_app.
  split; [by apply Forall_replicate|by repeat constructor].
Qed.
Lemma tally_nil bs : tally_encode bs = [] → bs = [].
Proof. destruct bs as [|b bs]; [done|]. unfold tally_encode, tally. csimpl. by destruct (replicate _ _). Qed.

(** ** File URLs as their text *)
Record Link := L { text : str }.
#[export] Instance Link_eq_dec : EqDecision Link.
Proof. solve_decision. Defined.
(** The host and the path after its first separator. *)
Definition parts (u : Link) : option (str * str) :=
  t ← strip_prefix (lit "file://") (text u); split_once SLASH t.
Definition compose (host rest : str) : Link := L (lit "file://" ++ host ++ SLASH :: rest).
Definition on_parts (f : str → str → Link) (u : Link) : Link :=
  match parts u with Some (host, rest) => f host rest | None => u end.
Definition on_segments (f : list str → list str) : Link → Link :=
  on_parts (λ host rest, compose host (join [SLASH] (f (split_by (N.eqb SLASH) rest)))).

Lemma parts_compose host rest : SLASH ∉ host → parts (compose host rest) = Some (host, rest).
Proof.
  intros Hh. unfold parts, compose. cbn [text]. rewrite strip_prefix_app. cbn [mbind option_bind].
  by apply split_once_Some.
Qed.
Lemma parts_spec u host rest : parts u = Some (host, rest) → u = compose host rest ∧ SLASH ∉ host.
Proof.
  unfold parts. destruct (strip_prefix _ _) as [t|] eqn:E; [|done]. apply strip_prefix_Some in E.
  cbn [mbind option_bind]. intros [-> Hh]%split_once_Some. split; [|done]. destruct u. unfold compose. by f_equal.
Qed.

#[export] Instance link_url : Url Link := {|
  url_parse s := if is_some (parts (L s)) then inr (L s) else inl (lit "relative URL without a base");
  as_str := text;
  scheme u := if is_some (parts u) then FILE_SCHEME else [];
  username _ := []; password _ := None; port _ := None; query _ := None; fragment _ := None;
  host_str u := match parts u with Some (host, _) => if is_empty host then None else Some host | None => None end;
  url_path u := match parts u with Some (_, rest) => SLASH :: rest | None => [] end;
  path_segments u := (λ x, split_by (N.eqb SLASH) x.2) <$> parts u;
  set_host h u :=
    match parts u, h with
    | Some (_, rest), None => Some (compose [] rest)
    | Some (_, rest), Some h => if is_empty h || contains_char SLASH h then None else Some (compose h rest)
    | None, _ => None
    end;
  set_path q := on_parts (λ host rest, compose host (drop 1 q));
  seg_clear := on_segments (λ _, [[]]);
  seg_pop := on_segments popped;
  seg_pop_if_empty := on_segments popped_if_empty;
  seg_push s := on_segments (λ ss, before_push ss ++ [percent_encode (as_bytes s)]);
  decode_binary := percent_decode;
  url_decode s := match from_utf8 (percent_decode s) with Ok t => Some t | _ => None end;
  encode_binary := percent_encode;
  b64_encode := tally_encode;
  b64_decode := tally_decode 0;
|}.

Lemma on_parts_frame f u :
  (∀ host rest, SLASH ∉ host → ∃ rest', f host rest = compose host rest') →
  host_str (on_parts f u) = host_str u ∧ same_rest (on_parts f u) u.
Proof.
  intros Hf. unfold on_parts. destruct (parts u) as [[host rest]|] eqn:E; [|done].
  destruct (parts_spec _ _ _ E) as [-> Hh]. destruct (Hf host rest Hh) as [rest' ->].
  unfold same_rest. cbn. by rewrite !parts_compose.
Qed.
Lemma on_segments_frame f u : host_str (on_segments f u) = host_str u ∧ same_rest (on_segments f u) u.
Proof. apply on_parts_frame. intros host rest _. by eexists. Qed.
Lemma on_segments_spec f u ss :
  path_segments u = Some ss → f ss ≠ [] → Forall (λ s, SLASH ∉ s) (f ss) → path_segments (on_segments f u) = Some (f ss).
Proof.
  cbn. unfold on_segments, on_parts. destruct (parts u) as [[host rest]|] eqn:E; [|done]. csimpl.
  intros [= <-] Hne Hf. destruct (parts_spec _ _ _ E) as [-> Hh]. rewrite parts_compose by done. csimpl.
  by rewrite split_by_join.
Qed.
Lemma link_no_slash (u : Link) ss : path_segments u = Some ss → Forall (λ s, SLASH ∉ s) ss.
Proof. cbn. destruct (parts u) as [[host rest]|]; [|done]. intros [= <-]. apply split_by_no_sep. Qed.
Lemma popped_no_slash (ss : list str) : Forall (λ s, SLASH ∉ s) ss → Forall (λ s, SLASH ∉ s) (popped ss).
Proof.
  rewrite !Forall_forall. intros Hf s [Hs| ->]%popped_elem; [auto|apply not_elem_of_nil].
Qed.
Lemma popped_nonnil (ss : list str) : popped ss ≠ [].
Proof. unfold popped. by destruct (removelast ss). Qed.
Lemma link_segments (u : Link) :
  scheme u = FILE_SCHEME →
  ∃ ss, path_segments u = Some ss ∧ ss ≠ [] ∧ Forall (λ s, SLASH ∉ s) ss ∧ url_path u = SLASH :: join [SLASH] ss.
Proof.
  cbn. destruct (parts u) as [[host rest]|] eqn:E; [|done]. intros _. csimpl. eexists. split; [done|].
  split; [apply split_by_nonnil|]. split; [apply split_by_no_sep|]. by rewrite join_split_by.
Qed.

#[export] Instance link_laws : UrlLaws Link.
Proof.
  split.
  - intros [s] [t]. cbn. by intros ->.
  - apply link_segments.
  - intros u Hs _. cbn in *. destruct (parts u) as [[host rest]|] eqn:E; [|done].
    destruct (parts_spec _ _ _ E) as [-> _]. unfold compose. cbn [text]. by destruct host.
  - intros u h. cbn. destruct (parts u) as [[host rest]|] eqn:E; [|done]. destruct (parts_spec _ _ _ E) as [_ Hh].
    destruct host; [done|]. by intros [= <-].
  - intros u q Hs Hq. destruct (on_parts_frame (λ host rest, compose host (drop 1 q)) u) as [H1 H2]; [by eexists|].
    split; [|by split]. cbn in *. unfold on_parts. destruct (parts u) as [[host rest]|] eqn:E; [|done].
    destruct (parts_spec _ _ _ E) as [-> Hh]. rewrite parts_compose by done. destruct q as [|c q]; [done|].
    unfold to_ascii_lowercase in Hq. csimpl in Hq. injection Hq as Hc _. cbn [drop]. f_equal.
    change (lower_char c = SLASH) in Hc. unfold lower_char, SLASH in *. revert Hc.
    destruct ((65 <=? c) && (c <=? 90))%N eqn:Ec; [|congruence]. apply andb_true_iff in Ec as [Ec%N.leb_le _]. lia.
  - intros u Hs. cbn in *. destruct (parts u) as [[host rest]|] eqn:E; [|done]. eexists. split; [done|].
    unfold same_rest. cbn. rewrite !parts_compose, E by apply not_elem_of_nil. by split_and!.
  - intros h u v. cbn. destruct (parts u) as [[host rest]|] eqn:E; [|done]. destruct (is_empty h || _) eqn:Eh; [done|].
    apply orb_false_iff in Eh as [_ Eh%bool_decide_eq_false]. intros [= <-]. unfold same_rest. cbn.
    by rewrite parts_compose, E.
  - intros u. apply on_segments_frame.
  - intros u ss Hss. apply on_segments_spec; [done|apply popped_nonnil|]. by eapply popped_no_slash, link_no_slash.
  - intros u. apply on_segments_frame.
  - intros u ss Hss. pose proof (link_no_slash u ss Hss). apply on_segments_spec; [done| |]; unfold popped_if_empty.
    + case_bool_decide; [apply popped_nonnil|]. destruct (parts u) as [[h r]|] eqn:E; cbn in Hss; rewrite E in Hss; [|done].
      injection Hss as <-. apply split_by_nonnil.
    + case_bool_decide; [by apply popped_no_slash|done].
  - intros u. apply on_segments_frame.
  - intros u ss Hss. by apply (on_segments_spec (λ _, [[]]) u ss); [| |repeat constructor; apply not_elem_of_nil].
  - intros s u. apply on_segments_frame.
  - intros s u ss Hss (Hs & _). exists (percent_encode (as_bytes s)).
    split; [|by apply decode_percent_encode, as_bytes_small].
    apply (on_segments_spec (λ ss, before_push ss ++ [percent_encode (as_bytes s)]) u ss Hss).
    + by destruct (before_push ss).
    + apply Forall_app. split; [|by constructor; [apply percent_encode_no_slash, as_bytes_small|]].
      unfold before_push. case_bool_decide; [constructor|]. by eapply link_no_slash.
  - apply percent_decode_case.
  - apply percent_decode_nil.
  - apply percent_decode_slash.
  - done.
  - cbn [decode_binary link_url]. induction s as [|c s IH]; [done|]. rewrite not_elem_of_cons. intros [Hc Hs].
    rewrite percent_decode_cons, escape_plain by done. by rewrite IH.
  - intros [|x s]; [done|]. cbn [is_windows_drive_uri_segment decode_binary link_url].
    rewrite andb_true_iff, !orb_true_iff, !str_eqb_eq. intros [Hx Hs].
    assert (x ≠ PERCENT) by (intros ->; done).
    destruct Hs as [[->| ->]| ->]; rewrite percent_decode_cons, escape_plain; done.
  - done.
  - apply tally_alphabet.
  - apply tally_round_trip.
  - apply tally_nil.
  - eexists. by split_and!.
  - intros s Hs. unfold BAD_PATH_URI_PREFIX. 
    assert (parts (L (lit "file:///%00/bad/path/" ++ s)) = Some ([], lit "%00/bad/path/" ++ s)) as E by done.
    exists (L (lit "file:///%00/bad/path/" ++ s)). cbn [url_parse link_url]. rewrite E. split; [done|].
    cbn. rewrite E. by split_and!.
Qed.
