(* ===== verification/MemFs.v ===== *)
(** * apply-patch: path URIs and a file system with links

    The operations of [PathUri] that a patch uses, discharged by the model of
    that crate ([FileUri], [NativePath]), and a small file system with
    symbolic links that satisfies the laws of [PatchApply].  The witnesses of
    the properties on applications run here, and so does the case the laws
    leave out: a patch that adds a file at a dangling link. *)
From stdpp Require Import gmap.
From S2P Require Import Prelude Str PatchSyntax PatchParser FileUpdate FileUri NativePath UrlModel PatchApply.

(** ** The path operations of a patch *)

(** The text of a [PathUriParseError]. *)
Definition OS : str := lit "linux".
Definition uri_error_text (e : PathUriParseError) : str :=
  match e with
  | InvalidUri e => lit "invalid URI: " ++ e
  | UnsupportedScheme s => lit "unsupported path URI scheme `" ++ s ++ lit "`"
  | InvalidFileUriPath path => lit "'" ++ path ++ lit "' is invalid on '" ++ OS ++ lit "'"
  | CredentialsNotAllowed => lit "credentials are not allowed in path URIs"
  | PortNotAllowed => lit "ports are not allowed in path URIs"
  | QueryNotAllowed => lit "query parameters are not allowed in path URIs"
  | FragmentNotAllowed => lit "fragments are not allowed in path URIs"
  | JoinPathMustBeDescendant path =>
      lit "path `" ++ path ++ lit "` must resolve to a relative descendant when joining a path URI"
  end.

(** [PathUri::join], [parent] and [inferred_native_path_string]; a join of a
    valid URI does not panic ([FileUriOrder.operations_keep_uris_valid]). *)
#[export] Instance uri_paths {U} `{!Url U} : PathUri U := {|
  path_join cwd p :=
    match uri_join cwd p with
    | Ok u => inr u
    | Err e => inl (uri_error_text e)
    | Panic => inl []
    end;
  path_parent := FileUri.parent;
  PatchApply.inferred_native_path_string := NativePath.inferred_native_path_string;
|}.

#[export] Instance Link_countable : Countable Link.
Proof. apply (inj_countable' text L). by intros []. Defined.

(** ** A file system with symbolic links

    A link leads to a path of its own directory tree in one step; every
    directory exists.  With [follow_symlinks] a link is resolved, without it
    it is refused, as in [exec-server/src/no_follow]. *)
Record mem := Mem { files : gmap Link str; links : gmap Link Link }.

Definition not_found : io_error := {| kind := NotFound; io_message := lit "entity not found" |}.
Definition is_a_link : io_error := {| kind := OtherKind; io_message := lit "symbolic link" |}.
Definition resolved (f : bool) (p : Link) (w : mem) : io Link :=
  match links w !! p with
  | Some t => if f then inr t else inl is_a_link
  | None => inr p
  end.
Definition at_file {A} (r : io Link) (w : mem) (k : Link → str → io A) : io A :=
  match r with
  | inl e => inl e
  | inr t => match files w !! t with Some s => k t s | None => inl not_found end
  end.

#[export] Instance mem_fs : FileSystem mem Link := {|
  read_file_text f p w := (at_file (resolved f p w) w (λ _ s, inr s), w);
  get_metadata f p w :=
    (at_file (resolved f p w) w (λ _ _,
       inr {| is_directory := false; is_file := true; is_symlink := is_some (links w !! p) |}), w);
  write_file f p c w :=
    match resolved f p w with
    | inl e => (inl e, w)
    | inr t => (inr tt, Mem (<[t := c]> (files w)) (links w))
    end;
  remove _ p w :=
    match links w !! p, files w !! p with
    | Some _, _ => (inr tt, Mem (files w) (delete p (links w)))
    | None, Some _ => (inr tt, Mem (delete p (files w)) (links w))
    | None, None => (inl not_found, w)
    end;
  create_directory _ _ w := (inr tt, w);
|}.

(** Every link leads to a file that is not a link itself. *)
Definition mem_tidy (w : mem) : Prop :=
  ∀ p t, links w !! p = Some t → is_Some (files w !! t) ∧ links w !! t = None.
Definition mem_unlinked (q : Link) (w : mem) : Prop := ∀ p, links w !! p ≠ Some q.

Lemma mem_write_tidy f p c w : mem_tidy w → mem_tidy (write_file f p c w).2.
Proof.
  intros Hw. simpl. destruct (resolved f p w) as [e|t]; [done|]. intros q u Hq. simpl in *.
  destruct (Hw q u Hq) as [? ?]. split; [|done]. destruct (decide (t = u)) as [->|].
  - by rewrite lookup_insert_eq.
  - by rewrite lookup_insert_ne.
Qed.

Lemma mem_remove_tidy o p w :
  mem_tidy w → links w !! p = None → mem_unlinked p w → mem_tidy (remove o p w).2.
Proof.
  intros Hw Hp Hu. simpl. rewrite Hp. destruct (files w !! p); [|done]. intros q u Hq. simpl in *.
  destruct (Hw q u Hq) as [? ?]. split; [|done]. rewrite lookup_delete_ne; [done|].
  intros ->. by apply (Hu q).
Qed.

Lemma mem_missing f p w e :
  mem_tidy w → (get_metadata f p w).1 = inl e → kind e = NotFound → links w !! p = None.
Proof.
  intros Hw. simpl. unfold resolved. destruct (links w !! p) as [t|] eqn:E; [|done].
  destruct (Hw p t E) as [[s Hs] _]. destruct f; simpl; [by rewrite Hs|]. by intros [= <-].
Qed.

Lemma mem_read f p w :
  links w !! p = None →
  (read_file_text f p w).1 = match files w !! p with Some s => inr s | None => inl not_found end.
Proof. intros E. simpl. unfold resolved. by rewrite E. Qed.

#[export] Instance mem_fs_laws : FileSystemLaws mem_fs.
Proof.
  refine {| view := files; plain := λ p w, links w !! p = None; tidy := mem_tidy;
            unlinked := mem_unlinked |}; try done.
  - intros f p w m _. simpl. unfold resolved. destruct (links w !! p) as [t|] eqn:E; [|done].
    destruct f; simpl; [|done]. destruct (files w !! t); [|done]. by intros [= <-].
  - intros f p w e Hw He Hk. by eapply mem_missing.
  - intros f p w s Hp. rewrite mem_read by done. destruct (files w !! p); [|done]. by intros [= <-].
  - intros f p w e Hp. rewrite mem_read by done. by destruct (files w !! p).
  - intros f p c q w. simpl. by destruct (resolved f p w).
  - apply mem_write_tidy.
  - intros f p c q w. simpl. by destruct (resolved f p w).
  - intros f p c w Hp. simpl. unfold resolved. by rewrite Hp.
  - intros f p c w e. simpl. by destruct (resolved f p w) as [e'|t].
  - intros o p q w Hq. simpl. destruct (links w !! p) eqn:E; [|by destruct (files w !! p)].
    simpl. by rewrite lookup_delete_None; right.
  - apply mem_remove_tidy.
  - intros o p q w Hq. simpl. destruct (links w !! p) eqn:E; [|by destruct (files w !! p)].
    intros r. simpl. rewrite lookup_delete_Some. intros [_ Hr]. by apply (Hq r).
  - intros o p w Hp. simpl in *. rewrite Hp. by destruct (files w !! p).
  - intros o p w e. simpl. destruct (links w !! p); [done|]. destruct (files w !! p); [done|]. by left.
Defined.

(** A writer that keeps its lines. *)
#[export] Instance list_write : Write (list str) := λ l out, (inr tt, out ++ [l]).

(** ** Witnesses *)

(** A file of two lines, one that a link leads to and one that goes; and a
    patch that moves the first with a line replaced, adds a file and deletes
    another. *)
Definition file_uri (path : str) : Link := L (lit "file:///" ++ path).
Definition demo_cwd : Link := file_uri (lit "w").
Definition demo_links : gmap Link Link := {[ file_uri (lit "w/l") := file_uri (lit "w/t") ]}.
Definition demo_files : gmap Link str :=
  {[ file_uri (lit "w/a") := lit "x" ++ [LF] ++ lit "y" ++ [LF]; file_uri (lit "w/b") := lit "old";
     file_uri (lit "w/t") := lit "kept" ]}.
Definition demo_world : mem := Mem demo_files demo_links.
Definition demo_chunk : UpdateFileChunk :=
  {| change_context := None; old_lines := [lit "x"; lit "y"]; new_lines := [lit "x"; lit "z"];
     context_line_indices := [(0, 0)]; is_end_of_file := false |}.
Definition demo_hunks : list Hunk :=
  [UpdateFile (lit "a") (Some (lit "../w/c")) [demo_chunk]; AddFile (lit "d") (lit "new");
   DeleteFile (lit "b")].
Definition demo_result : gmap Link str :=
  {[ file_uri (lit "w/c") := lit "x" ++ [LF] ++ lit "z" ++ [LF]; file_uri (lit "w/d") := lit "new";
     file_uri (lit "w/t") := lit "kept" ]}.
Definition demo_after : mem := Mem demo_result demo_links.

Lemma demo_wf : Forall hunk_wf demo_hunks.
Proof. repeat constructor; eexists; by vm_compute. Qed.

Lemma demo_tidy : mem_tidy demo_world.
Proof.
  intros p t. unfold demo_world, demo_links. simpl. rewrite lookup_singleton_Some. intros [<- <-].
  split; [by eexists; vm_compute|by vm_compute].
Qed.
Lemma demo_unlinked q : q ≠ file_uri (lit "w/t") → mem_unlinked q demo_world.
Proof.
  intros Hq p. unfold demo_world, demo_links. simpl. rewrite lookup_singleton_Some.
  intros [_ E]. by apply Hq.
Qed.
Lemma demo_links_ok : links_ok (L:=mem_fs_laws) demo_cwd demo_hunks demo_world.
Proof.
  split; [exact demo_tidy|]. intros h q Hh Hq. apply demo_unlinked. intros ->.
  unfold demo_hunks in Hh. rewrite !elem_of_cons in Hh.
  destruct Hh as [->|[->|[->|[]%elem_of_nil]]]; revert Hq; by vm_compute.
Qed.

Definition demo_run := apply_hunks_to_files true demo_cwd demo_hunks (demo_world, empty_delta).
Definition demo_delta : AppliedPatchDelta Link := demo_run.2.2.

Lemma demo_run_eq :
  apply_hunks_to_files true demo_cwd demo_hunks (demo_world, empty_delta)
  = (demo_run.1, (demo_after, demo_delta)).
Proof. vm_compute. reflexivity. Qed.
Lemma demo_exact : exact demo_delta = true.
Proof. vm_compute. reflexivity. Qed.

Lemma exact_delta_witness :
  demo_result = redo_all (delta_changes demo_delta) demo_files
  ∧ undo_all (delta_changes demo_delta) demo_result = demo_files.
Proof.
  apply (exact_delta_replays_and_undoes (L:=mem_fs_laws) true demo_cwd demo_hunks demo_world
    demo_run.1 demo_after demo_delta demo_wf demo_links_ok demo_run_eq demo_exact).
Defined.

Lemma apply_hunks_refines_witness :
  patch_spec demo_cwd demo_hunks demo_files = Some demo_result.
Proof.
  apply (apply_hunks_refines_patch_spec (L:=mem_fs_laws) true demo_cwd demo_hunks demo_world
    {| added := [lit "d"]; modified := [lit "../w/c"]; deleted := [lit "b"] |}
    demo_after demo_delta demo_wf demo_links_ok); vm_compute; reflexivity.
Defined.

(** A patch text, through [apply_patch]. *)
Definition demo_text : str :=
  join [LF] [lit "*** Begin Patch"; lit "*** Delete File: b"; lit "*** End Patch"].
Definition demo_outcome := apply_patch demo_text demo_cwd ([] : list str) [] demo_world.
Lemma apply_patch_contract_witness :
  ∃ d, result demo_outcome = Ok d ∧ exact d = true
    ∧ files (world demo_outcome) = redo_all (delta_changes d) demo_files
    ∧ patch_spec demo_cwd [DeleteFile (lit "b")] demo_files = Some (files (world demo_outcome)).
Proof.
  pose proof (apply_patch_contract (L:=mem_fs_laws) demo_text demo_cwd ([] : list str) [] demo_world) as H.
  cbv zeta in H. fold demo_outcome in H.
  assert (parse_patch demo_text = Ok {| patch := demo_text; args_hunks := [DeleteFile (lit "b")];
    workdir := None; args_environment_id := None |}) as Ep by (vm_compute; reflexivity).
  rewrite Ep in H.
  assert (match result demo_outcome with Ok d => exact d | _ => false end = true) as Ed
    by (vm_compute; reflexivity).
  destruct (result demo_outcome) as [d|f|]; [|discriminate Ed|discriminate Ed].
  assert (links_ok (L:=mem_fs_laws) demo_cwd [DeleteFile (lit "b")] demo_world) as Hl.
  { split; [exact demo_tidy|]. intros h q Hh Hq. apply demo_unlinked. intros ->.
    apply list_elem_of_singleton in Hh as ->. revert Hq. by vm_compute. }
  destruct (H Hl) as [Ha Hs]. exists d. split; [reflexivity|]. split; [exact Ed|].
  split; [apply (Ha Ed)|exact (Hs Ed)].
Defined.

Lemma self_move_witness :
  (demo_run.1 ≠ Panic) ∧
  files (apply_hunks_to_files true demo_cwd
    [UpdateFile (lit "a") (Some (lit "a")) [demo_chunk]] (demo_world, empty_delta)).2.1
    !! file_uri (lit "w/a") = None.
Proof.
  split; [vm_compute; discriminate|].
  eapply (self_move_deletes_the_file (L:=mem_fs_laws) true demo_cwd (file_uri (lit "w/a")) (lit "a")
    (lit "a") [demo_chunk] demo_world);
    [repeat constructor; eexists; by vm_compute|exact demo_tidy|by apply demo_unlinked
    |vm_compute; reflexivity..].
Defined.

(** ** A dangling link

    [w/l] leads to [w/gone], which does not exist.  A patch that adds [w/l]
    writes [w/gone] and records, as an exact change, that it created [w/l]:
    replaying the delta does not give the files after the patch. *)
Definition dangling_world : mem := Mem ∅ {[ file_uri (lit "w/l") := file_uri (lit "w/gone") ]}.
Definition dangling_run :=
  apply_hunks_to_files true demo_cwd [AddFile (lit "l") (lit "new")] (dangling_world, empty_delta).

Theorem dangling_link_delta_is_wrong :
  exact dangling_run.2.2 = true
  ∧ files dangling_run.2.1 = {[ file_uri (lit "w/gone") := lit "new" ]}
  ∧ redo_all (delta_changes dangling_run.2.2) (files dangling_world)
    = {[ file_uri (lit "w/l") := lit "new" ]}.
Proof. repeat split; vm_compute; reflexivity. Qed.
