(* ===== verification/TurnDiff.v ===== *)
(** * core: the turn diff tracker

    [core/src/turn_diff_tracker.rs]: the net diff of a turn, from the exact
    deltas of [PatchApply], without reading the file system again.

    A [HashMap] is a [gmap]; its iteration order is the parameter [iter].  The
    diff of two texts, SHA-1 and the relative path of a [PathUri] are
    parameters too.  [next_revision] does not wrap. *)
From stdpp Require Import gmap.
From S2P Require Import Prelude Str PatchSyntax FileUpdate UrlModel PatchApply MemFs.

Definition ZERO_OID : str := lit "0000000000000000000000000000000000000000".
Definition DEV_NULL : str := lit "/dev/null".
Definition REGULAR_FILE_MODE : str := lit "100644".

Record TrackedContent := { content : str; revision : nat }.

(** A stable sort by a string key. *)
Section sort.
Context {A : Type} (key : A → str).
Fixpoint insert_by_key (x : A) (l : list A) : list A :=
  match l with
  | [] => [x]
  | y :: l' => if str_leb (key x) (key y) then x :: l else y :: insert_by_key x l'
  end.
Definition sort_by_key (l : list A) : list A := foldr insert_by_key [] l.

Lemma insert_by_key_perm x l : insert_by_key x l ≡ₚ x :: l.
Proof.
  induction l as [|y l IH]; simpl; [done|]. case_match; [done|].
  rewrite IH. by constructor.
Qed.
Lemma sort_by_key_perm l : sort_by_key l ≡ₚ l.
Proof. induction l as [|x l IH]; simpl; [done|]. by rewrite insert_by_key_perm, IH. Qed.
End sort.

Section tracker.
Context {P : Type} {EqP : EqDecision P} {CoP : Countable P} {PU : PathUri P}.
(** [PathUri::relative_path_from], SHA-1 in hexadecimal, and the unified diff
    of two texts under two headers. *)
Context (relative_path_from : P → P → option str) (sha1_hex : list N → str)
  (unified_diff_text : str → str → str → str → str).

Definition TrackedPath : Type := str * P.

(** The order in which a [HashMap] is iterated. *)
Context (iter : ∀ {A}, gmap TrackedPath A → list (TrackedPath * A)).

Record DiffCacheKey := {
  left_path : TrackedPath; left_revision : option nat;
  right_path : TrackedPath; right_revision : option nat }.

#[global] Instance DiffCacheKey_eq_dec : EqDecision DiffCacheKey.
Proof. solve_decision. Defined.
#[global] Instance DiffCacheKey_countable : Countable DiffCacheKey.
Proof.
  apply (inj_countable' (λ k, (left_path k, left_revision k, right_path k, right_revision k))
    (λ '(a, b, c, d), Build_DiffCacheKey a b c d)). by intros [].
Defined.

Record TurnDiffTracker := {
  valid : bool;
  display_roots_by_environment : gmap str P;
  baseline_by_path : gmap TrackedPath TrackedContent;
  current_by_path : gmap TrackedPath TrackedContent;
  origin_by_current_path : gmap TrackedPath TrackedPath;
  next_revision : nat;
  rendered_diffs : gmap DiffCacheKey (option str);
  unified_diff : option str;
}.

Definition with_environment_display_roots (roots : gmap str P) : TurnDiffTracker :=
  {| valid := true; display_roots_by_environment := roots; baseline_by_path := ∅;
     current_by_path := ∅; origin_by_current_path := ∅; next_revision := 0;
     rendered_diffs := ∅; unified_diff := None |}.

Definition invalidate (t : TurnDiffTracker) : TurnDiffTracker :=
  {| valid := false; display_roots_by_environment := display_roots_by_environment t;
     baseline_by_path := baseline_by_path t; current_by_path := current_by_path t;
     origin_by_current_path := origin_by_current_path t; next_revision := next_revision t;
     rendered_diffs := ∅; unified_diff := None |}.

(** The assignments of the methods below. *)
Definition set_maps (baseline current : gmap TrackedPath TrackedContent)
    (origin : gmap TrackedPath TrackedPath) (next : nat) (t : TurnDiffTracker) : TurnDiffTracker :=
  {| valid := valid t; display_roots_by_environment := display_roots_by_environment t;
     baseline_by_path := baseline; current_by_path := current;
     origin_by_current_path := origin; next_revision := next;
     rendered_diffs := rendered_diffs t; unified_diff := unified_diff t |}.
Definition set_diffs (rendered : gmap DiffCacheKey (option str)) (diff : option str)
    (t : TurnDiffTracker) : TurnDiffTracker :=
  {| valid := valid t; display_roots_by_environment := display_roots_by_environment t;
     baseline_by_path := baseline_by_path t; current_by_path := current_by_path t;
     origin_by_current_path := origin_by_current_path t; next_revision := next_revision t;
     rendered_diffs := rendered; unified_diff := diff |}.

(** [let c = self.tracked_content(s); self.baseline_by_path.insert(p, c)], and
    the same for [current_by_path]. *)
Definition insert_baseline (p : TrackedPath) (s : str) (t : TurnDiffTracker) : TurnDiffTracker :=
  set_maps (<[p := {| content := s; revision := next_revision t |}]> (baseline_by_path t))
    (current_by_path t) (origin_by_current_path t) (S (next_revision t)) t.
Definition insert_current (p : TrackedPath) (s : str) (t : TurnDiffTracker) : TurnDiffTracker :=
  set_maps (baseline_by_path t)
    (<[p := {| content := s; revision := next_revision t |}]> (current_by_path t))
    (origin_by_current_path t) (S (next_revision t)) t.
Definition remove_current (p : TrackedPath) (t : TurnDiffTracker) : TurnDiffTracker :=
  set_maps (baseline_by_path t) (delete p (current_by_path t)) (origin_by_current_path t)
    (next_revision t) t.
Definition set_origin (o : gmap TrackedPath TrackedPath) (t : TurnDiffTracker) : TurnDiffTracker :=
  set_maps (baseline_by_path t) (current_by_path t) o (next_revision t) t.

Definition untracked (p : TrackedPath) (t : TurnDiffTracker) : bool :=
  is_none (current_by_path t !! p) && is_none (baseline_by_path t !! p).

(** [if untracked && let Some(s) = o { insert into the baseline }]. *)
Definition note_baseline (p : TrackedPath) (o : option str) (t : TurnDiffTracker) : TurnDiffTracker :=
  match o with
  | Some s => if untracked p t then insert_baseline p s t else t
  | None => t
  end.

Definition track_add (p : TrackedPath) (s : str) (overwritten : option str)
    (t : TurnDiffTracker) : TurnDiffTracker :=
  let t := set_origin (delete p (origin_by_current_path t)) t in
  let t := note_baseline p overwritten t in
  insert_current p s t.

Definition track_delete (p : TrackedPath) (s : str) (t : TurnDiffTracker) : TurnDiffTracker :=
  let removed := current_by_path t !! p in
  let t := remove_current p t in
  let t := if is_none removed && is_none (baseline_by_path t !! p)
           then insert_baseline p s t else t in
  set_origin (delete p (origin_by_current_path t)) t.

Definition track_update (source : TrackedPath) (move_path : option TrackedPath)
    (old : str) (overwritten : option str) (new : str) (t : TurnDiffTracker) : TurnDiffTracker :=
  let t := note_baseline source (Some old) t in
  match move_path with
  | Some dest =>
      let t := note_baseline dest overwritten t in
      let origin := default source (origin_by_current_path t !! source) in
      let t := set_origin (delete source (origin_by_current_path t)) t in
      let t := remove_current source t in
      let t := insert_current dest new t in
      let t := set_origin (delete dest (origin_by_current_path t)) t in
      if decide (dest = origin) then t
      else set_origin (<[dest := origin]> (origin_by_current_path t)) t
  | None => insert_current source new t
  end.

(** [apply_change]. *)
Definition apply_change (environment_id : str) (t : TurnDiffTracker) (c : AppliedPatchChange P)
    : TurnDiffTracker :=
  let source := (environment_id, change_path c) in
  match change c with
  | Added s overwritten => track_add source s overwritten t
  | Deleted s => track_delete source s t
  | Updated move_path old overwritten new =>
      track_update source ((environment_id,.) <$> move_path) old overwritten new t
  end.

Definition display_path (t : TurnDiffTracker) (p : TrackedPath) : str :=
  let display :=
    default (inferred_native_path_string p.2)
      (root ← display_roots_by_environment t !! p.1; relative_path_from p.2 root) in
  if bool_decide (1 < size (display_roots_by_environment t)) && negb (is_empty p.1)
  then p.1 ++ lit "/" ++ display else display.

Definition git_blob_oid (s : str) : str :=
  sha1_hex (as_bytes (lit "blob " ++ show_nat (length (as_bytes s)) ++ [0%N]) ++ as_bytes s).

Definition render_diff (t : TurnDiffTracker) (lpath : TrackedPath) (left_content : option str)
    (rpath : TrackedPath) (right_content : option str) : option str :=
  if decide (left_content = right_content) then None
  else
    let left_display := replace_char 92 47 (display_path t lpath) in
    let right_display := replace_char 92 47 (display_path t rpath) in
    let oid o := from_option git_blob_oid ZERO_OID o in
    let diff := lit "diff --git a/" ++ left_display ++ lit " b/" ++ right_display ++ [LF] in
    mode ← match left_content, right_content with
           | None, Some _ => Some (lit "new file mode " ++ REGULAR_FILE_MODE ++ [LF])
           | Some _, None => Some (lit "deleted file mode " ++ REGULAR_FILE_MODE ++ [LF])
           | Some _, Some _ => Some []
           | None, None => None
           end;
    let index_line := lit "index " ++ oid left_content ++ lit ".." ++ oid right_content ++ [LF] in
    let old_header := if is_some left_content then lit "a/" ++ left_display else DEV_NULL in
    let new_header := if is_some right_content then lit "b/" ++ right_display else DEV_NULL in
    Some (diff ++ mode ++ index_line ++ unified_diff_text (default [] left_content)
            (default [] right_content) old_header new_header).

(** [rename_pairs]: the map collected from the iterator, the last pair of a
    key winning. *)
Definition is_rename_pair (t : TurnDiffTracker) (dest origin : TrackedPath) : bool :=
  negb (bool_decide (dest = origin)
        || is_some (current_by_path t !! origin)
        || is_none (current_by_path t !! dest)
        || is_none (baseline_by_path t !! origin)
        || is_some (baseline_by_path t !! dest)).
Definition rename_pairs (t : TurnDiffTracker) : gmap TrackedPath TrackedPath :=
  foldl (λ m '(dest, origin),
    if is_rename_pair t dest origin then <[origin := dest]> m else m)
    ∅ (iter _ (origin_by_current_path t)).

(** The loop of [refresh_unified_diff]. *)
Record refresh_state := {
  handled : gset TrackedPath;
  previous : gmap DiffCacheKey (option str);
  rendered : gmap DiffCacheKey (option str);
  aggregated : str;
}.

Definition append_diff (agg : str) (o : option str) : str :=
  match o with
  | Some diff =>
      let agg := agg ++ diff in
      if ends_with agg [LF] then agg else agg ++ [LF]
  | None => agg
  end.

Definition refresh_step (t : TurnDiffTracker) (pairs : gmap TrackedPath TrackedPath)
    (paired : gset TrackedPath) (st : refresh_state) (path : TrackedPath) : refresh_state :=
  if decide (path ∈ handled st) then st
  else
    let handled := {[ path ]} ∪ handled st in
    if decide (path ∈ paired) then
      {| handled := handled; previous := previous st; rendered := rendered st;
         aggregated := aggregated st |}
    else
      let '(handled, rpath) := match pairs !! path with
        | Some dest => ({[ dest ]} ∪ handled, dest)
        | None => (handled, path)
        end in
      let left_content := baseline_by_path t !! path in
      let right_content := current_by_path t !! rpath in
      let key := {| left_path := path; left_revision := revision <$> left_content;
                    right_path := rpath; right_revision := revision <$> right_content |} in
      let diff := default (render_diff t path (content <$> left_content)
                             rpath (content <$> right_content)) (previous st !! key) in
      {| handled := handled; previous := delete key (previous st);
         rendered := <[key := diff]> (rendered st);
         aggregated := append_diff (aggregated st) diff |}.

Definition refresh_paths (t : TurnDiffTracker) : list TrackedPath :=
  dedup (sort_by_key (display_path t)
    ((iter _ (baseline_by_path t)).*1 ++ (iter _ (current_by_path t)).*1)).

Definition refresh_unified_diff (t : TurnDiffTracker) : TurnDiffTracker :=
  let pairs := rename_pairs t in
  let paired := list_to_set (iter _ pairs).*2 in
  let st := foldl (refresh_step t pairs paired)
    {| handled := ∅; previous := rendered_diffs t; rendered := ∅; aggregated := [] |}
    (refresh_paths t) in
  set_diffs (rendered st) (if is_empty (aggregated st) then None else Some (aggregated st)) t.

Definition track_delta (environment_id : str) (d : AppliedPatchDelta P) (t : TurnDiffTracker)
    : TurnDiffTracker :=
  if negb (valid t) then t
  else if negb (exact d) then invalidate t
  else refresh_unified_diff (foldl (apply_change environment_id) t (delta_changes d)).
End tracker.

(** ** The tracker knows the files *)
Section tracking.
Context {P : Type} {EqP : EqDecision P} {CoP : Countable P} {PU : PathUri P}.
Implicit Types (t : @TurnDiffTracker P EqP CoP) (p q : @TrackedPath P) (m : gmap (@TrackedPath P) str).

(** The contents the tracker holds for a path. *)
Definition base t p : option str := content <$> baseline_by_path t !! p.
Definition cur t p : option str := content <$> current_by_path t !! p.

Lemma untracked_spec p t : untracked p t = true ↔ base t p = None ∧ cur t p = None.
Proof.
  unfold untracked, base, cur. rewrite andb_true_iff.
  destruct (current_by_path t !! p), (baseline_by_path t !! p); simpl; naive_solver.
Qed.

Lemma base_insert_baseline p s t q :
  base (insert_baseline p s t) q = if decide (p = q) then Some s else base t q.
Proof.
  unfold base; simpl. case_decide as H; [subst; by rewrite lookup_insert_eq|].
  by rewrite lookup_insert_ne.
Qed.
Lemma cur_insert_current p s t q :
  cur (insert_current p s t) q = if decide (p = q) then Some s else cur t q.
Proof.
  unfold cur; simpl. case_decide as H; [subst; by rewrite lookup_insert_eq|].
  by rewrite lookup_insert_ne.
Qed.
Lemma cur_remove_current p t q :
  cur (remove_current p t) q = if decide (p = q) then None else cur t q.
Proof.
  unfold cur; simpl. case_decide as H; [subst; by rewrite lookup_delete_eq|].
  by rewrite lookup_delete_ne.
Qed.

Lemma base_note p o t q :
  base (note_baseline p o t) q
  = if decide (p = q ∧ base t p = None ∧ cur t p = None) then o else base t q.
Proof.
  unfold note_baseline. destruct (untracked p t) eqn:E.
  - pose proof (proj1 (untracked_spec p t) E) as [Hb Hc]. destruct o as [s|].
    + rewrite base_insert_baseline. repeat case_decide; naive_solver.
    + case_decide as H; [|done]. destruct H as [-> _]. done.
  - rewrite decide_False; [by destruct o|].
    intros [_ H%untracked_spec]. congruence.
Qed.
Lemma cur_note p o t q : cur (note_baseline p o t) q = cur t q.
Proof. unfold note_baseline. destruct o; [case_match|]; done. Qed.

Lemma base_track_delete p s t q :
  base (track_delete p s t) q
  = if decide (p = q ∧ base t p = None ∧ cur t p = None) then Some s else base t q.
Proof.
  change (base (track_delete p s t) q) with (base (if is_none (current_by_path t !! p)
    && is_none (baseline_by_path t !! p) then insert_baseline p s (remove_current p t)
    else remove_current p t) q).
  pose proof (untracked_spec p t) as Hu. unfold untracked in Hu.
  destruct (is_none (current_by_path t !! p) && is_none (baseline_by_path t !! p)).
  - rewrite base_insert_baseline. repeat case_decide; naive_solver.
  - rewrite decide_False; naive_solver.
Qed.
Lemma cur_track_delete p s t q :
  cur (track_delete p s t) q = if decide (p = q) then None else cur t q.
Proof.
  rewrite <-cur_remove_current. unfold track_delete. by case_match.
Qed.

(** The files [m0] at the start of the turn and [m] now, as the tracker sees
    them: a path is either unknown and unchanged, or known on both sides. *)
Definition tracks m0 m t : Prop := ∀ p,
  (base t p = None ∧ cur t p = None ∧ m !! p = m0 !! p) ∨
  (base t p = m0 !! p ∧ cur t p = m !! p).

(** A change of one environment, on the paths of all of them. *)
Definition in_environment (env : str) (c : AppliedPatchChange P)
    : AppliedPatchChange (@TrackedPath P) :=
  {| change_path := (env, change_path c);
     change := match change c with
               | Added s o => Added s o
               | Deleted s => Deleted s
               | Updated mv old o new => Updated ((env,.) <$> mv) old o new
               end |}.

Definition not_self_move (c : AppliedPatchChange P) : Prop :=
  match change c with
  | Updated (Some dest) _ _ _ => dest ≠ change_path c
  | _ => True
  end.

#[global] Instance not_self_move_dec c : Decision (not_self_move c).
Proof. unfold not_self_move. repeat case_match; apply _. Defined.

(** Case analysis on the paths, then propositional and equational reasoning. *)
#[local] Ltac settle :=
  rewrite ?lookup_insert, ?lookup_delete, ?lookup_insert;
  repeat case_decide; destruct_and?; subst; intuition congruence.

Lemma base_set_origin o t q : base (set_origin o t) q = base t q.
Proof. done. Qed.
Lemma cur_set_origin o t q : cur (set_origin o t) q = cur t q.
Proof. done. Qed.
Lemma base_insert_current p s t q : base (insert_current p s t) q = base t q.
Proof. done. Qed.
Lemma base_remove_current p t q : base (remove_current p t) q = base t q.
Proof. done. Qed.

Create Rewrite HintDb tracked.
#[local] Hint Rewrite base_set_origin cur_set_origin base_insert_current base_remove_current
  cur_insert_current cur_remove_current base_note cur_note : tracked.

Lemma track_add_tracks m0 m t p s o :
  m !! p = o → tracks m0 m t → tracks m0 (<[p := s]> m) (track_add p s o t).
Proof.
  intros Hm Ht q. pose proof (Ht q) as Hq. pose proof (Ht p) as Hp.
  unfold track_add. autorewrite with tracked. settle.
Qed.

Lemma track_delete_tracks m0 m t p s :
  m !! p = Some s → tracks m0 m t → tracks m0 (delete p m) (track_delete p s t).
Proof.
  intros Hm Ht q. pose proof (Ht q) as Hq. pose proof (Ht p) as Hp.
  rewrite base_track_delete, cur_track_delete. settle.
Qed.

Lemma track_in_place_tracks m0 m t p old o new :
  m !! p = Some old → tracks m0 m t →
  tracks m0 (<[p := new]> m) (track_update p None old o new t).
Proof.
  intros Hm Ht q. pose proof (Ht q) as Hq. pose proof (Ht p) as Hp.
  unfold track_update. autorewrite with tracked. settle.
Qed.

Lemma track_move_tracks m0 m t p d old o new :
  m !! p = Some old → m !! d = o → d ≠ p → tracks m0 m t →
  tracks m0 (delete p (<[d := new]> m)) (track_update p (Some d) old o new t).
Proof.
  intros Hm Hd Hne Ht q. pose proof (Ht q) as Hq. pose proof (Ht p) as Hp.
  pose proof (Ht d) as Hdt. unfold track_update.
  match goal with |- context [if decide (d = ?x) then ?a else ?b] =>
    assert (base (if decide (d = x) then a else b) q = base a q ∧
            cur (if decide (d = x) then a else b) q = cur a q) as [-> ->] by (by case_decide) end.
  autorewrite with tracked. settle.
Qed.

Lemma apply_change_tracks m0 m t env c :
  records m (in_environment env c) → not_self_move c → tracks m0 m t →
  tracks m0 (redo m (in_environment env c)) (apply_change env t c).
Proof.
  destruct c as [p [s o|s|[dest|] old o new]]; unfold records, redo, not_self_move,
    in_environment, apply_change; cbn [change change_path fmap option_fmap option_map].
  - intros Hr _. by apply track_add_tracks.
  - intros Hr _. by apply track_delete_tracks.
  - intros [Hp Hd] Hne. apply track_move_tracks; [done..|congruence].
  - intros Hr _. by apply track_in_place_tracks.
Qed.

Lemma apply_changes_tracks m0 m t env cs :
  records_all m (in_environment env <$> cs) → Forall not_self_move cs → tracks m0 m t →
  tracks m0 (redo_all (in_environment env <$> cs) m) (foldl (apply_change env) t cs).
Proof.
  intros Hr Hs. revert m t Hr. induction Hs as [|c cs Hc _ IH]; intros m t Hr Ht; [done|].
  rewrite fmap_cons in Hr. destruct Hr as [Hr Hrs]. simpl. apply IH; [done|].
  by apply apply_change_tracks.
Qed.
End tracking.

(** ** The cache of rendered diffs *)
Section cache.
Context {P : Type} {EqP : EqDecision P} {CoP : Countable P} {PU : PathUri P}.
Context (relative_path_from : P → P → option str) (sha1_hex : list N → str)
  (unified_diff_text : str → str → str → str → str).
Context (iter : ∀ A, gmap (@TrackedPath P) A → list (@TrackedPath P * A)).
Implicit Types (t : @TurnDiffTracker P EqP CoP) (p q : @TrackedPath P)
  (pairs : gmap (@TrackedPath P) (@TrackedPath P)) (st : @refresh_state P EqP CoP).

#[local] Abbreviation render := (render_diff relative_path_from sha1_hex unified_diff_text).
#[local] Abbreviation refresh :=
  (refresh_unified_diff relative_path_from sha1_hex unified_diff_text iter).
#[local] Abbreviation step := (refresh_step relative_path_from sha1_hex unified_diff_text).

(** A revision below [n] always had the content [log] gives it. *)
Definition contents_ok (log : nat → str) (n : nat) (m : gmap (@TrackedPath P) TrackedContent) : Prop :=
  map_Forall (λ _ c, content c = log (revision c) ∧ revision c < n) m.

Definition entry_ok (log : nat → str) (n : nat) t (k : DiffCacheKey) (r : option str) : Prop :=
  r = render t (left_path k) (log <$> left_revision k) (right_path k) (log <$> right_revision k)
  ∧ (∀ i, left_revision k = Some i → i < n) ∧ (∀ i, right_revision k = Some i → i < n).

Definition coherent_with (log : nat → str) t : Prop :=
  contents_ok log (next_revision t) (baseline_by_path t)
  ∧ contents_ok log (next_revision t) (current_by_path t)
  ∧ map_Forall (entry_ok log (next_revision t) t) (rendered_diffs t).
Definition coherent t : Prop := ∃ log, coherent_with log t.

(** The log that gives the next revision the content [s]. *)
Definition log_next (log : nat → str) (n : nat) (s : str) (i : nat) : str :=
  if decide (i = n) then s else log i.

Lemma contents_ok_next log n s m : contents_ok log n m → contents_ok (log_next log n s) (S n) m.
Proof.
  intros H p c Hc. destruct (H p c Hc) as [-> Hlt]. unfold log_next.
  split; [rewrite decide_False by lia; done|lia].
Qed.

Lemma contents_ok_insert log n s m p :
  contents_ok log n m →
  contents_ok (log_next log n s) (S n) (<[p := {| content := s; revision := n |}]> m).
Proof.
  intros H. apply map_Forall_insert_2; [|by apply contents_ok_next].
  simpl. unfold log_next. rewrite decide_True by done. split; [done|lia].
Qed.

Lemma entry_ok_next log n s t k r : entry_ok log n t k r → entry_ok (log_next log n s) (S n) t k r.
Proof.
  intros (-> & Hl & Hr). unfold entry_ok.
  assert (∀ o, (∀ i, o = Some i → i < n) → log_next log n s <$> o = log <$> o) as Heq.
  { intros [i|] Ho; [|done]. simpl. unfold log_next.
    specialize (Ho i eq_refl). rewrite decide_False by lia. done. }
  rewrite !Heq by done. split; [done|]. split; intros i Hi; [apply Hl in Hi|apply Hr in Hi]; lia.
Qed.

Lemma insert_baseline_coherent p s t : coherent t → coherent (insert_baseline p s t).
Proof.
  intros (log & Hb & Hc & Hr). exists (log_next log (next_revision t) s).
  split; [by apply contents_ok_insert|]. split; [by apply contents_ok_next|].
  eapply map_Forall_impl; [exact Hr|]. intros. by apply entry_ok_next.
Qed.
Lemma insert_current_coherent p s t : coherent t → coherent (insert_current p s t).
Proof.
  intros (log & Hb & Hc & Hr). exists (log_next log (next_revision t) s).
  split; [by apply contents_ok_next|]. split; [by apply contents_ok_insert|].
  eapply map_Forall_impl; [exact Hr|]. intros. by apply entry_ok_next.
Qed.
Lemma remove_current_coherent p t : coherent t → coherent (remove_current p t).
Proof. intros (log & Hb & Hc & Hr). exists log. split; [done|]. split; [|done]. by apply map_Forall_delete. Qed.
Lemma set_origin_coherent o t : coherent t → coherent (set_origin o t).
Proof. done. Qed.
Lemma note_baseline_coherent p o t : coherent t → coherent (note_baseline p o t).
Proof.
  intros. unfold note_baseline. repeat case_match; [|done..]. by apply insert_baseline_coherent.
Qed.

#[local] Hint Resolve insert_baseline_coherent insert_current_coherent remove_current_coherent
  set_origin_coherent note_baseline_coherent : cubineer.

Lemma apply_change_coherent env t c : coherent t → coherent (apply_change env t c).
Proof.
  intros H. unfold apply_change, track_add, track_delete, track_update.
  repeat case_match; auto 10 with cubineer.
Qed.

Lemma apply_changes_coherent env t cs : coherent t → coherent (foldl (apply_change env) t cs).
Proof. revert t. induction cs; intros t Ht; simpl; auto using apply_change_coherent. Qed.

(** Two states of the loop that differ in the cache they still have. *)
Definition same_loop log t (st st' : @refresh_state P EqP CoP) : Prop :=
  handled st = handled st' ∧ rendered st = rendered st' ∧ aggregated st = aggregated st'
  ∧ map_Forall (entry_ok log (next_revision t) t) (previous st)
  ∧ map_Forall (entry_ok log (next_revision t) t) (previous st')
  ∧ map_Forall (entry_ok log (next_revision t) t) (rendered st).

Lemma content_log log t m p :
  contents_ok log (next_revision t) m →
  log <$> (revision <$> m !! p) = content <$> m !! p
  ∧ ∀ i, revision <$> m !! p = Some i → i < next_revision t.
Proof.
  intros H. destruct (m !! p) as [c|] eqn:E; simpl; [|done].
  destruct (H p c E) as [-> ?]. split; [done|]. by intros i [= <-].
Qed.

Lemma step_same_loop log t pairs paired st st' p :
  coherent_with log t → same_loop log t st st' →
  same_loop log t (step t pairs paired st p) (step t pairs paired st' p).
Proof.
  intros (Hb & Hc & _) (Hh & Hr & Ha & Hp & Hp' & Hre). unfold refresh_step.
  rewrite <-Hh, <-Hr, <-Ha. repeat case_decide; [done..|].
  destruct (match pairs !! p with Some _ => _ | None => _ end) as [hs rp].
  set (k := {| left_path := p; left_revision := _; right_path := rp; right_revision := _ |}).
  assert (∀ r, entry_ok log (next_revision t) t k r ↔
    r = render t p (content <$> baseline_by_path t !! p) rp (content <$> current_by_path t !! rp)) as Hk.
  { intros r. unfold entry_ok. simpl.
    destruct (content_log log t _ p Hb) as [-> ?], (content_log log t _ rp Hc) as [-> ?]. tauto. }
  assert (∀ prev : gmap DiffCacheKey (option str), map_Forall (entry_ok log (next_revision t) t) prev →
    default (render t p (content <$> baseline_by_path t !! p) rp (content <$> current_by_path t !! rp))
      (prev !! k)
    = render t p (content <$> baseline_by_path t !! p) rp (content <$> current_by_path t !! rp)) as Hd.
  { intros prev Hprev. destruct (prev !! k) as [r|] eqn:E; [|done]. simpl. by apply Hk, Hprev. }
  rewrite !Hd by done. do 3 (split; [done|]). unfold previous, rendered.
  split; [by apply map_Forall_delete|]. split; [by apply map_Forall_delete|].
  apply map_Forall_insert_2; [by apply Hk|done].
Qed.

Lemma fold_same_loop log t pairs paired ps st st' :
  coherent_with log t → same_loop log t st st' →
  same_loop log t (foldl (step t pairs paired) st ps) (foldl (step t pairs paired) st' ps).
Proof.
  intros Hco. revert st st'. induction ps as [|p ps IH]; intros st st' H; [done|].
  simpl. by apply IH, step_same_loop.
Qed.

Lemma refresh_cache log t :
  coherent_with log t →
  unified_diff (refresh t) = unified_diff (refresh (set_diffs ∅ (unified_diff t) t))
  ∧ map_Forall (entry_ok log (next_revision t) t) (rendered_diffs (refresh t)).
Proof.
  intros Hco. pose proof (fold_same_loop log t (rename_pairs iter t)
    (list_to_set (iter _ (rename_pairs iter t)).*2)
    (refresh_paths relative_path_from iter t)
    {| handled := ∅; previous := rendered_diffs t; rendered := ∅; aggregated := [] |}
    {| handled := ∅; previous := ∅; rendered := ∅; aggregated := [] |} Hco) as H.
  destruct H as (_ & Hr & Ha & _ & _ & Hre).
  { destruct Hco as (_ & _ & Hd). do 3 (split; [done|]). split; [done|]. split; apply map_Forall_empty. }
  unfold refresh_unified_diff. simpl. split; [|done]. by rewrite Ha.
Qed.

Lemma refresh_coherent t : coherent t → coherent (refresh t).
Proof.
  intros [log Hco]. exists log. destruct (refresh_cache log t Hco) as [_ H].
  destruct Hco as (? & ? & _). by split; [|split].
Qed.

Lemma track_delta_coherent env d t :
  coherent t → coherent (track_delta relative_path_from sha1_hex unified_diff_text iter env d t).
Proof.
  intros H. unfold track_delta. destruct (valid t), (exact d); simpl; try done.
  - by apply refresh_coherent, apply_changes_coherent.
  - destruct H as (log & ? & ? & _). exists log. split; [done|]. split; [done|]. apply map_Forall_empty.
Qed.
End cache.

(** ** What a refreshed diff shows *)
Section shows.
Context {P : Type} {EqP : EqDecision P} {CoP : Countable P} {PU : PathUri P}.
Context (relative_path_from : P → P → option str) (sha1_hex : list N → str)
  (unified_diff_text : str → str → str → str → str).
Context (iter : ∀ A, gmap (@TrackedPath P) A → list (@TrackedPath P * A)).
Hypothesis iter_perm : ∀ A (m : gmap (@TrackedPath P) A), iter A m ≡ₚ map_to_list m.
Implicit Types (t : @TurnDiffTracker P EqP CoP) (p q : @TrackedPath P)
  (pairs : gmap (@TrackedPath P) (@TrackedPath P)) (st : @refresh_state P EqP CoP).

#[local] Abbreviation render := (render_diff relative_path_from sha1_hex unified_diff_text).
#[local] Abbreviation refresh :=
  (refresh_unified_diff relative_path_from sha1_hex unified_diff_text iter).
#[local] Abbreviation step := (refresh_step relative_path_from sha1_hex unified_diff_text).

Lemma elem_of_iter {A} (m : gmap (@TrackedPath P) A) p a : (p, a) ∈ iter A m ↔ m !! p = Some a.
Proof. rewrite iter_perm. apply elem_of_map_to_list. Qed.

Lemma elem_of_iter_keys {A} (m : gmap (@TrackedPath P) A) p : p ∈ (iter A m).*1 ↔ is_Some (m !! p).
Proof.
  rewrite list_elem_of_fmap. split.
  - intros ([q a] & -> & H%elem_of_iter). by exists a.
  - intros [a H%elem_of_iter]. by exists (p, a).
Qed.

Lemma elem_of_refresh_paths t p :
  p ∈ refresh_paths relative_path_from iter t ↔ is_Some (base t p) ∨ is_Some (cur t p).
Proof.
  unfold refresh_paths, base, cur.
  rewrite elem_of_dedup, sort_by_key_perm, elem_of_app, !elem_of_iter_keys, !fmap_is_Some. done.
Qed.

(** A rename pair: the origin is gone and the destination is new. *)
Lemma rename_pairs_spec t origin dest :
  rename_pairs iter t !! origin = Some dest →
  is_Some (base t origin) ∧ cur t origin = None ∧ base t dest = None ∧ is_Some (cur t dest).
Proof.
  unfold rename_pairs.
  assert (∀ l (m : gmap (@TrackedPath P) (@TrackedPath P)),
    (∀ o d, m !! o = Some d → is_rename_pair t d o = true) →
    ∀ o d, foldl (λ m '(dest, origin), if is_rename_pair t dest origin
      then <[origin := dest]> m else m) m l !! o = Some d → is_rename_pair t d o = true) as H.
  { induction l as [|[d0 o0] l IH]; intros m Hm o d; simpl; [apply Hm|]. apply IH.
    intros o' d'. destruct (is_rename_pair t d0 o0) eqn:E; [|apply Hm].
    rewrite lookup_insert. case_decide; [by intros [= <-]; subst|apply Hm]. }
  intros E. apply H in E; [|done]. unfold is_rename_pair in E. unfold base, cur.
  rewrite negb_true_iff, !orb_false_iff in E.
  destruct (baseline_by_path t !! origin), (current_by_path t !! origin),
    (baseline_by_path t !! dest), (current_by_path t !! dest); naive_solver.
Qed.

Definition pair_of (pairs : gmap (@TrackedPath P) (@TrackedPath P)) p : @TrackedPath P :=
  default p (pairs !! p).

(** The key under which the loop renders [p]. *)
Definition key_of t pairs p : DiffCacheKey :=
  {| left_path := p; left_revision := revision <$> baseline_by_path t !! p;
     right_path := pair_of pairs p;
     right_revision := revision <$> current_by_path t !! pair_of pairs p |}.

Lemma step_shows t pairs (paired : gset (@TrackedPath P)) st p :
  (∀ o d, pairs !! o = Some d → d ∈ paired) →
  (∀ q, q ∈ handled st → q ∈ paired ∨ is_Some (rendered st !! key_of t pairs q)) →
  let st' := step t pairs paired st p in
  (∀ q, q ∈ handled st' → q ∈ paired ∨ is_Some (rendered st' !! key_of t pairs q))
  ∧ p ∈ handled st' ∧ handled st ⊆ handled st'.
Proof.
  intros Hpairs Hinv. unfold refresh_step. case_decide as Hh; [by auto|].
  case_decide as Hp; simpl.
  { split; [|set_solver]. intros q [->%elem_of_singleton|Hq]%elem_of_union; auto. }
  unfold key_of, pair_of in *. destruct (pairs !! p) as [d|] eqn:E; simpl.
  - split; [|set_solver]. intros q Hq. rewrite lookup_insert. case_decide as Hk; [by eauto|].
    apply elem_of_union in Hq as [->%elem_of_singleton|Hq]; [left; by eapply Hpairs|].
    apply elem_of_union in Hq as [->%elem_of_singleton|Hq]; [|by auto].
    rewrite E in Hk. by simpl in Hk.
  - split; [|set_solver]. intros q Hq. rewrite lookup_insert. case_decide as Hk; [by eauto|].
    apply elem_of_union in Hq as [->%elem_of_singleton|Hq]; [|by auto].
    rewrite E in Hk. by simpl in Hk.
Qed.

Lemma fold_shows t pairs (paired : gset (@TrackedPath P)) ps st :
  (∀ o d, pairs !! o = Some d → d ∈ paired) →
  (∀ q, q ∈ handled st → q ∈ paired ∨ is_Some (rendered st !! key_of t pairs q)) →
  let st' := foldl (step t pairs paired) st ps in
  (∀ q, q ∈ handled st ∨ q ∈ ps → q ∈ paired ∨ is_Some (rendered st' !! key_of t pairs q)).
Proof.
  intros Hpairs. revert st. induction ps as [|p ps IH]; intros st Hinv; simpl.
  { intros q [Hq|Hq%elem_of_nil]; [by apply Hinv|done]. }
  destruct (step_shows t pairs paired st p Hpairs Hinv) as (Hinv' & Hp & Hsub).
  intros q Hq. apply (IH _ Hinv' q). set_solver.
Qed.

Lemma elem_of_paired pairs (p : @TrackedPath P) :
  p ∈ (list_to_set (iter _ pairs).*2 : gset (@TrackedPath P)) ↔ ∃ o, pairs !! o = Some p.
Proof.
  rewrite elem_of_list_to_set, list_elem_of_fmap. split.
  - intros ([o d] & -> & H%elem_of_iter). by exists o.
  - intros [o H%elem_of_iter]. by exists (o, p).
Qed.

(** Every known path is rendered: itself, or as the destination of its origin. *)
Lemma refresh_renders t p :
  is_Some (base t p) ∨ is_Some (cur t p) →
  let pairs := rename_pairs iter t in
  ∃ q, (q = p ∨ pairs !! q = Some p) ∧ is_Some (rendered_diffs (refresh t) !! key_of t pairs q).
Proof.
  intros Hp pairs. unfold refresh_unified_diff. fold pairs. simpl.
  pose proof (fold_shows t pairs (list_to_set (iter _ pairs).*2)
    (refresh_paths relative_path_from iter t)
    {| handled := ∅; previous := rendered_diffs t; rendered := ∅; aggregated := [] |}) as H.
  assert (∀ q, is_Some (base t q) ∨ is_Some (cur t q) →
    (∃ o, pairs !! o = Some q) ∨ is_Some (rendered (foldl (step t pairs (list_to_set (iter _ pairs).*2))
      {| handled := ∅; previous := rendered_diffs t; rendered := ∅; aggregated := [] |}
      (refresh_paths relative_path_from iter t)) !! key_of t pairs q)) as Hall.
  { intros q Hq. rewrite <-elem_of_paired. apply H.
    - intros o d Ho. apply elem_of_paired. by exists o.
    - simpl. set_solver.
    - right. by apply elem_of_refresh_paths. }
  destruct (Hall p Hp) as [[o Ho]|Hr]; [|by eauto].
  exists o. split; [by right|]. pose proof (rename_pairs_spec t o p Ho) as (Hbo & Hco & _ & _).
  destruct (Hall o (or_introl Hbo)) as [[o' Ho']|]; [|done].
  apply rename_pairs_spec in Ho' as (_ & _ & Hb' & _). rewrite Hb' in Hbo. by destruct Hbo.
Qed.

(** When both sides agree everywhere there is nothing to show. *)
Lemma refresh_nothing t :
  coherent relative_path_from sha1_hex unified_diff_text t →
  (∀ p, base t p = cur t p) → unified_diff (refresh t) = None.
Proof.
  intros [log Hco] Heq. rewrite (proj1 (refresh_cache _ _ _ iter log t Hco)).
  unfold refresh_unified_diff. simpl.
  change (rename_pairs iter (set_diffs ∅ (unified_diff t) t)) with (rename_pairs iter t).
  change (refresh_paths relative_path_from iter (set_diffs ∅ (unified_diff t) t))
    with (refresh_paths relative_path_from iter t).
  assert (rename_pairs iter t = ∅) as Hnone.
  { apply map_empty. intros o. apply eq_None_not_Some. intros [d Hd].
    apply rename_pairs_spec in Hd as (Hb & Hc & _). rewrite Heq, Hc in Hb. by destruct Hb. }
  rewrite Hnone. generalize (list_to_set (C:=gset (@TrackedPath P)) (iter _ (∅ : gmap (@TrackedPath P) (@TrackedPath P))).*2) as paired.
  intros paired. set (st := {| handled := ∅; previous := ∅; rendered := ∅; aggregated := [] |}).
  assert (previous st = ∅ ∧ aggregated st = []) as [Hpr Hag] by done. clearbody st.
  revert st Hpr Hag. induction (refresh_paths relative_path_from iter t) as [|p ps IH];
    intros st Hpr Hag; [simpl; by rewrite Hag|]. simpl. apply IH.
  - unfold refresh_step. repeat case_decide; [done..|]. rewrite lookup_empty. simpl.
    rewrite Hpr. apply delete_empty.
  - unfold refresh_step. repeat case_decide; [done..|]. rewrite lookup_empty. simpl.
    rewrite Hpr, lookup_empty. simpl. unfold render_diff.
    change (content <$> baseline_by_path _ !! p) with (base t p).
    change (content <$> current_by_path _ !! p) with (cur t p).
    rewrite decide_True by apply Heq. done.
Qed.
End shows.

(** Tracking a change does not look at the rendered diffs. *)
Section set_diffs.
Context {P : Type} {EqP : EqDecision P} {CoP : Countable P}.
Implicit Types t : @TurnDiffTracker P EqP CoP.

Lemma note_baseline_set_diffs p o r u t :
  note_baseline p o (set_diffs r u t) = set_diffs r u (note_baseline p o t).
Proof.
  destruct o; simpl; [|done]. change (untracked p (set_diffs r u t)) with (untracked p t).
  by destruct (untracked p t).
Qed.

Lemma track_update_set_diffs p mv old o new r u t :
  track_update p mv old o new (set_diffs r u t) = set_diffs r u (track_update p mv old o new t).
Proof.
  unfold track_update. rewrite note_baseline_set_diffs. destruct mv as [d|]; [|done].
  rewrite note_baseline_set_diffs. simpl. by case_decide.
Qed.

Lemma apply_changes_set_diffs env cs r u t :
  foldl (apply_change env) (set_diffs r u t) cs = set_diffs r u (foldl (apply_change env) t cs).
Proof.
  revert t. induction cs as [|c cs IH]; intros t; [done|]. simpl. rewrite <-IH. f_equal.
  unfold apply_change. destruct (change c) as [s o|s|mv old o new].
  - unfold track_add. change (set_origin ?x (set_diffs r u t)) with (set_diffs r u (set_origin x t)).
    by rewrite note_baseline_set_diffs.
  - unfold track_delete. simpl. by case_match.
  - apply track_update_set_diffs.
Qed.
End set_diffs.

(** ** From the file system of [PatchApply] to the paths of the tracker *)
Section environment.
Context {P : Type} {EqP : EqDecision P} {CoP : Countable P}.

(** The files of one environment. *)
Definition files_in (env : str) (m : gmap P str) : gmap (@TrackedPath P) str :=
  kmap (pair env) m.

Lemma records_in env (m : gmap P str) c :
  records m c → records (files_in env m) (in_environment env c).
Proof.
  unfold records, files_in. destruct c as [p [s o|s|[dest|] old o new]]; simpl;
    rewrite !lookup_kmap by (apply _); done.
Qed.

Lemma redo_in env (m : gmap P str) c :
  redo (files_in env m) (in_environment env c) = files_in env (redo m c).
Proof.
  unfold redo, files_in. destruct c as [p [s o|s|[dest|] old o new]]; simpl;
    rewrite ?kmap_delete, ?kmap_insert by (apply _); done.
Qed.

Lemma records_all_in env cs (m : gmap P str) :
  records_all m cs → records_all (files_in env m) (in_environment env <$> cs)
    ∧ redo_all (in_environment env <$> cs) (files_in env m) = files_in env (redo_all cs m).
Proof.
  revert m. induction cs as [|c cs IH]; intros m; [done|]. intros [Hc Hcs].
  rewrite fmap_cons. simpl. rewrite redo_in. destruct (IH _ Hcs). split; [|done].
  split; [by apply records_in|done].
Qed.
End environment.

(** ** The properties *)
Section turn.
Context {W P : Type} {FS : FileSystem W P} {PU : PathUri P}
  {EqP : EqDecision P} {CoP : Countable P} {L : FileSystemLaws FS}.
Context (relative_path_from : P → P → option str) (sha1_hex : list N → str)
  (unified_diff_text : str → str → str → str → str)
  (iter : ∀ A, gmap (@TrackedPath P) A → list (@TrackedPath P * A)).
Implicit Types t : @TurnDiffTracker P EqP CoP.

#[local] Abbreviation track := (track_delta relative_path_from sha1_hex unified_diff_text iter).
#[local] Abbreviation refresh :=
  (refresh_unified_diff relative_path_from sha1_hex unified_diff_text iter).

Lemma follows_files follow_symlinks (cwd : P) hs w r w' d env m0 t :
  Forall hunk_wf hs → links_ok cwd hs w →
  apply_hunks_to_files follow_symlinks cwd hs (w, empty_delta) = (r, (w', d)) →
  exact d = true → Forall not_self_move (delta_changes d) → valid t = true →
  tracks m0 (files_in env (view w)) t →
  tracks m0 (files_in env (view w')) (track env d t).
Proof.
  intros Hwf Hl E He Hs Hv Ht.
  destruct (apply_hunks_to_files_spec _ _ _ _ _ _ _ Hwf Hl E He) as (-> & Hr & _).
  unfold track_delta. rewrite Hv, He. simpl.
  destruct (records_all_in env (delta_changes d) (view w) Hr) as [Hr' <-].
  by apply (apply_changes_tracks m0 (files_in env (view w))).
Qed.

(** C6: a patch application followed by [track_delta] keeps the tracker in step
    with the file system: if the tracker is valid and knew the files of the
    turn's start and the current ones before the patch, it knows them after the
    patch too, without reading them.  The delta is marked exact and moves no
    file onto itself ([self_move_tracked_as_present] shows what happens then),
    and the links of the file system are as in [links_ok]. *)
Theorem track_delta_follows_files follow_symlinks (cwd : P) hs w r w' d env m0 t :
  Forall hunk_wf hs → links_ok cwd hs w →
  apply_hunks_to_files follow_symlinks cwd hs (w, empty_delta) = (r, (w', d)) →
  exact d = true → Forall not_self_move (delta_changes d) → valid t = true →
  tracks m0 (files_in env (view w)) t →
  tracks m0 (files_in env (view w')) (track env d t).
Proof. apply follows_files. Qed.

(** The trackers a session can reach. *)
Inductive reachable : @TurnDiffTracker P EqP CoP → Prop :=
  | reachable_new roots : reachable (with_environment_display_roots roots)
  | reachable_track env d t : reachable t → reachable (track env d t)
  | reachable_invalidate t : reachable t → reachable (invalidate t).

Lemma reachable_coherent t :
  reachable t → coherent relative_path_from sha1_hex unified_diff_text t.
Proof.
  induction 1 as [roots|env d t _ IH|t _ IH].
  - exists (λ _, []). split; [|split]; apply map_Forall_empty.
  - by apply track_delta_coherent.
  - destruct IH as (log & ? & ? & _). exists log. split; [done|]. split; [done|]. apply map_Forall_empty.
Qed.

(** The cache of rendered diffs is invisible: in every tracker a session
    reaches, tracking a delta gives the same unified diff as tracking it
    with the cache emptied. *)
Theorem rendered_diff_cache_transparent env d t :
  reachable t →
  unified_diff (track env d t) = unified_diff (track env d (set_diffs ∅ (unified_diff t) t)).
Proof.
  intros Ht%reachable_coherent. unfold track_delta.
  change (valid (set_diffs ∅ (unified_diff t) t)) with (valid t).
  destruct (valid t), (exact d); cbn [negb]; try done.
  rewrite (apply_changes_set_diffs env).
  apply (apply_changes_coherent _ _ _ env t (delta_changes d)) in Ht as [log Hco].
  rewrite (proj1 (refresh_cache _ _ _ iter log _ Hco)). done.
Qed.

(** What a refresh shows: every path whose content differs between the start
    of the turn and now is rendered, under its own path or as the two ends of
    a rename, from the contents of the start and the current ones; and when no
    path differs there is no diff at all. *)
Theorem refresh_shows_the_net_diff t m0 m :
  (∀ A (x : gmap (@TrackedPath P) A), iter A x ≡ₚ map_to_list x) →
  reachable t → tracks m0 m t →
  (∀ p, m0 !! p ≠ m !! p → ∃ l r k,
     (l = p ∨ r = p) ∧ left_path k = l ∧ right_path k = r ∧
     rendered_diffs (refresh t) !! k
       = Some (render_diff relative_path_from sha1_hex unified_diff_text t l (m0 !! l) r (m !! r)))
  ∧ (m0 = m → unified_diff (refresh t) = None).
Proof.
  intros Hiter Ht%reachable_coherent Htr. split.
  - intros p Hne.
    assert (∀ q, is_Some (base t q) ∨ is_Some (cur t q) → base t q = m0 !! q ∧ cur t q = m !! q) as Hk.
    { intros q Hq. destruct (Htr q) as [(Hb & Hc & _)|]; [|done].
      rewrite Hb, Hc in Hq. by destruct Hq as [[]|[]]. }
    assert (is_Some (base t p) ∨ is_Some (cur t p)) as Hp.
    { destruct (Htr p) as [(_ & _ & Hbad)|[-> ->]]; [congruence|].
      destruct (m0 !! p), (m !! p); eauto. congruence. }
    destruct (refresh_renders relative_path_from sha1_hex unified_diff_text iter Hiter t p Hp)
      as (q & Hq & [d Hd]).
    destruct Ht as [log Hco]. pose proof Hco as (Hb & Hc & _).
    apply (refresh_cache _ _ _ iter log t Hco) in Hd as Hok. destruct Hok as (-> & _ & _).
    set (pairs := rename_pairs iter t) in *. cbn [left_path right_path left_revision right_revision key_of] in Hd.
    destruct (content_log log t _ q Hb) as [Hlog1 _],
      (content_log log t _ (pair_of pairs q) Hc) as [Hlog2 _]. rewrite Hlog1, Hlog2 in Hd.
    exists q, (pair_of pairs q), (key_of t pairs q). split; [|split; [done|split; [done|]]].
    { destruct Hq as [->|Hq]; [by left|right]. unfold pair_of. by rewrite Hq. }
    rewrite Hd. f_equal. f_equal.
    + destruct Hq as [->|Hq]; [by apply Hk|].
      apply rename_pairs_spec in Hq as (? & _). apply Hk. by left.
    + unfold pair_of. destruct (pairs !! q) as [e|] eqn:E; simpl.
      * apply rename_pairs_spec in E as (_ & _ & _ & ?). apply Hk. by right.
      * destruct Hq as [->|]; [|done]. by apply Hk.
  - intros ->. apply refresh_nothing; [done..|]. intros p.
    destruct (Htr p) as [(-> & -> & _)|[-> ->]]; done.
Qed.

(** A change that moves a file onto itself leaves the tracker with the new
    contents at a path whose file the application has removed. *)
Theorem self_move_tracked_as_present env t (p : P) old o new (m : gmap P str) :
  let c := {| change_path := p; change := Updated (Some p) old o new |} in
  cur (apply_change env t c) (env, p) = Some new ∧ redo m c !! p = None.
Proof.
  simpl. split; [|apply lookup_delete_eq].
  unfold apply_change, track_update, cur. simpl.
  case_decide; simpl; by rewrite lookup_insert_eq.
Qed.
End turn.

(** ** Witnesses: the demonstration patch of [MemFs], tracked from an empty tracker *)
Definition demo_tracker : @TurnDiffTracker Link _ _ := with_environment_display_roots ∅.
Definition demo_relative (p root : Link) : option str := strip_prefix (text root ++ [47%N]) (text p).
Definition demo_sha1 (bytes : list N) : str := show_nat (length bytes).
Definition demo_text_diff (old new old_header new_header : str) : str :=
  old_header ++ [LF] ++ new_header ++ [LF] ++ old ++ new.
Definition demo_iter (A : Type) (m : gmap (@TrackedPath Link) A) : list (@TrackedPath Link * A) :=
  map_to_list m.
Definition demo_tracked : @TurnDiffTracker Link _ _ :=
  track_delta demo_relative demo_sha1 demo_text_diff demo_iter [] demo_delta demo_tracker.

Lemma demo_start_tracks : tracks (files_in [] demo_files) (files_in [] demo_files) demo_tracker.
Proof. intros p. by left. Qed.
Lemma demo_no_self_move : Forall not_self_move (delta_changes demo_delta).
Proof.
  apply List.Forall_forall. intros c Hc. apply (bool_decide_eq_true_1 _). revert c Hc.
  apply List.forallb_forall. vm_compute. reflexivity.
Qed.

Lemma track_delta_follows_witness :
  tracks (files_in [] demo_files) (files_in [] demo_result) demo_tracked.
Proof.
  apply (track_delta_follows_files (L:=mem_fs_laws) demo_relative demo_sha1 demo_text_diff demo_iter
    true demo_cwd demo_hunks demo_world demo_run.1 demo_after demo_delta [] (files_in [] demo_files)
    demo_tracker demo_wf demo_links_ok demo_run_eq demo_exact
    demo_no_self_move eq_refl demo_start_tracks).
Defined.

Lemma demo_reachable : reachable demo_relative demo_sha1 demo_text_diff demo_iter demo_tracked.
Proof. apply reachable_track, reachable_new. Qed.

Lemma cache_transparent_witness :
  unified_diff (track_delta demo_relative demo_sha1 demo_text_diff demo_iter [] demo_delta demo_tracked)
  = unified_diff (track_delta demo_relative demo_sha1 demo_text_diff demo_iter [] demo_delta
      (set_diffs ∅ (unified_diff demo_tracked) demo_tracked)).
Proof. apply rendered_diff_cache_transparent, demo_reachable. Defined.

(** The deleted file ["b"] shows up in the diff. *)
Lemma refresh_shows_witness :
  ∃ l r k, (l = ([], file_uri (lit "w/b")) ∨ r = ([], file_uri (lit "w/b"))) ∧ left_path k = l ∧ right_path k = r ∧
    rendered_diffs (refresh_unified_diff demo_relative demo_sha1 demo_text_diff demo_iter demo_tracked) !! k
    = Some (render_diff demo_relative demo_sha1 demo_text_diff demo_tracked l
        (files_in [] demo_files !! l) r (files_in [] demo_result !! r)).
Proof.
  apply (refresh_shows_the_net_diff demo_relative demo_sha1 demo_text_diff demo_iter demo_tracked
    (files_in [] demo_files) (files_in [] demo_result)).
  - intros A m. reflexivity.
  - exact demo_reachable.
  - apply (follows_files (L:=mem_fs_laws) demo_relative demo_sha1 demo_text_diff demo_iter
      true demo_cwd demo_hunks demo_world demo_run.1 demo_after demo_delta [] (files_in [] demo_files)
      demo_tracker demo_wf demo_links_ok demo_run_eq demo_exact
      demo_no_self_move eq_refl demo_start_tracks).
  - vm_compute. discriminate.
Defined.
