(* ===== verification/Permissions.v ===== *)
(** * protocol: file-system permissions

    The policies of [protocol/src/permissions.rs] on executor-owned paths: what
    access a policy grants to a path, when it grants the whole disk, which
    metadata directories stay protected, what a deny entry hides, how symbolic
    entries are made concrete and how denials survive a change of policy.  Paths
    are the URIs of [FileUri]; the [globset] crate is the interface [GlobCrate];
    the adapters to the local file system are left out.  A join of valid URIs
    never panics, so [Result::ok] on it is [ok_opt]. *)
From S2P Require Import Prelude Str Utf8Stream WindowsCommand FileUri NativePath.

Definition ok_opt {E A} (r : res E A) : option A := match r with Ok a => Some a | _ => None end.

(** ** Policies *)
Inductive NetworkSandboxPolicy := NetRestricted | NetEnabled.
Definition is_enabled (n : NetworkSandboxPolicy) : bool :=
  match n with NetEnabled => true | NetRestricted => false end.

Inductive FileSystemAccessMode := Read | Write | Deny.
#[export] Instance FileSystemAccessMode_eq_dec : EqDecision FileSystemAccessMode.
Proof. solve_decision. Defined.
Definition can_read (a : FileSystemAccessMode) : bool := negb (bool_decide (a = Deny)).
Definition can_write (a : FileSystemAccessMode) : bool := bool_decide (a = Write).
(** The derived order. *)
Definition access_rank (a : FileSystemAccessMode) : nat :=
  match a with Read => 0 | Write => 1 | Deny => 2 end.

Inductive FileSystemSpecialPath :=
  | Root
  | Minimal
  | ProjectRoots (subpath : option str)
  | Tmpdir
  | SlashTmp
  | Unknown (path : str) (subpath : option str).
#[export] Instance FileSystemSpecialPath_eq_dec : EqDecision FileSystemSpecialPath.
Proof. solve_decision. Defined.

Inductive MissingPathBehavior := Skip.
#[export] Instance MissingPathBehavior_eq_dec : EqDecision MissingPathBehavior.
Proof. solve_decision. Defined.
Inductive FileSystemSandboxKind := Restricted | Unrestricted | ExternalSandbox.
#[export] Instance FileSystemSandboxKind_eq_dec : EqDecision FileSystemSandboxKind.
Proof. solve_decision. Defined.

Definition PROTECTED_METADATA_PATH_NAMES : list str := [lit ".git"; lit ".agents"; lit ".codex"; lit ".aws"].
Definition PROJECT_ROOTS_GLOB_PATTERN_PREFIX : str := lit "codex-project-roots://".

(** ** The [globset] crate *)
Record GlobOptions := {
  literal_separator : bool;
  allow_unclosed_class : bool;
  backslash_escape : bool;
  case_insensitive : bool;
}.
(** The messages of the deny-read globs, with the data they print. *)
Inductive DenyGlobError :=
  | GlobDirectoryError (e : LegacyAppPathStringError)
  | UnresolvedPattern (pattern : str)
  | PatternWithoutHome (pattern : str)
  | InvalidPattern (pattern err : str).
Class GlobCrate (G : Type) := {
  glob_build : GlobOptions → str → str + G;
  glob_match : G → list N → bool;
}.

Section policies.
Context {P : Type} `{!Url P}.

Inductive FileSystemPath :=
  | PathEntry (path : P)
  | GlobPattern (pattern : str)
  | Special (value : FileSystemSpecialPath).
(** Its derived equality, through that of [PathUri]. *)
Definition path_eqb (a b : FileSystemPath) : bool :=
  match a, b with
  | PathEntry p, PathEntry q => uri_eqb p q
  | GlobPattern p, GlobPattern q => str_eqb p q
  | Special v, Special w => bool_decide (v = w)
  | _, _ => false
  end.

Record FileSystemSandboxEntry := {
  path : FileSystemPath;
  access : FileSystemAccessMode;
  missing_path_behavior : option MissingPathBehavior;
}.
Definition entry_eqb (a b : FileSystemSandboxEntry) : bool :=
  path_eqb (path a) (path b) && bool_decide (access a = access b)
  && bool_decide (missing_path_behavior a = missing_path_behavior b).
Definition new_entry (p : FileSystemPath) (a : FileSystemAccessMode) : FileSystemSandboxEntry :=
  {| path := p; access := a; missing_path_behavior := None |}.
Definition skip_missing_path (p : FileSystemPath) (a : FileSystemAccessMode) : FileSystemSandboxEntry :=
  {| path := p; access := a; missing_path_behavior := Some Skip |}.
Definition skips_missing_path (e : FileSystemSandboxEntry) : bool :=
  bool_decide (missing_path_behavior e = Some Skip).

Record FileSystemSandboxPolicy := {
  kind : FileSystemSandboxKind;
  glob_scan_max_depth : option nat;
  entries : list FileSystemSandboxEntry;
}.
Record FileSystemSandboxPolicyContext := {
  cwd : P;
  workspace_roots : list P;
  user_home_dir : option P;
  temporary_directories : option (list P);
}.
Definition with_entries (es : list FileSystemSandboxEntry) (p : FileSystemSandboxPolicy) : FileSystemSandboxPolicy :=
  {| kind := kind p; glob_scan_max_depth := glob_scan_max_depth p; entries := es |}.

Definition restricted (es : list FileSystemSandboxEntry) : FileSystemSandboxPolicy :=
  {| kind := Restricted; glob_scan_max_depth := None; entries := es |}.
Definition read_only_file_system_entries : list FileSystemSandboxEntry := [new_entry (Special Root) Read].
Definition read_only : FileSystemSandboxPolicy := restricted read_only_file_system_entries.
Definition unrestricted : FileSystemSandboxPolicy :=
  {| kind := Unrestricted; glob_scan_max_depth := None; entries := [] |}.
Definition external_sandbox : FileSystemSandboxPolicy :=
  {| kind := ExternalSandbox; glob_scan_max_depth := None; entries := [] |}.
Definition remove_skip_missing_path_entries (p : FileSystemSandboxPolicy) : FileSystemSandboxPolicy :=
  with_entries (filter (λ e, negb (skips_missing_path e) = true) (entries p)) p.

Definition is_restricted (p : FileSystemSandboxPolicy) : bool := bool_decide (kind p = Restricted).
Definition has_root_access (p : FileSystemSandboxPolicy) (pred : FileSystemAccessMode → bool) : bool :=
  is_restricted p
  && existsb (λ e, match path e with Special Root => pred (access e) | _ => false end) (entries p).
Definition has_denied_read_restrictions_for_convention (p : FileSystemSandboxPolicy)
    (convention : option PathConvention) : bool :=
  is_restricted p
  && existsb (λ e, bool_decide (access e = Deny)
       && negb (match path e with Special SlashTmp => bool_decide (convention = Some Windows) | _ => false end))
       (entries p).

(** The deny entries of [existing] that are not there yet, in order. *)
Fixpoint add_deny_entries (denied es : list FileSystemSandboxEntry) : list FileSystemSandboxEntry :=
  match denied with
  | [] => es
  | d :: denied =>
      add_deny_entries denied (if existsb (λ e, entry_eqb e d) es then es else es ++ [d])
  end.
Definition deny_entries (p : FileSystemSandboxPolicy) : list FileSystemSandboxEntry :=
  filter (λ e, access e = Deny) (entries p).
Definition preserve_deny_read_restrictions_from (existing self : FileSystemSandboxPolicy)
    : FileSystemSandboxPolicy :=
  let has_deny_read_entries := existsb (λ e, bool_decide (access e = Deny)) (entries existing) in
  let self := if bool_decide (kind self = Unrestricted) && has_deny_read_entries
              then restricted [new_entry (Special Root) Write] else self in
  if negb (is_restricted self) then self
  else
    {| kind := kind self;
       glob_scan_max_depth := match glob_scan_max_depth self with
                              | None => glob_scan_max_depth existing
                              | Some d => Some d
                              end;
       entries := add_deny_entries (deny_entries existing) (entries self) |}.

(** ** Entries that name the same target *)
Definition special_paths_share_target (l r : FileSystemSpecialPath) : bool :=
  match l, r with
  | Root, Root | Minimal, Minimal | Tmpdir, Tmpdir | SlashTmp, SlashTmp => true
  | ProjectRoots l, ProjectRoots r => bool_decide (l = r)
  | Unknown l ls, Unknown r rs => str_eqb l r && bool_decide (ls = rs)
  | _, _ => false
  end.
Definition special_path_matches_path_uri (v : FileSystemSpecialPath) (p : P) : bool :=
  match v with
  | Root => is_some (lexical_depth p) && is_none (parent p)
  | SlashTmp =>
      bool_decide (infer_path_convention p = Some Posix) && bool_decide (lexical_depth p = Some 1)
      && bool_decide (basename p = Some (lit "tmp"))
  | _ => false
  end.
Definition file_system_paths_share_target (l r : FileSystemPath) (convention : PathConvention) : bool :=
  match l, r with
  | PathEntry l, PathEntry r => uri_eqb l r
  | Special l, Special r => special_paths_share_target l r
  | PathEntry p, Special v | Special v, PathEntry p =>
      bool_decide (infer_path_convention p = Some convention) && special_path_matches_path_uri v p
  | GlobPattern l, GlobPattern r => str_eqb l r
  | _, _ => false
  end.

Definition has_same_target_write_override (p : FileSystemSandboxPolicy) (e : FileSystemSandboxEntry)
    (convention : PathConvention) : bool :=
  existsb (λ c, can_write (access c) && (access_rank (access e) <? access_rank (access c))
                && file_system_paths_share_target (path c) (path e) convention) (entries p).
Definition narrows_write (p : FileSystemSandboxPolicy) (convention : PathConvention)
    (e : FileSystemSandboxEntry) : bool :=
  if can_write (access e) then false
  else match path e with
       | PathEntry _ => negb (has_same_target_write_override p e convention)
       | GlobPattern _ => true
       | Special Root => bool_decide (access e = Deny)
       | Special SlashTmp =>
           if bool_decide (convention = Windows) then false
           else negb (has_same_target_write_override p e convention)
       | Special Minimal | Special (Unknown _ _) => false
       | Special _ => negb (has_same_target_write_override p e convention)
       end.
Definition has_write_narrowing_entries (p : FileSystemSandboxPolicy) (convention : PathConvention) : bool :=
  is_restricted p && existsb (narrows_write p convention) (entries p).

Definition has_full_disk_read_access_for_convention (p : FileSystemSandboxPolicy)
    (convention : option PathConvention) : bool :=
  match kind p with
  | Unrestricted | ExternalSandbox => true
  | Restricted => has_root_access p can_read && negb (has_denied_read_restrictions_for_convention p convention)
  end.
Definition has_full_disk_write_access_for_convention (p : FileSystemSandboxPolicy)
    (convention : option PathConvention) : bool :=
  match kind p with
  | Unrestricted | ExternalSandbox => true
  | Restricted =>
      is_some_and (λ c, has_root_access p can_write && negb (has_write_narrowing_entries p c)) convention
  end.
Definition has_full_disk_write_access_with_context (p : FileSystemSandboxPolicy)
    (ctx : FileSystemSandboxPolicyContext) : bool :=
  has_full_disk_write_access_for_convention p (infer_path_convention (cwd ctx)).

(** ** Resolving entries *)
Definition file_system_root (ctx : FileSystemSandboxPolicyContext) : option P :=
  _ ← lexical_depth (cwd ctx); last (ancestors (cwd ctx)).

Definition entry_paths (ctx : FileSystemSandboxPolicyContext) (p : FileSystemPath) : list P :=
  match p with
  | PathEntry p => [p]
  | GlobPattern _ => []
  | Special Root => option_list (file_system_root ctx)
  | Special (ProjectRoots subpath) =>
      omap (λ r, match subpath with Some s => ok_opt (uri_join r s) | None => Some r end) (workspace_roots ctx)
  | Special Tmpdir => default [] (temporary_directories ctx)
  | Special SlashTmp =>
      if bool_decide (infer_path_convention (cwd ctx) = Some Posix)
      then option_list (ok_opt (uri_join (cwd ctx) (lit "/tmp"))) else []
  | Special Minimal | Special (Unknown _ _) => []
  end.
Definition resolved_entries (p : FileSystemSandboxPolicy) (ctx : FileSystemSandboxPolicyContext)
    : list (P * FileSystemAccessMode) :=
  entries p ≫= λ e,
    (λ q, (q, access e))
      <$> filter (λ q, infer_path_convention q = infer_path_convention (cwd ctx)) (entry_paths ctx (path e)).

(** [try_fold]: [None] where a root that is not opaque has no depth. *)
Fixpoint with_depths (es : list (P * FileSystemAccessMode)) : option (list (P * FileSystemAccessMode * nat)) :=
  match es with
  | [] => Some []
  | (root, a) :: es =>
      match lexical_depth root with
      | Some d => (λ l, (root, a, d) :: l) <$> with_depths es
      | None => if is_opaque root then with_depths es else None
      end
  end.

(** [max_by_key(|(_, access, depth)| (depth, access))]: the last of the greatest. *)
Definition key_leb (a b : P * FileSystemAccessMode * nat) : bool :=
  (a.2 <? b.2) || ((a.2 =? b.2) && (access_rank a.1.2 <=? access_rank b.1.2)).
Definition max_entry (es : list (P * FileSystemAccessMode * nat)) : option (P * FileSystemAccessMode * nat) :=
  foldl (λ best e, match best with
                   | None => Some e
                   | Some b => if key_leb b e then Some e else Some b
                   end) None es.

Definition resolve_access (p : FileSystemSandboxPolicy) (target : P)
    (ctx : FileSystemSandboxPolicyContext) : FileSystemAccessMode :=
  match kind p with
  | Unrestricted | ExternalSandbox => Write
  | Restricted =>
      match infer_path_convention (cwd ctx) with
      | None => Deny
      | Some convention =>
          if negb (bool_decide (infer_path_convention target = Some convention))
             || is_none (lexical_depth target) || is_none (lexical_depth (cwd ctx))
          then Deny
          else match with_depths (resolved_entries p ctx) with
               | None => Deny
               | Some es =>
                   default Deny ((λ e, e.1.2) <$> max_entry
                     (filter (λ e, uri_starts_with target e.1.1 = true) es))
               end
      end
  end.

(** [find_map] over the writable roots and the protected names. *)
Definition protected_by (target root : P) : option (P * str) :=
  find_first (λ x, uri_starts_with target x.1)
    (omap (λ name, (λ q, (q, name)) <$> ok_opt (join_descendant root name)) PROTECTED_METADATA_PATH_NAMES).
Fixpoint first_protected (target : P) (es : list (P * FileSystemAccessMode)) : option (P * str) :=
  match es with
  | [] => None
  | (root, a) :: es =>
      if can_write a then
        match protected_by target root with Some x => Some x | None => first_protected target es end
      else first_protected target es
  end.
Definition metadata_write_denial (p : FileSystemSandboxPolicy) (target : P)
    (ctx : FileSystemSandboxPolicyContext) : option str :=
  if negb (is_restricted p) then None
  else
    let es := resolved_entries p ctx in
    '(protected, name) ← first_protected target es;
    if existsb (λ e, can_write e.2 && uri_starts_with target e.1 && uri_starts_with e.1 protected) es
    then None else Some name.

Definition can_write_path (p : FileSystemSandboxPolicy) (target : P)
    (ctx : FileSystemSandboxPolicyContext) : bool :=
  if negb (can_write (resolve_access p target ctx)) then false
  else has_full_disk_write_access_with_context p ctx
       || is_none (metadata_write_denial p target ctx).

(** ** Symbolic workspace roots *)
Definition resolve_scoped_workspace_path (root : P) (subpath : str) : option P :=
  convention ← infer_path_convention root;
  if starts_with subpath [SLASH]
     || (bool_decide (convention = Windows) && starts_with subpath [BACKSLASH])
     || existsb (λ s, str_eqb s (lit ".") || str_eqb s (lit "..")) (convention_segments convention subpath)
     || (bool_decide (convention = Windows)
         && existsb (contains_char COLON) (convention_segments convention subpath))
  then None
  else q ← ok_opt (uri_join root subpath); if uri_starts_with q root then Some q else None.

(** The subpath of a symbolic entry, and whether it is a glob. *)
Definition symbolic (p : FileSystemPath) : option (option str * bool) :=
  match p with
  | Special (ProjectRoots subpath) => Some (subpath, false)
  | GlobPattern pattern =>
      if starts_with pattern PROJECT_ROOTS_GLOB_PATTERN_PREFIX
      then Some (Some (drop (length PROJECT_ROOTS_GLOB_PATTERN_PREFIX) pattern), true)
      else None
  | _ => None
  end.
Definition materialize_entry (e : FileSystemSandboxEntry) (subpath : option str) (is_glob : bool) (root : P)
    : option FileSystemSandboxEntry :=
  let path :=
    if is_glob && is_none_or (λ c, negb (is_ok (validate_glob_directory root c))) (infer_path_convention root) then None
    else match subpath with
         | None => Some root
         | Some s => resolve_scoped_workspace_path root s
         end in
  '(path, access) ←
    match path with
    | Some q => Some (if is_glob then GlobPattern (inferred_native_path_string q) else PathEntry q, access e)
    | None => if can_write (access e) then None else Some (PathEntry root, Deny)
    end;
  Some {| path := path; access := access; missing_path_behavior := missing_path_behavior e |}.
Definition home_denial (e : FileSystemSandboxEntry) (subpath : option str) (roots : list P) : bool :=
  bool_decide (access e = Deny)
  && is_some_and (λ s, existsb (λ r, is_some_and (λ c, is_some (home_relative_suffix c s))
                                       (infer_path_convention r)) roots) subpath.
Fixpoint materialize_entries (roots : list P) (es : list FileSystemSandboxEntry)
    : option (list FileSystemSandboxEntry) :=
  match es with
  | [] => Some []
  | e :: es =>
      match symbolic (path e) with
      | None => (λ l, e :: l) <$> materialize_entries roots es
      | Some (subpath, is_glob) =>
          if home_denial e subpath roots then None
          else (λ l, omap (materialize_entry e subpath is_glob) roots ++ l) <$> materialize_entries roots es
      end
  end.
Definition materialize_project_roots_with_path_uris (p : FileSystemSandboxPolicy) (roots : list P)
    : FileSystemSandboxPolicy :=
  match materialize_entries roots (entries p) with
  | Some es => with_entries es p
  | None => restricted []
  end.

(** ** Default read-only entries *)
Definition append_default_read_only_entry_if_no_explicit_rule (native : PathConvention)
    (es : list FileSystemSandboxEntry) (p : FileSystemPath) : list FileSystemSandboxEntry :=
  if existsb (λ e, file_system_paths_share_target (path e) p native) es then es
  else es ++ [skip_missing_path p Read].

(** ** Deny-read matchers *)
Context {G : Type} `{!GlobCrate G}.
Inductive InvalidDenyReadGlobBehavior := FailClosed | ReturnError.
Record PreparedReadDenyMatcher := {
  denied_roots : list P;
  deny_read_matchers : list G;
  invalid_pattern : bool;
}.
Definition build_glob_matcher (pattern : str) (c : PathConvention) : str + G :=
  let pattern := match c with Windows => replace_char BACKSLASH SLASH pattern | Posix => pattern end in
  glob_build {| literal_separator := true; allow_unclosed_class := true;
                backslash_escape := bool_decide (c = Posix); case_insensitive := bool_decide (c = Windows) |} pattern.

Definition deny_glob (ctx : FileSystemSandboxPolicyContext) (pattern : str) : DenyGlobError + str :=
  let is_windows := bool_decide (infer_path_convention (cwd ctx) = Some Windows) in
  let home_relative :=
    match strip_prefix [TILDE; SLASH] pattern with
    | Some suffix => Some suffix
    | None => if is_windows then strip_prefix [TILDE; BACKSLASH] pattern else None
    end in
  let resolve (root : P) (pattern : str) :=
    let convention := if is_windows then Windows else Posix in
    match to_path_uri (U := P) pattern convention, validate_glob_directory root convention with
    | Err _, Err error => inl (GlobDirectoryError error)
    | _, _ =>
        match uri_join root pattern with
        | Ok path => inr (inferred_native_path_string path)
        | _ => inl (UnresolvedPattern pattern)
        end
    end in
  match home_relative with
  | Some suffix =>
      match user_home_dir ctx with
      | Some home => resolve home (drop_while (λ c, (c =? SLASH)%N || (is_windows && (c =? BACKSLASH)%N)) suffix)
      | None => inl (PatternWithoutHome pattern)
      end
  | None => resolve (cwd ctx) pattern
  end.
(** [collect::<Result<_, _>>()]: the first error. *)
Fixpoint collect_globs (l : list (DenyGlobError + str)) : DenyGlobError + list str :=
  match l with
  | [] => inr []
  | inl e :: _ => inl e
  | inr g :: l => match collect_globs l with inl e => inl e | inr gs => inr (g :: gs) end
  end.
Definition deny_read_globs (p : FileSystemSandboxPolicy) (ctx : FileSystemSandboxPolicyContext)
    : DenyGlobError + list str :=
  collect_globs (omap (λ e, match path e with GlobPattern g => Some (deny_glob ctx g) | _ => None end)
                   (filter (λ e, access e = Deny) (entries p))).

(** The loop over the patterns. *)
Fixpoint build_matchers (behavior : InvalidDenyReadGlobBehavior) (c : PathConvention) (patterns : list str)
    (matchers : list G) (invalid : bool) : DenyGlobError + list G * bool :=
  match patterns with
  | [] => inr (matchers, invalid)
  | pattern :: patterns =>
      match build_glob_matcher pattern c with
      | inr matcher => build_matchers behavior c patterns (matchers ++ [matcher]) invalid
      | inl err =>
          match behavior with
          | FailClosed => build_matchers behavior c patterns matchers true
          | ReturnError => inl (InvalidPattern pattern err)
          end
      end
  end.
Definition is_file_system_root (ctx : FileSystemSandboxPolicyContext) (root : P) : bool :=
  is_some_and (λ r, uri_starts_with root r && uri_starts_with r root) (file_system_root ctx).
Definition prepare_deny_read_matcher (p : FileSystemSandboxPolicy) (ctx : FileSystemSandboxPolicyContext)
    (behavior : InvalidDenyReadGlobBehavior) : DenyGlobError + PreparedReadDenyMatcher :=
  let roots := fst <$> filter (λ e, is_file_system_root ctx e.1 = false)
                 (filter (λ e, e.2 = Deny) (resolved_entries p ctx)) in
  let closed := inr {| denied_roots := roots; deny_read_matchers := []; invalid_pattern := true |} in
  match infer_path_convention (cwd ctx) with
  | None => closed
  | Some convention =>
      match deny_read_globs p ctx with
      | inl err => match behavior with FailClosed => closed | ReturnError => inl err end
      | inr patterns =>
          match build_matchers behavior convention patterns [] false with
          | inl err => inl err
          | inr (matchers, invalid) =>
              inr {| denied_roots := roots; deny_read_matchers := matchers; invalid_pattern := invalid |}
          end
      end
  end.
Definition matches_prepared_read_deny (target : P) (ctx : FileSystemSandboxPolicyContext)
    (prepared : PreparedReadDenyMatcher) : bool :=
  match infer_path_convention (cwd ctx) with
  | None => true
  | Some convention =>
      if negb (bool_decide (infer_path_convention target = Some convention))
         || is_none (lexical_depth target) || is_none (lexical_depth (cwd ctx)) then true
      else if invalid_pattern prepared then true
      else
        existsb (uri_starts_with target) (denied_roots prepared)
        || existsb (λ m, glob_match m (match convention with
                                       | Posix => decode_binary (url_path target)
                                       | Windows => as_bytes (replace_char BACKSLASH SLASH
                                                                (inferred_native_path_string target))
                                       end)) (deny_read_matchers prepared)
  end.
(** [ReadDenyMatcher::from_context] and [is_read_denied_uri]. *)
Definition from_context (p : FileSystemSandboxPolicy) (ctx : FileSystemSandboxPolicyContext)
    : option PreparedReadDenyMatcher :=
  if existsb (λ e, bool_decide (access e = Deny)) (entries p) then
    match prepare_deny_read_matcher p ctx FailClosed with inr m => Some m | inl _ => None end
  else None.
End policies.
Arguments FileSystemPath P : clear implicits.
Arguments PreparedReadDenyMatcher P G : clear implicits.
Arguments FileSystemSandboxEntry P : clear implicits.
Arguments FileSystemSandboxPolicy P : clear implicits.
Arguments FileSystemSandboxPolicyContext P : clear implicits.
