(* ===== verification/PermissionsTarget.v ===== *)
(** * protocol: policies of a selected executor

    [permissions/target.rs], [deny_read_validator.rs] and [windows_glob.rs]: the
    policy of an approved command, strict deny matchers, the workspace-write
    defaults, the validation of managed denials and the scan bounds of Windows
    globs, without the paths or the environment of the controller. *)
From S2P Require Import Prelude Str Utf8Stream WindowsCommand FileUri NativePath Permissions.

(** ** [windows_deny_read_glob_scan] *)
Record WindowsDenyReadGlobScan := {
  scan_root : str;
  pattern_suffix : str;
  max_depth : option nat;
}.
Definition is_glob_start (c : char) : bool := contains_char c (lit "*?[").
(** [rfind(['/', '\\'])]. *)
Fixpoint rfind_separator (s : str) : option nat :=
  match s with
  | [] => None
  | c :: s => match rfind_separator s with
              | Some i => Some (S i)
              | None => if is_separator c then Some 0 else None
              end
  end.
Definition windows_deny_read_glob_scan (pattern : str) (configured_max_depth : option nat) : WindowsDenyReadGlobScan :=
  let first_glob := default (length pattern) (position is_glob_start pattern) in
  let literal_prefix := take first_glob pattern in
  let '(root, suffix) :=
    match rfind_separator literal_prefix with
    | Some index =>
        let drive_root := (0 <? index) && bool_decide (literal_prefix !! (index - 1) = Some COLON) in
        let end_ := if (index =? 0) || drive_root then index + 1 else index in
        (take end_ literal_prefix, drop (index + 1) pattern)
    | None => (DOT, pattern)
    end in
  let components := non_empty (convention_segments Windows suffix) in
  {| scan_root := root; pattern_suffix := suffix;
     max_depth := if existsb (str_eqb (lit "**")) components then configured_max_depth
                  else Some (match configured_max_depth with
                             | None => length components
                             | Some depth => depth `min` length components
                             end) |}.

Section targets.
Context {P G : Type} `{!Url P} `{!GlobCrate G}.
Implicit Types (p : FileSystemSandboxPolicy P) (ctx : FileSystemSandboxPolicyContext P).

(** ** Workspace-write policies *)
Definition append_default_read_only_project_root_subpath_if_no_explicit_rule (native : PathConvention)
    (es : list (FileSystemSandboxEntry P)) (subpath : str) : list (FileSystemSandboxEntry P) :=
  append_default_read_only_entry_if_no_explicit_rule native es (Special (ProjectRoots (Some subpath))).
(** [default_read_only_subpaths_for_writable_root] inspects the file system. *)
Definition workspace_write (native : PathConvention) (default_read_only_subpaths : P → list P)
    (writable_roots : list P) (exclude_tmpdir_env_var exclude_slash_tmp : bool) : FileSystemSandboxPolicy P :=
  let es := [new_entry (Special Root) Read; new_entry (Special (ProjectRoots None)) Write] in
  let es := if exclude_slash_tmp then es else es ++ [new_entry (Special SlashTmp) Write] in
  let es := if exclude_tmpdir_env_var then es else es ++ [new_entry (Special Tmpdir) Write] in
  let es := es ++ ((λ q, new_entry (PathEntry q) Write) <$> writable_roots) in
  let es := foldl (append_default_read_only_project_root_subpath_if_no_explicit_rule native) es
              PROTECTED_METADATA_PATH_NAMES in
  restricted (foldl (λ es q, append_default_read_only_entry_if_no_explicit_rule native es (PathEntry q)) es
                (writable_roots ≫= default_read_only_subpaths)).
Definition with_materialized_project_roots_for_path_uris (roots : list P) p : FileSystemSandboxPolicy P :=
  match materialize_entries roots (entries p) with
  | None => restricted []
  | Some es => with_entries (foldl (λ es e, if existsb (λ x, entry_eqb x e) es then es else es ++ [e]) (entries p) es) p
  end.
Definition workspace_write_with_path_uris (native : PathConvention) (roots : list P)
    (exclude_tmpdir_env_var exclude_slash_tmp : bool) : FileSystemSandboxPolicy P :=
  with_materialized_project_roots_for_path_uris roots
    (workspace_write native (λ _, []) [] exclude_tmpdir_env_var exclude_slash_tmp).

Definition can_read_path p (target : P) ctx : bool := can_read (resolve_access p target ctx).
Definition include_platform_defaults (native : PathConvention) p : bool :=
  negb (has_full_disk_read_access_for_convention p (Some native)) && is_restricted p
  && existsb (λ e, match path e with Special Minimal => can_read (access e) | _ => false end) (entries p).
Definition has_configured_writable_roots p ctx : bool :=
  negb (has_full_disk_write_access_with_context p ctx)
  && existsb (λ x, can_write x.2 && can_write_path p x.1 ctx) (resolved_entries p ctx).
Definition with_expanded_deny_globs p (paths : list P) : FileSystemSandboxPolicy P :=
  with_entries (filter (λ e, (match path e with GlobPattern _ => true | _ => false end) = false) (entries p)
                ++ ((λ q, new_entry (PathEntry q) Deny) <$> paths)) p.

(** ** Strict matchers *)
Inductive TargetError :=
  | INVALID_PATH
  | SHADOWED
  | TemporaryDirectoriesUnavailable
  | TemporaryDirectoriesUnsafe
  | UnreportedTemporaryDirectories
  | GlobError (e : DenyGlobError).

Definition has_context_read_denials p ctx : bool :=
  is_restricted p
  && existsb (λ e, bool_decide (access e = Deny)
       && negb (match path e with
                | Special SlashTmp => negb (bool_decide (infer_path_convention (cwd ctx) = Some Posix))
                | _ => false
                end)) (entries p).
Definition validate_context_entry (convention : PathConvention) (valid : P → bool) ctx
    (e : FileSystemSandboxEntry P) : res TargetError unit :=
  match path e with
  | PathEntry q => ensure (valid q) INVALID_PATH
  | Special Tmpdir =>
      match temporary_directories ctx with
      | None => Err TemporaryDirectoriesUnavailable
      | Some directories => ensure (forallb valid directories) TemporaryDirectoriesUnsafe
      end
  | Special (ProjectRoots (Some subpath)) =>
      ensure (forallb (λ root, is_ok (uri_join root subpath)) (workspace_roots ctx)) INVALID_PATH
  | GlobPattern pattern =>
      if starts_with pattern [TILDE; SLASH]
         || (bool_decide (convention = Windows) && starts_with pattern [TILDE; BACKSLASH])
      then ensure (is_some_and valid (user_home_dir ctx)) INVALID_PATH else Ok tt
  | _ => Ok tt
  end.
Definition validate_context_paths p ctx : res TargetError unit :=
  match infer_path_convention (cwd ctx) with
  | None => Err INVALID_PATH
  | Some convention =>
      let valid q := bool_decide (infer_path_convention q = Some convention) && is_some (lexical_depth q) in
      if negb (valid (cwd ctx)) || negb (forallb valid (workspace_roots ctx)) then Err INVALID_PATH
      else _ ← res_mapM (validate_context_entry convention valid ctx) (entries p); Ok tt
  end.
Definition strict {A} (r : DenyGlobError + A) : res TargetError A :=
  match r with inl e => Err (GlobError e) | inr a => Ok a end.
(** [ReadDenyMatcher::try_new_with_context]. *)
Definition try_new_with_context p ctx : res TargetError (option (PreparedReadDenyMatcher P G)) :=
  if negb (has_context_read_denials p ctx) then Ok None
  else
    _ ← validate_context_paths p ctx;
    prepared ← strict (prepare_deny_read_matcher p ctx ReturnError);
    Ok (Some prepared).
Definition denied_by (matcher : option (PreparedReadDenyMatcher P G)) ctx (target : P) : bool :=
  is_some_and (matches_prepared_read_deny target ctx) matcher.

(** ** Approved commands *)
(** The loop over the metadata names: [None] where a join fails. *)
Fixpoint grant_metadata (matcher : option (PreparedReadDenyMatcher P G)) ctx (root : P) (ns : list str)
    (es : list (FileSystemSandboxEntry P)) : option (list (FileSystemSandboxEntry P)) :=
  match ns with
  | [] => Some es
  | name :: ns =>
      match join_descendant root name with
      | Ok q =>
          grant_metadata matcher ctx root ns
            (if denied_by matcher ctx q then es else es ++ [new_entry (PathEntry q) Write])
      | _ => None
      end
  end.
Definition root_write : FileSystemSandboxPolicy P := restricted [new_entry (Special Root) Write].
Definition try_approve p ctx : option (FileSystemSandboxPolicy P) :=
  let approved := preserve_deny_read_restrictions_from p root_write in
  if is_empty (workspace_roots ctx) && existsb (λ e, is_some (symbolic (path e))) (entries approved) then None
  else
    es ← materialize_entries (workspace_roots ctx) (entries approved);
    let approved := with_entries es approved in
    root ← file_system_root ctx;
    matcher ← ok_opt (try_new_with_context approved ctx);
    if negb (can_write (resolve_access approved root ctx)) || denied_by matcher ctx root then None
    else
      es ← grant_metadata matcher ctx root PROTECTED_METADATA_PATH_NAMES es;
      Some (with_entries es approved).
Definition for_approved_command p ctx : FileSystemSandboxPolicy P :=
  if negb (is_restricted p) then p else default p (try_approve p ctx).

(** ** Managed denials *)
Definition get_unreadable_roots_with_context p ctx : res TargetError (list P) :=
  if negb (is_restricted p) then Ok []
  else if is_none (temporary_directories ctx)
          && existsb (λ e, bool_decide (access e = Deny)
                           && match path e with Special Tmpdir => true | _ => false end) (entries p)
  then Err UnreportedTemporaryDirectories
  else Ok (foldl (λ seen x, if bool_decide (x.2 = Deny) && negb (is_file_system_root ctx x.1)
                               && negb (existsb (uri_eqb x.1) seen)
                            then seen ++ [x.1] else seen) [] (resolved_entries p ctx)).
Record DenyReadValidator := {
  required_entries : list (FileSystemSandboxEntry P);
  matcher : option (PreparedReadDenyMatcher P G);
}.
Inductive DenyReadViolation := MissingRequiredDeny | ReadablePath (q : P).
Definition new_validator (required : FileSystemSandboxPolicy P) ctx : res TargetError DenyReadValidator :=
  m ← (if has_context_read_denials required ctx
       then Some <$> strict (prepare_deny_read_matcher required ctx ReturnError) else Ok None);
  Ok {| required_entries := entries required; matcher := m |}.
Definition violating_path (v : DenyReadValidator) ctx (e : FileSystemSandboxEntry P) : option P :=
  match path e with
  | PathEntry q =>
      if negb (can_read (access e)) || negb (bool_decide (infer_path_convention q = infer_path_convention (cwd ctx)))
      then None else if denied_by (matcher v) ctx q then Some q else None
  | _ => None
  end.
Definition validate_selected (v : DenyReadValidator) (selected : FileSystemSandboxPolicy P) ctx
    : res DenyReadViolation unit :=
  match head (omap (violating_path v ctx) (entries selected)) with
  | Some q => Err (ReadablePath q)
  | None =>
      if existsb (λ e, negb (existsb (λ x, entry_eqb x e) (entries selected))) (required_entries v)
      then Err MissingRequiredDeny else Ok tt
  end.
Definition validate_managed_deny_read p (required : FileSystemSandboxPolicy P) ctx : res TargetError unit :=
  v ← new_validator required ctx;
  match validate_selected v p ctx with Ok _ => Ok tt | Err _ => Err SHADOWED | Panic => Panic end.
End targets.
