(* ===== verification/PermissionsProps.v ===== *)
(** * protocol: what file-system policies promise

    The access of a path is that of its most specific entry whatever the order of
    the entries; the shortcut for full-disk writes agrees with it; metadata
    directories stay read-only; symbolic entries stay below the workspace and lose
    no restriction; denials survive and hide what they name. *)
From S2P Require Import Prelude Str Utf8Stream WindowsCommand FileUri FileUriLaws FileUriProps FileUriOrder.
From S2P Require Import FileUriJoin NativePath Permissions.

(** ** The greatest key *)
Section keys.
Context {P : Type} `{!Url P}.
Implicit Types (a b e : P * FileSystemAccessMode * nat).

Lemma key_leb_spec a b :
  key_leb a b = true ↔ a.2 < b.2 ∨ a.2 = b.2 ∧ access_rank a.1.2 ≤ access_rank b.1.2.
Proof.
  unfold key_leb. rewrite orb_true_iff, andb_true_iff, Nat.ltb_lt, Nat.eqb_eq, Nat.leb_le. done.
Qed.
Lemma key_leb_refl a : key_leb a a = true.
Proof. apply key_leb_spec. lia. Qed.
Lemma key_leb_total a b : key_leb a b = true ∨ key_leb b a = true.
Proof. rewrite !key_leb_spec. lia. Qed.
Lemma key_leb_trans a b e : key_leb a b = true → key_leb b e = true → key_leb a e = true.
Proof. rewrite !key_leb_spec. lia. Qed.
Lemma access_rank_inj x y : access_rank x = access_rank y → x = y.
Proof. by destruct x, y. Qed.

Definition better (best : option (P * FileSystemAccessMode * nat)) e :=
  match best with None => Some e | Some b => if key_leb b e then Some e else Some b end.
Lemma foldl_better_entry es best :
  ∃ w, foldl better (Some best) es = Some w ∧ (w = best ∨ w ∈ es) ∧ key_leb best w = true
       ∧ ∀ e, e ∈ es → key_leb e w = true.
Proof.
  revert best. induction es as [|e es IH]; intros best.
  - exists best. split_and!; [done|by left|apply key_leb_refl|]. intros e He. by apply elem_of_nil in He.
  - cbn [foldl]. unfold better at 2. destruct (key_leb best e) eqn:E.
    + destruct (IH e) as (w & -> & Hw & Hk & Hall). exists w. split_and!; [done| | |].
      * right. destruct Hw as [->|Hw]; [left|by right].
      * by eapply key_leb_trans.
      * intros e' [->|He']%elem_of_cons; auto.
    + destruct (IH best) as (w & -> & Hw & Hk & Hall). exists w. split_and!; [done| |done|].
      * destruct Hw as [->|Hw]; [by left|right; by right].
      * intros e' [->|He']%elem_of_cons; [|auto]. destruct (key_leb_total best e) as [H|H]; [congruence|].
        by eapply key_leb_trans.
Qed.
Lemma max_entry_spec es :
  match max_entry es with
  | None => es = []
  | Some w => w ∈ es ∧ ∀ e, e ∈ es → key_leb e w = true
  end.
Proof.
  unfold max_entry. destruct es as [|e es]; [done|]. cbn [foldl].
  destruct (foldl_better_entry es e) as (w & E & Hw & Hk & Hall). change (foldl better (Some e) es = Some w) in E.
  unfold better in E. rewrite E. split; [destruct Hw as [->|Hw]; [left|by right]|].
  intros e' [->|He']%elem_of_cons; auto.
Qed.
(** Only the access of the winner is returned, so ties do not matter. *)
Lemma max_access_perm es es' : es ≡ₚ es' → (λ e, e.1.2) <$> max_entry es = (λ e, e.1.2) <$> max_entry es'.
Proof.
  intros Hp. pose proof (max_entry_spec es) as H. pose proof (max_entry_spec es') as H'.
  destruct (max_entry es) as [w|], (max_entry es') as [w'|]; csimpl.
  - destruct H as [Hw H], H' as [Hw' H']. f_equal. apply access_rank_inj.
    assert (key_leb w w' = true) as K1%key_leb_spec by (apply H'; by rewrite <-Hp).
    assert (key_leb w' w = true) as K2%key_leb_spec by (apply H; by rewrite Hp). lia.
  - subst. destruct H as [Hw _]. rewrite Hp in Hw. by apply elem_of_nil in Hw.
  - subst. destruct H' as [Hw _]. rewrite <-Hp in Hw. by apply elem_of_nil in Hw.
  - done.
Qed.
End keys.

Section policies.
Context {P : Type} `{!Url P}.
Implicit Types (p : FileSystemSandboxPolicy P) (ctx : FileSystemSandboxPolicyContext P) (t root q : P).

(** ** Entries with their depth *)
Lemma with_depths_elem es ds x :
  with_depths es = Some ds → x ∈ ds ↔ x.1 ∈ es ∧ lexical_depth x.1.1 = Some x.2.
Proof.
  revert ds. induction es as [|[q a] es IH]; intros ds; cbn [with_depths].
  { intros [= <-]. split; [by intros ?%elem_of_nil|]. by intros [?%elem_of_nil _]. }
  destruct (lexical_depth q) as [d|] eqn:Ed.
  - destruct (with_depths es) as [ds'|]; [|done]. intros [= <-]. rewrite !elem_of_cons, (IH ds') by done.
    destruct x as [[q' a'] d']. simpl. split.
    + intros [[= -> -> ->]|[H1 H2]]; [by split; [left|]|by split; [right|]].
    + intros [[[= -> ->]|H1] H2]; [left; congruence|by right].
  - destruct (is_opaque q); [|done]. intros E. rewrite (IH ds) by done. rewrite elem_of_cons.
    destruct x as [[q' a'] d']. simpl. split; [naive_solver|]. intros [[[= -> ->]|H1] H2]; [congruence|done].
Qed.
Lemma with_depths_perm es es' :
  es ≡ₚ es' →
  match with_depths es, with_depths es' with
  | Some ds, Some ds' => ds ≡ₚ ds'
  | None, None => True
  | _, _ => False
  end.
Proof.
  induction 1 as [|[q a] es es' Hp IH|[q a] [q' a'] es|es1 es2 es3 _ IH1 _ IH2]; cbn [with_depths].
  - done.
  - destruct (lexical_depth q).
    + destruct (with_depths es), (with_depths es'); csimpl; try done. by constructor.
    + by destruct (is_opaque q).
  - destruct (lexical_depth q), (lexical_depth q'), (with_depths es), (is_opaque q), (is_opaque q'); csimpl;
      first [done|reflexivity|by constructor].
  - destruct (with_depths es1), (with_depths es2), (with_depths es3); try done. by etrans.
Qed.
Lemma resolved_entries_perm p p' ctx :
  entries p ≡ₚ entries p' → resolved_entries p ctx ≡ₚ resolved_entries p' ctx.
Proof. intros Hp. unfold resolved_entries. by rewrite Hp. Qed.
Lemma resolve_access_perm p p' t ctx :
  kind p = kind p' → entries p ≡ₚ entries p' → resolve_access p t ctx = resolve_access p' t ctx.
Proof.
  intros Hk Hp. unfold resolve_access. rewrite Hk. destruct (kind p'); [|done..].
  destruct (infer_path_convention (cwd ctx)); [|done]. destruct (_ || _); [done|].
  pose proof (with_depths_perm _ _ (resolved_entries_perm p p' ctx Hp)) as H.
  destruct (with_depths (resolved_entries p ctx)) as [ds|], (with_depths (resolved_entries p' ctx)) as [ds'|]; try done.
  rewrite (max_access_perm (filter _ ds) (filter (λ e, uri_starts_with t e.1.1 = true) ds')); [done|]. by rewrite H.
Qed.

(** A context and a target that the policy can compare. *)
Definition comparable ctx t : Prop :=
  ∃ c, infer_path_convention (cwd ctx) = Some c ∧ infer_path_convention t = Some c
       ∧ is_Some (lexical_depth t) ∧ is_Some (lexical_depth (cwd ctx)).
Lemma resolve_access_comparable p t ctx :
  kind p = Restricted → comparable ctx t →
  resolve_access p t ctx =
  match with_depths (resolved_entries p ctx) with
  | None => Deny
  | Some ds => default Deny ((λ e, e.1.2) <$> max_entry (filter (λ e, uri_starts_with t e.1.1 = true) ds))
  end.
Proof.
  intros Hk (c & Hc & Ht & [d Hd] & [d' Hd']). unfold resolve_access. rewrite Hk, Hc, Ht, Hd, Hd'.
  by rewrite bool_decide_true.
Qed.
Lemma resolve_access_incomparable p t ctx :
  kind p = Restricted → ¬ comparable ctx t → resolve_access p t ctx = Deny.
Proof.
  intros Hk Hn. unfold resolve_access. rewrite Hk. destruct (infer_path_convention (cwd ctx)) as [c|] eqn:Hc; [|done].
  case_bool_decide as Ht; [|done]. destruct (lexical_depth t) as [d|] eqn:Hd; [|done].
  destruct (lexical_depth (cwd ctx)) as [d'|] eqn:Hd'; [|done]. destruct Hn. exists c. split_and!; eauto.
Qed.

Lemma with_depths_none es :
  with_depths es = None ↔ ∃ q a, (q, a) ∈ es ∧ lexical_depth q = None ∧ is_opaque q = false.
Proof.
  induction es as [|[q a] es IH]; cbn [with_depths].
  { split; [done|]. by intros (q & a & ?%elem_of_nil & _). }
  destruct (lexical_depth q) as [d|] eqn:Ed.
  - destruct (with_depths es) as [ds|]; csimpl.
    + split; [done|]. intros (q' & a' & [[= -> ->]|Hin]%elem_of_cons & Hd & Ho); [congruence|].
      assert (Some ds = None) by (apply IH; eauto). done.
    + split; [|done]. intros _. destruct (proj1 IH eq_refl) as (q' & a' & ? & ?). exists q', a'. by split; [right|].
  - destruct (is_opaque q) eqn:Eo.
    + rewrite IH. split; intros (q' & a' & Hin & Hd & Ho); exists q', a'; (split; [|done]); [by right|].
      apply elem_of_cons in Hin as [[= -> ->]|?]; [congruence|done].
    + split; [|done]. intros _. exists q, a. by split; [left|].
Qed.
Lemma resolve_access_unclear p t ctx :
  kind p = Restricted → with_depths (resolved_entries p ctx) = None → resolve_access p t ctx = Deny.
Proof.
  intros Hk Hn. unfold resolve_access. rewrite Hk. destruct (infer_path_convention (cwd ctx)); [|done].
  destruct (_ || _); [done|]. by rewrite Hn.
Qed.
End policies.

(** ** Containment among entries *)
Section specific.
Context {P : Type} `{!Url P} `{!UrlLaws P}.
Implicit Types (p : FileSystemSandboxPolicy P) (ctx : FileSystemSandboxPolicyContext P) (t root q w : P).

(** A root whose names hide a separator behind an escape: neither an opaque URI
    nor a lexical one. *)
Definition unclear q : Prop := is_opaque q = false ∧ existsb (ambiguous (conv q)) (names q) = true.
Definition unclear_entry p ctx : Prop := ∃ q a, (q, a) ∈ resolved_entries p ctx ∧ unclear q.
Definition sound_entries p ctx : Prop := ∀ q a, (q, a) ∈ resolved_entries p ctx → valid q ∧ textual q.

Lemma unclear_depth q : valid q → unclear q ↔ lexical_depth q = None ∧ is_opaque q = false.
Proof.
  intros Hv. unfold unclear. destruct (lexical_depth q) as [d|] eqn:Ed.
  - apply lexical_depth_spec in Ed as [[_ Hl] _]; [|done]. rewrite Hl. naive_solver.
  - destruct (is_opaque q) eqn:Eo; [naive_solver|]. split; [done|]. intros _. split; [done|].
    apply not_false_is_true. intros Hl. rewrite (lexical_depth_names q) in Ed; [done..|]. by split.
Qed.
Lemma unclear_entry_depths p ctx :
  sound_entries p ctx → unclear_entry p ctx ↔ with_depths (resolved_entries p ctx) = None.
Proof.
  intros Hs. rewrite with_depths_none. split.
  - intros (q & a & Hin & Hu). exists q, a. split; [done|]. apply unclear_depth; [by eapply Hs|done].
  - intros (q & a & Hin & Hu). exists q, a. split; [done|]. apply unclear_depth; [by eapply Hs|done].
Qed.
(** What contains a lexical path is lexical. *)
Lemma container_lexical t q : valid t → valid q → lexical t → uri_starts_with t q = true → lexical q.
Proof.
  intros Vt Vq Lt Hs. destruct (is_opaque q) eqn:Eo.
  - rewrite ambiguous_starts_with in Hs; [|done..|by intros [_ [? _]]; congruence].
    apply uri_eqb_cases in Hs as [->|(x & y & _ & Hy & _)]; [done|]. by eapply identity_lexical.
  - destruct (existsb (ambiguous (conv q)) (names q)) eqn:Ea; [|by split].
    rewrite ambiguous_starts_with in Hs; [|done..|by intros [_ [_ ?]]; congruence].
    apply uri_eqb_cases in Hs as [->|(x & y & _ & Hy & _)]; [done|]. by eapply identity_lexical.
Qed.
(** Two containers of a path are nested, the deeper in the shallower. *)
Lemma containers_nested t q w :
  valid t → valid q → valid w → lexical t → textual t → textual q → textual w →
  uri_starts_with t q = true → uri_starts_with t w = true →
  length (names q) ≤ length (names w) → uri_starts_with w q = true.
Proof.
  intros Vt Vq Vw Lt Tt Tq Tw Hq Hw Hle. pose proof (container_lexical t q Vt Vq Lt Hq) as Lq.
  pose proof (container_lexical t w Vt Vw Lt Hw) as Lw.
  apply uri_starts_with_spec in Hq as (Hhq & Hcq & Hpq); [|done..].
  apply uri_starts_with_spec in Hw as (Hhw & Hcw & Hpw); [|done..].
  apply uri_starts_with_spec; [done..|]. split_and!; [congruence..|].
  destruct (prefix_weak_total _ _ _ Hpq Hpw) as [?|Hp]; [done|].
  assert (canon (conv w) <$> names w = canon (conv q) <$> names q) as ->; [|done].
  apply prefix_length_eq; [done|]. by rewrite !length_fmap.
Qed.
Lemma nested_shorter q w :
  valid q → valid w → lexical q → lexical w → textual q → textual w →
  uri_starts_with q w = true → length (names w) ≤ length (names q).
Proof.
  intros ? ? ? ? ? ? Hs. apply uri_starts_with_spec in Hs as (_ & _ & Hp%prefix_length); [|done..].
  by rewrite !length_fmap in Hp.
Qed.

(** C17: a restricted policy whose entries are valid URIs (with text as names on
    Windows) gives a path the access of the most specific entry that contains it:
    that entry lies inside every other one that contains the path, and against
    another entry for the same place deny wins over write and write over read.  It
    denies what no entry contains, what it cannot compare with the working
    directory, and everything when the names of an entry hide a separator behind
    an escape; the order of the entries does not matter. *)
Theorem access_is_of_the_most_specific_entry p t ctx :
  kind p = Restricted → valid t → textual t → sound_entries p ctx →
  (¬ comparable ctx t ∨ unclear_entry p ctx → resolve_access p t ctx = Deny)
  ∧ (comparable ctx t → ¬ unclear_entry p ctx →
     (∀ q a, (q, a) ∈ resolved_entries p ctx → uri_starts_with t q = false) ∧ resolve_access p t ctx = Deny
     ∨ ∃ w a, (w, a) ∈ resolved_entries p ctx ∧ uri_starts_with t w = true ∧ resolve_access p t ctx = a
              ∧ ∀ q b, (q, b) ∈ resolved_entries p ctx → uri_starts_with t q = true →
                       uri_starts_with w q = true
                       ∧ (uri_starts_with q w = true → a = Deny ∨ a = Write ∧ b ≠ Deny ∨ a = Read ∧ b = Read))
  ∧ (∀ p', kind p' = kind p → entries p' ≡ₚ entries p → resolve_access p' t ctx = resolve_access p t ctx).
Proof.
  intros Hk Vt Tt Hs. split_and!.
  - intros [Hn|Hn]; [by apply resolve_access_incomparable|]. apply resolve_access_unclear; [done|].
    by apply unclear_entry_depths.
  - intros Hc Hn. rewrite unclear_entry_depths in Hn by done. rewrite resolve_access_comparable by done.
    destruct (with_depths (resolved_entries p ctx)) as [ds|] eqn:Hd; [|done].
    assert (lexical t) as Lt.
    { destruct Hc as (c & _ & _ & [d Hdt] & _). by apply lexical_depth_spec in Hdt as [? _]. }
    assert (∀ q b, (q, b) ∈ resolved_entries p ctx → uri_starts_with t q = true →
      lexical q ∧ (q, b, length (names q)) ∈ filter (λ e, uri_starts_with t e.1.1 = true) ds) as Hin.
    { intros q b Hq Ht. destruct (Hs q b Hq) as [Vq _]. pose proof (container_lexical t q Vt Vq Lt Ht) as Lq.
      split; [done|]. apply list_elem_of_filter. split; [done|]. apply (with_depths_elem _ _ _ Hd). simpl.
      by rewrite lexical_depth_names. }
    pose proof (max_entry_spec (filter (λ e, uri_starts_with t e.1.1 = true) ds)) as Hm.
    destruct (max_entry _) as [[[w a] d]|]; csimpl.
    + right. exists w, a. destruct Hm as [[Htw Hw]%list_elem_of_filter Hm]. simpl in Htw.
      apply (with_depths_elem _ _ _ Hd) in Hw as [Hw Hdw]. simpl in Hw, Hdw. destruct (Hs w a Hw) as [Vw Tw].
      apply lexical_depth_spec in Hdw as [Lw ->]; [|done]. split_and!; [done..|].
      intros q b Hq Htq. destruct (Hin q b Hq Htq) as [Lq Hqd]. destruct (Hs q b Hq) as [Vq Tq].
      apply Hm, key_leb_spec in Hqd. simpl in Hqd. split; [apply (containers_nested t); [done..|lia]|].
      intros Hqw. apply nested_shorter in Hqw; [|done..]. destruct Hqd as [?|[_ Hr]]; [lia|].
      destruct a, b; simpl in Hr; try lia; naive_solver.
    + left. split; [|done]. intros q b Hq. apply not_true_is_false. intros Ht. apply (Hin q b Hq) in Ht as [_ Ht].
      rewrite Hm in Ht. by apply elem_of_nil in Ht.
  - intros p' Hk' Hp. by apply resolve_access_perm.
Qed.
End specific.

Section full_disk.
Context {P : Type} `{!Url P} `{!UrlLaws P}.
Implicit Types (p : FileSystemSandboxPolicy P) (ctx : FileSystemSandboxPolicyContext P) (t root q : P).

Lemma resolved_elem p ctx q a :
  (q, a) ∈ resolved_entries p ctx ↔
  ∃ e, e ∈ entries p ∧ access e = a ∧ q ∈ entry_paths ctx (path e)
       ∧ infer_path_convention q = infer_path_convention (cwd ctx).
Proof.
  unfold resolved_entries. rewrite list_elem_of_bind. split.
  - intros (e & Hq & He). apply list_elem_of_fmap in Hq as (q' & [= -> ->] & Hq).
    apply list_elem_of_filter in Hq as [? ?]. eauto.
  - intros (e & He & <- & Hq & Hc). exists e. split; [|done]. apply list_elem_of_fmap. exists q. split; [done|].
    by apply list_elem_of_filter.
Qed.

(** ** The root and [/tmp] *)
Definition anchored (u : P) : Prop := anchor_depth (conv u) ≤ length (names u).
Lemma root_found ctx :
  valid (cwd ctx) → lexical (cwd ctx) → textual (cwd ctx) → anchored (cwd ctx) →
  ∃ r, file_system_root ctx = Some r ∧ valid r ∧ lexical r ∧ textual r ∧ conv r = conv (cwd ctx)
       ∧ lexical_depth r = Some (anchor_depth (conv (cwd ctx))).
Proof.
  intros Hv Hl Ht Ha. pose proof Hl as [Ho _].
  destruct (successors_spec _ (cwd ctx) Hv Ho (le_n _)) as [_ (r & Hr & _)]. exists r.
  destruct (root_spec (cwd ctx) r Hv Ho Hr) as (Vr & Or & _ & Hh & Hc & Hn).
  assert (names r `prefix_of` names (cwd ctx)) as Hpre by (rewrite Hn; apply prefix_take).
  assert (lexical r) as Lr by by eapply lexical_prefix.
  split_and!; [|done|done|by eapply textual_prefix|done|].
  - unfold file_system_root. by rewrite (lexical_depth_names _ Hv Hl).
  - rewrite lexical_depth_names, Hn, length_take by done. f_equal. unfold anchored in Ha. lia.
Qed.
Definition tmp_bytes : list N := as_bytes (lit "tmp").
Lemma slash_tmp ctx :
  valid (cwd ctx) → lexical (cwd ctx) → conv (cwd ctx) = Posix →
  ∃ v, uri_join (cwd ctx) (lit "/tmp") = Ok v ∧ valid v ∧ lexical v ∧ textual v
       ∧ location v = (None, Posix, [tmp_bytes]).
Proof.
  intros Hv [Ho _] Hc. destruct (posix_absolute (lit "tmp")) as (v & E & Vv & Hor).
  { by apply (bool_decide_unpack _). }
  { constructor; [|constructor]. right; right; right. split; [by repeat constructor|].
    split; [discriminate|]. split; [discriminate|]. repeat constructor; done. }
  destruct Hor as [[_ Hd]|(Ov & Hh & Hcv & es & _ & _ & Hn)]; [done|].
  change (resolve_names 0 [] (split_by (N.eqb SLASH) (lit "tmp"))) with [tmp_bytes] in Hn.
  exists v. split.
  { unfold uri_join. rewrite ordinary_convention by done. change (convention_of _ _) with (conv (cwd ctx)).
    rewrite Hc. change (lit "/tmp") with (SLASH :: lit "tmp"). rewrite E. done. }
  split; [done|]. destruct (names v) as [|n [|]] eqn:En; try done. injection Hn as Hn. split_and!.
  - split; [done|]. rewrite Hcv, En. simpl. unfold ambiguous. by rewrite Hn.
  - intros Hw. congruence.
  - unfold location. rewrite Hh, Hcv, En. csimpl. by rewrite Hn.
Qed.
Lemma tmp_location q :
  valid q → special_path_matches_path_uri SlashTmp q = true → lexical q ∧ textual q ∧ location q = (None, Posix, [tmp_bytes]).
Proof.
  intros Hv. simpl. rewrite !andb_true_iff, !bool_decide_eq_true. intros [[Hc Hd] Hb].
  apply lexical_depth_spec in Hd as [Hl Hn]; [|done]. pose proof Hl as [Ho _].
  rewrite ordinary_convention in Hc by done. change (convention_of _ _) with (conv q) in Hc. injection Hc as Hc.
  split; [done|]. split; [intros Hw; congruence|].
  destruct (valid_segments q Hv) as (ss & Hss & _). unfold basename in Hb. rewrite (proj1 (ordinary_bad q) Ho), Hss in Hb.
  cbn [is_some mbind option_bind] in Hb. rewrite <-(names_segments _ _ Hss) in Hb.
  assert (host_str q = None) as Hh.
  { unfold conv, convention_of in Hc. by destruct (host_str q). }
  unfold location. rewrite Hc, Hh. destruct (names q) as [|n [|]]; try done. csimpl in *. injection Hb as Hb. do 2 f_equal.
  unfold decode_uri_path in Hb. destruct (url_decode n) as [x|] eqn:Ex.
  - cbn in Hb. apply url_decode_text in Ex as [-> _]. change (id x) with x in Hb. by rewrite Hb.
  - cbn in Hb. change (id n) with n in Hb. subst n. exfalso. revert Ex. rewrite (decode_utf8 P), (decode_plain P); [done|].
    by apply (bool_decide_unpack _).
Qed.

(** ** Entries that the full-disk shortcut disregards *)
Definition clean_policy p : Prop := ∀ e q, e ∈ entries p → path e = PathEntry q → valid q ∧ textual q.
(** The working directory and the target, below the same root, in a policy whose
    entries are sound. *)
Record setting p ctx t r : Prop := {
  setting_cwd : valid (cwd ctx) ∧ lexical (cwd ctx) ∧ textual (cwd ctx) ∧ anchored (cwd ctx);
  setting_target : valid t ∧ lexical t ∧ textual t;
  setting_root : file_system_root ctx = Some r;
  setting_below : uri_starts_with t r = true;
  setting_clean : clean_policy p;
  setting_sound : sound_entries p ctx;
}.
(** The same where every entry has a depth. *)
Record clear_setting p ctx t r ds : Prop := {
  set_cwd : valid (cwd ctx) ∧ lexical (cwd ctx) ∧ textual (cwd ctx) ∧ anchored (cwd ctx);
  set_target : valid t ∧ lexical t ∧ textual t;
  set_root : file_system_root ctx = Some r;
  set_below : uri_starts_with t r = true;
  set_depths : with_depths (resolved_entries p ctx) = Some ds;
  set_clean : clean_policy p;
}.
(** A write entry for the target that is at least as specific as depth [d]. *)
Definition write_hit t (ds : list (P * FileSystemAccessMode * nat)) (d : nat) : Prop :=
  ∃ q d', (q, Write, d') ∈ ds ∧ uri_starts_with t q = true ∧ d ≤ d'.

Lemma cwd_convention p ctx t r ds : clear_setting p ctx t r ds → infer_path_convention (cwd ctx) = Some (conv (cwd ctx)).
Proof. intros [(_ & [Ho _] & _) _ _ _ _ _]. by apply ordinary_convention. Qed.
Lemma lexical_convention q : lexical q → infer_path_convention q = Some (conv q).
Proof. intros [Ho _]. by apply ordinary_convention. Qed.
Lemma write_entry_hit p ctx t r ds e q d :
  clear_setting p ctx t r ds → e ∈ entries p → can_write (access e) = true → q ∈ entry_paths ctx (path e) →
  infer_path_convention q = infer_path_convention (cwd ctx) → lexical_depth q = Some d →
  uri_starts_with t q = true → write_hit t ds d.
Proof.
  intros Hs He Hw Hq Hc Hd Ht. exists q, d. split_and!; [|done|done].
  apply (with_depths_elem _ _ _ (set_depths _ _ _ _ _ Hs)). split; [|done]. apply resolved_elem. exists e.
  by apply bool_decide_eq_true in Hw.
Qed.
Lemma root_write_hit p ctx t r ds :
  clear_setting p ctx t r ds → has_root_access p can_write = true → write_hit t ds (anchor_depth (conv (cwd ctx))).
Proof.
  intros Hs Hr. pose proof (cwd_convention _ _ _ _ _ Hs) as Hcw. pose proof Hs as [(Vc & Lc & Tc & Ac) _ Hroot Hb _ _].
  unfold has_root_access in Hr. apply andb_true_iff in Hr as [_ (e & He & Hr)%existsb_exists].
  apply list_elem_of_In in He. destruct (path e) as [| |v] eqn:Ep; [done..|]. destruct v; try done.
  destruct (root_found ctx Vc Lc Tc Ac) as (r' & Hr' & Vr & Lr & Tr & Hc & Hd). rewrite Hroot in Hr'. injection Hr' as <-.
  eapply write_entry_hit; [exact Hs|exact He|done| | |exact Hd|done].
  - rewrite Ep. simpl. rewrite Hroot. by left.
  - rewrite lexical_convention, Hcw by done. by rewrite Hc.
Qed.
Lemma same_place_hit p ctx t r ds e q q' d :
  clear_setting p ctx t r ds → e ∈ entries p → can_write (access e) = true → q' ∈ entry_paths ctx (path e) →
  valid q → valid q' → lexical q → lexical q' → textual q → textual q' → location q = location q' →
  infer_path_convention q = infer_path_convention (cwd ctx) → lexical_depth q = Some d →
  uri_starts_with t q = true → write_hit t ds d.
Proof.
  intros Hs He Hw Hq' Vq Vq' Lq Lq' Tq Tq' El Hc Hd Ht. pose proof (set_target _ _ _ _ _ Hs) as (Vt & Lt & Tt).
  eapply write_entry_hit; [exact Hs|exact He|done|exact Hq'| | |].
  - rewrite <-Hc, !lexical_convention by done. unfold location in El. congruence.
  - rewrite <-Hd. symmetry. by apply same_location_depth.
  - by apply (same_location t q q').
Qed.
(** The concrete path of an entry that a write entry shadows. *)
Lemma path_override p ctx t r ds e q d :
  clear_setting p ctx t r ds → has_root_access p can_write = true → e ∈ entries p → path e = PathEntry q →
  has_same_target_write_override p e (conv (cwd ctx)) = true →
  infer_path_convention q = infer_path_convention (cwd ctx) → lexical_depth q = Some d →
  uri_starts_with t q = true → write_hit t ds d.
Proof.
  intros Hs Hroot He Ep Ho Hc Hd Ht. unfold has_same_target_write_override in Ho.
  apply existsb_exists in Ho as (w & Hw%list_elem_of_In & Ho). apply andb_true_iff in Ho as [[Hcw _]%andb_true_iff Ho].
  destruct (set_clean _ _ _ _ _ Hs e q He Ep) as [Vq Tq]. rewrite Ep in Ho.
  apply lexical_depth_spec in Hd as Hl; [|done]. destruct Hl as [Lq Hn].
  destruct (path w) as [q'| |v] eqn:Ew; simpl in Ho; [|done|].
  - destruct (set_clean _ _ _ _ _ Hs w q' Hw Ew) as [Vq' Tq'].
    apply (same_place_hit p ctx t r ds w q q' d); try done.
    + rewrite Ew. left.
    + by eapply uri_eqb_lexical.
    + symmetry. by apply uri_eqb_location.
  - apply andb_true_iff in Ho as [_ Ho]. destruct v; try done.
    + simpl in Ho. apply andb_true_iff in Ho as [_ Ho]. destruct (parent q) eqn:Epq; [done|].
      apply parent_none in Epq; [|done|by apply Lq]. destruct (root_write_hit p ctx t r ds Hs Hroot) as (x & dx & ? & ? & ?).
      exists x, dx. split_and!; [done..|]. rewrite lexical_convention, (cwd_convention _ _ _ _ _ Hs) in Hc by done.
      injection Hc as Hc. rewrite Hc in Epq. lia.
    + destruct (tmp_location q Vq Ho) as (_ & _ & El). destruct (set_cwd _ _ _ _ _ Hs) as (Vc & Lc & _ & _).
      assert (conv (cwd ctx) = Posix) as HP.
      { unfold location in El. rewrite lexical_convention, (cwd_convention _ _ _ _ _ Hs) in Hc by done. congruence. }
      destruct (slash_tmp ctx Vc Lc HP) as (v & Ev & Vv & Lv & Tv & Elv).
      apply (same_place_hit p ctx t r ds w q v d); try done.
      * rewrite Ew. simpl. rewrite (cwd_convention _ _ _ _ _ Hs), HP, Ev. left.
      * congruence.
Qed.
Lemma override_reads p e c :
  has_same_target_write_override p e c = true → can_write (access e) = false → access e = Read.
Proof.
  unfold has_same_target_write_override. intros (w & _ & H)%existsb_exists Hw.
  apply andb_true_iff in H as [[Hcw Hr]%andb_true_iff _]. apply bool_decide_eq_true in Hcw. rewrite Hcw in Hr.
  by destruct (access e).
Qed.
(** A symbolic entry that a write entry shadows. *)
Lemma special_override p ctx t r ds e v q d :
  clear_setting p ctx t r ds → e ∈ entries p → path e = Special v → v ≠ Root →
  has_same_target_write_override p e (conv (cwd ctx)) = true → q ∈ entry_paths ctx (Special v) →
  infer_path_convention q = infer_path_convention (cwd ctx) → lexical_depth q = Some d →
  uri_starts_with t q = true → write_hit t ds d.
Proof.
  intros Hs He Ep Hv Ho Hq Hc Hd Ht. unfold has_same_target_write_override in Ho.
  apply existsb_exists in Ho as (w & Hw%list_elem_of_In & Ho). apply andb_true_iff in Ho as [[Hcw _]%andb_true_iff Ho].
  rewrite Ep in Ho. destruct (path w) as [q'| |v'] eqn:Ew; simpl in Ho; [|done|].
  - apply andb_true_iff in Ho as [_ Ho]. destruct v; try done.
    destruct (set_clean _ _ _ _ _ Hs w q' Hw Ew) as [Vq' _]. destruct (tmp_location q' Vq' Ho) as (Lq' & Tq' & El).
    simpl in Hq. rewrite (cwd_convention _ _ _ _ _ Hs) in Hq. case_bool_decide as HP; [|by apply elem_of_nil in Hq].
    injection HP as HP. destruct (set_cwd _ _ _ _ _ Hs) as (Vc & Lc & _ & _).
    destruct (slash_tmp ctx Vc Lc HP) as (x & Ex & Vx & Lx & Tx & Elx). rewrite Ex in Hq. simpl in Hq.
    apply list_elem_of_singleton in Hq as ->.
    apply (same_place_hit p ctx t r ds w x q' d); try done; [|congruence]. rewrite Ew. left.
  - assert (v' = v) as ->.
    { unfold special_paths_share_target in Ho. destruct v', v; try done; [by apply bool_decide_eq_true in Ho as ->|].
      apply andb_true_iff in Ho as [->%str_eqb_eq ->%bool_decide_eq_true]. done. }
    eapply write_entry_hit; [exact Hs|exact Hw|done| |done|done|done]. by rewrite Ew.
Qed.
(** What does not narrow writes is shadowed by a write entry. *)
Lemma not_narrowing_shadowed p ctx t r ds e q d :
  clear_setting p ctx t r ds → has_root_access p can_write = true → e ∈ entries p → can_write (access e) = false →
  narrows_write p (conv (cwd ctx)) e = false → q ∈ entry_paths ctx (path e) →
  infer_path_convention q = infer_path_convention (cwd ctx) → lexical_depth q = Some d →
  uri_starts_with t q = true → access e = Read ∧ write_hit t ds d.
Proof.
  intros Hs Hroot He Hw Hn Hq Hc Hd Ht. unfold narrows_write in Hn. rewrite Hw in Hn.
  assert (∀ v, path e = Special v → v ≠ Root → has_same_target_write_override p e (conv (cwd ctx)) = true →
          access e = Read ∧ write_hit t ds d) as Hspecial.
  { intros v Ev Hv Ho. rewrite Ev in Hq. split; [by eapply override_reads|]. by eapply special_override. }
  destruct (path e) as [q'|g|v] eqn:Ep; [|done|].
  - simpl in Hq. apply list_elem_of_singleton in Hq as ->. apply negb_false_iff in Hn.
    split; [by eapply override_reads|]. by eapply path_override.
  - destruct v; try by apply elem_of_nil in Hq.
    + apply bool_decide_eq_false in Hn. split; [by destruct (access e)|].
      simpl in Hq. rewrite (set_root _ _ _ _ _ Hs) in Hq. simpl in Hq. apply list_elem_of_singleton in Hq as ->.
      destruct (set_cwd _ _ _ _ _ Hs) as (Vc & Lc & Tc & Ac). destruct (root_found ctx Vc Lc Tc Ac) as (r' & Hr' & _ & _ & _ & _ & Hd').
      rewrite (set_root _ _ _ _ _ Hs) in Hr'. injection Hr' as <-. rewrite Hd in Hd'. injection Hd' as ->.
      by apply (root_write_hit p ctx t r ds).
    + apply negb_false_iff in Hn. by eapply Hspecial.
    + apply negb_false_iff in Hn. by eapply Hspecial.
    + simpl in Hq. rewrite (cwd_convention _ _ _ _ _ Hs) in Hq. case_bool_decide as HP; [|by apply elem_of_nil in Hq].
      injection HP as HP. rewrite HP in Hn. apply negb_false_iff in Hn. rewrite <-HP in Hn. by eapply Hspecial.
Qed.

Lemma clear_full_disk_write p ctx t r ds :
  kind p = Restricted → clear_setting p ctx t r ds → has_full_disk_write_access_with_context p ctx = true →
  resolve_access p t ctx = Write.
Proof.
  intros Hk Hs Hf.
  unfold has_full_disk_write_access_with_context, has_full_disk_write_access_for_convention in Hf.
  rewrite Hk, (cwd_convention _ _ _ _ _ Hs) in Hf. simpl in Hf. apply andb_true_iff in Hf as [Hroot Hn].
  apply negb_true_iff in Hn. unfold has_write_narrowing_entries, is_restricted in Hn. rewrite Hk in Hn. simpl in Hn.
  destruct (set_cwd _ _ _ _ _ Hs) as (Vc & Lc & Tc & Ac). destruct (set_target _ _ _ _ _ Hs) as (Vt & Lt & Tt).
  destruct (root_write_hit p ctx t r ds Hs Hroot) as (rq & rd & Hin & Hst & _).
  rewrite resolve_access_comparable, (set_depths _ _ _ _ _ Hs); [|done|].
  2:{ exists (conv (cwd ctx)). rewrite !lexical_depth_names, !lexical_convention by done. split_and!; try done; [|by eexists..].
      destruct (root_found ctx Vc Lc Tc Ac) as (r' & Hr' & Vr & Lr & Tr & Hcr & _). rewrite (set_root _ _ _ _ _ Hs) in Hr'.
      injection Hr' as <-. pose proof (set_below _ _ _ _ _ Hs) as Hb. apply uri_starts_with_spec in Hb as (_ & Hc & _); [|done..].
      congruence. }
  pose proof (max_entry_spec (filter (λ e, uri_starts_with t e.1.1 = true) ds)) as Hm.
  destruct (max_entry _) as [[[q a] d]|].
  2:{ assert ((rq, Write, rd) ∈ filter (λ e, uri_starts_with t e.1.1 = true) ds) as H by by apply list_elem_of_filter.
      rewrite Hm in H. by apply elem_of_nil in H. }
  simpl. destruct Hm as [[Htq Hq]%list_elem_of_filter Hmax]. destruct (can_write a) eqn:Ea; [by apply bool_decide_eq_true in Ea|].
  exfalso. apply (with_depths_elem _ _ _ (set_depths _ _ _ _ _ Hs)) in Hq as [Hq Hd]. simpl in *.
  apply resolved_elem in Hq as (e & He & <- & Hq & Hc).
  destruct (not_narrowing_shadowed p ctx t r ds e q d) as [Hread (q' & d' & Hin' & Ht' & Hle)]; try done.
  { apply not_true_is_false. intros Hne. apply not_true_iff_false in Hn. apply Hn, existsb_exists. exists e.
    by rewrite <-list_elem_of_In. }
  assert (key_leb (q', Write, d') (q, access e, d) = true) as Hk'%key_leb_spec by by apply Hmax, list_elem_of_filter.
  rewrite Hread in Hk'. simpl in Hk'. lia.
Qed.

End full_disk.

Section protection.
Context {P : Type} `{!Url P}.
Implicit Types (p : FileSystemSandboxPolicy P) (ctx : FileSystemSandboxPolicyContext P) (t root q : P).

(** ** Metadata directories *)
(** [q] is a metadata directory of a writable root of the policy. *)
Definition protects p ctx (q : P) (name : str) : Prop :=
  ∃ root, (root, Write) ∈ resolved_entries p ctx ∧ name ∈ PROTECTED_METADATA_PATH_NAMES
          ∧ join_descendant root name = Ok q.

Lemma protected_by_spec t root :
  match protected_by t root with
  | Some (q, name) => name ∈ PROTECTED_METADATA_PATH_NAMES ∧ join_descendant root name = Ok q ∧ uri_starts_with t q = true
  | None => ∀ q name, name ∈ PROTECTED_METADATA_PATH_NAMES → join_descendant root name = Ok q → uri_starts_with t q = false
  end.
Proof.
  unfold protected_by. generalize PROTECTED_METADATA_PATH_NAMES. intros ns. induction ns as [|n ns IH].
  { simpl. intros q name H. by apply elem_of_nil in H. }
  cbn [omap list_omap]. destruct (join_descendant root n) as [q| |] eqn:Ej; cbn [ok_opt fmap option_fmap option_map].
  - cbn [find_first fst]. destruct (uri_starts_with t q) eqn:Et; [by split_and!; [left|..]|].
    destruct (find_first _ _) as [[q' n']|].
    + destruct IH as (? & ? & ?). by split_and!; [right|..].
    + intros q' n' [->|Hn]%elem_of_cons Hj; [congruence|by eapply IH].
  - destruct (find_first _ _) as [[q' n']|].
    + destruct IH as (? & ? & ?). by split_and!; [right|..].
    + intros q' n' [->|Hn]%elem_of_cons Hj; [congruence|by eapply IH].
  - destruct (find_first _ _) as [[q' n']|].
    + destruct IH as (? & ? & ?). by split_and!; [right|..].
    + intros q' n' [->|Hn]%elem_of_cons Hj; [congruence|by eapply IH].
Qed.
Lemma first_protected_spec t es :
  match first_protected t es with
  | Some (q, name) => uri_starts_with t q = true ∧ name ∈ PROTECTED_METADATA_PATH_NAMES
                      ∧ ∃ root, (root, Write) ∈ es ∧ join_descendant root name = Ok q
  | None => ∀ root q name, (root, Write) ∈ es → name ∈ PROTECTED_METADATA_PATH_NAMES →
              join_descendant root name = Ok q → uri_starts_with t q = false
  end.
Proof.
  induction es as [|[root a] es IH]; cbn [first_protected].
  { intros root q name H. by apply elem_of_nil in H. }
  destruct (can_write a) eqn:Ea.
  - apply bool_decide_eq_true in Ea as ->. pose proof (protected_by_spec t root) as Hp.
    destruct (protected_by t root) as [[q name]|].
    + destruct Hp as (? & ? & ?). split_and!; [done..|]. exists root. by split; [left|].
    + destruct (first_protected t es) as [[q name]|].
      * destruct IH as (? & ? & root' & ? & ?). split_and!; [done..|]. exists root'. by split; [right|].
      * intros root' q name [[= ->]|Hin]%elem_of_cons Hn Hj; [by eapply Hp|by eapply IH].
  - apply bool_decide_eq_false in Ea. destruct (first_protected t es) as [[q name]|].
    + destruct IH as (? & ? & root' & ? & ?). split_and!; [done..|]. exists root'. by split; [right|].
    + intros root' q name [[= -> <-]|Hin]%elem_of_cons Hn Hj; [done|by eapply IH].
Qed.

(** C23: unless the policy grants the whole disk, a path inside a metadata directory
    ([.git], [.agents], [.codex], [.aws]) of a writable root is not writable,
    whatever the entries say, as long as no writable entry reaches into such a
    directory that contains the path; the denial names a metadata directory that
    contains it. *)
Theorem metadata_stays_protected p ctx t q name :
  kind p = Restricted → has_full_disk_write_access_with_context p ctx = false →
  protects p ctx q name → uri_starts_with t q = true →
  (∀ w q' name', (w, Write) ∈ resolved_entries p ctx → uri_starts_with t w = true →
                 protects p ctx q' name' → uri_starts_with t q' = true → uri_starts_with w q' = false) →
  can_write_path p t ctx = false
  ∧ ∃ name' q', metadata_write_denial p t ctx = Some name' ∧ protects p ctx q' name' ∧ uri_starts_with t q' = true.
Proof.
  intros Hk Hf (root & Hroot & Hname & Hj) Ht Hno.
  assert (∃ name' q', metadata_write_denial p t ctx = Some name' ∧ protects p ctx q' name' ∧ uri_starts_with t q' = true) as Hd.
  2:{ split; [|done]. destruct Hd as (name' & _ & Hd & _). unfold can_write_path. rewrite Hf, Hd. by destruct (negb _). }
  unfold metadata_write_denial, is_restricted. rewrite Hk. rewrite bool_decide_true by done. cbn [negb].
  pose proof (first_protected_spec t (resolved_entries p ctx)) as Hp.
  destruct (first_protected t (resolved_entries p ctx)) as [[q' name']|].
  - destruct Hp as (Ht' & Hn' & root' & Hr' & Hj'). cbn [mbind option_bind].
    assert (protects p ctx q' name') as Hpr by by exists root'.
    exists name', q'. split; [|done]. destruct (existsb _ _) eqn:Ee; [|done].
    apply existsb_exists in Ee as ([w a] & Hw%list_elem_of_In & Hc). simpl in Hc.
    apply andb_true_iff in Hc as [[->%bool_decide_eq_true Htw]%andb_true_iff Hwq]. by rewrite (Hno w q' name') in Hwq.
  - by rewrite (Hp root q name) in Ht.
Qed.

(** ** Symbolic entries *)
(** A subpath that stays below the root it is joined to: relative, without the
    names [.] and [..], and without a colon in a name on Windows. *)
Definition plain_subpath (c : PathConvention) (s : str) : Prop :=
  head s ≠ Some SLASH ∧ (c = Windows → head s ≠ Some BACKSLASH)
  ∧ Forall (λ n, n ≠ DOT ∧ n ≠ DOTDOT ∧ (c = Windows → COLON ∉ n)) (convention_segments c s).
(** The place a symbolic entry names at a root. *)
Definition scoped root (subpath : option str) q : Prop :=
  match subpath with
  | None => q = root
  | Some s => ∃ c, infer_path_convention root = Some c ∧ plain_subpath c s ∧ uri_join root s = Ok q
                   ∧ uri_starts_with q root = true
  end.
Definition glob_directory root : Prop :=
  ∃ c, infer_path_convention root = Some c ∧ validate_glob_directory root c = Ok tt.
(** What a symbolic entry becomes at a root: the place it names, or a glob below
    it, with the access of the entry; where there is no such place, an entry that
    grants no writes becomes a denial of the whole root, and one that does becomes
    nothing. *)
Definition materialized root (e e' : FileSystemSandboxEntry P) : Prop :=
  ∃ subpath is_glob, symbolic (path e) = Some (subpath, is_glob)
  ∧ missing_path_behavior e' = missing_path_behavior e
  ∧ ((∃ q, scoped root subpath q ∧ (is_glob = true → glob_directory root) ∧ access e' = access e
           ∧ path e' = if is_glob then GlobPattern (inferred_native_path_string q) else PathEntry q)
     ∨ ((∀ q, ¬ scoped root subpath q) ∨ is_glob = true ∧ ¬ glob_directory root)
       ∧ can_write (access e) = false ∧ path e' = PathEntry root ∧ access e' = Deny).
(** A denial of a directory of the user's home, which no workspace root can place. *)
Definition home_subpath (c : PathConvention) (s : str) : Prop :=
  s = [TILDE] ∨ ∃ r, s = TILDE :: SLASH :: r ∨ c = Windows ∧ s = TILDE :: BACKSLASH :: r.
Definition denies_home (roots : list P) (e : FileSystemSandboxEntry P) : Prop :=
  access e = Deny ∧ ∃ s is_glob root c, symbolic (path e) = Some (Some s, is_glob) ∧ root ∈ roots
    ∧ infer_path_convention root = Some c ∧ home_subpath c s.

Lemma starts_with_head s ch : starts_with s [ch] = false ↔ head s ≠ Some ch.
Proof.
  rewrite <-not_true_iff_false, starts_with_spec. destruct s as [|x s]; simpl.
  - split; [done|]. by intros _ [r Hr].
  - split; [intros H [= ->]; apply H; by exists s|]. intros H [r [= -> ->]]. done.
Qed.
Lemma resolve_scoped_spec root s q :
  resolve_scoped_workspace_path root s = Some q ↔ scoped root (Some s) q.
Proof.
  unfold resolve_scoped_workspace_path, scoped, plain_subpath.
  destruct (infer_path_convention root) as [c|]; cbn [mbind option_bind]; [|naive_solver].
  set (bad := _ || _).
  assert (bad = false ↔ head s ≠ Some SLASH ∧ (c = Windows → head s ≠ Some BACKSLASH)
    ∧ Forall (λ n, n ≠ DOT ∧ n ≠ DOTDOT ∧ (c = Windows → COLON ∉ n)) (convention_segments c s)) as Hbad.
  { unfold bad. rewrite !orb_false_iff, starts_with_head.
    assert (∀ f : str → bool, existsb f (convention_segments c s) = false
      ↔ Forall (λ n, f n = false) (convention_segments c s)) as Hex.
    { intros f. rewrite <-not_true_iff_false, existsb_exists, Forall_forall. split.
      - intros H n Hn. apply not_true_is_false. intros Hf. apply H. exists n. by rewrite <-list_elem_of_In.
      - intros H (n & Hn%list_elem_of_In & Hf). by rewrite H in Hf. }
    assert (∀ n, (str_eqb n (lit ".") || str_eqb n (lit "..")) = false ↔ n ≠ DOT ∧ n ≠ DOTDOT) as Hdot.
    { intros n. rewrite orb_false_iff, <-!not_true_iff_false, !str_eqb_eq. done. }
    rewrite !andb_false_iff, !Hex, starts_with_head, !bool_decide_eq_false, !Forall_forall.
    setoid_rewrite Hdot. unfold contains_char. setoid_rewrite bool_decide_eq_false.
    destruct (decide (c = Windows)); naive_solver. }
  destruct bad.
  - split; [done|]. intros (c' & [= <-] & Hp & _). by apply Hbad in Hp.
  - destruct (uri_join root s) as [x| |]; cbn [ok_opt mbind option_bind]; [|naive_solver..].
    destruct (uri_starts_with x root) eqn:E; [|split; [done|]; intros (c' & _ & _ & [= ->] & ?); congruence]. split.
    + intros [= ->]. exists c. split_and!; try done; by apply Hbad.
    + by intros (c' & _ & _ & [= ->] & _).
Qed.
Lemma glob_directory_dec root :
  is_none_or (λ c, negb (is_ok (validate_glob_directory root c))) (infer_path_convention root) = false
  ↔ glob_directory root.
Proof.
  unfold glob_directory. destruct (infer_path_convention root) as [c|]; simpl.
  2:{ split; [done|]. by intros (c & [=] & _). }
  rewrite negb_false_iff. split.
  - intros H. exists c. split; [done|]. by destruct (validate_glob_directory root c) as [[]| |].
  - by intros (c' & [= <-] & ->).
Qed.
Lemma materialize_entry_spec e subpath is_glob root e' :
  symbolic (path e) = Some (subpath, is_glob) →
  materialize_entry e subpath is_glob root = Some e' ↔ materialized root e e'.
Proof.
  intros Hs. unfold materialize_entry.
  set (target := if is_glob && _ then None else _).
  assert (∀ q, target = Some q ↔ scoped root subpath q ∧ (is_glob = true → glob_directory root)) as Ht.
  { intros q. unfold target. destruct subpath as [s|]; [rewrite <-resolve_scoped_spec|];
      (destruct is_glob; cbn [andb]; [|simpl; naive_solver]);
      rewrite <-glob_directory_dec; destruct (is_none_or _ _); simpl; naive_solver. }
  assert (target = None ↔ (∀ q, ¬ scoped root subpath q) ∨ is_glob = true ∧ ¬ glob_directory root) as Hn.
  { unfold target. destruct subpath as [s|].
    - destruct is_glob; cbn [andb].
      + rewrite <-glob_directory_dec. destruct (is_none_or _ _); [naive_solver|]. split.
        * intros E. left. intros q. by rewrite <-resolve_scoped_spec, E.
        * intros [H|[_ []]]; [|done]. destruct (resolve_scoped_workspace_path root s) as [q|] eqn:E; [|done].
          apply resolve_scoped_spec in E. by destruct (H q).
      + split.
        * intros E. left. intros q. by rewrite <-resolve_scoped_spec, E.
        * intros [H|[[=] _]]. destruct (resolve_scoped_workspace_path root s) as [q|] eqn:E; [|done].
          apply resolve_scoped_spec in E. by destruct (H q).
    - rewrite <-glob_directory_dec. destruct is_glob, (is_none_or _ _); simpl; naive_solver. }
  unfold materialized. clearbody target. destruct target as [q|]; cbn [mbind option_bind].
  - destruct (proj1 (Ht q) eq_refl) as [Hq Hg]. split.
    + intros [= <-]. exists subpath, is_glob. split_and!; [done..|]. left. exists q. by split_and!.
    + intros (s' & g' & Hs' & Hm & H). rewrite Hs in Hs'. injection Hs' as <- <-.
      destruct H as [(q' & H1 & H2 & H3 & H4)|[H _]]; [|by apply Hn in H].
      assert (Some q = Some q') as [= ->] by by apply Ht. destruct e'; simpl in *. congruence.
  - pose proof (proj1 Hn eq_refl) as Hno. split.
    + destruct (can_write (access e)) eqn:Ew; [done|]. intros [= <-]. exists subpath, is_glob. split_and!; [done..|]. by right.
    + intros (s' & g' & Hs' & Hm & H). rewrite Hs in Hs'. injection Hs' as <- <-.
      destruct H as [(q' & H1 & H2 & _)|(_ & Hw & Hp & Ha)]; [by assert (None = Some q') by by apply Ht|].
      rewrite Hw. cbn [mbind option_bind]. destruct e'; simpl in *. congruence.
Qed.
Lemma materialized_total root e :
  symbolic (path e) ≠ None → can_write (access e) = false → ∃ e', materialized root e e'.
Proof.
  intros Hs Hw. destruct (symbolic (path e)) as [[s g]|] eqn:Es; [|done].
  destruct (materialize_entry e s g root) as [e'|] eqn:Em; [exists e'; by eapply materialize_entry_spec|].
  exfalso. unfold materialize_entry in Em. revert Em. rewrite Hw.
  set (target := if g && _ then None else _). by destruct target.
Qed.
Lemma home_denial_spec e subpath is_glob roots :
  symbolic (path e) = Some (subpath, is_glob) → home_denial e subpath roots = true ↔ denies_home roots e.
Proof.
  intros Hs. unfold home_denial, denies_home. rewrite andb_true_iff, bool_decide_eq_true.
  assert (∀ c s, is_some (home_relative_suffix c s) = true ↔ home_subpath c s) as Hh.
  { intros c s. unfold home_relative_suffix, home_subpath. destruct (strip_prefix [TILDE] s) as [r|] eqn:E.
    - apply strip_prefix_Some in E as ->. cbn [mbind option_bind app].
      assert ((is_empty r || starts_with r [SLASH] || (bool_decide (c = Windows) && starts_with r [BACKSLASH])) = true
        ↔ r = [] ∨ (∃ x, r = SLASH :: x) ∨ c = Windows ∧ ∃ x, r = BACKSLASH :: x) as Hr.
      { rewrite !orb_true_iff, andb_true_iff, bool_decide_eq_true, !starts_with_spec. destruct r; simpl; naive_solver. }
      destruct (_ || _); simpl.
      + split; [intros _|done]. destruct (proj1 Hr eq_refl) as [->|[[x ->]|[-> [x ->]]]]; [by left|right; exists x; by left|].
        right. exists x. by right.
      + split; [done|]. intros Hx. assert (false = true); [|done]. apply Hr.
        destruct Hx as [[= ->]|(x & [[= ->]|[-> [= ->]]])]; eauto.
    - cbn. split; [done|]. assert (∀ r, s ≠ TILDE :: r) as Hno.
      { intros r ->. pose proof (strip_prefix_app [TILDE] r) as E'. simpl app in E'. congruence. }
      intros [->|(x & [->|[_ ->]])]; by destruct (Hno _ eq_refl). }
  destruct subpath as [s|]; simpl.
  - rewrite existsb_exists. split; intros [Ha H]; (split; [done|]).
    + destruct H as (root & Hr%list_elem_of_In & Hc). destruct (infer_path_convention root) as [c|] eqn:Ec; [|done].
      exists s, is_glob, root, c. split_and!; [done..|]. by apply Hh.
    + destruct H as (s' & g' & root & c & Hs' & Hr & Hc & Hhs). rewrite Hs in Hs'. injection Hs' as <- <-.
      exists root. rewrite <-list_elem_of_In, Hc. split; [done|]. by apply Hh.
  - split; [by intros [_ [=]]|]. intros [_ (s' & g' & root & c & Hs' & _)]. congruence.
Qed.
Lemma materialize_entries_none roots es :
  materialize_entries roots es = None ↔ ∃ e, e ∈ es ∧ denies_home roots e.
Proof.
  induction es as [|e es IH]; cbn [materialize_entries].
  { split; [done|]. by intros (e & ?%elem_of_nil & _). }
  assert (∀ l : option (list (FileSystemSandboxEntry P)), l = None ↔ (∃ x, x ∈ es ∧ denies_home roots x) →
    ¬ denies_home roots e → l = None ↔ ∃ x, x ∈ e :: es ∧ denies_home roots x) as Hcons.
  { intros l -> Hne. split; [intros (x & ? & ?); exists x; by split; [right|]|].
    intros (x & [->|?]%elem_of_cons & ?); [done|eauto]. }
  destruct (symbolic (path e)) as [[s g]|] eqn:Es.
  - pose proof (home_denial_spec e s g roots Es) as Hh. destruct (home_denial e s roots).
    + split; [|done]. intros _. exists e. split; [left|by apply Hh].
    + rewrite fmap_None. apply Hcons; [done|]. intros H. by apply Hh in H.
  - rewrite fmap_None. apply Hcons; [done|]. intros (_ & s & g & root & c & Hs & _). congruence.
Qed.
Lemma materialize_entries_spec roots es es' :
  materialize_entries roots es = Some es' →
  ∀ e', e' ∈ es' ↔ e' ∈ es ∧ symbolic (path e') = None
                   ∨ ∃ e root, e ∈ es ∧ root ∈ roots ∧ materialized root e e'.
Proof.
  revert es'. induction es as [|e es IH]; intros es'; cbn [materialize_entries].
  { intros [= <-] e'. split; [by intros ?%elem_of_nil|]. by intros [[?%elem_of_nil _]|(e & root & ?%elem_of_nil & _)]. }
  destruct (symbolic (path e)) as [[subpath is_glob]|] eqn:Es.
  - destruct (home_denial e subpath roots); [done|]. destruct (materialize_entries roots es) as [l|]; [|done].
    intros [= <-] e'. rewrite elem_of_app, (IH l eq_refl e'), list_elem_of_omap.
    setoid_rewrite (materialize_entry_spec e subpath is_glob _ _ Es). setoid_rewrite elem_of_cons. split.
    + intros [(root & Hr & Hm)|[[? ?]|(e0 & root & ? & ? & ?)]]; [right; exists e, root; auto|left; auto|right; exists e0, root; auto].
    + intros [[[->|?] Hs]|(e0 & root & [->|He] & Hr & Hm)]; [congruence|right; left; auto|left; eauto|right; right; eauto].
  - destruct (materialize_entries roots es) as [l|]; [|done]. intros [= <-] e'.
    rewrite elem_of_cons, (IH l eq_refl e'). setoid_rewrite elem_of_cons. split.
    + intros [->|[[? ?]|(e0 & root & ? & ? & ?)]]; [left; auto|left; auto|right; exists e0, root; auto].
    + intros [[[->|?] Hs]|(e0 & root & [->|He] & Hr & Hm)]; [by left|right; left; auto| |right; right; eauto].
      destruct Hm as (s & g & Hs & _). congruence.
Qed.

(** C24: making the symbolic workspace entries concrete.  If an entry denies a
    directory of the user's home by a path that no workspace root can place,
    everything is cleared.  Otherwise the entries of the result are exactly the
    concrete ones and, at every workspace root, what each symbolic entry becomes
    there: the place its subpath names below the root (or a glob there) with the
    same access; where the subpath does not stay below the root, or the root cannot
    carry a glob, a grant of writes is dropped and any other entry becomes a denial
    of the whole root.  So nothing is granted outside the workspace, and an entry
    that is not writable leaves its mark at every root. *)
Theorem materialization_keeps_restrictions p roots :
  let r := materialize_project_roots_with_path_uris p roots in
  ((∃ e, e ∈ entries p ∧ denies_home roots e) → kind r = Restricted ∧ entries r = [])
  ∧ ((∀ e, e ∈ entries p → ¬ denies_home roots e) →
     kind r = kind p
     ∧ (∀ e', e' ∈ entries r ↔ e' ∈ entries p ∧ symbolic (path e') = None
          ∨ ∃ e root, e ∈ entries p ∧ root ∈ roots ∧ materialized root e e')
     ∧ (∀ e root, e ∈ entries p → symbolic (path e) ≠ None → root ∈ roots → can_write (access e) = false →
          ∃ e', e' ∈ entries r ∧ materialized root e e')).
Proof.
  cbv zeta. unfold materialize_project_roots_with_path_uris.
  pose proof (materialize_entries_none roots (entries p)) as Hnone.
  destruct (materialize_entries roots (entries p)) as [es|] eqn:E.
  - split; [by intros H%Hnone|]. intros _. pose proof (materialize_entries_spec _ _ _ E) as Hin.
    split; [done|]. split; [done|]. intros e root He Hs Hr Hw.
    destruct (materialized_total root e Hs Hw) as (e' & Hm). exists e'. split; [|done]. apply Hin. right. eauto.
  - split; [done|]. intros H. destruct (proj1 Hnone eq_refl) as (e & He & Hd). by destruct (H e He).
Qed.
End protection.

Section denials.
Context {P G : Type} `{!Url P} `{!GlobCrate G}.
Implicit Types (p : FileSystemSandboxPolicy P) (ctx : FileSystemSandboxPolicyContext P) (t root q : P).

(** ** Denials that survive a change of policy *)
Lemma entry_eqb_refl (e : FileSystemSandboxEntry P) : entry_eqb e e = true.
Proof.
  unfold entry_eqb. rewrite !bool_decide_true, !andb_true_r by done. destruct (path e); simpl.
  - unfold uri_eqb, url_eqb. by rewrite str_eqb_refl.
  - apply str_eqb_refl.
  - by apply bool_decide_true.
Qed.
Lemma add_deny_entries_spec denied es :
  (∀ e : FileSystemSandboxEntry P, e ∈ es → e ∈ add_deny_entries denied es)
  ∧ (∀ d, d ∈ denied → ∃ e, e ∈ add_deny_entries denied es ∧ entry_eqb e d = true)
  ∧ (∀ e, e ∈ add_deny_entries denied es → e ∈ es ∨ e ∈ denied).
Proof.
  revert es. induction denied as [|d denied IH]; intros es; cbn [add_deny_entries].
  { split_and!; [done| |by left]. intros d Hd. by apply elem_of_nil in Hd. }
  set (es' := if existsb _ es then es else es ++ [d]). destruct (IH es') as (H1 & H2 & H3).
  assert (∀ e, e ∈ es → e ∈ es') as Hsub.
  { intros e He. unfold es'. case_match; [done|]. apply elem_of_app. by left. }
  split_and!.
  - auto.
  - intros d' [->|Hd]%elem_of_cons; [|auto]. unfold es' in *. destruct (existsb _ es) eqn:Ee.
    + apply existsb_exists in Ee as (e & He%list_elem_of_In & Heq). exists e. split; [by apply H1|done].
    + exists d. split; [|apply entry_eqb_refl]. apply H1, elem_of_app. right. by left.
  - intros e [He|He]%H3; [|right; by right]. unfold es' in He. case_match; [by left|].
    apply elem_of_app in He as [?| ->%list_elem_of_singleton]; [by left|right; left].
Qed.

(** A policy that replaces another keeps every denial of it, unless an external
    sandbox enforces it: an unrestricted policy that inherits denials becomes a
    restricted one that writes to the whole disk, and nothing else is added. *)
Theorem denials_survive_replacement (existing self : FileSystemSandboxPolicy P) :
  let r := preserve_deny_read_restrictions_from existing self in
  (∀ e, e ∈ entries r → e ∈ entries self ∨ access e = Deny ∧ e ∈ entries existing
                        ∨ kind self = Unrestricted ∧ e = new_entry (Special Root) Write)
  ∧ (kind self ≠ ExternalSandbox → ∀ d, d ∈ entries existing → access d = Deny →
     kind r = Restricted ∧ ∃ e, e ∈ entries r ∧ entry_eqb e d = true)
  ∧ (∀ e, e ∈ entries self → kind self ≠ Unrestricted → e ∈ entries r).
Proof.
  cbv zeta. unfold preserve_deny_read_restrictions_from, is_restricted.
  set (denying := existsb _ (entries existing)).
  assert (∀ d, d ∈ entries existing → access d = Deny → denying = true ∧ d ∈ deny_entries existing) as Hdeny.
  { intros d Hd Ha. split; [|by apply list_elem_of_filter]. apply existsb_exists. exists d.
    rewrite Ha, <-list_elem_of_In. by split; [|apply bool_decide_true]. }
  assert (∀ d, d ∈ deny_entries existing → access d = Deny ∧ d ∈ entries existing) as Hdeny'.
  { intros d Hd. by apply list_elem_of_filter in Hd. }
  destruct (kind self) eqn:Ek; cbn [bool_decide].
  - rewrite (bool_decide_false (Restricted = Unrestricted)) by done. cbn [andb]. rewrite Ek.
    rewrite bool_decide_true by done. cbn [negb kind entries].
    destruct (add_deny_entries_spec (deny_entries existing) (entries self)) as (H1 & H2 & H3). split_and!.
    + intros e [He|He]%H3; [by left|]. right; left. auto.
    + intros _ d Hd Ha. split; [done|]. apply H2. by apply Hdeny.
    + auto.
  - rewrite (bool_decide_true (Unrestricted = Unrestricted)) by done. cbn [andb]. destruct denying eqn:Ed.
    + cbn [kind restricted entries]. rewrite bool_decide_true by done. cbn [negb kind entries].
      destruct (add_deny_entries_spec (deny_entries existing) [new_entry (Special Root) Write]) as (H1 & H2 & H3). split_and!.
      * intros e [->%list_elem_of_singleton|He]%H3; [by right; right|right; left; auto].
      * intros _ d Hd Ha. split; [done|]. apply H2. by apply Hdeny.
      * done.
    + rewrite Ek. rewrite bool_decide_false by done. cbn [negb]. split_and!; [by left| |done].
      intros _ d Hd Ha. by destruct (Hdeny d Hd Ha).
  - rewrite (bool_decide_false (ExternalSandbox = Unrestricted)) by done. cbn [andb]. rewrite Ek.
    rewrite bool_decide_false by done. cbn [negb]. split_and!; [by left|done|done].
Qed.

(** ** Denials that hide *)
Lemma build_matchers_closed c patterns ms b :
  ∃ ms' b', build_matchers (G := G) FailClosed c patterns ms b = inr (ms', b')
            ∧ (b = true ∨ (∃ g err, g ∈ patterns ∧ build_glob_matcher (G := G) g c = inl err) → b' = true).
Proof.
  revert ms b. induction patterns as [|g patterns IH]; intros ms b; cbn [build_matchers].
  { exists ms, b. split; [done|]. intros [?|(g & _ & Hg & _)]; [done|]. by apply elem_of_nil in Hg. }
  destruct (build_glob_matcher g c) as [err|m] eqn:Eg.
  - destruct (IH ms true) as (ms' & b' & E & H). exists ms', b'. split; [done|]. intros _. apply H. by left.
  - destruct (IH (ms ++ [m]) b) as (ms' & b' & E & H). exists ms', b'. split; [done|]. intros [?|(g' & err & Hg & He)].
    + apply H. by left.
    + apply elem_of_cons in Hg as [->|Hg]; [congruence|]. apply H. right. eauto.
Qed.

Implicit Types (m : PreparedReadDenyMatcher P G).
Lemma matches_incomparable m ctx t : ¬ comparable ctx t → matches_prepared_read_deny t ctx m = true.
Proof.
  intros Hn. unfold matches_prepared_read_deny. destruct (infer_path_convention (cwd ctx)) as [c|] eqn:Hc; [|done].
  case_bool_decide as Ht; [|done]. destruct (lexical_depth t) eqn:Hdt; [|done].
  destruct (lexical_depth (cwd ctx)) eqn:Hdc; [|done]. destruct Hn. exists c. split_and!; eauto.
Qed.
Lemma matches_invalid m ctx t : invalid_pattern m = true → matches_prepared_read_deny t ctx m = true.
Proof.
  intros Hm. unfold matches_prepared_read_deny. destruct (infer_path_convention (cwd ctx)); [|done].
  rewrite Hm. by destruct (_ || _).
Qed.
Lemma matches_root m ctx t root :
  root ∈ denied_roots m → uri_starts_with t root = true → matches_prepared_read_deny t ctx m = true.
Proof.
  intros Hr Ht. unfold matches_prepared_read_deny. destruct (infer_path_convention (cwd ctx)); [|done].
  destruct (_ || _); [done|]. destruct (invalid_pattern m); [done|].
  rewrite (proj2 (existsb_exists _ (denied_roots m))); [done|]. exists root. by rewrite <-list_elem_of_In.
Qed.

(** C25: a policy with a deny entry always has a matcher, since a pattern that does
    not resolve or compile makes it deny everything; the matcher hides every path
    at or below a denied root other than the root of the file system, and every
    path that it cannot compare with the working directory. *)
Theorem read_denials_fail_closed p ctx :
  (∃ d, d ∈ entries p ∧ access d = Deny) →
  ∃ m : PreparedReadDenyMatcher P G, from_context p ctx = Some m
  ∧ (∀ root t, (root, Deny) ∈ resolved_entries p ctx → is_file_system_root ctx root = false →
       uri_starts_with t root = true → matches_prepared_read_deny t ctx m = true)
  ∧ ((∃ err, deny_read_globs p ctx = inl err)
     ∨ (∃ c gs g err, infer_path_convention (cwd ctx) = Some c ∧ deny_read_globs p ctx = inr gs ∧ g ∈ gs
                      ∧ build_glob_matcher (G := G) g c = inl err) →
     ∀ t, matches_prepared_read_deny t ctx m = true)
  ∧ (∀ t, ¬ comparable ctx t → matches_prepared_read_deny t ctx m = true).
Proof.
  intros (d & Hd & Ha). unfold from_context.
  rewrite (proj2 (existsb_exists _ (entries p))).
  2:{ exists d. rewrite Ha, <-list_elem_of_In. by split; [|apply bool_decide_true]. }
  unfold prepare_deny_read_matcher.
  set (roots := fst <$> _). assert (∀ root, (root, Deny) ∈ resolved_entries p ctx → is_file_system_root ctx root = false →
    root ∈ roots) as Hroots.
  { intros root Hr Hn. apply list_elem_of_fmap. exists (root, Deny). split; [done|].
    apply list_elem_of_filter. split; [done|]. by apply list_elem_of_filter. }
  destruct (infer_path_convention (cwd ctx)) as [c|] eqn:Hc.
  2:{ eexists. split; [done|]. split_and!; intros; [eapply matches_root; eauto|by apply matches_invalid|by apply matches_incomparable]. }
  destruct (deny_read_globs p ctx) as [err|gs] eqn:Eg.
  { eexists. split; [done|]. split_and!; intros; [eapply matches_root; eauto|by apply matches_invalid|by apply matches_incomparable]. }
  destruct (build_matchers_closed c gs [] false) as (ms & b & -> & Hb). eexists. split; [done|].
  split_and!; [intros; eapply matches_root; eauto| |intros; by apply matches_incomparable].
  intros [[err He]|(c' & gs' & g & err & [= <-] & [= <-] & Hg & He)] t; [done|]. apply matches_invalid, Hb. right. eauto.
Qed.
End denials.
