(* ===== verification/TargetProps.v ===== *)
(** * protocol: what the policies of an executor promise

    An approved command keeps every denial of the policy it relaxes, an accepted
    profile opens nothing that managed requirements deny, and the scan of a
    Windows glob starts at its literal directory. *)
From S2P Require Import Prelude Str Utf8Stream WindowsCommand FileUri NativePath Permissions PermissionsTarget.
From S2P Require Import PermissionsProps.

(** ** Scan bounds *)
Lemma rfind_separator_spec s i :
  rfind_separator s = Some i → ∃ c, s !! i = Some c ∧ is_separator c = true.
Proof.
  revert i. induction s as [|c s IH]; intros i; [done|]. simpl. destruct (rfind_separator s) as [j|].
  - intros [= <-]. by apply IH.
  - destruct (is_separator c) eqn:Ec; [|done]. intros [= <-]. by exists c.
Qed.
Lemma take_position {A} (f : A → bool) (l : list A) :
  Forall (λ x, f x = false) (take (default (length l) (position f l)) l).
Proof.
  induction l as [|x l IH]; [constructor|]. simpl. destruct (f x) eqn:Ex; [constructor|].
  destruct (position f l) as [n|]; simpl in *; by constructor.
Qed.
(** The scan starts at a literal directory: the pattern is that directory, at most
    one separator and the suffix, and no configured depth is exceeded. *)
Lemma windows_scan_splits_the_pattern pattern depth :
  let s := windows_deny_read_glob_scan pattern depth in
  (scan_root s = DOT ∧ pattern_suffix s = pattern
   ∨ Forall (λ c, is_glob_start c = false) (scan_root s)
     ∧ ∃ sep, pattern = scan_root s ++ sep ++ pattern_suffix s ∧ length sep ≤ 1 ∧ Forall (λ c, is_separator c = true) sep)
  ∧ (∀ n, depth = Some n → ∃ m, max_depth s = Some m ∧ m ≤ n).
Proof.
  cbv zeta. unfold windows_deny_read_glob_scan. pose proof (take_position is_glob_start pattern) as Hlit.
  set (first := default (length pattern) (position is_glob_start pattern)) in *.
  destruct (rfind_separator (take first pattern)) as [i|] eqn:Ei.
  2:{ cbn [scan_root pattern_suffix max_depth]. split; [by left|]. intros n ->. case_match; eexists; split; done || lia. }
  destruct (rfind_separator_spec _ _ Ei) as (c & Hc & Hsep).
  cbn [scan_root pattern_suffix max_depth]. split; [right|intros n ->; case_match; eexists; split; done || lia].
  assert (pattern !! i = Some c) as Hp by (by eapply lookup_take_Some in Hc as [Hc _]).
  assert (i < first) as Hlt by (by apply lookup_take_Some in Hc as [_ Hc]).
  split; [by apply Forall_take|]. rewrite take_take. destruct (_ || _).
  - exists []. rewrite Nat.min_l by lia. cbn [app]. split; [by rewrite take_drop|]. split; [simpl; lia|constructor].
  - exists [c]. rewrite Nat.min_l by lia. split; [|split; [simpl; lia|by repeat constructor]].
    rewrite Nat.add_1_r. cbn [app]. by rewrite take_drop_middle.
Qed.

Section targets.
Context {P G : Type} `{!Url P} `{!GlobCrate G}.
Implicit Types (p : FileSystemSandboxPolicy P) (ctx : FileSystemSandboxPolicyContext P).

Lemma entry_eqb_symbolic (e d : FileSystemSandboxEntry P) :
  entry_eqb e d = true → access e = access d ∧ symbolic (path e) = symbolic (path d).
Proof.
  unfold entry_eqb. rewrite !andb_true_iff, !bool_decide_eq_true. intros [[Hp Ha] _]. split; [done|].
  destruct (path e) as [a|g|v], (path d) as [a'|g'|v']; simpl in Hp; try done.
  - by apply str_eqb_eq in Hp as ->.
  - by apply bool_decide_eq_true in Hp as ->.
Qed.
Lemma materialized_deny root (e e' : FileSystemSandboxEntry P) :
  materialized root e e' → access e = Deny → access e' = Deny.
Proof. by intros (s & g & _ & _ & [(q & _ & _ & -> & _)|(_ & _ & _ & ->)]). Qed.

(** The policy that [preserve_deny_read_restrictions_from] starts an approval with. *)
Lemma approved_start p :
  let a := preserve_deny_read_restrictions_from p root_write in
  kind a = Restricted
  ∧ (∀ d, d ∈ entries p → access d = Deny → ∃ e, e ∈ entries a ∧ entry_eqb e d = true)
  ∧ (∀ e, e ∈ entries a → access e = Deny ∧ e ∈ entries p ∨ e = new_entry (Special Root) Write)
  ∧ new_entry (Special Root) Write ∈ entries a.
Proof.
  cbv zeta. unfold preserve_deny_read_restrictions_from, root_write, is_restricted. cbn [kind restricted].
  rewrite (bool_decide_false (Restricted = Unrestricted)) by done. cbn [andb kind].
  rewrite bool_decide_true by done. cbn [negb kind entries].
  destruct (add_deny_entries_spec (deny_entries p) [new_entry (Special Root) Write]) as (H1 & H2 & H3).
  split_and!; [done|..].
  - intros d Hd Ha. apply H2. by apply list_elem_of_filter.
  - intros e [->%list_elem_of_singleton|He]%H3; [by right|left]. by apply list_elem_of_filter in He.
  - apply H1. by left.
Qed.
(** A denial among them is one of the policy, up to the equality of entries. *)
Lemma approved_denials p (Q : FileSystemSandboxEntry P → Prop) :
  (∀ e d, entry_eqb e d = true → Q d → Q e) →
  (∃ e, e ∈ entries (preserve_deny_read_restrictions_from p root_write) ∧ access e = Deny ∧ Q e)
  ↔ ∃ d, d ∈ entries p ∧ access d = Deny ∧ Q d.
Proof.
  intros HQ. destruct (approved_start p) as (_ & Hden & Honly & _). split.
  - intros (e & [[_ He]| ->]%Honly & Ha & Hq); [by exists e|done].
  - intros (d & Hd & Ha & Hq). destruct (Hden d Hd Ha) as (e & He & Heq). exists e. split; [done|].
    split; [|by eapply HQ]. by rewrite (proj1 (entry_eqb_symbolic _ _ Heq)).
Qed.
Lemma grant_metadata_spec (m : option (PreparedReadDenyMatcher P G)) ctx root ns es es' :
  grant_metadata m ctx root ns es = Some es' →
  (∀ e, e ∈ es → e ∈ es')
  ∧ (∀ e, e ∈ es' → e ∈ es ∨ ∃ name q, name ∈ ns ∧ join_descendant root name = Ok q ∧ denied_by m ctx q = false
                                       ∧ e = new_entry (PathEntry q) Write)
  ∧ (∀ name, name ∈ ns → ∃ q, join_descendant root name = Ok q
                              ∧ (denied_by m ctx q = false → new_entry (PathEntry q) Write ∈ es')).
Proof.
  revert es. induction ns as [|name ns IH]; intros es; cbn [grant_metadata].
  { intros [= <-]. split_and!; [done|by left|]. by intros name ?%elem_of_nil. }
  destruct (join_descendant root name) as [q| |] eqn:Ej; [|done|done].
  intros H. destruct (IH _ H) as (H1 & H2 & H3). destruct (denied_by m ctx q) eqn:Ed; split_and!.
  - done.
  - intros e [He|(n & q' & Hn & ?)]%H2; [by left|right]. exists n, q'. by split; [right|].
  - intros n [->|Hn]%elem_of_cons; [|by apply H3]. exists q. by rewrite Ed.
  - intros e He. apply H1, elem_of_app. by left.
  - intros e [He|(n & q' & Hn & ?)]%H2; [|right; exists n, q'; by split; [right|]].
    apply elem_of_app in He as [He| ->%list_elem_of_singleton]; [by left|right].
    exists name, q. by split; [left|].
  - intros n [->|Hn]%elem_of_cons; [|by apply H3]. exists q. split; [done|]. intros _.
    apply H1, elem_of_app. right. by left.
Qed.
Lemma grant_metadata_total (m : option (PreparedReadDenyMatcher P G)) ctx root ns es :
  (∀ name, name ∈ ns → ∃ q, join_descendant root name = Ok q) → ∃ es', grant_metadata m ctx root ns es = Some es'.
Proof.
  revert es. induction ns as [|name ns IH]; intros es Hj; cbn [grant_metadata]; [by eexists|].
  destruct (Hj name) as (q & ->); [left|]. apply IH. intros n Hn. apply Hj. by right.
Qed.
(** When a command is approved: the workspace roots can place every denial, the
    policy that grants the whole disk except for the denials has a strict matcher,
    leaves the root of the file system writable and readable, and the metadata
    directories of the root have names. *)
Record approval p ctx (root : P) (base : FileSystemSandboxPolicy P)
    (m : option (PreparedReadDenyMatcher P G)) : Prop := {
  ap_roots : workspace_roots ctx = [] → ∀ d, d ∈ entries p → access d = Deny → symbolic (path d) = None;
  ap_home : ∀ d, d ∈ entries p → ¬ denies_home (workspace_roots ctx) d;
  ap_base : base = materialize_project_roots_with_path_uris
                     (preserve_deny_read_restrictions_from p root_write) (workspace_roots ctx);
  ap_root : file_system_root ctx = Some root;
  ap_matcher : try_new_with_context base ctx = Ok m;
  ap_write : resolve_access base root ctx = Write;
  ap_read : denied_by m ctx root = false;
  ap_names : ∀ name, name ∈ PROTECTED_METADATA_PATH_NAMES → ∃ q, join_descendant root name = Ok q;
}.

Lemma base_entries p ctx es :
  materialize_entries (workspace_roots ctx) (entries (preserve_deny_read_restrictions_from p root_write)) = Some es →
  materialize_project_roots_with_path_uris (preserve_deny_read_restrictions_from p root_write) (workspace_roots ctx)
  = with_entries es (preserve_deny_read_restrictions_from p root_write).
Proof. intros E. unfold materialize_project_roots_with_path_uris. by rewrite E. Qed.

Lemma home_guard p ctx :
  materialize_entries (workspace_roots ctx) (entries (preserve_deny_read_restrictions_from p root_write)) = None
  ↔ ∃ d, d ∈ entries p ∧ denies_home (workspace_roots ctx) d.
Proof.
  rewrite materialize_entries_none.
  assert (∀ e d : FileSystemSandboxEntry P, entry_eqb e d = true →
    denies_home (workspace_roots ctx) d → denies_home (workspace_roots ctx) e) as HQ.
  { intros e d [Ha Hs]%entry_eqb_symbolic. unfold denies_home. by rewrite Ha, Hs. }
  pose proof (approved_denials p (denies_home (workspace_roots ctx)) HQ) as H. split.
  - intros (e & He & Hd). destruct (proj1 H) as (d & ? & ? & ?); [|by exists d]. exists e. by destruct Hd.
  - intros (d & He & Hd). destruct (proj2 H) as (e & ? & ? & ?); [|by exists e]. exists d. by destruct Hd.
Qed.
Lemma roots_guard p ctx :
  is_empty (workspace_roots ctx)
  && existsb (λ e, is_some (symbolic (path e))) (entries (preserve_deny_read_restrictions_from p root_write)) = false
  ↔ (workspace_roots ctx = [] → ∀ d, d ∈ entries p → access d = Deny → symbolic (path d) = None).
Proof.
  assert (∀ e d : FileSystemSandboxEntry P, entry_eqb e d = true →
    symbolic (path d) ≠ None → symbolic (path e) ≠ None) as HQ.
  { intros e d [_ Hs]%entry_eqb_symbolic. by rewrite Hs. }
  pose proof (approved_denials p (λ e, symbolic (path e) ≠ None) HQ) as H.
  destruct (workspace_roots ctx) as [|]; cbn [is_empty andb]; [|naive_solver].
  rewrite <-not_true_iff_false, existsb_exists. split.
  - intros Hn _ d Hd Ha. destruct (symbolic (path d)) as [x|] eqn:Es; [|done]. destruct Hn.
    destruct (proj2 H) as (e & He & _ & Hse); [by exists d; rewrite Es|]. exists e. rewrite <-list_elem_of_In.
    split; [done|]. by destruct (symbolic (path e)).
  - intros Hall (e & He%list_elem_of_In & Hs). destruct (approved_start p) as (_ & _ & Honly & _).
    destruct (Honly e He) as [[Ha Hp]| ->]; [|done]. by rewrite (Hall eq_refl e Hp Ha) in Hs.
Qed.

(** An approval happens exactly then. *)
Lemma try_approve_spec p ctx r :
  try_approve (G := G) p ctx = Some r →
  ∃ root base m, approval p ctx root base m ∧ kind r = Restricted
    ∧ grant_metadata (G := G) m ctx root PROTECTED_METADATA_PATH_NAMES (entries base) = Some (entries r).
Proof.
  unfold try_approve. destruct (approved_start p) as [Hk _].
  pose proof (home_guard p ctx) as Hhome. pose proof (roots_guard p ctx) as Hroots.
  destruct (_ && _); [done|]. destruct (materialize_entries _ _) as [es|] eqn:Ee; [|done]. cbn [mbind option_bind].
  pose proof (base_entries p ctx es Ee) as Eb.
  destruct (file_system_root ctx) as [root|] eqn:Er; [|done]. cbn [mbind option_bind].
  destruct (try_new_with_context _ ctx) as [m| |] eqn:Em; [|done|done]. cbn [ok_opt mbind option_bind].
  destruct (_ || _) eqn:Eg; [done|]. apply orb_false_iff in Eg as [Hw Hd]. apply negb_false_iff, bool_decide_eq_true in Hw.
  destruct (grant_metadata _ _ _ _ _) as [es'|] eqn:Egm; [|done]. cbn [mbind option_bind].
  intros [= <-]. exists root, (with_entries es (preserve_deny_read_restrictions_from p root_write)), m.
  split; [|by split; [exact Hk|exact Egm]]. split; try done.
  - by apply Hroots.
  - intros d Hin Hdh. assert (Some es = None); [|done]. apply Hhome. eauto.
  - intros name Hn. destruct (grant_metadata_spec _ _ _ _ _ _ Egm) as (_ & _ & H3). destruct (H3 name Hn) as (q & ? & _). eauto.
Qed.
Lemma try_approve_complete p ctx root base (m : option (PreparedReadDenyMatcher P G)) :
  approval p ctx root base m →
  ∃ r, try_approve (G := G) p ctx = Some r ∧ kind r = Restricted
    ∧ grant_metadata (G := G) m ctx root PROTECTED_METADATA_PATH_NAMES (entries base) = Some (entries r).
Proof.
  intros [Hroots Hhome Hbase Hr Hm Hw Hd Hn]. unfold try_approve. destruct (approved_start p) as [Hk _].
  rewrite (proj2 (roots_guard p ctx) Hroots).
  destruct (materialize_entries _ _) as [es|] eqn:Ee.
  2:{ apply home_guard in Ee as (d & Hin & Hdh). by destruct (Hhome d Hin). }
  rewrite (base_entries p ctx es Ee) in Hbase. cbn [mbind option_bind]. rewrite Hr. cbn [mbind option_bind].
  rewrite <-Hbase, Hm. cbn [ok_opt mbind option_bind]. rewrite Hw, Hd. cbn [can_write negb orb].
  destruct (grant_metadata_total m ctx root PROTECTED_METADATA_PATH_NAMES es Hn) as [es' Hg]. rewrite Hg.
  cbn [mbind option_bind negb]. eexists. split; [done|]. rewrite Hbase. by split.
Qed.

Lemma prepared_roots p ctx behavior (m : PreparedReadDenyMatcher P G) root :
  prepare_deny_read_matcher p ctx behavior = inr m →
  (root, Deny) ∈ resolved_entries p ctx → is_file_system_root ctx root = false → root ∈ denied_roots m.
Proof.
  intros Hm Hr Hn. assert (root ∈ fst <$> filter (λ e, is_file_system_root ctx e.1 = false)
    (filter (λ e, e.2 = Deny) (resolved_entries p ctx))) as Hin.
  { apply list_elem_of_fmap. exists (root, Deny). split; [done|]. apply list_elem_of_filter. split; [done|].
    by apply list_elem_of_filter. }
  unfold prepare_deny_read_matcher in Hm. destruct (infer_path_convention (cwd ctx)); [|by injection Hm as <-].
  destruct (deny_read_globs p ctx); [destruct behavior; [by injection Hm as <-|done]|].
  destruct (build_matchers _ _ _ _ _) as [|[ms b]]; [done|]. by injection Hm as <-.
Qed.
(** A denial that resolves to a path is one of those a strict matcher is built for. *)
Lemma resolved_denial_in_context p ctx root :
  kind p = Restricted → (root, Deny) ∈ resolved_entries p ctx → has_context_read_denials p ctx = true.
Proof.
  intros Hk (e & He & Ha & Hp & _)%resolved_elem. unfold has_context_read_denials, is_restricted.
  rewrite Hk, bool_decide_true by done. simpl. apply existsb_exists. exists e. rewrite <-list_elem_of_In. split; [done|].
  rewrite <-Ha, bool_decide_true by done. simpl. apply negb_true_iff. destruct (path e) as [|g|v]; [done|done|].
  destruct v; try done. apply negb_false_iff. apply not_false_is_true. intros Hf. simpl in Hp. rewrite Hf in Hp. by apply elem_of_nil in Hp.
Qed.
Lemma strict_matcher_covers p ctx (m : option (PreparedReadDenyMatcher P G)) root q :
  kind p = Restricted → try_new_with_context p ctx = Ok m →
  (root, Deny) ∈ resolved_entries p ctx → is_file_system_root ctx root = false →
  uri_starts_with q root = true → denied_by m ctx q = true.
Proof.
  intros Hk Hm Hr Hn Hq. unfold try_new_with_context in Hm. rewrite (resolved_denial_in_context p ctx root) in Hm by done.
  cbn [negb] in Hm. destruct (validate_context_paths p ctx); [|done|done]. cbn [mbind res_bind] in Hm.
  destruct (prepare_deny_read_matcher p ctx ReturnError) as [|pm] eqn:Epm; [done|]. cbn in Hm. injection Hm as <-.
  simpl. apply (matches_root pm ctx q root); [by eapply prepared_roots|done].
Qed.
(** The grants of the metadata directories resolve to no further denials. *)
Lemma granted_denials (es : list (FileSystemSandboxEntry P)) p r ctx root :
  (∀ e, e ∈ entries r → access e = Deny → e ∈ es) →
  (root, Deny) ∈ resolved_entries r ctx → (root, Deny) ∈ resolved_entries (with_entries es p) ctx.
Proof.
  intros Hsub (e & He & Ha & Hrest)%resolved_elem. apply resolved_elem. exists e. split; [|done]. by apply Hsub.
Qed.

(** C26: the policy of an approved command.  If an approval is possible, that is the
    workspace roots can place every denial and the root of the file system stays
    writable and readable under the denials, the policy becomes a restricted one
    that grants writes to the whole disk and keeps the denials: each concrete deny
    entry is still there, each symbolic one denies what it names at every workspace
    root, there are no other denials, and the further grants are exactly the
    metadata directories of the root that no denial hides, none of which is at or
    below a denied path.  Otherwise the policy is the original one. *)
Theorem approved_command_keeps_denials p ctx :
  kind p = Restricted →
  let r := for_approved_command (G := G) p ctx in
  (∀ root base m, approval p ctx root base m →
     kind r = Restricted ∧ new_entry (Special Root) Write ∈ entries r
     ∧ (∀ d, d ∈ entries p → access d = Deny → symbolic (path d) = None → ∃ e, e ∈ entries r ∧ entry_eqb e d = true)
     ∧ (∀ d q, d ∈ entries p → access d = Deny → symbolic (path d) ≠ None → q ∈ workspace_roots ctx →
          ∃ d' e, entry_eqb d' d = true ∧ e ∈ entries r ∧ access e = Deny ∧ materialized q d' e)
     ∧ (∀ e, e ∈ entries r → access e = Deny →
          e ∈ entries p ∨ ∃ d q, d ∈ entries p ∧ access d = Deny ∧ q ∈ workspace_roots ctx ∧ materialized q d e)
     ∧ (∀ e, e ∈ entries r → access e ≠ Deny →
          e = new_entry (Special Root) Write
          ∨ ∃ name q, name ∈ PROTECTED_METADATA_PATH_NAMES ∧ join_descendant root name = Ok q
                      ∧ e = new_entry (PathEntry q) Write ∧ denied_by m ctx q = false
                      ∧ ∀ d, (d, Deny) ∈ resolved_entries r ctx → is_file_system_root ctx d = false →
                             uri_starts_with q d = false)
     ∧ (∀ name q, name ∈ PROTECTED_METADATA_PATH_NAMES → join_descendant root name = Ok q →
          denied_by m ctx q = false → new_entry (PathEntry q) Write ∈ entries r))
  ∧ ((∀ root base m, ¬ approval p ctx root base m) → r = p).
Proof.
  intros Hk. cbv zeta. unfold for_approved_command, is_restricted. rewrite Hk, bool_decide_true by done. cbn [negb]. split.
  2:{ intros Hno. destruct (try_approve p ctx) as [r|] eqn:Et; [|done].
      destruct (try_approve_spec p ctx r Et) as (root & base & m & Ha & _). by destruct (Hno root base m). }
  intros root base m Hap. destruct (try_approve_complete p ctx root base m Hap) as (r & -> & Hkr & Hg).
  cbn [default from_option]. unfold id. destruct (grant_metadata_spec _ _ _ _ _ _ Hg) as (G1 & G2 & G3).
  destruct Hap as [_ Hhome Hbase Hroot Hmat _ _ _]. destruct (approved_start p) as (Hka & Hden & Honly & Hrw).
  destruct (materialize_entries (workspace_roots ctx) (entries (preserve_deny_read_restrictions_from p root_write)))
    as [es|] eqn:Ees.
  2:{ apply home_guard in Ees as (d & Hin & Hdh). by destruct (Hhome d Hin). }
  rewrite (base_entries p ctx es Ees) in Hbase. pose proof (materialize_entries_spec _ _ _ Ees) as M.
  assert (entries base = es) as Ebase by by rewrite Hbase. rewrite Ebase in *. split_and!; [done|..].
  - apply G1, M. left. by split.
  - intros d Hd Ha Hs. destruct (Hden d Hd Ha) as (e & He & Heq). exists e. split; [|done]. apply G1, M. left.
    by rewrite (proj2 (entry_eqb_symbolic _ _ Heq)).
  - intros d q Hd Ha Hs Hq. destruct (Hden d Hd Ha) as (d' & Hd' & Heq). destruct (entry_eqb_symbolic _ _ Heq) as [Ha' Hs'].
    destruct (materialized_total q d') as (e & Hm); [by rewrite Hs'|by rewrite Ha', Ha|].
    exists d', e. split_and!; [done| | |done]; [apply G1, M; right; eauto|]. eapply materialized_deny; [exact Hm|congruence].
  - intros e [He|(name & q & _ & _ & _ & ->)]%G2 Ha; [|done].
    apply M in He as [[[[_ ?]| ->]%Honly _]|(d & q & Hd & Hq & Hm)]; [by left|done|right].
    exists d, q. destruct (Honly d Hd) as [[? ?]| ->]; [done|]. by destruct Hm as (s & g & Hs & _).
  - intros e [He|(name & q & Hn & Hj & Hd & ->)]%G2 Hne; [left|right].
    2:{ exists name, q. split_and!; [done..|]. intros d Hdr Hfs. apply not_true_is_false. intros Hq.
        assert (denied_by m ctx q = true) as Hd'; [|by rewrite Hd' in Hd].
        apply (strict_matcher_covers base ctx m d q); [by rewrite Hbase|done| |done|done].
        rewrite Hbase. eapply granted_denials; [|exact Hdr]. by intros e [?|(? & ? & _ & _ & _ & ->)]%G2 ?. }
    apply M in He as [[He _]|(d & q & Hd & _ & Hm)].
    + by destruct (Honly e He) as [[? _]|].
    + destruct (Honly d Hd) as [[Ha _]| ->]; [by apply (materialized_deny _ _ _ Hm) in Ha|].
      by destruct Hm as (s & g & Hs & _).
  - intros name q Hn Hj Hd. destruct (G3 name Hn) as (q' & Hj' & H). rewrite Hj in Hj'. injection Hj' as <-. auto.
Qed.

(** ** Managed denials *)
(** C27: a profile that passes the validation of managed denials has every required
    entry and grants no concrete readable path, in the convention of the working
    directory, at or below a root that restricted requirements deny, other than
    the root of the file system: a denial of [/] hides nothing in the matcher, so
    readable paths below it pass. *)
Theorem accepted_profiles_do_not_reopen_denials p required ctx :
  validate_managed_deny_read (G := G) p required ctx = Ok tt →
  (∀ d, d ∈ entries required → ∃ e, e ∈ entries p ∧ entry_eqb e d = true)
  ∧ (kind required = Restricted →
     ∀ e q root, e ∈ entries p → can_read (access e) = true → path e = PathEntry q →
       infer_path_convention q = infer_path_convention (cwd ctx) →
       (root, Deny) ∈ resolved_entries required ctx → is_file_system_root ctx root = false →
       uri_starts_with q root = false).
Proof.
  unfold validate_managed_deny_read. destruct (new_validator required ctx) as [v| |] eqn:Ev; [|done|done].
  cbn [mbind res_bind]. unfold validate_selected.
  destruct (head (omap _ _)) as [x|] eqn:Eh; [done|]. destruct (existsb _ _) eqn:Em; [done|]. intros _.
  unfold new_validator in Ev. split.
  - intros d Hd. assert (required_entries v = entries required) as Hr.
    { destruct (if has_context_read_denials required ctx then _ else _); simplify_eq/=; done. }
    destruct (existsb (λ x, entry_eqb x d) (entries p)) eqn:Ex.
    + apply existsb_exists in Ex as (e & He%list_elem_of_In & Heq). eauto.
    + exfalso. apply not_true_iff_false in Em. apply Em, existsb_exists. exists d. rewrite <-list_elem_of_In, Hr, Ex. done.
  - intros Hk e q root He Hread Hp Hc Hr Hn. rewrite (resolved_denial_in_context _ _ root) in Ev by done.
    destruct (prepare_deny_read_matcher required ctx ReturnError) as [|m] eqn:Epm; [done|]. cbn in Ev. injection Ev as <-.
    apply not_true_is_false. intros Hst. assert (violating_path {| required_entries := entries required; matcher := Some m |} ctx e = Some q) as Hv.
    { unfold violating_path. rewrite Hp, Hread, bool_decide_true by done. cbn [negb orb denied_by matcher is_some_and].
      rewrite (matches_root m ctx q root); [done|by eapply prepared_roots|done]. }
    assert (q ∈ omap (violating_path {| required_entries := entries required; matcher := Some m |} ctx) (entries p)) as Hin
      by (apply list_elem_of_omap; eauto).
    destruct (omap _ _); [by apply elem_of_nil in Hin|done].
Qed.
End targets.
