(* ===== verification/PathWitness.v ===== *)
(** * path-uri and permissions: concrete URIs and policies

    The theorems on path URIs and file-system policies at concrete inputs of
    [UrlModel], and the corner cases that modelling showed. *)
From S2P Require Import Prelude Str Utf8Stream WindowsCommand FileUri FileUriLaws FileUriProps FileUriOrder.
From S2P Require Import FileUriJoin NativePath NativePathProps UrlModel Permissions PermissionsTarget PermissionsProps TargetProps.

Abbreviation uri s := (L (lit s)).

(** ** Decidable checks of the hypotheses *)
Definition check_ordinary (u : Link) : bool :=
  is_some (parts u) && negb (bool_decide (host_str u = Some (lit "localhost")))
  && negb (contains_char NUL (decode_binary (url_path u))).
Lemma check_ordinary_ok u : check_ordinary u = true → valid u ∧ is_opaque u = false.
Proof.
  unfold check_ordinary. rewrite !andb_true_iff, !negb_true_iff. intros [[Hp Hh%bool_decide_eq_false] Hn%bool_decide_eq_false].
  apply ordinary_valid; [|done|done|done]. cbn. by rewrite Hp.
Qed.
Definition check_lexical (u : Link) : bool :=
  check_ordinary u && negb (existsb (ambiguous (conv u)) (names u)) && forallb (λ s, is_some (url_decode s)) (names u).
Lemma check_lexical_ok u : check_lexical u = true → valid u ∧ lexical u ∧ textual u.
Proof.
  unfold check_lexical. rewrite !andb_true_iff, negb_true_iff. intros [[[Hv Ho]%check_ordinary_ok Hl] Ht].
  split; [done|]. split; [done|]. intros _. apply Forall_forall. intros s Hs. rewrite forallb_forall in Ht. apply Ht.
  by apply list_elem_of_In.
Qed.

(** ** Path URIs *)
Lemma operations_valid_witness :
  returns_valid (uri_join (uri "file:///work/src") (lit "../tests")).
Proof. apply (operations_keep_uris_valid (uri "file:///work/src")). apply check_ordinary_ok. by vm_compute. Defined.
Lemma equality_hash_witness : hash_input (uri "file:///C:/Src") = hash_input (uri "file:///c:/%73rc").
Proof. apply (equality_and_hash_agree (U := Link)). by vm_compute. Defined.
Lemma containment_witness :
  uri_starts_with (uri "file:///C:/Src/main.rs") (uri "file:///C:/%73rc") = true.
Proof.
  destruct (check_lexical_ok (uri "file:///C:/Src/main.rs")) as (V & Lx & T); [by vm_compute|].
  destruct (check_lexical_ok (uri "file:///C:/%73rc")) as (V' & Lx' & T'); [by vm_compute|].
  apply (containment_is_the_prefix_order _ _ V V'); [done..|]. vm_compute. split; [done|]. split; [done|].
  by eexists [_].
Defined.
Lemma ancestors_witness :
  ancestors (uri "file:///C:/a/b") = [uri "file:///C:/a/b"; uri "file:///C:/a"; uri "file:///C:"]
  ∧ Forall (λ a, valid a ∧ uri_starts_with (uri "file:///C:/a/b") a = true) (ancestors (uri "file:///C:/a/b")).
Proof.
  split; [by vm_compute|]. destruct (check_lexical_ok (uri "file:///C:/a/b")) as (V & Lx & T); [by vm_compute|].
  apply (ancestors_lead_to_the_root _ V Lx T).
Defined.
Lemma join_witness :
  ∃ v, uri_join (uri "file:///work/src") (lit "../a b/./x") = Ok v
       ∧ decode_binary <$> names v = [lit "work"; lit "a b"; lit "x"].
Proof.
  destruct (check_ordinary_ok (uri "file:///work/src")) as [V O]; [by vm_compute|].
  destruct (join_resolves_lexically (uri "file:///work/src") (lit "../a b/./x") V O) as [(v & E & _ & _ & _ & _ & Hn) _].
  - exists [lit "work"; lit "src"]. split; [by vm_compute|]. right. split; [done|]. by repeat constructor.
  - done.
  - by apply (bool_decide_unpack _).
  - by vm_compute.
  - by vm_compute.
  - by vm_compute.
  - change (relative_components _ _) with [DOTDOT; lit "a b"; DOT; lit "x"].
    assert (∀ s, bool_decide (scalars s ∧ s ≠ DOT ∧ s ≠ DOTDOT ∧ Forall (λ c, 32 ≤ c ∧ c ≠ 124)%N s) = true → pushable s) as Hp
      by (intros s Hs; by apply bool_decide_eq_true in Hs).
    repeat apply Forall_cons_2; [by right; right; left| |by right; left| |by constructor];
      right; right; right; apply Hp; by vm_compute.
  - exists v. split; [exact E|]. rewrite Hn; [by vm_compute|]. revert E. vm_compute. by intros [= <-].
Defined.
Lemma round_trip_witness :
  ∃ u : Link, to_path_uri (lit "/a/../b c/") Posix = Ok u ∧ from_path_uri u Posix = Ok (lit "/b c/").
Proof.
  destruct (posix_text_round_trip (U := Link) (lit "a/../b c/")) as (u & E & _ & [[Ho _]|(_ & _ & _ & Hr & _)]).
  - by apply (bool_decide_unpack _).
  - by apply (bool_decide_unpack _).
  - assert (∀ s, bool_decide (s = [] ∨ s = DOT ∨ s = DOTDOT ∨ scalars s ∧ s ≠ DOT ∧ s ≠ DOTDOT
              ∧ Forall (λ c, 32 ≤ c ∧ c ≠ 124)%N s) = true → joinable s) as Hp
      by (intros s Hs; by apply bool_decide_eq_true in Hs).
    change (split_by _ _) with [lit "a"; lit ".."; lit "b c"; []].
    by repeat apply Forall_cons_2; try (apply Hp; by vm_compute).
  - exfalso. revert Ho. assert (to_path_uri (lit "/a/../b c/") Posix = Ok u) as E' by exact E. vm_compute in E'.
    injection E' as <-. by vm_compute.
  - exists u. split; [exact E|exact Hr].
Defined.

(** ** Policies *)
Definition demo_ctx : FileSystemSandboxPolicyContext Link :=
  {| cwd := uri "file:///work"; workspace_roots := [uri "file:///work"];
     user_home_dir := Some (uri "file:///home/me"); temporary_directories := None |}.
Abbreviation at_path s a := (new_entry (PathEntry (uri s)) a).
Abbreviation at_special v a := (new_entry (Special v) a).
Definition workspace_policy : FileSystemSandboxPolicy Link :=
  restricted [at_special Root Read; at_special (ProjectRoots None) Write; at_path "file:///work/secret" Deny].
Definition reversed_policy : FileSystemSandboxPolicy Link := restricted (reverse (entries workspace_policy)).

Definition check_sound (p : FileSystemSandboxPolicy Link) (ctx : FileSystemSandboxPolicyContext Link) : bool :=
  forallb (λ x, check_lexical x.1) (resolved_entries p ctx).
Lemma check_sound_ok p ctx : check_sound p ctx = true → sound_entries p ctx ∧ ¬ unclear_entry p ctx.
Proof.
  unfold check_sound. rewrite forallb_forall. intros H.
  assert (∀ q a, (q, a) ∈ resolved_entries p ctx → valid q ∧ lexical q ∧ textual q) as Hq.
  { intros q a Hin. apply check_lexical_ok, (H (q, a)). by apply list_elem_of_In. }
  split; [intros q a Hin; by destruct (Hq q a Hin) as (? & _ & ?)|].
  intros (q & a & Hin & _ & Hu). destruct (Hq q a Hin) as (_ & [_ Hl] & _). congruence.
Qed.

Lemma most_specific_witness :
  resolve_access workspace_policy (uri "file:///work/secret/key") demo_ctx = Deny
  ∧ resolve_access reversed_policy (uri "file:///work/secret/key") demo_ctx = Deny.
Proof.
  assert (resolve_access workspace_policy (uri "file:///work/secret/key") demo_ctx = Deny) as E by by vm_compute.
  split; [exact E|]. rewrite <-E.
  destruct (check_lexical_ok (uri "file:///work/secret/key")) as (V & _ & T); [by vm_compute|].
  destruct (check_sound_ok workspace_policy demo_ctx) as [Hs _]; [by vm_compute|].
  apply (access_is_of_the_most_specific_entry workspace_policy (uri "file:///work/secret/key") demo_ctx); [done..|].
  unfold reversed_policy. cbn [entries restricted]. apply reverse_Permutation.
Defined.

Definition full_disk_policy : FileSystemSandboxPolicy Link :=
  restricted [at_special Root Write; at_path "file:///etc" Read; at_path "file:///etc" Write;
              at_special SlashTmp Read; at_path "file:///%74mp" Write].
(** An entry whose name hides a separator: the shortcut says full-disk access, and
    every path is denied. *)
Lemma escaped_separator_denies_all :
  let p := restricted [at_special Root Write; at_path "file:///a%2Fb" Write] in
  has_full_disk_write_access_with_context p demo_ctx = true
  ∧ resolve_access p (uri "file:///etc/hosts") demo_ctx = Deny.
Proof. by vm_compute. Qed.

Definition git_policy : FileSystemSandboxPolicy Link := restricted [at_special Root Read; at_special (ProjectRoots None) Write].
Lemma metadata_witness : can_write_path git_policy (uri "file:///work/.git/config") demo_ctx = false.
Proof.
  assert (resolved_entries git_policy demo_ctx = [(uri "file:///", Read); (uri "file:///work", Write)]) as Er by by vm_compute.
  assert (∀ q n, protects git_policy demo_ctx q n → q ∈ [uri "file:///work/.git"; uri "file:///work/.agents";
            uri "file:///work/.codex"; uri "file:///work/.aws"]) as Hp.
  { intros q n (root & Hr & Hn & Hj). rewrite Er in Hr. rewrite !elem_of_cons in Hr.
    destruct Hr as [[=]|[[= ->]|Hr]]; [|by apply elem_of_nil in Hr].
    unfold PROTECTED_METADATA_PATH_NAMES in Hn. rewrite !elem_of_cons in Hn.
    destruct Hn as [->|[->|[->|[->|Hn]]]]; [..|by apply elem_of_nil in Hn]; vm_compute in Hj; injection Hj as <-;
      apply (bool_decide_unpack _); by vm_compute. }
  apply (metadata_stays_protected git_policy demo_ctx (uri "file:///work/.git/config") (uri "file:///work/.git") (lit ".git")).
  - done.
  - by vm_compute.
  - exists (uri "file:///work"). split_and!; [rewrite Er; right; left|left|by vm_compute].
  - by vm_compute.
  - intros w q' n' Hw _ Hq _. apply Hp in Hq. rewrite Er in Hw. rewrite !elem_of_cons in Hw.
    destruct Hw as [[=]|[[= ->]|Hw]]; [|by apply elem_of_nil in Hw]. rewrite !elem_of_cons in Hq.
    destruct Hq as [->|[->|[->|[->|Hq]]]]; [..|by apply elem_of_nil in Hq]; by vm_compute.
Defined.

(** Globs that match their own text. *)
#[local] Instance literal_globs : GlobCrate str := {| glob_build _ s := inr s; glob_match g bytes := str_eqb g bytes |}.
Lemma read_denial_witness :
  ∃ m : PreparedReadDenyMatcher Link str, from_context workspace_policy demo_ctx = Some m
    ∧ matches_prepared_read_deny (uri "file:///work/secret/key") demo_ctx m = true.
Proof.
  destruct (read_denials_fail_closed (G := str) workspace_policy demo_ctx) as (m & Hm & Hd & _).
  - exists (at_path "file:///work/secret" Deny). split; [right; right; left|done].
  - exists m. split; [exact Hm|]. apply (Hd (uri "file:///work/secret")); [|by vm_compute..].
    assert (resolved_entries workspace_policy demo_ctx
      = [(uri "file:///", Read); (uri "file:///work", Write); (uri "file:///work/secret", Deny)]) as -> by by vm_compute.
    right; right; left.
Defined.

(** Approved commands and managed denials. *)
Lemma approved_command_witness :
  new_entry (Special Root) Write ∈ entries (for_approved_command (G := str) workspace_policy demo_ctx)
  ∧ ∃ e, e ∈ entries (for_approved_command (G := str) workspace_policy demo_ctx)
         ∧ entry_eqb e (at_path "file:///work/secret" Deny) = true.
Proof.
  pose (base := restricted [at_special Root Write; at_path "file:///work/secret" Deny] : FileSystemSandboxPolicy Link).
  destruct (approved_command_keeps_denials (G := str) workspace_policy demo_ctx eq_refl) as [H _].
  destruct (H (uri "file:///") base
    (Some {| denied_roots := [uri "file:///work/secret"]; deny_read_matchers := []; invalid_pattern := false |}))
    as (_ & Hroot & Hkeep & _).
  - split.
    + intros [=].
    + intros d Hd (Ha & s & g & root & c & Hs & _). unfold workspace_policy in Hd. cbn [entries restricted] in Hd.
      rewrite !elem_of_cons in Hd. destruct Hd as [->|[->|[->|Hd]]]; [..|by apply elem_of_nil in Hd]; done.
    + by vm_compute.
    + by vm_compute.
    + by vm_compute.
    + by vm_compute.
    + by vm_compute.
    + intros name Hn. unfold PROTECTED_METADATA_PATH_NAMES in Hn. rewrite !elem_of_cons in Hn.
      destruct Hn as [->|[->|[->|[->|Hn]]]]; [..|by apply elem_of_nil in Hn]; eexists; by vm_compute.
  - split; [exact Hroot|]. apply Hkeep; [right; right; left|done|done].
Defined.
Definition managed_policy : FileSystemSandboxPolicy Link := restricted [at_path "file:///work/secret" Deny].
Lemma accepted_profile_witness : uri_starts_with (uri "file:///etc") (uri "file:///work/secret") = false.
Proof.
  eapply (accepted_profiles_do_not_reopen_denials (G := str)
    (restricted [at_path "file:///etc" Read; at_path "file:///work/secret" Deny]) managed_policy demo_ctx).
  - by vm_compute.
  - by vm_compute.
  - left.
  - done.
  - done.
  - by vm_compute.
  - assert (resolved_entries managed_policy demo_ctx = [(uri "file:///work/secret", Deny)]) as -> by by vm_compute. left.
  - by vm_compute.
Defined.

(** ** Corner cases *)
(** Only the first writable root whose metadata directory contains the path is
    consulted, so the same two grants allow or deny a write by their order. *)
Definition nested_roots (es : list (FileSystemSandboxEntry Link)) : bool :=
  can_write_path (restricted es) (uri "file:///a/.git/sub/.codex/f") demo_ctx.
Lemma metadata_protection_depends_on_order :
  nested_roots [at_path "file:///a" Write; at_path "file:///a/.git/sub" Write] = true
  ∧ nested_roots [at_path "file:///a/.git/sub" Write; at_path "file:///a" Write] = false.
Proof. by vm_compute. Qed.
(** A read-only drive counts as the root of the file system, whichever drive the
    working directory is on, so the policy passes for full-disk write access. *)
Definition drive_ctx : FileSystemSandboxPolicyContext Link :=
  {| cwd := uri "file:///C:/work"; workspace_roots := []; user_home_dir := None; temporary_directories := None |}.
Definition other_drive_policy : FileSystemSandboxPolicy Link :=
  restricted [at_special Root Write; at_path "file:///D:" Read].
Lemma other_drives_escape_the_full_disk_check :
  has_full_disk_write_access_with_context other_drive_policy drive_ctx = true
  ∧ resolve_access other_drive_policy (uri "file:///D:/x") drive_ctx = Read.
Proof. by vm_compute. Qed.
(** Joining a drive-shaped name to the POSIX root gives a Windows URI. *)
Lemma join_can_change_the_convention :
  infer_path_convention (uri "file:///") = Some Posix
  ∧ uri_join (uri "file:///") (lit "c:/x") = Ok (uri "file:///C:/x")
  ∧ infer_path_convention (uri "file:///C:/x") = Some Windows.
Proof. by vm_compute. Qed.
(** Equal Windows URIs that are not UTF-8 contain different URIs. *)
Lemma containment_can_split_equal_uris :
  uri_eqb (uri "file:///C:/a%FF") (uri "file:///C:/%61%FF") = true
  ∧ uri_starts_with (uri "file:///C:/a%FF/x") (uri "file:///C:/a%FF") = true
  ∧ uri_starts_with (uri "file:///C:/a%FF/x") (uri "file:///C:/%61%FF") = false.
Proof. by vm_compute. Qed.
(** A path that ends in two separators is its own parent, up to them. *)
Lemma parent_can_be_the_same_location :
  parent (uri "file:///a//") = Some (uri "file:///a")
  ∧ uri_starts_with (uri "file:///a") (uri "file:///a//") = true.
Proof. by vm_compute. Qed.
