(* ===== verification/Fmt.v ===== *)
(** * Formatting of numbers

    [format!("{:.d}", x)] for an [f64]: the exact value rounded to [d] decimals,
    ties to the even digit; and [f64::total_cmp]. *)
From Stdlib Require Import ZArith SpecFloat.
From S2P Require Import Prelude Str Float64.

(** The nearest integer to [num / den]. *)
Definition round_half_even (num den : Z) : Z :=
  let q := (num / den)%Z in
  let r := (num mod den)%Z in
  if (den <? 2 * r)%Z || ((den =? 2 * r)%Z && Z.odd q) then (q + 1)%Z else q.
(** [m * 2 ^ e * 10 ^ d], rounded. *)
Definition scaled (d : nat) (m : positive) (e : Z) : Z :=
  let n := (Z.pos m * 10 ^ Z.of_nat d)%Z in
  if (0 <=? e)%Z then (n * 2 ^ e)%Z else round_half_even n (2 ^ (- e)).
(** An integer with its last [d] digits after a point. *)
Definition with_point (d : nat) (n : Z) : str :=
  let s := show_N (Z.to_N n) in
  let s := replicate (S d - length s) 48%N ++ s in
  let k := length s - d in
  take k s ++ match d with 0 => [] | _ => 46%N :: drop k s end.
Definition sign (neg : bool) : str := if neg then [45%N] else [].
Definition fixed (d : nat) (x : f64) : str :=
  match x with
  | S754_nan => lit "NaN"
  | S754_infinity s => sign s ++ lit "inf"
  | S754_zero s => sign s ++ with_point d 0
  | S754_finite s m e => sign s ++ with_point d (scaled d m e)
  end.

Example fixed_half : fixed 0 (ratio 5 2) = lit "2" ∧ fixed 1 (ratio 1 4) = lit "0.2" ∧ fixed 1 (ratio 3 4) = lit "0.8".
Proof. vm_compute. done. Qed.
Example fixed_large : fixed 1 (ratio 1979 10) = lit "197.9" ∧ fixed 0 (ratio (-1) 2) = lit "-0".
Proof. vm_compute. done. Qed.

(** What is printed is a nearest decimal. *)
Lemma round_half_even_near num den :
  (0 < den)%Z → (- den <= 2 * (round_half_even num den * den - num) <= den)%Z.
Proof.
  intros Hd. unfold round_half_even. pose proof (Z.div_mod num den ltac:(lia)) as Hq.
  pose proof (Z.mod_pos_bound num den Hd) as Hr.
  destruct (den <? 2 * (num mod den))%Z eqn:E1; simpl; [apply Z.ltb_lt in E1; nia|]. apply Z.ltb_ge in E1.
  destruct (den =? 2 * (num mod den))%Z eqn:E2; simpl; [|nia]. apply Z.eqb_eq in E2. destruct (Z.odd _); nia.
Qed.

(** ** [total_cmp] *)
Definition total_rank (x : f64) : Z * Z * Z :=
  match x with
  | S754_infinity true => (-3, 0, 0)
  | S754_finite true m e => (-2, - e, - Z.pos m)
  | S754_zero true => (-1, 0, 0)
  | S754_zero false => (0, 0, 0)
  | S754_finite false m e => (1, e, Z.pos m)
  | S754_infinity false => (2, 0, 0)
  | S754_nan => (3, 0, 0)
  end%Z.
Definition triple_leb (a b : Z * Z * Z) : bool :=
  let '(x, y, z) := a in let '(x', y', z') := b in
  ((x <? x') || ((x =? x') && ((y <? y') || ((y =? y') && (z <=? z')))))%Z.
(** [x.total_cmp(&y)] is not [Greater]. *)
Definition total_le (x y : f64) : Prop := triple_leb (total_rank x) (total_rank y) = true.
#[export] Instance total_le_dec x y : Decision (total_le x y).
Proof. unfold total_le. apply _. Defined.

Lemma triple_leb_spec a b :
  triple_leb a b = true ↔
  (a.1.1 < b.1.1 ∨ a.1.1 = b.1.1 ∧ (a.1.2 < b.1.2 ∨ a.1.2 = b.1.2 ∧ a.2 <= b.2))%Z.
Proof.
  destruct a as [[x y] z], b as [[x' y'] z']. simpl.
  rewrite orb_true_iff, andb_true_iff, orb_true_iff, andb_true_iff, !Z.ltb_lt, !Z.eqb_eq, Z.leb_le. done.
Qed.
#[export] Instance total_le_total : Total total_le.
Proof. intros x y. unfold total_le. rewrite !triple_leb_spec. lia. Qed.
#[export] Instance total_le_trans : Transitive total_le.
Proof. intros x y z. unfold total_le. rewrite !triple_leb_spec. lia. Qed.
#[export] Instance total_le_refl : Reflexive total_le.
Proof. intros x. unfold total_le. rewrite triple_leb_spec. lia. Qed.
#[export] Instance f64_eq_dec : EqDecision f64.
Proof. solve_decision. Defined.
