(* ===== verification/KernelAssets.v ===== *)
(** * kernel: the bundled texts of the domain

    The assets of [kernel/src/domain/fixtures] that the feedback
    ([feedback.json]), the analyzers ([analyzers.json]) and the analysis
    ([analysis.json], the metric groups of [profilers.json]) are built from. *)
From Stdlib Require Import ZArith.
From S2P Require Import Prelude Str Float64 Json.

Definition FEEDBACK_ASSETS : Value :=
  Object [
    (lit "templates", Object [
        (lit "error_header", String ([LF] ++ lit "## " ++ [9888%N] ++ [65039%N] ++ lit " Previous Solution Failed" ++ [LF] ++ [LF]
                ++ lit "**Error Type:** {{ error_type }}" ++ [LF] ++ lit "**Error Stage:** {{ stage }}" ++ [LF]));
        (lit "error_summary", String ([LF] ++ lit "**Error Analysis (LLM-summarized root cause):**" ++ [LF] ++ lit "{{ error_summary }}"
                ++ [LF] ++ [LF] ++ lit "**Raw Error (abbreviated):**" ++ [LF] ++ lit "```" ++ [LF]
                ++ lit "{{ error_abbrev }}" ++ [LF] ++ lit "```" ++ [LF]));
        (lit "error_message", String ([LF] ++ lit "**Error Message:**" ++ [LF] ++ lit "```" ++ [LF] ++ lit "{{ error_msg }}" ++ [LF]
                ++ lit "```" ++ [LF]));
        (lit "error_cute", String ([LF] ++ lit "**CuTe Compilation Error Analysis:**" ++ [LF] ++ lit "{{ cute_summary }}" ++ [LF]
                ++ lit "**Full compiler output (last 2000 chars):**" ++ [LF] ++ lit "```" ++ [LF]
                ++ lit "{{ traceback_tail }}" ++ [LF] ++ lit "```" ++ [LF]));
        (lit "error_traceback", String ([LF] ++ lit "**Traceback:**" ++ [LF] ++ lit "```" ++ [LF] ++ lit "{{ traceback_head }}" ++ [LF]
                ++ lit "```" ++ [LF]));
        (lit "error_tail", String ([LF] ++ lit "{{ guidance }}" ++ [LF] ++ [LF] ++ lit "**Your Previous Code (that failed):**" ++ [LF]
                ++ lit "```python" ++ [LF] ++ lit "{{ previous_code }}" ++ [LF] ++ lit "```" ++ [LF] ++ [LF]
                ++ lit "**Task:** Generate a corrected implementation that fixes the specific error above." ++ [LF]
                ++ lit "Focus on addressing: {{ error_msg }}" ++ [LF]));
        (lit "rules", String ([LF] ++ lit "## " ++ [9888%N] ++ [65039%N] ++ lit " NCU RULE ENGINE " ++ [8212%N]
                ++ lit " RANKED BOTTLENECKS (ADDRESS #1 FIRST)" ++ [LF] ++ [LF]
                ++ lit "The following are NVIDIA Nsight Compute's deterministic rule-engine findings, sorted by"
                ++ [LF]
                ++ lit "estimated speedup (highest impact first). These are ground-truth, tool-computed priorities."
                ++ [LF]
                ++ lit "**Fix bottleneck #1 first. Do NOT pursue a lower-ranked lever (e.g. occupancy, pipelining,"
                ++ [LF] ++ lit "mainloop overlap) until #1 is resolved or proven not applicable.**" ++ [LF] ++ [LF]
                ++ lit "{{ ranked }}" ++ [LF]));
        (lit "profile_header", String ([LF] ++ lit "## " ++ [128202%N] ++ lit " Performance Optimization Opportunity" ++ [LF] ++ [LF]
                ++ lit "Your previous solution was **correct** and functional, but profiling with NVIDIA Nsight Compute has identified performance bottlenecks:"
                ++ [LF] ++ lit "{{ rule_block }}" ++ [LF] ++ lit "**Identified Bottleneck:** {{ bottleneck }}"
                ++ [LF] ++ lit "**Severity:** {{ severity }}" ++ [LF] ++ lit "**Priority Score:** {{ priority }}/10"
                ++ [LF] ++ lit "**Estimated Improvement Potential:** {{ improvement }}x speedup" ++ [LF] ++ [LF]
                ++ lit "**Optimization Recommendations:**" ++ [LF] ++ lit "{{ recs_text }}" ++ [LF]));
        (lit "profile_details", String ([LF] ++ lit "**Detailed Analysis:**" ++ [LF] ++ lit "{{ detailed }}" ++ [LF]));
        (lit "profile_tail", String ([LF] ++ lit "**Your Previous Code:**" ++ [LF] ++ lit "```python" ++ [LF] ++ lit "{{ previous_code }}"
                ++ [LF] ++ lit "```" ++ [LF] ++ [LF]
                ++ lit "**Task:** Generate an optimized implementation that addresses these bottlenecks while maintaining correctness."
                ++ [LF] ++ lit "Focus on the highest-priority recommendations to maximize performance improvement."
                ++ [LF]));
        (lit "hint", String ([LF] ++ [LF] ++ lit "## " ++ [129489%N] ++ [8205%N] ++ [65533%N]
                ++ lit " HUMAN EXPERT GUIDANCE (HIGHEST PRIORITY)" ++ [LF] ++ [LF]
                ++ lit "A human expert has reviewed your recent failures and provides this guidance:" ++ [LF]
                ++ [LF] ++ lit "**{{ hint }}**" ++ [LF] ++ [LF] ++ [9888%N] ++ [65039%N]
                ++ lit " This guidance takes PRIORITY over other optimization recommendations." ++ [LF]
                ++ lit "Follow it carefully " ++ [8212%N] ++ lit " the human has identified a pattern the automated"
                ++ [LF] ++ lit "system missed." ++ [LF]));
        (lit "fresh", String ([LF] ++ lit "**Previous Solution Context:**" ++ [LF]
                ++ lit "The following solution was generated but needs a fresh approach:" ++ [LF] ++ [LF]
                ++ lit "```python" ++ [LF] ++ lit "{{ previous_code }}" ++ [LF] ++ lit "```" ++ [LF] ++ [LF]
                ++ lit "**Task:** Generate a new solution with a different optimization strategy." ++ [LF]))]);
    (lit "guidance", Array [
        String ([LF] ++ lit "**This means:** The CUDA kernel executed successfully but produced incorrect results."
              ++ [LF] ++ [LF] ++ lit "**Common causes:**" ++ [LF]
              ++ lit "- Incorrect indexing or stride calculations" ++ [LF]
              ++ lit "- Race conditions (missing `__syncthreads()`)" ++ [LF]
              ++ lit "- Floating-point precision issues" ++ [LF]
              ++ lit "- Wrong reduction logic in parallel operations" ++ [LF]
              ++ lit "- Off-by-one errors in loop bounds" ++ [LF] ++ [LF] ++ lit "**How to fix:**" ++ [LF]
              ++ lit "- Verify your algorithm matches the reference implementation" ++ [LF]
              ++ lit "- Check all array indexing carefully" ++ [LF]
              ++ lit "- Add `__syncthreads()` after shared memory writes" ++ [LF]
              ++ lit "- Ensure proper numerical stability" ++ [LF] ++ lit "- Test with simple inputs first" ++ [LF]);
        String ([LF] ++ lit "**This means:** Memory access is not properly aligned." ++ [LF] ++ [LF]
              ++ lit "**Common causes:**" ++ [LF] ++ lit "- Incorrect pointer arithmetic" ++ [LF]
              ++ lit "- Wrong data type size assumptions" ++ [LF] ++ lit "- Unaligned shared memory declarations"
              ++ [LF] ++ lit "- Improper casting of pointers" ++ [LF] ++ [LF] ++ lit "**How to fix:**" ++ [LF]
              ++ lit "- Use `__align__(N)` directive for shared memory declarations" ++ [LF]
              ++ lit "- Check that pointer arithmetic respects element sizes" ++ [LF]
              ++ lit "- Verify all memory accesses are properly aligned" ++ [LF]
              ++ lit "- Review stride calculations and offsets" ++ [LF]);
        String ([LF] ++ lit "**This means:** Kernel failed to launch or crashed immediately." ++ [LF] ++ [LF]
              ++ lit "**Common causes:**" ++ [LF]
              ++ lit "- Invalid grid/block dimensions (blockDim.x * blockDim.y * blockDim.z > 1024)" ++ [LF]
              ++ lit "- Excessive shared memory usage (> 48KB)" ++ [LF]
              ++ lit "- Too many registers per thread (> 255)" ++ [LF]
              ++ lit "- Invalid kernel parameters or arguments" ++ [LF] ++ [LF] ++ lit "**How to fix:**" ++ [LF]
              ++ lit "- Verify grid and block dimensions are valid" ++ [LF]
              ++ lit "- Reduce shared memory usage or use dynamic allocation" ++ [LF]
              ++ lit "- Simplify kernel to reduce register pressure" ++ [LF]
              ++ lit "- Check all kernel parameters are valid" ++ [LF]
              ++ lit "- Ensure no stack overflow from large local arrays" ++ [LF]);
        String ([LF] ++ lit "**This means:** CUDA encountered a runtime error during execution." ++ [LF] ++ [LF]
              ++ lit "**Common causes:**" ++ [LF] ++ lit "- Out-of-bounds memory accesses" ++ [LF]
              ++ lit "- Division by zero or invalid operations" ++ [LF] ++ lit "- Incorrect synchronization" ++ [LF]
              ++ lit "- Resource exhaustion" ++ [LF] ++ [LF] ++ lit "**How to fix:**" ++ [LF]
              ++ lit "- Add bounds checking for all array accesses" ++ [LF]
              ++ lit "- Verify grid/block dimensions match data size" ++ [LF]
              ++ lit "- Check for NULL pointers or uninitialized memory" ++ [LF]
              ++ lit "- Ensure `__syncthreads()` is not in conditional branches" ++ [LF]);
        String ([LF] ++ lit "**This means:** Python/CUDA code has syntax errors." ++ [LF] ++ [LF]
              ++ lit "**Common causes:**" ++ [LF] ++ lit "- Typos in variable names or keywords" ++ [LF]
              ++ lit "- Missing colons, parentheses, or brackets" ++ [LF] ++ lit "- Incorrect indentation" ++ [LF]
              ++ lit "- Using undefined variables or functions" ++ [LF] ++ lit "- Invalid CUDA syntax" ++ [LF]
              ++ [LF] ++ lit "**How to fix:**" ++ [LF] ++ lit "- Carefully review the line indicated in the error"
              ++ [LF] ++ lit "- Check for basic Python/CUDA syntax correctness" ++ [LF]
              ++ lit "- Ensure all variables are defined before use" ++ [LF]
              ++ lit "- Verify proper indentation (Python is indent-sensitive)" ++ [LF]);
        String ([LF] ++ lit "**This means:** Required module or package could not be imported." ++ [LF] ++ [LF]
              ++ lit "**Common causes:**" ++ [LF] ++ lit "- Missing import statements" ++ [LF]
              ++ lit "- Incorrect module names" ++ [LF] ++ lit "- Package not installed" ++ [LF]
              ++ lit "- Circular import dependencies" ++ [LF] ++ [LF] ++ lit "**How to fix:**" ++ [LF]
              ++ lit "- Add necessary import statements" ++ [LF] ++ lit "- Verify module names are correct" ++ [LF]
              ++ lit "- Check package availability" ++ [LF] ++ lit "- Review import order" ++ [LF]);
        String ([LF] ++ lit "**General Error:** Review the error message and traceback carefully." ++ [LF] ++ [LF]
              ++ lit "**How to fix:**" ++ [LF] ++ lit "- Identify the specific line causing the error" ++ [LF]
              ++ lit "- Check the error type and message for clues" ++ [LF] ++ lit "- Review related code sections"
              ++ [LF] ++ lit "- Test with simpler inputs if possible" ++ [LF])])].

Definition REGISTRY : Value :=
  Array [
    Object [
      (lit "name", String (lit "tensor_core_underutilization"));
      (lit "description", String (lit "Detects when matrix operations are not using Tensor Cores"));
      (lit "priority", (Num (PosInt 100)));
      (lit "required", Array [
          String (lit "sm__inst_executed_pipe_tensor.avg.pct_of_peak_sustained_active")])];
    Object [
      (lit "name", String (lit "memory_coalescing"));
      (lit "description", String (lit "Detects uncoalesced memory access patterns"));
      (lit "priority", (Num (PosInt 90)));
      (lit "required", Array [
          String (lit "l1tex__t_sector_hit_rate.pct");
          String (lit "smsp__warp_issue_stalled_memory_dependency_per_warp_active.pct")])];
    Object [
      (lit "name", String (lit "high_dram_throughput"));
      (lit "description", String (lit "Detects memory-bound kernels with high DRAM utilization"));
      (lit "priority", (Num (PosInt 75)));
      (lit "required", Array [
          String (lit "dram__throughput.avg.pct_of_peak_sustained_elapsed")])];
    Object [
      (lit "name", String (lit "occupancy_limiter"));
      (lit "description", String (lit "Detects low occupancy and identifies the limiting factor"));
      (lit "priority", (Num (PosInt 85)));
      (lit "required", Array [
          String (lit "sm__warps_active.avg.pct_of_peak_sustained_active");
          String (lit "launch__registers_per_thread")])];
    Object [
      (lit "name", String (lit "high_register_usage"));
      (lit "description", String (lit "Detects excessive register usage that may cause spilling"));
      (lit "priority", (Num (PosInt 70)));
      (lit "required", Array [
          String (lit "launch__registers_per_thread")])];
    Object [
      (lit "name", String (lit "warp_stall_analyzer"));
      (lit "description", String (lit "Analyzes warp stall reasons to identify bottlenecks"));
      (lit "priority", (Num (PosInt 80)));
      (lit "required", Array [
          String (lit "smsp__warp_issue_stalled_memory_dependency_per_warp_active.pct");
          String (lit "smsp__warp_issue_stalled_short_scoreboard_per_warp_active.pct");
          String (lit "smsp__warp_issue_stalled_long_scoreboard_per_warp_active.pct");
          String (lit "smsp__warp_issue_stalled_barrier_per_warp_active.pct");
          String (lit "smsp__warp_issue_stalled_branch_resolving_per_warp_active.pct")])];
    Object [
      (lit "name", String (lit "barrier_stall_detector"));
      (lit "description", String (lit "Detects high barrier synchronization stalls"));
      (lit "priority", (Num (PosInt 75)));
      (lit "required", Array [
          String (lit "smsp__warp_issue_stalled_barrier_per_warp_active.pct")])];
    Object [
      (lit "name", String (lit "wgmma_instruction_detector"));
      (lit "description", String (lit "Detects presence/absence of WGMMA tensor core instructions in SASS"));
      (lit "priority", (Num (PosInt 95)));
      (lit "required", Array [])];
    Object [
      (lit "name", String (lit "register_spill_detector"));
      (lit "description", String (lit "Detects register spills via SASS STL/LDL instructions"));
      (lit "priority", (Num (PosInt 95)));
      (lit "required", Array [])]].

Definition OUTPUTS : Value :=
  Object [
    (lit "tensor_core_underutilization", Object [
        (lit "severity", String (lit "critical"));
        (lit "title", String (lit "Tensor Core Under-Utilization"));
        (lit "metrics_thresholds", Object [
            (lit "tensor_core_utilization", String (lit ">10.0%"))]);
        (lit "root_cause", String ([LF] ++ lit "Tensor Cores are specialized hardware units for matrix operations (GEMM, convolutions)."
                ++ [LF]
                ++ lit "Low utilization indicates the kernel is using CUDA cores instead, which is 5-10x slower"
                ++ [LF] ++ lit "for matrix operations." ++ [LF] ++ [LF]
                ++ lit "**First, assess whether this kernel performs matrix multiplication operations:**" ++ [LF]
                ++ lit "- Tensor Cores are designed for matrix operations (GEMM, convolutions)" ++ [LF]
                ++ lit "- NOT applicable for element-wise ops, reductions, or non-matrix workloads" ++ [LF]
                ++ lit "- If this is NOT a matrix operation, low tensor core usage is expected and normal" ++ [LF]));
        (lit "recommendations", Array [
            String (lit "**If this IS a matrix operation kernel:**");
            String (lit "  - **CRITICAL: You MUST use Tensor Cores, NOT CUDA cores for matrix operations!**");
            String (lit "  - **Option 1: cuBLAS library** (cublasGemmEx, cublasSgemm) - easiest, >80% TC utilization");
            String (lit "  - **Option 2: CUTLASS templates** - flexible, production-ready, >80% TC utilization");
            String (lit "  - Custom CUDA kernels using only CUDA cores for matmul are OBSOLETE");
            String (lit "**If this is NOT a matrix operation:**");
            String (lit "  - Low tensor core usage is expected - focus on other optimizations")]);
        (lit "expected_improvement", String (lit "5-10x speedup for matrix operations"));
        (lit "code_example", String (lit "// Using cuBLAS (recommended for standard GEMM)" ++ [LF] ++ lit "#include <cublas_v2.h>" ++ [LF]
                ++ [LF] ++ lit "cublasHandle_t handle;" ++ [LF] ++ lit "cublasCreate(&handle);" ++ [LF] ++ [LF]
                ++ lit "// C = alpha * A * B + beta * C" ++ [LF]
                ++ lit "cublasSgemm(handle, CUBLAS_OP_N, CUBLAS_OP_N," ++ [LF] ++ lit "            M, N, K," ++ [LF]
                ++ lit "            &alpha," ++ [LF] ++ lit "            d_A, lda," ++ [LF]
                ++ lit "            d_B, ldb," ++ [LF] ++ lit "            &beta," ++ [LF]
                ++ lit "            d_C, ldc);" ++ [LF] ++ [LF] ++ lit "// Or using CUTLASS for custom matrix ops"
                ++ [LF] ++ lit "#include <cutlass/gemm/device/gemm.h>" ++ [LF] ++ [LF]
                ++ lit "using Gemm = cutlass::gemm::device::Gemm<" ++ [LF]
                ++ lit "    float, cutlass::layout::RowMajor,  // A" ++ [LF]
                ++ lit "    float, cutlass::layout::RowMajor,  // B" ++ [LF]
                ++ lit "    float, cutlass::layout::RowMajor>; // C" ++ [LF]));
        (lit "references", Array [
            String (lit "cuBLAS Documentation: https://docs.nvidia.com/cuda/cublas/");
            String (lit "CUTLASS GitHub: https://github.com/NVIDIA/cutlass")])]);
    (lit "memory_coalescing", Object [
        (lit "severity", String (lit "high"));
        (lit "title", String (lit "Memory Coalescing Issue"));
        (lit "metrics_thresholds", Object [
            (lit "L1 cache hit rate", String (lit ">70.0%"));
            (lit "Memory dependency stalls", String (lit "<40.0%"))]);
        (lit "root_cause", String ([LF] ++ lit "**Uncoalesced Memory Access Pattern Detected**" ++ [LF] ++ [LF]
                ++ lit "Threads in a warp are accessing non-consecutive memory addresses, causing:" ++ [LF]
                ++ lit "- Multiple memory transactions where one would suffice" ++ [LF]
                ++ lit "- Cache line waste (loading 128 bytes but using only a few)" ++ [LF]
                ++ lit "- High latency from serialized memory operations" ++ [LF] ++ [LF] ++ lit "Common causes:"
                ++ [LF]
                ++ lit "1. **Tensor layout mismatch**: Layout is [B, H, S] but stride-1 access is on H dimension"
                ++ [LF] ++ lit "2. **Strided access patterns**: `A[tid * stride]` where stride > 1" ++ [LF]
                ++ lit "3. **Column-major access on row-major data**: Iterating over columns in row-major array"
                ++ [LF] ++ lit "4. **Struct of Arrays (SoA) vs Array of Structs (AoS) mismatch**" ++ [LF]));
        (lit "recommendations", Array [
            String (lit "Transpose input tensors to make stride-1 dimension innermost");
            String (lit "Use `float4` vectorized loads for 4x coalescing improvement");
            String (lit "Reorder loop iterations to access consecutive memory addresses");
            String (lit "Consider using shared memory to reorganize access patterns");
            String (lit "Use `__ldg()` (read-only cache) for read-only data");
            String (lit "Profile with `ncu --set full` to see exact transaction counts")]);
        (lit "expected_improvement", String (lit "2-4x speedup from proper coalescing"));
        (lit "code_example", String (lit "// BAD: Strided access (uncoalesced)" ++ [LF]
                ++ lit "__global__ void bad_kernel(float* A, int stride) {" ++ [LF]
                ++ lit "    int tid = blockIdx.x * blockDim.x + threadIdx.x;" ++ [LF]
                ++ lit "    float val = A[tid * stride];  // Threads access non-consecutive addresses" ++ [LF]
                ++ lit "}" ++ [LF] ++ [LF] ++ lit "// GOOD: Consecutive access (coalesced)" ++ [LF]
                ++ lit "__global__ void good_kernel(float* A) {" ++ [LF]
                ++ lit "    int tid = blockIdx.x * blockDim.x + threadIdx.x;" ++ [LF]
                ++ lit "    float val = A[tid];  // Threads access consecutive addresses" ++ [LF] ++ lit "}" ++ [LF]
                ++ [LF] ++ lit "// BETTER: Vectorized access (float4 = 4 elements per transaction)" ++ [LF]
                ++ lit "__global__ void better_kernel(float4* A) {" ++ [LF]
                ++ lit "    int tid = blockIdx.x * blockDim.x + threadIdx.x;" ++ [LF]
                ++ lit "    float4 val = A[tid];  // 128-bit load, perfectly coalesced" ++ [LF] ++ lit "}" ++ [LF]));
        (lit "references", Array [])]);
    (lit "high_dram_throughput", Object [
        (lit "severity", String (lit "medium"));
        (lit "title", String (lit "Memory-Bound Kernel"));
        (lit "metrics_thresholds", Object [
            (lit "DRAM throughput", String (lit "Memory-bound threshold: >80.0%"))]);
        (lit "root_cause", String ([LF] ++ lit "**Memory-Bound Kernel Detected**" ++ [LF] ++ [LF]
                ++ lit "The kernel is limited by memory bandwidth, not compute. This means:" ++ [LF]
                ++ lit "- GPU cores are waiting for data from memory" ++ [LF]
                ++ lit "- Adding more compute won't help" ++ [LF]
                ++ lit "- Optimization should focus on reducing memory traffic" ++ [LF] ++ [LF]
                ++ lit "This is often the correct behavior for bandwidth-limited operations like:" ++ [LF]
                ++ lit "- Element-wise operations" ++ [LF] ++ lit "- Reductions" ++ [LF] ++ lit "- Memory copies"
                ++ [LF]));
        (lit "recommendations", Array [
            String (lit "Reduce global memory accesses via shared memory caching");
            String (lit "Use register tiling to keep data in registers longer");
            String (lit "Consider kernel fusion to reduce intermediate memory writes");
            String (lit "Use compression or lower precision to reduce bandwidth needs");
            String (lit "If saturated: kernel is already memory-optimal, focus elsewhere")]);
        (lit "expected_improvement", String (lit "Variable - depends on algorithmic changes"));
        (lit "code_example", Null);
        (lit "references", Array [])]);
    (lit "occupancy_limiter:registers", Object [
        (lit "severity", String (lit "high"));
        (lit "title", String (lit "Low Occupancy (Limited by Registers)"));
        (lit "metrics_thresholds", Object [
            (lit "Warp occupancy", String (lit ">50.0% (target)"));
            (lit "Registers per thread", String (lit "<64 (recommended)"))]);
        (lit "root_cause", String ([LF] ++ lit "**Register Pressure Limiting Occupancy**" ++ [LF] ++ [LF]
                ++ lit "Each thread is using too many registers, limiting how many warps can run concurrently."
                ++ [LF]
                ++ lit "The GPU has a fixed number of registers per SM (65536 on H100), and high register usage"
                ++ [LF] ++ lit "per thread reduces the number of concurrent threads." ++ [LF] ++ [LF]
                ++ lit "- More registers per thread = fewer threads per SM" ++ [LF]
                ++ lit "- Fewer threads = less ability to hide memory latency" ++ [LF]
                ++ lit "- This is a compile-time issue from complex code or many local variables" ++ [LF]));
        (lit "recommendations", Array [
            String (lit "Current register usage: 140 per thread (target: <64)");
            String (lit "Use `__launch_bounds__(maxThreadsPerBlock, minBlocksPerSM)` to hint to compiler");
            String (lit "Reduce local variables by recomputing values instead of storing");
            String (lit "Use `#pragma unroll 1` to prevent aggressive unrolling");
            String (lit "Move data from registers to shared memory if reused across threads");
            String (lit "Compile with `-maxrregcount=N` to force register limit")]);
        (lit "expected_improvement", String (lit "1.5-3x from improved latency hiding"));
        (lit "code_example", Null);
        (lit "references", Array [])]);
    (lit "occupancy_limiter:shared_memory", Object [
        (lit "severity", String (lit "high"));
        (lit "title", String (lit "Low Occupancy (Limited by Shared Memory)"));
        (lit "metrics_thresholds", Object [
            (lit "Warp occupancy", String (lit ">50.0% (target)"));
            (lit "Registers per thread", String (lit "<64 (recommended)"))]);
        (lit "root_cause", String ([LF] ++ lit "**Shared Memory Limiting Occupancy**" ++ [LF] ++ [LF]
                ++ lit "The kernel is using too much shared memory per block, limiting how many blocks" ++ [LF]
                ++ lit "can run concurrently on each SM." ++ [LF] ++ [LF]
                ++ lit "- H100 has 227 KB shared memory per SM" ++ [LF]
                ++ lit "- A100 has 163 KB shared memory per SM" ++ [LF]
                ++ lit "- More shared memory per block = fewer blocks per SM" ++ [LF]));
        (lit "recommendations", Array [
            String (lit "Reduce shared memory allocation per block");
            String (lit "Use dynamic shared memory allocation for flexibility");
            String (lit "Consider splitting work across more blocks with less shared memory each");
            String (lit "Use register tiling instead of shared memory for some data");
            String (lit "Check for over-allocation (arrays sized for worst case)")]);
        (lit "expected_improvement", String (lit "1.5-3x from improved latency hiding"));
        (lit "code_example", Null);
        (lit "references", Array [])]);
    (lit "occupancy_limiter:block_count", Object [
        (lit "severity", String (lit "high"));
        (lit "title", String (lit "Low Occupancy (Limited by Block Count)"));
        (lit "metrics_thresholds", Object [
            (lit "Warp occupancy", String (lit ">50.0% (target)"));
            (lit "Registers per thread", String (lit "<64 (recommended)"))]);
        (lit "root_cause", String ([LF] ++ lit "**Block Count Limiting Occupancy**" ++ [LF] ++ [LF]
                ++ lit "The kernel's block configuration limits occupancy. This often happens with:" ++ [LF]
                ++ lit "- Very large block sizes (close to 1024 threads)" ++ [LF]
                ++ lit "- Workload that doesn't decompose into enough blocks" ++ [LF]
                ++ lit "- Mismatched grid dimensions for the problem size" ++ [LF]));
        (lit "recommendations", Array [
            String (lit "Reduce block size (threads per block)");
            String (lit "Increase grid size (more blocks)");
            String (lit "Consider processing multiple elements per thread");
            String (lit "Use persistent kernel patterns for small workloads")]);
        (lit "expected_improvement", String (lit "1.5-3x from improved latency hiding"));
        (lit "code_example", Null);
        (lit "references", Array [])]);
    (lit "high_register_usage", Object [
        (lit "severity", String (lit "high"));
        (lit "title", String (lit "High Register Usage (Likely Spilling)"));
        (lit "metrics_thresholds", Object [
            (lit "Registers per thread", String (lit "<96 (recommended)"))]);
        (lit "root_cause", String ([LF] ++ lit "**Excessive Register Usage**" ++ [LF] ++ [LF]
                ++ lit "High register count indicates complex computations or many local variables." ++ [LF]
                ++ lit "When register demand exceeds physical registers, the compiler " ++ [34%N] ++ lit "spills"
                ++ [34%N] ++ lit " to local" ++ [LF]
                ++ lit "memory (L1 cache or DRAM), which is 10-100x slower than registers." ++ [LF] ++ [LF]
                ++ lit "Signs of register spilling:" ++ [LF]
                ++ lit "- High local memory usage in compilation output" ++ [LF]
                ++ lit "- Unexpectedly slow execution despite good occupancy" ++ [LF]));
        (lit "recommendations", Array [
            String (lit "Simplify kernel logic or split into multiple kernels");
            String (lit "Use `__launch_bounds__` to help compiler optimize");
            String (lit "Force register limit with `-maxrregcount`");
            String (lit "Consider using shared memory for some data");
            String (lit "Reduce loop unrolling with `#pragma unroll 1`")]);
        (lit "expected_improvement", String (lit "2-10x if eliminating register spilling"));
        (lit "code_example", Null);
        (lit "references", Array [])]);
    (lit "warp_stall_analyzer:memory_dependency", Object [
        (lit "severity", String (lit "high"));
        (lit "title", String (lit "High Warp Stalls (Memory Dependency)"));
        (lit "metrics_thresholds", Object [
            (lit "Any stall type", String (lit "<40.0% (target)"))]);
        (lit "root_cause", String ([LF] ++ lit "**Memory Dependency Stalls**" ++ [LF] ++ [LF]
                ++ lit "Warps are waiting for memory operations to complete. This is the most common" ++ [LF]
                ++ lit "bottleneck and indicates the kernel is memory-bound." ++ [LF] ++ [LF] ++ lit "Causes:"
                ++ [LF] ++ lit "- High global memory latency (400+ cycles)" ++ [LF]
                ++ lit "- Uncoalesced memory accesses" ++ [LF]
                ++ lit "- Insufficient parallelism to hide memory latency" ++ [LF]
                ++ lit "- No prefetching or memory pipelining" ++ [LF]));
        (lit "recommendations", Array [
            String (lit "Use shared memory to cache frequently accessed data");
            String (lit "Implement vectorized loads (float4) for better bandwidth");
            String (lit "Ensure coalesced memory access patterns");
            String (lit "Increase occupancy to hide memory latency (more warps)");
            String (lit "Use __ldg() for read-only data (uses texture cache)");
            String (lit "Consider software pipelining to overlap compute and memory")]);
        (lit "expected_improvement", String (lit "1.5-3x depending on stall type"));
        (lit "code_example", Null);
        (lit "references", Array [])]);
    (lit "warp_stall_analyzer:short_scoreboard", Object [
        (lit "severity", String (lit "high"));
        (lit "title", String (lit "High Warp Stalls (Short Scoreboard)"));
        (lit "metrics_thresholds", Object [
            (lit "Any stall type", String (lit "<40.0% (target)"))]);
        (lit "root_cause", String ([LF] ++ lit "**Short Scoreboard Stalls**" ++ [LF] ++ [LF]
                ++ lit "Warps are waiting for shared memory, texture, or other MIO (Memory I/O) operations." ++ [LF]
                ++ lit "These have shorter latency than global memory but can still cause stalls." ++ [LF] ++ [LF]
                ++ lit "Causes:" ++ [LF] ++ lit "- Shared memory bank conflicts" ++ [LF]
                ++ lit "- Texture cache misses" ++ [LF] ++ lit "- Synchronization overhead" ++ [LF]));
        (lit "recommendations", Array [
            String (lit "Check for shared memory bank conflicts");
            String (lit "Reduce shared memory accesses if possible");
            String (lit "Use padding to avoid bank conflicts: `__shared__ float A[32][33]`");
            String (lit "Consider using registers instead of shared memory");
            String (lit "Profile with ncu --set full to see bank conflict counts")]);
        (lit "expected_improvement", String (lit "1.5-3x depending on stall type"));
        (lit "code_example", Null);
        (lit "references", Array [])]);
    (lit "warp_stall_analyzer:long_scoreboard", Object [
        (lit "severity", String (lit "high"));
        (lit "title", String (lit "High Warp Stalls (Long Scoreboard)"));
        (lit "metrics_thresholds", Object [
            (lit "Any stall type", String (lit "<40.0% (target)"))]);
        (lit "root_cause", String ([LF] ++ lit "**Long Scoreboard Stalls**" ++ [LF] ++ [LF]
                ++ lit "Warps are waiting for long-latency operations to complete. This is similar to" ++ [LF]
                ++ lit "memory dependency but specifically for operations tracked by the long scoreboard." ++ [LF]
                ++ [LF] ++ lit "Causes:" ++ [LF] ++ lit "- Global memory loads not yet returned" ++ [LF]
                ++ lit "- Texture memory fetches" ++ [LF] ++ lit "- Atomics waiting for completion" ++ [LF]));
        (lit "recommendations", Array [
            String (lit "Similar to memory dependency - optimize memory access");
            String (lit "Use async copy for prefetching if on Ampere+ (cp.async)");
            String (lit "Consider TMA on Hopper for bulk transfers");
            String (lit "Increase warp-level parallelism")]);
        (lit "expected_improvement", String (lit "1.5-3x depending on stall type"));
        (lit "code_example", Null);
        (lit "references", Array [])]);
    (lit "warp_stall_analyzer:barrier", Object [
        (lit "severity", String (lit "high"));
        (lit "title", String (lit "High Warp Stalls (Barrier)"));
        (lit "metrics_thresholds", Object [
            (lit "Any stall type", String (lit "<40.0% (target)"))]);
        (lit "root_cause", String ([LF] ++ lit "**Barrier Stalls**" ++ [LF] ++ [LF]
                ++ lit "Warps are waiting at __syncthreads() for other warps in the block to catch up." ++ [LF]
                ++ lit "High barrier stalls indicate load imbalance within thread blocks." ++ [LF] ++ [LF]
                ++ lit "Causes:" ++ [LF] ++ lit "- Uneven workload distribution among threads" ++ [LF]
                ++ lit "- Too many synchronization points" ++ [LF]
                ++ lit "- Conditional code that causes divergent execution times" ++ [LF]
                ++ lit "- Using __syncthreads() inside conditional blocks (INCORRECT!)" ++ [LF]));
        (lit "recommendations", Array [
            String (lit "Reduce number of __syncthreads() calls");
            String (lit "Use warp-level primitives (__shfl, __ballot) when possible");
            String (lit "Balance workload across threads in a block");
            String (lit "Consider warp-synchronous programming for small data");
            String (lit "NEVER put __syncthreads() inside conditional blocks")]);
        (lit "expected_improvement", String (lit "1.5-3x depending on stall type"));
        (lit "code_example", Null);
        (lit "references", Array [])]);
    (lit "warp_stall_analyzer:branch_resolving", Object [
        (lit "severity", String (lit "high"));
        (lit "title", String (lit "High Warp Stalls (Branch Resolving)"));
        (lit "metrics_thresholds", Object [
            (lit "Any stall type", String (lit "<40.0% (target)"))]);
        (lit "root_cause", String ([LF] ++ lit "**Branch Resolving Stalls**" ++ [LF] ++ [LF]
                ++ lit "Warps are waiting for branch conditions to be evaluated. This indicates" ++ [LF]
                ++ lit "significant branch divergence where threads in a warp take different paths." ++ [LF] ++ [LF]
                ++ lit "Causes:" ++ [LF] ++ lit "- Data-dependent conditionals (if/else based on data values)"
                ++ [LF] ++ lit "- Thread-ID-dependent divergent paths" ++ [LF]
                ++ lit "- Complex control flow with many branches" ++ [LF]));
        (lit "recommendations", Array [
            String (lit "Reorganize data to minimize branch divergence");
            String (lit "Use arithmetic instead of branches where possible: `result = cond * val1 + (1-cond) * val2`");
            String (lit "Sort data to group similar computation paths");
            String (lit "Use predication for short conditional blocks");
            String (lit "Consider separate kernels for different code paths")]);
        (lit "expected_improvement", String (lit "1.5-3x depending on stall type"));
        (lit "code_example", Null);
        (lit "references", Array [])]);
    (lit "barrier_stall_detector", Object [
        (lit "severity", String (lit "medium"));
        (lit "title", String (lit "High Barrier Synchronization Stalls"));
        (lit "metrics_thresholds", Object [
            (lit "Barrier stalls", String (lit "<30.0% (target)"))]);
        (lit "root_cause", String ([LF] ++ lit "**Excessive __syncthreads() Waiting**" ++ [LF] ++ [LF]
                ++ lit "Threads are spending significant time waiting for block-level synchronization." ++ [LF]
                ++ lit "This reduces parallelism and indicates either:" ++ [LF] ++ lit "1. Too many sync points"
                ++ [LF] ++ lit "2. Load imbalance causing some warps to wait for slow warps" ++ [LF]
                ++ lit "3. Incorrect sync placement (NEVER in conditional blocks!)" ++ [LF]));
        (lit "recommendations", Array [
            String (lit "Minimize __syncthreads() calls - only sync when necessary");
            String (lit "Use warp-level primitives when data fits in a warp (32 threads)");
            String (lit "Balance work across threads to reduce wait time");
            String (lit "Consider warp-shuffle (__shfl_sync) for intra-warp communication");
            String (lit "Check for __syncthreads() inside if/else blocks (BUG!)")]);
        (lit "expected_improvement", String (lit "1.5-2x from reduced synchronization"));
        (lit "code_example", String (lit "// WRONG: __syncthreads() in conditional" ++ [LF] ++ lit "if (threadIdx.x < 16) {" ++ [LF]
                ++ lit "    shared_data[threadIdx.x] = value;" ++ [LF]
                ++ lit "    __syncthreads();  // BUG: Not all threads reach this!" ++ [LF] ++ lit "}" ++ [LF]
                ++ [LF] ++ lit "// RIGHT: __syncthreads() outside conditional" ++ [LF]
                ++ lit "if (threadIdx.x < 16) {" ++ [LF] ++ lit "    shared_data[threadIdx.x] = value;" ++ [LF]
                ++ lit "}" ++ [LF] ++ lit "__syncthreads();  // All threads sync" ++ [LF] ++ [LF]
                ++ lit "// BETTER: Use warp-level ops for small data" ++ [LF]
                ++ lit "int warp_sum = __reduce_add_sync(0xFFFFFFFF, value);  // No __syncthreads needed" ++ [LF]));
        (lit "references", Array [])]);
    (lit "wgmma_instruction_detector:wgmma", Object [
        (lit "severity", String (lit "info"));
        (lit "title", String (lit "WGMMA Instructions Detected"));
        (lit "metrics_thresholds", Object []);
        (lit "root_cause", String ([]));
        (lit "recommendations", Array [
            String (lit "Kernel is correctly using Hopper Tensor Cores");
            String (lit "Consider TMA for further memory optimization")]);
        (lit "expected_improvement", String (lit "Already optimized for tensor cores"));
        (lit "code_example", Null);
        (lit "references", Array [])]);
    (lit "wgmma_instruction_detector:hmma", Object [
        (lit "severity", String (lit "medium"));
        (lit "title", String (lit "Using HMMA Instead of WGMMA"));
        (lit "metrics_thresholds", Object []);
        (lit "root_cause", String ([]));
        (lit "recommendations", Array [
            String (lit "Consider upgrading to WGMMA for better Hopper performance");
            String (lit "Use CUTLASS 3.x with Hopper-specific templates");
            String (lit "Enable -arch=sm_90 and use warpgroup MMA APIs")]);
        (lit "expected_improvement", String (lit "1.3-1.5x from WGMMA vs HMMA"));
        (lit "code_example", Null);
        (lit "references", Array [])]);
    (lit "wgmma_instruction_detector:imma", Object [
        (lit "severity", String (lit "info"));
        (lit "title", String (lit "IMMA Instructions Detected (Integer Tensor Cores)"));
        (lit "metrics_thresholds", Object []);
        (lit "root_cause", String ([]));
        (lit "recommendations", Array [
            String (lit "IMMA is correctly using integer tensor cores for quantized operations");
            String (lit "On Hopper: WGMMA also supports INT8 " ++ [8212%N]
                  ++ lit " consider upgrading for better throughput");
            String (lit "Ensure data is properly quantized and aligned for INT8/INT4 tensor core tiles")]);
        (lit "expected_improvement", String (lit "Already using tensor cores for integer ops"));
        (lit "code_example", Null);
        (lit "references", Array [])]);
    (lit "wgmma_instruction_detector:dmma", Object [
        (lit "severity", String (lit "info"));
        (lit "title", String (lit "DMMA Instructions Detected (FP64 Tensor Cores)"));
        (lit "metrics_thresholds", Object []);
        (lit "root_cause", String ([]));
        (lit "recommendations", Array [
            String (lit "DMMA is correctly using FP64 tensor cores");
            String (lit "On Hopper: WGMMA also supports FP64 " ++ [8212%N] ++ lit " consider upgrading")]);
        (lit "expected_improvement", String (lit "Already using tensor cores for FP64"));
        (lit "code_example", Null);
        (lit "references", Array [])]);
    (lit "wgmma_instruction_detector:bmma", Object [
        (lit "severity", String (lit "info"));
        (lit "title", String (lit "BMMA Instructions Detected (Binary Tensor Cores)"));
        (lit "metrics_thresholds", Object []);
        (lit "root_cause", String ([]));
        (lit "recommendations", Array [
            String (lit "BMMA is using binary tensor cores (Turing-era, INT1)");
            String (lit "Note: BMMA is only available on Turing (sm_75)")]);
        (lit "expected_improvement", String (lit "Already using tensor cores for binary ops"));
        (lit "code_example", Null);
        (lit "references", Array [])]);
    (lit "wgmma_instruction_detector:cublas", Object [
        (lit "severity", String (lit "info"));
        (lit "title", String (lit "cuBLAS Library Detected (Tensor Cores Implied)"));
        (lit "metrics_thresholds", Object []);
        (lit "root_cause", String ([]));
        (lit "recommendations", Array [
            String (lit "cuBLAS is already using tensor cores via runtime kernel selection");
            String (lit "Consider cublasLt (cuBLAS Light) for more control over TC kernel selection");
            String (lit "For Hopper: ensure CUDA 12+ for WGMMA-based cuBLAS kernels");
            String (lit "Profile the cuBLAS kernel itself (not the wrapper) for TC utilization metrics")]);
        (lit "expected_improvement", String (lit "Already optimized via cuBLAS"));
        (lit "code_example", Null);
        (lit "references", Array [])]);
    (lit "wgmma_instruction_detector:none", Object [
        (lit "severity", String (lit "medium"));
        (lit "title", String (lit "No Tensor Core Instructions Found in SASS"));
        (lit "metrics_thresholds", Object []);
        (lit "root_cause", String ([LF] ++ lit "**SASS Analysis: No Tensor Core Instructions Detected**" ++ [LF] ++ [LF]
                ++ lit "The compiled SASS assembly contains ZERO tensor core instructions" ++ [LF]
                ++ lit "(WGMMA, HMMA, IMMA, DMMA, or BMMA)." ++ [LF]
                ++ lit "If this kernel performs matrix multiply operations (e.g., GEMM, convolution, attention, etc.),"
                ++ [LF]
                ++ lit "this represents a significant optimization opportunity as tensor cores can provide 5-10x speedup."
                ++ [LF] ++ [LF] ++ lit "Note: Only matrix multiplication operations benefit from tensor cores."
                ++ [LF] ++ lit "Element-wise ops, reductions, and non-matrix workloads do NOT use tensor cores."
                ++ [LF]));
        (lit "recommendations", Array [
            String (lit "If this kernel performs matrix operations, consider leveraging tensor core instructions to improve performance");
            String (lit "Options include: cuBLAS, CUTLASS, or CUDA with inline PTX tensor core instructions")]);
        (lit "expected_improvement", String (lit "5-10x for matrix operations (if applicable)"));
        (lit "code_example", Null);
        (lit "references", Array [])]);
    (lit "register_spill_detector", Object [
        (lit "severity", String (lit "high"));
        (lit "title", String (lit "Register Spills Detected (STL/LDL in SASS)"));
        (lit "metrics_thresholds", Object []);
        (lit "root_cause", String ([LF] ++ lit "**Register Spills Confirmed (STL/LDL in SASS)**" ++ [LF] ++ [LF]
                ++ lit "The kernel uses more registers than available, causing spills to LOCAL memory." ++ [LF]
                ++ lit "LOCAL memory is backed by HBM/DRAM (off-chip), making spill accesses ~100x" ++ [LF]
                ++ lit "slower than register access." ++ [LF] ++ [LF]
                ++ lit "- STL (Store to Local): spills register values to DRAM" ++ [LF]
                ++ lit "- LDL (Load from Local): reloads spilled values from DRAM" ++ [LF]));
        (lit "recommendations", Array [
            String (lit "Reduce register pressure: simplify logic, reduce live variables in hot loops");
            String (lit "Split into multiple smaller kernels");
            String (lit "Move frequently accessed arrays to shared memory");
            String (lit "Add __launch_bounds__(maxThreadsPerBlock, minBlocksPerSM) to guide register allocation");
            String (lit "Try -maxrregcount=N compiler flag to cap registers");
            String (lit "Use smaller tile sizes to reduce register pressure")]);
        (lit "expected_improvement", String (lit "Potentially significant if spills are in hot loops"));
        (lit "code_example", Null);
        (lit "references", Array [])])].
Definition ANALYZER_ASSETS : Value := Object [(lit "registry", REGISTRY); (lit "outputs", OUTPUTS)].

Definition METRIC_GROUPS : Value :=
  Object [
    (lit "compute", Array [
        String (lit "sm__inst_executed_pipe_tensor.avg.pct_of_peak_sustained_active");
        String (lit "sm__inst_executed_pipe_fp32.avg.pct_of_peak_sustained_active");
        String (lit "sm__cycles_active.avg");
        String (lit "sm__warps_active.avg.pct_of_peak_sustained_active");
        String (lit "sm__inst_executed.sum");
        String (lit "sm__throughput.avg.pct_of_peak_sustained_elapsed");
        String (lit "sm__pipe_fma_cycles_active.avg.pct_of_peak_sustained_elapsed")]);
    (lit "memory", Array [
        String (lit "dram__throughput.avg.pct_of_peak_sustained_elapsed");
        String (lit "dram__bytes.sum.per_second");
        String (lit "dram__bytes_read.sum");
        String (lit "dram__bytes_write.sum");
        String (lit "gpu__dram_throughput.avg.pct_of_peak_sustained_elapsed");
        String (lit "l1tex__t_sector_hit_rate.pct");
        String (lit "l1tex__throughput.avg.pct_of_peak_sustained_active");
        String (lit "lts__t_sector_hit_rate.pct");
        String (lit "lts__throughput.avg.pct_of_peak_sustained_active");
        String (lit "l2__throughput.avg.pct_of_peak_sustained_elapsed");
        String (lit "l1tex__average_t_sectors_per_request_pipe_lsu_mem_global_op_ld.ratio");
        String (lit "l1tex__t_sectors_pipe_lsu_mem_local_op_ld.sum");
        String (lit "l1tex__t_sectors_pipe_lsu_mem_local_op_st.sum");
        String (lit "l1tex__t_sectors_pipe_lsu_mem_global_op_ld.sum");
        String (lit "l1tex__t_sectors_pipe_lsu_mem_global_op_st.sum");
        String (lit "l1tex__data_bank_conflicts_pipe_lsu_mem_shared_op_ld.sum")]);
    (lit "occupancy", Array [
        String (lit "launch__registers_per_thread");
        String (lit "launch__occupancy_limit_registers");
        String (lit "launch__occupancy_limit_shared_mem");
        String (lit "launch__occupancy_limit_blocks");
        String (lit "smsp__issue_active.avg.pct_of_peak_sustained_active");
        String (lit "smsp__warps_eligible.avg.per_cycle_active")]);
    (lit "stall", Array [
        String (lit "smsp__warp_issue_stalled_memory_dependency_per_warp_active.pct");
        String (lit "smsp__warp_issue_stalled_short_scoreboard_per_warp_active.pct");
        String (lit "smsp__warp_issue_stalled_long_scoreboard_per_warp_active.pct");
        String (lit "smsp__warp_issue_stalled_barrier_per_warp_active.pct");
        String (lit "smsp__warp_issue_stalled_branch_resolving_per_warp_active.pct");
        String (lit "smsp__warp_issue_stalled_wait_per_warp_active.pct");
        String (lit "smsp__warp_issue_stalled_not_selected_per_warp_active.pct");
        String (lit "smsp__warp_issue_stalled_mio_throttle_per_warp_active.pct")]);
    (lit "timing", Array [
        String (lit "gpu__time_duration.sum")]);
    (lit "branch", Array [
        String (lit "smsp__sass_average_branch_targets_threads_uniform.pct")])].

Definition RULES_HEADER : str :=
  lit "## " ++ [9888%N] ++ [65039%N] ++ lit " NCU RULE ENGINE " ++ [8212%N]
      ++ lit " RANKED BOTTLENECKS (DETERMINISTIC, address #1 FIRST)" ++ [LF] ++ [LF]
      ++ lit "These are NVIDIA Nsight Compute's own rule-engine findings, sorted by estimated speedup (highest impact first). Treat #1 as the primary target. Do NOT pursue a lower-ranked lever until the higher-ranked ones are resolved or proven not applicable."
      ++ [LF].
