(* ===== verification/Feedback.v ===== *)
(** * kernel: the feedback of a candidate

    [kernel/src/domain/feedback.rs]: the text that tells a candidate session what
    became of its parent, from the templates of [KernelAssets], rendered by
    [Template].  [to_string] of [serde_json] and the two regular expressions are
    parameters. *)
From Stdlib Require Import ZArith.
From stdpp Require Import sorting.
From S2P Require Import Prelude Str Float64 Json JsonOps Template Search KernelIo Fmt KernelAssets.

Section feedback.
Context (to_string : Value → str).
(** The quoted messages of failed static assertions, and the rests of the lines
    from [error:] on, in order. *)
Context (assertions errors : str → list str).

Fixpoint collect_arguments (values : btree str) (names : list str) : result (list (str * str)) :=
  match names with
  | [] => Ok []
  | name :: names =>
      value ← ok_or (btree_get name values) (lit "missing template value " ++ name);
      arguments ← collect_arguments values names;
      Ok ((name, value) :: arguments)
  end.
Definition template_error {A T} (message : A → str) (r : res A T) : result T :=
  match r with Ok t => Ok t | Err e => Err (message e) | Panic => Panic end.
Definition render (name : str) (values : btree str) : result str :=
  source ← ok_or (as_str (at_key (FEEDBACK_ASSETS.["templates"]) name)) (lit "feedback template");
  template ← template_error parse_error_message (parse source);
  arguments ← collect_arguments values (placeholders template).*1;
  template_error render_error_message (Template_render template arguments).

Definition text (value : Value) (key : str) (default_ : str) : str :=
  match get value key with
  | None => default_
  | Some (String s) => s
  | Some Null => lit "None"
  | Some (Bool b) => if b then lit "True" else lit "False"
  | Some v => to_string v
  end.

(** The index of the guidance.  [to_lowercase] is on ASCII letters here: no other
    character has a lower case in which these words occur. *)
Definition guidance_index (kind message : str) : nat :=
  let lower := to_ascii_lowercase message in
  if str_eqb kind (lit "correctness_error") then 0
  else if contains lower (lit "cuda") then
    if contains lower (lit "misaligned") then 1 else if contains lower (lit "launch") then 2 else 3
  else if str_eqb kind (lit "SyntaxError") then 4
  else if str_eqb kind (lit "ImportError") then 5
  else 6.

(** [chars().skip(count.saturating_sub(n))] and a [BTreeSet] of texts. *)
Definition last_chars (n : nat) (s : str) : str := drop (length s - n) s.
Definition str_le (s t : str) : Prop := str_leb s t = true.
#[local] Instance str_le_dec s t : Decision (str_le s t).
Proof. unfold str_le. apply _. Defined.
Definition btree_set (l : list str) : list str := dedup (merge_sort str_le l).

Definition cute_summary (traceback : str) : str :=
  let found := btree_set (assertions traceback) in
  (if is_empty found then []
   else lit "**Root cause (static_assert):**" ++ [LF] ++ concat ((λ a, lit "- " ++ a ++ [LF]) <$> found))
  ++ (let found := take 5 (errors traceback) in
      if is_empty found then []
      else lit "**Compiler errors:**" ++ [LF] ++ lit "```" ++ [LF] ++ Str.join [LF] found ++ [LF] ++ lit "```" ++ [LF]).

(** [value.as_str().filter(|value| !value.is_empty())]. *)
Definition non_empty_str (v : Value) : option str :=
  match as_str v with Some [] => None | o => o end.
Definition error_values (error : Value) (code guidance : str) : btree str :=
  foldr (λ kv m, btree_insert kv.1 kv.2 m) []
    ["error_type" ↦ text error (lit "error_type") (lit "Unknown");
     "error_msg" ↦ text error (lit "error_message") (lit "No details");
     "stage" ↦ text error (lit "stage") (lit "unknown"); "previous_code" ↦ code; "guidance" ↦ guidance].

Definition error_feedback (error : Value) (code : str) : result str :=
  let message := text error (lit "error_message") (lit "No details") in
  let kind := text error (lit "error_type") (lit "Unknown") in
  let traceback := default [] (as_str (error.["traceback"])) in
  guidance ← ok_or (match FEEDBACK_ASSETS.["guidance"] with
                    | Array l => l !! guidance_index kind message ≫= as_str
                    | _ => None
                    end) (lit "error guidance");
  let values := error_values error code guidance in
  header ← render (lit "error_header") values;
  let values := match non_empty_str (error.["error_summary"]) with
                | Some summary =>
                    btree_insert (lit "error_abbrev") (last_chars 1500 message) (btree_insert (lit "error_summary") summary values)
                | None => values
                end in
  body ← render (if is_some (non_empty_str (error.["error_summary"])) then lit "error_summary" else lit "error_message")
           values;
  let cute := contains traceback (lit "static assertion failed") || contains traceback (lit "copy_traits") in
  let values := if is_empty traceback then values
                else if cute then
                  btree_insert (lit "traceback_tail") (last_chars 2000 traceback)
                    (btree_insert (lit "cute_summary") (cute_summary traceback) values)
                else btree_insert (lit "traceback_head") (take 2000 traceback) values in
  trace ← (if is_empty traceback then Ok []
           else render (if cute then lit "error_cute" else lit "error_traceback") values);
  tail ← render (lit "error_tail") values;
  Ok (header ++ body ++ trace ++ tail).

Definition non_empty_array (v : Value) : option (list Value) :=
  match as_array v with Some [] => None | o => o end.
(** [enumerate()] with numbers from one. *)
Definition numbered (f : Value → str) (l : list Value) : str :=
  Str.join [LF] (imap (λ i v, show_nat (S i) ++ lit ". " ++ f v) l).
Definition ranked_rule (rule : Value) : str :=
  lit "[est. " ++ fixed 0 (default fzero (as_f64 (rule.["est_speedup_pct"]))) ++ lit "% speedup] "
  ++ default [] (as_str (rule.["text"])).
Definition profile_values (profile : Value) (code : str) : btree str :=
  foldr (λ kv m, btree_insert kv.1 kv.2 m) []
    ["bottleneck" ↦ text profile (lit "bottleneck_type") (lit "Unknown");
     "severity" ↦ text profile (lit "severity") (lit "Unknown");
     "priority" ↦ fixed 1 (default fzero (as_f64 (profile.["priority_score"])));
     "improvement" ↦ fixed 1 (default fzero (as_f64 (profile.["estimated_improvement"])));
     "previous_code" ↦ code;
     "recs_text" ↦ match non_empty_array (profile.["optimization_recommendations"]) with
                   | Some items => numbered (λ v, default [] (as_str v)) items
                   | None => lit "No specific recommendations available."
                   end].
Definition profile_feedback (profile : Value) (code : str) : result str :=
  let values := profile_values profile code in
  ruled ← match non_empty_array (profile.["rule_recommendations"]) with
          | Some rules =>
              let values := btree_insert (lit "ranked") (numbered ranked_rule rules) values in
              rule_block ← render (lit "rules") values;
              Ok (values, rule_block)
          | None => Ok (values, [])
          end;
  let '(values, rule_block) := ruled in
  let values := btree_insert (lit "rule_block") rule_block values in
  header ← render (lit "profile_header") values;
  let values := match non_empty_str (profile.["detailed_analysis"]) with
                | Some details => btree_insert (lit "detailed") details values
                | None => values
                end in
  details ← (if is_some (non_empty_str (profile.["detailed_analysis"])) then render (lit "profile_details") values
             else Ok []);
  tail ← render (lit "profile_tail") values;
  Ok (header ++ details ++ tail).

Definition has_entries (v : Value) : bool := is_some_and (λ m, negb (is_empty m)) (as_object v).
Definition feedback (payload : Value) : result Value :=
  let parent := payload.["parent"] in
  let code := default [] (as_str (parent.["submission"].["code"])) in
  output ←
    (if is_null parent then Ok []
     else if value_eqb (parent.["outcome"].["status"]) (jstr "failed") then
       error_feedback (parent.["outcome"].["error_context"]) code
     else if has_entries (parent.["analysis"]) then profile_feedback (parent.["analysis"]) code
     else if value_eqb (payload.["mode"]) (jstr "initial") then render (lit "fresh") ["previous_code" ↦ code]
     else Ok code);
  hinted ← match non_empty_str (payload.["hint"]) with
           | Some hint => h ← render (lit "hint") ["hint" ↦ hint]; Ok (output ++ [LF; LF] ++ h)
           | None => Ok output
           end;
  Ok (json ["text" ↦ String hinted]).
End feedback.
