(* ===== verification/FeedbackProps.v ===== *)
(** * kernel: every candidate gets its feedback

    The bundled templates parse and find a value for each of their placeholders
    on every path of [feedback]. *)
From Stdlib Require Import ZArith.
From stdpp Require Import sets.
From S2P Require Import Prelude Str Float64 Json JsonOps Template Search KernelIo Fmt KernelAssets Feedback.

Lemma contains_mid a s b : contains (a ++ s ++ b) s = true.
Proof.
  unfold contains. destruct (find s (a ++ s ++ b)) as [i|] eqn:E; [done|].
  destruct (proj1 (find_None _ _) E (length a)). by exists a, b.
Qed.
Lemma contains_refl s : contains s s = true.
Proof. rewrite <-(app_nil_r s) at 1. apply (contains_mid [] s []). Qed.
Lemma contains_split t s : contains t s = true → ∃ a b, t = a ++ s ++ b.
Proof.
  unfold contains. destruct (find s t) as [i|] eqn:E; [|done]. intros _.
  apply find_Some in E as [(a & b & -> & _) _]. by exists a, b.
Qed.
Lemma contains_app t s l r : contains t s = true → contains (l ++ t ++ r) s = true.
Proof.
  intros (a & b & ->)%contains_split. replace (l ++ (a ++ s ++ b) ++ r) with ((l ++ a) ++ s ++ (b ++ r)).
  - apply contains_mid.
  - by rewrite <-!app_assoc.
Qed.
Lemma contains_app_l t s r : contains t s = true → contains (t ++ r) s = true.
Proof. apply (contains_app t s []). Qed.
Lemma contains_app_r t s l : contains t s = true → contains (l ++ t) s = true.
Proof. intros H. rewrite <-(app_nil_r t). by apply contains_app. Qed.

(** ** Rendering a bundled template *)
Definition template_of (name : str) : option Template :=
  source ← as_str (at_key (FEEDBACK_ASSETS.["templates"]) name);
  match parse source with Ok t => Some t | _ => None end.
Definition fill (values : btree str) (s : Segment) : str :=
  match s with Literal l => l | Placeholder n => default [] (btree_get n values) end.
(** The placeholders are distinct and among [ks]. *)
Definition covered (name : str) (ks : list str) : bool :=
  match template_of name with
  | Some t => bool_decide (NoDup (placeholders t).*1) && forallb (λ n, bool_decide (n ∈ ks)) (placeholders t).*1
  | None => false
  end.

Lemma collect_arguments_ok values names :
  (∀ n, n ∈ names → n ∈ values.*1) →
  ∃ arguments, collect_arguments values names = Ok arguments ∧ arguments.*1 = names
    ∧ ∀ n v, (n, v) ∈ arguments → btree_get n values = Some v.
Proof.
  induction names as [|n names IH]; intros H; cbn [collect_arguments].
  { exists []. split_and!; [done..|]. intros n v Hv. by apply not_elem_of_nil in Hv. }
  destruct IH as (args & -> & Hn & Hv); [set_solver|].
  assert (is_some (btree_get n values) = true) as Hs by (apply btree_get_elem; set_solver).
  destruct (btree_get n values) as [x|] eqn:E; [|done]. cbn.
  exists ((n, x) :: args). cbn. rewrite Hn. split_and!; [done..|]. intros m v [[= -> ->]|Hin]%elem_of_cons; auto.
Qed.
Lemma subst_fill arguments values s :
  (∀ n v, (n, v) ∈ arguments → btree_get n values = Some v) →
  (∀ n, s = Placeholder n → n ∈ arguments.*1) → subst arguments s = fill values s.
Proof.
  intros Hv Hn. destruct s as [l|n]; [done|]. cbn. specialize (Hn n eq_refl).
  apply btree_get_elem in Hn. unfold btree_get in Hn. destruct (find_first _ arguments) as [[m v]|] eqn:E; [|done].
  apply find_first_Some in E as [Hin Heq]. cbn in Heq. apply str_eqb_eq in Heq as ->. cbn. by rewrite (Hv n v).
Qed.
Lemma render_covered name ks values :
  covered name ks = true → (∀ k, k ∈ ks → k ∈ values.*1) →
  ∃ t, template_of name = Some t ∧ Feedback.render name values = Ok (concat (fill values <$> segments t)).
Proof.
  unfold covered, template_of, Feedback.render. intros Hc Hk.
  destruct (as_str _) as [source|]; [|done]. cbn [mbind option_bind ok_or res_bind] in *.
  pose proof (parse_total source) as Ht.
  destruct (parse source) as [t| |] eqn:Ep; [|done|done]. cbn [template_error mbind res_bind].
  apply andb_true_iff in Hc as [Hnd%bool_decide_eq_true Hall]. exists t. split; [done|].
  destruct (collect_arguments_ok values (placeholders t).*1) as (args & -> & Hn & Hv).
  { intros n Hin. apply Hk. rewrite forallb_forall in Hall. apply (bool_decide_eq_true (n ∈ ks)), Hall.
    by apply list_elem_of_In. }
  cbn [mbind res_bind].
  assert (Template.render source args = Ok (concat (subst args <$> segments t))) as Hr.
  { apply (proj1 (render_exactly_when_covered source args)). exists t. rewrite Hn. split_and!; try done. }
  unfold Template.render in Hr. rewrite Ep in Hr. destruct (Template_render t args) as [r| |]; [|done|done].
  injection Hr as ->. cbn. f_equal. f_equal. apply list_fmap_ext. intros i s Hs. apply subst_fill; [done|].
  intros n ->. rewrite Hn, Ht. by eapply list_elem_of_lookup_2.
Qed.
(** A value that a placeholder stands for is in the text. *)
Lemma filled_contains values t n v :
  existsb (λ s, match s with Placeholder m => str_eqb m n | _ => false end) (segments t) = true →
  btree_get n values = Some v → contains (concat (fill values <$> segments t)) v = true.
Proof.
  intros ([l|m] & Hin & Hm)%existsb_exists Hv; [done|]. apply str_eqb_eq in Hm as ->.
  apply list_elem_of_In, list_elem_of_split in Hin as (a & b & ->).
  rewrite fmap_app, fmap_cons, concat_app. cbn [concat fill]. rewrite Hv. apply contains_mid.
Qed.

Definition mentions (name n : str) : bool :=
  match template_of name with
  | Some t => existsb (λ s, match s with Placeholder m => str_eqb m n | _ => false end) (segments t)
  | None => false
  end.
Definition has_all (values : btree str) (ks : list str) : bool := forallb (λ k, is_some (btree_get k values)) ks.
Lemma render_has name ks values :
  covered name ks = true → has_all values ks = true →
  ∃ r, Feedback.render name values = Ok r
       ∧ ∀ n v, mentions name n = true → btree_get n values = Some v → contains r v = true.
Proof.
  intros Hc Hk. destruct (render_covered name ks values Hc) as (t & Ht & Hr).
  { intros k Hin. apply btree_get_elem. unfold has_all in Hk. rewrite forallb_forall in Hk. by apply Hk, list_elem_of_In. }
  eexists. split; [exact Hr|]. intros n v. unfold mentions. rewrite Ht. apply filled_contains.
Qed.
(** The keys and the placeholders of a template are literals. *)
Ltac rendered name ks :=
  match goal with
  | |- context [Feedback.render name ?values] =>
      let r := fresh "r" in let E := fresh "Er" in let H := fresh "Hr" in
      destruct (render_has name ks values) as (r & E & H); [vm_compute; reflexivity|vm_compute; reflexivity|];
      rewrite E; cbn [mbind res_bind]
  end.
Ltac mentioned name n :=
  match goal with
  | H : ∀ m v, mentions name m = true → _ |- _ => apply (H n); vm_compute; reflexivity
  end.

Section feedback.
Context (to_string : Value → str) (assertions errors : str → list str).

Lemma guidance_found kind message :
  ∃ g, match FEEDBACK_ASSETS.["guidance"] with
       | Array l => l !! guidance_index kind message ≫= as_str
       | _ => None
       end = Some g.
Proof.
  assert (guidance_index kind message < 7) as Hlt by (unfold guidance_index; repeat case_match; lia).
  revert Hlt. generalize (guidance_index kind message). intros i Hlt.
  do 7 (destruct i as [|i]; [eexists; vm_compute; reflexivity|]). lia.
Qed.

Definition message_of (error : Value) : str := text to_string error (lit "error_message") (lit "No details").
Definition error_keys : list str :=
  [lit "error_type"; lit "error_msg"; lit "stage"; lit "previous_code"; lit "guidance"].

Lemma error_feedback_renders error code :
  ∃ r, error_feedback to_string assertions errors error code = Ok r
       ∧ contains r code = true ∧ contains r (message_of error) = true.
Proof.
  unfold error_feedback, error_values. fold (message_of error).
  generalize (message_of error) (text to_string error (lit "error_type") (lit "Unknown"))
    (text to_string error (lit "stage") (lit "unknown")) (default [] (as_str (error.["traceback"])))
    (non_empty_str (error.["error_summary"])). intros message kind stage traceback summary.
  destruct (guidance_found kind message) as [g Hg]. rewrite Hg. cbn [ok_or mbind res_bind]. clear Hg error.
  generalize (cute_summary assertions errors traceback) (last_chars 1500 message) (last_chars 2000 traceback)
    (take 2000 traceback) (is_empty traceback)
    (contains traceback (lit "static assertion failed") || contains traceback (lit "copy_traits")).
  intros c1 c2 c3 c4 no_trace cute.
  rendered (lit "error_header") [lit "error_type"; lit "stage"].
  destruct summary as [summary|]; cbn [is_some];
    [rendered (lit "error_summary") [lit "error_summary"; lit "error_abbrev"]|rendered (lit "error_message") [lit "error_msg"]].
  all: destruct no_trace; [|destruct cute]; cbn [mbind res_bind];
    [|rendered (lit "error_cute") [lit "cute_summary"; lit "traceback_tail"]
     |rendered (lit "error_traceback") [lit "traceback_head"]].
  all: rendered (lit "error_tail") [lit "guidance"; lit "previous_code"; lit "error_msg"].
  all: eexists; split; [reflexivity|]; split; repeat apply contains_app_r;
    [mentioned (lit "error_tail") (lit "previous_code")|mentioned (lit "error_tail") (lit "error_msg")].
Qed.
Lemma profile_feedback_renders profile code :
  ∃ r, profile_feedback to_string profile code = Ok r ∧ contains r code = true.
Proof.
  unfold profile_feedback, profile_values.
  generalize (text to_string profile (lit "bottleneck_type") (lit "Unknown")) (text to_string profile (lit "severity") (lit "Unknown"))
    (fixed 1 (default fzero (as_f64 (profile.["priority_score"]))))
    (fixed 1 (default fzero (as_f64 (profile.["estimated_improvement"]))))
    (match non_empty_array (profile.["optimization_recommendations"]) with
     | Some items => numbered (λ v, default [] (as_str v)) items
     | None => lit "No specific recommendations available."
     end) (non_empty_array (profile.["rule_recommendations"])) (non_empty_str (profile.["detailed_analysis"])).
  intros v1 v2 v3 v4 v5 rules details.
  destruct rules as [rules|]; [generalize (numbered ranked_rule rules); intros ranked; rendered (lit "rules") [lit "ranked"]|];
    cbn [mbind res_bind].
  all: rendered (lit "profile_header") [lit "rule_block"; lit "bottleneck"; lit "severity"; lit "priority"; lit "improvement"; lit "recs_text"].
  all: destruct details as [details|]; cbn [is_some mbind res_bind]; [rendered (lit "profile_details") [lit "detailed"]|].
  all: rendered (lit "profile_tail") [lit "previous_code"].
  all: eexists; split; [reflexivity|]; repeat apply contains_app_r;
    mentioned (lit "profile_tail") (lit "previous_code").
Qed.

(** C21: every candidate gets its feedback: no template, value or guidance is ever
    missing, whatever the parent's record holds.  The text has the code of the
    parent and the hint, and after a failure the message of the error. *)
Theorem feedback_always_renders payload :
  ∃ t, feedback to_string assertions errors payload = Ok (json ["text" ↦ String t])
    ∧ (is_null (payload.["parent"]) = false →
       contains t (default [] (as_str (payload.["parent"].["submission"].["code"]))) = true)
    ∧ (is_null (payload.["parent"]) = false →
       value_eqb (payload.["parent"].["outcome"].["status"]) (jstr "failed") = true →
       contains t (message_of (payload.["parent"].["outcome"].["error_context"])) = true)
    ∧ (∀ hint, non_empty_str (payload.["hint"]) = Some hint → contains t hint = true).
Proof.
  unfold feedback. set (parent := payload.["parent"]). set (code := default [] (as_str (parent.["submission"].["code"]))).
  set (failed := value_eqb (parent.["outcome"].["status"]) (jstr "failed")).
  assert (∃ r, (if is_null parent then Ok []
                else if failed then error_feedback to_string assertions errors (parent.["outcome"].["error_context"]) code
                else if has_entries (parent.["analysis"]) then profile_feedback to_string (parent.["analysis"]) code
                else if value_eqb (payload.["mode"]) (jstr "initial") then Feedback.render (lit "fresh") ["previous_code" ↦ code]
                else Ok code) = Ok r
    ∧ (is_null parent = false → contains r code = true)
    ∧ (is_null parent = false → failed = true → contains r (message_of (parent.["outcome"].["error_context"])) = true))
    as (r & Hr & Hcode & Hmsg).
  { destruct (is_null parent); [by eexists|]. destruct failed.
    - destruct (error_feedback_renders (parent.["outcome"].["error_context"]) code) as (r & -> & ? & ?). eauto.
    - destruct (has_entries _).
      + destruct (profile_feedback_renders (parent.["analysis"]) code) as (r & -> & ?). by exists r.
      + destruct (value_eqb _ _); [|exists code; split_and!; [done| |done]; intros _; apply contains_refl].
        clearbody code. rendered (lit "fresh") [lit "previous_code"]. exists r. split_and!; [done| |done].
        intros _. mentioned (lit "fresh") (lit "previous_code"). }
  rewrite Hr. cbn [mbind res_bind]. destruct (non_empty_str (payload.["hint"])) as [hint|]; cbn [mbind res_bind].
  2:{ exists r. split_and!; [done..|]. by intros. }
  clear Hr. rendered (lit "hint") [lit "hint"]. eexists. split; [reflexivity|]. split_and!.
  - intros H. by apply contains_app_l, Hcode.
  - intros H1 H2. by apply contains_app_l, Hmsg.
  - intros h [= <-]. repeat apply contains_app_r. mentioned (lit "hint") (lit "hint").
Qed.
End feedback.
