(* ===== verification/Analyzers.v ===== *)
(** * kernel: the analyzers of a profile

    [kernel/src/domain/analyzers]: the registry of analyzers ([mod.rs]), those of
    numeric metrics ([numeric.rs]) and of compiled instructions ([sass.rs]), and
    the tool call [invoke].  Registry and texts are the bundled ones of
    [KernelAssets]; [to_string] of [serde_json] is a parameter. *)
From Stdlib Require Import ZArith.
From S2P Require Import Prelude Str Float64 Json JsonOps Search KernelIo Fmt KernelAssets.

(** ** Reading the assets *)
Record Tool := { tool_name : str; description : str; priority : N; required : list str }.
Record Output := {
  severity : str;
  title : str;
  summary : str;
  metrics_observed : Map;
  metrics_thresholds : Map;
  root_cause : str;
  recommendations : list str;
  expected_improvement : str;
  code_example : option str;
  references : list str;
}.

Definition as_u64 (v : Value) : option N := match v with Num (PosInt n) => Some n | _ => None end.
Definition str_items (v : Value) : option (list str) := l ← as_array v; mapM as_str l.
(** The derived readers, on objects; [None] is an error. *)
Definition tool_from_value (v : Value) : option Tool :=
  name ← get v (lit "name") ≫= as_str;
  description ← get v (lit "description") ≫= as_str;
  priority ← get v (lit "priority") ≫= as_u64;
  required ← get v (lit "required") ≫= str_items;
  Some {| tool_name := name; description := description; priority := priority; required := required |}.
(** [#[serde(default)]]: a field that is missing has the default of its type. *)
Definition field {A} (v : Value) (key : str) (read : Value → option A) (d : A) : option A :=
  match get v key with Some x => read x | None => Some d end.
Definition optional_str (v : Value) : option (option str) :=
  match v with Null => Some None | String s => Some (Some s) | _ => None end.
Definition output_from_value (v : Value) : option Output :=
  _ ← as_object v;
  severity ← field v (lit "severity") as_str [];
  title ← field v (lit "title") as_str [];
  summary ← field v (lit "summary") as_str [];
  observed ← field v (lit "metrics_observed") as_object [];
  thresholds ← field v (lit "metrics_thresholds") as_object [];
  root_cause ← field v (lit "root_cause") as_str [];
  recommendations ← field v (lit "recommendations") str_items [];
  expected ← field v (lit "expected_improvement") as_str [];
  example ← field v (lit "code_example") optional_str None;
  references ← field v (lit "references") str_items [];
  Some {| severity := severity; title := title; summary := summary; metrics_observed := observed;
          metrics_thresholds := thresholds; root_cause := root_cause; recommendations := recommendations;
          expected_improvement := expected; code_example := example; references := references |}.

(** [registered]: the panic of a registry that does not parse. *)
Definition registered : result (list Tool) :=
  match as_array (ANALYZER_ASSETS.["registry"]) ≫= mapM tool_from_value with
  | Some tools => Ok tools
  | None => Panic
  end.
Definition priority_ge (a b : Tool) : Prop := (priority b <= priority a)%N.
#[export] Instance priority_ge_dec a b : Decision (priority_ge a b).
Proof. unfold priority_ge. apply _. Defined.
(** [sort_by_key(Reverse(priority))], a stable sort. *)
Definition prioritized : result (list Tool) := tools ← registered; Ok (stable_sort priority_ge tools).

Definition affinity (name : str) : option str :=
  if str_eqb name (lit "tensor_core_underutilization") || str_eqb name (lit "wgmma_instruction_detector")
  then Some (lit "compute_bound")
  else if str_eqb name (lit "memory_coalescing") || str_eqb name (lit "high_dram_throughput")
  then Some (lit "memory_bound")
  else None.
Definition selected (bottleneck : str) : result (option (list Tool)) :=
  if str_eqb bottleneck (lit "compute_bound") || str_eqb bottleneck (lit "memory_bound") then
    tools ← registered;
    Ok (Some (filter (λ t, is_none_or (str_eqb bottleneck) (affinity (tool_name t)) = true) tools))
  else if existsb (str_eqb bottleneck)
            [[]; lit "mixed"; lit "latency_bound"; lit "occupancy_limited"; lit "launch_overhead"] then Ok None
  else Err (lit "unknown bottleneck: " ++ bottleneck).

(** [Output::base]. *)
Definition base (key : str) : result Output :=
  ok_or (output_from_value (at_key (ANALYZER_ASSETS.["outputs"]) key)) (lit "invalid analyzer output").

(** ** Changing an output *)
Definition with_severity (s : str) (o : Output) : Output :=
  {| severity := s; title := title o; summary := summary o; metrics_observed := metrics_observed o;
     metrics_thresholds := metrics_thresholds o; root_cause := root_cause o; recommendations := recommendations o;
     expected_improvement := expected_improvement o; code_example := code_example o; references := references o |}.
Definition with_title (s : str) (o : Output) : Output :=
  {| severity := severity o; title := s; summary := summary o; metrics_observed := metrics_observed o;
     metrics_thresholds := metrics_thresholds o; root_cause := root_cause o; recommendations := recommendations o;
     expected_improvement := expected_improvement o; code_example := code_example o; references := references o |}.
Definition with_summary (s : str) (o : Output) : Output :=
  {| severity := severity o; title := title o; summary := s; metrics_observed := metrics_observed o;
     metrics_thresholds := metrics_thresholds o; root_cause := root_cause o; recommendations := recommendations o;
     expected_improvement := expected_improvement o; code_example := code_example o; references := references o |}.
Definition observed (m : Map) (o : Output) : Output :=
  {| severity := severity o; title := title o; summary := summary o; metrics_observed := m;
     metrics_thresholds := metrics_thresholds o; root_cause := root_cause o; recommendations := recommendations o;
     expected_improvement := expected_improvement o; code_example := code_example o; references := references o |}.
(** [output.recommendations[i] = s]. *)
Definition set_recommendation (i : nat) (s : str) (o : Output) : result Output :=
  if decide (i < length (recommendations o)) then
    Ok {| severity := severity o; title := title o; summary := summary o; metrics_observed := metrics_observed o;
          metrics_thresholds := metrics_thresholds o; root_cause := root_cause o;
          recommendations := <[i := s]> (recommendations o); expected_improvement := expected_improvement o;
          code_example := code_example o; references := references o |}
  else Panic.

(** The names and severities of the bundle are ASCII. *)
Definition upper_char (c : char) : char := if ((97 <=? c) && (c <=? 122))%N then (c - 32)%N else c.
Definition to_uppercase (s : str) : str := upper_char <$> s.
(** [title]. *)
Definition title_case (value : str) : str :=
  Str.join [SP] ((λ part, match part with c :: rest => upper_char c :: rest | [] => [] end) <$> split_on 95 value).

Section analyzers.
Context (to_string : Value → str).

Definition display (v : Value) : str :=
  match v with
  | String s => s
  | Null => lit "None"
  | Bool b => if b then lit "True" else lit "False"
  | v => to_string v
  end.

(** [Value::from(f64)]: a number that is not finite becomes null. *)
Definition from_f64 (x : f64) : Value := if is_finite x then Num (Float x) else Null.
(** [replace([',', '%'], "")]. *)
Definition strip_marks (s : str) : str := filter (λ c, ((c =? 44) || (c =? 37))%N = false) s.
Definition metric (metrics : Value) (key : str) (default_ : Value) : Value :=
  match get metrics key with
  | Some (Num n) => Num n
  | Some (Bool b) => Bool b
  | Some (String s) => from_option from_f64 default_ (parse_f64 (trim (strip_marks s)))
  | _ => default_
  end.
Definition number (metrics : Value) (key : str) (default_ : f64) : f64 :=
  match metric metrics key (from_f64 default_) with
  | Bool b => if b then of_Z 1 else fzero
  | v => default default_ (as_f64 v)
  end.

(** [Output::text]. *)
Definition Output_text (kernel : str) (o : Output) : str :=
  Str.join [LF]
    (([LF] ++ lit "### [" ++ to_uppercase (severity o) ++ lit "] " ++ title o)
     :: (if is_empty (summary o) then [] else [[LF] ++ lit "**Kernel `" ++ kernel ++ lit "`**: " ++ summary o])
     ++ (if is_empty (metrics_observed o) then []
         else ([LF] ++ lit "**Observed Metrics:**")
              :: ((λ kv, lit "- `" ++ kv.1 ++ lit "`: " ++ display kv.2
                     ++ match mget (metrics_thresholds o) kv.1 with
                        | Some Null | None => []
                        | Some v => lit " (threshold: " ++ display v ++ lit ")"
                        end) <$> metrics_observed o))
     ++ (if is_empty (root_cause o) then [] else [[LF] ++ lit "**Root Cause:**" ++ [LF] ++ root_cause o])
     ++ (if is_empty (recommendations o) then []
         else ([LF] ++ lit "**Recommendations:**")
              :: imap (λ i r, show_nat (S i) ++ lit ". " ++ r) (recommendations o))
     ++ (if is_empty (expected_improvement o) then []
         else [[LF] ++ lit "**Expected Improvement:** " ++ expected_improvement o])
     ++ match code_example o with
        | Some example => [[LF] ++ lit "**Example Fix:**" ++ [LF] ++ lit "```cuda" ++ [LF] ++ example ++ [LF] ++ lit "```"]
        | None => []
        end
     ++ (if is_empty (references o) then []
         else ([LF] ++ lit "**References:**") :: ((λ r, lit "- " ++ r) <$> references o))).

(** ** Numeric metrics *)
Definition fge (x y : f64) : bool := fgt x y || feq x y.
Definition pct (x : f64) : str := fixed 1 x ++ lit "%".
(** [min_by] of [total_cmp] on the second components, the first of the least. *)
Definition least (l : list (str * f64)) : option (str * f64) :=
  first_max (λ a b, bool_decide (¬ total_le b.2 a.2)) l.
Definition greatest (l : list (str * f64)) : option (str * f64) :=
  first_max (λ a b, bool_decide (¬ total_le a.2 b.2)) l.

Definition occupancy_limits (metrics : Value) : list (str * f64) :=
  [(lit "registers", number metrics (lit "launch__occupancy_limit_registers") (of_Z 100));
   (lit "shared_memory", number metrics (lit "launch__occupancy_limit_shared_mem") (of_Z 100));
   (lit "block_count", number metrics (lit "launch__occupancy_limit_blocks") (of_Z 100))].
Definition occupancy_limiter (name : str) (metrics : Value) : result (option Output) :=
  let occupancy := number metrics (lit "sm__warps_active.avg.pct_of_peak_sustained_active") (of_Z 100) in
  if fge occupancy (of_Z 50) then Ok None
  else
    limit ← ok_or (least (occupancy_limits metrics)) (lit "occupancy limiters");
    let limiter := limit.1 in
    let shown key := display (metric metrics key (jnat 100)) ++ lit "%" in
    output ← base (name ++ lit ":" ++ limiter);
    let output := with_severity (if flt occupancy (of_Z 30) then lit "high" else lit "medium") output in
    let output := with_title (lit "Low Occupancy (Limited by " ++ title_case limiter ++ lit ")") output in
    let output := with_summary (lit "Warp occupancy at " ++ fixed 1 occupancy ++ lit "% - limited by " ++ limiter) output in
    let output := observed
      ["Warp occupancy" ↦ String (pct occupancy);
       "Registers per thread" ↦ String (display (metric metrics (lit "launch__registers_per_thread") (jnat 32)));
       "Occupancy limit (registers)" ↦ String (shown (lit "launch__occupancy_limit_registers"));
       "Occupancy limit (shared mem)" ↦ String (shown (lit "launch__occupancy_limit_shared_mem"));
       "Occupancy limit (blocks)" ↦ String (shown (lit "launch__occupancy_limit_blocks"))] output in
    output ← (if str_eqb limiter (lit "registers") then
                set_recommendation 0 (lit "Current register usage: "
                  ++ fixed 0 (number metrics (lit "launch__registers_per_thread") (of_Z 32))
                  ++ lit " per thread (target: <64)") output
              else Ok output);
    Ok (Some output).

Definition stall_reasons : list str :=
  [lit "memory_dependency"; lit "short_scoreboard"; lit "long_scoreboard"; lit "barrier"; lit "branch_resolving"].
Definition stall_labels : list str :=
  [lit "Memory dependency stalls"; lit "Short scoreboard stalls"; lit "Long scoreboard stalls";
   lit "Barrier stalls"; lit "Branch resolving stalls"].
Definition stalls (metrics : Value) : list (str * f64) :=
  (λ reason, (reason, number metrics (lit "smsp__warp_issue_stalled_" ++ reason ++ lit "_per_warp_active.pct") fzero))
    <$> stall_reasons.
Definition warp_stall_analyzer (name : str) (metrics : Value) : result (option Output) :=
  dominant ← ok_or (greatest (stalls metrics)) (lit "stall metrics");
  let '(reason, value) := dominant in
  if flt value (of_Z 40) then Ok None
  else
    output ← base (name ++ lit ":" ++ reason);
    let output := with_severity (if fge value (of_Z 60) then lit "high" else lit "medium") output in
    let output := with_title (lit "High Warp Stalls (" ++ title_case reason ++ lit ")") output in
    let output := with_summary (fixed 1 value ++ lit "% of warps stalled on " ++ reason) output in
    Ok (Some (observed (minsert (lit "Dominant stall") (String reason)
      (mextend [] (zip_with (λ label v, (label, String (pct v.2))) stall_labels (stalls metrics)))) output)).

Definition tensor_core_underutilization (metrics : Value) (output : Output) : option Output :=
  let value := number metrics (lit "sm__inst_executed_pipe_tensor.avg.pct_of_peak_sustained_active") (of_Z 100) in
  if fge value (of_Z 10) then None
  else Some (observed ["tensor_core_utilization" ↦ String (pct value)]
    (with_summary (lit "Only " ++ fixed 1 value
       ++ lit "% tensor core utilization (essentially not using Tensor Cores)") output)).
Definition memory_coalescing (metrics : Value) (output : Output) : option Output :=
  let l1 := number metrics (lit "l1tex__t_sector_hit_rate.pct") (of_Z 100) in
  let l2 := number metrics (lit "lts__t_sector_hit_rate.pct") (of_Z 100) in
  let stalled := number metrics (lit "smsp__warp_issue_stalled_memory_dependency_per_warp_active.pct") fzero in
  let critical := flt l1 (of_Z 30) && fgt stalled (of_Z 40) in
  if negb (critical || (flt l1 (of_Z 70) && fgt stalled (of_Z 20))) then None
  else Some (observed ["L1 cache hit rate" ↦ String (pct l1); "L2 cache hit rate" ↦ String (pct l2);
                       "Memory dependency stalls" ↦ String (pct stalled)]
    (with_summary (lit "L1 hit rate: " ++ fixed 1 l1 ++ lit "% (target: >70.0%), memory stalls: " ++ pct stalled)
       (with_severity (if critical then lit "high" else lit "medium") output))).
Definition high_dram_throughput (metrics : Value) (output : Output) : option Output :=
  let value := number metrics (lit "dram__throughput.avg.pct_of_peak_sustained_elapsed") fzero in
  let value := if feq value fzero
               then number metrics (lit "gpu__dram_throughput.avg.pct_of_peak_sustained_elapsed") fzero else value in
  if flt value (of_Z 80) then None
  else Some (observed ["DRAM throughput" ↦ String (pct value ++ lit " of peak")]
    (with_summary (lit "DRAM throughput at " ++ pct value ++ lit " of peak - kernel is memory-bound")
       (with_title (lit "Memory-Bound Kernel" ++ if fge value (of_Z 95) then lit " (Saturated)" else [])
          (with_severity (if fge value (of_Z 95) then lit "high" else lit "medium") output)))).
Definition high_register_usage (metrics : Value) (output : Output) : option Output :=
  let value := number metrics (lit "launch__registers_per_thread") (of_Z 32) in
  if flt value (of_Z 96) then None
  else Some (observed ["Registers per thread" ↦ String (fixed 0 value)]
    (with_summary (fixed 0 value ++ lit " registers per thread - may cause register spilling")
       (with_title (lit "High Register Usage" ++ if fge value (of_Z 128) then lit " (Likely Spilling)" else [])
          (with_severity (if fge value (of_Z 128) then lit "high" else lit "medium") output)))).
Definition barrier_stall_detector (metrics : Value) (output : Output) : option Output :=
  let value := number metrics (lit "smsp__warp_issue_stalled_barrier_per_warp_active.pct") fzero in
  if flt value (of_Z 30) then None
  else Some (observed ["Barrier stalls" ↦ String (pct value)]
    (with_summary (pct value ++ lit " of warps stalled at __syncthreads()") output)).

(** [numeric::analyze]. *)
Definition numeric_analyze (name : str) (metrics : Value) : result (option Output) :=
  if str_eqb name (lit "occupancy_limiter") then occupancy_limiter name metrics
  else if str_eqb name (lit "warp_stall_analyzer") then warp_stall_analyzer name metrics
  else
    output ← base name;
    if str_eqb name (lit "tensor_core_underutilization") then Ok (tensor_core_underutilization metrics output)
    else if str_eqb name (lit "memory_coalescing") then Ok (memory_coalescing metrics output)
    else if str_eqb name (lit "high_dram_throughput") then Ok (high_dram_throughput metrics output)
    else if str_eqb name (lit "high_register_usage") then Ok (high_register_usage metrics output)
    else if str_eqb name (lit "barrier_stall_detector") then Ok (barrier_stall_detector metrics output)
    else Err (lit "unsupported analyzer " ++ name).

(** ** Compiled instructions *)
Definition no_entries (v : Value) : bool := is_none_or is_empty (as_object v).
Definition count (sass : Value) (kind : str) : N := default 0%N (as_u64 (at_key sass (kind ++ lit "_count"))).
Definition tensor_kinds : list str := [lit "wgmma"; lit "hmma"; lit "imma"; lit "dmma"; lit "bmma"].
Definition tensor_kind (sass : Value) : str :=
  default (if value_eqb (sass.["uses_cublas"]) (Bool true) then lit "cublas" else lit "none")
    (find_first (λ kind, (0 <? count sass kind)%N) tensor_kinds).
Definition jN (n : N) : Value := Num (PosInt n).
Definition cublas_symbols (sass : Value) : list str :=
  omap as_str (default [] (as_array (sass.["cublas_symbols"]))).

Definition tensor (sass : Value) : result (option Output) :=
  if no_entries sass then Ok None
  else
    let count := count sass in
    let kind := tensor_kind sass in
    output ← base (lit "wgmma_instruction_detector:" ++ kind);
    let value := count kind in
    output ←
      (if str_eqb kind (lit "wgmma") then
         let output := with_summary (lit "Kernel uses " ++ show_N value
                         ++ lit " WGMMA (Hopper tensor core) instructions") output in
         let output := observed ["WGMMA count" ↦ jN value; "HMMA count" ↦ jN (count (lit "hmma"));
           "Uses TMA" ↦ if (0 <? count (lit "tma"))%N then jstr "Yes" else jstr "No"] output in
         if (0 <? count (lit "tma"))%N
         then set_recommendation 1 (lit "TMA is being used for efficient memory access") output else Ok output
       else if str_eqb kind (lit "hmma") then
         Ok (observed ["HMMA count" ↦ jN value; "WGMMA count" ↦ jN 0]
           (with_summary (lit "Kernel uses " ++ show_N value
              ++ lit " HMMA instructions (Ampere-style) instead of WGMMA (Hopper)") output))
       else if str_eqb kind (lit "imma") then
         Ok (observed ["IMMA count" ↦ jN value; "WGMMA count" ↦ jN (count (lit "wgmma"));
                       "HMMA count" ↦ jN (count (lit "hmma"))]
           (with_summary (lit "Kernel uses " ++ show_N value
              ++ lit " IMMA instructions (INT8/INT4 tensor core ops)") output))
       else if str_eqb kind (lit "dmma") then
         Ok (observed ["DMMA count" ↦ jN value]
           (with_summary (lit "Kernel uses " ++ show_N value
              ++ lit " DMMA instructions (FP64 tensor core ops)") output))
       else if str_eqb kind (lit "bmma") then
         Ok (observed ["BMMA count" ↦ jN value]
           (with_summary (lit "Kernel uses " ++ show_N value
              ++ lit " BMMA instructions (INT1 binary tensor core ops)") output))
       else if str_eqb kind (lit "cublas") then
         let symbols := cublas_symbols sass in
         Ok (observed ["cuBLAS symbols" ↦ String (Str.join (lit ", ") (take 3 symbols));
                       "WGMMA count" ↦ jN 0; "HMMA count" ↦ jN 0;
                       "Note" ↦ jstr "cuBLAS JIT-compiles TC kernels at runtime; SASS only shows the dispatcher"]
           (with_summary (lit "Kernel links cuBLAS (" ++ Str.join (lit ", ") (take 2 symbols)
              ++ lit "). cuBLAS auto-uses tensor cores on modern GPUs.") output))
       else if str_eqb kind (lit "none") then
         Ok (observed ["WGMMA count" ↦ jN 0; "HMMA count" ↦ jN 0; "IMMA count" ↦ jN 0; "DMMA count" ↦ jN 0;
                       "FFMA (FP32 FMA) count" ↦ jN (count (lit "ffma"));
                       "LDG/STG count" ↦ String (show_N (count (lit "ldg")) ++ lit "/" ++ show_N (count (lit "stg")))]
           (with_summary (lit "Kernel has 0 tensor core instructions (WGMMA/HMMA/IMMA/DMMA/BMMA) in compiled binary")
              output))
       else Panic);
    Ok (Some output).

(** A metric of [spills]: missing is the default, text is an error. *)
Definition spill_metric (metrics : Value) (key : str) (default_ : f64) : result f64 :=
  match get metrics key with
  | None => Ok default_
  | Some v => ok_or (as_f64 v) (lit "nonnumeric spill metric " ++ key)
  end.
(** [a + b] on [u64]. *)
Definition u64_add (a b : N) : result N := if (a + b <? 2 ^ 64)%N then Ok (a + b)%N else Panic.

Definition spills (metrics sass : Value) : result (option Output) :=
  if no_entries sass then Ok None
  else
    let stl := count sass (lit "stl") in
    let ldl := count sass (lit "ldl") in
    total_spills ← u64_add stl ldl;
    if (total_spills =? 0)%N then Ok None
    else
      let get := spill_metric metrics in
      scoreboard ← get (lit "smsp__warp_issue_stalled_long_scoreboard_per_warp_active.pct") fzero;
      compute ← get (lit "sm__throughput.avg.pct_of_peak_sustained_elapsed") fzero;
      memory ← get (lit "gpu__dram_throughput.avg.pct_of_peak_sustained_elapsed") fzero;
      local_ld ← get (lit "l1tex__t_sectors_pipe_lsu_mem_local_op_ld.sum") fzero;
      local_st ← get (lit "l1tex__t_sectors_pipe_lsu_mem_local_op_st.sum") fzero;
      let local := fadd local_ld local_st in
      global_ld ← get (lit "l1tex__t_sectors_pipe_lsu_mem_global_op_ld.sum") fzero;
      global_st ← get (lit "l1tex__t_sectors_pipe_lsu_mem_global_op_st.sum") fzero;
      let total := fadd (fadd local global_ld) global_st in
      let traffic := if fgt total fzero then fdiv local total else fzero in
      occupancy ← get (lit "launch__occupancy_limit_registers") (of_Z 1);
      activity ← get (lit "smsp__issue_active.avg.pct_of_peak_sustained_active") (of_Z 100);
      eligible ← get (lit "smsp__warps_eligible.avg.per_cycle_active") (of_Z 100);
      if negb ((fgt scoreboard (of_Z 15) && flt compute (of_Z 50) && flt memory (of_Z 50))
               || (fgt memory (of_Z 60) && fgt traffic (ratio 3 10))
               || (flt occupancy (of_Z 1) && (flt activity (of_Z 30) || flt eligible (ratio 6 10))))
      then Ok None
      else
        output ← base (lit "register_spill_detector");
        Ok (Some (observed
          ["STL (Store to Local)" ↦ jN stl; "LDL (Load from Local)" ↦ jN ldl;
           "long_scoreboard" ↦ String (pct scoreboard); "compute_throughput" ↦ String (pct compute);
           "memory_throughput" ↦ String (pct memory);
           "local_traffic_ratio" ↦ String (pct (fmul traffic (of_Z 100)))]
          (with_summary (show_N stl ++ lit " STL + " ++ show_N ldl ++ lit " LDL spill instructions detected") output))).

(** ** Tools *)
Definition should_trigger (tool : Tool) (metrics : Value) : bool :=
  forallb (λ key, is_some (get metrics key)) (required tool).
Definition tool_analyze (tool : Tool) (metrics sass : Value) : result (option Output) :=
  if str_eqb (tool_name tool) (lit "wgmma_instruction_detector") then tensor sass
  else if str_eqb (tool_name tool) (lit "register_spill_detector") then spills metrics sass
  else numeric_analyze (tool_name tool) metrics.

Definition tool_result (tool : Tool) (sass : Value) (name : str) (metrics : Value) : result str :=
  if negb (should_trigger tool metrics) then
    Ok (lit "[" ++ tool_name tool ++ lit "] Kernel `" ++ name ++ lit "`: not triggered (thresholds not met)")
  else
    r ← tool_analyze tool metrics sass;
    Ok (match r with
        | Some output => Output_text name output
        | None => lit "[" ++ tool_name tool ++ lit "] Kernel `" ++ name ++ lit "`: analyzed but no issue detected"
        end).
Definition invoke (payload : Value) : result Value :=
  tools ← registered;
  tool ← ok_or (find_first (λ t, value_eqb (payload.["name"]) (String (tool_name t))) tools)
           (lit "unsupported or deferred analyzer");
  metrics ← ok_or (as_object (payload.["report"].["metrics"])) (lit "report metrics");
  results ← res_mapM (λ km, tool_result tool (payload.["report"].["sass"]) km.1 km.2) metrics;
  Ok (json ["text" ↦ String (if is_empty results then lit "[" ++ tool_name tool ++ lit "] No kernels to analyze"
                             else Str.join [LF] results)]).
End analyzers.
