(* ===== verification/Analysis.v ===== *)
(** * kernel: the analysis of a report

    [analyze] of [kernel/src/domain/analysis.rs]: the text a profiling session
    starts with, the tools it may call and the analyzers that were selected for
    the bottleneck. *)
From Stdlib Require Import ZArith.
From S2P Require Import Prelude Str Float64 Json JsonOps Search KernelIo Fmt KernelAssets Feedback Analyzers.

Section analysis.
Context (to_string : Value → str).

Definition metric_groups : list str :=
  [lit "compute"; lit "memory"; lit "occupancy"; lit "stall"; lit "timing"; lit "branch"].
(** The label of a group: its first letter in upper case. *)
Definition capitalized (group : str) : str :=
  match group with c :: rest => upper_char c :: rest | [] => [] end.
Definition group_lines (metrics : Value) (group : str) : result (list str) :=
  keys ← ok_or (as_array (at_key METRIC_GROUPS group)) (lit "metric group");
  shown ← res_mapM (λ k,
    key ← ok_or (as_str k) (lit "metric name");
    Ok (match get metrics key with
        | Some v => [lit "- `" ++ key ++ lit "`: " ++ display to_string v]
        | None => []
        end)) keys;
  Ok (((if str_eqb group (lit "compute") then [] else [LF]) ++ lit "### " ++ capitalized group ++ lit " Metrics:")
      :: concat shown).

(** Instructions were found, but none of a tensor core. *)
Definition no_tensor_cores (sass : Value) : bool :=
  has_entries sass && forallb (λ kind, (count sass kind =? 0)%N) tensor_kinds
  && negb (value_eqb (sass.["uses_cublas"]) (Bool true)).
Definition sass_lines (sass : Value) : list str :=
  if no_tensor_cores sass then
    [[LF] ++ lit "### SASS Binary Analysis (Bottleneck Detected)";
     lit "- WGMMA instructions (Hopper TC): 0";
     lit "- HMMA instructions (Ampere TC): 0";
     lit "- cuBLAS detected: No";
     lit "- FP32 FMA (FFMA): " ++ show_N (count sass (lit "ffma"));
     [LF] ++ lit "**SASS Analysis: 0 tensor core instructions detected.**";
     lit "If this kernel performs matrix operations, consider leveraging tensor core instructions (cuBLAS, CUTLASS, or inline PTX) to improve performance."]
  else [].

(** The outputs of the tools that trigger and find something. *)
Definition guidance_lines (tools : list Tool) (name : str) (metrics sass : Value) : result (list str) :=
  found ← res_mapM (λ tool,
    if should_trigger tool metrics then
      r ← tool_analyze to_string tool metrics sass;
      Ok (match r with Some output => [Output_text to_string name output] | None => [] end)
    else Ok []) tools;
  let guidance := concat found in
  Ok (if is_empty guidance then [] else [[LF] ++ lit "## Automated Bottleneck Analysis"; Str.join [LF] guidance]).
Definition tool_lines (bottleneck : str) (all_tools : list Tool) : list str :=
  [[LF] ++ lit "## Available Analysis Tools";
   lit "Stage 1 bottleneck classification: **"
     ++ (if is_empty bottleneck then lit "None" else lit "BottleneckType." ++ to_uppercase bottleneck) ++ lit "**";
   lit "You may call any of the following tools to get detailed analysis:"]
  ++ ((λ t, lit "- **" ++ tool_name t ++ lit "**: " ++ description t) <$> all_tools).

Definition kernel_lines (report : Value) (proactive : bool) (bottleneck : str) (tools all_tools : list Tool)
    (v : Value) : result (list str) :=
  name ← ok_or (as_str v) (lit "kernel name");
  match get (report.["metrics"]) name with
  | None => Ok []
  | Some metrics =>
      groups ← res_mapM (group_lines metrics) metric_groups;
      let sass := report.["sass"] in
      guidance ← (if proactive then guidance_lines tools name metrics sass else Ok (tool_lines bottleneck all_tools));
      Ok ((lit "## Kernel: " ++ name ++ [LF]) :: concat groups ++ sass_lines sass ++ guidance ++ [[LF]])
  end.

Definition rules_text (report : Value) (text : str) : str :=
  match non_empty_array (report.["rule_recommendations"]) with
  | Some rules => RULES_HEADER ++ [LF] ++ numbered ranked_rule rules ++ [LF; LF] ++ text
  | None => text
  end.
Definition tool_value (t : Tool) : Value :=
  json ["name" ↦ String (tool_name t); "description" ↦ String (description t)].

Definition analyze (payload : Value) : result Value :=
  let report := payload.["report"] in
  let mode := default (lit "proactive") (as_str (payload.["tool_mode"])) in
  ensure (str_eqb mode (lit "proactive") || str_eqb mode (lit "reactive")) (lit "unknown profiling mode");;
  let bottleneck := default [] (as_str (payload.["bottleneck"])) in
  selected_tools ← selected bottleneck;
  all_registered ← registered;
  let selected_names := tool_name <$> default all_registered selected_tools in
  all_tools ← prioritized;
  let tools := default all_tools selected_tools in
  names ← ok_or (as_array (report.["kernel_names"])) (lit "kernel names");
  let proactive := str_eqb mode (lit "proactive") in
  kernels ← res_mapM (kernel_lines report proactive bottleneck tools all_tools) names;
  let lines := (lit "# GPU Profiling Metrics" ++ [LF]) :: concat kernels
    ++ [[LF] ++ lit "Provide your analysis following the guidelines in the system instructions."] in
  Ok (json ["text" ↦ String (rules_text report (Str.join [LF] lines));
            "selected_tools" ↦ Array (if proactive then String <$> selected_names else []);
            "tools" ↦ Array (if str_eqb mode (lit "reactive") then tool_value <$> all_tools else [])]).
End analysis.
