(* ===== verification/AnalyzerProps.v ===== *)
(** * kernel: what the analyzers guarantee

    The bundled registry and texts are complete, the reported stall and limit are
    the extreme ones, and an analysis only fails on a malformed report. *)
From Stdlib Require Import ZArith SpecFloat.
From stdpp Require Import sorting sets.
From S2P Require Import Prelude Str Float64 Json JsonOps Search KernelIo Fmt KernelAssets Feedback.
From S2P Require Import FeedbackProps Analyzers Analysis.

(** ** The bundle *)
Definition TOOLS : list Tool := Eval vm_compute in match registered with Ok l => l | _ => [] end.
Lemma registered_tools : registered = Ok TOOLS.
Proof. vm_compute. reflexivity. Qed.

(** [base key] is bundled with at least [n] recommendations. *)
Definition bundled (key : str) (n : nat) : bool :=
  match base key with Ok o => n <=? length (recommendations o) | _ => false end.
Lemma bundled_base key n : bundled key n = true → ∃ o, base key = Ok o ∧ n ≤ length (recommendations o).
Proof. unfold bundled. destruct (base key) as [o| |]; [|done|done]. intros H%Nat.leb_le. eauto. Qed.

(** ** Extremes *)
Section extreme.
Context (le : f64 → f64 → Prop) `{!∀ x y, Decision (le x y)} `{!Transitive le}.
Hypothesis le_total : ∀ x y, le x y ∨ le y x.
(** The first of the elements below all others. *)
Lemma first_extreme (l : list (str * f64)) :
  l ≠ [] →
  ∃ w l1 l2, first_max (λ a b, bool_decide (¬ le b.2 a.2)) l = Some w ∧ l = l1 ++ w :: l2
    ∧ Forall (λ x, ¬ le x.2 w.2) l1 ∧ Forall (λ x, le w.2 x.2) l2.
Proof.
  intros Hne. set (gt := λ a b : str * f64, bool_decide (¬ le b.2 a.2)).
  assert (∀ x y z, True → True → True → gt x y = true → gt y z = true → gt x z = true) as Htrans.
  { intros x y z _ _ _. unfold gt. rewrite !bool_decide_eq_true. intros Hyx Hzy Hzx. apply Hzy.
    destruct (le_total x.2 y.2); [by transitivity x.2|done]. }
  assert (∀ x y z, True → True → True → gt x z = true → gt x y = true ∨ gt y z = true) as Hsplit.
  { intros x y z _ _ _. unfold gt. rewrite !bool_decide_eq_true. intros Hzx.
    destruct (decide (le y.2 x.2)) as [Hyx|]; [right|by left]. intros Hzy. apply Hzx. by transitivity y.2. }
  pose proof (first_max_spec gt (λ _, True) Htrans Hsplit l ltac:(by apply Forall_true)) as Hmax.
  destruct (first_max gt l) as [w|]; [|done]. destruct Hmax as (l1 & l2 & -> & H1 & H2).
  exists w, l1, l2. split_and!; [done..| |].
  - eapply Forall_impl; [exact H1|]. intros x Hx. by apply bool_decide_eq_true in Hx.
  - eapply Forall_impl; [exact H2|]. intros x Hx. apply bool_decide_eq_false in Hx. by destruct (decide (le w.2 x.2)).
Qed.
End extreme.

(** A least and a greatest entry, the first of its kind. *)
Lemma least_spec l :
  l ≠ [] → ∃ w, least l = Some w ∧ w ∈ l ∧ Forall (λ x, total_le w.2 x.2) l.
Proof.
  intros Hne. destruct (first_extreme total_le) with (l := l) as (w & l1 & l2 & Hw & -> & H1 & H2); [|done|].
  { intros x y. apply total_le_total. }
  exists w. split; [done|]. split; [set_solver|]. apply Forall_app. split; [|by constructor].
  eapply Forall_impl; [exact H1|]. intros x Hx. by destruct (total_le_total x.2 w.2).
Qed.
Lemma greatest_spec l :
  l ≠ [] → ∃ w, greatest l = Some w ∧ w ∈ l ∧ Forall (λ x, total_le x.2 w.2) l.
Proof.
  intros Hne. destruct (first_extreme (flip total_le)) with (l := l) as (w & l1 & l2 & Hw & -> & H1 & H2); [|done|].
  { intros x y. apply total_le_total. }
  exists w. split; [done|]. split; [set_solver|]. apply Forall_app. split; [|by constructor].
  eapply Forall_impl; [exact H1|]. intros x Hx. by destruct (total_le_total x.2 w.2).
Qed.
(** Comparisons with [<] follow the total order. *)
Lemma total_le_rank x y :
  total_le x y → is_nan y = false → is_nan x = false ∧ ¬ rank_lt (rank y) (rank x).
Proof.
  unfold total_le. rewrite triple_leb_spec.
  destruct x as [[]|[]| |[] mx ex], y as [[]|[]| |[] my ey]; simpl; intros; split; done || lia.
Qed.
Lemma flt_not_nan x y : flt x y = true → is_nan x = false ∧ is_nan y = false.
Proof. by destruct x as [[]|[]| |[]], y as [[]|[]| |[]]. Qed.
Lemma flt_total x y z : total_le x y → flt y z = true → flt x z = true.
Proof.
  intros Hxy Hyz. destruct (flt_not_nan _ _ Hyz) as [Hy Hz]. destruct (total_le_rank x y Hxy Hy) as [Hx Hn].
  apply flt_rank in Hyz; [|done|done]. apply flt_rank; [done|done|].
  by destruct (rank_lt_split _ (rank x) _ Hyz).
Qed.

(** ** Every analyzer answers *)
Section answers.
Context (to_string : Value → str).
Implicit Types metrics sass : Value.

(** A metric of the spill detector that is not a number. *)
Definition spill_keys : list str :=
  [lit "smsp__warp_issue_stalled_long_scoreboard_per_warp_active.pct";
   lit "sm__throughput.avg.pct_of_peak_sustained_elapsed";
   lit "gpu__dram_throughput.avg.pct_of_peak_sustained_elapsed";
   lit "l1tex__t_sectors_pipe_lsu_mem_local_op_ld.sum"; lit "l1tex__t_sectors_pipe_lsu_mem_local_op_st.sum";
   lit "l1tex__t_sectors_pipe_lsu_mem_global_op_ld.sum"; lit "l1tex__t_sectors_pipe_lsu_mem_global_op_st.sum";
   lit "launch__occupancy_limit_registers"; lit "smsp__issue_active.avg.pct_of_peak_sustained_active";
   lit "smsp__warps_eligible.avg.per_cycle_active"].
Definition spill_metrics_numeric metrics : bool :=
  forallb (λ key, is_none_or (λ v, is_some (as_f64 v)) (get metrics key)) spill_keys.
Definition counts_fit sass : bool := (count sass (lit "stl") + count sass (lit "ldl") <? 2 ^ 64)%N.

Lemma spill_metric_ok metrics key d :
  spill_metrics_numeric metrics = true → key ∈ spill_keys → ∃ x, spill_metric metrics key d = Ok x.
Proof.
  unfold spill_metrics_numeric. rewrite forallb_forall. intros H Hk%list_elem_of_In. specialize (H key Hk).
  unfold spill_metric. destruct (get metrics key) as [v|]; [|by eexists]. simpl in *. destruct (as_f64 v); [by eexists|done].
Qed.
Lemma spills_answers metrics sass :
  spill_metrics_numeric metrics = true → counts_fit sass = true → ∃ r, spills metrics sass = Ok r.
Proof.
  intros Hm Hc. unfold spills, u64_add. destruct (no_entries sass); [by eexists|].
  unfold counts_fit in Hc. rewrite Hc. cbn [mbind res_bind]. destruct (_ =? 0)%N; [by eexists|].
  repeat (match goal with |- context [spill_metric metrics ?k ?d] =>
    let x := fresh "x" in let E := fresh in
    destruct (spill_metric_ok metrics k d Hm) as [x E]; [unfold spill_keys; set_solver|rewrite E; clear E; cbn [mbind res_bind]] end).
  case_match; [by eexists|].
  destruct (bundled_base (lit "register_spill_detector") 0 ltac:(vm_compute; reflexivity)) as (o & -> & _). by eexists.
Qed.

Lemma tensor_kind_cases sass :
  tensor_kind sass ∈ tensor_kinds ++ [lit "cublas"; lit "none"].
Proof.
  unfold tensor_kind. apply elem_of_app. destruct (find_first _ _) as [k|] eqn:E; simpl.
  - apply find_first_Some in E as [E _]. by left.
  - right. case_match; set_solver.
Qed.
Lemma tensor_answers sass : ∃ r, tensor sass = Ok r.
Proof.
  unfold tensor. destruct (no_entries sass); [by eexists|].
  assert (∃ o, base (lit "wgmma_instruction_detector:" ++ tensor_kind sass) = Ok o ∧ 2 ≤ length (recommendations o)) as (o & -> & Hr).
  { apply bundled_base. assert (Forall (λ k, bundled (lit "wgmma_instruction_detector:" ++ k) 2 = true)
      (tensor_kinds ++ [lit "cublas"; lit "none"])) as H by (repeat constructor).
    rewrite Forall_forall in H. apply H, tensor_kind_cases. }
  cbn [mbind res_bind]. pose proof (tensor_kind_cases sass) as Hk. revert Hk. generalize (tensor_kind sass). intros k Hk.
  assert (existsb (str_eqb k) (tensor_kinds ++ [lit "cublas"; lit "none"]) = true) as He.
  { apply existsb_exists. exists k. rewrite str_eqb_refl. by rewrite <-list_elem_of_In. }
  unfold set_recommendation. simpl in He |- *. repeat case_match; try (eexists; reflexivity).
  all: exfalso; simpl in *; lia || done.
Qed.

Definition occupancy_names : list str := [lit "registers"; lit "shared_memory"; lit "block_count"].
Lemma occupancy_answers metrics : ∃ r, occupancy_limiter to_string (lit "occupancy_limiter") metrics = Ok r.
Proof.
  unfold occupancy_limiter. destruct (fge _ _); [by eexists|].
  destruct (least_spec (occupancy_limits metrics)) as (w & -> & Hin & _); [done|]. cbn [ok_or mbind res_bind].
  assert (w.1 ∈ occupancy_names) as Hw.
  { apply (list_elem_of_fmap_2 fst) in Hin. exact Hin. }
  assert (∃ o, base (lit "occupancy_limiter" ++ lit ":" ++ w.1) = Ok o ∧ 1 ≤ length (recommendations o)) as (o & -> & Hr).
  { apply bundled_base. assert (Forall (λ k, bundled (lit "occupancy_limiter" ++ lit ":" ++ k) 1 = true) occupancy_names) as H
      by (repeat constructor). rewrite Forall_forall in H. by apply H. }
  cbn [mbind res_bind]. unfold set_recommendation. simpl. destruct (str_eqb _ _); [|by eexists].
  rewrite decide_True by lia. by eexists.
Qed.
Lemma stall_answers metrics : ∃ r, warp_stall_analyzer (lit "warp_stall_analyzer") metrics = Ok r.
Proof.
  unfold warp_stall_analyzer. destruct (greatest_spec (stalls metrics)) as ([reason value] & -> & Hin & _); [done|].
  cbn [ok_or mbind res_bind]. destruct (flt _ _); [by eexists|].
  assert (reason ∈ stall_reasons) as Hw by (apply (list_elem_of_fmap_2 fst) in Hin; exact Hin).
  assert (∃ o, base (lit "warp_stall_analyzer" ++ lit ":" ++ reason) = Ok o ∧ 0 ≤ length (recommendations o)) as (o & -> & _).
  { apply bundled_base. assert (Forall (λ k, bundled (lit "warp_stall_analyzer" ++ lit ":" ++ k) 0 = true) stall_reasons) as H
      by (repeat constructor). rewrite Forall_forall in H. by apply H. }
  by eexists.
Qed.
Definition simple_names : list str :=
  [lit "tensor_core_underutilization"; lit "memory_coalescing"; lit "high_dram_throughput";
   lit "high_register_usage"; lit "barrier_stall_detector"].
Lemma simple_answers name metrics : name ∈ simple_names → ∃ r, numeric_analyze to_string name metrics = Ok r.
Proof.
  intros Hn. assert (∃ o, base name = Ok o ∧ 0 ≤ length (recommendations o)) as (o & Ho & _).
  { apply bundled_base. assert (Forall (λ k, bundled k 0 = true) simple_names) as H by (repeat constructor).
    rewrite Forall_forall in H. by apply H. }
  unfold numeric_analyze. rewrite Ho. cbn [mbind res_bind].
  unfold simple_names in Hn. repeat (apply elem_of_cons in Hn as [->|Hn]; [by eexists|]). by apply elem_of_nil in Hn.
Qed.
(** The conditions under which an analyzer must answer. *)
Definition answerable metrics sass : bool := spill_metrics_numeric metrics && counts_fit sass.
Lemma tool_names :
  tool_name <$> TOOLS =
  [lit "tensor_core_underutilization"; lit "memory_coalescing"; lit "high_dram_throughput"; lit "occupancy_limiter";
   lit "high_register_usage"; lit "warp_stall_analyzer"; lit "barrier_stall_detector";
   lit "wgmma_instruction_detector"; lit "register_spill_detector"].
Proof. vm_compute. reflexivity. Qed.
(** Comparisons of literals. *)
Ltac decide_names :=
  repeat match goal with
  | |- context [str_eqb (lit ?a) (lit ?b)] =>
      let v := eval vm_compute in (str_eqb (lit a) (lit b)) in change (str_eqb (lit a) (lit b)) with v
  end; cbv iota.
Lemma tool_answers tool metrics sass :
  tool ∈ TOOLS → answerable metrics sass = true → ∃ r, tool_analyze to_string tool metrics sass = Ok r.
Proof.
  intros Ht [Hm Hc]%andb_true_iff. unfold tool_analyze.
  apply (list_elem_of_fmap_2 tool_name) in Ht. rewrite tool_names in Ht. revert Ht. generalize (tool_name tool). intros n Hn.
  repeat (apply elem_of_cons in Hn as [->|Hn]; [decide_names|]); [..|by apply elem_of_nil in Hn].
  all: try (apply simple_answers; unfold simple_names; repeat (apply elem_of_cons; (by left) || right); fail).
  - unfold numeric_analyze. decide_names. apply occupancy_answers.
  - unfold numeric_analyze. decide_names. apply stall_answers.
  - apply tensor_answers.
  - by apply spills_answers.
Qed.

(** ** Reported extremes *)
Lemma Ok_Some_inj {E A} (a b : A) : @Ok E _ (Some a) = Ok (Some b) → a = b.
Proof. congruence. Qed.
(** The stall analyzer is silent exactly when every stall is below 40 percent;
    otherwise it reports the dominant one, as severe from 60 percent on.  The
    occupancy analyzer is silent from 50 percent on and otherwise blames the
    smallest of the three limits. *)
Theorem reports_name_the_extreme metrics :
  (warp_stall_analyzer (lit "warp_stall_analyzer") metrics = Ok None ↔
     Forall (λ s, flt s.2 (of_Z 40) = true) (stalls metrics))
  ∧ (∀ o, warp_stall_analyzer (lit "warp_stall_analyzer") metrics = Ok (Some o) →
     ∃ reason v, (reason, v) ∈ stalls metrics ∧ Forall (λ s, total_le s.2 v) (stalls metrics)
       ∧ mget (metrics_observed o) (lit "Dominant stall") = Some (String reason)
       ∧ severity o = (if fge v (of_Z 60) then lit "high" else lit "medium"))
  ∧ (∀ o, occupancy_limiter to_string (lit "occupancy_limiter") metrics = Ok (Some o) →
     ∃ limiter v, (limiter, v) ∈ occupancy_limits metrics ∧ Forall (λ s, total_le v s.2) (occupancy_limits metrics)
       ∧ title o = lit "Low Occupancy (Limited by " ++ title_case limiter ++ lit ")").
Proof.
  destruct (greatest_spec (stalls metrics)) as ([reason value] & Hg & Hin & Hmax); [done|]. split_and!.
  - unfold warp_stall_analyzer. rewrite Hg. cbn [ok_or mbind res_bind]. destruct (flt value (of_Z 40)) eqn:Ef.
    + split; [intros _|done]. eapply Forall_impl; [exact Hmax|]. intros s Hs. exact (flt_total _ _ _ Hs Ef).
    + split; [destruct (base _); done|]. rewrite Forall_forall. intros H. specialize (H _ Hin). change (flt value (of_Z 40) = true) in H. congruence.
  - intros o. unfold warp_stall_analyzer. rewrite Hg. cbn [ok_or mbind res_bind]. destruct (flt value (of_Z 40)); [done|].
    destruct (base _) as [b| |]; [|done|done]. cbn [mbind res_bind]. intros <-%Ok_Some_inj. exists reason, value.
    split_and!; [done..| |done].
    cbn [metrics_observed observed]. rewrite mget_minsert. by rewrite str_eqb_refl.
  - intros o. unfold occupancy_limiter. destruct (fge _ _); [done|].
    destruct (least_spec (occupancy_limits metrics)) as ([limiter v] & -> & Hl & Hmin); [done|].
    cbn [ok_or mbind res_bind fst]. destruct (base _) as [b| |]; [|done|done]. cbn [mbind res_bind].
    intros H. exists limiter, v. split_and!; [done..|]. destruct (str_eqb limiter (lit "registers")); [|by apply Ok_Some_inj in H as <-].
    unfold set_recommendation in H. destruct (decide _); [|done]. cbn [mbind res_bind] in H. by apply Ok_Some_inj in H as <-.
Qed.
End answers.

(** ** An analysis answers and leaves nothing out *)
Lemma contains_join sep x ls : x ∈ ls → contains (Str.join sep ls) x = true.
Proof.
  induction ls as [|l ls IH]; [by intros ?%elem_of_nil|]. intros Hx.
  destruct (decide (ls = [])) as [->|Hne].
  - apply list_elem_of_singleton in Hx as ->. apply contains_refl.
  - rewrite join_cons by done. apply elem_of_cons in Hx as [->|Hx]; [apply contains_app_l, contains_refl|].
    by apply contains_app_r, contains_app_r, IH.
Qed.
Lemma contains_trans t s r : contains t s = true → contains s r = true → contains t r = true.
Proof. intros (a & b & ->)%contains_split Hr. by apply contains_app. Qed.
Lemma elem_of_concat_intro {A} (x : A) l ls : x ∈ l → l ∈ ls → x ∈ concat ls.
Proof.
  intros Hx Hl. apply list_elem_of_split in Hl as (a & b & ->). rewrite concat_app. cbn. set_solver.
Qed.
Lemma res_mapM_total {E A B} (f : A → res E B) l :
  (∀ x, x ∈ l → ∃ y, f x = Ok y) → ∃ ys, res_mapM f l = Ok ys ∧ ∀ x y, x ∈ l → f x = Ok y → y ∈ ys.
Proof.
  induction l as [|x l IH]; intros H; [exists []; split; [done|]; by intros ? ? ?%elem_of_nil|].
  destruct (H x) as [y Hy]; [left|]. destruct IH as (ys & Hys & Hin); [intros; apply H; by right|].
  exists (y :: ys). cbn [res_mapM]. rewrite Hy. cbn [mbind res_bind]. rewrite Hys. split; [done|].
  intros z w [->|Hz]%elem_of_cons Hw; [rewrite Hy in Hw; injection Hw as ->; left|right; by eapply Hin].
Qed.

Section analysis.
Context (to_string : Value → str).

Definition mode_of (payload : Value) : str := default (lit "proactive") (as_str (payload.["tool_mode"])).
Definition bottleneck_of (payload : Value) : str := default [] (as_str (payload.["bottleneck"])).
Definition known_mode (payload : Value) : bool :=
  str_eqb (mode_of payload) (lit "proactive") || str_eqb (mode_of payload) (lit "reactive").
Definition known_bottleneck (payload : Value) : bool :=
  existsb (str_eqb (bottleneck_of payload))
    [lit "compute_bound"; lit "memory_bound"; []; lit "mixed"; lit "latency_bound"; lit "occupancy_limited";
     lit "launch_overhead"].
(** The names are texts, and what the spill detector reads is in order. *)
Definition kernels_in_order (report : Value) : bool :=
  is_some_and (forallb (is_some_and (λ name,
      is_none_or (λ metrics, answerable metrics (report.["sass"])) (get (report.["metrics"]) name)) ∘ as_str))
    (as_array (report.["kernel_names"])).

Lemma groups_answer metrics : ∃ gs, res_mapM (group_lines to_string metrics) metric_groups = Ok gs.
Proof.
  assert (forallb (λ g, is_some_and (forallb (is_some ∘ as_str)) (as_array (at_key METRIC_GROUPS g))) metric_groups = true)
    as Hall by (vm_compute; reflexivity).
  destruct (res_mapM_total (group_lines to_string metrics) metric_groups) as (gs & Hgs & _); [|by exists gs].
  intros g Hg. rewrite forallb_forall in Hall. specialize (Hall g ltac:(by apply list_elem_of_In)).
  unfold group_lines. destruct (as_array _) as [keys|]; [|done]. cbn [ok_or mbind res_bind] in *. simpl in Hall.
  match goal with |- context [res_mapM ?f keys] => destruct (res_mapM_total f keys) as (shown & -> & _) end; [|by eexists].
  intros k Hk. rewrite forallb_forall in Hall. specialize (Hall k ltac:(by apply list_elem_of_In)). simpl in Hall.
  destruct (as_str k); [by eexists|done].
Qed.

(** The analyzers of a bottleneck: a bound one leaves out those of the other bound. *)
Definition relevant (b : str) (t : Tool) : Prop :=
  existsb (str_eqb b) [lit "compute_bound"; lit "memory_bound"] = true →
  is_none_or (str_eqb b) (affinity (tool_name t)) = true.
#[export] Instance relevant_dec b t : Decision (relevant b t).
Proof. unfold relevant. apply _. Defined.
Lemma selected_known b :
  existsb (str_eqb b) [lit "compute_bound"; lit "memory_bound"; []; lit "mixed"; lit "latency_bound";
                       lit "occupancy_limited"; lit "launch_overhead"] = true →
  ∃ sel, selected b = Ok sel ∧ default TOOLS sel = filter (relevant b) TOOLS
         ∧ ∀ l, l ≡ₚ TOOLS → default l sel ≡ₚ default TOOLS sel.
Proof.
  intros Hb. unfold selected. rewrite registered_tools. cbn [mbind res_bind existsb] in *.
  destruct (str_eqb b (lit "compute_bound") || str_eqb b (lit "memory_bound")) eqn:E1.
  - eexists. split; [done|]. split; [|done]. cbn [default from_option]. unfold id.
    apply list_filter_ext. intros t _. unfold relevant. cbn [existsb]. rewrite orb_false_r, E1. naive_solver.
  - assert (∀ t, relevant b t) as Hr by (intros t; unfold relevant; cbn [existsb]; rewrite orb_false_r, E1; done).
    apply orb_false_iff in E1 as [Hc Hm]. rewrite Hc, Hm in Hb. cbn [orb] in Hb. rewrite Hb. eexists. split; [done|].
    split; [|done]. cbn [default from_option]. clear Hb. induction TOOLS as [|t l IH]; [done|].
    rewrite filter_cons, decide_True by done. by rewrite <-IH.
Qed.
Lemma guidance_answers tools name metrics sass :
  (∀ t, t ∈ tools → t ∈ TOOLS) → answerable metrics sass = true →
  ∃ g, guidance_lines to_string tools name metrics sass = Ok g
       ∧ ∀ t o, t ∈ tools → should_trigger t metrics = true → tool_analyze to_string t metrics sass = Ok (Some o) →
           ∃ x, x ∈ g ∧ contains x (Output_text to_string name o) = true.
Proof.
  intros Ht Ha. unfold guidance_lines.
  match goal with |- context [res_mapM ?f tools] => destruct (res_mapM_total f tools) as (found & -> & Hin) end.
  { intros t Hin. destruct (should_trigger t metrics); [|by eexists].
    destruct (tool_answers to_string t metrics sass (Ht t Hin) Ha) as [r ->]. by eexists. }
  cbn [mbind res_bind]. eexists. split; [done|]. intros t o Hto Htr Hana.
  assert (Output_text to_string name o ∈ concat found) as Hc.
  { eapply elem_of_concat_intro; [|eapply (Hin t); [done|]; rewrite Htr, Hana; reflexivity]. left. }
  destruct (concat found) as [|y ys] eqn:Ec; [by apply elem_of_nil in Hc|]. cbn [is_empty].
  eexists. split; [right; left|]. by apply contains_join.
Qed.

Lemma kernel_answers report proactive b tools all v name :
  as_str v = Some name → (∀ t, t ∈ tools → t ∈ TOOLS) →
  is_none_or (λ metrics, answerable metrics (report.["sass"])) (get (report.["metrics"]) name) = true →
  ∃ ls, kernel_lines to_string report proactive b tools all v = Ok ls
    ∧ ∀ metrics t o, proactive = true → get (report.["metrics"]) name = Some metrics → t ∈ tools →
        should_trigger t metrics = true → tool_analyze to_string t metrics (report.["sass"]) = Ok (Some o) →
        ∃ x, x ∈ ls ∧ contains x (Output_text to_string name o) = true.
Proof.
  intros Hv Ht Ha. unfold kernel_lines. rewrite Hv. cbn [ok_or mbind res_bind].
  destruct (get (report.["metrics"]) name) as [metrics|]; [|by eexists]. cbn [is_none_or] in Ha.
  destruct (groups_answer metrics) as [gs ->]. cbn [mbind res_bind]. destruct proactive.
  - destruct (guidance_answers tools name metrics (report.["sass"]) Ht Ha) as (g & -> & Hg). cbn [mbind res_bind].
    eexists. split; [done|]. intros metrics' t o _ [= <-] Hto Htr Hana.
    destruct (Hg t o Hto Htr Hana) as (x & Hx & Hc). exists x. split; [|done].
    right. rewrite !elem_of_app. by right; right; left.
  - cbn [mbind res_bind]. by eexists.
Qed.
Lemma rules_text_contains report t : contains (rules_text report t) t = true.
Proof.
  unfold rules_text. destruct (non_empty_array _); [|apply contains_refl]. by repeat apply contains_app_r; apply contains_refl.
Qed.
Lemma prioritized_tools : prioritized = Ok (stable_sort priority_ge TOOLS).
Proof. unfold prioritized. by rewrite registered_tools. Qed.

(** C19: an analysis is refused for an unknown mode or bottleneck; otherwise a
    report whose kernels have names, and numbers where the spill detector reads
    them, always has one.  In proactive mode the text holds the output of every
    analyzer of the bottleneck that triggers and finds something, and names the
    analyzers of the bottleneck; in reactive mode the session is offered all
    analyzers, by descending priority. *)
Theorem analysis_answers_well_formed_reports payload :
  let report := payload.["report"] in
  (known_mode payload = false → analyze to_string payload = Err (lit "unknown profiling mode"))
  ∧ (known_mode payload = true → known_bottleneck payload = false → is_ok (analyze to_string payload) = false)
  ∧ (known_mode payload = true → known_bottleneck payload = true → kernels_in_order report = true →
     ∃ text tools, analyze to_string payload =
         Ok (json ["text" ↦ String text;
                   "selected_tools" ↦ Array (if str_eqb (mode_of payload) (lit "proactive")
                                             then String <$> (tool_name <$> tools) else []);
                   "tools" ↦ Array (if str_eqb (mode_of payload) (lit "reactive")
                                    then tool_value <$> stable_sort priority_ge TOOLS else [])])
       ∧ tools = filter (relevant (bottleneck_of payload)) TOOLS
       ∧ (str_eqb (mode_of payload) (lit "proactive") = true →
          ∀ name metrics t o, String name ∈ default [] (as_array (report.["kernel_names"])) →
            get (report.["metrics"]) name = Some metrics → t ∈ tools → should_trigger t metrics = true →
            tool_analyze to_string t metrics (report.["sass"]) = Ok (Some o) →
            contains text (Output_text to_string name o) = true)).
Proof.
  intros report. unfold analyze. fold (mode_of payload) (bottleneck_of payload) report. unfold known_mode, known_bottleneck.
  split_and!; [by intros ->|intros -> Hb|intros -> Hb Hk]; cbn [ensure mbind res_bind].
  - unfold selected. cbn [existsb] in Hb. rewrite !orb_false_iff in Hb. destruct_and! Hb. cbn [existsb].
    by repeat match goal with H : str_eqb _ _ = false |- _ => rewrite H; clear H end.
  - destruct (selected_known _ Hb) as (sel & Hsel & Hdef & Hperm). rewrite Hsel, registered_tools, prioritized_tools.
    cbn [mbind res_bind]. pose proof (Hperm _ (stable_sort_perm priority_ge TOOLS)) as Hp.
    unfold kernels_in_order in Hk. destruct (as_array (report.["kernel_names"])) as [names|]; [|done].
    cbn [is_some_and ok_or mbind res_bind] in *. rewrite forallb_forall in Hk.
    set (tools := default (stable_sort priority_ge TOOLS) sel) in *.
    assert (∀ t, t ∈ tools → t ∈ TOOLS) as Hsub.
    { intros t. rewrite Hp, Hdef. by intros [_ ?]%list_elem_of_filter. }
    match goal with |- context [res_mapM ?f names] => destruct (res_mapM_total f names) as (ks & Hks & Hin) end.
    { intros v Hv%list_elem_of_In%Hk. cbn in Hv. destruct (as_str v) as [name|] eqn:Ev; [|done].
      destruct (kernel_answers report (str_eqb (mode_of payload) (lit "proactive")) (bottleneck_of payload) tools
        (stable_sort priority_ge TOOLS) v name Ev Hsub Hv) as (ls & Hls & _). by exists ls. }
    rewrite Hks. cbn [mbind res_bind]. eexists _, (default TOOLS sel). split; [reflexivity|]. split; [done|].
    intros Hpro name metrics t o Hn Hm Ht Htr Hana. eapply contains_trans; [apply rules_text_contains|].
    cbn [default from_option] in Hn. unfold id in Hn. pose proof (Hk _ (proj1 (list_elem_of_In _ _) Hn)) as Ha. cbn in Ha.
    destruct (kernel_answers report (str_eqb (mode_of payload) (lit "proactive")) (bottleneck_of payload) tools
      (stable_sort priority_ge TOOLS) (String name) name eq_refl Hsub Ha) as (ls & Hls & Hout).
    destruct (Hout metrics t o Hpro Hm) as (x & Hx & Hc); [by rewrite Hp|done|done|].
    eapply contains_trans; [|exact Hc]. apply contains_join. right. apply elem_of_app. left.
    eapply elem_of_concat_intro; [exact Hx|]. by eapply Hin.
Qed.
End analysis.
