(* ===== verification/Profilers.v ===== *)
(** * kernel: reading the profilers' reports

    [kernel/src/domain/profilers.rs]: the instruction counts of a disassembly
    ([sass]), the ranked findings of a rule report ([rules]) and the metrics of a
    table ([ncu_csv]).  The csv and regex crates are parameters. *)
From Stdlib Require Import ZArith.
From S2P Require Import Prelude Str Float64 Json JsonOps Search KernelIo Fmt Analyzers.

(** ** [rules] *)
Section rules.
(** The percentage that a line of an estimated speedup gives, if it is one. *)
Context (speedup_pattern : str → option str).

Definition ends_body (line : str) : bool :=
  is_empty line || starts_with line (lit "OPT") || starts_with line (lit "Section:")
  || starts_with line (lit "----") || is_some (speedup_pattern line).
(** The lines of a finding, trimmed, and those that follow it. *)
Fixpoint take_body (ls : list str) : list str * list str :=
  match ls with
  | [] => ([], [])
  | line :: rest =>
      if ends_body (trim line) then ([], ls)
      else let '(body, rest) := take_body rest in (trim line :: body, rest)
  end.
Fixpoint rules_loop (fuel : nat) (ls : list str) : result (list (f64 * str)) :=
  match ls, fuel with
  | [], _ => Ok []
  | _, 0 => Panic
  | line :: rest, S fuel =>
      match speedup_pattern line with
      | None => rules_loop fuel rest
      | Some c =>
          percentage ← ok_or (parse_f64 c) (lit "invalid float literal");
          let '(body, rest) := take_body rest in
          found ← rules_loop fuel rest;
          Ok (if is_empty body then found else (percentage, Str.join [SP] body) :: found)
      end
  end.
(** [sort_by(|a, b| b.0.total_cmp(&a.0))]. *)
Definition speedup_ge (a b : f64 * str) : Prop := total_le b.1 a.1.
#[export] Instance speedup_ge_dec a b : Decision (speedup_ge a b).
Proof. unfold speedup_ge. apply _. Defined.
Definition rule_value (r : f64 * str) : Value := json ["est_speedup_pct" ↦ from_f64 r.1; "text" ↦ String r.2].
Definition rules (source : str) : result Value :=
  let ls := lines source in
  output ← rules_loop (length ls) ls;
  Ok (Array (rule_value <$> stable_sort speedup_ge output)).
End rules.

(** ** [ncu_csv] *)
Definition is_missing (value : str) : bool :=
  existsb (str_eqb value)
    [[]; lit "NaN"; lit "nan"; lit "NA"; lit "N/A"; lit "NULL"; lit "null"; lit "None"; lit "#N/A"; lit "#NA";
     lit "<NA>"; lit "-NaN"; lit "-nan"; lit "#N/A N/A"; lit "n/a"; lit "-1.#IND"; lit "1.#IND"; lit "-1.#QNAN";
     lit "1.#QNAN"].

Definition QUOTE : char := 34%N.
Definition EQUALS : char := 61%N.
(** A line up to an equals sign outside quotes, with the state of the quotes. *)
Fixpoint clean_line (quoted : bool) (line : str) : bool * str :=
  match line with
  | [] => (quoted, [])
  | c :: rest =>
      let quoted := if (c =? QUOTE)%N then negb quoted else quoted in
      if (c =? EQUALS)%N && negb quoted then (quoted, [])
      else let '(q, s) := clean_line quoted rest in (q, c :: s)
  end.
Fixpoint clean_lines (quoted : bool) (index : nat) (ls : list str) : str :=
  match ls with
  | [] => []
  | line :: ls =>
      if index =? 1 then clean_lines quoted (S index) ls
      else let '(quoted, s) := clean_line quoted line in s ++ [LF] ++ clean_lines quoted (S index) ls
  end.
Definition cleaned (source : str) : str := clean_lines false 0 (lines source).

(** [i64::from_str] and [u64::from_str]. *)
Definition parse_digits (s : str) : option N :=
  if is_empty s || negb (forallb is_ascii_digit s) then None else Some (digits_value s).
Definition parse_i64 (s : str) : option Z :=
  match s with
  | c :: rest =>
      if (c =? 45)%N then n ← parse_digits rest; if (n <=? 2 ^ 63)%N then Some (- Z.of_N n)%Z else None
      else n ← parse_digits (if (c =? 43)%N then rest else s); if (n <? 2 ^ 63)%N then Some (Z.of_N n) else None
  | [] => None
  end.
Definition parse_u64 (s : str) : option N :=
  match s with
  | c :: rest => n ← parse_digits (if (c =? 43)%N then rest else s); if (n <? 2 ^ 64)%N then Some n else None
  | [] => None
  end.
Definition from_i64 (z : Z) : Value := if (0 <=? z)%Z then Num (PosInt (Z.to_N z)) else Num (NegInt z).

Definition nonfinite (header : str) : str := lit "nonfinite NCU metric " ++ header.
Definition metric_value (header value : str) : result Value :=
  ensure (negb (is_missing value)) (nonfinite header);;
  let cleaned := trim (strip_marks value) in
  match parse_i64 cleaned with
  | Some n => Ok (from_i64 n)
  | None =>
      match parse_u64 cleaned with
      | Some n => Ok (Num (PosInt n))
      | None =>
          match parse_f64 cleaned with
          | Some x => ensure (is_finite x) (nonfinite header);; Ok (from_f64 x)
          | None => Ok (String cleaned)
          end
      end
  end.

Section ncu_csv.
(** The header and the records that the csv reader finds in a text. *)
Context (csv_headers : str → option (list str)) (csv_records : str → option (list (list str))).

Definition cell (row : list str) (column : nat) : str := default [] (row !! column).
Definition kernel_name (kernel_column : nat) (row : list str) : str :=
  let raw_name := cell row kernel_column in if is_missing raw_name then lit "nan" else raw_name.
(** The loop over the columns of a row. *)
Fixpoint row_metrics (kernel_column column : nat) (row headers : list str) (metrics : Map) : result Map :=
  match headers with
  | [] => Ok metrics
  | header :: headers =>
      if column =? kernel_column then row_metrics kernel_column (S column) row headers metrics
      else
        v ← metric_value header (cell row column);
        row_metrics kernel_column (S column) row headers (minsert header v metrics)
  end.
(** The keys of [last_rows], in order of their first row. *)
Definition row_names (kernel_column : nat) (rows : list (list str)) : list str :=
  keys (foldl (λ m row, minsert (kernel_name kernel_column row) Null m) [] rows).
Definition requested (kernel_column : nat) (rows : list (list str)) (names : list str) : list str :=
  if is_empty names then
    filter (λ name, negb (str_eqb name (lit "nan")) && negb (is_empty (trim name)) = true) (row_names kernel_column rows)
  else names.
(** [rows.iter().rfind(..)]. *)
Definition chosen_row (kernel_column : nat) (rows : list (list str)) (names : list str) (name : str) : option (list str) :=
  find_first (λ row, let value := kernel_name kernel_column row in
                     if is_empty names then str_eqb value name else contains value name) (reverse rows).
Fixpoint select_kernels (kernel_column : nat) (headers : list str) (rows : list (list str)) (names todo : list str)
    : result Map :=
  match todo with
  | [] => Ok []
  | name :: todo =>
      match chosen_row kernel_column rows names name with
      | None => select_kernels kernel_column headers rows names todo
      | Some row =>
          metrics ← row_metrics kernel_column 0 row headers [];
          selected ← select_kernels kernel_column headers rows names todo;
          Ok ((name, Object metrics) :: selected)
      end
  end.
Definition duration (v : Value) : f64 := default fzero (as_f64 (v.["gpu__time_duration.sum"])).
Definition duration_ge (a b : str * Value) : Prop := total_le (duration b.2) (duration a.2).
#[export] Instance duration_ge_dec a b : Decision (duration_ge a b).
Proof. unfold duration_ge. apply _. Defined.

Definition ncu_csv (source : str) (names : list str) : result Value :=
  let text := cleaned source in
  match csv_headers text with
  | None => Ok (json [])
  | Some headers =>
      match position (str_eqb (lit "Kernel Name")) headers with
      | None => Ok (json [])
      | Some kernel_column =>
          match csv_records text with
          | None => Ok (json [])
          | Some rows =>
              if existsb (λ row, length headers <? length row) rows then Ok (json [])
              else
                selected ← select_kernels kernel_column headers rows names (requested kernel_column rows names);
                let selected := if is_empty names then take 5 (stable_sort duration_ge selected) else selected in
                Ok (Object (mextend [] selected))
          end
      end
  end.
End ncu_csv.

(** ** [sass] *)
Section sass.
(** The bundled patterns by name, and the number of their matches. *)
Context (patterns : list (str * str)) (matches : str → str → nat).

Definition section_of (source kernel : str) : option str :=
  start ← find (lit ".text." ++ kernel) source;
  let tail := drop (start + 6 + length kernel) source in
  let end_ := match find (lit ".text.") tail with
              | Some offset => start + 6 + length kernel + offset
              | None => length source
              end in
  Some (take (end_ - start) (drop start source)).
Definition sass (source : str) (kernel : option str) : Value :=
  let '(text, name) :=
    match kernel with
    | Some (c :: k) =>
        match section_of source (c :: k) with Some text => (text, c :: k) | None => (source, []) end
    | _ => (source, [])
    end in
  Object (foldl (λ m p, minsert (p.1 ++ lit "_count") (jnat (matches p.2 text)) m)
    ["sass_text" ↦ String source; "kernel_name" ↦ String name; "uses_cublas" ↦ Bool false;
     "cublas_symbols" ↦ Array []] patterns).
End sass.
