(* ===== verification/ProfilersProps.v ===== *)
(** * kernel: what the readers of reports guarantee *)
From Stdlib Require Import ZArith.
From stdpp Require Import sets.
From S2P Require Import Prelude Str Float64 Json JsonOps Search KernelIo Fmt Analyzers Profilers.

Section rules.
Context (speedup_pattern : str → option str).

(** The reference: every line is looked at on its own. *)
Fixpoint findings (ls : list str) : list (f64 * str) :=
  match ls with
  | [] => []
  | line :: rest =>
      match speedup_pattern line ≫= parse_f64 with
      | Some p => let body := (take_body speedup_pattern rest).1 in
                  if is_empty body then [] else [(p, Str.join [SP] body)]
      | None => []
      end ++ findings rest
  end.

(** What the pattern promises: it finds a number, and blanks around a line do not
    matter to it. *)
Class SpeedupPattern := {
  pattern_number line c : speedup_pattern line = Some c → is_some (parse_f64 c) = true;
  pattern_trim line : is_some (speedup_pattern (trim line)) = is_some (speedup_pattern line);
}.
Context `{!SpeedupPattern}.

Lemma take_body_shorter ls : length (take_body speedup_pattern ls).2 ≤ length ls.
Proof.
  induction ls as [|l ls IH]; simpl; [done|]. destruct (ends_body _ _); [done|].
  destruct (take_body _ ls). simpl in *. lia.
Qed.
(** No finding begins inside the body of another. *)
Lemma findings_after_body ls : findings (take_body speedup_pattern ls).2 = findings ls.
Proof.
  induction ls as [|l ls IH]; [done|]. cbn [take_body findings].
  destruct (ends_body speedup_pattern (trim l)) eqn:E; [done|]. destruct (take_body _ ls) as [body rest] eqn:Et.
  cbn [snd] in *. unfold ends_body in E. apply orb_false_iff in E as [_ E]. rewrite pattern_trim in E.
  destruct (speedup_pattern l); [done|]. by rewrite IH.
Qed.
Lemma rules_loop_findings fuel ls : length ls ≤ fuel → rules_loop speedup_pattern fuel ls = Ok (findings ls).
Proof.
  revert ls. induction fuel as [|fuel IH]; intros [|l ls] Hf; simpl in Hf; try lia; [done..|].
  cbn [rules_loop findings]. destruct (speedup_pattern l) as [c|] eqn:Ec; [|by rewrite IH by lia].
  pose proof (pattern_number l c Ec) as Hc. cbn [mbind option_bind]. destruct (parse_f64 c) as [p|]; [|done].
  cbn [ok_or mbind res_bind]. pose proof (take_body_shorter ls) as Hs. pose proof (findings_after_body ls) as Ha.
  destruct (take_body _ ls) as [body rest]. cbn [fst snd] in *. rewrite IH by lia. rewrite Ha. cbn [mbind res_bind].
  by destruct (is_empty body).
Qed.
Lemma speedup_ge_trans a b c : speedup_ge a b → speedup_ge b c → speedup_ge a c.
Proof. unfold speedup_ge. intros H1 H2. by etransitivity. Qed.

(** C20: reading a rule report terminates and returns the finding of every line that
    gives an estimated speedup and is followed by text, as if each line were looked
    at on its own, by descending speedup and in the order of the report where the
    speedups agree. *)
Theorem rules_rank_all_findings source :
  ∃ out, rules speedup_pattern source = Ok (Array (rule_value <$> out))
    ∧ out ≡ₚ findings (lines source) ∧ StronglySorted speedup_ge out
    ∧ ∀ x, filter (λ r, r.1 = x) out = filter (λ r, r.1 = x) (findings (lines source)).
Proof.
  unfold rules. rewrite rules_loop_findings by done. cbn [mbind res_bind]. eexists. split; [done|]. split_and!.
  - apply stable_sort_perm.
  - apply stable_sort_sorted; [apply speedup_ge_trans|]. intros a b. unfold speedup_ge. by apply total_le_total.
  - intros x. apply stable_sort_filter. intros a b Ha Hb. unfold speedup_ge. rewrite Ha, Hb. done.
Qed.
End rules.

(** ** Tables *)
Section table.
Context (csv_headers : str → option (list str)) (csv_records : str → option (list (list str))).

(** A metric is an integer, a finite number or a text. *)
Definition measured (v : Value) : bool :=
  match v with Num (Float x) => is_finite x | Num _ => true | String _ => true | _ => false end.
Lemma metric_value_measured header value v : metric_value header value = Ok v → measured v = true.
Proof.
  unfold metric_value. destruct (is_missing value); [done|]. cbn [negb ensure mbind res_bind].
  destruct (parse_i64 _) as [z|]; [intros [= <-]; unfold from_i64; by case_match|].
  destruct (parse_u64 _) as [n|]; [by intros [= <-]|]. destruct (parse_f64 _) as [x|]; [|by intros [= <-]].
  destruct (is_finite x) eqn:Ef; [|done]. cbn. unfold from_f64. rewrite Ef. intros [= <-]. by cbn.
Qed.
Lemma metric_value_returns header value : metric_value header value ≠ Panic.
Proof.
  unfold metric_value. destruct (is_missing value); [done|]. cbn [negb ensure mbind res_bind].
  repeat (case_match; [done|]). case_match; [|done]. by destruct (is_finite _).
Qed.
Lemma minsert_measured key v m :
  measured v = true → Forall (λ kv : str * Value, measured kv.2 = true) m →
  Forall (λ kv : str * Value, measured kv.2 = true) (minsert key v m).
Proof.
  intros Hv. induction m as [|[k x] m IH]; intros Hm; simpl; [by repeat constructor|].
  apply Forall_cons in Hm as [Hx Hm]. case_match; constructor; auto.
Qed.
Lemma row_metrics_spec kc column row headers m :
  Forall (λ kv : str * Value, measured kv.2 = true) m →
  match row_metrics kc column row headers m with
  | Ok m' => Forall (λ kv : str * Value, measured kv.2 = true) m'
  | Err _ => True
  | Panic => False
  end.
Proof.
  revert column m. induction headers as [|h hs IH]; intros column m Hm; cbn [row_metrics]; [done|].
  destruct (column =? kc); [by apply IH|]. destruct (metric_value h _) as [v| |] eqn:Ev; cbn [mbind res_bind]; [|done|].
  - apply IH, minsert_measured; [by eapply metric_value_measured|done].
  - by apply metric_value_returns in Ev.
Qed.

(** What a selected kernel is: the last row of its name, as measured values. *)
Definition reported (kc : nat) (headers : list str) (rows : list (list str)) (names : list str) (kv : str * Value) : Prop :=
  ∃ row metrics, chosen_row kc rows names kv.1 = Some row ∧ row_metrics kc 0 row headers [] = Ok metrics
    ∧ kv.2 = Object metrics ∧ Forall (λ m : str * Value, measured m.2 = true) metrics.
Lemma select_kernels_spec kc headers rows names todo :
  match select_kernels kc headers rows names todo with
  | Ok sel => sel.*1 `sublist_of` todo ∧ Forall (reported kc headers rows names) sel
  | Err _ => True
  | Panic => False
  end.
Proof.
  induction todo as [|name todo IH]; cbn [select_kernels]; [by split; constructor|].
  destruct (chosen_row kc rows names name) as [row|] eqn:Er.
  - pose proof (row_metrics_spec kc 0 row headers []) as Hm. specialize (Hm ltac:(constructor)).
    destruct (row_metrics kc 0 row headers []) as [metrics| |] eqn:Em; cbn [mbind res_bind]; [|done|done].
    destruct (select_kernels _ _ _ _ _) as [sel| |]; cbn [mbind res_bind]; [|done|done]. destruct IH as [Hs Hf].
    split; [by constructor|]. constructor; [|done]. by exists row, metrics.
  - destruct (select_kernels _ _ _ _ _) as [sel| |]; [|done|done]. destruct IH as [Hs Hf]. split; [by constructor|done].
Qed.
Lemma mextend_fresh m l : NoDup (keys m ++ keys l) → mextend m l = m ++ l.
Proof.
  unfold mextend. revert m. induction l as [|[k v] l IH]; intros m Hnd; simpl; [by rewrite app_nil_r|].
  rewrite minsert_absent, IH.
  - by rewrite <-app_assoc.
  - unfold keys in *. rewrite fmap_app, <-app_assoc. exact Hnd.
  - unfold keys in *. apply NoDup_app in Hnd as (_ & Hd & _). intros Hk. apply (Hd k Hk). left.
Qed.
Lemma mextend_elem m l kv : kv ∈ mextend m l → kv ∈ m ∨ kv ∈ l.
Proof.
  unfold mextend. revert m. induction l as [|[k v] l IH]; intros m; simpl; [by left|].
  intros [H|H]%IH; [|by right; right]. revert H. induction m as [|[k' x] m IHm]; simpl.
  - intros ->%list_elem_of_singleton. right. left.
  - destruct (str_eqb k' k) eqn:E.
    + apply str_eqb_eq in E as ->. rewrite elem_of_cons. intros [->|H]; [right; left|left; by right].
    + rewrite elem_of_cons. intros [->|H]; [left; left|]. destruct (IHm H); [left; by right|by right].
Qed.
Lemma row_names_NoDup kc rows : NoDup (row_names kc rows).
Proof.
  unfold row_names. assert (∀ m, NoDup (keys m) → NoDup (keys (foldl (λ m row, minsert (kernel_name kc row) Null m) m rows))) as H.
  { induction rows as [|row rows IH]; intros m Hm; simpl; [done|]. by apply IH, NoDup_minsert. }
  apply H. constructor.
Qed.

(** The last row of a name. *)
Lemma chosen_row_last kc rows name row :
  chosen_row kc rows [] name = Some row →
  ∃ before after, rows = before ++ row :: after ∧ kernel_name kc row = name
    ∧ Forall (λ r, kernel_name kc r ≠ name) after.
Proof.
  unfold chosen_row. cbn [is_empty]. intros Hf.
  assert (∀ l, find_first (λ r, str_eqb (kernel_name kc r) name) l = Some row →
    ∃ before after, reverse l = before ++ row :: after ∧ kernel_name kc row = name
      ∧ Forall (λ r, kernel_name kc r ≠ name) after) as H.
  { induction l as [|r l IH]; cbn [find_first]; [done|]. destruct (str_eqb (kernel_name kc r) name) eqn:E.
    - intros [= <-]. apply str_eqb_eq in E. exists (reverse l), []. rewrite reverse_cons. by split_and!.
    - intros (before & after & Hl & Hn & Ha)%IH. apply str_eqb_ne in E. exists before, (after ++ [r]).
      rewrite reverse_cons, Hl, <-app_assoc. split_and!; [done|done|]. apply Forall_app. by split; [|constructor]. }
  apply H in Hf. by rewrite reverse_involutive in Hf.
Qed.

Lemma duration_ge_trans a b c : duration_ge a b → duration_ge b c → duration_ge a c.
Proof. unfold duration_ge. intros H1 H2. by etransitivity. Qed.
Lemma StronglySorted_take {A} (R : A → A → Prop) n l : StronglySorted R l → StronglySorted R (take n l).
Proof.
  revert l. induction n as [|n IH]; intros l Hl; [constructor|]. destruct Hl as [|x l Hl Hx]; [constructor|].
  constructor; [by apply IH|]. by apply Forall_take.
Qed.

(** Reading a table of metrics never panics, and gives an object whose values
    are integers, finite numbers and texts.  Without requested names it has the
    last row of at most five kernels with a name, by descending duration; with
    names, each kernel was asked for and has the last row that names it. *)
Theorem table_has_measured_kernels source names :
  match ncu_csv csv_headers csv_records source names with
  | Ok v => ∃ m, v = Object m ∧ (m ≠ [] → ∃ headers kc rows,
      csv_headers (cleaned source) = Some headers ∧ csv_records (cleaned source) = Some rows
      ∧ headers !! kc = Some (lit "Kernel Name") ∧ Forall (reported kc headers rows names) m
      ∧ (names ≠ [] → ∀ k, k ∈ keys m → k ∈ names)
      ∧ (names = [] → length m ≤ 5 ∧ NoDup (keys m) ∧ StronglySorted duration_ge m
         ∧ ∀ k, k ∈ keys m → k ≠ lit "nan" ∧ trim k ≠ []
             ∧ ∃ before row after, rows = before ++ row :: after ∧ kernel_name kc row = k
                 ∧ Forall (λ r, kernel_name kc r ≠ k) after))
  | Err _ => True
  | Panic => False
  end.
Proof.
  unfold ncu_csv. destruct (csv_headers _) as [headers|] eqn:Eh; [|by eexists].
  destruct (position _ headers) as [kc|] eqn:Ek; [|by eexists]. destruct (csv_records _) as [rows|] eqn:Er; [|by eexists].
  destruct (existsb _ rows); [by eexists|]. pose proof (select_kernels_spec kc headers rows names (requested kc rows names)) as Hsel.
  destruct (select_kernels _ _ _ _ _) as [sel| |]; cbn [mbind res_bind]; [|done|done]. destruct Hsel as [Hsub Hrep].
  apply position_Some in Ek as (h & Hh & Hname & _). apply str_eqb_eq in Hname as <-.
  eexists. split; [done|]. intros _. exists headers, kc, rows.
  set (sel' := if is_empty names then take 5 (stable_sort duration_ge sel) else sel).
  assert (Forall (reported kc headers rows names) sel') as Hrep'.
  { unfold sel'. destruct (is_empty names); [|done]. apply Forall_take. by rewrite stable_sort_perm. }
  split_and!; [done..| | |].
  - apply Forall_forall. intros kv Hkv. apply mextend_elem in Hkv as [Hkv|Hkv]; [by apply elem_of_nil in Hkv|].
    rewrite Forall_forall in Hrep'. by apply Hrep'.
  - intros Hne k (kv & -> & Hkv)%list_elem_of_fmap. apply mextend_elem in Hkv as [Hkv|Hkv]; [by apply elem_of_nil in Hkv|].
    unfold sel', requested in *. apply is_empty_false in Hne. rewrite Hne in *.
    eapply elem_of_submseteq; [|by apply sublist_submseteq]. by apply list_elem_of_fmap_2.
  - intros ->. unfold sel', requested in *. cbn [is_empty] in *.
    assert (NoDup sel.*1) as Hnd.
    { eapply sublist_NoDup; [|exact Hsub]. apply NoDup_filter, row_names_NoDup. }
    assert (NoDup (take 5 (stable_sort duration_ge sel)).*1) as Hnd'.
    { eapply sublist_NoDup; [|apply fmap_sublist, sublist_take]. by rewrite stable_sort_perm. }
    rewrite mextend_fresh by exact Hnd'. cbn [app]. split_and!; [rewrite length_take; lia|done| |].
    + apply StronglySorted_take, stable_sort_sorted; [apply duration_ge_trans|].
      intros x y. unfold duration_ge. by apply total_le_total.
    + intros k (kv & -> & Hkv)%list_elem_of_fmap. rewrite Forall_forall in Hrep'.
      destruct (Hrep' kv Hkv) as (row & metrics & Hrow & _).
      assert (kv.1 ∈ filter (λ name, negb (str_eqb name (lit "nan")) && negb (is_empty (trim name)) = true) (row_names kc rows))
        as [Hk _]%list_elem_of_filter.
      { eapply elem_of_submseteq; [|by apply sublist_submseteq]. apply list_elem_of_fmap_2.
        rewrite <-(stable_sort_perm duration_ge sel). by eapply elem_of_submseteq; [|apply sublist_submseteq, sublist_take]. }
      apply andb_true_iff in Hk as [Hk1 Hk2]. apply negb_true_iff, str_eqb_ne in Hk1. apply negb_true_iff, is_empty_false in Hk2.
      split_and!; [done..|]. destruct (chosen_row_last kc rows kv.1 row Hrow) as (b & af & ? & ? & ?). by exists b, row, af.
Qed.
End table.
