(* ===== verification/Evaluation.v ===== *)
(** * kernel: evaluating a candidate

    [kernel/src/domain/simulated.rs] and [gpu.rs]: the reference and the
    candidates are evaluated against a scenario or on a GPU.  Either way the
    source must have the digest it was submitted with, before and after, and the
    task must not change.  The operations on files are the class [Files], those of
    the GPU tools ([gpu_binary.rs], [gpu_profile.rs], [scripts.rs] and the external
    worker) the class [GpuTools]; SHA-256 is a parameter. *)
From Stdlib Require Import ZArith.
From S2P Require Import Prelude Str Float64 Json JsonOps Search KernelIo Feedback Analyzers Profilers.

(** [tokio::fs::read] and [Path::canonicalize]. *)
Class Files (W : Type) := {
  read_bytes : str → io W (list N);
  canonicalize : str → io W str;
}.

(** The external workload, and the profiler with its environment, runtime and
    output directory. *)
Class GpuTools (W : Type) := {
  workload : Value → io W Value;
  ncu_binary : io W bool;
  write_script : str → Value → io W str;
  collect : Value → Value → str → str → list str → bool → io W Value;
  kernel_names : Value → Value → str → io W (list str);
  binary_sass : Value → Value → str → io W Value;
  artifacts : str → io W (list str);
}.

Section evaluation.
Context {W : Type} {D : Disk W} {Fi : Files W}.
(** [format!("{:x}", Sha256::digest(bytes))]. *)
Context (sha256 : list N → str).

Definition file_digest (path : str) : io W str := bytes ← read_bytes path; mret (sha256 bytes).
Definition validate_task (problem : Value) : io W unit :=
  match get problem (lit "file_sha256") with
  | Some expected =>
      path ← lift (ok_or (as_str (problem.["file_path"])) (lit "reference file"));
      digest ← file_digest path;
      lift (ensure (value_eqb expected (String digest)) (lit "reference file changed after task preparation"))
  | None => mret tt
  end.

(** [f64] values as JSON. *)
Definition f64_value (o : option f64) : Value := from_option from_f64 Null o.
Definition positive (x : f64) : bool := is_finite x && fgt x fzero.

(** ** Simulated *)
Section simulated.
Context (csv_headers : str → option (list str)) (csv_records : str → option (list (list str))).
Context (speedup_pattern : str → option str) (patterns : list (str * str)) (matches : str → str → nat).
Context (serde_error : Value → str).

Definition report (payload : Value) (output : str) : io W Value :=
  let fixture := payload.["fixture"] in
  csv ← lift (ok_or (as_str (fixture.["ncu_csv"])) (lit "scenario NCU CSV"));
  let csv_path := join output (lit "profile.csv") in
  write_file csv_path csv;;
  names ← lift (ok_or (str_items (default (Array []) (get fixture (lit "kernel_names"))))
                  (serde_error (default (Array []) (get fixture (lit "kernel_names")))));
  metrics ← lift (ncu_csv csv_headers csv_records csv names);
  names ← lift (ok_or (keys <$> as_object metrics) (lit "metrics"));
  let sass_text := default [] (as_str (fixture.["sass"])) in
  write_file (join output (lit "kernel.sass")) sass_text;;
  let sass_value := if is_empty sass_text then Null else sass patterns matches sass_text None in
  rule_values ← lift (if value_eqb (payload.["ncu_full"]) (Bool true)
                      then rules speedup_pattern (default [] (as_str (fixture.["ncu_rules"]))) else Ok (Array []));
  mret (json ["success" ↦ Bool (negb (is_empty names)); "metrics" ↦ metrics; "kernel_names" ↦ Array (String <$> names);
              "sass" ↦ sass_value; "rule_recommendations" ↦ rule_values; "csv_path" ↦ String csv_path;
              "error" ↦ if is_empty names then jstr "No NCU metrics" else Null]).

(** [report["kernel_names"][0]]. *)
Definition first_item (v : Value) : Value := match v with Array (x :: _) => x | _ => Null end.
Definition simulated_reference (payload : Value) : io W Value :=
  output ← lift (ok_or (as_str (payload.["output_dir"])) (lit "reference output"));
  create_dir_all output;;
  output ← canonicalize output;
  let problem := payload.["problem"] in
  validate_task problem;;
  seconds ← lift (ok_or (as_f64 (payload.["fixture"].["reference_seconds"]))
                    (lit "reference timing must be finite and positive"));
  report ← report payload output;
  lift (ensure (positive seconds) (lit "reference timing must be finite and positive"));;
  let name := default [] (as_str (first_item (report.["kernel_names"]))) in
  let metrics := at_key (report.["metrics"]) name in
  let value key := default (jnat 0) (get metrics key) in
  latency ← lift (ok_or (as_f64 (value (lit "gpu__time_duration.sum"))) (lit "NCU duration"));
  let profile := json ["success" ↦ report.["success"]; "metrics" ↦ report.["metrics"]; "kernel_name" ↦ String name;
    "sm_throughput" ↦ value (lit "sm__throughput.avg.pct_of_peak_sustained_elapsed");
    "dram_throughput" ↦ value (lit "dram__throughput.avg.pct_of_peak_sustained_elapsed");
    "latency_ms" ↦ from_f64 (fdiv latency (of_Z 1000000));
    "occupancy" ↦ value (lit "sm__warps_active.avg.pct_of_peak_sustained_active")] in
  validate_task problem;;
  mret (json ["reference_seconds" ↦ from_f64 seconds; "profile" ↦ profile;
              "task_sha256" ↦ problem.["sha256"]; "validation" ↦ jstr "simulated"]).

Definition simulated_evaluate (payload : Value) : io W Value :=
  output ← lift (ok_or (as_str (payload.["output_dir"])) (lit "candidate output"));
  create_dir_all output;;
  output ← canonicalize output;
  source ← lift (ok_or (as_str (payload.["source"])) (lit "candidate source"));
  digest ← file_digest source;
  lift (ensure (value_eqb (payload.["source_sha256"]) (String digest)) (lit "candidate source identity mismatch"));;
  let problem := payload.["problem"] in
  validate_task problem;;
  lift (ensure (value_eqb (payload.["reference"].["task_sha256"]) (problem.["sha256"]))
          (lit "reference task identity mismatch"));;
  let error := payload.["fixture"].["error_context"] in
  let failed := has_entries error in
  let seconds := as_f64 (payload.["fixture"].["candidate_seconds"]) in
  report ← (if failed then mret Null else report payload output);
  after ← file_digest source;
  lift (ensure (str_eqb digest after) (lit "candidate source changed during evaluation"));;
  validate_task problem;;
  lift (if is_null (payload.["fixture"].["candidate_seconds"]) then Ok tt
        else ensure (is_some_and positive seconds) (lit "candidate timing must be finite and positive"));;
  lift (ensure (failed || is_some seconds) (lit "successful candidate has no timing"));;
  let speedup := (λ s, fdiv (default fzero (as_f64 (payload.["reference"].["reference_seconds"]))) s) <$> seconds in
  lift (ensure (is_none_or is_finite speedup) (lit "speedup must be finite"));;
  mret (json ["outcome" ↦ json ["status" ↦ if failed then jstr "failed" else jstr "success";
                                "speedup" ↦ f64_value speedup; "error_context" ↦ error];
              "candidate_seconds" ↦ f64_value seconds; "source_sha256" ↦ String digest;
              "task_sha256" ↦ problem.["sha256"]; "build_identity" ↦ Null; "profile" ↦ report;
              "validation" ↦ jstr "simulated";
              "profiling_options" ↦ json [
                "tool_mode" ↦ String (default (lit "proactive") (as_str (payload.["tool_mode"])));
                "ncu_full" ↦ Bool (match payload.["ncu_full"] with Bool b => b | _ => false end);
                "nsys" ↦ Bool false]]).
End simulated.

(** ** On a GPU *)
Section gpu.
Context {G : GpuTools W} (to_string : Value → str).

Definition positive_timing (value : Value) (label : str) : result (option f64) :=
  if is_null value then Ok None
  else
    x ← ok_or (as_f64 value) (label ++ lit " timing must be finite and positive");
    ensure (positive x) (label ++ lit " timing must be finite and positive");;
    Ok (Some x).
Definition candidate_error (observation : Value) : result Value :=
  if negb (is_null (observation.["exception"])) then Ok (observation.["exception"])
  else
    let comparison := observation.["comparison"] in
    if value_eqb (comparison.["correct"]) (Bool true) then Ok Null
    else
      message ← ok_or (as_str (comparison.["message"])) (lit "workload comparison result");
      let error := json ["error_type" ↦ (if contains message (lit "Numerical error") then jstr "correctness_error"
                                         else jstr "execution_error"); "error_message" ↦ String message] in
      if has_entries (comparison.["details"])
      then set_key error (lit "max_diff") (default (Num (Float fzero)) (get (comparison.["details"]) (lit "max_diff")))
      else Ok error.
Definition reference_metric (values : Value) (key : str) : result f64 :=
  let value := at_key values key in
  if is_null value then Ok fzero
  else ok_or (match as_f64 value with Some x => Some x | None => as_str value ≫= parse_f64 end)
         (lit "numeric reference metric").
Definition summarize_reference (report : Value) : result Value :=
  if negb (value_eqb (report.["success"]) (Bool true)) then Ok (json ["error" ↦ report.["error"]])
  else
    metrics ← ok_or (as_object (report.["metrics"])) (lit "NCU metrics");
    match metrics with
    | [] => Ok (json ["error" ↦ jstr "No metrics collected by NCU"])
    | (name, values) :: _ =>
        sm ← reference_metric values (lit "sm__throughput.avg.pct_of_peak_sustained_elapsed");
        dram ← reference_metric values (lit "dram__throughput.avg.pct_of_peak_sustained_elapsed");
        latency ← reference_metric values (lit "gpu__time_duration.sum");
        occupancy ← reference_metric values (lit "sm__warps_active.avg.pct_of_peak_sustained_active");
        Ok (json ["success" ↦ Bool true; "metrics" ↦ Object metrics; "kernel_name" ↦ String name;
                  "sm_throughput" ↦ from_f64 sm; "dram_throughput" ↦ from_f64 dram;
                  "latency_ms" ↦ from_f64 (fdiv latency (of_Z 1000000)); "occupancy" ↦ from_f64 occupancy])
    end.

(** The settings of a workload. *)
Definition settings (candidate : bool) : Value :=
  json ["seed" ↦ jnat 42; "rtol" ↦ Num (Float (ratio 1 1000)); "atol" ↦ Num (Float (ratio 1 100));
        "warmup" ↦ jnat 5; "trials" ↦ jnat 5; "set_arch" ↦ Bool candidate; "time_numerical_mismatch" ↦ Bool true].
Definition gpu_env (payload runtime : Value) (output : str) : result Value :=
  let env := json ["CUDA_VISIBLE_DEVICES" ↦ String (show_N (default 0%N (as_u64 (payload.["gpu_id"]))));
                   "TORCH_EXTENSIONS_DIR" ↦ String (join output (lit "build"));
                   "TRITON_CACHE_DIR" ↦ String (join output (lit "triton"))] in
  match as_str (runtime.["cuda_arch_list"]) with
  | Some arch => set_key env (lit "TORCH_CUDA_ARCH_LIST") (String arch)
  | None => Ok env
  end.

(** The digest of a candidate's source, checked against its submission. *)
Definition candidate_digest (payload problem : Value) : io W str :=
  source ← lift (ok_or (as_str (payload.["source"])) (lit "candidate source"));
  digest ← file_digest source;
  lift (ensure (value_eqb (payload.["source_sha256"]) (String digest)) (lit "candidate source identity mismatch"));;
  lift (ensure (value_eqb (payload.["reference"].["task_sha256"]) (problem.["sha256"]))
          (lit "reference task identity mismatch"));;
  mret digest.
Definition gpu_reference (payload problem observation env : Value) (output : str) : io W Value :=
  lift (ensure (is_null (observation.["exception"]))
          (lit "reference workload: " ++ to_string (observation.["exception"])));;
  timing ← lift (positive_timing (observation.["seconds"]) (lit "reference"));
  seconds ← lift (ok_or timing (lit "reference timing must be finite and positive"));
  available ← ncu_binary;
  profile ← (if available : bool then
               script ← write_script (lit "reference") payload;
               r ← collect env (observation.["runtime"]) output script [] false;
               lift (summarize_reference r)
             else
               mret (json ["error" ↦ jstr "NCU not available on this system"; "sm_throughput" ↦ Num (Float fzero);
                           "dram_throughput" ↦ Num (Float fzero); "latency_ms" ↦ Num (Float fzero);
                           "occupancy" ↦ Num (Float fzero)]));
  validate_task problem;;
  mret (json ["reference_seconds" ↦ from_f64 seconds; "profile" ↦ profile;
              "task_sha256" ↦ problem.["sha256"]; "validation" ↦ jstr "gpu"]).

(** The profile of a candidate that ran; a failure becomes a report. *)
Definition candidate_report (payload runtime env : Value) (output : str) : io W Value :=
  _ ← attempt (write_script (lit "benchmark") payload);
  r ← attempt (
    found ← attempt (kernel_names env runtime output);
    let names := match found with inl names => names | inr _ => [] end in
    script ← write_script (lit "candidate") payload;
    r ← collect env runtime output script names (value_eqb (payload.["ncu_full"]) (Bool true));
    s ← attempt (binary_sass env runtime output);
    lift (set_key r (lit "sass") (match s with inl v => v | inr _ => Null end)));
  mret (match r with inl v => v | inr e => json ["success" ↦ Bool false; "error" ↦ String e] end).

(** [Path::file_name] and [Path::extension]. *)
Definition file_name (path : str) : str := default path (snd <$> rsplit_once 47 path).
Definition has_extension (ext path : str) : bool :=
  match rsplit_once 46 (file_name path) with
  | Some (stem, e) => negb (is_empty stem) && str_eqb e ext
  | None => false
  end.
Definition kept_artifact (path : str) : bool :=
  has_extension (lit "so") path || str_eqb (file_name path) (lit "build.ninja").
(** Paths are ordered component by component. *)
Fixpoint components_leb (a b : list str) : bool :=
  match a, b with
  | [], _ => true
  | _, [] => false
  | x :: a, y :: b => if str_eqb x y then components_leb a b else str_leb x y
  end.
Definition path_le (a b : str) : Prop := components_leb (split_on 47 a) (split_on 47 b) = true.
#[local] Instance path_le_dec a b : Decision (path_le a b).
Proof. unfold path_le. apply _. Defined.
Fixpoint artifact_values (output : str) (paths : list str) : io W (list Value) :=
  match paths with
  | [] => mret []
  | path :: paths =>
      relative ← lift (ok_or (strip_prefix (join output []) path) (lit "prefix not found"));
      digest ← file_digest path;
      rest ← artifact_values output paths;
      mret (json ["path" ↦ String relative; "sha256" ↦ String digest] :: rest)
  end.

Definition gpu_candidate (payload problem observation env : Value) (output digest : str) : io W Value :=
  let runtime := observation.["runtime"] in
  error ← lift (candidate_error observation);
  let failed := negb (is_null error) in
  seconds ← lift (positive_timing (observation.["seconds"]) (lit "candidate"));
  lift (ensure (failed || is_some seconds) (lit "successful candidate has no timing"));;
  report ← (if failed then mret Null else candidate_report payload runtime env output);
  source ← lift (ok_or (as_str (payload.["source"])) (lit "candidate source"));
  after ← file_digest source;
  lift (ensure (str_eqb digest after) (lit "candidate source changed during evaluation"));;
  validate_task problem;;
  speedup ← lift (match seconds with
                  | Some s => reference ← ok_or (as_f64 (payload.["reference"].["reference_seconds"])) (lit "reference timing");
                              Ok (Some (fdiv reference s))
                  | None => Ok None
                  end);
  lift (ensure (is_none_or is_finite speedup) (lit "speedup must be finite"));;
  paths ← artifacts (join output (lit "build"));
  values ← artifact_values output (stable_sort path_le (filter (λ p, kept_artifact p = true) paths));
  mret (json ["outcome" ↦ json ["status" ↦ if failed then jstr "failed" else jstr "success";
                                "speedup" ↦ f64_value speedup; "error_context" ↦ error];
              "candidate_seconds" ↦ f64_value seconds; "source_sha256" ↦ String digest;
              "task_sha256" ↦ problem.["sha256"]; "profile" ↦ report;
              "build_identity" ↦ json ["torch_version" ↦ runtime.["torch_version"];
                "cuda_version" ↦ runtime.["cuda_version"]; "cuda_arch_list" ↦ runtime.["cuda_arch_list"];
                "artifacts" ↦ Array values];
              "validation" ↦ jstr "gpu";
              "profiling_options" ↦ json [
                "tool_mode" ↦ String (default (lit "proactive") (as_str (payload.["tool_mode"])));
                "ncu_full" ↦ Bool (value_eqb (payload.["ncu_full"]) (Bool true)); "nsys" ↦ Bool false]]).

Definition gpu_evaluate (operation : str) (payload : Value) : io W Value :=
  output ← lift (ok_or (as_str (payload.["output_dir"])) (lit "GPU output"));
  create_dir_all output;;
  let problem := payload.["problem"] in
  validate_task problem;;
  let candidate := str_eqb operation (lit "evaluate") in
  digest ← (if candidate then candidate_digest payload problem else mret []);
  payload ← lift (set_key payload (lit "operation") (if candidate then jstr "candidate" else jstr "reference"));
  payload ← lift (set_key payload (lit "settings") (settings candidate));
  observation ← workload payload;
  env ← lift (gpu_env payload (observation.["runtime"]) output);
  if candidate then gpu_candidate payload problem observation env output digest
  else gpu_reference payload problem observation env output.
End gpu.
End evaluation.
