(* ===== verification/EvaluationProps.v ===== *)
(** * kernel: an evaluation belongs to its source

    Every read of a file is part of the history of the world.  An evaluation that
    succeeds has read the source twice, with the digest of the submission both
    times, and its outcome is one the search accepts. *)
From Stdlib Require Import ZArith.
From S2P Require Import Prelude Str Float64 Json JsonOps Search KernelIo KernelRoles Controller Worker.
From S2P Require Import MemoryPrompt Feedback Analyzers Profilers Evaluation.

(** A history variable: what was read so far.  Everything only adds to it. *)
Class History (W : Type) {D : Disk W} {Fi : Files W} := {
  reads : W → list (str * list N);
  reads_read p w b w' : read_bytes p w = (w', Ok b) → reads w' = reads w ++ [(p, b)];
  reads_canonicalize p w r w' : canonicalize p w = (w', r) → reads w `prefix_of` reads w';
  reads_create p w r w' : create_dir_all p w = (w', r) → reads w `prefix_of` reads w';
  reads_write p s w r w' : write_file p s w = (w', r) → reads w `prefix_of` reads w';
}.
Class GpuHistory (W : Type) {D : Disk W} {Fi : Files W} {H : History W} {G : GpuTools W} := {
  reads_workload v w r w' : workload v w = (w', r) → reads w `prefix_of` reads w';
  reads_ncu w r w' : ncu_binary w = (w', r) → reads w `prefix_of` reads w';
  reads_script n v w r w' : write_script n v w = (w', r) → reads w `prefix_of` reads w';
  reads_collect e rt o s ns f w r w' : collect e rt o s ns f w = (w', r) → reads w `prefix_of` reads w';
  reads_names e rt o w r w' : kernel_names e rt o w = (w', r) → reads w `prefix_of` reads w';
  reads_sass e rt o w r w' : binary_sass e rt o w = (w', r) → reads w `prefix_of` reads w';
  reads_artifacts p w r w' : artifacts p w = (w', r) → reads w `prefix_of` reads w';
}.

Section history.
Context {W : Type} {D : Disk W} {Fi : Files W} {H : History W}.
Context (sha256 : list N → str).

(** Successful runs extend the history. *)
Definition extends {A} (m : io W A) : Prop := ∀ w w' a, m w = (w', Ok a) → reads w `prefix_of` reads w'.
Lemma extends_bind {A B} (m : io W A) (f : A → io W B) :
  extends m → (∀ a, extends (f a)) → extends (a ← m; f a).
Proof. intros Hm Hf w w' b (w1 & a & H1 & H2)%io_bind_Ok. etransitivity; [by eapply Hm|by eapply Hf]. Qed.
Lemma extends_lift {A} (r : result A) : extends (lift r).
Proof. by intros w w' a [-> _]%lift_Ok. Qed.
Lemma extends_ret {A} (a : A) : extends (mret a).
Proof. by intros w w' b [= <- _]. Qed.
Lemma extends_digest p : extends (file_digest sha256 p).
Proof.
  intros w w' d. unfold file_digest. intros (w1 & b & H1 & H2)%io_bind_Ok. injection H2 as <- _.
  rewrite (reads_read _ _ _ _ H1). by apply prefix_app_r.
Qed.
Lemma extends_validate problem : extends (validate_task sha256 problem).
Proof.
  unfold validate_task. destruct (get _ _); [|apply extends_ret].
  apply extends_bind; [apply extends_lift|intros p]. apply extends_bind; [apply extends_digest|intros d]. apply extends_lift.
Qed.
Lemma file_digest_Ok p w w' d :
  file_digest sha256 p w = (w', Ok d) → ∃ b, reads w' = reads w ++ [(p, b)] ∧ d = sha256 b.
Proof.
  unfold file_digest. intros (w1 & b & H1 & H2)%io_bind_Ok. injection H2 as <- <-. exists b.
  by rewrite (reads_read _ _ _ _ H1).
Qed.
(** A task that was validated has the file it was prepared with. *)
Definition task_read (problem : Value) (evs : list (str * list N)) : Prop :=
  ∀ expected, get problem (lit "file_sha256") = Some expected →
    ∃ path b, as_str (problem.["file_path"]) = Some path ∧ evs = [(path, b)] ∧ expected = String (sha256 b).
Lemma value_eqb_String v s : value_eqb v (String s) = true → v = String s.
Proof. destruct v; try done. simpl. by intros ->%str_eqb_eq. Qed.
Lemma validate_task_Ok problem w w' :
  validate_task sha256 problem w = (w', Ok tt) → ∃ evs, reads w' = reads w ++ evs ∧ task_read problem evs.
Proof.
  unfold validate_task, task_read. destruct (get problem (lit "file_sha256")) as [expected|]; intros Hv.
  - apply io_bind_Ok in Hv as (w1 & path & [-> Hp%ok_or_Ok]%lift_Ok & Hv).
    apply io_bind_Ok in Hv as (w2 & d & (b & Hb & ->)%file_digest_Ok & Hv). apply lift_Ok in Hv as [-> He%ensure_Ok].
    apply value_eqb_String in He as ->. exists [(path, b)]. split; [done|]. intros e [= <-]. by exists path, b.
  - injection Hv as <-. exists []. by rewrite app_nil_r.
Qed.

(** ** Outcomes *)
Context (serde_error : Value → str).
(** Null, or an object whose [max_diff] is a number. *)
Definition acceptable_error (e : Value) : bool :=
  is_null e || (is_object e && is_none_or (λ d, is_some (as_f64 d)) (get e (lit "max_diff"))).
Definition outcome_value (failed : bool) (speedup : option f64) (error : Value) : Value :=
  json ["status" ↦ if failed then jstr "failed" else jstr "success"; "speedup" ↦ f64_value speedup;
        "error_context" ↦ error].
Lemma outcome_accepted (failed : bool) speedup error :
  acceptable_error error = true → is_none_or is_finite speedup = true → failed || is_some speedup = true →
  ∃ o, outcome_from_value serde_error (outcome_value failed speedup error) = Ok o ∧ Search.validate o = Ok tt
       ∧ status o = (if failed then Failed else Success) ∧ outcome_speedup o = speedup.
Proof.
  intros He Hs Hf. exists {| status := if failed then Failed else Success; outcome_speedup := speedup;
    error_context := optional error |}. split_and!; [| |done..].
  - assert (status_from_value serde_error (if failed then jstr "failed" else jstr "success")
            = Ok (if failed then Failed else Success)) as Hst by (by destruct failed).
    assert (speedup_from_value serde_error (f64_value speedup) = Ok speedup) as Hsp.
    { destruct speedup as [x|]; [|done]. cbn [is_none_or] in Hs. unfold f64_value. cbn [from_option].
      unfold from_f64. by rewrite Hs. }
    unfold outcome_value, outcome_from_value, json. generalize dependent (f64_value speedup). intros sp Hsp.
    generalize dependent (if failed then jstr "failed" else jstr "success"). intros st Hst.
    change (only_fields serde_error [lit "status"; lit "speedup"; lit "error_context"]
      ["status" ↦ st; "speedup" ↦ sp; "error_context" ↦ error] (Object ["status" ↦ st; "speedup" ↦ sp; "error_context" ↦ error]))
      with (@Ok str unit tt).
    cbn [mbind res_bind].
    change (mget ["status" ↦ st; "speedup" ↦ sp; "error_context" ↦ error] (lit "status")) with (Some st).
    change (default Null (mget ["status" ↦ st; "speedup" ↦ sp; "error_context" ↦ error] (lit "speedup"))) with sp.
    change (default Null (mget ["status" ↦ st; "speedup" ↦ sp; "error_context" ↦ error] (lit "error_context"))) with error.
    cbn [ok_or mbind res_bind]. rewrite Hst. cbn [mbind res_bind]. rewrite Hsp. done.
  - assert (match optional error with
            | Some e => ensure (is_object e) (lit "error_context must be an object");;
                        match get e (lit "max_diff") with
                        | Some diff => ensure (is_some (as_f64 diff)) (lit "max_diff must be numeric")
                        | None => Ok tt
                        end
            | None => Ok tt
            end = Ok tt) as Hec.
    { unfold optional, acceptable_error in *. destruct (is_null error); [done|]. cbn [orb] in He.
      apply andb_true_iff in He as [-> Hd]. cbn [ensure mbind res_bind]. destruct (get error _); [|done].
      cbn [is_none_or] in Hd. by rewrite Hd. }
    unfold Search.validate. cbn [status outcome_speedup error_context]. rewrite Hec.
    destruct failed, speedup as [x|]; cbn [is_none_or] in Hs; try rewrite Hs; done.
Qed.

(** ** What an evaluation is bound to *)
Record bound (payload : Value) (w w' : W) (v : Value) : Prop := {
  (** The source was read twice with the submitted digest, the task's file after it. *)
  bound_source : ∃ source digest b0 b1 e1 e2 e3,
    as_str (payload.["source"]) = Some source
    ∧ reads w' = reads w ++ e1 ++ [(source, b0)] ++ e2 ++ [(source, b1)] ++ e3
    ∧ sha256 b0 = digest ∧ sha256 b1 = digest
    ∧ payload.["source_sha256"] = String digest ∧ v.["source_sha256"] = String digest
    ∧ ∀ expected, get (payload.["problem"]) (lit "file_sha256") = Some expected →
        ∃ path b, as_str (payload.["problem"].["file_path"]) = Some path ∧ (path, b) ∈ e3 ∧ expected = String (sha256 b);
  (** The reference was measured for the same task. *)
  bound_task : value_eqb (payload.["reference"].["task_sha256"]) (payload.["problem"].["sha256"]) = true
    ∧ v.["task_sha256"] = payload.["problem"].["sha256"];
  (** The speedup is that of the measured time, and the search takes the outcome. *)
  bound_outcome : ∃ failed seconds error,
    let speedup := (λ s, fdiv (default fzero (as_f64 (payload.["reference"].["reference_seconds"]))) s) <$> seconds in
    v.["outcome"] = outcome_value failed speedup error ∧ v.["candidate_seconds"] = f64_value seconds
    ∧ is_none_or positive seconds = true ∧ (failed = false → is_some seconds = true)
    ∧ (acceptable_error error = true →
       ∃ o, outcome_from_value serde_error (v.["outcome"]) = Ok o ∧ Search.validate o = Ok tt
            ∧ status o = (if failed then Failed else Success) ∧ outcome_speedup o = speedup);
}.

Lemma extends_write p t : extends (write_file p t).
Proof. intros w w' a. apply reads_write. Qed.
Lemma extends_create p : extends (create_dir_all p).
Proof. intros w w' a. apply reads_create. Qed.
Lemma extends_canonicalize p : extends (canonicalize p).
Proof. intros w w' a. apply reads_canonicalize. Qed.
Lemma extends_attempt {A} (m : io W A) :
  (∀ w w' r, m w = (w', r) → reads w `prefix_of` reads w') → extends (attempt m).
Proof.
  intros Hm w w' a. unfold attempt. destruct (m w) as [w1 [x|e|]] eqn:E; [| |done]; intros [= <- _]; by eapply Hm.
Qed.

Lemma bound_outcome_intro failed seconds error payload v :
  let speedup := (λ s, fdiv (default fzero (as_f64 (payload.["reference"].["reference_seconds"]))) s) <$> seconds in
  v.["outcome"] = outcome_value failed speedup error → v.["candidate_seconds"] = f64_value seconds →
  is_none_or positive seconds = true → failed || is_some seconds = true → is_none_or is_finite speedup = true →
  ∃ failed seconds error,
    let speedup := (λ s, fdiv (default fzero (as_f64 (payload.["reference"].["reference_seconds"]))) s) <$> seconds in
    v.["outcome"] = outcome_value failed speedup error ∧ v.["candidate_seconds"] = f64_value seconds
    ∧ is_none_or positive seconds = true ∧ (failed = false → is_some seconds = true)
    ∧ (acceptable_error error = true →
       ∃ o, outcome_from_value serde_error (v.["outcome"]) = Ok o ∧ Search.validate o = Ok tt
            ∧ status o = (if failed then Failed else Success) ∧ outcome_speedup o = speedup).
Proof.
  intros speedup Ho Hc Hp Hf Hs. exists failed, seconds, error. cbv zeta. fold speedup. split_and!; [done..| |].
  - by intros ->.
  - intros He. rewrite Ho. apply outcome_accepted; [done..|]. unfold speedup. by destruct seconds.
Qed.
End history.

Section simulated.
Context {W : Type} {D : Disk W} {Fi : Files W} {H : History W}.
Context (sha256 : list N → str) (serde_error : Value → str).
Context (csv_headers : str → option (list str)) (csv_records : str → option (list (list str))).
Context (speedup_pattern : str → option str) (patterns : list (str * str)) (matches : str → str → nat).

Lemma extends_report payload output :
  extends (report csv_headers csv_records speedup_pattern patterns matches serde_error payload output).
Proof.
  unfold report. repeat first [ apply extends_bind; [|intros ?] | apply extends_lift | apply extends_write | apply extends_ret ].
Qed.
Lemma simulated_bound payload w w' v :
  Evaluation.simulated_evaluate sha256 csv_headers csv_records speedup_pattern patterns matches serde_error payload w = (w', Ok v) →
  bound sha256 serde_error payload w w' v.
Proof.
  intros Hv. unfold Evaluation.simulated_evaluate in Hv.
  apply io_bind_Ok in Hv as (w1 & output & [-> _]%lift_Ok & Hv).
  apply io_bind_Ok in Hv as (w2 & [] & [e1 H1]%reads_create & Hv).
  apply io_bind_Ok in Hv as (w3 & out & [e2 H2]%reads_canonicalize & Hv).
  apply io_bind_Ok in Hv as (w4 & source & [-> Hsrc%ok_or_Ok]%lift_Ok & Hv).
  apply io_bind_Ok in Hv as (w5 & digest & (b0 & H3 & Hd0)%file_digest_Ok & Hv).
  apply io_bind_Ok in Hv as (w6 & [] & [-> Hid%ensure_Ok]%lift_Ok & Hv). apply value_eqb_String in Hid.
  apply io_bind_Ok in Hv as (w7 & [] & (e3 & H4 & _)%validate_task_Ok & Hv).
  apply io_bind_Ok in Hv as (w8 & [] & [-> Htask%ensure_Ok]%lift_Ok & Hv).
  apply io_bind_Ok in Hv as (w9 & rep & Hrep & Hv).
  assert (reads w7 `prefix_of` reads w9) as [e4 H5].
  { revert Hrep. destruct (has_entries _); [by intros [= <- _]|]. apply extends_report. }
  apply io_bind_Ok in Hv as (w10 & after & (b1 & H6 & Hd1)%file_digest_Ok & Hv).
  apply io_bind_Ok in Hv as (w11 & [] & [-> Hsame%ensure_Ok]%lift_Ok & Hv). apply str_eqb_eq in Hsame.
  apply io_bind_Ok in Hv as (w12 & [] & (e5 & H7 & Ht)%validate_task_Ok & Hv).
  apply io_bind_Ok in Hv as (w13 & [] & [-> Hpos]%lift_Ok & Hv).
  apply io_bind_Ok in Hv as (w14 & [] & [-> Hsome%ensure_Ok]%lift_Ok & Hv).
  apply io_bind_Ok in Hv as (w15 & [] & [-> Hfin%ensure_Ok]%lift_Ok & Hv).
  injection Hv as <- <-. split.
  - exists source, digest, b0, b1, (e1 ++ e2), (e3 ++ e4), e5. split_and!; try done.
    + rewrite H7, H6, H5, H4, H3, H2, H1. by rewrite <-!app_assoc.
    + congruence.
    + intros expected Hex. destruct (Ht expected Hex) as (path & b & Hp & -> & ->). exists path, b. split_and!; [done|left|done].
  - by split.
  - eapply bound_outcome_intro; [reflexivity|reflexivity| |exact Hsome|exact Hfin].
    destruct (payload.["fixture"].["candidate_seconds"]); cbn in Hpos |- *; try done. by destruct (positive _).
Qed.
End simulated.

Section gpu.
Context {W : Type} {D : Disk W} {Fi : Files W} {H : History W} {G : GpuTools W} {GH : GpuHistory W}.
Context (sha256 : list N → str) (serde_error : Value → str) (to_string : Value → str).

(** Every run, also a failing one, extends the history. *)
Definition always_extends {A} (m : io W A) : Prop := ∀ w w' r, m w = (w', r) → reads w `prefix_of` reads w'.
Lemma always_bind {A B} (m : io W A) (f : A → io W B) :
  always_extends m → (∀ a, always_extends (f a)) → always_extends (a ← m; f a).
Proof.
  intros Hm Hf w w' r. unfold mbind, io_bind. destruct (m w) as [w1 [a|e|]] eqn:E; intros Hr.
  - etransitivity; [by eapply Hm|by eapply Hf].
  - injection Hr as <- _. by eapply Hm.
  - injection Hr as <- _. by eapply Hm.
Qed.
Lemma always_lift {A} (r : result A) : always_extends (lift r).
Proof. by intros w w' r' [= <- _]. Qed.
Lemma always_attempt {A} (m : io W A) : always_extends m → always_extends (attempt m).
Proof.
  intros Hm w w' r. unfold attempt. destruct (m w) as [w1 [x|e|]] eqn:E; intros [= <- _]; by eapply Hm.
Qed.
Lemma extends_candidate_report payload runtime env output : extends (candidate_report payload runtime env output).
Proof.
  unfold candidate_report. apply extends_bind; [apply extends_attempt; intros w w' r; apply reads_script|intros _].
  apply extends_bind; [|intros r; apply extends_ret]. apply extends_attempt.
  apply always_bind; [apply always_attempt; intros w w' r; apply reads_names|intros found].
  apply always_bind; [intros w w' r; apply reads_script|intros script].
  apply always_bind; [intros w w' r; apply reads_collect|intros rep].
  apply always_bind; [apply always_attempt; intros w w' r; apply reads_sass|intros s]. apply always_lift.
Qed.
Lemma extends_artifact_values output paths : extends (artifact_values sha256 output paths).
Proof.
  induction paths as [|p ps IH]; cbn [artifact_values]; [apply extends_ret|].
  apply extends_bind; [apply extends_lift|intros rel]. apply extends_bind; [apply extends_digest|intros d].
  apply extends_bind; [apply IH|intros rest]. apply extends_ret.
Qed.
Lemma positive_timing_Ok v label o : positive_timing v label = Ok o → is_none_or positive o = true.
Proof.
  unfold positive_timing. destruct (is_null v); [by intros [= <-]|]. destruct (as_f64 v) as [x|]; [|done].
  cbn [ok_or mbind res_bind]. destruct (positive x) eqn:E; [|done]. intros [= <-]. done.
Qed.
(** The two entries that are added to a payload hide no other. *)
Lemma set_key_at v k x u k' : set_key v k x = Ok u → str_eqb k k' = false → at_key u k' = at_key v k'.
Proof.
  unfold set_key, at_key. intros Hu Hk. destruct v as [| | | | |m]; try done; injection Hu as <-; rewrite get_Object.
  - by rewrite mget_cons, Hk.
  - rewrite get_Object, mget_minsert. by rewrite Hk.
Qed.

Lemma gpu_candidate_Ok payload problem observation env output digest w w' v :
  gpu_candidate sha256 payload problem observation env output digest w = (w', Ok v) →
  ∃ source b1 e1 et e3 failed seconds error,
    let speedup := (λ s, fdiv (default fzero (as_f64 (payload.["reference"].["reference_seconds"]))) s) <$> seconds in
    as_str (payload.["source"]) = Some source
    ∧ reads w' = reads w ++ e1 ++ [(source, b1)] ++ et ++ e3 ∧ sha256 b1 = digest ∧ task_read sha256 problem et
    ∧ v.["source_sha256"] = String digest ∧ v.["task_sha256"] = problem.["sha256"]
    ∧ v.["outcome"] = outcome_value failed speedup error ∧ v.["candidate_seconds"] = f64_value seconds
    ∧ is_none_or positive seconds = true ∧ failed || is_some seconds = true ∧ is_none_or is_finite speedup = true.
Proof.
  intros Hv. unfold gpu_candidate in Hv.
  apply io_bind_Ok in Hv as (w1 & error & [-> Herr]%lift_Ok & Hv).
  apply io_bind_Ok in Hv as (w2 & seconds & [-> Hsec%positive_timing_Ok]%lift_Ok & Hv).
  apply io_bind_Ok in Hv as (w3 & [] & [-> Hsome%ensure_Ok]%lift_Ok & Hv).
  apply io_bind_Ok in Hv as (w4 & rep & Hrep & Hv).
  assert (reads w `prefix_of` reads w4) as [e1 H1].
  { revert Hrep. destruct (negb (is_null error)); [by intros [= <- _]|]. apply extends_candidate_report. }
  apply io_bind_Ok in Hv as (w5 & source & [-> Hsrc%ok_or_Ok]%lift_Ok & Hv).
  apply io_bind_Ok in Hv as (w6 & after & (b1 & H2 & Hd1)%file_digest_Ok & Hv).
  apply io_bind_Ok in Hv as (w7 & [] & [-> Hsame%ensure_Ok]%lift_Ok & Hv). apply str_eqb_eq in Hsame.
  apply io_bind_Ok in Hv as (w8 & [] & (et & H3 & Ht)%validate_task_Ok & Hv).
  apply io_bind_Ok in Hv as (w9 & speedup & [-> Hspeed]%lift_Ok & Hv).
  assert (speedup = (λ s, fdiv (default fzero (as_f64 (payload.["reference"].["reference_seconds"]))) s) <$> seconds) as ->.
  { destruct seconds as [x|]; [|by injection Hspeed as <-]. destruct (as_f64 _) as [r|]; [|done]. by injection Hspeed as <-. }
  apply io_bind_Ok in Hv as (w10 & [] & [-> Hfin%ensure_Ok]%lift_Ok & Hv).
  apply io_bind_Ok in Hv as (w11 & paths & [e3 H4]%reads_artifacts & Hv).
  apply io_bind_Ok in Hv as (w12 & values & [e4 H5]%extends_artifact_values & Hv).
  injection Hv as <- <-. exists source, b1, e1, et, (e3 ++ e4), (negb (is_null error)), seconds, error. cbv zeta.
  split_and!; try done; [|congruence]. rewrite H5, H4, H3, H2, H1. by rewrite <-!app_assoc.
Qed.
Lemma gpu_bound payload w w' v :
  Evaluation.gpu_evaluate sha256 to_string (lit "evaluate") payload w = (w', Ok v) →
  bound sha256 serde_error payload w w' v.
Proof.
  intros Hv. unfold Evaluation.gpu_evaluate in Hv.
  apply io_bind_Ok in Hv as (w1 & output & [-> _]%lift_Ok & Hv).
  apply io_bind_Ok in Hv as (w2 & [] & [e1 H1]%reads_create & Hv).
  apply io_bind_Ok in Hv as (w3 & [] & (e2 & H2 & _)%validate_task_Ok & Hv).
  rewrite str_eqb_refl in Hv. apply io_bind_Ok in Hv as (w4 & digest & Hdig & Hv). unfold candidate_digest in Hdig.
  apply io_bind_Ok in Hdig as (w5 & source & [-> Hsrc%ok_or_Ok]%lift_Ok & Hdig).
  apply io_bind_Ok in Hdig as (w6 & d & (b0 & H3 & Hd0)%file_digest_Ok & Hdig).
  apply io_bind_Ok in Hdig as (w7 & [] & [-> Hid%ensure_Ok]%lift_Ok & Hdig). apply value_eqb_String in Hid.
  apply io_bind_Ok in Hdig as (w8 & [] & [-> Htask%ensure_Ok]%lift_Ok & Hdig). injection Hdig as -> ->.
  apply io_bind_Ok in Hv as (w9 & p1 & [-> Hp1]%lift_Ok & Hv).
  apply io_bind_Ok in Hv as (w10 & p2 & [-> Hp2]%lift_Ok & Hv).
  assert (∀ k, str_eqb (lit "operation") k = false → str_eqb (lit "settings") k = false → at_key p2 k = at_key payload k) as Hat.
  { intros k Hk1 Hk2. rewrite (set_key_at _ _ _ _ _ Hp2 Hk2). by apply (set_key_at _ _ _ _ _ Hp1). }
  apply io_bind_Ok in Hv as (w11 & obs & [e3 H4]%reads_workload & Hv).
  apply io_bind_Ok in Hv as (w12 & env & [-> _]%lift_Ok & Hv).
  apply gpu_candidate_Ok in Hv as (source' & b1 & e4 & et & e5 & failed & seconds & error & Hsrc' & Hr & Hd1 & Ht & Hvs & Hvt & Ho & Hc & Hpos & Hsome & Hfin).
  rewrite (Hat (lit "source")) in Hsrc' by (by vm_compute). rewrite Hsrc in Hsrc'. injection Hsrc' as <-.
  rewrite (Hat (lit "reference")) in Ho, Hfin by (by vm_compute).
  split; [|by split|by eapply bound_outcome_intro].
  exists source, digest, b0, b1, (e1 ++ e2), (e3 ++ e4), (et ++ e5). split_and!; try done.
  - rewrite Hr, H4, H3, H2, H1. by rewrite <-!app_assoc.
  - intros expected Hex. destruct (Ht expected Hex) as (path & b & Hp & -> & ->). exists path, b. split_and!; [done|left|done].
Qed.
End gpu.

Section evaluations.
Context {W : Type} {D : Disk W} {Fi : Files W} {H : History W} {G : GpuTools W} {GH : GpuHistory W}.
Context (sha256 : list N → str) (serde_error : Value → str) (to_string : Value → str).
Context (csv_headers : str → option (list str)) (csv_records : str → option (list (list str))).
Context (speedup_pattern : str → option str) (patterns : list (str * str)) (matches : str → str → nat).

(** C18: an evaluation of a candidate, simulated or on a GPU, belongs to its source:
    the file was read at the beginning and again after the measurements, with the
    submitted digest both times, and the file of the task still is the prepared
    one; the reference was measured for the same task; the speedup is the quotient
    of the measured times, which are positive; and, unless the error context is
    malformed, the search accepts the outcome with that status and speedup. *)
Theorem evaluation_belongs_to_its_source payload w w' v :
  Evaluation.simulated_evaluate sha256 csv_headers csv_records speedup_pattern patterns matches serde_error payload w = (w', Ok v)
  ∨ Evaluation.gpu_evaluate sha256 to_string (lit "evaluate") payload w = (w', Ok v) →
  bound sha256 serde_error payload w w' v.
Proof. intros [Hv|Hv]; [by eapply simulated_bound|by eapply gpu_bound]. Qed.
End evaluations.
