(* ===== verification/DomainWitness.v ===== *)
(** * kernel: the domain on concrete data *)
From Stdlib Require Import ZArith.
From S2P Require Import Prelude Str Float64 Json JsonOps Search KernelIo KernelRoles Controller Worker Fmt.
From S2P Require Import KernelAssets Feedback Analyzers Analysis AnalyzerProps Profilers ProfilersProps.
From S2P Require Import Evaluation EvaluationProps.

Definition no_text (_ : Value) : str := lit "?".

(** ** A rule report *)
(** A line with a percent sign gives half. *)
Definition demo_pattern (line : str) : option str := if bool_decide (37%N ∈ line) then Some (lit "50") else None.
Lemma trim_keeps c s : is_whitespace c = false → c ∈ trim s ↔ c ∈ s.
Proof.
  intros Hc. unfold trim. assert (∀ t, c ∈ drop_while is_whitespace t ↔ c ∈ t) as Hd.
  { intros t. destruct (drop_while_suffix is_whitespace t) as (k & Hk & Hall). rewrite Hk at 2. rewrite elem_of_app.
    split; [by right|]. intros [Hin|Hin]; [|done]. rewrite Forall_forall in Hall. by rewrite Hall in Hc. }
  unfold trim_start, trim_end. rewrite Hd. rewrite elem_of_reverse, Hd. by rewrite elem_of_reverse.
Qed.
#[local] Instance demo_pattern_laws : SpeedupPattern demo_pattern.
Proof.
  split.
  - intros line c. unfold demo_pattern. case_bool_decide; [|done]. by intros [= <-].
  - intros line. unfold demo_pattern. by rewrite (bool_decide_ext _ _ (trim_keeps 37%N line eq_refl)).
Qed.
Definition demo_rules : str := lit "Est. Speedup: 50%" ++ [LF] ++ lit "  Use shared memory" ++ [LF] ++ lit "  in tiles" ++ [LF].
Lemma rules_witness :
  ∃ out, rules demo_pattern demo_rules = Ok (Array (rule_value <$> out)) ∧ StronglySorted speedup_ge out
         ∧ out ≡ₚ [(of_Z 50, lit "Use shared memory in tiles")].
Proof.
  destruct (rules_rank_all_findings demo_pattern demo_rules) as (out & Hr & Hp & Hs & _). exists out.
  split; [exact Hr|]. split; [exact Hs|]. rewrite Hp.
  assert (findings demo_pattern (lines demo_rules) = [(of_Z 50, lit "Use shared memory in tiles")]) as -> by (vm_compute; reflexivity).
  reflexivity.
Defined.

(** ** An analysis *)
Definition demo_payload : Value :=
  json ["tool_mode" ↦ jstr "proactive"; "bottleneck" ↦ jstr "memory_bound";
        "report" ↦ json ["kernel_names" ↦ Array [jstr "k"];
          "metrics" ↦ json ["k" ↦ json ["dram__throughput.avg.pct_of_peak_sustained_elapsed" ↦ jnat 97]];
          "sass" ↦ Null]].
Lemma analysis_witness :
  is_ok (analyze no_text demo_payload) = true.
Proof.
  destruct (analysis_answers_well_formed_reports no_text demo_payload) as (_ & _ & H).
  destruct H as (text & tools & E & _); [by vm_compute..|]. rewrite E. reflexivity.
Defined.

(** ** An evaluation *)
Definition Trail : Type := list (str * list N).
#[local] Instance trail_disk : Disk Trail := {
  create_dir_all := λ _ e, (e, Ok tt);
  write_file := λ _ _ e, (e, Ok tt);
}.
#[local] Instance trail_files : Files Trail := {
  read_bytes := λ p e, (e ++ [(p, [1%N])], Ok [1%N]);
  canonicalize := λ p e, (e, Ok p);
}.
#[local] Instance trail_history : History Trail.
Proof. refine {| reads := λ e : Trail, e |}; [by intros p w b w' [= <- <-]|by intros * [= <- _]..]. Defined.
#[local] Instance trail_gpu : GpuTools Trail := {
  workload := λ _ e, (e, Ok (json ["exception" ↦ Null; "comparison" ↦ json ["correct" ↦ Bool true];
                                   "seconds" ↦ jnat 2; "runtime" ↦ json []]));
  ncu_binary := λ e, (e, Ok true);
  write_script := λ n _ e, (e, Ok n);
  collect := λ _ _ _ _ _ _ e, (e, Ok (json ["success" ↦ Bool true]));
  kernel_names := λ _ _ _ e, (e, Ok []);
  binary_sass := λ _ _ _ e, (e, Ok Null);
  artifacts := λ _ e, (e, Ok [lit "/out/build/k.so"; lit "/out/build/notes"]);
}.
#[local] Instance trail_gpu_history : GpuHistory Trail.
Proof. split; by intros * [= <- _]. Qed.
Definition demo_digest (_ : list N) : str := lit "d1".
Definition demo_candidate : Value :=
  json ["output_dir" ↦ jstr "/out"; "source" ↦ jstr "/src/a.py"; "source_sha256" ↦ jstr "d1";
        "problem" ↦ json ["sha256" ↦ jstr "t1"; "file_sha256" ↦ jstr "d1"; "file_path" ↦ jstr "/task.py"];
        "reference" ↦ json ["task_sha256" ↦ jstr "t1"; "reference_seconds" ↦ jnat 6]].
Definition demo_run : Trail * result Value :=
  Evaluation.gpu_evaluate demo_digest no_text (lit "evaluate") demo_candidate [].
Lemma evaluation_witness :
  ∃ v, demo_run.2 = Ok v ∧ v.["source_sha256"] = jstr "d1" ∧ v.["task_sha256"] = jstr "t1".
Proof.
  assert (∃ v, demo_run = (demo_run.1, Ok v)) as [v E] by (eexists; vm_compute; reflexivity).
  exists v. split; [by rewrite E|].
  destruct (evaluation_belongs_to_its_source demo_digest no_text no_text (λ _, None) (λ _, None) demo_pattern [] (λ _ _, 0)
    demo_candidate [] demo_run.1 v (or_intror E)) as [(source & digest & b0 & b1 & e1 & e2 & e3 & _ & _ & _ & _ & Hp & Hv & _) [_ Ht] _].
  split; [rewrite Hv; vm_compute in Hp; by injection Hp as <-|exact Ht].
Defined.
(** The source, the task, the source again, the task again and the binary. *)
Example evaluation_trail :
  demo_run.1.*1 = [lit "/task.py"; lit "/src/a.py"; lit "/src/a.py"; lit "/task.py"; lit "/out/build/k.so"].
Proof. vm_compute. reflexivity. Qed.
